(* ===== verification/_CoqProject ===== *)
-Q . S2P
Prelude.v
J1939Id.v
J1939Tp.v
J1939TpInv.v
J1939TpPoll.v
J1939TpSafe.v
J1939Packet.v
J1939TpBam.v
J1939TpConn.v
J1939TpEtp.v
J1939AddrClaim.v
J1939ClaimBus.v
ExecGraph.v
ExecGraphOk.v
ExecSched.v
ExecSchedOk.v
ExecRing.v
ExecSchedRing.v
ExecFault.v
StatsMinMax.v
StatsHist.v
StatsCycle.v
ExecGrid.v
ExecTask.v
ExecAttach.v
ExecJobs.v
ExecLoop.v
ExecLoopOk.v
ExecRunOk.v
ExecPool.v
BoundedAlloc.v
IdlBits.v
TelemetryRing.v
ConnHealth.v
UiCell.v
UiPump.v
UiCommand.v
MedModel.v
MedLocks.v
MedTime.v
MedView.v
MedViewOk.v
MedStore.v
MedEvents.v
MedEventsOk.v
MedDiffOk.v
MedActions.v
MedActionsOk.v
MedAuth.v
MedRoutes.v
MedRoutesOk.v
J1939Dispatch.v
J1939DispatchOk.v
J1939DispatchNet.v
CanConn.v
CanConnOk.v
EcatPdi.v
EcatRunner.v
EcatRunnerOk.v
EcatBus.v
EcatBusOk.v
MqttTopic.v
MqttConn.v
MqttConnOk.v
MqttHealthOk.v
Cia402.v
MotionTopo.v
MotionTopoOk.v
MotionNc.v
MotionNcOk.v
ZenohWire.v
ZenohConn.v
ZenohConnOk.v
EsiModel.v
EsiDto.v
EsiRaw.v
Netcfg.v
NetcfgGen.v
NetcfgOk.v
