(* ===== verification/Prelude.v ===== *)
(** * A verification of taktora

    taktora is a framework for cyclic control applications in Rust: an executor
    runs graphs of items on a worker pool, connectors exchange messages with field
    buses through shared-memory channels, and statistics and telemetry describe
    how well the cycles are kept.  This development models its core in Rocq and
    proves what makes it correct.  Source paths below are relative to src/crates/.

    ** Parts and how they interact

    - _Executor_ (taktora-executor).  Tasks are registered with triggers, budgets
      and fault handlers (executor.rs, task table); [run] waits on the attached
      triggers or on the cycle grid (grid.rs), resolves what woke it
      (attachment_map.rs), dispatches task jobs to the worker pool (pool.rs), waits
      at a barrier, records timing and routes faults (fault.rs).  A graph of items
      ([GraphBuilder], graph.rs) is one such job: a job that finishes a vertex
      releases its successors through a lock-free ready ring (ready_ring.rs).
    - _Bounded allocator_ (taktora-bounded-alloc): a lock-free block allocator for
      code that must not use the heap.
    - _J1939 connector_ (taktora-connector-j1939).  The dispatcher of an interface
      drains outbound channels, feeds received frames to the transport-protocol
      engine (tp.rs) and the address-claim engine (addr_claim.rs), publishes
      single frames and reassembled messages on matching inbound channels
      (dispatcher.rs, registry.rs, routing.rs, decode.rs), and shows the claim
      state to writers through a gate (writer.rs).
    - _CAN connector_ (taktora-connector-can).  Per interface, a dispatcher compiles
      the routings of the inbound channels to kernel filters (filter.rs), sends what
      the outbound channels hold, publishes received frames on matching channels and
      reconnects after bus errors (dispatcher.rs, registry.rs, real.rs); channels
      are created while it runs (connector.rs).
    - _EtherCAT connector_ (taktora-connector-ethercat).  A driver brings the bus up
      from device maps (ethercrab_driver.rs, sdo.rs, watchdog.rs, op_transition.rs); a
      runner exchanges process data once per interval, judges the working counter and
      recovers a failed bus (runner.rs, scheduler.rs, wkc.rs, health.rs); a dispatcher
      copies between channels and bit slices of the process image (dispatcher.rs,
      pdi.rs).
    - _MQTT connector_ (taktora-connector-mqtt).  Readers subscribe filters, counted
      per channel (inbound.rs, connector.rs); a pump feeds what the client receives to
      a demultiplexer that matches topics (matcher.rs, topic.rs) and sends to the
      channels' ports; a watcher maps the session to health and replays subscriptions
      after a reconnection; outbound channels are drained to publishes (dispatcher.rs).
    - _EtherCAT configuration_ (taktora-ethercat-esi, taktora-ethercat-netcfg and its
      codegen).  Device descriptions are converted to their in-memory form (dto.rs,
      raw_xml.rs), the process data a device uses is selected (resolve.rs), the network
      is checked, its watchdogs computed, and the map and routings the EtherCAT
      connector starts from are generated.
    - _Zenoh connector_ (taktora-connector-zenoh).  Beside publishing and subscribing,
      queries: a task per query, whose reply stream is closed under a lock by the end
      of the stream or by a timeout, never both.
    - _Motion_ (taktora-motion with its protocol, taktora-cia402).  A cycle applies
      commands, ticks the axes masters first, exchanges with the drives, and stops what
      the engaged couplings connect to a faulted axis (cycle.rs, axis.rs, topology.rs);
      each axis walks its drive through the CiA 402 states (power.rs, state.rs).
    - _Connector health_ (taktora-connector-core, taktora-connector-can): the state
      machine every connector reports and the per-interface monitor the
      dispatchers drive.
    - _UI connector_ (taktora-connector-ui).  The control thread writes properties
      to seqlock cells (cell.rs, property.rs); a pump thread publishes what changed
      (pump.rs); commands come back through a handler with a retry cache
      (command.rs).
    - _Diagnostic gateway_ (taktora-medkit-gateway, taktora-medkit-gateway-axum with
      the model, provider and manifest crates).  Provider snapshots and a manifest
      are merged into a view that resolvers serve (view.rs); a loop polls the
      provider, diffs views into events, keeps them in a ring and streams them
      (triggers.rs); triggers, cyclic subscriptions (cyclic.rs) and locks (locks.rs)
      are registries behind request handlers; operations, configurations, files,
      scripts, updates and lifecycle go through an action sink (action.rs and one
      handler file per family); auth.rs issues tokens; lib.rs mounts the routes.
    - _Statistics_ (taktora-stats): windowed extremes, histogram percentiles and
      the per-cycle aggregators that publish them.
    - _Telemetry export_ (taktora-telemetry-export/src/ring.rs): the ring that
      hands records from the control thread to an exporter.
    - _Wire format_ (taktora-idl-wire): the bit packing generated message code
      calls.

    ** Files

    - [Prelude]: the panic monad [res], slices, machine arithmetic, shared
      lemmas and tactics.
    - [J1939Id]: decode.rs and routing.rs.  [J1939Tp]: tp.rs, one definition per
      handler; [J1939TpInv], [J1939TpPoll], [J1939TpSafe]: its invariant, timer
      sweep and reachable states; [J1939Packet], [J1939TpBam], [J1939TpConn],
      [J1939TpEtp]: the three transports end to end.  [J1939AddrClaim],
      [J1939ClaimBus]: addr_claim.rs, one engine and a bus of engines.
      [J1939Dispatch]: dispatcher.rs, registry.rs, writer.rs, with the CAN frames
      and channel ports they use; [J1939DispatchOk], [J1939DispatchNet]: the gate,
      delivery, and a broadcast message from one node's channel to another's.
    - [CanConn], [CanConnOk]: the CAN connector on the frames and ports of
      [J1939Dispatch], and how frames reach its channels.
    - [EcatPdi]: the bit copies.  [EcatRunner], [EcatRunnerOk]: cycle, recovery and
      dispatcher over a class of bus drivers, of which the mock is an instance.
      [EcatBus], [EcatBusOk]: the driver over ethercrab, itself a class, and the trace
      of its calls.
    - [MqttTopic]: topics, filters, the matcher, routings.  [MqttConn]: the rest of the
      MQTT connector; [MqttConnOk], [MqttHealthOk]: its inbound path and its health.
    - [EsiModel]: text and numbers, value types and the in-memory form of a device
      description; [EsiDto]: its conversion; [EsiRaw]: the vendor extensions, over the
      events of the XML reader.  [Netcfg]: process-data selection and the network
      configuration; [NetcfgGen]: its validation and what is generated; [NetcfgOk]:
      that it is what [EcatPdi] and [EcatBus] need.
    - [ZenohWire]: key expressions, routing, options, query ids, reply frames, health.
      [ZenohConn]: the connector, its dispatcher, query tasks and handles, and the
      in-process session; [ZenohConnOk]: its reply streams.
    - [Cia402]: the power state machine against a model of a drive.  [MotionTopo],
      [MotionTopoOk]: topology.rs and the tick order.  [MotionNc], [MotionNcOk]: axes,
      cycle and virtual bus, and the fault reaction; trajectory generators are a class.
    - [ExecGraph], [ExecGraphOk]: GraphBuilder.  [ExecSched], [ExecSchedOk]: a run
      as a transition system of jobs, pool and dispatching thread over a queue.
      [ExecRing]: ready_ring.rs; [ExecSchedRing]: the run on the single atomic
      accesses of the ring, as a refinement of the former.  [ExecFault]: fault.rs.
      [ExecGrid]: grid.rs.  [ExecTask]: the task table and its registration.
      [ExecAttach]: attachment_map.rs.  [ExecJobs], [ExecLoop]: jobs, wakes and the
      run entry points of executor.rs; [ExecLoopOk], [ExecRunOk]: their invariants
      and returns.  [ExecPool]: pool.rs on its single lock, queue and wakeup steps.
    - [BoundedAlloc]: the allocator on its single atomic accesses.
    - [UiCell]: cell.rs, property.rs, viewmodel.rs, hot_scalar.rs.  [UiPump]:
      pump.rs and the entries it serves.  [UiCommand]: command.rs.
    - [MedModel]: the data of the diagnostic model.  [MedTime]: [iso8601].
      [MedView], [MedViewOk]: view.rs with the manifest and mock provider, and what
      merging yields.  [MedStore]: the two registries, against a class of
      registries.  [MedEvents], [MedEventsOk], [MedDiffOk]: events, the hand-off to
      a client, and what a diff announces.  [MedLocks]: locks.rs.  [MedActions],
      [MedActionsOk]: the action sink, its handlers, and what stays stored.
      [MedAuth]: auth.rs.  [MedRoutes], [MedRoutesOk]: the mounted routes, the
      documents that advertise them, and the read core.
    - [StatsMinMax], [StatsHist], [StatsCycle]: minmax.rs, histogram.rs, and
      cyclestats.rs, execcycle.rs, connector.rs on the class [Aggregator].
    - [IdlBits]: bits.rs.  [TelemetryRing]: ring.rs.  [ConnHealth]: both health.rs.

    ** How code is modelled

    A function that can panic (index, slice, [expect], overflow under checks)
    returns [res]; errors are sums; state is passed explicitly, in the dispatcher
    through the monad [Dispatch.M] that keeps the state on an error.  Integers are
    [Z] with their width written out ([wrap], [sat_sub], [sat_add]).  A [HashMap] is
    a [gmap]; where the code depends on its iteration order, the order is the class
    [HashIter], of which only a permutation is known; a [BTreeMap] that is iterated
    is sorted by its keys.  Concurrent code is a step relation in which each atomic
    access (or each lock-protected call) is a step and steps interleave freely,
    under sequential consistency.  Time is an argument of each call.

    ** What is shown

    - Executor: [finish] accepts exactly the valid graphs; in every interleaving
      of a run whose items continue each vertex executes exactly once and after
      its predecessors, nothing panics on the queue, and the run can always
      complete; the ring-based scheduler refines the queue-based one up to one
      exactly described panic; fault words behave as cells.  Registration builds
      well-typed tables; the grid and the attachment map are equivalent to naive
      references; no entry ever has two jobs in flight, faults balance with their
      clears, every run is bracketed by its events; the pool's barrier is
      quiescent and no wakeup is lost.
    - Allocator: live blocks are disjoint in every interleaving, and an undisturbed
      allocation returns within a known number of steps.
    - J1939: reachable transport engines stay within their bounds and handle every
      frame without a panic except one exactly described ETP.CTS; BAM, RTS/CTS and
      ETP transfers deliver the payload once and release their sessions; a quiet
      bus has unique owners and the lowest NAME keeps its address; identifiers
      round-trip; the gate follows the claim while iterations succeed; frames and
      reassembled messages reach exactly the matching channels.
    - CAN: compiled filters are exact; in every reachable state of an interface loop
      the kernel passes each frame that a registered channel matches, and a frame is
      published on exactly the matching channels, or ends the loop if one of them is
      too small for it.
    - EtherCAT: slices of the process image are independent and round-trip; the
      health follows the working counter in every reachable state and every iteration
      returns; over a reflecting bus writers reach readers within a cycle; the bus is
      operational only after a whole configuration, in order and read back.
    - MQTT: matching is that of the standard up to its dollar topics; while no request
      is refused the broker holds the filter of every channel, across reconnections, and
      messages reach exactly the matching channels; health follows the session.
    - EtherCAT configuration: output devices carry an enabled watchdog within half the
      fault interval; generated routings address their device, inside its image and
      apart from each other; the vendor extensions kept are those of the document tree.
    - Zenoh: in every reachable state a reply stream is data closed by at most one
      terminator until its seal is evicted, and only one call can panic.
    - Motion: quick-stop sets and tick orders are exact for every topology; a cycle
      never panics and stops exactly the axes at fault and those coupled to them; a drive
      is enabled within four cycles, with the one exception stated.
    - UI: a cell is an atomic register with one writer and its reads return;
      subscribers are brought up to date, except for a refused publish; the retry
      cache is a least-recently-used map and a retry within its window has no
      second effect.
    - Gateway: merging is total and exact and the tree can be walked; timestamps
      follow the Gregorian calendar; a diff announces exactly the differences, a
      client that follows the stream knows the reported faults, and connecting
      neither skips nor repeats an event within the ring; entities do not see each
      other's registrations; a lock is exclusive until it expires; what a write
      reported stays readable until it is addressed; tokens decode to their claims;
      what is advertised is mounted, with two exceptions that are stated; the read
      core answers without a panic, with status codes that agree with its lists.
    - Health: the aggregate is the worst-of rule, events form a legal path,
      subscriptions are complete; recovery is characterised, with the reachable
      state from which it fails.
    - Statistics: extremes are exact, percentiles are within one percent of the
      exact windowed percentile, snapshots report what the cycles were.
    - Telemetry ring: in every interleaving outcomes account exactly for the
      published records.  Wire format: packing round-trips and touches nothing
      else.

    ** Bounds and fuel

    Loops over a [Vec] or a range are structural.  The two graph searches carry
    fuel (one more than the vertices, two more than the edges), deque pops one
    more than the length, Euclid's algorithm on 64-bit periods 130 steps; running
    out is a [Panic], which the theorems exclude.  Transport exchanges run for a
    number of rounds the theorems give (one more than the packets); the wait for an
    operational bus for its 5000 spins and one more exchange; a read of a
    cell for 64 retries of its length and three more steps; a poll of commands for
    the backlog and one more; an undisturbed allocation for the bitmap words and
    eight more steps; loops over the set bits of a 64-bit word for 65 turns, the
    closure of a coupling topology for one turn more than the square of its axes.

    ** Not modelled

    Floating-point motion generation, macros and the printing of generated source,
    XML, YAML, DBC and TOML reading, HTTP framing, the MQTT, Zenoh (with the session
    over it) and EtherCAT protocol stacks, sockets, iceoryx2 shared memory, the tokio
    channels, the axum router and operating-system calls
    (inputs or parameters where the modelled code calls them), the floating-point
    rate limiter of the gateway and reconnect backoff, relaxed-memory effects, logging
    and tests.

    ** Plan

    Next: the glue of the UI and J1939 connectors, the bindings of the gateway to the
    executor and the connectors, and the shared-memory channels. *)

From stdpp Require Import base gmap list.
From Stdlib Require Import ZArith Lia.

#[export] Set Default Goal Selector "!".

Declare Scope rust_scope.
Delimit Scope rust_scope with rust.
#[global] Open Scope Z_scope.

(** ** Computations that may panic

    Rust code that indexes out of bounds, slices past the end, calls
    [expect] on [None] or overflows under overflow checks stops with a panic.
    [res A] is a computation of an [A] that may do so. *)

Inductive res (A : Type) : Type :=
| Ok (a : A)
| Panic.
Arguments Ok {A} _.
Arguments Panic {A}.

#[export] Instance res_ret : MRet res := @Ok.
#[export] Instance res_bind : MBind res := λ A B f m,
  match m with Ok a => f a | Panic => Panic end.
#[export] Instance res_fmap : FMap res := λ A B f m,
  match m with Ok a => Ok (f a) | Panic => Panic end.

#[export] Instance res_eq_dec {A} `{EqDecision A} : EqDecision (res A).
Proof. solve_decision. Defined.

(** [no_panic m]: the computation returns. *)
Definition no_panic {A} (m : res A) : Prop := ∃ a, m = Ok a.

(** Option [expect]: panics on [None]. *)
Definition expect {A} (o : option A) : res A :=
  match o with Some a => Ok a | None => Panic end.

(** Index [l[i]]. *)
Definition idx {A} (l : list A) (i : Z) : res A :=
  if decide (0 ≤ i) then expect (l !! Z.to_nat i) else Panic.

(** Half-open slice [&l[a..b]]: panics when [a > b] or [b > len]. *)
Definition slice {A} (l : list A) (a b : Z) : res (list A) :=
  if decide (0 ≤ a ≤ b ∧ b ≤ Z.of_nat (length l))
  then Ok (take (Z.to_nat (b - a)) (drop (Z.to_nat a) l))
  else Panic.

(** [dst[off .. off + src.len()].copy_from_slice(src)]. *)
Definition copy_at {A} (dst : list A) (off : Z) (src : list A) : res (list A) :=
  if decide (0 ≤ off ∧ off + Z.of_nat (length src) ≤ Z.of_nat (length dst))
  then Ok (take (Z.to_nat off) dst ++ src
             ++ drop (Z.to_nat off + length src) dst)
  else Panic.

(** Unsigned subtraction under overflow checks. *)
Definition sub_chk (a b : Z) : res Z :=
  if decide (b ≤ a) then Ok (a - b) else Panic.

(** [saturating_sub] of an unsigned type. *)
Definition sat_sub (a b : Z) : Z := Z.max 0 (a - b).

(** [saturating_add] of a [w]-bit unsigned type. *)
Definition sat_add (w a b : Z) : Z := Z.min (2 ^ w - 1) (a + b).

(** A narrowing [as u8] cast, [wrapping_add] at width [w]. *)
Definition wrap (w x : Z) : Z := x mod 2 ^ w.

(** [usize::div_ceil]. *)
Definition div_ceil (a b : Z) : Z := (a + b - 1) / b.

(** Length of a slice as a machine integer. *)
Definition len {A} (l : list A) : Z := Z.of_nat (length l).

(** [from_le_bytes]: a little-endian byte list as an unsigned number. *)
Fixpoint from_le_bytes (bs : list Z) : Z :=
  match bs with
  | [] => 0
  | b :: bs => b + 256 * from_le_bytes bs
  end.

(** [to_le_bytes] of an [n]-byte integer. *)
Fixpoint to_le_bytes (n : nat) (v : Z) : list Z :=
  match n with
  | O => []
  | S n => v mod 256 :: to_le_bytes n (v / 256)
  end.

Definition is_u (w x : Z) : Prop := 0 ≤ x < 2 ^ w.
Definition is_bytes (l : list Z) : Prop := Forall (is_u 8) l.
#[export] Instance is_u_dec w x : Decision (is_u w x).
Proof. unfold is_u. apply _. Defined.
#[export] Instance is_bytes_dec l : Decision (is_bytes l).
Proof. unfold is_bytes. apply _. Defined.

(** ** Automation *)

Create HintDb taktora.

Ltac zdiv := Z.to_euclidean_division_equations; lia.

(** Case on the head [match]/[decide] of a [res] computation known to return. *)
Ltac res_inv H :=
  repeat match type of H with
  | _ ≫= _ = Ok _ =>
      let E := fresh "E" in
      let a := fresh "a" in
      unfold mbind, res_bind in H;
      match type of H with
      | match ?m with Ok _ => _ | Panic => _ end = _ =>
          destruct m as [a|] eqn:E; [|discriminate H]
      end
  end.

(** ** Shared lemmas *)

Lemma res_bind_Ok {A B} (m : res A) (f : A → res B) b :
  m ≫= f = Ok b ↔ ∃ a, m = Ok a ∧ f a = Ok b.
Proof.
  destruct m as [a|]; unfold mbind, res_bind; naive_solver.
Qed.

Lemma no_panic_bind {A B} (m : res A) (f : A → res B) :
  (∃ a, m = Ok a ∧ no_panic (f a)) → no_panic (m ≫= f).
Proof. intros (a & -> & b & Hb). by exists b. Qed.

Lemma idx_Ok {A} (l : list A) i x :
  idx l i = Ok x ↔ 0 ≤ i ∧ l !! Z.to_nat i = Some x.
Proof.
  unfold idx, expect. case_decide; [|naive_solver].
  destruct (l !! Z.to_nat i); naive_solver.
Qed.

Lemma idx_lt {A} (l : list A) i : 0 ≤ i < len l → no_panic (idx l i).
Proof.
  intros [? Hlt]. destruct (lookup_lt_is_Some_2 l (Z.to_nat i)) as [x Hx].
  { unfold len in Hlt. lia. }
  exists x. by apply idx_Ok.
Qed.

Lemma slice_Ok {A} (l : list A) a b :
  0 ≤ a ≤ b → b ≤ len l →
  slice l a b = Ok (take (Z.to_nat (b - a)) (drop (Z.to_nat a) l)).
Proof. intros. unfold slice, len in *. by rewrite decide_True by lia. Qed.

Lemma sub_chk_Ok a b : b ≤ a → sub_chk a b = Ok (a - b).
Proof. intros. unfold sub_chk. by rewrite decide_True. Qed.

Lemma copy_at_Ok {A} (dst : list A) off src :
  0 ≤ off → off + len src ≤ len dst →
  copy_at dst off src =
    Ok (take (Z.to_nat off) dst ++ src ++ drop (Z.to_nat off + length src) dst).
Proof. intros. unfold copy_at, len in *. by rewrite decide_True by lia. Qed.

Lemma copy_at_length {A} (dst dst' : list A) off src :
  copy_at dst off src = Ok dst' → length dst' = length dst.
Proof.
  unfold copy_at. case_decide; [|done]. intros [= <-].
  rewrite !length_app, length_take, length_drop. lia.
Qed.

Lemma wrap_small w x : 0 ≤ x < 2 ^ w → wrap w x = x.
Proof. apply Z.mod_small. Qed.

Lemma len_nonneg {A} (l : list A) : 0 ≤ len l.
Proof. unfold len. lia. Qed.

Lemma len_app {A} (l k : list A) : len (l ++ k) = len l + len k.
Proof. unfold len. rewrite length_app. lia. Qed.

Lemma len_take {A} (l : list A) n :
  len (take n l) = Z.min (Z.of_nat n) (len l).
Proof. unfold len. rewrite length_take. lia. Qed.

Lemma len_drop {A} (l : list A) n :
  len (drop n l) = Z.max 0 (len l - Z.of_nat n).
Proof. unfold len. rewrite length_drop. lia. Qed.

Lemma div_ceil_spec a b : 0 < b → 0 ≤ a →
  a ≤ b * div_ceil a b < a + b.
Proof. intros. unfold div_ceil. zdiv. Qed.

Lemma from_to_le_bytes n v : from_le_bytes (to_le_bytes n v) = v mod 2 ^ (8 * Z.of_nat n).
Proof.
  revert v. induction n as [|n IH]; intros v; simpl.
  { by rewrite Z.mod_1_r. }
  rewrite IH. replace (8 * Z.of_nat (S n)) with (8 + 8 * Z.of_nat n) by lia.
  rewrite Z.pow_add_r by lia. rewrite Z.rem_mul_r by lia. done.
Qed.

Lemma to_le_bytes_length n v : length (to_le_bytes n v) = n.
Proof. revert v. induction n as [|n IH]; intros v; simpl; [done|]. by rewrite IH. Qed.

Lemma to_le_bytes_bytes n v : is_bytes (to_le_bytes n v).
Proof.
  revert v. induction n as [|n IH]; intros v; simpl; [constructor|].
  constructor; [|apply IH]. unfold is_u. apply Z.mod_pos_bound. done.
Qed.

Lemma from_le_bytes_bound bs : is_bytes bs →
  0 ≤ from_le_bytes bs < 2 ^ (8 * Z.of_nat (length bs)).
Proof.
  induction 1 as [|b bs Hb _ IH]; [simpl; lia|]. unfold is_u in Hb.
  cbn [from_le_bytes length].
  replace (8 * Z.of_nat (S (length bs))) with (8 + 8 * Z.of_nat (length bs)) by lia.
  rewrite Z.pow_add_r by lia. lia.
Qed.

Lemma from_le_bytes_cons b bs : from_le_bytes (b :: bs) = b + 256 * from_le_bytes bs.
Proof. done. Qed.
Lemma from_le_bytes_nil : from_le_bytes [] = 0.
Proof. done. Qed.

Ltac le_simpl := rewrite ?from_le_bytes_cons, ?from_le_bytes_nil in *.

#[global] Arguments from_le_bytes : simpl never.
#[global] Arguments to_le_bytes : simpl never.

(** Bit operations as arithmetic. *)
Lemma land_mask x m n : 0 ≤ n → m = 2 ^ n - 1 → Z.land x m = x mod 2 ^ n.
Proof.
  intros Hn ->. replace (2 ^ n - 1) with (Z.ones n).
  { by apply Z.land_ones. }
  rewrite Z.ones_equiv. lia.
Qed.

Lemma lor_disjoint_add a b n : 0 ≤ n → 0 ≤ a < 2 ^ n →
  Z.lor (b * 2 ^ n) a = b * 2 ^ n + a.
Proof.
  intros Hn Ha.
  assert (Z.land (b * 2 ^ n) a = 0) as Hd.
  { apply Z.bits_inj'. intros i Hi. rewrite Z.land_spec, Z.bits_0.
    destruct (decide (i < n)).
    - rewrite Z.mul_pow2_bits_low by lia. done.
    - rewrite <-(Z.mod_small a (2 ^ n)), Z.mod_pow2_bits_high by lia.
      by rewrite andb_false_r. }
  apply Z.add_nocarry_lxor in Hd as Heq. rewrite Heq.
  symmetry. by apply Z.lxor_lor.
Qed.

(** Rewrites shifts by constants and masks [2^n - 1] into [*], [/] and [mod]. *)
Ltac bits_to_arith :=
  rewrite ?Z.shiftl_mul_pow2, ?Z.shiftr_div_pow2 by lia;
  repeat match goal with
  | |- context [Z.land ?x ?m] =>
      let n := eval vm_compute in (Z.log2 (m + 1)) in
      rewrite (land_mask x m n) by (lia || reflexivity)
  end.

(** ** Weakest preconditions of panicking computations

    [wp m Q]: [m] returns (it does not panic) and its result satisfies [Q]. *)
Definition wp {A} (m : res A) (Q : A → Prop) : Prop :=
  match m with Ok a => Q a | Panic => False end.

Lemma wp_Ok {A} (a : A) (Q : A → Prop) : Q a → wp (Ok a) Q.
Proof. done. Qed.

Lemma wp_bind {A B} (m : res A) (f : A → res B) Q :
  wp m (λ a, wp (f a) Q) → wp (m ≫= f) Q.
Proof. by destruct m. Qed.

Lemma wp_mono {A} (m : res A) (P Q : A → Prop) :
  wp m P → (∀ a, P a → Q a) → wp m Q.
Proof. destruct m; simpl; auto. Qed.

Lemma wp_no_panic {A} (m : res A) Q : wp m Q → no_panic m.
Proof. destruct m as [a|]; [by exists a | done]. Qed.

Lemma wp_elim {A} (m : res A) Q a : wp m Q → m = Ok a → Q a.
Proof. by intros H ->. Qed.

Lemma wp_exists {A} (m : res A) Q : wp m Q → ∃ a, m = Ok a ∧ Q a.
Proof. destruct m as [a|]; [by exists a | done]. Qed.

Lemma wp_idx {A} (l : list A) i (Q : A → Prop) :
  0 ≤ i < len l → (∀ x, l !! Z.to_nat i = Some x → Q x) → wp (idx l i) Q.
Proof.
  intros Hi HQ. destruct (idx_lt l i Hi) as [x Hx]. rewrite Hx. simpl.
  apply HQ. by apply idx_Ok in Hx as [_ ?].
Qed.

Lemma wp_expect {A} (o : option A) (Q : A → Prop) x :
  o = Some x → Q x → wp (expect o) Q.
Proof. by intros ->. Qed.

Lemma wp_slice {A} (l : list A) a b (Q : list A → Prop) :
  0 ≤ a ≤ b → b ≤ len l →
  (∀ c, c = take (Z.to_nat (b - a)) (drop (Z.to_nat a) l) → len c = b - a → Q c) →
  wp (slice l a b) Q.
Proof.
  intros Ha Hb HQ. rewrite slice_Ok by done. apply HQ; [done|].
  rewrite len_take, len_drop. lia.
Qed.

Lemma wp_sub_chk a b (Q : Z → Prop) : b ≤ a → Q (a - b) → wp (sub_chk a b) Q.
Proof. intros ? HQ. unfold sub_chk. by rewrite decide_True by done. Qed.

Lemma wp_copy_at {A} (dst : list A) off src (Q : list A → Prop) :
  0 ≤ off → off + len src ≤ len dst →
  (∀ d, d = take (Z.to_nat off) dst ++ src ++ drop (Z.to_nat off + length src) dst →
        len d = len dst → Q d) →
  wp (copy_at dst off src) Q.
Proof.
  intros Ho Hl HQ. pose proof (copy_at_Ok dst off src Ho Hl) as E.
  rewrite E. apply HQ; [done|]. unfold len. by apply copy_at_length in E as ->.
Qed.

(** Loops: [mapM] over a list whose steps all return. *)
Lemma wp_mapM {A B} (f : A → res B) (R : A → B → Prop) (l : list A) (Q : list B → Prop) :
  Forall (λ x, wp (f x) (R x)) l →
  (∀ k, Forall2 R l k → Q k) → wp (mapM f l) Q.
Proof.
  intros Hl. revert Q. induction Hl as [|x l Hx _ IH]; intros Q HQ.
  { apply HQ. constructor. }
  simpl. apply wp_bind. eapply wp_mono; [exact Hx|]. intros y Hy.
  apply wp_bind. apply IH. intros k Hk. apply HQ. by constructor.
Qed.

(** One step of a [wp] proof: sequence, index, slice or return. *)
Ltac wp_step :=
  lazymatch goal with
  | |- wp (_ ≫= _) _ => apply wp_bind
  | |- wp (Ok _) _ => apply wp_Ok
  | |- wp (mret _) _ => apply wp_Ok
  | |- wp (idx _ _) _ =>
      apply wp_idx; [lia|let x := fresh "b" in let H := fresh "Hb" in
                         intros x H; simpl in H]
  | |- wp (match ?x with _ => _ end) _ =>
      let E := fresh "E" in destruct x eqn:E
  end.

(** Bytes of a byte list. *)
Lemma is_bytes_lookup l i b : is_bytes l → l !! i = Some b → is_u 8 b.
Proof. intros Hl Hi. unfold is_bytes in Hl. rewrite Forall_lookup in Hl. eauto. Qed.

(** ** Finite maps: sizes *)
Section map_sizes.
Context `{Countable K} {V : Type}.
Implicit Types m : gmap K V.

Lemma size_insert_Z m k v :
  Z.of_nat (size (<[k := v]> m)) =
    Z.of_nat (size m) + (if decide (is_Some (m !! k)) then 0 else 1).
Proof.
  destruct (m !! k) eqn:E.
  - rewrite map_size_insert_Some by eauto. rewrite decide_True by eauto. lia.
  - rewrite map_size_insert_None by done. rewrite decide_False; [lia|].
    intros [? ?]. congruence.
Qed.

Lemma size_insert_same m k v :
  is_Some (m !! k) → size (<[k := v]> m) = size m.
Proof. intros [x Hx]. by apply map_size_insert_Some. Qed.

Lemma size_delete_le m k : (size (delete k m) ≤ size m)%nat.
Proof. rewrite map_size_delete. destruct (m !! k); simpl; lia. Qed.
End map_sizes.

(** ** Threads: one element of a list changes *)

Lemma lookup_split {A} (l : list A) i x : l !! i = Some x →
  ∃ l1 l2, l = l1 ++ x :: l2 ∧ ∀ y, <[i := y]> l = l1 ++ y :: l2.
Proof.
  intros Hi. exists (take i l), (drop (S i) l). split.
  - symmetry. by apply take_drop_middle.
  - intros y. apply insert_take_drop. by eapply lookup_lt_Some.
Qed.

Lemma bind_mid {A B} (f : A → list B) l1 x l2 :
  (l1 ++ x :: l2) ≫= f ≡ₚ f x ++ ((l1 ++ l2) ≫= f).
Proof. rewrite !bind_app, bind_cons. solve_Permutation. Qed.

(** The sum of a quantity over the threads. *)
Definition sum_of {A} (f : A → Z) (l : list A) : Z := foldr (λ x n, f x + n) 0 l.

Lemma sum_of_app {A} (f : A → Z) l1 l2 : sum_of f (l1 ++ l2) = sum_of f l1 + sum_of f l2.
Proof. induction l1 as [|x l1 IH]; simpl; [done|]. rewrite IH. lia. Qed.
Lemma sum_of_mid {A} (f : A → Z) l1 x l2 : sum_of f (l1 ++ x :: l2) = f x + sum_of f (l1 ++ l2).
Proof. rewrite !sum_of_app. simpl. lia. Qed.
Lemma sum_of_zero {A} (f : A → Z) l : Forall (λ x, f x = 0) l → sum_of f l = 0.
Proof. induction 1 as [|x l Hx _ IH]; simpl; lia. Qed.
Lemma sum_of_le {A} (f g : A → Z) l : (∀ x, f x ≤ g x) → sum_of f l ≤ sum_of g l.
Proof. intros H. induction l as [|x l IH]; simpl; [done|]. specialize (H x). lia. Qed.
Lemma sum_of_const {A} (c : Z) (l : list A) : sum_of (λ _, c) l = c * len l.
Proof. induction l as [|x l IH]; unfold len in *; simpl; lia. Qed.
Lemma sum_of_len {A B} (f : A → list B) l : sum_of (λ x, len (f x)) l = len (l ≫= f).
Proof.
  induction l as [|x l IH]; [done|]. rewrite bind_cons, len_app. simpl. lia.
Qed.

(** ** The top bit of a 64-bit word *)

Lemma lor_bit63 w : 0 ≤ w < 2 ^ 63 → Z.lor w (Z.shiftl 1 63) = w + 2 ^ 63.
Proof.
  intros Hw. rewrite Z.shiftl_1_l, Z.lor_comm.
  replace (2 ^ 63) with (1 * 2 ^ 63) at 1 by lia. rewrite lor_disjoint_add by lia. lia.
Qed.

Lemma land_bit63 w : 0 ≤ w < 2 ^ 63 → Z.land w (Z.shiftl 1 63) = 0.
Proof.
  intros Hw. rewrite Z.shiftl_1_l. apply Z.bits_inj'. intros i Hi.
  rewrite Z.land_spec, Z.bits_0, Z.pow2_bits_eqb by lia.
  destruct (Z.eqb_spec 63 i) as [<-|]; [|by rewrite andb_false_r].
  rewrite <-(Z.mod_small w (2 ^ 63)), Z.mod_pow2_bits_high by lia. done.
Qed.

Lemma land_bit63_set w : 0 ≤ w < 2 ^ 63 → Z.land (w + 2 ^ 63) (Z.shiftl 1 63) = 2 ^ 63.
Proof.
  intros Hw. rewrite <-lor_bit63 by done. rewrite Z.land_lor_distr_l, Z.land_diag, land_bit63 by done.
  by rewrite Z.lor_0_l, Z.shiftl_1_l.
Qed.
