(* ===== verification/J1939Id.v ===== *)
(** * J1939 identifiers and routing

    Models [taktora-connector-j1939/src/decode.rs] (the 29-bit identifier
    codec) and [routing.rs] ([Pgn], [TransportClass], [J1939Routing]).
    Bytes, [u32] and [usize] values are [Z]; [Pgn] is the validated newtype. *)

From stdpp Require Import base gmap countable.
From Stdlib Require Import ZArith Lia.
From S2P Require Import Prelude.

Module Id.

(** ** routing.rs *)

Definition PGN_MAX : Z := 0x3FFFF.
Definition TP_MAX_LEN : Z := 1785.
Definition SINGLE_FRAME_LEN : Z := 8.

Record Pgn := MkPgn { value : Z }.

#[export] Instance Pgn_eq_dec : EqDecision Pgn.
Proof. solve_decision. Defined.
#[export] Instance Pgn_countable : Countable Pgn :=
  inj_countable' value MkPgn (λ '(MkPgn v), eq_refl).

Inductive PgnError := Overflow.

Definition Pgn_ZERO : Pgn := MkPgn 0.

Definition Pgn_new (v : Z) : Pgn + PgnError :=
  if v >? PGN_MAX then inr Overflow else inl (MkPgn v).

Definition pdu_format (p : Pgn) : Z := Z.land (Z.shiftr (value p) 8) 0xFF.

(** ** decode.rs *)

Definition PDU2_FORMAT_THRESHOLD : Z := 0xF0.
Definition EXTENDED_ID_MASK : Z := 0x1FFFFFFF.
Definition GLOBAL_ADDRESS : Z := 0xFF.

Definition Pgn_is_pdu1 (p : Pgn) : bool := pdu_format p <? PDU2_FORMAT_THRESHOLD.

Record DecodedId := MkDecodedId {
  priority : Z;
  d_pdu_format : Z;
  pgn : Pgn;
  source_addr : Z;
  dest_addr : option Z;
}.
#[export] Instance DecodedId_eq_dec : EqDecision DecodedId.
Proof. solve_decision. Defined.

Definition is_pdu1 (d : DecodedId) : bool := d_pdu_format d <? PDU2_FORMAT_THRESHOLD.

Definition decode_extended_id (raw : Z) : DecodedId :=
  let id := Z.land raw EXTENDED_ID_MASK in
  let priority := wrap 8 (Z.land (Z.shiftr id 26) 0x7) in
  let dp := Z.land (Z.shiftr id 24) 0x3 in
  let pf := wrap 8 (Z.land (Z.shiftr id 16) 0xFF) in
  let ps := wrap 8 (Z.land (Z.shiftr id 8) 0xFF) in
  let sa := wrap 8 (Z.land id 0xFF) in
  let '(pgn_value, da) :=
    if pf <? PDU2_FORMAT_THRESHOLD
    then (Z.lor (Z.shiftl dp 16) (Z.shiftl pf 8), Some ps)
    else (Z.lor (Z.lor (Z.shiftl dp 16) (Z.shiftl pf 8)) ps, None) in
  {| priority := priority;
     d_pdu_format := pf;
     pgn := match Pgn_new pgn_value with inl p => p | inr _ => Pgn_ZERO end;
     source_addr := sa;
     dest_addr := da |}.

Definition encode_extended_id (p : Pgn) (priority source_addr : Z)
    (dest_addr : option Z) : Z :=
  let pgnv := value p in
  let pf := Z.land (Z.shiftr pgnv 8) 0xFF in
  let dp := Z.land (Z.shiftr pgnv 16) 0x3 in
  let ps := if wrap 8 pf <? PDU2_FORMAT_THRESHOLD
            then default GLOBAL_ADDRESS dest_addr
            else Z.land pgnv 0xFF in
  Z.lor (Z.lor (Z.lor (Z.lor (Z.shiftl (Z.land priority 0x7) 26)
    (Z.shiftl dp 24)) (Z.shiftl pf 16)) (Z.shiftl ps 8)) source_addr.

(** ** Channel routing *)

Inductive TransportClass :=
| SingleFrame
| Tp (max_len : Z)
| Etp (max_len : Z).
#[export] Instance TransportClass_eq_dec : EqDecision TransportClass.
Proof. solve_decision. Defined.

Definition max_payload (t : TransportClass) : Z :=
  match t with
  | SingleFrame => SINGLE_FRAME_LEN
  | Tp max_len => if max_len >? TP_MAX_LEN then TP_MAX_LEN else max_len
  | Etp max_len => max_len
  end.

Definition is_tp (t : TransportClass) : bool :=
  match t with Tp _ => true | _ => false end.
Definition is_etp (t : TransportClass) : bool :=
  match t with Etp _ => true | _ => false end.

Definition DEFAULT_PRIORITY : Z := 6.

Record J1939Routing := MkRouting {
  r_pgn : Pgn;
  r_source_addr : option Z;
  r_dest_addr : option Z;
  r_transport : TransportClass;
  r_priority : Z;
}.

Definition single_frame (p : Pgn) : J1939Routing :=
  MkRouting p None None SingleFrame DEFAULT_PRIORITY.
Definition tp (p : Pgn) (max_len : Z) : J1939Routing :=
  MkRouting p None None (Tp max_len) DEFAULT_PRIORITY.
Definition etp (p : Pgn) (max_len : Z) : J1939Routing :=
  MkRouting p None None (Etp max_len) DEFAULT_PRIORITY.
Definition with_source_addr (r : J1939Routing) (sa : Z) : J1939Routing :=
  MkRouting (r_pgn r) (Some sa) (r_dest_addr r) (r_transport r) (r_priority r).
Definition with_dest_addr (r : J1939Routing) (da : Z) : J1939Routing :=
  MkRouting (r_pgn r) (r_source_addr r) (Some da) (r_transport r) (r_priority r).
Definition with_priority (r : J1939Routing) (prio : Z) : J1939Routing :=
  MkRouting (r_pgn r) (r_source_addr r) (r_dest_addr r) (r_transport r) prio.

Definition matches (r : J1939Routing) (d : DecodedId) : bool :=
  bool_decide (r_pgn r = pgn d)
  && match r_source_addr r with
     | None => true | Some sa => sa =? source_addr d end
  && match r_dest_addr r with
     | None => true | Some da => bool_decide (dest_addr d = Some da) end.

(** ** Well-formedness *)

Definition valid_pgn (p : Pgn) : Prop := 0 ≤ value p ≤ PGN_MAX.

(** A PDU1 PGN in canonical form carries no destination byte. *)
Definition canonical_pgn (p : Pgn) : Prop :=
  valid_pgn p ∧ (Pgn_is_pdu1 p = true → value p mod 256 = 0).

Definition wf_decoded (d : DecodedId) : Prop :=
  0 ≤ priority d < 8 ∧ is_u 8 (d_pdu_format d) ∧ canonical_pgn (pgn d)
  ∧ is_u 8 (source_addr d)
  ∧ d_pdu_format d = pdu_format (pgn d)
  ∧ (if is_pdu1 d then ∃ da, dest_addr d = Some da ∧ is_u 8 da
     else dest_addr d = None).

(** ** Theorems *)

Lemma Pgn_new_valid v p : 0 ≤ v → Pgn_new v = inl p → valid_pgn p ∧ value p = v.
Proof.
  unfold Pgn_new, valid_pgn. intros Hv H.
  destruct (Z.gtb_spec v PGN_MAX); simplify_eq/=. lia.
Qed.

Lemma Pgn_new_ok v : 0 ≤ v ≤ PGN_MAX → Pgn_new v = inl (MkPgn v).
Proof. intros. unfold Pgn_new. destruct (Z.gtb_spec v PGN_MAX); [lia|done]. Qed.

(** Arithmetic reading of the decoder. *)
Lemma decode_arith raw :
  let id := raw mod 2 ^ 29 in
  let dp := id / 2 ^ 24 mod 4 in
  let pf := id / 2 ^ 16 mod 256 in
  let ps := id / 2 ^ 8 mod 256 in
  decode_extended_id raw =
    {| priority := id / 2 ^ 26;
       d_pdu_format := pf;
       pgn := MkPgn (dp * 65536 + pf * 256 + if pf <? 240 then 0 else ps);
       source_addr := id mod 256;
       dest_addr := if pf <? 240 then Some ps else None |}.
Proof.
  intros id dp pf ps.
  assert (0 ≤ id < 2 ^ 29) as Hid by (apply Z.mod_pos_bound; lia).
  assert (0 ≤ dp < 4) as Hdp by (apply Z.mod_pos_bound; lia).
  assert (0 ≤ pf < 256) as Hpf by (apply Z.mod_pos_bound; lia).
  assert (0 ≤ ps < 256) as Hps by (apply Z.mod_pos_bound; lia).
  unfold decode_extended_id, EXTENDED_ID_MASK, wrap. bits_to_arith.
  change (raw mod 2 ^ 29) with id.
  change (id / 2 ^ 24 mod 2 ^ 2) with dp.
  change (id / 2 ^ 16 mod 2 ^ 8) with pf.
  change (id / 2 ^ 8 mod 2 ^ 8) with ps.
  rewrite (Z.mod_small pf (2 ^ 8)), (Z.mod_small ps (2 ^ 8)) by lia.
  rewrite (lor_disjoint_add (pf * 2 ^ 8) dp 16) by lia.
  replace (dp * 2 ^ 16 + pf * 2 ^ 8) with ((dp * 2 ^ 8 + pf) * 2 ^ 8) by lia.
  rewrite lor_disjoint_add by lia.
  unfold PDU2_FORMAT_THRESHOLD.
  destruct (Z.ltb_spec pf 240);
    rewrite Pgn_new_ok by (unfold PGN_MAX; lia);
    f_equal; try apply (f_equal MkPgn); zdiv.
Qed.

(** Arithmetic reading of the encoder on valid fields. *)
Lemma encode_arith p prio sa da :
  valid_pgn p → is_u 8 sa → is_u 8 (default GLOBAL_ADDRESS da) →
  let v := value p in
  let pf := v / 256 mod 256 in
  encode_extended_id p prio sa da =
    prio mod 8 * 2 ^ 26 + v / 65536 * 2 ^ 24 + pf * 2 ^ 16
    + (if pf <? 240 then default GLOBAL_ADDRESS da else v mod 256) * 2 ^ 8 + sa.
Proof.
  intros Hv Hsa Hda v pf. unfold valid_pgn, PGN_MAX, is_u in *.
  fold v in Hv. unfold encode_extended_id, wrap, PDU2_FORMAT_THRESHOLD. fold v.
  bits_to_arith. change (v / 2 ^ 8 mod 2 ^ 8) with pf.
  change (prio mod 2 ^ 3) with (prio mod 8).
  change (v mod 2 ^ 8) with (v mod 256).
  assert (0 ≤ pf < 256) as Hpf by (apply Z.mod_pos_bound; lia).
  rewrite (Z.mod_small pf (2 ^ 8)) by lia.
  replace (v / 2 ^ 16 mod 2 ^ 2) with (v / 65536) by zdiv.
  assert (0 ≤ v / 65536 < 4) as Hdp by zdiv.
  set (ps := if pf <? 240 then default GLOBAL_ADDRESS da else v mod 256).
  assert (0 ≤ ps < 256) as Hps.
  { subst ps. destruct (pf <? 240); [lia|]. apply Z.mod_pos_bound. lia. }
  rewrite lor_disjoint_add by lia.
  replace (prio mod 8 * 2 ^ 26 + v / 65536 * 2 ^ 24)
    with ((prio mod 8 * 4 + v / 65536) * 2 ^ 24) by lia.
  rewrite lor_disjoint_add by lia.
  replace ((prio mod 8 * 4 + v / 65536) * 2 ^ 24 + pf * 2 ^ 16)
    with (((prio mod 8 * 4 + v / 65536) * 256 + pf) * 2 ^ 16) by lia.
  rewrite lor_disjoint_add by lia.
  replace (((prio mod 8 * 4 + v / 65536) * 256 + pf) * 2 ^ 16 + ps * 2 ^ 8)
    with ((((prio mod 8 * 4 + v / 65536) * 256 + pf) * 256 + ps) * 2 ^ 8) by lia.
  rewrite lor_disjoint_add by lia. fold ps. lia.
Qed.

Lemma pdu_format_arith p : pdu_format p = value p / 256 mod 256.
Proof. unfold pdu_format. by bits_to_arith. Qed.

(** Every raw identifier decodes to a well-formed id. *)
Lemma decode_wf raw : wf_decoded (decode_extended_id raw).
Proof.
  rewrite decode_arith. set (id := raw mod 2 ^ 29).
  assert (0 ≤ id < 2 ^ 29) as Hid by (apply Z.mod_pos_bound; lia).
  unfold wf_decoded, canonical_pgn, valid_pgn, Pgn_is_pdu1, is_pdu1, PGN_MAX,
    PDU2_FORMAT_THRESHOLD, is_u; rewrite ?pdu_format_arith; simpl.
  destruct (Z.ltb_spec (id / 2 ^ 16 mod 256) 240).
  - split_and!; try zdiv. eexists. split; [done|]. zdiv.
  - split_and!; try zdiv. done.
Qed.

(** Re-encoding the fields of a decoded identifier gives back the 29
    identifier bits of the frame: [encode_extended_id] inverts
    [decode_extended_id] on every raw id, whatever its flag bits. *)
Lemma encode_decode raw :
  let d := decode_extended_id raw in
  encode_extended_id (pgn d) (priority d) (source_addr d) (dest_addr d)
    = Z.land raw EXTENDED_ID_MASK.
Proof.
  intros d. pose proof (decode_wf raw) as Hwf. fold d in Hwf.
  destruct Hwf as (_ & _ & [Hv _] & Hsa & _ & Hda).
  rewrite encode_arith; [|done..|].
  2: { destruct (is_pdu1 d).
       - destruct Hda as (da & -> & Hda). done.
       - rewrite Hda. by vm_compute. }
  unfold EXTENDED_ID_MASK. bits_to_arith. clear Hv Hsa Hda.
  subst d. rewrite decode_arith. set (id := raw mod 2 ^ 29).
  assert (0 ≤ id < 2 ^ 29) as Hid by (apply Z.mod_pos_bound; lia). simpl.
  destruct (Z.ltb_spec (id / 2 ^ 16 mod 256) 240) as [Hpf|Hpf].
  - rewrite (proj2 (Z.ltb_lt _ 240)) by zdiv. simpl. zdiv.
  - rewrite (proj2 (Z.ltb_ge _ 240)) by zdiv. zdiv.
Qed.

Lemma decode_encode p prio sa da :
  canonical_pgn p → is_u 8 sa → is_u 8 (default GLOBAL_ADDRESS da) →
  decode_extended_id (encode_extended_id p prio sa da) =
    {| priority := prio mod 8;
       d_pdu_format := pdu_format p;
       pgn := p;
       source_addr := sa;
       dest_addr := if Pgn_is_pdu1 p
                    then Some (default GLOBAL_ADDRESS da) else None |}.
Proof.
  intros [Hv Hcan] Hsa Hda. rewrite encode_arith by done. rewrite decode_arith.
  unfold Pgn_is_pdu1, PDU2_FORMAT_THRESHOLD, is_u, valid_pgn, PGN_MAX in *.
  rewrite pdu_format_arith in *. destruct p as [v]; simpl in *.
  set (d := default GLOBAL_ADDRESS da) in *. clearbody d.
  assert (0 ≤ prio mod 8 < 8) as Hp by (apply Z.mod_pos_bound; lia).
  destruct (Z.ltb_spec (v / 256 mod 256) 240) as [Hpf|Hpf].
  - specialize (Hcan eq_refl).
    rewrite (proj2 (Z.ltb_lt _ 240)) by zdiv.
    f_equal; try apply (f_equal MkPgn); try apply (f_equal Some); zdiv.
  - rewrite (proj2 (Z.ltb_ge _ 240)) by zdiv.
    f_equal; try apply (f_equal MkPgn); zdiv.
Qed.

(** Identifiers round trip both ways.  Re-encoding the fields of a decoded
    identifier gives back the 29 identifier bits of the frame, on every raw id
    and whatever its flag bits.  Decoding an encoded identifier recovers every
    field: the priority (3 bits), the canonical PGN, the source address and, for
    a PDU1 PGN, the destination (the global address when none was given); a PDU2
    frame has no destination. *)
Theorem extended_id_roundtrip p prio sa da raw :
  canonical_pgn p → is_u 8 sa → is_u 8 (default GLOBAL_ADDRESS da) →
  decode_extended_id (encode_extended_id p prio sa da) =
    {| priority := prio mod 8;
       d_pdu_format := pdu_format p;
       pgn := p;
       source_addr := sa;
       dest_addr := if Pgn_is_pdu1 p
                    then Some (default GLOBAL_ADDRESS da) else None |} ∧
  let d := decode_extended_id raw in
  encode_extended_id (pgn d) (priority d) (source_addr d) (dest_addr d)
    = Z.land raw EXTENDED_ID_MASK.
Proof. intros Hp Hs Hd. split; [by apply decode_encode|apply encode_decode]. Qed.

Lemma extended_id_roundtrip_witness :
  decode_extended_id (encode_extended_id (MkPgn 0xEC00) 7 0x25 (Some 0x80)) =
    {| priority := 7; d_pdu_format := 0xEC; pgn := MkPgn 0xEC00;
       source_addr := 0x25; dest_addr := Some 0x80 |}.
Proof.
  apply (extended_id_roundtrip (MkPgn 0xEC00) 7 0x25 (Some 0x80) 0).
  - split; [split; vm_compute; discriminate|]. intros _. reflexivity.
  - split; vm_compute; congruence.
  - split; vm_compute; congruence.
Defined.

End Id.
