(* ===== verification/J1939Tp.v ===== *)
(** * The J1939 transport-protocol engine

    Models [taktora-connector-j1939/src/tp.rs]: the clock-stepped session
    engine [TpEngine] with its five session tables, the BAM, RTS/CTS and ETP
    handlers, the timeout sweep and the outbound segmenters.

    [Instant] and [Duration] are nanosecond counts.  A handler is a function
    [TpEngine → res (TpEngine * list TpEvent)]; [Panic] stands for every Rust
    panic the body could raise (an index, a slice, an [expect], an unsigned
    subtraction).  The session tables are [gmap]s; the only order-dependent
    uses of [HashMap] in the engine ([keys().find], [iter().filter]) go
    through the class [HashIter], whose law is what the standard library
    documents: an iteration visits every entry exactly once, in an
    unspecified order. *)

From stdpp Require Import base gmap list list_numbers.
From Stdlib Require Import ZArith Lia.
From S2P Require Import Prelude J1939Id.

Module Tp.
Import Id.

(** ** Constants *)

Definition TP_CM_PGN : Z := 60416.
Definition TP_DT_PGN : Z := 60160.
Definition BAM_CONTROL : Z := 0x20.
Definition RTS_CONTROL : Z := 0x10.
Definition CTS_CONTROL : Z := 0x11.
Definition EOMA_CONTROL : Z := 0x13.
Definition CONN_ABORT_CONTROL : Z := 0xFF.
Definition CTS_NO_LIMIT : Z := 0xFF.
Definition DEFAULT_CTS_WINDOW : Z := 16.
Definition ETP_CM_PGN : Z := 51200.
Definition ETP_DT_PGN : Z := 50944.
Definition ETP_RTS_CONTROL : Z := 0x14.
Definition ETP_CTS_CONTROL : Z := 0x15.
Definition ETP_DPO_CONTROL : Z := 0x16.
Definition ETP_EOMA_CONTROL : Z := 0x17.
Definition ETP_ABORT_CONTROL : Z := 0xFF.
Definition TP_MIN_PAYLOAD : Z := 9.
Definition TP_MAX_PAYLOAD : Z := 1785.
Definition ETP_MIN_PAYLOAD : Z := TP_MAX_PAYLOAD + 1.
Definition ETP_PROTOCOL_MAX : Z := 117440505.
Definition DEFAULT_MAX_ETP_BYTES : Z := 16 * 1024 * 1024.
Definition TP_DT_DATA_LEN : Z := 7.
Definition DEFAULT_MAX_TP_SESSIONS : Z := 8.

(** ** Time *)

Abbreviation Instant := Z (only parsing).
Abbreviation Duration := Z (only parsing).

Definition from_millis (ms : Z) : Duration := ms * 1000000.
Definition saturating_duration_since (now earlier : Instant) : Duration :=
  sat_sub now earlier.

Record TpTimers := MkTimers {
  tr : Duration; th : Duration; t1 : Duration;
  t2 : Duration; t3 : Duration; t4 : Duration;
}.

Definition TpTimers_default : TpTimers :=
  {| tr := from_millis 200; th := from_millis 500; t1 := from_millis 750;
     t2 := from_millis 1250; t3 := from_millis 1250; t4 := from_millis 1050 |}.

(** ** Events, frames, errors *)

Inductive TpAbortReason :=
| AlreadyInSession
| Resources
| Timeout
| Other.
#[export] Instance TpAbortReason_eq_dec : EqDecision TpAbortReason.
Proof. solve_decision. Defined.

Definition as_u8 (r : TpAbortReason) : Z :=
  match r with
  | AlreadyInSession => 1 | Resources => 2 | Timeout => 3 | Other => 4
  end.

Inductive TpEvent :=
| Completed (pgn : Pgn) (source_addr : Z) (payload : list Z)
| Aborted (pgn : Pgn) (source_addr : Z) (reason : TpAbortReason)
| SessionRefused (pgn : Pgn) (source_addr : Z) (reason : TpAbortReason).
#[export] Instance TpEvent_eq_dec : EqDecision TpEvent.
Proof. solve_decision. Defined.

Record TpOutFrame := MkOut {
  o_wire_pgn : Pgn;
  o_priority : Z;
  o_source_addr : Z;
  o_dest_addr : option Z;
  o_data : list Z;
}.
#[export] Instance TpOutFrame_eq_dec : EqDecision TpOutFrame.
Proof. solve_decision. Defined.

Inductive TpError :=
| PayloadOutOfRange (len : Z)
| EtpPayloadOutOfRange (len max : Z).
#[export] Instance TpError_eq_dec : EqDecision TpError.
Proof. solve_decision. Defined.

(** ** Sessions *)

Record InboundSession := MkInbound {
  bs_transported_pgn : Pgn;
  bs_source_addr : Z;
  bs_total_size : Z;
  bs_num_packets : Z;
  bs_next_seq : Z;
  bs_buf : list Z;
  bs_last_activity : Instant;
}.

Record InboundConnSession := MkInboundConn {
  rc_transported_pgn : Pgn;
  rc_peer_sa : Z;
  rc_our_sa : Z;
  rc_priority : Z;
  rc_total_size : Z;
  rc_total_packets : Z;
  rc_sender_max_per_cts : Z;
  rc_next_seq : Z;
  rc_window_remaining : Z;
  rc_buf : list Z;
  rc_last_activity : Instant;
}.

Record OutboundConnSession := MkOutboundConn {
  tc_transported_pgn : Pgn;
  tc_our_sa : Z;
  tc_dest_sa : Z;
  tc_priority : Z;
  tc_payload : list Z;
  tc_total_packets : Z;
  tc_last_activity : Instant;
}.

Record InboundEtpSession := MkInboundEtp {
  re_transported_pgn : Pgn;
  re_peer_sa : Z;
  re_our_sa : Z;
  re_priority : Z;
  re_total_size : Z;
  re_total_packets : Z;
  re_next_packet : Z;
  re_dpo_offset : Z;
  re_burst_remaining : Z;
  re_buf : list Z;
  re_last_activity : Instant;
}.

Record OutboundEtpSession := MkOutboundEtp {
  te_transported_pgn : Pgn;
  te_our_sa : Z;
  te_dest_sa : Z;
  te_priority : Z;
  te_payload : list Z;
  te_total_packets : Z;
  te_last_activity : Instant;
}.

Abbreviation Key := (Z * Pgn)%type.

Record TpEngine := MkEngine {
  sessions : gmap Key InboundSession;
  rx_conn : gmap Key InboundConnSession;
  tx_conn : gmap Key OutboundConnSession;
  pending_out : list TpOutFrame;
  etp_rx : gmap Key InboundEtpSession;
  etp_tx : gmap Key OutboundEtpSession;
  cts_window : Z;
  timers : TpTimers;
  max_sessions : Z;
  outbound_pacing : Duration;
  max_etp_bytes : Z;
}.

(** Field updates. *)
Definition set_sessions (e : TpEngine) m :=
  MkEngine m (rx_conn e) (tx_conn e) (pending_out e) (etp_rx e) (etp_tx e)
    (cts_window e) (timers e) (max_sessions e) (outbound_pacing e) (max_etp_bytes e).
Definition set_rx_conn (e : TpEngine) m :=
  MkEngine (sessions e) m (tx_conn e) (pending_out e) (etp_rx e) (etp_tx e)
    (cts_window e) (timers e) (max_sessions e) (outbound_pacing e) (max_etp_bytes e).
Definition set_tx_conn (e : TpEngine) m :=
  MkEngine (sessions e) (rx_conn e) m (pending_out e) (etp_rx e) (etp_tx e)
    (cts_window e) (timers e) (max_sessions e) (outbound_pacing e) (max_etp_bytes e).
Definition set_pending_out (e : TpEngine) m :=
  MkEngine (sessions e) (rx_conn e) (tx_conn e) m (etp_rx e) (etp_tx e)
    (cts_window e) (timers e) (max_sessions e) (outbound_pacing e) (max_etp_bytes e).
Definition set_etp_rx (e : TpEngine) m :=
  MkEngine (sessions e) (rx_conn e) (tx_conn e) (pending_out e) m (etp_tx e)
    (cts_window e) (timers e) (max_sessions e) (outbound_pacing e) (max_etp_bytes e).
Definition set_etp_tx (e : TpEngine) m :=
  MkEngine (sessions e) (rx_conn e) (tx_conn e) (pending_out e) (etp_rx e) m
    (cts_window e) (timers e) (max_sessions e) (outbound_pacing e) (max_etp_bytes e).

Definition push_out (e : TpEngine) (f : TpOutFrame) : TpEngine :=
  set_pending_out e (pending_out e ++ [f]).
Definition extend_out (e : TpEngine) (fs : list TpOutFrame) : TpEngine :=
  set_pending_out e (pending_out e ++ fs).

(** ** Construction *)

Definition new (timers : TpTimers) (max_sessions : Z) : TpEngine :=
  {| sessions := ∅; rx_conn := ∅; tx_conn := ∅; etp_rx := ∅; etp_tx := ∅;
     pending_out := []; cts_window := DEFAULT_CTS_WINDOW; timers := timers;
     max_sessions := Z.max max_sessions 1; outbound_pacing := 0;
     max_etp_bytes := DEFAULT_MAX_ETP_BYTES |}.

Definition with_max_etp_bytes (e : TpEngine) (max : Z) : TpEngine :=
  MkEngine (sessions e) (rx_conn e) (tx_conn e) (pending_out e) (etp_rx e) (etp_tx e)
    (cts_window e) (timers e) (max_sessions e) (outbound_pacing e)
    (if max <? ETP_MIN_PAYLOAD then ETP_MIN_PAYLOAD else max).

Definition with_cts_window (e : TpEngine) (window : Z) : TpEngine :=
  MkEngine (sessions e) (rx_conn e) (tx_conn e) (pending_out e) (etp_rx e) (etp_tx e)
    (if window =? 0 then 1 else window) (timers e) (max_sessions e)
    (outbound_pacing e) (max_etp_bytes e).

Definition with_outbound_pacing (e : TpEngine) (pacing : Duration) : TpEngine :=
  MkEngine (sessions e) (rx_conn e) (tx_conn e) (pending_out e) (etp_rx e) (etp_tx e)
    (cts_window e) (timers e) (max_sessions e) pacing (max_etp_bytes e).

Definition active_inbound_sessions (e : TpEngine) : Z := Z.of_nat (size (sessions e)).
Definition active_inbound_connections (e : TpEngine) : Z := Z.of_nat (size (rx_conn e)).
Definition active_outbound_connections (e : TpEngine) : Z := Z.of_nat (size (tx_conn e)).
Definition active_inbound_etp_sessions (e : TpEngine) : Z := Z.of_nat (size (etp_rx e)).
Definition active_outbound_etp_sessions (e : TpEngine) : Z := Z.of_nat (size (etp_tx e)).

Definition total_inbound (e : TpEngine) : Z :=
  active_inbound_sessions e + active_inbound_connections e
  + active_inbound_etp_sessions e.

Definition take_outbound (e : TpEngine) : TpEngine * list TpOutFrame :=
  (set_pending_out e [], pending_out e).

(** ** Frame builders and parsers (the free functions of tp.rs) *)

(** [Pgn::new(CONST).expect(..)]: total, the constants are valid. *)
Definition cm_pgn : Pgn := MkPgn TP_CM_PGN.
Definition dt_pgn : Pgn := MkPgn TP_DT_PGN.
Definition etp_cm_pgn : Pgn := MkPgn ETP_CM_PGN.
Definition etp_dt_pgn : Pgn := MkPgn ETP_DT_PGN.

Definition transported_pgn_from (data : list Z) : res Z :=
  d5 ← idx data 5; d6 ← idx data 6; d7 ← idx data 7;
  Ok (Z.lor (Z.lor d5 (Z.shiftl d6 8)) (Z.shiftl d7 16)).

Record ConnRtsParams := MkConnRts {
  p_our_sa : Z;
  p_peer_sa : Z;
  p_priority : Z;
  p_total_size : Z;
  p_total_packets : Z;
  p_sender_max_per_cts : Z;
  p_pgn : Pgn;
}.

(** [decoded.dest_addr.filter(|&sa| sa != GLOBAL_ADDRESS)]. *)
Definition specific_dest (d : DecodedId) : option Z :=
  match dest_addr d with
  | Some sa => if sa =? GLOBAL_ADDRESS then None else Some sa
  | None => None
  end.

Definition in_range (lo hi x : Z) : bool := (lo <=? x) && (x <=? hi).

Definition parse_conn_rts (d : DecodedId) (data : list Z) : res (option ConnRtsParams) :=
  match specific_dest d with
  | None => Ok None
  | Some our_sa =>
      d1 ← idx data 1; d2 ← idx data 2; d3 ← idx data 3;
      let total_size := from_le_bytes [d1; d2] in
      let total_packets := d3 in
      v ← transported_pgn_from data;
      match Pgn_new v with
      | inr _ => Ok None
      | inl p =>
          let well_formed := in_range TP_MIN_PAYLOAD TP_MAX_PAYLOAD total_size
            && (total_packets =? div_ceil total_size TP_DT_DATA_LEN) in
          d4 ← idx data 4;
          Ok (if well_formed then Some
                {| p_our_sa := our_sa; p_peer_sa := source_addr d;
                   p_priority := priority d; p_total_size := total_size;
                   p_total_packets := total_packets;
                   p_sender_max_per_cts := d4; p_pgn := p |}
              else None)
      end
  end.

Definition parse_etp_rts (d : DecodedId) (data : list Z)
    : res (option (Z * Z * Z * Z * Pgn)) :=
  match specific_dest d with
  | None => Ok None
  | Some our_sa =>
      d1 ← idx data 1; d2 ← idx data 2; d3 ← idx data 3; d4 ← idx data 4;
      let total_size := from_le_bytes [d1; d2; d3; d4] in
      v ← transported_pgn_from data;
      match Pgn_new v with
      | inr _ => Ok None
      | inl p =>
          Ok (if in_range ETP_MIN_PAYLOAD ETP_PROTOCOL_MAX total_size
              then Some (our_sa, source_addr d, priority d, total_size, p)
              else None)
      end
  end.

Definition abort_reason_from_u8 (code : Z) : TpAbortReason :=
  if code =? 1 then AlreadyInSession
  else if code =? 2 then Resources
  else if code =? 3 then Timeout
  else Other.

Definition grant_window (remaining_packets cts_window sender_max_per_cts : Z) : Z :=
  let window := Z.min remaining_packets (Z.max cts_window 1) in
  let window := if sender_max_per_cts =? CTS_NO_LIMIT then window
                else Z.min window (Z.max sender_max_per_cts 1) in
  Z.max window 1.

Definition pgn_bytes (p : Pgn) : list Z :=
  let v := value p in
  [Z.land v 0xFF; Z.land (Z.shiftr v 8) 0xFF; Z.land (Z.shiftr v 16) 0xFF].

Definition rts_frame (our_sa dest_sa priority : Z) (p : Pgn)
    (size total_packets max_per_cts : Z) : TpOutFrame :=
  {| o_wire_pgn := cm_pgn; o_priority := priority; o_source_addr := our_sa;
     o_dest_addr := Some dest_sa;
     o_data := [RTS_CONTROL; Z.land size 0xFF; Z.land (Z.shiftr size 8) 0xFF;
                total_packets; max_per_cts] ++ pgn_bytes p |}.

Definition cts_frame (our_sa dest_sa priority : Z) (p : Pgn)
    (num_packets next_seq : Z) : TpOutFrame :=
  {| o_wire_pgn := cm_pgn; o_priority := priority; o_source_addr := our_sa;
     o_dest_addr := Some dest_sa;
     o_data := [CTS_CONTROL; num_packets; next_seq; 0xFF; 0xFF] ++ pgn_bytes p |}.

Definition end_of_msg_ack_frame (our_sa dest_sa priority : Z) (p : Pgn)
    (size total_packets : Z) : TpOutFrame :=
  {| o_wire_pgn := cm_pgn; o_priority := priority; o_source_addr := our_sa;
     o_dest_addr := Some dest_sa;
     o_data := [EOMA_CONTROL; Z.land size 0xFF; Z.land (Z.shiftr size 8) 0xFF;
                total_packets; 0xFF] ++ pgn_bytes p |}.

Definition conn_abort_frame (our_sa dest_sa priority : Z) (p : Pgn)
    (reason : TpAbortReason) : TpOutFrame :=
  {| o_wire_pgn := cm_pgn; o_priority := priority; o_source_addr := our_sa;
     o_dest_addr := Some dest_sa;
     o_data := [CONN_ABORT_CONTROL; as_u8 reason; 0xFF; 0xFF; 0xFF] ++ pgn_bytes p |}.

(** The eight data bytes of a TP.DT / ETP.DT packet: [0xFF] padding, the
    sequence number, then [payload[start..end]]. *)
Definition dt_data (payload : list Z) (seq start end_ : Z) : res (list Z) :=
  n ← sub_chk end_ start;
  chunk ← slice payload start end_;
  if decide (len chunk = n) then copy_at (seq :: replicate 7 0xFF) 1 chunk else Panic.

Fixpoint dt_burst_loop (s : OutboundConnSession) (start_seq : Z) (ks : list Z)
    : res (list TpOutFrame) :=
  match ks with
  | [] => Ok []
  | i :: ks =>
      let seq := wrap 8 (start_seq + i) in
      if (seq <? 1) || (seq >? tc_total_packets s) then Ok []
      else
        let start := (seq - 1) * TP_DT_DATA_LEN in
        let end_ := Z.min (start + TP_DT_DATA_LEN) (len (tc_payload s)) in
        data ← dt_data (tc_payload s) seq start end_;
        fs ← dt_burst_loop s start_seq ks;
        Ok ({| o_wire_pgn := dt_pgn; o_priority := tc_priority s;
               o_source_addr := tc_our_sa s; o_dest_addr := Some (tc_dest_sa s);
               o_data := data |} :: fs)
  end.

Definition build_dt_burst (s : OutboundConnSession) (start_seq count : Z)
    : res (list TpOutFrame) :=
  dt_burst_loop s start_seq (seqZ 0 count).

Definition u24_from (bytes : list Z) : res Z :=
  b0 ← idx bytes 0; b1 ← idx bytes 1; b2 ← idx bytes 2;
  Ok (Z.lor (Z.lor b0 (Z.shiftl b1 8)) (Z.shiftl b2 16)).

Definition u24_bytes (v : Z) : list Z :=
  [Z.land v 0xFF; Z.land (Z.shiftr v 8) 0xFF; Z.land (Z.shiftr v 16) 0xFF].

Definition etp_grant (remaining_packets cts_window : Z) : Z :=
  let window := Z.max cts_window 1 in
  wrap 8 (Z.max (Z.min remaining_packets window) 1).

Definition etp_rts_frame (our_sa dest_sa priority : Z) (p : Pgn) (size : Z) : TpOutFrame :=
  {| o_wire_pgn := etp_cm_pgn; o_priority := priority; o_source_addr := our_sa;
     o_dest_addr := Some dest_sa;
     o_data := [ETP_RTS_CONTROL] ++ to_le_bytes 4 size ++ pgn_bytes p |}.

Definition etp_cts_frame (our_sa dest_sa priority : Z) (p : Pgn)
    (num_packets next_pkt : Z) : TpOutFrame :=
  {| o_wire_pgn := etp_cm_pgn; o_priority := priority; o_source_addr := our_sa;
     o_dest_addr := Some dest_sa;
     o_data := [ETP_CTS_CONTROL; num_packets] ++ u24_bytes next_pkt ++ pgn_bytes p |}.

Definition etp_dpo_frame (our_sa dest_sa priority : Z) (p : Pgn)
    (num_packets offset : Z) : TpOutFrame :=
  {| o_wire_pgn := etp_cm_pgn; o_priority := priority; o_source_addr := our_sa;
     o_dest_addr := Some dest_sa;
     o_data := [ETP_DPO_CONTROL; num_packets] ++ u24_bytes offset ++ pgn_bytes p |}.

Definition etp_eoma_frame (our_sa dest_sa priority : Z) (p : Pgn) (size : Z) : TpOutFrame :=
  {| o_wire_pgn := etp_cm_pgn; o_priority := priority; o_source_addr := our_sa;
     o_dest_addr := Some dest_sa;
     o_data := [ETP_EOMA_CONTROL] ++ to_le_bytes 4 size ++ pgn_bytes p |}.

Definition etp_abort_frame (our_sa dest_sa priority : Z) (p : Pgn)
    (reason : TpAbortReason) : TpOutFrame :=
  {| o_wire_pgn := etp_cm_pgn; o_priority := priority; o_source_addr := our_sa;
     o_dest_addr := Some dest_sa;
     o_data := [ETP_ABORT_CONTROL; as_u8 reason; 0xFF; 0xFF; 0xFF] ++ pgn_bytes p |}.

(** One ETP.DT packet of a burst. *)
Definition etp_dt_packet (s : OutboundEtpSession) (next_pkt i : Z) : res TpOutFrame :=
  let absolute := next_pkt + i in
  let seq := wrap 8 (i + 1) in
  let start := (absolute - 1) * TP_DT_DATA_LEN in
  let end_ := Z.min (start + TP_DT_DATA_LEN) (len (te_payload s)) in
  data ← dt_data (te_payload s) seq start end_;
  Ok {| o_wire_pgn := etp_dt_pgn; o_priority := te_priority s;
        o_source_addr := te_our_sa s; o_dest_addr := Some (te_dest_sa s);
        o_data := data |}.

Definition build_etp_burst (s : OutboundEtpSession) (next_pkt count : Z)
    : res (list TpOutFrame) :=
  offset ← sub_chk next_pkt 1;
  let last := Z.min (sat_sub (sat_add 32 next_pkt count) 1) (te_total_packets s) in
  let effective := sat_add 32 (sat_sub last next_pkt) 1 in
  let dpo := etp_dpo_frame (te_our_sa s) (te_dest_sa s) (te_priority s)
               (te_transported_pgn s) (wrap 8 effective) offset in
  dts ← mapM (etp_dt_packet s next_pkt) (seqZ 0 effective);
  Ok (dpo :: dts).

(** ** Hash-map iteration *)

Class HashIter := {
  hm_iter : ∀ {V : Type}, gmap Key V → list (Key * V);
  hm_iter_perm : ∀ {V : Type} (m : gmap Key V), hm_iter m ≡ₚ map_to_list m;
}.

#[export] Instance map_order : HashIter := {|
  hm_iter := λ V m, map_to_list m;
  hm_iter_perm := λ V m, Permutation_refl _;
|}.

Section engine.
Context {HI : HashIter}.

(** [m.keys().find(|(sa, _)| *sa == source_addr).copied()]. *)
Definition find_sa {V} (m : gmap Key V) (sa : Z) : option Key :=
  List.find (λ k, k.1 =? sa) (hm_iter m).*1.

Abbreviation handler := (res (TpEngine * list TpEvent)).

(** ** BAM *)

Definition on_bam_cm (e : TpEngine) (source_addr : Z) (data : list Z)
    (now : Instant) : handler :=
  d1 ← idx data 1; d2 ← idx data 2; d3 ← idx data 3;
  let total_size := from_le_bytes [d1; d2] in
  let num_packets := d3 in
  pgn_value ← transported_pgn_from data;
  match Pgn_new pgn_value with
  | inr _ => Ok (e, [])
  | inl pgn =>
      if negb (in_range TP_MIN_PAYLOAD TP_MAX_PAYLOAD total_size) then Ok (e, [])
      else
        let expected_packets := div_ceil total_size TP_DT_DATA_LEN in
        if negb (num_packets =? expected_packets) then Ok (e, [])
        else
          let key := (source_addr, pgn) in
          if negb (bool_decide (is_Some (sessions e !! key)))
             && (max_sessions e <=? total_inbound e)
          then Ok (e, [SessionRefused pgn source_addr Resources])
          else
            Ok (set_sessions e (<[key :=
              {| bs_transported_pgn := pgn; bs_source_addr := source_addr;
                 bs_total_size := total_size; bs_num_packets := num_packets;
                 bs_next_seq := 1; bs_buf := []; bs_last_activity := now |}]>
              (sessions e)), [])
  end.

Definition on_bam_dt (e : TpEngine) (source_addr : Z) (data : list Z)
    (now : Instant) : handler :=
  seq ← idx data 0;
  match find_sa (sessions e) source_addr with
  | None => Ok (e, [])
  | Some key =>
      s ← expect (sessions e !! key);
      if negb (seq =? bs_next_seq s) then Ok (e, [])
      else
        let remaining := sat_sub (bs_total_size s) (len (bs_buf s)) in
        let available := sat_sub (len data) 1 in
        let take := Z.min (Z.min remaining TP_DT_DATA_LEN) available in
        chunk ← slice data 1 (take + 1);
        let s' := {| bs_transported_pgn := bs_transported_pgn s;
                     bs_source_addr := bs_source_addr s;
                     bs_total_size := bs_total_size s;
                     bs_num_packets := bs_num_packets s;
                     bs_next_seq := wrap 8 (bs_next_seq s + 1);
                     bs_buf := bs_buf s ++ chunk;
                     bs_last_activity := now |} in
        let e' := set_sessions e (<[key := s']> (sessions e)) in
        if bs_num_packets s' <=? seq then
          done ← expect (sessions e' !! key);
          Ok (set_sessions e' (delete key (sessions e')),
              [Completed (bs_transported_pgn done) (bs_source_addr done) (bs_buf done)])
        else Ok (e', [])
  end.

(** ** Connection mode (RTS/CTS) *)

Definition start_outbound_connection (e : TpEngine) (transported_pgn : Pgn)
    (priority our_sa dest_addr : Z) (payload : list Z) (now : Instant)
    : TpEngine * (list TpOutFrame + TpError) :=
  let size := len payload in
  if negb (in_range TP_MIN_PAYLOAD TP_MAX_PAYLOAD size)
  then (e, inr (PayloadOutOfRange size))
  else
    let total_packets := wrap 8 (div_ceil size TP_DT_DATA_LEN) in
    (set_tx_conn e (<[(dest_addr, transported_pgn) :=
       {| tc_transported_pgn := transported_pgn; tc_our_sa := our_sa;
          tc_dest_sa := dest_addr; tc_priority := priority; tc_payload := payload;
          tc_total_packets := total_packets; tc_last_activity := now |}]> (tx_conn e)),
     inl [rts_frame our_sa dest_addr priority transported_pgn size total_packets
            CTS_NO_LIMIT]).

Definition on_rts (e : TpEngine) (d : DecodedId) (data : list Z) (now : Instant)
    : handler :=
  r ← parse_conn_rts d data;
  match r with
  | None => Ok (e, [])
  | Some p =>
      let key := (p_peer_sa p, p_pgn p) in
      if negb (bool_decide (is_Some (rx_conn e !! key)))
         && (max_sessions e <=? total_inbound e)
      then
        Ok (push_out e (conn_abort_frame (p_our_sa p) (p_peer_sa p) (p_priority p)
                          (p_pgn p) Resources),
            [SessionRefused (p_pgn p) (p_peer_sa p) Resources])
      else
        let window := grant_window (p_total_packets p) (cts_window e)
                        (p_sender_max_per_cts p) in
        let e' := set_rx_conn e (<[key :=
          {| rc_transported_pgn := p_pgn p; rc_peer_sa := p_peer_sa p;
             rc_our_sa := p_our_sa p; rc_priority := p_priority p;
             rc_total_size := p_total_size p; rc_total_packets := p_total_packets p;
             rc_sender_max_per_cts := p_sender_max_per_cts p; rc_next_seq := 1;
             rc_window_remaining := window; rc_buf := [];
             rc_last_activity := now |}]> (rx_conn e)) in
        Ok (push_out e' (cts_frame (p_our_sa p) (p_peer_sa p) (p_priority p)
                           (p_pgn p) window 1), [])
  end.

(** What [on_conn_dt] does after appending a packet. *)
Inductive ConnAct :=
| CDrop
| CWait
| CComplete
| CNextWindow (window next_seq : Z).

(** The borrowed-session block of [on_conn_dt]: the updated session and the
    action to apply once the borrow ends. *)
Definition conn_dt_step (cts_window : Z) (s : InboundConnSession) (seq : Z)
    (data : list Z) (now : Instant) : res (InboundConnSession * ConnAct) :=
  if seq =? rc_next_seq s then
    let remaining := sat_sub (rc_total_size s) (len (rc_buf s)) in
    let available := sat_sub (len data) 1 in
    let take := Z.min (Z.min remaining TP_DT_DATA_LEN) available in
    chunk ← slice data 1 (take + 1);
    let next_seq := wrap 8 (rc_next_seq s + 1) in
    let window_remaining := sat_sub (rc_window_remaining s) 1 in
    let upd w := {| rc_transported_pgn := rc_transported_pgn s;
                    rc_peer_sa := rc_peer_sa s; rc_our_sa := rc_our_sa s;
                    rc_priority := rc_priority s; rc_total_size := rc_total_size s;
                    rc_total_packets := rc_total_packets s;
                    rc_sender_max_per_cts := rc_sender_max_per_cts s;
                    rc_next_seq := next_seq; rc_window_remaining := w;
                    rc_buf := rc_buf s ++ chunk; rc_last_activity := now |} in
    if rc_total_packets s <=? seq then Ok (upd window_remaining, CComplete)
    else if window_remaining =? 0 then
      k ← sub_chk next_seq 1;
      remaining_packets ← sub_chk (rc_total_packets s) k;
      let window := grant_window remaining_packets cts_window
                      (rc_sender_max_per_cts s) in
      Ok (upd window, CNextWindow window next_seq)
    else Ok (upd window_remaining, CWait)
  else Ok (s, CDrop).

Definition on_conn_dt (e : TpEngine) (peer_sa : Z) (data : list Z) (now : Instant)
    : handler :=
  seq ← idx data 0;
  match find_sa (rx_conn e) peer_sa with
  | None => Ok (e, [])
  | Some key =>
      s ← expect (rx_conn e !! key);
      '(s', act) ← conn_dt_step (cts_window e) s seq data now;
      let e' := set_rx_conn e (<[key := s']> (rx_conn e)) in
      match act with
      | CDrop | CWait => Ok (e', [])
      | CComplete =>
          done ← expect (rx_conn e' !! key);
          let e'' := set_rx_conn e' (delete key (rx_conn e')) in
          Ok (push_out e'' (end_of_msg_ack_frame (rc_our_sa done) (rc_peer_sa done)
                (rc_priority done) (rc_transported_pgn done) (rc_total_size done)
                (rc_total_packets done)),
              [Completed (rc_transported_pgn done) (rc_peer_sa done) (rc_buf done)])
      | CNextWindow window next_seq =>
          s'' ← expect (rx_conn e' !! key);
          Ok (push_out e' (cts_frame (rc_our_sa s'') (rc_peer_sa s'')
                (rc_priority s'') (rc_transported_pgn s'') window next_seq), [])
      end
  end.

Definition touch_tx (s : OutboundConnSession) (now : Instant) : OutboundConnSession :=
  {| tc_transported_pgn := tc_transported_pgn s; tc_our_sa := tc_our_sa s;
     tc_dest_sa := tc_dest_sa s; tc_priority := tc_priority s;
     tc_payload := tc_payload s; tc_total_packets := tc_total_packets s;
     tc_last_activity := now |}.

Definition on_cts (e : TpEngine) (d : DecodedId) (data : list Z) (now : Instant)
    : handler :=
  v ← transported_pgn_from data;
  match Pgn_new v with
  | inr _ => Ok (e, [])
  | inl pgn =>
      let key := (source_addr d, pgn) in
      num_to_send ← idx data 1;
      next_seq ← idx data 2;
      match tx_conn e !! key with
      | None => Ok (e, [])
      | Some s =>
          let s' := touch_tx s now in
          let e' := set_tx_conn e (<[key := s']> (tx_conn e)) in
          if num_to_send =? 0 then Ok (e', [])
          else
            burst ← build_dt_burst s' next_seq num_to_send;
            Ok (extend_out e' burst, [])
      end
  end.

Definition on_end_of_msg_ack (e : TpEngine) (d : DecodedId) (data : list Z) : handler :=
  v ← transported_pgn_from data;
  match Pgn_new v with
  | inr _ => Ok (e, [])
  | inl pgn => Ok (set_tx_conn e (delete (source_addr d, pgn) (tx_conn e)), [])
  end.

Definition on_conn_abort (e : TpEngine) (d : DecodedId) (data : list Z) : handler :=
  v ← transported_pgn_from data;
  match Pgn_new v with
  | inr _ => Ok (e, [])
  | inl pgn =>
      d1 ← idx data 1;
      let reason := abort_reason_from_u8 d1 in
      let key := (source_addr d, pgn) in
      let ev_rx := match rx_conn e !! key with
        | Some s => [Aborted (rc_transported_pgn s) (rc_peer_sa s) reason]
        | None => [] end in
      let e := set_rx_conn e (delete key (rx_conn e)) in
      let ev_tx := match tx_conn e !! key with
        | Some s => [Aborted (tc_transported_pgn s) (tc_dest_sa s) reason]
        | None => [] end in
      let e := set_tx_conn e (delete key (tx_conn e)) in
      Ok (e, ev_rx ++ ev_tx)
  end.

(** ** Dispatch of TP.CM and TP.DT *)

Definition on_cm (e : TpEngine) (d : DecodedId) (data : list Z) (now : Instant)
    : handler :=
  if len data <? 8 then Ok (e, [])
  else
    c ← idx data 0;
    if c =? BAM_CONTROL then on_bam_cm e (source_addr d) data now
    else if c =? RTS_CONTROL then on_rts e d data now
    else if c =? CTS_CONTROL then on_cts e d data now
    else if c =? EOMA_CONTROL then on_end_of_msg_ack e d data
    else if c =? CONN_ABORT_CONTROL then on_conn_abort e d data
    else Ok (e, []).

Definition on_dt (e : TpEngine) (d : DecodedId) (data : list Z) (now : Instant)
    : handler :=
  if len data =? 0 then Ok (e, [])
  else
    match dest_addr d with
    | Some da => if da =? GLOBAL_ADDRESS
                 then on_bam_dt e (source_addr d) data now
                 else on_conn_dt e (source_addr d) data now
    | None => on_bam_dt e (source_addr d) data now
    end.

(** ** ETP *)

Definition start_outbound_etp (e : TpEngine) (transported_pgn : Pgn)
    (priority our_sa dest_addr : Z) (payload : list Z) (now : Instant)
    : TpEngine * (list TpOutFrame + TpError) :=
  let size := len payload in
  if negb (in_range ETP_MIN_PAYLOAD (max_etp_bytes e) size)
  then (e, inr (EtpPayloadOutOfRange size (max_etp_bytes e)))
  else
    let total_packets := wrap 32 (div_ceil size TP_DT_DATA_LEN) in
    (set_etp_tx e (<[(dest_addr, transported_pgn) :=
       {| te_transported_pgn := transported_pgn; te_our_sa := our_sa;
          te_dest_sa := dest_addr; te_priority := priority; te_payload := payload;
          te_total_packets := total_packets; te_last_activity := now |}]> (etp_tx e)),
     inl [etp_rts_frame our_sa dest_addr priority transported_pgn size]).

Definition on_etp_rts (e : TpEngine) (d : DecodedId) (data : list Z) (now : Instant)
    : handler :=
  r ← parse_etp_rts d data;
  match r with
  | None => Ok (e, [])
  | Some (our_sa, peer_sa, priority, total_size, pgn) =>
      if max_etp_bytes e <? total_size then
        Ok (push_out e (etp_abort_frame our_sa peer_sa priority pgn Resources),
            [Aborted pgn peer_sa Resources])
      else
        let key := (peer_sa, pgn) in
        if negb (bool_decide (is_Some (etp_rx e !! key)))
           && (max_sessions e <=? total_inbound e)
        then
          Ok (push_out e (etp_abort_frame our_sa peer_sa priority pgn Resources),
              [SessionRefused pgn peer_sa Resources])
        else
          let total_packets := wrap 32 (div_ceil total_size TP_DT_DATA_LEN) in
          let window := etp_grant total_packets (cts_window e) in
          let e' := set_etp_rx e (<[key :=
            {| re_transported_pgn := pgn; re_peer_sa := peer_sa; re_our_sa := our_sa;
               re_priority := priority; re_total_size := total_size;
               re_total_packets := total_packets; re_next_packet := 1;
               re_dpo_offset := 0; re_burst_remaining := 0;
               re_buf := replicate (Z.to_nat total_size) 0;
               re_last_activity := now |}]> (etp_rx e)) in
          Ok (push_out e' (etp_cts_frame our_sa peer_sa priority pgn window 1), [])
  end.

Definition touch_etp_tx (s : OutboundEtpSession) (now : Instant) : OutboundEtpSession :=
  {| te_transported_pgn := te_transported_pgn s; te_our_sa := te_our_sa s;
     te_dest_sa := te_dest_sa s; te_priority := te_priority s;
     te_payload := te_payload s; te_total_packets := te_total_packets s;
     te_last_activity := now |}.

Definition on_etp_cts (e : TpEngine) (d : DecodedId) (data : list Z) (now : Instant)
    : handler :=
  v ← transported_pgn_from data;
  match Pgn_new v with
  | inr _ => Ok (e, [])
  | inl pgn =>
      let key := (source_addr d, pgn) in
      num ← idx data 1;
      b ← slice data 2 5;
      next_pkt ← u24_from b;
      match etp_tx e !! key with
      | None => Ok (e, [])
      | Some s =>
          let s' := touch_etp_tx s now in
          let e' := set_etp_tx e (<[key := s']> (etp_tx e)) in
          if (num =? 0) || (next_pkt =? 0) then Ok (e', [])
          else
            burst ← build_etp_burst s' next_pkt num;
            Ok (extend_out e' burst, [])
      end
  end.

Definition on_etp_dpo (e : TpEngine) (d : DecodedId) (data : list Z) (now : Instant)
    : handler :=
  v ← transported_pgn_from data;
  match Pgn_new v with
  | inr _ => Ok (e, [])
  | inl pgn =>
      let key := (source_addr d, pgn) in
      match etp_rx e !! key with
      | None => Ok (e, [])
      | Some s =>
          b ← slice data 2 5;
          offset ← u24_from b;
          d1 ← idx data 1;
          Ok (set_etp_rx e (<[key :=
            {| re_transported_pgn := re_transported_pgn s; re_peer_sa := re_peer_sa s;
               re_our_sa := re_our_sa s; re_priority := re_priority s;
               re_total_size := re_total_size s; re_total_packets := re_total_packets s;
               re_next_packet := re_next_packet s; re_dpo_offset := offset;
               re_burst_remaining := d1; re_buf := re_buf s;
               re_last_activity := now |}]> (etp_rx e)), [])
      end
  end.

(** What [on_etp_dt] does after storing a packet. *)
Inductive EtpAct :=
| EDrop
| EWait
| EComplete
| ENextBurst (window next_pkt : Z).

Definition etp_dt_step (cts_window : Z) (s : InboundEtpSession) (seq : Z)
    (data : list Z) (now : Instant) : res (InboundEtpSession * EtpAct) :=
  let absolute := sat_add 32 (re_dpo_offset s) seq in
  if negb (absolute =? re_next_packet s) || (absolute =? 0)
     || (re_total_packets s <? absolute)
  then Ok (s, EDrop)
  else
    k ← sub_chk absolute 1;
    let byte_off := k * TP_DT_DATA_LEN in
    let remaining := sat_sub (re_total_size s) byte_off in
    let available := sat_sub (len data) 1 in
    let take := Z.min (Z.min remaining TP_DT_DATA_LEN) available in
    chunk ← slice data 1 (take + 1);
    buf ← copy_at (re_buf s) byte_off chunk;
    let next_packet := re_next_packet s + 1 in
    let burst_remaining := sat_sub (re_burst_remaining s) 1 in
    let s' := {| re_transported_pgn := re_transported_pgn s;
                 re_peer_sa := re_peer_sa s; re_our_sa := re_our_sa s;
                 re_priority := re_priority s; re_total_size := re_total_size s;
                 re_total_packets := re_total_packets s;
                 re_next_packet := next_packet; re_dpo_offset := re_dpo_offset s;
                 re_burst_remaining := burst_remaining; re_buf := buf;
                 re_last_activity := now |} in
    if re_total_packets s <? next_packet then Ok (s', EComplete)
    else if burst_remaining =? 0 then
      j ← sub_chk next_packet 1;
      remaining_packets ← sub_chk (re_total_packets s) j;
      Ok (s', ENextBurst (etp_grant remaining_packets cts_window) next_packet)
    else Ok (s', EWait).

Definition on_etp_dt (e : TpEngine) (d : DecodedId) (data : list Z) (now : Instant)
    : handler :=
  if len data =? 0 then Ok (e, [])
  else
    seq ← idx data 0;
    match find_sa (etp_rx e) (source_addr d) with
    | None => Ok (e, [])
    | Some key =>
        s ← expect (etp_rx e !! key);
        '(s', act) ← etp_dt_step (cts_window e) s seq data now;
        let e' := set_etp_rx e (<[key := s']> (etp_rx e)) in
        match act with
        | EDrop | EWait => Ok (e', [])
        | EComplete =>
            done ← expect (etp_rx e' !! key);
            let e'' := set_etp_rx e' (delete key (etp_rx e')) in
            Ok (push_out e'' (etp_eoma_frame (re_our_sa done) (re_peer_sa done)
                  (re_priority done) (re_transported_pgn done) (re_total_size done)),
                [Completed (re_transported_pgn done) (re_peer_sa done) (re_buf done)])
        | ENextBurst window next_pkt =>
            s'' ← expect (etp_rx e' !! key);
            Ok (push_out e' (etp_cts_frame (re_our_sa s'') (re_peer_sa s'')
                  (re_priority s'') (re_transported_pgn s'') window next_pkt), [])
        end
    end.

Definition on_etp_eoma (e : TpEngine) (d : DecodedId) (data : list Z) : handler :=
  v ← transported_pgn_from data;
  match Pgn_new v with
  | inr _ => Ok (e, [])
  | inl pgn => Ok (set_etp_tx e (delete (source_addr d, pgn) (etp_tx e)), [])
  end.

Definition on_etp_abort (e : TpEngine) (d : DecodedId) (data : list Z) : handler :=
  v ← transported_pgn_from data;
  match Pgn_new v with
  | inr _ => Ok (e, [])
  | inl pgn =>
      d1 ← idx data 1;
      let reason := abort_reason_from_u8 d1 in
      let key := (source_addr d, pgn) in
      let ev_rx := match etp_rx e !! key with
        | Some s => [Aborted (re_transported_pgn s) (re_peer_sa s) reason]
        | None => [] end in
      let e := set_etp_rx e (delete key (etp_rx e)) in
      let ev_tx := match etp_tx e !! key with
        | Some s => [Aborted (te_transported_pgn s) (te_dest_sa s) reason]
        | None => [] end in
      let e := set_etp_tx e (delete key (etp_tx e)) in
      Ok (e, ev_rx ++ ev_tx)
  end.

Definition on_etp_cm (e : TpEngine) (d : DecodedId) (data : list Z) (now : Instant)
    : handler :=
  if len data <? 8 then Ok (e, [])
  else
    c ← idx data 0;
    if c =? ETP_RTS_CONTROL then on_etp_rts e d data now
    else if c =? ETP_CTS_CONTROL then on_etp_cts e d data now
    else if c =? ETP_DPO_CONTROL then on_etp_dpo e d data now
    else if c =? ETP_EOMA_CONTROL then on_etp_eoma e d data
    else if c =? ETP_ABORT_CONTROL then on_etp_abort e d data
    else Ok (e, []).

(** ** The frame entry point *)

Definition on_frame (e : TpEngine) (d : DecodedId) (data : list Z) (now : Instant)
    : handler :=
  let v := value (pgn d) in
  if v =? TP_CM_PGN then on_cm e d data now
  else if v =? TP_DT_PGN then on_dt e d data now
  else if v =? ETP_CM_PGN then on_etp_cm e d data now
  else if v =? ETP_DT_PGN then on_etp_dt e d data now
  else Ok (e, []).

(** ** Timeouts *)

(** [iter().filter(|(_, s)| now - s.last_activity > t).map(|(k, _)| *k)]. *)
Definition expired_keys {V} (last : V → Instant) (m : gmap Key V)
    (now : Instant) (t : Duration) : list Key :=
  (List.filter (λ kv, t <? saturating_duration_since now (last kv.2)) (hm_iter m)).*1.

(** The shape shared by the five removal loops ([for key in expired]): the
    session is removed, its abort frame queued (none for BAM) and its
    [Aborted] event appended. *)
Fixpoint poll_loop {V} (tbl : TpEngine → gmap Key V)
    (drop : TpEngine → Key → V → TpEngine) (ev : V → TpEvent)
    (keys : list Key) (e : TpEngine) (events : list TpEvent) : handler :=
  match keys with
  | [] => Ok (e, events)
  | key :: keys =>
      s ← expect (tbl e !! key);
      poll_loop tbl drop ev keys (drop e key s) (events ++ [ev s])
  end.

Definition drop_bam (e : TpEngine) (key : Key) (s : InboundSession) : TpEngine :=
  set_sessions e (delete key (sessions e)).
Definition abort_bam (s : InboundSession) : TpEvent :=
  Aborted (bs_transported_pgn s) (bs_source_addr s) Timeout.

Definition drop_rx_conn (e : TpEngine) (key : Key) (s : InboundConnSession) : TpEngine :=
  push_out (set_rx_conn e (delete key (rx_conn e)))
    (conn_abort_frame (rc_our_sa s) (rc_peer_sa s) (rc_priority s)
       (rc_transported_pgn s) Timeout).
Definition abort_rx_conn (s : InboundConnSession) : TpEvent :=
  Aborted (rc_transported_pgn s) (rc_peer_sa s) Timeout.

Definition drop_tx_conn (e : TpEngine) (key : Key) (s : OutboundConnSession) : TpEngine :=
  push_out (set_tx_conn e (delete key (tx_conn e)))
    (conn_abort_frame (tc_our_sa s) (tc_dest_sa s) (tc_priority s)
       (tc_transported_pgn s) Timeout).
Definition abort_tx_conn (s : OutboundConnSession) : TpEvent :=
  Aborted (tc_transported_pgn s) (tc_dest_sa s) Timeout.

Definition drop_etp_rx (e : TpEngine) (key : Key) (s : InboundEtpSession) : TpEngine :=
  push_out (set_etp_rx e (delete key (etp_rx e)))
    (etp_abort_frame (re_our_sa s) (re_peer_sa s) (re_priority s)
       (re_transported_pgn s) Timeout).
Definition abort_etp_rx (s : InboundEtpSession) : TpEvent :=
  Aborted (re_transported_pgn s) (re_peer_sa s) Timeout.

Definition drop_etp_tx (e : TpEngine) (key : Key) (s : OutboundEtpSession) : TpEngine :=
  push_out (set_etp_tx e (delete key (etp_tx e)))
    (etp_abort_frame (te_our_sa s) (te_dest_sa s) (te_priority s)
       (te_transported_pgn s) Timeout).
Definition abort_etp_tx (s : OutboundEtpSession) : TpEvent :=
  Aborted (te_transported_pgn s) (te_dest_sa s) Timeout.

Definition poll_bam := poll_loop sessions drop_bam abort_bam.
Definition poll_rx_conn := poll_loop rx_conn drop_rx_conn abort_rx_conn.
Definition poll_tx_conn := poll_loop tx_conn drop_tx_conn abort_tx_conn.
Definition poll_etp_rx := poll_loop etp_rx drop_etp_rx abort_etp_rx.
Definition poll_etp_tx := poll_loop etp_tx drop_etp_tx abort_etp_tx.

Definition poll_etp_timeouts (e : TpEngine) (now : Instant) (t2 t3 : Duration)
    : handler :=
  '(e, events) ← poll_etp_rx (expired_keys re_last_activity (etp_rx e) now t2) e [];
  poll_etp_tx (expired_keys te_last_activity (etp_tx e) now t3) e events.

Definition poll_timeouts (e : TpEngine) (now : Instant) : handler :=
  let t1 := t1 (timers e) in
  '(e, events) ← poll_bam (expired_keys bs_last_activity (sessions e) now t1) e [];
  let t2 := t2 (timers e) in
  '(e, events) ← poll_rx_conn (expired_keys rc_last_activity (rx_conn e) now t2) e events;
  let t3 := t3 (timers e) in
  '(e, events) ← poll_tx_conn (expired_keys tc_last_activity (tx_conn e) now t3) e events;
  '(e, etp_events) ← poll_etp_timeouts e now t2 t3;
  Ok (e, events ++ etp_events).

End engine.

(** ** Outbound BAM segmentation *)

Definition bam_dt_frame (priority source_addr : Z) (payload : list Z) (i : Z)
    : res TpOutFrame :=
  let size := len payload in
  let start := i * TP_DT_DATA_LEN in
  let end_ := Z.min (start + TP_DT_DATA_LEN) size in
  data ← dt_data payload (wrap 8 (i + 1)) start end_;
  Ok {| o_wire_pgn := dt_pgn; o_priority := priority; o_source_addr := source_addr;
        o_dest_addr := Some GLOBAL_ADDRESS; o_data := data |}.

Definition segment_outbound (transported_pgn : Pgn) (priority source_addr : Z)
    (payload : list Z) : res (list TpOutFrame + TpError) :=
  let size := len payload in
  if negb (in_range TP_MIN_PAYLOAD TP_MAX_PAYLOAD size)
  then Ok (inr (PayloadOutOfRange size))
  else
    let num_packets := div_ceil size TP_DT_DATA_LEN in
    let pgn_value := value transported_pgn in
    let size_lo := Z.land size 0xFF in
    let size_hi := Z.land (Z.shiftr size 8) 0xFF in
    let cm := [BAM_CONTROL; size_lo; size_hi; wrap 8 num_packets; 0xFF;
               Z.land pgn_value 0xFF; Z.land (Z.shiftr pgn_value 8) 0xFF;
               Z.land (Z.shiftr pgn_value 16) 0xFF] in
    let announce := {| o_wire_pgn := cm_pgn; o_priority := priority;
                       o_source_addr := source_addr;
                       o_dest_addr := Some GLOBAL_ADDRESS; o_data := cm |} in
    dts ← mapM (bam_dt_frame priority source_addr payload) (seqZ 0 num_packets);
    Ok (inl (announce :: dts)).

End Tp.
