(* ===== verification/J1939TpInv.v ===== *)
(** * The engine invariant

    The well-formedness invariant of [TpEngine] ([wf_engine]) and its
    preservation by every operation: the concurrency cap, the reassembly
    bounds and the session counters.  Each handler is shown to return (no
    panic) on every well-formed engine and every byte string; the one
    exception, an ETP.CTS that asks for packets past the end of the message,
    is characterised exactly. *)

From stdpp Require Import base gmap list list_numbers.
From Stdlib Require Import ZArith Lia.
From S2P Require Import Prelude J1939Id J1939Tp.

Module TpInv.
Import Id Tp.

(** ** Invariants *)

Definition wf_bam (k : Key) (s : InboundSession) : Prop :=
  k = (bs_source_addr s, bs_transported_pgn s)
  ∧ TP_MIN_PAYLOAD ≤ bs_total_size s ≤ TP_MAX_PAYLOAD
  ∧ bs_num_packets s = div_ceil (bs_total_size s) TP_DT_DATA_LEN
  ∧ 1 ≤ bs_next_seq s ≤ bs_num_packets s
  ∧ len (bs_buf s) ≤ TP_DT_DATA_LEN * (bs_next_seq s - 1).

Definition wf_rx (w : Z) (k : Key) (s : InboundConnSession) : Prop :=
  k = (rc_peer_sa s, rc_transported_pgn s)
  ∧ TP_MIN_PAYLOAD ≤ rc_total_size s ≤ TP_MAX_PAYLOAD
  ∧ rc_total_packets s = div_ceil (rc_total_size s) TP_DT_DATA_LEN
  ∧ 1 ≤ rc_next_seq s ≤ rc_total_packets s
  ∧ len (rc_buf s) ≤ TP_DT_DATA_LEN * (rc_next_seq s - 1)
  ∧ 1 ≤ rc_window_remaining s ≤ w
  ∧ rc_window_remaining s ≤ rc_total_packets s - (rc_next_seq s - 1).

Definition wf_tx (k : Key) (s : OutboundConnSession) : Prop :=
  k = (tc_dest_sa s, tc_transported_pgn s)
  ∧ TP_MIN_PAYLOAD ≤ len (tc_payload s) ≤ TP_MAX_PAYLOAD
  ∧ tc_total_packets s = div_ceil (len (tc_payload s)) TP_DT_DATA_LEN.

Definition wf_etp_rx (max : Z) (k : Key) (s : InboundEtpSession) : Prop :=
  k = (re_peer_sa s, re_transported_pgn s)
  ∧ ETP_MIN_PAYLOAD ≤ re_total_size s ≤ Z.min max ETP_PROTOCOL_MAX
  ∧ re_total_packets s = div_ceil (re_total_size s) TP_DT_DATA_LEN
  ∧ 1 ≤ re_next_packet s ≤ re_total_packets s
  ∧ 0 ≤ re_dpo_offset s < 2 ^ 24
  ∧ 0 ≤ re_burst_remaining s < 2 ^ 8
  ∧ len (re_buf s) = re_total_size s.

Definition wf_etp_tx (max : Z) (k : Key) (s : OutboundEtpSession) : Prop :=
  k = (te_dest_sa s, te_transported_pgn s)
  ∧ ETP_MIN_PAYLOAD ≤ len (te_payload s) ≤ max
  ∧ te_total_packets s = wrap 32 (div_ceil (len (te_payload s)) TP_DT_DATA_LEN).

Record wf_engine (e : TpEngine) : Prop := {
  wf_sessions : map_Forall wf_bam (sessions e);
  wf_rx_conn : map_Forall (wf_rx (cts_window e)) (rx_conn e);
  wf_tx_conn : map_Forall wf_tx (tx_conn e);
  wf_etp_rxs : map_Forall (wf_etp_rx (max_etp_bytes e)) (etp_rx e);
  wf_etp_txs : map_Forall (wf_etp_tx (max_etp_bytes e)) (etp_tx e);
  wf_cap : total_inbound e ≤ max_sessions e;
  wf_max : 1 ≤ max_sessions e;
  wf_cts : 1 ≤ cts_window e < 256;
  wf_etp_max : ETP_MIN_PAYLOAD ≤ max_etp_bytes e;
}.

(** The configuration is fixed after construction. *)
Definition same_config (e e' : TpEngine) : Prop :=
  cts_window e' = cts_window e ∧ timers e' = timers e
  ∧ max_sessions e' = max_sessions e ∧ outbound_pacing e' = outbound_pacing e
  ∧ max_etp_bytes e' = max_etp_bytes e.

(** Events carry bounded payloads. *)
Definition wf_event (e : TpEngine) (ev : TpEvent) : Prop :=
  match ev with
  | Completed _ _ payload => len payload ≤ Z.max TP_MAX_PAYLOAD (max_etp_bytes e)
  | _ => True
  end.

(** What every engine step guarantees. *)
Definition good (e : TpEngine) (r : TpEngine * list TpEvent) : Prop :=
  wf_engine r.1 ∧ same_config e r.1 ∧ Forall (wf_event e) r.2.

(** ** Helper lemmas *)

Lemma wf_window w s : wf_rx w (rc_peer_sa s, rc_transported_pgn s) s →
  rc_total_packets s ≤ 255.
Proof.
  intros (_ & Hsz & -> & _). unfold TP_MAX_PAYLOAD, TP_DT_DATA_LEN, div_ceil in *. zdiv.
Qed.

Lemma packets_255 size : TP_MIN_PAYLOAD ≤ size ≤ TP_MAX_PAYLOAD →
  2 ≤ div_ceil size TP_DT_DATA_LEN ≤ 255.
Proof. unfold TP_MIN_PAYLOAD, TP_MAX_PAYLOAD, TP_DT_DATA_LEN, div_ceil. intros. zdiv. Qed.

Lemma packets_size size : 0 ≤ size →
  size ≤ 7 * div_ceil size TP_DT_DATA_LEN < size + 7.
Proof. unfold TP_DT_DATA_LEN, div_ceil. intros. zdiv. Qed.

Lemma in_range_spec lo hi x : in_range lo hi x = true ↔ lo ≤ x ≤ hi.
Proof. unfold in_range. rewrite andb_true_iff, !Z.leb_le. done. Qed.

Lemma le3_lor b0 b1 b2 : is_u 8 b0 → is_u 8 b1 → is_u 8 b2 →
  Z.lor (Z.lor b0 (Z.shiftl b1 8)) (Z.shiftl b2 16) = from_le_bytes [b0; b1; b2].
Proof.
  unfold is_u. intros H0 H1 H2. rewrite !Z.shiftl_mul_pow2 by lia.
  rewrite (Z.lor_comm b0), lor_disjoint_add by lia.
  rewrite Z.lor_comm, lor_disjoint_add by lia. le_simpl. lia.
Qed.

Lemma transported_pgn_spec data (Q : Z → Prop) :
  is_bytes data → 8 ≤ len data →
  (∀ b5 b6 b7, data !! 5%nat = Some b5 → data !! 6%nat = Some b6 →
     data !! 7%nat = Some b7 → Q (from_le_bytes [b5; b6; b7])) →
  wp (transported_pgn_from data) Q.
Proof.
  intros Hd Hl HQ. unfold transported_pgn_from. repeat wp_step.
  rewrite le3_lor by eauto using is_bytes_lookup. by apply HQ.
Qed.

Lemma u24_slice_spec data (Q : Z → Prop) :
  is_bytes data → 8 ≤ len data →
  (∀ b2 b3 b4, data !! 2%nat = Some b2 → data !! 3%nat = Some b3 →
     data !! 4%nat = Some b4 → Q (from_le_bytes [b2; b3; b4])) →
  wp (b ← slice data 2 5; u24_from b) Q.
Proof.
  intros Hd Hl HQ. wp_step. apply wp_slice; [lia..|]. intros c Hc Hcl.
  unfold u24_from. repeat wp_step. subst c.
  rewrite lookup_take_lt, lookup_drop in Hb, Hb0, Hb1 by (vm_compute; lia).
  rewrite le3_lor by eauto using is_bytes_lookup. by apply HQ.
Qed.

Lemma le3_bound b0 b1 b2 : is_u 8 b0 → is_u 8 b1 → is_u 8 b2 →
  0 ≤ from_le_bytes [b0; b1; b2] < 2 ^ 24.
Proof. unfold is_u. le_simpl. lia. Qed.

Section find_sa.
Context {HI : HashIter} {V : Type}.
Implicit Types m : gmap Key V.

Lemma hm_keys_elem m k : k ∈ (hm_iter m).*1 ↔ is_Some (m !! k).
Proof.
  rewrite list_elem_of_fmap. split.
  - intros ([k' v] & -> & Hin). rewrite hm_iter_perm in Hin.
    apply elem_of_map_to_list in Hin. by eexists.
  - intros [v Hv]. exists (k, v). split; [done|]. rewrite hm_iter_perm.
    by apply elem_of_map_to_list.
Qed.

Lemma find_sa_Some m sa k :
  find_sa m sa = Some k → k.1 = sa ∧ is_Some (m !! k).
Proof.
  unfold find_sa. intros [Hin Heq]%List.find_some.
  apply Z.eqb_eq in Heq. split; [done|].
  apply hm_keys_elem. by apply list_elem_of_In.
Qed.

Lemma find_sa_None m sa k : find_sa m sa = None → is_Some (m !! k) → k.1 ≠ sa.
Proof.
  unfold find_sa. intros Hnone Hk ?. subst sa.
  apply hm_keys_elem, list_elem_of_In in Hk.
  pose proof (List.find_none _ _ Hnone _ Hk) as Hf. simpl in Hf.
  by rewrite Z.eqb_refl in Hf.
Qed.

(** With a single session of the source address, the lookup is
    independent of the iteration order. *)
Lemma find_sa_unique m sa k :
  k.1 = sa → is_Some (m !! k) →
  (∀ k', is_Some (m !! k') → k'.1 = sa → k' = k) →
  find_sa m sa = Some k.
Proof.
  intros Hsa Hk Hu. destruct (find_sa m sa) as [k'|] eqn:E.
  - apply find_sa_Some in E as [? ?]. f_equal. eauto.
  - exfalso. by eapply find_sa_None in E.
Qed.
End find_sa.

(** ** Grants *)

Lemma grant_window_bounds r w m :
  1 ≤ r → 1 ≤ w →
  1 ≤ grant_window r w m ≤ w ∧ grant_window r w m ≤ r
  ∧ (m ≠ CTS_NO_LIMIT → grant_window r w m ≤ Z.max m 1).
Proof.
  intros. unfold grant_window. destruct (Z.eqb_spec m CTS_NO_LIMIT); lia.
Qed.

Lemma etp_grant_bounds r w : 1 ≤ r → 1 ≤ w < 256 →
  1 ≤ etp_grant r w ≤ w ∧ etp_grant r w ≤ r.
Proof. intros. unfold etp_grant, wrap. rewrite Z.mod_small by lia. lia. Qed.

(** ** Field updates preserve the invariant *)

Lemma set_sessions_set e m m' : set_sessions (set_sessions e m) m' = set_sessions e m'.
Proof. done. Qed.
Lemma set_rx_conn_set e m m' : set_rx_conn (set_rx_conn e m) m' = set_rx_conn e m'.
Proof. done. Qed.
Lemma set_etp_rx_set e m m' : set_etp_rx (set_etp_rx e m) m' = set_etp_rx e m'.
Proof. done. Qed.

Lemma wf_set_sessions e m :
  wf_engine e → map_Forall wf_bam m →
  total_inbound (set_sessions e m) ≤ max_sessions e → wf_engine (set_sessions e m).
Proof. intros [] ??. by constructor. Qed.

Lemma wf_set_rx_conn e m :
  wf_engine e → map_Forall (wf_rx (cts_window e)) m →
  total_inbound (set_rx_conn e m) ≤ max_sessions e → wf_engine (set_rx_conn e m).
Proof. intros [] ??. by constructor. Qed.

Lemma wf_set_etp_rx e m :
  wf_engine e → map_Forall (wf_etp_rx (max_etp_bytes e)) m →
  total_inbound (set_etp_rx e m) ≤ max_sessions e → wf_engine (set_etp_rx e m).
Proof. intros [] ??. by constructor. Qed.

Lemma wf_set_tx_conn e m :
  wf_engine e → map_Forall wf_tx m → wf_engine (set_tx_conn e m).
Proof. intros [] ?. by constructor. Qed.

Lemma wf_set_etp_tx e m :
  wf_engine e → map_Forall (wf_etp_tx (max_etp_bytes e)) m → wf_engine (set_etp_tx e m).
Proof. intros [] ?. by constructor. Qed.

Lemma wf_set_pending_out e fs : wf_engine e → wf_engine (set_pending_out e fs).
Proof. intros []. by constructor. Qed.

Lemma wf_push_out e f : wf_engine e → wf_engine (push_out e f).
Proof. apply wf_set_pending_out. Qed.

(** Inserting or replacing one inbound session keeps the cap when the key is
    already present or the cap is not reached. *)
Definition room {V} (e : TpEngine) (m : gmap Key V) (k : Key) : Prop :=
  is_Some (m !! k) ∨ total_inbound e < max_sessions e.

Ltac cap_unfold := unfold room, total_inbound, active_inbound_sessions,
  active_inbound_connections, active_inbound_etp_sessions in *; simpl in *.

Lemma wf_insert_session e k s :
  wf_engine e → wf_bam k s → room e (sessions e) k →
  wf_engine (set_sessions e (<[k := s]> (sessions e))).
Proof.
  intros He Hs Hroom. apply wf_set_sessions; [done|..].
  { apply map_Forall_insert_2; [done|apply He]. }
  pose proof (wf_cap _ He). cap_unfold.
  rewrite size_insert_Z. destruct Hroom; case_decide; first [tauto|lia].
Qed.

Lemma wf_insert_rx_conn e k s :
  wf_engine e → wf_rx (cts_window e) k s → room e (rx_conn e) k →
  wf_engine (set_rx_conn e (<[k := s]> (rx_conn e))).
Proof.
  intros He Hs Hroom. apply wf_set_rx_conn; [done|..].
  { apply map_Forall_insert_2; [done|apply He]. }
  pose proof (wf_cap _ He). cap_unfold.
  rewrite size_insert_Z. destruct Hroom; case_decide; first [tauto|lia].
Qed.

Lemma wf_insert_etp_rx e k s :
  wf_engine e → wf_etp_rx (max_etp_bytes e) k s → room e (etp_rx e) k →
  wf_engine (set_etp_rx e (<[k := s]> (etp_rx e))).
Proof.
  intros He Hs Hroom. apply wf_set_etp_rx; [done|..].
  { apply map_Forall_insert_2; [done|apply He]. }
  pose proof (wf_cap _ He). cap_unfold.
  rewrite size_insert_Z. destruct Hroom; case_decide; first [tauto|lia].
Qed.

Lemma wf_delete_session e k :
  wf_engine e → wf_engine (set_sessions e (delete k (sessions e))).
Proof.
  intros He. apply wf_set_sessions; [done|..].
  { apply map_Forall_delete, He. }
  pose proof (wf_cap _ He). pose proof (size_delete_le (sessions e) k).
  cap_unfold. lia.
Qed.

Lemma wf_delete_rx_conn e k :
  wf_engine e → wf_engine (set_rx_conn e (delete k (rx_conn e))).
Proof.
  intros He. apply wf_set_rx_conn; [done|..].
  { apply map_Forall_delete, He. }
  pose proof (wf_cap _ He). pose proof (size_delete_le (rx_conn e) k).
  cap_unfold. lia.
Qed.

Lemma wf_delete_etp_rx e k :
  wf_engine e → wf_engine (set_etp_rx e (delete k (etp_rx e))).
Proof.
  intros He. apply wf_set_etp_rx; [done|..].
  { apply map_Forall_delete, He. }
  pose proof (wf_cap _ He). pose proof (size_delete_le (etp_rx e) k).
  cap_unfold. lia.
Qed.

Lemma wf_delete_tx_conn e k :
  wf_engine e → wf_engine (set_tx_conn e (delete k (tx_conn e))).
Proof. intros He. apply wf_set_tx_conn; [done|]. apply map_Forall_delete, He. Qed.

Lemma wf_delete_etp_tx e k :
  wf_engine e → wf_engine (set_etp_tx e (delete k (etp_tx e))).
Proof. intros He. apply wf_set_etp_tx; [done|]. apply map_Forall_delete, He. Qed.

#[export] Hint Resolve wf_push_out wf_set_pending_out wf_delete_session
  wf_delete_rx_conn wf_delete_etp_rx wf_delete_tx_conn wf_delete_etp_tx : taktora.

Lemma good_refl e : wf_engine e → good e (e, []).
Proof. intros. split_and!; [done|by repeat split|constructor]. Qed.

(** A step that produced no [Completed] event. *)
Lemma good_quiet e e' evs :
  wf_engine e' → same_config e e' →
  Forall (λ ev, match ev with Completed _ _ _ => False | _ => True end) evs →
  good e (e', evs).
Proof.
  intros ?? Hev. split_and!; [done..|]. simpl. eapply Forall_impl; [exact Hev|].
  intros [] ?; done.
Qed.

(** Guard of the cap, read back. *)
Lemma room_guard {V} (e : TpEngine) (m : gmap Key V) (k : Key) :
  negb (bool_decide (is_Some (m !! k))) && (max_sessions e <=? total_inbound e) = false →
  room e m k.
Proof.
  rewrite andb_false_iff, negb_false_iff, bool_decide_eq_true, Z.leb_gt.
  unfold room. done.
Qed.

Ltac quiet := apply good_quiet; simpl;
  [eauto 6 with taktora | by repeat split | repeat constructor].

(** ** Packet construction *)

(** A packet is its sequence number, the payload slice and [0xFF] padding. *)
Lemma dt_data_eq payload seq start end_ :
  0 ≤ start ≤ end_ → end_ ≤ len payload → end_ - start ≤ 7 →
  dt_data payload seq start end_ =
    Ok (seq :: take (Z.to_nat (end_ - start)) (drop (Z.to_nat start) payload)
            ++ replicate (Z.to_nat (7 - (end_ - start))) 0xFF).
Proof.
  intros Hs He Hn. unfold dt_data, sub_chk. rewrite decide_True by lia.
  unfold mbind, res_bind. rewrite slice_Ok by lia.
  set (c := take _ _).
  assert (len c = end_ - start) as Hc by (subst c; rewrite len_take, len_drop; lia).
  rewrite decide_True by done.
  rewrite copy_at_Ok; [|lia|].
  2: { rewrite Hc. unfold len. simpl. lia. }
  f_equal. change (drop (Z.to_nat 1 + length c) (seq :: replicate 7 255))
    with (drop (length c) (replicate 7 255)).
  rewrite drop_replicate. change (take (Z.to_nat 1) (seq :: replicate 7 255)) with [seq].
  simpl. do 3 f_equal. unfold len in Hc. lia.
Qed.

Lemma build_dt_burst_returns s k start_seq count :
  wf_tx k s → wp (build_dt_burst s start_seq count) (λ _, True).
Proof.
  intros (_ & Hsz & Hnp). unfold build_dt_burst. generalize (seqZ 0 count).
  pose proof (packets_size (len (tc_payload s))) as Hps. rewrite <-Hnp in Hps.
  unfold TP_MIN_PAYLOAD, TP_DT_DATA_LEN in *.
  intros ks. induction ks as [|i ks IH]; [done|]. simpl.
  destruct (_ || _) eqn:E; [done|].
  apply orb_false_iff in E as [E1%Z.ltb_ge E2].
  rewrite Z.gtb_ltb in E2. apply Z.ltb_ge in E2. unfold TP_DT_DATA_LEN in *.
  set (q := wrap 8 (start_seq + i)) in *.
  rewrite dt_data_eq by lia. wp_step. wp_step. wp_step.
  eapply wp_mono; [exact IH|]. done.
Qed.

(** ** The handlers *)

Section handlers.
Context {HI : HashIter}.

Lemma on_bam_cm_good e sa data now :
  wf_engine e → is_bytes data → 8 ≤ len data →
  wp (on_bam_cm e sa data now) (good e).
Proof.
  intros He Hd Hl. unfold on_bam_cm. do 6 wp_step. wp_step.
  apply transported_pgn_spec; [done..|]. intros b5 b6 b7 _ _ _.
  repeat wp_step; try by apply good_refl.
  - quiet.
  - apply negb_false_iff, in_range_spec in E0. apply negb_false_iff, Z.eqb_eq in E1.
    pose proof (packets_255 _ E0).
    apply good_quiet; [|by repeat split|constructor].
    apply wf_insert_session; [done| |by apply room_guard].
    split_and!; simpl; try done; unfold len; simpl; lia.
Qed.

Lemma on_bam_dt_good e sa data now :
  wf_engine e → 1 ≤ len data → wp (on_bam_dt e sa data now) (good e).
Proof.
  intros He Hl. unfold on_bam_dt. do 2 wp_step. wp_step; [|by apply good_refl].
  apply find_sa_Some in E as [_ [s Hs]]. wp_step.
  eapply wp_expect; [exact Hs|].
  pose proof (wf_sessions _ He _ _ Hs) as (Hk & Hsz & Hnp & Hseq & Hbuf).
  pose proof (packets_255 _ Hsz) as Hp. rewrite <-Hnp in Hp.
  wp_step; [by apply good_refl|]. apply negb_false_iff, Z.eqb_eq in E. subst b.
  wp_step. unfold sat_sub, TP_DT_DATA_LEN in *.
  apply wp_slice; [lia..|]. intros c _ Hc.
  wp_step; apply Z.leb_le in E || apply Z.leb_gt in E; simpl in E.
  - wp_step. eapply wp_expect; [apply lookup_insert_eq|]. wp_step.
    split_and!.
    + simpl. rewrite set_sessions_set, delete_insert_eq. by apply wf_delete_session.
    + by repeat split.
    + repeat constructor. simpl. rewrite len_app. unfold TP_MAX_PAYLOAD in *. lia.
  - wp_step. rewrite wrap_small by lia. apply good_quiet; [|by repeat split|constructor].
    apply wf_insert_session; [done| |left; eauto].
    split_and!; simpl; try done; try lia. rewrite len_app. unfold TP_DT_DATA_LEN. lia.
Qed.

Lemma parse_conn_rts_spec d data (Q : option ConnRtsParams → Prop) :
  is_bytes data → 8 ≤ len data → Q None →
  (∀ p, specific_dest d = Some (p_our_sa p) → p_peer_sa p = source_addr d →
        TP_MIN_PAYLOAD ≤ p_total_size p ≤ TP_MAX_PAYLOAD →
        p_total_packets p = div_ceil (p_total_size p) TP_DT_DATA_LEN →
        is_u 8 (p_sender_max_per_cts p) → Q (Some p)) →
  wp (parse_conn_rts d data) Q.
Proof.
  intros Hd Hl HN HQ. unfold parse_conn_rts. wp_step; [|done].
  do 6 wp_step. wp_step. apply transported_pgn_spec; [done..|]. intros b5 b6 b7 _ _ _.
  wp_step; [|done]. do 2 wp_step. wp_step.
  destruct (in_range _ _ _ && _) eqn:E2; [|done].
  apply andb_true_iff in E2 as [Hr Hp]. apply in_range_spec in Hr.
  apply Z.eqb_eq in Hp. apply HQ; simpl; eauto using is_bytes_lookup.
Qed.

Lemma on_rts_good e d data now :
  wf_engine e → is_bytes data → 8 ≤ len data → wp (on_rts e d data now) (good e).
Proof.
  intros He Hd Hl. unfold on_rts. wp_step. apply parse_conn_rts_spec; [done..| |].
  { wp_step. by apply good_refl. }
  intros p Hour Hpeer Hsz Hnp Hmax. pose proof (packets_255 _ Hsz) as Hp.
  rewrite <-Hnp in Hp. pose proof (wf_cts _ He).
  wp_step; wp_step; [quiet|].
  destruct (grant_window_bounds (p_total_packets p) (cts_window e)
              (p_sender_max_per_cts p)) as (Hg1 & Hg2 & _); [lia..|].
  apply good_quiet; [|by repeat split|constructor].
  apply wf_push_out, wf_insert_rx_conn; [done| |by apply room_guard].
  split_and!; simpl; try done; unfold len; simpl; lia.
Qed.

(** The packet step of connection mode preserves the session invariant. *)
Lemma conn_dt_step_good w k s seq data now :
  wf_rx w k s → 1 ≤ w → 1 ≤ len data →
  wp (conn_dt_step w s seq data now) (λ '(s', act),
    match act with
    | CComplete => k = (rc_peer_sa s', rc_transported_pgn s')
                   ∧ len (rc_buf s') ≤ TP_MAX_PAYLOAD
    | CNextWindow g n =>
        wf_rx w k s' ∧ rc_window_remaining s' = g ∧ rc_next_seq s' = n
    | _ => wf_rx w k s'
    end).
Proof.
  intros (Hk & Hsz & Hnp & Hseq & Hbuf & Hw & Hwr) Hw1 Hl.
  pose proof (packets_255 _ Hsz) as Hp. rewrite <-Hnp in Hp.
  unfold conn_dt_step. wp_step; [|by repeat split; try lia].
  apply Z.eqb_eq in E. subst seq.
  wp_step. unfold sat_sub, TP_DT_DATA_LEN in *. apply wp_slice; [lia..|]. intros c _ Hc.
  repeat match goal with |- wp (if ?b then _ else _) _ =>
    destruct b eqn:? end;
  repeat match goal with
  | H : (_ <=? _) = true |- _ => apply Z.leb_le in H
  | H : (_ <=? _) = false |- _ => apply Z.leb_gt in H
  | H : (_ =? _) = true |- _ => apply Z.eqb_eq in H
  | H : (_ =? _) = false |- _ => apply Z.eqb_neq in H end.
  - wp_step. split; [done|]. simpl. rewrite len_app. unfold TP_MAX_PAYLOAD in *. lia.
  - rewrite wrap_small by lia.
    wp_step. apply wp_sub_chk; [lia|]. wp_step. apply wp_sub_chk; [lia|]. wp_step.
    destruct (grant_window_bounds (rc_total_packets s - (rc_next_seq s + 1 - 1)) w
                (rc_sender_max_per_cts s)) as (Hg1 & Hg2 & _); [lia..|].
    split; [|done]. split_and!; simpl; try done; try lia.
    rewrite len_app. unfold TP_DT_DATA_LEN. lia.
  - wp_step. rewrite wrap_small by lia. split_and!; simpl; try done; try lia.
    rewrite len_app. unfold TP_DT_DATA_LEN. lia.
Qed.

Lemma on_conn_dt_good e sa data now :
  wf_engine e → 1 ≤ len data → wp (on_conn_dt e sa data now) (good e).
Proof.
  intros He Hl. unfold on_conn_dt. do 2 wp_step. wp_step; [|by apply good_refl].
  apply find_sa_Some in E as [_ [s Hs]]. wp_step. eapply wp_expect; [exact Hs|].
  pose proof (wf_rx_conn _ He _ _ Hs) as Hwf. pose proof (wf_cts _ He) as Hcts.
  wp_step. eapply wp_mono; [apply conn_dt_step_good; [done|lia..]|].
  intros [s' act] Hact. simpl in *.
  destruct act; simpl in Hact; repeat first
    [wp_step | eapply wp_expect; [apply lookup_insert_eq|]].
  - apply good_quiet; [|by repeat split|constructor].
    apply wf_insert_rx_conn; [done..|left; eauto].
  - apply good_quiet; [|by repeat split|constructor].
    apply wf_insert_rx_conn; [done..|left; eauto].
  - rewrite set_rx_conn_set, delete_insert_eq. split_and!; [|by repeat split|].
    + by apply wf_push_out, wf_delete_rx_conn.
    + repeat constructor. simpl. lia.
  - apply good_quiet; [|by repeat split|constructor].
    apply wf_push_out, wf_insert_rx_conn; [done|apply Hact|left; eauto].
Qed.

Lemma on_cts_good e d data now :
  wf_engine e → is_bytes data → 8 ≤ len data → wp (on_cts e d data now) (good e).
Proof.
  intros He Hd Hl. unfold on_cts. wp_step.
  apply transported_pgn_spec; [done..|]. intros b5 b6 b7 _ _ _.
  wp_step; [|by apply good_refl]. do 4 wp_step. wp_step; [|by apply good_refl].
  pose proof (wf_tx_conn _ He _ _ E0) as Hwf.
  assert (wf_engine (set_tx_conn e (<[(source_addr d, p):=touch_tx o now]> (tx_conn e))))
    as He'.
  { apply wf_set_tx_conn; [done|]. apply map_Forall_insert_2; [done|apply He]. }
  wp_step; [quiet|]. wp_step.
  eapply wp_mono; [by eapply build_dt_burst_returns|]. intros fs _. wp_step.
  apply good_quiet; [by apply wf_set_pending_out|by repeat split|constructor].
Qed.

Lemma on_end_of_msg_ack_good e d data :
  wf_engine e → is_bytes data → 8 ≤ len data → wp (on_end_of_msg_ack e d data) (good e).
Proof.
  intros He Hd Hl. unfold on_end_of_msg_ack. wp_step.
  apply transported_pgn_spec; [done..|]. intros b5 b6 b7 _ _ _.
  wp_step; [quiet|by apply good_refl].
Qed.

Lemma on_conn_abort_good e d data :
  wf_engine e → is_bytes data → 8 ≤ len data → wp (on_conn_abort e d data) (good e).
Proof.
  intros He Hd Hl. unfold on_conn_abort. wp_step.
  apply transported_pgn_spec; [done..|]. intros b5 b6 b7 _ _ _.
  wp_step; [|by apply good_refl]. do 2 wp_step. wp_step.
  apply good_quiet; [by apply wf_delete_tx_conn, wf_delete_rx_conn|by repeat split|].
  simpl. destruct (rx_conn e !! _), (tx_conn e !! _); repeat constructor.
Qed.

Lemma on_cm_good e d data now :
  wf_engine e → is_bytes data → wp (on_cm e d data now) (good e).
Proof.
  intros He Hd. unfold on_cm. wp_step; [by apply good_refl|].
  apply Z.ltb_ge in E. do 2 wp_step.
  repeat case_match; eauto using on_bam_cm_good, on_rts_good, on_cts_good,
    on_end_of_msg_ack_good, on_conn_abort_good. by apply good_refl.
Qed.

Lemma on_dt_good e d data now : wf_engine e → wp (on_dt e d data now) (good e).
Proof.
  intros He. unfold on_dt. wp_step; [by apply good_refl|]. apply Z.eqb_neq in E.
  pose proof (len_nonneg data).
  repeat case_match; first [apply on_bam_dt_good|apply on_conn_dt_good]; auto with lia.
Qed.

(** *** ETP *)

Lemma parse_etp_rts_spec d data (Q : option (Z * Z * Z * Z * Pgn) → Prop) :
  is_bytes data → 8 ≤ len data → Q None →
  (∀ our size p, specific_dest d = Some our →
     ETP_MIN_PAYLOAD ≤ size ≤ ETP_PROTOCOL_MAX →
     Q (Some (our, source_addr d, priority d, size, p))) →
  wp (parse_etp_rts d data) Q.
Proof.
  intros Hd Hl HN HQ. unfold parse_etp_rts. wp_step; [|done].
  do 8 wp_step. wp_step. apply transported_pgn_spec; [done..|]. intros b5 b6 b7 _ _ _.
  wp_step; [|done]. wp_step. destruct (in_range _ _ _) eqn:E2; [|done].
  apply in_range_spec in E2. by apply HQ.
Qed.

Lemma etp_packets size : ETP_MIN_PAYLOAD ≤ size ≤ ETP_PROTOCOL_MAX →
  256 ≤ div_ceil size TP_DT_DATA_LEN < 2 ^ 24.
Proof.
  unfold ETP_MIN_PAYLOAD, TP_MAX_PAYLOAD, ETP_PROTOCOL_MAX, TP_DT_DATA_LEN, div_ceil.
  intros. zdiv.
Qed.

Lemma on_etp_rts_good e d data now :
  wf_engine e → is_bytes data → 8 ≤ len data → wp (on_etp_rts e d data now) (good e).
Proof.
  intros He Hd Hl. unfold on_etp_rts. wp_step. apply parse_etp_rts_spec; [done..| |].
  { wp_step. by apply good_refl. }
  intros our size p _ Hsz. pose proof (etp_packets _ Hsz). pose proof (wf_cts _ He).
  wp_step; [wp_step; quiet|]. apply Z.ltb_ge in E. wp_step; wp_step; [quiet|].
  rewrite (wrap_small 32) by lia.
  apply good_quiet; [|by repeat split|constructor].
  apply wf_push_out, wf_insert_etp_rx; [done| |by apply room_guard].
  split_and!; simpl; try done; try lia.
  unfold len. rewrite length_replicate. unfold ETP_MIN_PAYLOAD, TP_MAX_PAYLOAD in *. lia.
Qed.

Lemma on_etp_dpo_good e d data now :
  wf_engine e → is_bytes data → 8 ≤ len data → wp (on_etp_dpo e d data now) (good e).
Proof.
  intros He Hd Hl. unfold on_etp_dpo. wp_step.
  apply transported_pgn_spec; [done..|]. intros b5 b6 b7 _ _ _.
  wp_step; [|by apply good_refl]. wp_step; [|by apply good_refl].
  pose proof (wf_etp_rxs _ He _ _ E0) as Hwf.
  wp_step. pose proof (u24_slice_spec data) as Hs. unfold mbind, res_bind in Hs.
  destruct (slice data 2 5) as [b|]; [|by apply (Hs (λ _, True))].
  simpl. wp_step. apply Hs; [done..|]. intros b2 b3 b4 ???.
  do 2 wp_step. wp_step. apply good_quiet; [|by repeat split|constructor].
  apply wf_insert_etp_rx; [done| |left; eauto].
  destruct Hwf as (?&?&?&?&?&?&?).
  pose proof (is_bytes_lookup _ _ _ Hd Hb) as Hu. unfold is_u in Hu.
  pose proof (le3_bound b2 b3 b4) as Hle3.
  split_and!; simpl; try done; try lia.
  - apply Hle3; eauto using is_bytes_lookup.
  - apply Hle3; eauto using is_bytes_lookup.
Qed.

Lemma etp_dt_step_good w max k s seq data now :
  wf_etp_rx max k s → 1 ≤ w < 256 → is_u 8 seq → 1 ≤ len data →
  wp (etp_dt_step w s seq data now) (λ '(s', act),
    match act with
    | EComplete => k = (re_peer_sa s', re_transported_pgn s')
                   ∧ len (re_buf s') = re_total_size s ∧ re_total_size s' = re_total_size s
    | _ => wf_etp_rx max k s'
    end).
Proof.
  intros Hwf Hw Hseq Hl. pose proof Hwf as (Hk & Hsz & Hnp & Hnext & Hdpo & Hbr & Hbuf).
  unfold is_u in Hseq.
  pose proof (etp_packets (re_total_size s)) as Hp.
  pose proof (packets_size (re_total_size s)) as Hps.
  rewrite <-Hnp in Hp, Hps. unfold ETP_MIN_PAYLOAD, TP_MAX_PAYLOAD in *.
  unfold etp_dt_step. wp_step; [exact Hwf|].
  apply orb_false_iff in E as [[E1 E2]%orb_false_iff E3].
  apply negb_false_iff, Z.eqb_eq in E1. apply Z.eqb_neq in E2. apply Z.ltb_ge in E3.
  rewrite E1 in *. wp_step. apply wp_sub_chk; [lia|].
  wp_step. unfold sat_sub, TP_DT_DATA_LEN in *. apply wp_slice; [lia..|]. intros c _ Hc.
  wp_step. apply wp_copy_at; [lia..|]. intros buf _ Hlen.
  repeat match goal with |- wp (if ?b then _ else _) _ =>
    destruct b eqn:? end;
  repeat match goal with
  | H : (_ <? _) = true |- _ => apply Z.ltb_lt in H
  | H : (_ <? _) = false |- _ => apply Z.ltb_ge in H end.
  - wp_step. split_and!; simpl; try done; unfold ETP_MIN_PAYLOAD, TP_MAX_PAYLOAD; lia.
  - wp_step. apply wp_sub_chk; [lia|]. wp_step. apply wp_sub_chk; [lia|]. wp_step.
    split_and!; simpl; try done; unfold ETP_MIN_PAYLOAD, TP_MAX_PAYLOAD; lia.
  - wp_step. split_and!; simpl; try done; unfold ETP_MIN_PAYLOAD, TP_MAX_PAYLOAD; lia.
Qed.

Lemma on_etp_dt_good e d data now :
  wf_engine e → is_bytes data → wp (on_etp_dt e d data now) (good e).
Proof.
  intros He Hd. unfold on_etp_dt. wp_step; [by apply good_refl|]. apply Z.eqb_neq in E.
  pose proof (len_nonneg data). do 2 wp_step. wp_step; [|by apply good_refl].
  apply find_sa_Some in E0 as [_ [s Hs]]. wp_step. eapply wp_expect; [exact Hs|].
  pose proof (wf_etp_rxs _ He _ _ Hs) as Hwf. pose proof (wf_cts _ He) as Hcts.
  wp_step. eapply wp_mono.
  { apply etp_dt_step_good; [done|lia|by eauto using is_bytes_lookup|lia]. }
  intros [s' act] Hact. simpl in *.
  destruct act; simpl in Hact; repeat first
    [wp_step | eapply wp_expect; [apply lookup_insert_eq|]].
  3: { rewrite set_etp_rx_set, delete_insert_eq. split_and!; [|by repeat split|].
       - by apply wf_push_out, wf_delete_etp_rx.
       - destruct Hwf as (_ & Hsz & _). repeat constructor. simpl. lia. }
  all: apply good_quiet; [|by repeat split|constructor];
    try apply wf_push_out; apply wf_insert_etp_rx; [done..|left; eauto].
Qed.

Lemma on_etp_eoma_good e d data :
  wf_engine e → is_bytes data → 8 ≤ len data → wp (on_etp_eoma e d data) (good e).
Proof.
  intros He Hd Hl. unfold on_etp_eoma. wp_step.
  apply transported_pgn_spec; [done..|]. intros b5 b6 b7 _ _ _.
  wp_step; [quiet|by apply good_refl].
Qed.

Lemma on_etp_abort_good e d data :
  wf_engine e → is_bytes data → 8 ≤ len data → wp (on_etp_abort e d data) (good e).
Proof.
  intros He Hd Hl. unfold on_etp_abort. wp_step.
  apply transported_pgn_spec; [done..|]. intros b5 b6 b7 _ _ _.
  wp_step; [|by apply good_refl]. do 2 wp_step. wp_step.
  apply good_quiet; [by apply wf_delete_etp_tx, wf_delete_etp_rx|by repeat split|].
  simpl. destruct (etp_rx e !! _), (etp_tx e !! _); repeat constructor.
Qed.

(** *** ETP.CTS: the one handler that can panic *)

(** The burst is well defined exactly while its first packet starts inside
    the message (or at its end). *)
Lemma build_etp_burst_returns max k s next_pkt num :
  wf_etp_tx max k s → 1 ≤ next_pkt < 2 ^ 24 → 1 ≤ num < 256 →
  7 * (next_pkt - 1) ≤ len (te_payload s) →
  wp (build_etp_burst s next_pkt num) (λ _, True).
Proof.
  intros (_ & Hsz & Hnp) Hnext Hnum Hin.
  pose proof (packets_size (len (te_payload s))) as Hps.
  assert (te_total_packets s ≤ div_ceil (len (te_payload s)) TP_DT_DATA_LEN) as Htot.
  { rewrite Hnp. unfold wrap. apply Z.mod_le; [|lia].
    unfold ETP_MIN_PAYLOAD, TP_MAX_PAYLOAD in *. lia. }
  assert (0 ≤ te_total_packets s) as Htot0.
  { rewrite Hnp. apply Z.mod_pos_bound. lia. }
  unfold ETP_MIN_PAYLOAD, TP_MAX_PAYLOAD in *.
  unfold build_etp_burst. wp_step. apply wp_sub_chk; [lia|].
  set (eff := sat_add 32 _ 1). wp_step.
  apply (wp_mapM _ (λ _ _, True)); [|by intros; wp_step].
  apply Forall_forall. intros i Hi. apply elem_of_seqZ in Hi.
  unfold etp_dt_packet. wp_step. subst eff. unfold sat_add, sat_sub in Hi.
  unfold TP_DT_DATA_LEN in *. rewrite dt_data_eq by lia. done.
Qed.

Lemma build_etp_burst_panics max k s next_pkt num :
  wf_etp_tx max k s → 1 ≤ next_pkt < 2 ^ 24 → 1 ≤ num < 256 →
  len (te_payload s) < 7 * (next_pkt - 1) →
  build_etp_burst s next_pkt num = Panic.
Proof.
  intros (_ & Hsz & Hnp) Hnext Hnum Hout.
  pose proof (packets_size (len (te_payload s))) as Hps.
  assert (te_total_packets s ≤ div_ceil (len (te_payload s)) TP_DT_DATA_LEN) as Htot.
  { rewrite Hnp. unfold wrap. apply Z.mod_le; [|lia].
    unfold ETP_MIN_PAYLOAD, TP_MAX_PAYLOAD in *. lia. }
  assert (0 ≤ te_total_packets s) as Htot0.
  { rewrite Hnp. apply Z.mod_pos_bound. lia. }
  unfold ETP_MIN_PAYLOAD, TP_MAX_PAYLOAD in *.
  unfold build_etp_burst, sub_chk at 1. rewrite decide_True by lia.
  replace (sat_add 32 _ 1) with 1 by (unfold sat_add, sat_sub; lia).
  change (seqZ 0 1) with [0]. unfold etp_dt_packet, dt_data, sub_chk, TP_DT_DATA_LEN.
  unfold mapM. rewrite (decide_False (P := _ ≤ Z.min _ _)) by lia. done.
Qed.

(** An inbound ETP.CTS that answers one of our sessions and asks for a packet
    that starts beyond the end of the message. *)
Definition etp_cts_overrun (e : TpEngine) (d : DecodedId) (data : list Z) : Prop :=
  value (pgn d) = ETP_CM_PGN ∧ 8 ≤ len data ∧ data !! 0%nat = Some ETP_CTS_CONTROL
  ∧ ∃ num b2 b3 b4 b5 b6 b7 p s,
      data !! 1%nat = Some num ∧ num ≠ 0
      ∧ data !! 2%nat = Some b2 ∧ data !! 3%nat = Some b3 ∧ data !! 4%nat = Some b4
      ∧ data !! 5%nat = Some b5 ∧ data !! 6%nat = Some b6 ∧ data !! 7%nat = Some b7
      ∧ Pgn_new (from_le_bytes [b5; b6; b7]) = inl p
      ∧ etp_tx e !! (source_addr d, p) = Some s
      ∧ len (te_payload s) < 7 * (from_le_bytes [b2; b3; b4] - 1).

Lemma on_etp_cts_good e d data now :
  wf_engine e → is_bytes data → 8 ≤ len data →
  data !! 0%nat = Some ETP_CTS_CONTROL → value (pgn d) = ETP_CM_PGN →
  ¬ etp_cts_overrun e d data → wp (on_etp_cts e d data now) (good e).
Proof.
  intros He Hd Hl H0 Hpgn Hno. unfold on_etp_cts. wp_step.
  apply transported_pgn_spec; [done..|]. intros b5 b6 b7 H5 H6 H7.
  wp_step; [|by apply good_refl]. do 2 wp_step.
  wp_step. pose proof (u24_slice_spec data) as Hs. unfold mbind, res_bind in Hs.
  destruct (slice data 2 5) as [b'|]; [|by apply (Hs (λ _, True))].
  simpl. wp_step. apply Hs; [done..|]. intros b2 b3 b4 H2 H3 H4.
  wp_step; [|by apply good_refl]. pose proof (wf_etp_txs _ He _ _ E0) as Hwf.
  assert (wf_engine (set_etp_tx e (<[(source_addr d, p):=touch_etp_tx o now]> (etp_tx e))))
    as He'.
  { apply wf_set_etp_tx; [done|]. apply map_Forall_insert_2; [done|apply He]. }
  wp_step; [quiet|]. apply orb_false_iff in E1 as [En%Z.eqb_neq Ep%Z.eqb_neq].
  pose proof (is_bytes_lookup _ _ _ Hd Hb) as Hub. unfold is_u in Hub.
  assert (0 ≤ from_le_bytes [b2; b3; b4] < 2 ^ 24) as Hu24.
  { apply le3_bound; eauto using is_bytes_lookup. }
  wp_step. eapply wp_mono.
  { eapply (build_etp_burst_returns (max_etp_bytes e) (source_addr d, p)); [done|lia..|].
    destruct (decide (7 * (from_le_bytes [b2; b3; b4] - 1) ≤ len (te_payload o)));
      [done|]. exfalso. apply Hno.
    split_and!; [done..|]. do 9 eexists. split_and!; [eassumption..|]. lia. }
  intros fs _. wp_step.
  apply good_quiet; [by apply wf_set_pending_out|by repeat split|constructor].
Qed.

Lemma on_etp_cts_panics e d data now :
  wf_engine e → is_bytes data → etp_cts_overrun e d data →
  on_etp_cts e d data now = Panic.
Proof.
  intros He Hd (_ & Hl & _ & num & b2 & b3 & b4 & b5 & b6 & b7 & p & s & H1 & Hnum
    & H2 & H3 & H4 & H5 & H6 & H7 & Hp & Hs & Hlt).
  assert (transported_pgn_from data = Ok (from_le_bytes [b5; b6; b7])) as Ht.
  { unfold transported_pgn_from, idx, expect. simpl.
    change (Z.to_nat 5) with 5%nat. change (Z.to_nat 6) with 6%nat.
    change (Z.to_nat 7) with 7%nat. rewrite H5, H6, H7. simpl.
    rewrite le3_lor by eauto using is_bytes_lookup. done. }
  assert ((b ← slice data 2 5; u24_from b) = Ok (from_le_bytes [b2; b3; b4])) as Hu.
  { pose proof (u24_slice_spec data (λ v, v = from_le_bytes [b2; b3; b4])) as Hsp.
    destruct (wp_exists _ _ (Hsp Hd Hl ltac:(naive_solver))) as (v & Hv & ->). done. }
  unfold on_etp_cts. rewrite Ht. unfold mbind, res_bind in *. rewrite Hp.
  unfold idx at 1. rewrite decide_True by lia. change (Z.to_nat 1) with 1%nat.
  rewrite H1. simpl. destruct (slice data 2 5); [|done]. rewrite Hu, Hs.
  pose proof (wf_etp_txs _ He _ _ Hs) as Hwf.
  assert (0 ≤ from_le_bytes [b2; b3; b4] < 2 ^ 24) as Hu24.
  { apply le3_bound; eauto using is_bytes_lookup. }
  pose proof (len_nonneg (te_payload s)).
  pose proof (is_bytes_lookup _ _ _ Hd H1) as Hub. unfold is_u in Hub.
  rewrite (proj2 (Z.eqb_neq num 0)), (proj2 (Z.eqb_neq (from_le_bytes _) 0)) by lia.
  simpl. rewrite (build_etp_burst_panics (max_etp_bytes e) (source_addr d, p));
    [done|done|lia..|done].
Qed.

Lemma on_etp_cm_good e d data now :
  wf_engine e → is_bytes data → value (pgn d) = ETP_CM_PGN →
  ¬ etp_cts_overrun e d data → wp (on_etp_cm e d data now) (good e).
Proof.
  intros He Hd Hpgn Hno. unfold on_etp_cm. wp_step; [by apply good_refl|].
  apply Z.ltb_ge in E. do 2 wp_step.
  repeat case_match; eauto using on_etp_rts_good, on_etp_dpo_good,
    on_etp_eoma_good, on_etp_abort_good; [|by apply good_refl].
  apply on_etp_cts_good; try done. apply Z.eqb_eq in H0. by subst.
Qed.

Lemma on_frame_good e d data now :
  wf_engine e → is_bytes data → ¬ etp_cts_overrun e d data →
  wp (on_frame e d data now) (good e).
Proof.
  intros He Hd Hno. unfold on_frame.
  repeat case_match; eauto using on_cm_good, on_dt_good, on_etp_dt_good; [|by apply good_refl].
  apply on_etp_cm_good; try done. by apply Z.eqb_eq.
Qed.

End handlers.

End TpInv.
