(* ===== verification/J1939TpPoll.v ===== *)
(** * Timeouts

    The timeout sweep [poll_timeouts] / [poll_etp_timeouts] of [tp.rs]: which
    sessions it removes, the events it reports, the abort frames it queues, and
    that it preserves the engine invariant without panicking. *)

From stdpp Require Import base gmap list.
From Stdlib Require Import ZArith Lia.
From S2P Require Import Prelude J1939Id J1939Tp J1939TpInv.

Module TpPoll.
Import Id Tp TpInv.

Section sweep.
Context {HI : HashIter} {V : Type}.
Implicit Types (m : gmap Key V) (l : list (Key * V)).

Definition expired (last : V → Z) (now t : Z) (s : V) : Prop :=
  t < saturating_duration_since now (last s).
#[export] Instance expired_dec last now t s : Decision (expired last now t s).
Proof. unfold expired. apply _. Defined.

(** The entries [expired_keys] selects, in iteration order. *)
Definition expired_entries (last : V → Z) m (now t : Z) : list (Key * V) :=
  List.filter (λ kv, t <? saturating_duration_since now (last kv.2)) (hm_iter m).

Lemma expired_entries_elem last m now t k s :
  (k, s) ∈ expired_entries last m now t ↔ m !! k = Some s ∧ expired last now t s.
Proof.
  unfold expired_entries, expired. rewrite list_elem_of_In, List.filter_In, <-list_elem_of_In.
  rewrite hm_iter_perm, elem_of_map_to_list. simpl. by rewrite Z.ltb_lt.
Qed.

Lemma expired_keys_NoDup last m now t : NoDup (expired_entries last m now t).*1.
Proof.
  unfold expired_entries. pose proof (NoDup_fst_map_to_list m) as Hnd.
  rewrite <-(hm_iter_perm m) in Hnd. revert Hnd.
  induction (hm_iter m) as [|[k s] l IH]; simpl; [done|].
  intros [Hk Hnd]%NoDup_cons. case_match; [|by apply IH].
  simpl. constructor; [|by apply IH].
  intros (kv & -> & Hin)%list_elem_of_fmap. apply Hk, list_elem_of_fmap.
  exists kv. split; [done|]. rewrite list_elem_of_In, List.filter_In in Hin.
  apply list_elem_of_In, Hin.
Qed.

Lemma expired_entries_perm last m now t :
  expired_entries last m now t
    ≡ₚ map_to_list (filter (λ kv, expired last now t kv.2) m).
Proof.
  apply NoDup_Permutation.
  - apply NoDup_fmap_1 with fst, expired_keys_NoDup.
  - apply NoDup_map_to_list.
  - intros [k s]. rewrite expired_entries_elem, elem_of_map_to_list, map_lookup_filter_Some.
    done.
Qed.

(** Removing the listed keys one by one. *)
Definition remove_all m l : gmap Key V := foldl (λ m kv, delete kv.1 m) m l.

Lemma remove_all_lookup m l k :
  remove_all m l !! k = if decide (k ∈ l.*1) then None else m !! k.
Proof.
  revert m. induction l as [|[k' s] l IH]; intros m; simpl; [done|].
  unfold remove_all in *. simpl. rewrite IH, lookup_delete.
  repeat case_decide; set_solver.
Qed.

Lemma remove_all_expired last m now t :
  remove_all m (expired_entries last m now t)
    = filter (λ kv, ¬ expired last now t kv.2) m.
Proof.
  apply map_eq. intros k. rewrite remove_all_lookup.
  destruct (m !! k) as [s|] eqn:Hk.
  - destruct (decide (expired last now t s)) as [Hx|Hx].
    + rewrite decide_True.
      2: { apply list_elem_of_fmap. exists (k, s). by rewrite expired_entries_elem. }
      symmetry. apply map_lookup_filter_None. right. naive_solver.
    + rewrite decide_False.
      2: { intros ([k' s'] & -> & [? ?]%expired_entries_elem)%list_elem_of_fmap.
           simpl in *. congruence. }
      symmetry. by apply map_lookup_filter_Some.
  - rewrite (proj2 (map_lookup_filter_None _ _ _)) by auto. by case_decide.
Qed.

(** The removal loop runs to completion on distinct keys of the table. *)
Lemma poll_loop_eq tbl drop ev l e evs :
  (∀ e k s, tbl (drop e k s) = delete k (tbl e)) →
  NoDup l.*1 → (∀ k s, (k, s) ∈ l → tbl e !! k = Some s) →
  poll_loop tbl drop ev l.*1 e evs =
    Ok (foldl (λ e kv, drop e kv.1 kv.2) e l, evs ++ ((λ kv, ev kv.2) <$> l)).
Proof.
  intros Htbl. revert e evs. induction l as [|[k s] l IH]; intros e evs Hnd Hin; simpl.
  { by rewrite app_nil_r. }
  apply NoDup_cons in Hnd as [Hk Hnd].
  rewrite (Hin k s) by set_solver. simpl. rewrite IH; [|done|].
  { by rewrite <-app_assoc. }
  intros k' s' Hin'. rewrite Htbl, lookup_delete_ne; [set_solver|].
  intros ->. apply Hk, list_elem_of_fmap. by exists (k', s').
Qed.
End sweep.

Lemma foldl_tbl {V} (tbl : TpEngine → gmap Key V) (drop : TpEngine → Key → V → TpEngine) e l :
  (∀ e k s, tbl (drop e k s) = delete k (tbl e)) →
  tbl (foldl (λ e kv, drop e kv.1 kv.2) e l) = remove_all (tbl e) l.
Proof.
  intros Ht. revert e. induction l as [|[k s] l IH]; intros e; simpl; [done|].
  rewrite IH, Ht. done.
Qed.

Lemma foldl_inv {V} (drop : TpEngine → Key → V → TpEngine) (P : TpEngine → Prop) e l :
  (∀ e k s, P e → P (drop e k s)) → P e → P (foldl (λ e kv, drop e kv.1 kv.2) e l).
Proof. intros Hd. revert e. induction l as [|[k s] l IH]; simpl; auto. Qed.

(** Any projection a removal leaves alone is unchanged by the loop. *)
Lemma foldl_keep {V A} (drop : TpEngine → Key → V → TpEngine) (f : TpEngine → A) e l :
  (∀ e k s, f (drop e k s) = f e) → f (foldl (λ e kv, drop e kv.1 kv.2) e l) = f e.
Proof.
  intros Hd. apply (foldl_inv drop (λ e', f e' = f e)); [|done].
  intros e' k s <-. apply Hd.
Qed.

Lemma foldl_out {V} (drop : TpEngine → Key → V → TpEngine) (fr : V → list TpOutFrame) e l :
  (∀ e k s, pending_out (drop e k s) = pending_out e ++ fr s) →
  pending_out (foldl (λ e kv, drop e kv.1 kv.2) e l) =
    pending_out e ++ (l ≫= λ kv, fr kv.2).
Proof.
  intros Hd. revert e. induction l as [|[k s] l IH]; intros e; simpl.
  { by rewrite app_nil_r. }
  rewrite IH, Hd, <-app_assoc. done.
Qed.

Section poll.
Context {HI : HashIter}.

(** The sessions a sweep at [now] times out, table by table. *)
Definition late {V} (last : V → Z) (t now : Z) (m : gmap Key V) : gmap Key V :=
  filter (λ kv, expired last now t kv.2) m.
Definition fresh {V} (last : V → Z) (t now : Z) (m : gmap Key V) : gmap Key V :=
  filter (λ kv, ¬ expired last now t kv.2) m.

Definition each {V A} (f : V → A) (m : gmap Key V) : list A :=
  (λ kv, f kv.2) <$> map_to_list m.

Definition timeout_events (e : TpEngine) (now : Z) : list TpEvent :=
  let tm := timers e in
  each abort_bam (late bs_last_activity (t1 tm) now (sessions e))
  ++ each abort_rx_conn (late rc_last_activity (t2 tm) now (rx_conn e))
  ++ each abort_tx_conn (late tc_last_activity (t3 tm) now (tx_conn e))
  ++ each abort_etp_rx (late re_last_activity (t2 tm) now (etp_rx e))
  ++ each abort_etp_tx (late te_last_activity (t3 tm) now (etp_tx e)).

Definition rx_abort s := conn_abort_frame (rc_our_sa s) (rc_peer_sa s) (rc_priority s)
  (rc_transported_pgn s) Timeout.
Definition tx_abort s := conn_abort_frame (tc_our_sa s) (tc_dest_sa s) (tc_priority s)
  (tc_transported_pgn s) Timeout.
Definition etp_rx_abort s := etp_abort_frame (re_our_sa s) (re_peer_sa s) (re_priority s)
  (re_transported_pgn s) Timeout.
Definition etp_tx_abort s := etp_abort_frame (te_our_sa s) (te_dest_sa s) (te_priority s)
  (te_transported_pgn s) Timeout.

(** BAM is connectionless: it contributes no abort frame. *)
Definition timeout_frames (e : TpEngine) (now : Z) : list TpOutFrame :=
  let tm := timers e in
  each rx_abort (late rc_last_activity (t2 tm) now (rx_conn e))
  ++ each tx_abort (late tc_last_activity (t3 tm) now (tx_conn e))
  ++ each etp_rx_abort (late re_last_activity (t2 tm) now (etp_rx e))
  ++ each etp_tx_abort (late te_last_activity (t3 tm) now (etp_tx e)).

(** What one sweep leaves behind. *)
Definition swept (e : TpEngine) (now : Z) (e' : TpEngine) : Prop :=
  let tm := timers e in
  sessions e' = fresh bs_last_activity (t1 tm) now (sessions e)
  ∧ rx_conn e' = fresh rc_last_activity (t2 tm) now (rx_conn e)
  ∧ tx_conn e' = fresh tc_last_activity (t3 tm) now (tx_conn e)
  ∧ etp_rx e' = fresh re_last_activity (t2 tm) now (etp_rx e)
  ∧ etp_tx e' = fresh te_last_activity (t3 tm) now (etp_tx e)
  ∧ same_config e e'.

Lemma each_perm {V A} (f : V → A) (last : V → Z) (t now : Z) (m : gmap Key V) :
  (λ kv, f kv.2) <$> expired_entries last m now t ≡ₚ each f (late last t now m).
Proof. unfold each. by rewrite expired_entries_perm. Qed.

Lemma bind_singleton {A B} (f : A → B) (l : list A) : (l ≫= λ x, [f x]) = f <$> l.
Proof. induction l as [|x l IH]; simpl; [done|]. by f_equal. Qed.

(** One table's loop, run from the engine [e1] the earlier loops produced. *)
Lemma poll_table {V} (tbl : TpEngine → gmap Key V) drop ev (last : V → Z) t now e1 evs m :
  (∀ e k s, tbl (drop e k s) = delete k (tbl e)) → tbl e1 = m →
  poll_loop tbl drop ev (expired_keys last (tbl e1) now t) e1 evs =
    Ok (foldl (λ e kv, drop e kv.1 kv.2) e1 (expired_entries last m now t),
        evs ++ ((λ kv, ev kv.2) <$> expired_entries last m now t)).
Proof.
  intros Htbl <-. unfold expired_keys. fold (expired_entries last (tbl e1) now t).
  apply poll_loop_eq; [done|apply expired_keys_NoDup|].
  by intros k s [? _]%expired_entries_elem.
Qed.

Definition stage1 e now := foldl (λ e kv, drop_bam e kv.1 kv.2) e
  (expired_entries bs_last_activity (sessions e) now (t1 (timers e))).
Definition stage2 e now := foldl (λ e kv, drop_rx_conn e kv.1 kv.2) (stage1 e now)
  (expired_entries rc_last_activity (rx_conn e) now (t2 (timers e))).
Definition stage3 e now := foldl (λ e kv, drop_tx_conn e kv.1 kv.2) (stage2 e now)
  (expired_entries tc_last_activity (tx_conn e) now (t3 (timers e))).
Definition stage4 e now := foldl (λ e kv, drop_etp_rx e kv.1 kv.2) (stage3 e now)
  (expired_entries re_last_activity (etp_rx e) now (t2 (timers e))).
Definition stage5 e now := foldl (λ e kv, drop_etp_tx e kv.1 kv.2) (stage4 e now)
  (expired_entries te_last_activity (etp_tx e) now (t3 (timers e))).

Ltac keep := unfold stage5, stage4, stage3, stage2, stage1;
  repeat match goal with
  | |- context [?f (foldl (λ e kv, ?d e kv.1 kv.2) ?e0 ?l)] =>
      rewrite (foldl_keep d f e0 l) by done
  end; try done.

Lemma poll_timeouts_eq e now :
  let tm := timers e in
  poll_timeouts e now = Ok (stage5 e now,
    ((λ kv, abort_bam kv.2) <$> expired_entries bs_last_activity (sessions e) now (t1 tm))
    ++ ((λ kv, abort_rx_conn kv.2) <$> expired_entries rc_last_activity (rx_conn e) now (t2 tm))
    ++ ((λ kv, abort_tx_conn kv.2) <$> expired_entries tc_last_activity (tx_conn e) now (t3 tm))
    ++ ((λ kv, abort_etp_rx kv.2) <$> expired_entries re_last_activity (etp_rx e) now (t2 tm))
    ++ ((λ kv, abort_etp_tx kv.2) <$> expired_entries te_last_activity (etp_tx e) now (t3 tm))).
Proof.
  intros tm. subst tm. unfold poll_timeouts, poll_bam.
  rewrite (poll_table _ _ _ _ _ _ _ _ (sessions e)) by done. fold (stage1 e now). simpl.
  assert (timers (stage1 e now) = timers e) as -> by keep.
  unfold poll_rx_conn. rewrite (poll_table _ _ _ _ _ _ _ _ (rx_conn e)) by (done || keep).
  fold (stage2 e now). simpl. assert (timers (stage2 e now) = timers e) as -> by keep.
  unfold poll_tx_conn. rewrite (poll_table _ _ _ _ _ _ _ _ (tx_conn e)) by (done || keep).
  fold (stage3 e now). simpl. unfold poll_etp_timeouts, poll_etp_rx.
  rewrite (poll_table _ _ _ _ _ _ _ _ (etp_rx e)) by (done || keep).
  fold (stage4 e now). simpl.
  unfold poll_etp_tx. rewrite (poll_table _ _ _ _ _ _ _ _ (etp_tx e)) by (done || keep).
  fold (stage5 e now). simpl. by rewrite <-!app_assoc.
Qed.

Lemma stage5_swept e now : swept e now (stage5 e now).
Proof.
  unfold swept, fresh, same_config. rewrite <-!remove_all_expired.
  split_and!; try by keep.
  - keep. by rewrite (foldl_tbl sessions drop_bam).
  - keep. rewrite (foldl_tbl rx_conn drop_rx_conn) by done. by keep.
  - keep. rewrite (foldl_tbl tx_conn drop_tx_conn) by done. by keep.
  - keep. rewrite (foldl_tbl etp_rx drop_etp_rx) by done. by keep.
  - unfold stage5. rewrite (foldl_tbl etp_tx drop_etp_tx) by done. by keep.
Qed.

Lemma stage5_out e now :
  pending_out (stage5 e now) = pending_out e
    ++ ((λ kv, rx_abort kv.2) <$> expired_entries rc_last_activity (rx_conn e) now (t2 (timers e)))
    ++ ((λ kv, tx_abort kv.2) <$> expired_entries tc_last_activity (tx_conn e) now (t3 (timers e)))
    ++ ((λ kv, etp_rx_abort kv.2) <$> expired_entries re_last_activity (etp_rx e) now (t2 (timers e)))
    ++ ((λ kv, etp_tx_abort kv.2) <$> expired_entries te_last_activity (etp_tx e) now (t3 (timers e))).
Proof.
  unfold stage5, stage4, stage3, stage2, stage1.
  rewrite (foldl_out drop_etp_tx (λ s, [etp_tx_abort s])) by done.
  rewrite (foldl_out drop_etp_rx (λ s, [etp_rx_abort s])) by done.
  rewrite (foldl_out drop_tx_conn (λ s, [tx_abort s])) by done.
  rewrite (foldl_out drop_rx_conn (λ s, [rx_abort s])) by done.
  rewrite (foldl_keep drop_bam pending_out) by done.
  by rewrite !bind_singleton, <-!app_assoc.
Qed.

Lemma stage5_wf e now : wf_engine e → wf_engine (stage5 e now).
Proof.
  intros He. unfold stage5, stage4, stage3, stage2, stage1.
  repeat (apply (foldl_inv _ wf_engine); [intros; unfold drop_bam, drop_rx_conn,
    drop_tx_conn, drop_etp_rx, drop_etp_tx; by auto with taktora|]). done.
Qed.

(** The timeout sweep always returns.  It removes exactly the sessions
    whose last accepted frame is more than the table's timer ago (T1 for BAM,
    T2 for the receiving and T3 for the sending connection and ETP tables),
    keeps every other session and the configuration, reports one
    [Aborted { reason: Timeout }] event per removed session, and queues one
    Conn_Abort / ETP.Abort frame per removed connection or ETP session (none
    for BAM), whatever order the hash tables iterate in. *)
Theorem poll_timeouts_spec e now :
  ∃ e' evs fs,
    poll_timeouts e now = Ok (e', evs)
    ∧ swept e now e'
    ∧ evs ≡ₚ timeout_events e now
    ∧ pending_out e' = pending_out e ++ fs ∧ fs ≡ₚ timeout_frames e now.
Proof.
  do 3 eexists. split_and!; [apply poll_timeouts_eq|apply stage5_swept| |apply stage5_out|].
  - unfold timeout_events. by rewrite !each_perm.
  - unfold timeout_frames. by rewrite !each_perm.
Qed.

(** The sweep preserves the engine invariant. *)
Lemma poll_timeouts_wf e now :
  wf_engine e → wp (poll_timeouts e now) (λ r, wf_engine r.1).
Proof. intros He. rewrite poll_timeouts_eq. simpl. by apply stage5_wf. Qed.

End poll.

End TpPoll.
