(* ===== verification/J1939TpSafe.v ===== *)
(** * Safety of the transport engine

    The engine as a transition system: an engine is built by [new] and the
    builder methods, then stepped by the dispatcher with frames, timer sweeps,
    outbound transfers and drains.  The invariant of [TpInv] holds in every
    reachable state, and the only input that makes a reachable engine panic is
    an ETP.CTS past the end of one of its own transfers. *)

From stdpp Require Import base gmap list.
From Stdlib Require Import ZArith Lia.
From S2P Require Import Prelude J1939Id J1939Tp J1939TpInv J1939TpPoll.

Module TpSafe.
Import Id Tp TpInv TpPoll.

Section safe.
Context {HI : HashIter}.

(** What the dispatcher can do to an engine. *)
Inductive input :=
| Frame (d : DecodedId) (data : list Z) (now : Z)
| Poll (now : Z)
| StartConnection (p : Pgn) (priority our_sa dest_addr : Z) (payload : list Z) (now : Z)
| StartEtp (p : Pgn) (priority our_sa dest_addr : Z) (payload : list Z) (now : Z)
| TakeOutbound.

Definition step (e : TpEngine) (i : input) : res TpEngine :=
  match i with
  | Frame d data now => fst <$> on_frame e d data now
  | Poll now => fst <$> poll_timeouts e now
  | StartConnection p prio our dest payload now =>
      Ok (start_outbound_connection e p prio our dest payload now).1
  | StartEtp p prio our dest payload now =>
      Ok (start_outbound_etp e p prio our dest payload now).1
  | TakeOutbound => Ok (take_outbound e).1
  end.

Definition bytes_ok (i : input) : Prop :=
  match i with Frame _ data _ => is_bytes data | _ => True end.
#[export] Instance bytes_ok_dec i : Decision (bytes_ok i).
Proof. destruct i; apply _. Defined.

(** Engines as [dispatcher_loop] and the tests build them. *)
Definition init (e : TpEngine) : Prop :=
  ∃ timers max_sessions window max_etp pacing,
    0 ≤ window < 256 ∧
    e = with_outbound_pacing (with_max_etp_bytes
          (with_cts_window (new timers max_sessions) window) max_etp) pacing.

Inductive reachable : TpEngine → Prop :=
| reach_init e : init e → reachable e
| reach_step e i e' :
    reachable e → bytes_ok i → step e i = Ok e' → reachable e'.

(** ** Preservation *)

Lemma init_wf e : init e → wf_engine e.
Proof.
  intros (tm & ms & w & mx & pc & Hw & ->).
  constructor; simpl; [apply map_Forall_empty..| | | |].
  - unfold total_inbound, active_inbound_sessions, active_inbound_connections,
      active_inbound_etp_sessions. cbn. rewrite !map_size_empty. simpl. lia.
  - lia.
  - destruct (Z.eqb_spec w 0); lia.
  - destruct (Z.ltb_spec mx ETP_MIN_PAYLOAD); lia.
Qed.

Lemma start_connection_wf e p prio our dest payload now :
  wf_engine e → wf_engine (start_outbound_connection e p prio our dest payload now).1.
Proof.
  intros He. unfold start_outbound_connection. destruct (in_range _ _ _) eqn:E; [|done].
  apply in_range_spec in E. pose proof (packets_255 _ E). simpl.
  apply wf_set_tx_conn; [done|]. apply map_Forall_insert_2; [|apply He].
  split_and!; simpl; [done|lia..|]. rewrite wrap_small by lia. done.
Qed.

Lemma start_etp_wf e p prio our dest payload now :
  wf_engine e → wf_engine (start_outbound_etp e p prio our dest payload now).1.
Proof.
  intros He. unfold start_outbound_etp. destruct (in_range _ _ _) eqn:E; [|done].
  apply in_range_spec in E. simpl. apply wf_set_etp_tx; [done|].
  apply map_Forall_insert_2; [|apply He]. split_and!; simpl; try done; lia.
Qed.

(** The overrunning ETP.CTS panics. *)
Lemma on_frame_overrun e d data now :
  wf_engine e → is_bytes data → etp_cts_overrun e d data →
  on_frame e d data now = Panic.
Proof.
  intros He Hd Hover. pose proof Hover as (Hpgn & Hl & H0 & _). unfold on_frame.
  rewrite Hpgn. simpl. unfold on_etp_cm. rewrite (proj2 (Z.ltb_ge _ _) Hl).
  unfold idx. rewrite decide_True by lia.
  change (Z.to_nat 0) with 0%nat. rewrite H0. simpl. by rewrite on_etp_cts_panics.
Qed.

Lemma on_frame_wf e d data now r :
  wf_engine e → is_bytes data → on_frame e d data now = Ok r → wf_engine r.1.
Proof.
  intros He Hd Hr. eapply (wp_elim _ (good e)) in Hr as Hg; [apply Hg|].
  apply on_frame_good; [done..|]. intros Hover.
  by rewrite on_frame_overrun in Hr.
Qed.

Lemma step_wf e i e' : wf_engine e → bytes_ok i → step e i = Ok e' → wf_engine e'.
Proof.
  intros He Hb Hs. destruct i; simpl in *.
  - destruct (on_frame e d data now) as [r|] eqn:E; [|done]. injection Hs as <-.
    by eapply on_frame_wf in E.
  - pose proof (poll_timeouts_eq e now) as Heq. simpl in Heq. rewrite Heq in Hs.
    injection Hs as <-. by apply stage5_wf.
  - injection Hs as <-. by apply start_connection_wf.
  - injection Hs as <-. by apply start_etp_wf.
  - injection Hs as <-. by apply wf_set_pending_out.
Qed.

Lemma reachable_wf e : reachable e → wf_engine e.
Proof. induction 1; eauto using init_wf, step_wf. Qed.

(** ** Theorems *)

(** The packets before the last do not fill a message. *)
Lemma packets_before_last size k : 0 ≤ size → k ≤ div_ceil size TP_DT_DATA_LEN →
  TP_DT_DATA_LEN * (k - 1) < size.
Proof.
  intros Hs Hk. pose proof (packets_size size Hs). unfold TP_DT_DATA_LEN in *. lia.
Qed.

(** C13. In every reachable state the inbound sessions of all three transports
    together stay within [max_sessions] (REQ_0896), and every session is within its
    bounds.  A BAM or RTS/CTS reassembly is of 9 to 1785 bytes in the packets that
    size takes, expects one of these packets next, and its buffer holds at most the
    packets before it, so less than the message; the window of an RTS/CTS session is
    between one packet and [cts_window].  An ETP reassembly buffer is exactly the
    announced size, above 1785 bytes and never larger than [max_etp_bytes] nor the
    protocol maximum (REQ_0894 / REQ_0903), and the next packet is one of its
    packets.  An outbound session holds a payload its transport carries, with its
    number of packets.  Every session is stored under its peer and PGN. *)
Theorem reachable_bounded e :
  reachable e →
  total_inbound e ≤ max_sessions e
  ∧ (∀ k s, sessions e !! k = Some s →
      k = (bs_source_addr s, bs_transported_pgn s)
      ∧ TP_MIN_PAYLOAD ≤ bs_total_size s ≤ TP_MAX_PAYLOAD
      ∧ bs_num_packets s = div_ceil (bs_total_size s) TP_DT_DATA_LEN
      ∧ 1 ≤ bs_next_seq s ≤ bs_num_packets s
      ∧ len (bs_buf s) ≤ TP_DT_DATA_LEN * (bs_next_seq s - 1) < bs_total_size s)
  ∧ (∀ k s, rx_conn e !! k = Some s →
      k = (rc_peer_sa s, rc_transported_pgn s)
      ∧ TP_MIN_PAYLOAD ≤ rc_total_size s ≤ TP_MAX_PAYLOAD
      ∧ rc_total_packets s = div_ceil (rc_total_size s) TP_DT_DATA_LEN
      ∧ 1 ≤ rc_next_seq s ≤ rc_total_packets s
      ∧ len (rc_buf s) ≤ TP_DT_DATA_LEN * (rc_next_seq s - 1) < rc_total_size s
      ∧ 1 ≤ rc_window_remaining s ≤ cts_window e)
  ∧ (∀ k s, etp_rx e !! k = Some s →
      k = (re_peer_sa s, re_transported_pgn s)
      ∧ len (re_buf s) = re_total_size s
      ∧ ETP_MIN_PAYLOAD ≤ re_total_size s ≤ Z.min (max_etp_bytes e) ETP_PROTOCOL_MAX
      ∧ re_total_packets s = div_ceil (re_total_size s) TP_DT_DATA_LEN
      ∧ 1 ≤ re_next_packet s ≤ re_total_packets s)
  ∧ (∀ k s, tx_conn e !! k = Some s →
      k = (tc_dest_sa s, tc_transported_pgn s)
      ∧ TP_MIN_PAYLOAD ≤ len (tc_payload s) ≤ TP_MAX_PAYLOAD
      ∧ tc_total_packets s = div_ceil (len (tc_payload s)) TP_DT_DATA_LEN)
  ∧ (∀ k s, etp_tx e !! k = Some s →
      k = (te_dest_sa s, te_transported_pgn s)
      ∧ ETP_MIN_PAYLOAD ≤ len (te_payload s) ≤ max_etp_bytes e
      ∧ te_total_packets s = wrap 32 (div_ceil (len (te_payload s)) TP_DT_DATA_LEN)).
Proof.
  intros He%reachable_wf. split_and!; [apply He|..]; intros k s Hk.
  - destruct (wf_sessions _ He _ _ Hk) as (? & [? ?] & Hn & [? ?] & ?).
    split_and!; try done. apply packets_before_last; [unfold TP_MIN_PAYLOAD in *; lia|congruence].
  - destruct (wf_rx_conn _ He _ _ Hk) as (? & [? ?] & Hn & [? ?] & ? & [? ?] & ?).
    split_and!; try done. apply packets_before_last; [unfold TP_MIN_PAYLOAD in *; lia|congruence].
  - destruct (wf_etp_rxs _ He _ _ Hk) as (? & [? ?] & ? & [? ?] & ? & ? & ?). by split_and!.
  - exact (wf_tx_conn _ He _ _ Hk).
  - exact (wf_etp_txs _ He _ _ Hk).
Qed.

Ltac no := right; intros (? & ? & ? & ? & ? & ? & ? & ? & ? & ? & ? & ? & ? & ? & ?
  & ? & ? & ? & ? & ? & ? & ? & ?); destruct_and?; simplify_eq;
  try match goal with H : ?x = inl _, K : ?x = inl _ |- _ => rewrite H in K end;
  simplify_eq; first [done|congruence|tauto].

#[local] Instance overrun_dec e d data : Decision (etp_cts_overrun e d data).
Proof.
  unfold Decision, etp_cts_overrun.
  destruct (decide (value (pgn d) = ETP_CM_PGN)); [|no].
  destruct (decide (8 ≤ len data)); [|no].
  destruct (decide (data !! 0%nat = Some ETP_CTS_CONTROL)); [|no].
  destruct (data !! 1%nat) as [num|]; [|no].
  destruct (data !! 2%nat) as [b2|]; [|no].
  destruct (data !! 3%nat) as [b3|]; [|no].
  destruct (data !! 4%nat) as [b4|]; [|no].
  destruct (data !! 5%nat) as [b5|]; [|no].
  destruct (data !! 6%nat) as [b6|]; [|no].
  destruct (data !! 7%nat) as [b7|]; [|no].
  destruct (Pgn_new (from_le_bytes [b5; b6; b7])) as [p|] eqn:Hp; [|no].
  destruct (etp_tx e !! (source_addr d, p)) as [s|] eqn:Hs; [|no].
  destruct (decide (num ≠ 0 ∧ len (te_payload s) < 7 * (from_le_bytes [b2; b3; b4] - 1)))
    as [[]|]; [left|no].
  split_and!; [done..|]. do 9 eexists. split_and!; try done.
Defined.

(** C14. A frame makes a reachable engine panic exactly when it is an ETP.CTS
    for one of its outbound ETP sessions whose next-packet number starts past
    the end of the payload; every other frame, malformed or not, is handled
    without panicking. *)
Theorem on_frame_panic_iff e d data now :
  reachable e → is_bytes data →
  (on_frame e d data now = Panic ↔ etp_cts_overrun e d data).
Proof.
  intros He%reachable_wf Hd. split; intros Hp.
  - destruct (decide (etp_cts_overrun e d data)) as [|Hno]; [done|].
    pose proof (on_frame_good e d data now He Hd Hno) as Hg. by rewrite Hp in Hg.
  - by apply on_frame_overrun.
Qed.

End safe.

(** ** Witnesses *)

(** An engine that opened an ETP transfer of 1790 bytes to node [0x42]. *)
Definition payload_1790 : list Z := replicate 1790 0x5A.
Definition fresh_engine : TpEngine := new TpTimers_default 8.
Definition etp_sender : TpEngine :=
  (start_outbound_etp fresh_engine (MkPgn 0xEF00) 6 0x10 0x42 payload_1790 0).1.

(** ETP.CTS from [0x42]: one packet, next packet 300 (the message has 256). *)
Definition overrun_cts : list Z := [ETP_CTS_CONTROL; 1; 44; 1; 0; 0x00; 0xEF; 0x00].
Definition overrun_id : DecodedId :=
  {| priority := 6; d_pdu_format := 0xC8; pgn := MkPgn ETP_CM_PGN;
     source_addr := 0x42; dest_addr := Some 0x10 |}.

Lemma fresh_engine_init : init fresh_engine.
Proof.
  exists TpTimers_default, 8, 16, DEFAULT_MAX_ETP_BYTES, 0. split; [lia|]. reflexivity.
Qed.

Lemma etp_sender_reachable : reachable etp_sender.
Proof.
  eapply (reach_step fresh_engine (StartEtp (MkPgn 0xEF00) 6 0x10 0x42 payload_1790 0)).
  - apply reach_init, fresh_engine_init.
  - done.
  - reflexivity.
Qed.

(** An engine in the middle of everything: the ETP transfer above and an RTS/CTS
    transfer of 20 bytes are open towards [0x42]; [0x31] has sent a broadcast of 20
    bytes up to its first packet, [0x32] an RTS of 20 bytes and its first two packets,
    and [0x33] an ETP.RTS of 2000 bytes. *)
Definition tp_id (pgn_value source_addr : Z) (dest : option Z) : DecodedId :=
  {| priority := 6; d_pdu_format := Z.shiftr pgn_value 8; pgn := MkPgn pgn_value;
     source_addr := source_addr; dest_addr := dest |}.
Definition busy_inputs : list input :=
  [StartConnection (MkPgn 0xEF00) 6 0x10 0x42 (replicate 20 0x5A) 0;
   Frame (tp_id TP_CM_PGN 0x31 (Some 0xFF)) [BAM_CONTROL; 20; 0; 3; 0xFF; 0xCA; 0xFE; 0] 0;
   Frame (tp_id TP_DT_PGN 0x31 (Some 0xFF)) [1; 1; 2; 3; 4; 5; 6; 7] 10;
   Frame (tp_id TP_CM_PGN 0x32 (Some 0x10)) [RTS_CONTROL; 20; 0; 3; 0xFF; 0x00; 0xEF; 0] 20;
   Frame (tp_id TP_DT_PGN 0x32 (Some 0x10)) [1; 1; 2; 3; 4; 5; 6; 7] 30;
   Frame (tp_id TP_DT_PGN 0x32 (Some 0x10)) [2; 8; 9; 10; 11; 12; 13; 14] 40;
   Frame (tp_id ETP_CM_PGN 0x33 (Some 0x10)) [ETP_RTS_CONTROL; 0xD0; 0x07; 0; 0; 0x00; 0xEF; 0] 50].
Fixpoint run_inputs (ins : list input) (e : TpEngine) : res TpEngine :=
  match ins with
  | [] => Ok e
  | i :: ins => e' ← step e i; run_inputs ins e'
  end.
Definition busy_engine : TpEngine :=
  match run_inputs busy_inputs etp_sender with Ok e => e | Panic => etp_sender end.

Lemma run_reachable ins e e' :
  reachable e → Forall bytes_ok ins → run_inputs ins e = Ok e' → reachable e'.
Proof.
  intros He Hins. revert e He. induction Hins as [|i ins Hi _ IH]; intros e He Hr; simpl in Hr.
  - by injection Hr as <-.
  - destruct (step e i) as [e1|] eqn:E; [|done]. by eapply IH, Hr; eapply reach_step.
Qed.

Lemma busy_engine_reachable : reachable busy_engine.
Proof.
  apply (run_reachable busy_inputs etp_sender); [apply etp_sender_reachable| |by vm_compute].
  apply (bool_decide_unpack _). vm_compute. exact I.
Qed.

(** What the bounds are about, in that engine. *)
Definition sizes (e : TpEngine) : list (Z * Z) * list (Z * Z * Z) * list Z * list Z * list Z :=
  ((λ kv, (bs_next_seq kv.2, len (bs_buf kv.2))) <$> map_to_list (sessions e),
   (λ kv, (rc_next_seq kv.2, rc_window_remaining kv.2, len (rc_buf kv.2))) <$> map_to_list (rx_conn e),
   (λ kv, len (re_buf kv.2)) <$> map_to_list (etp_rx e),
   (λ kv, len (tc_payload kv.2)) <$> map_to_list (tx_conn e),
   (λ kv, len (te_payload kv.2)) <$> map_to_list (etp_tx e)).

Lemma busy_engine_sizes :
  sizes busy_engine = ([(2, 7)], [(3, 1, 14)], [2000], [20], [1790])
  ∧ total_inbound busy_engine = 3.
Proof. split; vm_compute; reflexivity. Qed.

Lemma reachable_bounded_witness :
  total_inbound busy_engine = 3 ∧ total_inbound busy_engine ≤ max_sessions busy_engine
  ∧ (∃ k s, sessions busy_engine !! k = Some s ∧ len (bs_buf s) = 7
       ∧ len (bs_buf s) ≤ TP_DT_DATA_LEN * (bs_next_seq s - 1) < bs_total_size s)
  ∧ (∃ k s, rx_conn busy_engine !! k = Some s ∧ len (rc_buf s) = 14
       ∧ len (rc_buf s) ≤ TP_DT_DATA_LEN * (rc_next_seq s - 1) < rc_total_size s)
  ∧ (∃ k s, etp_rx busy_engine !! k = Some s ∧ re_total_size s = 2000 ∧ len (re_buf s) = re_total_size s).
Proof.
  destruct (reachable_bounded busy_engine busy_engine_reachable) as (Hc & Hb & Hr & He & _).
  split_and!; [vm_compute; reflexivity|exact Hc|..].
  - exists (0x31, MkPgn 0xFECA).
    destruct (sessions busy_engine !! (0x31, MkPgn 0xFECA)) as [s|] eqn:E; [|by vm_compute in E].
    exists s. split; [done|]. split; [|by apply (Hb _ _ E)].
    assert (Some (len (bs_buf s)) = Some 7) as [= ->]; [|done].
    change (Some (len (bs_buf s))) with ((λ s, len (bs_buf s)) <$> Some s). rewrite <- E.
    vm_compute. reflexivity.
  - exists (0x32, MkPgn 0xEF00).
    destruct (rx_conn busy_engine !! (0x32, MkPgn 0xEF00)) as [s|] eqn:E; [|by vm_compute in E].
    exists s. split; [done|]. split; [|by apply (Hr _ _ E)].
    assert (Some (len (rc_buf s)) = Some 14) as [= ->]; [|done].
    change (Some (len (rc_buf s))) with ((λ s, len (rc_buf s)) <$> Some s). rewrite <- E.
    vm_compute. reflexivity.
  - exists (0x33, MkPgn 0xEF00).
    destruct (etp_rx busy_engine !! (0x33, MkPgn 0xEF00)) as [s|] eqn:E; [|by vm_compute in E].
    exists s. split; [done|]. split; [|by apply (He _ _ E)].
    assert (Some (re_total_size s) = Some 2000) as [= ->]; [|done].
    change (Some (re_total_size s)) with (re_total_size <$> Some s). rewrite <- E.
    vm_compute. reflexivity.
Defined.

Lemma on_frame_panic_iff_witness : on_frame etp_sender overrun_id overrun_cts 0 = Panic.
Proof.
  apply (on_frame_panic_iff etp_sender overrun_id overrun_cts 0 etp_sender_reachable).
  - apply (bool_decide_unpack _). vm_compute. exact I.
  - split_and!; [reflexivity|vm_compute; congruence|reflexivity|].
    do 9 eexists. split_and!; try reflexivity; try done.
Defined.

End TpSafe.
