(* ===== verification/J1939Packet.v ===== *)
(** * Packets and the bus

    What the three transports share: the eight-byte data packets, the byte
    fields of the control frames, delivery of an outbound frame over the bus
    (the 29-bit identifier is encoded by the sender and decoded by the
    receiver) and the exchange of two engines that answer each other. *)

From stdpp Require Import base gmap list list_numbers.
From Stdlib Require Import ZArith Lia.
From S2P Require Import Prelude J1939Id J1939Tp J1939TpInv.

(** ** Packets *)
Module Packet.
Import Id Tp TpInv.

(** The bytes of packet [j] (from 0) and its eight-byte frame. *)
Definition chunk (payload : list Z) (j : Z) : list Z :=
  take 7 (drop (Z.to_nat (7 * j)) payload).
Definition packet (seq : Z) (payload : list Z) (j : Z) : list Z :=
  seq :: chunk payload j ++ replicate (7 - length (chunk payload j)) 0xFF.

Lemma chunk_len payload j : 0 ≤ j →
  len (chunk payload j) = Z.min 7 (Z.max 0 (len payload - 7 * j)).
Proof. intros. unfold chunk. rewrite len_take, len_drop. lia. Qed.

Lemma packet_len seq payload j : len (packet seq payload j) = 8.
Proof.
  unfold packet, len. simpl. rewrite length_app, length_replicate.
  assert (length (chunk payload j) ≤ 7)%nat by (unfold chunk; rewrite length_take; lia).
  lia.
Qed.

Lemma packet_head seq payload j : idx (packet seq payload j) 0 = Ok seq.
Proof. done. Qed.

Lemma dt_data_packet payload seq j :
  0 ≤ j → 7 * j ≤ len payload →
  dt_data payload seq (j * 7) (Z.min (j * 7 + 7) (len payload)) = Ok (packet seq payload j).
Proof.
  intros Hj Hl. rewrite dt_data_eq by lia. unfold packet. do 2 f_equal.
  assert (take (Z.to_nat (Z.min (j * 7 + 7) (len payload) - j * 7))
            (drop (Z.to_nat (j * 7)) payload) = chunk payload j) as ->.
  { unfold chunk. rewrite (Z.mul_comm 7 j).
    destruct (decide (j * 7 + 7 ≤ len payload)) as [H|H].
    - f_equal. lia.
    - rewrite !take_ge; [done|..]; rewrite length_drop; unfold len in *; lia. }
  f_equal. f_equal. pose proof (chunk_len payload j Hj) as Hc. unfold len in *. lia.
Qed.

(** The receiver takes back exactly the bytes the sender put in. *)
Lemma packet_slice seq payload j t :
  0 ≤ j → t = len (chunk payload j) →
  slice (packet seq payload j) 1 (t + 1) = Ok (chunk payload j).
Proof.
  intros Hj ->. rewrite slice_Ok.
  - f_equal. change (drop (Z.to_nat 1) (packet seq payload j))
      with (chunk payload j ++ replicate (7 - length (chunk payload j)) 0xFF).
    rewrite take_app_le by (unfold len; lia). apply take_ge. unfold len. lia.
  - unfold len. lia.
  - rewrite packet_len, chunk_len by done. lia.
Qed.

Lemma take_chunk payload j : 0 ≤ j →
  take (Z.to_nat (7 * j)) payload ++ chunk payload j
    = take (Z.to_nat (7 * (j + 1))) payload.
Proof.
  intros Hj. replace (Z.to_nat (7 * (j + 1))) with (Z.to_nat (7 * j) + 7)%nat by lia.
  unfold chunk. by rewrite take_take_drop.
Qed.

Lemma take_len (payload : list Z) j : 0 ≤ j → 7 * j ≤ len payload →
  len (take (Z.to_nat (7 * j)) payload) = 7 * j.
Proof. intros. rewrite len_take. lia. Qed.

Lemma mapM_total {A B} (f : A → res B) (g : A → B) l :
  (∀ x, x ∈ l → f x = Ok (g x)) → mapM f l = Ok (g <$> l).
Proof.
  induction l as [|x l IH]; intros H; [done|]. simpl.
  rewrite (H x) by set_solver. simpl. rewrite IH by set_solver. done.
Qed.

(** With room the concurrency guard of the opening handlers lets through. *)
Lemma room_open {V} (e : TpEngine) (m : gmap Key V) (k : Key) :
  room e m k →
  negb (bool_decide (is_Some (m !! k))) && (max_sessions e <=? total_inbound e) = false.
Proof.
  rewrite andb_false_iff, negb_false_iff, bool_decide_eq_true, Z.leb_gt.
  unfold room. done.
Qed.

(** ** The bus *)

(** The identifier a receiver decodes for a transmitted frame. *)
Definition wire_id (f : TpOutFrame) : DecodedId :=
  decode_extended_id
    (encode_extended_id (o_wire_pgn f) (o_priority f) (o_source_addr f) (o_dest_addr f)).

(** Feed frames, each at its arrival time. *)
Fixpoint feed {HI : HashIter} (e : TpEngine) (fs : list (TpOutFrame * Z))
    : res (TpEngine * list TpEvent) :=
  match fs with
  | [] => Ok (e, [])
  | (f, now) :: fs =>
      '(e, evs) ← on_frame e (wire_id f) (o_data f) now;
      '(e, evs') ← feed e fs;
      Ok (e, evs ++ evs')
  end.

Lemma wire_id_pdu1 f pg da :
  o_wire_pgn f = MkPgn pg → 0 ≤ pg ≤ PGN_MAX → pg mod 256 = 0 →
  pg / 256 mod 256 < 240 → o_dest_addr f = Some da → is_u 8 da →
  is_u 8 (o_source_addr f) →
  pgn (wire_id f) = MkPgn pg ∧ source_addr (wire_id f) = o_source_addr f
  ∧ dest_addr (wire_id f) = Some da ∧ priority (wire_id f) = o_priority f mod 8.
Proof.
  intros Hp Hpg Hlow Hpf Hda Hu Hsa. unfold wire_id. rewrite Hp, Hda.
  assert (Pgn_is_pdu1 (MkPgn pg) = true) as Hpdu.
  { unfold Pgn_is_pdu1. rewrite pdu_format_arith. by apply Z.ltb_lt. }
  rewrite decode_encode by done. by rewrite Hpdu.
Qed.

Lemma wp_eq {A} (m : res A) x : wp m (λ r, r = x) ↔ m = Ok x.
Proof. destruct m; simpl; naive_solver. Qed.

(** ** Byte fields of the control frames *)

Lemma land_255 x : Z.land x 0xFF = x mod 256.
Proof. by apply (land_mask x 255 8). Qed.

Lemma land_255_u8 x : is_u 8 (Z.land x 0xFF).
Proof. rewrite land_255. apply Z.mod_pos_bound. lia. Qed.

Lemma size_bytes x : 0 ≤ x < 65536 →
  from_le_bytes [Z.land x 0xFF; Z.land (Z.shiftr x 8) 0xFF] = x.
Proof. intros. rewrite !land_255, Z.shiftr_div_pow2 by lia. le_simpl. zdiv. Qed.

Lemma u24_bytes_value x : 0 ≤ x < 2 ^ 24 → from_le_bytes (u24_bytes x) = x.
Proof.
  intros. unfold u24_bytes. rewrite !land_255, !Z.shiftr_div_pow2 by lia. le_simpl. zdiv.
Qed.

Lemma pgn_bytes_value p : valid_pgn p → from_le_bytes (pgn_bytes p) = value p.
Proof.
  intros Hp. change (pgn_bytes p) with (u24_bytes (value p)).
  apply u24_bytes_value. unfold valid_pgn, PGN_MAX in Hp. lia.
Qed.

Lemma u24_bytes_bytes x : is_bytes (u24_bytes x).
Proof. repeat constructor; apply land_255_u8. Qed.

Lemma Pgn_new_value p : valid_pgn p → Pgn_new (value p) = inl p.
Proof. intros. rewrite Pgn_new_ok by done. by destruct p. Qed.

(** A control frame built as [head ++ pgn_bytes p] carries [p]. *)
Lemma transported_pgn_frame head p : length head = 5%nat → valid_pgn p →
  transported_pgn_from (head ++ pgn_bytes p) = Ok (value p).
Proof.
  intros Hh Hp. destruct head as [|? [|? [|? [|? [|? [|]]]]]]; try done.
  trans (Ok (from_le_bytes (pgn_bytes p))).
  - unfold pgn_bytes. rewrite <-le3_lor by apply land_255_u8. reflexivity.
  - by rewrite pgn_bytes_value.
Qed.

(** Evaluates indexing of an explicit list at a literal position. *)
Ltac nth_of l k :=
  lazymatch l with
  | ?x :: ?l' => lazymatch k with O => x | S ?k' => nth_of l' k' end
  end.
Ltac idx_eval :=
  repeat match goal with
  | |- context [@idx Z (?x :: ?l) ?i] =>
      let k := eval vm_compute in (Z.to_nat i) in
      let y := nth_of (x :: l) k in
      change (@idx Z (x :: l) i) with (@Ok Z y)
  end; unfold mbind, res_bind.

(** Decides the comparisons of control-byte constants. *)
Ltac ctl_eval :=
  repeat match goal with
  | |- context [Z.eqb ?a ?b] =>
      let v := eval vm_compute in (Z.eqb a b) in
      lazymatch v with
      | true => change (Z.eqb a b) with true
      | false => change (Z.eqb a b) with false
      end
  end; cbv iota.

(** The three PGN bytes of a control frame, as the receiver reads them. *)
Definition carries (p : Pgn) (p0 p1 p2 : Z) : Prop :=
  is_u 8 p0 ∧ is_u 8 p1 ∧ is_u 8 p2 ∧ from_le_bytes [p0; p1; p2] = value p ∧ valid_pgn p.

Lemma carries_pgn p : valid_pgn p →
  carries p (Z.land (value p) 0xFF) (Z.land (Z.shiftr (value p) 8) 0xFF)
    (Z.land (Z.shiftr (value p) 16) 0xFF).
Proof.
  intros Hp. split_and!; try apply land_255_u8; try done. by apply (pgn_bytes_value p).
Qed.

Lemma carried c a b x y p p0 p1 p2 : carries p p0 p1 p2 →
  transported_pgn_from [c; a; b; x; y; p0; p1; p2] = Ok (value p)
  ∧ Pgn_new (value p) = inl p.
Proof.
  intros (? & ? & ? & Hv & Hp). split; [|by apply Pgn_new_value].
  unfold transported_pgn_from. idx_eval. by rewrite le3_lor, Hv.
Qed.

(** ** Dispatch, by the decoded PGN and the control byte *)
Section dispatch.
Context {HI : HashIter}.

Lemma on_frame_cm e d data now : pgn d = cm_pgn → on_frame e d data now = on_cm e d data now.
Proof. unfold on_frame. by intros ->. Qed.
Lemma on_frame_dt e d data now : pgn d = dt_pgn → on_frame e d data now = on_dt e d data now.
Proof. unfold on_frame. by intros ->. Qed.
Lemma on_frame_etp_cm e d data now :
  pgn d = etp_cm_pgn → on_frame e d data now = on_etp_cm e d data now.
Proof. unfold on_frame. by intros ->. Qed.
Lemma on_frame_etp_dt e d data now :
  pgn d = etp_dt_pgn → on_frame e d data now = on_etp_dt e d data now.
Proof. unfold on_frame. by intros ->. Qed.

Lemma len_control (c : Z) head tl : length head = 4%nat → length tl = 3%nat →
  len (c :: head ++ tl) = 8.
Proof. intros H1 H2. unfold len. simpl. rewrite length_app, H1, H2. done. Qed.

Lemma on_cm_control e d c tl now : len (c :: tl) = 8 →
  on_cm e d (c :: tl) now =
    if c =? BAM_CONTROL then on_bam_cm e (source_addr d) (c :: tl) now
    else if c =? RTS_CONTROL then on_rts e d (c :: tl) now
    else if c =? CTS_CONTROL then on_cts e d (c :: tl) now
    else if c =? EOMA_CONTROL then on_end_of_msg_ack e d (c :: tl)
    else if c =? CONN_ABORT_CONTROL then on_conn_abort e d (c :: tl)
    else Ok (e, []).
Proof. intros Hl. unfold on_cm. by rewrite Hl. Qed.

Lemma on_etp_cm_control e d c tl now : len (c :: tl) = 8 →
  on_etp_cm e d (c :: tl) now =
    if c =? ETP_RTS_CONTROL then on_etp_rts e d (c :: tl) now
    else if c =? ETP_CTS_CONTROL then on_etp_cts e d (c :: tl) now
    else if c =? ETP_DPO_CONTROL then on_etp_dpo e d (c :: tl) now
    else if c =? ETP_EOMA_CONTROL then on_etp_eoma e d (c :: tl)
    else if c =? ETP_ABORT_CONTROL then on_etp_abort e d (c :: tl)
    else Ok (e, []).
Proof. intros Hl. unfold on_etp_cm. by rewrite Hl. Qed.
End dispatch.

(** ** Two engines on one bus *)
Section bus.
Context {HI : HashIter}.

Definition deliver (e : TpEngine) (fs : list TpOutFrame) (now : Z)
    : res (TpEngine * list TpEvent) :=
  feed e ((λ f, (f, now)) <$> fs).

(** [rounds] rounds of exchange: what [b] has queued is delivered to [a], then
    what [a] has queued is delivered to [b]; [clk] gives the time of each
    round.  Returns the engines and the events of each. *)
Fixpoint exchange (clk : nat → Z) (rounds : nat) (a b : TpEngine)
    : res (TpEngine * TpEngine * list TpEvent * list TpEvent) :=
  match rounds with
  | O => Ok (a, b, [], [])
  | S r =>
      let '(b, to_a) := take_outbound b in
      '(a, eva) ← deliver a to_a (clk r);
      let '(a, to_b) := take_outbound a in
      '(b, evb) ← deliver b to_b (clk r);
      '(a, b, eva', evb') ← exchange clk r a b;
      Ok (a, b, eva ++ eva', evb ++ evb')
  end.

Lemma feed_app e fs gs :
  feed e (fs ++ gs) =
    '(e, evs) ← feed e fs; '(e, evs') ← feed e gs; Ok (e, evs ++ evs').
Proof.
  revert e. induction fs as [|[f t] fs IH]; intros e; cbn [app feed].
  { unfold mbind, res_bind. by destruct (feed e gs) as [[]|]. }
  unfold mbind, res_bind. destruct (on_frame _ _ _ _) as [[e1 ev1]|]; [|done].
  rewrite IH. unfold mbind, res_bind.
  destruct (feed e1 fs) as [[e2 ev2]|]; [|done].
  destruct (feed e2 gs) as [[e3 ev3]|]; [|done]. by rewrite app_assoc.
Qed.

Lemma deliver_nil e now : deliver e [] now = Ok (e, []).
Proof. done. Qed.

Lemma deliver_cons e f fs now :
  deliver e (f :: fs) now =
    '(e, evs) ← on_frame e (wire_id f) (o_data f) now;
    '(e, evs') ← deliver e fs now; Ok (e, evs ++ evs').
Proof. done. Qed.

Lemma set_out_eta e : pending_out e = [] → set_pending_out e [] = e.
Proof. destruct e; simpl. by intros <-. Qed.

Lemma take_outbound_nil e : pending_out e = [] → take_outbound e = (e, []).
Proof. destruct e; simpl. by intros ->. Qed.

(** Engines with nothing queued stay as they are. *)
Lemma exchange_idle clk rounds a b :
  pending_out a = [] → pending_out b = [] → exchange clk rounds a b = Ok (a, b, [], []).
Proof.
  intros Ha Hb. induction rounds as [|r IH]; [done|]. cbn [exchange].
  rewrite (take_outbound_nil b), deliver_nil by done. unfold mbind, res_bind.
  rewrite (take_outbound_nil a), deliver_nil by done. unfold mbind, res_bind.
  by rewrite IH.
Qed.
End bus.

End Packet.
