(* ===== verification/J1939TpBam.v ===== *)
(** * BAM end to end

    The BAM round trip: a message segmented by [segment_outbound], sent over
    the bus and fed to a receiving engine is reassembled and reported exactly
    once. *)

From stdpp Require Import base gmap list list_numbers.
From Stdlib Require Import ZArith Lia.
From S2P Require Import Prelude J1939Id J1939Tp J1939TpInv J1939Packet.

(** ** The BAM round trip *)
Module TpBam.
Import Id Tp TpInv Packet.

Section bam.
Context {HI : HashIter}.
Context (p : Pgn) (prio sa : Z) (payload : list Z).
Context (Hsize : TP_MIN_PAYLOAD ≤ len payload ≤ TP_MAX_PAYLOAD).
Context (Hpgn : valid_pgn p) (Hsa : is_u 8 sa).

Let n := div_ceil (len payload) TP_DT_DATA_LEN.
Let key : Key := (sa, p).

(** The frames of the message. *)
Definition announce : TpOutFrame :=
  {| o_wire_pgn := cm_pgn; o_priority := prio; o_source_addr := sa;
     o_dest_addr := Some GLOBAL_ADDRESS;
     o_data := [BAM_CONTROL; Z.land (len payload) 0xFF;
                Z.land (Z.shiftr (len payload) 8) 0xFF; wrap 8 n; 0xFF;
                Z.land (value p) 0xFF; Z.land (Z.shiftr (value p) 8) 0xFF;
                Z.land (Z.shiftr (value p) 16) 0xFF] |}.
Definition data_frame (i : Z) : TpOutFrame :=
  {| o_wire_pgn := dt_pgn; o_priority := prio; o_source_addr := sa;
     o_dest_addr := Some GLOBAL_ADDRESS; o_data := packet (i + 1) payload i |}.

Lemma n_bounds : 2 ≤ n ≤ 255 ∧ len payload ≤ 7 * n < len payload + 7.
Proof. split; [by apply packets_255|]. apply packets_size. unfold len. lia. Qed.

Lemma segment_outbound_eq :
  segment_outbound p prio sa payload = Ok (inl (announce :: (data_frame <$> seqZ 0 n))).
Proof.
  pose proof n_bounds as [Hn1 Hn2].
  unfold segment_outbound. rewrite (proj2 (in_range_spec _ _ _) Hsize). simpl.
  rewrite (mapM_total _ data_frame); [done|].
  intros i Hi%elem_of_seqZ. unfold bam_dt_frame, TP_DT_DATA_LEN.
  rewrite dt_data_packet by lia. simpl. unfold data_frame. rewrite wrap_small by lia. done.
Qed.

(** The receiver's session after [j] packets. *)
Definition session_after (j : Z) (now : Z) : InboundSession :=
  {| bs_transported_pgn := p; bs_source_addr := sa; bs_total_size := len payload;
     bs_num_packets := n; bs_next_seq := j + 1;
     bs_buf := take (Z.to_nat (7 * j)) payload; bs_last_activity := now |}.
Definition receiving (e : TpEngine) (j now : Z) : TpEngine :=
  set_sessions e (<[key := session_after j now]> (sessions e)).

(** No other BAM session of the same source is open. *)
Definition sole (e : TpEngine) : Prop :=
  ∀ k, is_Some (sessions e !! k) → k.1 = sa → k = key.

Lemma announce_id :
  pgn (wire_id announce) = cm_pgn ∧ source_addr (wire_id announce) = sa.
Proof.
  destruct (wire_id_pdu1 announce TP_CM_PGN GLOBAL_ADDRESS) as (? & ? & _); try done.
Qed.

Lemma data_frame_id i :
  pgn (wire_id (data_frame i)) = dt_pgn ∧ source_addr (wire_id (data_frame i)) = sa
  ∧ dest_addr (wire_id (data_frame i)) = Some GLOBAL_ADDRESS.
Proof.
  destruct (wire_id_pdu1 (data_frame i) TP_DT_PGN GLOBAL_ADDRESS) as (? & ? & ? & _);
    try done.
Qed.

(** The announce opens (or restarts) the session. *)
Lemma announce_accepted e now :
  room e (sessions e) key →
  on_frame e (wire_id announce) (o_data announce) now = Ok (receiving e 0 now, []).
Proof.
  intros Hroom. destruct announce_id as [Hp Hs]. pose proof n_bounds as [Hn1 Hn2].
  rewrite on_frame_cm by done. unfold announce at 2. cbn [o_data].
  rewrite on_cm_control by done. rewrite Z.eqb_refl, Hs. unfold on_bam_cm. idx_eval.
  edestruct carried as [-> ->]; [by apply carries_pgn|].
  rewrite size_bytes by (unfold TP_MIN_PAYLOAD, TP_MAX_PAYLOAD in Hsize; lia).
  rewrite (proj2 (in_range_spec _ _ _) Hsize), wrap_small by lia.
  fold n. rewrite Z.eqb_refl. cbn [negb].
  fold key. rewrite room_open by done. done.
Qed.

(** Packet [j] is appended; the last one completes the message. *)
Lemma data_accepted e j now now' :
  sole e → 0 ≤ j < n →
  on_frame (receiving e j now) (wire_id (data_frame j)) (o_data (data_frame j)) now' =
    Ok (if j + 1 =? n
        then (set_sessions e (delete key (sessions e)), [Completed p sa payload])
        else (receiving e (j + 1) now', [])).
Proof.
  intros Hsole Hj. destruct (data_frame_id j) as (Hp & Hs & Hda).
  pose proof n_bounds as [Hn1 Hn2].
  rewrite on_frame_dt by done. unfold on_dt.
  change (o_data (data_frame j)) with (packet (j + 1) payload j).
  rewrite packet_len, Hda, Hs. cbn [Z.eqb]. rewrite Z.eqb_refl.
  unfold on_bam_dt. rewrite packet_head. unfold mbind, res_bind.
  assert (find_sa (sessions (receiving e j now)) sa = Some key) as ->.
  { change (sessions (receiving e j now)) with (<[key := session_after j now]> (sessions e)).
    apply find_sa_unique; [done|by rewrite lookup_insert_eq|].
    intros k Hk Hk1. destruct (decide (k = key)); [done|].
    apply Hsole; [|done]. by rewrite lookup_insert_ne in Hk. }
  unfold receiving at 1. cbn [sessions set_sessions]. rewrite lookup_insert_eq.
  cbn [expect bs_next_seq bs_total_size bs_buf bs_num_packets bs_transported_pgn
       bs_source_addr session_after].
  rewrite Z.eqb_refl. cbn [negb].
  rewrite (packet_slice _ payload j).
  2: lia.
  2: { rewrite chunk_len, take_len, packet_len by lia. unfold sat_sub, TP_DT_DATA_LEN.
       lia. }
  rewrite take_chunk by lia.
  unfold receiving. cbn [sessions set_sessions].
  rewrite !set_sessions_set, insert_insert_eq, lookup_insert_eq, delete_insert_eq.
  cbn [expect bs_next_seq bs_total_size bs_buf bs_num_packets bs_transported_pgn
       bs_source_addr].
  destruct (Z.eqb_spec (j + 1) n) as [E|E].
  - rewrite (proj2 (Z.leb_le _ _)) by lia. do 4 f_equal.
    rewrite take_ge; [done|]. unfold len in *. lia.
  - rewrite (proj2 (Z.leb_gt _ _)), wrap_small by lia. done.
Qed.

(** The remaining packets, at any arrival times, complete the message. *)
Lemma data_stream e fs : sole e → ∀ j now,
  0 ≤ j < n → fs.*1 = data_frame <$> seqZ j (n - j) →
  feed (receiving e j now) fs =
    Ok (set_sessions e (delete key (sessions e)), [Completed p sa payload]).
Proof.
  intros Hsole. induction fs as [|[f t] fs IH]; intros j now Hj Hfs;
    rewrite seqZ_cons in Hfs by lia; [done|].
  injection Hfs as -> Hfs.
  cbn [feed]. rewrite data_accepted by done. unfold mbind, res_bind.
  destruct (Z.eqb_spec (j + 1) n) as [E|E].
  - replace (Z.pred (n - j)) with 0 in Hfs by lia. by destruct fs.
  - rewrite IH; [done|lia|]. etrans; [exact Hfs|]. unfold fmap. do 2 f_equal; lia.
Qed.

Lemma bam_feed e fs : sole e → room e (sessions e) key →
  fs.*1 = announce :: (data_frame <$> seqZ 0 n) →
  feed e fs = Ok (set_sessions e (delete key (sessions e)), [Completed p sa payload]).
Proof.
  intros Hsole Hroom Hfs. pose proof n_bounds as [Hn _].
  destruct fs as [|[f t] fs]; [done|]. injection Hfs as -> Hfs.
  cbn [feed]. rewrite announce_accepted by done.
  unfold mbind, res_bind. rewrite (data_stream e fs Hsole 0 t); [done|lia|].
  by rewrite Z.sub_0_r.
Qed.
End bam.

(** BAM round trip: every payload of 9 to 1785 bytes is segmented into
    an announce and its data frames, and an engine that receives those frames
    over the bus, at whatever times they arrive, has room for the session and
    no other BAM session of that source, reports the original payload exactly
    once, with the sender's PGN and address, and keeps no session. *)
Theorem bam_roundtrip {HI : HashIter} (e : TpEngine) (p : Pgn) (prio sa : Z)
    (payload : list Z) :
  TP_MIN_PAYLOAD ≤ len payload ≤ TP_MAX_PAYLOAD → valid_pgn p → is_u 8 sa →
  room e (sessions e) (sa, p) → sole p sa e →
  ∃ frames,
    segment_outbound p prio sa payload = Ok (inl frames)
    ∧ ∀ arrivals, arrivals.*1 = frames →
        feed e arrivals = Ok (set_sessions e (delete (sa, p) (sessions e)),
                              [Completed p sa payload]).
Proof.
  intros Hsize Hp Hsa Hroom Hsole.
  eexists. split; [by apply segment_outbound_eq|].
  intros fs Hfs. by apply (bam_feed p prio sa payload).
Qed.

Definition payload_20 : list Z := seqZ 1 20.

Lemma bam_roundtrip_witness :
  ∃ frames,
    segment_outbound (MkPgn 65226) 6 0x42 payload_20 = Ok (inl frames)
    ∧ ∀ arrivals, arrivals.*1 = frames →
        feed (new TpTimers_default 8) arrivals =
          Ok (new TpTimers_default 8, [Completed (MkPgn 65226) 0x42 payload_20]).
Proof.
  apply (bam_roundtrip (new TpTimers_default 8) (MkPgn 65226) 6 0x42 payload_20).
  - vm_compute; split; discriminate.
  - vm_compute; split; discriminate.
  - vm_compute; split; [discriminate|reflexivity].
  - right. vm_compute. reflexivity.
  - intros k [s Hs]. simpl in Hs. by rewrite lookup_empty in Hs.
Defined.

End TpBam.
