(* ===== verification/J1939TpConn.v ===== *)
(** * Connection mode end to end

    The RTS/CTS round trip between two engines: the sender opens the session
    and answers each CTS with a burst, the receiver grants windows, reassembles
    and acknowledges.  Whatever the receiver's window, the exchange terminates
    with the payload delivered once and both sessions released. *)

From stdpp Require Import base gmap list list_numbers.
From Stdlib Require Import ZArith Lia.
From S2P Require Import Prelude J1939Id J1939Tp J1939TpInv J1939Packet.

Module TpConn.
Import Id Tp TpInv Packet.

Section conn.
Context {HI : HashIter}.
Context (p : Pgn) (prio sa da : Z) (payload : list Z).
Context (Hsize : TP_MIN_PAYLOAD ≤ len payload ≤ TP_MAX_PAYLOAD).
Context (Hpgn : valid_pgn p) (Hsa : is_u 8 sa) (Hda : is_u 8 da).
Context (Hspec : da ≠ GLOBAL_ADDRESS).

Let n := div_ceil (len payload) TP_DT_DATA_LEN.
(** The session keys: the receiver's, by the sender's address, and the
    sender's, by the receiver's. *)
Let rk : Key := (sa, p).
Let tk : Key := (da, p).
(** The priority the receiver decodes and answers with. *)
Let rprio := prio mod 8.

Lemma conn_bounds : 2 ≤ n ≤ 255 ∧ len payload ≤ 7 * n < len payload + 7.
Proof. split; [by apply packets_255|]. apply packets_size. unfold len. lia. Qed.

(** ** The frames on the wire *)

Definition rts : TpOutFrame := rts_frame sa da prio p (len payload) n CTS_NO_LIMIT.
Definition cts (w j : Z) : TpOutFrame := cts_frame da sa rprio p w (j + 1).
Definition eoma : TpOutFrame := end_of_msg_ack_frame da sa rprio p (len payload) n.
Definition conn_dt (i : Z) : TpOutFrame :=
  {| o_wire_pgn := dt_pgn; o_priority := prio; o_source_addr := sa;
     o_dest_addr := Some da; o_data := packet (i + 1) payload i |}.

Lemma rts_id : pgn (wire_id rts) = cm_pgn ∧ source_addr (wire_id rts) = sa
  ∧ dest_addr (wire_id rts) = Some da ∧ priority (wire_id rts) = rprio.
Proof. by apply (wire_id_pdu1 rts TP_CM_PGN da). Qed.
Lemma cts_id w j : pgn (wire_id (cts w j)) = cm_pgn ∧ source_addr (wire_id (cts w j)) = da.
Proof. by destruct (wire_id_pdu1 (cts w j) TP_CM_PGN sa) as (? & ? & _). Qed.
Lemma eoma_id : pgn (wire_id eoma) = cm_pgn ∧ source_addr (wire_id eoma) = da.
Proof. by destruct (wire_id_pdu1 eoma TP_CM_PGN sa) as (? & ? & _). Qed.
Lemma conn_dt_id i : pgn (wire_id (conn_dt i)) = dt_pgn
  ∧ source_addr (wire_id (conn_dt i)) = sa ∧ dest_addr (wire_id (conn_dt i)) = Some da.
Proof. by destruct (wire_id_pdu1 (conn_dt i) TP_DT_PGN da) as (? & ? & ? & _). Qed.

(** ** The sender *)

Definition tx_session (now : Z) : OutboundConnSession :=
  {| tc_transported_pgn := p; tc_our_sa := sa; tc_dest_sa := da; tc_priority := prio;
     tc_payload := payload; tc_total_packets := n; tc_last_activity := now |}.
Definition sending (a : TpEngine) (now : Z) (out : list TpOutFrame) : TpEngine :=
  set_pending_out (set_tx_conn a (<[tk := tx_session now]> (tx_conn a))) out.
Definition sent (a : TpEngine) : TpEngine := set_tx_conn a (delete tk (tx_conn a)).

Lemma start_eq a now : pending_out a = [] →
  start_outbound_connection a p prio sa da payload now = (sending a now [], inl [rts]).
Proof.
  intros Ha. pose proof conn_bounds as [Hn _].
  unfold start_outbound_connection. rewrite (proj2 (in_range_spec _ _ _) Hsize).
  cbn [negb]. fold n. rewrite wrap_small by lia. unfold sending.
  destruct a; simpl in Ha; subst; done.
Qed.

(** A burst of [w] packets from packet [j] on. *)
Lemma burst_eq now w j : 0 ≤ j → 0 ≤ w → j + w ≤ n →
  build_dt_burst (tx_session now) (j + 1) w = Ok (conn_dt <$> seqZ j w).
Proof.
  intros Hj Hw Hjw. pose proof conn_bounds as [Hn1 Hn2]. unfold build_dt_burst.
  assert (∀ k m, 0 ≤ k → 0 ≤ m → k + m = w →
    dt_burst_loop (tx_session now) (j + 1) (seqZ k m) = Ok (conn_dt <$> seqZ (j + k) m))
    as Hloop; [|rewrite Hloop by lia; by rewrite Z.add_0_r].
  intros k m Hk Hm. revert k Hk. pattern m. apply natlike_ind; [done|..|done].
  clear m Hm. intros m Hm IH k Hk Hkm.
  rewrite !(seqZ_cons _ (Z.succ m)) by lia. rewrite !Z.pred_succ.
  cbn [dt_burst_loop tc_total_packets tc_payload tx_session].
  rewrite wrap_small by lia.
  rewrite (proj2 (Z.ltb_ge _ _)) by lia. rewrite Z.gtb_ltb, (proj2 (Z.ltb_ge _ _)) by lia.
  cbn [orb]. unfold TP_DT_DATA_LEN.
  replace (j + 1 + k - 1) with (j + k) by lia. rewrite dt_data_packet by lia.
  unfold mbind, res_bind. rewrite IH by lia. unfold conn_dt. cbn [fmap list_fmap].
  do 3 f_equal; [f_equal; lia|]. do 2 f_equal. lia.
Qed.

(** The sender answers a CTS with its burst, and frees the session on the
    acknowledgement. *)
Lemma cts_answered a t now w j out : 1 ≤ w → 0 ≤ j → j + w ≤ n →
  on_frame (sending a t out) (wire_id (cts w j)) (o_data (cts w j)) now =
    Ok (sending a now (out ++ (conn_dt <$> seqZ j w)), []).
Proof.
  intros Hw Hj Hjw. destruct (cts_id w j) as [Hp Hs].
  rewrite on_frame_cm by done. unfold cts at 2. unfold cts_frame, pgn_bytes.
  cbn [o_data app]. rewrite on_cm_control by done. ctl_eval. unfold on_cts. idx_eval.
  edestruct carried as [-> ->]; [by apply carries_pgn|]. rewrite Hs. fold tk.
  change (tx_conn (sending a t out)) with (<[tk := tx_session t]> (tx_conn a)).
  rewrite lookup_insert_eq. change (touch_tx (tx_session t) now) with (tx_session now).
  rewrite (proj2 (Z.eqb_neq _ _)) by lia.
  rewrite burst_eq by lia. rewrite insert_insert_eq. done.
Qed.

Lemma eoma_answered a t now out :
  on_frame (sending a t out) (wire_id eoma) (o_data eoma) now =
    Ok (set_pending_out (sent a) out, []).
Proof.
  destruct eoma_id as [Hp Hs]. rewrite on_frame_cm by done.
  unfold eoma at 2. unfold end_of_msg_ack_frame, pgn_bytes. cbn [o_data app].
  rewrite on_cm_control by done. ctl_eval. unfold on_end_of_msg_ack.
  idx_eval. edestruct carried as [-> ->]; [by apply carries_pgn|]. rewrite Hs. fold tk.
  change (tx_conn (sending a t out)) with (<[tk := tx_session t]> (tx_conn a)).
  by rewrite delete_insert_eq.
Qed.

(** ** The receiver *)

Definition rx_session (j w now : Z) : InboundConnSession :=
  {| rc_transported_pgn := p; rc_peer_sa := sa; rc_our_sa := da; rc_priority := rprio;
     rc_total_size := len payload; rc_total_packets := n;
     rc_sender_max_per_cts := CTS_NO_LIMIT; rc_next_seq := j + 1;
     rc_window_remaining := w; rc_buf := take (Z.to_nat (7 * j)) payload;
     rc_last_activity := now |}.
Definition awaiting (b : TpEngine) (j w now : Z) (out : list TpOutFrame) : TpEngine :=
  set_pending_out (set_rx_conn b (<[rk := rx_session j w now]> (rx_conn b))) out.
Definition received (b : TpEngine) : TpEngine := set_rx_conn b (delete rk (rx_conn b)).

(** No other connection of the sender is open at the receiver. *)
Definition sole_conn (b : TpEngine) : Prop :=
  ∀ k, is_Some (rx_conn b !! k) → k.1 = sa → k = rk.

Definition grant (b : TpEngine) (j : Z) : Z :=
  grant_window (n - j) (cts_window b) CTS_NO_LIMIT.

Lemma grant_bounds b j : 1 ≤ cts_window b → j < n → 1 ≤ grant b j ≤ n - j.
Proof.
  intros. unfold grant. destruct (grant_window_bounds (n - j) (cts_window b) CTS_NO_LIMIT);
    lia.
Qed.

(** The RTS opens the session and is answered with the first grant. *)
Lemma rts_answered b now : room b (rx_conn b) rk → pending_out b = [] →
  on_frame b (wire_id rts) (o_data rts) now =
    Ok (awaiting b 0 (grant b 0) now [cts (grant b 0) 0], []).
Proof.
  intros Hroom Hout. destruct rts_id as (Hp & Hs & Hd & Hpr).
  pose proof conn_bounds as [Hn1 Hn2].
  rewrite on_frame_cm by done. unfold rts at 2. unfold rts_frame, pgn_bytes.
  cbn [o_data app]. rewrite on_cm_control by done. ctl_eval.
  unfold on_rts, parse_conn_rts, specific_dest. rewrite Hd.
  rewrite (proj2 (Z.eqb_neq _ _)) by done. idx_eval.
  edestruct carried as [-> ->]; [by apply carries_pgn|].
  rewrite size_bytes by (unfold TP_MIN_PAYLOAD, TP_MAX_PAYLOAD in Hsize; lia).
  rewrite (proj2 (in_range_spec _ _ _) Hsize). fold n. rewrite Z.eqb_refl. cbn [andb].
  cbn [p_our_sa p_peer_sa p_priority p_total_size p_total_packets p_sender_max_per_cts
       p_pgn]. rewrite Hs, Hpr. fold rk.
  rewrite room_open by done. unfold grant. rewrite Z.sub_0_r.
  unfold awaiting, push_out. cbn [pending_out set_rx_conn]. rewrite Hout. done.
Qed.

Lemma find_conn b j w now out : sole_conn b →
  find_sa (rx_conn (awaiting b j w now out)) sa = Some rk.
Proof.
  intros Hsole.
  change (rx_conn (awaiting b j w now out)) with (<[rk := rx_session j w now]> (rx_conn b)).
  apply find_sa_unique; [done|by rewrite lookup_insert_eq|].
  intros k Hk Hk1. destruct (decide (k = rk)); [done|].
  apply Hsole; [|done]. by rewrite lookup_insert_ne in Hk.
Qed.

(** Packet [j]: the last packet completes the message, the last of a window
    asks for the next one. *)
Lemma conn_data_accepted b j w now now' :
  sole_conn b → 1 ≤ cts_window b → 0 ≤ j < n → 1 ≤ w →
  on_frame (awaiting b j w now []) (wire_id (conn_dt j)) (o_data (conn_dt j)) now' =
    Ok (if j + 1 =? n then (set_pending_out (received b) [eoma], [Completed p sa payload])
        else if w =? 1 then
          let g := grant b (j + 1) in (awaiting b (j + 1) g now' [cts g (j + 1)], [])
        else (awaiting b (j + 1) (w - 1) now' [], [])).
Proof.
  intros Hsole Hcw Hj Hw. destruct (conn_dt_id j) as (Hp & Hs & Hd).
  pose proof conn_bounds as [Hn1 Hn2].
  rewrite on_frame_dt by done. unfold on_dt.
  change (o_data (conn_dt j)) with (packet (j + 1) payload j).
  rewrite packet_len, Hd, Hs. cbn [Z.eqb]. rewrite (proj2 (Z.eqb_neq _ _)) by done.
  unfold on_conn_dt. rewrite packet_head, find_conn by done. unfold mbind, res_bind.
  change (rx_conn (awaiting b j w now [])) with (<[rk := rx_session j w now]> (rx_conn b)).
  rewrite lookup_insert_eq. cbn [expect]. unfold conn_dt_step.
  cbn [rx_session rc_next_seq rc_total_size rc_buf rc_total_packets rc_window_remaining
    rc_transported_pgn rc_peer_sa rc_our_sa rc_priority rc_sender_max_per_cts].
  rewrite Z.eqb_refl, (packet_slice _ payload j).
  2: lia.
  2: { rewrite chunk_len, take_len, packet_len by lia. unfold sat_sub, TP_DT_DATA_LEN. lia. }
  unfold mbind, res_bind. rewrite take_chunk by lia.
  change (set_rx_conn (awaiting b j w now [])) with (set_rx_conn (set_pending_out b [])).
  destruct (Z.eqb_spec (j + 1) n) as [E|E].
  - rewrite (proj2 (Z.leb_le _ _)) by lia. cbn [rx_conn set_rx_conn].
    rewrite insert_insert_eq, lookup_insert_eq, delete_insert_eq. cbn [expect].
    cbn. rewrite take_ge; [done|]. unfold len in *. lia.
  - rewrite (proj2 (Z.leb_gt _ _)), !wrap_small by lia.
    unfold sat_sub. destruct (Z.eqb_spec w 1) as [->|Hw1].
    + change (Z.max 0 (1 - 1) =? 0) with true.
      rewrite !sub_chk_Ok by lia. cbv iota.
      replace (n - (j + 1 + 1 - 1)) with (n - (j + 1)) by lia.
      cbn [rx_conn set_rx_conn]. rewrite insert_insert_eq, lookup_insert_eq.
      cbn [expect]. done.
    + rewrite (proj2 (Z.eqb_neq _ _)), Z.max_r by lia. rewrite insert_insert_eq. done.
Qed.

(** ** The exchange *)

(** A whole window. *)
Lemma window_stream b now : sole_conn b → 1 ≤ cts_window b →
  ∀ m j w t, w = Z.of_nat (S m) → 0 ≤ j → j + w ≤ n →
  deliver (awaiting b j w t []) (conn_dt <$> seqZ j w) now =
    Ok (if j + w =? n then (set_pending_out (received b) [eoma], [Completed p sa payload])
        else let g := grant b (j + w) in (awaiting b (j + w) g now [cts g (j + w)], [])).
Proof.
  intros Hsole Hcw. induction m as [|m IH]; intros j w t Hw Hj Hjw;
    rewrite seqZ_cons by lia; change (conn_dt <$> ?x :: ?l) with (conn_dt x :: (conn_dt <$> l));
    rewrite deliver_cons, conn_data_accepted by (done || lia); unfold mbind, res_bind.
  - replace w with 1 by lia. change (seqZ (Z.succ j) (Z.pred 1)) with (@nil Z).
    change (conn_dt <$> []) with (@nil TpOutFrame).
    by destruct (Z.eqb_spec (j + 1) n).
  - rewrite (proj2 (Z.eqb_neq _ _)), (proj2 (Z.eqb_neq w 1)) by lia.
    replace (Z.succ j) with (j + 1) by lia. replace (Z.pred w) with (w - 1) by lia.
    rewrite IH by lia. replace (j + 1 + (w - 1)) with (j + w) by lia.
    by destruct (j + w =? n).
Qed.

(** From an outstanding grant, enough rounds finish the transfer. *)
Lemma conn_rounds clk a b : sole_conn b → 1 ≤ cts_window b →
  pending_out a = [] → pending_out b = [] →
  ∀ r j t t', 0 ≤ j < n → n - j + 1 ≤ Z.of_nat r →
  exchange clk r (sending a t []) (awaiting b j (grant b j) t' [cts (grant b j) j]) =
    Ok (sent a, received b, [], [Completed p sa payload]).
Proof.
  intros Hsole Hcw Ha Hb. induction r as [|r IH]; intros j t t' Hj Hr; [lia|].
  pose proof (grant_bounds b j Hcw) as Hg. specialize (Hg ltac:(lia)).
  cbn [exchange]. unfold take_outbound at 1.
  change (set_pending_out (awaiting b j ?g ?x ?o) []) with (awaiting b j g x []).
  change (pending_out (awaiting b j ?g ?x ?o)) with o. cbv iota beta.
  rewrite deliver_cons, cts_answered by lia. unfold mbind, res_bind.
  rewrite deliver_nil. cbv iota beta. unfold take_outbound at 1.
  change (set_pending_out (sending a ?x ?o) []) with (sending a x []).
  change (pending_out (sending a ?x ?o)) with o. cbv iota beta. cbn [app].
  rewrite (window_stream b _ Hsole Hcw (Z.to_nat (grant b j - 1))) by lia.
  destruct (Z.eqb_spec (j + grant b j) n) as [E|E]; cbv iota beta zeta.
  - destruct r as [|r]; [lia|]. cbn [exchange]. unfold take_outbound at 1.
    cbn [pending_out set_pending_out]. cbv iota beta.
    rewrite deliver_cons, eoma_answered. unfold mbind, res_bind. rewrite deliver_nil.
    rewrite set_out_eta by done. rewrite take_outbound_nil, deliver_nil by done.
    change (set_pending_out (set_pending_out (received b) [eoma]) [])
      with (set_pending_out (received b) []). rewrite set_out_eta by done.
    by rewrite exchange_idle.
  - by rewrite IH by lia.
Qed.
End conn.

(** C15. RTS/CTS round trip: for every payload of 9 to 1785 bytes, PGN and pair
    of addresses, whatever window the receiver grants and whatever the times
    of the frames, the sender's RTS opens a session at a receiver with room,
    and exchanging the queued frames delivers the payload exactly once, after
    at most one round per packet plus the acknowledgement; no session and no
    frame is left at either end. *)
Theorem rts_cts_roundtrip {HI : HashIter} (a b : TpEngine) (p : Pgn)
    (prio sa da : Z) (payload : list Z) (t0 t1 : Z) (clk : nat → Z) (rounds : nat) :
  TP_MIN_PAYLOAD ≤ len payload ≤ TP_MAX_PAYLOAD →
  valid_pgn p → is_u 8 sa → is_u 8 da → da ≠ GLOBAL_ADDRESS →
  pending_out a = [] → pending_out b = [] →
  1 ≤ cts_window b → room b (rx_conn b) (sa, p) → sole_conn p sa b →
  div_ceil (len payload) TP_DT_DATA_LEN + 1 ≤ Z.of_nat rounds →
  ∃ a1 rts b1,
    start_outbound_connection a p prio sa da payload t0 = (a1, inl rts)
    ∧ deliver b rts t1 = Ok (b1, [])
    ∧ exchange clk rounds a1 b1 =
        Ok (set_tx_conn a (delete (da, p) (tx_conn a)),
            set_rx_conn b (delete (sa, p) (rx_conn b)),
            [], [Completed p sa payload]).
Proof.
  intros Hsize Hp Hsa Hda Hspec Ha Hb Hcw Hroom Hsole Hr.
  pose proof (packets_255 _ Hsize) as Hn.
  eexists _, _, _. split_and!.
  - by apply start_eq.
  - rewrite deliver_cons, rts_answered by done. unfold mbind, res_bind.
    by rewrite deliver_nil.
  - apply conn_rounds; try done; lia.
Qed.

Definition payload_100 : list Z := seqZ 0 100.
Definition narrow_receiver : TpEngine := with_cts_window (new TpTimers_default 8) 4.

Lemma rts_cts_roundtrip_witness :
  ∃ a1 rts b1,
    start_outbound_connection (new TpTimers_default 8) (MkPgn 61184) 6 0x10 0x20
      payload_100 0 = (a1, inl rts)
    ∧ deliver narrow_receiver rts 5 = Ok (b1, [])
    ∧ exchange Z.of_nat 16 a1 b1 =
        Ok (new TpTimers_default 8, narrow_receiver, [],
            [Completed (MkPgn 61184) 0x10 payload_100]).
Proof.
  apply (rts_cts_roundtrip (new TpTimers_default 8) narrow_receiver (MkPgn 61184)
           6 0x10 0x20 payload_100 0 5 Z.of_nat 16).
  1-5,8,11: by vm_compute.
  1,2: reflexivity.
  - right. by vm_compute.
  - intros k [s Hs]. simpl in Hs. by rewrite lookup_empty in Hs.
Defined.
End TpConn.
