(* ===== verification/J1939TpEtp.v ===== *)
(** * Extended transport end to end

    The ETP round trip between two engines: RTS, then per granted window a
    CTS, a DPO and a burst of offset-relative packets stored into the
    preallocated buffer, then the acknowledgement. *)

From stdpp Require Import base gmap list list_numbers.
From Stdlib Require Import ZArith Lia.
From S2P Require Import Prelude J1939Id J1939Tp J1939TpInv J1939Packet.

Module TpEtp.
Import Id Tp TpInv Packet.

Section etp.
Context {HI : HashIter}.
Context (p : Pgn) (prio sa da : Z) (payload : list Z).
Context (Hsize : ETP_MIN_PAYLOAD ≤ len payload ≤ ETP_PROTOCOL_MAX).
Context (Hpgn : valid_pgn p) (Hsa : is_u 8 sa) (Hda : is_u 8 da).
Context (Hspec : da ≠ GLOBAL_ADDRESS).

Let n := div_ceil (len payload) TP_DT_DATA_LEN.
Let rk : Key := (sa, p).
Let tk : Key := (da, p).
Let rprio := prio mod 8.

Lemma etp_bounds : 256 ≤ n < 2 ^ 24 ∧ len payload ≤ 7 * n < len payload + 7.
Proof.
  unfold n. pose proof (packets_size (len payload) (len_nonneg _)).
  unfold ETP_MIN_PAYLOAD, TP_MAX_PAYLOAD, ETP_PROTOCOL_MAX, TP_DT_DATA_LEN in *.
  split; lia.
Qed.

(** ** The frames on the wire *)

Definition ertsf : TpOutFrame := etp_rts_frame sa da prio p (len payload).
Definition ects (w j : Z) : TpOutFrame := etp_cts_frame da sa rprio p w (j + 1).
Definition edpo (w j : Z) : TpOutFrame := etp_dpo_frame sa da prio p w j.
Definition eeoma : TpOutFrame := etp_eoma_frame da sa rprio p (len payload).
(** Packet [i] of the burst that starts after packet [j]. *)
Definition edt (j i : Z) : TpOutFrame :=
  {| o_wire_pgn := etp_dt_pgn; o_priority := prio; o_source_addr := sa;
     o_dest_addr := Some da; o_data := packet (i + 1) payload (j + i) |}.

Lemma ertsf_id : pgn (wire_id ertsf) = etp_cm_pgn ∧ source_addr (wire_id ertsf) = sa
  ∧ dest_addr (wire_id ertsf) = Some da ∧ priority (wire_id ertsf) = rprio.
Proof. by apply (wire_id_pdu1 ertsf ETP_CM_PGN da). Qed.
Lemma ects_id w j :
  pgn (wire_id (ects w j)) = etp_cm_pgn ∧ source_addr (wire_id (ects w j)) = da.
Proof. by destruct (wire_id_pdu1 (ects w j) ETP_CM_PGN sa) as (? & ? & _). Qed.
Lemma edpo_id w j :
  pgn (wire_id (edpo w j)) = etp_cm_pgn ∧ source_addr (wire_id (edpo w j)) = sa.
Proof. by destruct (wire_id_pdu1 (edpo w j) ETP_CM_PGN da) as (? & ? & _). Qed.
Lemma eeoma_id : pgn (wire_id eeoma) = etp_cm_pgn ∧ source_addr (wire_id eeoma) = da.
Proof. by destruct (wire_id_pdu1 eeoma ETP_CM_PGN sa) as (? & ? & _). Qed.
Lemma edt_id j i :
  pgn (wire_id (edt j i)) = etp_dt_pgn ∧ source_addr (wire_id (edt j i)) = sa.
Proof. by destruct (wire_id_pdu1 (edt j i) ETP_DT_PGN da) as (? & ? & _). Qed.

(** The 32-bit size field. *)
Lemma to_le_4 v : to_le_bytes 4 v =
  [v mod 256; v / 256 mod 256; v / 256 / 256 mod 256; v / 256 / 256 / 256 mod 256].
Proof. done. Qed.

(** ** The sender *)

Definition etx_session (now : Z) : OutboundEtpSession :=
  {| te_transported_pgn := p; te_our_sa := sa; te_dest_sa := da; te_priority := prio;
     te_payload := payload; te_total_packets := n; te_last_activity := now |}.
Definition esending (a : TpEngine) (now : Z) (out : list TpOutFrame) : TpEngine :=
  set_pending_out (set_etp_tx a (<[tk := etx_session now]> (etp_tx a))) out.
Definition esent (a : TpEngine) : TpEngine := set_etp_tx a (delete tk (etp_tx a)).

Lemma estart_eq a now : pending_out a = [] → len payload ≤ max_etp_bytes a →
  start_outbound_etp a p prio sa da payload now = (esending a now [], inl [ertsf]).
Proof.
  intros Ha Hm. pose proof etp_bounds as [Hn _]. unfold start_outbound_etp.
  rewrite (proj2 (in_range_spec _ _ _)) by (destruct Hsize; lia).
  cbn [negb]. fold n. rewrite wrap_small by lia. unfold esending.
  destruct a; simpl in Ha; subst; done.
Qed.

Lemma etp_burst_eq now w j : 0 ≤ j → 1 ≤ w < 256 → j + w ≤ n →
  build_etp_burst (etx_session now) (j + 1) w = Ok (edpo w j :: (edt j <$> seqZ 0 w)).
Proof.
  intros Hj Hw Hjw. pose proof etp_bounds as [Hn1 Hn2]. unfold build_etp_burst.
  cbn [te_total_packets etx_session te_our_sa te_dest_sa te_priority te_transported_pgn].
  unfold sub_chk. rewrite decide_True by lia. unfold mbind at 1, res_bind at 1.
  assert (Z.min (sat_sub (sat_add 32 (j + 1) w) 1) n = j + w) as ->
    by (unfold sat_sub, sat_add; lia).
  assert (sat_add 32 (sat_sub (j + w) (j + 1)) 1 = w) as ->
    by (unfold sat_sub, sat_add; lia).
  rewrite wrap_small by lia. replace (j + 1 - 1) with j by lia.
  rewrite (mapM_total _ (edt j)); [done|].
  intros i Hi%elem_of_seqZ. unfold etp_dt_packet, TP_DT_DATA_LEN.
  cbn [te_payload etx_session]. replace (j + 1 + i - 1) with (j + i) by lia.
  rewrite dt_data_packet by lia. unfold mbind, res_bind. rewrite wrap_small by lia. done.
Qed.

(** The 24-bit field of a control frame, as the receiver reads it. *)
Lemma slice_2_5 (c w b0 b1 b2 p0 p1 p2 : Z) :
  slice [c; w; b0; b1; b2; p0; p1; p2] 2 5 = Ok [b0; b1; b2].
Proof. done. Qed.

Lemma u24_from_bytes x : 0 ≤ x < 2 ^ 24 →
  u24_from [Z.land x 0xFF; Z.land (Z.shiftr x 8) 0xFF; Z.land (Z.shiftr x 16) 0xFF] = Ok x.
Proof.
  intros Hx. unfold u24_from. idx_eval.
  rewrite le3_lor by apply land_255_u8. f_equal. by apply u24_bytes_value.
Qed.

Lemma ects_answered a t now w j out : 1 ≤ w < 256 → 0 ≤ j → j + w ≤ n →
  on_frame (esending a t out) (wire_id (ects w j)) (o_data (ects w j)) now =
    Ok (esending a now (out ++ edpo w j :: (edt j <$> seqZ 0 w)), []).
Proof.
  intros Hw Hj Hjw. destruct (ects_id w j) as [Hp Hs]. pose proof etp_bounds as [Hn _].
  rewrite on_frame_etp_cm by done. unfold ects at 2. unfold etp_cts_frame.
  unfold pgn_bytes, u24_bytes. cbn [o_data app]. rewrite on_etp_cm_control by done.
  ctl_eval. unfold on_etp_cts. rewrite slice_2_5. idx_eval.
  edestruct carried as [-> ->]; [by apply carries_pgn|].
  rewrite u24_from_bytes, Hs by lia. fold tk.
  change (etp_tx (esending a t out)) with (<[tk := etx_session t]> (etp_tx a)).
  rewrite lookup_insert_eq.
  change (touch_etp_tx (etx_session t) now) with (etx_session now).
  rewrite (proj2 (Z.eqb_neq w 0)), (proj2 (Z.eqb_neq (j + 1) 0)) by lia. cbn [orb].
  rewrite etp_burst_eq by lia. rewrite insert_insert_eq. done.
Qed.

Lemma eeoma_answered a t now out :
  on_frame (esending a t out) (wire_id eeoma) (o_data eeoma) now =
    Ok (set_pending_out (esent a) out, []).
Proof.
  destruct eeoma_id as [Hp Hs]. rewrite on_frame_etp_cm by done.
  unfold eeoma at 2. unfold etp_eoma_frame, pgn_bytes.
  rewrite to_le_4. cbn [o_data app]. rewrite on_etp_cm_control by done. ctl_eval. unfold on_etp_eoma.
  idx_eval. edestruct carried as [-> ->]; [by apply carries_pgn|]. rewrite Hs. fold tk.
  change (etp_tx (esending a t out)) with (<[tk := etx_session t]> (etp_tx a)).
  by rewrite delete_insert_eq.
Qed.

(** ** The receiver *)

(** The buffer after [j] packets: the prefix received, then zeroes. *)
Definition filled (j : Z) : list Z :=
  take (Z.to_nat (7 * j)) payload ++ replicate (length payload - Z.to_nat (7 * j)) 0.

Lemma filled_all j : len payload ≤ 7 * j → filled j = payload.
Proof.
  intros. unfold filled, len in *. rewrite take_ge by lia.
  replace (length payload - Z.to_nat (7 * j))%nat with 0%nat by lia. apply app_nil_r.
Qed.

Lemma filled_len j : 0 ≤ j → 7 * j ≤ len payload → len (filled j) = len payload.
Proof.
  intros. unfold filled. rewrite len_app, take_len by done.
  unfold len in *. rewrite length_replicate. lia.
Qed.

Lemma copy_chunk j : 0 ≤ j → 7 * j ≤ len payload →
  copy_at (filled j) (j * 7) (chunk payload j) = Ok (filled (j + 1)).
Proof.
  intros Hj Hl. pose proof (chunk_len payload j Hj) as Hc.
  rewrite copy_at_Ok; [|lia|rewrite filled_len by done; lia].
  pose proof (take_len payload j Hj Hl) as Ht. rewrite (Z.mul_comm j 7). f_equal.
  unfold filled at 1 2. rewrite take_app_length' by (unfold len in Ht; lia).
  rewrite drop_app_ge by (unfold len in Ht; lia). rewrite drop_replicate.
  unfold filled. rewrite <-take_chunk, <-app_assoc by done. do 3 f_equal.
  unfold len in *. lia.
Qed.

Definition erx_session (j dpo br now : Z) : InboundEtpSession :=
  {| re_transported_pgn := p; re_peer_sa := sa; re_our_sa := da; re_priority := rprio;
     re_total_size := len payload; re_total_packets := n; re_next_packet := j + 1;
     re_dpo_offset := dpo; re_burst_remaining := br; re_buf := filled j;
     re_last_activity := now |}.
Definition eawaiting (b : TpEngine) (j dpo br now : Z) (out : list TpOutFrame) : TpEngine :=
  set_pending_out (set_etp_rx b (<[rk := erx_session j dpo br now]> (etp_rx b))) out.
Definition ereceived (b : TpEngine) : TpEngine := set_etp_rx b (delete rk (etp_rx b)).

(** No other ETP session of the sender is open at the receiver. *)
Definition sole_etp (b : TpEngine) : Prop :=
  ∀ k, is_Some (etp_rx b !! k) → k.1 = sa → k = rk.

Definition egrant (b : TpEngine) (j : Z) : Z := etp_grant (n - j) (cts_window b).

Lemma egrant_bounds b j : 1 ≤ cts_window b < 256 → j < n →
  1 ≤ egrant b j < 256 ∧ egrant b j ≤ n - j.
Proof.
  intros. unfold egrant. destruct (etp_grant_bounds (n - j) (cts_window b)); lia.
Qed.

Lemma ertsf_answered b now :
  room b (etp_rx b) rk → pending_out b = [] → len payload ≤ max_etp_bytes b →
  on_frame b (wire_id ertsf) (o_data ertsf) now =
    Ok (eawaiting b 0 0 0 now [ects (egrant b 0) 0], []).
Proof.
  intros Hroom Hout Hm. destruct ertsf_id as (Hp & Hs & Hd & Hpr).
  pose proof etp_bounds as [Hn1 Hn2].
  rewrite on_frame_etp_cm by done. unfold ertsf at 2. unfold etp_rts_frame, pgn_bytes.
  pose proof (from_to_le_bytes 4 (len payload)) as Hle.
  rewrite Z.mod_small in Hle
    by (unfold ETP_PROTOCOL_MAX, ETP_MIN_PAYLOAD, TP_MAX_PAYLOAD in Hsize; lia).
  rewrite to_le_4 in *. cbn [o_data app]. rewrite on_etp_cm_control by done. ctl_eval.
  unfold on_etp_rts, parse_etp_rts, specific_dest. rewrite Hd.
  rewrite (proj2 (Z.eqb_neq _ _)) by done. idx_eval.
  edestruct carried as [-> ->]; [by apply carries_pgn|].
  rewrite Hle, (proj2 (in_range_spec _ _ _) Hsize), Hs, Hpr. cbv iota beta.
  rewrite (proj2 (Z.ltb_ge _ _)) by lia. fold rk. rewrite room_open by done. fold n.
  rewrite wrap_small by lia. unfold egrant. rewrite Z.sub_0_r.
  unfold eawaiting, push_out. cbn [pending_out set_etp_rx]. rewrite Hout.
  unfold erx_session. replace (filled 0) with (replicate (Z.to_nat (len payload)) 0).
  { done. }
  unfold filled, len. by rewrite Nat2Z.id, Nat.sub_0_r.
Qed.

Lemma edpo_answered b j dpo br t w now : 0 ≤ j < n →
  on_frame (eawaiting b j dpo br t []) (wire_id (edpo w j)) (o_data (edpo w j)) now =
    Ok (eawaiting b j j w now [], []).
Proof.
  intros Hj. destruct (edpo_id w j) as [Hp Hs]. pose proof etp_bounds as [Hn _].
  rewrite on_frame_etp_cm by done. unfold edpo at 2. unfold etp_dpo_frame.
  unfold pgn_bytes, u24_bytes. cbn [o_data app]. rewrite on_etp_cm_control by done.
  ctl_eval. unfold on_etp_dpo. rewrite slice_2_5. idx_eval.
  edestruct carried as [-> ->]; [by apply carries_pgn|].
  rewrite u24_from_bytes, Hs by lia. fold rk.
  change (etp_rx (eawaiting b j dpo br t [])) with (<[rk := erx_session j dpo br t]> (etp_rx b)).
  rewrite lookup_insert_eq, insert_insert_eq. done.
Qed.

Lemma find_etp b j dpo br now out : sole_etp b →
  find_sa (etp_rx (eawaiting b j dpo br now out)) sa = Some rk.
Proof.
  intros Hsole.
  change (etp_rx (eawaiting b j dpo br now out))
    with (<[rk := erx_session j dpo br now]> (etp_rx b)).
  apply find_sa_unique; [done|by rewrite lookup_insert_eq|].
  intros k Hk Hk1. destruct (decide (k = rk)); [done|].
  apply Hsole; [|done]. by rewrite lookup_insert_ne in Hk.
Qed.

(** Packet [i] of the burst that starts after packet [j], with [r] packets of
    the burst outstanding. *)
Lemma edt_accepted b j i r now now' :
  sole_etp b → 0 ≤ j → 0 ≤ i < 255 → j + i < n → 1 ≤ r →
  on_frame (eawaiting b (j + i) j r now []) (wire_id (edt j i)) (o_data (edt j i)) now' =
    Ok (if j + i + 1 =? n
        then (set_pending_out (ereceived b) [eeoma], [Completed p sa payload])
        else if r =? 1 then
          let k := j + i + 1 in
          (eawaiting b k j 0 now' [ects (egrant b k) k], [])
        else (eawaiting b (j + i + 1) j (r - 1) now' [], [])).
Proof.
  intros Hsole Hj Hi Hji Hr. destruct (edt_id j i) as (Hp & Hs).
  pose proof etp_bounds as [Hn1 Hn2].
  rewrite on_frame_etp_dt by done. unfold on_etp_dt.
  change (o_data (edt j i)) with (packet (i + 1) payload (j + i)).
  rewrite packet_len, Hs. cbn [Z.eqb]. rewrite packet_head, find_etp by done.
  unfold mbind, res_bind.
  change (etp_rx (eawaiting b (j + i) j r now []))
    with (<[rk := erx_session (j + i) j r now]> (etp_rx b)).
  rewrite lookup_insert_eq. cbn [expect]. unfold etp_dt_step.
  cbn [erx_session re_dpo_offset re_next_packet re_total_packets re_total_size re_buf
    re_burst_remaining re_transported_pgn re_peer_sa re_our_sa re_priority].
  assert (sat_add 32 j (i + 1) = j + i + 1) as -> by (unfold sat_add; lia).
  rewrite Z.eqb_refl, (proj2 (Z.eqb_neq _ _)), (proj2 (Z.ltb_ge _ _)) by lia.
  cbn [negb orb]. rewrite (sub_chk_Ok (j + i + 1) 1) by lia.
  unfold mbind, res_bind, TP_DT_DATA_LEN. replace (j + i + 1 - 1) with (j + i) by lia.
  rewrite (packet_slice _ payload (j + i)).
  2: lia.
  2: { rewrite chunk_len, packet_len by lia. unfold sat_sub. lia. }
  rewrite copy_chunk by lia.
  change (set_etp_rx (eawaiting b (j + i) j r now []))
    with (set_etp_rx (set_pending_out b [])).
  destruct (Z.eqb_spec (j + i + 1) n) as [E|E].
  - rewrite (proj2 (Z.ltb_lt _ _)) by lia. cbn [etp_rx set_etp_rx].
    rewrite insert_insert_eq, lookup_insert_eq, delete_insert_eq. cbn [expect].
    cbn [re_buf re_our_sa re_peer_sa re_priority re_transported_pgn re_total_size].
    by rewrite filled_all by lia.
  - rewrite (proj2 (Z.ltb_ge _ _)) by lia.
    unfold sat_sub. destruct (Z.eqb_spec r 1) as [->|Hr1].
    + change (Z.max 0 (1 - 1) =? 0) with true. rewrite !sub_chk_Ok by lia. cbv iota.
      replace (n - (j + i + 1 + 1 - 1)) with (n - (j + i + 1)) by lia.
      cbn [etp_rx set_etp_rx]. rewrite insert_insert_eq, lookup_insert_eq.
      cbn [expect]. done.
    + rewrite (proj2 (Z.eqb_neq _ _)), Z.max_r by lia. rewrite insert_insert_eq. done.
Qed.

(** ** The exchange *)

(** The rest of a burst of [i + r] packets. *)
Lemma etp_stream b now : sole_etp b →
  ∀ m j i r t, r = Z.of_nat (S m) → 0 ≤ j → 0 ≤ i → i + r < 256 → j + i + r ≤ n →
  deliver (eawaiting b (j + i) j r t []) (edt j <$> seqZ i r) now =
    Ok (let k := j + i + r in
        if k =? n then (set_pending_out (ereceived b) [eeoma], [Completed p sa payload])
        else (eawaiting b k j 0 now [ects (egrant b k) k], [])).
Proof.
  intros Hsole. induction m as [|m IH]; intros j i r t Hr Hj Hi Hir Hn; cbv zeta;
    rewrite seqZ_cons by lia; change (edt j <$> ?x :: ?l) with (edt j x :: (edt j <$> l));
    rewrite deliver_cons, edt_accepted by (done || lia); unfold mbind, res_bind.
  - replace r with 1 by lia. change (seqZ (Z.succ i) (Z.pred 1)) with (@nil Z).
    change (edt j <$> []) with (@nil TpOutFrame).
    by destruct (Z.eqb_spec (j + i + 1) n).
  - rewrite (proj2 (Z.eqb_neq _ _)), (proj2 (Z.eqb_neq r 1)) by lia.
    replace (Z.succ i) with (i + 1) by lia. replace (Z.pred r) with (r - 1) by lia.
    rewrite <-(Z.add_assoc j i 1), IH by lia. cbv zeta.
    replace (j + (i + 1) + (r - 1)) with (j + i + r) by lia.
    by destruct (j + i + r =? n).
Qed.

(** From an outstanding grant, enough rounds finish the transfer. *)
Lemma etp_rounds clk a b : sole_etp b → 1 ≤ cts_window b < 256 →
  pending_out a = [] → pending_out b = [] →
  ∀ r j dpo t t', 0 ≤ j < n → n - j + 1 ≤ Z.of_nat r →
  exchange clk r (esending a t []) (eawaiting b j dpo 0 t' [ects (egrant b j) j]) =
    Ok (esent a, ereceived b, [], [Completed p sa payload]).
Proof.
  intros Hsole Hcw Ha Hb. induction r as [|r IH]; intros j dpo t t' Hj Hr; [lia|].
  destruct (egrant_bounds b j Hcw) as [Hg1 Hg2]; [lia|].
  cbn [exchange]. unfold take_outbound at 1.
  change (set_pending_out (eawaiting b j ?d ?g ?x ?o) []) with (eawaiting b j d g x []).
  change (pending_out (eawaiting b j ?d ?g ?x ?o)) with o. cbv iota beta.
  rewrite deliver_cons, ects_answered by lia. unfold mbind, res_bind.
  rewrite deliver_nil. cbv iota beta. unfold take_outbound at 1.
  change (set_pending_out (esending a ?x ?o) []) with (esending a x []).
  change (pending_out (esending a ?x ?o)) with o. cbv iota beta. cbn [app].
  rewrite deliver_cons, edpo_answered by lia. unfold mbind, res_bind.
  pose proof (etp_stream b (clk r) Hsole (Z.to_nat (egrant b j - 1)) j 0 (egrant b j)
    (clk r)) as Hstream. rewrite !Z.add_0_r in Hstream. rewrite Hstream by lia.
  cbv zeta. destruct (Z.eqb_spec (j + egrant b j) n) as [E|E].
  - destruct r as [|r]; [lia|]. cbn [exchange]. unfold take_outbound at 1.
    cbn [pending_out set_pending_out]. cbv iota beta.
    rewrite deliver_cons, eeoma_answered. unfold mbind, res_bind. rewrite deliver_nil.
    rewrite set_out_eta by done. rewrite take_outbound_nil, deliver_nil by done.
    change (set_pending_out (set_pending_out (ereceived b) [eeoma]) [])
      with (set_pending_out (ereceived b) []). rewrite set_out_eta by done.
    by rewrite exchange_idle.
  - by rewrite IH by lia.
Qed.
End etp.

(** ETP round trip: for every payload of 1786 bytes up to the smaller of
    the protocol maximum and both ends' caps, whatever window the receiver
    grants, the transfer completes: the payload is reported exactly once, the
    exchange ends within one round per packet plus the acknowledgement, and no
    session and no frame is left at either end. *)
Theorem etp_roundtrip {HI : HashIter} (a b : TpEngine) (p : Pgn)
    (prio sa da : Z) (payload : list Z) (t0 t1 : Z) (clk : nat → Z) (rounds : nat) :
  ETP_MIN_PAYLOAD ≤ len payload ≤ ETP_PROTOCOL_MAX →
  len payload ≤ max_etp_bytes a → len payload ≤ max_etp_bytes b →
  valid_pgn p → is_u 8 sa → is_u 8 da → da ≠ GLOBAL_ADDRESS →
  pending_out a = [] → pending_out b = [] →
  1 ≤ cts_window b < 256 → room b (etp_rx b) (sa, p) → sole_etp p sa b →
  div_ceil (len payload) TP_DT_DATA_LEN + 1 ≤ Z.of_nat rounds →
  ∃ a1 rts b1,
    start_outbound_etp a p prio sa da payload t0 = (a1, inl rts)
    ∧ deliver b rts t1 = Ok (b1, [])
    ∧ exchange clk rounds a1 b1 =
        Ok (set_etp_tx a (delete (da, p) (etp_tx a)),
            set_etp_rx b (delete (sa, p) (etp_rx b)),
            [], [Completed p sa payload]).
Proof.
  intros Hsize Hma Hmb Hp Hsa Hda Hspec Ha Hb Hcw Hroom Hsole Hr.
  pose proof (etp_packets _ Hsize) as Hn.
  eexists _, _, _. split_and!.
  - by apply estart_eq.
  - rewrite deliver_cons, ertsf_answered by done. unfold mbind, res_bind.
    by rewrite deliver_nil.
  - apply etp_rounds; try done; lia.
Qed.

Definition payload_1900 : list Z := (λ x, x mod 251) <$> seqZ 0 1900.
Definition wide_receiver : TpEngine := with_cts_window (new TpTimers_default 8) 255.

Lemma etp_roundtrip_witness :
  ∃ a1 rts b1,
    start_outbound_etp (new TpTimers_default 8) (MkPgn 61184) 6 0x10 0x20
      payload_1900 0 = (a1, inl rts)
    ∧ deliver wide_receiver rts 5 = Ok (b1, [])
    ∧ exchange Z.of_nat 300 a1 b1 =
        Ok (new TpTimers_default 8, wide_receiver, [],
            [Completed (MkPgn 61184) 0x10 payload_1900]).
Proof.
  apply (etp_roundtrip (new TpTimers_default 8) wide_receiver (MkPgn 61184)
           6 0x10 0x20 payload_1900 0 5 Z.of_nat 300).
  1-7,10,13: by vm_compute.
  1,2: reflexivity.
  - right. by vm_compute.
  - intros k [s Hs]. simpl in Hs. by rewrite lookup_empty in Hs.
Defined.
End TpEtp.
