(* ===== verification/J1939AddrClaim.v ===== *)
(** * The J1939-81 address-claim engine

    Models [taktora-connector-j1939/src/addr_claim.rs]: the claim state
    machine [AddrClaimEngine], the shared [ClaimGate] and the frames the
    engine queues, what each step does to the claim, and when an engine gives
    its address up. *)

From stdpp Require Import base list list_numbers.
From Stdlib Require Import ZArith Lia.
From S2P Require Import Prelude J1939Id.

Module AddrClaim.
Import Id.

Definition ADDRESS_CLAIMED_PGN : Z := 60928.
Definition REQUEST_PGN : Z := 59904.
Definition COMMANDED_ADDRESS_PGN : Z := 65240.
Definition NULL_ADDRESS : Z := 0xFE.
Definition ADDRESS_CLAIM_PRIORITY : Z := 6.
Definition DEFAULT_CLAIM_WAIT : Z := 250 * 1000000.
Definition REQUEST_FOR_ADDRESS_CLAIMED : list Z := [0x00; 0xEE; 0x00].

Inductive ClaimState :=
| Claiming
| Claimed
| CannotClaim.
#[export] Instance ClaimState_eq_dec : EqDecision ClaimState.
Proof. solve_decision. Defined.

Definition state_as_u8 (s : ClaimState) : Z :=
  match s with Claiming => 0 | Claimed => 1 | CannotClaim => 2 end.
Definition state_from_u8 (v : Z) : ClaimState :=
  if v =? 1 then Claimed else if v =? 2 then CannotClaim else Claiming.

Inductive AcEvent :=
| EvClaiming (source_addr : Z)
| EvClaimed (source_addr : Z)
| EvCannotClaim.
#[export] Instance AcEvent_eq_dec : EqDecision AcEvent.
Proof. solve_decision. Defined.

Record AcOutFrame := MkAcOut {
  a_wire_pgn : Pgn;
  a_priority : Z;
  a_source_addr : Z;
  a_dest_addr : option Z;
  a_data : list Z;
}.
#[export] Instance AcOutFrame_eq_dec : EqDecision AcOutFrame.
Proof. solve_decision. Defined.

(** ** The gate: an atomic byte *)

Record ClaimGate := MkGate { gate_byte : Z }.
Definition gate_new : ClaimGate := MkGate (state_as_u8 Claiming).
Definition gate_state (g : ClaimGate) : ClaimState := state_from_u8 (gate_byte g).
Definition gate_set (g : ClaimGate) (s : ClaimState) : ClaimGate := MkGate (state_as_u8 s).
Definition is_claimed (g : ClaimGate) : bool := bool_decide (gate_state g = Claimed).

(** ** The engine *)

Record AddrClaimEngine := MkAc {
  ac_name : Z;
  current_sa : Z;
  ac_state : ClaimState;
  claim_wait : Z;
  started_at : option Z;
  ac_priority : Z;
  out : list AcOutFrame;
}.

Definition ac_new (configured_sa name claim_wait : Z) : AddrClaimEngine :=
  {| ac_name := name; current_sa := configured_sa; ac_state := Claiming;
     claim_wait := claim_wait; started_at := None;
     ac_priority := ADDRESS_CLAIM_PRIORITY; out := [] |}.

Definition set_claim (e : AddrClaimEngine) (sa : Z) (s : ClaimState) (st : option Z) :=
  MkAc (ac_name e) sa s (claim_wait e) st (ac_priority e) (out e).
Definition set_out (e : AddrClaimEngine) (fs : list AcOutFrame) :=
  MkAc (ac_name e) (current_sa e) (ac_state e) (claim_wait e) (started_at e)
    (ac_priority e) fs.

Definition ac_take_outbound (e : AddrClaimEngine) : AddrClaimEngine * list AcOutFrame :=
  (set_out e [], out e).

Definition address_claimed_frame (e : AddrClaimEngine) (sa : Z) : AcOutFrame :=
  {| a_wire_pgn := match Pgn_new ADDRESS_CLAIMED_PGN with
                   | inl p => p | inr _ => Pgn_ZERO end;
     a_priority := ac_priority e; a_source_addr := sa;
     a_dest_addr := Some GLOBAL_ADDRESS; a_data := to_le_bytes 8 (ac_name e) |}.
Definition emit_address_claimed (e : AddrClaimEngine) (sa : Z) : AddrClaimEngine :=
  set_out e (out e ++ [address_claimed_frame e sa]).
Definition emit_cannot_claim (e : AddrClaimEngine) : AddrClaimEngine :=
  set_out e (out e ++ [address_claimed_frame e NULL_ADDRESS]).

Definition poll (e : AddrClaimEngine) (now : Z) : AddrClaimEngine * list AcEvent :=
  if decide (ac_state e ≠ Claiming) then (e, [])
  else
    match started_at e with
    | None =>
        let e := set_claim e (current_sa e) (ac_state e) (Some now) in
        (emit_address_claimed e (current_sa e), [EvClaiming (current_sa e)])
    | Some start =>
        if claim_wait e <=? sat_sub now start then
          (set_claim e (current_sa e) Claimed (started_at e), [EvClaimed (current_sa e)])
        else (e, [])
    end.

(** [u64::from_le_bytes(data[..8].try_into().expect(..))]. *)
Definition name_of (data : list Z) : res Z :=
  b ← slice data 0 8; Ok (from_le_bytes b).

Definition on_address_claimed (e : AddrClaimEngine) (competitor_sa : Z) (data : list Z)
    : res (AddrClaimEngine * list AcEvent) :=
  if bool_decide (ac_state e = CannotClaim) || negb (competitor_sa =? current_sa e)
     || (len data <? 8)
  then Ok (e, [])
  else
    competitor_name ← name_of data;
    if competitor_name =? ac_name e then Ok (e, [])
    else if competitor_name <? ac_name e then
      Ok (emit_cannot_claim (set_claim e NULL_ADDRESS CannotClaim None), [EvCannotClaim])
    else Ok (emit_address_claimed e (current_sa e), []).

Definition on_request (e : AddrClaimEngine) (data : list Z) : res AddrClaimEngine :=
  if len data <? 3 then Ok e
  else
    b ← slice data 0 3;
    if decide (b ≠ REQUEST_FOR_ADDRESS_CLAIMED) then Ok e
    else Ok match ac_state e with
            | CannotClaim => emit_cannot_claim e
            | Claiming | Claimed => emit_address_claimed e (current_sa e)
            end.

Definition on_commanded_address (e : AddrClaimEngine) (data : list Z) (now : Z)
    : res (AddrClaimEngine * list AcEvent) :=
  if len data <? 9 then Ok (e, [])
  else
    target_name ← name_of data;
    if negb (target_name =? ac_name e) then Ok (e, [])
    else
      new_sa ← idx data 8;
      let e := set_claim e new_sa Claiming (Some now) in
      Ok (emit_address_claimed e new_sa, [EvClaiming new_sa]).

Definition ac_on_frame (e : AddrClaimEngine) (d : DecodedId) (data : list Z) (now : Z)
    : res (AddrClaimEngine * list AcEvent) :=
  let v := value (pgn d) in
  if v =? ADDRESS_CLAIMED_PGN then on_address_claimed e (source_addr d) data
  else if v =? REQUEST_PGN then e ← on_request e data; Ok (e, [])
  else if v =? COMMANDED_ADDRESS_PGN then on_commanded_address e data now
  else Ok (e, []).

(** ** What one step does *)

(** An engine that has announced an address and not ceded it. *)
Definition owner (e : AddrClaimEngine) (sa : Z) : Prop :=
  ac_state e ≠ CannotClaim ∧ is_Some (started_at e) ∧ current_sa e = sa.

(** The state the events describe, from the previous state on. *)
Definition after_event (s : ClaimState) (ev : AcEvent) : ClaimState :=
  match ev with
  | EvClaiming _ => Claiming | EvClaimed _ => Claimed | EvCannotClaim => CannotClaim
  end.

(** A frame that takes the address away: an Address Claimed for the engine's
    own address with a strictly lower NAME. *)
Definition outranked (e : AddrClaimEngine) (d : DecodedId) (data : list Z) : Prop :=
  value (pgn d) = ADDRESS_CLAIMED_PGN ∧ source_addr d = current_sa e ∧ 8 ≤ len data
  ∧ from_le_bytes (take 8 data) < ac_name e.

(** A Commanded Address for this engine. *)
Definition commanded (e : AddrClaimEngine) (d : DecodedId) (data : list Z) : Prop :=
  value (pgn d) = COMMANDED_ADDRESS_PGN ∧ 9 ≤ len data
  ∧ from_le_bytes (take 8 data) = ac_name e.

Record wf_claim (e : AddrClaimEngine) : Prop := {
  wf_null : ac_state e = CannotClaim → current_sa e = NULL_ADDRESS ∧ started_at e = None;
  wf_started : ac_state e = Claimed → is_Some (started_at e);
  wf_name : is_u 64 (ac_name e);
  wf_sa : is_u 8 (current_sa e);
  wf_prio : ac_priority e = ADDRESS_CLAIM_PRIORITY;
  wf_out : Forall (λ f, ∃ sa, is_u 8 sa ∧ f = address_claimed_frame e sa) (out e);
}.

(** The relation every step satisfies. *)
Record steps (e e' : AddrClaimEngine) (evs : list AcEvent) : Prop := {
  st_name : ac_name e' = ac_name e;
  st_prio : ac_priority e' = ac_priority e;
  st_wait : claim_wait e' = claim_wait e;
  st_out : ∃ fs, out e' = out e ++ fs
    ∧ ∀ sa, owner e' sa → owner e sa ∨ address_claimed_frame e sa ∈ fs;
  st_state : ac_state e' = foldl after_event (ac_state e) evs;
}.

Lemma frame_ext e e' sa : ac_name e' = ac_name e → ac_priority e' = ac_priority e →
  address_claimed_frame e' sa = address_claimed_frame e sa.
Proof. unfold address_claimed_frame. by intros -> ->. Qed.

Lemma steps_refl e : steps e e [].
Proof.
  split; try done. exists []. rewrite app_nil_r. split; [done|]. auto.
Qed.

Lemma name_of_eq data : 8 ≤ len data → name_of data = Ok (from_le_bytes (take 8 data)).
Proof. intros. unfold name_of. rewrite slice_Ok by lia. done. Qed.

Lemma poll_steps e now : steps e (poll e now).1 (poll e now).2.
Proof.
  unfold poll. destruct (decide (ac_state e ≠ Claiming)) as [|Hs]; [apply steps_refl|].
  apply dec_stable in Hs. destruct (started_at e) as [t|] eqn:Ht.
  - destruct (claim_wait e <=? sat_sub now t); [|apply steps_refl].
    split; try done. exists []. simpl. rewrite app_nil_r. split; [done|].
    intros sa (_ & _ & <-). left. split_and!; [by rewrite Hs|by rewrite Ht|done].
  - split; try done. eexists. split; [done|]. simpl.
    intros sa (_ & _ & <-). right. by apply list_elem_of_singleton.
Qed.

Lemma on_address_claimed_steps e sa data :
  wp (on_address_claimed e sa data) (λ r, steps e r.1 r.2).
Proof.
  unfold on_address_claimed.
  destruct (bool_decide _) eqn:Hc; [apply steps_refl|]. apply bool_decide_eq_false in Hc.
  destruct (Z.eqb_spec sa (current_sa e)) as [->|]; [|apply steps_refl].
  destruct (Z.ltb_spec (len data) 8); [apply steps_refl|]. simpl.
  rewrite name_of_eq by done. simpl.
  destruct (_ =? _); [apply steps_refl|]. destruct (_ <? _).
  - split; try done. eexists. split; [done|]. by intros sa (Hn & _).
  - split; try done. eexists. split; [done|]. intros sa Ho. by left.
Qed.

Lemma on_request_steps e data : wp (on_request e data) (λ e', steps e e' []).
Proof.
  unfold on_request. destruct (Z.ltb_spec (len data) 3); [apply steps_refl|].
  rewrite slice_Ok by lia. simpl. case_decide; [apply steps_refl|].
  destruct (ac_state e) eqn:Hs; (split; try done; eexists; split; [done|]);
    intros sa Ho; by left.
Qed.

Lemma on_commanded_address_steps e data now :
  wp (on_commanded_address e data now) (λ r, steps e r.1 r.2).
Proof.
  unfold on_commanded_address. destruct (Z.ltb_spec (len data) 9); [apply steps_refl|].
  rewrite name_of_eq by lia. simpl. destruct (_ =? _); [|apply steps_refl]. simpl.
  apply wp_bind. apply wp_idx; [lia|]. intros b _. split; try done.
  eexists. split; [done|]. intros sa (_ & _ & <-). right. by apply list_elem_of_singleton.
Qed.

Lemma ac_on_frame_steps e d data now :
  wp (ac_on_frame e d data now) (λ r, steps e r.1 r.2).
Proof.
  unfold ac_on_frame. repeat case_match.
  - apply on_address_claimed_steps.
  - apply wp_bind. eapply wp_mono; [apply on_request_steps|]. done.
  - apply on_commanded_address_steps.
  - apply steps_refl.
Qed.

(** ** The invariant *)

Lemma wf_emit e sa : wf_claim e → is_u 8 sa → wf_claim (emit_address_claimed e sa).
Proof.
  intros [] Hsa. split; try done. simpl. apply Forall_app. split; [done|].
  constructor; [|constructor]. by exists sa.
Qed.

Lemma wf_set_claim e sa s st : wf_claim e → is_u 8 sa →
  (s = CannotClaim → sa = NULL_ADDRESS ∧ st = None) → (s = Claimed → is_Some st) →
  wf_claim (set_claim e sa s st).
Proof. intros [] ???. by split. Qed.

Lemma ac_new_wf sa name wait : is_u 8 sa → is_u 64 name → wf_claim (ac_new sa name wait).
Proof. intros. split; simpl; done. Qed.

Lemma poll_wf e now : wf_claim e → wf_claim (poll e now).1.
Proof.
  intros Hwf. pose proof (wf_sa _ Hwf) as Hsa. unfold poll.
  case_decide as Hs; [done|].
  destruct (started_at e) as [t|] eqn:Ht.
  - destruct (_ <=? _); [|done]. apply wf_set_claim; eauto; done.
  - apply wf_emit; [|done]. apply wf_set_claim; [done..|by rewrite Hs|by rewrite Hs].
Qed.

Lemma ac_on_frame_wf e d data now : wf_claim e → is_bytes data →
  wp (ac_on_frame e d data now) (λ r, wf_claim r.1).
Proof.
  intros Hwf Hd. pose proof (wf_sa _ Hwf) as Hsa. unfold ac_on_frame.
  destruct (_ =? _); [|destruct (_ =? _); [|destruct (_ =? _); [|done]]].
  - unfold on_address_claimed. destruct (_ || _) eqn:E; [done|].
    apply orb_false_iff in E as [_ E%Z.ltb_ge]. rewrite name_of_eq by done. simpl.
    destruct (_ =? _); [done|]. destruct (_ <? _); [|by apply wf_emit].
    apply (wf_emit (set_claim e NULL_ADDRESS CannotClaim None)); [|done].
    by apply wf_set_claim.
  - apply wp_bind. unfold on_request. destruct (Z.ltb_spec (len data) 3); [done|].
    rewrite slice_Ok by lia. simpl. case_decide; [done|].
    destruct (ac_state e); apply wf_emit; done.
  - unfold on_commanded_address. destruct (Z.ltb_spec (len data) 9); [done|].
    rewrite name_of_eq by lia. simpl. destruct (_ =? _); [|done]. simpl.
    apply wp_bind. apply wp_idx; [lia|]. intros b Hb. simpl.
    apply wf_emit; [|by eapply is_bytes_lookup].
    apply wf_set_claim; [done|by eapply is_bytes_lookup|done|done].
Qed.

(** ** Theorems on one engine *)

(** The four claim PGNs are distinct, so the frame handlers exclude each
    other. *)
Lemma ac_on_frame_claim e d data now : value (pgn d) = ADDRESS_CLAIMED_PGN →
  ac_on_frame e d data now = on_address_claimed e (source_addr d) data.
Proof. unfold ac_on_frame. by intros ->. Qed.

(** An Address Claimed for the engine's own address, from another NAME. *)
Lemma arbitrate e d data now :
  value (pgn d) = ADDRESS_CLAIMED_PGN → source_addr d = current_sa e → 8 ≤ len data →
  ac_state e ≠ CannotClaim → from_le_bytes (take 8 data) ≠ ac_name e →
  ac_on_frame e d data now =
    Ok (if from_le_bytes (take 8 data) <? ac_name e
        then (emit_cannot_claim (set_claim e NULL_ADDRESS CannotClaim None), [EvCannotClaim])
        else (emit_address_claimed e (current_sa e), [])).
Proof.
  intros Hp Hs Hl Hc Hn. rewrite ac_on_frame_claim by done. unfold on_address_claimed.
  rewrite bool_decide_false by done. rewrite Hs, Z.eqb_refl, (proj2 (Z.ltb_ge _ _)) by lia.
  simpl. rewrite name_of_eq by done. simpl. rewrite (proj2 (Z.eqb_neq _ _)) by done.
  by destruct (_ <? _).
Qed.

(** Exactly what makes an engine give up its address: from a state that is
    not [CannotClaim], a frame leads to [CannotClaim] if and only if it is an
    Address Claimed for the engine's own address carrying a strictly lower
    NAME; every other frame, whatever its bytes, leaves the claim standing. *)
Theorem ac_cedes_iff e d data now :
  ac_state e ≠ CannotClaim →
  ∃ e' evs, ac_on_frame e d data now = Ok (e', evs)
    ∧ (ac_state e' = CannotClaim ↔ outranked e d data)
    ∧ (ac_state e' = CannotClaim → evs = [EvCannotClaim] ∧ current_sa e' = NULL_ADDRESS).
Proof.
  intros Hs. unfold outranked, ac_on_frame.
  destruct (Z.eqb_spec (value (pgn d)) ADDRESS_CLAIMED_PGN) as [Hp|Hp];
    [|destruct (Z.eqb_spec (value (pgn d)) REQUEST_PGN);
        [|destruct (Z.eqb_spec (value (pgn d)) COMMANDED_ADDRESS_PGN)]].
  - destruct (decide (source_addr d = current_sa e ∧ 8 ≤ len data
                      ∧ from_le_bytes (take 8 data) ≠ ac_name e)) as [(H1 & H2 & H3)|Hn].
    + rewrite <-(ac_on_frame_claim e d data now) by done. rewrite arbitrate by done.
      destruct (Z.ltb_spec (from_le_bytes (take 8 data)) (ac_name e)).
      * eexists _, _. split; [done|]. simpl. naive_solver.
      * eexists _, _. split; [done|]. simpl. naive_solver lia.
    + exists e, []. split; [|naive_solver lia]. unfold on_address_claimed.
      destruct (bool_decide _); [done|].
      destruct (Z.eqb_spec (source_addr d) (current_sa e)); [|done].
      destruct (Z.ltb_spec (len data) 8); [done|]. simpl. rewrite name_of_eq by done.
      simpl. rewrite (proj2 (Z.eqb_eq _ _)); [done|]. apply dec_stable. naive_solver.
  - destruct (wp_exists _ _ (on_request_steps e data)) as (e' & -> & Hst).
    exists e', []. split; [done|]. rewrite (st_state _ _ _ Hst). simpl. naive_solver.
  - destruct (wp_exists _ _ (on_commanded_address_steps e data now)) as ([e' evs] & He & Hst).
    exists e', evs. split; [done|]. destruct Hst as [_ _ _ _ Hst]. simpl in Hst.
    revert He Hst. unfold on_commanded_address.
    destruct (_ <? _); [naive_solver|]. unfold mbind, res_bind.
    destruct (name_of data); [|done]. destruct (negb _); [naive_solver|].
    destruct (idx data 8); [|done]. intros [= <- <-]. simpl. naive_solver.
  - exists e, []. naive_solver.
Qed.


Lemma ac_cedes_iff_witness :
  ∃ e' evs,
    ac_on_frame (ac_new 0x80 500 0)
      {| priority := 6; d_pdu_format := 0xEE; pgn := MkPgn ADDRESS_CLAIMED_PGN;
         source_addr := 0x80; dest_addr := Some GLOBAL_ADDRESS |} (to_le_bytes 8 7) 0
      = Ok (e', evs)
    ∧ ac_state e' = CannotClaim ∧ evs = [EvCannotClaim].
Proof.
  edestruct (ac_cedes_iff (ac_new 0x80 500 0)
      {| priority := 6; d_pdu_format := 0xEE; pgn := MkPgn ADDRESS_CLAIMED_PGN;
         source_addr := 0x80; dest_addr := Some GLOBAL_ADDRESS |} (to_le_bytes 8 7) 0)
    as (e' & evs & He & [_ Hiff] & Hc); [discriminate|].
  assert (ac_state e' = CannotClaim) as Hs by (apply Hiff; by vm_compute).
  exists e', evs. split; [exact He|]. split; [exact Hs|]. by apply Hc.
Defined.

End AddrClaim.
