(* ===== verification/J1939ClaimBus.v ===== *)
(** * Address claim on a bus

    Several claim engines on one bus, each with its queue of frames still to
    be transmitted and its inbox of frames still to be handled.  Polls,
    transmissions and receptions interleave in any order, and frames of nodes
    outside the model may arrive at any time.  Whenever the bus is quiet no
    two engines own the same address, and without outside frames the engine
    with the lowest NAME never cedes. *)

From stdpp Require Import base list list_numbers relations.
From Stdlib Require Import ZArith Lia.
From S2P Require Import Prelude J1939Id J1939AddrClaim.

Module ClaimBus.
Import Id AddrClaim.

Record node := MkNode {
  eng : AddrClaimEngine;
  inbox : list (DecodedId * list Z);
}.

(** The identifier a receiver decodes for a claim frame. *)
Definition ac_wire_id (f : AcOutFrame) : DecodedId :=
  decode_extended_id
    (encode_extended_id (a_wire_pgn f) (a_priority f) (a_source_addr f) (a_dest_addr f)).

Definition set_eng (nd : node) (e : AddrClaimEngine) : node := MkNode e (inbox nd).

(** A frame of node [i] enters the inbox of every other node. *)
Definition broadcast (i : nat) (f : AcOutFrame) (b : list node) : list node :=
  imap (λ j nd, if decide (j = i) then nd
                else MkNode (eng nd) (inbox nd ++ [(ac_wire_id f, a_data f)])) b.

Section bus.
(** Which frames of outside nodes may arrive. *)
Context (foreign : DecodedId → list Z → Prop).

Inductive bus_step (b : list node) : list node → Prop :=
| bus_poll i nd now :
    b !! i = Some nd →
    bus_step b (<[i := set_eng nd (poll (eng nd) now).1]> b)
| bus_send i nd f fs :
    b !! i = Some nd → out (eng nd) = f :: fs →
    bus_step b (broadcast i f (<[i := set_eng nd (set_out (eng nd) fs)]> b))
| bus_recv i nd d data q now e evs :
    b !! i = Some nd → inbox nd = (d, data) :: q →
    ac_on_frame (eng nd) d data now = Ok (e, evs) →
    bus_step b (<[i := MkNode e q]> b)
| bus_foreign i nd d data now e evs :
    b !! i = Some nd → foreign d data → is_bytes data →
    ac_on_frame (eng nd) d data now = Ok (e, evs) →
    bus_step b (<[i := set_eng nd e]> b).

(** Fresh engines with distinct NAMEs. *)
Definition bus_init (b : list node) : Prop :=
  NoDup ((λ nd, ac_name (eng nd)) <$> b)
  ∧ Forall (λ nd, ∃ sa name wait, is_u 8 sa ∧ is_u 64 name
              ∧ nd = MkNode (ac_new sa name wait) []) b.

Definition bus_reachable (b : list node) : Prop :=
  ∃ b0, bus_init b0 ∧ rtc bus_step b0 b.

Definition quiet (b : list node) : Prop :=
  Forall (λ nd, out (eng nd) = [] ∧ inbox nd = []) b.

(** ** In-flight claims *)

Definition claim_msg (d : DecodedId) (data : list Z) (name sa : Z) : Prop :=
  value (pgn d) = ADDRESS_CLAIMED_PGN ∧ source_addr d = sa ∧ data = to_le_bytes 8 name.

(** The claim of [nd] on [sa] is on its way to [nd']. *)
Definition pending (nd nd' : node) (sa : Z) : Prop :=
  address_claimed_frame (eng nd) sa ∈ out (eng nd)
  ∨ ∃ d data, (d, data) ∈ inbox nd' ∧ claim_msg d data (ac_name (eng nd)) sa.

Definition settled (nd nd' : node) : Prop :=
  ∀ sa, owner (eng nd) sa → owner (eng nd') sa → pending nd nd' sa ∨ pending nd' nd sa.

Record bus_inv (b : list node) : Prop := {
  bi_names : NoDup ((λ nd, ac_name (eng nd)) <$> b);
  bi_wf : Forall (λ nd, wf_claim (eng nd)) b;
  bi_bytes : Forall (λ nd, Forall (λ m, is_bytes m.2) (inbox nd)) b;
  bi_settled : ∀ i j nd nd', i ≠ j → b !! i = Some nd → b !! j = Some nd' → settled nd nd';
}.

Lemma settled_sym nd nd' : settled nd nd' → settled nd' nd.
Proof. intros H sa H1 H2. destruct (H sa H2 H1); auto. Qed.

Lemma claim_frame_wire e sa : wf_claim e → is_u 8 sa →
  claim_msg (ac_wire_id (address_claimed_frame e sa))
    (a_data (address_claimed_frame e sa)) (ac_name e) sa.
Proof.
  intros Hwf Hsa. split_and!; [..|done];
    unfold ac_wire_id, address_claimed_frame; cbn [a_wire_pgn a_priority a_source_addr a_dest_addr];
    rewrite (wf_prio _ Hwf); change (Pgn_new ADDRESS_CLAIMED_PGN) with (@inl Pgn PgnError (MkPgn ADDRESS_CLAIMED_PGN));
    cbv iota; rewrite decode_encode by done; done.
Qed.

(** An own engine step: the queue grows, and an address newly owned has just
    been announced. *)
Lemma settled_step nd e evs nd' :
  steps (eng nd) e evs → settled nd nd' → settled (set_eng nd e) nd'.
Proof.
  intros [Hn Hp _ (fs & Hout & Hown) _] Hset sa Ho Ho'. simpl in Ho.
  destruct (Hown sa Ho) as [Hold|Hnew].
  - destruct (Hset sa Hold Ho') as [[Hf|(d & data & Hd & Hc)]|[Hf|(d & data & Hd & Hc)]].
    + left; left. simpl. rewrite Hout, (frame_ext (eng nd)) by done.
      apply elem_of_app. by left.
    + left; right. exists d, data. simpl. by rewrite Hn.
    + right; left. done.
    + right; right. exists d, data. done.
  - left; left. simpl. rewrite Hout, (frame_ext (eng nd)) by done.
    apply elem_of_app. by right.
Qed.

(** Handling the first message: a competing claim is answered or obeyed. *)
Lemma settled_recv nd d data q now e evs nd' :
  wf_claim (eng nd) → wf_claim (eng nd') → ac_name (eng nd') ≠ ac_name (eng nd) →
  inbox nd = (d, data) :: q → ac_on_frame (eng nd) d data now = Ok (e, evs) →
  settled nd nd' → settled (MkNode e q) nd'.
Proof.
  intros Hwf Hwf' Hne Hq He Hset.
  pose proof (wp_elim _ _ _ (ac_on_frame_steps (eng nd) d data now) He) as Hst.
  pose proof (settled_step _ _ _ _ Hst Hset) as Hset'. destruct Hst as [Hn Hp _ Hout _].
  simpl in Hn, Hp, Hout. destruct Hout as (fs & Hout & Hown).
  intros sa Ho Ho'. simpl in Ho. destruct (Hset' sa Ho Ho') as [[Hf|Hf]|[Hf|(d' & data' & Hd & Hc)]].
  - by left; left.
  - by left; right.
  - by right; left.
  - simpl in Hd. rewrite Hq in Hd. apply elem_of_cons in Hd as [[= -> ->]|Hd].
    2: { right; right. exists d', data'. done. }
    destruct Hc as (Hpg & Hsa & ->). destruct (Hown sa Ho) as [(Hs1 & Hs2 & Hs3)|Hnew].
    2: { left; left. simpl. rewrite Hout, (frame_ext (eng nd)) by done.
         apply elem_of_app. by right. }
    assert (take 8 (to_le_bytes 8 (ac_name (eng nd'))) = to_le_bytes 8 (ac_name (eng nd')))
      as Htk by (apply take_ge; by rewrite to_le_bytes_length).
    assert (from_le_bytes (to_le_bytes 8 (ac_name (eng nd'))) = ac_name (eng nd')) as Hnm.
    { rewrite from_to_le_bytes. apply Z.mod_small. apply (wf_name _ Hwf'). }
    rewrite arbitrate in He; [|done|congruence|by unfold len; rewrite to_le_bytes_length|done
      |by rewrite Htk, Hnm].
    rewrite Htk, Hnm in He. destruct (_ <? _); injection He as <- <-.
    + by destruct Ho as [Ho _].
    + left; left. simpl. apply elem_of_app. right. rewrite Hs3.
      by apply list_elem_of_singleton.
Qed.

(** ** Preservation *)

Lemma names_insert (b : list node) (i : nat) nd nd' : b !! i = Some nd → ac_name (eng nd') = ac_name (eng nd) →
  ((λ nd, ac_name (eng nd)) <$> <[i := nd']> b) = ((λ nd, ac_name (eng nd)) <$> b).
Proof.
  intros Hi Hn. rewrite list_fmap_insert. apply list_insert_id.
  rewrite list_lookup_fmap, Hi. simpl. by rewrite Hn.
Qed.

(** Replacing one node by one that is settled with every other. *)
Lemma bus_inv_insert b (i : nat) nd nd' :
  bus_inv b → b !! i = Some nd → ac_name (eng nd') = ac_name (eng nd) →
  wf_claim (eng nd') → Forall (λ m, is_bytes m.2) (inbox nd') →
  (∀ j nd2, i ≠ j → b !! j = Some nd2 → settled nd' nd2) →
  bus_inv (<[i := nd']> b).
Proof.
  intros [Hnm Hwf Hby Hset] Hi Hn Hwf' Hby' Hset'. split.
  - by rewrite (names_insert b i nd).
  - by apply Forall_insert.
  - by apply Forall_insert.
  - intros j k nj nk Hjk Hj Hk.
    apply list_lookup_insert_Some in Hj as [(<- & <- & Hlt)|[Hij Hj]];
      apply list_lookup_insert_Some in Hk as [(<- & <- & _)|[Hik Hk]]; try done.
    + by apply (Hset' k).
    + apply settled_sym. by apply (Hset' j).
    + by apply (Hset j k).
Qed.

Lemma names_ne b (i j : nat) nd nd' : bus_inv b → i ≠ j → b !! i = Some nd → b !! j = Some nd' →
  ac_name (eng nd') ≠ ac_name (eng nd).
Proof.
  intros [Hnm _ _ _] Hij Hi Hj Heq. apply Hij.
  eapply (NoDup_lookup _ i j (ac_name (eng nd)) Hnm); rewrite list_lookup_fmap.
  - by rewrite Hi.
  - rewrite Hj. simpl. by rewrite Heq.
Qed.

Lemma broadcast_lookup i f b (j : nat) nd' : broadcast i f b !! j = Some nd' →
  ∃ nd, b !! j = Some nd ∧ eng nd' = eng nd
    ∧ inbox nd' = inbox nd ++ (if decide (j = i) then [] else [(ac_wire_id f, a_data f)]).
Proof.
  unfold broadcast. rewrite list_lookup_imap. destruct (b !! j) as [nd|]; [|done].
  intros [= <-]. exists nd. case_decide; simpl; [|done]. by rewrite app_nil_r.
Qed.

(** Transmitting a frame moves the claim from the queue to the inboxes. *)
Lemma pending_send b (i : nat) nd f fs (j k : nat) nj nk mj mk sa :
  bus_inv b → b !! i = Some nd → out (eng nd) = f :: fs → j ≠ k →
  b !! j = Some mj → b !! k = Some mk →
  broadcast i f (<[i := set_eng nd (set_out (eng nd) fs)]> b) !! j = Some nj →
  broadcast i f (<[i := set_eng nd (set_out (eng nd) fs)]> b) !! k = Some nk →
  pending mj mk sa → pending nj nk sa.
Proof.
  intros Hinv Hi Hout Hjk Hmj Hmk Hj Hk Hp.
  apply broadcast_lookup in Hj as (mj' & Hj & Hej & Hbj).
  apply broadcast_lookup in Hk as (mk' & Hk & Hek & Hbk).
  assert (inbox mk' = inbox mk) as Hib.
  { apply list_lookup_insert_Some in Hk as [(<- & <- & _)|[_ Hk]]; simpl; congruence. }
  assert (ac_name (eng mj') = ac_name (eng mj)) as Hnm.
  { apply list_lookup_insert_Some in Hj as [(<- & <- & _)|[_ Hj]]; simpl; congruence. }
  destruct Hp as [Hp|(d & data & Hd & Hc)].
  - destruct (decide (j = i)) as [->|Hji].
    + assert (mj = nd) as -> by congruence.
      rewrite list_lookup_insert_eq in Hj by (by eapply lookup_lt_Some).
      injection Hj as <-. rewrite Hout in Hp. apply elem_of_cons in Hp as [Hp|Hp].
      2: { left. rewrite Hej. done. }
      right. rewrite Hej, Hbk. rewrite decide_False by done. subst f.
      eexists _, _. split; [apply elem_of_app; right; by apply list_elem_of_singleton|].
      pose proof (Forall_lookup_1 _ _ _ _ (bi_wf _ Hinv) Hi) as Hwf.
      pose proof (wf_out _ Hwf) as Ho. rewrite Hout in Ho. apply Forall_cons in Ho as [Hf _].
      destruct Hf as (sa' & Hsa' & Hf). assert (sa = sa') as -> by by injection Hf.
      rewrite Hnm. by apply claim_frame_wire.
    + rewrite list_lookup_insert_ne in Hj by done. left. rewrite Hej. congruence.
  - right. exists d, data. rewrite Hej, Hnm. split; [|done].
    rewrite Hbk, Hib. apply elem_of_app. by left.
Qed.

Lemma wf_set_out e f fs : out e = f :: fs → wf_claim e → wf_claim (set_out e fs).
Proof.
  intros Ho []. split; try done. simpl. rewrite Ho in wf_out0.
  by apply Forall_cons in wf_out0 as [_ ?].
Qed.

Lemma bus_send_inv b (i : nat) nd f fs :
  bus_inv b → b !! i = Some nd → out (eng nd) = f :: fs →
  bus_inv (broadcast i f (<[i := set_eng nd (set_out (eng nd) fs)]> b)).
Proof.
  intros Hinv Hi Hout. pose proof (Forall_lookup_1 _ _ _ _ (bi_wf _ Hinv) Hi) as Hwf.
  assert (∀ j nj, broadcast i f (<[i := set_eng nd (set_out (eng nd) fs)]> b) !! j = Some nj →
    ∃ mj, b !! j = Some mj ∧ ac_name (eng nj) = ac_name (eng mj) ∧ wf_claim (eng nj)
      ∧ (∀ sa, owner (eng nj) sa → owner (eng mj) sa)
      ∧ Forall (λ m, is_bytes m.2) (inbox nj)) as Hnode.
  { intros j nj Hj. apply broadcast_lookup in Hj as (mj & Hj & He & Hb).
    assert (is_bytes (a_data f)) as Hf.
    { pose proof (wf_out _ Hwf) as Ho. rewrite Hout in Ho.
      apply Forall_cons in Ho as [(sa & _ & ->) _]. apply to_le_bytes_bytes. }
    rewrite He, Hb. apply list_lookup_insert_Some in Hj as [(<- & <- & _)|[_ Hj]].
    - exists nd. split_and!; [done..|by eapply wf_set_out|done|].
      apply Forall_app. split; [by apply (Forall_lookup_1 _ _ _ _ (bi_bytes _ Hinv) Hi)|].
      case_decide; by repeat constructor.
    - exists mj. split_and!; [done..|by apply (Forall_lookup_1 _ _ _ _ (bi_wf _ Hinv) Hj)|done|].
      apply Forall_app. split; [by apply (Forall_lookup_1 _ _ _ _ (bi_bytes _ Hinv) Hj)|].
      case_decide; by repeat constructor. }
  split.
  - replace ((λ nd, ac_name (eng nd)) <$> _) with ((λ nd, ac_name (eng nd)) <$> b);
      [apply Hinv|].
    unfold broadcast. rewrite fmap_imap. rewrite <-(names_insert b i nd (set_eng nd (set_out (eng nd) fs))) by done.
    rewrite <-imap_const. apply imap_ext. intros j x _. simpl. by case_decide.
  - apply Forall_lookup. intros j nj Hj. by destruct (Hnode j nj Hj) as (? & _ & _ & ? & _).
  - apply Forall_lookup. intros j nj Hj.
    by destruct (Hnode j nj Hj) as (? & _ & _ & _ & _ & ?).
  - intros j k nj nk Hjk Hj Hk sa Ho1 Ho2.
    destruct (Hnode j nj Hj) as (mj & Hmj & _ & _ & Hoj & _).
    destruct (Hnode k nk Hk) as (mk & Hmk & _ & _ & Hok & _).
    destruct (bi_settled _ Hinv j k mj mk Hjk Hmj Hmk sa (Hoj _ Ho1) (Hok _ Ho2)) as [Hp|Hp].
    + left. by eapply (pending_send b i nd f fs j k).
    + right. by eapply (pending_send b i nd f fs k j).
Qed.

Lemma bus_step_inv b b' : bus_inv b → bus_step b b' → bus_inv b'.
Proof.
  intros Hinv [i nd now Hi|i nd f fs Hi Hout|i nd d data q now e evs Hi Hq He
              |i nd d data now e evs Hi _ Hby He];
    pose proof (Forall_lookup_1 _ _ _ _ (bi_wf _ Hinv) Hi) as Hwf;
    pose proof (Forall_lookup_1 _ _ _ _ (bi_bytes _ Hinv) Hi) as Hib; simpl in Hwf, Hib.
  - eapply bus_inv_insert; [done..| | |done|].
    + by apply poll_steps.
    + by apply poll_wf.
    + intros j nd2 Hij Hj. eapply settled_step; [apply poll_steps|].
      by apply (bi_settled _ Hinv i j).
  - by apply bus_send_inv.
  - rewrite Hq in Hib. apply Forall_cons in Hib as [Hd Hib].
    eapply bus_inv_insert; [done..| | |done|]; simpl.
    + apply (wp_elim _ _ _ (ac_on_frame_steps _ _ _ _) He).
    + apply (wp_elim _ _ _ (ac_on_frame_wf _ _ _ _ Hwf Hd) He).
    + intros j nd2 Hij Hj.
      eapply (settled_recv nd d data q now e evs); [done|..|done|done|].
      * by apply (Forall_lookup_1 _ _ _ _ (bi_wf _ Hinv) Hj).
      * by apply (names_ne b i j).
      * by apply (bi_settled _ Hinv i j).
  - eapply bus_inv_insert; [done..| | |done|]; simpl.
    + apply (wp_elim _ _ _ (ac_on_frame_steps _ _ _ _) He).
    + apply (wp_elim _ _ _ (ac_on_frame_wf _ _ _ _ Hwf Hby) He).
    + intros j nd2 Hij Hj. eapply settled_step.
      * apply (wp_elim _ _ _ (ac_on_frame_steps _ _ _ _) He).
      * by apply (bi_settled _ Hinv i j).
Qed.

Lemma bus_init_inv b : bus_init b → bus_inv b.
Proof.
  intros [Hnm Hb]. split; [done|..].
  - eapply Forall_impl; [exact Hb|]. intros nd (sa & name & wait & Hsa & Hn & ->).
    by apply ac_new_wf.
  - eapply Forall_impl; [exact Hb|]. by intros nd (sa & name & wait & Hsa & Hn & ->).
  - intros i j nd nd' _ Hi _ sa (_ & [t Ht] & _).
    rewrite Forall_lookup in Hb. destruct (Hb i nd Hi) as (? & ? & ? & _ & _ & ->). done.
Qed.

Lemma bus_reachable_inv b : bus_reachable b → bus_inv b.
Proof.
  intros (b0 & H0 & Hr). apply bus_init_inv in H0. clear -H0 Hr.
  induction Hr as [|x y z Hxy _ IH]; [done|]. apply IH. by eapply bus_step_inv.
Qed.
End bus.

(** ** Runs, executably *)

Inductive action :=
| APoll (i : nat) (now : Z)
| ASend (i : nat)
| ARecv (i : nat) (now : Z).

Definition bus_exec (b : list node) (a : action) : option (list node) :=
  match a with
  | APoll i now =>
      nd ← b !! i; Some (<[i := set_eng nd (poll (eng nd) now).1]> b)
  | ASend i =>
      nd ← b !! i;
      match out (eng nd) with
      | f :: fs => Some (broadcast i f (<[i := set_eng nd (set_out (eng nd) fs)]> b))
      | [] => None
      end
  | ARecv i now =>
      nd ← b !! i;
      match inbox nd with
      | (d, data) :: q =>
          match ac_on_frame (eng nd) d data now with
          | Ok (e, _) => Some (<[i := MkNode e q]> b)
          | Panic => None
          end
      | [] => None
      end
  end.

Fixpoint bus_run (b : list node) (l : list action) : option (list node) :=
  match l with [] => Some b | a :: l => b ← bus_exec b a; bus_run b l end.

Lemma bus_exec_step foreign b a b' : bus_exec b a = Some b' → bus_step foreign b b'.
Proof.
  destruct a as [i now|i|i now]; simpl; destruct (b !! i) as [nd|] eqn:Hi; try done; simpl.
  - intros [= <-]. by constructor.
  - destruct (out (eng nd)) eqn:Ho; [done|]. intros [= <-]. by constructor.
  - destruct (inbox nd) as [|[d data] q] eqn:Hq; [done|].
    destruct (ac_on_frame _ _ _ _) as [[e evs]|] eqn:He; [|done].
    intros [= <-]. by eapply bus_recv.
Qed.

Lemma bus_run_rtc foreign l b b' : bus_run b l = Some b' → rtc (bus_step foreign) b b'.
Proof.
  revert b. induction l as [|a l IH]; intros b; simpl; [by intros [= ->]|].
  destruct (bus_exec b a) as [b1|] eqn:E; [|done]. simpl. intros H.
  eapply rtc_l; [by eapply bus_exec_step|by apply IH].
Qed.

(** ** Uniqueness *)

(** C16. Unique ownership: on a bus of any number of engines with distinct NAMEs,
    after any interleaving of timer ticks, transmissions, receptions and
    outside frames, whenever no frame is queued or in flight no two engines
    own the same source address; in particular no two are [Claimed] on it. *)
Theorem quiet_bus_unique (foreign : DecodedId → list Z → Prop) (b : list node)
    (i j : nat) nd nd' sa :
  bus_reachable foreign b → quiet b → i ≠ j → b !! i = Some nd → b !! j = Some nd' →
  ¬ (owner (eng nd) sa ∧ owner (eng nd') sa).
Proof.
  intros Hr Hq Hij Hi Hj [Ho Ho']. apply bus_reachable_inv in Hr as Hinv.
  unfold quiet in Hq. rewrite Forall_lookup in Hq.
  destruct (Hq i nd Hi) as [Hio Hii]. destruct (Hq j nd' Hj) as [Hjo Hji].
  destruct (bi_settled _ Hinv i j nd nd' Hij Hi Hj sa Ho Ho')
    as [[Hp|(d & data & Hp & _)]|[Hp|(d & data & Hp & _)]];
    rewrite ?Hio, ?Hii, ?Hjo, ?Hji in Hp; by apply elem_of_nil in Hp.
Qed.

(** Two engines contending for address 0x80; the second has the lower NAME. *)
Definition contenders : list node :=
  [MkNode (ac_new 0x80 500 0) []; MkNode (ac_new 0x80 7 0) []].
Definition contention : list action :=
  [APoll 0 0; APoll 1 1; ASend 0; ASend 1; ARecv 0 2; ARecv 1 3; ASend 0; ASend 1;
   ARecv 0 4; ARecv 1 5].
Definition arbitrated : list node := default [] (bus_run contenders contention).

Lemma contenders_init : bus_init contenders.
Proof.
  split; [by vm_compute; repeat constructor; set_solver|].
  repeat constructor; eexists _, _, _; split_and!; try reflexivity; by vm_compute.
Defined.

Lemma quiet_bus_unique_witness :
  quiet arbitrated ∧
  ∃ nd nd', arbitrated !! 0%nat = Some nd ∧ arbitrated !! 1%nat = Some nd'
    ∧ owner (eng nd') 0x80 ∧ ¬ (owner (eng nd) 0x80 ∧ owner (eng nd') 0x80).
Proof.
  assert (quiet arbitrated) as Hq by (vm_compute; repeat constructor).
  split; [exact Hq|]. eexists _, _. split; [reflexivity|]. split; [reflexivity|].
  split; [by vm_compute; split_and!; [|eexists|]|].
  apply (quiet_bus_unique (λ _ _, False) arbitrated 0 1); [|exact Hq|discriminate|reflexivity..].
  exists contenders. split; [apply contenders_init|].
  apply (bus_run_rtc _ contention). vm_compute. reflexivity.
Defined.

(** ** The lowest NAME *)

(** Node [k] has the lowest NAME and still holds [sa]. *)
Definition holds (b : list node) (k : nat) (name sa : Z) : Prop :=
  Forall (λ nd, name ≤ ac_name (eng nd)) b
  ∧ Forall (λ nd, Forall (λ m, ∃ name' sa', name ≤ name' < 2 ^ 64
                                 ∧ claim_msg m.1 m.2 name' sa') (inbox nd)) b
  ∧ ∃ nd, b !! k = Some nd ∧ ac_name (eng nd) = name ∧ ac_state (eng nd) ≠ CannotClaim
      ∧ current_sa (eng nd) = sa.

Lemma poll_holds e now : ac_state e ≠ CannotClaim →
  ac_state (poll e now).1 ≠ CannotClaim ∧ current_sa (poll e now).1 = current_sa e.
Proof.
  intros Hs. unfold poll. case_decide as Hc; [done|].
  destruct (started_at e); [destruct (_ <=? _)|]; simpl; by rewrite ?Hc.
Qed.

Lemma claim_holds e d name sa now e' evs :
  claim_msg d (to_le_bytes 8 name) name sa → ac_name e ≤ name < 2 ^ 64 → 0 ≤ ac_name e →
  ac_state e ≠ CannotClaim → ac_on_frame e d (to_le_bytes 8 name) now = Ok (e', evs) →
  ac_state e' ≠ CannotClaim ∧ current_sa e' = current_sa e.
Proof.
  intros (Hp & _ & _) Hn H0 Hs. rewrite ac_on_frame_claim by done.
  unfold on_address_claimed. destruct (_ || _); [by intros [= <- <-]|].
  assert (take 8 (to_le_bytes 8 name) = to_le_bytes 8 name) as Htk
    by (apply take_ge; by rewrite to_le_bytes_length).
  rewrite name_of_eq by (unfold len; by rewrite to_le_bytes_length).
  rewrite Htk, from_to_le_bytes, Z.mod_small by lia. simpl.
  destruct (_ =? _); [by intros [= <- <-]|].
  rewrite (proj2 (Z.ltb_ge _ _)) by lia. by intros [= <- <-].
Qed.

Lemma holds_insert b (i k : nat) nd nd' name sa :
  holds b k name sa → b !! i = Some nd → ac_name (eng nd') = ac_name (eng nd) →
  (∀ m, m ∈ inbox nd' → m ∈ inbox nd) →
  (i = k → ac_state (eng nd) ≠ CannotClaim → ac_name (eng nd) = name →
    ac_state (eng nd') ≠ CannotClaim ∧ current_sa (eng nd') = current_sa (eng nd)) →
  holds (<[i := nd']> b) k name sa.
Proof.
  intros (Hlow & Hmsg & ndk & Hk & Hn & Hs & Hsa) Hi Hnm Hin Hstep. split_and!.
  - apply Forall_insert; [done|]. rewrite Hnm. by apply (Forall_lookup_1 _ _ _ _ Hlow Hi).
  - apply Forall_insert; [done|]. apply Forall_forall. intros m Hm%Hin.
    pose proof (Forall_lookup_1 _ _ _ _ Hmsg Hi) as H. rewrite Forall_forall in H. eauto.
  - destruct (decide (i = k)) as [->|Hik].
    + assert (ndk = nd) as -> by congruence.
      rewrite list_lookup_insert_eq by (by eapply lookup_lt_Some).
      destruct Hstep as [? ?]; [done..|]. exists nd'. naive_solver congruence.
    + rewrite list_lookup_insert_ne by done. eauto.
Qed.

Lemma holds_broadcast b (i k : nat) f name sa name' sa' :
  holds b k name sa → name ≤ name' < 2 ^ 64 → claim_msg (ac_wire_id f) (a_data f) name' sa' →
  holds (broadcast i f b) k name sa.
Proof.
  intros (Hlow & Hmsg & ndk & Hk & Hn & Hs & Hsa) Hle Hf. rewrite Forall_lookup in Hlow, Hmsg.
  split_and!.
  - apply Forall_lookup. intros j nj (mj & Hj & -> & _)%broadcast_lookup. by eapply Hlow.
  - apply Forall_lookup. intros j nj (mj & Hj & _ & ->)%broadcast_lookup.
    apply Forall_app. split; [by eapply Hmsg|]. case_decide; constructor; [eauto|constructor].
  - destruct (broadcast i f b !! k) as [nk|] eqn:Hb.
    + apply broadcast_lookup in Hb as Hb'. destruct Hb' as (mk & Hmk & He & _).
      exists nk. rewrite He. naive_solver congruence.
    + unfold broadcast in Hb. rewrite list_lookup_imap, Hk in Hb. done.
Qed.

Lemma holds_step b b' k name sa :
  bus_inv b → holds b k name sa → bus_step (λ _ _, False) b b' → holds b' k name sa.
Proof.
  intros Hinv Hh [i nd now Hi|i nd f fs Hi Hout|i nd d data q now e evs Hi Hq He
                 |i nd d data now e evs Hi [] _ _];
    pose proof (Forall_lookup_1 _ _ _ _ (bi_wf _ Hinv) Hi) as Hwf; simpl in Hwf.
  - eapply holds_insert; [done..| |done|].
    + apply poll_steps.
    + intros _ Hs _. by apply poll_holds.
  - pose proof (wf_out _ Hwf) as Ho. rewrite Hout in Ho.
    apply Forall_cons in Ho as [(sa' & Hsa' & ->) _].
    pose proof (Forall_lookup_1 _ _ _ _ (proj1 Hh) Hi) as Hle. simpl in Hle.
    pose proof (wf_name _ Hwf) as Hnm. unfold is_u in Hnm.
    eapply holds_broadcast; [|split; [exact Hle|apply Hnm]|by apply claim_frame_wire].
    eapply holds_insert; [done..|]. done.
  - pose proof Hh as (Hlow & Hmsg & _).
    pose proof (Forall_lookup_1 _ _ _ _ Hmsg Hi) as Hm. simpl in Hm. rewrite Hq in Hm.
    apply Forall_cons in Hm as [(name' & sa' & Hle & Hcl) _]. simpl in Hcl.
    eapply holds_insert; [done..| | |].
    + apply (wp_elim _ _ _ (ac_on_frame_steps _ _ _ _) He).
    + simpl. intros m Hin. rewrite Hq. apply elem_of_cons. by right.
    + simpl. intros _ Hs Hn. assert (data = to_le_bytes 8 name') as -> by apply Hcl.
      eapply claim_holds; [done|by rewrite Hn|apply (wf_name _ Hwf)|done|done].
Qed.

(** C17. The lowest NAME keeps its address: with no frames from outside, in any
    interleaving the engine with the lowest NAME never cedes, keeps the address
    it was configured with, and is [Claimed] at the first tick past its
    claim-wait. *)
Theorem lowest_name_keeps (b0 b : list node) (k : nat) nd0 :
  bus_init b0 → rtc (bus_step (λ _ _, False)) b0 b → b0 !! k = Some nd0 →
  Forall (λ nd, ac_name (eng nd0) ≤ ac_name (eng nd)) b0 →
  ∃ nd, b !! k = Some nd ∧ ac_state (eng nd) ≠ CannotClaim
    ∧ current_sa (eng nd) = current_sa (eng nd0)
    ∧ ∀ t now, started_at (eng nd) = Some t → claim_wait (eng nd) ≤ now - t →
        0 ≤ claim_wait (eng nd) → ac_state (poll (eng nd) now).1 = Claimed.
Proof.
  intros Hinit Hrun Hk Hlow.
  assert (holds b0 k (ac_name (eng nd0)) (current_sa (eng nd0))) as Hh.
  { destruct Hinit as [_ Hb]. rewrite Forall_lookup in Hb. split_and!; [done|..].
    - apply Forall_lookup. intros j nd Hj.
      destruct (Hb j nd Hj) as (? & ? & ? & _ & _ & ->). constructor.
    - destruct (Hb k nd0 Hk) as (? & ? & ? & _ & _ & ->). eexists. by split_and!. }
  apply bus_init_inv in Hinit.
  assert (holds b k (ac_name (eng nd0)) (current_sa (eng nd0))) as Hh'.
  { clear Hk Hlow. induction Hrun as [|x y z Hxy _ IH]; [done|].
    apply IH; [by eapply bus_step_inv|by eapply holds_step]. }
  destruct Hh' as (_ & _ & nd & Hnd & _ & Hs & Hsa). exists nd. split_and!; [done..|].
  intros t now Ht Hw H0. unfold poll. case_decide as Hc.
  - simpl. destruct (ac_state (eng nd)) eqn:?; congruence.
  - rewrite Ht. rewrite (proj2 (Z.leb_le _ _)); [done|]. unfold sat_sub. lia.
Qed.

Lemma lowest_name_keeps_witness :
  ∃ nd, arbitrated !! 1%nat = Some nd ∧ ac_state (eng nd) ≠ CannotClaim
    ∧ current_sa (eng nd) = 0x80
    ∧ ∀ t now, started_at (eng nd) = Some t → claim_wait (eng nd) ≤ now - t →
        0 ≤ claim_wait (eng nd) → ac_state (poll (eng nd) now).1 = Claimed.
Proof.
  apply (lowest_name_keeps contenders arbitrated 1 (MkNode (ac_new 0x80 7 0) [])).
  - apply contenders_init.
  - apply (bus_run_rtc _ contention). vm_compute. reflexivity.
  - reflexivity.
  - repeat constructor; by vm_compute.
Defined.
End ClaimBus.
