(* ===== verification/ExecGraph.v ===== *)
(** * Graph construction of the executor

    Models [GraphBuilder] of [taktora-executor/src/graph.rs]: the builder
    operations and the validation that [finish] runs (root, edges, acyclicity
    by Kahn's algorithm, reachability by depth-first search).  A [Vec] used as
    a stack is a list whose head is the end of the [Vec].

    The two [while let Some(..) = pop()] loops carry fuel; running out of it is
    a [Panic], which the theorems exclude along with every other panic. *)

From stdpp Require Import base list strings relations.
From Stdlib Require Import ZArith Lia.
From S2P Require Import Prelude.

Module ExecGraph.
#[local] Open Scope nat_scope.

Section builder.
(** Items are user code: only the declarations of their triggers (or the error
    of declaring them) matter to the builder. *)
Context {Decl UserError : Type}.

Record Item := MkItem { declare_triggers : list Decl + UserError }.

Inductive ExecutorError :=
| InvalidGraph (msg : string)
| DeclareFailed (e : UserError).

Record GraphBuilder := MkBuilder {
  items : list Item;
  edges : list (nat * nat);
  root : option nat;
}.

Record Graph := MkGraph {
  successors : list (list nat);
  in_degree : list nat;
  g_root : nat;
  decls : list Decl;
  g_items : list Item;
}.

Definition builder_new : GraphBuilder := MkBuilder [] [] None.
Definition vertex (b : GraphBuilder) (it : Item) : GraphBuilder * nat :=
  (MkBuilder (items b ++ [it]) (edges b) (root b), length (items b)).
Definition edge (b : GraphBuilder) (from to : nat) : GraphBuilder :=
  MkBuilder (items b) (edges b ++ [(from, to)]) (root b).
Definition set_root (b : GraphBuilder) (v : nat) : GraphBuilder :=
  MkBuilder (items b) (edges b) (Some v).

Definition validate_root (root : option nat) (n : nat) : nat + ExecutorError :=
  if n =? 0 then inr (InvalidGraph "graph has no vertices")
  else
    match root with
    | None => inr (InvalidGraph "no root vertex set")
    | Some root =>
        if n <=? root then inr (InvalidGraph "root index out of bounds") else inl root
    end.

Fixpoint build_adjacency_loop (es : list (nat * nat)) (n : nat)
    (successors : list (list nat)) (in_degree : list nat)
    : res ((list (list nat) * list nat) + ExecutorError) :=
  match es with
  | [] => Ok (inl (successors, in_degree))
  | (from, to) :: es =>
      if (n <=? from) || (n <=? to)
      then Ok (inr (InvalidGraph "edge index out of bounds"))
      else if from =? to then Ok (inr (InvalidGraph "self-loops are not allowed"))
      else
        s ← expect (successors !! from);
        d ← expect (in_degree !! to);
        build_adjacency_loop es n (<[from := s ++ [to]]> successors)
          (<[to := S d]> in_degree)
  end.

Definition build_adjacency (es : list (nat * nat)) (n : nat)
    : res ((list (list nat) * list nat) + ExecutorError) :=
  build_adjacency_loop es n (replicate n []) (replicate n 0).

(** [for &v in &successors[u] { k_in[v] -= 1; if k_in[v] == 0 { push } }]. *)
Fixpoint kahn_relax (vs : list nat) (k_in queue : list nat) : res (list nat * list nat) :=
  match vs with
  | [] => Ok (k_in, queue)
  | v :: vs =>
      d ← expect (k_in !! v);
      match d with
      | O => Panic
      | S d => kahn_relax vs (<[v := d]> k_in) (if d =? 0 then v :: queue else queue)
      end
  end.

Fixpoint kahn_loop (fuel : nat) (successors : list (list nat)) (k_in queue : list nat)
    (visited : nat) : res nat :=
  match fuel with
  | O => Panic
  | S fuel =>
      match queue with
      | [] => Ok visited
      | u :: queue =>
          s ← expect (successors !! u);
          '(k_in, queue) ← kahn_relax s k_in queue;
          kahn_loop fuel successors k_in queue (S visited)
      end
  end.

Definition zero_degree (in_degree : list nat) : list nat :=
  (filter (λ p, p.2 = 0) (imap pair in_degree)).*1.

Definition assert_acyclic (successors : list (list nat)) (in_degree : list nat) (n : nat)
    : res (unit + ExecutorError) :=
  visited ← kahn_loop (S n) successors in_degree (reverse (zero_degree in_degree)) 0;
  Ok (if visited =? n then inl () else inr (InvalidGraph "graph contains a cycle")).

Fixpoint dfs_loop (fuel : nat) (successors : list (list nat)) (reach : list bool)
    (stack : list nat) : res (list bool) :=
  match fuel with
  | O => Panic
  | S fuel =>
      match stack with
      | [] => Ok reach
      | u :: stack =>
          r ← expect (reach !! u);
          if (r : bool) then dfs_loop fuel successors reach stack
          else
            s ← expect (successors !! u);
            dfs_loop fuel successors (<[u := true]> reach) (reverse s ++ stack)
      end
  end.

(** Every push is followed by at most one pop: one for the root, one per edge,
    and the final empty pop. *)
Definition dfs_fuel (successors : list (list nat)) : nat :=
  S (S (length (concat successors))).

Definition assert_reachable (successors : list (list nat)) (root n : nat)
    : res (unit + ExecutorError) :=
  reach ← dfs_loop (dfs_fuel successors) successors (replicate n false) [root];
  Ok (if existsb negb reach
      then inr (InvalidGraph "every vertex must be reachable from the root")
      else inl ()).

Definition collect_root_decls (items : list Item) (root : nat)
    : res (list Decl + ExecutorError) :=
  it ← expect (items !! root);
  Ok match declare_triggers it with
     | inl decls => inl decls
     | inr e => inr (DeclareFailed e)
     end.

(** The [?] operator: the first error wins. *)
Definition try {A B} (m : res (A + ExecutorError)) (f : A → res (B + ExecutorError))
    : res (B + ExecutorError) :=
  r ← m; match r with inl a => f a | inr e => Ok (inr e) end.

Definition finish (b : GraphBuilder) : res (Graph + ExecutorError) :=
  let n := length (items b) in
  try (Ok (validate_root (root b) n)) (λ root,
  try (build_adjacency (edges b) n) (λ '(successors, in_degree),
  try (assert_acyclic successors in_degree n) (λ _,
  try (assert_reachable successors root n) (λ _,
  try (collect_root_decls (items b) root) (λ decls,
  Ok (inl {| successors := successors; in_degree := in_degree; g_root := root;
             decls := decls; g_items := items b |})))))).

End builder.
Arguments Item : clear implicits.
Arguments ExecutorError : clear implicits.
Arguments GraphBuilder : clear implicits.
Arguments Graph : clear implicits.

End ExecGraph.
