(* ===== verification/ExecGraphOk.v ===== *)
(** * Correctness of graph construction

    [finish] accepts exactly the graphs it should: non-empty, with a root in
    bounds, edges in bounds, no cycle, every vertex reachable from the root;
    Kahn's algorithm and the depth-first search are proved against the
    transitive closure of the edge relation, and neither panics nor runs out
    of fuel. *)

From stdpp Require Import base list strings relations.
From Stdlib Require Import ZArith Lia.
From S2P Require Import Prelude ExecGraph.

Module ExecGraphOk.
Import ExecGraph.
#[local] Open Scope nat_scope.

(** ** The edge relation *)

Definition is_edge (es : list (nat * nat)) (u v : nat) : Prop := (u, v) ∈ es.
Definition acyclic (es : list (nat * nat)) : Prop := ∀ v, ¬ tc (is_edge es) v v.
Definition all_reachable (es : list (nat * nat)) (r n : nat) : Prop :=
  ∀ v, v < n → rtc (is_edge es) r v.
Definition in_bounds (es : list (nat * nat)) (n : nat) : Prop :=
  Forall (λ e, e.1 < n ∧ e.2 < n) es.

(** Targets of [u] in insertion order; multiplicities; in-degrees from the
    vertices outside [P]. *)
Definition targets (es : list (nat * nat)) (u : nat) : list nat :=
  (filter (λ e, e.1 = u) es).*2.
Definition occ (v : nat) (l : list nat) : nat := length (filter (λ x, x = v) l).
Definition kin (es : list (nat * nat)) (P : list nat) (v : nat) : nat :=
  length (filter (λ e, e.2 = v ∧ e.1 ∉ P) es).

Lemma elem_of_targets es u v : v ∈ targets es u ↔ is_edge es u v.
Proof.
  unfold targets, is_edge. rewrite list_elem_of_fmap. split.
  - intros ([a b] & -> & [Ha H]%list_elem_of_filter). simpl in *. by subst.
  - intros H. exists (u, v). split; [done|]. by apply list_elem_of_filter.
Qed.

Lemma occ_cons v x l : occ v (x :: l) = (if decide (x = v) then 1 else 0) + occ v l.
Proof. unfold occ. rewrite filter_cons. by case_decide. Qed.

Lemma occ_pos v l : 0 < occ v l ↔ v ∈ l.
Proof.
  induction l as [|x l IH]; [split; [by intros ?%Nat.lt_irrefl|by intros ?%elem_of_nil]|].
  rewrite occ_cons, elem_of_cons. case_decide; naive_solver lia.
Qed.

Lemma kin_split es P u v : u ∉ P → kin es P v = kin es (u :: P) v + occ v (targets es u).
Proof.
  intros Hu. unfold kin, targets. induction es as [|[a b] es IH]; [done|].
  rewrite !filter_cons. simpl. destruct (decide (a = u)) as [->|Hau].
  - rewrite (decide_False (P := b = v ∧ u ∉ u :: P)) by set_solver.
    rewrite fmap_cons, occ_cons. simpl.
    destruct (decide (b = v)); [rewrite decide_True by done; simpl; lia|].
    rewrite decide_False by naive_solver. lia.
  - destruct (decide (b = v ∧ a ∉ P)).
    + rewrite decide_True by set_solver. simpl. lia.
    + rewrite decide_False by set_solver. done.
Qed.

Lemma kin_nil_zero es P v : kin es P v = 0 ↔ ∀ u, is_edge es u v → u ∈ P.
Proof.
  unfold kin, is_edge. split.
  - intros H u Hu. destruct (decide (u ∈ P)) as [|Hn]; [done|].
    apply length_zero_iff_nil in H.
    assert ((u, v) ∈ filter (λ e, e.2 = v ∧ e.1 ∉ P) es) as Hf
      by (by apply list_elem_of_filter). rewrite H in Hf. by apply elem_of_nil in Hf.
  - intros H. apply length_zero_iff_nil.
    destruct (filter _ es) as [|[a b] l] eqn:E; [done|].
    assert ((a, b) ∈ filter (λ e, e.2 = v ∧ e.1 ∉ P) es) as Hf by (rewrite E; by left).
    apply list_elem_of_filter in Hf as [[Hb Ha] Hin]. simpl in *. subst. naive_solver.
Qed.

(** ** Adjacency *)
Section adj.
Context {UserError : Type}.

Lemma kin_nil_cons a b es v :
  kin ((a, b) :: es) [] v = (if decide (b = v) then 1 else 0) + kin es [] v.
Proof.
  unfold kin. rewrite filter_cons. simpl.
  destruct (decide (b = v)); [rewrite decide_True by set_solver|rewrite decide_False by naive_solver];
    done.
Qed.

Lemma targets_cons a b es u :
  targets ((a, b) :: es) u = (if decide (a = u) then [b] else []) ++ targets es u.
Proof. unfold targets. rewrite filter_cons. simpl. by case_decide. Qed.

Lemma length_concat_insert (s : list (list nat)) u x y :
  s !! u = Some x → length (concat (<[u := y]> s)) + length x = length (concat s) + length y.
Proof.
  revert u. induction s as [|z s IH]; intros [|u] H; try done; simpl in *;
    rewrite !length_app.
  - injection H as ->. lia.
  - specialize (IH u H). lia.
Qed.

Lemma build_loop_ok es n s d :
  length s = n → length d = n → in_bounds es n → Forall (λ e, e.1 ≠ e.2) es →
  ∃ s' d', build_adjacency_loop (UserError := UserError) es n s d = Ok (inl (s', d'))
    ∧ length s' = n ∧ length d' = n
    ∧ (∀ u x, s !! u = Some x → s' !! u = Some (x ++ targets es u))
    ∧ (∀ v x, d !! v = Some x → d' !! v = Some (x + kin es [] v))
    ∧ length (concat s') = length (concat s) + length es.
Proof.
  revert s d. induction es as [|[a b] es IH]; intros s d Hs Hd Hb Hl.
  { exists s, d. split_and!; [done..| | |simpl; lia].
    - intros u x ->. unfold targets. simpl. by rewrite app_nil_r.
    - intros v x ->. unfold kin. simpl. by rewrite Nat.add_0_r. }
  apply Forall_cons in Hb as [[Ha Hb'] Hb]. apply Forall_cons in Hl as [Hab Hl].
  simpl in *. rewrite (proj2 (Nat.leb_gt n a)), (proj2 (Nat.leb_gt n b)) by lia.
  rewrite (proj2 (Nat.eqb_neq a b)) by done. simpl.
  destruct (lookup_lt_is_Some_2 s a) as [sa Hsa]; [lia|].
  destruct (lookup_lt_is_Some_2 d b) as [db Hdb]; [lia|]. rewrite Hsa, Hdb. simpl.
  destruct (IH (<[a := sa ++ [b]]> s) (<[b := S db]> d)) as (s' & d' & -> & Hs' & Hd' & Ht & Hk & Hc);
    [by rewrite length_insert..|done|done|].
  exists s', d'. split_and!; [done..| | |].
  - intros u x Hu. rewrite targets_cons. destruct (decide (a = u)) as [->|Hau].
    + replace x with sa by congruence. rewrite app_assoc. apply Ht.
      by rewrite list_lookup_insert_eq by lia.
    + apply Ht. by rewrite list_lookup_insert_ne.
  - intros v x Hv. rewrite kin_nil_cons. destruct (decide (b = v)) as [->|Hbv].
    + replace x with db by congruence. rewrite (Hk v (S db)); [f_equal; lia|].
      by rewrite list_lookup_insert_eq by lia.
    + rewrite (Hk v x); [done|]. by rewrite list_lookup_insert_ne.
  - rewrite Hc. pose proof (length_concat_insert s a sa (sa ++ [b]) Hsa) as H.
    rewrite length_app in H. simpl in *. lia.
Qed.

(** The first offending edge decides the error. *)
Lemma build_loop_err es n s d e es' :
  length s = n → length d = n →
  in_bounds es n → Forall (λ e, e.1 ≠ e.2) es →
  ¬ (e.1 < n ∧ e.2 < n) ∨ e.1 = e.2 →
  build_adjacency_loop (UserError := UserError) (es ++ e :: es') n s d =
    Ok (inr (InvalidGraph (if decide (e.1 < n ∧ e.2 < n) then "self-loops are not allowed"
                           else "edge index out of bounds"))).
Proof.
  revert s d. induction es as [|[a b] es IH]; intros s d Hs Hd Hb Hl He.
  - destruct e as [a b]; simpl in *.
    destruct (decide (a < n ∧ b < n)) as [[Ha Hb']|Hn].
    + rewrite (proj2 (Nat.leb_gt n a)), (proj2 (Nat.leb_gt n b)) by lia. simpl.
      destruct He as [He|He]; [tauto|]. by rewrite (proj2 (Nat.eqb_eq a b)).
    + destruct (Nat.leb_spec n a); [done|]. destruct (Nat.leb_spec n b); [done|]. tauto.
  - apply Forall_cons in Hb as [[Ha Hb'] Hb]. apply Forall_cons in Hl as [Hab Hl].
    simpl in *. rewrite (proj2 (Nat.leb_gt n a)), (proj2 (Nat.leb_gt n b)) by lia.
    rewrite (proj2 (Nat.eqb_neq a b)) by done. simpl.
    destruct (lookup_lt_is_Some_2 s a) as [sa Hsa]; [lia|].
    destruct (lookup_lt_is_Some_2 d b) as [db Hdb]; [lia|]. rewrite Hsa, Hdb. simpl.
    apply IH; [by rewrite length_insert..|done|done|done].
Qed.
End adj.

(** What a built adjacency is. *)
Record adjacency (es : list (nat * nat)) (n : nat) (s : list (list nat)) (d : list nat) : Prop := {
  adj_len : length s = n;
  adj_dlen : length d = n;
  adj_succ : ∀ u, u < n → s !! u = Some (targets es u);
  adj_deg : ∀ v, v < n → d !! v = Some (kin es [] v);
  adj_edges : length (concat s) = length es;
}.

Lemma build_adjacency_ok {UserError} es n :
  in_bounds es n → Forall (λ e, e.1 ≠ e.2) es →
  ∃ s d, build_adjacency (UserError := UserError) es n = Ok (inl (s, d)) ∧ adjacency es n s d.
Proof.
  intros Hb Hl. unfold build_adjacency.
  destruct (build_loop_ok (UserError := UserError) es n (replicate n []) (replicate n 0))
    as (s & d & -> & Hs & Hd & Ht & Hk & Hc); [by rewrite length_replicate..|done|done|].
  exists s, d. split; [done|]. split; [done..| | |].
  - intros u Hu. apply (Ht u []). by apply lookup_replicate_2.
  - intros v Hv. apply (Hk v 0). by apply lookup_replicate_2.
  - rewrite Hc. clear. replace (concat (replicate n [])) with (@nil nat); [done|].
    induction n; simpl; auto.
Qed.

(** ** Kahn's algorithm *)

(** [P] lists its vertices newest first, each after all its predecessors. *)
Inductive topo (es : list (nat * nat)) : list nat → Prop :=
| topo_nil : topo es []
| topo_cons v P : topo es P → v ∉ P → (∀ u, is_edge es u v → u ∈ P) → topo es (v :: P).

Lemma topo_closed es P u v : topo es P → v ∈ P → tc (is_edge es) u v → u ∈ P.
Proof.
  intros HP Hv Huv. revert Hv. induction Huv as [u v He|u w v He _ IH]; intros Hv.
  - induction HP as [|w P HP IH Hw Hpred]; [by apply elem_of_nil in Hv|].
    apply elem_of_cons in Hv as [->|Hv]; right; eauto.
  - assert (w ∈ P) as Hw by auto. clear IH Hv.
    induction HP as [|x P HP IH Hx Hpred]; [by apply elem_of_nil in Hw|].
    apply elem_of_cons in Hw as [->|Hw]; right; eauto.
Qed.

Lemma tc_last es a b : tc (is_edge es) a b → ∃ u, rtc (is_edge es) a u ∧ is_edge es u b.
Proof.
  induction 1 as [x y H|x y z H _ (u & Hu1 & Hu2)].
  - exists x. split; [apply rtc_refl|done].
  - exists u. split; [by eapply rtc_l|done].
Qed.

Lemma topo_acyclic es P v : topo es P → v ∈ P → ¬ tc (is_edge es) v v.
Proof.
  induction 1 as [|w P HP IH Hw Hpred]; intros Hv Hc; [by apply elem_of_nil in Hv|].
  apply elem_of_cons in Hv as [->|Hv]; [|by apply IH].
  apply Hw. destruct (tc_last es _ _ Hc) as (u & Hwu & Hu).
  apply Hpred in Hu. apply rtc_tc in Hwu as [->|Hwu]; [done|].
  by eapply topo_closed.
Qed.

Lemma kahn_relax_ok vs k_in queue :
  (∀ v, v ∈ vs → ∃ d, k_in !! v = Some d ∧ occ v vs ≤ d) →
  ∃ k' q', kahn_relax vs k_in queue = Ok (k', q' ++ queue)
    ∧ length k' = length k_in
    ∧ (∀ v d, k_in !! v = Some d → k' !! v = Some (d - occ v vs))
    ∧ NoDup q' ∧ (∀ v, v ∈ q' ↔ v ∈ vs ∧ k_in !! v = Some (occ v vs)).
Proof.
  revert k_in queue. induction vs as [|x vs IH]; intros k_in queue Hk.
  { exists k_in, []. split_and!; [done..| |constructor|].
    - intros v d ->. f_equal. unfold occ. simpl. lia.
    - intros v. split; [by intros ?%elem_of_nil|]. intros [?%elem_of_nil _]. done. }
  destruct (Hk x) as (d & Hd & Hle); [by left|]. rewrite occ_cons, decide_True in Hle by done.
  destruct d as [|d]; [lia|]. cbn [kahn_relax]. rewrite Hd. simpl.
  assert (x < length k_in) as Hlt by (by eapply lookup_lt_Some).
  destruct (IH (<[x := d]> k_in) (if d =? 0 then x :: queue else queue))
    as (k' & q' & -> & Hl & Hk' & Hnd & Hq').
  { intros v Hv. destruct (decide (x = v)) as [->|Hxv].
    - exists d. rewrite list_lookup_insert_eq by done. split; [done|lia].
    - destruct (Hk v) as (dv & Hdv & Hlv); [by right|]. rewrite occ_cons, decide_False in Hlv by done.
      exists dv. by rewrite list_lookup_insert_ne. }
  assert (length k' = length k_in) as Hlen by (by rewrite Hl, length_insert).
  assert (∀ v dv, k_in !! v = Some dv → k' !! v = Some (dv - occ v (x :: vs))) as Hval.
  { intros v dv Hv. rewrite occ_cons. destruct (decide (x = v)) as [->|Hxv].
    - rewrite (Hk' v d) by (by rewrite list_lookup_insert_eq by done). f_equal.
      assert (dv = S d) by congruence. lia.
    - rewrite (Hk' v dv); [done|]. by rewrite list_lookup_insert_ne. }
  assert (∀ v, v ≠ x → v ∈ q' ↔ v ∈ x :: vs ∧ k_in !! v = Some (occ v (x :: vs))) as Hother.
  { intros v Hvx. rewrite Hq', list_lookup_insert_ne by done.
    rewrite elem_of_cons, occ_cons, decide_False by done. naive_solver. }
  assert (x ∈ q' ↔ x ∈ vs ∧ d = occ x vs) as Hx.
  { rewrite Hq', list_lookup_insert_eq by done. naive_solver. }
  destruct (Nat.eqb_spec d 0) as [->|Hd0].
  - exists k', (q' ++ [x]). rewrite <-app_assoc. split_and!; [done..| |].
    + apply NoDup_app. split_and!; [done| |apply NoDup_singleton].
      intros v Hv Hvx. apply list_elem_of_singleton in Hvx as ->.
      apply Hx in Hv as [Hin H0]. apply occ_pos in Hin. lia.
    + intros v. rewrite elem_of_app, list_elem_of_singleton.
      destruct (decide (v = x)) as [->|Hvx]; [|rewrite <-Hother by done; naive_solver].
      split; [intros _|auto]. split; [by left|]. rewrite Hd, occ_cons, decide_True by done.
      f_equal. lia.
  - exists k', q'. split_and!; [done..|]. intros v.
    destruct (decide (v = x)) as [->|Hvx]; [|by apply Hother].
    rewrite Hx, Hd, occ_cons, decide_True by done. split.
    + intros [Hin ->]. split; [by left|done].
    + intros [_ [= Heq]]. split; [|lia]. apply occ_pos. lia.
Qed.

(** The state of the loop after the vertices of [P] have been popped. *)
Record kahn_inv (es : list (nat * nat)) (n : nat) (P k_in queue : list nat) : Prop := {
  ki_len : length k_in = n;
  ki_val : ∀ v, v < n → k_in !! v = Some (kin es P v);
  ki_nodup : NoDup (queue ++ P);
  ki_bound : ∀ v, v ∈ queue ++ P → v < n;
  ki_ready : ∀ v, v < n → (v ∈ queue ++ P ↔ kin es P v = 0);
  ki_topo : topo es P;
}.

Lemma NoDup_bound (l : list nat) n : NoDup l → (∀ v, v ∈ l → v < n) → length l ≤ n.
Proof.
  intros Hnd Hb. rewrite <-(length_seq n 0). apply submseteq_length, NoDup_submseteq; [done|].
  intros v Hv. apply elem_of_seq. specialize (Hb v Hv). lia.
Qed.

Lemma NoDup_full (l : list nat) n v :
  NoDup l → (∀ v, v ∈ l → v < n) → length l = n → v < n → v ∈ l.
Proof.
  intros Hnd Hb Hl Hv. destruct (decide (v ∈ l)) as [|Hn]; [done|]. exfalso.
  assert (length (v :: l) ≤ n) as H; [|simpl in H; lia].
  apply NoDup_bound; [by constructor|]. intros w [->|Hw]%elem_of_cons; auto.
Qed.

Lemma not_NoDup (l : list nat) : ¬ NoDup l →
  ∃ i j a, l !! i = Some a ∧ l !! j = Some a ∧ i < j.
Proof.
  induction l as [|x l IH]; intros H; [destruct H; constructor|].
  destruct (decide (x ∈ l)) as [Hx|Hx].
  - apply list_elem_of_lookup_1 in Hx as [j Hj]. exists 0, (S j), x. split_and!; [done..|lia].
  - destruct IH as (i & j & a & Hi & Hj & Hij); [intros Hnd; apply H; by constructor|].
    exists (S i), (S j), a. split_and!; [done..|lia].
Qed.

Lemma kin_pred es P v : kin es P v ≠ 0 → ∃ u, is_edge es u v ∧ u ∉ P.
Proof.
  unfold kin, is_edge. destruct (filter _ es) as [|[a b] l] eqn:E; [done|]. intros _.
  assert ((a, b) ∈ filter (λ e, e.2 = v ∧ e.1 ∉ P) es) as Hf by (rewrite E; by left).
  apply list_elem_of_filter in Hf as [[Hb Ha] Hin]. simpl in *. subst. by exists a.
Qed.

Section kahn.
Context (es : list (nat * nat)) (n : nat) (s : list (list nat)) (d : list nat).
Context (Hes : in_bounds es n) (Hadj : adjacency es n s d).

Lemma targets_bound u v : v ∈ targets es u → u < n ∧ v < n.
Proof.
  intros Hv%elem_of_targets. unfold in_bounds in Hes. rewrite Forall_forall in Hes.
  by apply Hes in Hv.
Qed.

Lemma kahn_step u P k_in queue :
  kahn_inv es n P k_in (u :: queue) →
  ∃ k' q', kahn_relax (targets es u) k_in queue = Ok (k', q')
    ∧ kahn_inv es n (u :: P) k' q'.
Proof.
  intros [Hl Hv Hnd Hb Hr Ht].
  assert (u < n) as Hu by (apply Hb; by left).
  assert ((u ∉ P) ∧ (u ∉ queue) ∧ NoDup (queue ++ P)) as (HuP & Huq & Hnd').
  { rewrite <-app_comm_cons in Hnd. apply NoDup_cons in Hnd as [Hn Hnd].
    rewrite not_elem_of_app in Hn. naive_solver. }
  assert (∀ v, kin es P v = kin es (u :: P) v + occ v (targets es u)) as Hsplit
    by (intros v; by apply kin_split).
  destruct (kahn_relax_ok (targets es u) k_in queue) as (k' & q' & -> & Hl' & Hk' & Hq & Hq').
  { intros v Hin. apply targets_bound in Hin as [_ Hvn]. eexists. split; [by apply Hv|].
    rewrite Hsplit. lia. }
  exists k', (q' ++ queue). split; [done|].
  assert (∀ v, v ∈ q' ↔ v ∈ targets es u ∧ kin es (u :: P) v = 0) as Hq2.
  { intros v. rewrite Hq'. split; intros [Hin H]; (split; [done|]);
      destruct (targets_bound u v Hin) as [_ Hvn]; rewrite Hv in * by done.
    - injection H. rewrite Hsplit. lia.
    - f_equal. rewrite Hsplit. lia. }
  assert (∀ v, v ∈ q' → ¬ v ∈ u :: (queue ++ P)) as Hfresh.
  { intros v [Hin Hz]%Hq2 Hold. destruct (targets_bound u v Hin) as [_ Hvn].
    apply (Hr v Hvn) in Hold. apply occ_pos in Hin. specialize (Hsplit v). lia. }
  split.
  - by rewrite Hl'.
  - intros v Hvn. rewrite (Hk' v (kin es P v)) by (by apply Hv). f_equal.
    rewrite Hsplit. lia.
  - rewrite <-app_assoc. apply NoDup_app. split_and!; [done| |].
    + intros v Hin Hold. apply (Hfresh v Hin). set_solver.
    + rewrite <-Permutation_middle. constructor; [|done]. by apply not_elem_of_app.
  - intros v. rewrite <-app_assoc, elem_of_app. intros [[Hin _]%Hq2|Hold].
    + by apply targets_bound in Hin as [_ ?].
    + apply Hb. set_solver.
  - intros v Hvn. rewrite <-app_assoc, elem_of_app, Hq2.
    specialize (Hr v Hvn). specialize (Hsplit v).
    assert (v ∈ queue ++ (u :: P) ↔ v ∈ (u :: queue) ++ P) as -> by set_solver.
    rewrite Hr. split; [intros [[_ ?]|?]; lia|]. intros Hz.
    destruct (decide (v ∈ targets es u)) as [|Hn]; [by left|]. right.
    assert (¬ 0 < occ v (targets es u)) by (by rewrite occ_pos). lia.
  - constructor; [done..|]. intros w Hw.
    assert (kin es P u = 0) as Hz by (apply (Hr u Hu); by left).
    by apply (proj1 (kin_nil_zero es P u) Hz).
Qed.

Lemma kahn_loop_ok fuel P k_in queue :
  kahn_inv es n P k_in queue → n < fuel + length P →
  ∃ P' k', kahn_loop fuel s k_in queue (length P) = Ok (length P') ∧ kahn_inv es n P' k' [].
Proof.
  revert P k_in queue. induction fuel as [|fuel IH]; intros P k_in queue Hinv Hf.
  { exfalso. destruct Hinv as [_ _ Hnd Hb _ _]. pose proof (NoDup_bound _ n Hnd Hb) as H.
    rewrite length_app in H. lia. }
  destruct queue as [|u queue]; [by exists P, k_in|]. cbn [kahn_loop].
  rewrite (adj_succ _ _ _ _ Hadj u) by (apply (ki_bound _ _ _ _ _ Hinv); by left). simpl.
  destruct (kahn_step u P k_in queue Hinv) as (k' & q' & -> & Hinv'). simpl.
  apply (IH (u :: P)); [done|]. simpl. lia.
Qed.

Lemma elem_zero_degree v : v ∈ zero_degree d ↔ d !! v = Some 0.
Proof.
  unfold zero_degree. rewrite list_elem_of_fmap. split.
  - intros ([a b] & -> & [Hb Hin]%list_elem_of_filter). simpl in *. subst.
    apply list_elem_of_lookup_1 in Hin as [i Hi].
    rewrite list_lookup_imap in Hi. destruct (d !! i) eqn:E; [|done]. naive_solver.
  - intros Hv. exists (v, 0). split; [done|]. apply list_elem_of_filter. split; [done|].
    apply list_elem_of_lookup. exists v. rewrite list_lookup_imap. by rewrite Hv.
Qed.

Lemma zero_degree_NoDup : NoDup (zero_degree d).
Proof.
  unfold zero_degree. apply (sublist_NoDup _ (imap pair d).*1).
  - rewrite fmap_imap, (imap_ext _ (λ j _, id j)) by done.
    rewrite (imap_seq_0 d id), list_fmap_id. apply NoDup_seq.
  - apply fmap_sublist, sublist_filter.
Qed.

Lemma kahn_init : kahn_inv es n [] d (reverse (zero_degree d)).
Proof.
  assert (∀ v, v ∈ reverse (zero_degree d) ++ [] ↔ d !! v = Some 0) as Hel.
  { intros v. rewrite app_nil_r, elem_of_reverse. apply elem_zero_degree. }
  split.
  - apply Hadj.
  - apply Hadj.
  - rewrite app_nil_r, reverse_Permutation. apply zero_degree_NoDup.
  - intros v Hv%Hel. apply lookup_lt_Some in Hv. by rewrite (adj_dlen _ _ _ _ Hadj) in Hv.
  - intros v Hv. rewrite Hel, (adj_deg _ _ _ _ Hadj) by done. naive_solver.
  - constructor.
Qed.

(** A non-empty set of vertices each with a predecessor in the set has a
    cycle: walk back [n + 1] times. *)
Lemma walk_back (R : nat → Prop) v k :
  R v → (∀ w, R w → ∃ u, is_edge es u w ∧ R u) →
  ∃ l, length l = S k ∧ Forall R l ∧ head l = Some v
    ∧ ∀ i j a b, l !! i = Some a → l !! j = Some b → i < j → tc (is_edge es) b a.
Proof.
  intros Hv Hpred. revert v Hv. induction k as [|k IH]; intros v Hv.
  { exists [v]. split_and!; [done|by constructor|done|].
    intros i j a b Hi Hj Hij. apply lookup_lt_Some in Hj. simpl in Hj. lia. }
  destruct (Hpred v Hv) as (u & Huv & Hu). destruct (IH u Hu) as (l & Hl & HR & Hh & Htc).
  exists (v :: l). split_and!; [simpl; by f_equal|by constructor|done|].
  intros [|i] [|j] a b Ha Hb Hij; try lia; simpl in *.
  - injection Ha as <-. destruct l as [|u' l]; [done|]. injection Hh as ->.
    destruct j as [|j]; [injection Hb as <-; by apply tc_once|].
    eapply tc_r; [|exact Huv]. by apply (Htc 0 (S j)); [|..|lia].
  - apply (Htc i j); [done..|lia].
Qed.

Lemma closed_cycle (R : nat → Prop) v :
  R v → (∀ w, R w → w < n ∧ ∃ u, is_edge es u w ∧ R u) → ∃ w, tc (is_edge es) w w.
Proof.
  intros Hv Hpred. destruct (walk_back R v n Hv) as (l & Hl & HR & _ & Htc).
  { intros w Hw. by apply Hpred. }
  destruct (decide (NoDup l)) as [Hnd|Hnd].
  - exfalso. assert (length l ≤ n) as H; [|lia]. apply NoDup_bound; [done|].
    intros w Hw. rewrite Forall_forall in HR. by apply Hpred, HR.
  - destruct (not_NoDup l Hnd) as (i & j & a & Hi & Hj & Hij). exists a. by apply (Htc i j).
Qed.

Lemma assert_acyclic_ok {UserError} :
  ∃ r, assert_acyclic (UserError := UserError) s d n = Ok r
    ∧ (acyclic es ∧ r = inl () ∨ ¬ acyclic es ∧ r = inr (InvalidGraph "graph contains a cycle")).
Proof.
  unfold assert_acyclic.
  destruct (kahn_loop_ok (S n) [] d _ kahn_init) as (P & k & HP & Hinv); [simpl; lia|].
  change (length (@nil nat)) with 0 in HP. rewrite HP. simpl. eexists. split; [done|].
  destruct Hinv as [_ _ Hnd Hb Hr Ht]. simpl in *.
  destruct (Nat.eqb_spec (length P) n) as [Heq|Hne].
  - left. split; [|done]. intros v Hv. eapply topo_acyclic; [exact Ht| |exact Hv].
    apply (NoDup_full P n); [done..|].
    destruct (tc_last es _ _ Hv) as (u & _ & Hu). apply elem_of_targets in Hu.
    by apply targets_bound in Hu as [_ ?].
  - right. split; [|done]. intros Hac.
    assert (∃ v, v < n ∧ v ∉ P) as (v & Hvn & HvP).
    { destruct (decide (Forall (λ v, v ∈ P) (seq 0 n))) as [Hall|Hnall].
      - exfalso. apply Hne, Nat.le_antisymm; [by apply NoDup_bound|].
        rewrite <-(length_seq n 0) at 1.
        apply submseteq_length, NoDup_submseteq; [apply NoDup_seq|].
        rewrite Forall_forall in Hall. exact Hall.
      - apply not_Forall_Exists, Exists_exists in Hnall; [|apply _].
        destruct Hnall as (v & Hv%elem_of_seq & HvP). exists v. split; [lia|done]. }
    destruct (closed_cycle (λ v, v < n ∧ v ∉ P) v) as (w & Hw); [done| |by apply (Hac w)].
    intros w [Hwn HwP]. split; [done|].
    destruct (kin_pred es P w) as (u & Hu & HuP); [intros Hz; by apply HwP, (Hr w Hwn)|].
    exists u. split; [done|]. split; [|done].
    apply elem_of_targets in Hu. by apply targets_bound in Hu as [? _].
Qed.

End kahn.
(** ** Depth-first search *)
Section dfs.
Context (es : list (nat * nat)) (n r : nat) (s : list (list nat)) (d : list nat).
Context (Hes : in_bounds es n) (Hadj : adjacency es n s d) (Hr : r < n).

(** Edges that leave a vertex not yet reached. *)
Definition unreached (reach : list bool) : nat :=
  length (filter (λ e, reach !! e.1 = Some false) es).

Record dfs_inv (reach : list bool) (stack : list nat) : Prop := {
  di_len : length reach = n;
  di_stack : ∀ v, v ∈ stack → v < n ∧ rtc (is_edge es) r v;
  di_sound : ∀ v, reach !! v = Some true → rtc (is_edge es) r v;
  di_closed : ∀ u v, reach !! u = Some true → is_edge es u v →
                reach !! v = Some true ∨ v ∈ stack;
  di_root : reach !! r = Some true ∨ r ∈ stack;
}.

Lemma edge_bound u v : is_edge es u v → u < n ∧ v < n.
Proof.
  intros Hv. unfold in_bounds in Hes. rewrite Forall_forall in Hes. by apply Hes in Hv.
Qed.

Lemma unreached_insert reach u :
  reach !! u = Some false →
  unreached (<[u := true]> reach) + length (targets es u) = unreached reach.
Proof.
  intros Hu. assert (u < length reach) as Hlt by (by eapply lookup_lt_Some).
  unfold unreached, targets. rewrite length_fmap. clear Hes Hadj.
  induction es as [|[a b] l IH]; [done|].
  rewrite !filter_cons. simpl. destruct (decide (a = u)) as [->|Hau].
  - rewrite (decide_False (P := <[u := true]> reach !! u = Some false))
      by (by rewrite list_lookup_insert_eq by done).
    rewrite (decide_True (P := reach !! u = Some false)) by done. simpl. lia.
  - rewrite list_lookup_insert_ne by done.
    destruct (decide (reach !! a = Some false)); simpl; lia.
Qed.

Lemma dfs_loop_ok fuel reach stack :
  dfs_inv reach stack → length stack + unreached reach < fuel →
  ∃ reach', dfs_loop fuel s reach stack = Ok reach' ∧ dfs_inv reach' [].
Proof.
  revert reach stack. induction fuel as [|fuel IH]; intros reach stack Hinv Hf; [lia|].
  destruct stack as [|u stack]; [by exists reach|]. destruct Hinv as [Hl Hs Hso Hc Hro].
  cbn [dfs_loop]. destruct (Hs u) as [Hu Hru]; [by left|].
  destruct (lookup_lt_is_Some_2 reach u) as [[] Hb]; [lia|..]; rewrite Hb; simpl.
  - apply IH; [|simpl in Hf; lia]. split; [done| |done|..].
    + intros v Hv. apply Hs. by right.
    + intros x y Hx Hxy. destruct (Hc x y Hx Hxy) as [|[->|]%elem_of_cons]; auto.
    + destruct Hro as [|[->|]%elem_of_cons]; auto.
  - rewrite (adj_succ _ _ _ _ Hadj u Hu). simpl.
    pose proof (unreached_insert reach u Hb) as Hm.
    apply IH; [|rewrite length_app, length_reverse; simpl in Hf; lia].
    assert (u < length reach) as Hlt by (by eapply lookup_lt_Some). split.
    + by rewrite length_insert.
    + intros v [Hv|Hv]%elem_of_app; [rewrite elem_of_reverse in Hv|apply Hs; by right].
      apply elem_of_targets in Hv. split; [by apply edge_bound in Hv as [_ ?]|].
      by eapply rtc_r.
    + intros v. destruct (decide (u = v)) as [->|Huv]; [done|].
      rewrite list_lookup_insert_ne by done. apply Hso.
    + intros x y Hx Hxy. rewrite elem_of_app, elem_of_reverse.
      destruct (decide (u = y)) as [->|Huy].
      { left. by rewrite list_lookup_insert_eq by done. }
      rewrite (list_lookup_insert_ne reach u y) by done.
      destruct (decide (u = x)) as [->|Hux].
      * right. left. by apply elem_of_targets.
      * rewrite list_lookup_insert_ne in Hx by done.
        destruct (Hc x y Hx Hxy) as [|[->|]%elem_of_cons]; auto; done.
    + destruct (decide (u = r)) as [->|Hur].
      { left. by rewrite list_lookup_insert_eq by done. }
      rewrite list_lookup_insert_ne, elem_of_app by done.
      destruct Hro as [|[->|]%elem_of_cons]; auto; done.
Qed.

Lemma assert_reachable_ok {UserError} :
  ∃ res, assert_reachable (UserError := UserError) s r n = Ok res
    ∧ (all_reachable es r n ∧ res = inl ()
       ∨ ¬ all_reachable es r n
         ∧ res = inr (InvalidGraph "every vertex must be reachable from the root")).
Proof.
  unfold assert_reachable.
  destruct (dfs_loop_ok (dfs_fuel s) (replicate n false) [r]) as (reach & -> & Hinv).
  { split.
    - apply length_replicate.
    - intros v ->%list_elem_of_singleton. split; [done|apply rtc_refl].
    - intros v [? _]%lookup_replicate_1. done.
    - intros u v [? _]%lookup_replicate_1. done.
    - right. by left. }
  { unfold dfs_fuel, unreached. rewrite (adj_edges _ _ _ _ Hadj). simpl.
    pose proof (length_filter (λ e, replicate n false !! e.1 = Some false) es). lia. }
  simpl. eexists. split; [done|]. destruct Hinv as [Hl _ Hso Hc Hro].
  destruct (existsb negb reach) eqn:E.
  - right. split; [|done]. intros Hall. apply existsb_exists in E as ([] & Hin & ?); [done|].
    apply list_elem_of_In, list_elem_of_lookup_1 in Hin as [v Hv].
    assert (v < n) as Hvn by (rewrite <-Hl; by eapply lookup_lt_Some).
    assert (∀ w, rtc (is_edge es) r w → reach !! w = Some true) as Hcl.
    { intros w Hw. apply (rtc_ind_r (R := is_edge es) (λ w, reach !! w = Some true) r); [| |done].
      - destruct Hro as [|?%elem_of_nil]; done.
      - intros x y _ Hxy Hx. destruct (Hc x y Hx Hxy) as [|?%elem_of_nil]; done. }
    rewrite (Hcl v) in Hv by (by apply Hall). done.
  - left. split; [|done]. intros v Hv.
    destruct (lookup_lt_is_Some_2 reach v) as [b Hb]; [lia|]. destruct b; [by apply Hso|].
    assert (existsb negb reach = true) as E'; [|congruence].
    apply existsb_exists. exists false. split; [|done].
    by eapply list_elem_of_In, list_elem_of_lookup_2.
Qed.
End dfs.

(** ** The builder *)
Section finish.
Context {Decl UserError : Type}.
Implicit Types b : GraphBuilder Decl UserError.

(** The reason a builder is rejected: the first failing check, in the order
    empty, root, edges (first offending edge), cycle, reachability, triggers. *)
Inductive rejected b : ExecutorError UserError → Prop :=
| rej_empty : items b = [] → rejected b (InvalidGraph "graph has no vertices")
| rej_no_root : items b ≠ [] → root b = None → rejected b (InvalidGraph "no root vertex set")
| rej_root r : items b ≠ [] → root b = Some r → length (items b) ≤ r →
    rejected b (InvalidGraph "root index out of bounds")
| rej_edge r es e es' : root b = Some r → r < length (items b) →
    edges b = es ++ e :: es' → in_bounds es (length (items b)) →
    Forall (λ e, e.1 ≠ e.2) es → ¬ (e.1 < length (items b) ∧ e.2 < length (items b)) →
    rejected b (InvalidGraph "edge index out of bounds")
| rej_loop r es e es' : root b = Some r → r < length (items b) →
    edges b = es ++ e :: es' → in_bounds es (length (items b)) →
    Forall (λ e, e.1 ≠ e.2) es → e.1 < length (items b) ∧ e.2 < length (items b) →
    e.1 = e.2 → rejected b (InvalidGraph "self-loops are not allowed")
| rej_cycle r : root b = Some r → r < length (items b) →
    in_bounds (edges b) (length (items b)) → Forall (λ e, e.1 ≠ e.2) (edges b) →
    ¬ acyclic (edges b) → rejected b (InvalidGraph "graph contains a cycle")
| rej_unreachable r : root b = Some r → r < length (items b) →
    in_bounds (edges b) (length (items b)) → acyclic (edges b) →
    ¬ all_reachable (edges b) r (length (items b)) →
    rejected b (InvalidGraph "every vertex must be reachable from the root")
| rej_declare r it e : root b = Some r → r < length (items b) →
    in_bounds (edges b) (length (items b)) → acyclic (edges b) →
    all_reachable (edges b) r (length (items b)) →
    items b !! r = Some it → declare_triggers it = inr e → rejected b (DeclareFailed e).

(** What an accepted builder satisfies, and the graph it becomes. *)
Definition accepted b (g : Graph Decl UserError) : Prop :=
  root b = Some (g_root g) ∧ g_root g < length (items b)
  ∧ in_bounds (edges b) (length (items b)) ∧ acyclic (edges b)
  ∧ all_reachable (edges b) (g_root g) (length (items b))
  ∧ adjacency (edges b) (length (items b)) (successors g) (in_degree g)
  ∧ g_items g = items b
  ∧ ∃ it, items b !! g_root g = Some it ∧ declare_triggers it = inl (decls g).

(** The first edge that is out of bounds or a self-loop, if any. *)
Lemma first_bad es n :
  in_bounds es n ∧ Forall (λ e, e.1 ≠ e.2) es
  ∨ ∃ l e l', es = l ++ e :: l' ∧ in_bounds l n ∧ Forall (λ e, e.1 ≠ e.2) l
      ∧ (¬ (e.1 < n ∧ e.2 < n) ∨ e.1 = e.2).
Proof.
  induction es as [|e es IH]; [left; by split; constructor|].
  destruct (decide ((e.1 < n ∧ e.2 < n) ∧ e.1 ≠ e.2)) as [[Hb Hl]|Hbad].
  - destruct IH as [[Hb' Hl']|(l & e' & l' & -> & Hb' & Hl' & He')].
    + left. by split; constructor.
    + right. exists (e :: l), e', l'. split_and!; [done|by constructor|by constructor|done].
  - right. exists [], e, es. split_and!; [done|constructor|constructor|].
    destruct (decide (e.1 = e.2)); [by right|]. left. naive_solver.
Qed.

Lemma acyclic_no_loops es : acyclic es → Forall (λ e, e.1 ≠ e.2) es.
Proof.
  intros Hac. apply Forall_forall. intros [u v] Hin. simpl. intros ->.
  apply (Hac v). by apply tc_once.
Qed.

Lemma finish_spec b :
  (∃ g, finish b = Ok (inl g) ∧ accepted b g) ∨ (∃ e, finish b = Ok (inr e) ∧ rejected b e).
Proof.
  unfold finish, try, validate_root. destruct (items b) as [|it0 its] eqn:Hit.
  { right. eexists. split; [done|]. by apply rej_empty. }
  rewrite <-Hit. assert (items b ≠ []) as Hne by (by rewrite Hit).
  rewrite (proj2 (Nat.eqb_neq (length (items b)) 0)) by (rewrite Hit; simpl; lia).
  destruct (root b) as [r|] eqn:Hroot; simpl; [|right; eexists; split; [done|by apply rej_no_root]].
  destruct (Nat.leb_spec (length (items b)) r) as [Hr|Hr]; simpl.
  { right. eexists. split; [done|]. by eapply rej_root. }
  destruct (first_bad (edges b) (length (items b)))
    as [[Hb Hl]|(es & e & es' & He & Hb & Hl & Hbad)].
  2: { right. rewrite He. unfold build_adjacency.
       rewrite build_loop_err by (done || by rewrite length_replicate). simpl.
       eexists. split; [done|]. case_decide as Hd.
       - eapply rej_loop; [done..|]. destruct Hbad; tauto.
       - by eapply rej_edge. }
  destruct (build_adjacency_ok (UserError := UserError) _ _ Hb Hl) as (s & d & -> & Hadj). simpl.
  destruct (assert_acyclic_ok _ _ _ _ Hb Hadj (UserError := UserError))
    as (ra & -> & [[Hac ->]|[Hac ->]]); simpl; [|right; eexists; split; [done|by eapply rej_cycle]].
  destruct (assert_reachable_ok _ _ r _ _ Hb Hadj Hr (UserError := UserError))
    as (rr & -> & [[Hre ->]|[Hre ->]]); simpl;
    [|right; eexists; split; [done|by eapply rej_unreachable]].
  unfold collect_root_decls. destruct (lookup_lt_is_Some_2 (items b) r Hr) as [it Hi].
  rewrite Hi. simpl. destruct (declare_triggers it) as [ds|e] eqn:Hd; simpl.
  - left. eexists. split; [done|]. split_and!; simpl; try done. by exists it.
  - right. eexists. split; [done|]. by eapply rej_declare.
Qed.
End finish.

(** C1. The graph builder's validation is exact: on every builder [finish]
    returns (its loops terminate and nothing panics); it succeeds precisely on
    the builders whose edges form an acyclic graph, in bounds, with every vertex
    reachable from the root, and then yields that graph with the successors in
    insertion order and the true in-degrees; otherwise it reports the first
    violated condition. *)
Theorem finish_exact {Decl UserError} (b : GraphBuilder Decl UserError) :
  match finish b with
  | Ok (inl g) => accepted b g
  | Ok (inr e) => rejected b e
  | Panic => False
  end.
Proof.
  by destruct (finish_spec b) as [(g & -> & H)|(e & -> & H)].
Qed.

End ExecGraphOk.
