(* ===== verification/ExecSched.v ===== *)
(** * The graph scheduler of the executor

    Models the dispatch half of [taktora-executor/src/graph.rs]: the shared
    state [GraphShared], the per-vertex job built by [prepare_dispatch], the
    cancellation of a subtree and the dispatch loop [run_once_borrowed].  Jobs
    run on pool workers, so the model is a transition system in which every
    access to a shared atomic, to the ready ring or to the pool's queue is one
    step, and the steps of the jobs and of the dispatching thread interleave
    freely (sequentially consistent: every access in the source is [AcqRel],
    [Acquire] or [Release], or precedes the dispatch).

    The ready ring is a bounded FIFO queue with single-step push and pop here;
    [ExecSchedRing] refines it to the accesses of the real ring.  The condvar
    wait is a return to the polling loop. *)

From stdpp Require Import base list.
From Stdlib Require Import ZArith Lia.
From S2P Require Import Prelude ExecGraph.

Module ExecSched.
#[local] Open Scope Z_scope.

Definition USIZE_MAX : Z := 2 ^ 64 - 1.

(** The result of one item: [Ok(Continue)], [Ok(StopChain)] or [Err(e)]. *)
Inductive ItemResult {E : Type} :=
| Continue
| StopChain
| Failed (e : E).
Arguments ItemResult : clear implicits.

(** Where a vertex job stands. *)
Inductive pc :=
| PIdle                                        (* not started in this run *)
| PStart                                       (* before [stop_flag.load] *)
| PSkip                                        (* [finalise_skipped], before its [fetch_sub] *)
| PExec                                        (* about to execute the item *)
| PFlow                                        (* item returned, flags to be stored *)
| PStopFlag                                    (* [stop_chain_seen] stored *)
| PErr                                         (* [stop_flag] stored, error to be recorded *)
| PDec                                         (* before [pending.fetch_sub] *)
| PCheck                                       (* before the second [stop_flag.load] *)
| PReady (js : list nat)                       (* successors still to be decremented *)
| PPush (j : nat) (js : list nat)              (* successor [j] to be pushed *)
| PCancel (stack : list nat) (js : list nat)   (* in [cancel_subtree] *)
| PCancelDec (u : nat) (stack : list nat) (js : list nat)
| PDone.

#[export] Instance pc_eq_dec : EqDecision pc.
Proof. solve_decision. Defined.

(** Where the dispatching thread stands in [run_once_borrowed]. *)
Inductive mpc :=
| MSeed (i : nat)
| MPop
| MLoad
| MRecheck
| MReturned.

#[export] Instance mpc_eq_dec : EqDecision mpc.
Proof. solve_decision. Defined.

Section sched.
Context {E : Type}.
(** The graph: adjacency and initial in-degrees; what each item returns. *)
Context (succs : list (list nat)) (in_degree : list nat) (outcome : nat → ItemResult E).

Definition n_items : nat := length succs.
Definition succ_of (i : nat) : list nat := default [] (succs !! i).

Record sched := MkSched {
  counters : list Z;
  pending : Z;
  stop_flag : bool;
  stop_chain_seen : bool;
  first_err : option E;
  ring : list nat;
  queued : list nat;
  pcs : list pc;
  main : mpc;
  log : list nat;
}.

(** [ReadyRing::new(n)] holds at least [n] entries. *)
Definition ring_cap : nat := (2 ^ Nat.log2_up (Nat.max n_items 2))%nat.

Definition set_pc (s : sched) (i : nat) (p : pc) : sched :=
  MkSched (counters s) (pending s) (stop_flag s) (stop_chain_seen s) (first_err s)
    (ring s) (queued s) (<[i := p]> (pcs s)) (main s) (log s).
Definition set_pending (s : sched) (v : Z) : sched :=
  MkSched (counters s) v (stop_flag s) (stop_chain_seen s) (first_err s)
    (ring s) (queued s) (pcs s) (main s) (log s).
Definition set_counters (s : sched) (c : list Z) : sched :=
  MkSched c (pending s) (stop_flag s) (stop_chain_seen s) (first_err s)
    (ring s) (queued s) (pcs s) (main s) (log s).
Definition set_ring (s : sched) (r : list nat) : sched :=
  MkSched (counters s) (pending s) (stop_flag s) (stop_chain_seen s) (first_err s)
    r (queued s) (pcs s) (main s) (log s).
Definition set_queued (s : sched) (q : list nat) : sched :=
  MkSched (counters s) (pending s) (stop_flag s) (stop_chain_seen s) (first_err s)
    (ring s) q (pcs s) (main s) (log s).
Definition set_main (s : sched) (m : mpc) : sched :=
  MkSched (counters s) (pending s) (stop_flag s) (stop_chain_seen s) (first_err s)
    (ring s) (queued s) (pcs s) m (log s).
Definition set_flags (s : sched) (stop chain : bool) (err : option E) : sched :=
  MkSched (counters s) (pending s) stop chain err
    (ring s) (queued s) (pcs s) (main s) (log s).
Definition push_log (s : sched) (i : nat) : sched :=
  MkSched (counters s) (pending s) (stop_flag s) (stop_chain_seen s) (first_err s)
    (ring s) (queued s) (pcs s) (main s) (log s ++ [i]).

(** The state [run_once_borrowed] starts from after its reset. *)
Definition reset : sched :=
  {| counters := Z.of_nat <$> in_degree; pending := Z.of_nat n_items; stop_flag := false;
     stop_chain_seen := false; first_err := None; ring := []; queued := [];
     pcs := replicate n_items PIdle; main := MSeed 0; log := [] |}.

(** [Pool::submit_shared] of vertex [i]. *)
Definition dispatch_vertex (s : sched) (i : nat) : sched :=
  set_queued s (queued s ++ [i]).

(** One step of the dispatching thread. *)
Definition step_main (s : sched) : option sched :=
  match main s with
  | MSeed i =>
      if (i <? n_items)%nat then
        Some (set_main
          (if bool_decide (in_degree !! i = Some 0%nat) then dispatch_vertex s i else s)
          (MSeed (S i)))
      else Some (set_main s MPop)
  | MPop =>
      match ring s with
      | i :: r => Some (dispatch_vertex (set_ring s r) i)
      | [] => Some (set_main s MLoad)
      end
  | MLoad => Some (set_main s (if pending s =? 0 then MReturned else MRecheck))
  | MRecheck => Some (set_main s (if pending s =? 0 then MReturned else MPop))
  | MReturned => None
  end.

(** A worker takes the [k]-th queued job; a job whose cell is busy panics. *)
Definition step_start (s : sched) (k : nat) : option (res sched) :=
  match queued s !! k with
  | None => None
  | Some i =>
      match pcs s !! i with
      | Some PIdle | Some PDone =>
          Some (Ok (set_pc (set_queued s (delete k (queued s))) i PStart))
      | _ => Some Panic
      end
  end.

(** [pending.fetch_sub(1)]: the previous value, and the wrapped new one. *)
Definition fetch_sub_pending (s : sched) : Z * sched :=
  (pending s, set_pending s (wrap 64 (pending s - 1))).

(** The first step of [cancel_subtree(j)] for the next successor of [js]. *)
Definition cancel_next (js : list nat) : pc :=
  match js with [] => PDone | j :: js => PCancel [j] js end.

(** One step of vertex job [i]. *)
Definition step_job (s : sched) (i : nat) : option (res sched) :=
  match pcs s !! i with
  | None | Some PIdle | Some PDone => None
  | Some PStart => Some (Ok (set_pc s i (if stop_flag s then PSkip else PExec)))
  | Some PSkip =>
      let '(prev, s) := fetch_sub_pending s in
      Some (Ok (set_pc s i (if prev =? 1 then PDone else cancel_next (succ_of i))))
  | Some PExec => Some (Ok (set_pc (push_log s i) i PFlow))
  | Some PFlow =>
      Some (Ok match outcome i with
               | Continue => set_pc s i PDec
               | StopChain => set_pc (set_flags s (stop_flag s) true (first_err s)) i PStopFlag
               | Failed _ => set_pc (set_flags s true (stop_chain_seen s) (first_err s)) i PErr
               end)
  | Some PStopFlag =>
      Some (Ok (set_pc (set_flags s true (stop_chain_seen s) (first_err s)) i PDec))
  | Some PErr =>
      let err := match first_err s, outcome i with
                 | None, Failed e => Some e
                 | fe, _ => fe end in
      Some (Ok (set_pc (set_flags s (stop_flag s) (stop_chain_seen s) err) i PDec))
  | Some PDec =>
      let '(prev, s) := fetch_sub_pending s in
      Some (Ok (set_pc s i (if prev =? 1 then PDone else PCheck)))
  | Some PCheck =>
      Some (Ok (set_pc s i (if stop_flag s then cancel_next (succ_of i)
                            else PReady (succ_of i))))
  | Some (PReady []) => Some (Ok (set_pc s i PDone))
  | Some (PReady (j :: js)) =>
      Some (c ← expect (counters s !! j);
            Ok (set_pc (set_counters s (<[j := wrap 64 (c - 1)]> (counters s))) i
                  (if c =? 1 then PPush j js else PReady js)))
  | Some (PPush j js) =>
      Some (if (ring_cap <=? length (ring s))%nat then Panic
            else Ok (set_pc (set_ring s (ring s ++ [j])) i (PReady js)))
  | Some (PCancel [] js) => Some (Ok (set_pc s i (cancel_next js)))
  | Some (PCancel (u :: stack) js) =>
      Some (prev ← expect (counters s !! u);
            Ok (set_pc (set_counters s (<[u := USIZE_MAX]> (counters s))) i
                  (if prev =? USIZE_MAX then PCancel stack js
                   else PCancelDec u stack js)))
  | Some (PCancelDec u stack js) =>
      let '(prev, s) := fetch_sub_pending s in
      Some (Ok (set_pc s i (if prev =? 1 then cancel_next js
                            else PCancel (reverse (succ_of u) ++ stack) js)))
  end.

Inductive who :=
| Main
| Start (k : nat)
| Job (i : nat).

Definition step_of (s : sched) (w : who) : option (res sched) :=
  match w with
  | Main => Ok <$> step_main s
  | Start k => step_start s k
  | Job i => step_job s i
  end.

Inductive sched_step : sched → sched → Prop :=
| sched_step_intro s w s' : step_of s w = Some (Ok s') → sched_step s s'.

(** A schedule, executed. *)
Fixpoint run_schedule (s : sched) (ws : list who) : option (res sched) :=
  match ws with
  | [] => Some (Ok s)
  | w :: ws =>
      match step_of s w with
      | Some (Ok s) => run_schedule s ws
      | r => r
      end
  end.

End sched.
End ExecSched.
