(* ===== verification/ExecSchedOk.v ===== *)
(** * Correctness of the graph scheduler

    When every item continues, every interleaving of workers and dispatcher
    executes each vertex exactly once, after all its predecessors; nothing
    panics, and the run can always be completed.  When an item fails, the
    cancellation path can decrement [pending] twice for one vertex: a concrete
    schedule makes [run_once_borrowed] return while a vertex is still to
    execute. *)

From stdpp Require Import base list strings relations.
From Stdlib Require Import ZArith Lia.
From S2P Require Import Prelude ExecGraph ExecGraphOk ExecSched.

Module ExecSchedOk.
Import ExecGraph ExecGraphOk ExecSched.
#[local] Open Scope nat_scope.

(** ** Sums over the jobs *)

Definition total (f : nat → pc → nat) (l : list pc) : nat := sum_list (imap f l).

Lemma total_insert f l i x y :
  l !! i = Some x → total f (<[i := y]> l) + f i x = total f l + f i y.
Proof.
  unfold total. revert f i. induction l as [|z l IH]; intros f [|i] H; try done; simpl in *.
  - injection H as ->. lia.
  - specialize (IH (f ∘ S) i H). simpl in IH. lia.
Qed.

Lemma total_ge f l i x : l !! i = Some x → f i x ≤ total f l.
Proof.
  unfold total. revert f i. induction l as [|z l IH]; intros f [|i] H; try done; simpl in *.
  - injection H as ->. lia.
  - specialize (IH (f ∘ S) i H). simpl in IH. lia.
Qed.

Lemma total_ge2 f l i j x y : i ≠ j → l !! i = Some x → l !! j = Some y →
  f i x + f j y ≤ total f l.
Proof.
  intros Hij Hi Hj. pose proof (total_insert (λ k p, if decide (k = i) then 0 else f k p) l i x x Hi) as H.
  pose proof (total_ge (λ k p, if decide (k = i) then 0 else f k p) l j y Hj) as Hge. simpl in Hge.
  rewrite decide_False in Hge by done.
  assert (total f l = f i x + total (λ k p, if decide (k = i) then 0 else f k p) l) as Heq; [|lia].
  clear -Hi. unfold total. revert f i Hi. induction l as [|z l IH]; intros f [|i] Hi; try done; simpl in *.
  - by injection Hi as ->.
  - specialize (IH (f ∘ S) i Hi). simpl in IH. rewrite IH.
    replace (sum_list (imap ((λ k p, if decide (k = S i) then 0 else f k p) ∘ S) l))
      with (sum_list (imap (λ k p, if decide (k = i) then 0 else f (S k) p) l)); [lia|].
    f_equal. apply imap_ext. intros k p _. simpl. by repeat case_decide; try lia.
Qed.

Lemma total_zero f l : total f l = 0 → ∀ i x, l !! i = Some x → f i x = 0.
Proof. intros H i x Hi. pose proof (total_ge f l i x Hi). lia. Qed.

Lemma total_le_length f l : (∀ i p, f i p ≤ 1) → total f l ≤ length l.
Proof.
  unfold total. revert f. induction l as [|z l IH]; intros f H; [done|]. simpl.
  pose proof (H 0 z). specialize (IH (f ∘ S) (λ i p, H (S i) p)). lia.
Qed.

Lemma total_add f g l : total (λ i p, f i p + g i p) l = total f l + total g l.
Proof.
  unfold total. revert f g. induction l as [|z l IH]; intros f g; [done|]. simpl.
  specialize (IH (f ∘ S) (g ∘ S)). simpl in IH. unfold compose in *. simpl in *. lia.
Qed.

Lemma total_single a x l :
  a < length l → total (λ i _, if decide (a = i) then x else 0) l = x.
Proof.
  unfold total. revert a. induction l as [|z l IH]; intros a Ha; simpl in *; [lia|].
  destruct a as [|a]; simpl.
  - rewrite (imap_ext _ (λ _ _, 0)) by done. clear.
    replace (sum_list (imap (λ _ _, 0) l)) with 0; [lia|]. induction l; simpl; auto.
  - etrans; [|apply (IH a); lia]. f_equal. apply imap_ext. intros k p _. simpl.
    repeat case_decide; try done; lia.
Qed.

Lemma total_zero_2 f l : (∀ i x, l !! i = Some x → f i x = 0) → total f l = 0.
Proof.
  unfold total. revert f. induction l as [|z l IH]; intros f H; [done|]. simpl.
  rewrite (H 0 z) by done. apply IH. intros i x Hi. by apply (H (S i)).
Qed.

Section ok.
Context {E : Type} (es : list (nat * nat)) (n : nat).
Context (succs : list (list nat)) (deg : list nat) (outcome : nat → ItemResult E).
Context (Hes : in_bounds es n) (Hadj : adjacency es n succs deg) (Hac : acyclic es).
Context (Hsize : (Z.of_nat n < 2 ^ 64)%Z) (Hedges : (Z.of_nat (length es) < 2 ^ 64)%Z).
Context (Hout : ∀ i, outcome i = Continue).

Abbreviation sched := (@ExecSched.sched E).
Abbreviation step := (sched_step succs deg outcome).

Lemma succ_of_targets i : i < n → succ_of succs i = targets es i.
Proof. intros Hi. unfold succ_of. by rewrite (adj_succ _ _ _ _ Hadj i Hi). Qed.

(** Successors a job has still to decrement. *)
Definition rem (i : nat) (p : pc) : list nat :=
  match p with
  | PReady js | PPush _ js => js
  | PDone => []
  | _ => succ_of succs i
  end.
Definition undone (i : nat) (p : pc) : nat :=
  match p with PIdle | PStart | PExec | PFlow | PDec => 1 | _ => 0 end.
Definition started (p : pc) : nat := match p with PIdle => 0 | _ => 1 end.
Definition executed (p : pc) : bool :=
  match p with PIdle | PStart | PExec => false | _ => true end.
Definition pushing (v i : nat) (p : pc) : nat :=
  match p with PPush j _ => if decide (j = v) then 1 else 0 | _ => 0 end.
(** The states a job passes through when no item stops the graph. *)
Definition plain (p : pc) : Prop :=
  match p with
  | PIdle | PStart | PExec | PFlow | PDec | PCheck | PReady _ | PPush _ _ | PDone => True
  | _ => False
  end.

(** Edges into [v] not yet decremented. *)
Definition waits (s : sched) (v : nat) : nat := total (λ u p, occ v (rem u p)) (pcs s).
(** The seed loop has yet to reach [v], a source vertex. *)
Definition seed (s : sched) (v : nat) : nat :=
  match main s with
  | MSeed k => if decide (k ≤ v ∧ deg !! v = Some 0) then 1 else 0
  | _ => 0
  end.
(** Where vertex [v] is on its way to execution. *)
Definition tokens (s : sched) (v : nat) (p : pc) : nat :=
  occ v (ring s) + occ v (queued s) + total (pushing v) (pcs s) + started p + seed s v.

Record inv (s : sched) : Prop := {
  iv_cnt : ∀ v, v < n → counters s !! v = Some (Z.of_nat (waits s v));
  iv_len : length (pcs s) = n;
  iv_stop : stop_flag s = false ∧ stop_chain_seen s = false ∧ first_err s = None;
  iv_pend : pending s = Z.of_nat (total undone (pcs s));
  iv_plain : ∀ i p, pcs s !! i = Some p → plain p ∧ (∀ v, v ∈ rem i p → v ∈ targets es i)
                     ∧ (∀ j js, p = PPush j js → j < n);
  iv_tok : ∀ v p, pcs s !! v = Some p → tokens s v p = if decide (waits s v = 0) then 1 else 0;
  iv_queue : (∀ v, v ∈ ring s → v < n) ∧ (∀ v, v ∈ queued s → v < n);
  iv_log : topo es (reverse (log s));
  iv_exec : ∀ v p, pcs s !! v = Some p → (v ∈ log s ↔ executed p = true);
  iv_logb : ∀ v, v ∈ log s → v < n;
  iv_ret : main s = MReturned → pending s = 0%Z;
  iv_small : ∀ v, waits s v ≤ length es;
}.

Lemma occ_app v l k : occ v (l ++ k) = occ v l + occ v k.
Proof. unfold occ. by rewrite filter_app, length_app. Qed.

Lemma inv_lookup s i : inv s → i < n → ∃ p, pcs s !! i = Some p.
Proof. intros Hinv Hi. apply lookup_lt_is_Some_2. by rewrite (iv_len s Hinv). Qed.

(** Counters stay small: at most one unit per edge. *)
Lemma waits_zero s v : inv s → waits s v = 0 ↔
  ∀ u p, pcs s !! u = Some p → v ∉ rem u p.
Proof.
  intros Hinv. unfold waits. split.
  - intros H u p Hu Hv. pose proof (total_zero _ _ H u p Hu) as Hz. simpl in Hz.
    apply occ_pos in Hv. lia.
  - intros H. apply total_zero_2. intros u p Hu. specialize (H u p Hu).
    destruct (occ v (rem u p)) eqn:Ho; [done|]. exfalso. apply H, occ_pos. lia.
Qed.

(** A started vertex has all its predecessors executed. *)
Lemma ready_preds s v p : inv s → pcs s !! v = Some p → 1 ≤ tokens s v p →
  ∀ u, is_edge es u v → u ∈ log s.
Proof.
  intros Hinv Hv Ht u Hu. rewrite (iv_tok s Hinv v p Hv) in Ht.
  destruct (decide (waits s v = 0)) as [Hz|]; [|lia].
  destruct (inv_lookup s u Hinv) as [q Hq].
  { apply elem_of_targets in Hu. by eapply targets_bound in Hu as [? _]. }
  pose proof (proj1 (waits_zero s v Hinv) Hz u q Hq) as Hn.
  apply (iv_exec s Hinv u q Hq).
  assert (u < n) as Hun by (rewrite <-(iv_len s Hinv); by eapply lookup_lt_Some).
  apply elem_of_targets in Hu. rewrite <-succ_of_targets in Hu by done.
  pose proof (proj1 (iv_plain s Hinv u q Hq)) as Hpl.
  destruct q; simpl in *; try done; tauto.
Qed.

(** ** Preservation *)

Definition keep (s s' : sched) : Prop :=
  counters s' = counters s ∧ stop_flag s' = stop_flag s
  ∧ stop_chain_seen s' = stop_chain_seen s ∧ first_err s' = first_err s.

(** The dispatching thread moves tokens, and nothing else. *)
Lemma inv_main s s' : inv s → keep s s' → pcs s' = pcs s → pending s' = pending s →
  log s' = log s →
  (∀ v, occ v (ring s') + occ v (queued s') + seed s' v
        = occ v (ring s) + occ v (queued s) + seed s v) →
  (∀ v, v ∈ ring s' → v < n) → (∀ v, v ∈ queued s' → v < n) →
  (main s' = MReturned → pending s = 0%Z) → inv s'.
Proof.
  intros Hinv (Hc & H1 & H2 & H3) Hp Hpe Hl Htok Hr Hq Hret.
  destruct Hinv as [I1 I2 I3 I4 I5 I6 I7 I8 I9 I10 I11 I12].
  assert (∀ v, waits s' v = waits s v) as Hw by (intros v; unfold waits; by rewrite Hp).
  split; rewrite ?Hc, ?Hp, ?Hpe, ?Hl, ?H1, ?H2, ?H3; try done.
  - intros v Hv. rewrite Hw. by apply I1.
  - intros v p Hv. rewrite Hw, <-(I6 v p Hv). unfold tokens. rewrite Hp.
    specialize (Htok v). lia.
  - intros v. rewrite Hw. apply I12.
Qed.

Lemma seed_returned s m v : (∀ k, m ≠ MSeed k) → seed (set_main s m) v = 0.
Proof. unfold seed. simpl. destruct m; naive_solver. Qed.

Lemma step_main_inv s s' : inv s → step_main succs deg s = Some s' → inv s'.
Proof.
  intros Hinv. pose proof (iv_queue s Hinv) as [Hr Hq]. unfold step_main.
  destruct (main s) as [k| | | |] eqn:Hm; [|..|done].
  - unfold n_items. rewrite (adj_len _ _ _ _ Hadj).
    destruct (Nat.ltb_spec k n) as [Hk|Hk]; intros [= <-].
    + case_bool_decide as Hd.
      * apply (inv_main s); try done; simpl.
        -- intros v. unfold seed. simpl. rewrite Hm, occ_app, occ_cons.
           change (occ v []) with 0. repeat case_decide; naive_solver lia.
        -- intros v [Hv|Hv%list_elem_of_singleton]%elem_of_app; [auto|by subst].
      * apply (inv_main s); try done; simpl. intros v. unfold seed. simpl. rewrite Hm.
        repeat case_decide; try lia; exfalso; destruct (decide (k = v)); naive_solver lia.
    + apply (inv_main s); try done; simpl.
      intros v. unfold seed. simpl. rewrite Hm. case_decide as Hd; [|done].
      exfalso. destruct Hd as [Hkv Hd]. apply lookup_lt_Some in Hd.
      rewrite (adj_dlen _ _ _ _ Hadj) in Hd. lia.
  - destruct (ring s) as [|i r] eqn:Hring; intros [= <-].
    + apply (inv_main s); try done; simpl; [|by rewrite Hring..].
      intros v. unfold seed. simpl. by rewrite Hm.
    + apply (inv_main s); try done; simpl.
      * intros v. unfold seed. simpl. rewrite Hm, Hring, occ_app, !occ_cons.
        change (occ v []) with 0. lia.
      * intros v Hv. apply Hr. by right.
      * intros v [Hv|Hv%list_elem_of_singleton]%elem_of_app; [auto|]. subst. apply Hr. by left.
      * by rewrite Hm.
  - intros [= <-]. apply (inv_main s); try done; simpl.
    + intros v. unfold seed. simpl. rewrite Hm. by destruct (_ =? _)%Z.
    + by destruct (Z.eqb_spec (pending s) 0).
  - intros [= <-]. apply (inv_main s); try done; simpl.
    + intros v. unfold seed. simpl. rewrite Hm. by destruct (_ =? _)%Z.
    + by destruct (Z.eqb_spec (pending s) 0).
Qed.

(** A job step that decrements no successor. *)
Lemma inv_job s s' i p q :
  inv s → pcs s !! i = Some p → pcs s' = <[i := q]> (pcs s) → keep s s' → main s' = main s →
  rem i q = rem i p → undone i q ≤ undone i p → plain q → (∀ j js, q = PPush j js → j < n) →
  (pending s' + Z.of_nat (undone i p) = pending s + Z.of_nat (undone i q))%Z →
  (∀ v, occ v (ring s') + occ v (queued s') + pushing v i q
        + (if decide (v = i) then started q else 0)
        = occ v (ring s) + occ v (queued s) + pushing v i p
        + (if decide (v = i) then started p else 0)) →
  (∀ v, v ∈ ring s' → v < n) → (∀ v, v ∈ queued s' → v < n) →
  (log s' = log s ∧ executed q = executed p
   ∨ log s' = log s ++ [i] ∧ executed p = false ∧ executed q = true ∧ started p = 1) →
  inv s'.
Proof.
  intros Hinv Hi Hp (Hc & H1 & H2 & H3) Hm Hrem Hun Hpl Hpush Hpe Htok Hr Hq Hlog.
  assert (i < n) as Hin by (rewrite <-(iv_len s Hinv); by eapply lookup_lt_Some).
  assert (∀ v, waits s' v = waits s v) as Hw.
  { intros v. unfold waits. rewrite Hp.
    pose proof (total_insert (λ u p, occ v (rem u p)) (pcs s) i p q Hi) as H. simpl in H.
    rewrite Hrem in H. lia. }
  assert (∀ v x, pcs s' !! v = Some x → v = i ∧ x = q ∨ v ≠ i ∧ pcs s !! v = Some x) as Hlk.
  { intros v x. rewrite Hp. intros [(<- & <- & _)|[Hne Hx]]%list_lookup_insert_Some; auto. }
  assert (main s' = MReturned → undone i p = 0 ∧ pending s = 0%Z) as Hret.
  { intros HR. rewrite Hm in HR. pose proof (iv_ret s Hinv HR) as H0. split; [|done].
    rewrite (iv_pend s Hinv) in H0. pose proof (total_ge undone (pcs s) i p Hi). lia. }
  assert (∀ v x, pcs s' !! v = Some x → v ∈ log s' ↔ executed x = true) as Hex.
  { intros v x Hx. destruct (Hlk v x Hx) as [[-> ->]|[Hne Hx']];
      destruct Hlog as [[-> He]|(-> & He & He' & _)].
    - rewrite (iv_exec s Hinv i p Hi). by rewrite He.
    - rewrite elem_of_app, list_elem_of_singleton. naive_solver.
    - by apply (iv_exec s Hinv).
    - rewrite elem_of_app, list_elem_of_singleton, (iv_exec s Hinv v x Hx'). naive_solver. }
  pose proof (iv_plain s Hinv i p Hi) as (_ & Hsub & _). split.
  - intros v Hv. rewrite Hc, Hw. by apply (iv_cnt s Hinv).
  - rewrite Hp, length_insert. apply (iv_len s Hinv).
  - rewrite H1, H2, H3. apply (iv_stop s Hinv).
  - pose proof (total_insert undone (pcs s) i p q Hi) as H. rewrite <-Hp in H.
    pose proof (iv_pend s Hinv). lia.
  - intros v x Hx. destruct (Hlk v x Hx) as [[-> ->]|[Hne Hx']]; [|by apply (iv_plain s Hinv)].
    split_and!; [done| |done]. by rewrite Hrem.
  - intros v x Hx. rewrite Hw. unfold tokens.
    pose proof (total_insert (pushing v) (pcs s) i p q Hi) as H. rewrite <-Hp in H.
    specialize (Htok v). assert (seed s' v = seed s v) as Hsd by (unfold seed; by rewrite Hm).
    destruct (Hlk v x Hx) as [[-> ->]|[Hne Hx']].
    + rewrite <-(iv_tok s Hinv i p Hi). unfold tokens. rewrite !decide_True in Htok by done. lia.
    + rewrite <-(iv_tok s Hinv v x Hx'). unfold tokens. rewrite !decide_False in Htok by done. lia.
  - done.
  - destruct Hlog as [[-> _]|(-> & He & _ & Hst)]; [apply (iv_log s Hinv)|].
    rewrite reverse_app. simpl. constructor.
    + apply (iv_log s Hinv).
    + rewrite elem_of_reverse, (iv_exec s Hinv i p Hi). by rewrite He.
    + intros u Hu. rewrite elem_of_reverse. apply (ready_preds s i p Hinv Hi); [|done].
      unfold tokens. lia.
  - done.
  - intros v Hv. destruct Hlog as [[Hl _]|(Hl & _)]; rewrite Hl in Hv.
    + by apply (iv_logb s Hinv).
    + apply elem_of_app in Hv as [Hv|Hv%list_elem_of_singleton]; [by apply (iv_logb s Hinv)|by subst].
  - intros HR. destruct (Hret HR) as [Hu H0]. lia.
  - intros v. rewrite Hw. apply (iv_small s Hinv).
Qed.

Lemma targets_ne u v : v ∈ targets es u → u ≠ v.
Proof.
  intros Hv%elem_of_targets ->. apply (Hac v). by apply tc_once.
Qed.

(** A vertex still waiting has not started, so it is undone. *)
Lemma waiting_undone s v p : inv s → pcs s !! v = Some p → waits s v ≠ 0 → undone v p = 1.
Proof.
  intros Hinv Hv Hw. pose proof (iv_tok s Hinv v p Hv) as Ht.
  rewrite decide_False in Ht by done. unfold tokens in Ht. destruct p; simpl in *; try lia; done.
Qed.

(** The last job to finish has no successors. *)
Lemma last_no_succ s i : inv s → pcs s !! i = Some PDec → pending s = 1%Z → succ_of succs i = [].
Proof.
  intros Hinv Hi Hpe. destruct (succ_of succs i) as [|v l] eqn:Hs; [done|]. exfalso.
  assert (i < n) as Hin by (rewrite <-(iv_len s Hinv); by eapply lookup_lt_Some).
  assert (v ∈ targets es i) as Hv by (rewrite <-succ_of_targets, Hs by done; by left).
  pose proof (targets_ne i v Hv) as Hne.
  destruct (inv_lookup s v Hinv) as [q Hq]; [by eapply targets_bound in Hv as [_ ?]|].
  assert (waits s v ≠ 0) as Hw.
  { intros Hz. apply (proj1 (waits_zero s v Hinv) Hz i PDec Hi). simpl. rewrite Hs. by left. }
  pose proof (waiting_undone s v q Hinv Hq Hw) as Hu.
  pose proof (total_ge2 undone (pcs s) i v PDec q Hne Hi Hq) as H. simpl in H.
  pose proof (iv_pend s Hinv). lia.
Qed.

(** Decrementing the counter of a successor. *)
(** One entry of a job's successor list is consumed: the waits and the pending
    pushes of every vertex. *)
Lemma waits_decrement (s : sched) i j js q' cs v :
  pcs s !! i = Some (PReady (j :: js)) → rem i q' = js →
  waits s v = waits (set_pc (set_counters s cs) i q') v + (if decide (j = v) then 1 else 0).
Proof.
  intros Hi Hrem. unfold waits.
  pose proof (total_insert (λ u p, occ v (rem u p)) (pcs s) i _ q' Hi) as H. simpl in H.
  rewrite Hrem, occ_cons in H. simpl. lia.
Qed.
Lemma pushing_decrement (s : sched) i j js q' cs v :
  pcs s !! i = Some (PReady (j :: js)) →
  total (pushing v) (pcs (set_pc (set_counters s cs) i q'))
  = total (pushing v) (pcs s) + pushing v i q'.
Proof.
  intros Hi. pose proof (total_insert (pushing v) (pcs s) i _ q' Hi) as H.
  change (pushing v i (PReady (j :: js))) with 0 in H. simpl. lia.
Qed.

Lemma inv_decrement s i j js :
  inv s → pcs s !! i = Some (PReady (j :: js)) →
  ∃ c, counters s !! j = Some (Z.of_nat (S c))
    ∧ inv (set_pc (set_counters s (<[j := Z.of_nat c]> (counters s))) i
             (if c =? 0 then PPush j js else PReady js)).
Proof.
  intros Hinv Hi. pose proof (iv_plain s Hinv i _ Hi) as (_ & Hsub & _). simpl in Hsub.
  assert (j < n) as Hjn by (eapply (targets_bound es n Hes i j), Hsub; by left).
  assert (i < n) as Hin by (rewrite <-(iv_len s Hinv); by eapply lookup_lt_Some).
  pose proof (total_ge (λ u p, occ j (rem u p)) (pcs s) i _ Hi) as Hge. simpl in Hge.
  rewrite occ_cons, decide_True in Hge by done.
  destruct (waits s j) as [|c] eqn:Hwj; [unfold waits in Hwj; lia|].
  exists c. split; [by rewrite <-Hwj, (iv_cnt s Hinv)|].
  set (q' := if c =? 0 then PPush j js else PReady js).
  assert (rem i q' = js) as Hrem by (unfold q'; by destruct (c =? 0)).
  assert (undone i q' = 0) as Hun by (unfold q'; by destruct (c =? 0)).
  assert (started q' = 1 ∧ executed q' = true) as [Hst Hexe] by (unfold q'; by destruct (c =? 0)).
  set (s' := set_pc (set_counters s (<[j := Z.of_nat c]> (counters s))) i q').
  assert (∀ v, waits s v = waits s' v + (if decide (j = v) then 1 else 0)) as Hw
    by (intros v; by apply waits_decrement with js).
  assert (∀ v x, pcs s' !! v = Some x → v = i ∧ x = q' ∨ v ≠ i ∧ pcs s !! v = Some x) as Hlk.
  { intros v x. unfold s'. simpl.
    intros [(<- & <- & _)|[Hne Hx]]%list_lookup_insert_Some; auto. }
  assert (∀ v, total (pushing v) (pcs s') = total (pushing v) (pcs s) + pushing v i q') as Hpu
    by (intros v; by apply pushing_decrement with j js).
  assert (∀ v, pushing v i q' = if decide (j = v) then (if c =? 0 then 1 else 0) else 0) as Hpq.
  { intros v. unfold q'. destruct (c =? 0); simpl; [done|]. by case_decide. }
  split.
  - intros v Hv. unfold s'. simpl. specialize (Hw v). fold s'. destruct (decide (j = v)) as [->|Hne].
    + rewrite list_lookup_insert_eq by (by eapply lookup_lt_Some, (iv_cnt s Hinv)).
      do 2 f_equal. lia.
    + rewrite list_lookup_insert_ne by done. rewrite (iv_cnt s Hinv v Hv). do 2 f_equal. lia.
  - unfold s'. simpl. rewrite length_insert. apply (iv_len s Hinv).
  - apply (iv_stop s Hinv).
  - pose proof (total_insert undone (pcs s) i _ q' Hi) as H. rewrite Hun in H.
    change (undone i (PReady (j :: js))) with 0 in H.
    change (<[i:=q']> (pcs s)) with (pcs s') in H. pose proof (iv_pend s Hinv).
    change (pending s') with (pending s). lia.
  - intros v x Hx. destruct (Hlk v x Hx) as [[-> ->]|[Hne Hx']]; [|by apply (iv_plain s Hinv)].
    split_and!.
    + unfold q'. by destruct (c =? 0).
    + rewrite Hrem. intros v Hv. apply Hsub. by right.
    + intros j' js' Hq. unfold q' in Hq. destruct (c =? 0); naive_solver.
  - intros v x Hx. assert (tokens s' v x = tokens s v x + pushing v i q') as ->
      by (unfold tokens; rewrite Hpu; change (seed s' v) with (seed s v); simpl; lia).
    rewrite Hpq. specialize (Hw v).
    assert (tokens s v x = if decide (waits s v = 0) then 1 else 0) as ->.
    { destruct (Hlk v x Hx) as [[-> ->]|[Hne Hx']]; [|by apply (iv_tok s Hinv)].
      rewrite <-(iv_tok s Hinv i _ Hi). unfold tokens. rewrite Hst. done. }
    destruct (decide (j = v)) as [->|Hne].
    + rewrite Hwj in Hw |- *. destruct (Nat.eqb_spec c 0);
        repeat case_decide; try lia.
    + repeat case_decide; lia.
  - apply (iv_queue s Hinv).
  - apply (iv_log s Hinv).
  - intros v x Hx. destruct (Hlk v x Hx) as [[-> ->]|[Hne Hx']]; [|by apply (iv_exec s Hinv)].
    rewrite Hexe. change (log s') with (log s). by rewrite (iv_exec s Hinv i _ Hi).
  - apply (iv_logb s Hinv).
  - apply (iv_ret s Hinv).
  - intros v. specialize (Hw v). pose proof (iv_small s Hinv v). lia.
Qed.

(** ** Job steps *)

Lemma pending_dec s i p : inv s → pcs s !! i = Some p → undone i p = 1 →
  wrap 64 (pending s - 1) = (pending s - 1)%Z ∧ (1 ≤ pending s)%Z.
Proof.
  intros Hinv Hi Hu. pose proof (total_ge undone (pcs s) i p Hi) as Hge.
  pose proof (total_le_length undone (pcs s)) as Hle. rewrite (iv_len s Hinv) in Hle.
  specialize (Hle ltac:(intros j q; by destruct q; simpl; lia)).
  rewrite (iv_pend s Hinv). split; [|lia]. apply wrap_small. lia.
Qed.

Lemma occ_le_1_NoDup l : (∀ v, v ∈ l → occ v l ≤ 1) → NoDup l.
Proof.
  induction l as [|x l IH]; intros H; [constructor|]. constructor.
  - intros Hx. specialize (H x ltac:(by left)). rewrite occ_cons, decide_True in H by done.
    apply occ_pos in Hx. lia.
  - apply IH. intros v Hv. specialize (H v ltac:(by right)). rewrite occ_cons in H. lia.
Qed.

(** The ring never fills: a vertex being pushed is not already in it. *)
Lemma ring_room s i j js : inv s → pcs s !! i = Some (PPush j js) →
  length (ring s) < ring_cap succs.
Proof.
  intros Hinv Hi. pose proof (iv_plain s Hinv i _ Hi) as (_ & _ & Hj).
  specialize (Hj j js eq_refl). pose proof (iv_queue s Hinv) as [Hr _].
  assert (∀ v, v < n → occ v (ring s) ≤ 1) as Hle.
  { intros v Hv. destruct (inv_lookup s v Hinv Hv) as [q Hq].
    pose proof (iv_tok s Hinv v q Hq) as Ht. unfold tokens in Ht. case_decide; lia. }
  assert (j ∉ ring s) as Hnj.
  { intros Hin%occ_pos. destruct (inv_lookup s j Hinv Hj) as [q Hq].
    pose proof (iv_tok s Hinv j q Hq) as Ht. unfold tokens in Ht.
    pose proof (total_ge (pushing j) (pcs s) i _ Hi) as Hp. simpl in Hp.
    rewrite decide_True in Hp by done. case_decide; lia. }
  assert (length (j :: ring s) ≤ n) as Hlen.
  { apply NoDup_bound.
    - constructor; [done|]. apply occ_le_1_NoDup. auto.
    - intros v [->|Hv]%elem_of_cons; auto. }
  assert (n ≤ ring_cap succs) as Hcap; [|simpl in Hlen; lia].
  unfold ring_cap, n_items. rewrite (adj_len _ _ _ _ Hadj).
  etrans; [|apply Nat.log2_log2_up_spec]; lia.
Qed.

Lemma keep_refl s : keep s s.
Proof. done. Qed.

Ltac job_goal := simpl; first [done | lia | by eauto | (intros; repeat case_decide; lia)].

Lemma step_job_inv s i r : inv s → step_job succs outcome s i = Some r →
  ∃ s', r = Ok s' ∧ inv s'.
Proof.
  intros Hinv. unfold step_job. destruct (pcs s !! i) as [p|] eqn:Hi; [|done].
  pose proof (iv_plain s Hinv i p Hi) as (Hpl & Hsub & Hpj).
  pose proof (iv_queue s Hinv) as [Hr Hq]. pose proof (iv_stop s Hinv) as (Hst & _ & _).
  assert (i < n) as Hin by (rewrite <-(iv_len s Hinv); by eapply lookup_lt_Some).
  destruct p as [| | | | | | | | |[|j js]|j js| | |]; try done; simpl.
  - rewrite Hst. intros [= <-]. eexists. split; [done|].
    apply (inv_job s _ i PStart PExec); job_goal.
  - intros [= <-]. eexists. split; [done|]. apply (inv_job s _ i PExec PFlow); job_goal.
  - rewrite Hout. intros [= <-]. eexists. split; [done|].
    apply (inv_job s _ i PFlow PDec); job_goal.
  - destruct (pending_dec s i _ Hinv Hi eq_refl) as [Hwr Hge].
    intros [= <-]. eexists. split; [done|]. destruct (Z.eqb_spec (pending s) 1) as [H1|H1].
    + pose proof (last_no_succ s i Hinv Hi H1) as Hnil.
      apply (inv_job s _ i PDec PDone); job_goal.
    + apply (inv_job s _ i PDec PCheck); job_goal.
  - rewrite Hst. intros [= <-]. eexists. split; [done|].
    apply (inv_job s _ i PCheck (PReady (succ_of succs i))); job_goal.
  - intros [= <-]. eexists. split; [done|].
    apply (inv_job s _ i (PReady []) PDone); job_goal.
  - destruct (inv_decrement s i j js Hinv Hi) as (c & Hc & Hinv'). rewrite Hc.
    unfold mbind, res_bind. cbn [expect]. intros Heq. apply (inj Some) in Heq as <-. eexists. split; [done|].
    assert (j < n) as Hjn by (eapply (targets_bound es n Hes i j), Hsub; by left).
    pose proof (iv_small s Hinv j) as Hsm.
    pose proof (iv_cnt s Hinv j Hjn) as Hcj. rewrite Hc in Hcj. injection Hcj as Hcj.
    rewrite wrap_small by lia. replace (Z.of_nat (S c) - 1)%Z with (Z.of_nat c) by lia.
    replace (Z.of_nat (S c) =? 1)%Z with (c =? 0); [done|].
    destruct (Nat.eqb_spec c 0), (Z.eqb_spec (Z.of_nat (S c)) 1); lia.
  - pose proof (ring_room s i j js Hinv Hi) as Hroom.
    rewrite (proj2 (Nat.leb_gt _ _)) by done. intros [= <-]. eexists. split; [done|].
    apply (inv_job s _ i (PPush j js) (PReady js)); try job_goal.
    + intros v. simpl. rewrite occ_app, occ_cons. change (occ v []) with 0.
      repeat case_decide; lia.
    + simpl. intros v [Hv|Hv%list_elem_of_singleton]%elem_of_app; [auto|]. subst.
      by eapply Hpj.
Qed.

Lemma occ_delete l k x v : l !! k = Some x →
  occ v l = occ v (delete k l) + (if decide (x = v) then 1 else 0).
Proof.
  revert k. induction l as [|y l IH]; intros [|k] H; try done; simpl in *.
  - injection H as ->. rewrite occ_cons. lia.
  - rewrite !occ_cons, (IH k H). simpl. lia.
Qed.

Lemma step_start_inv s k r : inv s → step_start s k = Some r → ∃ s', r = Ok s' ∧ inv s'.
Proof.
  intros Hinv. unfold step_start. destruct (queued s !! k) as [i|] eqn:Hk; [|done].
  pose proof (iv_queue s Hinv) as [Hr Hq].
  assert (i ∈ queued s) as Hin by (by eapply list_elem_of_lookup_2).
  destruct (inv_lookup s i Hinv (Hq i Hin)) as [p Hp]. rewrite Hp.
  assert (p = PIdle) as ->.
  { pose proof (iv_tok s Hinv i p Hp) as Ht. unfold tokens in Ht.
    apply occ_pos in Hin. destruct p; simpl in Ht; [done|..]; case_decide; lia. }
  intros [= <-]. eexists. split; [done|].
  apply (inv_job s _ i PIdle PStart); try job_goal.
  - intros v. simpl. rewrite (occ_delete _ k i v Hk). repeat case_decide; try lia; congruence.
  - simpl. intros v Hv. apply Hq. apply list_elem_of_lookup_1 in Hv as [k' Hk'].
    destruct (decide (k' < k)).
    + rewrite list_lookup_delete_lt in Hk' by done. by eapply list_elem_of_lookup_2.
    + rewrite list_lookup_delete_ge in Hk' by lia. by eapply list_elem_of_lookup_2.
Qed.

(** ** The initial state *)

Lemma waits_reset v : waits (reset succs deg) v = kin es [] v.
Proof.
  unfold waits. simpl. unfold n_items. rewrite (adj_len _ _ _ _ Hadj).
  transitivity (total (λ u _, occ v (targets es u)) (replicate n PIdle)).
  { unfold total. f_equal. apply imap_ext. intros u p Hu. simpl.
    apply lookup_replicate_1 in Hu as [-> Hu]. simpl. by rewrite succ_of_targets. }
  clear Hadj Hac Hedges. induction es as [|[a b] l IH].
  { apply total_zero_2. done. }
  apply Forall_cons in Hes as [[Ha _] Hl]. rewrite kin_nil_cons, <-(IH Hl).
  rewrite <-(total_single a (if decide (b = v) then 1 else 0) (replicate n PIdle)) at 1
    by (by rewrite length_replicate).
  rewrite <-total_add. unfold total. f_equal. apply imap_ext. intros u p _. simpl.
  rewrite targets_cons, occ_app. f_equal. case_decide; [|done].
  rewrite occ_cons. change (occ v []) with 0. lia.
Qed.

Lemma inv_reset : inv (reset succs deg).
Proof.
  assert (length (pcs (reset (E := E) succs deg)) = n) as Hlen.
  { simpl. rewrite length_replicate. apply Hadj. }
  assert (∀ i p, pcs (reset (E := E) succs deg) !! i = Some p → p = PIdle ∧ i < n) as Hpc.
  { simpl. intros i p [-> Hi]%lookup_replicate_1. split; [done|].
    unfold n_items in Hi. by rewrite (adj_len _ _ _ _ Hadj) in Hi. }
  split; try done.
  - intros v Hv. rewrite waits_reset. simpl. rewrite list_lookup_fmap.
    by rewrite (adj_deg _ _ _ _ Hadj v Hv).
  - simpl. f_equal. unfold n_items. rewrite (adj_len _ _ _ _ Hadj). clear.
    unfold total. induction n as [|m IH]; [done|]. simpl. f_equal. exact IH.
  - intros i p Hi. destruct (Hpc i p Hi) as [-> Hin]. split_and!; [done| |done].
    intros v Hv. simpl in Hv. by rewrite succ_of_targets in Hv.
  - intros v p Hv. destruct (Hpc v p Hv) as [-> Hin]. rewrite waits_reset. unfold tokens.
    rewrite (total_zero_2 (pushing v)).
    2: { intros i p Hi. by destruct (Hpc i p Hi) as [-> _]. }
    simpl. unfold seed. simpl. rewrite (adj_deg _ _ _ _ Hadj v Hin).
    destruct (decide (kin es [] v = 0)) as [Hz|Hz].
    + rewrite Hz, decide_True by (split; [lia|done]). done.
    + rewrite decide_False by naive_solver. done.
  - simpl. split; intros v Hv; by apply elem_of_nil in Hv.
  - constructor.
  - intros v p Hv. destruct (Hpc v p Hv) as [-> _]. simpl. rewrite elem_of_nil. done.
  - simpl. intros v Hv. by apply elem_of_nil in Hv.
  - intros v. rewrite waits_reset. unfold kin. apply length_filter.
Qed.

Lemma step_of_inv s w r : inv s → step_of succs deg outcome s w = Some r →
  ∃ s', r = Ok s' ∧ inv s'.
Proof.
  intros Hinv. destruct w as [|k|i]; simpl.
  - destruct (step_main succs deg s) as [s'|] eqn:Hs; [|done]. intros [= <-].
    exists s'. split; [done|]. by eapply step_main_inv.
  - by apply step_start_inv.
  - by apply step_job_inv.
Qed.

Lemma reachable_inv s : rtc step (reset succs deg) s → inv s.
Proof.
  intros Hr. pose proof inv_reset as H0. revert H0.
  induction Hr as [|x y z [x' w y' Hw] _ IH]; intros H0; [done|]. apply IH.
  destruct (step_of_inv _ _ _ H0 Hw) as (s' & [= ->] & Hinv). done.
Qed.

(** ** Completion *)

Definition weight (i : nat) (p : pc) : nat :=
  let k := length (succ_of succs i) in
  match p with
  | PIdle => 9 + 3 * k | PStart => 8 + 3 * k | PExec => 7 + 3 * k | PFlow => 6 + 3 * k
  | PDec => 5 + 3 * k | PCheck => 4 + 3 * k
  | PReady js => 1 + 3 * length js | PPush _ js => 3 + 3 * length js
  | _ => 0
  end.
Definition mweight (m : mpc) : nat :=
  match m with MSeed i => (n - i) + 3 | MLoad => 2 | MRecheck => 1 | _ => 0 end.
Definition measure (s : sched) : nat :=
  total weight (pcs s) + length (ring s) + mweight (main s).

(** Something can move as long as a vertex is undone. *)
Lemma progress s : inv s → pending s ≠ 0%Z →
  (∃ i r, step_job succs outcome s i = Some r) ∨ queued s ≠ [] ∨ ring s ≠ []
  ∨ (∃ k, main s = MSeed k).
Proof.
  intros Hinv Hpe.
  destruct (decide (Forall (λ p, p = PIdle ∨ p = PDone) (pcs s))) as [Hall|Hnall].
  2: { left. apply not_Forall_Exists, Exists_exists in Hnall; [|apply _].
       destruct Hnall as (p & Hp & Hn). apply list_elem_of_lookup_1 in Hp as [i Hi].
       exists i. unfold step_job. rewrite Hi.
       destruct p as [| | | | | | | | |[|? ?]| |[|? ?]| |]; eauto; naive_solver. }
  destruct (queued s) as [|? ?] eqn:Hq; [|by right; left]. right; right.
  destruct (ring s) as [|? ?] eqn:Hr; [|by left]. right.
  assert ((∃ k, main s = MSeed k) ∨ ∀ v, seed s v = 0) as [Hk|Hseed].
  { unfold seed. destruct (main s); eauto. }
  { done. }
  exfalso. rewrite Forall_lookup in Hall.
  assert (∃ v, pcs s !! v = Some PIdle) as [v Hv].
  { destruct (decide (PIdle ∈ pcs s)) as [Hin|Hnin]; [by apply list_elem_of_lookup_1|].
    exfalso. apply Hpe. rewrite (iv_pend s Hinv), total_zero_2; [done|]. intros i p Hi.
    destruct (Hall i p Hi) as [->| ->]; [|done]. exfalso. apply Hnin.
    by eapply list_elem_of_lookup_2. }
  destruct (closed_cycle es n (λ v, pcs s !! v = Some PIdle) v Hv) as [w Hw]; [|by apply (Hac w)].
  clear v Hv. intros v Hv.
  split; [rewrite <-(iv_len s Hinv); by eapply lookup_lt_Some|].
  assert (waits s v ≠ 0) as Hw.
  { pose proof (iv_tok s Hinv v _ Hv) as Ht. unfold tokens in Ht.
    rewrite Hr, Hq, Hseed, total_zero_2 in Ht.
    - intros Hz. by rewrite decide_True in Ht.
    - intros i p Hi. by destruct (Hall i p Hi) as [->| ->]. }
  destruct (decide (Forall (λ u, pcs s !! u = Some PIdle → v ∉ succ_of succs u) (seq 0 n)))
    as [Hf|Hf].
  - exfalso. apply Hw, waits_zero; [done|]. intros u p Hu. rewrite Forall_forall in Hf.
    assert (u < n) as Hun by (rewrite <-(iv_len s Hinv); by eapply lookup_lt_Some).
    destruct (Hall u p Hu) as [->| ->]; simpl; [|apply not_elem_of_nil].
    apply Hf; [apply elem_of_seq; lia|done].
  - apply not_Forall_Exists, Exists_exists in Hf; [|apply _].
    destruct Hf as (u & Hu%elem_of_seq & Hn). exists u.
    destruct (decide (pcs s !! u = Some PIdle)) as [Hi|]; [|exfalso; by apply Hn]. split; [|done].
    destruct (decide (v ∈ succ_of succs u)) as [Hs|]; [|exfalso; by apply Hn].
    rewrite succ_of_targets in Hs by lia. by apply elem_of_targets.
Qed.

Lemma job_measure s i s' : inv s → step_job succs outcome s i = Some (Ok s') →
  measure s' < measure s.
Proof.
  intros Hinv. unfold step_job. destruct (pcs s !! i) as [p|] eqn:Hi; [|done].
  pose proof (iv_plain s Hinv i p Hi) as (Hpl & _ & _).
  pose proof (iv_stop s Hinv) as (Hst & _ & _). unfold measure.
  pose proof (λ q, total_insert weight (pcs s) i p q Hi) as Hw.
  destruct p as [| | | | | | | | |[|j js]|j js| | |]; try done; rewrite ?Hst, ?Hout;
    cbn [fetch_sub_pending].
  - intros [= <-]. specialize (Hw PExec). simpl in *. lia.
  - intros [= <-]. specialize (Hw PFlow). simpl in *. lia.
  - intros [= <-]. specialize (Hw PDec). simpl in *. lia.
  - destruct (pending s =? 1)%Z; intros [= <-];
      [specialize (Hw PDone)|specialize (Hw PCheck)]; simpl in *; lia.
  - intros [= <-]. specialize (Hw (PReady (succ_of succs i))). simpl in *. lia.
  - intros [= <-]. specialize (Hw PDone). simpl in *. lia.
  - unfold mbind, res_bind. destruct (expect _) as [c|]; [|done].
    destruct (c =? 1)%Z; intros [= <-];
      [specialize (Hw (PPush j js))|specialize (Hw (PReady js))]; simpl in *; lia.
  - destruct (_ <=? _); [done|]. intros [= <-]. specialize (Hw (PReady js)).
    simpl in *. rewrite length_app. simpl. lia.
Qed.

Lemma productive s : inv s → main s ≠ MReturned → pending s ≠ 0%Z →
  ∃ s', step s s' ∧ measure s' < measure s.
Proof.
  intros Hinv Hm Hpe. destruct (progress s Hinv Hpe) as [(i & r & Hj)|Hmain].
  { destruct (step_job_inv s i r Hinv Hj) as (s' & -> & _). exists s'.
    split; [by apply (sched_step_intro _ _ _ s (Job i))|by eapply job_measure]. }
  destruct (queued s) as [|i q] eqn:Hq.
  2: { assert (is_Some (step_start s 0)) as [r Hr].
       { unfold step_start. rewrite Hq. simpl. by destruct (pcs s !! i) as [[]|]. }
       destruct (step_start_inv s 0 r Hinv Hr) as (s' & -> & _). exists s'.
       split; [by apply (sched_step_intro _ _ _ s (Start 0))|].
       revert Hr. unfold step_start. rewrite Hq. simpl.
       destruct (pcs s !! i) as [p|] eqn:Hi; [|done].
       pose proof (total_insert weight (pcs s) i p PStart Hi) as Hw.
       destruct p; try done; intros [= <-]; unfold measure; simpl in *; try lia.
       pose proof (iv_tok s Hinv i _ Hi) as Ht. unfold tokens in Ht.
       rewrite Hq, occ_cons, decide_True in Ht by done. simpl in Ht. case_decide; lia. }
  destruct Hmain as [|Hmain]; [done|].
  assert (∃ s', step_main succs deg s = Some s' ∧ measure s' < measure s) as (s' & Hs & Hlt).
  { unfold step_main, measure. destruct (main s) as [k| | | |] eqn:Hmn.
    - unfold n_items. rewrite (adj_len _ _ _ _ Hadj).
      destruct (Nat.ltb_spec k n); eexists; (split; [done|]);
        [case_bool_decide|]; simpl; lia.
    - destruct (ring s) as [|j r]; [naive_solver|]. eexists. split; [done|]. simpl. rewrite Hmn. simpl. lia.
    - eexists. split; [done|]. rewrite (proj2 (Z.eqb_neq _ _)) by done. simpl. lia.
    - eexists. split; [done|]. rewrite (proj2 (Z.eqb_neq _ _)) by done. simpl. lia.
    - done. }
  exists s'. split; [|done]. apply (sched_step_intro _ _ _ s Main). simpl. by rewrite Hs.
Qed.

(** With nothing pending the dispatcher returns. *)
Definition left_to_poll (s : sched) : nat :=
  length (ring s)
  + match main s with MSeed i => (n - i) + 4 | MPop => 2 | MReturned => 0 | _ => 1 end.

Lemma poll_step s : pending s = 0%Z → main s ≠ MReturned →
  ∃ s', step s s' ∧ pending s' = 0%Z ∧ left_to_poll s' < left_to_poll s.
Proof.
  intros Hpe Hm.
  assert (∃ s', step_main succs deg s = Some s' ∧ pending s' = 0%Z
                ∧ left_to_poll s' < left_to_poll s) as (s' & Hs & Hp & Hlt).
  { unfold step_main, left_to_poll. destruct (main s) as [k| | | |] eqn:Hmn.
    - unfold n_items. rewrite (adj_len _ _ _ _ Hadj).
      destruct (Nat.ltb_spec k n); eexists; (split; [done|]);
        [case_bool_decide|]; simpl; (split; [done|lia]).
    - destruct (ring s) as [|j r] eqn:Hrg; eexists; (split; [done|]); simpl;
        rewrite ?Hmn, ?Hrg; simpl;
        (split; [done|lia]).
    - eexists. split; [done|]. rewrite Hpe. simpl. split; [done|lia].
    - eexists. split; [done|]. rewrite Hpe. simpl. split; [done|lia].
    - done. }
  exists s'. split; [|done]. apply (sched_step_intro _ _ _ s Main). simpl. by rewrite Hs.
Qed.

Lemma finishes s : pending s = 0%Z → ∃ s', rtc step s s' ∧ main s' = MReturned.
Proof.
  remember (left_to_poll s) as m eqn:Hmeq. revert s Hmeq.
  induction (lt_wf m) as [m _ IH]. intros s -> Hpe.
  destruct (main s) eqn:Hm; [..|by exists s];
    (destruct (poll_step s Hpe) as (s1 & Hs1 & Hp1 & Hlt); [by rewrite Hm|];
     destruct (IH _ Hlt s1 eq_refl Hp1) as (s' & Hs' & Hr); exists s';
     split; [by eapply rtc_l|done]).
Qed.

Lemma completes s : inv s → ∃ s', rtc step s s' ∧ main s' = MReturned.
Proof.
  remember (measure s) as m eqn:Hmeq. revert s Hmeq.
  induction (lt_wf m) as [m _ IH]. intros s -> Hinv.
  destruct (decide (pending s = 0%Z)) as [Hz|Hnz]; [by apply finishes|].
  destruct (productive s Hinv) as (s1 & Hs1 & Hlt); [|done|].
  { intros HR. by apply Hnz, (iv_ret s Hinv). }
  destruct (IH _ Hlt s1 eq_refl) as (s' & Hs' & Hr).
  { destruct Hs1 as [s w s1 Hw]. by destruct (step_of_inv _ _ _ Hinv Hw) as (? & [= ->] & ?). }
  exists s'. split; [by eapply rtc_l|done].
Qed.

(** When the dispatcher has returned, everything has been executed. *)
Lemma returned_all s : inv s → main s = MReturned → log s ≡ₚ seq 0 n.
Proof.
  intros Hinv HR. pose proof (iv_ret s Hinv HR) as Hz. rewrite (iv_pend s Hinv) in Hz.
  assert (NoDup (log s)) as Hnd.
  { rewrite <-(reverse_involutive (log s)), reverse_Permutation.
    pose proof (iv_log s Hinv) as Ht. clear -Ht. by induction Ht; constructor. }
  apply NoDup_Permutation; [done|apply NoDup_seq|]. intros v. rewrite elem_of_seq. split.
  - intros Hv. pose proof (iv_logb s Hinv v Hv). lia.
  - intros [_ Hv]. destruct (inv_lookup s v Hinv Hv) as [p Hp].
    apply (iv_exec s Hinv v p Hp). pose proof (total_zero undone (pcs s) ltac:(lia) v p Hp) as Hu.
    pose proof (proj1 (iv_plain s Hinv v p Hp)). by destruct p.
Qed.
End ok.

(** ** The theorems, for graphs the builder accepts *)

Lemma finish_accepted {Decl UserError} (b : GraphBuilder Decl UserError) g :
  finish b = Ok (inl g) → accepted b g.
Proof.
  intros H. destruct (finish_spec b) as [(g' & H' & Ha)|(e & H' & _)]; rewrite H in H';
    naive_solver.
Qed.

Lemma run_schedule_rtc {E} succs deg (outcome : nat → ItemResult E) ws s s' :
  run_schedule succs deg outcome s ws = Some (Ok s') → rtc (sched_step succs deg outcome) s s'.
Proof.
  revert s. induction ws as [|w ws IH]; intros s; simpl; [by intros [= ->]|].
  destruct (step_of succs deg outcome s w) as [[s1|]|] eqn:Hs; [|done|done].
  intros H. eapply rtc_l; [by apply (sched_step_intro _ _ _ s w)|by apply IH].
Qed.



(** ** Witness: a diamond *)

Definition quiet_item : Item nat unit := MkItem (inl [7]).
Definition diamond : GraphBuilder nat unit :=
  MkBuilder (replicate 4 quiet_item) [(0, 1); (0, 2); (1, 3); (2, 3)] (Some 0).
Definition diamond_graph : Graph nat unit :=
  MkGraph [[1; 2]; [3]; [3]; []] [0; 1; 1; 2] 0 [7] (replicate 4 quiet_item).
Definition go_on (i : nat) : ItemResult string := Continue.
(** Vertices 1 and 2 run interleaved. *)
Definition diamond_schedule : list who :=
  [Main; Start 0; Job 0; Job 0; Main; Main; Job 0; Job 0; Job 0; Main; Main; Job 0; Job 0;
   Job 0; Job 0; Job 0; Main; Main; Start 0; Start 0; Job 1; Job 2; Job 1; Job 2; Job 2;
   Job 2; Job 2; Job 1; Job 1; Job 1; Job 1; Job 1; Job 2; Job 2; Job 2; Main; Start 0; Job 3; Job 3; Job 3; Job 3;
   Main; Main].
Definition diamond_end : @ExecSched.sched string :=
  match run_schedule (successors diamond_graph) (in_degree diamond_graph) go_on
          (reset (successors diamond_graph) (in_degree diamond_graph)) diamond_schedule with
  | Some (Ok s) => s
  | _ => reset [] []
  end.



(** ** The cancellation race *)

(** Vertex 0 feeds 1, 2, 3 and 4; vertices 1, 2 and 3 feed 5; vertex 2 fails. *)
Definition fan : GraphBuilder nat unit :=
  MkBuilder (replicate 6 quiet_item)
    [(0, 1); (0, 2); (0, 3); (0, 4); (1, 5); (2, 5); (3, 5)] (Some 0).
Definition fan_graph : Graph nat unit :=
  MkGraph [[1; 2; 3; 4]; [5]; [5]; [5]; []; []] [0; 1; 1; 1; 1; 3] 0 [7]
    (replicate 6 quiet_item).
Definition two_fails (i : nat) : ItemResult string :=
  if i =? 2 then Failed "sensor lost"%string else Continue.
Definition race_schedule : list who :=
  replicate 7 Main ++ [Start 0] ++ replicate 14 (Job 0) ++ replicate 4 Main
  ++ replicate 4 (Start 0) ++ [Job 1; Job 2; Job 3; Job 4]
  ++ replicate 4 (Job 1)                       (* vertex 1 sees no stop flag *)
  ++ replicate 7 (Job 2)                       (* vertex 2 fails and cancels 5 *)
  ++ [Job 1]                                   (* vertex 1 decrements the cancelled counter *)
  ++ replicate 6 (Job 3)                       (* vertex 3 cancels 5 a second time *)
  ++ [Main; Main].

(** The cancellation of a subtree is not safe against a predecessor that
    passed the stop check before the stop was raised: in a graph the builder
    accepts, with one failing item, a schedule exists in which one vertex is
    cancelled twice, [pending] reaches zero early, and [run_once_borrowed]
    returns while another vertex has been dispatched but not executed; that
    vertex then executes after the return and [pending] wraps to the maximum. *)
Theorem cancel_race_returns_early :
  finish fan = Ok (inl fan_graph)
  ∧ ∃ s s',
      run_schedule (successors fan_graph) (in_degree fan_graph) two_fails
        (reset (successors fan_graph) (in_degree fan_graph)) race_schedule = Some (Ok s)
      ∧ main s = MReturned ∧ pcs s !! 4 = Some PExec ∧ (4 ∉ log s)
      ∧ run_schedule (successors fan_graph) (in_degree fan_graph) two_fails s
          [Job 4; Job 4; Job 4] = Some (Ok s')
      ∧ 4 ∈ log s' ∧ pending s' = USIZE_MAX.
Proof.
  split; [by vm_compute|]. eexists _, _. split; [vm_compute; reflexivity|].
  split; [reflexivity|]. split; [reflexivity|]. split; [vm_compute; set_solver|].
  split; [vm_compute; reflexivity|]. split; [simpl; set_solver|]. reflexivity.
Qed.

End ExecSchedOk.
