(* ===== verification/ExecRing.v ===== *)
(** * The ready ring of the executor

    Models [taktora-executor/src/ready_ring.rs]: a bounded multi-producer,
    single-consumer ring of atomics.  Each atomic access is an operation of its
    own, so that clients can interleave them; [push] and [pop] are their
    uninterrupted composition, proved to be the operations of a bounded FIFO
    queue. *)

From stdpp Require Import base list.
From Stdlib Require Import ZArith Lia.
From S2P Require Import Prelude.

Module ExecRing.

Definition SENTINEL : Z := 2 ^ 64 - 1.

Record ReadyRing := MkRing {
  buf : list Z;
  head : Z;
  tail : Z;
}.

(** [min_capacity.max(2).next_power_of_two()]; the mask is the capacity less
    one. *)
Definition capacity (min_capacity : nat) : nat := (2 ^ Nat.log2_up (Nat.max min_capacity 2))%nat.
Definition mask (r : ReadyRing) : Z := len (buf r) - 1.

Definition ring_new (min_capacity : nat) : ReadyRing :=
  MkRing (replicate (capacity min_capacity) SENTINEL) 0 0.
Definition ring_reset (r : ReadyRing) : ReadyRing :=
  MkRing (replicate (length (buf r)) SENTINEL) 0 0.

(** ** Atomic accesses *)

Definition slot_of (r : ReadyRing) (pos : Z) : nat := Z.to_nat (Z.land pos (mask r)).

(** The fullness test of [push] on the loaded [tail] and [head]. *)
Definition looks_full (r : ReadyRing) (t h : Z) : bool := len (buf r) <=? wrap 64 (t - h).
(** [tail.compare_exchange(t, t.wrapping_add(1))]. *)
Definition cas_tail (r : ReadyRing) (t : Z) : option ReadyRing :=
  if tail r =? t then Some (MkRing (buf r) (head r) (wrap 64 (t + 1))) else None.
(** [buf[t & mask].store(v)]. *)
Definition store_slot (r : ReadyRing) (t v : Z) : res ReadyRing :=
  if decide (slot_of r t < length (buf r))%nat
  then Ok (MkRing (<[slot_of r t := v]> (buf r)) (head r) (tail r)) else Panic.
Definition load_slot (r : ReadyRing) (h : Z) : res Z := expect (buf r !! slot_of r h).
Definition store_head (r : ReadyRing) (h : Z) : ReadyRing := MkRing (buf r) h (tail r).

(** ** Uninterrupted operations *)

(** [push]: without interference the first [compare_exchange] succeeds. *)
Definition push (r : ReadyRing) (v : Z) : res (ReadyRing * bool) :=
  let t := tail r in
  let h := head r in
  if looks_full r t h then Ok (r, false)
  else
    match cas_tail r t with
    | Some r => r ← store_slot r t v; Ok (r, true)
    | None => Panic
    end.

(** [pop]: without interference the slot at the head has been stored; a
    [SENTINEL] there would make the source spin for ever, a [Panic] here. *)
Definition pop (r : ReadyRing) : res (ReadyRing * option Z) :=
  let h := head r in
  let t := tail r in
  if h =? t then Ok (r, None)
  else
    v ← load_slot r h;
    if v =? SENTINEL then Panic
    else
      r ← store_slot r h SENTINEL;
      Ok (store_head r (wrap 64 (h + 1)), Some v).

(** ** The abstraction: slot contents from [head] on *)

(** Position [head + k], wrapped, as an index of the buffer. *)
Definition at_pos (r : ReadyRing) (k : Z) : nat := slot_of r (wrap 64 (head r + k)).

Record wf_ring (r : ReadyRing) (m : Z) : Prop := {
  wr_len : len (buf r) = 2 ^ m;
  wr_m : 0 ≤ m < 64;
  wr_head : is_u 64 (head r);
  wr_tail : is_u 64 (tail r);
}.

(** The ring holds exactly the entries [q], oldest first; an entry is a value
    and whether it has been stored yet (a producer reserves first). *)
Record holds (r : ReadyRing) (m : Z) (q : list (Z * bool)) : Prop := {
  ho_wf : wf_ring r m;
  ho_count : wrap 64 (tail r - head r) = len q;
  ho_fits : len q ≤ 2 ^ m;
  ho_vals : ∀ k v b, q !! k = Some (v, b) →
    buf r !! at_pos r (Z.of_nat k) = Some (if (b : bool) then v else SENTINEL);
  ho_free : ∀ k, len q ≤ k < 2 ^ m → buf r !! at_pos r k = Some SENTINEL;
  ho_valid : Forall (λ e, e.1 ≠ SENTINEL) q;
}.

Lemma mod_mod_pow x m : 0 ≤ m < 64 → (x mod 2 ^ 64) mod 2 ^ m = x mod 2 ^ m.
Proof.
  intros Hm. apply Z.mod_mod_divide.
  exists (2 ^ (64 - m)). rewrite <-Z.pow_add_r by lia. f_equal. lia.
Qed.

Lemma slot_of_mod r m x : wf_ring r m → slot_of r (wrap 64 x) = Z.to_nat (x mod 2 ^ m).
Proof.
  intros [Hl Hm _ _]. unfold slot_of, mask, wrap. f_equal.
  rewrite Hl. rewrite (land_mask _ (2 ^ m - 1) m) by lia. by apply mod_mod_pow.
Qed.

Lemma at_pos_mod r m k : wf_ring r m → at_pos r k = Z.to_nat ((head r + k) mod 2 ^ m).
Proof. intros. unfold at_pos. by apply slot_of_mod. Qed.

Lemma at_pos_lt r m k : wf_ring r m → (at_pos r k < length (buf r))%nat.
Proof.
  intros Hwf. rewrite (at_pos_mod r m) by done. destruct Hwf as [Hl Hm _ _].
  pose proof (Z.mod_pos_bound (head r + k) (2 ^ m) ltac:(lia)). unfold len in Hl. lia.
Qed.

(** Distinct positions within one lap are distinct slots. *)
Lemma at_pos_inj r m j k : wf_ring r m → 0 ≤ j < 2 ^ m → 0 ≤ k < 2 ^ m →
  at_pos r j = at_pos r k → j = k.
Proof.
  intros Hwf Hj Hk. rewrite !(at_pos_mod r m) by done. intros H.
  pose proof (Z.mod_pos_bound (head r + j) (2 ^ m) ltac:(lia)).
  pose proof (Z.mod_pos_bound (head r + k) (2 ^ m) ltac:(lia)).
  assert ((head r + j) mod 2 ^ m = (head r + k) mod 2 ^ m) as Heq by lia. clear H.
  destruct (decide (j ≤ k)).
  - assert ((k - j) mod 2 ^ m = 0) as Hz.
    { replace (k - j) with ((head r + k) - (head r + j)) by lia.
      rewrite Zminus_mod, Heq, Z.sub_diag. apply Z.mod_0_l. lia. }
    rewrite Z.mod_small in Hz by lia. lia.
  - assert ((j - k) mod 2 ^ m = 0) as Hz.
    { replace (j - k) with ((head r + j) - (head r + k)) by lia.
      rewrite Zminus_mod, Heq, Z.sub_diag. apply Z.mod_0_l. lia. }
    rewrite Z.mod_small in Hz by lia. lia.
Qed.

(** The tail is the position just past the queue. *)
Lemma tail_pos r m q : holds r m q → slot_of r (tail r) = at_pos r (len q).
Proof.
  intros Hh. destruct (ho_wf r m q Hh) as [Hl Hm Hhd Htl].
  rewrite <-(ho_count r m q Hh). unfold at_pos. f_equal.
  unfold wrap. rewrite Zplus_mod_idemp_r. replace (head r + (tail r - head r)) with (tail r) by lia.
  symmetry. by apply Z.mod_small.
Qed.

Lemma head_pos r m q : holds r m q → slot_of r (head r) = at_pos r 0.
Proof.
  intros Hh. destruct (ho_wf r m q Hh) as [Hl Hm Hhd Htl].
  unfold at_pos. f_equal. rewrite Z.add_0_r. unfold wrap. symmetry. by apply Z.mod_small.
Qed.

(** ** The accesses, on the abstraction *)

Lemma holds_empty r m q : holds r m q → (head r = tail r ↔ q = []).
Proof.
  intros Hh. pose proof (ho_count _ _ _ Hh) as Hc. destruct (ho_wf _ _ _ Hh) as [_ _ H1 H2].
  unfold wrap, is_u, len in *. split.
  - intros Heq. rewrite Heq, Z.sub_diag, Z.mod_0_l in Hc by lia. destruct q; [done|simpl in Hc; lia].
  - intros ->. simpl in Hc. destruct (decide (head r ≤ tail r)).
    + rewrite Z.mod_small in Hc by lia. lia.
    + rewrite <-(Z.mod_add _ 1), Z.mod_small in Hc by lia. lia.
Qed.

Lemma looks_full_spec r m q : holds r m q →
  looks_full r (tail r) (head r) = (2 ^ m <=? len q).
Proof.
  intros Hh. unfold looks_full. by rewrite (ho_count _ _ _ Hh), (wr_len _ _ (ho_wf _ _ _ Hh)).
Qed.

(** Reserving a slot. *)
Lemma holds_cas r m q v : holds r m q → len q < 2 ^ m → v ≠ SENTINEL →
  ∃ r', cas_tail r (tail r) = Some r' ∧ holds r' m (q ++ [(v, false)])
    ∧ buf r' = buf r ∧ head r' = head r ∧ tail r' = wrap 64 (tail r + 1).
Proof.
  intros Hh Hl Hv. unfold cas_tail. rewrite Z.eqb_refl. eexists. split; [done|].
  split; [|done]. destruct (ho_wf _ _ _ Hh) as [Hb Hm H1 H2].
  set (r' := MkRing _ _ _).
  assert (∀ k, at_pos r' k = at_pos r k) as Hat by done.
  assert (0 < 2 ^ m ≤ 2 ^ 63) as Hp by (split; [lia|apply Z.pow_le_mono_r; lia]).
  split.
  - split; [done..|]. unfold r'. simpl. unfold is_u, wrap. apply Z.mod_pos_bound. lia.
  - unfold r'. simpl. rewrite len_app. unfold wrap. rewrite Zminus_mod_idemp_l.
    pose proof (ho_count _ _ _ Hh) as Hc. unfold wrap in Hc.
    replace (tail r + 1 - head r) with ((tail r - head r) + 1) by lia.
    rewrite <-Zplus_mod_idemp_l, Hc. change (len [(v, false)]) with 1.
    apply Z.mod_small. pose proof (len_nonneg q). lia.
  - rewrite len_app. change (len [(v, false)]) with 1. lia.
  - intros k w b Hk. rewrite Hat. apply lookup_app_Some in Hk as [Hk|[Hge Hk]].
    + by apply (ho_vals _ _ _ Hh).
    + apply list_lookup_singleton_Some in Hk as [Hk [= <- <-]].
      apply (ho_free _ _ _ Hh). unfold len in *. lia.
  - intros k Hk. rewrite Hat. rewrite len_app in Hk. change (len [(v, false)]) with 1 in Hk.
    apply (ho_free _ _ _ Hh). lia.
  - apply Forall_app. split; [apply Hh|by repeat constructor].
Qed.

(** The buffer with the slot of position [k] overwritten. *)
Lemma buf_upd r m q k j x : holds r m q → 0 ≤ k < 2 ^ m → 0 ≤ j < 2 ^ m →
  <[at_pos r k := x]> (buf r) !! at_pos r j
    = if decide (j = k) then Some x else buf r !! at_pos r j.
Proof.
  intros Hh Hk Hj. destruct (ho_wf _ _ _ Hh) as [Hb Hm H1 H2]. case_decide as Hjk.
  - subst. rewrite list_lookup_insert_eq; [done|]. by eapply at_pos_lt.
  - rewrite list_lookup_insert_ne; [done|]. intros Heq. apply Hjk. symmetry.
    by eapply (at_pos_inj r m).
Qed.

(** Storing into the slot of position [k]. *)
Lemma holds_store r m q (k : nat) v b x : holds r m q → q !! k = Some (v, b) →
  slot_of r x = at_pos r (Z.of_nat k) → ∀ b' : bool,
  ∃ r', store_slot r x (if b' then v else SENTINEL) = Ok r'
    ∧ holds r' m (<[k := (v, b')]> q) ∧ head r' = head r ∧ tail r' = tail r
    ∧ length (buf r') = length (buf r).
Proof.
  intros Hh Hk Hx b'. pose proof (ho_wf _ _ _ Hh) as Hwf. pose proof Hwf as [Hb Hm H1 H2].
  assert (Z.of_nat k < len q) as Hkl by (apply lookup_lt_Some in Hk; unfold len; lia).
  pose proof (ho_fits _ _ _ Hh) as Hfit.
  unfold store_slot. rewrite Hx, decide_True by (by eapply at_pos_lt).
  eexists. split; [done|]. split; [|split; [done|split; [done|by cbn [buf]; rewrite length_insert]]].
  set (r' := MkRing _ _ _).
  assert (len (buf r') = len (buf r)) as Hlen by (unfold len; simpl; by rewrite length_insert).
  assert (∀ j, at_pos r' j = at_pos r j) as Hat.
  { intros j. unfold at_pos, slot_of, mask. by rewrite Hlen. }
  split.
  - split; [by rewrite Hlen|done..].
  - unfold len. rewrite length_insert. apply Hh.
  - unfold len. rewrite length_insert. apply Hh.
  - intros j w c Hj. rewrite Hat. unfold r'. cbn [buf].
    apply list_lookup_insert_Some in Hj as [(-> & [= <- <-] & _)|[Hne Hj]].
    + rewrite (buf_upd r m q) by (done || lia). by rewrite decide_True.
    + assert (Z.of_nat j < len q) by (apply lookup_lt_Some in Hj; unfold len; lia).
      rewrite (buf_upd r m q) by (done || lia). rewrite decide_False by lia.
      by apply (ho_vals _ _ _ Hh).
  - intros j Hj. rewrite Hat. unfold r'. cbn [buf].
    assert (len (<[k := (v, b')]> q) = len q) as Hq by (unfold len; by rewrite length_insert).
    rewrite Hq in Hj. pose proof (len_nonneg q).
    rewrite (buf_upd r m q) by (done || lia). rewrite decide_False by lia.
    apply (ho_free _ _ _ Hh). lia.
  - apply Forall_insert; [apply Hh|].
    pose proof (ho_valid _ _ _ Hh) as Hv. rewrite Forall_lookup in Hv. by apply (Hv k (v, b)).
Qed.

(** Advancing the head over an emptied slot. *)
Lemma holds_advance r m v q : holds r m ((v, false) :: q) →
  holds (store_head r (wrap 64 (head r + 1))) m q.
Proof.
  intros Hh. destruct (ho_wf _ _ _ Hh) as [Hb Hm H1 H2].
  set (r' := store_head _ _).
  assert (∀ k, at_pos r' k = at_pos r (k + 1)) as Hat.
  { intros k. unfold at_pos, slot_of, mask. simpl. do 2 f_equal.
    unfold wrap. rewrite Zplus_mod_idemp_l. f_equal. lia. }
  pose proof (ho_fits _ _ _ Hh) as Hf. change (len ((v, false) :: q)) with (Z.of_nat (S (length q))) in Hf.
  split.
  - split; [done|done| |done]. simpl. unfold is_u, wrap. apply Z.mod_pos_bound. lia.
  - simpl. pose proof (ho_count _ _ _ Hh) as Hc. unfold wrap in *.
    rewrite Zminus_mod_idemp_r. replace (tail r - (head r + 1)) with ((tail r - head r) - 1) by lia.
    rewrite <-Zminus_mod_idemp_l, Hc. unfold len. simpl length.
    assert (2 ^ m ≤ 2 ^ 63) by (apply Z.pow_le_mono_r; lia).
    rewrite Z.mod_small; lia.
  - unfold len. lia.
  - intros k w b Hk. rewrite Hat. replace (Z.of_nat k + 1) with (Z.of_nat (S k)) by lia.
    apply (ho_vals _ _ _ Hh (S k)). done.
  - intros k Hk. rewrite Hat. unfold len in Hk.
    destruct (decide (k + 1 < 2 ^ m)).
    + apply (ho_free _ _ _ Hh). unfold len. simpl length. lia.
    + (* the slot just left behind *)
      replace (at_pos r (k + 1)) with (at_pos r 0).
      * apply (ho_vals _ _ _ Hh 0%nat v false). done.
      * rewrite !(at_pos_mod r m) by done. f_equal.
        replace (head r + (k + 1)) with (head r + 0 + 1 * 2 ^ m) by lia.
        by rewrite Z.mod_add by lia.
  - pose proof (ho_valid _ _ _ Hh) as Hv. by apply Forall_cons in Hv as [_ ?].
Qed.

(** ** Refinement of a bounded FIFO queue *)

Definition stored (q : list Z) : list (Z * bool) := (λ v, (v, true)) <$> q.

Lemma length_stored q : length (stored q) = length q.
Proof. unfold stored. apply length_fmap. Qed.

Lemma holds_new min_cap : Z.of_nat min_cap ≤ 2 ^ 63 →
  holds (ring_new min_cap) (Z.of_nat (Nat.log2_up (Nat.max min_cap 2))) [].
Proof.
  intros Hc. set (k := Nat.log2_up (Nat.max min_cap 2)).
  assert (k < 64)%nat as Hk.
  { unfold k. destruct (Nat.lt_ge_cases (Nat.log2_up (Nat.max min_cap 2)) 64) as [|Hge]; [done|].
    exfalso. destruct (Nat.log2_up_spec (Nat.max min_cap 2)) as [Hlt _]; [lia|].
    apply inj_lt in Hlt. rewrite Nat2Z.inj_pow in Hlt.
    assert (2 ^ 63 ≤ 2 ^ Z.of_nat (Nat.pred (Nat.log2_up (Nat.max min_cap 2)))) as Hp
      by (apply Z.pow_le_mono_r; lia).
    change (Z.of_nat 2) with 2 in Hlt. lia. }
  assert (len (buf (ring_new min_cap)) = 2 ^ Z.of_nat k) as Hl.
  { unfold len, ring_new. cbn [buf]. rewrite length_replicate. unfold capacity.
    rewrite Nat2Z.inj_pow. done. }
  assert (wf_ring (ring_new min_cap) (Z.of_nat k)) as Hwf by (split; [done|lia|done|done]).
  split; [done|done|apply Z.pow_nonneg; lia|done| |constructor].
  intros j Hj. apply lookup_replicate_2. pose proof (at_pos_lt _ _ j Hwf) as H.
  simpl in H. by rewrite length_replicate in H.
Qed.

Lemma push_holds r m q v : holds r m (stored q) → v ≠ SENTINEL →
  if decide (len q < 2 ^ m)
  then ∃ r', push r v = Ok (r', true) ∧ holds r' m (stored (q ++ [v]))
  else push r v = Ok (r, false).
Proof.
  intros Hh Hv. assert (len (stored q) = len q) as Hl by (unfold len; by rewrite length_stored).
  unfold push. rewrite (looks_full_spec r m _ Hh), Hl. case_decide as Hd.
  - rewrite (proj2 (Z.leb_gt _ _)) by lia.
    destruct (holds_cas r m _ v Hh) as (r1 & -> & Hh1 & Hb1 & Hhd1 & Ht1); [lia|done|].
    destruct (holds_store r1 m (stored q ++ [(v, false)]) (length q) v false (tail r) Hh1)
      with (b' := true) as (r2 & -> & Hh2 & _).
    + by rewrite lookup_app_r, length_stored, Nat.sub_diag by (by rewrite length_stored).
    + pose proof (tail_pos r m _ Hh) as Htp. rewrite Hl in Htp.
      unfold at_pos, slot_of, mask in *. rewrite Hb1, Hhd1. done.
    + eexists. split; [done|].
      rewrite insert_app_r_alt, length_stored, Nat.sub_diag in Hh2 by (by rewrite length_stored).
      unfold stored in *. rewrite fmap_app. done.
  - rewrite (proj2 (Z.leb_le _ _)) by lia. done.
Qed.

Lemma pop_holds r m q : holds r m (stored q) →
  match q with
  | [] => pop r = Ok (r, None)
  | v :: q => ∃ r', pop r = Ok (r', Some v) ∧ holds r' m (stored q)
  end.
Proof.
  intros Hh. pose proof (holds_empty r m _ Hh) as He. unfold pop.
  destruct q as [|v q].
  - rewrite (proj2 (Z.eqb_eq _ _)); [done|]. by apply He.
  - rewrite (proj2 (Z.eqb_neq _ _)) by (intros H; by apply He in H).
    unfold load_slot. rewrite (head_pos r m _ Hh).
    pose proof (ho_vals _ _ _ Hh 0%nat v true eq_refl) as H0.
    change (Z.of_nat 0) with 0 in H0. rewrite H0. simpl.
    pose proof (ho_valid _ _ _ Hh) as Hv. apply Forall_cons in Hv as [Hv _]. simpl in Hv.
    rewrite (proj2 (Z.eqb_neq _ _)) by done.
    destruct (holds_store r m _ 0 v true (head r) Hh) with (b' := false)
      as (r2 & -> & Hh2 & Hhd & _); [done|by apply (head_pos r m _ Hh)|]. simpl in Hh2.
    eexists. split; [done|]. rewrite <-Hhd. by eapply holds_advance.
Qed.

Inductive ring_op := OpPush (v : Z) | OpPop | OpReset.
Inductive ring_out := OutPush (ok : bool) | OutPop (v : option Z) | OutReset.

Definition ring_step (r : ReadyRing) (op : ring_op) : res (ReadyRing * ring_out) :=
  match op with
  | OpPush v => '(r, ok) ← push r v; Ok (r, OutPush ok)
  | OpPop => '(r, v) ← pop r; Ok (r, OutPop v)
  | OpReset => Ok (ring_reset r, OutReset)
  end.
Fixpoint ring_run (r : ReadyRing) (ops : list ring_op) : res (list ring_out) :=
  match ops with
  | [] => Ok []
  | op :: ops => '(r, o) ← ring_step r op; os ← ring_run r ops; Ok (o :: os)
  end.

(** The specification: a queue of at most [cap] values. *)
Definition fifo_step (cap : Z) (q : list Z) (op : ring_op) : list Z * ring_out :=
  match op with
  | OpPush v => if len q <? cap then (q ++ [v], OutPush true) else (q, OutPush false)
  | OpPop => match q with [] => ([], OutPop None) | v :: q => (q, OutPop (Some v)) end
  | OpReset => ([], OutReset)
  end.
Fixpoint fifo_run (cap : Z) (q : list Z) (ops : list ring_op) : list ring_out :=
  match ops with
  | [] => []
  | op :: ops => let '(q, o) := fifo_step cap q op in o :: fifo_run cap q ops
  end.

Definition valid_op (op : ring_op) : Prop :=
  match op with OpPush v => v ≠ SENTINEL | _ => True end.

Lemma reset_holds r m q : holds r m q → holds (ring_reset r) m [].
Proof.
  intros Hh. destruct (ho_wf _ _ _ Hh) as [Hl Hm _ _].
  assert (len (buf (ring_reset r)) = 2 ^ m) as Hl'
    by (unfold len in *; simpl; by rewrite length_replicate).
  assert (wf_ring (ring_reset r) m) as Hwf by (split; [done|lia|done|done]).
  split; [done|done|apply Z.pow_nonneg; lia|done| |constructor].
  intros j Hj. apply lookup_replicate_2. pose proof (at_pos_lt _ _ j Hwf) as H.
  simpl in H. by rewrite length_replicate in H.
Qed.

Lemma ring_run_fifo ops r m q : holds r m (stored q) → Forall valid_op ops →
  ring_run r ops = Ok (fifo_run (2 ^ m) q ops).
Proof.
  intros Hh Hv. revert r q Hh. induction Hv as [|op ops Hop _ IH]; intros r q Hh; [done|].
  cbn [ring_run fifo_run]. destruct op as [v| |]; cbn [ring_step fifo_step].
  - pose proof (push_holds r m q v Hh Hop) as Hp. case_decide.
    + destruct Hp as (r' & -> & Hh'). simpl. rewrite (proj2 (Z.ltb_lt _ _)) by done.
      by rewrite (IH r' (q ++ [v])).
    + rewrite Hp. simpl. rewrite (proj2 (Z.ltb_ge _ _)) by lia. by rewrite (IH r q).
  - pose proof (pop_holds r m q Hh) as Hp. destruct q as [|v q].
    + rewrite Hp. simpl. by rewrite (IH r []).
    + destruct Hp as (r' & -> & Hh'). simpl. by rewrite (IH r' q).
  - simpl. by rewrite (IH (ring_reset r) []) by (by eapply reset_holds).
Qed.

(** The ready ring is a bounded FIFO queue: for every requested capacity up
    to 2^63 and every sequence of uninterrupted pushes, pops and resets (of
    values other than the sentinel), the ring returns exactly what a queue
    bounded by the capacity rounded up to a power of two returns; nothing
    panics and no pop spins, also across the wrap-around of the indices. *)
Theorem ring_refines_fifo min_cap ops :
  Z.of_nat min_cap ≤ 2 ^ 63 → Forall valid_op ops →
  ring_run (ring_new min_cap) ops = Ok (fifo_run (Z.of_nat (capacity min_cap)) [] ops).
Proof.
  intros Hc Hv. rewrite (ring_run_fifo ops _ _ [] (holds_new min_cap Hc)) by done.
  unfold capacity. by rewrite Nat2Z.inj_pow.
Qed.

Lemma ring_refines_fifo_witness :
  ring_run (ring_new 3) [OpPush 5; OpPush 6; OpPop; OpPush 7; OpPush 8; OpPush 9; OpPush 10; OpPop]
    = Ok [OutPush true; OutPush true; OutPop (Some 5); OutPush true; OutPush true;
          OutPush true; OutPush false; OutPop (Some 6)].
Proof.
  rewrite (ring_refines_fifo 3).
  - vm_compute. reflexivity.
  - vm_compute. discriminate.
  - repeat constructor; vm_compute; discriminate.
Defined.

End ExecRing.
