(* ===== verification/ExecSchedRing.v ===== *)
(** * The scheduler on the real ready ring

    [ExecSched] treats the ready ring as a queue whose push and pop are single
    steps.  Here the jobs and the dispatching thread use the ring of
    [ExecRing], one atomic access per step: a push loads the tail, loads the
    head, reserves by compare-and-exchange and stores; a pop loads, spins on
    the sentinel, clears and advances.  The field [ring] of the embedded
    scheduler state is only a record of the reserved entries; no step reads it.

    The concrete runs refine the abstract ones, with one exception that is
    characterised exactly: a push whose loaded tail is stale takes the ring for
    full, and the scheduler treats that as fatal. *)

From stdpp Require Import base list strings relations.
From Stdlib Require Import ZArith Lia.
From S2P Require Import Prelude ExecGraph ExecGraphOk ExecSched ExecSchedOk ExecRing.

Module ExecSchedRing.
Import ExecGraph ExecGraphOk ExecSched ExecSchedOk ExecRing.
#[local] Open Scope nat_scope.

(** Where a job stands inside [push]. *)
Inductive push_pc :=
| Q0                          (* before loading the tail *)
| Q1 (t : Z)                  (* tail loaded, before loading the head *)
| Q2 (t : Z)                  (* not full, before the exchange *)
| Q3 (t : Z) (j : nat).       (* reserved, before the store *)

(** Where the dispatching thread stands inside [pop]. *)
Inductive pop_pc :=
| R0                          (* before loading head and tail *)
| R1                          (* not empty, spinning on the slot *)
| R2 (v : nat)                (* value read, before clearing the slot *)
| R3 (v : nat).               (* slot cleared, before advancing the head *)

Section concrete.
Context {E : Type}.
Context (succs : list (list nat)) (in_degree : list nat) (outcome : nat → ItemResult E).

Record rsched := MkRsched {
  base : @sched E;
  rr : ReadyRing;
  sub : list push_pc;
  msub : pop_pc;
}.

Definition rreset : rsched :=
  MkRsched (reset succs in_degree) (ring_new (n_items succs))
    (replicate (n_items succs) Q0) R0.

Definition set_sub (c : rsched) (i : nat) (q : push_pc) : rsched :=
  MkRsched (base c) (rr c) (<[i := q]> (sub c)) (msub c).
Definition set_rr (c : rsched) (r : ReadyRing) : rsched :=
  MkRsched (base c) r (sub c) (msub c).
Definition set_base (c : rsched) (s : sched) : rsched :=
  MkRsched s (rr c) (sub c) (msub c).
Definition set_msub (c : rsched) (m : pop_pc) : rsched :=
  MkRsched (base c) (rr c) (sub c) m.

(** Vertex job [i]: inside [push] step by step, otherwise as in the scheduler. *)
Definition rstep_job (c : rsched) (i : nat) : option (res rsched) :=
  match sub c !! i with
  | None => None
  | Some (Q3 t j) =>
      Some (r ← store_slot (rr c) t (Z.of_nat j); Ok (set_sub (set_rr c r) i Q0))
  | Some q =>
      match pcs (base c) !! i, q with
      | Some (PPush j js), Q1 t =>
          Some (if looks_full (rr c) t (head (rr c)) then Panic
                else Ok (set_sub c i (Q2 t)))
      | Some (PPush j js), Q2 t =>
          Some (Ok match cas_tail (rr c) t with
                   | Some r =>
                       set_sub (set_rr (set_base c
                         (set_pc (set_ring (base c) (ring (base c) ++ [j])) i (PReady js))) r)
                         i (Q3 t j)
                   | None => set_sub c i Q0
                   end)
      | Some (PPush j js), _ => Some (Ok (set_sub c i (Q1 (tail (rr c)))))
      | _, _ => r ← step_job succs outcome (base c) i; Some (s ← r; Ok (set_base c s))
      end
  end.

(** The dispatching thread: inside [pop] step by step. *)
Definition rstep_main (c : rsched) : option (res rsched) :=
  match main (base c) with
  | MPop =>
      match msub c with
      | R0 =>
          Some (Ok (if (head (rr c) =? tail (rr c))%Z then set_base c (set_main (base c) MLoad)
                    else set_msub c R1))
      | R1 =>
          Some (v ← load_slot (rr c) (head (rr c));
                Ok (if (v =? SENTINEL)%Z then c else set_msub c (R2 (Z.to_nat v))))
      | R2 v =>
          Some (r ← store_slot (rr c) (head (rr c)) SENTINEL;
                Ok (set_msub (set_rr c r) (R3 v)))
      | R3 v =>
          Some (Ok (set_msub (set_rr (set_base c
                  (dispatch_vertex (set_ring (base c) (drop 1 (ring (base c)))) v))
                  (store_head (rr c) (wrap 64 (head (rr c) + 1)))) R0))
      end
  | _ => s ← step_main succs in_degree (base c); Some (Ok (set_base c s))
  end.

Definition rstep_start (c : rsched) (k : nat) : option (res rsched) :=
  r ← step_start (base c) k; Some (s ← r; Ok (set_base c s)).

Definition rstep_of (c : rsched) (w : who) : option (res rsched) :=
  match w with
  | Main => rstep_main c
  | Start k => rstep_start c k
  | Job i => rstep_job c i
  end.

Inductive rsched_step : rsched → rsched → Prop :=
| rsched_step_intro c w c' : rstep_of c w = Some (Ok c') → rsched_step c c'.

Fixpoint rrun (c : rsched) (ws : list who) : option (res rsched) :=
  match ws with
  | [] => Some (Ok c)
  | w :: ws =>
      match rstep_of c w with
      | Some (Ok c) => rrun c ws
      | r => r
      end
  end.

End concrete.

(** ** Refinement *)
Section refine.
Context {E : Type} (es : list (nat * nat)) (n : nat).
Context (succs : list (list nat)) (deg : list nat) (outcome : nat → ItemResult E).
Context (Hes : in_bounds es n) (Hadj : adjacency es n succs deg) (Hac : acyclic es).
Context (Hsize : (Z.of_nat n ≤ 2 ^ 63)%Z) (Hedges : (Z.of_nat (length es) < 2 ^ 64)%Z).
Context (Hout : ∀ i, outcome i = Continue).

Abbreviation rsched := (@rsched E).
Abbreviation astep := (sched_step succs deg outcome).
Abbreviation cstep := (rsched_step succs deg outcome).

Let m : Z := Z.of_nat (Nat.log2_up (Nat.max n 2)).

(** The entries of the ring: reserved vertices and whether they are stored. *)
Definition entries (c : rsched) (fl : list bool) : list (Z * bool) :=
  zip (Z.of_nat <$> ring (base c)) fl.

(** The position a job has reserved, counted from the head. *)
Definition reserved (c : rsched) (fl : list bool) (t : Z) (j k : nat) : Prop :=
  ring (base c) !! k = Some j ∧ fl !! k = Some false
  ∧ t = wrap 64 (head (rr c) + Z.of_nat k)
  ∧ match msub c with R3 _ => k ≠ 0 | _ => True end.

Record cinv (c : rsched) (fl : list bool) : Prop := {
  ci_base : rtc astep (reset succs deg) (base c);
  ci_fl : length fl = length (ring (base c));
  ci_holds : holds (rr c) m (entries c fl);
  ci_sub : ∀ i t j, sub c !! i = Some (Q3 t j) → ∃ k, reserved c fl t j k;
  ci_uniq : ∀ i i' t j j', sub c !! i = Some (Q3 t j) → sub c !! i' = Some (Q3 t j') → i = i';
  ci_pop : match msub c with
           | R0 => True
           | R1 => ring (base c) ≠ []
           | R2 v => ring (base c) !! 0 = Some v ∧ fl !! 0 = Some true
           | R3 v => ring (base c) !! 0 = Some v ∧ fl !! 0 = Some false
           end;
  ci_main : msub c = R0 ∨ main (base c) = MPop;
}.

Lemma base_inv c fl : cinv c fl → inv es n succs deg (base c).
Proof. intros Hc. eapply reachable_inv; eauto using ci_base. lia. Qed.

Lemma entries_lookup c fl k v b : ring (base c) !! k = Some v → fl !! k = Some b →
  entries c fl !! k = Some (Z.of_nat v, b).
Proof.
  intros Hv Hb. unfold entries. rewrite lookup_zip_with, list_lookup_fmap, Hv, Hb. done.
Qed.

Lemma entries_len c fl : length fl = length (ring (base c)) →
  length (entries c fl) = length (ring (base c)).
Proof. intros H. unfold entries. rewrite length_zip_with, length_fmap. lia. Qed.

(** Steps of the embedded scheduler that leave the ring alone. *)
Lemma cinv_base c fl s : cinv c fl → astep (base c) s → ring s = ring (base c) →
  (msub c = R0 ∨ main s = MPop) → cinv (set_base c s) fl.
Proof.
  intros Hc Hst Hr Hm. destruct Hc as [I1 I2 I3 I4 I5 I6 I7].
  split; simpl; rewrite ?Hr; try done.
  - by eapply rtc_r.
  - unfold entries in *. simpl. by rewrite Hr.
  - intros i t j Hi. destruct (I4 i t j Hi) as (k & H1 & H2 & H3 & H4).
    exists k. unfold reserved. simpl. by rewrite Hr.
Qed.

(** A job moves between states of [push] that reserve nothing. *)
Lemma cinv_sub c fl i q : cinv c fl → (∀ t j, q ≠ Q3 t j) →
  (∀ t j, sub c !! i ≠ Some (Q3 t j)) → cinv (set_sub c i q) fl.
Proof.
  intros [I1 I2 I3 I4 I5 I6 I7] Hq Hi. split; try done; simpl.
  - intros i' t j Hi'. apply list_lookup_insert_Some in Hi' as [(_ & -> & _)|[_ Hi']]; [naive_solver|].
    by apply (I4 i').
  - intros i1 i2 t j j' H1 H2.
    apply list_lookup_insert_Some in H1 as [(_ & -> & _)|[_ H1]]; [naive_solver|].
    apply list_lookup_insert_Some in H2 as [(_ & -> & _)|[_ H2]]; [naive_solver|].
    by eapply I5.
Qed.

Lemma step_job_ring s i s' :
  step_job (E := E) succs outcome s i = Some (Ok s') →
  (∀ j js, pcs s !! i ≠ Some (PPush j js)) → ring s' = ring s ∧ main s' = main s.
Proof.
  unfold step_job. destruct (pcs s !! i) as [p|]; [|done]. intros H Hn.
  destruct p as [| | | | | | | | |[|j js]|j js|[|u st] js|u st js|]; try done;
    unfold mbind, res_bind, fetch_sub_pending in H; repeat (case_match; simplify_eq);
    simplify_eq; try done; exfalso; by eapply Hn.
Qed.

Lemma step_main_ring s s' : main s ≠ MPop →
  step_main (E := E) succs deg s = Some s' → ring s' = ring s.
Proof.
  unfold step_main. intros Hm. destruct (main s); try done; [|by intros [= <-]..].
  destruct (_ <? _); intros [= <-]; [by case_bool_decide|done].
Qed.

Lemma wrap_head_inj h k k' : (0 ≤ k < 2 ^ 64)%Z → (0 ≤ k' < 2 ^ 64)%Z →
  wrap 64 (h + k) = wrap 64 (h + k') → k = k'.
Proof.
  unfold wrap. intros Hk Hk' H.
  assert ((k - k') mod 2 ^ 64 = 0)%Z as Hz.
  { replace (k - k')%Z with ((h + k) - (h + k'))%Z by lia.
    rewrite Zminus_mod, H, Z.sub_diag. by apply Z.mod_0_l. }
  destruct (decide (k' ≤ k)%Z).
  - rewrite Z.mod_small in Hz by lia. lia.
  - rewrite <-(Z.mod_add _ 1), Z.mod_small in Hz by lia. lia.
Qed.

(** The tail is the first free position. *)
Lemma tail_wrap r q : holds r m q → tail r = wrap 64 (head r + len q).
Proof.
  intros Hh. destruct (ho_wf _ _ _ Hh) as [_ _ H1 H2]. rewrite <-(ho_count _ _ _ Hh).
  unfold wrap. rewrite Zplus_mod_idemp_r. replace (head r + (tail r - head r))%Z with (tail r) by lia.
  symmetry. by apply Z.mod_small.
Qed.

Lemma cap_fits : (2 ^ m ≤ 2 ^ 63)%Z ∧ Z.of_nat (ring_cap succs) = (2 ^ m)%Z.
Proof.
  pose proof (holds_new n Hsize) as Hh. destruct (ho_wf _ _ _ Hh) as [_ Hm _ _]. fold m in Hm.
  split; [apply Z.pow_le_mono_r; lia|].
  unfold ring_cap, n_items. rewrite (adj_len _ _ _ _ Hadj), Nat2Z.inj_pow. done.
Qed.

(** Reserving: the exchange succeeds. *)
(** An entry reserved earlier stays reserved when one is appended. *)
Lemma reserved_snoc c fl i j js t r t' j' k :
  head r = head (rr c) → reserved c fl t' j' k →
  reserved (set_sub (set_rr (set_base c
    (set_pc (set_ring (base c) (ring (base c) ++ [j])) i (PReady js))) r) i (Q3 t j))
    (fl ++ [false]) t' j' k.
Proof.
  intros Hhd (H1 & H2 & H3 & H4). unfold reserved. simpl. rewrite Hhd.
  split_and!; [by apply lookup_app_l_Some|by apply lookup_app_l_Some|done|done].
Qed.

Lemma cinv_cas c fl i j js t r :
  cinv c fl → pcs (base c) !! i = Some (PPush j js) → cas_tail (rr c) t = Some r →
  cinv (set_sub (set_rr (set_base c
          (set_pc (set_ring (base c) (ring (base c) ++ [j])) i (PReady js))) r) i (Q3 t j))
    (fl ++ [false]).
Proof.
  intros Hc Hi Hcas. pose proof (base_inv c fl Hc) as Hinv.
  pose proof cap_fits as [Hcap63 Hcap].
  pose proof (ring_room es n succs deg Hadj (base c) i j js Hinv Hi) as Hroom.
  pose proof (iv_plain _ _ _ _ _ Hinv i _ Hi) as (_ & _ & Hjn). specialize (Hjn j js eq_refl).
  destruct Hc as [I1 I2 I3 I4 I5 I6 I7].
  assert (tail (rr c) = t) as Ht.
  { unfold cas_tail in Hcas. by destruct (Z.eqb_spec (tail (rr c)) t). }
  assert (len (entries c fl) = Z.of_nat (length (ring (base c)))) as Hlen
    by (unfold len; by rewrite entries_len).
  destruct (holds_cas (rr c) m (entries c fl) (Z.of_nat j) I3) as (r' & Hr' & Hh' & _ & Hhd & _);
    [lia|unfold SENTINEL; lia|].
  rewrite Ht, Hcas in Hr'. injection Hr' as ->.
  assert (t = wrap 64 (head (rr c) + Z.of_nat (length (ring (base c))))) as Htw
    by (rewrite <-Ht, <-Hlen; by apply tail_wrap).
  assert (∀ i' j', sub c !! i' = Some (Q3 t j') → False) as Hfresh.
  { intros i' j' Hi'. destruct (I4 i' t j' Hi') as (k & Hk & _ & Hkt & _).
    apply lookup_lt_Some in Hk. rewrite Htw in Hkt. apply wrap_head_inj in Hkt; lia. }
  split; simpl.
  - eapply rtc_r; [exact I1|]. apply (sched_step_intro _ _ _ _ (Job i)). simpl.
    unfold step_job. rewrite Hi. by rewrite (proj2 (Nat.leb_gt _ _)).
  - rewrite !length_app, I2. done.
  - unfold entries in *. simpl. rewrite fmap_app.
    rewrite zip_with_app by (by rewrite length_fmap). done.
  - intros i' t' j' Hi'.
    apply list_lookup_insert_Some in Hi' as [(_ & [= <- <-] & _)|[_ Hi']].
    + exists (length (ring (base c))). unfold reserved. simpl. rewrite Hhd. split_and!.
      * rewrite lookup_app_r, Nat.sub_diag by lia. done.
      * rewrite lookup_app_r, I2, Nat.sub_diag by lia. done.
      * done.
      * destruct (msub c) as [| | |v]; try done. destruct I6 as [H0 _].
        apply lookup_lt_Some in H0. lia.
    + destruct (I4 i' t' j' Hi') as (k & Hk). exists k. by apply reserved_snoc.
  - intros i1 i2 t' j1 j2 H1 H2.
    apply list_lookup_insert_Some in H1 as [(-> & [= <- <-] & _)|[Hn1 H1]];
      apply list_lookup_insert_Some in H2 as [(-> & [= ] & _)|[Hn2 H2]]; subst; try done;
      try (exfalso; by eapply Hfresh). by eapply I5.
  - destruct (msub c) as [| |v|v]; [done|..].
    + intros H. by apply app_nil in H as [_ ?].
    + destruct I6. split; by apply lookup_app_l_Some.
    + destruct I6. split; by apply lookup_app_l_Some.
  - done.
Qed.

Lemma entries_insert c fl k v b : ring (base c) !! k = Some v → fl !! k = Some b →
  ∀ b', <[k := (Z.of_nat v, b')]> (entries c fl) = entries c (<[k := b']> fl).
Proof.
  intros Hv Hb b'. unfold entries. rewrite insert_zip_with. f_equal.
  apply list_insert_id. by rewrite list_lookup_fmap, Hv.
Qed.

(** The entry a reservation points at. *)
Lemma reserved_slot c fl t j k : reserved c fl t j k → slot_of (rr c) t = at_pos (rr c) (Z.of_nat k).
Proof. intros (_ & _ & -> & _). done. Qed.

(** Storing the reserved value. *)
Lemma cinv_store c fl i t j : cinv c fl → sub c !! i = Some (Q3 t j) →
  ∃ r fl', store_slot (rr c) t (Z.of_nat j) = Ok r ∧ cinv (set_sub (set_rr c r) i Q0) fl'.
Proof.
  intros Hc Hi. destruct Hc as [I1 I2 I3 I4 I5 I6 I7].
  destruct (I4 i t j Hi) as (k & Hres). pose proof Hres as (Hk & Hf & Ht & Hp).
  destruct (holds_store (rr c) m (entries c fl) k (Z.of_nat j) false t I3) with (b' := true)
    as (r & -> & Hh & Hhd & _ & _);
    [by apply entries_lookup|by eapply reserved_slot|].
  rewrite (entries_insert c fl k j false Hk Hf) in Hh.
  assert (k < length fl) as Hlt by (by eapply lookup_lt_Some).
  pose proof cap_fits as [Hcap63 _]. pose proof (ho_fits _ _ _ I3) as Hfit.
  unfold len in Hfit. rewrite entries_len in Hfit by done.
  exists r, (<[k := true]> fl). split; [done|]. split; simpl; try done.
  - by rewrite length_insert.
  - intros i' t' j' Hi'.
    apply list_lookup_insert_Some in Hi' as [(_ & [= ] & _)|[Hne Hi']].
    destruct (I4 i' t' j' Hi') as (k' & Hk' & Hf' & Ht' & Hp'). exists k'.
    unfold reserved. simpl. rewrite Hhd. split_and!; [done| |done|done].
    rewrite list_lookup_insert_ne; [done|]. intros <-. apply Hne.
    eapply (I5 i i' t j j'); [done|]. congruence.
  - intros i1 i2 t' j1 j2 H1 H2.
    apply list_lookup_insert_Some in H1 as [(_ & [= ] & _)|[_ H1]].
    apply list_lookup_insert_Some in H2 as [(_ & [= ] & _)|[_ H2]]. by eapply I5.
  - destruct (msub c) as [| |v|v]; try done.
    + destruct I6 as [? H0]. split; [done|]. destruct k; [congruence|].
      by rewrite list_lookup_insert_ne.
    + destruct I6 as [? H0]. split; [done|]. by rewrite list_lookup_insert_ne.
Qed.

(** The dispatcher inside [pop]: the emptiness test. *)
Lemma entries_nil c fl : length fl = length (ring (base c)) →
  entries c fl = [] ↔ ring (base c) = [].
Proof.
  intros Hl. pose proof (entries_len c fl Hl). destruct (entries c fl), (ring (base c)); naive_solver.
Qed.

Lemma cinv_pop_test c fl : cinv c fl → main (base c) = MPop → msub c = R0 →
  cinv (if (head (rr c) =? tail (rr c))%Z then set_base c (set_main (base c) MLoad)
        else set_msub c R1) fl.
Proof.
  intros Hc Hm Hms. pose proof Hc as [I1 I2 I3 I4 I5 I6 I7].
  pose proof (holds_empty _ _ _ I3) as Hempty. pose proof (entries_nil c fl I2) as Hen.
  destruct (Z.eqb_spec (head (rr c)) (tail (rr c))) as [He|He].
  - apply cinv_base; [done| |done|by left].
    apply (sched_step_intro _ _ _ _ Main). simpl. unfold step_main. rewrite Hm.
    by rewrite (proj1 Hen (proj1 Hempty He)).
  - split; try done; simpl.
    + intros i t j Hi. destruct (I4 i t j Hi) as (k & H1 & H2 & H3 & _). by exists k.
    + intros Hr. by apply He, Hempty, Hen.
    + by right.
Qed.

(** Spinning on the slot at the head until it has been stored. *)
Lemma cinv_pop_spin c fl : cinv c fl → main (base c) = MPop → msub c = R1 →
  ∃ v, load_slot (rr c) (head (rr c)) = Ok v
    ∧ cinv (if (v =? SENTINEL)%Z then c else set_msub c (R2 (Z.to_nat v))) fl.
Proof.
  intros Hc Hm Hms. pose proof Hc as [I1 I2 I3 I4 I5 I6 I7]. rewrite Hms in I6.
  destruct (ring (base c)) as [|v l] eqn:Hring; [done|]. destruct fl as [|b fl]; [done|].
  pose proof (ho_vals _ _ _ I3 0 (Z.of_nat v) b) as Hv. change (Z.of_nat 0) with 0%Z in Hv.
  unfold load_slot. rewrite (head_pos _ _ _ I3), Hv
    by (apply entries_lookup; [by rewrite Hring|done]).
  eexists. split; [done|]. pose proof (base_inv c (b :: fl) Hc) as Hinv.
  assert (v < n) as Hvn by (apply (proj1 (iv_queue _ _ _ _ _ Hinv)); rewrite Hring; by left).
  destruct b; [|done].
  rewrite (proj2 (Z.eqb_neq _ _)) by (unfold SENTINEL; lia). rewrite Nat2Z.id.
  split; try done; simpl.
  - by rewrite Hring.
  - intros i t j Hi. destruct (I4 i t j Hi) as (k & H1 & H2 & H3 & _). by exists k.
  - by rewrite Hring.
  - by right.
Qed.

(** Clearing the slot that was read. *)
Lemma cinv_pop_clear c fl v : cinv c fl → main (base c) = MPop → msub c = R2 v →
  ∃ r fl', store_slot (rr c) (head (rr c)) SENTINEL = Ok r
    ∧ cinv (set_msub (set_rr c r) (R3 v)) fl'.
Proof.
  intros Hc Hm Hms. destruct Hc as [I1 I2 I3 I4 I5 I6 I7]. rewrite Hms in I6.
  destruct I6 as [Hv0 Hf0].
  destruct (holds_store (rr c) m (entries c fl) 0 (Z.of_nat v) true (head (rr c)) I3)
    with (b' := false) as (r' & Hst & Hh & Hhd & _ & _);
    [by apply entries_lookup|by rewrite (head_pos _ _ _ I3)|].
  rewrite (entries_insert c fl 0 v true Hv0 Hf0) in Hh.
  assert (0 < length fl) as Hlt by (by eapply lookup_lt_Some).
  exists r', (<[0 := false]> fl). split; [done|]. split; simpl; try done.
  - by rewrite length_insert.
  - intros i t j Hi. destruct (I4 i t j Hi) as (k & H1 & H2 & H3 & _). exists k.
    assert (k ≠ 0) by congruence. unfold reserved. simpl. rewrite Hhd.
    split_and!; [done| |done|done]. by rewrite list_lookup_insert_ne.
  - split; [done|]. by rewrite list_lookup_insert_eq.
  - by right.
Qed.

(** Advancing the head and dispatching the vertex. *)
Lemma cinv_pop_advance c fl v : cinv c fl → main (base c) = MPop → msub c = R3 v →
  cinv (set_msub (set_rr (set_base c
          (dispatch_vertex (set_ring (base c) (drop 1 (ring (base c)))) v))
          (store_head (rr c) (wrap 64 (head (rr c) + 1)))) R0) (drop 1 fl).
Proof.
  intros Hc Hm Hms. destruct Hc as [I1 I2 I3 I4 I5 I6 I7]. rewrite Hms in I6.
  destruct I6 as [Hv0 Hf0].
  destruct (ring (base c)) as [|v' l] eqn:Hring; [done|]. injection Hv0 as ->.
  destruct fl as [|b fl]; [done|]. injection Hf0 as ->.
  assert (entries c (false :: fl) = (Z.of_nat v, false) :: zip (Z.of_nat <$> l) fl) as Hent.
  { unfold entries. by rewrite Hring. }
  rewrite Hent in I3. apply holds_advance in I3.
  simpl. rewrite !drop_0. split; simpl; try done.
  - eapply rtc_r; [exact I1|]. apply (sched_step_intro _ _ _ _ Main). simpl.
    unfold step_main. by rewrite Hm, Hring.
  - simpl in I2. lia.
  - intros i t j Hi. destruct (I4 i t j Hi) as (k & H1 & H2 & H3 & H4). rewrite Hms in H4.
    rewrite Hring in H1. destruct k as [|k]; [done|]. exists k. unfold reserved. simpl.
    split_and!; [done|done| |done].
    rewrite H3. unfold wrap. rewrite Zplus_mod_idemp_l. f_equal. lia.
  - by left.
Qed.

(** The dispatching thread never panics. *)
Lemma cinv_main c fl r : cinv c fl → rstep_main succs deg c = Some r →
  ∃ c' fl', r = Ok c' ∧ cinv c' fl'.
Proof.
  intros Hc. unfold rstep_main. pose proof (ci_main c fl Hc) as Hp.
  destruct (decide (main (base c) = MPop)) as [Hm|Hm].
  - rewrite Hm. destruct (msub c) as [| |v|v] eqn:Hms.
    + intros [= <-]. eexists _, fl. split; [done|]. by apply cinv_pop_test.
    + destruct (cinv_pop_spin c fl Hc Hm Hms) as (v & -> & Hv). intros [= <-].
      eexists _, fl. split; [done|exact Hv].
    + destruct (cinv_pop_clear c fl v Hc Hm Hms) as (r' & fl' & -> & Hr). intros [= <-].
      eexists _, fl'. split; [done|exact Hr].
    + intros [= <-]. eexists _, _. split; [done|]. by apply cinv_pop_advance.
  - assert (match main (base c) with MPop => None
            | _ => s ← step_main succs deg (base c); Some (Ok (set_base c s)) end = Some r →
            ∃ s', step_main succs deg (base c) = Some s' ∧ r = Ok (set_base c s')) as Hs.
    { destruct (main (base c)); try done;
        (destruct (step_main succs deg (base c)) as [s'|]; [|done]); intros [= <-]; eauto. }
    destruct (main (base c)) eqn:Hmb; try done; intros H; destruct (Hs H) as (s' & Hst & ->);
      (exists (set_base c s'), fl; split; [done|]; apply cinv_base; [done| | |tauto];
       [apply (sched_step_intro _ _ _ _ Main); simpl; by rewrite Hst
       |apply step_main_ring; [by rewrite Hmb|done]]).
Qed.

(** A job panics only when its loaded tail is stale. *)
Definition stale_full (c : rsched) (i : nat) : Prop :=
  ∃ t j js, pcs (base c) !! i = Some (PPush j js) ∧ sub c !! i = Some (Q1 t)
    ∧ t ≠ tail (rr c) ∧ looks_full (rr c) t (head (rr c)) = true
    ∧ (wrap 64 (tail (rr c) - head (rr c)) < len (buf (rr c)))%Z.

Lemma cinv_load_head c fl i j js t :
  cinv c fl → pcs (base c) !! i = Some (PPush j js) → sub c !! i = Some (Q1 t) →
  looks_full (rr c) t (head (rr c)) = true → stale_full c i.
Proof.
  intros Hc Hi Hs Hf. pose proof (base_inv c fl Hc) as Hinv.
  pose proof (ring_room es n succs deg Hadj (base c) i j js Hinv Hi) as Hroom.
  pose proof cap_fits as [_ Hcap]. pose proof (ci_holds c fl Hc) as Hh.
  assert (len (entries c fl) < 2 ^ m)%Z as Hlt
    by (unfold len; rewrite entries_len by (by apply Hc); lia).
  exists t, j, js. split_and!; [done|done| |done|].
  - intros ->. rewrite (looks_full_spec _ _ _ Hh) in Hf. apply Z.leb_le in Hf. lia.
  - by rewrite (ho_count _ _ _ Hh), (wr_len _ _ (ho_wf _ _ _ Hh)).
Qed.

(** The steps of the embedded scheduler outside [push]. *)
Lemma cinv_job_other c fl i (r : res rsched) : cinv c fl →
  (∀ j js, pcs (base c) !! i ≠ Some (PPush j js)) →
  (x ← step_job succs outcome (base c) i; Some (s ← x; Ok (set_base c s))) = Some r →
  ∃ c' fl', r = Ok c' ∧ cinv c' fl'.
Proof.
  intros Hc Hn. destruct (step_job succs outcome (base c) i) as [x|] eqn:Hx; [|done].
  destruct (step_job_inv es n succs deg outcome Hes Hadj Hac ltac:(lia) Hedges Hout
              _ _ _ (base_inv c fl Hc) Hx) as (s & -> & _).
  intros [= <-]. exists (set_base c s), fl. split; [done|].
  destruct (step_job_ring _ _ _ Hx Hn) as [Hr Hm].
  apply cinv_base; [done|by apply (sched_step_intro _ _ _ _ (Job i))|done|].
  rewrite Hm. apply Hc.
Qed.

Lemma cinv_job c fl i r : cinv c fl → rstep_job succs outcome c i = Some r →
  (∃ c' fl', r = Ok c' ∧ cinv c' fl') ∨ (r = Panic ∧ stale_full c i).
Proof.
  intros Hc. unfold rstep_job. destruct (sub c !! i) as [q|] eqn:Hs; [|done].
  assert ((∃ t j, q = Q3 t j) ∨ ∀ t j, q ≠ Q3 t j) as [(t & j & ->)|Hq3]
    by (destruct q; naive_solver).
  { destruct (cinv_store c fl i t j Hc Hs) as (r' & fl' & -> & Hc'). intros [= <-].
    left. eauto. }
  assert ((∃ j js, pcs (base c) !! i = Some (PPush j js))
          ∨ ∀ j js, pcs (base c) !! i ≠ Some (PPush j js)) as [(j & js & Hi)|Hn]
    by (destruct (pcs (base c) !! i) as [[]|]; naive_solver).
  - rewrite Hi. destruct q as [|t|t|t j']; [| | |naive_solver].
    + intros [= <-]. left. eexists _, fl. split; [done|]. by apply cinv_sub; [|naive_solver..].
    + destruct (looks_full _ _ _) eqn:Hf; intros [= <-].
      * right. split; [done|]. by eapply cinv_load_head.
      * left. eexists _, fl. split; [done|]. by apply cinv_sub; [|naive_solver..].
    + intros [= <-]. left. destruct (cas_tail (rr c) t) as [r'|] eqn:Hcas.
      * eexists _, _. split; [done|]. by apply cinv_cas.
      * eexists _, fl. split; [done|]. by apply cinv_sub; [|naive_solver..].
  - intros H. left. apply (cinv_job_other c fl i r Hc Hn).
    destruct q as [| | |t j]; [..|naive_solver];
      (destruct (pcs (base c) !! i) as [[]|]; try done; naive_solver).
Qed.

Lemma cinv_start c fl k r : cinv c fl → rstep_start c k = Some r →
  ∃ c' fl', r = Ok c' ∧ cinv c' fl'.
Proof.
  intros Hc. unfold rstep_start. destruct (step_start (base c) k) as [x|] eqn:Hx; [|done].
  destruct (step_start_inv es n succs deg Hes Hadj _ _ _ (base_inv c fl Hc) Hx) as (s & -> & _).
  intros [= <-]. exists (set_base c s), fl. split; [done|].
  assert (ring s = ring (base c) ∧ main s = main (base c)) as [Hr Hm].
  { revert Hx. unfold step_start. repeat case_match; naive_solver. }
  apply cinv_base; [done|by apply (sched_step_intro _ _ _ _ (Start k))|done|].
  rewrite Hm. apply Hc.
Qed.

Lemma cinv_step c fl w r : cinv c fl → rstep_of succs deg outcome c w = Some r →
  (∃ c' fl', r = Ok c' ∧ cinv c' fl') ∨ (r = Panic ∧ ∃ i, w = Job i ∧ stale_full c i).
Proof.
  intros Hc. destruct w as [|k|i]; simpl; intros H.
  - left. by eapply cinv_main.
  - left. by eapply cinv_start.
  - destruct (cinv_job c fl i r Hc H) as [?|[-> ?]]; [by left|right]. eauto.
Qed.

Lemma cinv_reset : cinv (rreset succs deg) [].
Proof.
  split; simpl; try done.
  - unfold n_items. rewrite (adj_len _ _ _ _ Hadj). by apply holds_new.
  - intros i t j [Hi _]%lookup_replicate_1. done.
  - intros i i' t j j' [Hi _]%lookup_replicate_1. done.
  - by left.
Qed.

Lemma reachable_cinv c : rtc cstep (rreset succs deg) c → ∃ fl, cinv c fl.
Proof.
  intros Hr. assert (∃ fl, cinv (rreset succs deg) fl) as H0 by eauto using cinv_reset.
  revert H0. induction Hr as [|x y z [x' w y' Hw] _ IH]; intros [fl H0]; [by exists fl|].
  apply IH. destruct (cinv_step _ _ _ _ H0 Hw) as [(c' & fl' & [= ->] & Hc')|[[=] _]].
  by exists fl'.
Qed.
End refine.

Lemma rrun_rtc {E} succs deg (outcome : nat → ItemResult E) ws c c' :
  rrun succs deg outcome c ws = Some (Ok c') → rtc (rsched_step succs deg outcome) c c'.
Proof.
  revert c. induction ws as [|w ws IH]; intros c; simpl; [by intros [= ->]|].
  destruct (rstep_of succs deg outcome c w) as [[c1|]|] eqn:Hs; [|done|done].
  intros H. eapply rtc_l; [by apply (rsched_step_intro _ _ _ c w)|by apply IH].
Qed.

(** C3. The scheduler on the real ring refines the scheduler on a queue: when
    every item continues, in every interleaving of the single atomic accesses
    of pushes and pops, the embedded scheduler state is one the abstract
    scheduler reaches; so each vertex executes at most once, after its
    predecessors, and all have executed when [run_once_borrowed] returns.  The
    only step that can panic is a job's fullness test on a tail that is no
    longer the ring's tail, with the ring not full. *)
Theorem ring_sched_refines {Decl UserError E} (b : GraphBuilder Decl UserError) g
    (outcome : nat → ItemResult E) c :
  finish b = Ok (inl g) →
  (Z.of_nat (length (items b)) ≤ 2 ^ 63)%Z → (Z.of_nat (length (edges b)) < 2 ^ 64)%Z →
  (∀ i, outcome i = Continue) →
  rtc (rsched_step (successors g) (in_degree g) outcome)
    (rreset (successors g) (in_degree g)) c →
  rtc (sched_step (successors g) (in_degree g) outcome)
    (reset (successors g) (in_degree g)) (base c)
  ∧ topo (edges b) (reverse (log (base c)))
  ∧ (main (base c) = MReturned → log (base c) ≡ₚ seq 0 (length (items b)))
  ∧ (∀ w, rstep_of (successors g) (in_degree g) outcome c w = Some Panic →
       ∃ i, w = Job i ∧ stale_full c i).
Proof.
  intros Hfin Hn He Hout Hr.
  destruct (finish_accepted b g Hfin) as (_ & _ & Hb & Hac & _ & Hadj & _).
  destruct (reachable_cinv (edges b) (length (items b)) (successors g) (in_degree g) outcome
    Hb Hadj Hac Hn He Hout c Hr) as [fl Hc].
  assert (inv (edges b) (length (items b)) (successors g) (in_degree g) (base c)) as Hinv
    by (by eapply base_inv).
  split_and!.
  - apply Hc.
  - apply Hinv.
  - intros HR. by eapply returned_all.
  - intros w Hw. destruct (cinv_step (edges b) (length (items b)) (successors g) (in_degree g)
      outcome Hb Hadj Hac Hn He Hout c fl w _ Hc Hw) as [(? & ? & [=] & _)|[_ ?]]. done.
Qed.

(** The diamond on the real ring, vertices 1 and 2 pushing in turns. *)
Definition rdiamond_schedule : list who :=
  replicate 5 Main ++ [Start 0] ++ replicate 16 (Job 0) ++ replicate 9 Main
  ++ [Start 0; Start 0] ++ concat (replicate 7 [Job 1; Job 2]) ++ replicate 4 (Job 2)
  ++ replicate 6 Main ++ [Start 0] ++ replicate 4 (Job 3) ++ replicate 2 Main.
Definition rdiamond_end : @rsched string :=
  match rrun (successors diamond_graph) (in_degree diamond_graph) go_on
          (rreset (successors diamond_graph) (in_degree diamond_graph)) rdiamond_schedule with
  | Some (Ok c) => c
  | _ => rreset [] []
  end.

Lemma ring_sched_refines_witness :
  main (base rdiamond_end) = MReturned ∧ log (base rdiamond_end) ≡ₚ [0; 1; 2; 3].
Proof.
  assert (main (base rdiamond_end) = MReturned) as HR by (vm_compute; reflexivity).
  split; [exact HR|].
  apply (ring_sched_refines diamond diamond_graph go_on rdiamond_end); [..|exact HR].
  - vm_compute. reflexivity.
  - vm_compute. discriminate.
  - vm_compute. reflexivity.
  - reflexivity.
  - apply (rrun_rtc _ _ _ rdiamond_schedule). vm_compute. reflexivity.
Defined.

(** ** The stale-tail push *)

(** Vertex 0 feeds 1 and 2, vertex 1 feeds 3, vertex 2 feeds 4. *)
Definition fork : GraphBuilder nat unit :=
  MkBuilder (replicate 5 quiet_item) [(0, 1); (0, 2); (1, 3); (2, 4)] (Some 0).
Definition fork_graph : Graph nat unit :=
  MkGraph [[1; 2]; [3]; [4]; []; []] [0; 1; 1; 1; 1] 0 [7] (replicate 5 quiet_item).
Definition stale_schedule : list who :=
  replicate 6 Main ++ [Start 0] ++ replicate 16 (Job 0) ++ replicate 8 Main
  ++ [Start 0; Start 0]
  ++ replicate 7 (Job 1)       (* vertex 1 has loaded the tail *)
  ++ replicate 10 (Job 2)      (* vertex 2 pushes vertex 4 *)
  ++ replicate 4 Main.         (* the dispatcher pops it *)

(** A push can take the ring for full when it is not: [push] loads the tail
    before the head, so if another producer pushes and the consumer pops in
    between, the loaded head is ahead of the loaded tail, their wrapping
    difference is huge and [push] returns [Err].  In a graph of five vertices in
    which every item continues, a schedule leads the vertex job to this error
    with the ring of eight slots empty; the job's [expect] then panics, which
    the executor treats as fatal. *)
Theorem stale_tail_push_panics :
  finish fork = Ok (inl fork_graph)
  ∧ ∃ c t,
      rrun (successors fork_graph) (in_degree fork_graph) go_on
        (rreset (successors fork_graph) (in_degree fork_graph)) stale_schedule = Some (Ok c)
      ∧ length (buf (rr c)) = 8 ∧ head (rr c) = tail (rr c)
      ∧ pcs (base c) !! 1 = Some (PPush 3 []) ∧ sub c !! 1 = Some (Q1 t)
      ∧ rstep_of (successors fork_graph) (in_degree fork_graph) go_on c (Job 1) = Some Panic.
Proof.
  split; [by vm_compute|]. eexists _, _. split; [vm_compute; reflexivity|].
  split_and!; by vm_compute.
Qed.
End ExecSchedRing.
