(* ===== verification/ExecFault.v ===== *)
(** * Fault states of the executor

    Models [taktora-executor/src/fault.rs]: the fault states of a task and of
    the executor, their packing into one atomic word, the swap that detects a
    first transition, and the saturating millisecond conversion. *)

From stdpp Require Import base list.
From Stdlib Require Import ZArith Lia.
From S2P Require Import Prelude.

Module ExecFault.

Inductive FaultReason :=
| BudgetExceeded (took_ms budget_ms : Z)
| ExecutorFaulted.
Inductive FaultState :=
| Running
| Faulted (reason : FaultReason) (since_ms : Z).
Inductive ExecutorFaultReason :=
| IterationBudgetExceeded (task_idx took_ms budget_ms : Z).
Inductive ExecutorFaultState :=
| ExecRunning
| ExecFaulted (reason : ExecutorFaultReason) (since_ms : Z).

#[export] Instance FaultState_eq_dec : EqDecision FaultState.
Proof. unfold EqDecision. intros. unfold Decision. repeat decide equality. Defined.

(** ** Packing *)

Definition word (disc took_ms since_ms : Z) : Z :=
  Z.lor (Z.lor (Z.shiftl disc 62) (Z.shiftl (Z.land took_ms 0x3FFFFFFF) 32)) since_ms.

Definition pack (state : FaultState) : Z :=
  match state with
  | Running => 0
  | Faulted reason since_ms =>
      let '(disc, took_ms) := match reason with
                              | BudgetExceeded took_ms _ => (1, took_ms)
                              | ExecutorFaulted => (2, 0)
                              end in
      word disc took_ms since_ms
  end.

Definition disc_of (packed : Z) : Z := Z.land (Z.shiftr packed 62) 3.
Definition took_of (packed : Z) : Z := wrap 32 (Z.land (Z.shiftr packed 32) 0x3FFFFFFF).
Definition since_of (packed : Z) : Z := wrap 32 (Z.land packed 0xFFFFFFFF).

Definition unpack (packed budget_ms : Z) : FaultState :=
  match disc_of packed with
  | 1 => Faulted (BudgetExceeded (took_of packed) budget_ms) (since_of packed)
  | 2 => Faulted ExecutorFaulted (since_of packed)
  | _ => Running
  end.

Definition exec_pack (state : ExecutorFaultState) : Z :=
  match state with
  | ExecRunning => 0
  | ExecFaulted (IterationBudgetExceeded _ took_ms _) since_ms => word 1 took_ms since_ms
  end.

Definition exec_unpack (packed task_idx budget_ms : Z) : ExecutorFaultState :=
  match disc_of packed with
  | 1 => ExecFaulted (IterationBudgetExceeded task_idx (took_of packed) budget_ms)
           (since_of packed)
  | _ => ExecRunning
  end.

(** ** The atomics: the stored word is the state *)

Definition FaultAtomic := Z.
Definition fault_new : FaultAtomic := 0.
Definition load (a : FaultAtomic) (budget_ms : Z) : FaultState := unpack a budget_ms.
Definition swap (a : FaultAtomic) (state : FaultState) (budget_ms : Z) : FaultAtomic * FaultState :=
  (pack state, unpack a budget_ms).

Definition ExecutorFaultAtomic := Z.
Definition exec_fault_new : ExecutorFaultAtomic := 0.
Definition exec_load (a : ExecutorFaultAtomic) (task_idx budget_ms : Z) : ExecutorFaultState :=
  exec_unpack a task_idx budget_ms.
Definition exec_swap (a : ExecutorFaultAtomic) (state : ExecutorFaultState)
    (task_idx budget_ms : Z) : ExecutorFaultAtomic * ExecutorFaultState :=
  (exec_pack state, exec_unpack a task_idx budget_ms).

(** [as_millis] of a duration, saturated to [u32::MAX]. *)
Definition duration_to_ms_sat (ms : Z) : Z := if 2 ^ 32 - 1 <? ms then 2 ^ 32 - 1 else wrap 32 ms.
(** Instants as milliseconds of one clock. *)
Definition instant_to_since_ms (at_ms start_ms : Z) : Z :=
  duration_to_ms_sat (sat_sub at_ms start_ms).

(** ** What a packed word keeps *)

Definition wf_state (s : FaultState) : Prop :=
  match s with
  | Running => True
  | Faulted (BudgetExceeded t b) since => is_u 32 t ∧ is_u 32 b ∧ is_u 32 since
  | Faulted ExecutorFaulted since => is_u 32 since
  end.

(** The state read back: the overrun modulo 2^30 ms, the reader's budget. *)
Definition read_back (s : FaultState) (budget_ms : Z) : FaultState :=
  match s with
  | Running => Running
  | Faulted (BudgetExceeded t _) since => Faulted (BudgetExceeded (t mod 2 ^ 30) budget_ms) since
  | Faulted ExecutorFaulted since => Faulted ExecutorFaulted since
  end.

Lemma word_eq d t s : 0 ≤ d → is_u 32 s → word d t s = d * 2 ^ 62 + t mod 2 ^ 30 * 2 ^ 32 + s.
Proof.
  intros Hd Hs. unfold word, is_u in *. rewrite (land_mask t _ 30) by (reflexivity || lia).
  rewrite !Z.shiftl_mul_pow2 by lia.
  pose proof (Z.mod_pos_bound t (2 ^ 30) ltac:(lia)).
  rewrite (lor_disjoint_add (t mod 2 ^ 30 * 2 ^ 32) d 62) by lia.
  replace (d * 2 ^ 62 + t mod 2 ^ 30 * 2 ^ 32) with ((d * 2 ^ 30 + t mod 2 ^ 30) * 2 ^ 32) by lia.
  rewrite lor_disjoint_add by lia. lia.
Qed.

Lemma fields_of_word d t s : 0 ≤ d < 4 → is_u 32 s →
  disc_of (word d t s) = d ∧ took_of (word d t s) = t mod 2 ^ 30 ∧ since_of (word d t s) = s.
Proof.
  intros Hd Hs. rewrite word_eq by (done || lia). unfold is_u in Hs.
  pose proof (Z.mod_pos_bound t (2 ^ 30) ltac:(lia)) as Ht. set (t' := t mod 2 ^ 30) in *.
  unfold disc_of, took_of, since_of, wrap. rewrite !Z.shiftr_div_pow2 by lia.
  rewrite (land_mask _ 3 2), (land_mask _ 0x3FFFFFFF 30), (land_mask _ 0xFFFFFFFF 32)
    by (reflexivity || lia). zdiv.
Qed.

Lemma unpack_pack s b : wf_state s → unpack (pack s) b = read_back s b.
Proof.
  intros Hs. destruct s as [|[t b'|] since]; [done|..]; simpl in *.
  - destruct (fields_of_word 1 t since) as (Hd & Ht & Hsi); [lia|tauto|].
    unfold unpack. by rewrite Hd, Ht, Hsi.
  - destruct (fields_of_word 2 0 since) as (Hd & Ht & Hsi); [lia|done|].
    unfold unpack. by rewrite Hd, Hsi.
Qed.

(** A sequence of swaps: the previous states they return. *)
Fixpoint swaps (a : FaultAtomic) (ss : list (FaultState * Z)) : FaultAtomic * list FaultState :=
  match ss with
  | [] => (a, [])
  | (s, b) :: ss =>
      let '(a, prev) := swap a s b in
      let '(a, prevs) := swaps a ss in
      (a, prev :: prevs)
  end.
(** The reference: a cell holding a state. *)
Fixpoint cell_swaps (c : FaultState) (ss : list (FaultState * Z)) : FaultState * list FaultState :=
  match ss with
  | [] => (c, [])
  | (s, b) :: ss => let '(c', prevs) := cell_swaps s ss in (c', read_back c b :: prevs)
  end.

Lemma swaps_cell ss c : wf_state c → Forall (λ sb, wf_state sb.1) ss →
  swaps (pack c) ss = (pack (cell_swaps c ss).1, (cell_swaps c ss).2)
  ∧ wf_state (cell_swaps c ss).1.
Proof.
  intros Hc Hss. revert c Hc. induction Hss as [|[s b] ss Hs _ IH]; intros c Hc; [done|].
  cbn [swaps cell_swaps swap]. destruct (IH s Hs) as [H1 H2]. rewrite H1.
  destruct (cell_swaps s ss) as [c' prevs]. rewrite unpack_pack by done. done.
Qed.

(** The packed fault word is a cell for fault states: for every sequence of
    swaps of well-formed states, each swap returns the state stored before it
    (the first one [Running]) and a final load the last one stored, with the
    overrun kept modulo 2^30 ms and the budget supplied by the reader; so a
    transition from [Running] is reported exactly once, and nothing but the
    upper two bits of [took_ms] is lost. *)
Theorem fault_swaps_exact ss b :
  Forall (λ sb, wf_state sb.1) ss →
  let '(a, prevs) := swaps fault_new ss in
  let '(c, refs) := cell_swaps Running ss in
  prevs = refs ∧ load a b = read_back c b.
Proof.
  intros Hss. change fault_new with (pack Running).
  destruct (swaps_cell ss Running I Hss) as [-> Hw].
  destruct (cell_swaps Running ss) as [c refs]. simpl in *. split; [done|].
  unfold load. by apply unpack_pack.
Qed.

Lemma fault_swaps_exact_witness :
  let '(a, prevs) := swaps fault_new
    [(Faulted (BudgetExceeded 17 10) 1234, 10); (Faulted ExecutorFaulted 1300, 10); (Running, 10)] in
  prevs = [Running; Faulted (BudgetExceeded 17 10) 1234; Faulted ExecutorFaulted 1300]
  ∧ load a 10 = Running.
Proof.
  apply (fault_swaps_exact [(Faulted (BudgetExceeded 17 10) 1234, 10);
    (Faulted ExecutorFaulted 1300, 10); (Running, 10)] 10).
  repeat constructor; simpl; lia.
Defined.

(** The overrun is not saturated to the 30 bits of the packed word: a task
    that ran for 2^30 ms or longer is reported with the duration modulo 2^30,
    so an overrun of exactly 2^30 ms reads back as 0 ms. *)
Lemma took_wraps b :
  load (swap fault_new (Faulted (BudgetExceeded (2 ^ 30) 5) 42) b).1 b
  = Faulted (BudgetExceeded 0 b) 42.
Proof. reflexivity. Qed.

Lemma exec_unpack_pack i t b since i' b' : is_u 32 since →
  exec_unpack (exec_pack (ExecFaulted (IterationBudgetExceeded i t b) since)) i' b'
  = ExecFaulted (IterationBudgetExceeded i' (t mod 2 ^ 30) b') since.
Proof.
  intros Hs. destruct (fields_of_word 1 t since) as (Hd & Ht & Hsi); [lia|done|].
  unfold exec_unpack, exec_pack. by rewrite Hd, Ht, Hsi.
Qed.

(** The executor-wide fault word keeps its state across a swap and a load,
    with the task index and budget of the reader and the overrun modulo 2^30
    ms, and the conversion of elapsed time to the stored [u32] saturates. *)
Theorem exec_fault_roundtrip a i t b at_ms start_ms :
  is_u 32 t →
  let since := instant_to_since_ms at_ms start_ms in
  exec_load (exec_swap a (ExecFaulted (IterationBudgetExceeded i t b) since) i b).1 i b
    = ExecFaulted (IterationBudgetExceeded i (t mod 2 ^ 30) b) since
  ∧ since = Z.min (2 ^ 32 - 1) (Z.max 0 (at_ms - start_ms)).
Proof.
  intros Ht since.
  assert (since = Z.min (2 ^ 32 - 1) (Z.max 0 (at_ms - start_ms))) as Hs.
  { unfold since, instant_to_since_ms, duration_to_ms_sat, sat_sub.
    destruct (Z.ltb_spec (2 ^ 32 - 1) (Z.max 0 (at_ms - start_ms))); [lia|].
    rewrite wrap_small; lia. }
  split; [|done]. unfold exec_load, exec_swap. apply exec_unpack_pack. split; lia.
Qed.

Lemma exec_fault_roundtrip_witness :
  exec_load (exec_swap exec_fault_new
    (ExecFaulted (IterationBudgetExceeded 3 20 10) (instant_to_since_ms 1050 1000)) 3 10).1 3 10
    = ExecFaulted (IterationBudgetExceeded 3 20 10) 50
  ∧ instant_to_since_ms 1050 1000 = 50.
Proof. apply (exec_fault_roundtrip exec_fault_new 3 20 10 1050 1000). split; lia. Defined.

End ExecFault.
