(* ===== verification/StatsMinMax.v ===== *)
(** * Windowed minimum and maximum

    Models [taktora-stats/src/minmax.rs]: the fixed-capacity ring deque
    [MonoDeque] and the monotonic-deque tracker [MinMaxDeque], and proves that
    the tracker reports exactly the minimum and maximum of the last [N]
    samples. *)

From stdpp Require Import base list sorting sets.
From Stdlib Require Import ZArith Lia.
From S2P Require Import Prelude.

Module StatsMinMax.

(** ** [MonoDeque] *)

Record MonoDeque := MkDeque {
  buf : list (Z * Z);
  head : Z;
  dlen : Z;
}.

(** [MinMaxDeque]; [next] is the index of the next sample. *)
Record MinMaxDeque := MkMinMax {
  min_d : MonoDeque;
  max_d : MonoDeque;
  next : Z;
}.

Section deque.
(** The window size, a compile-time constant asserted to be positive. *)
Context (N : Z).

Definition deque_new : MonoDeque := MkDeque (replicate (Z.to_nat N) (0, 0)) 0 0.
Definition is_empty (d : MonoDeque) : bool := dlen d =? 0.
Definition front (d : MonoDeque) : res (Z * Z) := idx (buf d) (head d).
Definition back (d : MonoDeque) : res (Z * Z) :=
  i ← sub_chk (head d + dlen d) 1;
  idx (buf d) (i mod N).
Definition push_back (d : MonoDeque) (item : Z * Z) : res MonoDeque :=
  let i := (head d + dlen d) mod N in
  _ ← idx (buf d) i;
  Ok (MkDeque (<[Z.to_nat i := item]> (buf d)) (head d) (dlen d + 1)).
Definition pop_back (d : MonoDeque) : res MonoDeque :=
  l ← sub_chk (dlen d) 1;
  Ok (MkDeque (buf d) (head d) l).
Definition pop_front (d : MonoDeque) : res MonoDeque :=
  l ← sub_chk (dlen d) 1;
  Ok (MkDeque (buf d) ((head d + 1) mod N) l).

(** ** [MinMaxDeque] *)

Definition minmax_new : MinMaxDeque := MkMinMax deque_new deque_new 0.

(** [while !d.is_empty() && c(d) { p(d) }]; running out of fuel counts as a
    panic, so that a proof that it returns is a proof that it terminates. *)
Fixpoint pop_while (c : MonoDeque → res bool) (p : MonoDeque → res MonoDeque)
    (fuel : nat) (d : MonoDeque) : res MonoDeque :=
  match fuel with
  | O => Panic
  | S fuel =>
      if is_empty d then Ok d
      else b ← c d;
           if (b : bool) then d ← p d; pop_while c p fuel d else Ok d
  end.

Definition pop_all (c : MonoDeque → res bool) (p : MonoDeque → res MonoDeque)
    (d : MonoDeque) : res MonoDeque := pop_while c p (S (Z.to_nat (dlen d))) d.

(** The update of one deque: drop what the new value dominates from the back,
    what has left the window from the front, and append. *)
Definition slide (dominates : Z → Z → bool) (d : MonoDeque) (i value window_start : Z) :
  res MonoDeque :=
  d ← pop_all (λ d, x ← back d; Ok (dominates value x.2)) pop_back d;
  d ← pop_all (λ d, x ← front d; Ok (x.1 <? window_start)) pop_front d;
  push_back d (i, value).

Definition record (m : MinMaxDeque) (value : Z) : res MinMaxDeque :=
  let i := next m in
  if 2 ^ 64 <=? i + 1 then Panic
  else
    let window_start := sat_sub (i + 1) N in
    min_d ← slide (λ value b, value <=? b) (min_d m) i value window_start;
    max_d ← slide (λ value b, b <=? value) (max_d m) i value window_start;
    Ok (MkMinMax min_d max_d (i + 1)).

Definition front_value (d : MonoDeque) : res (option Z) :=
  if is_empty d then Ok None else x ← front d; Ok (Some x.2).
Definition min (m : MinMaxDeque) : res (option Z) := front_value (min_d m).
Definition max (m : MinMaxDeque) : res (option Z) := front_value (max_d m).

Fixpoint record_all (m : MinMaxDeque) (xs : list Z) : res MinMaxDeque :=
  match xs with
  | [] => Ok m
  | x :: xs => m ← record m x; record_all m xs
  end.

(** ** The deque holds a list *)

Context (HN : 0 < N).

Record content (d : MonoDeque) (q : list (Z * Z)) : Prop := {
  co_buf : len (buf d) = N;
  co_head : 0 ≤ head d < N;
  co_len : dlen d = len q;
  co_fits : len q ≤ N;
  co_at : ∀ k x, q !! k = Some x → buf d !! Z.to_nat ((head d + Z.of_nat k) mod N) = Some x;
}.

Lemma mod_idx (d : MonoDeque) i : len (buf d) = N → no_panic (idx (buf d) (i mod N)).
Proof. intros Hb. apply idx_lt. rewrite Hb. by apply Z.mod_pos_bound. Qed.

Lemma content_new : content deque_new [].
Proof.
  split; simpl; try done; [|unfold len; simpl; lia].
  unfold len. rewrite length_replicate. lia.
Qed.

Lemma content_empty d q : content d q → is_empty d = bool_decide (q = []).
Proof.
  intros Hc. unfold is_empty. rewrite (co_len d q Hc). by destruct q.
Qed.

Lemma front_spec d x q : content d (x :: q) → front d = Ok x.
Proof.
  intros Hc. unfold front. apply idx_Ok. pose proof (co_head _ _ Hc) as Hh. split; [lia|].
  pose proof (co_at _ _ Hc 0 x eq_refl) as H. simpl in H.
  by rewrite Z.add_0_r, Z.mod_small in H by lia.
Qed.

Lemma back_spec d x q : content d (q ++ [x]) → back d = Ok x.
Proof.
  intros Hc. unfold back. pose proof (co_head _ _ Hc) as Hh. pose proof (co_len _ _ Hc) as Hl.
  rewrite len_app in Hl. change (len [x]) with 1 in Hl. pose proof (len_nonneg q).
  rewrite sub_chk_Ok by lia. cbn [mbind res_bind]. apply idx_Ok.
  split; [by apply Z.mod_pos_bound|].
  pose proof (co_at _ _ Hc (length q) x) as Hat. rewrite lookup_app_r, Nat.sub_diag in Hat by lia.
  specialize (Hat eq_refl). rewrite <-Hat. do 2 f_equal. unfold len in *. f_equal. lia.
Qed.

Lemma pop_back_spec d x q : content d (q ++ [x]) → ∃ d', pop_back d = Ok d' ∧ content d' q.
Proof.
  intros [Hb Hh Hl Hf Ha]. rewrite len_app in *. change (len [x]) with 1 in *.
  pose proof (len_nonneg q). unfold pop_back. rewrite sub_chk_Ok by lia. eexists. split; [done|].
  split; simpl; try done; [lia|lia|].
  intros k y Hk. apply Ha. by apply lookup_app_l_Some.
Qed.

Lemma pop_front_spec d x q : content d (x :: q) → ∃ d', pop_front d = Ok d' ∧ content d' q.
Proof.
  intros [Hb Hh Hl Hf Ha]. unfold len in Hl, Hf. simpl in Hl, Hf.
  unfold pop_front. rewrite sub_chk_Ok by lia. eexists. split; [done|].
  split; simpl; try done; unfold len; [by apply Z.mod_pos_bound|lia|lia|].
  intros k y Hk. rewrite <-(Ha (S k) y) by done. rewrite Zplus_mod_idemp_l.
  do 2 f_equal. f_equal. lia.
Qed.

Lemma push_back_spec d x q : content d q → len q < N →
  ∃ d', push_back d x = Ok d' ∧ content d' (q ++ [x]).
Proof.
  intros [Hb Hh Hl Hf Ha] Hlt. unfold push_back.
  destruct (mod_idx d (head d + dlen d) Hb) as [y ->]. eexists. split; [done|].
  pose proof (len_nonneg q). split; cbn [buf head dlen].
  - unfold len. by rewrite length_insert.
  - done.
  - rewrite len_app. change (len [x]) with 1. lia.
  - rewrite len_app. change (len [x]) with 1. lia.
  - intros k z Hk. apply lookup_app_Some in Hk as [Hk|[Hge Hk]].
    + rewrite list_lookup_insert_ne; [by apply Ha|]. apply lookup_lt_Some in Hk.
      intros Heq. apply Z2Nat.inj in Heq; [|by apply Z.mod_pos_bound..].
      assert ((dlen d - Z.of_nat k) mod N = 0) as Hz.
      { replace (dlen d - Z.of_nat k) with ((head d + dlen d) - (head d + Z.of_nat k)) by lia.
        rewrite Zminus_mod, Heq, Z.sub_diag. apply Z.mod_0_l. lia. }
      unfold len in *. rewrite Z.mod_small in Hz by lia. lia.
    + apply list_lookup_singleton_Some in Hk as [Hk <-].
      replace (Z.of_nat k) with (dlen d) by (unfold len in *; lia).
      rewrite list_lookup_insert_eq; [done|].
      pose proof (Z.mod_pos_bound (head d + dlen d) N HN). unfold len in Hb. lia.
Qed.

(** ** The loops on the list *)

Fixpoint drop_while {A} (P : A → bool) (l : list A) : list A :=
  match l with
  | [] => []
  | x :: l => if P x then drop_while P l else x :: l
  end.
Definition drop_back {A} (P : A → bool) (l : list A) : list A :=
  reverse (drop_while P (reverse l)).

Lemma drop_back_snoc {A} (P : A → bool) l x :
  drop_back P (l ++ [x]) = if P x then drop_back P l else l ++ [x].
Proof.
  unfold drop_back. rewrite reverse_snoc. simpl. destruct (P x); [done|].
  by rewrite reverse_cons, reverse_involutive.
Qed.

Lemma pop_while_S c p fuel d :
  pop_while c p (S fuel) d
  = if is_empty d then Ok d
    else b ← c d; if (b : bool) then d ← p d; pop_while c p fuel d else Ok d.
Proof. done. Qed.

Lemma pop_back_while P d q : content d q →
  ∃ d', pop_all (λ d, x ← back d; Ok (P x)) pop_back d = Ok d' ∧ content d' (drop_back P q).
Proof.
  intros Hc. unfold pop_all. rewrite (co_len d q Hc). unfold len. rewrite Nat2Z.id.
  revert d Hc. induction q as [|x q IH] using rev_ind; intros d Hc.
  - exists d. split; [|done]. simpl. by rewrite (content_empty _ _ Hc).
  - rewrite length_app, Nat.add_1_r, pop_while_S, (content_empty _ _ Hc).
    rewrite bool_decide_eq_false_2 by (by destruct q).
    rewrite (back_spec _ _ _ Hc), drop_back_snoc. cbn [mbind res_bind].
    destruct (P x); [|by exists d].
    destruct (pop_back_spec _ _ _ Hc) as (d1 & -> & Hc1). cbn [mbind res_bind]. auto.
Qed.

Lemma pop_front_while P d q : content d q →
  ∃ d', pop_all (λ d, x ← front d; Ok (P x)) pop_front d = Ok d' ∧ content d' (drop_while P q).
Proof.
  intros Hc. unfold pop_all. rewrite (co_len d q Hc). unfold len. rewrite Nat2Z.id.
  revert d Hc. induction q as [|x q IH]; intros d Hc.
  - exists d. split; [|done]. simpl. by rewrite (content_empty _ _ Hc).
  - cbn [length drop_while]. rewrite pop_while_S, (content_empty _ _ Hc).
    rewrite bool_decide_eq_false_2 by done.
    rewrite (front_spec _ _ _ Hc). cbn [mbind res_bind]. destruct (P x); [|by exists d].
    destruct (pop_front_spec _ _ _ Hc) as (d1 & -> & Hc1). cbn [mbind res_bind]. auto.
Qed.

(** ** The monotonic invariant *)

(** The last [N] samples. *)
Definition window (xs : list Z) : list Z := drop (length xs - Z.to_nat N) xs.

Section mono.
Context (dominates : Z → Z → bool).
Context (Hrefl : ∀ a, dominates a a = true).
Context (Htrans : ∀ a b c, dominates a b = true → dominates b c = true → dominates a c = true).
Context (Htotal : ∀ a b, dominates a b = false → dominates b a = true).

(** [e] comes before [e'] in the deque. *)
Definition before (e e' : Z * Z) : Prop := e.1 < e'.1 ∧ dominates e'.2 e.2 = false.

(** The deque after the samples [xs], for a window starting at [ws]: entries of
    the window, in order of age, none dominated by a later one, and such that
    every sample of the window is dominated by an entry not older. *)
Record mono (xs : list Z) (ws : Z) (q : list (Z * Z)) : Prop := {
  mo_sorted : StronglySorted before q;
  mo_entry : ∀ i v, (i, v) ∈ q → ws ≤ i ∧ 0 ≤ i ∧ xs !! Z.to_nat i = Some v;
  mo_cover : ∀ j v, ws ≤ Z.of_nat j → xs !! j = Some v →
    ∃ i w, (i, w) ∈ q ∧ Z.of_nat j ≤ i ∧ dominates w v = true;
}.

Lemma drop_while_sub {A} (P : A → bool) l x : x ∈ drop_while P l → x ∈ l.
Proof.
  induction l as [|y l IH]; [done|]. simpl. destruct (P y); [|done]. intros. right. auto.
Qed.
Lemma drop_back_sub {A} (P : A → bool) l x : x ∈ drop_back P l → x ∈ l.
Proof.
  unfold drop_back. rewrite elem_of_reverse. intros H%drop_while_sub. by apply elem_of_reverse.
Qed.

Lemma sorted_snoc {A} (R : A → A → Prop) l x :
  StronglySorted R (l ++ [x]) ↔ StronglySorted R l ∧ Forall (λ y, R y x) l.
Proof.
  induction l as [|y l IH]; simpl.
  - split; [split; constructor|]. intros _. by repeat constructor.
  - rewrite !StronglySorted_cons, IH, Forall_app, Forall_singleton, Forall_cons. tauto.
Qed.

(** Appending a value after dropping what it dominates. *)
Lemma mono_append xs ws q value :
  mono xs ws q → ws ≤ len xs →
  mono (xs ++ [value]) ws
    (drop_back (λ x, dominates value x.2) q ++ [(len xs, value)]).
Proof.
  intros [Hs He Hc] Hws.
  assert (StronglySorted before (drop_back (λ x, dominates value x.2) q)
    ∧ Forall (λ x, dominates value x.2 = false) (drop_back (λ x, dominates value x.2) q)
    ∧ ∀ x, x ∈ q → x ∈ drop_back (λ x, dominates value x.2) q
                 ∨ dominates value x.2 = true) as (Hs' & Hnd & Hkeep).
  { clear He Hc. induction q as [|x q IH] using rev_ind.
    - split_and!; [constructor|constructor|]. intros x Hx. by apply elem_of_nil in Hx.
    - apply sorted_snoc in Hs as [Hs Hx]. rewrite drop_back_snoc.
      destruct (dominates value x.2) eqn:Hd.
      + destruct (IH Hs) as (H1 & H2 & H3). split_and!; [done|done|].
        intros y [Hy|Hy%list_elem_of_singleton]%elem_of_app; [auto|]. subst. by right.
      + split_and!; [by apply sorted_snoc| |by auto].
        apply Forall_app. split; [|by repeat constructor].
        eapply Forall_impl; [exact Hx|]. intros y [_ Hy]. simpl in Hy.
        destruct (dominates value y.2) eqn:Hvy; [|done]. exfalso.
        assert (dominates x.2 y.2 = true); [|congruence].
        apply (Htrans _ value); [by apply Htotal|done]. }
  assert (∀ i v, (i, v) ∈ q → i < len xs) as Hidx.
  { intros i v Hin. destruct (He i v Hin) as (_ & H0 & Hl%lookup_lt_Some). unfold len. lia. }
  split.
  - apply sorted_snoc. split; [done|]. rewrite Forall_forall in Hnd |- *. intros [i v] Hx.
    split; [by eapply Hidx, drop_back_sub|by apply (Hnd (i, v))].
  - intros i v [Hin%drop_back_sub|Hin%list_elem_of_singleton]%elem_of_app.
    + destruct (He i v Hin) as (H1 & H2 & H3). split_and!; try done. by apply lookup_app_l_Some.
    + injection Hin as -> ->. pose proof (len_nonneg xs). split_and!; [done|done|].
      unfold len. rewrite Nat2Z.id, lookup_app_r, Nat.sub_diag by lia. done.
  - intros j v Hj Hv.
    assert (∃ i w, (i, w) ∈ drop_back (λ x, dominates value x.2) q ++ [(len xs, value)]
       ∧ Z.of_nat j ≤ i ∧ dominates w v = true); [|done].
    assert ((len xs, value) ∈ drop_back (λ x, dominates value x.2) q ++ [(len xs, value)])
      as Hlast by (apply elem_of_app; right; by left).
    apply lookup_app_Some in Hv as [Hv|[Hge Hv]].
    + pose proof (lookup_lt_Some _ _ _ Hv) as Hlt.
      destruct (Hc j v Hj Hv) as (i & w & Hin & Hji & Hd).
      destruct (Hkeep _ Hin) as [Hk|Hk].
      * exists i, w. split_and!; [|done|done]. apply elem_of_app. by left.
      * exists (len xs), value. split_and!; [done|unfold len; lia|by eapply Htrans].
    + apply list_lookup_singleton_Some in Hv as [Hj0 ->].
      exists (len xs), v. split_and!; [done|unfold len; lia|done].
Qed.

(** Dropping what has left the window. *)
Lemma mono_expire xs ws ws' q : mono xs ws q → ws ≤ ws' →
  mono xs ws' (drop_while (λ x, x.1 <? ws') q).
Proof.
  intros [Hs He Hc] Hws.
  assert (StronglySorted before (drop_while (λ x, x.1 <? ws') q)
    ∧ ∀ x, x ∈ q → if decide (ws' ≤ x.1) then x ∈ drop_while (λ x, x.1 <? ws') q
                   else x ∉ drop_while (λ x, x.1 <? ws') q) as [Hs' Hin].
  { clear He Hc. induction q as [|x q IH].
    { split; [done|]. intros x Hx. by apply elem_of_nil in Hx. }
    apply StronglySorted_cons in Hs as [Hx Hs]. destruct (IH Hs) as [Hs1 Hin1]. simpl.
    rewrite Forall_forall in Hx. destruct (Z.ltb_spec x.1 ws') as [Hlt|Hge].
    - split; [done|]. intros y [->|Hy]%elem_of_cons; [|by apply Hin1]. rewrite decide_False by lia.
      intros Hy%drop_while_sub. destruct (Hx _ Hy). lia.
    - split; [by apply StronglySorted_cons; split; [apply Forall_forall|]|].
      intros y Hy. rewrite decide_True; [done|].
      apply elem_of_cons in Hy as [->|Hy]; [done|]. destruct (Hx _ Hy). lia. }
  split; [done| |].
  - intros i v Hiv. pose proof (drop_while_sub _ _ _ Hiv) as Hq. specialize (Hin _ Hq).
    simpl in Hin. case_decide; [|done]. destruct (He i v Hq) as (_ & H1 & H2). done.
  - intros j v Hj Hv. destruct (Hc j v ltac:(lia) Hv) as (i & w & Hq & Hji & Hd).
    specialize (Hin _ Hq). simpl in Hin. rewrite decide_True in Hin by lia. eauto.
Qed.

(** Entries of a window of at most [N] samples fit the deque. *)
Lemma sorted_len q lo hi : lo ≤ hi → StronglySorted before q →
  (∀ x, x ∈ q → lo ≤ x.1 < hi) → len q ≤ hi - lo.
Proof.
  intros Hle Hs. revert lo Hle. induction Hs as [|x q _ IH Hx]; intros lo Hle Hb.
  - unfold len. simpl. lia.
  - rewrite Forall_forall in Hx. pose proof (Hb x ltac:(by left)).
    assert (len q ≤ hi - (lo + 1)) as H'; [|unfold len in *; simpl; lia].
    apply IH; [lia|]. intros y Hy. destruct (Hx _ Hy). pose proof (Hb y ltac:(by right)). lia.
Qed.

Definition window_from (n : Z) : Z := sat_sub n N.

Lemma drop_while_snoc {A} (P : A → bool) l x : P x = false →
  drop_while P (l ++ [x]) = drop_while P l ++ [x].
Proof. intros Hx. induction l as [|y l IH]; simpl; [by rewrite Hx|]. by destruct (P y). Qed.

Lemma slide_spec d xs q value : content d q → mono xs (window_from (len xs)) q →
  ∃ d' q', slide dominates d (len xs) value (window_from (len xs + 1)) = Ok d'
    ∧ content d' q' ∧ mono (xs ++ [value]) (window_from (len xs + 1)) q'.
Proof.
  intros Hc Hm. pose proof (len_nonneg xs) as Hxs.
  assert (window_from (len xs) ≤ window_from (len xs + 1) ≤ len xs
          ∧ len xs + 1 - N ≤ window_from (len xs + 1)) as [[Hw1 Hw2] Hw3]
    by (unfold window_from, sat_sub; lia).
  pose proof (mono_append xs _ q value Hm ltac:(lia)) as Hm1.
  apply (mono_expire _ _ (window_from (len xs + 1))) in Hm1; [|done].
  rewrite drop_while_snoc in Hm1 by (simpl; apply Z.ltb_ge; lia).
  unfold slide. destruct (pop_back_while (λ x, dominates value x.2) d q Hc) as (d1 & -> & Hc1).
  cbn [mbind res_bind].
  destruct (pop_front_while (λ x, x.1 <? window_from (len xs + 1)) d1 _ Hc1) as (d2 & -> & Hc2).
  cbn [mbind res_bind]. set (q2 := drop_while _ _) in *.
  assert (len (q2 ++ [(len xs, value)]) ≤ len xs + 1 - window_from (len xs + 1)) as Hl.
  { apply sorted_len; [lia|apply Hm1|]. intros [i v] Hx.
    destruct (mo_entry _ _ _ Hm1 i v Hx) as (H1 & H2 & H3%lookup_lt_Some).
    rewrite length_app in H3. cbn [fst length] in *. unfold len in *. lia. }
  rewrite len_app in Hl. change (len [(len xs, value)]) with 1 in Hl.
  destruct (push_back_spec d2 (len xs, value) q2 Hc2) as (d3 & -> & Hc3); [lia|]. eauto.
Qed.

(** The front is the dominating sample of the window. *)
Lemma front_value_spec d xs q : content d q → mono xs (window_from (len xs)) q →
  match window xs with
  | [] => front_value d = Ok None
  | _ => ∃ v, front_value d = Ok (Some v) ∧ v ∈ window xs
              ∧ ∀ w, w ∈ window xs → dominates v w = true
  end.
Proof.
  intros Hc [Hs He Hco]. unfold front_value. rewrite (content_empty _ _ Hc).
  assert (∀ v, v ∈ window xs ↔ ∃ j, window_from (len xs) ≤ Z.of_nat j ∧ xs !! j = Some v) as Hwin.
  { intros v. unfold window. rewrite list_elem_of_lookup. setoid_rewrite lookup_drop.
    unfold window_from, sat_sub, len. split.
    - intros [k Hk]. eexists. split; [|exact Hk]. lia.
    - intros (j & Hj & Hv). exists (j - (length xs - Z.to_nat N))%nat. rewrite <-Hv. f_equal. lia. }
  destruct (window xs) as [|w0 l] eqn:Hw.
  - assert (q = []) as ->; [|done]. destruct q as [|[i v] q]; [done|]. exfalso.
    destruct (He i v ltac:(by left)) as (H1 & H2 & H3).
    assert (v ∈ @nil Z) as Hin; [|by apply elem_of_nil in Hin].
    apply Hwin. exists (Z.to_nat i). split; [lia|done].
  - assert (w0 ∈ w0 :: l) as H0 by (by left).
    destruct q as [|[i v] q].
    { apply Hwin in H0 as (j & Hj & Hv). destruct (Hco j w0 Hj Hv) as (? & ? & Hin & _).
      by apply elem_of_nil in Hin. }
    rewrite bool_decide_eq_false_2, (front_spec _ _ _ Hc) by done. cbn.
    exists v. split; [done|]. split.
    + destruct (He i v ltac:(by left)) as (H1 & H2 & H3). apply Hwin.
      exists (Z.to_nat i). split; [lia|done].
    + intros w (j & Hj & Hv)%Hwin. destruct (Hco j w Hj Hv) as (i' & w' & Hin & _ & Hd).
      apply elem_of_cons in Hin as [[= -> ->]|Hin]; [done|].
      apply StronglySorted_cons in Hs as [Hall _]. rewrite Forall_forall in Hall.
      destruct (Hall _ Hin) as [_ Hnd]. simpl in Hnd. by eapply Htrans, Hd; apply Htotal.
Qed.

Lemma mono_nil : mono [] (window_from 0) [].
Proof.
  split; [constructor| |done]. intros i v Hin. by apply elem_of_nil in Hin.
Qed.
End mono.

(** ** The tracker *)

Definition dom_min (value b : Z) : bool := value <=? b.
Definition dom_max (value b : Z) : bool := b <=? value.

Lemma dom_min_order : (∀ a, dom_min a a = true)
  ∧ (∀ a b c, dom_min a b = true → dom_min b c = true → dom_min a c = true)
  ∧ (∀ a b, dom_min a b = false → dom_min b a = true).
Proof. unfold dom_min. split_and!; intros *; rewrite ?Z.leb_le, ?Z.leb_gt; lia. Qed.
Lemma dom_max_order : (∀ a, dom_max a a = true)
  ∧ (∀ a b c, dom_max a b = true → dom_max b c = true → dom_max a c = true)
  ∧ (∀ a b, dom_max a b = false → dom_max b a = true).
Proof. unfold dom_max. split_and!; intros *; rewrite ?Z.leb_le, ?Z.leb_gt; lia. Qed.

Definition tracks (m : MinMaxDeque) (xs : list Z) : Prop :=
  next m = len xs
  ∧ (∃ q, content (min_d m) q ∧ mono dom_min xs (window_from (len xs)) q)
  ∧ (∃ q, content (max_d m) q ∧ mono dom_max xs (window_from (len xs)) q).

Lemma tracks_new : tracks minmax_new [].
Proof.
  split; [done|]. split; exists []; (split; [apply content_new|]).
  - apply (mono_nil dom_min).
  - apply (mono_nil dom_max).
Qed.

Lemma record_spec m xs value : tracks m xs → len xs + 1 < 2 ^ 64 →
  ∃ m', record m value = Ok m' ∧ tracks m' (xs ++ [value]).
Proof.
  intros (Hn & (q1 & Hc1 & Hm1) & (q2 & Hc2 & Hm2)) Hlt.
  destruct dom_min_order as (Hr1 & Ht1 & Ho1). destruct dom_max_order as (Hr2 & Ht2 & Ho2).
  destruct (slide_spec dom_min Hr1 Ht1 Ho1 _ _ _ value Hc1 Hm1) as (d1 & q1' & Hs1 & Hc1' & Hm1').
  destruct (slide_spec dom_max Hr2 Ht2 Ho2 _ _ _ value Hc2 Hm2) as (d2 & q2' & Hs2 & Hc2' & Hm2').
  unfold record. rewrite Hn, (proj2 (Z.leb_gt _ _)) by done.
  unfold window_from, dom_min, dom_max in Hs1, Hs2. rewrite Hs1. cbn [mbind res_bind].
  rewrite Hs2. cbn [mbind res_bind]. eexists. split; [done|]. unfold tracks. cbn [next min_d max_d].
  rewrite len_app. change (len [value]) with 1. split_and!; [done|by exists q1'|by exists q2'].
Qed.

Lemma record_all_spec m xs ys : tracks m ys → len ys + len xs < 2 ^ 64 →
  ∃ m', record_all m xs = Ok m' ∧ tracks m' (ys ++ xs).
Proof.
  revert m ys. induction xs as [|x xs IH]; intros m ys Ht Hl.
  - exists m. rewrite app_nil_r. done.
  - pose proof (len_nonneg xs). change (x :: xs) with ([x] ++ xs) in *. rewrite len_app in Hl.
    change (len [x]) with 1 in Hl. destruct (record_spec m ys x Ht) as (m1 & H1 & Ht1); [lia|].
    destruct (IH m1 _ Ht1) as (m' & H2 & Ht2);
      [rewrite len_app; change (len [x]) with 1; lia|].
    exists m'. rewrite <-app_assoc in Ht2. split; [|done]. cbn. by rewrite H1.
Qed.

(** The reference: minimum and maximum of a list. *)
Definition list_min (l : list Z) : option Z :=
  match l with [] => None | x :: l => Some (foldr Z.min x l) end.
Definition list_max (l : list Z) : option Z :=
  match l with [] => None | x :: l => Some (foldr Z.max x l) end.

Lemma fold_min_spec x l : foldr Z.min x l ∈ x :: l ∧ ∀ w, w ∈ x :: l → foldr Z.min x l ≤ w.
Proof.
  induction l as [|y l [Hin Hle]]; simpl.
  - split; [by left|]. intros w ->%list_elem_of_singleton. lia.
  - split.
    + destruct (Z.min_spec y (foldr Z.min x l)) as [[_ ->]|[_ ->]]; set_solver.
    + intros w Hw. assert (w = y ∨ w ∈ x :: l) as [->|Hw'] by set_solver; [lia|].
      specialize (Hle w Hw'). lia.
Qed.
Lemma fold_max_spec x l : foldr Z.max x l ∈ x :: l ∧ ∀ w, w ∈ x :: l → w ≤ foldr Z.max x l.
Proof.
  induction l as [|y l [Hin Hle]]; simpl.
  - split; [by left|]. intros w ->%list_elem_of_singleton. lia.
  - split.
    + destruct (Z.max_spec y (foldr Z.max x l)) as [[_ ->]|[_ ->]]; set_solver.
    + intros w Hw. assert (w = y ∨ w ∈ x :: l) as [->|Hw'] by set_solver; [lia|].
      specialize (Hle w Hw'). lia.
Qed.

Lemma min_spec m xs : tracks m xs → min m = Ok (list_min (window xs)).
Proof.
  intros (_ & (q & Hc & Hm) & _). destruct dom_min_order as (Hr & Ht & Ho).
  pose proof (front_value_spec dom_min Ht Ho _ _ _ Hc Hm) as H. unfold min.
  destruct (window xs) as [|x l]; [done|]. destruct H as (v & -> & Hin & Hall).
  destruct (fold_min_spec x l) as [Hin' Hle]. simpl. do 2 f_equal.
  specialize (Hle v Hin). specialize (Hall _ Hin'). unfold dom_min in Hall.
  apply Z.leb_le in Hall. lia.
Qed.
Lemma max_spec m xs : tracks m xs → max m = Ok (list_max (window xs)).
Proof.
  intros (_ & _ & (q & Hc & Hm)). destruct dom_max_order as (Hr & Ht & Ho).
  pose proof (front_value_spec dom_max Ht Ho _ _ _ Hc Hm) as H. unfold max.
  destruct (window xs) as [|x l]; [done|]. destruct H as (v & -> & Hin & Hall).
  destruct (fold_max_spec x l) as [Hin' Hle]. simpl. do 2 f_equal.
  specialize (Hle v Hin). specialize (Hall _ Hin'). unfold dom_max in Hall.
  apply Z.leb_le in Hall. lia.
Qed.
End deque.

(** The windowed extremes are exact: for every window size and every sequence
    of samples (fewer than 2^64), recording them all returns, without a panic
    and with every loop ending, and [min] and [max] are then the minimum and the
    maximum of the last [N] samples, [None] when there are none. *)
Theorem minmax_exact N xs :
  0 < N → len xs < 2 ^ 64 →
  ∃ m, record_all N (minmax_new N) xs = Ok m
    ∧ min m = Ok (list_min (window N xs)) ∧ max m = Ok (list_max (window N xs)).
Proof.
  intros HN Hl.
  destruct (record_all_spec N HN _ xs [] (tracks_new N HN)) as (m & Hm & Ht); [exact Hl|].
  exists m. split_and!; [done|by apply min_spec|by apply max_spec].
Qed.

Lemma minmax_exact_witness :
  ∃ m, record_all 3 (minmax_new 3) [100; 2; 50; 40; 60] = Ok m
    ∧ min m = Ok (Some 40) ∧ max m = Ok (Some 60).
Proof.
  apply (minmax_exact 3 [100; 2; 50; 40; 60]).
  - lia.
  - vm_compute. reflexivity.
Defined.
End StatsMinMax.
