(* ===== verification/StatsHist.v ===== *)
(** * The sliding-window percentile histogram

    Models [taktora-stats/src/histogram.rs]: the sub-octave bucket layout
    ([bucket_index], [bucket_lower], [bucket_midpoint]) and the ring of
    segments [RollingHistogram], with the accuracy of the percentile estimate
    against the exact percentile of the live window. *)

From stdpp Require Import base list sorting.
From Stdlib Require Import ZArith Lia.
From S2P Require Import Prelude.

Module StatsHist.

(** ** Bucket layout *)

Definition M : Z := 64.
Definition BUCKETS : Z := 36 * M.

Definition bucket_index (value_ns : Z) : Z :=
  let value := Z.max value_ns 1 in
  let octave := Z.log2 value in
  let sub := Z.shiftr ((value - Z.shiftl 1 octave) * M) octave in
  Z.min (octave * M + sub) (BUCKETS - 1).

Definition bucket_lower (i : Z) : Z :=
  let octave := i / M in
  let sub := i mod M in
  let base := Z.shiftl 1 octave in
  wrap 64 (base + base * sub / M).

Definition bucket_midpoint (i : Z) : Z :=
  let lo := bucket_lower i in
  let hi := bucket_lower (i + 1) in
  let prod := lo * hi in
  let root := Z.sqrt prod in
  let rounded := if root <? prod - root * root then root + 1 else root in
  wrap 64 rounded.

(** ** [RollingHistogram] *)

Record RollingHistogram := MkHist {
  seg : list (list Z);
  cur : Z;
  n_in_cur : Z;
  seg_capacity : Z;
}.

Section hist.
(** Buckets per segment and segments, compile-time constants. *)
Context (B S : Z).

Definition zero_row : list Z := replicate (Z.to_nat B) 0.
Definition hist_new (window : Z) : RollingHistogram :=
  MkHist (replicate (Z.to_nat S) zero_row) 0 0 (Z.max (window / wrap 32 S) 1).

(** [x + 1] of a [u32] under overflow checks. *)
Definition incr_u32 (x : Z) : res Z := if x + 1 <? 2 ^ 32 then Ok (x + 1) else Panic.

Definition advance (h : RollingHistogram) : res RollingHistogram :=
  if seg_capacity h <=? n_in_cur h then
    let c := (cur h + 1) mod S in
    _ ← idx (seg h) c;
    Ok (MkHist (<[Z.to_nat c := zero_row]> (seg h)) c 0 (seg_capacity h))
  else Ok h.

Definition hist_record (h : RollingHistogram) (value_ns : Z) : res RollingHistogram :=
  h ← advance h;
  row ← idx (seg h) (cur h);
  let b := bucket_index value_ns in
  x ← idx row b;
  x ← incr_u32 x;
  n ← incr_u32 (n_in_cur h);
  Ok (MkHist (<[Z.to_nat (cur h) := <[Z.to_nat b := x]> row]> (seg h)) (cur h) n (seg_capacity h)).

Definition cell (h : RollingHistogram) (s b : Z) : res Z :=
  row ← idx (seg h) s; idx row b.

(** [for s in 0..S { acc += seg[s][b] }], [k] iterations left. *)
Fixpoint sum_col (h : RollingHistogram) (b : Z) (k : nat) (s acc : Z) : res Z :=
  match k with
  | O => Ok acc
  | Datatypes.S k => x ← cell h s b; sum_col h b k (s + 1) (acc + x)
  end.
(** [for b in 0..B { acc += seg[s][b] }]. *)
Fixpoint sum_row (h : RollingHistogram) (s : Z) (k : nat) (b acc : Z) : res Z :=
  match k with
  | O => Ok acc
  | Datatypes.S k => x ← cell h s b; sum_row h s k (b + 1) (acc + x)
  end.
Fixpoint sum_all (h : RollingHistogram) (k : nat) (s acc : Z) : res Z :=
  match k with
  | O => Ok acc
  | Datatypes.S k => acc ← sum_row h s (Z.to_nat B) 0 acc; sum_all h k (s + 1) acc
  end.
Definition count (h : RollingHistogram) : res Z := sum_all h (Z.to_nat S) 0 0.

Fixpoint rank_loop (h : RollingHistogram) (target : Z) (k : nat) (b cum : Z) : res Z :=
  match k with
  | O => Ok (bucket_midpoint (B - 1))
  | Datatypes.S k =>
      cum ← sum_col h b (Z.to_nat S) 0 cum;
      if target <=? cum then Ok (bucket_midpoint b) else rank_loop h target k (b + 1) cum
  end.

Definition percentile (h : RollingHistogram) (permille : Z) : res Z :=
  total ← count h;
  if total =? 0 then Ok 0
  else if 2 ^ 64 <=? total * permille then Panic
  else rank_loop h (div_ceil (total * permille) 1000) (Z.to_nat B) 0 0.

Fixpoint hist_record_all (h : RollingHistogram) (xs : list Z) : res RollingHistogram :=
  match xs with
  | [] => Ok h
  | x :: xs => h ← hist_record h x; hist_record_all h xs
  end.
End hist.

(** ** Bucket lemmas *)

Lemma octave_bounds v : 1 ≤ v → 2 ^ Z.log2 v ≤ v < 2 * 2 ^ Z.log2 v.
Proof.
  intros Hv. pose proof (Z.log2_spec v ltac:(lia)) as H. rewrite Z.pow_succ_r in H; [lia|].
  apply Z.log2_nonneg.
Qed.

Lemma bucket_index_eq v : 1 ≤ v →
  bucket_index v
  = Z.min (Z.log2 v * 64 + (v - 2 ^ Z.log2 v) * 64 / 2 ^ Z.log2 v) (36 * 64 - 1).
Proof.
  intros Hv. unfold bucket_index, M, BUCKETS. rewrite Z.max_l by lia.
  pose proof (Z.log2_nonneg v). by rewrite Z.shiftl_1_l, Z.shiftr_div_pow2 by done.
Qed.

Lemma sub_bounds v : 1 ≤ v → 0 ≤ (v - 2 ^ Z.log2 v) * 64 / 2 ^ Z.log2 v < 64.
Proof.
  intros Hv. pose proof (octave_bounds v Hv). split.
  - apply Z.div_pos; lia.
  - apply Z.div_lt_upper_bound; lia.
Qed.

Lemma bucket_index_range v : 0 ≤ bucket_index v < BUCKETS.
Proof.
  assert (∀ v, 1 ≤ v → 0 ≤ bucket_index v < BUCKETS) as H.
  { clear v. intros v Hv. rewrite bucket_index_eq by done. pose proof (sub_bounds v Hv).
    pose proof (Z.log2_nonneg v). unfold BUCKETS, M. lia. }
  destruct (decide (1 ≤ v)); [auto|].
  replace (bucket_index v) with (bucket_index 1); [by apply H|].
  unfold bucket_index. by replace (Z.max v 1) with (Z.max 1 1) by lia.
Qed.

Lemma bucket_index_mono v w : v ≤ w → bucket_index v ≤ bucket_index w.
Proof.
  assert (∀ v w, 1 ≤ v ≤ w → bucket_index v ≤ bucket_index w) as H.
  { clear v w. intros v w Hv. rewrite !bucket_index_eq by lia.
    apply Z.min_le_compat_r. pose proof (Z.log2_le_mono v w ltac:(lia)) as Hl.
    pose proof (sub_bounds v ltac:(lia)). pose proof (sub_bounds w ltac:(lia)).
    destruct (decide (Z.log2 v = Z.log2 w)) as [->|Hne]; [|lia].
    pose proof (octave_bounds w ltac:(lia)).
    apply Z.add_le_mono_l, Z.div_le_mono; lia. }
  intros Hvw.
  assert (∀ x, bucket_index x = bucket_index (Z.max x 1)) as Hm.
  { intros x. unfold bucket_index. by replace (Z.max (Z.max x 1) 1) with (Z.max x 1) by lia. }
  rewrite (Hm v), (Hm w). apply H. lia.
Qed.

Lemma bucket_lower_eq k sub : 6 ≤ k ≤ 36 → 0 ≤ sub < 64 →
  bucket_lower (k * 64 + sub) = 2 ^ (k - 6) * (64 + sub).
Proof.
  intros Hk Hs. unfold bucket_lower, M.
  rewrite Z.div_add_l, Z.div_small, Z.add_0_r by lia.
  rewrite (Z.add_comm (k * 64)), Z.mod_add, Z.mod_small by lia.
  rewrite Z.shiftl_1_l. set (w := 2 ^ (k - 6)).
  assert (2 ^ k = w * 64) as ->.
  { unfold w. change 64 with (2 ^ 6). rewrite <-Z.pow_add_r by lia. f_equal. lia. }
  replace (w * 64 * sub) with (w * sub * 64) by lia. rewrite Z.div_mul by lia.
  assert (0 < w ≤ 2 ^ 30) by (unfold w; split; [lia|apply Z.pow_le_mono_r; lia]).
  rewrite wrap_small by nia. lia.
Qed.

(** The edges of the bucket of a value in the supported range. *)
Lemma bucket_edges v : 64 ≤ v < 2 ^ 36 →
  ∃ w a, (1 ≤ w ≤ 2 ^ 29 ∧ w ≠ 3) ∧ 64 ≤ a < 128 ∧ bucket_lower (bucket_index v) = w * a
    ∧ bucket_lower (bucket_index v + 1) = w * (a + 1) ∧ w * a ≤ v < w * (a + 1).
Proof.
  intros Hv. rewrite bucket_index_eq by lia. set (k := Z.log2 v).
  assert (6 ≤ k ≤ 35) as Hk.
  { unfold k. split; [by apply Z.log2_le_pow2; lia|].
    assert (Z.log2 v < 36); [apply Z.log2_lt_pow2; lia|lia]. }
  pose proof (octave_bounds v ltac:(lia)) as Ho. fold k in Ho. set (w := 2 ^ (k - 6)).
  assert (2 ^ k = 64 * w) as Hw.
  { unfold w. change 64 with (2 ^ 6). rewrite <-Z.pow_add_r by lia. f_equal. lia. }
  assert (1 ≤ w ≤ 2 ^ 29) as Hwb.
  { unfold w. split; [|apply Z.pow_le_mono_r; lia].
    assert (0 < 2 ^ (k - 6)) by (apply Z.pow_pos_nonneg; lia). lia. }
  assert (w ≠ 3) as Hw3.
  { unfold w. destruct (decide (k = 6)) as [->|]; [done|].
    replace (k - 6) with (Z.succ (k - 7)) by lia. rewrite Z.pow_succ_r by lia. lia. }
  rewrite Hw in *. set (sub := (v - 64 * w) * 64 / (64 * w)).
  assert (sub = (v - 64 * w) / w) as Hsub.
  { unfold sub. rewrite (Z.mul_comm 64 w), Z.div_mul_cancel_r by lia. done. }
  assert (0 ≤ sub < 64 ∧ w * sub ≤ v - 64 * w < w * (sub + 1)) as [Hs1 Hs2].
  { rewrite Hsub. pose proof (Z.mul_div_le (v - 64 * w) w ltac:(lia)).
    pose proof (Z.mul_succ_div_gt (v - 64 * w) w ltac:(lia)).
    split; [split; [apply Z.div_pos; lia|apply Z.div_lt_upper_bound; lia]|lia]. }
  rewrite Z.min_l by lia. exists w, (64 + sub). split_and!; try lia.
  - apply bucket_lower_eq; lia.
  - destruct (decide (sub = 63)) as [->|Hne].
    + replace (k * 64 + 63 + 1) with ((k + 1) * 64 + 0) by lia.
      rewrite bucket_lower_eq by lia. unfold w.
      replace (k + 1 - 6) with (Z.succ (k - 6)) by lia. rewrite Z.pow_succ_r by lia. lia.
    + replace (k * 64 + sub + 1) with (k * 64 + (sub + 1)) by lia.
      rewrite bucket_lower_eq by lia. unfold w. lia.
Qed.

(** Rounding the square root to nearest. *)
Definition round_sqrt (p : Z) : Z :=
  let root := Z.sqrt p in if root <? p - root * root then root + 1 else root.

Lemma round_sqrt_spec p : 0 < p →
  0 ≤ round_sqrt p ∧ round_sqrt p * round_sqrt p - round_sqrt p < p
  ∧ p ≤ round_sqrt p * round_sqrt p + round_sqrt p.
Proof.
  intros Hp. unfold round_sqrt. pose proof (Z.sqrt_spec p ltac:(lia)) as Hs. simpl in Hs.
  pose proof (Z.sqrt_nonneg p). destruct (Z.ltb_spec (Z.sqrt p) (p - Z.sqrt p * Z.sqrt p)); nia.
Qed.

(** The centroid of a bucket is within one percent of all its values. *)
Lemma centroid_close w a v : 1 ≤ w → w ≠ 3 → 64 ≤ a < 128 → w * a ≤ v < w * (a + 1) →
  let r := round_sqrt (w * a * (w * (a + 1))) in
  100 * Z.abs (r - v) ≤ v.
Proof.
  intros Hw Hw3 Ha Hv r. destruct (round_sqrt_spec (w * a * (w * (a + 1))) ltac:(nia)) as (H0 & H1 & H2).
  fold r in H0, H1, H2. set (lo := w * a) in *.
  assert (w * (a + 1) = lo + w) as He by (unfold lo; lia). rewrite He in *.
  assert (64 * w ≤ lo) as Hlo by (unfold lo; nia).
  assert (2 * r ≤ 2 * lo + w + 1) as Hup by nia.
  destruct (Z.abs_spec (r - v)) as [[_ ->]|[_ ->]].
  - destruct (decide (w = 1)) as [->|]; [|destruct (decide (w ≤ 3)); [|lia]].
    + assert (r ≤ lo) by nia. lia.
    + assert (w = 2) as -> by lia. lia.
  - assert (100 * (lo + w) ≤ 100 * r + lo + w + 99); [|lia].
    destruct (decide (100 * (lo + w) ≤ 100 * r + lo + w + 99)); [done|]. exfalso.
    assert (100 * r + 100 ≤ 99 * (lo + w)) by lia.
    assert ((r + 1) * (r + 1) > lo * (lo + w)) by lia.
    assert (100 * 100 * (r + 1) * (r + 1) ≤ 99 * 99 * (lo + w) * (lo + w)) by nia.
    nia.
Qed.

(** ** Counting *)

(** How many samples of [xs] fall into bucket [b], and below bucket [b]. *)
Definition cnt (b : Z) (xs : list Z) : Z := len (filter (λ x, bucket_index x = b) xs).
Definition below (b : Z) (xs : list Z) : Z := len (filter (λ x, bucket_index x < b) xs).
Definition row_of (xs : list Z) : list Z :=
  (λ b, cnt (Z.of_nat b) xs) <$> seq 0 (Z.to_nat BUCKETS).

Lemma cnt_app b xs ys : cnt b (xs ++ ys) = cnt b xs + cnt b ys.
Proof. unfold cnt. by rewrite filter_app, len_app. Qed.
Lemma cnt_one b x : cnt b [x] = if decide (bucket_index x = b) then 1 else 0.
Proof. unfold cnt. rewrite filter_cons. by case_decide. Qed.
Lemma below_succ b xs : below (b + 1) xs = below b xs + cnt b xs.
Proof.
  unfold below, cnt, len. induction xs as [|x xs IH]; [done|].
  rewrite !filter_cons. repeat case_decide; simpl length; lia.
Qed.
Lemma below_zero xs : below 0 xs = 0.
Proof.
  unfold below, len. induction xs as [|x xs IH]; [done|]. rewrite filter_cons.
  pose proof (bucket_index_range x). rewrite decide_False by lia. done.
Qed.
Lemma below_all xs : below BUCKETS xs = len xs.
Proof.
  unfold below, len. induction xs as [|x xs IH]; [done|]. rewrite filter_cons.
  pose proof (bucket_index_range x). rewrite decide_True by lia. simpl length. lia.
Qed.

Lemma length_row_of xs : length (row_of xs) = Z.to_nat BUCKETS.
Proof. unfold row_of. by rewrite length_fmap, length_seq. Qed.
Lemma lookup_row_of xs b : 0 ≤ b < BUCKETS → row_of xs !! Z.to_nat b = Some (cnt b xs).
Proof.
  intros Hb. unfold row_of. rewrite list_lookup_fmap, lookup_seq_lt by lia. simpl.
  by rewrite Z2Nat.id by lia.
Qed.
Lemma row_of_nil : row_of [] = zero_row BUCKETS.
Proof.
  unfold row_of, zero_row. apply list_eq_same_length with (Z.to_nat BUCKETS).
  - by rewrite length_replicate.
  - by rewrite length_fmap, length_seq.
  - intros i x y Hi Hx Hy. apply list_lookup_fmap_Some in Hx as (b & -> & Hb).
    by apply lookup_replicate_1 in Hy as [-> _].
Qed.
Lemma row_of_snoc xs x :
  row_of (xs ++ [x])
  = <[Z.to_nat (bucket_index x) := cnt (bucket_index x) xs + 1]> (row_of xs).
Proof.
  pose proof (bucket_index_range x) as Hx.
  apply list_eq_same_length with (Z.to_nat BUCKETS).
  - by rewrite length_insert, length_row_of.
  - by rewrite length_row_of.
  - intros i y z Hi. replace i with (Z.to_nat (Z.of_nat i)) at 1 by lia.
    rewrite lookup_row_of by lia. rewrite cnt_app, cnt_one. intros [= <-].
    destruct (decide (bucket_index x = Z.of_nat i)) as [He|Hne].
    + rewrite He, Nat2Z.id, list_lookup_insert_eq by (rewrite length_row_of; lia).
      congruence.
    + rewrite list_lookup_insert_ne by lia. replace i with (Z.to_nat (Z.of_nat i)) at 1 by lia.
      rewrite lookup_row_of, Z.add_0_r by lia. congruence.
Qed.
Lemma cnt_le b xs : 0 ≤ cnt b xs ≤ len xs.
Proof. unfold cnt, len. pose proof (length_filter (λ x, bucket_index x = b) xs). lia. Qed.

(** ** The ring of segments *)
Section window.
Context (S : Z) (HS : 0 < S).
Abbreviation record := (hist_record BUCKETS S).

(** The segments hold the samples [r], oldest segment first; [r] ends with the
    current segment, full segments precede it, and empty ones come first while
    the window fills.  Together they are the most recent samples. *)
Record hinv (h : RollingHistogram) (xs : list Z) (r : list (list Z)) : Prop := {
  hi_len : len r = S;
  hi_seg : ∃ A c D, seg h = A ++ c :: D ∧ cur h = len A ∧ D ++ A ++ [c] = row_of <$> r;
  hi_shape : ∃ e fulls c pre, r = replicate e [] ++ fulls ++ [c]
    ∧ Forall (λ f, len f = seg_capacity h) fulls ∧ n_in_cur h = len c
    ∧ len c ≤ seg_capacity h ∧ xs = pre ++ concat r ∧ (e = 0%nat ∨ pre = []);
  hi_cap : 1 ≤ seg_capacity h < 2 ^ 32;
}.

Lemma hinv_new w : 0 ≤ w < 2 ^ 32 → S < 2 ^ 32 →
  hinv (hist_new BUCKETS S w) [] (replicate (Z.to_nat S) []).
Proof.
  intros Hw HS32. assert (∃ n, Z.to_nat S = Datatypes.S n) as [n Hn]
    by (exists (Z.to_nat S - 1)%nat; lia).
  split; cbn [seg cur n_in_cur seg_capacity hist_new].
  - unfold len. rewrite length_replicate. lia.
  - exists [], (zero_row BUCKETS), (replicate n (zero_row BUCKETS)).
    split_and!; [by rewrite Hn|done|]. rewrite fmap_replicate, row_of_nil, Hn.
    by rewrite replicate_S_end.
  - exists n, [], [], []. split_and!; try done.
    + rewrite Hn, replicate_S_end. done.
    + unfold len. simpl. lia.
    + clear. induction (Z.to_nat S) as [|k IH]; [done|]. simpl. done.
    + by right.
  - rewrite wrap_small by lia. assert (0 ≤ w / S ≤ w); [|lia]. split; [apply Z.div_pos; lia|].
    apply Z.div_le_upper_bound; nia.
Qed.

(** Advancing over the sample lists: the oldest is dropped. *)
Lemma shape_advance cap e (fulls : list (list Z)) cs pre xs x t :
  replicate e [] ++ fulls ++ [cs] = x :: t → Forall (λ f, len f = cap) (fulls ++ [cs]) →
  xs = pre ++ concat (x :: t) → (e = 0%nat ∨ pre = []) →
  ∃ e' fulls' pre', t ++ [[]] = replicate e' [] ++ fulls' ++ [[]]
    ∧ Forall (λ f, len f = cap) fulls' ∧ xs = pre' ++ concat (t ++ [[]])
    ∧ (e' = 0%nat ∨ pre' = []).
Proof.
  intros Hr Hf Hxs Hpre. rewrite concat_app. simpl. rewrite app_nil_r. destruct e as [|e].
  - exists 0%nat, t, (pre ++ x). simpl in *. rewrite Hr in Hf.
    apply Forall_cons in Hf as [_ Hf]. split_and!; [done|done| |by left].
    by rewrite Hxs, <-app_assoc.
  - exists e, (fulls ++ [cs]), pre. simpl in Hr. injection Hr as <- <-.
    split_and!; [by rewrite <-!app_assoc|done|done|destruct Hpre; [done|by right]].
Qed.

(** Advancing over the rows: the ring turns by one. *)
Lemma rotate_rows (A D : list (list Z)) c z : len A + 1 + len D = S →
  ∃ y A' D', idx (A ++ c :: D) ((len A + 1) mod S) = Ok y
    ∧ <[Z.to_nat ((len A + 1) mod S) := z]> (A ++ c :: D) = A' ++ z :: D'
    ∧ (len A + 1) mod S = len A' ∧ D' ++ A' ++ [z] = drop 1 (D ++ A ++ [c]) ++ [z].
Proof.
  intros HlS. pose proof (len_nonneg A). destruct D as [|y D].
  - assert ((len A + 1) mod S = 0) as ->.
    { change (len (@nil (list Z))) with 0 in HlS. rewrite <-HlS, Z.add_0_r.
      apply Z.mod_same. lia. }
    destruct (A ++ [c]) as [|s0 sg] eqn:Hsg; [by destruct A|].
    exists s0, [], sg. split_and!; [done|done|done|]. simpl. by rewrite drop_0.
  - pose proof (len_nonneg D).
    assert (len (y :: D) = len D + 1) as HlD by (unfold len; simpl; lia).
    rewrite Z.mod_small by lia.
    replace (Z.to_nat (len A + 1)) with (length A + 1)%nat by (unfold len; lia).
    exists y, (A ++ [c]), D. split_and!.
    + apply idx_Ok. split; [lia|].
      replace (Z.to_nat (len A + 1)) with (length A + 1)%nat by (unfold len; lia).
      rewrite lookup_app_r by lia. by replace (length A + 1 - length A)%nat with 1%nat by lia.
    + rewrite insert_app_r. simpl. by rewrite <-app_assoc.
    + by rewrite len_app.
    + simpl. by rewrite drop_0, <-!app_assoc.
Qed.

Lemma hinv_advance h xs r : hinv h xs r →
  ∃ h' r', advance BUCKETS S h = Ok h' ∧ hinv h' xs r' ∧ n_in_cur h' < seg_capacity h'.
Proof.
  intros [Hl (A & c & D & Hseg & Hcur & Hrot) (e & fulls & cs & pre & Hr & Hfull & Hn & Hle & Hxs & Hpre) Hcap].
  unfold advance. destruct (Z.leb_spec (seg_capacity h) (n_in_cur h)) as [Hge|Hlt].
  2: { exists h, r. split; [done|]. split; [|lia]. split; eauto 10. }
  assert (len A + 1 + len D = S) as HlS.
  { rewrite <-Hl. unfold len. rewrite <-(length_fmap row_of r), <-Hrot, !length_app. simpl. lia. }
  destruct (rotate_rows A D c (zero_row BUCKETS) HlS) as (y & A' & D' & Hy & Hins & HA' & Hrot').
  rewrite Hcur, Hseg, Hy. cbn [mbind res_bind].
  destruct r as [|x t]; [unfold len in Hl; simpl in Hl; lia|].
  destruct (shape_advance (seg_capacity h) e fulls cs pre xs x t)
    as (e' & fulls' & pre' & Hr' & Hf' & Hxs' & Hpre'); [done| |done|done|].
  { apply Forall_app. split; [done|]. repeat constructor. lia. }
  eexists _, (t ++ [[]]). split; [done|]. cbn [n_in_cur seg_capacity]. split; [|lia].
  split; cbn [seg cur n_in_cur seg_capacity].
  - rewrite len_app. unfold len in *. simpl in *. lia.
  - exists A', (zero_row BUCKETS), D'. split_and!; [done|done|].
    rewrite Hrot', Hrot, fmap_app. simpl. by rewrite drop_0, row_of_nil.
  - exists e', fulls', [], pre'. unfold len at 2 3. simpl. split_and!; try done. lia.
  - done.
Qed.

Lemma hinv_store h xs r v : hinv h xs r → n_in_cur h < seg_capacity h →
  ∃ h' r', (row ← idx (seg h) (cur h);
            x ← idx row (bucket_index v);
            x ← incr_u32 x;
            n ← incr_u32 (n_in_cur h);
            Ok (MkHist (<[Z.to_nat (cur h) := <[Z.to_nat (bucket_index v) := x]> row]> (seg h))
                  (cur h) n (seg_capacity h))) = Ok h'
    ∧ hinv h' (xs ++ [v]) r' ∧ concat r' ≠ [].
Proof.
  intros [Hl (A & c & D & Hseg & Hcur & Hrot) (e & fulls & cs & pre & Hr & Hfull & Hn & Hle & Hxs & Hpre) Hcap] Hlt.
  assert (c = row_of cs ∧ D ++ A = row_of <$> (replicate e [] ++ fulls)) as [-> Hrest].
  { rewrite Hr, !app_assoc, (fmap_app _ _ [cs]) in Hrot.
    by apply app_inj_tail in Hrot as [? ?]. }
  assert (idx (seg h) (cur h) = Ok (row_of cs)) as ->.
  { apply idx_Ok. rewrite Hseg, Hcur. unfold len. split; [lia|].
    by rewrite Nat2Z.id, lookup_app_r, Nat.sub_diag by lia. }
  cbn [mbind res_bind].
  assert (idx (row_of cs) (bucket_index v) = Ok (cnt (bucket_index v) cs)) as ->.
  { pose proof (bucket_index_range v). apply idx_Ok. split; [lia|]. by apply lookup_row_of. }
  cbn [mbind res_bind]. pose proof (cnt_le (bucket_index v) cs). unfold incr_u32.
  rewrite !(proj2 (Z.ltb_lt _ _)) by lia. cbn [mbind res_bind].
  rewrite <-row_of_snoc. eexists _, (replicate e [] ++ fulls ++ [cs ++ [v]]). split; [done|].
  split.
  2: { rewrite !concat_app. simpl. intros [_ [_ Hn0]%app_nil]%app_nil. by destruct cs. }
  split; cbn [seg cur n_in_cur seg_capacity].
  - rewrite <-Hl, Hr. unfold len. rewrite !length_app. done.
  - exists A, (row_of (cs ++ [v])), D. split_and!; [|done|].
    + rewrite Hseg, Hcur. unfold len. rewrite Nat2Z.id.
      by rewrite insert_app_r_alt, Nat.sub_diag by lia.
    + rewrite (app_assoc (replicate e [])), fmap_app, <-Hrest, <-app_assoc. done.
  - exists e, fulls, (cs ++ [v]), pre. split_and!; try done.
    + rewrite Hn, len_app. done.
    + rewrite len_app. change (len [v]) with 1. lia.
    + rewrite Hxs, Hr, !concat_app. simpl. rewrite !app_nil_r, !app_assoc. done.
  - done.
Qed.

Lemma hinv_record h xs r v : hinv h xs r →
  ∃ h' r', record h v = Ok h' ∧ hinv h' (xs ++ [v]) r' ∧ concat r' ≠ []
    ∧ seg_capacity h' = seg_capacity h.
Proof.
  intros Hh. destruct (hinv_advance h xs r Hh) as (h1 & r1 & H1 & Hh1 & Hlt).
  destruct (hinv_store h1 xs r1 v Hh1 Hlt) as (h2 & r2 & H2 & Hh2 & Hne).
  exists h2, r2. split_and!; [|done|done|].
  - unfold hist_record. rewrite H1. exact H2.
  - transitivity (seg_capacity h1).
    + res_inv H2. repeat case_match; naive_solver.
    + unfold advance in H1. destruct (_ <=? _); [|by injection H1 as <-].
      res_inv H1. by injection H1 as <-.
Qed.

Lemma hinv_record_all h xs ys r : hinv h ys r → (ys = [] ∨ concat r ≠ []) →
  ∃ h' r', hist_record_all BUCKETS S h xs = Ok h' ∧ hinv h' (ys ++ xs) r'
    ∧ (ys ++ xs = [] ∨ concat r' ≠ []) ∧ seg_capacity h' = seg_capacity h.
Proof.
  revert h ys r. induction xs as [|x xs IH]; intros h ys r Hh Hne.
  - exists h, r. by rewrite app_nil_r.
  - destruct (hinv_record h ys r x Hh) as (h1 & r1 & H1 & Hh1 & Hne1 & Hc1).
    destruct (IH h1 _ r1 Hh1) as (h2 & r2 & H2 & Hh2 & Hne2 & Hc2); [by right|]. exists h2, r2.
    rewrite <-app_assoc in Hh2, Hne2. cbn [hist_record_all]. rewrite H1.
    split_and!; [done|done|done|congruence].
Qed.

(** ** Reading the counts *)

Lemma seg_perm h xs r : hinv h xs r → seg h ≡ₚ row_of <$> r.
Proof.
  intros [_ (A & c & D & Hseg & _ & Hrot) _ _]. rewrite <-Hrot, Hseg.
  rewrite (Permutation_app_comm D), <-app_assoc. done.
Qed.

Definition col (b : Z) (rows : list (list Z)) : Z :=
  foldr (λ row acc, default 0 (row !! Z.to_nat b) + acc) 0 rows.

Lemma col_perm b rows rows' : rows ≡ₚ rows' → col b rows = col b rows'.
Proof. induction 1; simpl; lia. Qed.
Lemma col_rows b r : 0 ≤ b < BUCKETS → col b (row_of <$> r) = cnt b (concat r).
Proof.
  intros Hb. induction r as [|x r IH]; [done|].
  change (default 0 (row_of x !! Z.to_nat b) + col b (row_of <$> r) = cnt b (x ++ concat r)).
  rewrite lookup_row_of, cnt_app, IH by done. done.
Qed.

(** Rows of the right length. *)
Definition rows_ok (rows : list (list Z)) : Prop :=
  Forall (λ row, length row = Z.to_nat BUCKETS) rows.

Lemma hinv_rows h xs r : hinv h xs r → rows_ok (seg h) ∧ len (seg h) = S.
Proof.
  intros Hh. pose proof (seg_perm h xs r Hh) as Hp. split.
  - unfold rows_ok. rewrite Hp, Forall_fmap. apply Forall_true. intros x. apply length_row_of.
  - unfold len. rewrite Hp, length_fmap. apply (hi_len h xs r Hh).
Qed.

Lemma cell_ok h s b row : seg h !! s = Some row → length row = Z.to_nat BUCKETS →
  0 ≤ b < BUCKETS → cell h (Z.of_nat s) b = Ok (default 0 (row !! Z.to_nat b)).
Proof.
  intros Hs Hr Hb. unfold cell.
  assert (idx (seg h) (Z.of_nat s) = Ok row) as -> by (apply idx_Ok; rewrite Nat2Z.id; split; [lia|done]).
  cbn [mbind res_bind]. destruct (idx_lt row b) as [x Hx]; [unfold len; lia|].
  rewrite Hx. apply idx_Ok in Hx as [_ ->]. done.
Qed.

Lemma sum_col_spec h b done_ rest acc : seg h = done_ ++ rest → rows_ok (seg h) →
  0 ≤ b < BUCKETS →
  sum_col h b (length rest) (len done_) acc = Ok (acc + col b rest).
Proof.
  revert done_ acc. induction rest as [|row rest IH]; intros done_ acc Hs Hr Hb; simpl.
  { f_equal. lia. }
  assert (seg h !! length done_ = Some row) as Hrow
    by (by rewrite Hs, lookup_app_r, Nat.sub_diag by lia).
  unfold len. erewrite cell_ok; [|exact Hrow| |done].
  2: { unfold rows_ok in Hr. rewrite Forall_lookup in Hr. by eapply Hr. }
  cbn [mbind res_bind]. replace (Z.of_nat (length done_) + 1) with (len (done_ ++ [row])).
  - rewrite IH; [|by rewrite <-app_assoc|done|done]. f_equal. simpl. lia.
  - by rewrite len_app.
Qed.

Lemma col_sum h xs r b acc : hinv h xs r → 0 ≤ b < BUCKETS →
  sum_col h b (Z.to_nat S) 0 acc = Ok (acc + cnt b (concat r)).
Proof.
  intros Hh Hb. destruct (hinv_rows h xs r Hh) as [Hr Hl].
  replace (Z.to_nat S) with (length (seg h)) by (unfold len in Hl; lia).
  pose proof (sum_col_spec h b [] (seg h) acc eq_refl Hr Hb) as H.
  change (len (@nil (list Z))) with 0 in H. rewrite H. do 2 f_equal.
  rewrite (col_perm b _ _ (seg_perm h xs r Hh)). by apply col_rows.
Qed.

(** The total of a row is the number of its samples. *)
Lemma sum_row_spec h s x k acc : seg h !! s = Some (row_of x) →
  (k ≤ Z.to_nat BUCKETS)%nat →
  sum_row h (Z.of_nat s) k (BUCKETS - Z.of_nat k) acc
  = Ok (acc + len x - below (BUCKETS - Z.of_nat k) x).
Proof.
  intros Hs. revert acc. induction k as [|k IH]; intros acc Hk.
  - simpl. f_equal. rewrite Z.sub_0_r, below_all. lia.
  - cbn [sum_row]. set (b := BUCKETS - Z.of_nat (Datatypes.S k)).
    assert (0 ≤ b < BUCKETS) as Hb by (unfold BUCKETS, M in *; lia).
    rewrite (cell_ok h s b (row_of x)); [|done|apply length_row_of|done].
    rewrite lookup_row_of by done. cbn [mbind res_bind default].
    assert (b + 1 = BUCKETS - Z.of_nat k) as He by (unfold b; lia).
    rewrite He, IH by lia. f_equal. rewrite <-He, below_succ. simpl. lia.
Qed.

Lemma sum_all_spec h xs r : hinv h xs r → ∀ k acc, (k ≤ length (seg h))%nat →
  ∃ smp, drop (length (seg h) - k) (seg h) = row_of <$> smp
    ∧ sum_all BUCKETS h k (len (seg h) - Z.of_nat k) acc = Ok (acc + len (concat smp)).
Proof.
  intros Hh. assert (Forall (λ row, ∃ x, row = row_of x) (seg h)) as Hrows.
  { rewrite (seg_perm h xs r Hh), Forall_fmap. apply Forall_true. eauto. }
  induction k as [|k IH]; intros acc Hk.
  - exists []. rewrite Nat.sub_0_r, drop_all. split; [done|]. simpl. unfold len. simpl. f_equal. lia.
  - destruct (lookup_lt_is_Some_2 (seg h) (length (seg h) - Datatypes.S k)) as [row Hrow]; [lia|].
    pose proof (proj1 (Forall_lookup _ _) Hrows _ _ Hrow) as [x ->].
    cbn [sum_all].
    replace (len (seg h) - Z.of_nat (Datatypes.S k))
      with (Z.of_nat (length (seg h) - Datatypes.S k)) by (unfold len; lia).
    pose proof (sum_row_spec h _ x (Z.to_nat BUCKETS) acc Hrow ltac:(done)) as Hsum.
    rewrite Z2Nat.id, Z.sub_diag, below_zero in Hsum by (unfold BUCKETS, M; lia).
    rewrite Hsum. cbn [mbind res_bind].
    destruct (IH (acc + len x) ltac:(lia)) as (smp & Hd & Hs). exists (x :: smp). split.
    + rewrite (drop_S _ _ _ Hrow).
      replace (Datatypes.S (length (seg h) - Datatypes.S k)) with (length (seg h) - k)%nat by lia.
      by rewrite Hd.
    + replace (Z.of_nat (length (seg h) - Datatypes.S k) + 1) with (len (seg h) - Z.of_nat k)
        by (unfold len; lia).
      rewrite Z.sub_0_r, Hs. simpl. rewrite len_app. f_equal. lia.
Qed.

Lemma row_total x : foldr Z.add 0 (row_of x) = len x.
Proof.
  assert (∀ k b, foldr Z.add 0 ((λ b, cnt (Z.of_nat b) x) <$> seq b k)
    = below (Z.of_nat (b + k)) x - below (Z.of_nat b) x) as Hs.
  { induction k as [|k IH]; intros b; [simpl; rewrite Nat.add_0_r; lia|].
    rewrite <-cons_seq, fmap_cons. cbn [foldr]. rewrite IH.
    replace (Datatypes.S b + k)%nat with (b + Datatypes.S k)%nat by lia.
    replace (Z.of_nat (Datatypes.S b)) with (Z.of_nat b + 1) by lia. rewrite below_succ. lia. }
  unfold row_of. rewrite Hs, below_zero, Nat.add_0_l, Z2Nat.id by (unfold BUCKETS, M; lia).
  rewrite below_all. lia.
Qed.

Lemma concat_len_perm (l k : list (list Z)) :
  row_of <$> l ≡ₚ row_of <$> k → len (concat l) = len (concat k).
Proof.
  assert (∀ l, len (concat l) = foldr (λ row acc, foldr Z.add 0 row + acc) 0 (row_of <$> l)) as He.
  { intros l'. induction l' as [|x l' IH]; [done|]. rewrite fmap_cons. cbn [concat foldr].
    by rewrite len_app, IH, row_total. }
  intros Hp. rewrite !He. induction Hp; cbn [foldr]; lia.
Qed.

Lemma count_spec h xs r : hinv h xs r → count BUCKETS S h = Ok (len (concat r)).
Proof.
  intros Hh. destruct (hinv_rows h xs r Hh) as [_ Hl].
  destruct (sum_all_spec h xs r Hh (length (seg h)) 0 ltac:(done)) as (smp & Hd & Hs).
  rewrite Nat.sub_diag, drop_0 in Hd. unfold count.
  replace (Z.to_nat S) with (length (seg h)) by (unfold len in Hl; lia).
  unfold len in Hs at 1. rewrite Z.sub_diag in Hs. rewrite Hs. f_equal. simpl.
  apply concat_len_perm. rewrite <-Hd. by eapply seg_perm.
Qed.

(** ** Ranks *)

Lemma sorted_take l t x : StronglySorted Z.le l → l !! t = Some x →
  (∀ y, y ∈ take (Datatypes.S t) l → y ≤ x) ∧ (∀ y, y ∈ drop t l → x ≤ y).
Proof.
  revert t. induction l as [|z l IH]; intros t Hs Ht; [done|].
  apply StronglySorted_cons in Hs as [Hz Hs]. rewrite Forall_forall in Hz. destruct t as [|t].
  - injection Ht as ->. split.
    + intros y Hy. apply list_elem_of_singleton in Hy. lia.
    + intros y [->|Hy]%elem_of_cons; [lia|auto].
  - destruct (IH t Hs Ht) as [H1 H2]. split; [|done].
    intros y [->|Hy]%elem_of_cons; [|auto]. apply Hz. by eapply list_elem_of_lookup_2.
Qed.

Lemma filter_take_bound (P : Z → Prop) `{!∀ x, Decision (P x)} l t :
  (∀ y, y ∈ drop t l → ¬ P y) → (length (filter P l) ≤ t)%nat.
Proof.
  intros Hd. rewrite <-(take_drop t l), filter_app, length_app.
  assert (filter P (drop t l) = []) as ->.
  { destruct (filter P (drop t l)) as [|y k] eqn:E; [done|].
    assert (y ∈ filter P (drop t l)) as Hy by (rewrite E; by left).
    apply list_elem_of_filter in Hy as [? ?]. by edestruct Hd. }
  pose proof (length_filter P (take t l)) as Hf. rewrite length_take in Hf. simpl. lia.
Qed.

Lemma filter_take_all (P : Z → Prop) `{!∀ x, Decision (P x)} l t :
  (∀ y, y ∈ take t l → P y) → (t ≤ length l)%nat → (t ≤ length (filter P l))%nat.
Proof.
  intros Ht Hl. rewrite <-(take_drop t l), filter_app, length_app.
  assert (length (filter P (take t l)) = length (take t l)) as ->; [|rewrite length_take; lia].
  clear Hl. induction (take t l) as [|y k IH]; [done|]. rewrite filter_cons_True by (apply Ht; by left).
  simpl. f_equal. apply IH. intros z Hz. apply Ht. by right.
Qed.

(** The sample of rank [t] lies below bucket [b] iff at least [t] samples do. *)
Lemma rank_below l t x b : StronglySorted Z.le l → (1 ≤ t)%nat → l !! (t - 1)%nat = Some x →
  Z.of_nat t ≤ below b l ↔ bucket_index x < b.
Proof.
  intros Hs Ht Hx. destruct (sorted_take l _ x Hs Hx) as [Hlo Hhi].
  pose proof (lookup_lt_Some _ _ _ Hx) as Hlen.
  replace (Datatypes.S (t - 1)) with t in Hlo by lia. unfold below, len. split.
  - intros Hle. destruct (decide (bucket_index x < b)) as [|Hn]; [done|]. exfalso.
    pose proof (filter_take_bound (λ x, bucket_index x < b) l (t - 1)) as Hb.
    cut (∀ y, y ∈ drop (t - 1) l → ¬ bucket_index y < b); [intros Hno; specialize (Hb Hno); lia|].
    intros y Hy Hyb. pose proof (bucket_index_mono x y (Hhi y Hy)). lia.
  - intros Hb. apply inj_le, filter_take_all; [|lia]. intros y Hy.
    pose proof (bucket_index_mono y x (Hlo y Hy)). lia.
Qed.

Lemma rank_loop_spec h xs r t x k : hinv h xs r → (1 ≤ t)%nat →
  merge_sort Z.le (concat r) !! (t - 1)%nat = Some x →
  (k ≤ Z.to_nat BUCKETS)%nat → BUCKETS - Z.of_nat k ≤ bucket_index x →
  rank_loop BUCKETS S h (Z.of_nat t) k (BUCKETS - Z.of_nat k)
    (below (BUCKETS - Z.of_nat k) (concat r)) = Ok (bucket_midpoint (bucket_index x)).
Proof.
  intros Hh Ht Hx. pose proof (bucket_index_range x) as Hbx.
  pose proof (StronglySorted_merge_sort Z.le (concat r)) as Hs.
  assert (∀ b, below b (merge_sort Z.le (concat r)) = below b (concat r)) as Hp.
  { intros b. unfold below, len. by rewrite (merge_sort_Permutation Z.le (concat r)). }
  induction k as [|k IH]; intros Hk Hb; [lia|]. cbn [rank_loop].
  set (b := BUCKETS - Z.of_nat (Datatypes.S k)) in *.
  assert (0 ≤ b < BUCKETS) as Hbb by (unfold BUCKETS, M in *; lia).
  rewrite (col_sum h xs r b _ Hh Hbb). cbn [mbind res_bind]. rewrite <-below_succ.
  pose proof (rank_below _ t x (b + 1) Hs Ht Hx) as Hr. rewrite Hp in Hr.
  destruct (Z.leb_spec (Z.of_nat t) (below (b + 1) (concat r))) as [Hle|Hgt].
  - apply Hr in Hle. do 2 f_equal. lia.
  - assert (b + 1 = BUCKETS - Z.of_nat k) as He by (unfold b; lia). rewrite He in *.
    apply IH; [lia|]. assert (¬ bucket_index x < BUCKETS - Z.of_nat k); [|lia].
    rewrite <-Hr. lia.
Qed.

Lemma window_shape h xs r : hinv h xs r →
  ∃ pre, xs = pre ++ concat r
    ∧ (pre = [] ∨ (S - 1) * seg_capacity h ≤ len (concat r))
    ∧ len (concat r) ≤ S * seg_capacity h.
Proof.
  intros [Hl _ (e & fulls & c & pre & Hr & Hf & Hn & Hle & Hxs & Hpre) Hcap].
  exists pre. split; [done|].
  assert (len (concat r) = len fulls * seg_capacity h + len c) as Hlen.
  { rewrite Hr, !concat_app. simpl. rewrite app_nil_r, !len_app.
    assert (concat (replicate e (@nil Z)) = []) as -> by (clear; induction e; done).
    assert (len (concat fulls) = len fulls * seg_capacity h) as ->; [|unfold len; simpl; lia].
    clear -Hf. induction Hf as [|f fs Hf _ IH]; [done|]. cbn [concat]. rewrite len_app, Hf, IH.
    unfold len. simpl length. lia. }
  assert (Z.of_nat e + len fulls + 1 = S) as HS'.
  { rewrite <-Hl, Hr. unfold len. rewrite !length_app, length_replicate. simpl. lia. }
  pose proof (len_nonneg c). pose proof (len_nonneg fulls). rewrite Hlen. split; [|nia].
  destruct Hpre as [->|]; [right|by left]. nia.
Qed.

(** The percentile of a well-formed histogram. *)
Lemma percentile_spec h xs r permille : hinv h xs r → S ≤ 2 ^ 16 →
  1 ≤ permille ≤ 1000 → concat r ≠ [] →
  ∃ x, merge_sort Z.le (concat r)
         !! Z.to_nat (div_ceil (len (concat r) * permille) 1000 - 1) = Some x
    ∧ percentile BUCKETS S h permille = Ok (bucket_midpoint (bucket_index x)).
Proof.
  intros Hh HS16 Hp Hne. pose proof (hi_cap h xs r Hh) as Hcap.
  destruct (window_shape h xs r Hh) as (_ & _ & _ & Hlen).
  assert (1 ≤ len (concat r)) as Hpos by (destruct (concat r); [done|unfold len; simpl; lia]).
  set (t := div_ceil (len (concat r) * permille) 1000).
  assert (1 ≤ t ≤ len (concat r)) as Ht.
  { pose proof (div_ceil_spec (len (concat r) * permille) 1000 ltac:(lia) ltac:(nia)) as Hd.
    fold t in Hd. nia. }
  destruct (lookup_lt_is_Some_2 (merge_sort Z.le (concat r)) (Z.to_nat (t - 1))) as [x Hx].
  { rewrite (Permutation_length (merge_sort_Permutation Z.le (concat r))). unfold len in Ht. lia. }
  exists x. split; [done|]. unfold percentile. rewrite (count_spec h xs r Hh). cbn [mbind res_bind].
  rewrite (proj2 (Z.eqb_neq _ _)) by lia. rewrite (proj2 (Z.leb_gt _ _)) by nia. fold t.
  pose proof (rank_loop_spec h xs r (Z.to_nat t) x (Z.to_nat BUCKETS) Hh ltac:(lia)) as Hr.
  replace (Z.to_nat t - 1)%nat with (Z.to_nat (t - 1)) in Hr by lia.
  rewrite (Z2Nat.id BUCKETS), Z.sub_diag, below_zero, (Z2Nat.id t) in Hr
    by (unfold BUCKETS, M; lia).
  apply Hr; [done|done|apply bucket_index_range].
Qed.
End window.

Lemma midpoint_close v : 64 ≤ v < 2 ^ 36 →
  100 * Z.abs (bucket_midpoint (bucket_index v) - v) ≤ v.
Proof.
  intros Hv. destruct (bucket_edges v Hv) as (w & a & [Hw Hw3] & Ha & Hlo & Hhi & Hin).
  pose proof (centroid_close w a v ltac:(lia) Hw3 Ha Hin) as Hc. cbv zeta in Hc.
  unfold bucket_midpoint. rewrite Hlo, Hhi. fold (round_sqrt (w * a * (w * (a + 1)))).
  rewrite wrap_small; [done|]. lia.
Qed.

(** C40. The percentile estimate: for every segment count, window and sequence of
    samples, recording returns (no index out of bounds, no counter overflow);
    the live window is a suffix of the samples of at most [S * (window / S)]
    and, once older samples have been dropped, at least [(S - 1) * (window / S)];
    [count] is its size; and every percentile is the centroid of the bucket of
    the exact percentile of the live window, within one percent of it for
    samples from 64 ns to 68 s. *)
Theorem percentile_accurate S w xs :
  0 < S ≤ 2 ^ 16 → is_u 32 w →
  let cap := Z.max (w / S) 1 in
  ∃ h pre live,
    hist_record_all BUCKETS S (hist_new BUCKETS S w) xs = Ok h
    ∧ xs = pre ++ live ∧ len live ≤ S * cap ∧ (pre = [] ∨ (S - 1) * cap ≤ len live)
    ∧ count BUCKETS S h = Ok (len live)
    ∧ (xs = [] → ∀ permille, percentile BUCKETS S h permille = Ok 0)
    ∧ (xs ≠ [] → ∀ permille, 1 ≤ permille ≤ 1000 →
        ∃ exact est,
          merge_sort Z.le live !! Z.to_nat (div_ceil (len live * permille) 1000 - 1) = Some exact
          ∧ percentile BUCKETS S h permille = Ok est
          ∧ est = bucket_midpoint (bucket_index exact)
          ∧ (64 ≤ exact < 2 ^ 36 → 100 * Z.abs (est - exact) ≤ exact)).
Proof.
  intros HS Hw cap.
  destruct (hinv_record_all S (proj1 HS) _ xs [] _ (hinv_new S (proj1 HS) w Hw ltac:(lia)))
    as (h & r & Hrec & Hh & Hne & Hcap); [by left|]. simpl in Hh, Hne.
  assert (seg_capacity h = cap) as Hc.
  { rewrite Hcap. cbn [hist_new seg_capacity]. by rewrite wrap_small by lia. }
  destruct (window_shape S (proj1 HS) h xs r Hh) as (pre & Hxs & Hpre & Hlen). rewrite Hc in *.
  exists h, pre, (concat r). split_and!; try done.
  - by apply (count_spec S (proj1 HS) h xs r).
  - intros Hnil permille. rewrite Hnil in Hxs. symmetry in Hxs. apply app_nil in Hxs as [_ Hnil'].
    unfold percentile. rewrite (count_spec S (proj1 HS) h xs r Hh), Hnil'. done.
  - intros Hxne permille Hp. assert (concat r ≠ []) as Hr by (by destruct Hne).
    destruct (percentile_spec S (proj1 HS) h xs r permille Hh ltac:(lia) Hp Hr) as (x & Hx & He).
    exists x, (bucket_midpoint (bucket_index x)). split_and!; [done|done|done|].
    apply midpoint_close.
Qed.

Lemma percentile_accurate_witness :
  ∃ h est,
    hist_record_all BUCKETS 3 (hist_new BUCKETS 3 300) [7000; 100; 250] = Ok h
    ∧ percentile BUCKETS 3 h 500 = Ok est ∧ 100 * Z.abs (est - 250) ≤ 250.
Proof.
  destruct (percentile_accurate 3 300 [7000; 100; 250])
    as (h & pre & live & Hr & Hx & Hlen & Hpre & _ & _ & Hp).
  - lia.
  - split; lia.
  - assert (len [7000; 100; 250] = len pre + len live) as Hl by (rewrite Hx; apply len_app).
    change (len [7000; 100; 250]) with 3 in Hl. change (Z.max (300 / 3) 1) with 100 in Hpre.
    assert (pre = []) as -> by (destruct Hpre as [|Hpre]; [done|]; pose proof (len_nonneg pre); lia).
    simpl in Hx. subst live. destruct (Hp ltac:(done) 500 ltac:(lia)) as (x & est & H1 & H2 & _ & H4).
    exists h, est. vm_compute in H1. injection H1 as <-. split_and!; [exact Hr|exact H2|].
    apply H4. lia.
Defined.
End StatsHist.
