(* ===== verification/StatsCycle.v ===== *)
(** * Cycle telemetry aggregators

    Models [taktora-stats/src/cyclestats.rs], [execcycle.rs] and
    [connector.rs]: the per-quantity bundle [CycleStatsCore] and the executor's
    and connector's per-cycle aggregators built on it, with their published
    snapshot.  What an aggregator relies on of a sliding-window tracker is the
    class [Aggregator]; the deque of [StatsMinMax] and the histogram of
    [StatsHist] are its instances. *)

From stdpp Require Import base list list_numbers sorting.
From Stdlib Require Import ZArith Lia.
From S2P Require Import Prelude StatsMinMax StatsHist.

Module StatsCycle.
Import StatsMinMax StatsHist.

(** ** The interface of a tracker *)

(** A tracker that has recorded the samples [xs] accepts one more. *)
Class Aggregator (T : Type) := {
  agg_record : T → Z → res T;
  agg_holds : T → list Z → Prop;
  agg_record_ok t xs x : agg_holds t xs → len xs + 1 < 2 ^ 64 →
    ∃ t', agg_record t x = Ok t' ∧ agg_holds t' (xs ++ [x]);
}.

(** A sample is recorded on a measured cycle and skipped on a faulted one. *)
Definition record_opt {T : Type} (rec : T → Z → res T) (t : T) (o : option Z) : res T :=
  match o with Some x => rec t x | None => Ok t end.

Lemma omap_cons {A B : Type} (f : A → option B) x l :
  omap f (x :: l) = match f x with Some y => y :: omap f l | None => omap f l end.
Proof. done. Qed.
Lemma omap_snoc {A B : Type} (f : A → option B) l x :
  omap f (l ++ [x]) = match f x with Some y => omap f l ++ [y] | None => omap f l end.
Proof. rewrite omap_app, omap_cons. destruct (f x); [done|]. by rewrite app_nil_r. Qed.
Lemma len_omap {A B : Type} (f : A → option B) l : len (omap f l) ≤ len l.
Proof.
  unfold len. induction l as [|x l IH]; [done|]. rewrite omap_cons.
  destruct (f x); cbn [length]; lia.
Qed.

Lemma record_opt_ok {T : Type} {Agg : Aggregator T} {C : Type} (f : C → option Z) t (cs : list C) c :
  agg_holds t (omap f cs) → len cs + 1 < 2 ^ 64 →
  ∃ t', record_opt agg_record t (f c) = Ok t' ∧ agg_holds t' (omap f (cs ++ [c])).
Proof.
  intros Ht Hl. rewrite omap_snoc. unfold record_opt. pose proof (len_omap f cs).
  destruct (f c) as [x|]; [apply agg_record_ok; [done|lia]|eauto].
Qed.

(** ** [CycleStatsCore] *)

Record CycleStatsCore := MkCore {
  hist : RollingHistogram;
  minmax : MinMaxDeque;
}.

(** Snapshot of the executor's aggregates. *)
Record ExecutorCycleSnapshot := MkExecSnap {
  p50_ns : Z; p95_ns : Z; p99_ns : Z;
  min_ns : Z; max_ns : Z;
  max_jitter_ns : Z; max_lateness_ns : Z;
}.

(** The executor aggregator; [published] are its relaxed atomics. *)
Record ExecutorCycleStats := MkExec {
  took : CycleStatsCore;
  jitter : MinMaxDeque;
  lateness : MinMaxDeque;
  cycle_index : Z;
  published : ExecutorCycleSnapshot;
}.

(** Snapshot of the connector's aggregates. *)
Record ConnectorCycleSnapshot := MkConnSnap {
  wire_round_p50 : Z; wire_round_p95 : Z; wire_round_p99 : Z;
  wire_round_min : Z; wire_round_max : Z;
  phase_wait_min : Z; phase_wait_mean : Z;
  wc_mismatch_count : Z; not_all_fresh_count : Z;
  per_device_max_stale : list Z;
}.

Record ConnectorCycleStats := MkConn {
  wire_round : CycleStatsCore;
  phase_wait : MinMaxDeque;
  phase_wait_sum : Z;
  phase_wait_count : Z;
  conn_cycle_index : Z;
  per_device_stale_run : list Z;
  conn_published : ConnectorCycleSnapshot;
}.

(** One cycle, as the executor and as a connector report it. *)
Record ExecCycle := MkExecCycle {
  ec_took : option Z; ec_jitter : option Z; ec_lateness : option Z;
}.
Record ConnCycle := MkConnCycle {
  cc_wire : option Z; cc_phase : option Z;
  cc_all_fresh : bool; cc_wc_ok : bool; cc_stale : list bool;
}.

Section stats.
(** Histogram segments, exact window, device count. *)
Context (S W : Z) (N : nat).

Definition core_new (hist_window : Z) : CycleStatsCore :=
  MkCore (hist_new BUCKETS S hist_window) (minmax_new W).
Definition core_record (c : CycleStatsCore) (value_ns : Z) : res CycleStatsCore :=
  h ← hist_record BUCKETS S (hist c) value_ns;
  m ← StatsMinMax.record W (minmax c) value_ns;
  Ok (MkCore h m).
Definition core_percentile (c : CycleStatsCore) (permille : Z) : res Z :=
  percentile BUCKETS S (hist c) permille.
Definition p50 (c : CycleStatsCore) : res Z := core_percentile c 500.
Definition p95 (c : CycleStatsCore) : res Z := core_percentile c 950.
Definition p99 (c : CycleStatsCore) : res Z := core_percentile c 990.
Definition core_min (c : CycleStatsCore) : res (option Z) := StatsMinMax.min (minmax c).
Definition core_max (c : CycleStatsCore) : res (option Z) := StatsMinMax.max (minmax c).

(** [.unwrap_or(0)] on a computation. *)
Definition or_zero (m : res (option Z)) : res Z := o ← m; Ok (default 0 o).

(** ** [ExecutorCycleStats] *)

Definition exec_new (hist_window : Z) : ExecutorCycleStats :=
  MkExec (core_new hist_window) (minmax_new W) (minmax_new W) 0 (MkExecSnap 0 0 0 0 0 0 0).

Definition exec_took (st : ExecutorCycleStats) (t : Z) : res ExecutorCycleStats :=
  c ← core_record (took st) t;
  a50 ← p50 c; a95 ← p95 c; a99 ← p99 c;
  lo ← or_zero (core_min c);
  hi ← or_zero (core_max c);
  let p := published st in
  Ok (MkExec c (jitter st) (lateness st) (cycle_index st)
        (MkExecSnap a50 a95 a99 lo hi (max_jitter_ns p) (max_lateness_ns p))).

Definition exec_jitter (st : ExecutorCycleStats) (j : Z) : res ExecutorCycleStats :=
  d ← StatsMinMax.record W (jitter st) j;
  hi ← or_zero (StatsMinMax.max d);
  let p := published st in
  Ok (MkExec (took st) d (lateness st) (cycle_index st)
        (MkExecSnap (p50_ns p) (p95_ns p) (p99_ns p) (min_ns p) (max_ns p) hi (max_lateness_ns p))).

Definition exec_lateness (st : ExecutorCycleStats) (l : Z) : res ExecutorCycleStats :=
  d ← StatsMinMax.record W (lateness st) (Z.abs l);
  hi ← or_zero (StatsMinMax.max d);
  let p := published st in
  Ok (MkExec (took st) (jitter st) d (cycle_index st)
        (MkExecSnap (p50_ns p) (p95_ns p) (p99_ns p) (min_ns p) (max_ns p) (max_jitter_ns p) hi)).

Definition exec_record_cycle (st : ExecutorCycleStats) (c : ExecCycle) :
  res (ExecutorCycleStats * Z) :=
  let i := cycle_index st in
  if 2 ^ 64 <=? i + 1 then Panic
  else
    let st := MkExec (took st) (jitter st) (lateness st) (i + 1) (published st) in
    st ← record_opt exec_took st (ec_took c);
    st ← record_opt exec_jitter st (ec_jitter c);
    st ← record_opt exec_lateness st (ec_lateness c);
    Ok (st, i).

Definition exec_snapshot (st : ExecutorCycleStats) : ExecutorCycleSnapshot := published st.

(** ** [ConnectorCycleStats] *)

Definition conn_new (hist_window : Z) : ConnectorCycleStats :=
  MkConn (core_new hist_window) (minmax_new W) 0 0 0 (replicate N 0)
    (MkConnSnap 0 0 0 0 0 0 0 0 0 (replicate N 0)).

Definition conn_wire (st : ConnectorCycleStats) (ns : Z) : res ConnectorCycleStats :=
  c ← core_record (wire_round st) ns;
  a50 ← p50 c; a95 ← p95 c; a99 ← p99 c;
  lo ← or_zero (core_min c);
  hi ← or_zero (core_max c);
  let p := conn_published st in
  Ok (MkConn c (phase_wait st) (phase_wait_sum st) (phase_wait_count st) (conn_cycle_index st)
        (per_device_stale_run st)
        (MkConnSnap a50 a95 a99 lo hi (phase_wait_min p) (phase_wait_mean p)
           (wc_mismatch_count p) (not_all_fresh_count p) (per_device_max_stale p))).

Definition conn_phase (st : ConnectorCycleStats) (v : Z) : res ConnectorCycleStats :=
  d ← StatsMinMax.record W (phase_wait st) v;
  let sum := sat_add 64 (phase_wait_sum st) v in
  if 2 ^ 64 <=? phase_wait_count st + 1 then Panic
  else
    let n := phase_wait_count st + 1 in
    lo ← or_zero (StatsMinMax.min d);
    let p := conn_published st in
    Ok (MkConn (wire_round st) d sum n (conn_cycle_index st) (per_device_stale_run st)
          (MkConnSnap (wire_round_p50 p) (wire_round_p95 p) (wire_round_p99 p) (wire_round_min p)
             (wire_round_max p) lo (sum / n) (wc_mismatch_count p) (not_all_fresh_count p)
             (per_device_max_stale p))).

(** The zipped loop over the devices: new runs and new maxima. *)
Fixpoint stale_loop (stale : list bool) (runs maxs : list Z) : list Z * list Z :=
  match stale, runs, maxs with
  | b :: stale, r :: runs, m :: maxs =>
      let '(runs, maxs) := stale_loop stale runs maxs in
      if (b : bool) then
        let r := sat_add 32 r 1 in
        (r :: runs, (if m <? r then r else m) :: maxs)
      else (0 :: runs, m :: maxs)
  | _, _, _ => (runs, maxs)
  end.

Definition conn_quality (st : ConnectorCycleStats) (c : ConnCycle) : ConnectorCycleStats :=
  let p := conn_published st in
  let wc := if cc_wc_ok c then wc_mismatch_count p else wrap 64 (wc_mismatch_count p + 1) in
  let fresh := if cc_all_fresh c then not_all_fresh_count p
               else wrap 64 (not_all_fresh_count p + 1) in
  let '(runs, maxs) := stale_loop (cc_stale c) (per_device_stale_run st) (per_device_max_stale p) in
  MkConn (wire_round st) (phase_wait st) (phase_wait_sum st) (phase_wait_count st)
    (conn_cycle_index st) runs
    (MkConnSnap (wire_round_p50 p) (wire_round_p95 p) (wire_round_p99 p) (wire_round_min p)
       (wire_round_max p) (phase_wait_min p) (phase_wait_mean p) wc fresh maxs).

Definition conn_record_cycle (st : ConnectorCycleStats) (c : ConnCycle) :
  res (ConnectorCycleStats * Z) :=
  let i := conn_cycle_index st in
  if 2 ^ 64 <=? i + 1 then Panic
  else
    let st := MkConn (wire_round st) (phase_wait st) (phase_wait_sum st) (phase_wait_count st)
                (i + 1) (per_device_stale_run st) (conn_published st) in
    st ← record_opt conn_wire st (cc_wire c);
    st ← record_opt conn_phase st (cc_phase c);
    Ok (conn_quality st c, i).

Definition conn_snapshot (st : ConnectorCycleStats) : ConnectorCycleSnapshot := conn_published st.

(** Histories. *)
Fixpoint exec_run (st : ExecutorCycleStats) (cs : list ExecCycle) :
  res (ExecutorCycleStats * list Z) :=
  match cs with
  | [] => Ok (st, [])
  | c :: cs => '(st, i) ← exec_record_cycle st c; '(st, l) ← exec_run st cs; Ok (st, i :: l)
  end.
Fixpoint conn_run (st : ConnectorCycleStats) (cs : list ConnCycle) :
  res (ConnectorCycleStats * list Z) :=
  match cs with
  | [] => Ok (st, [])
  | c :: cs => '(st, i) ← conn_record_cycle st c; '(st, l) ← conn_run st cs; Ok (st, i :: l)
  end.


(** ** The trackers as aggregators *)

Context (HS : 0 < S ≤ 2 ^ 16) (HW : 0 < W).

#[local] Program Instance minmax_aggregator : Aggregator MinMaxDeque := {|
  agg_record := StatsMinMax.record W;
  agg_holds := tracks W;
|}.
Next Obligation. intros m xs x Ht Hl. by apply record_spec. Qed.

(** A core summarises the samples [xs] with a histogram capacity [cap]. *)
Definition core_holds (cap : Z) (c : CycleStatsCore) (xs : list Z) : Prop :=
  (∃ r, hinv S (hist c) xs r ∧ (xs = [] ∨ concat r ≠ []) ∧ seg_capacity (hist c) = cap)
  ∧ tracks W (minmax c) xs.

#[local] Program Instance core_aggregator (cap : Z) : Aggregator CycleStatsCore := {|
  agg_record := core_record;
  agg_holds := core_holds cap;
|}.
Next Obligation.
  intros cap c xs x [(r & Hh & _ & Hc) Ht] Hl.
  destruct (hinv_record S (proj1 HS) _ _ _ x Hh) as (h' & r' & Hr & Hh' & Hne & Hc').
  destruct (record_spec W HW _ _ x Ht Hl) as (m' & Hm & Ht').
  exists (MkCore h' m'). unfold core_record. rewrite Hr. cbn [mbind res_bind]. rewrite Hm.
  split; [done|]. split; [|done]. exists r'. split_and!; [done|by right|simpl; congruence].
Qed.

Lemma core_new_holds w : is_u 32 w → core_holds (Z.max (w / S) 1) (core_new w) [].
Proof.
  intros Hw. split; [|by apply tracks_new].
  exists (replicate (Z.to_nat S) []). split_and!; [|by left|].
  - apply hinv_new; [lia|done|lia].
  - simpl. by rewrite wrap_small by lia.
Qed.

(** ** What a snapshot reports of a history of samples *)

(** [est] is the estimate of a percentile: the centroid of the bucket of the
    exact percentile of a suffix of the samples, of the histogram's window
    size. *)
Definition estimates (cap : Z) (xs : list Z) (permille est : Z) : Prop :=
  xs = [] ∧ est = 0
  ∨ ∃ pre live exact, xs = pre ++ live ∧ len live ≤ S * cap
      ∧ (pre = [] ∨ (S - 1) * cap ≤ len live)
      ∧ merge_sort Z.le live !! Z.to_nat (div_ceil (len live * permille) 1000 - 1) = Some exact
      ∧ est = bucket_midpoint (bucket_index exact).
Definition window_min (xs : list Z) : Z := default 0 (list_min (window W xs)).
Definition window_max (xs : list Z) : Z := default 0 (list_max (window W xs)).

Lemma core_min_ok cap c xs : core_holds cap c xs → or_zero (core_min c) = Ok (window_min xs).
Proof. intros [_ Ht]. unfold core_min, or_zero. by rewrite (min_spec W HW _ _ Ht). Qed.
Lemma core_max_ok cap c xs : core_holds cap c xs → or_zero (core_max c) = Ok (window_max xs).
Proof. intros [_ Ht]. unfold core_max, or_zero. by rewrite (max_spec W HW _ _ Ht). Qed.

Lemma core_percentile_ok cap c xs permille : core_holds cap c xs → xs ≠ [] →
  1 ≤ permille ≤ 1000 → ∃ est, core_percentile c permille = Ok est ∧ estimates cap xs permille est.
Proof.
  intros [(r & Hh & [?|Hne] & <-) _] Hxs Hp; [done|].
  destruct (percentile_spec S (proj1 HS) _ _ _ permille Hh ltac:(lia) Hp Hne) as (x & Hx & He).
  destruct (window_shape S (proj1 HS) _ _ _ Hh) as (pre & Hpre & Hsz & Hlen).
  eexists. split; [exact He|]. right. exists pre, (concat r), x. done.
Qed.

(** Recording into a core and reading everything it publishes. *)
Lemma core_publish cap c xs x : core_holds cap c xs → len xs + 1 < 2 ^ 64 →
  ∃ c' a50 a95 a99, core_record c x = Ok c' ∧ core_holds cap c' (xs ++ [x])
    ∧ p50 c' = Ok a50 ∧ estimates cap (xs ++ [x]) 500 a50
    ∧ p95 c' = Ok a95 ∧ estimates cap (xs ++ [x]) 950 a95
    ∧ p99 c' = Ok a99 ∧ estimates cap (xs ++ [x]) 990 a99
    ∧ or_zero (core_min c') = Ok (window_min (xs ++ [x]))
    ∧ or_zero (core_max c') = Ok (window_max (xs ++ [x])).
Proof.
  intros Hc Hl. destruct (agg_record_ok (Aggregator := core_aggregator cap) c xs x Hc Hl)
    as (c' & Hr & Hc'). cbn in Hr, Hc'.
  assert (xs ++ [x] ≠ []) as Hne by (by destruct xs).
  destruct (core_percentile_ok cap c' _ 500 Hc' Hne ltac:(lia)) as (a50 & H50 & E50).
  destruct (core_percentile_ok cap c' _ 950 Hc' Hne ltac:(lia)) as (a95 & H95 & E95).
  destruct (core_percentile_ok cap c' _ 990 Hc' Hne ltac:(lia)) as (a99 & H99 & E99).
  exists c', a50, a95, a99.
  split_and!; try done; [by eapply core_min_ok|by eapply core_max_ok].
Qed.

(** Recording into a deque and reading one extreme. *)
Lemma deque_publish d xs x : tracks W d xs → len xs + 1 < 2 ^ 64 →
  ∃ d', StatsMinMax.record W d x = Ok d' ∧ tracks W d' (xs ++ [x])
    ∧ or_zero (StatsMinMax.min d') = Ok (window_min (xs ++ [x]))
    ∧ or_zero (StatsMinMax.max d') = Ok (window_max (xs ++ [x])).
Proof.
  intros Ht Hl. destruct (agg_record_ok (Aggregator := minmax_aggregator) d xs x Ht Hl)
    as (d' & Hr & Ht'). cbn in Hr, Ht'. exists d'. unfold or_zero.
  by rewrite (min_spec W HW _ _ Ht'), (max_spec W HW _ _ Ht').
Qed.

(** A history with one more sample, or none. *)
Definition extend (xs : list Z) (o : option Z) : list Z :=
  match o with Some x => xs ++ [x] | None => xs end.
Lemma omap_extend {C : Type} (f : C → option Z) cs c :
  omap f (cs ++ [c]) = extend (omap f cs) (f c).
Proof. apply omap_snoc. Qed.

(** ** The executor aggregator *)

Definition abs_lateness (c : ExecCycle) : option Z := Z.abs <$> ec_lateness c.

Record took_reports (cap : Z) (s : ExecutorCycleSnapshot) (xs : list Z) : Prop := {
  er_p50 : estimates cap xs 500 (p50_ns s);
  er_p95 : estimates cap xs 950 (p95_ns s);
  er_p99 : estimates cap xs 990 (p99_ns s);
  er_min : min_ns s = window_min xs;
  er_max : max_ns s = window_max xs;
}.
Definition exec_reports (cap : Z) (s : ExecutorCycleSnapshot) (cs : list ExecCycle) : Prop :=
  took_reports cap s (omap ec_took cs)
  ∧ max_jitter_ns s = window_max (omap ec_jitter cs)
  ∧ max_lateness_ns s = window_max (omap abs_lateness cs).

(** The invariant, on the three sample histories. *)
Record exec_inv (cap : Z) (st : ExecutorCycleStats) (ts js ls : list Z) : Prop := {
  ei_took : core_holds cap (took st) ts;
  ei_jitter : tracks W (jitter st) js;
  ei_lateness : tracks W (lateness st) ls;
  ei_rep : took_reports cap (published st) ts;
  ei_maxj : max_jitter_ns (published st) = window_max js;
  ei_maxl : max_lateness_ns (published st) = window_max ls;
}.

Lemma exec_took_stage cap st ts js ls o : exec_inv cap st ts js ls → len ts + 1 < 2 ^ 64 →
  ∃ st', record_opt exec_took st o = Ok st' ∧ exec_inv cap st' (extend ts o) js ls
    ∧ cycle_index st' = cycle_index st.
Proof.
  intros [Ht Hj Hl Hr Hmj Hml] Hb. destruct o as [x|]; [|by exists st].
  destruct (core_publish cap _ _ x Ht Hb)
    as (c' & a & b & d & Hrec & Hc' & H50 & E50 & H95 & E95 & H99 & E99 & Hmin & Hmax).
  cbn [record_opt]. unfold exec_took. rewrite Hrec. cbn [mbind res_bind].
  rewrite H50, H95, H99, Hmin, Hmax. cbn [mbind res_bind]. eexists. split; [done|].
  split; [|done]. by split.
Qed.

Lemma exec_jitter_stage cap st ts js ls o : exec_inv cap st ts js ls → len js + 1 < 2 ^ 64 →
  ∃ st', record_opt exec_jitter st o = Ok st' ∧ exec_inv cap st' ts (extend js o) ls
    ∧ cycle_index st' = cycle_index st.
Proof.
  intros [Ht Hj Hl Hr Hmj Hml] Hb. destruct o as [x|]; [|by exists st].
  destruct (deque_publish _ _ x Hj Hb) as (d' & Hrec & Hd' & _ & Hmax).
  cbn [record_opt]. unfold exec_jitter. rewrite Hrec. cbn [mbind res_bind].
  rewrite Hmax. cbn [mbind res_bind]. eexists. split; [done|]. split; [|done].
  destruct Hr. by split.
Qed.

Lemma exec_lateness_stage cap st ts js ls o : exec_inv cap st ts js ls → len ls + 1 < 2 ^ 64 →
  ∃ st', record_opt exec_lateness st o = Ok st' ∧ exec_inv cap st' ts js (extend ls (Z.abs <$> o))
    ∧ cycle_index st' = cycle_index st.
Proof.
  intros [Ht Hj Hl Hr Hmj Hml] Hb. destruct o as [x|]; [|by exists st].
  destruct (deque_publish _ _ (Z.abs x) Hl Hb) as (d' & Hrec & Hd' & _ & Hmax).
  cbn [record_opt]. unfold exec_lateness. rewrite Hrec. cbn [mbind res_bind].
  rewrite Hmax. cbn [mbind res_bind]. eexists. split; [done|]. split; [|done].
  destruct Hr. by split.
Qed.

Definition exec_hist (cap : Z) (st : ExecutorCycleStats) (cs : list ExecCycle) : Prop :=
  cycle_index st = len cs
  ∧ exec_inv cap st (omap ec_took cs) (omap ec_jitter cs) (omap abs_lateness cs).

Lemma exec_record_ok cap st cs c : exec_hist cap st cs → len cs + 1 < 2 ^ 64 →
  ∃ st', exec_record_cycle st c = Ok (st', len cs) ∧ exec_hist cap st' (cs ++ [c]).
Proof.
  intros [Hi Hinv] Hl. unfold exec_record_cycle. rewrite Hi, (proj2 (Z.leb_gt _ _)) by done.
  set (st0 := MkExec _ _ _ _ _).
  assert (exec_inv cap st0 (omap ec_took cs) (omap ec_jitter cs) (omap abs_lateness cs)) as H0
    by (by destruct Hinv; split).
  pose proof (len_omap ec_took cs) as Lt. pose proof (len_omap ec_jitter cs) as Lj.
  pose proof (len_omap abs_lateness cs) as Ll.
  destruct (exec_took_stage cap st0 _ _ _ (ec_took c) H0 ltac:(lia)) as (st1 & -> & H1 & C1).
  cbn [mbind res_bind].
  destruct (exec_jitter_stage cap st1 _ _ _ (ec_jitter c) H1 ltac:(lia)) as (st2 & -> & H2 & C2).
  cbn [mbind res_bind].
  destruct (exec_lateness_stage cap st2 _ _ _ (ec_lateness c) H2 ltac:(lia)) as (st3 & -> & H3 & C3).
  cbn [mbind res_bind]. exists st3. split; [done|]. split.
  - rewrite C3, C2, C1, len_app. done.
  - by rewrite !omap_extend.
Qed.

Lemma exec_run_ok cap cs : ∀ st ds, exec_hist cap st ds → len ds + len cs < 2 ^ 64 →
  ∃ st', exec_run st cs = Ok (st', seqZ (len ds) (len cs)) ∧ exec_hist cap st' (ds ++ cs).
Proof.
  induction cs as [|c cs IH]; intros st ds Hst Hl.
  - exists st. rewrite app_nil_r. done.
  - assert (len (c :: cs) = len cs + 1) as Hlc by (unfold len; simpl; lia).
    pose proof (len_nonneg cs). rewrite Hlc in *.
    destruct (exec_record_ok cap st ds c Hst ltac:(lia)) as (st1 & H1 & Hst1).
    assert (len (ds ++ [c]) = len ds + 1) as Hds by (by rewrite len_app).
    destruct (IH st1 _ Hst1 ltac:(lia)) as (st2 & H2 & Hst2).
    exists st2. rewrite <-app_assoc in Hst2. split; [|done]. cbn [exec_run]. rewrite H1.
    cbn [mbind res_bind]. rewrite H2. cbn [mbind res_bind]. do 2 f_equal.
    rewrite Hds, (seqZ_cons (len ds)) by lia. f_equal. f_equal; lia.
Qed.

Lemma exec_new_hist w : is_u 32 w → exec_hist (Z.max (w / S) 1) (exec_new w) [].
Proof.
  intros Hw. split; [done|]. split; try done.
  - by apply core_new_holds.
  - by apply tracks_new.
  - by apply tracks_new.
  - split; try done; by left.
Qed.

(** ** Runs of stale cycles *)

(** [k] is the length of the last run, and of the longest run, of [true]. *)
Definition last_run (bs : list bool) (k : nat) : Prop :=
  (∃ pre, bs = pre ++ replicate k true)
  ∧ ∀ j pre, bs = pre ++ replicate j true → (j ≤ k)%nat.
Definition longest_run (bs : list bool) (k : nat) : Prop :=
  (∃ pre post, bs = pre ++ replicate k true ++ post)
  ∧ ∀ j pre post, bs = pre ++ replicate j true ++ post → (j ≤ k)%nat.

Lemma run_nil : last_run [] 0 ∧ longest_run [] 0.
Proof.
  split; split; try (exists []; done); try (by exists [], []).
  - intros j pre H. symmetry in H. apply app_nil in H as [_ H]. by destruct j.
  - intros j pre post H. symmetry in H. apply app_nil in H as [_ H].
    apply app_nil in H as [H _]. by destruct j.
Qed.

Lemma snoc_replicate (bs pre : list bool) b j :
  bs ++ [b] = pre ++ replicate j true → j = 0%nat ∨ b = true ∧ ∃ i, j = Datatypes.S i ∧ bs = pre ++ replicate i true.
Proof.
  destruct j as [|i]; [by left|]. rewrite replicate_S_end, app_assoc.
  intros [H1 H2]%app_inj_tail. right. split; [done|]. by exists i.
Qed.

Lemma last_run_snoc bs k b : last_run bs k →
  last_run (bs ++ [b]) (if b then Datatypes.S k else 0).
Proof.
  intros [[pre Hp] Hmax]. split.
  - destruct b; [|by exists (bs ++ [false]); rewrite app_nil_r].
    exists pre. by rewrite Hp, replicate_S_end, app_assoc.
  - intros j pre' [->|(-> & i & -> & Hi)]%snoc_replicate; [lia|].
    specialize (Hmax i pre' Hi). lia.
Qed.

Lemma longest_run_snoc bs k m b : last_run bs k → longest_run bs m →
  longest_run (bs ++ [b]) (if b then Nat.max m (Datatypes.S k) else m).
Proof.
  intros Hl [(pre & post & Hp) Hmax]. pose proof (last_run_snoc bs k b Hl) as [[pre' Hp'] Hmax'].
  split.
  - assert (∃ pre post, bs ++ [b] = pre ++ replicate m true ++ post) as Hold
      by (exists pre, (post ++ [b]); by rewrite Hp, <-!app_assoc).
    destruct b; [|done].
    destruct (Nat.max_spec m (Datatypes.S k)) as [[_ ->]|[_ ->]]; [|done].
    exists pre', []. by rewrite app_nil_r.
  - intros j q q' Hj. destruct q' as [|y q' _] using rev_ind.
    + rewrite app_nil_r in Hj. apply Hmax' in Hj. destruct b; lia.
    + rewrite !app_assoc in Hj. apply app_inj_tail in Hj as [Hj _].
      rewrite <-app_assoc in Hj. apply Hmax in Hj. destruct b; lia.
Qed.

(** ** The connector aggregator *)

Definition stale_of (i : nat) (cs : list ConnCycle) : list bool :=
  (λ c, default false (cc_stale c !! i)) <$> cs.
Definition misses (f : ConnCycle → bool) (cs : list ConnCycle) : Z :=
  len (filter (λ c, f c = false) cs).
Definition sum_of (xs : list Z) : Z := foldr Z.add 0 xs.

Record wire_reports (cap : Z) (s : ConnectorCycleSnapshot) (xs : list Z) : Prop := {
  wr_p50 : estimates cap xs 500 (wire_round_p50 s);
  wr_p95 : estimates cap xs 950 (wire_round_p95 s);
  wr_p99 : estimates cap xs 990 (wire_round_p99 s);
  wr_min : wire_round_min s = window_min xs;
  wr_max : wire_round_max s = window_max xs;
}.
Definition conn_reports (cap : Z) (s : ConnectorCycleSnapshot) (cs : list ConnCycle) : Prop :=
  wire_reports cap s (omap cc_wire cs)
  ∧ phase_wait_min s = window_min (omap cc_phase cs)
  ∧ phase_wait_mean s
    = Z.min (2 ^ 64 - 1) (sum_of (omap cc_phase cs)) / len (omap cc_phase cs)
  ∧ wc_mismatch_count s = misses cc_wc_ok cs
  ∧ not_all_fresh_count s = misses cc_all_fresh cs
  ∧ length (per_device_max_stale s) = N
  ∧ ∀ i m, per_device_max_stale s !! i = Some m →
      ∃ k, longest_run (stale_of i cs) k ∧ m = Z.min (2 ^ 32 - 1) (Z.of_nat k).

Record conn_inv (cap : Z) (st : ConnectorCycleStats) (ws ps : list Z) : Prop := {
  cn_wire : core_holds cap (wire_round st) ws;
  cn_phase : tracks W (phase_wait st) ps;
  cn_sum : phase_wait_sum st = Z.min (2 ^ 64 - 1) (sum_of ps);
  cn_count : phase_wait_count st = len ps;
  cn_nonneg : Forall (λ x, 0 ≤ x) ps;
  cn_rep : wire_reports cap (conn_published st) ws;
  cn_min : phase_wait_min (conn_published st) = window_min ps;
  cn_mean : phase_wait_mean (conn_published st) = Z.min (2 ^ 64 - 1) (sum_of ps) / len ps;
}.

(** What the duration stages leave alone. *)
Definition same_quality (st st' : ConnectorCycleStats) : Prop :=
  conn_cycle_index st' = conn_cycle_index st
  ∧ per_device_stale_run st' = per_device_stale_run st
  ∧ wc_mismatch_count (conn_published st') = wc_mismatch_count (conn_published st)
  ∧ not_all_fresh_count (conn_published st') = not_all_fresh_count (conn_published st)
  ∧ per_device_max_stale (conn_published st') = per_device_max_stale (conn_published st).

Lemma conn_wire_stage cap st ws ps o : conn_inv cap st ws ps → len ws + 1 < 2 ^ 64 →
  ∃ st', record_opt conn_wire st o = Ok st' ∧ conn_inv cap st' (extend ws o) ps
    ∧ same_quality st st'.
Proof.
  intros [H1 H2 H3 H4 H5 H6 H7 H8] Hb. destruct o as [x|]; [|by exists st].
  destruct (core_publish cap _ _ x H1 Hb)
    as (c' & a & b & d & Hrec & Hc' & H50 & E50 & H95 & E95 & H99 & E99 & Hmin & Hmax).
  cbn [record_opt]. unfold conn_wire. rewrite Hrec. cbn [mbind res_bind].
  rewrite H50, H95, H99, Hmin, Hmax. cbn [mbind res_bind]. eexists. split; [done|].
  split; [|done]. by split.
Qed.

Lemma sum_of_snoc xs x : sum_of (xs ++ [x]) = sum_of xs + x.
Proof. unfold sum_of. induction xs as [|y xs IH]; simpl; lia. Qed.

Lemma conn_phase_stage cap st ws ps o : conn_inv cap st ws ps → len ps + 1 < 2 ^ 64 →
  (∀ x, o = Some x → 0 ≤ x) →
  ∃ st', record_opt conn_phase st o = Ok st' ∧ conn_inv cap st' ws (extend ps o)
    ∧ same_quality st st'.
Proof.
  intros [H1 H2 H3 H4 H5 H6 H7 H8] Hb Hx. destruct o as [x|]; [|by exists st].
  specialize (Hx x eq_refl).
  destruct (deque_publish _ _ x H2 Hb) as (d' & Hrec & Hd' & Hmin & _).
  cbn [record_opt]. unfold conn_phase. rewrite Hrec. cbn [mbind res_bind].
  rewrite H4, (proj2 (Z.leb_gt _ _)) by done. rewrite Hmin. cbn [mbind res_bind].
  assert (0 ≤ sum_of ps) as Hs
    by (clear -H5; unfold sum_of; induction H5; simpl; lia).
  assert (sat_add 64 (phase_wait_sum st) x = Z.min (2 ^ 64 - 1) (sum_of (ps ++ [x]))) as Hsum.
  { rewrite sum_of_snoc, H3. unfold sat_add. lia. }
  rewrite Hsum. assert (len ps + 1 = len (ps ++ [x])) as Hlen by (by rewrite len_app).
  rewrite Hlen. eexists. split; [done|]. split; [|done]. cbn [extend].
  split; try done; [|by destruct H6; split]. apply Forall_app. by repeat constructor.
Qed.

(** The quality counters and the stale runs, device by device. *)
Record quality (st : ConnectorCycleStats) (cs : list ConnCycle) : Prop := {
  qu_wc : wc_mismatch_count (conn_published st) = misses cc_wc_ok cs;
  qu_fresh : not_all_fresh_count (conn_published st) = misses cc_all_fresh cs;
  qu_runs : length (per_device_stale_run st) = N;
  qu_maxs : length (per_device_max_stale (conn_published st)) = N;
  qu_run : ∀ i r, per_device_stale_run st !! i = Some r →
    ∃ k, last_run (stale_of i cs) k ∧ r = Z.min (2 ^ 32 - 1) (Z.of_nat k);
  qu_max : ∀ i m, per_device_max_stale (conn_published st) !! i = Some m →
    ∃ k, longest_run (stale_of i cs) k ∧ m = Z.min (2 ^ 32 - 1) (Z.of_nat k);
}.

Lemma stale_loop_spec stale runs maxs : length runs = length stale → length maxs = length stale →
  let '(runs', maxs') := stale_loop stale runs maxs in
  length runs' = length stale ∧ length maxs' = length stale
  ∧ ∀ i (b : bool) r m, stale !! i = Some b → runs !! i = Some r → maxs !! i = Some m →
      runs' !! i = Some (if b then sat_add 32 r 1 else 0)
      ∧ maxs' !! i = Some (if b then Z.max m (sat_add 32 r 1) else m).
Proof.
  revert runs maxs. induction stale as [|b stale IH]; intros runs maxs Hr Hm.
  { destruct runs, maxs; try done. }
  destruct runs as [|r runs]; [done|]. destruct maxs as [|m maxs]; [done|]. cbn [stale_loop].
  specialize (IH runs maxs ltac:(simpl in *; lia) ltac:(simpl in *; lia)).
  destruct (stale_loop stale runs maxs) as [runs' maxs']. destruct IH as (H1 & H2 & H3).
  destruct b; (split_and!; [simpl; lia|simpl; lia|]); intros [|i] b' r' m' Hb Hr' Hm'; simpl in *;
    try (by eapply H3); simplify_eq; (split; [done|]); [|done].
  do 2 f_equal. destruct (Z.ltb_spec m' (sat_add 32 r' 1)); lia.
Qed.

Lemma misses_snoc f cs c : misses f (cs ++ [c]) = misses f cs + (if f c then 0 else 1).
Proof.
  unfold misses. rewrite filter_app, len_app, filter_cons. destruct (f c); case_decide; done.
Qed.
Lemma misses_le f cs : 0 ≤ misses f cs ≤ len cs.
Proof. unfold misses, len. pose proof (length_filter (λ c, f c = false) cs). lia. Qed.

Lemma quality_step st cs c : quality st cs → length (cc_stale c) = N → len cs + 1 < 2 ^ 64 →
  quality (conn_quality st c) (cs ++ [c]).
Proof.
  intros [Q1 Q2 Q3 Q4 Q5 Q6] Hst Hl. unfold conn_quality.
  pose proof (stale_loop_spec (cc_stale c) (per_device_stale_run st)
    (per_device_max_stale (conn_published st)) ltac:(lia) ltac:(lia)) as Hloop.
  destruct (stale_loop _ _ _) as [runs' maxs']. destruct Hloop as (L1 & L2 & L3).
  pose proof (misses_le cc_wc_ok cs) as B1. pose proof (misses_le cc_all_fresh cs) as B2.
  assert (∀ i, (i < N)%nat → ∃ (b : bool) r m k j, cc_stale c !! i = Some b
    ∧ last_run (stale_of i cs) k ∧ r = Z.min (2 ^ 32 - 1) (Z.of_nat k)
    ∧ longest_run (stale_of i cs) j ∧ m = Z.min (2 ^ 32 - 1) (Z.of_nat j)
    ∧ runs' !! i = Some (if b then sat_add 32 r 1 else 0)
    ∧ maxs' !! i = Some (if b then Z.max m (sat_add 32 r 1) else m)
    ∧ stale_of i (cs ++ [c]) = stale_of i cs ++ [b]) as Hdev.
  { intros i Hi. destruct (lookup_lt_is_Some_2 (cc_stale c) i) as [b Hb]; [lia|].
    destruct (lookup_lt_is_Some_2 (per_device_stale_run st) i) as [r Hr]; [lia|].
    destruct (lookup_lt_is_Some_2 (per_device_max_stale (conn_published st)) i) as [m Hm]; [lia|].
    destruct (Q5 i r Hr) as (k & Hk & Hrk). destruct (Q6 i m Hm) as (j & Hj & Hmj).
    destruct (L3 i b r m Hb Hr Hm) as [E1 E2]. exists b, r, m, k, j.
    split_and!; try done. unfold stale_of. rewrite fmap_app. simpl. by rewrite Hb. }
  split; cbn [conn_published wc_mismatch_count not_all_fresh_count per_device_stale_run per_device_max_stale].
  - rewrite misses_snoc, Q1. destruct (cc_wc_ok c); [lia|]. rewrite wrap_small; lia.
  - rewrite misses_snoc, Q2. destruct (cc_all_fresh c); [lia|]. rewrite wrap_small; lia.
  - lia.
  - lia.
  - intros i x Hx. destruct (Hdev i) as (b & r & m & k & j & _ & Hk & Hr & _ & _ & E1 & _ & ->).
    { apply lookup_lt_Some in Hx. lia. }
    rewrite E1 in Hx. injection Hx as <-. exists (if b then Datatypes.S k else 0%nat).
    split; [by apply last_run_snoc|]. destruct b; [|done]. unfold sat_add. lia.
  - intros i x Hx. destruct (Hdev i) as (b & r & m & k & j & _ & Hk & Hr & Hj & Hm & _ & E2 & ->).
    { apply lookup_lt_Some in Hx. lia. }
    rewrite E2 in Hx. injection Hx as <-.
    exists (if b then Nat.max j (Datatypes.S k) else j).
    split; [by apply longest_run_snoc|]. destruct b; [|done]. unfold sat_add. lia.
Qed.

(** Well-formed cycles: one flag per device, unsigned phase waits. *)
Definition wf_cycle (c : ConnCycle) : Prop :=
  length (cc_stale c) = N ∧ ∀ x, cc_phase c = Some x → is_u 32 x.

Definition conn_hist (cap : Z) (st : ConnectorCycleStats) (cs : list ConnCycle) : Prop :=
  conn_cycle_index st = len cs ∧ conn_inv cap st (omap cc_wire cs) (omap cc_phase cs)
  ∧ quality st cs.

Lemma conn_record_ok cap st cs c : conn_hist cap st cs → wf_cycle c → len cs + 1 < 2 ^ 64 →
  ∃ st', conn_record_cycle st c = Ok (st', len cs) ∧ conn_hist cap st' (cs ++ [c]).
Proof.
  intros (Hi & Hinv & Hq) [Hst Hph] Hl. unfold conn_record_cycle.
  rewrite Hi, (proj2 (Z.leb_gt _ _)) by done. set (st0 := MkConn _ _ _ _ _ _ _).
  assert (conn_inv cap st0 (omap cc_wire cs) (omap cc_phase cs)) as H0
    by (by destruct Hinv; split).
  pose proof (len_omap cc_wire cs) as Lw. pose proof (len_omap cc_phase cs) as Lp.
  destruct (conn_wire_stage cap st0 _ _ (cc_wire c) H0 ltac:(lia)) as (st1 & -> & H1 & S1).
  cbn [mbind res_bind].
  destruct (conn_phase_stage cap st1 _ _ (cc_phase c) H1 ltac:(lia)) as (st2 & -> & H2 & S2).
  { intros x Hx. by destruct (Hph x Hx). }
  cbn [mbind res_bind]. eexists. split; [done|].
  destruct S1 as (A1 & A2 & A3 & A4 & A5). destruct S2 as (B1 & B2 & B3 & B4 & B5).
  assert (quality st2 cs) as Hq2.
  { destruct Hq as [Q1 Q2 Q3 Q4 Q5 Q6].
    by split; rewrite ?B2, ?B3, ?B4, ?B5, ?A2, ?A3, ?A4, ?A5. }
  split_and!.
  - rewrite len_app. unfold conn_quality. destruct (stale_loop _ _ _). simpl. rewrite B1, A1. done.
  - rewrite !omap_extend. unfold conn_quality. destruct (stale_loop _ _ _).
    destruct H2 as [? ? ? ? ? [? ? ? ? ?] ? ?]. split; try done; by split.
  - by apply quality_step.
Qed.

Lemma conn_run_ok cap cs : Forall wf_cycle cs → ∀ st ds, conn_hist cap st ds →
  len ds + len cs < 2 ^ 64 →
  ∃ st', conn_run st cs = Ok (st', seqZ (len ds) (len cs)) ∧ conn_hist cap st' (ds ++ cs).
Proof.
  induction 1 as [|c cs Hc _ IH]; intros st ds Hst Hl.
  - exists st. rewrite app_nil_r. done.
  - assert (len (c :: cs) = len cs + 1) as Hlc by (unfold len; simpl; lia).
    pose proof (len_nonneg cs). rewrite Hlc in *.
    destruct (conn_record_ok cap st ds c Hst Hc ltac:(lia)) as (st1 & H1 & Hst1).
    assert (len (ds ++ [c]) = len ds + 1) as Hds by (by rewrite len_app).
    destruct (IH st1 _ Hst1 ltac:(lia)) as (st2 & H2 & Hst2).
    exists st2. rewrite <-app_assoc in Hst2. split; [|done]. cbn [conn_run]. rewrite H1.
    cbn [mbind res_bind]. rewrite H2. cbn [mbind res_bind]. do 2 f_equal.
    rewrite Hds, (seqZ_cons (len ds)) by lia. f_equal. f_equal; lia.
Qed.

Lemma conn_new_hist w : is_u 32 w → conn_hist (Z.max (w / S) 1) (conn_new w) [].
Proof.
  intros Hw. split; [done|]. split.
  - split; try done; [by apply core_new_holds|by apply tracks_new|].
    split; try done; by left.
  - destruct run_nil as [R1 R2].
    split; try done; cbn; try by rewrite length_replicate.
    + intros i r [-> _]%lookup_replicate_1. by exists 0%nat.
    + intros i m [-> _]%lookup_replicate_1. by exists 0%nat.
Qed.
End stats.

(** The executor's published snapshot: for every history of cycles, faulted
    ones included, recording never panics, numbers the cycles consecutively, and
    the snapshot reports of the measured samples alone the exact minimum and
    maximum of the last [W] durations, the exact maximum jitter and lateness
    magnitude of the last [W] samples of each, and as percentiles the centroids
    of the buckets of the exact percentiles of the histogram window. *)
Theorem exec_snapshot_exact S W w cs :
  0 < S ≤ 2 ^ 16 → 0 < W → is_u 32 w → len cs < 2 ^ 64 →
  ∃ st, exec_run S W (exec_new S W w) cs = Ok (st, seqZ 0 (len cs))
    ∧ exec_reports S W (Z.max (w / S) 1) (exec_snapshot st) cs.
Proof.
  intros HS HW Hw Hl.
  destruct (exec_run_ok S W HS HW _ cs _ [] (exec_new_hist S W HS HW w Hw)) as (st & Hr & _ & [? ? ? ? ? ?]).
  { exact Hl. }
  exists st. split; [exact Hr|]. by split_and!.
Qed.

Lemma exec_snapshot_exact_witness :
  ∃ st, exec_run 2 3 (exec_new 2 3 8)
          [MkExecCycle (Some 500) (Some 20) (Some (-7)); MkExecCycle None None None;
           MkExecCycle (Some 900) (Some 4) (Some 3)] = Ok (st, [0; 1; 2])
    ∧ exec_reports 2 3 4 (exec_snapshot st)
          [MkExecCycle (Some 500) (Some 20) (Some (-7)); MkExecCycle None None None;
           MkExecCycle (Some 900) (Some 4) (Some 3)].
Proof.
  apply (exec_snapshot_exact 2 3 8).
  - lia.
  - lia.
  - split; lia.
  - vm_compute. reflexivity.
Defined.

(** The connector's published snapshot: for every history of cycles, faulted
    ones included, recording never panics, numbers the cycles consecutively, and
    the snapshot reports the exact extremes and estimated percentiles of the
    measured wire rounds, the exact minimum and the mean of the phase waits, the
    number of cycles with a working-counter mismatch and with a device not
    fresh, and for every device its longest run of consecutive stale cycles. *)
Theorem conn_snapshot_exact S W N w cs :
  0 < S ≤ 2 ^ 16 → 0 < W → is_u 32 w → len cs < 2 ^ 64 → Forall (wf_cycle N) cs →
  ∃ st, conn_run S W (conn_new S W N w) cs = Ok (st, seqZ 0 (len cs))
    ∧ conn_reports S W N (Z.max (w / S) 1) (conn_snapshot st) cs.
Proof.
  intros HS HW Hw Hl Hcs.
  destruct (conn_run_ok S W N HS HW _ cs Hcs _ [] (conn_new_hist S W N HS HW w Hw))
    as (st & Hr & _ & [? ? ? ? ? ? ? ?] & [? ? ? ? ? ?]); [exact Hl|].
  exists st. split; [exact Hr|]. by split_and!.
Qed.

Lemma conn_snapshot_exact_witness :
  ∃ st, conn_run 2 3 (conn_new 2 3 2 8)
          [MkConnCycle (Some 500) (Some 20) true true [true; false];
           MkConnCycle None None false false [true; true];
           MkConnCycle (Some 900) (Some 4) true true [false; true]] = Ok (st, [0; 1; 2])
    ∧ conn_reports 2 3 2 4 (conn_snapshot st)
          [MkConnCycle (Some 500) (Some 20) true true [true; false];
           MkConnCycle None None false false [true; true];
           MkConnCycle (Some 900) (Some 4) true true [false; true]].
Proof.
  apply (conn_snapshot_exact 2 3 2 8).
  - lia.
  - lia.
  - split; lia.
  - vm_compute. reflexivity.
  - repeat (apply Forall_cons_2; [split; [reflexivity|intros x Hx; simpl in Hx; simplify_eq; split; lia]|]).
    apply Forall_nil_2.
Defined.
End StatsCycle.
