(* ===== verification/ExecGrid.v ===== *)
(** * The absolute cycle grid of the executor

    Models [taktora-executor/src/grid.rs]: the [GridTimer] that decides which
    cyclic tasks are due at a wake, the sleep it asks for, and the base tick of
    the master timer.  Times are nanoseconds in [u64]; a [Duration] is its number
    of nanoseconds.

    The reference of a task with period [p] is its grid [epoch + k * p]: the
    theorems show that the timer, whose state is one target, one carry and one
    flag per task, dispatches a task at exactly the wakes that pass a new grid
    point, accounts for every point it does not serve, and never drifts. *)

From stdpp Require Import base list sets.
From Stdlib Require Import ZArith Lia Znumtheory.
From S2P Require Import Prelude.

Module ExecGrid.

Inductive DispatchMode := Grid | Legacy.
#[export] Instance DispatchMode_eq_dec : EqDecision DispatchMode.
Proof. solve_decision. Defined.

(** [saturating_mul] of [u64]. *)
Definition sat_mul (w a b : Z) : Z := Z.min (2 ^ w - 1) (a * b).

(** [Duration::MAX], in nanoseconds. *)
Definition DURATION_MAX : Z := (2 ^ 64 - 1) * 1000000000 + 999999999.

Record GridTimer := MkGrid {
  epoch : Z;
  period_ns : list Z;
  next : list Z;
  carry : list Z;
  served : list bool;
}.

Definition grid_new (epoch : Z) (periods : list Z) : GridTimer :=
  MkGrid epoch periods ((λ p, sat_add 64 epoch p) <$> periods)
    (replicate (length periods) 0) (replicate (length periods) false).

(** [iter().copied().min()]. *)
Definition min_of (l : list Z) : option Z :=
  match l with [] => None | x :: l => Some (foldl Z.min x l) end.

Definition next_timeout (g : GridTimer) (now : Z) : Z :=
  match min_of (next g) with
  | None => DURATION_MAX
  | Some earliest => sat_sub earliest now
  end.

(** A due entry: task, consumed carry, lateness past the slot. *)
Definition Due : Type := nat * Z * Z.

(** The body of the loop of [take_due] for index [i]. *)
Definition take_due_at (now : Z) (g : GridTimer) (i : nat) : res (GridTimer * list Due) :=
  nxt ← expect (next g !! i);
  if nxt <=? now then
    c ← expect (carry g !! i);
    let cs := <[i := 0]> (carry g) in
    p ← expect (period_ns g !! i);
    if p =? 0 then Ok (MkGrid (epoch g) (period_ns g) (next g) cs (served g), [(i, c, 0)])
    else
      let stepped := sat_add 64 nxt p in
      '(nxt', cs) ← (if now <? stepped then Ok (stepped, cs)
         else
           let slots_passed := sat_sub now (epoch g) / p in
           let snapped := sat_add 64 (epoch g) (sat_mul 64 (sat_add 64 slots_passed 1) p) in
           s ← expect (served g !! i);
           Ok (snapped, if (s : bool) then <[i := sat_sub snapped stepped / p]> cs else cs));
      let late_by := sat_sub now (sat_sub nxt' p) in
      Ok (MkGrid (epoch g) (period_ns g) (<[i := nxt']> (next g)) cs (<[i := true]> (served g)),
          [(i, c, late_by)])
  else Ok (g, []).

Fixpoint take_due_loop (now : Z) (g : GridTimer) (ixs : list nat) : res (GridTimer * list Due) :=
  match ixs with
  | [] => Ok (g, [])
  | i :: ixs =>
      '(g, d) ← take_due_at now g i;
      '(g, ds) ← take_due_loop now g ixs;
      Ok (g, d ++ ds)
  end.

Definition take_due (g : GridTimer) (now : Z) : res (GridTimer * list Due) :=
  take_due_loop now g (seq 0 (length (next g))).

(** Euclid's recursion; [a % b] of [u64]. *)
Fixpoint gcd (fuel : nat) (a b : Z) : res Z :=
  match fuel with
  | O => Panic
  | S fuel => if b =? 0 then Ok a else gcd fuel b (a mod b)
  end.

(** Enough for any two [u64]: each two steps halve the remainder. *)
Definition GCD_FUEL : nat := 130.

Definition base_period (periods : list Z) : res Z :=
  foldl (λ acc p, a ← acc; gcd GCD_FUEL a p) (Ok 0) (filter (λ p, p ≠ 0) periods).

(** ** One task of the timer *)

(** The fields of task [i]. *)
Record Slot := MkSlot { s_period : Z; s_next : Z; s_carry : Z; s_served : bool }.

Definition slot_at (g : GridTimer) (i : nat) : option Slot :=
  p ← period_ns g !! i; n ← next g !! i; c ← carry g !! i; s ← served g !! i;
  Some (MkSlot p n c s).

(** What a wake at [now] does to the fields of one task. *)
Definition slot_step (ep now : Z) (s : Slot) : Slot * option (Z * Z) :=
  if s_next s <=? now then
    let p := s_period s in
    let stepped := s_next s + p in
    let nxt := if now <? stepped then stepped else ep + ((now - ep) / p + 1) * p in
    let c := if (now <? stepped) || negb (s_served s) then 0 else (nxt - stepped) / p in
    (MkSlot p nxt c true, Some (s_carry s, now - (nxt - p)))
  else (s, None).

(** The entry of task [i] in a due list. *)
Definition entry (i : nat) (d : option (Z * Z)) : list Due :=
  match d with Some (c, l) => [(i, c, l)] | None => [] end.

(** Well-formed timers: four vectors of one length, positive periods, every
    target a grid point after the epoch. *)
Definition grid_ok (g : GridTimer) : Prop :=
  length (next g) = length (period_ns g) ∧ length (carry g) = length (period_ns g) ∧
  length (served g) = length (period_ns g) ∧ 0 ≤ epoch g ∧
  ∀ i s, slot_at g i = Some s →
    0 < s_period s ∧ 0 ≤ s_carry s ∧
    ∃ k, 1 ≤ k ∧ s_next s = epoch g + k * s_period s.

(** A wake after which every target is still a [u64]. *)
Definition fits (g : GridTimer) (now : Z) : Prop :=
  epoch g ≤ now ∧ Forall (λ p, now + p < 2 ^ 64) (period_ns g).

Lemma sat_add_small a b : a + b < 2 ^ 64 → sat_add 64 a b = a + b.
Proof. unfold sat_add. lia. Qed.
Lemma sat_sub_small a b : b ≤ a → sat_sub a b = a - b.
Proof. unfold sat_sub. lia. Qed.
Lemma sat_mul_small a b : a * b < 2 ^ 64 → sat_mul 64 a b = a * b.
Proof. unfold sat_mul. lia. Qed.

Lemma slot_at_Some g i p n c s :
  period_ns g !! i = Some p → next g !! i = Some n → carry g !! i = Some c →
  served g !! i = Some s → slot_at g i = Some (MkSlot p n c s).
Proof. unfold slot_at. by intros -> -> -> ->. Qed.
Lemma slot_at_inv g i s : slot_at g i = Some s →
  period_ns g !! i = Some (s_period s) ∧ next g !! i = Some (s_next s) ∧
  carry g !! i = Some (s_carry s) ∧ served g !! i = Some (s_served s).
Proof.
  unfold slot_at. intros H. destruct (period_ns g !! i), (next g !! i),
    (carry g !! i), (served g !! i); naive_solver.
Qed.

(** The grid point after [now]. *)
Lemma snap_bounds ep now p : 0 < p → ep ≤ now →
  now < ep + ((now - ep) / p + 1) * p ≤ now + p.
Proof.
  intros Hp He. pose proof (Z.div_mod (now - ep) p ltac:(lia)).
  pose proof (Z.mod_pos_bound (now - ep) p Hp). nia.
Qed.

Lemma slot_at_lt g i : grid_ok g → (i < length (next g))%nat → is_Some (slot_at g i).
Proof.
  intros (Hn & Hc & Hs & _) Hi.
  destruct (lookup_lt_is_Some_2 (period_ns g) i) as [p Hp]; [lia|].
  destruct (lookup_lt_is_Some_2 (next g) i) as [n Hn']; [lia|].
  destruct (lookup_lt_is_Some_2 (carry g) i) as [c Hc']; [lia|].
  destruct (lookup_lt_is_Some_2 (served g) i) as [s Hs']; [lia|].
  eexists. by apply slot_at_Some.
Qed.

(** ** The loop body is the slot step *)

(** Timer [g] with the fields of task [i] replaced. *)
Definition put (g : GridTimer) (i : nat) (s : Slot) : GridTimer :=
  MkGrid (epoch g) (period_ns g) (<[i := s_next s]> (next g)) (<[i := s_carry s]> (carry g))
    (<[i := s_served s]> (served g)).

Lemma put_same g i s : slot_at g i = Some s → put g i s = g.
Proof.
  intros (Hp & Hn & Hc & Hs)%slot_at_inv. unfold put.
  rewrite !list_insert_id by done. by destruct g.
Qed.

Lemma take_due_at_step g i now s : grid_ok g → fits g now → slot_at g i = Some s →
  take_due_at now g i =
    Ok (put g i (slot_step (epoch g) now s).1, entry i (slot_step (epoch g) now s).2).
Proof.
  intros Hg [He Hf] Hs. pose proof (slot_at_inv g i s Hs) as (Hp & Hn & Hc & Hv).
  destruct Hg as (_ & _ & _ & Hep & Hg). destruct (Hg i s Hs) as (Hpos & Hcar & k & Hk & Hnk).
  rewrite Forall_lookup in Hf. pose proof (Hf i _ Hp) as Hfit. simpl in Hfit.
  pose proof (snap_bounds (epoch g) now (s_period s) Hpos He) as Hsnap.
  unfold take_due_at, slot_step. rewrite Hn. cbn [expect mbind res_bind].
  destruct (Z.leb_spec (s_next s) now) as [Hdue|Hdue]; [|by rewrite put_same].
  rewrite Hc, Hp. cbn [expect mbind res_bind].
  destruct (Z.eqb_spec (s_period s) 0) as [?|_]; [lia|].
  rewrite sat_add_small by lia.
  destruct (Z.ltb_spec now (s_next s + s_period s)) as [Hlt|Hge]; cbn [mbind res_bind orb].
  - rewrite !sat_sub_small by (rewrite ?sat_sub_small; lia). reflexivity.
  - rewrite Hv. cbn [expect mbind res_bind].
    rewrite (sat_sub_small now) by lia.
    set (q := (now - epoch g) / s_period s) in *.
    assert (0 ≤ q) by (apply Z.div_pos; lia).
    assert (epoch g + (q + 1) * s_period s < 2 ^ 64) by lia.
    assert (sat_add 64 q 1 = q + 1) as -> by (apply sat_add_small; nia).
    assert (sat_mul 64 (q + 1) (s_period s) = (q + 1) * s_period s) as ->
      by (apply sat_mul_small; nia).
    rewrite sat_add_small by lia.
    rewrite !sat_sub_small by (rewrite ?sat_sub_small; nia).
    unfold put. destruct (s_served s); cbn [negb s_next s_carry s_served fst snd entry];
      rewrite ?list_insert_insert_eq; reflexivity.
Qed.

Lemma slot_step_ok ep now s : ep ≤ now →
  0 < s_period s → 0 ≤ s_carry s → (∃ k, 1 ≤ k ∧ s_next s = ep + k * s_period s) →
  let s' := (slot_step ep now s).1 in
  s_period s' = s_period s ∧ 0 ≤ s_carry s' ∧ ∃ k, 1 ≤ k ∧ s_next s' = ep + k * s_period s.
Proof.
  intros He Hp Hc (k & Hk & Hn). unfold slot_step.
  destruct (Z.leb_spec (s_next s) now); cbn [fst s_period s_carry s_next]; [|eauto].
  pose proof (snap_bounds ep now (s_period s) Hp He).
  split; [done|]. destruct (Z.ltb_spec now (s_next s + s_period s)); cbn [orb].
  - split; [lia|]. exists (k + 1). lia.
  - split; [destruct (s_served s); cbn [negb]; [apply Z.div_pos|]; lia|].
    exists ((now - ep) / s_period s + 1). pose proof (Z.div_pos (now - ep) (s_period s)). lia.
Qed.

Lemma slot_at_put g i j s s0 : slot_at g i = Some s0 → s_period s = s_period s0 →
  slot_at (put g i s) j = if decide (j = i) then Some s else slot_at g j.
Proof.
  intros Hs Hp. pose proof (slot_at_inv g i s0 Hs) as (Hp0 & Hn & Hc & Hv).
  case_decide as E; [subst j|].
  - destruct s. apply slot_at_Some; simpl in *; [congruence|..];
      apply list_lookup_insert_eq; by eapply lookup_lt_Some.
  - unfold slot_at, put. simpl. by rewrite !list_lookup_insert_ne by done.
Qed.

Lemma put_ok g i now s : grid_ok g → epoch g ≤ now → slot_at g i = Some s →
  grid_ok (put g i (slot_step (epoch g) now s).1).
Proof.
  intros Hg He Hs. pose proof Hg as (Hn & Hc & Hv & Hep & Hok).
  destruct (Hok i s Hs) as (Hp & Hcar & Hk).
  destruct (slot_step_ok (epoch g) now s He Hp Hcar Hk) as (Hp' & Hc' & Hk').
  split_and!; simpl; rewrite ?length_insert; try done.
  intros j s' Hj. erewrite slot_at_put in Hj by eauto. case_decide; [|by eauto].
  injection Hj as <-. rewrite Hp'. eauto.
Qed.

(** The due entry of task [i] in timer [g]. *)
Definition due_of (g : GridTimer) (now : Z) (i : nat) : list Due :=
  match slot_at g i with Some s => entry i (slot_step (epoch g) now s).2 | None => [] end.
(** [g] and [g'] differ by a step of the tasks in [ixs]. *)
Definition stepped_on (g g' : GridTimer) (now : Z) (ixs : list nat) : Prop :=
  epoch g' = epoch g ∧ period_ns g' = period_ns g ∧
  ∀ j, slot_at g' j =
    if decide (j ∈ ixs) then (λ s, (slot_step (epoch g) now s).1) <$> slot_at g j
    else slot_at g j.

Lemma take_due_loop_step now ixs : NoDup ixs → ∀ g, grid_ok g → fits g now →
  Forall (λ i, is_Some (slot_at g i)) ixs →
  ∃ g', take_due_loop now g ixs = Ok (g', ixs ≫= due_of g now) ∧ grid_ok g' ∧
    stepped_on g g' now ixs.
Proof.
  induction 1 as [|i ixs Hi _ IH]; intros g Hg Hf Hall.
  { exists g. split_and!; [done|done|]. split_and!; [done|done|]. intros j.
    case_decide; [set_solver|done]. }
  apply Forall_cons in Hall as [[s Hs] Hall]. pose proof (proj1 Hf) as He.
  pose proof Hg as (_ & _ & _ & _ & Hok). destruct (Hok i s Hs) as (Hp & Hc & Hk).
  destruct (slot_step_ok (epoch g) now s He Hp Hc Hk) as (Hp' & _).
  pose proof (λ j, slot_at_put g i j _ s Hs Hp') as Hput.
  set (g1 := put g i (slot_step (epoch g) now s).1) in *.
  assert (ixs ≫= due_of g1 now = ixs ≫= due_of g now) as Hdue.
  { clear -Hput Hi. induction ixs as [|j ixs IH]; [done|].
    rewrite !bind_cons, IH by set_solver. f_equal. unfold due_of. rewrite Hput.
    rewrite decide_False by set_solver. done. }
  destruct (IH g1) as (g' & Hl & Hg' & He' & Hp'' & Hj).
  { by apply put_ok. }
  { done. }
  { eapply Forall_impl; [exact Hall|]. intros j Hj. rewrite Hput. case_decide; eauto. }
  exists g'. split_and!; [|done|].
  - simpl. rewrite (take_due_at_step g i now s) by done. cbn [mbind res_bind].
    fold g1. rewrite Hl, Hdue. cbn [mbind res_bind]. do 3 f_equal.
    unfold due_of. by rewrite Hs.
  - split_and!; [done|done|]. intros j. rewrite Hj, Hput. simpl.
    destruct (decide (j = i)) as [->|Hne].
    + rewrite decide_False by done. rewrite decide_True by set_solver. by rewrite Hs.
    + destruct (decide (j ∈ ixs)); [rewrite decide_True by set_solver; done|].
      rewrite decide_False by set_solver. done.
Qed.

Lemma take_due_step g now : grid_ok g → fits g now →
  ∃ g', take_due g now = Ok (g', seq 0 (length (period_ns g)) ≫= due_of g now) ∧ grid_ok g' ∧
    stepped_on g g' now (seq 0 (length (period_ns g))).
Proof.
  intros Hg Hf. unfold take_due. pose proof Hg as (Hn & _). rewrite Hn.
  apply take_due_loop_step; [apply NoDup_seq|done..|].
  apply Forall_forall. intros i [? Hi]%elem_of_seq. apply slot_at_lt; [done|lia].
Qed.

(** ** The reference: a task's grid points, one by one *)

(** Grid points passed at [now]. *)
Definition passed (ep p now : Z) : Z := (now - ep) / p.

(** [r_last]: points passed when the task was last examined; [r_slot]: the slot
    its last dispatch served, if it was dispatched. *)
Record RefTask := MkRef { r_last : Z; r_slot : option Z }.
Definition ref_new : RefTask := MkRef 0 None.

(** A wake that passed a new grid point dispatches the task once.  The first
    dispatch serves the last point passed; a later one serves the point after
    those already passed, and reports how many points lie between this slot and
    the one served before.  Its lateness is counted from the last point passed. *)
Definition ref_step (ep p now : Z) (r : RefTask) : RefTask * option (Z * Z) :=
  let q := passed ep p now in
  if r_last r <? q then
    let slot := match r_slot r with None => q | Some _ => r_last r + 1 end in
    let skipped := match r_slot r with None => 0 | Some s0 => slot - s0 - 1 end in
    (MkRef q (Some slot), Some (skipped, (now - ep) mod p))
  else (r, None).

Definition ref_run (ep now : Z) (periods : list Z) (rs : list RefTask) : list RefTask :=
  zip_with (λ p r, (ref_step ep p now r).1) periods rs.
Definition ref_due (ep now : Z) (periods : list Z) (rs : list RefTask) : list Due :=
  seq 0 (length periods) ≫= λ i,
    match periods !! i, rs !! i with
    | Some p, Some r => entry i (ref_step ep p now r).2
    | _, _ => []
    end.

(** The fields of a task represent its reference. *)
Definition slot_ref (ep : Z) (s : Slot) (r : RefTask) : Prop :=
  0 ≤ r_last r ∧ s_next s = ep + (r_last r + 1) * s_period s ∧
  match r_slot r with
  | None => s_served s = false ∧ s_carry s = 0
  | Some s0 => s_served s = true ∧ s_carry s = r_last r - s0 ∧ s0 ≤ r_last r
  end.

Lemma slot_step_ref ep now s r : ep ≤ now → 0 < s_period s → slot_ref ep s r →
  slot_ref ep (slot_step ep now s).1 (ref_step ep (s_period s) now r).1 ∧
  (slot_step ep now s).2 = (ref_step ep (s_period s) now r).2.
Proof.
  intros He Hp (Hl & Hn & Hr). unfold slot_step, ref_step, passed.
  pose proof (snap_bounds ep now (s_period s) Hp He) as Hsn.
  pose proof (Z.div_mod (now - ep) (s_period s) ltac:(lia)) as Hdm.
  pose proof (Z.mod_pos_bound (now - ep) (s_period s) Hp) as Hm.
  set (q := (now - ep) / s_period s) in *. set (p := s_period s) in *.
  set (m := (now - ep) mod p) in *. set (last := r_last r) in *.
  destruct (Z.leb_spec (s_next s) now) as [Hd|Hd]; destruct (Z.ltb_spec last q) as [Hq|Hq];
    [|exfalso; nia..|done].
  cbn [fst snd s_served s_carry s_next s_period r_last r_slot].
  destruct (Z.ltb_spec now (s_next s + p)) as [Hlt|Hge]; cbn [orb].
  - assert (q = last + 1) as -> by nia.
    unfold slot_ref. cbn [fst snd s_served s_carry s_next s_period r_last r_slot].
    destruct (r_slot r) as [s0|]; (split; [split_and!; nia || done|]);
      f_equal; f_equal; nia.
  - replace (ep + (q + 1) * p - (s_next s + p)) with ((q - 1 - last) * p) by nia.
    rewrite Z.div_mul by lia.
    unfold slot_ref. cbn [fst snd s_served s_carry s_next s_period r_last r_slot].
    destruct (r_slot r) as [s0|]; destruct Hr as [-> Hr]; cbn [negb];
      (split; [split_and!; nia || done|]); f_equal; f_equal; nia.
Qed.

(** ** Runs of wakes *)

Fixpoint grid_run (g : GridTimer) (wakes : list Z) : res (GridTimer * list (list Due)) :=
  match wakes with
  | [] => Ok (g, [])
  | now :: wakes =>
      '(g, d) ← take_due g now;
      '(g, ds) ← grid_run g wakes;
      Ok (g, d :: ds)
  end.
Fixpoint ref_runs (ep : Z) (periods : list Z) (rs : list RefTask) (wakes : list Z) :
  list RefTask * list (list Due) :=
  match wakes with
  | [] => (rs, [])
  | now :: wakes =>
      let '(rs', ds) := ref_runs ep periods (ref_run ep now periods rs) wakes in
      (rs', ref_due ep now periods rs :: ds)
  end.

(** A timer represents references, task by task. *)
Definition grid_ref (g : GridTimer) (rs : list RefTask) : Prop :=
  grid_ok g ∧ length rs = length (period_ns g) ∧
  ∀ i s r, slot_at g i = Some s → rs !! i = Some r → slot_ref (epoch g) s r.

Lemma grid_ref_lookup g rs i p r : grid_ref g rs → period_ns g !! i = Some p → rs !! i = Some r →
  ∃ s, slot_at g i = Some s ∧ s_period s = p ∧ 0 < p ∧ slot_ref (epoch g) s r.
Proof.
  intros (Hg & Hl & Hr) Hp Hi.
  destruct (slot_at_lt g i Hg) as [s Hs].
  { destruct Hg as [-> _]. by eapply lookup_lt_Some. }
  exists s. pose proof (slot_at_inv g i s Hs) as (Hp' & _).
  destruct Hg as (_ & _ & _ & _ & Hok). destruct (Hok i s Hs) as (Hpos & _).
  split_and!; [done|congruence|congruence|by eauto].
Qed.

Lemma due_of_ref g rs now : grid_ref g rs → fits g now →
  seq 0 (length (period_ns g)) ≫= due_of g now = ref_due (epoch g) now (period_ns g) rs.
Proof.
  intros Hr [He _]. unfold ref_due. pose proof Hr as (_ & Hl & _).
  assert (∀ k n, (k + n ≤ length (period_ns g))%nat →
    seq k n ≫= due_of g now = seq k n ≫= λ i,
      match period_ns g !! i, rs !! i with
      | Some p, Some r => entry i (ref_step (epoch g) p now r).2 | _, _ => [] end) as H.
  { intros k n. revert k. induction n as [|n IH]; intros k Hk; [done|].
    cbn [seq]. rewrite !bind_cons. rewrite IH by lia. f_equal.
    destruct (lookup_lt_is_Some_2 (period_ns g) k) as [p Hp]; [lia|].
    destruct (lookup_lt_is_Some_2 rs k) as [r Hk']; [lia|].
    rewrite Hp, Hk'. destruct (grid_ref_lookup g rs k p r) as (s & Hs & <- & Hpos & Hsr); [done..|].
    unfold due_of. rewrite Hs. by destruct (slot_step_ref (epoch g) now s r He Hpos Hsr) as [_ ->]. }
  by apply H.
Qed.

Lemma grid_ref_step g g' rs now : grid_ref g rs → fits g now → grid_ok g' →
  stepped_on g g' now (seq 0 (length (period_ns g))) →
  grid_ref g' (ref_run (epoch g) now (period_ns g) rs).
Proof.
  intros Hr [He _] Hg' (He' & Hp' & Hj). pose proof Hr as (Hg & Hl & _). split_and!; [done|..].
  { unfold ref_run. rewrite length_zip_with, Hl, Hp'. lia. }
  intros i s' r' Hs' Hi. unfold ref_run in Hi. apply lookup_zip_with_Some in Hi as (p & r & -> & Hp & Hi).
  destruct (grid_ref_lookup g rs i p r) as (s & Hs & <- & Hpos & Hsr); [done..|].
  rewrite Hj, Hs, decide_True in Hs'
    by (apply elem_of_seq; apply lookup_lt_Some in Hp; lia).
  injection Hs' as <-. rewrite He'. by apply slot_step_ref.
Qed.

Lemma grid_run_ref wakes : ∀ g rs, grid_ref g rs → Forall (fits g) wakes →
  ∃ g', grid_run g wakes = Ok (g', (ref_runs (epoch g) (period_ns g) rs wakes).2) ∧
    grid_ref g' (ref_runs (epoch g) (period_ns g) rs wakes).1 ∧
    epoch g' = epoch g ∧ period_ns g' = period_ns g.
Proof.
  induction wakes as [|now wakes IH]; intros g rs Hr Hw; [by exists g|].
  apply Forall_cons in Hw as [Hf Hw]. pose proof Hr as (Hg & _).
  destruct (take_due_step g now Hg Hf) as (g1 & Htd & Hg1 & Hst).
  pose proof (grid_ref_step g g1 rs now Hr Hf Hg1 Hst) as Hr1.
  pose proof Hst as (He1 & Hp1 & _).
  destruct (IH g1 _ Hr1) as (g' & Hrun & Hr' & He' & Hp').
  { eapply Forall_impl; [exact Hw|]. intros w. unfold fits. by rewrite He1, Hp1. }
  rewrite He1, Hp1 in Hrun, Hr'. exists g'. cbn [grid_run ref_runs].
  rewrite Htd. cbn [mbind res_bind]. rewrite Hrun. cbn [mbind res_bind].
  rewrite (due_of_ref g rs now) by done.
  destruct (ref_runs _ _ _ wakes) as [rs' ds]. simpl in *. rewrite He', Hp'. done.
Qed.

Lemma slot_at_new ep ps i s : Forall (λ p, ep + p < 2 ^ 64) ps → slot_at (grid_new ep ps) i = Some s →
  ∃ p, ps !! i = Some p ∧ s = MkSlot p (ep + p) 0 false.
Proof.
  intros Hf Hs. destruct (slot_at_inv _ i s Hs) as (Hp & Hn & Hc & Hv).
  unfold grid_new in *. simpl in *.
  apply lookup_replicate in Hc as [Hc _]. apply lookup_replicate in Hv as [Hv _].
  rewrite list_lookup_fmap, Hp in Hn. simpl in Hn. injection Hn as Hn.
  rewrite Forall_lookup in Hf. specialize (Hf i _ Hp). simpl in Hf.
  rewrite sat_add_small in Hn by lia. exists (s_period s). destruct s; naive_solver.
Qed.

Lemma grid_ref_new ep ps : 0 ≤ ep → Forall (λ p, 0 < p ∧ ep + p < 2 ^ 64) ps →
  grid_ref (grid_new ep ps) (replicate (length ps) ref_new).
Proof.
  intros He Hps.
  assert (Forall (λ p, ep + p < 2 ^ 64) ps) as Hf by (eapply Forall_impl; [exact Hps|naive_solver]).
  rewrite Forall_lookup in Hps. split_and!.
  - split_and!; simpl; rewrite ?length_fmap, ?length_replicate; try done.
    intros i s Hs. destruct (slot_at_new ep ps i s Hf Hs) as (p & Hp & ->).
    specialize (Hps i p Hp). simpl in *. split_and!; [lia..|]. exists 1. lia.
  - simpl. by rewrite length_replicate.
  - intros i s r Hs Hr. destruct (slot_at_new ep ps i s Hf Hs) as (p & Hp & ->).
    apply lookup_replicate in Hr as [-> _]. unfold slot_ref. simpl. lia.
Qed.

(** C7. For every epoch, every list of positive periods and every sequence of
    wakes, the grid timer never panics and its due lists are those of the
    reference: a task is dispatched exactly at the wakes that pass a new point of
    its grid [epoch + k * period], with the number of points passed unserved
    since its previous dispatch and its distance from the last point passed. *)
Theorem grid_matches_reference ep ps wakes : 0 ≤ ep → Forall (λ p, 0 < p) ps →
  Forall (λ now, ep ≤ now ∧ Forall (λ p, now + p < 2 ^ 64) ps) (ep :: wakes) →
  ∃ g', grid_run (grid_new ep ps) wakes =
    Ok (g', (ref_runs ep ps (replicate (length ps) ref_new) wakes).2).
Proof.
  intros He Hp Hw. apply Forall_cons in Hw as [[_ H0] Hw].
  destruct (grid_run_ref wakes (grid_new ep ps) (replicate (length ps) ref_new))
    as (g' & H & _); [|done|by exists g'].
  apply grid_ref_new; [done|]. by apply Forall_and.
Qed.

Lemma grid_matches_reference_witness :
  ∃ g', grid_run (grid_new 100 [1000; 2000]) [1600; 5100; 6100] =
    Ok (g', [[(0%nat, 0, 500)]; [(0%nat, 0, 0); (1%nat, 0, 1000)]; [(0%nat, 3, 0); (1%nat, 0, 0)]]).
Proof.
  pose proof (grid_matches_reference 100 [1000; 2000] [1600; 5100; 6100]) as H.
  destruct H as [g' Hg'].
  - lia.
  - repeat constructor.
  - repeat (constructor; [split; [lia|repeat constructor; lia]|]). constructor.
  - exists g'. exact Hg'.
Defined.

(** ** The sleep until the next target *)

Lemma foldl_min_lb l x y : y ≤ foldl Z.min x l ↔ y ≤ x ∧ Forall (λ z, y ≤ z) l.
Proof.
  revert x. induction l as [|z l IH]; intros x; simpl; [by rewrite Forall_nil; naive_solver|].
  rewrite IH, Forall_cons, Z.min_glb_iff. tauto.
Qed.

Lemma min_of_lt l m y : min_of l = Some m → y < m ↔ Forall (λ z, y < z) l.
Proof.
  destruct l as [|x l]; [done|]. simpl. intros [= <-].
  rewrite <-Z.le_succ_l, foldl_min_lb, Forall_cons, <-Z.le_succ_l.
  do 2 f_equiv. intros z. apply Z.le_succ_l.
Qed.

Lemma due_nil_iff g now i s : slot_at g i = Some s → due_of g now i = [] ↔ now < s_next s.
Proof.
  intros Hs. unfold due_of, slot_step. rewrite Hs.
  destruct (Z.leb_spec (s_next s) now); simpl; [split; [done|lia]|split; [lia|done]].
Qed.

Lemma bind_nil_iff {A B} (f : A → list B) l : l ≫= f = [] ↔ Forall (λ x, f x = []) l.
Proof.
  induction l as [|x l IH]; [by rewrite Forall_nil|].
  rewrite bind_cons, Forall_cons, app_nil, IH. done.
Qed.

Lemma no_due_iff g now : grid_ok g →
  seq 0 (length (period_ns g)) ≫= due_of g now = [] ↔ Forall (λ n, now < n) (next g).
Proof.
  intros Hg. rewrite bind_nil_iff, Forall_forall, Forall_lookup. pose proof Hg as (Hn & _).
  split; intros H i.
  - intros n Hi. pose proof (lookup_lt_Some _ _ _ Hi).
    destruct (slot_at_lt g i Hg) as [s Hs]; [lia|]. pose proof (slot_at_inv g i s Hs) as (_ & Hni & _).
    rewrite Hi in Hni. injection Hni as ->. eapply due_nil_iff; [done|]. apply H, elem_of_seq. lia.
  - intros [_ Hi]%elem_of_seq. destruct (slot_at_lt g i Hg) as [s Hs]; [lia|].
    pose proof (slot_at_inv g i s Hs) as (_ & Hni & _).
    apply (due_nil_iff g now i s Hs). by eapply H.
Qed.

(** The sleep [next_timeout] asks for is exact.  In every state a run of
    wakes reaches, a later wake finds a task due if and only if the whole timeout
    has elapsed: sleeping that long neither misses a target nor wakes for
    nothing, and without cyclic tasks the sleep outlasts every clock value. *)
Theorem next_timeout_exact ep ps wakes g ds now later : 0 ≤ ep → Forall (λ p, 0 < p) ps →
  Forall (λ now, ep ≤ now ∧ Forall (λ p, now + p < 2 ^ 64) ps) (ep :: wakes) →
  grid_run (grid_new ep ps) wakes = Ok (g, ds) →
  ep ≤ now ≤ later → is_u 64 later → Forall (λ p, later + p < 2 ^ 64) ps →
  ∃ g' due, take_due g later = Ok (g', due) ∧ (due = [] ↔ later < now + next_timeout g now).
Proof.
  intros He Hp Hw Hrun Hnow Hu Hfit. apply Forall_cons in Hw as [[_ H0] Hw].
  destruct (grid_run_ref wakes (grid_new ep ps) (replicate (length ps) ref_new))
    as (g1 & H1 & Hr & Hep & Hper); [by apply grid_ref_new, Forall_and|done|].
  rewrite H1 in Hrun. injection Hrun as -> _. clear H1.
  destruct Hr as (Hg & Hl & _).
  simpl in Hep, Hper.
  destruct (take_due_step g later Hg) as (g' & Htd & _); [by split; [rewrite Hep; lia|rewrite Hper]|].
  eexists g', _. split; [exact Htd|]. rewrite no_due_iff by done. unfold next_timeout, sat_sub.
  destruct (min_of (next g)) as [m|] eqn:Em.
  - rewrite <-(min_of_lt _ _ _ Em). lia.
  - destruct (next g); [|done]. unfold is_u, DURATION_MAX in *.
    rewrite Forall_nil. split; [lia|done].
Qed.

Lemma next_timeout_exact_witness :
  let g := MkGrid 0 [1000] [2000] [0] [true] in
  next_timeout g 1700 = 300 ∧
  ∃ g' due, take_due g 2000 = Ok (g', due) ∧ (due = [] ↔ 2000 < 1700 + next_timeout g 1700).
Proof.
  split; [reflexivity|].
  apply (next_timeout_exact 0 [1000] [1700] _ [[(0%nat, 0, 700)]] 1700 2000).
  - lia.
  - repeat constructor.
  - repeat (constructor; [split; [lia|repeat constructor; lia]|]). constructor.
  - reflexivity.
  - lia.
  - by vm_compute.
  - repeat constructor; lia.
Defined.

(** ** The base tick of the master timer *)

Lemma gcd_S n a b : gcd (S n) a b = if b =? 0 then Ok a else gcd n b (a mod b).
Proof. done. Qed.

#[local] Arguments gcd : simpl never.

Lemma gcd_fuel n : ∀ a b, 0 ≤ b ≤ a → a * b < 2 ^ Z.of_nat n → gcd (S n) a b = Ok (Z.gcd a b).
Proof.
  induction n as [|n IH]; intros a b Hab Hn; rewrite gcd_S;
    destruct (Z.eqb_spec b 0) as [->|Hb]; try (by rewrite Z.gcd_0_r, Z.abs_eq by lia).
  { change (2 ^ Z.of_nat 0) with 1 in Hn. nia. }
  rewrite Nat2Z.inj_succ, Z.pow_succ_r in Hn by lia.
  pose proof (Z.mod_pos_bound a b ltac:(lia)). pose proof (Z.div_mod a b ltac:(lia)).
  assert (1 ≤ a / b) by (apply Z.div_le_lower_bound; lia).
  rewrite IH by nia. f_equal.
  rewrite Z.gcd_comm, Z.gcd_mod by lia. apply Z.gcd_comm.
Qed.

Lemma gcd_u64 a b : is_u 64 a → is_u 64 b → gcd GCD_FUEL a b = Ok (Z.gcd a b).
Proof.
  unfold is_u. intros Ha Hb. unfold GCD_FUEL. rewrite gcd_S.
  destruct (Z.eqb_spec b 0) as [->|]; [by rewrite Z.gcd_0_r, Z.abs_eq by lia|].
  pose proof (Z.mod_pos_bound a b ltac:(lia)).
  rewrite gcd_fuel by (change (2 ^ Z.of_nat 128) with (2 ^ 64 * 2 ^ 64); nia).
  f_equal. rewrite Z.gcd_comm, Z.gcd_mod by lia. apply Z.gcd_comm.
Qed.

Lemma gcd_is_u a b : is_u 64 a → is_u 64 b → is_u 64 (Z.gcd a b).
Proof.
  unfold is_u. intros Ha Hb. split; [apply Z.gcd_nonneg|].
  destruct (decide (a = 0)) as [->|]; [rewrite Z.gcd_0_l; lia|].
  pose proof (Z.divide_pos_le (Z.gcd a b) a ltac:(lia) (Z.gcd_divide_l a b)). lia.
Qed.

(** The reference: the greatest common divisor of all periods. *)
Definition gcd_all (ps : list Z) : Z := foldr Z.gcd 0 ps.

Lemma gcd_all_nonneg ps : 0 ≤ gcd_all ps.
Proof. destruct ps; [done|apply Z.gcd_nonneg]. Qed.

Lemma base_period_fold ps : ∀ a, is_u 64 a → Forall (is_u 64) ps →
  foldl (λ acc p, a ← acc; gcd GCD_FUEL a p) (Ok a) (filter (λ p, p ≠ 0) ps) =
    Ok (Z.gcd a (gcd_all ps)).
Proof.
  induction ps as [|p ps IH]; intros a Ha Hps.
  { cbn. by rewrite Z.gcd_0_r, Z.abs_eq by (unfold is_u in Ha; lia). }
  apply Forall_cons in Hps as [Hp Hps]. rewrite filter_cons. simpl.
  destruct (decide (p ≠ 0)) as [Hne|Heq].
  - simpl. rewrite gcd_u64, IH by (done || by apply gcd_is_u). by rewrite Z.gcd_assoc.
  - rewrite IH by done. assert (p = 0) as -> by (destruct (decide (p = 0)); [done|contradiction]).
    by rewrite Z.gcd_0_l, Z.abs_eq by apply gcd_all_nonneg.
Qed.

Lemma gcd_all_divides ps p : p ∈ ps → (gcd_all ps | p).
Proof.
  induction 1 as [p ps|q p ps _ IH]; simpl; [apply Z.gcd_divide_l|].
  etransitivity; [apply Z.gcd_divide_r|exact IH].
Qed.

(** The base tick is the greatest common divisor of the declared periods
    (Euclid's recursion ends within its bound for every two [u64]), and a master
    timer that ticks at it from the epoch hits every target any run of wakes
    gives any task. *)
Theorem base_tick_hits_targets ep ps : 0 ≤ ep → Forall (λ p, 0 < p ∧ ep + p < 2 ^ 64) ps →
  base_period ps = Ok (gcd_all ps) ∧
  ∀ wakes g ds, Forall (λ now, ep ≤ now ∧ Forall (λ p, now + p < 2 ^ 64) ps) wakes →
    grid_run (grid_new ep ps) wakes = Ok (g, ds) →
    Forall (λ target, (gcd_all ps | target - ep)) (next g).
Proof.
  intros He Hps. split.
  - unfold base_period. rewrite base_period_fold; [|by vm_compute|].
    + by rewrite Z.gcd_0_l, Z.abs_eq by apply gcd_all_nonneg.
    + eapply Forall_impl; [exact Hps|]. unfold is_u. intros p Hp. simpl in Hp. lia.
  - intros wakes g ds Hw Hrun.
    destruct (grid_run_ref wakes (grid_new ep ps) (replicate (length ps) ref_new))
      as (g1 & H1 & Hr & Hep & Hper); [by apply grid_ref_new|done|].
    rewrite H1 in Hrun. injection Hrun as -> _. destruct Hr as (Hg & _).
    apply Forall_lookup. intros i n Hi.
    destruct (slot_at_lt g i Hg) as [s Hs]; [by eapply lookup_lt_Some|].
    pose proof (slot_at_inv g i s Hs) as (Hp & Hn & _). rewrite Hi in Hn. injection Hn as ->.
    destruct Hg as (_ & _ & _ & _ & Hok). destruct (Hok i s Hs) as (_ & _ & k & _ & ->).
    simpl in Hep, Hper. rewrite Hep. replace (ep + k * s_period s - ep) with (k * s_period s) by lia.
    apply Z.divide_mul_r, gcd_all_divides. rewrite Hper in Hp. by eapply list_elem_of_lookup_2.
Qed.

Lemma base_tick_hits_targets_witness : base_period [4000; 6000] = Ok 2000.
Proof.
  apply (base_tick_hits_targets 0 [4000; 6000]); [lia|]. repeat constructor; lia.
Defined.

End ExecGrid.
