(* ===== verification/ExecTask.v ===== *)
(** * The task table of the executor

    Models the registration half of [taktora-executor/src/executor.rs]:
    [TaskEntry], [Executor], the checks on trigger declarations and integrity
    levels, the [add*] operations and the graph builder's [build], and the
    operations that read and clear faults ([fault.rs] is [ExecFault]).

    User items are records of what their methods answer; a dispatch closure is
    the record of what it captures ([Job]).  An [Arc] shared by a closure and a
    [TaskEntry] is the index of that entry.  Durations are nanoseconds.  The
    observer is the list of the calls it received. *)

From stdpp Require Import base list strings pretty sets.
From Stdlib Require Import ZArith Lia.
From S2P Require Import Prelude ExecFault ExecGraph ExecGraphOk StatsCycle ExecGrid.

Module ExecTask.
Import ExecFault.

Definition TaskId := string.

Inductive IntegrityLevel := SafetyCritical | QualityManaged.
#[export] Instance IntegrityLevel_eq_dec : EqDecision IntegrityLevel.
Proof. solve_decision. Defined.

(** Listeners are named by numbers. *)
Inductive TriggerDecl :=
| Subscriber (listener : nat)
| Interval (d : Z)
| Deadline (listener : nat) (deadline : Z)
| RawListener (listener : nat).

Inductive ExecutorError :=
| Iceoryx2 (msg : string)
| InvalidGraph (msg : string)
| DeclareTriggers (msg : string)
| ItemFailed (task_id : TaskId) (source : string)
| AlreadyRunning
| BuilderMisuse (msg : string)
| TaskNotFound (id : TaskId)
| TaskNotFaulted (id : TaskId)
| ExecutorNotFaulted
| MixedIntegrity (expected found : IntegrityLevel)
| AdmissionRejected (reason : string).

(** What a declarer holds after an item's [declare_triggers]. *)
Record TriggerDeclarer := MkDeclarer { td_decls : list TriggerDecl; td_budget : option Z }.

(** An item: the answers of its trait methods; [it_declare] is the declarer
    after the call, or its error. *)
Record Item := MkItem {
  it_declare : TriggerDeclarer + ExecutorError;
  it_task_id : option string;
  it_app_id : option Z;
  it_app_inst : option Z;
  it_integrity : IntegrityLevel;
}.

Inductive TaskKind := Single | Chain | Graph.

(** What every dispatch closure captures of its task: [task_slot] is the entry
    whose atomics it shares. *)
Record FaultDispatchCtx := MkCtx {
  task_budget : option Z;
  task_slot : nat;
  iteration_budget : option Z;
  task_idx_u32 : Z;
}.
Inductive JobKind :=
| JSingle (app_id app_inst : option Z)
| JHandler (app_id app_inst : option Z)
| JChain (items : list (option Z * option Z)).
Record Job := MkJob { j_id : TaskId; j_kind : JobKind; j_ctx : FaultDispatchCtx }.

Record CyclePending := MkPending { pre : Z; faulted : bool }.

(** The atomics of an entry, shared with its closures. *)
Record TaskAtomics := MkAtomics { fault : FaultAtomic; overrun_count : Z; last_took_ns : Z }.
(** The fields only the dispatching thread touches. *)
Record TaskCycle := MkCycle {
  last_dispatch : option Z;
  grid_slot : Z;
  grid_epoch : option Z;
  pending_skipped : Z;
  pending_late : option Z;
  pending_cycle : option CyclePending;
}.
Record TaskEntry := MkTask {
  id : TaskId;
  kind : TaskKind;
  decls : list TriggerDecl;
  job : option Job;
  budget : option Z;
  atomics : TaskAtomics;
  handler_job : option Job;
  scan_period : option Z;
  cycle : TaskCycle;
}.

Record HeartbeatState := MkHeartbeat { period_nanos : Z; next_due_nanos : Z; hb_seq : Z }.
Record HeartbeatTick := MkTick { tick_seq : Z; at_nanos : Z }.

Record CycleObservation := MkObs {
  ob_cycle_index : Z; ob_task_id : TaskId; ob_task_index : Z; ob_faulted : bool;
  ob_period_ns : Z; ob_pre_ns : Z; ob_actual_period_ns : option Z; ob_jitter_ns : option Z;
  ob_lateness_ns : option Z; ob_skipped_slots : Z; ob_took_ns : option Z;
}.

(** Calls to the observer and to the execution monitor. *)
Inductive Event :=
| OnExecutorUp | OnExecutorDown | OnExecutorError (e : ExecutorError)
| OnAdmissionAdmitted | OnAdmissionRejected (reason : string)
| OnAppStart (task : TaskId) (app : Z) (inst : option Z)
| OnAppStop (task : TaskId) | OnAppError (task : TaskId) (e : string)
| PreExecute (task : TaskId) | PostExecute (task : TaskId) (ok : bool)
| OnTaskFault (task : TaskId) (reason : FaultReason)
| OnTaskClear (task : TaskId)
| OnExecutorFault (reason : ExecutorFaultReason) | OnExecutorClear
| OnCycleStats (obs : CycleObservation) | OnHeartbeat (tick : HeartbeatTick).

(** State shared with the closures, besides the atomics of the entries. *)
Record Shared := MkShared {
  exec_fault : ExecutorFaultAtomic;
  exec_fault_task_idx : Z;
  exec_fault_budget_ms : Z;
  start_time : option Z;
  iter_err : option ExecutorError;
  stopped : bool;
  events : list Event;
}.

(** The constructor arguments of the executor that never change. *)
Record Config := MkConfig {
  cfg_stats_window : Z;
  cfg_iteration_budget : option Z;
  cfg_dispatch_mode : ExecGrid.DispatchMode;
  cfg_integrity_level : option IntegrityLevel;
  (** The admission check: the reason of a rejection, from level and task count. *)
  cfg_admission : option (option IntegrityLevel → nat → option string);
}.

Record Executor := MkExecutor {
  config : Config;
  tasks : list TaskEntry;
  cycle_stats : list StatsCycle.ExecutorCycleStats;
  running : bool;
  next_id : Z;
  shared : Shared;
  heartbeat_state : option HeartbeatState;
}.

(** ** Field updates *)

Definition set_atomics (t : TaskEntry) (a : TaskAtomics) : TaskEntry :=
  MkTask (id t) (kind t) (decls t) (job t) (budget t) a (handler_job t) (scan_period t) (cycle t).
Definition set_cycle (t : TaskEntry) (c : TaskCycle) : TaskEntry :=
  MkTask (id t) (kind t) (decls t) (job t) (budget t) (atomics t) (handler_job t) (scan_period t) c.
Definition set_handler (t : TaskEntry) (h : Job) : TaskEntry :=
  MkTask (id t) (kind t) (decls t) (job t) (budget t) (atomics t) (Some h) (scan_period t) (cycle t).
Definition set_fault (t : TaskEntry) (w : FaultAtomic) : TaskEntry :=
  set_atomics t (MkAtomics w (overrun_count (atomics t)) (last_took_ns (atomics t))).

Definition set_tasks (ex : Executor) (ts : list TaskEntry) : Executor :=
  MkExecutor (config ex) ts (cycle_stats ex) (running ex) (next_id ex) (shared ex)
    (heartbeat_state ex).
Definition set_shared (ex : Executor) (s : Shared) : Executor :=
  MkExecutor (config ex) (tasks ex) (cycle_stats ex) (running ex) (next_id ex) s
    (heartbeat_state ex).
Definition set_next_id (ex : Executor) (n : Z) : Executor :=
  MkExecutor (config ex) (tasks ex) (cycle_stats ex) (running ex) n (shared ex)
    (heartbeat_state ex).
Definition set_running (ex : Executor) (b : bool) : Executor :=
  MkExecutor (config ex) (tasks ex) (cycle_stats ex) b (next_id ex) (shared ex)
    (heartbeat_state ex).
Definition set_stats (ex : Executor) (st : list StatsCycle.ExecutorCycleStats) : Executor :=
  MkExecutor (config ex) (tasks ex) st (running ex) (next_id ex) (shared ex) (heartbeat_state ex).
Definition set_heartbeat (ex : Executor) (h : option HeartbeatState) : Executor :=
  MkExecutor (config ex) (tasks ex) (cycle_stats ex) (running ex) (next_id ex) (shared ex) h.
Definition set_exec_fault (s : Shared) (w : ExecutorFaultAtomic) : Shared :=
  MkShared w (exec_fault_task_idx s) (exec_fault_budget_ms s) (start_time s) (iter_err s)
    (stopped s) (events s).
Definition emit_shared (s : Shared) (e : Event) : Shared :=
  MkShared (exec_fault s) (exec_fault_task_idx s) (exec_fault_budget_ms s) (start_time s)
    (iter_err s) (stopped s) (events s ++ [e]).
Definition emit (ex : Executor) (e : Event) : Executor := set_shared ex (emit_shared (shared ex) e).
Definition set_iter_err (s : Shared) (e : option ExecutorError) : Shared :=
  MkShared (exec_fault s) (exec_fault_task_idx s) (exec_fault_budget_ms s) (start_time s) e
    (stopped s) (events s).

(** ** Building the executor *)

(** [heartbeat_period] in nanoseconds, [now] the scheduling clock. *)
Definition build (cfg : Config) (heartbeat_period : option Z) (now : Z) : Executor :=
  let hb := (λ p, let p := Z.min (2 ^ 64 - 1) p in MkHeartbeat p (sat_add 64 now p) 0)
              <$> heartbeat_period in
  MkExecutor cfg [] [] false 0 (MkShared exec_fault_new 0 0 None None false []) hb.

(** ** Trigger declarations *)

Definition is_interval (d : TriggerDecl) : bool :=
  match d with Interval _ => true | _ => false end.
Definition is_listener (d : TriggerDecl) : bool :=
  match d with Subscriber _ | Deadline _ _ | RawListener _ => true | Interval _ => false end.
Definition is_zero_interval (d : TriggerDecl) : bool :=
  match d with Interval d => d =? 0 | _ => false end.

Definition validate_decls (id : TaskId) (ds : list TriggerDecl) : option ExecutorError :=
  let has_interval := existsb is_interval ds in
  let has_listener := existsb is_listener ds in
  if has_interval && has_listener then
    Some (DeclareTriggers ("task `" +:+ id +:+ "` declares both an interval (cyclic) and a listener (event-driven) trigger; a task may be cyclic (interval) or event-driven (listener) but not both — split it into two tasks"))
  else
    let interval_count := length (List.filter is_interval ds) in
    if (1 <? interval_count)%nat then
      Some (DeclareTriggers ("task `" +:+ id +:+ "` declares " +:+ pretty (N.of_nat interval_count) +:+ " interval triggers; a cyclic task must declare exactly one scan period — split it into separate tasks"))
    else if existsb is_zero_interval ds then
      Some (DeclareTriggers ("task `" +:+ id +:+ "` declares a zero-duration interval; a cyclic scan period must be strictly positive"))
    else None.

Fixpoint scan_period_from_decls (ds : list TriggerDecl) : option Z :=
  match ds with
  | [] => None
  | Interval d :: _ => Some d
  | _ :: ds => scan_period_from_decls ds
  end.

(** ** Registration *)

Definition cycle_new : TaskCycle := MkCycle None 0 None 0 None None.
Definition atomics_new : TaskAtomics := MkAtomics fault_new 0 (2 ^ 64 - 1).

(** [TaskCycleStats::new(stats_window)]: eight segments, a window of 256. *)
Definition stats_new (ex : Executor) : StatsCycle.ExecutorCycleStats :=
  StatsCycle.exec_new 8 256 (cfg_stats_window (config ex)).

(** [self.tasks.push(..); self.cycle_stats.push(..)]. *)
Definition push_task (ex : Executor) (t : TaskEntry) : Executor :=
  set_stats (set_tasks ex (tasks ex ++ [t])) (cycle_stats ex ++ [stats_new ex]).

(** The first item whose level is not the pinned one. *)
Definition integrity_check (ex : Executor) (levels : list IntegrityLevel) : option ExecutorError :=
  match cfg_integrity_level (config ex) with
  | None => None
  | Some expected =>
      (λ found, MixedIntegrity expected found)
        <$> (head (List.filter (λ l, negb (bool_decide (l = expected))) levels))
  end.

(** [format!("{prefix}-{}", self.next_id.fetch_add(1))]. *)
Definition auto_id (prefix : string) (ex : Executor) : Executor * TaskId :=
  (set_next_id ex (wrap 64 (next_id ex + 1)), prefix +:+ "-" +:+ pretty (Z.to_N (next_id ex))).

Definition add_with_id (ex : Executor) (id_arg : TaskId) (item : Item) :
  Executor * (TaskId + ExecutorError) :=
  let id := default id_arg (it_task_id item) in
  match it_declare item with
  | inr e => (ex, inr e)
  | inl declarer =>
      let budget := td_budget declarer in
      let decls := td_decls declarer in
      match validate_decls id decls with
      | Some e => (ex, inr e)
      | None =>
          match integrity_check ex [it_integrity item] with
          | Some e => (ex, inr e)
          | None =>
              let task_idx := length (tasks ex) in
              let ctx := MkCtx budget task_idx (cfg_iteration_budget (config ex))
                           (wrap 32 (Z.of_nat task_idx)) in
              let job := MkJob id (JSingle (it_app_id item) (it_app_inst item)) ctx in
              (push_task ex (MkTask id Single decls (Some job) budget atomics_new None
                               (scan_period_from_decls decls) cycle_new), inl id)
          end
      end
  end.

Definition add (ex : Executor) (item : Item) : Executor * (TaskId + ExecutorError) :=
  let '(ex, id) := auto_id "task" ex in add_with_id ex id item.

(** [iter().position(|t| t.id == task_id)]. *)
Fixpoint position (ts : list TaskEntry) (i : TaskId) : option nat :=
  match ts with
  | [] => None
  | t :: ts => if decide (id t = i) then Some O else S <$> position ts i
  end.

Definition add_with_fault_handler (ex : Executor) (main handler : Item) :
  res (Executor * (TaskId + ExecutorError)) :=
  let '(ex, r) := add ex main in
  match r with
  | inr e => Ok (ex, inr e)
  | inl task_id =>
      match it_declare handler with
      | inr e => Ok (ex, inr e)
      | inl _ =>
          task_idx ← expect (position (tasks ex) task_id);
          task ← expect (tasks ex !! task_idx);
          let ctx := MkCtx (budget task) task_idx (cfg_iteration_budget (config ex))
                       (wrap 32 (Z.of_nat task_idx)) in
          let h := MkJob task_id (JHandler (it_app_id handler) (it_app_inst handler)) ctx in
          Ok (set_tasks ex (<[task_idx := set_handler task h]> (tasks ex)), inl task_id)
      end
  end.

Definition add_chain_with_id_boxed (ex : Executor) (id : TaskId) (items : list Item) :
  Executor * (TaskId + ExecutorError) :=
  match items with
  | [] => (ex, inr (BuilderMisuse "chain must contain at least one item"))
  | head_item :: _ =>
      let id := default id (it_task_id head_item) in
      match it_declare head_item with
      | inr e => (ex, inr e)
      | inl declarer =>
          let decls := td_decls declarer in
          match validate_decls id decls with
          | Some e => (ex, inr e)
          | None =>
              match integrity_check ex (it_integrity <$> items) with
              | Some e => (ex, inr e)
              | None =>
                  let task_idx := length (tasks ex) in
                  let ctx := MkCtx None task_idx (cfg_iteration_budget (config ex))
                               (wrap 32 (Z.of_nat task_idx)) in
                  let job := MkJob id (JChain ((λ i, (it_app_id i, it_app_inst i)) <$> items)) ctx in
                  (push_task ex (MkTask id Chain decls (Some job) None atomics_new None
                                   (scan_period_from_decls decls) cycle_new), inl id)
              end
          end
      end
  end.

Definition add_chain (ex : Executor) (items : list Item) : Executor * (TaskId + ExecutorError) :=
  let '(ex, id) := auto_id "chain" ex in add_chain_with_id_boxed ex id items.

(** ** Graphs: [ExecutorGraphBuilder] *)

Record ExecutorGraphBuilder := MkGraphBuilder {
  gb_items : list Item;
  gb_edges : list (nat * nat);
  gb_root : option nat;
  gb_custom_id : option TaskId;
}.

(** The builder of [graph.rs] on the same vertices. *)
Definition inner_builder (b : ExecutorGraphBuilder) :
  ExecGraph.GraphBuilder TriggerDecl ExecutorError :=
  ExecGraph.MkBuilder
    ((λ i, ExecGraph.MkItem (match it_declare i with inl d => inl (td_decls d) | inr e => inr e end))
       <$> gb_items b)
    (gb_edges b) (gb_root b).

Definition graph_error (e : ExecGraph.ExecutorError ExecutorError) : ExecutorError :=
  match e with
  | ExecGraph.InvalidGraph msg => InvalidGraph msg
  | ExecGraph.DeclareFailed e => e
  end.

(** The root's own id, else the custom one, else an automatic one. *)
Definition graph_id (ex : Executor) (root : Item) (custom_id : option TaskId) : Executor * TaskId :=
  match it_task_id root, custom_id with
  | Some i, _ => (ex, i)
  | None, Some i => (ex, i)
  | None, None => auto_id "graph" ex
  end.

Definition graph_build (ex : Executor) (b : ExecutorGraphBuilder) :
  res (Executor * (TaskId + ExecutorError)) :=
  r ← ExecGraph.finish (inner_builder b);
  match r with
  | inr e => Ok (ex, inr (graph_error e))
  | inl g =>
      root ← expect (gb_items b !! ExecGraph.g_root g);
      let '(ex, id) := graph_id ex root (gb_custom_id b) in
      let decls := ExecGraph.decls g in
      match validate_decls id decls with
      | Some e => Ok (ex, inr e)
      | None =>
          match integrity_check ex (it_integrity <$> gb_items b) with
          | Some e => Ok (ex, inr e)
          | None =>
              Ok (push_task ex (MkTask id Graph decls None None atomics_new None
                                  (scan_period_from_decls decls) cycle_new), inl id)
          end
      end
  end.

(** ** Reading and clearing faults *)

Definition budget_ms (o : option Z) : Z :=
  match o with Some ns => duration_to_ms_sat (ns / 1000000) | None => 0 end.

Definition clear_task_fault (ex : Executor) (task : TaskId) :
  Executor * (FaultState + ExecutorError) :=
  match position (tasks ex) task with
  | None => (ex, inr (TaskNotFound task))
  | Some i =>
      match tasks ex !! i with
      | None => (ex, inr (TaskNotFound task))
      | Some entry =>
          let '(w, prev) := swap (fault (atomics entry)) Running (budget_ms (budget entry)) in
          let ex := set_tasks ex (<[i := set_fault entry w]> (tasks ex)) in
          match prev with
          | Running => (ex, inr (TaskNotFaulted task))
          | Faulted _ _ => (emit ex (OnTaskClear task), inl prev)
          end
      end
  end.

(** The cascade over the entries: new entries and the observer calls. *)
Fixpoint cascade_clear (ts : list TaskEntry) : list TaskEntry * list Event :=
  match ts with
  | [] => ([], [])
  | t :: ts =>
      let '(ts', evs) := cascade_clear ts in
      match load (fault (atomics t)) (budget_ms (budget t)) with
      | Faulted ExecutorFaulted _ =>
          (set_fault t (swap (fault (atomics t)) Running (budget_ms (budget t))).1 :: ts',
           OnTaskClear (id t) :: evs)
      | _ => (t :: ts', evs)
      end
  end.

Definition clear_executor_fault (ex : Executor) : Executor * (ExecutorFaultState + ExecutorError) :=
  let s := shared ex in
  let '(w, prev) := exec_swap (exec_fault s) ExecRunning (exec_fault_task_idx s)
                      (exec_fault_budget_ms s) in
  let ex := set_shared ex (set_exec_fault s w) in
  match prev with
  | ExecRunning => (ex, inr ExecutorNotFaulted)
  | ExecFaulted _ _ =>
      let '(ts, evs) := cascade_clear (tasks ex) in
      (emit (foldl emit (set_tasks ex ts) evs) OnExecutorClear, inl prev)
  end.

Definition overrun_count_of (ex : Executor) (task : TaskId) : Z + ExecutorError :=
  match position (tasks ex) task ≫= λ i, tasks ex !! i with
  | Some t => inl (overrun_count (atomics t))
  | None => inr (TaskNotFound task)
  end.

Definition task_fault_state (ex : Executor) (task : TaskId) : FaultState + ExecutorError :=
  match position (tasks ex) task ≫= λ i, tasks ex !! i with
  | Some t => inl (load (fault (atomics t)) (budget_ms (budget t)))
  | None => inr (TaskNotFound task)
  end.

Definition executor_fault_state (ex : Executor) : ExecutorFaultState :=
  let s := shared ex in
  exec_load (exec_fault s) (exec_fault_task_idx s) (exec_fault_budget_ms s).

(** [stats_snapshot]: one entry per task, from the zipped tables. *)
Record TaskStatsEntry := MkStatsEntry {
  se_task_id : TaskId; se_stats : StatsCycle.ExecutorCycleSnapshot; se_overruns : Z;
}.
Definition stats_snapshot (ex : Executor) : list TaskStatsEntry :=
  zip_with (λ t s, MkStatsEntry (id t) (StatsCycle.exec_snapshot s) (overrun_count (atomics t)))
    (tasks ex) (cycle_stats ex).

(** ** Calls on an executor that is not running *)

Inductive Call :=
| CAdd (item : Item)
| CAddWithId (id : TaskId) (item : Item)
| CAddWithFaultHandler (main handler : Item)
| CAddChain (items : list Item)
| CAddChainWithId (id : TaskId) (items : list Item)
| CAddGraph (b : ExecutorGraphBuilder)
| CClearTaskFault (id : TaskId)
| CClearExecutorFault.

(** The executor after a call, and the error it returned. *)
Definition call (ex : Executor) (c : Call) : res (Executor * option ExecutorError) :=
  let out {A} (r : Executor * (A + ExecutorError)) :=
    (r.1, match r.2 with inl _ => None | inr e => Some e end) in
  match c with
  | CAdd item => Ok (out (add ex item))
  | CAddWithId id item => Ok (out (add_with_id ex id item))
  | CAddWithFaultHandler main handler => out <$> add_with_fault_handler ex main handler
  | CAddChain items => Ok (out (add_chain ex items))
  | CAddChainWithId id items => Ok (out (add_chain_with_id_boxed ex id items))
  | CAddGraph b => out <$> graph_build ex b
  | CClearTaskFault id => Ok (out (clear_task_fault ex id))
  | CClearExecutorFault => Ok (out (clear_executor_fault ex))
  end.

Fixpoint calls (ex : Executor) (cs : list Call) : res Executor :=
  match cs with
  | [] => Ok ex
  | c :: cs => '(ex, _) ← call ex c; calls ex cs
  end.

(** ** The table invariant *)

(** A task is cyclic with one positive period, or event-driven: never both. *)
Definition triggers_ok (ds : list TriggerDecl) (period : option Z) : Prop :=
  (∃ p, ds = [Interval p] ∧ p ≠ 0 ∧ period = Some p) ∨
  (Forall (λ d, is_interval d = false) ds ∧ period = None).

(** A closure stored in entry [i] shares the atomics, the id and the budgets of
    entry [i]. *)
Definition job_ok (cfg : Config) (i : nat) (t : TaskEntry) (j : Job) : Prop :=
  j_id j = id t ∧
  j_ctx j = MkCtx (budget t) i (cfg_iteration_budget cfg) (wrap 32 (Z.of_nat i)).

Definition entry_ok (cfg : Config) (i : nat) (t : TaskEntry) : Prop :=
  triggers_ok (decls t) (scan_period t) ∧
  (kind t = Graph ↔ job t = None) ∧
  (∀ j, job t = Some j → job_ok cfg i t j) ∧
  (∀ h, handler_job t = Some h → job_ok cfg i t h ∧ ∃ a b, j_kind h = JHandler a b).

Definition table_ok (ex : Executor) : Prop :=
  length (cycle_stats ex) = length (tasks ex) ∧
  ∀ i t, tasks ex !! i = Some t → entry_ok (config ex) i t.

Lemma filter_nil_existsb {A} (f : A → bool) l : List.filter f l = [] ↔ Forall (λ x, f x = false) l.
Proof.
  induction l as [|x l IH]; simpl; [by rewrite Forall_nil|].
  rewrite Forall_cons. destruct (f x); naive_solver.
Qed.

Lemma existsb_Forall {A} (f : A → bool) l : existsb f l = false ↔ Forall (λ x, f x = false) l.
Proof.
  induction l as [|x l IH]; simpl; [by rewrite Forall_nil|].
  rewrite orb_false_iff, Forall_cons, IH. done.
Qed.

Lemma scan_period_none ds : Forall (λ d, is_interval d = false) ds → scan_period_from_decls ds = None.
Proof. induction 1 as [|[] ds H _ IH]; done. Qed.

Lemma not_interval_listener d : is_interval d = negb (is_listener d).
Proof. by destruct d. Qed.

Lemma validate_triggers_ok i ds : validate_decls i ds = None →
  triggers_ok ds (scan_period_from_decls ds).
Proof.
  unfold validate_decls. intros H.
  destruct (existsb is_interval ds) eqn:Ei; simpl in H.
  2:{ apply existsb_Forall in Ei. right. split; [done|]. by apply scan_period_none. }
  destruct (existsb is_listener ds) eqn:El; [done|].
  destruct ((1 <? _)%nat) eqn:En; [done|]. destruct (existsb is_zero_interval ds) eqn:Ez; [done|].
  left. apply existsb_Forall in El, Ez. apply Nat.ltb_ge in En. clear H.
  destruct ds as [|[l|p|l e|l] ds]; try (apply Forall_cons in El as [H _]; discriminate); [done|].
  apply Forall_cons in El as [_ El], Ez as [Hz _]. simpl in *. apply Z.eqb_neq in Hz.
  assert (ds = []) as ->; [|by eauto].
  destruct ds as [|d ds]; [done|]. apply Forall_cons in El as [Hl _]. simpl in En.
  rewrite not_interval_listener, Hl in En. simpl in En. lia.
Qed.

Lemma triggers_ok_validate i ds period : triggers_ok ds period → validate_decls i ds = None.
Proof.
  intros [(p & -> & Hp & _)|[Hf _]]; unfold validate_decls.
  - simpl. apply Z.eqb_neq in Hp. by rewrite Hp.
  - rewrite (proj2 (existsb_Forall _ _) Hf). rewrite (proj2 (filter_nil_existsb _ _) Hf). simpl.
    replace (existsb is_zero_interval ds) with false; [done|]. symmetry.
    apply existsb_Forall. eapply Forall_impl; [exact Hf|]. by intros [].
Qed.

Lemma push_task_ok ex t : table_ok ex → entry_ok (config ex) (length (tasks ex)) t →
  table_ok (push_task ex t).
Proof.
  intros [Hl Ht] He. split; simpl; [rewrite !length_app; simpl; lia|].
  intros i t' [Hi|[Hge Hi]]%lookup_app_Some; [by eauto|].
  apply list_lookup_singleton_Some in Hi as [Hi <-].
  assert (i = length (tasks ex)) as -> by lia. done.
Qed.

Lemma set_tasks_ok ex i t t' : table_ok ex → tasks ex !! i = Some t →
  entry_ok (config ex) i t' → table_ok (set_tasks ex (<[i := t']> (tasks ex))).
Proof.
  intros [Hl Ht] Hi He. split; simpl; [by rewrite length_insert|].
  intros j u [(-> & <- & _)|(_ & Hj)]%list_lookup_insert_Some; eauto.
Qed.

Lemma set_fault_ok cfg i t w : entry_ok cfg i t → entry_ok cfg i (set_fault t w).
Proof. by destruct t. Qed.

Lemma add_with_id_ok ex i it : table_ok ex → table_ok (add_with_id ex i it).1.
Proof.
  intros Hok. unfold add_with_id. destruct (it_declare it) as [d|]; [|done].
  destruct (validate_decls _ _) eqn:Ev; [done|]. destruct (integrity_check _ _); [done|]. simpl.
  apply push_task_ok; [done|]. split_and!; simpl; [by eapply validate_triggers_ok|done|..|done].
  by intros j [= <-].
Qed.

Lemma set_next_id_ok ex n : table_ok ex → table_ok (set_next_id ex n).
Proof. done. Qed.

Lemma position_Some ts i k : position ts i = Some k →
  ∃ t, ts !! k = Some t ∧ id t = i ∧ ∀ k' t', (k' < k)%nat → ts !! k' = Some t' → id t' ≠ i.
Proof.
  revert k. induction ts as [|t ts IH]; intros k; simpl; [done|].
  case_decide as E; [intros [= <-]; exists t; split_and!; [done|done|lia]|].
  intros (k' & Hk & ->)%fmap_Some. destruct (IH k' Hk) as (t' & Ht' & Hid & Hlt).
  exists t'. split_and!; [done|done|]. intros [|k2] t2 Hk2 H2; [by injection H2 as <-|].
  eapply Hlt; [|exact H2]. lia.
Qed.

Lemma position_is_Some ts i : i ∈ id <$> ts → is_Some (position ts i).
Proof.
  induction ts as [|t ts IH]; simpl; [by intros ?%elem_of_nil|].
  intros [->|Hi]%elem_of_cons; [rewrite decide_True by done; eauto|].
  case_decide; [eauto|]. apply IH in Hi as [k ->]. eauto.
Qed.

Lemma expect_Ok {A} (o : option A) a : expect o = Ok a ↔ o = Some a.
Proof. destruct o; naive_solver. Qed.

(** What a successful [add] did. *)
Lemma add_inv ex it tid ex' : add ex it = (ex', inl tid) →
  ∃ t, tasks ex' = tasks ex ++ [t] ∧ id t = tid ∧ config ex' = config ex.
Proof.
  unfold add, auto_id, add_with_id. destruct (it_declare it) as [d|]; [|done].
  destruct (validate_decls _ _); [done|]. destruct (integrity_check _ _); [done|].
  intros [= <- <-]. eexists. by split_and!.
Qed.

Lemma add_ok ex it : table_ok ex → table_ok (add ex it).1.
Proof. intros Hok. by apply (add_with_id_ok (auto_id "task" ex).1). Qed.

Lemma with_fault_handler_ok ex m h : table_ok ex →
  wp (add_with_fault_handler ex m h) (λ r, table_ok r.1).
Proof.
  intros Hok. unfold add_with_fault_handler. pose proof (add_ok ex m Hok) as Ha.
  destruct (add ex m) as [ex1 [tid|e]] eqn:E; [|done].
  destruct (it_declare h) as [d|]; [|done]. apply add_inv in E as (t & Ht & Hid & _).
  destruct (position_is_Some (tasks ex1) tid) as [k Hk].
  { rewrite Ht, fmap_app, <-Hid. set_solver. }
  rewrite Hk. apply position_Some in Hk as (tk & Htk & Hidk & _). simpl. rewrite Htk. simpl.
  eapply set_tasks_ok; [done|exact Htk|]. pose proof (proj2 Ha k tk Htk) as (H1 & H2 & H3 & _).
  destruct tk. split_and!; [done..|]. intros h' [= <-]. split; [done|]. simpl. eauto.
Qed.

Lemma chain_ok ex i items : table_ok ex → table_ok (add_chain_with_id_boxed ex i items).1.
Proof.
  intros Hok. unfold add_chain_with_id_boxed. destruct items as [|it items]; [done|].
  destruct (it_declare it) as [d|]; [|done].
  destruct (validate_decls _ _) eqn:Ev; [done|]. destruct (integrity_check _ _); [done|]. simpl.
  apply push_task_ok; [done|]. split_and!; simpl; [by eapply validate_triggers_ok|done|..|done].
  by intros j [= <-].
Qed.

Lemma graph_id_next ex root c : ∃ n i, graph_id ex root c = (set_next_id ex n, i).
Proof.
  unfold graph_id, auto_id.
  destruct (it_task_id root); [|destruct c]; eauto; exists (next_id ex); destruct ex; eauto.
Qed.

Lemma graph_ok ex b : table_ok ex → wp (graph_build ex b) (λ r, table_ok r.1).
Proof.
  intros Hok. unfold graph_build. apply wp_bind.
  destruct (ExecGraphOk.finish_spec (inner_builder b)) as [(g & -> & Hg)|(e & -> & _)]; [|done].
  simpl. destruct Hg as (_ & Hroot & _). simpl in Hroot. rewrite length_fmap in Hroot.
  destruct (lookup_lt_is_Some_2 (gb_items b) (ExecGraph.g_root g)) as [root Hr]; [done|].
  rewrite Hr. simpl.
  assert (∀ ex i, table_ok ex → wp (match validate_decls i (ExecGraph.decls g) with
     | Some e => Ok (ex, inr e)
     | None => match integrity_check ex (it_integrity <$> gb_items b) with
         | Some e => Ok (ex, inr e)
         | None => Ok (push_task ex (MkTask i Graph (ExecGraph.decls g) None None atomics_new None
                         (scan_period_from_decls (ExecGraph.decls g)) cycle_new), inl i)
         end end) (λ r : Executor * (TaskId + ExecutorError), table_ok r.1)) as Hpush.
  { clear. intros ex i Hok. destruct (validate_decls i _) eqn:Ev; [done|].
    destruct (integrity_check _ _); [done|]. simpl. apply push_task_ok; [done|].
    split_and!; simpl; [by eapply validate_triggers_ok|done..]. }
  destruct (graph_id_next ex root (gb_custom_id b)) as (n & i & ->). by apply Hpush.
Qed.

Lemma clear_task_ok ex i : table_ok ex → table_ok (clear_task_fault ex i).1.
Proof.
  intros Hok. unfold clear_task_fault. destruct (position _ _) as [k|]; [|done].
  destruct (tasks ex !! k) as [t|] eqn:Ht; [|done]. unfold swap.
  assert (table_ok (set_tasks ex (<[k := set_fault t (pack Running)]> (tasks ex)))) as H.
  { eapply set_tasks_ok; [done|done|]. apply set_fault_ok. by apply (proj2 Hok). }
  by destruct (unpack _ _).
Qed.

Lemma cascade_clear_spec ts :
  length (cascade_clear ts).1 = length ts ∧
  ∀ i t', (cascade_clear ts).1 !! i = Some t' →
    ∃ t, ts !! i = Some t ∧ (t' = t ∨ t' = set_fault t (pack Running)).
Proof.
  induction ts as [|t ts [IHl IH]]; cbn [cascade_clear]; [done|].
  destruct (cascade_clear ts) as [ts' evs]. cbn [fst] in *.
  destruct (load _ _) as [|[]]; cbn [fst length]; (split; [by rewrite IHl|]);
    intros [|i] t' Hi; cbn [lookup list_lookup] in *; try (injection Hi as <-); eauto.
Qed.

Lemma emits_shared ex evs : ∃ s, foldl emit ex evs = set_shared ex s.
Proof.
  revert ex. induction evs as [|e evs IH]; intros ex; simpl.
  - exists (shared ex). by destruct ex.
  - destruct (IH (emit ex e)) as [s ->]. by exists s.
Qed.

Lemma clear_executor_ok ex : table_ok ex → table_ok (clear_executor_fault ex).1.
Proof.
  intros Hok. unfold clear_executor_fault, exec_swap. destruct (exec_unpack _ _ _); [done|].
  destruct (cascade_clear_spec (tasks ex)) as [Hl Hc].
  change (tasks (set_shared ex (set_exec_fault (shared ex) (exec_pack ExecRunning)))) with (tasks ex).
  destruct (cascade_clear (tasks ex)) as [ts evs]. cbn [fst] in *.
  destruct (emits_shared
    (set_tasks (set_shared ex (set_exec_fault (shared ex) (exec_pack ExecRunning))) ts) evs) as [s ->].
  destruct Hok as [Hs Ht]. split; simpl; [by rewrite Hl|].
  intros i t' Hi. destruct (Hc i t' Hi) as (t & Hit & [->| ->]); [by apply Ht|].
  apply set_fault_ok. by apply Ht.
Qed.

Lemma call_ok ex c : table_ok ex → wp (call ex c) (λ r, table_ok r.1).
Proof.
  intros Hok. destruct c; unfold call; cbn [wp fst snd].
  - by apply add_ok.
  - by apply add_with_id_ok.
  - pose proof (with_fault_handler_ok ex main handler Hok) as H.
    by destruct (add_with_fault_handler ex main handler).
  - by apply (chain_ok (auto_id "chain" ex).1).
  - by apply chain_ok.
  - pose proof (graph_ok ex b Hok) as H. by destruct (graph_build ex b).
  - by apply clear_task_ok.
  - by apply clear_executor_ok.
Qed.

Lemma calls_ok cs : ∀ ex, table_ok ex → wp (calls ex cs) table_ok.
Proof.
  induction cs as [|c cs IH]; intros ex Hok; [done|]. simpl. apply wp_bind.
  eapply wp_mono; [by apply call_ok|]. intros [ex' r] Hok'. by apply IH.
Qed.

(** C9. Every table that registration builds is well typed.  Whatever calls are
    made on a new executor, none of them panics; the statistics stay aligned with
    the tasks; every task is either cyclic with exactly one non-zero period,
    which is its scan period, or event-driven without one; graphs alone have no
    job; and every closure shares the atomics, the id and the budgets of the very
    entry that holds it. *)
Theorem registration_well_typed cfg hb now cs :
  ∃ ex, calls (build cfg hb now) cs = Ok ex ∧ table_ok ex.
Proof.
  apply wp_exists, calls_ok. split; [done|]. by intros i t.
Qed.

(** Calls that add a task. *)
Definition is_add (c : Call) : bool :=
  match c with CClearTaskFault _ | CClearExecutorFault => false | _ => true end.

(** The table grew by one entry, up to the handler field of one entry. *)
Definition grown (ex ex' : Executor) : Prop :=
  ∃ t, tasks ex' = tasks ex ++ [t] ∨
    ∃ k tk h, (tasks ex ++ [t]) !! k = Some tk ∧ tasks ex' = <[k := set_handler tk h]> (tasks ex ++ [t]).

Lemma add_with_id_effect ex i it : ∀ ex' r, add_with_id ex i it = (ex', r) →
  match r with
  | inl _ => ∃ t, ex' = push_task ex t ∧ handler_job t = None ∧ atomics t = atomics_new
  | inr _ => ex' = ex
  end.
Proof.
  unfold add_with_id. intros ex' r. destruct (it_declare it); [|by intros [= <- <-]].
  destruct (validate_decls _ _); [by intros [= <- <-]|].
  destruct (integrity_check _ _); intros [= <- <-]; [done|]. eexists. by split_and!.
Qed.

Lemma chain_effect ex i items : ∀ ex' r, add_chain_with_id_boxed ex i items = (ex', r) →
  match r with
  | inl _ => ∃ t, ex' = push_task ex t ∧ atomics t = atomics_new
  | inr _ => ex' = ex
  end.
Proof.
  unfold add_chain_with_id_boxed. intros ex' r. destruct items as [|it items]; [by intros [= <- <-]|].
  destruct (it_declare it); [|by intros [= <- <-]].
  destruct (validate_decls _ _); [by intros [= <- <-]|].
  destruct (integrity_check _ _); intros [= <- <-]; [done|]. eexists. by split_and!.
Qed.

Lemma graph_effect ex b ex' r : graph_build ex b = Ok (ex', r) →
  ∃ n, match r with
       | inl _ => ∃ t, ex' = push_task (set_next_id ex n) t ∧ atomics t = atomics_new
       | inr _ => ex' = set_next_id ex n
       end.
Proof.
  unfold graph_build. intros H. res_inv H. destruct a as [g|e]; [|injection H as <- <-; exists (next_id ex); by destruct ex].
  destruct (expect _) as [root|]; [|done].
  destruct (graph_id_next ex root (gb_custom_id b)) as (n & i & Hid). rewrite Hid in H.
  exists n. destruct (validate_decls _ _); [by injection H as <- <-|].
  destruct (integrity_check _ _); injection H as <- <-; [done|]. eexists. by split.
Qed.

(** A call that fails to add leaves the task table and the statistics as they
    were, and a call that succeeds adds exactly one entry at the end (and at most
    sets the handler of one entry).  The exception is [add_with_fault_handler]:
    when the handler's own declaration fails, the error is returned although the
    main item has been added, without a handler. *)
Theorem add_error_effect ex c ex' r : is_add c = true → call ex c = Ok (ex', r) →
  match r with
  | None => grown ex ex'
  | Some e =>
      tasks ex' = tasks ex ∧ cycle_stats ex' = cycle_stats ex ∨
      ∃ main handler t, c = CAddWithFaultHandler main handler ∧ it_declare handler = inr e ∧
        tasks ex' = tasks ex ++ [t] ∧ handler_job t = None
  end.
Proof.
  intros Hadd Hc. destruct c; try discriminate Hadd; unfold call in Hc.
  - destruct (add ex item) as [ex1 r1] eqn:E. injection Hc as <- <-.
    apply add_with_id_effect in E.
    destruct r1 as [tid|e]; [destruct E as (t & -> & _); by exists t; left|subst; by left].
  - destruct (add_with_id ex id0 item) as [ex1 r1] eqn:E. injection Hc as <- <-.
    apply add_with_id_effect in E.
    destruct r1 as [tid|e]; [destruct E as (t & -> & _); by exists t; left|subst; by left].
  - destruct (add_with_fault_handler ex main handler) as [[ex1 r1]|] eqn:E; [|done].
    injection Hc as <- <-. unfold add_with_fault_handler in E.
    destruct (add ex main) as [ex2 r2] eqn:Ea.
    apply add_with_id_effect in Ea. destruct r2 as [tid|e]; [|injection E as <- <-; subst; by left].
    destruct Ea as (t & -> & Ht & _). destruct (it_declare handler) as [d|e] eqn:Ed.
    + apply res_bind_Ok in E as (k & _ & E). apply res_bind_Ok in E as (tk & Hk & E).
      injection E as <- <-. exists t. right. eexists k, tk, _. split; [|done].
      by apply expect_Ok in Hk.
    + injection E as <- <-. right. exists main, handler, t. by split_and!.
  - destruct (add_chain ex items) as [ex1 r1] eqn:E. injection Hc as <- <-.
    apply chain_effect in E. destruct r1 as [tid|e]; [destruct E as (t & -> & _); by exists t; left|subst; by left].
  - destruct (add_chain_with_id_boxed ex id0 items) as [ex1 r1] eqn:E. injection Hc as <- <-.
    apply chain_effect in E. destruct r1 as [tid|e]; [destruct E as (t & -> & _); by exists t; left|subst; by left].
  - destruct (graph_build ex b) as [[ex1 r1]|] eqn:E; [|done]. injection Hc as <- <-.
    apply graph_effect in E as [n E]. destruct r1 as [tid|e]; [destruct E as (t & -> & _); by exists t; left|subst; by left].
Qed.

(** An item that declares one interval and nothing else. *)
Definition cyclic_item (tid : option string) (p : Z) : Item :=
  MkItem (inl (MkDeclarer [Interval p] None)) tid None None QualityManaged.
Definition plain_config : Config := MkConfig 1024 None ExecGrid.Grid None None.

Lemma add_error_effect_witness :
  let ex := build plain_config None 0 in
  let c := CAdd (cyclic_item None 0) in
  ∃ ex' e, call ex c = Ok (ex', Some e) ∧ tasks ex' = tasks ex.
Proof.
  eexists _, _. split; [reflexivity|].
  destruct (add_error_effect (build plain_config None 0) (CAdd (cyclic_item None 0)) _ _
              eq_refl eq_refl) as [[H _]|(m & h & t & H & _)]; [exact H|discriminate H].
Defined.

(** Where a fault handler ends up.  After a successful call the handler is on
    the first entry that has the id of the added task, with the atomics and the
    budget of that entry.  It is on the entry just added if and only if no
    earlier entry has that id; otherwise the new task has no handler and the
    handler replaces the main item of another task. *)
Theorem handler_on_first_entry ex main handler ex' tid :
  add_with_fault_handler ex main handler = Ok (ex', inl tid) →
  ∃ t k tk h, (tasks ex ++ [t]) !! k = Some tk ∧ id t = tid ∧ id tk = tid ∧
    tasks ex' = <[k := set_handler tk h]> (tasks ex ++ [t]) ∧ handler_job t = None ∧
    task_slot (j_ctx h) = k ∧ task_budget (j_ctx h) = budget tk ∧
    (k = length (tasks ex) ↔ tid ∉ id <$> tasks ex).
Proof.
  unfold add_with_fault_handler. intros H.
  destruct (add ex main) as [ex1 r] eqn:Ea. destruct r as [tid1|]; [|done].
  destruct (it_declare handler) as [d|]; [|done].
  apply res_bind_Ok in H as (k & Hk & H). apply res_bind_Ok in H as (tk & Htk & H).
  apply expect_Ok in Hk, Htk. injection H as <- <-.
  destruct (add_inv _ _ _ _ Ea) as (t & Ht & Hid & _).
  apply add_with_id_effect in Ea as (t' & Hex1 & Hnone & _).
  assert (t' = t) as -> by (apply (f_equal tasks) in Hex1; simpl in Hex1; rewrite Ht in Hex1;
    by apply app_inj_2 in Hex1 as [_ [= <-]]).
  apply position_Some in Hk as (tk' & Htk' & Hidk & Hfirst).
  rewrite Htk in Htk'. injection Htk' as <-. rewrite Ht in *.
  exists t, k, tk. eexists. split_and!; [done..|]. split.
  - intros -> Hin. apply list_elem_of_fmap in Hin as (u & Hu & [j Hj]%list_elem_of_lookup).
    apply (Hfirst j u); [by eapply lookup_lt_Some| |done]. by apply lookup_app_l_Some.
  - intros Hnot. apply lookup_app_Some in Htk as [Htk|[Hge Htk]].
    + destruct Hnot. apply list_elem_of_fmap. exists tk. split; [done|]. by eapply list_elem_of_lookup_2.
    + apply list_lookup_singleton_Some in Htk as [Hk _]. lia.
Qed.

Lemma handler_on_first_entry_witness :
  ∃ ex ex', add_with_fault_handler ex (cyclic_item (Some "a") 5) (cyclic_item None 1) = Ok (ex', inl "a") ∧
    ∃ t k tk h, (tasks ex ++ [t]) !! k = Some tk ∧ id t = "a" ∧ id tk = "a" ∧
      tasks ex' = <[k := set_handler tk h]> (tasks ex ++ [t]) ∧ handler_job t = None ∧
      task_slot (j_ctx h) = k ∧ task_budget (j_ctx h) = budget tk ∧
      (k = length (tasks ex) ↔ "a" ∉ id <$> tasks ex).
Proof.
  pose (ex := (add (build plain_config None 0) (cyclic_item (Some "a") 7)).1).
  exists ex. eexists. split; [reflexivity|].
  apply (handler_on_first_entry ex (cyclic_item (Some "a") 5) (cyclic_item None 1)). reflexivity.
Defined.

End ExecTask.
