(* ===== verification/ExecAttach.v ===== *)
(** * Attachments of the dispatch loop

    Models [taktora-executor/src/attachment_map.rs] and the functions of
    [executor.rs] that attach a task table to a [WaitSet] and resolve the id of a
    fired attachment: [collect_trigger_listeners], [attach_decl],
    [build_attachments], [linear_scan] and [AttachmentMap].

    The wait set, its guards and its attachment ids belong to iceoryx2: they are
    parameters, and what the code relies on of them is the class [WaitSetIds].
    [slice::binary_search_by] is the loop of the standard library; sorting
    unstably by unique keys is sorting. *)

From stdpp Require Import base list strings sorting sets.
From Stdlib Require Import ZArith Lia.
From S2P Require Import Prelude ExecGrid ExecTask.

Module ExecAttach.
Import ExecTask.
#[local] Existing Instance ExecGrid.DispatchMode_eq_dec.

(** Attachment ids, their order, and how they relate to guards. *)
Class WaitSetIds (Id Guard : Type) := {
  id_cmp : Id → Id → comparison;
  from_guard : Guard → Id;
  has_event_from : Id → Guard → bool;
  has_missed_deadline : Id → Guard → bool;
  (** [Ord] is a total order. *)
  id_cmp_eq a b : id_cmp a b = Eq ↔ a = b;
  id_cmp_antisym a b : id_cmp b a = CompOpp (id_cmp a b);
  id_cmp_trans a b c : id_cmp a b = Lt → id_cmp b c = Lt → id_cmp a c = Lt;
}.

(** Sentinel: an id of no task. *)
Definition IGNORE : Z := 2 ^ 64 - 1.

Section map.
Context {Id Guard : Type} {WS : WaitSetIds Id Guard}.

Record AttachmentMap := MkMap { entries : list (Id * Z); capacity : nat }.

(** ** The standard library's binary search *)

(** [f i] compares entry [i] with the key. *)
Fixpoint bs_loop (fuel : nat) (f : nat → comparison) (base size : nat) : nat :=
  match fuel with
  | O => base
  | S fuel =>
      if (size <=? 1)%nat then base
      else
        let half := (size / 2)%nat in
        let mid := (base + half)%nat in
        bs_loop fuel f (match f mid with Gt => base | _ => mid end) (size - half)
  end.

(** [Ok i] is [inl i], [Err i] is [inr i]. *)
Definition binary_search_by (f : nat → comparison) (n : nat) : nat + nat :=
  match n with
  | O => inr O
  | _ =>
      let base := bs_loop n f O n in
      match f base with
      | Eq => inl base
      | Lt => inr (S base)
      | Gt => inr base
      end
  end.

(** How entry [i] of the map compares with [key]. *)
Definition probe (es : list (Id * Z)) (key : Id) (i : nat) : comparison :=
  match es !! i with Some (k, _) => id_cmp k key | None => Gt end.

(** ** Resolving ids *)

Definition guard_matches (id : Id) (g : Guard) : bool :=
  has_event_from id g || has_missed_deadline id g.

(** [dbg]: debug assertions are enabled. *)
Fixpoint linear_scan_loop (dbg : bool) (guards : list Guard) (tasks : list Z) (id : Id) (found : Z)
    : res Z :=
  match guards with
  | [] => Ok found
  | g :: guards =>
      if guard_matches id g then
        t ← expect (tasks !! 0%nat);
        if dbg then
          if found =? IGNORE then linear_scan_loop dbg guards (drop 1 tasks) id t else Panic
        else Ok t
      else linear_scan_loop dbg guards (drop 1 tasks) id found
  end.
Definition linear_scan (dbg : bool) (guards : list Guard) (attachment_to_task : list Z) (id : Id)
    : res Z := linear_scan_loop dbg guards attachment_to_task id IGNORE.

(** The order of entries: by id. *)
Definition entry_le (a b : Id * Z) : Prop := id_cmp a.1 b.1 ≠ Gt.
#[export] Instance entry_le_dec a b : Decision (entry_le a b).
Proof. unfold entry_le. destruct (id_cmp a.1 b.1); [left|left|right]; congruence. Defined.

(** [attachment_to_task[i]] is in range: both vectors are filled together. *)
Definition map_build (guards : list Guard) (attachment_to_task : list Z) (deadline_count : nat)
    : AttachmentMap :=
  MkMap (merge_sort entry_le (zip (from_guard <$> guards) attachment_to_task))
    (length guards + deadline_count + 2).

(** A learn past the reserved capacity fails the debug assertion. *)
Definition resolve (dbg : bool) (m : AttachmentMap) (id : Id) (slow : Id → res Z)
    : res (AttachmentMap * Z) :=
  match binary_search_by (probe (entries m) id) (length (entries m)) with
  | inl pos => e ← expect (entries m !! pos); Ok (m, e.2)
  | inr pos =>
      v ← slow id;
      if dbg && (capacity m <=? length (entries m))%nat then Panic
      else if (length (entries m) <? pos)%nat then Panic
      else Ok (MkMap (take pos (entries m) ++ (id, v) :: drop pos (entries m)) (capacity m), v)
  end.

(** The ids of a run of the loop, resolved one after the other. *)
Fixpoint resolve_all (dbg : bool) (guards : list Guard) (att : list Z) (m : AttachmentMap)
    (ids : list Id) : res (AttachmentMap * list Z) :=
  match ids with
  | [] => Ok (m, [])
  | i :: ids =>
      '(m, v) ← resolve dbg m i (linear_scan dbg guards att);
      '(m, vs) ← resolve_all dbg guards att m ids;
      Ok (m, v :: vs)
  end.

(** ** Binary search is correct on sorted entries *)

Definition sorted (es : list (Id * Z)) : Prop :=
  ∀ i j a b, (i < j)%nat → es !! i = Some a → es !! j = Some b → id_cmp a.1 b.1 = Lt.

(** [f] is monotone on [0 .. n): first [Lt], then [Eq] at most once, then [Gt]. *)
Definition monotone (f : nat → comparison) (n : nat) : Prop :=
  ∀ i j, (i < j < n)%nat → (f j ≠ Gt → f i = Lt).

Lemma bs_loop_spec fuel f n : ∀ base size, monotone f n →
  (size ≤ fuel)%nat → (1 ≤ size)%nat → (base + size ≤ n)%nat →
  (∀ i, (base + size ≤ i < n)%nat → f i = Gt) →
  (base = O ∨ f base ≠ Gt) →
  let b := bs_loop fuel f base size in
  (b < n)%nat ∧ (∀ i, (b < i < n)%nat → f i = Gt) ∧ (b = O ∨ f b ≠ Gt).
Proof.
  induction fuel as [|fuel IH]; intros base size Hm Hf H1 Hn Hhi Hlo; [lia|].
  cbn [bs_loop].
  destruct (Nat.leb_spec size 1).
  - split_and!; [lia| |done]. intros i Hi. apply Hhi. lia.
  - assert (1 ≤ size / 2 < size)%nat as Hh.
    { split; [apply Nat.div_le_lower_bound; lia|apply Nat.div_lt; lia]. }
    pose proof (Nat.Div0.mul_div_le size 2) as H2.
    set (half := (size / 2)%nat) in *. destruct (f (base + half)%nat) eqn:Em.
    1,2: apply IH; [done|lia|lia|lia|intros i Hi; apply Hhi; lia|right; congruence].
    apply IH; [done|lia|lia|lia| |done]. intros i Hi.
    destruct (decide (i = base + half)%nat) as [->|]; [done|].
    destruct (decide (base + size ≤ i)%nat) as [|]; [apply Hhi; lia|].
    destruct (decide (f i = Gt)) as [|Hne]; [done|].
    assert (f (base + half)%nat = Lt); [|congruence]. apply (Hm _ i); [lia|done].
Qed.

Lemma binary_search_spec f n : monotone f n →
  match binary_search_by f n with
  | inl i => (i < n)%nat ∧ f i = Eq
  | inr i => (i ≤ n)%nat ∧ (∀ k, (k < i)%nat → f k = Lt) ∧ (∀ k, (i ≤ k < n)%nat → f k = Gt)
  end.
Proof.
  intros Hm. unfold binary_search_by. destruct n as [|n]; [split_and!; lia|].
  destruct (bs_loop_spec (S n) f (S n) O (S n) Hm) as (Hb & Hhi & Hlo); [lia..| |by left|].
  { intros i Hi. lia. }
  set (b := bs_loop (S n) f O (S n)) in *. destruct (f b) eqn:Eb; [done|..].
  - split_and!; [lia| |intros k Hk; apply Hhi; lia].
    intros k Hk. destruct (decide (k = b)) as [->|]; [done|]. apply (Hm k b); [lia|congruence].
  - destruct Hlo as [->|]; [|done]. split_and!; [lia|lia|]. intros k Hk.
    destruct (decide (k = O)) as [->|]; [done|]. apply Hhi. lia.
Qed.

Lemma probe_monotone es key : sorted es → monotone (probe es key) (length es).
Proof.
  intros Hs i j [Hij Hj] Hp. unfold probe in *.
  destruct (lookup_lt_is_Some_2 es j Hj) as [[kj vj] Ej]. rewrite Ej in Hp.
  destruct (lookup_lt_is_Some_2 es i) as [[ki vi] Ei]; [lia|]. rewrite Ei.
  pose proof (Hs i j _ _ Hij Ei Ej) as Hlt. simpl in Hlt. destruct (id_cmp kj key) eqn:E; [|..|done].
  - apply id_cmp_eq in E as ->. done.
  - by eapply id_cmp_trans.
Qed.

Lemma cmp_refl a : id_cmp a a = Eq.
Proof. by apply id_cmp_eq. Qed.
Lemma cmp_gt_lt a b : id_cmp a b = Gt ↔ id_cmp b a = Lt.
Proof. rewrite (id_cmp_antisym a b). destruct (id_cmp a b); simpl; naive_solver. Qed.

Lemma sorted_insert es key v pos : sorted es → (pos ≤ length es)%nat →
  (∀ k, (k < pos)%nat → probe es key k = Lt) →
  (∀ k, (pos ≤ k < length es)%nat → probe es key k = Gt) →
  sorted (take pos es ++ (key, v) :: drop pos es).
Proof.
  intros Hs Hp Hlo Hhi i j a b Hij Ha Hb.
  assert (∀ k c, (take pos es ++ (key, v) :: drop pos es) !! k = Some c →
    (k < pos)%nat ∧ es !! k = Some c ∧ id_cmp c.1 key = Lt ∨ k = pos ∧ c = (key, v) ∨
    (pos < k)%nat ∧ es !! (k - 1)%nat = Some c ∧ id_cmp key c.1 = Lt) as Hcase.
  { clear -Hp Hlo Hhi WS. intros k c Hk. destruct (decide (k < pos)%nat) as [Hlt|Hge].
    - left. rewrite lookup_app_l, lookup_take_lt in Hk by (rewrite ?length_take; lia).
      split_and!; [done|done|]. specialize (Hlo k Hlt). unfold probe in Hlo. rewrite Hk in Hlo.
      by destruct c.
    - right. rewrite lookup_app_r in Hk by (rewrite length_take; lia). rewrite length_take in Hk.
      replace (k - pos `min` length es)%nat with (k - pos)%nat in Hk by lia.
      destruct (decide (k = pos)) as [->|]; [left|right].
      + rewrite Nat.sub_diag in Hk. by injection Hk as <-.
      + destruct (k - pos)%nat as [|m] eqn:E; [lia|]. simpl in Hk. rewrite lookup_drop in Hk.
        replace (pos + m)%nat with (k - 1)%nat in Hk by lia. split_and!; [lia|done|].
        pose proof (lookup_lt_Some _ _ _ Hk). specialize (Hhi (k - 1)%nat ltac:(lia)).
        unfold probe in Hhi. rewrite Hk in Hhi. destruct c. by apply cmp_gt_lt. }
  destruct (Hcase i a Ha) as [(? & Ea & Ca)|[[-> ->]|(? & Ea & Ca)]];
    destruct (Hcase j b Hb) as [(? & Eb & Cb)|[[-> ->]|(? & Eb & Cb)]]; try lia; try done.
  - eapply Hs; [|done|done]. lia.
  - by eapply id_cmp_trans.
  - eapply Hs; [|done|done]. lia.
Qed.

(** ** The map and the scan agree *)

(** No id of a guard matches another guard. *)
Definition unique_guards (guards : list Guard) : Prop :=
  ∀ i j a b, guards !! i = Some a → guards !! j = Some b →
    guard_matches (from_guard a) b = true ↔ i = j.
(** An id matches at most one guard. *)
Definition one_match (guards : list Guard) (id : Id) : Prop :=
  ∀ i j a b, guards !! i = Some a → guards !! j = Some b →
    guard_matches id a = true → guard_matches id b = true → i = j.

(** The reference: the task of the guard that matches. *)
Fixpoint owner (guards : list Guard) (att : list Z) (id : Id) : Z :=
  match guards, att with
  | g :: guards, t :: att => if guard_matches id g then t else owner guards att id
  | _, _ => IGNORE
  end.

Lemma linear_scan_owner dbg guards : ∀ att id, length att = length guards → one_match guards id →
  ∀ found, (found = IGNORE ∨ Forall (λ g, guard_matches id g = false) guards) →
  linear_scan_loop dbg guards att id found =
    Ok (if existsb (guard_matches id) guards then owner guards att id else found).
Proof.
  induction guards as [|g guards IH]; intros [|t att] id Hl Hone found Hf; try done.
  simpl in Hl. cbn [linear_scan_loop existsb owner].
  assert (one_match guards id) as Hone'.
  { intros i j a b Hi Hj Ha Hb. assert (S i = S j); [|lia]. by eapply (Hone (S i) (S j)). }
  destruct (guard_matches id g) eqn:Eg; cbn [orb].
  - cbn [lookup list_lookup expect mbind res_bind]. destruct dbg; [|done].
    destruct Hf as [->|Hf]; [|apply Forall_cons in Hf as [Hf _]; congruence].
    rewrite Z.eqb_refl. change (drop 1 (t :: att)) with att.
    assert (Forall (λ g, guard_matches id g = false) guards) as Hn.
    { apply Forall_lookup. intros i b Hi. destruct (guard_matches id b) eqn:Eb; [|done].
      assert (O = S i); [|lia]. by eapply (Hone O (S i)). }
    rewrite IH; [|lia|done|by right].
    rewrite (proj2 (existsb_Forall _ _) Hn). done.
  - change (drop 1 (t :: att)) with att. rewrite IH; [done|lia|done|]. destruct Hf as [|Hf]; [by left|right].
    by apply Forall_cons in Hf as [_ ?].
Qed.

Lemma owner_none guards : ∀ att id, existsb (guard_matches id) guards = false →
  owner guards att id = IGNORE.
Proof.
  induction guards as [|g guards IH]; intros [|t att] id H; try done. simpl in *.
  apply orb_false_iff in H as [-> H]. by apply IH.
Qed.

Lemma linear_scan_ok dbg guards att id : length att = length guards → one_match guards id →
  linear_scan dbg guards att id = Ok (owner guards att id).
Proof.
  intros Hl Ho. unfold linear_scan. rewrite linear_scan_owner; [|done|done|by left].
  destruct (existsb _ _) eqn:E; [done|]. by rewrite owner_none.
Qed.

Lemma owner_lookup guards : ∀ att i g t id, guards !! i = Some g → att !! i = Some t →
  guard_matches id g = true → one_match guards id → owner guards att id = t.
Proof.
  induction guards as [|g0 guards IH]; intros [|t0 att] i g t id Hg Ht Hm Ho; try done.
  simpl. destruct (guard_matches id g0) eqn:E.
  - assert (O = i) as <- by (by eapply (Ho O i)). by injection Ht as <-.
  - destruct i as [|i]; [injection Hg as <-; congruence|]. eapply IH; [done|done|done|].
    intros a b x y Ha Hb Hx Hy. assert (S a = S b); [|lia]. by eapply (Ho (S a) (S b)).
Qed.

(** The map holds the owner of each key; the ids of all guards are keys. *)
Definition map_inv (guards : list Guard) (att : list Z) (cap : nat) (m : AttachmentMap) : Prop :=
  sorted (entries m) ∧ capacity m = cap ∧
  Forall (λ e, e.2 = owner guards att e.1) (entries m) ∧
  (from_guard <$> guards) ⊆ (entries m).*1.

Lemma sorted_NoDup es : sorted es → NoDup es.*1.
Proof.
  intros Hs. apply NoDup_alt. intros i j k Hi Hj.
  rewrite list_lookup_fmap in Hi, Hj. apply fmap_Some in Hi as (a & Ha & ->), Hj as (b & Hb & Eab).
  destruct (lt_eq_lt_dec i j) as [[Hlt|]|Hlt]; [exfalso|done|exfalso].
  - pose proof (Hs i j _ _ Hlt Ha Hb) as H. rewrite Eab, cmp_refl in H. done.
  - pose proof (Hs j i _ _ Hlt Hb Ha) as H. rewrite Eab, cmp_refl in H. done.
Qed.

Lemma resolve_step dbg guards att cap m id extra : length att = length guards →
  map_inv guards att cap m → one_match guards id →
  (entries m).*1 ⊆ (from_guard <$> guards) ++ extra → id ∈ (from_guard <$> guards) ++ extra →
  (length ((from_guard <$> guards) ++ extra) ≤ cap)%nat →
  ∃ m', resolve dbg m id (linear_scan dbg guards att) = Ok (m', owner guards att id) ∧
    map_inv guards att cap m' ∧ (entries m').*1 ⊆ (from_guard <$> guards) ++ extra.
Proof.
  intros Hl (Hs & Hcap & Hv & Hk) Ho Hsub Hin Hlen. unfold resolve.
  pose proof (binary_search_spec _ _ (probe_monotone (entries m) id Hs)) as Hb.
  destruct (binary_search_by _ _) as [pos|pos].
  - destruct Hb as [Hpos Heq]. unfold probe in Heq.
    destruct (entries m !! pos) as [[k v]|] eqn:E; [|done]. apply id_cmp_eq in Heq as ->.
    exists m. cbn [expect mbind res_bind snd]. rewrite Forall_lookup in Hv.
    pose proof (Hv _ _ E) as Hvk. simpl in Hvk. subst v. split_and!; [done| |done].
    split_and!; [done|done| |done]. by apply Forall_lookup.
  - destruct Hb as (Hpos & Hlo & Hhi). rewrite linear_scan_ok by done. cbn [mbind res_bind].
    assert (id ∉ (entries m).*1) as Hnew.
    { intros [[k v] [Hkv [i Hi]%list_elem_of_lookup]]%list_elem_of_fmap. simpl in Hkv. subst k.
      destruct (decide (i < pos)%nat) as [H|H].
      - specialize (Hlo i H). unfold probe in Hlo. rewrite Hi, cmp_refl in Hlo. done.
      - specialize (Hhi i). unfold probe in Hhi. rewrite Hi, cmp_refl in Hhi.
        apply lookup_lt_Some in Hi. discriminate Hhi. lia. }
    assert (S (length (entries m)) ≤ cap)%nat as Hroom.
    { etransitivity; [|exact Hlen]. rewrite <-(length_fmap fst (entries m)).
      apply (submseteq_length (id :: (entries m).*1)), NoDup_submseteq.
      - constructor; [done|by apply sorted_NoDup].
      - intros x [->|Hx]%elem_of_cons; [done|by apply Hsub]. }
    rewrite Hcap. rewrite (proj2 (Nat.leb_gt cap _)), andb_false_r by lia.
    rewrite (proj2 (Nat.ltb_ge _ _)) by lia.
    eexists. split; [done|].
    assert (∀ x, x ∈ take pos (entries m) ++ (id, owner guards att id) :: drop pos (entries m) ↔
      x = (id, owner guards att id) ∨ x ∈ entries m) as Helem.
    { intros x. assert (x ∈ entries m ↔ x ∈ take pos (entries m) ∨ x ∈ drop pos (entries m)) as ->
        by (by rewrite <-elem_of_app, take_drop).
      rewrite elem_of_app, elem_of_cons. tauto. }
    split_and!; [split_and!|]; cbn [entries].
    + by apply sorted_insert.
    + done.
    + apply Forall_forall. intros x [->|Hx]%Helem; [done|].
      rewrite Forall_forall in Hv. by apply Hv.
    + intros x Hx%Hk. apply list_elem_of_fmap in Hx as (y & -> & Hy).
      apply list_elem_of_fmap. exists y. split; [done|]. apply Helem. by right.
    + intros x (y & -> & [->|Hy]%Helem)%list_elem_of_fmap; [done|].
      apply Hsub. apply list_elem_of_fmap. by exists y.
Qed.

Lemma cmp_le_trans a b c : id_cmp a b ≠ Gt → id_cmp b c ≠ Gt → id_cmp a c ≠ Gt.
Proof.
  intros Hab Hbc. destruct (id_cmp a b) eqn:E1; [|..|done].
  - by apply id_cmp_eq in E1 as ->.
  - destruct (id_cmp b c) eqn:E2; [|..|done].
    + apply id_cmp_eq in E2 as <-. congruence.
    + by rewrite (id_cmp_trans a b c).
Qed.
#[local] Instance entry_le_trans : Transitive entry_le.
Proof. intros a b c. apply cmp_le_trans. Qed.
#[local] Instance entry_le_total : Total entry_le.
Proof.
  intros a b. unfold entry_le. rewrite (id_cmp_antisym a.1 b.1).
  destruct (id_cmp a.1 b.1); simpl; [left|left|right]; congruence.
Qed.

Lemma strongly_sorted es : StronglySorted entry_le es → NoDup es.*1 → sorted es.
Proof.
  induction 1 as [|x es Hs IH Hx]; intros Hnd i j a b Hij Ha Hb; [done|].
  apply NoDup_cons in Hnd as [Hnot Hnd]. destruct j as [|j]; [lia|]. simpl in Hb.
  destruct i as [|i]; simpl in Ha; [|eapply (IH Hnd i j); [lia|done|done]].
  injection Ha as <-. rewrite Forall_lookup in Hx. pose proof (Hx _ _ Hb) as Hle. unfold entry_le in Hle.
  destruct (id_cmp x.1 b.1) eqn:E; [|done|done]. apply id_cmp_eq in E. exfalso. apply Hnot.
  rewrite E. apply list_elem_of_fmap. exists b. split; [done|]. by eapply list_elem_of_lookup_2.
Qed.

Lemma unique_NoDup guards : unique_guards guards → NoDup (from_guard <$> guards).
Proof.
  intros Hu. apply NoDup_alt. intros i j x Hi Hj. rewrite list_lookup_fmap in Hi, Hj.
  apply fmap_Some in Hi as (a & Ha & ->), Hj as (b & Hb & Eab).
  apply (Hu i j a b Ha Hb). rewrite Eab. by apply (Hu j j b b).
Qed.

Lemma unique_one_match guards i a : unique_guards guards → guards !! i = Some a →
  one_match guards (from_guard a).
Proof.
  intros Hu Ha j k b c Hb Hc Hmb Hmc. apply (Hu i j a b Ha Hb) in Hmb.
  apply (Hu i k a c Ha Hc) in Hmc. congruence.
Qed.

Lemma map_build_inv guards att dc : unique_guards guards → length att = length guards →
  map_inv guards att (length guards + dc + 2) (map_build guards att dc) ∧
  (entries (map_build guards att dc)).*1 ⊆ from_guard <$> guards.
Proof.
  intros Hu Hl. unfold map_build. set (es := zip (from_guard <$> guards) att).
  pose proof (merge_sort_Permutation entry_le es) as Hp.
  assert (es.*1 = from_guard <$> guards) as Hk by (apply fst_zip; rewrite length_fmap; lia).
  assert ((merge_sort entry_le es).*1 ≡ₚ from_guard <$> guards) as Hkeys.
  { rewrite <-Hk. by apply fmap_Permutation. }
  split; [|cbn [entries]; by rewrite Hkeys]. split_and!; cbn [entries capacity].
  - apply strongly_sorted; [apply StronglySorted_merge_sort; apply _|].
    rewrite Hkeys. by apply unique_NoDup.
  - done.
  - rewrite Hp. apply Forall_lookup. intros i [k t] Hi.
    apply lookup_zip_Some in Hi as [Hg Ht]. rewrite list_lookup_fmap in Hg.
    apply fmap_Some in Hg as (g & Hg & ->). simpl. symmetry.
    eapply owner_lookup; [done|done| |by eapply unique_one_match]. by apply (Hu i i).
  - by rewrite Hkeys.
Qed.

Lemma resolve_all_ok dbg guards att cap extra ids : length att = length guards →
  (length ((from_guard <$> guards) ++ extra) ≤ cap)%nat →
  ∀ m, map_inv guards att cap m → (entries m).*1 ⊆ (from_guard <$> guards) ++ extra →
  Forall (λ i, one_match guards i ∧ i ∈ (from_guard <$> guards) ++ extra) ids →
  ∃ m', resolve_all dbg guards att m ids = Ok (m', owner guards att <$> ids).
Proof.
  intros Hl Hcap. induction ids as [|i ids IH]; intros m Hm Hsub Hids; [by exists m|].
  apply Forall_cons in Hids as [[Ho Hi] Hids].
  destruct (resolve_step dbg guards att cap m i extra) as (m1 & H1 & Hm1 & Hsub1); [done..|].
  destruct (IH m1 Hm1 Hsub1 Hids) as [m' H']. exists m'.
  cbn [resolve_all]. rewrite H1. cbn [mbind res_bind]. by rewrite H'.
Qed.

Lemma mapM_linear_scan dbg guards att ids : length att = length guards →
  Forall (one_match guards) ids → mapM (linear_scan dbg guards att) ids = Ok (owner guards att <$> ids).
Proof.
  intros Hl. induction 1 as [|i ids Hi _ IH]; [done|]. cbn [mapM].
  rewrite linear_scan_ok by done. cbn [mbind res_bind]. by rewrite IH.
Qed.

(** The logarithmic map is the linear scan.  Let no id of a guard match
    another guard, and let the fired ids be ids of guards or at most
    [deadline_count + 2] others, each matching at most one guard.  Then, for every
    sequence of fired ids, resolving them through the map that learns as it goes
    returns exactly what scanning the guards for each id returns, without a panic
    and, with debug assertions, without exceeding the reserved capacity. *)
Theorem resolve_matches_scan dbg guards att dc extra ids : unique_guards guards →
  length att = length guards → (length extra ≤ dc + 2)%nat →
  Forall (λ i, one_match guards i ∧ i ∈ (from_guard <$> guards) ++ extra) ids →
  ∃ m vs, resolve_all dbg guards att (map_build guards att dc) ids = Ok (m, vs) ∧
    mapM (linear_scan dbg guards att) ids = Ok vs.
Proof.
  intros Hu Hl He Hids. destruct (map_build_inv guards att dc Hu Hl) as [Hm Hsub].
  destruct (resolve_all_ok dbg guards att (length guards + dc + 2) extra ids Hl) with (m := map_build guards att dc)
    as [m' Hm']; [|done| |done|].
  - rewrite length_app, length_fmap. lia.
  - intros x Hx. apply elem_of_app. left. by apply Hsub.
  - exists m', (owner guards att <$> ids). split; [done|]. apply mapM_linear_scan; [done|].
    eapply Forall_impl; [exact Hids|]. naive_solver.
Qed.

End map.

(** Concrete ids: file descriptor [n] notifies as [2n] and misses a deadline as
    [2n + 1]. *)
#[export] Instance fd_ids : WaitSetIds Z (Z * bool).
Proof.
  refine {| id_cmp := Z.compare;
            from_guard g := if g.2 : bool then 2 * g.1 + 1 else 2 * g.1;
            has_event_from i g := i =? 2 * g.1;
            has_missed_deadline i g := g.2 && (i =? 2 * g.1 + 1) |}.
  - apply Z.compare_eq_iff.
  - apply Z.compare_antisym.
  - intros a b c. rewrite !Z.compare_lt_iff. apply Z.lt_trans.
Defined.

Lemma fd_unique_guards : unique_guards [(3, true); (1, false)].
Proof.
  intros [|[|i]] [|[|j]] a b Ha Hb; try (by destruct i); try (by destruct j);
    injection Ha as <-; injection Hb as <-; vm_compute; split; congruence.
Qed.
Lemma fd_one_match x : one_match [(3, true); (1, false)] x.
Proof.
  intros [|[|i]] [|[|j]] a b Ha Hb; try (by destruct i); try (by destruct j);
    injection Ha as <-; injection Hb as <-; try done; unfold guard_matches; cbn; lia.
Qed.

Lemma resolve_matches_scan_witness :
  ∃ m vs, resolve_all true [(3, true); (1, false)] [10; 20] (map_build [(3, true); (1, false)] [10; 20] 1)
      [6; 2; 7; 6; 100] = Ok (m, vs) ∧
    mapM (linear_scan true [(3, true); (1, false)] [10; 20]) [6; 2; 7; 6; 100] = Ok vs.
Proof.
  apply (resolve_matches_scan true [(3, true); (1, false)] [10; 20] 1 [6; 100]).
  - apply fd_unique_guards.
  - reflexivity.
  - simpl. lia.
  - apply Forall_forall. intros x Hx. split; [apply fd_one_match|]. vm_compute in Hx |- *. set_solver.
Defined.

(** ** Attaching the task table *)

(** What the executor asks of the wait set. *)
Inductive Request :=
| ANotification (listener : nat)
| AInterval (d : Z)
| ADeadline (listener : nat) (deadline : Z).

(** The nested loop over tasks and their declarations. *)
Definition each_decl (ts : list TaskEntry) : list (nat * TriggerDecl) :=
  concat (imap (λ i t, pair i <$> decls t) ts).

(** Listener storage, cyclic task indices, cyclic periods. *)
Fixpoint collect_trigger_listeners (mode : ExecGrid.DispatchMode) (ds : list (nat * TriggerDecl))
    : list nat * list nat * list Z :=
  match ds with
  | [] => ([], [], [])
  | (task_idx, d) :: ds =>
      let '(ls, ci, cp) := collect_trigger_listeners mode ds in
      match d with
      | Interval p =>
          if decide (mode = ExecGrid.Grid) then (ls, task_idx :: ci, Z.min (2 ^ 64 - 1) p :: cp)
          else (ls, ci, cp)
      | Subscriber l | RawListener l | Deadline l _ => (l :: ls, ci, cp)
      end
  end.

Section attach.
(** The wait set: attaching yields a guard or an error. *)
Context {W Guard : Type} (attach : W → Request → (W * Guard) + string).

Definition attach_req (ws : W) (r : Request) : (W * Guard) + ExecutorError :=
  match attach ws r with inl x => inl x | inr e => inr (Iceoryx2 e) end.

(** The next listener of the storage; the index advances either way. *)
Definition attach_decl (ws : W) (d : TriggerDecl) (storage : list nat) (listener_idx : nat)
    : nat * ((W * Guard) + ExecutorError) :=
  let next_listener (f : nat → Request) :=
    (S listener_idx,
     match storage !! listener_idx with
     | Some l => attach_req ws (f l)
     | None => inr (DeclareTriggers "listener index out of bounds")
     end) in
  match d with
  | Subscriber _ | RawListener _ => next_listener ANotification
  | Interval p => (listener_idx, attach_req ws (AInterval p))
  | Deadline _ e => next_listener (λ l, ADeadline l e)
  end.

Record Attached := MkAttached {
  at_ws : W;
  at_guards : list Guard;
  at_tasks : list nat;
  at_deadlines : nat;
}.

Definition skips (mode : ExecGrid.DispatchMode) (d : TriggerDecl) : bool :=
  bool_decide (mode = ExecGrid.Grid) && is_interval d.

Fixpoint attach_loop (mode : ExecGrid.DispatchMode) (storage : list nat) (ds : list (nat * TriggerDecl))
    (listener_idx : nat) (a : Attached) : Attached + ExecutorError :=
  match ds with
  | [] => inl a
  | (task_idx, d) :: ds =>
      if skips mode d then attach_loop mode storage ds listener_idx a
      else
        let dc := match d with Deadline _ _ => S (at_deadlines a) | _ => at_deadlines a end in
        let '(li, r) := attach_decl (at_ws a) d storage listener_idx in
        match r with
        | inr e => inr e
        | inl (ws, g) =>
            attach_loop mode storage ds li
              (MkAttached ws (at_guards a ++ [g]) (at_tasks a ++ [task_idx]) dc)
        end
  end.

(** Attached guards, cyclic task indices and cyclic periods. *)
Definition build_attachments (ws : W) (ts : list TaskEntry) (mode : ExecGrid.DispatchMode)
    : (Attached * list nat * list Z) + ExecutorError :=
  let '(storage, ci, cp) := collect_trigger_listeners mode (each_decl ts) in
  match attach_loop mode storage (each_decl ts) 0 (MkAttached ws [] [] 0) with
  | inl a => inl (a, ci, cp)
  | inr e => inr e
  end.

(** *** The reference: each declaration with its own listener *)

Definition request_of (d : TriggerDecl) : Request :=
  match d with
  | Subscriber l | RawListener l => ANotification l
  | Interval p => AInterval p
  | Deadline l e => ADeadline l e
  end.
Fixpoint attach_each (ws : W) (ds : list (nat * TriggerDecl)) : (W * list Guard) + string :=
  match ds with
  | [] => inl (ws, [])
  | (_, d) :: ds =>
      match attach ws (request_of d) with
      | inr e => inr e
      | inl (ws, g) =>
          match attach_each ws ds with inl (ws, gs) => inl (ws, g :: gs) | inr e => inr e end
      end
  end.
Definition is_deadline (d : TriggerDecl) : bool :=
  match d with Deadline _ _ => true | _ => false end.
(** The declarations attached in a mode. *)
Definition attached_decls (mode : ExecGrid.DispatchMode) (ds : list (nat * TriggerDecl)) :
  list (nat * TriggerDecl) := List.filter (λ x, negb (skips mode x.2)) ds.

(** The listener a declaration brings to the storage. *)
Definition listeners_of (d : TriggerDecl) : list nat :=
  match d with Subscriber l | RawListener l | Deadline l _ => [l] | Interval _ => [] end.

Lemma collect_listeners mode ds :
  (collect_trigger_listeners mode ds).1.1 = concat ((λ x, listeners_of x.2) <$> ds).
Proof.
  induction ds as [|[i d] ds IH]; [done|]. cbn [collect_trigger_listeners fmap list_fmap concat].
  rewrite <-IH. destruct (collect_trigger_listeners mode ds) as [[ls ci] cp].
  destruct d; try done. by destruct (decide _).
Qed.

Lemma attach_decl_own ws d storage pre ls : storage = pre ++ listeners_of d ++ ls →
  attach_decl ws d storage (length pre) =
    (length (pre ++ listeners_of d), attach_req ws (request_of d)).
Proof.
  intros ->. unfold attach_decl.
  assert (∀ l, (pre ++ l :: ls) !! length pre = Some l) as Hl.
  { intros l. by rewrite lookup_app_r, Nat.sub_diag by lia. }
  destruct d; simpl; rewrite ?Hl, ?app_nil_r, ?length_app, ?Nat.add_1_r; done.
Qed.

Lemma skips_listeners mode d : skips mode d = true → listeners_of d = [] ∧ is_deadline d = false.
Proof. unfold skips. intros [_ H]%andb_true_iff. by destruct d. Qed.

Lemma attach_loop_spec mode ds : ∀ storage pre a,
  storage = pre ++ concat ((λ x, listeners_of x.2) <$> ds) →
  attach_loop mode storage ds (length pre) a =
    match attach_each (at_ws a) (attached_decls mode ds) with
    | inl (ws, gs) =>
        inl (MkAttached ws (at_guards a ++ gs) (at_tasks a ++ (attached_decls mode ds).*1)
               (at_deadlines a + length (List.filter (λ x, is_deadline x.2) ds)))
    | inr e => inr (Iceoryx2 e)
    end.
Proof.
  induction ds as [|[i d] ds IH]; intros storage pre a Hst.
  { simpl. rewrite !app_nil_r, Nat.add_0_r. by destruct a. }
  cbn [attach_loop attached_decls List.filter snd fmap list_fmap concat] in *.
  fold (attached_decls mode ds). destruct (skips mode d) eqn:Es; cbn [negb].
  - apply skips_listeners in Es as [El ->]. rewrite El in Hst. by apply IH.
  - rewrite (attach_decl_own _ d storage pre _ Hst). unfold attach_req. cbn [attach_each].
    destruct (attach (at_ws a) (request_of d)) as [[ws g]|e]; [|done].
    rewrite IH by (by rewrite <-app_assoc). cbn [at_ws at_guards at_tasks at_deadlines].
    destruct (attach_each ws _) as [[ws' gs]|e]; [|done]. rewrite <-!app_assoc.
    do 2 f_equal. destruct d; simpl; lia.
Qed.

(** Pass two of the attachment never runs out of listeners and never mixes
    them up.  [build_attachments] attaches the declarations in table order (in
    grid mode without the intervals), each with its own listener, records for
    each guard the task that declared it, counts the deadlines, and fails only
    with an error of the wait set, the first one. *)
Theorem attachments_exact ws ts mode :
  build_attachments ws ts mode =
    let ds := attached_decls mode (each_decl ts) in
    let '(_, ci, cp) := collect_trigger_listeners mode (each_decl ts) in
    match attach_each ws ds with
    | inl (ws', gs) =>
        inl (MkAttached ws' gs ds.*1 (length (List.filter (λ x, is_deadline x.2) (each_decl ts))), ci, cp)
    | inr e => inr (Iceoryx2 e)
    end.
Proof.
  unfold build_attachments. pose proof (collect_listeners mode (each_decl ts)) as Hc.
  destruct (collect_trigger_listeners mode (each_decl ts)) as [[storage ci] cp]. cbn [fst] in Hc.
  pose proof (attach_loop_spec mode _ storage [] (MkAttached ws [] [] 0) Hc) as H.
  cbn [length at_ws at_guards at_tasks at_deadlines app] in H. rewrite H.
  by destruct (attach_each ws _) as [[ws' gs]|e].
Qed.

Lemma attach_each_length ds : ∀ ws ws' gs, attach_each ws ds = inl (ws', gs) → length gs = length ds.
Proof.
  induction ds as [|[i d] ds IH]; intros ws ws' gs H; simpl in H; [by injection H as _ <-|].
  destruct (attach ws (request_of d)) as [[ws1 g]|]; [|done].
  destruct (attach_each ws1 ds) as [[ws2 gs']|] eqn:E; [|done].
  injection H as _ <-. simpl. f_equal. by eapply IH.
Qed.

End attach.
Arguments Attached : clear implicits.

(** ** The cyclic tasks of a well-typed table *)

(** The tasks of a table with a scan period, with their periods as [u64]. *)
Definition cyclic_tasks (ts : list TaskEntry) : list (nat * Z) :=
  omap (λ x : nat * TaskEntry, (λ p, (x.1, Z.min (2 ^ 64 - 1) p)) <$> scan_period x.2) (imap pair ts).

Lemma collect_app mode ds ds' :
  collect_trigger_listeners mode (ds ++ ds') =
    let '(l, c, p) := collect_trigger_listeners mode ds in
    let '(l', c', p') := collect_trigger_listeners mode ds' in
    (l ++ l', c ++ c', p ++ p').
Proof.
  induction ds as [|[i d] ds IH]; cbn [app collect_trigger_listeners].
  { by destruct (collect_trigger_listeners mode ds') as [[? ?] ?]. }
  rewrite IH. destruct (collect_trigger_listeners mode ds) as [[l c] p].
  destruct (collect_trigger_listeners mode ds') as [[l' c'] p'].
  destruct d; try done. by destruct (decide _).
Qed.

Lemma collect_step i t cfg : entry_ok cfg i t →
  (collect_trigger_listeners ExecGrid.Grid (pair i <$> decls t)).1.2 =
    (match scan_period t with Some _ => [i] | None => [] end) ∧
  (collect_trigger_listeners ExecGrid.Grid (pair i <$> decls t)).2 =
    (match scan_period t with Some p => [Z.min (2 ^ 64 - 1) p] | None => [] end).
Proof.
  intros ([(p & -> & _ & ->)|[Hf ->]] & _); [done|].
  induction Hf as [|d ds Hd _ [IH1 IH2]]; [done|]. cbn [fmap list_fmap collect_trigger_listeners].
  fold (fmap (M := list) (pair i) ds).
  destruct (collect_trigger_listeners _ (pair i <$> ds)) as [[l c] q]. by destruct d.
Qed.

Lemma collect_cyclic ex : table_ok ex →
  (collect_trigger_listeners ExecGrid.Grid (each_decl (tasks ex))).1.2 = (cyclic_tasks (tasks ex)).*1 ∧
  (collect_trigger_listeners ExecGrid.Grid (each_decl (tasks ex))).2 = (cyclic_tasks (tasks ex)).*2.
Proof.
  intros [_ Hok]. unfold each_decl, cyclic_tasks.
  assert (∀ (ts : list TaskEntry) (f : nat → nat), (∀ i t, ts !! i = Some t → entry_ok (config ex) (f i) t) →
    (collect_trigger_listeners ExecGrid.Grid (concat (imap (λ i t, pair (f i) <$> decls t) ts))).1.2 =
      (omap (λ x : nat * TaskEntry, (λ p, (x.1, Z.min (2 ^ 64 - 1) p)) <$> scan_period x.2)
         (imap (λ i t, (f i, t)) ts)).*1 ∧
    (collect_trigger_listeners ExecGrid.Grid (concat (imap (λ i t, pair (f i) <$> decls t) ts))).2 =
      (omap (λ x : nat * TaskEntry, (λ p, (x.1, Z.min (2 ^ 64 - 1) p)) <$> scan_period x.2)
         (imap (λ i t, (f i, t)) ts)).*2) as H.
  { induction ts as [|t ts IH]; intros f Hts; [done|]. cbn [imap concat omap list_omap].
    rewrite collect_app. destruct (collect_step (f O) t (config ex)) as [E1 E2]; [by apply Hts|].
    destruct (IH (f ∘ S)) as [IH1 IH2]; [intros i t' Hi; by apply Hts|].
    unfold compose in *. cbn [fst snd] in *.
    destruct (collect_trigger_listeners _ (pair (f O) <$> decls t)) as [[l c] p].
    destruct (collect_trigger_listeners _ (concat _)) as [[l' c'] p']. cbn [fst snd] in *. subst.
    by destruct (scan_period t). }
  apply (H (tasks ex) (λ i, i)). intros i t Hi. by apply Hok.
Qed.

End ExecAttach.
