(* ===== verification/ExecJobs.v ===== *)
(** * Dispatch closures, the pool and fault routing

    Models the part of [taktora-executor/src/executor.rs] that runs tasks: the
    three dispatch closures ([build_single_job], [build_handler_job],
    [build_chain_job]), [post_execute_detect_fault], [record_first_err], the
    routing of faulted tasks and the submission of jobs.

    A job in flight is the list of the accesses to shared state it still has to
    make ([Micro]): one per atomic access, lock-protected update or observer call,
    in program order.  The pool may advance any job in flight at any time between
    its submission and the barrier, so every interleaving of workers among
    themselves and with the dispatching thread is a sequence of such steps.  What
    user items do when they run (their result, duration, stop requests) is the
    parameter [outcome], by the number of the submission. *)

From stdpp Require Import base list strings sets.
From Stdlib Require Import ZArith Lia.
From S2P Require Import Prelude ExecFault ExecGrid ExecTask.

Module ExecJobs.
Import ExecFault ExecTask.

Inductive ItemFlow := Continue | StopChain.

(** How a call of [execute] ended; a panic may carry a message. *)
Inductive Ran := Returned (f : ItemFlow) | Failed (msg : string) | Panicked (payload : option string).

Record Outcome := MkOutcome {
  o_ran : Ran;
  o_stop : bool;       (** the item called [ctx.stop_executor()] *)
  o_started : Z;       (** [started], in milliseconds *)
  o_took : Z;          (** [took], in nanoseconds *)
  o_tele : Z;          (** the same interval on the telemetry clock *)
}.

(** A panic becomes an error of the item. *)
Definition run_item_catch_unwind (r : Ran) : ItemFlow + string :=
  match r with
  | Returned f => inl f
  | Failed msg => inr msg
  | Panicked payload => inr ("task panicked: " +:+ default "panicked task" payload)%string
  end.

(** The accesses of a closure. *)
Inductive Micro :=
| MEmit (e : Event)
| MStop
| MStoreTook (slot : nat) (ns : Z)
| MOverrun (slot : nat)
| MInitStart (at_ms : Z)
| MTaskSwap (slot : nat) (tid : TaskId) (started took_ms limit_ms : Z)
| MStoreIdx (idx : Z)
| MStoreBudget (ms : Z)
| MExecSwap (idx started took_ms limit_ms : Z)
| MRecordErr (tid : TaskId) (source : string).

(** ** The programs of the closures *)

Definition ns_to_ms_sat (ns : Z) : Z := duration_to_ms_sat (ns / 1000000).

Definition post_execute_detect_fault (tid : TaskId) (started took : Z) (ctx : FaultDispatchCtx)
    : list Micro :=
  (match task_budget ctx with
   | Some budget =>
       if budget <? took then
         [MOverrun (task_slot ctx); MInitStart started;
          MTaskSwap (task_slot ctx) tid started (ns_to_ms_sat took) (ns_to_ms_sat budget)]
       else []
   | None => []
   end) ++
  (match iteration_budget ctx with
   | Some iter_budget =>
       if iter_budget <? took then
         [MInitStart started; MStoreIdx (task_idx_u32 ctx); MStoreBudget (ns_to_ms_sat iter_budget);
          MExecSwap (task_idx_u32 ctx) started (ns_to_ms_sat took) (ns_to_ms_sat iter_budget)]
       else []
   | None => []
   end).

Definition record_first_err (tid : TaskId) (res : ItemFlow + string) : list Micro :=
  match res with inl _ => [] | inr source => [MRecordErr tid source] end.

(** One item: from [on_app_start] to [post_execute_detect_fault]; [store] is the
    telemetry store of a single job. *)
Definition item_program (tid : TaskId) (app_id app_inst : option Z) (ctx : FaultDispatchCtx)
    (store : list Micro) (o : Outcome) : list Micro :=
  let res := run_item_catch_unwind (o_ran o) in
  (match app_id with Some a => [MEmit (OnAppStart tid a app_inst)] | None => [] end) ++
  [MEmit (PreExecute tid)] ++
  (if o_stop o then [MStop] else []) ++
  store ++
  [MEmit (PostExecute tid (match res with inl _ => true | inr _ => false end))] ++
  (match res with inl _ => [] | inr e => [MEmit (OnAppError tid e)] end) ++
  (match app_id with Some _ => [MEmit (OnAppStop tid)] | None => [] end) ++
  post_execute_detect_fault tid (o_started o) (o_took o) ctx.

(** The loop of [build_chain_job]: stops on [StopChain] and on an error, which is
    recorded. *)
Fixpoint chain_program (tid : TaskId) (ctx : FaultDispatchCtx) (items : list (option Z * option Z))
    (k : nat) (outcome : nat → Outcome) : list Micro :=
  match items with
  | [] => []
  | (app_id, app_inst) :: items =>
      let o := outcome k in
      let res := run_item_catch_unwind (o_ran o) in
      item_program tid app_id app_inst ctx [] o ++
      match res with
      | inl Continue => chain_program tid ctx items (S k) outcome
      | inl StopChain => []
      | inr _ => record_first_err tid res
      end
  end.

(** The program of a job; [chain_tele] is the telemetry time of a whole chain. *)
Definition job_program (j : Job) (outcome : nat → Outcome) (chain_tele : Z) : list Micro :=
  let ctx := j_ctx j in
  let tid := j_id j in
  match j_kind j with
  | JSingle app_id app_inst =>
      let o := outcome O in
      item_program tid app_id app_inst ctx [MStoreTook (task_slot ctx) (o_tele o)] o ++
      record_first_err tid (run_item_catch_unwind (o_ran o))
  | JHandler app_id app_inst =>
      let o := outcome O in
      item_program tid app_id app_inst ctx [] o ++
      record_first_err tid (run_item_catch_unwind (o_ran o))
  | JChain items =>
      chain_program tid ctx items O outcome ++ [MStoreTook (task_slot ctx) chain_tele]
  end.

(** ** Steps of a job *)

Definition set_start (s : Shared) (t : Z) : Shared :=
  MkShared (exec_fault s) (exec_fault_task_idx s) (exec_fault_budget_ms s)
    (match start_time s with Some t0 => Some t0 | None => Some t end) (iter_err s) (stopped s) (events s).
Definition set_stopped (s : Shared) : Shared :=
  MkShared (exec_fault s) (exec_fault_task_idx s) (exec_fault_budget_ms s) (start_time s) (iter_err s)
    true (events s).
Definition set_fault_idx (s : Shared) (i : Z) : Shared :=
  MkShared (exec_fault s) i (exec_fault_budget_ms s) (start_time s) (iter_err s) (stopped s) (events s).
Definition set_fault_budget (s : Shared) (b : Z) : Shared :=
  MkShared (exec_fault s) (exec_fault_task_idx s) b (start_time s) (iter_err s) (stopped s) (events s).

(** Milliseconds since the start, which [get_or_init] has set. *)
Definition since_of_start (s : Shared) (at_ms : Z) : Z :=
  instant_to_since_ms at_ms (default at_ms (start_time s)).

Definition upd_task (ex : Executor) (i : nat) (f : TaskEntry → TaskEntry) : Executor :=
  set_tasks ex (alter f i (tasks ex)).

(** One access: the new state and what the job does next because of it. *)
Definition micro (m : Micro) (ex : Executor) : Executor * list Micro :=
  let s := shared ex in
  match m with
  | MEmit e => (emit ex e, [])
  | MStop => (set_shared ex (set_stopped s), [])
  | MStoreTook i ns =>
      (upd_task ex i (λ t, set_atomics t
         (MkAtomics (fault (atomics t)) (overrun_count (atomics t)) ns)), [])
  | MOverrun i =>
      (upd_task ex i (λ t, set_atomics t
         (MkAtomics (fault (atomics t)) (wrap 64 (overrun_count (atomics t) + 1))
            (last_took_ns (atomics t)))), [])
  | MInitStart at_ms => (set_shared ex (set_start s at_ms), [])
  | MTaskSwap i tid started took_ms budget_ms =>
      let reason := BudgetExceeded took_ms budget_ms in
      match tasks ex !! i with
      | None => (ex, [])
      | Some t =>
          let '(w, prev) := swap (fault (atomics t)) (Faulted reason (since_of_start s started)) budget_ms in
          (upd_task ex i (λ t, set_fault t w),
           match prev with Running => [MEmit (OnTaskFault tid reason)] | Faulted _ _ => [] end)
      end
  | MStoreIdx idx => (set_shared ex (set_fault_idx s idx), [])
  | MStoreBudget ms => (set_shared ex (set_fault_budget s ms), [])
  | MExecSwap idx started took_ms budget_ms =>
      let reason := IterationBudgetExceeded idx took_ms budget_ms in
      let '(w, prev) := exec_swap (exec_fault s) (ExecFaulted reason (since_of_start s started))
                          idx budget_ms in
      (set_shared ex (set_exec_fault s w),
       match prev with ExecRunning => [MEmit (OnExecutorFault reason)] | ExecFaulted _ _ => [] end)
  | MRecordErr tid source =>
      (set_shared ex (set_iter_err s
         (match iter_err s with Some e => Some e | None => Some (ItemFailed tid source) end)), [])
  end.

(** ** The pool *)

(** A job in flight: the entry it was submitted for, whether it is the handler,
    and what is left of it. *)
Record Flight := MkFlight { f_entry : nat; f_handler : bool; f_left : list Micro }.

(** The executor with the jobs in flight and the number of submissions. *)
Record World := MkWorld { ex_of : Executor; flights : list Flight; submissions : nat }.
Definition set_ex (w : World) (ex : Executor) : World := MkWorld ex (flights w) (submissions w).

(** A worker makes the next access of flight [k]. *)
Definition pool_run (k : nat) (w : World) : World :=
  match flights w !! k with
  | Some (MkFlight i h (m :: ms)) =>
      let '(ex, more) := micro m (ex_of w) in
      MkWorld ex (<[k := MkFlight i h (more ++ ms)]> (flights w)) (submissions w)
  | _ => w
  end.
Definition pool_runs (ks : list nat) (w : World) : World := foldl (λ w k, pool_run k w) w ks.

Section dispatch.
Context (outcome : nat → nat → Outcome) (chain_tele : nat → Z).

(** [pool.submit_shared(job)]. *)
Definition submit_shared (w : World) (entry : nat) (handler : bool) (j : Job) : World :=
  let n := submissions w in
  MkWorld (ex_of w)
    (flights w ++ [MkFlight entry handler (job_program j (outcome n) (chain_tele n))]) (S n).

(** ** Fault routing *)

Definition is_exec_faulted (s : ExecutorFaultState) : bool :=
  match s with ExecFaulted _ _ => true | ExecRunning => false end.

Definition is_graph (k : TaskKind) : bool := match k with Graph => true | _ => false end.

(** The lazy cascade: an executor-wide fault makes a running task faulted,
    silently.  Answers whether the task is faulted. *)
Definition lazy_cascade (ex : Executor) (i : nat) (task : TaskEntry) (exec_faulted : bool)
    (now_ms : Z) : Executor * bool :=
  let task_budget_ms := budget_ms (budget task) in
  match load (fault (atomics task)) task_budget_ms with
  | Running =>
      if exec_faulted then
        let s := set_start (shared ex) now_ms in
        let '(w, _) := swap (fault (atomics task))
                         (Faulted ExecutorFaulted (since_of_start s now_ms)) task_budget_ms in
        (upd_task (set_shared ex s) i (λ t, set_fault t w), true)
      else (ex, false)
  | Faulted _ _ => (ex, true)
  end.

(** [true]: the task is routed to its handler, or skipped. *)
Definition handle_fault_routing (w : World) (i : nat) (task : TaskEntry) (now_ms : Z) : World * bool :=
  if is_graph (kind task) then (w, false)
  else
    let exec_faulted := is_exec_faulted (exec_load (exec_fault (shared (ex_of w))) 0 0) in
    let '(ex, task_faulted) := lazy_cascade (ex_of w) i task exec_faulted now_ms in
    if negb (exec_faulted || task_faulted) then (set_ex w ex, false)
    else
      match handler_job task with
      | Some h => (submit_shared (set_ex w ex) i true h, true)
      | None => (set_ex w ex, true)
      end.

(** What a dispatch reads from the outside: pool steps before it, the telemetry
    and system clocks, and the error of a graph run. *)
Record DispatchIn := MkDispatchIn {
  di_pool : list nat; di_pre : Z; di_now_ms : Z; di_graph_err : option string;
}.

Definition submit_task_job (w : World) (i : nat) (task : TaskEntry) (graph_err : option string) : World :=
  match kind task with
  | Single | Chain =>
      match job task with Some j => submit_shared w i false j | None => w end
  | Graph =>
      match graph_err with
      | None => w
      | Some source =>
          let ex := ex_of w in
          let s := shared ex in
          set_ex w (set_shared ex (set_iter_err s
            (match iter_err s with Some e => Some e | None => Some (ItemFailed (id task) source) end)))
      end
  end.

Definition set_pending (c : TaskCycle) (p : option CyclePending) : TaskCycle :=
  MkCycle (last_dispatch c) (grid_slot c) (grid_epoch c) (pending_skipped c) (pending_late c) p.

Definition dispatch_task (w : World) (task_idx : nat) (d : DispatchIn) : res World :=
  let w := pool_runs (di_pool d) w in
  task ← expect (tasks (ex_of w) !! task_idx);
  match pending_cycle (cycle task) with
  | Some _ => Ok w
  | None =>
      let '(w, routed_to_handler) := handle_fault_routing w task_idx task (di_now_ms d) in
      let w := set_ex w (upd_task (ex_of w) task_idx (λ t,
                 set_cycle t (set_pending (cycle t) (Some (MkPending (di_pre d) routed_to_handler))))) in
      Ok (if routed_to_handler then w else submit_task_job w task_idx task (di_graph_err d))
  end.

(** [u32::try_from(skipped).unwrap_or(u32::MAX)]. *)
Definition dispatch_cyclic (w : World) (task_idx : nat) (skipped late_by : Z) (d : DispatchIn) : res World :=
  _ ← expect (tasks (ex_of w) !! task_idx);
  let w := set_ex w (upd_task (ex_of w) task_idx (λ t,
             let c := cycle t in
             set_cycle t (MkCycle (last_dispatch c) (grid_slot c) (grid_epoch c)
                            (Z.min (2 ^ 32 - 1) skipped) (Some late_by) (pending_cycle c)))) in
  dispatch_task w task_idx d.
End dispatch.

(** [pool.barrier()]: the steps [ks] the workers make while the dispatching
    thread waits, and then whatever is left of each job. *)
Definition finish_schedule (w : World) : list nat :=
  concat (imap (λ k f, replicate (2 * length (f_left f)) k) (flights w)).
Definition barrier (w : World) (ks : list nat) : World :=
  let w := pool_runs ks w in
  let w := pool_runs (finish_schedule w) w in
  MkWorld (ex_of w) [] (submissions w).

(** ** The barrier completes every job *)

(** Accesses a job still makes, counting the one a swap may add. *)
Definition weight (m : Micro) : nat :=
  match m with MTaskSwap _ _ _ _ _ | MExecSwap _ _ _ _ => 2 | _ => 1 end%nat.
Fixpoint weights (ms : list Micro) : nat :=
  match ms with [] => 0 | m :: ms => weight m + weights ms end.

Lemma micro_weight m ex : (weights (micro m ex).2 < weight m)%nat.
Proof.
  destruct m; cbn [micro snd weights weight]; try lia.
  - destruct (tasks ex !! slot); [|cbn; lia]. unfold swap. destruct (unpack _ _); cbn; lia.
  - unfold exec_swap. destruct (exec_unpack _ _ _); cbn; lia.
Qed.

Lemma weights_app a b : weights (a ++ b) = (weights a + weights b)%nat.
Proof. induction a as [|m a IH]; cbn [app weights]; [done|]. rewrite IH. lia. Qed.

Lemma weights_bound ms : (weights ms ≤ 2 * length ms)%nat.
Proof. induction ms as [|m ms IH]; cbn [weights length]; [lia|]. destruct m; cbn [weight]; lia. Qed.

(** What is left of flight [k]. *)
Definition left_of (w : World) (k : nat) : nat :=
  match flights w !! k with Some f => weights (f_left f) | None => O end.

Lemma pool_run_flights k w :
  length (flights (pool_run k w)) = length (flights w) ∧
  ∀ j, flights (pool_run k w) !! j = flights w !! j ∨ (j = k ∧
    ∃ i h m ms, flights w !! k = Some (MkFlight i h (m :: ms)) ∧
      flights (pool_run k w) !! k = Some (MkFlight i h ((micro m (ex_of w)).2 ++ ms))).
Proof.
  unfold pool_run. destruct (flights w !! k) as [[i h [|m ms]]|] eqn:E; [by eauto| |by eauto].
  destruct (micro m (ex_of w)) as [ex more] eqn:Em. cbn [flights].
  split; [apply length_insert|]. intros j. destruct (decide (j = k)) as [->|Hne].
  - right. split; [done|]. exists i, h, m, ms. split; [done|].
    rewrite Em. apply list_lookup_insert_eq. by eapply lookup_lt_Some.
  - left. by rewrite list_lookup_insert_ne.
Qed.

Lemma pool_run_left k w j :
  (left_of (pool_run k w) j ≤ left_of w j)%nat ∧
  (left_of (pool_run k w) k < left_of w k ∨ left_of w k = 0)%nat.
Proof.
  destruct (pool_run_flights k w) as [_ H]. unfold left_of.
  assert (∀ i h m ms, (weights ((micro m (ex_of w)).2 ++ ms) < weights (f_left (MkFlight i h (m :: ms))))%nat) as Hw.
  { intros. rewrite weights_app. cbn [f_left weights]. pose proof (micro_weight m (ex_of w)). lia. }
  split.
  - destruct (H j) as [->|(-> & i & h & m & ms & -> & ->)]; [done|].
    specialize (Hw i h m ms). cbn [f_left] in *. lia.
  - destruct (H k) as [Heq|(_ & i & h & m & ms & E1 & E2)].
    + right. unfold pool_run in Heq. destruct (flights w !! k) as [[i h [|m ms]]|] eqn:E; [done| |done].
      destruct (micro m (ex_of w)) as [ex more] eqn:Em. cbn [flights] in Heq.
      rewrite list_lookup_insert_eq in Heq by (by eapply lookup_lt_Some).
      injection Heq as Heq. exfalso. pose proof (f_equal weights Heq) as Hc.
      specialize (Hw i h m ms). rewrite Em in Hw. cbn [snd f_left] in Hw. lia.
    + left. rewrite E1, E2. by apply Hw.
Qed.

Lemma pool_runs_left ks : ∀ w j,
  (left_of (pool_runs ks w) j ≤ left_of w j - length (List.filter (Nat.eqb j) ks))%nat.
Proof.
  induction ks as [|k ks IH]; intros w j; cbn [pool_runs foldl List.filter length]; [lia|].
  specialize (IH (pool_run k w) j). unfold pool_runs in IH.
  destruct (pool_run_left k w j) as [Hle Hlt]. destruct (Nat.eqb_spec j k) as [->|]; cbn [length]; lia.
Qed.

Lemma pool_runs_length ks : ∀ w, length (flights (pool_runs ks w)) = length (flights w).
Proof.
  induction ks as [|k ks IH]; intros w; [done|]. cbn [pool_runs foldl].
  unfold pool_runs in IH. rewrite IH. apply pool_run_flights.
Qed.

Lemma filter_finish w k f : flights w !! k = Some f →
  (2 * length (f_left f) ≤ length (List.filter (Nat.eqb k) (finish_schedule w)))%nat.
Proof.
  intros Hk. unfold finish_schedule.
  assert (∀ (l : list Flight) (g : nat → nat) j, l !! j = Some f → g j = k →
    (2 * length (f_left f) ≤ length (List.filter (Nat.eqb k)
       (concat (imap (λ k f, replicate (2 * length (f_left f)) (g k)) l))))%nat) as H.
  { induction l as [|a l IH]; intros g j Hj Hg; [done|]. cbn [imap concat].
    rewrite List.filter_app, length_app. destruct j as [|j].
    - injection Hj as ->. rewrite Hg.
      assert (∀ n, List.filter (Nat.eqb k) (replicate n k) = replicate n k) as ->.
      { induction n as [|n IHn]; [done|]. cbn [replicate List.filter]. by rewrite Nat.eqb_refl, IHn. }
      rewrite length_replicate. lia.
    - specialize (IH (g ∘ S) j Hj Hg). etransitivity; [exact IH|]. apply Nat.le_add_l. }
  by apply (H (flights w) (λ i, i) k).
Qed.

(** After the steps of the barrier no job has anything left to do. *)
Lemma finish_all w : Forall (λ f, f_left f = []) (flights (pool_runs (finish_schedule w) w)).
Proof.
  apply Forall_lookup. intros k f Hf.
  assert (left_of (pool_runs (finish_schedule w) w) k = 0)%nat as H0.
  { destruct (lookup_lt_is_Some_2 (flights w) k) as [f0 Hf0].
    { apply lookup_lt_Some in Hf. by rewrite pool_runs_length in Hf. }
    pose proof (pool_runs_left (finish_schedule w) w k) as H.
    pose proof (filter_finish w k f0 Hf0) as Hc. pose proof (weights_bound (f_left f0)) as Hb.
    assert (left_of w k = weights (f_left f0)) as Hl by (unfold left_of; by rewrite Hf0).
    rewrite Hl in H. lia. }
  unfold left_of in H0. rewrite Hf in H0. destruct (f_left f) as [|m ms]; [done|].
  destruct m; cbn in H0; lia.
Qed.

End ExecJobs.
