(* ===== verification/ExecLoop.v ===== *)
(** * The dispatch loop of the executor

    Models the run half of [taktora-executor/src/executor.rs]: recording a cycle,
    the barrier and the fold after it, the grid pass, the heartbeat, the decision
    after each wake, [dispatch_loop] and the [run*] entry points, with the
    admission check of [admission.rs].

    What the outside does in one wake is a [Wake]: the fired attachments, the
    result of the wait, the clocks, and the steps workers make in between.  A run
    consumes a list of wakes; it has not ended when the list ends first.  A panic
    of the infrastructure aborts the process ([guard_or_fatal]), which is [Panic]. *)

From stdpp Require Import base list strings sets.
From Stdlib Require Import ZArith Lia.
From S2P Require Import Prelude ExecFault ExecGrid StatsCycle ExecTask ExecAttach ExecJobs.

Module ExecLoop.
Import ExecFault ExecTask ExecAttach ExecJobs.
#[local] Existing Instance ExecGrid.DispatchMode_eq_dec.

(** ** Recording a cycle *)

Definition I64_MAX : Z := 2 ^ 63 - 1.

(** [elapsed_ns.saturating_sub(expected_ns)] of the two conversions to [i64]. *)
Definition lateness_of (pre_ns grid_epoch grid_slot period_ns : Z) : Z :=
  let elapsed_ns := Z.min I64_MAX (sat_sub pre_ns grid_epoch) in
  let expected_ns := Z.min I64_MAX (grid_slot * period_ns) in
  Z.max (- 2 ^ 63) (Z.min I64_MAX (elapsed_ns - expected_ns)).

Definition record_cycle_for (ex : Executor) (task_idx : nat) (faulted : bool) (pre_ns : Z)
    : res Executor :=
  task ← expect (tasks ex !! task_idx);
  match scan_period task with
  | None => Ok ex
  | Some period =>
      let period_ns := Z.min (2 ^ 64 - 1) period in
      let a := atomics task in
      let c := cycle task in
      let took := if faulted || (last_took_ns a =? 2 ^ 64 - 1) then None else Some (last_took_ns a) in
      let actual_period := (λ prev, sat_sub pre_ns prev) <$> last_dispatch c in
      let jitter := if faulted then None else (λ ap, Z.abs (ap - period_ns)) <$> actual_period in
      let skipped := pending_skipped c in
      let late_by := pending_late c in
      let first := match grid_epoch c with None => true | Some _ => false end in
      let epoch := default (sat_sub pre_ns (default 0 late_by)) (grid_epoch c) in
      let slot := if first then grid_slot c else sat_add 64 (sat_add 64 (grid_slot c) 1) skipped in
      stats ← expect (cycle_stats ex !! task_idx);
      let lateness := if (0 <? period_ns) && negb faulted
                      then Some (lateness_of pre_ns epoch slot period_ns) else None in
      '(stats, cycle_index) ← StatsCycle.exec_record_cycle 8 256 stats
                                (StatsCycle.MkExecCycle took jitter lateness);
      let task := set_cycle (set_atomics task (MkAtomics (fault a) (overrun_count a) (2 ^ 64 - 1)))
                    (MkCycle (Some pre_ns) slot (Some epoch) 0 None (pending_cycle c)) in
      let ex := set_stats (set_tasks ex (<[task_idx := task]> (tasks ex)))
                  (<[task_idx := stats]> (cycle_stats ex)) in
      Ok (emit ex (OnCycleStats
            (MkObs cycle_index (id task) (Z.min (2 ^ 32 - 1) (Z.of_nat task_idx)) faulted period_ns
               pre_ns actual_period jitter lateness skipped took)))
  end.

(** The fold over the task indices: [take] the pending cycle and record it. *)
Fixpoint record_loop (ex : Executor) (idxs : list nat) : res Executor :=
  match idxs with
  | [] => Ok ex
  | i :: idxs =>
      task ← expect (tasks ex !! i);
      match pending_cycle (cycle task) with
      | None => record_loop ex idxs
      | Some p =>
          let ex := set_tasks ex (<[i := set_cycle task (set_pending (cycle task) None)]> (tasks ex)) in
          ex ← record_cycle_for ex i (faulted p) (pre p);
          record_loop ex idxs
      end
  end.

Definition barrier_and_record (w : World) (ks : list nat) : res World :=
  let w := barrier w ks in
  ex ← record_loop (ex_of w) (seq 0 (length (tasks (ex_of w))));
  Ok (set_ex w ex).

(** ** The heartbeat *)

Definition heartbeat_bounded_timeout (hb : option HeartbeatState) (now_nanos timeout : Z) : Z :=
  match hb with
  | None => timeout
  | Some hb =>
      let heartbeat_timeout :=
        if next_due_nanos hb <=? now_nanos then 0 else next_due_nanos hb - now_nanos in
      Z.min timeout heartbeat_timeout
  end.

Definition emit_heartbeat_if_due (ex : Executor) (now_nanos : Z) : Executor :=
  match heartbeat_state ex with
  | None => ex
  | Some hb =>
      if now_nanos <? next_due_nanos hb then ex
      else
        let seq := wrap 64 (hb_seq hb + 1) in
        let ex := emit ex (OnHeartbeat (MkTick seq now_nanos)) in
        set_heartbeat ex (Some (MkHeartbeat (period_nanos hb)
                                  (sat_add 64 (next_due_nanos hb) (period_nanos hb)) seq))
  end.

(** ** The decision after a wake *)

Inductive WaitSetRunResult := TerminationRequest | Interrupt | StopRequest | AllEventsHandled.
Inductive RunMode := Forever | Until (deadline : Z) | Iterations (n : Z) | Predicate.
Inductive IterOutcome := IterContinue | IterDone | IterFailed (e : ExecutorError).

(** [instant]: the system clock; [pred]: what the predicate answers. *)
Definition after_callback (ex : Executor) (cb_result : WaitSetRunResult + string) (mode : RunMode)
    (iterations_done : Z) (instant : Z) (pred : bool) : Executor * Z * IterOutcome :=
  match cb_result with
  | inr e => (ex, iterations_done, IterFailed (Iceoryx2 e))
  | inl TerminationRequest => (ex, iterations_done, IterDone)
  | inl r =>
      let maybe_err := iter_err (shared ex) in
      let ex := set_shared ex (set_iter_err (shared ex) None) in
      match maybe_err with
      | Some err => (ex, iterations_done, IterFailed err)
      | None =>
          if stopped (shared ex) then (ex, iterations_done, IterDone)
          else
            match r with
            | Interrupt => (ex, iterations_done, IterContinue)
            | _ =>
                let done := wrap 64 (iterations_done + 1) in
                let reached_limit := match mode with
                                     | Forever => false
                                     | Iterations n => n <=? done
                                     | Until deadline => deadline <=? instant
                                     | Predicate => pred
                                     end in
                (ex, done, if reached_limit then IterDone else IterContinue)
            end
      end
  end.

(** ** One wake *)

Section loop.
Context {Id Guard : Type} {WS : WaitSetIds Id Guard}.
(** The wait set of iceoryx2: creating and attaching may fail. *)
Context {W : Type} (waitset_create : W + string) (attach : W → Request → (W * Guard) + string).
(** User items, and whether debug assertions are on. *)
Context (outcome : nat → nat → Outcome) (chain_tele : nat → Z) (dbg : bool).

Record Wake := MkWake {
  wk_fired : list (Id * DispatchIn);
  wk_result : WaitSetRunResult + string;
  wk_pool : list nat;             (** workers, between the wait and the grid pass *)
  wk_ticked : bool;
  wk_now : Z;
  wk_due : nat → DispatchIn;      (** by position in the due list *)
  wk_barrier : list nat;
  wk_instant : Z;
  wk_pred : bool;
}.

(** What [dispatch_loop] keeps across wakes. *)
Record Local := MkLocal {
  lc_guards : list Guard;
  lc_att : list nat;
  lc_map : AttachmentMap (Id := Id);
  lc_grid : ExecGrid.GridTimer;
  lc_cyclic : list nat;
  lc_iterations : Z;
}.
Definition set_map (l : Local) (m : AttachmentMap) : Local :=
  MkLocal (lc_guards l) (lc_att l) m (lc_grid l) (lc_cyclic l) (lc_iterations l).
Definition set_grid (l : Local) (g : ExecGrid.GridTimer) : Local :=
  MkLocal (lc_guards l) (lc_att l) (lc_map l) g (lc_cyclic l) (lc_iterations l).
Definition set_iterations (l : Local) (n : Z) : Local :=
  MkLocal (lc_guards l) (lc_att l) (lc_map l) (lc_grid l) (lc_cyclic l) n.

(** The callback of the wait: resolve the id, dispatch its task. *)
Definition process_attachment (w : World) (l : Local) (fired : Id * DispatchIn) : res (World * Local) :=
  '(m, task_idx) ← resolve dbg (lc_map l) fired.1
                     (linear_scan dbg (lc_guards l) (Z.of_nat <$> lc_att l));
  let l := set_map l m in
  if task_idx =? IGNORE then Ok (w, l)
  else
    w ← dispatch_task outcome chain_tele w (Z.to_nat task_idx) fired.2;
    Ok (w, l).

Fixpoint process_all (w : World) (l : Local) (fired : list (Id * DispatchIn)) : res (World * Local) :=
  match fired with
  | [] => Ok (w, l)
  | f :: fired => '(w, l) ← process_attachment w l f; process_all w l fired
  end.

Fixpoint dispatch_due (w : World) (cyclic : list nat) (due : list ExecGrid.Due) (k : nat)
    (ins : nat → DispatchIn) : res World :=
  match due with
  | [] => Ok w
  | (slot, skipped, late_by) :: due =>
      task_idx ← expect (cyclic !! slot);
      w ← dispatch_cyclic outcome chain_tele w task_idx skipped late_by (ins k);
      dispatch_due w cyclic due (S k) ins
  end.

Definition is_stopping (w : World) (cb_result : WaitSetRunResult + string) : bool :=
  stopped (shared (ex_of w)) ||
  match cb_result with inl Interrupt | inl TerminationRequest => true | _ => false end.

Definition run_grid_cyclic_pass (w : World) (l : Local) (wk : Wake) : res (World * Local) :=
  let w := pool_runs (wk_pool wk) w in
  if negb (wk_ticked wk) || is_stopping w (wk_result wk)
     || negb (bool_decide (cfg_dispatch_mode (config (ex_of w)) = ExecGrid.Grid))
     || bool_decide (lc_cyclic l = [])
  then Ok (w, l)
  else
    '(g, due) ← ExecGrid.take_due (lc_grid l) (wk_now wk);
    w ← dispatch_due w (lc_cyclic l) due 0 (wk_due wk);
    Ok (w, set_grid l g).

Definition run_grid_cyclic_pass_guarded (w : World) (l : Local) (wk : Wake) : res (World * Local) :=
  '(w, l) ← run_grid_cyclic_pass w l wk;
  w ← barrier_and_record w (wk_barrier wk);
  Ok (w, l).

(** The body of the loop. *)
Definition wake (w : World) (l : Local) (mode : RunMode) (wk : Wake) : res (World * Local * IterOutcome) :=
  let w := set_ex w (set_shared (ex_of w) (set_iter_err (shared (ex_of w)) None)) in
  '(w, l) ← process_all w l (wk_fired wk);
  '(w, l) ← run_grid_cyclic_pass_guarded w l wk;
  let w := set_ex w (emit_heartbeat_if_due (ex_of w) (wk_now wk)) in
  let '(ex, n, out) := after_callback (ex_of w) (wk_result wk) mode (lc_iterations l)
                         (wk_instant wk) (wk_pred wk) in
  Ok (set_ex w ex, set_iterations l n, out).

(** [None]: the loop is still running after these wakes. *)
Fixpoint wakes (w : World) (l : Local) (mode : RunMode) (wks : list Wake)
    : res (World * Local * option (option ExecutorError)) :=
  match wks with
  | [] => Ok (w, l, None)
  | wk :: wks =>
      '(w, l, out) ← wake w l mode wk;
      match out with
      | IterContinue => wakes w l mode wks
      | IterDone => Ok (w, l, Some None)
      | IterFailed e => Ok (w, l, Some (Some e))
      end
  end.

(** Clears the transient tokens of every entry. *)
Definition sweep (t : TaskEntry) : TaskEntry :=
  let c := cycle t in
  set_cycle t (MkCycle (last_dispatch c) (grid_slot c) (grid_epoch c) 0 None None).

(** [epoch]: the scheduling clock at entry; [timer]: an error of arming or
    attaching the master timer or the stop listener. *)
Definition dispatch_setup (w : World) (epoch : Z) (timer : option ExecutorError)
    : World * (Local + ExecutorError) :=
  let w := set_ex w (set_tasks (ex_of w) (sweep <$> tasks (ex_of w))) in
  match waitset_create with
  | inr e => (w, inr (Iceoryx2 e))
  | inl ws =>
      match build_attachments attach ws (tasks (ex_of w)) (cfg_dispatch_mode (config (ex_of w))) with
      | inr e => (w, inr e)
      | inl (a, ci, cp) =>
          match timer with
          | Some e => (w, inr e)
          | None =>
              (w, inl (MkLocal (at_guards a) (at_tasks a)
                         (map_build (at_guards a) (Z.of_nat <$> at_tasks a) (at_deadlines a))
                         (ExecGrid.grid_new epoch cp) ci 0))
          end
      end
  end.

Definition dispatch_loop (w : World) (mode : RunMode) (epoch : Z) (timer : option ExecutorError)
    (wks : list Wake) : res (World * option (option ExecutorError)) :=
  match dispatch_setup w epoch timer with
  | (w, inr e) => Ok (w, Some (Some e))
  | (w, inl l) =>
      '(w, _, r) ← wakes w l mode wks;
      Ok (w, r)
  end.

(** ** The entry points *)

(** The result of a run: [None] while it is running, then its error, if any. *)
Definition run_inner (w : World) (mode : RunMode) (epoch : Z) (timer : option ExecutorError)
    (wks : list Wake) : res (World * option (option ExecutorError)) :=
  let ex := ex_of w in
  if running ex then Ok (w, Some (Some AlreadyRunning))
  else
    let ex := set_running ex true in
    let '(ex, rejected) :=
      match cfg_admission (config ex) with
      | None => (ex, None)
      | Some check =>
          match check (cfg_integrity_level (config ex)) (length (tasks ex)) with
          | None => (emit ex OnAdmissionAdmitted, None)
          | Some reason => (emit ex (OnAdmissionRejected reason), Some reason)
          end
      end in
    match rejected with
    | Some reason => Ok (set_ex w (set_running ex false), Some (Some (AdmissionRejected reason)))
    | None =>
        let w := set_ex w (emit ex OnExecutorUp) in
        '(w, r) ← dispatch_loop w mode epoch timer wks;
        match r with
        | None => Ok (w, None)
        | Some result =>
            let ex := emit (ex_of w) (match result with
                                      | None => OnExecutorDown
                                      | Some e => OnExecutorError e
                                      end) in
            Ok (set_ex w (set_running ex false), Some result)
        end
    end.

Definition run (w : World) := run_inner w Forever.
Definition run_for (w : World) (now max : Z) := run_inner w (Until (now + max)).
Definition run_n (w : World) (n : Z) := run_inner w (Iterations n).
Definition run_until (w : World) := run_inner w Predicate.

End loop.
Arguments Wake : clear implicits.
Arguments Local : clear implicits.

End ExecLoop.
