(* ===== verification/ExecLoopOk.v ===== *)
(** * What every run of the executor keeps

    The step relation of the whole executor: calls between runs, worker accesses,
    dispatches, barriers and the bookkeeping of the loop, in every interleaving.
    [run_inner] is a sequence of these steps.  Shown by induction on them: jobs in
    flight belong to different tasks, each marked as dispatched, and the observer
    is told about faults exactly as often as they begin and end. *)

From stdpp Require Import base list strings sets relations.
From Stdlib Require Import ZArith Lia.
From S2P Require Import Prelude ExecFault ExecGrid StatsCycle ExecTask ExecAttach ExecJobs ExecLoop.

Module ExecLoopOk.
Import ExecFault ExecTask ExecAttach ExecJobs ExecLoop.

(** Events of the life cycle and of telemetry, none of them about faults. *)
Definition quiet_event (e : Event) : bool :=
  match e with
  | OnTaskFault _ _ | OnTaskClear _ | OnExecutorFault _ | OnExecutorClear => false
  | _ => true
  end.

Section steps.
Context (outcome : nat → nat → Outcome) (chain_tele : nat → Z).

(** Steps inside [dispatch_loop]. *)
Inductive lstep (w : World) : World → Prop :=
| ls_pool k : lstep w (pool_run k w)
| ls_dispatch i d w' : dispatch_task outcome chain_tele w i d = Ok w' → lstep w w'
| ls_cyclic i s l d w' : dispatch_cyclic outcome chain_tele w i s l d = Ok w' → lstep w w'
| ls_barrier ks w' : barrier_and_record w ks = Ok w' → lstep w w'
| ls_sweep : flights w = [] → lstep w (set_ex w (set_tasks (ex_of w) (sweep <$> tasks (ex_of w))))
| ls_err e : lstep w (set_ex w (set_shared (ex_of w) (set_iter_err (shared (ex_of w)) e)))
| ls_heartbeat now : lstep w (set_ex w (emit_heartbeat_if_due (ex_of w) now)).

(** All steps: those, calls between runs, and the frame of [run_inner]. *)
Inductive step (w : World) : World → Prop :=
| st_loop w' : lstep w w' → step w w'
| st_call c ex r : flights w = [] → call (ex_of w) c = Ok (ex, r) → step w (set_ex w ex)
| st_running b : step w (set_ex w (set_running (ex_of w) b))
| st_emit e : quiet_event e = true → step w (set_ex w (emit (ex_of w) e)).

Definition initial (w : World) : Prop :=
  ∃ cfg hb now, w = MkWorld (build cfg hb now) [] 0.
Definition reachable (w : World) : Prop := ∃ w0, initial w0 ∧ rtc step w0 w.

(** ** A run is a sequence of steps *)

Lemma pool_runs_steps ks : ∀ w, rtc lstep w (pool_runs ks w).
Proof.
  induction ks as [|k ks IH]; intros w; [done|]. cbn [pool_runs foldl].
  eapply rtc_l; [apply (ls_pool w k)|apply IH].
Qed.

Lemma set_ex_same w : set_ex w (ex_of w) = w.
Proof. by destruct w. Qed.

Section run.
Context {Id Guard : Type} {WS : WaitSetIds Id Guard}.
Context {W : Type} (waitset_create : W + string) (attach : W → Request → (W * Guard) + string).
Context (dbg : bool).

Lemma process_all_steps fired : ∀ w l w' l',
  process_all outcome chain_tele dbg w l fired = Ok (w', l') → rtc lstep w w'.
Proof.
  induction fired as [|f fired IH]; intros w l w' l' H; [by injection H as <- <-|].
  cbn [process_all] in H. apply res_bind_Ok in H as ([w1 l1] & H1 & H).
  transitivity w1; [|by eapply IH]. unfold process_attachment in H1.
  apply res_bind_Ok in H1 as ([m i] & _ & H1). destruct (i =? IGNORE); [by injection H1 as <- <-|].
  apply res_bind_Ok in H1 as (w2 & Hd & H1). injection H1 as <- <-.
  apply rtc_once. by eapply ls_dispatch.
Qed.

Lemma dispatch_due_steps cyclic due : ∀ w k ins w',
  dispatch_due outcome chain_tele w cyclic due k ins = Ok w' → rtc lstep w w'.
Proof.
  induction due as [|[[s sk] la] due IH]; intros w k ins w' H; [by injection H as <-|].
  cbn [dispatch_due] in H. apply res_bind_Ok in H as (i & _ & H).
  apply res_bind_Ok in H as (w1 & H1 & H). eapply rtc_l; [by eapply ls_cyclic|by eapply IH].
Qed.

Lemma grid_pass_steps w (l : Local Id Guard) (wk : Wake Id) w' l' :
  run_grid_cyclic_pass_guarded outcome chain_tele w l wk = Ok (w', l') → rtc lstep w w'.
Proof.
  unfold run_grid_cyclic_pass_guarded. intros H. apply res_bind_Ok in H as ([w1 l1] & H1 & H).
  apply res_bind_Ok in H as (w2 & H2 & H). injection H as <- <-.
  eapply rtc_r; [|by eapply ls_barrier]. unfold run_grid_cyclic_pass in H1.
  transitivity (pool_runs (wk_pool wk) w); [apply pool_runs_steps|].
  destruct (_ || _ || _ || _); [by injection H1 as <- <-|].
  apply res_bind_Ok in H1 as ([g due] & _ & H1). apply res_bind_Ok in H1 as (w3 & H3 & H1).
  injection H1 as <- <-. by eapply dispatch_due_steps.
Qed.

Lemma after_callback_steps w cb mode n inst p : ∀ ex n' out,
  after_callback (ex_of w) cb mode n inst p = (ex, n', out) → rtc lstep w (set_ex w ex).
Proof.
  intros ex n' out H. unfold after_callback in H.
  destruct cb as [r|e]; [|injection H as <- <- <-; by rewrite set_ex_same].
  assert (out = IterDone ∧ ex = ex_of w ∨
          ex = set_shared (ex_of w) (set_iter_err (shared (ex_of w)) None)) as [[_ ->]| ->].
  { destruct r; [left; by injection H as <- <- <-|..]; right;
      (destruct (iter_err _); [by injection H as <- <- <-|]);
      (destruct (stopped _); by injection H as <- <- <-). }
  - by rewrite set_ex_same.
  - apply rtc_once, ls_err.
Qed.

Lemma wake_steps w (l : Local Id Guard) mode (wk : Wake Id) w' l' out :
  wake outcome chain_tele dbg w l mode wk = Ok (w', l', out) → rtc lstep w w'.
Proof.
  unfold wake. intros H. apply res_bind_Ok in H as ([w1 l1] & H1 & H).
  apply res_bind_Ok in H as ([w2 l2] & H2 & H).
  destruct (after_callback _ _ _ _ _ _) as [[ex n] o] eqn:Ea. injection H as <- <- <-.
  eapply rtc_l; [apply (ls_err w None)|]. etransitivity; [by eapply process_all_steps|].
  etransitivity; [by eapply grid_pass_steps|]. eapply rtc_l; [apply (ls_heartbeat w2 (wk_now wk))|].
  by apply after_callback_steps in Ea.
Qed.

Lemma wakes_steps wks : ∀ w l mode w' l' r,
  wakes outcome chain_tele dbg w l mode wks = Ok (w', l', r) → rtc lstep w w'.
Proof.
  induction wks as [|wk wks IH]; intros w l mode w' l' r H; [by injection H as <- <- <-|].
  cbn [wakes] in H. apply res_bind_Ok in H as ([[w1 l1] out] & H1 & H).
  apply wake_steps in H1. destruct out.
  - etransitivity; [exact H1|by eapply IH].
  - by injection H as <- <- <-.
  - by injection H as <- <- <-.
Qed.

Lemma setup_world w epoch timer :
  (dispatch_setup waitset_create attach w epoch timer).1 =
    set_ex w (set_tasks (ex_of w) (sweep <$> tasks (ex_of w))).
Proof.
  unfold dispatch_setup. destruct waitset_create; [|done].
  destruct (build_attachments _ _ _ _) as [[[a ci] cp]|]; [|done]. by destruct timer.
Qed.

Lemma dispatch_loop_steps w mode epoch timer wks w' r : flights w = [] →
  dispatch_loop waitset_create attach outcome chain_tele dbg w mode epoch timer wks = Ok (w', r) →
  rtc lstep w w'.
Proof.
  intros Hf H. unfold dispatch_loop in H. pose proof (setup_world w epoch timer) as Hs.
  destruct (dispatch_setup _ _ _ _ _) as [w1 s1]. cbn [fst] in Hs.
  assert (lstep w w1) as Hst by (subst w1; by apply ls_sweep).
  eapply rtc_l; [exact Hst|]. destruct s1 as [l|e]; [|by injection H as <- <-].
  apply res_bind_Ok in H as ([[w2 l2] r2] & H2 & H). injection H as <- <-. by eapply wakes_steps.
Qed.

Lemma loop_steps w w' : rtc lstep w w' → rtc step w w'.
Proof. apply rtc_subrel. intros a b. apply st_loop. Qed.

Lemma run_inner_steps w mode epoch timer wks w' r : flights w = [] →
  run_inner waitset_create attach outcome chain_tele dbg w mode epoch timer wks = Ok (w', r) →
  rtc step w w'.
Proof.
  intros Hf H. unfold run_inner in H. destruct (running (ex_of w)); [by injection H as <- <-|].
  eapply rtc_l; [apply (st_running w true)|]. set (w1 := set_ex w (set_running (ex_of w) true)) in *.
  destruct (match cfg_admission _ with Some _ => _ | None => _ end) as [ex rej] eqn:Eadm.
  assert (rtc step w1 (set_ex w ex)) as Hadm.
  { destruct (cfg_admission _) as [check|]; [|by injection Eadm as <- _].
    destruct (check _ _); injection Eadm as <- _; apply rtc_once; by apply (st_emit w1). }
  etransitivity; [exact Hadm|]. destruct rej as [reason|].
  { injection H as <- <-. apply rtc_once, (st_running (set_ex w ex)). }
  eapply rtc_l; [by apply (st_emit (set_ex w ex) OnExecutorUp)|].
  apply res_bind_Ok in H as ([w2 r2] & H2 & H).
  apply dispatch_loop_steps, loop_steps in H2; [|done].
  etransitivity; [exact H2|]. destruct r2 as [result|]; [|by injection H as <- <-].
  injection H as <- <-.
  set (e := match result with None => OnExecutorDown | Some e => OnExecutorError e end).
  eapply rtc_l; [apply (st_emit w2 e); by destruct result|].
  apply rtc_once, (st_running (set_ex w2 (emit (ex_of w2) e))).
Qed.
End run.

(** ** What an access leaves alone *)

(** Everything of an entry but its atomics. *)
Definition core (t : TaskEntry) : _ :=
  (id t, kind t, decls t, job t, budget t, handler_job t, scan_period t, cycle t).
(** Everything but the atomics and the cycle fields. *)
Definition skel (t : TaskEntry) : _ :=
  (id t, kind t, decls t, job t, budget t, handler_job t, scan_period t).

Lemma fmap_alter_same {A B} (g : A → B) (f : A → A) i (l : list A) :
  (∀ x, g (f x) = g x) → g <$> alter f i l = g <$> l.
Proof.
  intros Hf. apply list_eq. intros j. rewrite !list_lookup_fmap.
  destruct (decide (j = i)) as [->|Hne].
  - rewrite list_lookup_alter_eq. destruct (l !! i); simpl; [by rewrite Hf|done].
  - by rewrite list_lookup_alter_ne.
Qed.
Lemma fmap_insert_same {A B} (g : A → B) i (l : list A) x y :
  l !! i = Some y → g x = g y → g <$> <[i := x]> l = g <$> l.
Proof.
  intros Hi Hg. rewrite list_fmap_insert. apply list_insert_id.
  by rewrite list_lookup_fmap, Hi, Hg.
Qed.

Lemma core_skel (ts ts' : list TaskEntry) : core <$> ts' = core <$> ts → skel <$> ts' = skel <$> ts.
Proof.
  intros H. apply (f_equal (fmap (M := list) (λ x, x.1))) in H. rewrite <-!list_fmap_compose in H. exact H.
Qed.
Lemma skel_lookup (ts ts' : list TaskEntry) i t : skel <$> ts' = skel <$> ts → ts !! i = Some t →
  ∃ t', ts' !! i = Some t' ∧ skel t' = skel t.
Proof.
  intros H Hi. apply (f_equal (lookup i)) in H. rewrite !list_lookup_fmap, Hi in H.
  destruct (ts' !! i) as [t'|]; [|done]. injection H as H1 H2 H3 H4 H5 H6 H7. exists t'.
  split; [done|]. unfold skel. congruence.
Qed.
Lemma core_lookup (ts ts' : list TaskEntry) i t : core <$> ts' = core <$> ts → ts !! i = Some t →
  ∃ t', ts' !! i = Some t' ∧ core t' = core t.
Proof.
  intros H Hi. apply (f_equal (lookup i)) in H. rewrite !list_lookup_fmap, Hi in H.
  destruct (ts' !! i) as [t'|]; [|done]. injection H as H1 H2 H3 H4 H5 H6 H7 H8. exists t'.
  split; [done|]. unfold core. congruence.
Qed.

Lemma entry_ok_skel cfg i t t' : skel t' = skel t → entry_ok cfg i t → entry_ok cfg i t'.
Proof.
  unfold skel, entry_ok, job_ok. intros [= H1 H2 H3 H4 H5 H6 H7].
  by rewrite H1, H2, H3, H4, H5, H6, H7.
Qed.

Lemma table_ok_skel ex ex' : config ex' = config ex → length (cycle_stats ex') = length (cycle_stats ex) →
  skel <$> tasks ex' = skel <$> tasks ex → table_ok ex → table_ok ex'.
Proof.
  intros Hc Hl Hs [H1 H2]. pose proof (f_equal length Hs) as Hlen. rewrite !length_fmap in Hlen.
  split; [congruence|]. intros i t' Hi.
  destruct (skel_lookup (tasks ex') (tasks ex) i t' (eq_sym Hs) Hi) as (t & Ht & Hsk).
  rewrite Hc. eapply entry_ok_skel; [symmetry; exact Hsk|by apply H2].
Qed.

(** An access changes atomics and shared state only. *)
Lemma micro_frame m ex :
  core <$> tasks (micro m ex).1 = core <$> tasks ex ∧ config (micro m ex).1 = config ex ∧
  cycle_stats (micro m ex).1 = cycle_stats ex.
Proof.
  destruct m; cbn [micro]; try done; try (split_and!; [by apply fmap_alter_same|done..]).
  destruct (tasks ex !! slot); [|done]. destruct (swap _ _ _) as [w prev]. cbn [fst].
  split_and!; [by apply fmap_alter_same|done..].
Qed.

(** ** Counting events *)

Definition cnt {A} (P : A → bool) (l : list A) : Z := len (List.filter P l).
Lemma cnt_append {A} (P : A → bool) l k : cnt P (l ++ k) = cnt P l + cnt P k.
Proof. unfold cnt. by rewrite List.filter_app, len_app. Qed.
Lemma cnt_cons {A} (P : A → bool) x l : cnt P (x :: l) = (if P x then 1 else 0) + cnt P l.
Proof. unfold cnt, len. simpl. destruct (P x); simpl; lia. Qed.
Lemma cnt_nil {A} (P : A → bool) : cnt P [] = 0.
Proof. done. Qed.
Lemma cnt_zero {A} (P : A → bool) l : Forall (λ x, P x = false) l → cnt P l = 0.
Proof. induction 1 as [|x l Hx _ IH]; [done|]. rewrite cnt_cons, Hx. lia. Qed.

Definition emits (P : Event → bool) (m : Micro) : bool :=
  match m with MEmit e => P e | _ => false end.
(** Calls to the observer that jobs in flight are still to make. *)
Fixpoint pend (P : Event → bool) (fs : list Flight) : Z :=
  match fs with [] => 0 | f :: fs => cnt (emits P) (f_left f) + pend P fs end.
(** Calls made, and calls jobs in flight are about to make. *)
Definition tally (P : Event → bool) (w : World) : Z :=
  cnt P (events (shared (ex_of w))) + pend P (flights w).

Lemma pend_app P fs gs : pend P (fs ++ gs) = pend P fs + pend P gs.
Proof. induction fs as [|f fs IH]; cbn [app pend]; [done|]. rewrite IH. lia. Qed.
Lemma pend_insert P fs k f f' : fs !! k = Some f →
  pend P (<[k := f']> fs) = pend P fs - cnt (emits P) (f_left f) + cnt (emits P) (f_left f').
Proof.
  revert k. induction fs as [|g fs IH]; intros [|k] H; try done.
  - injection H as ->. cbn. lia.
  - change (<[S k := f']> (g :: fs)) with (g :: <[k := f']> fs). cbn [pend]. rewrite (IH k H). lia.
Qed.
Lemma pend_done P fs : Forall (λ f, f_left f = []) fs → pend P fs = 0.
Proof. induction 1 as [|f fs Hf _ IH]; cbn [pend]; [done|]. rewrite Hf, IH. done. Qed.

(** ** The executor-wide fault *)

Definition is_exec_fault (e : Event) : bool := match e with OnExecutorFault _ => true | _ => false end.
Definition is_exec_clear (e : Event) : bool := match e with OnExecutorClear => true | _ => false end.
Definition exec_down (ex : Executor) : Z :=
  if is_exec_faulted (exec_load (exec_fault (shared ex)) 0 0) then 1 else 0.
Definition exec_bal (w : World) : Z :=
  tally is_exec_fault w - tally is_exec_clear w - exec_down (ex_of w).

(** Faults of the tasks with id [x]. *)
Definition is_task_fault (x : TaskId) (e : Event) : bool :=
  match e with OnTaskFault y _ => bool_decide (y = x) | _ => false end.
Definition is_task_clear (x : TaskId) (e : Event) : bool :=
  match e with OnTaskClear y => bool_decide (y = x) | _ => false end.
Definition is_faulted (t : TaskEntry) : bool :=
  match unpack (fault (atomics t)) 0 with Running => false | Faulted _ _ => true end.
Definition task_down (x : TaskId) (ts : list TaskEntry) : Z :=
  cnt (λ t, bool_decide (id t = x) && is_faulted t) ts.
Definition task_bal (x : TaskId) (w : World) : Z :=
  tally (is_task_fault x) w - tally (is_task_clear x) w - task_down x (tasks (ex_of w)).

Lemma unpack_faulted w b : (match unpack w b with Running => false | Faulted _ _ => true end) =
  (match unpack w 0 with Running => false | Faulted _ _ => true end).
Proof. unfold unpack. destruct (disc_of w) as [|[[]|[]|]|]; done. Qed.
Lemma exec_unpack_faulted w i b : is_exec_faulted (exec_unpack w i b) = is_exec_faulted (exec_unpack w 0 0).
Proof. unfold exec_unpack. destruct (disc_of w) as [|[[]|[]|]|]; done. Qed.

Lemma duration_u32 ms : is_u 32 (duration_to_ms_sat ms).
Proof.
  unfold duration_to_ms_sat, is_u, wrap. destruct (Z.ltb_spec (2 ^ 32 - 1) ms); [lia|].
  apply Z.mod_pos_bound. lia.
Qed.
Lemma since_u32 s t : is_u 32 (since_of_start s t).
Proof. apply duration_u32. Qed.

Lemma pack_faulted r s : is_u 32 s →
  match unpack (pack (Faulted r s)) 0 with Running => false | Faulted _ _ => true end = true.
Proof.
  intros Hs. unfold pack. destruct r as [t b|];
    [destruct (fields_of_word 1 t s) as (Hd & _) | destruct (fields_of_word 2 0 s) as (Hd & _)];
    try done; unfold unpack; by rewrite Hd.
Qed.
Lemma exec_pack_faulted i t b s : is_u 32 s →
  is_exec_faulted (exec_unpack (exec_pack (ExecFaulted (IterationBudgetExceeded i t b) s)) 0 0) = true.
Proof.
  intros Hs. unfold exec_pack. destruct (fields_of_word 1 t s) as (Hd & _); [lia|done|].
  unfold exec_unpack. by rewrite Hd.
Qed.

Lemma task_down_alter x i ts t f : ts !! i = Some t → (∀ t, id (f t) = id t) →
  task_down x (alter f i ts) = task_down x ts +
    (if bool_decide (id t = x) then (if is_faulted (f t) then 1 else 0) - (if is_faulted t then 1 else 0) else 0).
Proof.
  intros Hi Hf. revert i Hi. induction ts as [|u ts IH]; intros [|i] Hi; try done.
  - injection Hi as ->. unfold task_down. cbn [alter list_alter]. rewrite !cnt_cons, Hf.
    destruct (bool_decide (id t = x)); cbn [andb]; lia.
  - change (alter f (S i) (u :: ts)) with (u :: alter f i ts). unfold task_down in *.
    rewrite !cnt_cons, (IH i Hi). lia.
Qed.

(** ** Worker accesses keep both balances *)

(** An access a job of entry [i], a task named [tid], may make; [lim] is the
    iteration budget. *)
Definition micro_ok (lim : option Z) (i : nat) (tid : TaskId) (m : Micro) : Prop :=
  match m with
  | MStoreTook s _ | MOverrun s => s = i
  | MTaskSwap s t _ _ _ => s = i ∧ t = tid
  | MEmit e => quiet_event e = true ∨ (∃ r, e = OnTaskFault tid r) ∨ (∃ r, e = OnExecutorFault r)
  | MExecSwap _ _ _ _ => is_Some lim
  | _ => True
  end.

Definition exec_bal_at (ex : Executor) (ms : list Micro) : Z :=
  let evs := events (shared ex) in
  cnt is_exec_fault evs + cnt (emits is_exec_fault) ms -
  (cnt is_exec_clear evs + cnt (emits is_exec_clear) ms) - exec_down ex.
Definition task_bal_at (x : TaskId) (ex : Executor) (ms : list Micro) : Z :=
  let evs := events (shared ex) in
  cnt (is_task_fault x) evs + cnt (emits (is_task_fault x)) ms -
  (cnt (is_task_clear x) evs + cnt (emits (is_task_clear x)) ms) - task_down x (tasks ex).

Ltac count := rewrite ?cnt_append, ?cnt_cons, ?cnt_nil; cbn [emits is_exec_fault is_exec_clear is_task_fault is_task_clear].

Lemma micro_exec_bal m ex : exec_bal_at (micro m ex).1 (micro m ex).2 = exec_bal_at ex [m].
Proof.
  unfold exec_bal_at, exec_down. destruct m; cbn [micro]; try (cbn; count; done).
  - cbn. count. destruct (is_exec_fault e), (is_exec_clear e); lia.
  - destruct (tasks ex !! slot); [|cbn; count; lia]. unfold swap.
    destruct (unpack _ _); cbn [fst snd]; cbn [upd_task set_tasks shared]; count; lia.
  - unfold exec_swap. cbn [fst snd shared set_shared set_exec_fault events exec_fault]. unfold exec_load.
    rewrite exec_pack_faulted by apply since_u32.
    rewrite <-(exec_unpack_faulted (exec_fault (shared ex)) idx limit_ms).
    destruct (exec_unpack (exec_fault (shared ex)) idx limit_ms); cbn [is_exec_faulted]; count; lia.
Qed.

Lemma task_down_same x i ts f : (∀ t, id (f t) = id t ∧ is_faulted (f t) = is_faulted t) →
  task_down x (alter f i ts) = task_down x ts.
Proof.
  intros Hf. destruct (ts !! i) as [t|] eqn:Hi.
  - rewrite (task_down_alter x i ts t f Hi) by (intros; apply Hf).
    destruct (Hf t) as [_ ->]. destruct (bool_decide _); lia.
  - replace (alter f i ts) with ts; [done|]. symmetry. apply list_eq. intros j.
    destruct (decide (j = i)) as [->|]; [by rewrite list_lookup_alter_eq, Hi|by rewrite list_lookup_alter_ne].
Qed.

Lemma micro_task_bal x lim i m ex t : tasks ex !! i = Some t → micro_ok lim i (id t) m →
  task_bal_at x (micro m ex).1 (micro m ex).2 = task_bal_at x ex [m].
Proof.
  intros Hi Hm. unfold task_bal_at. destruct m; cbn [micro]; try (cbn; count; done).
  - cbn. count. destruct (is_task_fault x e), (is_task_clear x e); lia.
  - cbn [fst snd]. cbn [upd_task set_tasks shared tasks]. rewrite task_down_same by done. count. lia.
  - cbn [fst snd]. cbn [upd_task set_tasks shared tasks]. rewrite task_down_same by done. count. lia.
  - destruct Hm as [-> ->]. rewrite Hi. unfold swap. cbn [fst snd upd_task set_tasks shared tasks].
    rewrite (task_down_alter x i (tasks ex) t) by done.
    unfold is_faulted. cbn [set_fault set_atomics atomics fault].
    rewrite pack_faulted by apply since_u32. rewrite <-(unpack_faulted (fault (atomics t)) limit_ms).
    destruct (unpack (fault (atomics t)) limit_ms); count;
      destruct (bool_decide (id t = x)) eqn:E; lia.
  - unfold exec_swap. destruct (exec_unpack _ _ _); cbn [fst snd shared set_shared set_exec_fault events tasks];
      count; lia.
Qed.

Lemma pool_run_exec_bal k w : exec_bal (pool_run k w) = exec_bal w.
Proof.
  unfold pool_run. destruct (flights w !! k) as [[i h [|m ms]]|] eqn:E; [done| |done].
  pose proof (micro_exec_bal m (ex_of w)) as Hb. destruct (micro m (ex_of w)) as [ex more].
  unfold exec_bal, exec_bal_at, tally in *. cbn [fst snd ex_of flights] in *.
  rewrite !(pend_insert _ _ _ _ _ E). cbn [f_left]. rewrite !cnt_append, !(cnt_cons _ m) in *. rewrite !cnt_nil in Hb. lia.
Qed.

(** Jobs in flight: one per entry, the entry marked as dispatched, accesses of
    that entry only. *)
Definition flight_ok (lim : option Z) (ts : list TaskEntry) (f : Flight) : Prop :=
  ∃ t, ts !! f_entry f = Some t ∧ is_Some (pending_cycle (cycle t)) ∧
    Forall (micro_ok lim (f_entry f) (id t)) (f_left f).
Definition flights_ok (w : World) : Prop :=
  Forall (flight_ok (cfg_iteration_budget (config (ex_of w))) (tasks (ex_of w))) (flights w) ∧ NoDup (f_entry <$> flights w).

Lemma pool_run_task_bal x k w : flights_ok w → task_bal x (pool_run k w) = task_bal x w.
Proof.
  intros [Hf _]. unfold pool_run. destruct (flights w !! k) as [[i h [|m ms]]|] eqn:E; [done| |done].
  rewrite Forall_lookup in Hf. destruct (Hf _ _ E) as (t & Ht & _ & Hok).
  cbn [f_entry f_left] in *. apply Forall_cons in Hok as [Hm _].
  pose proof (micro_task_bal x _ i m (ex_of w) t Ht Hm) as Hb. destruct (micro m (ex_of w)) as [ex more].
  unfold task_bal, task_bal_at, tally in *. cbn [fst snd ex_of flights] in *.
  rewrite !(pend_insert _ _ _ _ _ E). cbn [f_left]. rewrite !cnt_append, !(cnt_cons _ m) in *. rewrite !cnt_nil in Hb. lia.
Qed.

Lemma micro_more_ok lim i tid m ex : micro_ok lim i tid m → Forall (micro_ok lim i tid) (micro m ex).2.
Proof.
  intros Hm. destruct m; cbn [micro snd]; try by constructor.
  - destruct (tasks ex !! slot); [|by constructor]. unfold swap. destruct Hm as [-> ->].
    destruct (unpack _ _); [|by constructor]. apply Forall_singleton. right. eauto.
  - unfold exec_swap. destruct (exec_unpack _ _ _); [|by constructor].
    apply Forall_singleton. right. eauto.
Qed.

Lemma flight_ok_core lim ts ts' f : core <$> ts' = core <$> ts → flight_ok lim ts f → flight_ok lim ts' f.
Proof.
  intros Hc (t & Ht & Hp & Hm). destruct (core_lookup ts ts' _ t Hc Ht) as (t' & Ht' & Hcore).
  injection Hcore as H1 _ _ _ _ _ _ H8. exists t'. rewrite H1, H8. done.
Qed.

Lemma pool_run_core k w :
  core <$> tasks (ex_of (pool_run k w)) = core <$> tasks (ex_of w) ∧
  config (ex_of (pool_run k w)) = config (ex_of w) ∧
  cycle_stats (ex_of (pool_run k w)) = cycle_stats (ex_of w).
Proof.
  unfold pool_run. destruct (flights w !! k) as [[i h [|m ms]]|]; [done| |done].
  pose proof (micro_frame m (ex_of w)) as Hf. by destruct (micro m (ex_of w)).
Qed.

Lemma pool_run_entries k w : f_entry <$> flights (pool_run k w) = f_entry <$> flights w.
Proof.
  unfold pool_run. destruct (flights w !! k) as [[i h [|m ms]]|] eqn:E; [done| |done].
  destruct (micro m (ex_of w)). cbn [flights]. by eapply fmap_insert_same.
Qed.

Lemma pool_run_flights_ok k w : flights_ok w → flights_ok (pool_run k w).
Proof.
  intros [Hf Hn]. split; [|by rewrite pool_run_entries].
  pose proof (pool_run_core k w) as (Hc & Hcfg & _). rewrite Hcfg.
  set (lim := cfg_iteration_budget (config (ex_of w))) in *.
  assert (Forall (flight_ok lim (tasks (ex_of (pool_run k w)))) (flights w)) as Hf'.
  { eapply Forall_impl; [exact Hf|]. intros f. by apply flight_ok_core. }
  clear Hf Hc Hcfg. destruct (pool_run_flights k w) as [Hlen Hl].
  rewrite Forall_lookup in Hf' |- *. intros j f Hj.
  destruct (Hl j) as [Heq|(-> & i & h & m & ms & E1 & E2)]; [rewrite Heq in Hj; by eauto|].
  rewrite E2 in Hj. injection Hj as <-. destruct (Hf' k _ E1) as (t & Ht & Hp & Hm).
  exists t. cbn [f_entry f_left] in *. apply Forall_cons in Hm as [Hm Hms].
  split_and!; [done|done|]. apply Forall_app. split; [by apply micro_more_ok|done].
Qed.

(** ** Fresh jobs *)

(** Accesses of a job that has not started: its own, and no fault reported yet. *)
Definition fresh (lim : option Z) (i : nat) (tid : TaskId) (m : Micro) : Prop :=
  micro_ok lim i tid m ∧ match m with MEmit e => quiet_event e = true | _ => True end.

Lemma detect_fresh lim i tid started took b idx :
  Forall (fresh lim i tid) (post_execute_detect_fault tid started took (MkCtx b i lim idx)).
Proof.
  unfold post_execute_detect_fault. cbn [task_budget task_slot iteration_budget task_idx_u32].
  apply Forall_app. split.
  - destruct b as [b|]; [|constructor]. destruct (b <? took); repeat constructor.
  - destruct lim as [l|]; [|constructor]. destruct (l <? took); repeat constructor; by eexists.
Qed.

Lemma item_fresh lim i tid a b bud idx store o : Forall (fresh lim i tid) store →
  Forall (fresh lim i tid) (item_program tid a b (MkCtx bud i lim idx) store o).
Proof.
  intros Hs. unfold item_program.
  pose proof (detect_fresh lim i tid (o_started o) (o_took o) bud idx) as Hd.
  set (pd := post_execute_detect_fault _ _ _ _) in *. clearbody pd.
  repeat apply Forall_app_2; try done.
  - destruct a; repeat constructor.
  - repeat constructor.
  - destruct (o_stop o); repeat constructor.
  - repeat constructor.
  - destruct (run_item_catch_unwind _); repeat constructor.
  - destruct a; repeat constructor.
Qed.

Lemma record_first_fresh lim i tid r : Forall (fresh lim i tid) (record_first_err tid r).
Proof. destruct r; repeat constructor. Qed.

Lemma chain_fresh lim i tid bud idx items : ∀ k out,
  Forall (fresh lim i tid) (chain_program tid (MkCtx bud i lim idx) items k out).
Proof.
  induction items as [|[a b] items IH]; intros k out; cbn [chain_program]; [constructor|].
  apply Forall_app_2; [apply item_fresh; constructor|].
  destruct (run_item_catch_unwind _) as [[]|]; [apply IH|constructor|apply record_first_fresh].
Qed.

Lemma job_fresh cfg i t j out tele : job_ok cfg i t j →
  Forall (fresh (cfg_iteration_budget cfg) i (id t)) (job_program j out tele).
Proof.
  intros [Hid Hctx]. unfold job_program. rewrite Hid, Hctx. cbn [task_slot].
  destruct (j_kind j); apply Forall_app_2; try apply record_first_fresh;
    try (apply item_fresh; repeat constructor); [apply chain_fresh|repeat constructor].
Qed.

Lemma fresh_uncounted lim i tid P ms : (∀ e, quiet_event e = true → P e = false) →
  Forall (fresh lim i tid) ms → cnt (emits P) ms = 0.
Proof.
  intros HP Hf. apply cnt_zero. eapply Forall_impl; [exact Hf|].
  intros [] [_ H]; cbn [emits]; auto.
Qed.

(** ** The invariant *)

Definition no_budget (w : World) : Prop := cfg_iteration_budget (config (ex_of w)) = None.
(** The balances: calls about faults against faults.  A task can become faulted
    without a call when the executor-wide fault reaches it. *)
Definition balanced (w : World) : Prop :=
  exec_bal w = 0 ∧ (∀ x, task_bal x w ≤ 0) ∧
  (no_budget w → exec_down (ex_of w) = 0 ∧ ∀ x, task_bal x w = 0).
Definition inv (w : World) : Prop := table_ok (ex_of w) ∧ flights_ok w ∧ balanced w.

(** What the balances look at of an entry. *)
Definition fproj (t : TaskEntry) : TaskId * FaultAtomic := (id t, fault (atomics t)).

Lemma task_down_fproj x ts ts' : fproj <$> ts' = fproj <$> ts → task_down x ts' = task_down x ts.
Proof.
  revert ts'. induction ts as [|t ts IH]; intros [|t' ts'] H; try done.
  injection H as H1 H2 H. unfold task_down in *. rewrite !cnt_cons, (IH _ H).
  unfold is_faulted. by rewrite H1, H2.
Qed.

(** Worlds that agree on faults, fault events and flights are balanced alike. *)
Lemma balanced_frame w w' :
  config (ex_of w') = config (ex_of w) →
  exec_fault (shared (ex_of w')) = exec_fault (shared (ex_of w)) →
  fproj <$> tasks (ex_of w') = fproj <$> tasks (ex_of w) →
  (∀ P, (∀ e, quiet_event e = true → P e = false) → tally P w' = tally P w) →
  balanced w → balanced w'.
Proof.
  intros Hc He Hf Ht (H1 & H2 & H3).
  assert (exec_down (ex_of w') = exec_down (ex_of w)) as Hd by (unfold exec_down; by rewrite He).
  assert (∀ x, task_bal x w' = task_bal x w) as Hx.
  { intros x. unfold task_bal. rewrite !Ht by (intros []; done). by rewrite (task_down_fproj x _ _ Hf). }
  unfold balanced, no_budget, exec_bal. rewrite Hc, Hd, !Ht by (intros []; done).
  unfold exec_bal in H1. split_and!; [done| |].
  - intros x. rewrite Hx. apply H2.
  - intros Hn. destruct (H3 Hn) as [H4 H5]. split; [done|]. intros x. rewrite Hx. apply H5.
Qed.

Lemma tally_quiet w ex evs P : events (shared ex) = events (shared (ex_of w)) ++ evs →
  Forall (λ e, quiet_event e = true) evs → (∀ e, quiet_event e = true → P e = false) →
  tally P (set_ex w ex) = tally P w.
Proof.
  intros He Hq HP. unfold tally. cbn [ex_of set_ex flights]. rewrite He, cnt_append.
  rewrite (cnt_zero P evs); [lia|]. eapply Forall_impl; [exact Hq|]. auto.
Qed.

(** Changes that leave entries, faults and flights alone and emit quiet events. *)
Lemma inv_quiet w ex evs : tasks ex = tasks (ex_of w) → config ex = config (ex_of w) →
  cycle_stats ex = cycle_stats (ex_of w) →
  exec_fault (shared ex) = exec_fault (shared (ex_of w)) →
  events (shared ex) = events (shared (ex_of w)) ++ evs → Forall (λ e, quiet_event e = true) evs →
  inv w → inv (set_ex w ex).
Proof.
  intros Ht Hc Hs He Hev Hq (H1 & [H2 H3] & H4). split_and!.
  - eapply table_ok_skel; [exact Hc|by rewrite <-Hs|by rewrite <-Ht|done].
  - split; [|done]. cbn [ex_of set_ex flights]. by rewrite Ht, Hc.
  - eapply balanced_frame; [exact Hc|exact He|by rewrite <-Ht| |exact H4].
    intros P HP. by eapply tally_quiet.
Qed.

Lemma inv_pool_run k w : inv w → inv (pool_run k w).
Proof.
  intros (H1 & H2 & H3). destruct (pool_run_core k w) as (Hc & Hcfg & Hst). split_and!.
  - eapply table_ok_skel; [exact Hcfg|by rewrite Hst|by apply core_skel|done].
  - by apply pool_run_flights_ok.
  - destruct H3 as (H3 & H4 & H5). unfold balanced. rewrite pool_run_exec_bal. split_and!; [done|..].
    + intros x. rewrite pool_run_task_bal by done. apply H4.
    + unfold no_budget. rewrite Hcfg. intros Hn. destruct (H5 Hn) as [H6 H7]. split.
      * clear -H2 H6 Hn. unfold pool_run. destruct (flights w !! k) as [[i h [|m ms]]|] eqn:E; [done| |done].
        destruct H2 as [Hf _]. rewrite Forall_lookup in Hf. destruct (Hf _ _ E) as (t & _ & _ & Hm).
        apply Forall_cons in Hm as [Hm _]. unfold no_budget in Hn. rewrite Hn in Hm.
        unfold exec_down in *. destruct m; cbn [micro ex_of]; try exact H6.
        -- destruct (tasks (ex_of w) !! slot); [|exact H6]. by destruct (swap _ _ _).
        -- by destruct Hm as [? ?].
      * intros x. rewrite pool_run_task_bal by done. apply H7.
Qed.

Lemma inv_pool_runs ks : ∀ w, inv w → inv (pool_runs ks w).
Proof.
  induction ks as [|k ks IH]; intros w H; [done|]. cbn [pool_runs foldl]. by apply IH, inv_pool_run.
Qed.

(** Without flights the flight conditions are void. *)
Lemma inv_idle w w' : flights w' = [] →
  config (ex_of w') = config (ex_of w) →
  length (cycle_stats (ex_of w')) = length (cycle_stats (ex_of w)) →
  skel <$> tasks (ex_of w') = skel <$> tasks (ex_of w) →
  exec_fault (shared (ex_of w')) = exec_fault (shared (ex_of w)) →
  fproj <$> tasks (ex_of w') = fproj <$> tasks (ex_of w) →
  (∀ P, (∀ e, quiet_event e = true → P e = false) → tally P w' = tally P w) →
  inv w → inv w'.
Proof.
  intros Hf Hc Hl Hs He Hp Ht (H1 & _ & H3). split_and!.
  - by eapply table_ok_skel.
  - split; rewrite Hf; constructor.
  - by eapply balanced_frame.
Qed.

(** ** Dispatching *)

Lemma alter_insert {A} (f : A → A) i (l : list A) x : l !! i = Some x → alter f i l = <[i := f x]> l.
Proof.
  intros Hi. apply list_eq. intros j. destruct (decide (j = i)) as [->|].
  - rewrite list_lookup_alter_eq, Hi, list_lookup_insert_eq by (by eapply lookup_lt_Some). done.
  - by rewrite list_lookup_alter_ne, list_lookup_insert_ne.
Qed.

(** The state after routing: the entry's fault word may have been set by the
    cascade; at most the handler was submitted. *)
Record routed (w w' : World) (i : nat) (task t1 : TaskEntry) (fs : list Flight) : Prop := {
  rt_flights : flights w' = flights w ++ fs;
  rt_tasks : tasks (ex_of w') = <[i := t1]> (tasks (ex_of w));
  rt_core : core t1 = core task;
  rt_config : config (ex_of w') = config (ex_of w);
  rt_stats : cycle_stats (ex_of w') = cycle_stats (ex_of w);
  rt_events : events (shared (ex_of w')) = events (shared (ex_of w));
  rt_exec : exec_fault (shared (ex_of w')) = exec_fault (shared (ex_of w));
  rt_fault : is_faulted t1 = is_faulted task ∨
             is_faulted task = false ∧ is_faulted t1 = true ∧ exec_down (ex_of w) = 1;
  rt_jobs : fs = [] ∨ ∃ h j n, fs = [MkFlight i h (job_program j (outcome n) (chain_tele n))] ∧
             (job task = Some j ∨ handler_job task = Some j);
  rt_running : running (ex_of w') = running (ex_of w);
}.

Lemma routed_same w i task : tasks (ex_of w) !! i = Some task → routed w w i task task [].
Proof.
  intros Hi. split; try done; [by rewrite app_nil_r|by rewrite list_insert_id|by left|by left].
Qed.

Lemma cascade_spec w i task now : tasks (ex_of w) !! i = Some task →
  let ef := is_exec_faulted (exec_load (exec_fault (shared (ex_of w))) 0 0) in
  ∃ t1, routed w (set_ex w (lazy_cascade (ex_of w) i task ef now).1) i task t1 [].
Proof.
  intros Hi ef. unfold lazy_cascade. destruct (load _ _) eqn:El; [destruct ef eqn:Eef|];
    try (exists task; rewrite set_ex_same; by apply routed_same).
  unfold swap. cbn [fst].
  set (word := pack _). exists (set_fault task word).
  split; cbn [flights ex_of set_ex upd_task set_tasks tasks config cycle_stats set_shared shared];
    try done; [by rewrite app_nil_r|by apply (alter_insert (λ t, set_fault t word))| |by left].
  right. split_and!.
  - unfold is_faulted. rewrite <-(unpack_faulted _ (budget_ms (budget task))).
    unfold load in El. by rewrite El.
  - unfold is_faulted. cbn [set_fault set_atomics atomics fault]. apply pack_faulted, since_u32.
  - unfold exec_down. unfold ef in Eef. by rewrite Eef.
Qed.

Lemma routing_spec w i task now : tasks (ex_of w) !! i = Some task →
  ∃ t1 fs, routed w (handle_fault_routing outcome chain_tele w i task now).1 i task t1 fs ∧
    ((handle_fault_routing outcome chain_tele w i task now).2 = false → fs = []).
Proof.
  intros Hi. unfold handle_fault_routing.
  destruct (is_graph _); [exists task, []; split; [by apply routed_same|done]|].
  destruct (cascade_spec w i task now Hi) as [t1 Hr].
  destruct (lazy_cascade _ _ _ _ _) as [ex tf]. cbn [fst] in Hr.
  destruct (negb _); [by exists t1, []|].
  destruct (handler_job task) as [h|] eqn:Eh; [|by exists t1, []].
  set (n := submissions w).
  destruct Hr. exists t1, [MkFlight i true (job_program h (outcome n) (chain_tele n))].
  split; [|done]. split; try done. right. exists true, h, n. split; [done|by right].
Qed.

Lemma rt_skel w w' i task t1 fs : routed w w' i task t1 fs → tasks (ex_of w) !! i = Some task →
  skel <$> tasks (ex_of w') = skel <$> tasks (ex_of w).
Proof.
  intros Hr Hi. rewrite (rt_tasks _ _ _ _ _ _ Hr). eapply fmap_insert_same; [exact Hi|].
  pose proof (rt_core _ _ _ _ _ _ Hr) as [= H1 H2 H3 H4 H5 H6 H7 _]. unfold skel. congruence.
Qed.

(** A dispatch that is not a duplicate: routing, then the mark, then the job. *)
Record dispatched (w w' : World) (i : nat) (task t1 : TaskEntry) (fs : list Flight) : Prop := {
  dp_flights : flights w' = flights w ++ fs;
  dp_tasks : tasks (ex_of w') = <[i := t1]> (tasks (ex_of w));
  dp_skel : skel t1 = skel task;
  dp_pending : is_Some (pending_cycle (cycle t1));
  dp_config : config (ex_of w') = config (ex_of w);
  dp_stats : cycle_stats (ex_of w') = cycle_stats (ex_of w);
  dp_events : events (shared (ex_of w')) = events (shared (ex_of w));
  dp_exec : exec_fault (shared (ex_of w')) = exec_fault (shared (ex_of w));
  dp_fault : is_faulted t1 = is_faulted task ∨
             is_faulted task = false ∧ is_faulted t1 = true ∧ exec_down (ex_of w) = 1;
  dp_jobs : fs = [] ∨ ∃ h j n, fs = [MkFlight i h (job_program j (outcome n) (chain_tele n))] ∧
             (job task = Some j ∨ handler_job task = Some j);
  dp_running : running (ex_of w') = running (ex_of w);
}.

Lemma dispatch_spec w i d w' : dispatch_task outcome chain_tele w i d = Ok w' →
  let w0 := pool_runs (di_pool d) w in
  ∃ task, tasks (ex_of w0) !! i = Some task ∧
    (is_Some (pending_cycle (cycle task)) ∧ w' = w0 ∨
     pending_cycle (cycle task) = None ∧ ∃ t1 fs, dispatched w0 w' i task t1 fs).
Proof.
  intros H w0. unfold dispatch_task in H. apply res_bind_Ok in H as (task & Hi & H).
  apply expect_Ok in Hi. fold w0 in Hi, H. exists task. split; [done|].
  destruct (pending_cycle (cycle task)) eqn:Ep; [left; injection H as <-; by eauto|right; split; [done|]].
  destruct (routing_spec w0 i task (di_now_ms d) Hi) as (t1 & fs & Hr & Hfs).
  destruct (handle_fault_routing _ _ _ _ _ _) as [w1 b]. cbn [fst snd] in *.
  destruct Hr as [R1 R2 R3 R4 R5 R6 R7 R8 R9 R10].
  assert (tasks (ex_of w1) !! i = Some t1) as Hi1.
  { rewrite R2. apply list_lookup_insert_eq. by eapply lookup_lt_Some. }
  set (mark := λ t, set_cycle t (set_pending (cycle t) (Some (MkPending (di_pre d) b)))) in *.
  set (w2 := set_ex w1 (upd_task (ex_of w1) i mark)) in *.
  injection R3 as C1 C2 C3 C4 C5 C6 C7 C8.
  assert (tasks (ex_of w2) = <[i := mark t1]> (tasks (ex_of w0))) as Ht2.
  { cbn [w2 ex_of set_ex upd_task set_tasks tasks]. rewrite (alter_insert mark _ _ t1 Hi1), R2.
    by rewrite list_insert_insert_eq. }
  assert (dispatched w0 w2 i task (mark t1) fs) as Hd.
  { split; try done. unfold skel, mark, set_cycle. cbn. congruence. }
  injection H as <-. destruct b; [by eauto|]. specialize (Hfs eq_refl). subst fs.
  destruct Hd as [D1 D2 D3 D4 D5 D6 D7 D8 D9 _ D11]. rewrite app_nil_r in D1.
  unfold submit_task_job. destruct (kind task) eqn:Ek; cycle 2.
  { exists (mark t1), []. destruct (di_graph_err d); split; try done; by rewrite app_nil_r. }
  all: destruct (job task) as [j|] eqn:Ej;
    [|exists (mark t1), []; split; try done; by left].
  all: exists (mark t1), [MkFlight i false (job_program j (outcome (submissions w2)) (chain_tele (submissions w2)))];
    split; try done; [cbn [submit_shared flights]; by rewrite D1|];
    right; eexists _, _, _; split; [reflexivity|by left].
Qed.

Lemma task_down_insert x i ts t t1 : ts !! i = Some t → id t1 = id t →
  task_down x (<[i := t1]> ts) = task_down x ts +
    (if bool_decide (id t = x) then (if is_faulted t1 then 1 else 0) - (if is_faulted t then 1 else 0) else 0).
Proof.
  intros Hi Hid. revert i Hi. induction ts as [|u ts IH]; intros [|i] Hi; try done.
  - injection Hi as ->. unfold task_down. cbn [insert list_insert]. rewrite !cnt_cons, Hid.
    destruct (bool_decide (id t = x)); cbn [andb]; lia.
  - change (<[S i := t1]> (u :: ts)) with (u :: <[i := t1]> ts). unfold task_down in *.
    rewrite !cnt_cons, (IH i Hi). lia.
Qed.

Lemma skel_id t t' : skel t = skel t' → id t = id t'.
Proof. by intros [=]. Qed.

(** The jobs a dispatch submits are fresh. *)
Lemma dispatched_fresh w w' i task t1 fs : inv w → tasks (ex_of w) !! i = Some task →
  dispatched w w' i task t1 fs →
  Forall (λ f, f_entry f = i ∧ Forall (fresh (cfg_iteration_budget (config (ex_of w))) i (id task)) (f_left f)) fs.
Proof.
  intros [[_ Hok] _] Hi Hd. destruct (dp_jobs _ _ _ _ _ _ Hd) as [->|(h & j & n & -> & Hj)]; [constructor|].
  apply Forall_singleton. split; [done|]. cbn [f_left].
  apply (job_fresh _ i task). destruct (Hok i task Hi) as (_ & _ & H1 & H2).
  destruct Hj as [Hj|Hj]; [by apply H1|by apply H2].
Qed.

Lemma dispatched_flights_ok w w' i task t1 fs : inv w → tasks (ex_of w) !! i = Some task →
  pending_cycle (cycle task) = None → dispatched w w' i task t1 fs → flights_ok w'.
Proof.
  intros Hinv Hi Hp Hd. pose proof (dispatched_fresh _ _ _ _ _ _ Hinv Hi Hd) as Hfresh.
  destruct Hinv as (_ & [Hf Hn] & _). pose proof Hd as [D1 D2 D3 D4 D5 D6 D7 D8 D9 D10 D11].
  assert (Forall (λ f, f_entry f ≠ i) (flights w)) as Hne.
  { eapply Forall_impl; [exact Hf|]. intros f (t & Ht & [p Hpe] & _) He. rewrite He in Ht. congruence. }
  split; rewrite D1.
  - apply Forall_app. split.
    + rewrite Forall_forall in Hf, Hne |- *. intros f Hin. destruct (Hf f Hin) as (t & Ht & Hpe & Hm).
      exists t. rewrite D2, D5. specialize (Hne f Hin). simpl in Hne.
      rewrite list_lookup_insert_ne by congruence. done.
    + eapply Forall_impl; [exact Hfresh|]. intros f [He Hfr]. exists t1.
      rewrite D2, D5, He, list_lookup_insert_eq by (by eapply lookup_lt_Some).
      split_and!; [done|done|]. rewrite (skel_id _ _ D3).
      eapply Forall_impl; [exact Hfr|]. by intros m [Hm _].
  - rewrite fmap_app. apply NoDup_app. split_and!; [done| |].
    + intros x (f & -> & Hin)%list_elem_of_fmap (g & Hg & Hgin)%list_elem_of_fmap.
      rewrite Forall_forall in Hne, Hfresh. destruct (Hfresh g Hgin) as [He _].
      apply (Hne f Hin). congruence.
    + destruct D10 as [->|(h & j & n & -> & _)]; repeat constructor; set_solver.
Qed.

Lemma pend_fresh lim i tid P fs : (∀ e, quiet_event e = true → P e = false) →
  Forall (λ f, f_entry f = i ∧ Forall (fresh lim i tid) (f_left f)) fs → pend P fs = 0.
Proof.
  intros HP. induction 1 as [|f fs [_ Hf] _ IH]; [done|]. cbn [pend].
  by rewrite (fresh_uncounted lim i tid P _ HP Hf), IH.
Qed.

Lemma dispatched_balanced w w' i task t1 fs : inv w → tasks (ex_of w) !! i = Some task →
  dispatched w w' i task t1 fs → balanced w'.
Proof.
  intros Hinv Hi Hd. pose proof (dispatched_fresh _ _ _ _ _ _ Hinv Hi Hd) as Hfresh.
  destruct Hinv as (_ & _ & H1 & H2 & H3). pose proof Hd as [D1 D2 D3 D4 D5 D6 D7 D8 D9 D10 D11].
  assert (∀ P, (∀ e, quiet_event e = true → P e = false) → tally P w' = tally P w) as Ht.
  { intros P HP. unfold tally. rewrite D7, D1, pend_app, (pend_fresh _ _ _ P fs HP Hfresh). lia. }
  assert (exec_down (ex_of w') = exec_down (ex_of w)) as He by (unfold exec_down; by rewrite D8).
  assert (∀ x, task_bal x w' = task_bal x w -
    (if bool_decide (id task = x) then (if is_faulted t1 then 1 else 0) - (if is_faulted task then 1 else 0) else 0)) as Hx.
  { intros x. unfold task_bal. rewrite !Ht by (intros []; done).
    rewrite D2, (task_down_insert x i _ task t1 Hi (skel_id _ _ D3)). lia. }
  unfold balanced, no_budget. rewrite D5, He. split_and!.
  - unfold exec_bal in *. rewrite !Ht, He by (intros []; done). done.
  - intros x. rewrite Hx. specialize (H2 x). destruct (bool_decide _); [|lia].
    destruct D9 as [->|(-> & -> & _)]; lia.
  - intros Hn. destruct (H3 Hn) as [H4 H5]. split; [done|]. intros x. rewrite Hx. specialize (H5 x).
    destruct D9 as [->|(_ & _ & H6)]; [destruct (bool_decide _); lia|lia].
Qed.

Lemma inv_dispatch w i d w' : inv w → dispatch_task outcome chain_tele w i d = Ok w' → inv w'.
Proof.
  intros Hinv H. apply (inv_pool_runs (di_pool d)) in Hinv.
  destruct (dispatch_spec w i d w' H) as (task & Hi & [[_ ->]|[Hp (t1 & fs & Hd)]]); [done|].
  split_and!.
  - destruct Hd as [D1 D2 D3 D4 D5 D6 D7 D8 D9 D10 D11].
    eapply table_ok_skel; [exact D5|by rewrite D6| |by apply Hinv]. rewrite D2.
    by eapply fmap_insert_same.
  - by eapply dispatched_flights_ok.
  - by eapply dispatched_balanced.
Qed.

(** Changes of the cycle fields of an entry that keep its mark. *)
Lemma inv_cycle w i f : (∀ t, ∃ c, f t = set_cycle t c ∧ pending_cycle c = pending_cycle (cycle t)) →
  inv w → inv (set_ex w (upd_task (ex_of w) i f)).
Proof.
  intros Hf (H1 & [H2 H3] & H4).
  assert (skel <$> alter f i (tasks (ex_of w)) = skel <$> tasks (ex_of w)) as Hs.
  { apply fmap_alter_same. intros t. by destruct (Hf t) as (c & -> & _). }
  split_and!.
  - by apply (table_ok_skel (ex_of w)).
  - split; [|done]. eapply Forall_impl; [exact H2|]. intros fl (t & Ht & Hp & Hm).
    cbn [ex_of set_ex upd_task set_tasks tasks config]. destruct (decide (f_entry fl = i)) as [<-|Hne].
    + destruct (Hf t) as (c & Hc & Hpc). exists (set_cycle t c). rewrite list_lookup_alter_eq, Ht.
      split_and!; [cbn; by rewrite Hc| |done]. by rewrite <-Hpc in Hp.
    + exists t. by rewrite list_lookup_alter_ne.
  - apply (balanced_frame w); [done|done| |done|exact H4].
    apply fmap_alter_same. intros t. by destruct (Hf t) as (c & -> & _).
Qed.

Lemma inv_cyclic w i s l d w' : inv w → dispatch_cyclic outcome chain_tele w i s l d = Ok w' → inv w'.
Proof.
  unfold dispatch_cyclic. intros Hinv H. apply res_bind_Ok in H as (t & _ & H).
  eapply inv_dispatch; [|exact H]. apply inv_cycle; [|done]. intros t'. eexists. by split.
Qed.

(** ** The barrier and the fold after it *)

Lemma inv_barrier w ks : inv w → inv (barrier w ks).
Proof.
  intros H. apply (inv_pool_runs ks) in H. unfold barrier.
  set (w1 := pool_runs ks w) in *. pose proof (finish_all w1) as Hd.
  apply (inv_pool_runs (finish_schedule w1)) in H. set (w2 := pool_runs (finish_schedule w1) w1) in *.
  apply (inv_idle w2); try done. intros P _. unfold tally. cbn [ex_of flights pend].
  by rewrite (pend_done P _ Hd).
Qed.

(** What an idle executor keeps when a cycle is recorded. *)
Record kept (ex ex' : Executor) : Prop := {
  kp_config : config ex' = config ex;
  kp_stats : length (cycle_stats ex') = length (cycle_stats ex);
  kp_skel : skel <$> tasks ex' = skel <$> tasks ex;
  kp_exec : exec_fault (shared ex') = exec_fault (shared ex);
  kp_fault : fproj <$> tasks ex' = fproj <$> tasks ex;
  kp_events : ∃ evs, events (shared ex') = events (shared ex) ++ evs ∧ Forall (λ e, quiet_event e = true) evs;
}.

Lemma kept_refl ex : kept ex ex.
Proof. split; try done. exists []. split; [by rewrite app_nil_r|constructor]. Qed.
Lemma kept_trans a b c : kept a b → kept b c → kept a c.
Proof.
  intros [A1 A2 A3 A4 A5 (e1 & A6 & A7)] [B1 B2 B3 B4 B5 (e2 & B6 & B7)]. split; try congruence.
  exists (e1 ++ e2). split; [by rewrite B6, A6, app_assoc|by apply Forall_app_2].
Qed.

Lemma kept_task ex i t t' : tasks ex !! i = Some t → skel t' = skel t → fproj t' = fproj t →
  kept ex (set_tasks ex (<[i := t']> (tasks ex))).
Proof.
  intros Hi H1 H2. split; try done; try (by eapply fmap_insert_same).
  exists []. split; [by rewrite app_nil_r|constructor].
Qed.

Lemma inv_kept w ex : flights w = [] → kept (ex_of w) ex → inv w → inv (set_ex w ex).
Proof.
  intros Hf [H1 H2 H3 H4 H5 (evs & H6 & H7)] H. apply (inv_idle w); try done.
  intros P HP. by eapply tally_quiet.
Qed.

Lemma record_kept ex i b p ex' : record_cycle_for ex i b p = Ok ex' → kept ex ex'.
Proof.
  unfold record_cycle_for. intros H. apply res_bind_Ok in H as (t & Hi & H). apply expect_Ok in Hi.
  destruct (scan_period t) as [period|] eqn:Es; [|injection H as <-; apply kept_refl].
  apply res_bind_Ok in H as (st & _ & H). apply res_bind_Ok in H as ([st' ci] & _ & H).
  injection H as <-. split; cbn; try done; try (by eapply fmap_insert_same).
  - apply length_insert.
  - eexists. split; [reflexivity|]. by repeat constructor.
Qed.

Lemma record_loop_kept idxs : ∀ ex ex', record_loop ex idxs = Ok ex' → kept ex ex'.
Proof.
  induction idxs as [|i idxs IH]; intros ex ex' H; [injection H as <-; apply kept_refl|].
  cbn [record_loop] in H. apply res_bind_Ok in H as (t & Hi & H). apply expect_Ok in Hi.
  destruct (pending_cycle (cycle t)) as [p|]; [|by apply IH].
  apply res_bind_Ok in H as (ex1 & H1 & H). eapply kept_trans; [|by apply IH].
  eapply kept_trans; [|by eapply record_kept]. by eapply kept_task.
Qed.

Lemma inv_barrier_and_record w ks w' : inv w → barrier_and_record w ks = Ok w' → inv w' ∧ flights w' = [].
Proof.
  unfold barrier_and_record. intros Hinv H. apply (inv_barrier w ks) in Hinv.
  apply res_bind_Ok in H as (ex & H & Hw). injection Hw as <-. split; [|done].
  apply inv_kept; [done|by eapply record_loop_kept|done].
Qed.

Lemma inv_sweep w : flights w = [] → inv w →
  inv (set_ex w (set_tasks (ex_of w) (sweep <$> tasks (ex_of w)))).
Proof.
  intros Hf. apply inv_kept; [done|]. split; try done.
  - cbn. rewrite <-list_fmap_compose. done.
  - cbn. rewrite <-list_fmap_compose. done.
  - exists []. split; [by rewrite app_nil_r|constructor].
Qed.

(** ** Calls between runs *)

Lemma task_down_app x ts ts' : task_down x (ts ++ ts') = task_down x ts + task_down x ts'.
Proof. apply cnt_append. Qed.

Lemma fresh_not_faulted x t : atomics t = atomics_new → task_down x [t] = 0.
Proof.
  intros Ha. unfold task_down. rewrite cnt_cons. unfold is_faulted. rewrite Ha.
  change (unpack (fault atomics_new) 0) with Running. by rewrite andb_false_r.
Qed.

(** Registration: new entries are running, and nothing else changes. *)
Definition registered (ex ex' : Executor) : Prop :=
  config ex' = config ex ∧ shared ex' = shared ex ∧
  ∀ x, task_down x (tasks ex') = task_down x (tasks ex).

Lemma registered_push ex n t : atomics t = atomics_new → registered ex (push_task (set_next_id ex n) t).
Proof.
  intros Ha. split_and!; [done|done|]. intros x. cbn [tasks push_task set_stats set_tasks set_next_id].
  rewrite task_down_app, fresh_not_faulted by done. lia.
Qed.

Lemma registered_handler ex n t k tk h : atomics t = atomics_new → (tasks ex ++ [t]) !! k = Some tk →
  registered ex (set_tasks (push_task (set_next_id ex n) t) (<[k := set_handler tk h]> (tasks ex ++ [t]))).
Proof.
  intros Ha Hk. split_and!; [done|done|]. intros x. cbn [tasks set_tasks].
  rewrite (task_down_fproj x (tasks ex ++ [t])) by (by eapply fmap_insert_same).
  rewrite task_down_app, fresh_not_faulted by done. lia.
Qed.

Lemma set_next_id_same ex : set_next_id ex (next_id ex) = ex.
Proof. by destruct ex. Qed.

Lemma add_call_registered ex c ex' r : is_add c = true → call ex c = Ok (ex', r) → registered ex ex'.
Proof.
  intros Hadd Hc. assert (∀ n, registered ex (set_next_id ex n)) as Hsame by done.
  destruct c; try discriminate Hadd; unfold call in Hc.
  - destruct (add ex item) as [ex1 r1] eqn:E. injection Hc as <- _. apply add_with_id_effect in E.
    destruct r1 as [tid|e]; [destruct E as (t & -> & _ & Ha); by apply registered_push|subst; apply Hsame].
  - destruct (add_with_id ex id0 item) as [ex1 r1] eqn:E. injection Hc as <- _.
    rewrite <-(set_next_id_same ex) in E. apply add_with_id_effect in E.
    destruct r1 as [tid|e]; [destruct E as (t & -> & _ & Ha); by apply registered_push|subst; apply Hsame].
  - destruct (add_with_fault_handler ex main handler) as [[ex1 r1]|] eqn:E; [|done].
    injection Hc as <- _. unfold add_with_fault_handler in E.
    destruct (add ex main) as [ex2 r2] eqn:Ea. apply add_with_id_effect in Ea.
    destruct r2 as [tid|e]; [|injection E as <- _; subst; apply Hsame].
    destruct Ea as (t & -> & _ & Ha). destruct (it_declare handler) as [d|e].
    + apply res_bind_Ok in E as (k & _ & E). apply res_bind_Ok in E as (tk & Hk & E).
      injection E as <- _. apply expect_Ok in Hk. by apply registered_handler.
    + injection E as <- _. by apply registered_push.
  - destruct (add_chain ex items) as [ex1 r1] eqn:E. injection Hc as <- _. apply chain_effect in E.
    destruct r1 as [tid|e]; [destruct E as (t & -> & Ha); by apply registered_push|subst; apply Hsame].
  - destruct (add_chain_with_id_boxed ex id0 items) as [ex1 r1] eqn:E. injection Hc as <- _.
    rewrite <-(set_next_id_same ex) in E. apply chain_effect in E.
    destruct r1 as [tid|e]; [destruct E as (t & -> & Ha); by apply registered_push|subst; apply Hsame].
  - destruct (graph_build ex b) as [[ex1 r1]|] eqn:E; [|done]. injection Hc as <- _.
    apply graph_effect in E as [n E].
    destruct r1 as [tid|e]; [destruct E as (t & -> & Ha); by apply registered_push|subst; apply Hsame].
Qed.

Lemma running_word b : unpack (pack Running) b = Running.
Proof. done. Qed.

Lemma clear_task_balanced w i : flights w = [] → balanced w →
  balanced (set_ex w (clear_task_fault (ex_of w) i).1).
Proof.
  intros Hf (H1 & H2 & H3). unfold clear_task_fault.
  destruct (position (tasks (ex_of w)) i) as [k|] eqn:Ek; [|by rewrite set_ex_same].
  destruct (position_Some _ _ _ Ek) as (t & Hk & Hid & _). rewrite Hk. unfold swap.
  set (t1 := set_fault t (pack Running)).
  set (ex1 := set_tasks (ex_of w) (<[k := t1]> (tasks (ex_of w)))).
  assert (∀ x, task_down x (<[k := t1]> (tasks (ex_of w))) = task_down x (tasks (ex_of w)) -
    (if bool_decide (id t = x) then if is_faulted t then 1 else 0 else 0)) as Hd.
  { intros x. rewrite (task_down_insert x k _ t t1 Hk) by done.
    change (is_faulted t1) with false. destruct (bool_decide _), (is_faulted t); lia. }
  assert (is_faulted t = match unpack (fault (atomics t)) (budget_ms (budget t)) with
    | Running => false | Faulted _ _ => true end) as Hft by (unfold is_faulted; by rewrite <-(unpack_faulted _ (budget_ms (budget t)))).
  unfold balanced, no_budget, exec_bal, task_bal, tally, exec_down in *. rewrite Hf in *. cbn [pend] in *.
  destruct (unpack _ _); cbn [fst ex_of set_ex flights emit set_shared shared emit_shared exec_fault events tasks config ex1 set_tasks];
    rewrite ?Hf; cbn [pend]; rewrite Hft in Hd.
  - split_and!; [done| |].
    + intros x. rewrite Hd. specialize (H2 x). destruct (bool_decide _); lia.
    + intros Hn. destruct (H3 Hn) as [H4 H5]. split; [done|]. intros x. rewrite Hd. specialize (H5 x).
      destruct (bool_decide _); lia.
  - assert (∀ x, cnt (is_task_clear x) [OnTaskClear i] = if bool_decide (id t = x) then 1 else 0) as Hcl.
    { intros x. rewrite cnt_cons, cnt_nil. cbn. rewrite Hid. destruct (bool_decide _); lia. }
    split_and!.
    + rewrite !cnt_append. count. lia.
    + intros x. rewrite Hd, !cnt_append, Hcl. count. specialize (H2 x). destruct (bool_decide _); lia.
    + intros Hn. destruct (H3 Hn) as [H4 H5]. split; [done|]. intros x.
      rewrite Hd, !cnt_append, Hcl. count. specialize (H5 x). destruct (bool_decide _); lia.
Qed.

Lemma cascade_clear_down x ts :
  task_down x (cascade_clear ts).1 = task_down x ts - cnt (is_task_clear x) (cascade_clear ts).2 ∧
  Forall (λ e, is_exec_fault e = false ∧ is_exec_clear e = false ∧ is_task_fault x e = false)
    (cascade_clear ts).2.
Proof.
  induction ts as [|t ts [IH1 IH2]]; cbn [cascade_clear]; [done|].
  destruct (cascade_clear ts) as [ts' evs]. cbn [fst snd] in *. unfold load.
  pose proof (unpack_faulted (fault (atomics t)) (budget_ms (budget t))) as Hf.
  destruct (unpack (fault (atomics t)) (budget_ms (budget t))) as [|[] since]; cbn [fst snd swap];
    unfold task_down in *; rewrite ?(cnt_cons _ t), ?(cnt_cons _ (set_fault t _)).
  1,2: (split; [lia|done]).
  split; [|by constructor]. rewrite cnt_cons. cbn [is_task_clear].
  change (is_faulted (set_fault t (pack Running))) with false.
  assert (is_faulted t = true) as -> by (unfold is_faulted; by rewrite <-Hf).
  cbn [id set_fault set_atomics]. rewrite andb_false_r, andb_true_r. destruct (bool_decide (id t = x)); lia.
Qed.

Lemma emits_events ex evs : foldl emit ex evs =
  set_shared ex (MkShared (exec_fault (shared ex)) (exec_fault_task_idx (shared ex))
    (exec_fault_budget_ms (shared ex)) (start_time (shared ex)) (iter_err (shared ex))
    (stopped (shared ex)) (events (shared ex) ++ evs)).
Proof.
  revert ex. induction evs as [|e evs IH]; intros ex; cbn [foldl].
  - rewrite app_nil_r. by destruct ex as [? ? ? ? ? [] ?].
  - rewrite IH. cbn. by rewrite <-app_assoc.
Qed.

Lemma clear_exec_balanced w : flights w = [] → balanced w →
  balanced (set_ex w (clear_executor_fault (ex_of w)).1).
Proof.
  intros Hf (H1 & H2 & H3). unfold clear_executor_fault, exec_swap.
  set (s := shared (ex_of w)) in *.
  assert (exec_down (ex_of w) = if is_exec_faulted (exec_unpack (exec_fault s) (exec_fault_task_idx s)
    (exec_fault_budget_ms s)) then 1 else 0) as Hd.
  { unfold exec_down, exec_load. by rewrite <-(exec_unpack_faulted _ (exec_fault_task_idx s)
      (exec_fault_budget_ms s)). }
  assert (∀ ex, exec_fault (shared ex) = exec_pack ExecRunning → exec_down ex = 0) as H0
    by (intros ex E; unfold exec_down, exec_load; by rewrite E).
  destruct (exec_unpack _ _ _); cbn [is_exec_faulted] in Hd.
  - unfold balanced, no_budget, exec_bal, task_bal, tally in *. rewrite Hd in *.
    cbn [fst]. rewrite (H0 (ex_of (set_ex w _))) by done. done.
  - change (tasks (set_shared (ex_of w) _)) with (tasks (ex_of w)).
    pose proof (λ x, proj1 (cascade_clear_down x (tasks (ex_of w)))) as Hc.
    pose proof (λ x, proj2 (cascade_clear_down x (tasks (ex_of w)))) as Hq.
    destruct (cascade_clear (tasks (ex_of w))) as [ts evs]. cbn [fst snd] in *. rewrite emits_events.
    unfold balanced, no_budget, exec_bal, task_bal, tally in *. rewrite Hf in *. cbn [pend] in *.
    rewrite (H0 (ex_of (set_ex w _))) by done.
    cbn [ex_of set_ex flights emit set_shared shared emit_shared events tasks config set_tasks set_exec_fault].
    fold s. rewrite Hf. cbn [pend]. rewrite !cnt_append, Hd in *.
    assert (cnt is_exec_fault evs = 0 ∧ cnt is_exec_clear evs = 0 ∧ ∀ x, cnt (is_task_fault x) evs = 0) as (Z1 & Z2 & Z3).
    { split_and!; [| |intros x]; apply cnt_zero.
      - eapply Forall_impl; [apply (Hq EmptyString)|]. by intros e (? & _).
      - eapply Forall_impl; [apply (Hq EmptyString)|]. by intros e (_ & ? & _).
      - eapply Forall_impl; [apply (Hq x)|]. by intros e (_ & _ & ?). }
    unfold s. split_and!.
    + rewrite Z1, Z2. count. lia.
    + intros x. rewrite !cnt_append, Hc, Z3. count. specialize (H2 x). lia.
    + intros Hn. destruct (H3 Hn) as [H4 _]. lia.
Qed.

Lemma Ok_pair_fst {A B} (a a' : A) (b b' : B) : Ok (a, b) = Ok (a', b') → a' = a.
Proof. congruence. Qed.

Lemma inv_call w c ex r : flights w = [] → inv w → call (ex_of w) c = Ok (ex, r) → inv (set_ex w ex).
Proof.
  intros Hf (H1 & H2 & H3) Hc. pose proof (call_ok (ex_of w) c H1) as Hok. rewrite Hc in Hok.
  split_and!; [exact Hok|split; cbn [flights set_ex]; rewrite Hf; constructor|].
  destruct (is_add c) eqn:Ea.
  - destruct (add_call_registered _ _ _ _ Ea Hc) as (A1 & A2 & A3).
    destruct H3 as (B1 & B2 & B3).
    unfold balanced, no_budget, exec_bal, task_bal, tally, exec_down in *. cbn [ex_of set_ex flights].
    rewrite A1, A2. split_and!; [done| |].
    + intros x. rewrite A3. apply B2.
    + intros Hn. destruct (B3 Hn) as [B4 B5]. split; [done|]. intros x. rewrite A3. apply B5.
  - destruct c; try discriminate Ea; unfold call in Hc.
    + apply Ok_pair_fst in Hc as ->. by apply clear_task_balanced.
    + apply Ok_pair_fst in Hc as ->. by apply clear_exec_balanced.
Qed.

Lemma inv_heartbeat w now : inv w → inv (set_ex w (emit_heartbeat_if_due (ex_of w) now)).
Proof.
  intros H. unfold emit_heartbeat_if_due.
  destruct (heartbeat_state (ex_of w)) as [hb|]; [|by rewrite set_ex_same].
  destruct (now <? _); [by rewrite set_ex_same|]. eapply inv_quiet; try done. by repeat constructor.
Qed.

Lemma inv_lstep w w' : inv w → lstep w w' → inv w'.
Proof.
  intros Hinv Hst. destruct Hst.
  - by apply inv_pool_run.
  - by eapply inv_dispatch.
  - by eapply inv_cyclic.
  - by eapply inv_barrier_and_record.
  - by apply inv_sweep.
  - eapply (inv_quiet _ _ []); try done. by rewrite app_nil_r.
  - by apply inv_heartbeat.
Qed.

Lemma inv_step w w' : inv w → step w w' → inv w'.
Proof.
  intros Hinv Hst. destruct Hst.
  - by eapply inv_lstep.
  - by eapply inv_call.
  - eapply (inv_quiet _ _ []); try done. by rewrite app_nil_r.
  - eapply (inv_quiet _ _ [e]); try done. by repeat constructor.
Qed.

Lemma inv_initial w : initial w → inv w.
Proof.
  intros (cfg & hb & now & ->). split_and!.
  - split; [done|]. by intros i t.
  - split; constructor.
  - split_and!; done.
Qed.

Lemma inv_reachable w : reachable w → inv w.
Proof.
  intros (w0 & H0 & Hr). apply inv_initial in H0. induction Hr as [w|w w1 w2 Hs _ IH]; [done|].
  apply IH. by eapply inv_step.
Qed.

(** C5. No closure ever runs twice at a time.  In every reachable state, whatever
    the interleaving of workers and dispatching thread, the jobs in flight were
    submitted for different entries, and each of these entries carries the mark
    that makes a second dispatch in the same wake return at once: the exclusive
    cells around closures and items are never found busy. *)
Theorem jobs_exclusive w : reachable w →
  NoDup (f_entry <$> flights w) ∧
  ∀ f, f ∈ flights w → ∃ t, tasks (ex_of w) !! f_entry f = Some t ∧ is_Some (pending_cycle (cycle t)).
Proof.
  intros (_ & [Hf Hn] & _)%inv_reachable. split; [done|]. intros f Hin.
  rewrite Forall_forall in Hf. destruct (Hf f Hin) as (t & Ht & Hp & _). eauto.
Qed.

(** C6. Fault notifications match faults.  In every reachable state, counting the
    calls made and those that jobs in flight are about to make: the observer is
    told of as many executor faults as of clears, plus one while the executor is
    faulted; for every task id it is told of at most as many task faults as of
    clears plus the faulted tasks of that id, and of exactly as many when there is
    no iteration budget, so that no executor-wide fault can cascade. *)
Theorem faults_accounted w : reachable w →
  tally is_exec_fault w = tally is_exec_clear w + exec_down (ex_of w) ∧
  ∀ x, tally (is_task_fault x) w ≤ tally (is_task_clear x) w + task_down x (tasks (ex_of w)) ∧
    (cfg_iteration_budget (config (ex_of w)) = None →
     tally (is_task_fault x) w = tally (is_task_clear x) w + task_down x (tasks (ex_of w))).
Proof.
  intros (_ & _ & H1 & H2 & H3)%inv_reachable. unfold exec_bal, task_bal in *.
  split; [lia|]. intros x. specialize (H2 x). split; [lia|]. intros Hn.
  destruct (H3 Hn) as [_ H4]. specialize (H4 x). lia.
Qed.

(** A run of the executor stays among the reachable states. *)
Lemma run_inner_reachable {Id Guard W} {WS : WaitSetIds Id Guard} (create : W + string) attach dbg
    w mode epoch timer wks w' r : flights w = [] → reachable w →
  run_inner create attach outcome chain_tele dbg w mode epoch timer wks = Ok (w', r) → reachable w'.
Proof.
  intros Hf (w0 & H0 & Hr) H. exists w0. split; [done|]. etransitivity; [exact Hr|].
  by eapply run_inner_steps.
Qed.

End steps.

(** A task that overruns its budget of 5 ms, just after the swap that faults it
    and before the observer is told. *)
Definition demo_item : Item :=
  MkItem (inl (MkDeclarer [Interval 1000000] (Some 5000000))) (Some "a"%string) None None QualityManaged.
Definition demo_outcome (n k : nat) : Outcome := MkOutcome (Returned Continue) false 0 7000000 7000000.
Definition demo_start : World := MkWorld (build plain_config None 0) [] 0.
Definition demo_added : World := set_ex demo_start (add (ex_of demo_start) demo_item).1.
Definition demo_dispatched : World :=
  match dispatch_task demo_outcome (λ _, 0) demo_added 0 (MkDispatchIn [] 100 0 None) with
  | Ok w => w
  | Panic => demo_added
  end.
Definition demo_swapped : World := pool_runs (replicate 6 0%nat) demo_dispatched.

Lemma demo_reachable : reachable demo_outcome (λ _, 0) demo_swapped.
Proof.
  exists demo_start. split; [by eexists _, _, _|].
  eapply rtc_l; [by apply (st_call _ _ demo_start (CAdd demo_item) (add (ex_of demo_start) demo_item).1 None)|].
  eapply rtc_l; [by apply st_loop, (ls_dispatch _ _ _ 0 (MkDispatchIn [] 100 0 None) demo_dispatched)|].
  apply loop_steps, pool_runs_steps.
Qed.

Lemma jobs_exclusive_witness :
  f_entry <$> flights demo_swapped = [0%nat] ∧ NoDup (f_entry <$> flights demo_swapped).
Proof. split; [reflexivity|]. apply (jobs_exclusive demo_outcome (λ _, 0)), demo_reachable. Defined.

Lemma faults_accounted_witness :
  tally (is_task_fault "a") demo_swapped = 1 ∧
  tally (is_task_fault "a") demo_swapped =
    tally (is_task_clear "a") demo_swapped + task_down "a" (tasks (ex_of demo_swapped)).
Proof.
  split; [vm_compute; reflexivity|].
  apply (faults_accounted demo_outcome (λ _, 0) demo_swapped demo_reachable). reflexivity.
Defined.

End ExecLoopOk.
