(* ===== verification/ExecRunOk.v ===== *)
(** * Runs of the executor, from entry to return

    What [run_inner] does around the loop, and how the loop ends: the observer
    sees one bracket per run, the running flag is released on every path that
    took it, and [run_n] counts wakes exactly. *)

From stdpp Require Import base list strings sets relations.
From Stdlib Require Import ZArith Lia.
From S2P Require Import Prelude ExecFault ExecGrid StatsCycle ExecTask ExecAttach ExecJobs ExecLoop ExecLoopOk.

Module ExecRunOk.
Import ExecFault ExecTask ExecAttach ExecJobs ExecLoop ExecLoopOk.

(** Events that bracket a run. *)
Definition lifecycle (e : Event) : bool :=
  match e with
  | OnExecutorUp | OnExecutorDown | OnExecutorError _
  | OnAdmissionAdmitted | OnAdmissionRejected _ => true
  | _ => false
  end.

(** Jobs never emit them. *)
Definition calm (w : World) : Prop :=
  Forall (λ f, Forall (λ m, emits lifecycle m = false) (f_left f)) (flights w).

(** Inside the loop: the flag and the configuration stay, events are appended
    and none of them brackets a run. *)
Definition grows (w w' : World) : Prop :=
  running (ex_of w') = running (ex_of w) ∧ config (ex_of w') = config (ex_of w) ∧
  ∃ evs, events (shared (ex_of w')) = events (shared (ex_of w)) ++ evs ∧
    Forall (λ e, lifecycle e = false) evs.

Lemma grows_same w w' : running (ex_of w') = running (ex_of w) → config (ex_of w') = config (ex_of w) →
  events (shared (ex_of w')) = events (shared (ex_of w)) → grows w w'.
Proof. intros H1 H2 H3. split_and!; [done..|]. exists []. split; [by rewrite app_nil_r|constructor]. Qed.
Lemma grows_trans a b c : grows a b → grows b c → grows a c.
Proof.
  intros (A1 & A2 & e1 & A3 & A4) (B1 & B2 & e2 & B3 & B4). split_and!; [congruence..|].
  exists (e1 ++ e2). split; [by rewrite B3, A3, app_assoc|by apply Forall_app_2].
Qed.

Lemma item_calm tid a b ctx store o : Forall (λ m, emits lifecycle m = false) store →
  Forall (λ m, emits lifecycle m = false) (item_program tid a b ctx store o).
Proof.
  intros Hs. unfold item_program.
  assert (Forall (λ m, emits lifecycle m = false)
    (post_execute_detect_fault tid (o_started o) (o_took o) ctx)) as Hd.
  { unfold post_execute_detect_fault. apply Forall_app_2.
    - destruct (task_budget ctx); [destruct (_ <? _)|]; by repeat constructor.
    - destruct (iteration_budget ctx); [destruct (_ <? _)|]; by repeat constructor. }
  set (pd := post_execute_detect_fault _ _ _ _) in *. clearbody pd.
  repeat apply Forall_app_2; try done.
  - destruct a; by repeat constructor.
  - by repeat constructor.
  - destruct (o_stop o); by repeat constructor.
  - by repeat constructor.
  - destruct (run_item_catch_unwind _); by repeat constructor.
  - destruct a; by repeat constructor.
Qed.

Lemma chain_calm tid ctx items : ∀ k out,
  Forall (λ m, emits lifecycle m = false) (chain_program tid ctx items k out).
Proof.
  induction items as [|[a b] items IH]; intros k out; cbn [chain_program]; [constructor|].
  apply Forall_app_2; [by apply item_calm|].
  destruct (run_item_catch_unwind _) as [[]|]; [apply IH|constructor|by repeat constructor].
Qed.

Lemma job_calm j out tele : Forall (λ m, emits lifecycle m = false) (job_program j out tele).
Proof.
  unfold job_program. destruct (j_kind j); apply Forall_app_2;
    try (apply item_calm; by repeat constructor); try apply chain_calm; try by repeat constructor.
  all: destruct (run_item_catch_unwind _); by repeat constructor.
Qed.

Lemma micro_calm m ex : emits lifecycle m = false →
  Forall (λ m, emits lifecycle m = false) (micro m ex).2 ∧
  running (micro m ex).1 = running ex ∧ config (micro m ex).1 = config ex ∧
  ∃ evs, events (shared (micro m ex).1) = events (shared ex) ++ evs ∧ Forall (λ e, lifecycle e = false) evs.
Proof.
  intros Hm.
  assert (∃ evs, events (shared ex) = events (shared ex) ++ evs ∧ Forall (λ e, lifecycle e = false) evs) as H0
    by (exists []; split; [by rewrite app_nil_r|constructor]).
  destruct m; cbn [micro]; try (split_and!; [by constructor|done|done|exact H0]).
  - split_and!; [by constructor|done|done|]. eexists. split; [reflexivity|]. by repeat constructor.
  - destruct (tasks ex !! slot); [|split_and!; [by constructor|done|done|exact H0]].
    unfold swap. cbn [fst snd]. split_and!; [destruct (unpack _ _); by repeat constructor|done|done|exact H0].
  - unfold exec_swap. cbn [fst snd].
    split_and!; [destruct (exec_unpack _ _ _); by repeat constructor|done|done|exact H0].
Qed.

Lemma pool_run_calm k w : calm w → calm (pool_run k w) ∧ grows w (pool_run k w).
Proof.
  intros Hc. assert (calm w ∧ grows w w) as Hsame by (split; [done|by apply grows_same]).
  unfold pool_run. destruct (flights w !! k) as [[i h [|m ms]]|] eqn:E; [done| |done].
  pose proof Hc as Hf. unfold calm in Hf. rewrite Forall_lookup in Hf.
  pose proof (Hf _ _ E) as Hm. cbn [f_left] in Hm. apply Forall_cons in Hm as [Hm Hms].
  destruct (micro_calm m (ex_of w) Hm) as (H1 & H2 & H3 & H4).
  destruct (micro m (ex_of w)) as [ex more]. cbn [fst snd] in *. split; [|done].
  apply Forall_insert; [exact Hc|]. cbn [f_left]. by apply Forall_app_2.
Qed.

Lemma pool_runs_calm ks : ∀ w, calm w → calm (pool_runs ks w) ∧ grows w (pool_runs ks w).
Proof.
  induction ks as [|k ks IH]; intros w Hc; [split; [done|by apply grows_same]|].
  cbn [pool_runs foldl]. destruct (pool_run_calm k w Hc) as [H1 H2].
  destruct (IH _ H1) as [H3 H4]. split; [done|]. by eapply grows_trans.
Qed.

Section loop.
Context (outcome : nat → nat → Outcome) (chain_tele : nat → Z).

Lemma dispatch_calm w i d w' : calm w → dispatch_task outcome chain_tele w i d = Ok w' →
  calm w' ∧ grows w w'.
Proof.
  intros Hc H. destruct (pool_runs_calm (di_pool d) w Hc) as [H1 H2].
  destruct (dispatch_spec _ _ w i d w' H) as (task & Hi & [[_ ->]|[_ (t1 & fs & Hd)]]); [done|].
  destruct Hd as [D1 D2 D3 D4 D5 D6 D7 D8 D9 D10 D11]. split.
  - unfold calm. rewrite D1. apply Forall_app_2; [done|].
    destruct D10 as [->|(h & j & n & -> & _)]; [constructor|]. apply Forall_singleton, job_calm.
  - eapply grows_trans; [exact H2|]. by apply grows_same.
Qed.

Lemma record_calm ex i b p ex' : record_cycle_for ex i b p = Ok ex' → running ex' = running ex ∧
  config ex' = config ex ∧
  ∃ evs, events (shared ex') = events (shared ex) ++ evs ∧ Forall (λ e, lifecycle e = false) evs.
Proof.
  unfold record_cycle_for. intros H. apply res_bind_Ok in H as (t & _ & H).
  destruct (scan_period t); [|injection H as <-; split_and!; [done..|exists []; split; [by rewrite app_nil_r|constructor]]].
  apply res_bind_Ok in H as (st & _ & H). apply res_bind_Ok in H as ([st' ci] & _ & H).
  injection H as <-. split_and!; [done..|]. eexists. split; [reflexivity|]. by repeat constructor.
Qed.

Lemma record_loop_calm idxs : ∀ w ex', record_loop (ex_of w) idxs = Ok ex' → grows w (set_ex w ex').
Proof.
  induction idxs as [|i idxs IH]; intros w ex' H; [injection H as <-; by apply grows_same|].
  cbn [record_loop] in H. apply res_bind_Ok in H as (t & _ & H).
  destruct (pending_cycle (cycle t)) as [p|]; [|by apply IH].
  apply res_bind_Ok in H as (ex1 & H1 & H). apply (IH (set_ex w ex1)) in H.
  eapply grows_trans; [|exact H]. by apply record_calm in H1.
Qed.

Lemma lstep_calm w w' : calm w → lstep outcome chain_tele w w' → calm w' ∧ grows w w'.
Proof.
  intros Hc Hst. destruct Hst as [k|i d w' H|i s l d w' H|ks w' H|H|e|now].
  - by apply pool_run_calm.
  - by eapply dispatch_calm.
  - unfold dispatch_cyclic in H. apply res_bind_Ok in H as (t & _ & H).
    apply dispatch_calm in H as [H1 H2]; [|done]. split; [done|].
    eapply grows_trans; [|exact H2]. by apply grows_same.
  - unfold barrier_and_record in H. apply res_bind_Ok in H as (ex & H & Hw). injection Hw as <-.
    apply record_loop_calm in H. split; [constructor|]. eapply grows_trans; [|exact H].
    destruct (pool_runs_calm ks w Hc) as [H1 H2].
    destruct (pool_runs_calm (finish_schedule (pool_runs ks w)) _ H1) as [H3 H4].
    eapply grows_trans; [exact H2|exact H4].
  - split; [done|by apply grows_same].
  - split; [done|by apply grows_same].
  - split; [done|]. unfold emit_heartbeat_if_due.
    destruct (heartbeat_state (ex_of w)) as [hb|]; [|by apply grows_same].
    destruct (now <? _); [by apply grows_same|]. split_and!; [done..|].
    eexists. split; [reflexivity|]. by repeat constructor.
Qed.

Lemma lsteps_calm w w' : rtc (lstep outcome chain_tele) w w' → calm w → calm w' ∧ grows w w'.
Proof.
  induction 1 as [w|w w1 w2 Hs _ IH]; intros Hc; [split; [done|by apply grows_same]|].
  destruct (lstep_calm _ _ Hc Hs) as [H1 H2]. destruct (IH H1) as [H3 H4].
  split; [done|]. by eapply grows_trans.
Qed.

Section run.
Context {Id Guard : Type} {WS : WaitSetIds Id Guard}.
Context {W : Type} (waitset_create : W + string) (attach : W → Request → (W * Guard) + string).
Context (dbg : bool).

(** ** No job outlives a wake *)

Lemma wake_idle w (l : Local Id Guard) mode (wk : Wake Id) w' l' out :
  wake outcome chain_tele dbg w l mode wk = Ok (w', l', out) → flights w' = [].
Proof.
  unfold wake. intros H. apply res_bind_Ok in H as ([w1 l1] & _ & H).
  apply res_bind_Ok in H as ([w2 l2] & H2 & H).
  destruct (after_callback _ _ _ _ _ _) as [[ex n] o]. injection H as <- <- <-.
  unfold run_grid_cyclic_pass_guarded in H2. apply res_bind_Ok in H2 as ([w3 l3] & _ & H2).
  apply res_bind_Ok in H2 as (w4 & H4 & H2). injection H2 as <- <-.
  unfold barrier_and_record in H4. apply res_bind_Ok in H4 as (ex4 & _ & H4). by injection H4 as <-.
Qed.

Lemma wakes_idle wks : ∀ w l mode w' l' r, flights w = [] →
  wakes outcome chain_tele dbg w l mode wks = Ok (w', l', r) → flights w' = [].
Proof.
  induction wks as [|wk wks IH]; intros w l mode w' l' r Hf H; [by injection H as <- <- <-|].
  cbn [wakes] in H. apply res_bind_Ok in H as ([[w1 l1] out] & H1 & H). apply wake_idle in H1.
  destruct out; [by eapply IH|by injection H as <- <- <-..].
Qed.

Lemma dispatch_loop_idle w mode epoch timer wks w' r : flights w = [] →
  dispatch_loop waitset_create attach outcome chain_tele dbg w mode epoch timer wks = Ok (w', r) →
  flights w' = [].
Proof.
  intros Hf H. unfold dispatch_loop in H.
  pose proof (setup_world waitset_create attach w epoch timer) as Hs.
  destruct (dispatch_setup _ _ _ _ _) as [w1 s1]. cbn [fst] in Hs. subst w1.
  destruct s1 as [l|e]; [|by injection H as <- <-].
  apply res_bind_Ok in H as ([[w2 l2] r2] & H2 & H). injection H as <- <-. eapply wakes_idle; [|exact H2]. exact Hf.
Qed.

(** ** The bracket of a run *)

(** The last event of a run. *)
Definition end_event (result : option ExecutorError) : Event :=
  match result with None => OnExecutorDown | Some e => OnExecutorError e end.

(** C8. Every return of a run, with its error.  A run of an executor that is
    already running returns [AlreadyRunning] and changes nothing.  A rejected
    admission returns its reason before anything is dispatched.  Every other run
    that returns has reported itself up once at the beginning and down, or the
    error it returns, once at the end, with no other such event in between.  On
    both paths the running flag is released and no job is left in flight. *)
Theorem run_bracketed w mode epoch timer wks w' result : flights w = [] →
  run_inner waitset_create attach outcome chain_tele dbg w mode epoch timer wks = Ok (w', Some result) →
  let evs := events (shared (ex_of w)) in
  let evs' := events (shared (ex_of w')) in
  (running (ex_of w) = true ∧ result = Some AlreadyRunning ∧ w' = w) ∨
  (running (ex_of w) = false ∧ running (ex_of w') = false ∧ flights w' = [] ∧
   ((∃ reason, result = Some (AdmissionRejected reason) ∧ evs' = evs ++ [OnAdmissionRejected reason] ∧
       tasks (ex_of w') = tasks (ex_of w)) ∨
    ∃ admitted mid, evs' = evs ++ admitted ++ [OnExecutorUp] ++ mid ++ [end_event result] ∧
      (admitted = [] ∨ admitted = [OnAdmissionAdmitted]) ∧
      Forall (λ e, lifecycle e = false) mid)).
Proof.
  intros Hf H evs evs'. unfold run_inner in H. destruct (running (ex_of w)) eqn:Er.
  { injection H as <- <-. by left. }
  right. split; [done|].
  destruct (match cfg_admission _ with Some _ => _ | None => _ end) as [ex rej] eqn:Eadm.
  assert (config ex = config (ex_of w) ∧ tasks ex = tasks (ex_of w) ∧
    match rej with
    | Some reason => events (shared ex) = evs ++ [OnAdmissionRejected reason]
    | None => events (shared ex) = evs ∨ events (shared ex) = evs ++ [OnAdmissionAdmitted]
    end) as (_ & Ht & Ha).
  { destruct (cfg_admission _) as [check|]; [|injection Eadm as <- <-; by eauto].
    destruct (check _ _); injection Eadm as <- <-; cbn; by eauto. }
  destruct rej as [reason|].
  { injection H as <- <-. split_and!; [done|done|]. left. exists reason. by split_and!. }
  apply res_bind_Ok in H as ([w2 r2] & H2 & H).
  pose proof (dispatch_loop_idle (set_ex w (emit ex OnExecutorUp)) _ _ _ _ _ _ Hf H2) as Hidle.
  apply dispatch_loop_steps in H2; [|done].
  assert (calm (set_ex w (emit ex OnExecutorUp))) as Hc0.
  { unfold calm. cbn [flights set_ex]. rewrite Hf. constructor. }
  destruct (lsteps_calm _ _ H2 Hc0) as [_ (_ & _ & mid & Hmid & Hcalm)].
  destruct r2 as [res2|]; [|by injection H]. injection H as <- <-. split_and!; [done|done|]. right.
  unfold evs'. cbn [set_running set_ex ex_of shared emit set_shared emit_shared events] in *. rewrite Hmid.
  fold (end_event res2). destruct Ha as [Ha|Ha]; rewrite Ha.
  - exists [], mid. split_and!; [by rewrite <-!app_assoc|by left|done].
  - exists [OnAdmissionAdmitted], mid. split_and!; [by rewrite <-!app_assoc|by right|done].
Qed.

(** ** Counting wakes *)

(** Wakes that are not interrupted waits. *)
Definition counted (wk : Wake Id) : bool :=
  match wk_result wk with inl Interrupt => false | _ => true end.

(** Reasons other than the limit for a loop to end without an error: a stop
    request or a termination signal. *)
Definition stops_early (w : World) (wk : Wake Id) : Prop :=
  wk_result wk = inl TerminationRequest ∨ stopped (shared (ex_of w)) = true.

Lemma after_callback_n ex cb n i inst p ex' i' out :
  after_callback ex cb (Iterations n) i inst p = (ex', i', out) →
  (out = IterContinue → i' = (if match cb with inl Interrupt => true | _ => false end then i else wrap 64 (i + 1)) ∧
     (match cb with inl Interrupt => True | _ => i' < n end)) ∧
  (out = IterDone → cb = inl TerminationRequest ∨ stopped (shared ex') = true ∨
     i' = wrap 64 (i + 1) ∧ n ≤ i' ∧ cb ≠ inl Interrupt).
Proof.
  unfold after_callback. intros H. destruct cb as [r|e]; [|by injection H as <- <- <-].
  destruct r; [injection H as <- <- <-; split; [done|by left]|..];
    (destruct (iter_err _); [by injection H as <- <- <-|]);
    (destruct (stopped (shared (set_shared _ _))) eqn:Es;
       [injection H as <- <- <-; split; [done|by eauto]|]).
  - injection H as <- <- <-. done.
  - destruct (Z.leb_spec n (wrap 64 (i + 1))); injection H as <- <- <-; (split; [done|]); [|done].
    intros _. right. right. split_and!; [done|done|discriminate].
  - destruct (Z.leb_spec n (wrap 64 (i + 1))); injection H as <- <- <-; (split; [done|]); [|done].
    intros _. right. right. split_and!; [done|done|discriminate].
Qed.

(** One wake in the mode of [run_n]. *)
Lemma wake_n w (l : Local Id Guard) n wk w' l' out :
  wake outcome chain_tele dbg w l (Iterations n) wk = Ok (w', l', out) →
  0 ≤ lc_iterations l → lc_iterations l + 1 < 2 ^ 64 →
  (out = IterContinue → lc_iterations l' = lc_iterations l + (if counted wk then 1 else 0) ∧
     (counted wk = true → lc_iterations l' < n)) ∧
  (out = IterDone → stops_early w' wk ∨ counted wk = true ∧ n ≤ lc_iterations l + 1).
Proof.
  unfold wake. intros H H0 H1. apply res_bind_Ok in H as ([w1 l1] & Hp & H).
  apply res_bind_Ok in H as ([w2 l2] & Hg & H).
  assert (lc_iterations l2 = lc_iterations l) as Hl.
  { transitivity (lc_iterations l1).
    - unfold run_grid_cyclic_pass_guarded in Hg. apply res_bind_Ok in Hg as ([w3 l3] & Hg & H').
      apply res_bind_Ok in H' as (w4 & _ & H'). injection H' as _ <-. unfold run_grid_cyclic_pass in Hg.
      destruct (_ || _ || _ || _); [by injection Hg as _ <-|].
      apply res_bind_Ok in Hg as ([g due] & _ & Hg). apply res_bind_Ok in Hg as (w5 & _ & Hg).
      by injection Hg as _ <-.
    - clear -Hp. revert Hp. generalize (set_ex w (set_shared (ex_of w) (set_iter_err (shared (ex_of w)) None))).
      revert l. induction (wk_fired wk) as [|f fired IH]; intros l w0 H; [by injection H as _ <-|].
      cbn [process_all] in H. apply res_bind_Ok in H as ([w2 l2] & H2 & H). apply IH in H. rewrite H.
      unfold process_attachment in H2. apply res_bind_Ok in H2 as ([m i] & _ & H2).
      destruct (i =? IGNORE); [by injection H2 as _ <-|].
      apply res_bind_Ok in H2 as (w3 & _ & H2). by injection H2 as _ <-. }
  destruct (after_callback _ _ _ _ _ _) as [[ex m] o] eqn:Ea. injection H as <- <- <-.
  destruct (after_callback_n _ _ _ _ _ _ _ _ _ Ea) as [Hc Hd]. rewrite Hl in *.
  rewrite wrap_small in * by lia. unfold counted, stops_early. cbn [lc_iterations set_iterations]. split.
  - intros ->. destruct (Hc eq_refl) as [-> Hn]. revert Hn.
    destruct (wk_result wk) as [[]|]; intros Hn; (split; [lia|]); first [done|by intros _].
  - intros ->. destruct (Hd eq_refl) as [?|[?|(-> & Hn & Hne)]]; [by left; left|by left; right|].
    right. split; [|done]. revert Hne. by destruct (wk_result wk) as [[]|].
Qed.

Lemma wakes_n wks : ∀ w (l : Local Id Guard) n w' l' r,
  wakes outcome chain_tele dbg w l (Iterations n) wks = Ok (w', l', r) →
  0 ≤ lc_iterations l → (lc_iterations l = 0 ∨ lc_iterations l < n) →
  lc_iterations l + len wks + 1 < 2 ^ 64 →
  match r with
  | None => lc_iterations l + cnt counted wks = 0 ∨ lc_iterations l + cnt counted wks < n
  | Some None => ∃ pre wk post, wks = pre ++ wk :: post ∧
      (stops_early w' wk ∨ lc_iterations l + cnt counted (pre ++ [wk]) = Z.max 1 n)
  | Some (Some _) => True
  end.
Proof.
  induction wks as [|wk wks IH]; intros w l n w' l' r H H0 Hn Hlen.
  { injection H as <- <- <-. rewrite cnt_nil. lia. }
  unfold len in Hlen, IH. cbn [length] in Hlen.
  cbn [wakes] in H. apply res_bind_Ok in H as ([[w1 l1] out] & H1 & H).
  destruct (wake_n _ _ _ _ _ _ _ H1) as [Hc Hd]; [lia|lia|]. destruct out.
  - destruct (Hc eq_refl) as [Hl1 Hlt]. rewrite cnt_cons.
    assert (lc_iterations l1 = 0 ∨ lc_iterations l1 < n) as Hn1
      by (destruct (counted wk); [right; by apply Hlt|lia]).
    specialize (IH w1 l1 n w' l' r H). destruct r as [[e|]|]; [done| |].
    + destruct IH as (pre & wk' & post & -> & Hp); [destruct (counted wk); lia|done|destruct (counted wk); lia|].
      exists (wk :: pre), wk', post. split; [done|]. destruct Hp as [Hp|Hp]; [by left|right].
      cbn [app]. rewrite cnt_cons. lia.
    + destruct IH as [IH|IH]; [destruct (counted wk); lia|done|destruct (counted wk); lia|left; lia|right; lia].
  - injection H as <- <- <-. exists [], wk, wks. split; [done|].
    destruct (Hd eq_refl) as [Hs|[Hs Hge]]; [by left|right]. cbn [app]. rewrite cnt_cons, Hs, cnt_nil. lia.
  - by injection H as <- <- <-.
Qed.

Lemma run_n_inner w n epoch timer wks :
  run_n waitset_create attach outcome chain_tele dbg w n epoch timer wks =
  run_inner waitset_create attach outcome chain_tele dbg w (Iterations n) epoch timer wks.
Proof. reflexivity. Qed.

Lemma setup_iterations w epoch w' (l : Local Id Guard) :
  dispatch_setup waitset_create attach w epoch None = (w', inl l) → lc_iterations l = 0.
Proof.
  unfold dispatch_setup. destruct waitset_create as [ws|]; [|done].
  destruct (build_attachments _ _ _ _) as [[[a ci] cp]|]; [|done]. by intros [= _ <-].
Qed.

(** [run_n] counts exactly.  A run of [run_n(n)] that returns without an error
    returns at the wake that completes [max(1, n)] waits that were not
    interrupted, unless that wake carries a stop request or a termination signal;
    a run that has seen fewer is still running.  In particular [run_n(0)] waits
    for one wake and dispatches it. *)
Theorem run_n_counts w n epoch wks w' r :
  running (ex_of w) = false → cfg_admission (config (ex_of w)) = None →
  len wks + 1 < 2 ^ 64 →
  run_n waitset_create attach outcome chain_tele dbg w n epoch None wks = Ok (w', r) →
  match r with
  | None => cnt counted wks = 0 ∨ cnt counted wks < n
  | Some None => ∃ pre wk post, wks = pre ++ wk :: post ∧
      (stops_early w' wk ∨ cnt counted (pre ++ [wk]) = Z.max 1 n)
  | Some (Some _) => True
  end.
Proof.
  intros Er Ea Hlen H. unfold run_n, run_inner in H. rewrite Er in H.
  cbn [set_running config] in H. rewrite Ea in H.
  apply res_bind_Ok in H as ([w2 r2] & H2 & H). unfold dispatch_loop in H2.
  destruct (dispatch_setup _ _ _ _ _) as [w1 s1] eqn:Es.
  destruct s1 as [l|e]; [|injection H2 as <- <-; by injection H as <- <-].
  apply res_bind_Ok in H2 as ([[w3 l3] r3] & H2 & H3). injection H3 as -> ->.
  pose proof (setup_iterations _ _ _ _ Es) as Hl.
  apply wakes_n in H2; [|rewrite Hl; first [lia|by left]..]. rewrite Hl in H2.
  destruct r2 as [res|]; injection H as <- <-; [|lia].
  destruct res as [e|]; [done|]. destruct H2 as (pre & wk & post & -> & H2).
  exists pre, wk, post. split; [done|]. destruct H2 as [H2|H2]; [by left|right; lia].
Qed.

End run.
End loop.

(** ** A concrete run *)

(** One cyclic task and a wait set that accepts every attachment.  The first wait
    is interrupted, the second is a tick of the grid timer, the third is empty. *)
Definition demo_attach (ws : Z) (_ : Request) : (Z * (Z * bool)) + string := inl (ws + 1, (ws, false)).
Definition demo_wake (ticked : bool) (r : WaitSetRunResult) : Wake Z :=
  MkWake [] (inl r) [] ticked 1000000 (λ _, MkDispatchIn [] 1000100 0 None) [] 100 false.
Definition demo_wakes : list (Wake Z) :=
  [demo_wake false Interrupt; demo_wake true AllEventsHandled;
   demo_wake false AllEventsHandled; demo_wake false AllEventsHandled].
Abbreviation demo_run :=
  (run_n (inl 0) demo_attach demo_outcome (λ _, 0) true demo_added 2 0 None demo_wakes) (only parsing).

(** Returned without an error, not stopped, and reported up first. *)
Definition quiet_end (r : res (World * option (option ExecutorError))) : bool :=
  match r with
  | Ok (w, Some None) =>
      match events (shared (ex_of w)) with OnExecutorUp :: _ => negb (stopped (shared (ex_of w))) | _ => false end
  | _ => false
  end.
Lemma quiet_end_spec r : quiet_end r = true → ∃ w, r = Ok (w, Some None) ∧
  stopped (shared (ex_of w)) = false ∧ head (events (shared (ex_of w))) = Some OnExecutorUp.
Proof.
  destruct r as [[w [[e|]|]]|]; [done| |done..]. cbn [quiet_end]. intros H. exists w. split; [done|].
  destruct (events _) as [|[] evs]; try done. by destruct (stopped _).
Qed.

Lemma demo_returns : ∃ w, demo_run = Ok (w, Some None) ∧
  stopped (shared (ex_of w)) = false ∧ head (events (shared (ex_of w))) = Some OnExecutorUp.
Proof. apply quiet_end_spec. vm_compute. reflexivity. Qed.

Lemma run_bracketed_witness : ∃ w mid, demo_run = Ok (w, Some None) ∧
  events (shared (ex_of w)) = [OnExecutorUp] ++ mid ++ [OnExecutorDown] ∧
  running (ex_of w) = false ∧ flights w = [].
Proof.
  destruct demo_returns as (w & Hr & _ & Hup). exists w. pose proof Hr as Hr'. rewrite run_n_inner in Hr'.
  destruct (run_bracketed demo_outcome (λ _, 0) (inl 0) demo_attach true demo_added (Iterations 2) 0 None
              demo_wakes w None eq_refl Hr')
    as [(H & _)|(_ & H1 & H2 & [(reason & H & _)|(adm & mid & H & Ha & _)])];
    [discriminate H|discriminate H|].
  exists mid. split; [exact Hr|]. clear Hr Hr'. destruct Ha as [->| ->]; [by split|].
  rewrite H in Hup. clear -Hup. discriminate Hup.
Defined.

Lemma run_n_counts_witness : ∃ w pre wk post, demo_run = Ok (w, Some None) ∧
  demo_wakes = pre ++ wk :: post ∧ cnt counted (pre ++ [wk]) = 2.
Proof.
  destruct demo_returns as (w & Hr & Hgo & _). exists w.
  destruct (run_n_counts demo_outcome (λ _, 0) (inl 0) demo_attach true demo_added 2 0 demo_wakes
              w (Some None) eq_refl eq_refl eq_refl Hr)
    as (pre & wk & post & H & [[Hs|Hs]|Hc]).
  - exfalso. clear Hr. assert (wk ∈ demo_wakes) as Hin by (rewrite H; set_solver).
    revert Hs. repeat (apply elem_of_cons in Hin as [->|Hin]; [discriminate|]). by apply elem_of_nil in Hin.
  - exfalso. clear Hr. congruence.
  - exists pre, wk, post. split; [exact Hr|]. clear Hr. by split.
Defined.

End ExecRunOk.
