(* ===== verification/ExecPool.v ===== *)
(** * The worker pool of the executor

    Models [taktora-executor/src/pool.rs] with the busy flag of
    [ExclusiveCell::try_with] ([taktora-executor-sys/src/dispatch.rs]): the
    [Tracker] with its parking handshake, the worker loop, [submit],
    [submit_shared], [barrier] and the drop of the pool.

    One thread (the caller) carries out a program of pool operations, the workers
    carry out the jobs.  Every atomic access, every acquisition and release of the
    lock, every channel operation and every closure is a step; steps interleave
    freely.  The two [SeqCst] fences order the increment of [completed] before the
    load of [waiting] and the store of [waiting] before the loads of the counters,
    which is what this order of steps says.  A condition variable may wake its
    waiter without a notification.  A panic of the infrastructure aborts. *)

From stdpp Require Import base list gmap sets relations.
From Stdlib Require Import ZArith Lia.
From S2P Require Import Prelude.

Module ExecPool.

(** ** State *)

(** Closures are numbered; a shared one is the number of its cell. *)
Inductive Job := Owned (f : nat) | Shared (cell : nat).

(** What the caller asks of the pool. *)
Inductive Op := OSubmit (j : Job) | OBarrier | ODrop.

(** A thread in [run_worker], from [KCheck] to [KBody], and in [complete]. *)
Inductive KPc :=
| KCheck | KRecv | KTry (j : Job) | KBody (j : Job)
| CAdd | CLoad | CLock | CUnlock | CNotify
| KExit.

(** The caller: between operations, in a submit, in [wait_for_quiescence], in the
    drop. *)
Inductive DPc :=
| DNext | DSend (j : Job) | DInline (k : KPc)
| WLock | WSwap | WLoadS | WLoadC (s : Z) | WWait | WParked | WRelock | WReset | WUnlock
| DClose | DJoin (i : nat).

#[export] Instance Job_eq_dec : EqDecision Job.
Proof. solve_decision. Defined.
#[export] Instance KPc_eq_dec : EqDecision KPc.
Proof. solve_decision. Defined.
#[export] Instance DPc_eq_dec : EqDecision DPc.
Proof. solve_decision. Defined.

Inductive Holder := HCaller | HWorker (i : nat).

Record Tracker := MkTracker {
  submitted : Z;
  completed : Z;
  waiting : bool;
  lock : option Holder;
}.

(** [sent] and [executed] record the jobs handed over and the closures that have
    returned. *)
Record Pool := MkPool {
  inline_mode : bool;
  tracker : Tracker;
  queue : list Job;
  capacity : nat;
  closed : bool;
  shutdown : bool;
  busy : gset nat;
  workers : list KPc;
  dpc : DPc;
  ops : list Op;
  sent : list Job;
  executed : list Job;
}.

Definition set_tracker (p : Pool) (t : Tracker) : Pool :=
  MkPool (inline_mode p) t (queue p) (capacity p) (closed p) (shutdown p) (busy p) (workers p) (dpc p)
    (ops p) (sent p) (executed p).
Definition set_queue (p : Pool) (q : list Job) : Pool :=
  MkPool (inline_mode p) (tracker p) q (capacity p) (closed p) (shutdown p) (busy p) (workers p) (dpc p)
    (ops p) (sent p) (executed p).
Definition set_closed (p : Pool) : Pool :=
  MkPool (inline_mode p) (tracker p) (queue p) (capacity p) true (shutdown p) (busy p) (workers p) (dpc p)
    (ops p) (sent p) (executed p).
Definition set_shutdown (p : Pool) : Pool :=
  MkPool (inline_mode p) (tracker p) (queue p) (capacity p) (closed p) true (busy p) (workers p) (dpc p)
    (ops p) (sent p) (executed p).
Definition set_busy (p : Pool) (b : gset nat) : Pool :=
  MkPool (inline_mode p) (tracker p) (queue p) (capacity p) (closed p) (shutdown p) b (workers p) (dpc p)
    (ops p) (sent p) (executed p).
Definition set_workers (p : Pool) (ks : list KPc) : Pool :=
  MkPool (inline_mode p) (tracker p) (queue p) (capacity p) (closed p) (shutdown p) (busy p) ks (dpc p)
    (ops p) (sent p) (executed p).
Definition set_dpc (p : Pool) (d : DPc) : Pool :=
  MkPool (inline_mode p) (tracker p) (queue p) (capacity p) (closed p) (shutdown p) (busy p) (workers p) d
    (ops p) (sent p) (executed p).
Definition set_ops (p : Pool) (o : list Op) : Pool :=
  MkPool (inline_mode p) (tracker p) (queue p) (capacity p) (closed p) (shutdown p) (busy p) (workers p)
    (dpc p) o (sent p) (executed p).
Definition set_sent (p : Pool) (js : list Job) : Pool :=
  MkPool (inline_mode p) (tracker p) (queue p) (capacity p) (closed p) (shutdown p) (busy p) (workers p)
    (dpc p) (ops p) js (executed p).
Definition set_executed (p : Pool) (js : list Job) : Pool :=
  MkPool (inline_mode p) (tracker p) (queue p) (capacity p) (closed p) (shutdown p) (busy p) (workers p)
    (dpc p) (ops p) (sent p) js.

Definition set_lock (t : Tracker) (l : option Holder) : Tracker :=
  MkTracker (submitted t) (completed t) (waiting t) l.
Definition set_waiting (t : Tracker) (b : bool) : Tracker :=
  MkTracker (submitted t) (completed t) b (lock t).
Definition is_locked (t : Tracker) : bool := match lock t with Some _ => true | None => false end.

Definition tracker_new : Tracker := MkTracker 0 0 false None.

(** [Pool::new(n_workers)], with what its owner is going to ask of it. *)
Definition pool_new (n_workers : nat) (program : list Op) : Pool :=
  MkPool (bool_decide (n_workers = 0)%nat) tracker_new [] (n_workers * 4) false false ∅
    (replicate n_workers KCheck) DNext program [] [].

(** ** Steps *)

Definition tracker_submit (t : Tracker) : Tracker :=
  MkTracker (wrap 64 (submitted t + 1)) (completed t) (waiting t) (lock t).
Definition tracker_add_completed (t : Tracker) : Tracker :=
  MkTracker (submitted t) (wrap 64 (completed t + 1)) (waiting t) (lock t).

(** [cell.try_with]: takes the busy flag; [None] when it is taken, which the
    caller turns into a panic. *)
Definition try_with (p : Pool) (j : Job) : option Pool :=
  match j with
  | Owned _ => Some p
  | Shared c => if decide (c ∈ busy p) then None else Some (set_busy p (busy p ∪ {[c]}))
  end.
(** The end of the closure, with the drop of the guard. *)
Definition finish_with (p : Pool) (j : Job) : Pool :=
  let p := set_executed p (executed p ++ [j]) in
  match j with
  | Owned _ => p
  | Shared c => set_busy p (busy p ∖ {[c]})
  end.

(** [cv.notify_one()]. *)
Definition notify_one (p : Pool) : Pool :=
  match dpc p with WParked => set_dpc p WRelock | _ => p end.

(** A thread that carries out a job: the closure, then [tracker.complete()].
    [None]: the thread is blocked, or not in a job. *)
Definition step_job (h : Holder) (k : KPc) (p : Pool) : option (res (KPc * Pool)) :=
  match k with
  | KTry j => Some (match try_with p j with Some p => Ok (KBody j, p) | None => Panic end)
  | KBody j => Some (Ok (CAdd, finish_with p j))
  | CAdd => Some (Ok (CLoad, set_tracker p (tracker_add_completed (tracker p))))
  | CLoad => Some (Ok (if waiting (tracker p) then CLock else KCheck, p))
  | CLock => if is_locked (tracker p) then None
             else Some (Ok (CUnlock, set_tracker p (set_lock (tracker p) (Some h))))
  | CUnlock => Some (Ok (CNotify, set_tracker p (set_lock (tracker p) None)))
  | CNotify => Some (Ok (KCheck, notify_one p))
  | KCheck | KRecv | KExit => None
  end.

Definition put_worker (i : nat) (k : KPc) (p : Pool) : Pool := set_workers p (<[i := k]> (workers p)).

(** [run_worker] on worker [i]. *)
Definition step_worker (i : nat) (p : Pool) : option (res Pool) :=
  match workers p !! i with
  | None | Some KExit => None
  | Some KCheck => Some (Ok (put_worker i (if shutdown p then KExit else KRecv) p))
  | Some KRecv =>
      match queue p with
      | j :: q => Some (Ok (put_worker i (KTry j) (set_queue p q)))
      | [] => if closed p then Some (Ok (put_worker i KExit p)) else None
      end
  | Some k => (λ r, '(k, p) ← r; Ok (put_worker i k p)) <$> step_job (HWorker i) k p
  end.

(** The start of [submit], [submit_shared], [barrier] and [drop]. *)
Definition start_op (p : Pool) : option (res Pool) :=
  match ops p with
  | [] => None
  | OSubmit j :: os =>
      let p := set_sent (set_tracker (set_ops p os) (tracker_submit (tracker p))) (sent p ++ [j]) in
      Some (Ok (set_dpc p (if inline_mode p then DInline (KTry j) else DSend j)))
  | OBarrier :: os => Some (Ok (set_dpc (set_ops p os) WLock))
  | ODrop :: os =>
      Some (Ok (if inline_mode p then set_ops p os else set_dpc (set_shutdown (set_ops p os)) DClose))
  end.

(** [tx.send(..)]: blocks while the channel is full. *)
Definition send_job (p : Pool) (j : Job) : option (res Pool) :=
  if closed p then Some Panic
  else if (length (queue p) <? capacity p)%nat
  then Some (Ok (set_dpc (set_queue p (queue p ++ [j])) DNext)) else None.

(** The job in place, in inline mode. *)
Definition run_inline (p : Pool) (k : KPc) : option (res Pool) :=
  (λ r, '(k, p) ← r; Ok (set_dpc p (match k with KCheck => DNext | k => DInline k end)))
    <$> step_job HCaller k p.

Definition wait_for_quiescence (p : Pool) : option (res Pool) :=
  let t := tracker p in
  match dpc p with
  | WLock => if is_locked t then None
             else Some (Ok (set_dpc (set_tracker p (set_lock t (Some HCaller))) WSwap))
  | WSwap => Some (if waiting t then Panic else Ok (set_dpc (set_tracker p (set_waiting t true)) WLoadS))
  | WLoadS => Some (Ok (set_dpc p (WLoadC (submitted t))))
  | WLoadC s => Some (Ok (set_dpc p (if s =? completed t then WReset else WWait)))
  | WWait => Some (Ok (set_dpc (set_tracker p (set_lock t None)) WParked))
  | WParked => None
  | WRelock => if is_locked t then None
               else Some (Ok (set_dpc (set_tracker p (set_lock t (Some HCaller))) WLoadS))
  | WReset => Some (Ok (set_dpc (set_tracker p (set_waiting t false)) WUnlock))
  | WUnlock => Some (Ok (set_dpc (set_tracker p (set_lock t None)) DNext))
  | _ => None
  end.

(** The rest of [drop]: the channel is closed and the workers are joined. *)
Definition drop_pool (p : Pool) : option (res Pool) :=
  match dpc p with
  | DClose => Some (Ok (set_dpc (set_closed p) (DJoin 0)))
  | DJoin i =>
      match workers p !! i with
      | None => Some (Ok (set_dpc p DNext))
      | Some KExit => Some (Ok (set_dpc p (DJoin (S i))))
      | Some _ => None
      end
  | _ => None
  end.

Definition step_caller (p : Pool) : option (res Pool) :=
  match dpc p with
  | DNext => start_op p
  | DSend j => send_job p j
  | DInline k => run_inline p k
  | DClose | DJoin _ => drop_pool p
  | _ => wait_for_quiescence p
  end.

(** A wake without a notification. *)
Definition spurious_wake (p : Pool) : option (res Pool) :=
  match dpc p with WParked => Some (Ok (set_dpc p WRelock)) | _ => None end.

Inductive Action := ACaller | AWorker (i : nat) | ASpurious.
Definition step_of (a : Action) (p : Pool) : option (res Pool) :=
  match a with
  | ACaller => step_caller p
  | AWorker i => step_worker i p
  | ASpurious => spurious_wake p
  end.

Definition pool_step (p p' : Pool) : Prop := ∃ a, step_of a p = Some (Ok p').

(** A schedule, carried out as far as it goes. *)
Fixpoint schedule (acts : list Action) (p : Pool) : option (res Pool) :=
  match acts with
  | [] => Some (Ok p)
  | a :: acts =>
      match step_of a p with
      | Some (Ok p) => schedule acts p
      | Some Panic => Some Panic
      | None => None
      end
  end.

(** ** The jobs in the pool *)

Definition jobs_in (k : KPc) : list Job := match k with KTry j | KBody j => [j] | _ => [] end.
Definition bodies_in (k : KPc) : list Job := match k with KBody j => [j] | _ => [] end.
(** Threads whose closure has returned and is not counted yet. *)
Definition uncounted_in (k : KPc) : list unit := match k with CAdd => [()] | _ => [] end.
Definition cell_of (j : Job) : option nat := match j with Shared c => Some c | Owned _ => None end.

Definition sending (d : DPc) : list Job := match d with DSend j => [j] | _ => [] end.
(** The threads that carry out jobs: the workers, and the caller in inline mode. *)
Definition inline_thread (d : DPc) : list KPc := match d with DInline k => [k] | _ => [] end.
Definition threads (p : Pool) : list KPc := inline_thread (dpc p) ++ workers p.
Definition waiting_for (p : Pool) (ts : list KPc) : list Job :=
  sending (dpc p) ++ queue p ++ (ts ≫= jobs_in).

(** Cells the caller submits before its next barrier. *)
Fixpoint segment (os : list Op) : list nat :=
  match os with
  | OSubmit (Shared c) :: os => c :: segment os
  | OSubmit (Owned _) :: os => segment os
  | OBarrier :: _ | [] => []
  | ODrop :: os => segment os
  end.

Definition in_barrier (d : DPc) : bool :=
  match d with WLock | WSwap | WLoadS | WLoadC _ | WWait | WParked | WRelock | WReset | WUnlock => true
  | _ => false end.

(** Programs of an executor: no cell is submitted twice between two barriers, and
    nothing follows the drop. *)
Fixpoint program_ok (os : list Op) : Prop :=
  match os with
  | [] => True
  | ODrop :: os => os = []
  | OBarrier :: os => NoDup (segment os) ∧ program_ok os
  | OSubmit _ :: os => program_ok os
  end.

(** What holds of the jobs, for a given list of threads. *)
Record core (p : Pool) (ts : list KPc) : Prop := MkCore {
  co_perm : sent p ≡ₚ executed p ++ waiting_for p ts;
  co_sub : submitted (tracker p) = wrap 64 (len (sent p));
  co_com : completed (tracker p) = wrap 64 (len (executed p) - len (ts ≫= uncounted_in));
  co_busy : ∀ c, c ∈ busy p ↔ Shared c ∈ ts ≫= bodies_in;
  co_cells : NoDup (omap cell_of (waiting_for p ts) ++ (if in_barrier (dpc p) then [] else segment (ops p)));
  co_next : NoDup (segment (ops p));
}.

Lemma wrap_step a : wrap 64 (wrap 64 a + 1) = wrap 64 (a + 1).
Proof. unfold wrap. by rewrite Zplus_mod_idemp_l. Qed.

Lemma uncounted_mid l1 k l2 :
  len ((l1 ++ k :: l2) ≫= uncounted_in) = len (uncounted_in k) + len ((l1 ++ l2) ≫= uncounted_in).
Proof. unfold len. rewrite bind_mid, length_app. lia. Qed.
Lemma bodies_jobs ts j : j ∈ ts ≫= bodies_in → j ∈ ts ≫= jobs_in.
Proof.
  rewrite !list_elem_of_bind. intros (k & Hj & Hk). exists k. split; [|done].
  destruct k; cbn in *; set_solver.
Qed.

(** The same jobs in another order. *)
Lemma waiting_mid p l1 k l2 :
  waiting_for p (l1 ++ k :: l2) ≡ₚ jobs_in k ++ waiting_for p (l1 ++ l2).
Proof. unfold waiting_for. rewrite bind_mid. solve_Permutation. Qed.

#[local] Instance omap_cell_perm : Proper ((≡ₚ) ==> (≡ₚ)) (omap cell_of).
Proof. intros l1 l2 H. by rewrite H. Qed.

Ltac pool_simpl := cbn [set_tracker set_queue set_closed set_shutdown set_busy set_workers set_dpc set_ops set_sent set_executed put_worker
  inline_mode tracker queue capacity closed shutdown busy workers dpc ops sent executed
  set_lock set_waiting submitted completed waiting lock tracker_submit tracker_add_completed] in *.

(** [core] with the thread in question in front. *)
Lemma core_mid p l1 k l2 : core p (l1 ++ k :: l2) ↔ core p (k :: l1 ++ l2).
Proof.
  assert (waiting_for p (l1 ++ k :: l2) ≡ₚ waiting_for p (k :: l1 ++ l2)) as Hw.
  { rewrite waiting_mid. by rewrite (waiting_mid p [] k (l1 ++ l2)). }
  assert ((l1 ++ k :: l2) ≫= bodies_in ≡ₚ (k :: l1 ++ l2) ≫= bodies_in) as Hb.
  { rewrite bind_mid. symmetry. apply (bind_mid bodies_in [] k (l1 ++ l2)). }
  assert (len ((l1 ++ k :: l2) ≫= uncounted_in) = len ((k :: l1 ++ l2) ≫= uncounted_in)) as Hu.
  { rewrite uncounted_mid. symmetry. apply (uncounted_mid [] k (l1 ++ l2)). }
  split; intros [C1 C2 C3 C4 C5 C6]; split; try done.
  - by rewrite <-Hw.
  - by rewrite <-Hu.
  - intros c. by rewrite <-Hb.
  - by rewrite <-Hw.
  - by rewrite Hw.
  - by rewrite Hu.
  - intros c. by rewrite Hb.
  - by rewrite Hw.
Qed.

(** Changes outside of what [core] looks at. *)
Lemma core_same p p' ts : core p ts → sent p' = sent p → executed p' = executed p →
  sending (dpc p') = sending (dpc p) → queue p' = queue p → in_barrier (dpc p') = in_barrier (dpc p) →
  ops p' = ops p → submitted (tracker p') = submitted (tracker p) →
  completed (tracker p') = completed (tracker p) → busy p' = busy p → core p' ts.
Proof.
  intros [C1 C2 C3 C4 C5 C6] E1 E2 E3 E4 E5 E6 E7 E8 E9. unfold waiting_for in *.
  split; unfold waiting_for; rewrite ?E1, ?E2, ?E3, ?E4, ?E5, ?E6, ?E7, ?E8, ?E9; done.
Qed.

(** Threads without a job, a closure or a count to make. *)
Definition plain (k : KPc) : Prop := jobs_in k = [] ∧ bodies_in k = [] ∧ uncounted_in k = [].
Lemma core_plain p k k' ts : plain k → plain k' → core p (k :: ts) → core p (k' :: ts).
Proof.
  intros (P1 & P2 & P3) (Q1 & Q2 & Q3) [C1 C2 C3 C4 C5 C6]. unfold waiting_for in *. split; unfold waiting_for; [..|].
  - by rewrite bind_cons, Q1; rewrite bind_cons, P1 in C1.
  - done.
  - by rewrite bind_cons, Q3; rewrite bind_cons, P3 in C3.
  - intros c. rewrite C4, !bind_cons, P2, Q2. done.
  - by rewrite bind_cons, Q1; rewrite bind_cons, P1 in C5.
  - done.
Qed.

Lemma core_drop p k ts : plain k → core p (k :: ts) → core p ts.
Proof.
  intros (P1 & P2 & P3) [C1 C2 C3 C4 C5 C6]. unfold waiting_for in *.
  split; unfold waiting_for; try done.
  - by rewrite bind_cons, P1 in C1.
  - by rewrite bind_cons, P3 in C3.
  - intros c. by rewrite C4, bind_cons, P2.
  - by rewrite bind_cons, P1 in C5.
Qed.

(** A cell is waited for once. *)
Lemma core_cell_once p k c ts : jobs_in k = [Shared c] → core p (k :: ts) → Shared c ∉ ts ≫= bodies_in.
Proof.
  intros Hk [_ _ _ _ C5 _] Hb%bodies_jobs. revert C5. unfold waiting_for.
  rewrite bind_cons, Hk, !omap_app, <-!app_assoc. cbn. intros C5.
  apply NoDup_app in C5 as (_ & _ & C5). apply NoDup_app in C5 as (_ & _ & C5).
  apply NoDup_cons in C5 as [C5 _]. apply C5, elem_of_app. left. apply list_elem_of_omap. by exists (Shared c).
Qed.

(** A step of a job keeps it all, and never finds the cell busy. *)
Lemma step_job_core h k p l1 l2 r : core p (l1 ++ k :: l2) → step_job h k p = Some r →
  ∃ k' p', r = Ok (k', p') ∧ core p' (l1 ++ k' :: l2).
Proof.
  rewrite core_mid. intros Hc H. setoid_rewrite core_mid.
  set (ts := l1 ++ l2) in *. clearbody ts.
  destruct k; cbn [step_job] in H; try done.
  - injection H as <-. unfold try_with. destruct j as [f|c].
    + eexists _, _. split; [done|]. destruct Hc as [C1 C2 C3 C4 C5 C6]. split; try done.
      intros c'. rewrite C4, !bind_cons. cbn. set_solver.
    + assert (c ∉ busy p) as Hb.
      { rewrite (co_busy _ _ Hc), bind_cons. cbn. by eapply (core_cell_once _ (KTry (Shared c))). }
      rewrite decide_False by done. eexists _, _. split; [done|].
      destruct Hc as [C1 C2 C3 C4 C5 C6]. split; try done. pool_simpl.
      intros c'. rewrite elem_of_union, C4, !bind_cons. cbn. set_solver.
  - injection H as <-. eexists _, _. split; [done|].
    pose proof (λ c E, core_cell_once p (KBody j) c ts E Hc) as Hone. destruct Hc as [C1 C2 C3 C4 C5 C6].
    revert C1 C3 C5. unfold waiting_for. rewrite !bind_cons. cbn [jobs_in uncounted_in app]. intros C1 C3 C5.
    destruct j as [f|c]; unfold finish_with; split; unfold waiting_for; rewrite ?bind_cons; pool_simpl;
      cbn [jobs_in uncounted_in app]; try done.
    all: try (rewrite C1; solve_Permutation).
    all: try (rewrite C3; unfold len; rewrite length_app; cbn; f_equal; lia).
    + intros c. rewrite C4, !bind_cons. cbn. set_solver.
    + revert C5. rewrite !omap_app. cbn. done.
    + intros c'. rewrite elem_of_difference, C4, !bind_cons. cbn. specialize (Hone c eq_refl). set_solver.
    + revert C5. rewrite !omap_app, <-!app_assoc. cbn. rewrite <-!Permutation_middle.
      by intros [_ C5]%NoDup_cons.
  - injection H as <-. eexists _, _. split; [done|]. destruct Hc as [C1 C2 C3 C4 C5 C6]. split; try done. pool_simpl.
    rewrite C3, wrap_step, !bind_cons. unfold len. cbn. f_equal. lia.
  - injection H as <-. eexists _, _. split; [done|]. destruct (waiting _); by eapply core_plain; [..|exact Hc].
  - destruct (is_locked _); [done|]. injection H as <-. eexists _, _. split; [done|].
    eapply core_same; [by eapply core_plain; [..|exact Hc]|done..].
  - injection H as <-. eexists _, _. split; [done|].
    eapply core_same; [by eapply core_plain; [..|exact Hc]|done..].
  - injection H as <-. eexists _, _. split; [done|]. unfold notify_one.
    eapply (core_plain _ _ KCheck) in Hc; [|done..].
    destruct (dpc p) eqn:E; try done. eapply core_same; [exact Hc|..]; pool_simpl; by rewrite ?E.
Qed.

(** ** Control *)

(** The caller has published its flag; it holds the lock. *)
Definition flagged (d : DPc) : bool :=
  match d with WLoadS | WLoadC _ | WWait | WParked | WRelock | WReset => true | _ => false end.
Definition holding (d : DPc) : bool :=
  match d with WSwap | WLoadS | WLoadC _ | WWait | WReset | WUnlock => true | _ => false end.
Definition inline_ok (d : DPc) : Prop :=
  match d with DInline (KTry _ | KBody _ | CAdd | CLoad) => True | DInline _ => False | _ => True end.
Definition mode_ok (m : bool) (d : DPc) : Prop :=
  match d with DInline _ => m = true | DSend _ | DClose | DJoin _ => m = false | _ => True end.
Definition dropping (d : DPc) : bool := match d with DClose | DJoin _ => true | _ => false end.

(** Workers that are about to look at the flag, or to notify. *)
Definition may_lock (k : KPc) : bool := match k with CLoad | CLock => true | _ => false end.
Definition may_notify (k : KPc) : bool := match k with CLoad | CLock | CUnlock | CNotify => true | _ => false end.
Definition some_worker (f : KPc → bool) (ks : list KPc) : Prop := ∃ i k, ks !! i = Some k ∧ f k = true.
Definition uneven (t : Tracker) : Prop := submitted t ≠ completed t.

(** What the caller knows where it is. *)
Definition caller_ok (p : Pool) : Prop :=
  match dpc p with
  | WLoadC s => s = submitted (tracker p)
  | WWait => uneven (tracker p) ∨ some_worker may_lock (workers p)
  | WParked => uneven (tracker p) ∨ some_worker may_notify (workers p)
  | WReset | WUnlock => submitted (tracker p) = completed (tracker p)
  | DJoin i => closed p = true ∧ (i ≤ length (workers p))%nat
  | DSend _ => closed p = false
  | _ => True
  end.

Record control (p : Pool) : Prop := MkControl {
  ct_wait : waiting (tracker p) = flagged (dpc p);
  ct_lock : lock (tracker p) = Some HCaller ↔ holding (dpc p) = true;
  ct_lock_w : ∀ i, lock (tracker p) = Some (HWorker i) ↔ workers p !! i = Some CUnlock;
  ct_inline : inline_ok (dpc p);
  ct_mode : mode_ok (inline_mode p) (dpc p);
  ct_workers : inline_mode p = bool_decide (length (workers p) = 0)%nat;
  ct_queue : (length (queue p) ≤ capacity p)%nat;
  ct_cap : capacity p = (length (workers p) * 4)%nat;
  ct_small : 5 * len (workers p) + 2 < 2 ^ 64;
  ct_program : program_ok (ops p);
  ct_down : shutdown p = true → ops p = [] ∧ (dropping (dpc p) = true ∨ dpc p = DNext);
  ct_up : shutdown p = false → closed p = false ∧ dropping (dpc p) = false ∧ KExit ∉ workers p;
  ct_caller : caller_ok p;
}.

Definition inv (p : Pool) : Prop := core p (threads p) ∧ control p.

(** ** Counters *)

Lemma threads_bound ts : len (ts ≫= jobs_in) + len (ts ≫= uncounted_in) ≤ len ts.
Proof.
  induction ts as [|k ts IH]; [done|]. rewrite !bind_cons. unfold len in *. rewrite !length_app.
  destruct k; cbn; lia.
Qed.

(** The counters agree exactly when nothing is left: their distance never reaches
    the width of the words. *)
Lemma even_iff p : inv p → submitted (tracker p) = completed (tracker p) ↔
  waiting_for p (threads p) = [] ∧ threads p ≫= uncounted_in = [].
Proof.
  intros [[C1 C2 C3 _ _ _] [_ _ _ _ _ _ T7 T8 T9 _ _ _ _]].
  apply Permutation_length in C1. rewrite length_app in C1.
  pose proof (threads_bound (threads p)) as Hb.
  assert (len (waiting_for p (threads p)) + len (threads p ≫= uncounted_in) < 2 ^ 64) as Hw.
  { revert Hb. unfold waiting_for, threads, len in *. rewrite !length_app.
    destruct (dpc p); cbn; lia. }
  rewrite C2, C3. unfold wrap. split.
  - intros E. set (d := len (waiting_for p (threads p)) + len (threads p ≫= uncounted_in)) in *.
    assert (0 ≤ d) as Hd by (unfold d, len; lia).
    assert (len (executed p) - len (threads p ≫= uncounted_in) = len (sent p) - d) as Hs by (unfold d, len in *; lia).
    rewrite Hs, Zminus_mod in E.
    assert (d = 0) as Hd0.
    { assert ((len (sent p) - (len (sent p) - d)) mod 2 ^ 64 = 0) as Hz.
      { rewrite Zminus_mod. rewrite <-(Zminus_mod (len (sent p)) d) in E. rewrite <-E.
        by rewrite Z.sub_diag, Z.mod_0_l. }
      replace (len (sent p) - (len (sent p) - d)) with d in Hz by lia. by rewrite Z.mod_small in Hz by lia. }
    unfold d, len in Hd0. split; apply nil_length_inv; lia.
  - intros [E1 E2]. rewrite E1 in C1. rewrite E2. unfold len in *. cbn [length] in *. f_equal. lia.
Qed.

(** ** Steps of workers *)

Lemma some_worker_keep f ks i k k' : some_worker f ks → ks !! i = Some k →
  (f k = true → f k' = true) → some_worker f (<[i := k']> ks).
Proof.
  intros (j & k0 & Hj & Hf) Hi Hk. destruct (decide (j = i)) as [->|Hne].
  - exists i, k'. rewrite Hi in Hj. injection Hj as <-. split; [|by apply Hk].
    apply list_lookup_insert_eq. by eapply lookup_lt_Some.
  - exists j, k0. split; [|done]. by rewrite list_lookup_insert_ne.
Qed.

Lemma some_worker_put f ks i k k' : ks !! i = Some k → f k' = true → some_worker f (<[i := k']> ks).
Proof.
  intros Hi Hf. exists i, k'. split; [|done]. apply list_lookup_insert_eq. by eapply lookup_lt_Some.
Qed.

Lemma lock_w_keep (ks : list KPc) l i k k' : (∀ j, l = Some (HWorker j) ↔ ks !! j = Some CUnlock) →
  ks !! i = Some k → k ≠ CUnlock → k' ≠ CUnlock →
  ∀ j, l = Some (HWorker j) ↔ <[i := k']> ks !! j = Some CUnlock.
Proof.
  intros Hl Hi Hk Hk' j. rewrite Hl. destruct (decide (j = i)) as [->|Hne].
  - rewrite Hi, list_lookup_insert_eq by by eapply lookup_lt_Some. naive_solver.
  - by rewrite list_lookup_insert_ne.
Qed.

Lemma control_put p i k k' p' : control p → workers p !! i = Some k →
  workers p' = <[i := k']> (workers p) → inline_mode p' = inline_mode p → capacity p' = capacity p →
  ops p' = ops p → closed p' = closed p → shutdown p' = shutdown p → dpc p' = dpc p →
  (length (queue p') ≤ length (queue p))%nat → waiting (tracker p') = waiting (tracker p) →
  (lock (tracker p') = Some HCaller ↔ lock (tracker p) = Some HCaller) →
  (∀ j, lock (tracker p') = Some (HWorker j) ↔ <[i := k']> (workers p) !! j = Some CUnlock) →
  (k' = KExit → shutdown p = true) → caller_ok p' → control p'.
Proof.
  intros [T1 T2 T3 T4 T5 T6 T7 T8 T9 T10 T11 T12 T13] Hi E1 E2 E3 E4 E5 E6 E7 E8 E9 H1 H2 H3 H4.
  split; unfold len; rewrite ?E1, ?E2, ?E3, ?E4, ?E5, ?E6, ?E7, ?E9, ?length_insert; try done.
  - by rewrite H1.
  - lia.
  - intros Hs. destruct (T12 Hs) as (U1 & U2 & U3). split_and!; [done..|].
    intros Hx. apply list_elem_of_lookup in Hx as [j Hj]. destruct (decide (j = i)) as [->|Hne].
    + rewrite list_lookup_insert_eq in Hj by by eapply lookup_lt_Some. injection Hj as Hj.
      apply H3 in Hj. congruence.
    + rewrite list_lookup_insert_ne in Hj by done. by apply U3, list_elem_of_lookup_2 with j.
Qed.

(** What the caller knows survives a step that keeps the counters. *)
Lemma caller_ok_put p i k k' p' : caller_ok p → workers p !! i = Some k →
  workers p' = <[i := k']> (workers p) → closed p' = closed p → dpc p' = dpc p →
  submitted (tracker p') = submitted (tracker p) → completed (tracker p') = completed (tracker p) →
  (dpc p = WWait → may_lock k = true → may_lock k' = true) →
  (dpc p = WParked → may_notify k = true → may_notify k' = true) → caller_ok p'.
Proof.
  intros Hc Hi E1 E2 E3 E4 E5 H1 H2. unfold caller_ok, uneven in *. rewrite E1, E2, E3, E4, E5, length_insert.
  destruct (dpc p); try done.
  - destruct Hc as [Hc|Hc]; [by left|right]. eapply some_worker_keep; [done..|]. by apply H1.
  - destruct Hc as [Hc|Hc]; [by left|right]. eapply some_worker_keep; [done..|]. by apply H2.
Qed.

(** A worker in the list of threads. *)
Lemma threads_split p i k : workers p !! i = Some k → ∃ l1 l2,
  threads p = l1 ++ k :: l2 ∧
  ∀ p' k', workers p' = <[i := k']> (workers p) → inline_thread (dpc p') = inline_thread (dpc p) →
    threads p' = l1 ++ k' :: l2.
Proof.
  intros Hi. destruct (lookup_split _ _ _ Hi) as (l1 & l2 & E & E').
  exists (inline_thread (dpc p) ++ l1), l2. unfold threads. split.
  - by rewrite E, <-app_assoc.
  - intros p' k' E1 E2. by rewrite E1, E2, E', <-app_assoc.
Qed.

Lemma core_put_plain p i k k' p' : core p (threads p) → workers p !! i = Some k → plain k → plain k' →
  p' = put_worker i k' p → core p' (threads p').
Proof.
  intros Hc Hi Hk Hk' ->. destruct (threads_split p i k Hi) as (l1 & l2 & E & E').
  rewrite (E' (put_worker i k' p) k') by done. rewrite E, core_mid in Hc. rewrite core_mid.
  eapply core_same; [exact (core_plain _ _ _ _ Hk Hk' Hc)|done..].
Qed.

(** Taking a job from the channel. *)
Lemma core_recv p i j q : core p (threads p) → workers p !! i = Some KRecv → queue p = j :: q →
  core (put_worker i (KTry j) (set_queue p q)) (threads (put_worker i (KTry j) (set_queue p q))).
Proof.
  intros Hc Hi Hq. destruct (threads_split p i _ Hi) as (l1 & l2 & E & E').
  rewrite (E' _ (KTry j)) by done. rewrite E, core_mid in Hc. rewrite core_mid.
  destruct Hc as [C1 C2 C3 C4 C5 C6]. revert C1 C5. unfold waiting_for. rewrite Hq, bind_cons. intros C1 C5.
  split; unfold waiting_for; rewrite ?bind_cons; pool_simpl; cbn [jobs_in app] in *; try done.
  - rewrite C1. solve_Permutation.
  - by rewrite <-(Permutation_middle q).
Qed.

(** The jobs of the pool when a worker makes a step of its job. *)
Lemma worker_core i k p r : core p (threads p) → workers p !! i = Some k →
  step_job (HWorker i) k p = Some r →
  ∃ k' p', r = Ok (k', p') ∧ core (put_worker i k' p') (threads (put_worker i k' p')).
Proof.
  intros Hc Hi H. destruct (threads_split p i k Hi) as (l1 & l2 & E & E').
  rewrite E in Hc. destruct (step_job_core _ _ _ _ _ _ Hc H) as (k' & p' & -> & Hc').
  exists k', p'. split; [done|].
  assert (workers p' = workers p ∧ inline_thread (dpc p') = inline_thread (dpc p)) as [E1 E2].
  { clear -H. destruct k; cbn [step_job] in H; try done.
    - destruct (try_with p j) as [q|] eqn:Et; [|done]. injection H as <- <-. unfold try_with in Et.
      destruct j; [by injection Et as <-|]. destruct (decide _); [done|]. by injection Et as <-.
    - injection H as <- <-. by destruct j.
    - by injection H as <- <-.
    - by injection H as <- <-.
    - destruct (is_locked _); [done|]. by injection H as <- <-.
    - by injection H as <- <-.
    - injection H as <- <-. unfold notify_one. destruct (dpc p) eqn:Ed; by rewrite ?Ed. }
  rewrite (E' _ k') by (cbn; congruence). eapply core_same; [exact Hc'|done..].
Qed.

(** The caller is woken. *)
Lemma control_wake p : control p → dpc p = WParked → control (set_dpc p WRelock).
Proof.
  intros [T1 T2 T3 T4 T5 T6 T7 T8 T9 T10 T11 T12 T13] Hd. rewrite Hd in *. split; try done. pool_simpl.
  intros Hs. destruct (T11 Hs) as [? [?|?]]; [done..].
Qed.

Lemma worker_control i k p k' p' : inv p → workers p !! i = Some k →
  step_job (HWorker i) k p = Some (Ok (k', p')) → control (put_worker i k' p').
Proof.
  intros Hinv Hi H. pose proof Hinv as [Hc Ht].
  pose proof Ht as [T1 T2 T3 T4 T5 T6 T7 T8 T9 T10 T11 T12 T13].
  destruct k; cbn [step_job] in H; try done.
  - destruct (try_with p j) as [q|] eqn:Et; [|done]. injection H as <- <-. unfold try_with in Et.
    assert (q = set_busy p (busy q)) as ->.
    { destruct j; [injection Et as <-; by destruct p|]. destruct (decide _); [done|]. by injection Et as <-. }
    eapply (control_put p i (KTry j)); try done; [by eapply lock_w_keep|]. by eapply caller_ok_put.
  - injection H as <- <-. unfold finish_with.
    destruct j; (eapply (control_put p i (KBody _)); try done; [by eapply lock_w_keep|]; by eapply caller_ok_put).
  - injection H as <- <-. eapply (control_put p i CAdd); try done; pool_simpl; [by eapply lock_w_keep|].
    unfold caller_ok in *. pool_simpl. rewrite length_insert.
    assert (submitted (tracker p) ≠ completed (tracker p)) as Hne.
    { intros He. apply even_iff in He as [_ He]; [|done].
      destruct (threads_split p i _ Hi) as (l1 & l2 & E & _). rewrite E, bind_app, bind_cons in He.
      by apply app_eq_nil in He as [_ He]. }
    destruct (dpc p); try done; right; by eapply some_worker_put.
  - injection H as <- <-. eapply (control_put p i CLoad); try done.
    + eapply lock_w_keep; [done..|]. by destruct (waiting _).
    + by destruct (waiting _).
    + eapply caller_ok_put; try done; intros Hd _; rewrite T1, Hd; done.
  - destruct (is_locked (tracker p)) eqn:El; [done|]. injection H as <- <-.
    unfold is_locked in El. destruct (lock (tracker p)) eqn:El'; [done|].
    eapply (control_put p i CLock); try done; pool_simpl.
    + by rewrite El'.
    + intros j. split.
      * intros [= <-]. apply list_lookup_insert_eq. by eapply lookup_lt_Some.
      * intros Hj. destruct (decide (j = i)) as [->|Hne]; [done|].
        rewrite list_lookup_insert_ne in Hj by done. by apply T3 in Hj.
    + eapply caller_ok_put; try done. intros Hd. exfalso. rewrite Hd in T2. destruct T2 as [_ T2]. by specialize (T2 eq_refl).
  - injection H as <- <-. pose proof (proj2 (T3 i) Hi) as Hl.
    eapply (control_put p i CUnlock); try done; pool_simpl.
    + rewrite Hl. done.
    + intros j. split; [done|]. intros Hj. exfalso. destruct (decide (j = i)) as [->|Hne].
      * rewrite list_lookup_insert_eq in Hj by by eapply lookup_lt_Some. done.
      * rewrite list_lookup_insert_ne in Hj by done. apply T3 in Hj. congruence.
    + eapply caller_ok_put; try done.
  - injection H as <- <-. unfold notify_one. destruct (decide (dpc p = WParked)) as [Hd|Hd].
    + rewrite Hd. eapply (control_put (set_dpc p WRelock) i CNotify); try done; [by apply control_wake|].
      by eapply lock_w_keep.
    + replace (match dpc p with WParked => set_dpc p WRelock | _ => p end) with p by by destruct (dpc p).
      eapply (control_put p i CNotify); try done; [by eapply lock_w_keep|]. by eapply caller_ok_put.
Qed.

Lemma worker_inv i p r : inv p → step_worker i p = Some r → ∃ p', r = Ok p' ∧ inv p'.
Proof.
  intros Hinv H. pose proof Hinv as [Hc Ht]. unfold step_worker in H.
  destruct (workers p !! i) as [k|] eqn:Hi; [|done].
  pose proof Ht as [T1 T2 T3 T4 T5 T6 T7 T8 T9 T10 T11 T12 T13].
  assert (∀ f : option (res Pool), f = (λ r, '(k, p) ← r; Ok (put_worker i k p)) <$> step_job (HWorker i) k p →
    f = Some r → ∃ p', r = Ok p' ∧ inv p') as Hjob.
  { intros f -> Hf. destruct (step_job (HWorker i) k p) as [r'|] eqn:E; [|done]. injection Hf as <-.
    destruct (worker_core i k p r' Hc Hi E) as (k' & p' & -> & Hc').
    eexists. split; [done|]. split; [done|]. by eapply worker_control. }
  destruct k; try by eapply Hjob.
  - injection H as <-. eexists. split; [done|]. split.
    + eapply core_put_plain; [done..| |reflexivity]. by destruct (shutdown p).
    + eapply (control_put p i KCheck); try done; pool_simpl.
      * eapply lock_w_keep; [done..|]. by destruct (shutdown p).
      * by destruct (shutdown p).
      * by eapply caller_ok_put.
  - destruct (queue p) as [|j q] eqn:Hq.
    + destruct (closed p) eqn:Hcl; [|done]. injection H as <-. eexists. split; [done|]. split.
      * by eapply (core_put_plain p i KRecv KExit).
      * eapply (control_put p i KRecv); try done; pool_simpl.
        -- by eapply lock_w_keep.
        -- intros _. destruct (shutdown p) eqn:Hs; [done|]. destruct (T12 eq_refl) as [? _]. congruence.
        -- by eapply caller_ok_put.
    + injection H as <-. eexists. split; [done|]. split; [by apply core_recv|].
      eapply (control_put p i KRecv); try done; pool_simpl.
      * rewrite Hq. cbn. lia.
      * by eapply lock_w_keep.
      * by eapply caller_ok_put.
Qed.

(** ** Steps of the caller *)

(** Changes of the caller's place that [core] does not see. *)
Lemma core_caller p d t : core p (threads p) → inline_thread d = inline_thread (dpc p) →
  sending d = sending (dpc p) → in_barrier d = in_barrier (dpc p) →
  submitted t = submitted (tracker p) → completed t = completed (tracker p) →
  core (set_dpc (set_tracker p t) d) (threads (set_dpc (set_tracker p t) d)).
Proof.
  intros Hc E1 E2 E3 E4 E5. unfold threads in *. pool_simpl. rewrite E1.
  eapply core_same; [exact Hc|done..].
Qed.

Lemma control_caller p d t : control p → dropping (dpc p) = false → dpc p ≠ DNext → dropping d = false →
  waiting t = flagged d → (lock t = Some HCaller ↔ holding d = true) →
  (∀ i, lock t = Some (HWorker i) ↔ lock (tracker p) = Some (HWorker i)) →
  inline_ok d → mode_ok (inline_mode p) d → caller_ok (set_dpc (set_tracker p t) d) →
  control (set_dpc (set_tracker p t) d).
Proof.
  intros [T1 T2 T3 T4 T5 T6 T7 T8 T9 T10 T11 T12 T13] H0 H0' H1 H2 H3 H4 H5 H6 H7.
  assert (shutdown p = false) as Hs.
  { destruct (shutdown p) eqn:E; [|done]. destruct (T11 eq_refl) as [_ [?|?]]; congruence. }
  split; try done; pool_simpl.
  - intros i. rewrite H4. apply T3.
  - congruence.
  - intros _. destruct (T12 Hs) as (? & _ & ?). done.
Qed.

(** A step inside the barrier. *)
Lemma inv_waits p d t : inv p → in_barrier (dpc p) = true → in_barrier d = true →
  submitted t = submitted (tracker p) → completed t = completed (tracker p) →
  waiting t = flagged d → (lock t = Some HCaller ↔ holding d = true) →
  (∀ i, lock t = Some (HWorker i) ↔ lock (tracker p) = Some (HWorker i)) →
  caller_ok (set_dpc (set_tracker p t) d) →
  inv (set_dpc (set_tracker p t) d).
Proof.
  intros [Hc Ht] H1 H2 H3 H4 H5 H6 H7 H8. split.
  - apply core_caller; try done; [by destruct d, (dpc p)..|congruence].
  - apply control_caller; try done; by destruct d, (dpc p).
Qed.

(** The return of the barrier. *)
Lemma inv_return p : inv p → dpc p = WUnlock →
  inv (set_dpc (set_tracker p (set_lock (tracker p) None)) DNext).
Proof.
  intros Hinv Hd. pose proof Hinv as [[C1 C2 C3 C4 C5 C6] Ht]. pose proof Ht as [T1 T2 T3 T4 T5 T6 T7 T8 T9 T10 T11 T12 T13].
  assert (waiting_for p (threads p) = []) as Hw.
  { unfold caller_ok in T13. rewrite Hd in T13. by apply even_iff in T13 as [? _]. }
  rewrite Hd in *. split.
  - unfold threads, waiting_for in *. rewrite Hd in *. split; pool_simpl; try done.
    unfold waiting_for. pool_simpl. cbn [sending inline_thread app] in *. by rewrite Hw.
  - apply control_caller; rewrite ?Hd; try done; pool_simpl.
    intros i. destruct T2 as [_ T2]. by rewrite (T2 eq_refl).
Qed.

Lemma shutdown_off p : control p → dropping (dpc p) = false → dpc p ≠ DNext ∨ ops p ≠ [] → shutdown p = false.
Proof.
  intros Ht H1 H2. destruct (shutdown p) eqn:E; [|done].
  destruct (ct_down p Ht E) as [H3 [H4|H4]]; [congruence|]. destruct H2; congruence.
Qed.

(** A submit: the job is counted, then sent or carried out in place. *)
Lemma inv_submit p j os : inv p → dpc p = DNext → ops p = OSubmit j :: os →
  let p1 := set_sent (set_tracker (set_ops p os) (tracker_submit (tracker p))) (sent p ++ [j]) in
  inv (set_dpc p1 (if inline_mode p then DInline (KTry j) else DSend j)).
Proof.
  intros [[C1 C2 C3 C4 C5 C6] Ht] Hd Ho p1. pose proof Ht as [T1 T2 T3 T4 T5 T6 T7 T8 T9 T10 T11 T12 T13].
  assert (shutdown p = false) as Hs by (apply shutdown_off; [done|by rewrite Hd|right; by rewrite Ho]).
  destruct (T12 Hs) as (Hcl & _ & Hex). rewrite Hd, Ho in *. cbn [program_ok segment in_barrier] in *.
  split.
  - unfold p1, threads, waiting_for in *. rewrite Hd in *. cbn [sending inline_thread app] in *.
    destruct (inline_mode p); split; unfold waiting_for; pool_simpl; cbn [sending inline_thread app in_barrier];
      rewrite ?bind_cons; cbn [jobs_in bodies_in uncounted_in app]; try done.
    all: try (rewrite C1; solve_Permutation).
    all: try (rewrite C2, wrap_step; unfold len; rewrite length_app; f_equal; cbn; lia).
    all: try (destruct j; [done|by apply NoDup_cons in C6 as [_ C6]]).
    all: destruct j as [f|c]; cbn; rewrite ?omap_app; cbn; rewrite ?omap_app in C5; [done|].
    all: rewrite <-?app_assoc, <-?Permutation_middle in *; cbn; by rewrite <-?Permutation_middle.
  - unfold p1. destruct (inline_mode p) eqn:Em; split; pool_simpl; try done; try congruence.
Qed.

Lemma inv_send p j : inv p → dpc p = DSend j → (length (queue p) < capacity p)%nat →
  inv (set_dpc (set_queue p (queue p ++ [j])) DNext).
Proof.
  intros [[C1 C2 C3 C4 C5 C6] Ht] Hd Hq. pose proof Ht as [T1 T2 T3 T4 T5 T6 T7 T8 T9 T10 T11 T12 T13].
  assert (shutdown p = false) as Hs by (apply shutdown_off; [done|by rewrite Hd|left; by rewrite Hd]).
  destruct (T12 Hs) as (Hcl & _ & Hex). rewrite Hd in *. split.
  - unfold threads, waiting_for in *. rewrite Hd in *. cbn [sending inline_thread app in_barrier] in *.
    split; unfold waiting_for; pool_simpl; cbn [sending inline_thread app in_barrier]; try done.
    + rewrite C1. solve_Permutation.
    + rewrite <-!app_assoc. cbn [app]. by rewrite <-Permutation_middle.
  - split; pool_simpl; try done; [rewrite length_app; cbn; lia|congruence].
Qed.

Lemma inv_enter p os : inv p → dpc p = DNext → ops p = OBarrier :: os → inv (set_dpc (set_ops p os) WLock).
Proof.
  intros [[C1 C2 C3 C4 C5 C6] Ht] Hd Ho. pose proof Ht as [T1 T2 T3 T4 T5 T6 T7 T8 T9 T10 T11 T12 T13].
  assert (shutdown p = false) as Hs by (apply shutdown_off; [done|by rewrite Hd|right; by rewrite Ho]).
  destruct (T12 Hs) as (Hcl & _ & Hex). rewrite Hd, Ho in *. destruct T10 as [T10 T10']. split.
  - unfold threads, waiting_for in *. rewrite Hd in *. cbn [sending inline_thread app in_barrier] in *.
    split; unfold waiting_for; pool_simpl; cbn [sending inline_thread app in_barrier]; done.
  - split; pool_simpl; try done. congruence.
Qed.

Lemma inv_drop p os : inv p → dpc p = DNext → ops p = ODrop :: os →
  inv (if inline_mode p then set_ops p os else set_dpc (set_shutdown (set_ops p os)) DClose).
Proof.
  intros [[C1 C2 C3 C4 C5 C6] Ht] Hd Ho. pose proof Ht as [T1 T2 T3 T4 T5 T6 T7 T8 T9 T10 T11 T12 T13].
  assert (shutdown p = false) as Hs by (apply shutdown_off; [done|by rewrite Hd|right; by rewrite Ho]).
  destruct (T12 Hs) as (Hcl & _ & Hex). rewrite Ho in *. cbn [program_ok] in T10. subst os.
  destruct (inline_mode p) eqn:Em; split.
  - split; pool_simpl; try done.
  - split; pool_simpl; try done; congruence.
  - unfold threads, waiting_for in *. rewrite Hd in *. cbn [sending inline_thread app in_barrier] in *.
    split; unfold waiting_for; pool_simpl; cbn [sending inline_thread app in_barrier]; done.
  - rewrite Hd in *. split; pool_simpl; try done; [by rewrite Em|by intros _; split; [|left]].
Qed.

(** The caller inside a job, in inline mode. *)
Lemma inv_inline p k r : inv p → dpc p = DInline k → step_job HCaller k p = Some r →
  ∃ k' p', r = Ok (k', p') ∧ inv (set_dpc p' (match k' with KCheck => DNext | k => DInline k end)).
Proof.
  intros [Hc Ht] Hd H. pose proof Ht as [T1 T2 T3 T4 T5 T6 T7 T8 T9 T10 T11 T12 T13].
  assert (shutdown p = false) as Hs by (apply shutdown_off; [done|by rewrite Hd|left; by rewrite Hd]).
  destruct (T12 Hs) as (Hcl & _ & Hex).
  assert (threads p = [] ++ k :: workers p) as Et by (unfold threads; by rewrite Hd).
  rewrite Et in Hc. destruct (step_job_core _ _ _ _ _ _ Hc H) as (k' & p' & -> & Hc').
  exists k', p'. split; [done|].
  set (d := match k' with KCheck => DNext | k => DInline k end).
  assert (workers p' = workers p ∧ dpc p' = dpc p ∧ ops p' = ops p ∧ queue p' = queue p ∧
    inline_mode p' = inline_mode p ∧ capacity p' = capacity p ∧ shutdown p' = shutdown p ∧ closed p' = closed p ∧
    waiting (tracker p') = waiting (tracker p) ∧ lock (tracker p') = lock (tracker p) ∧
    inline_ok d ∧ (d = DNext ∧ k' = KCheck ∨ d = DInline k'))
    as (E1 & E2 & E3 & E4 & E5 & E6 & E7 & E8 & E9 & E10 & E11 & E12).
  { rewrite Hd in T1, T4. unfold d. clear -H T1 T4. destruct k; cbn [step_job] in H; try done.
    - destruct (try_with p j) as [q|] eqn:Et; [|done]. injection H as <- <-. unfold try_with in Et.
      destruct j; [injection Et as <-; by eauto 20|]. destruct (decide _); [done|]. injection Et as <-. by eauto 20.
    - injection H as <- <-. destruct j; by eauto 20.
    - injection H as <- <-. by eauto 20.
    - rewrite T1 in H. injection H as <- <-. by eauto 20. }
  clearbody d. rewrite Hd in *. destruct E12 as [[-> ->]| ->]; split.
  - unfold threads. pool_simpl. rewrite E1. eapply core_same; [eapply core_drop; [|exact Hc']; done|..]; pool_simpl; by rewrite ?E2.
  - split; pool_simpl; rewrite ?E1, ?E3, ?E4, ?E5, ?E6, ?E7, ?E8, ?E9, ?E10; try done. congruence.
  - unfold threads. pool_simpl. rewrite E1. eapply core_same; [exact Hc'|..]; pool_simpl; by rewrite ?E2.
  - split; pool_simpl; rewrite ?E1, ?E3, ?E4, ?E5, ?E6, ?E7, ?E8, ?E9, ?E10; try done. congruence.
Qed.

(** The end of the drop. *)
Lemma inv_close p : inv p → dpc p = DClose → inv (set_dpc (set_closed p) (DJoin 0)).
Proof.
  intros [Hc Ht] Hd. pose proof Ht as [T1 T2 T3 T4 T5 T6 T7 T8 T9 T10 T11 T12 T13].
  assert (shutdown p = true) as Hs.
  { destruct (shutdown p) eqn:E; [done|]. destruct (T12 eq_refl) as (_ & H & _). by rewrite Hd in H. }
  split.
  - unfold threads in *. rewrite Hd in Hc. pool_simpl. eapply core_same; [exact Hc|..]; pool_simpl; by rewrite ?Hd.
  - rewrite Hd in *. split; pool_simpl; try done; [|congruence|by split; [|lia]].
    intros _. destruct (T11 Hs) as [? _]. by split; [|left].
Qed.

Lemma inv_join p i r : inv p → dpc p = DJoin i →
  match workers p !! i with
  | None => Some (Ok (set_dpc p DNext))
  | Some KExit => Some (Ok (set_dpc p (DJoin (S i))))
  | Some _ => None
  end = Some r → ∃ p', r = Ok p' ∧ inv p'.
Proof.
  intros [Hc Ht] Hd H. pose proof Ht as [T1 T2 T3 T4 T5 T6 T7 T8 T9 T10 T11 T12 T13].
  assert (shutdown p = true) as Hs.
  { destruct (shutdown p) eqn:E; [done|]. destruct (T12 eq_refl) as (_ & H' & _). by rewrite Hd in H'. }
  destruct (T11 Hs) as [Ho _]. unfold caller_ok in T13. rewrite Hd in *. destruct T13 as [Hcl Hlen].
  assert (∀ d, d = DNext ∨ d = DJoin (S i) → core (set_dpc p d) (threads (set_dpc p d))) as Hcore.
  { intros d Hd'. unfold threads in *. rewrite Hd in Hc. pool_simpl.
    destruct Hd' as [->| ->]; (eapply core_same; [exact Hc|..]; pool_simpl; by rewrite ?Hd). }
  destruct (workers p !! i) as [k|] eqn:Ei.
  - destruct k; try done. injection H as <-. eexists. split; [done|]. split; [by apply Hcore; right|].
    split; pool_simpl; try done; [by intros _; split; [|left]|].
    split; [done|]. pool_simpl. apply lookup_lt_Some in Ei. lia.
  - injection H as <-. eexists. split; [done|]. split; [by apply Hcore; left|].
    split; pool_simpl; try done; [by intros _; split; [|right]|congruence].
Qed.

Lemma caller_inv p r : inv p → step_caller p = Some r → ∃ p', r = Ok p' ∧ inv p'.
Proof.
  intros Hinv H. pose proof Hinv as [Hc Ht].
  pose proof Ht as [T1 T2 T3 T4 T5 T6 T7 T8 T9 T10 T11 T12 T13].
  unfold step_caller, start_op, send_job, run_inline, drop_pool, wait_for_quiescence in H. unfold caller_ok in T13. destruct (dpc p) eqn:Hd; cbn [flagged holding] in *.
  - destruct (ops p) as [|[j| |] os] eqn:Ho; [done|..]; injection H as <-; eexists; (split; [done|]).
    + by apply inv_submit.
    + by apply inv_enter.
    + by apply inv_drop.
  - rewrite T13 in H. destruct (Nat.ltb_spec (length (queue p)) (capacity p)); [|done].
    injection H as <-. eexists. split; [done|]. by apply inv_send.
  - destruct (step_job HCaller k p) as [r'|] eqn:E; [|done]. injection H as <-.
    destruct (inv_inline p k r' Hinv Hd E) as (k' & p' & -> & Hi). by eexists.
  - destruct (is_locked (tracker p)) eqn:El; [done|]. injection H as <-. eexists. split; [done|].
    unfold is_locked in El. destruct (lock (tracker p)) eqn:El'; [done|].
    apply inv_waits; rewrite ?Hd; try done; pool_simpl. by rewrite El'.
  - rewrite T1 in H. injection H as <-. eexists. split; [done|].
    by apply inv_waits; rewrite ?Hd.
  - injection H as <-. eexists. split; [done|].
    apply (inv_waits p _ (tracker p)); rewrite ?Hd; try done.
  - injection H as <-. eexists. split; [done|]. subst s.
    destruct (Z.eqb_spec (submitted (tracker p)) (completed (tracker p)));
      apply (inv_waits p _ (tracker p)); rewrite ?Hd; try done. by left.
  - injection H as <-. eexists. split; [done|]. destruct T2 as [_ T2].
    apply inv_waits; rewrite ?Hd; try done; pool_simpl.
    + intros i. by rewrite (T2 eq_refl).
    + destruct T13 as [T13|(i & k & Hk & Hf)]; [by left|right]. exists i, k. split; [done|]. by destruct k.
  - done.
  - destruct (is_locked (tracker p)) eqn:El; [done|]. injection H as <-. eexists. split; [done|].
    unfold is_locked in El. destruct (lock (tracker p)) eqn:El'; [done|].
    apply inv_waits; rewrite ?Hd; try done; pool_simpl. by rewrite El'.
  - injection H as <-. eexists. split; [done|]. by apply inv_waits; rewrite ?Hd.
  - injection H as <-. eexists. split; [done|]. by apply inv_return.
  - injection H as <-. eexists. split; [done|]. by apply inv_close.
  - by apply inv_join in H.
Qed.

Lemma step_inv a p r : inv p → step_of a p = Some r → ∃ p', r = Ok p' ∧ inv p'.
Proof.
  intros Hi H. destruct a as [|i|]; cbn [step_of] in H; [by eapply caller_inv|by eapply worker_inv|].
  unfold spurious_wake in H. destruct (dpc p) eqn:Hd; try done. injection H as <-. eexists. split; [done|].
  destruct Hi as [Hc Ht]. split; [|by apply control_wake].
  apply (core_caller p WRelock (tracker p)); by rewrite ?Hd.
Qed.

Lemma inv_new n os : 5 * Z.of_nat n + 2 < 2 ^ 64 → program_ok os → NoDup (segment os) → inv (pool_new n os).
Proof.
  intros Hn Hp Hs.
  assert (∀ k, k ∈ replicate n KCheck → k = KCheck) as Hk by (intros k Hk; by apply elem_of_replicate in Hk as [-> _]).
  assert (∀ A (f : KPc → list A), f KCheck = [] → replicate n KCheck ≫= f = []) as Hb.
  { clear. intros A f Hf. induction n as [|n IH]; [done|]. cbn [replicate]. by rewrite bind_cons, Hf, IH. }
  unfold pool_new. split.
  - split; unfold threads, waiting_for; pool_simpl; cbn [inline_thread app sending]; rewrite ?Hb by done; try done.
    intros c. set_solver.
  - split; pool_simpl; unfold len; rewrite ?length_replicate; try done; [|cbn; lia|].
    + intros i. split; [done|]. intros Hi%list_elem_of_lookup_2%Hk. done.
    + intros _. split_and!; [done..|]. intros ?%Hk. done.
Qed.

Definition reachable (n : nat) (os : list Op) (p : Pool) : Prop := rtc pool_step (pool_new n os) p.

(** ** Every operation returns *)

(** Steps left: of a thread, of the caller, of what it still has to do. *)
Definition k_weight (k : KPc) : nat :=
  match k with
  | KExit => 0 | KRecv => 1 | KCheck => 2
  | CNotify => 7 | CUnlock => 8 | CLock => 9 | CLoad => 10 | CAdd => 11
  | KBody _ => 12 | KTry _ => 13
  end.
Definition d_weight (m : nat) (d : DPc) : nat :=
  match d with
  | DNext => 0 | DSend _ => 14 | DInline k => k_weight k
  | WUnlock => 1 | WReset => 2 | WParked => 3 | WWait => 4 | WLoadC _ => 5 | WLoadS => 6
  | WSwap | WRelock => 7 | WLock => 8
  | DClose => m + 3 | DJoin i => m + 2 - i
  end.
Definition o_weight (m : nat) (o : Op) : nat :=
  match o with OSubmit _ => 15 | OBarrier => 9 | ODrop => m + 4 end.

Definition steps_left (p : Pool) : nat :=
  let m := length (workers p) in
  d_weight m (dpc p) + sum_list_with (o_weight m) (ops p) + 13 * length (queue p)
  + sum_list_with k_weight (workers p).

Definition is_spurious (a : Action) : bool := match a with ASpurious => true | _ => false end.
Definition spurious_in (acts : list Action) : nat := length (List.filter is_spurious acts).

(** The caller has carried out its program. *)
Definition finished (p : Pool) : Prop := dpc p = DNext ∧ ops p = [].

Lemma sum_insert (ks : list KPc) i k k' : ks !! i = Some k →
  (sum_list_with k_weight (<[i := k']> ks) + k_weight k = sum_list_with k_weight ks + k_weight k')%nat.
Proof.
  revert i. induction ks as [|k0 ks IH]; intros [|i] Hi; [done..| |].
  - injection Hi as ->. cbn. lia.
  - specialize (IH i Hi). change (<[S i := k']> (k0 :: ks)) with (k0 :: <[i := k']> ks).
    cbn [sum_list_with]. lia.
Qed.

Lemma step_job_left h k p k' p' : step_job h k p = Some (Ok (k', p')) →
  workers p' = workers p ∧ ops p' = ops p ∧ queue p' = queue p ∧
  (dpc p' = dpc p ∧ (k_weight k' < k_weight k)%nat ∨
   dpc p = WParked ∧ dpc p' = WRelock ∧ (k_weight k' + 4 < k_weight k)%nat).
Proof.
  intros H. destruct k; cbn [step_job] in H; try done.
  - destruct (try_with p j) as [q|] eqn:Et; [|done]. injection H as <- <-. unfold try_with in Et.
    destruct j; [injection Et as <-; split_and!; [done..|left; cbn; by split; [|lia]]|]. destruct (decide _); [done|].
    injection Et as <-. split_and!; [done..|left; cbn; by split; [|lia]].
  - injection H as <- <-. destruct j; (split_and!; [done..|left; cbn; by split; [|lia]]).
  - injection H as <- <-. split_and!; [done..|left; cbn; by split; [|lia]].
  - injection H as <- <-. split_and!; [done..|left]. split; [done|]. destruct (waiting _); cbn; lia.
  - destruct (is_locked _); [done|]. injection H as <- <-. split_and!; [done..|left; cbn; by split; [|lia]].
  - injection H as <- <-. split_and!; [done..|left; cbn; by split; [|lia]].
  - injection H as <- <-. unfold notify_one.
    destruct (dpc p) eqn:Hd; (split_and!; [done..|]); try (left; cbn; split; [done|lia]).
    right. cbn. split_and!; [done..|lia].
Qed.

Lemma worker_left i p p' : step_worker i p = Some (Ok p') → (steps_left p' < steps_left p)%nat.
Proof.
  unfold step_worker. destruct (workers p !! i) as [k|] eqn:Hi; [|done]. intros H.
  assert (∀ k', length (<[i := k']> (workers p)) = length (workers p)) as Hl by (intros; apply length_insert).
  assert (∀ f : option (res Pool), f = (λ r, '(k, p) ← r; Ok (put_worker i k p)) <$> step_job (HWorker i) k p →
    f = Some (Ok p') → (steps_left p' < steps_left p)%nat) as Hjob.
  { intros f -> Hf. destruct (step_job (HWorker i) k p) as [[[k' q]|]|] eqn:E; [|done..]. injection Hf as <-.
    destruct (step_job_left _ _ _ _ _ E) as (E1 & E2 & E3 & E4). unfold steps_left, put_worker. pool_simpl.
    rewrite E1, E2, E3, Hl. pose proof (sum_insert _ i k k' Hi).
    destruct E4 as [[-> E4]|(-> & -> & E4)]; cbn [d_weight]; lia. }
  destruct k; try by eapply Hjob.
  - injection H as <-. unfold steps_left. pool_simpl. rewrite Hl.
    pose proof (sum_insert _ i _ (if shutdown p then KExit else KRecv) Hi).
    destruct (shutdown p); cbn [k_weight] in *; lia.
  - destruct (queue p) as [|j q] eqn:Hq.
    + destruct (closed p); [|done]. injection H as <-. unfold steps_left. pool_simpl. rewrite Hl, Hq.
      pose proof (sum_insert _ i _ KExit Hi). cbn [k_weight] in *. lia.
    + injection H as <-. unfold steps_left. pool_simpl. rewrite Hl, Hq.
      pose proof (sum_insert _ i _ (KTry j) Hi). cbn [k_weight length] in *. lia.
Qed.

Lemma caller_left p p' : inv p → step_caller p = Some (Ok p') → (steps_left p' < steps_left p)%nat.
Proof.
  intros [_ Ht] H. pose proof (ct_caller p Ht) as Hc. unfold caller_ok in Hc. unfold step_caller, start_op, send_job, run_inline, drop_pool, wait_for_quiescence in H.
  destruct (dpc p) eqn:Hd.
  - destruct (ops p) as [|[j| |] rest] eqn:Ho; [done|..]; injection H as <-; unfold steps_left; pool_simpl;
      rewrite ?Hd, Ho; cbn [sum_list_with o_weight d_weight]; [destruct (inline_mode p); cbn; lia|lia|].
    destruct (inline_mode p); pool_simpl; rewrite ?Hd; cbn; lia.
  - destruct (closed p); [done|]. destruct (_ <? _)%nat; [|done]. injection H as <-.
    unfold steps_left. pool_simpl. rewrite Hd, length_app. cbn. lia.
  - destruct (step_job HCaller k p) as [[[k' q]|]|] eqn:E; [|done..]. injection H as <-.
    destruct (step_job_left _ _ _ _ _ E) as (E1 & E2 & E3 & [[E4 E5]|(E4 & _)]); [|congruence].
    unfold steps_left. pool_simpl. rewrite E1, E2, E3, Hd. destruct k'; cbn [d_weight k_weight] in *; lia.
  - destruct (is_locked _); [done|]. injection H as <-. unfold steps_left. pool_simpl. rewrite Hd. cbn. lia.
  - destruct (waiting _); [done|]. injection H as <-. unfold steps_left. pool_simpl. rewrite Hd. cbn. lia.
  - injection H as <-. unfold steps_left. pool_simpl. rewrite Hd. cbn. lia.
  - injection H as <-. unfold steps_left. pool_simpl. rewrite Hd. destruct (_ =? _); cbn; lia.
  - injection H as <-. unfold steps_left. pool_simpl. rewrite Hd. cbn. lia.
  - done.
  - destruct (is_locked _); [done|]. injection H as <-. unfold steps_left. pool_simpl. rewrite Hd. cbn. lia.
  - injection H as <-. unfold steps_left. pool_simpl. rewrite Hd. cbn. lia.
  - injection H as <-. unfold steps_left. pool_simpl. rewrite Hd. cbn. lia.
  - injection H as <-. unfold steps_left. pool_simpl. rewrite Hd. cbn. lia.
  - destruct (workers p !! i) as [k|] eqn:Ei.
    + destruct k; try done. injection H as <-. unfold steps_left. pool_simpl. rewrite Hd.
      apply lookup_lt_Some in Ei. cbn. lia.
    + injection H as <-. unfold steps_left. pool_simpl. rewrite Hd. cbn. lia.
Qed.

Lemma step_left a p p' : inv p → step_of a p = Some (Ok p') →
  (S (steps_left p') ≤ steps_left p + (if is_spurious a then 5 else 0))%nat.
Proof.
  intros Hi H. destruct a as [|i|]; cbn [step_of is_spurious] in *.
  - apply caller_left in H; [lia|done].
  - apply worker_left in H. lia.
  - unfold spurious_wake in H. destruct (dpc p) eqn:Hd; try done. injection H as <-.
    unfold steps_left. pool_simpl. rewrite Hd. cbn. lia.
Qed.

(** ** Someone can always move *)

(** A worker that is not waiting for a job, when the caller does not hold the
    lock: it can move, or the holder of the lock can. *)
Lemma worker_moves p i k : inv p → holding (dpc p) = false → workers p !! i = Some k →
  k ≠ KRecv → k ≠ KExit → ∃ j p', step_of (AWorker j) p = Some (Ok p').
Proof.
  intros Hi Hh Hk H1 H2.
  assert (∀ j, step_worker j p ≠ None → ∃ j p', step_of (AWorker j) p = Some (Ok p')) as Hgo.
  { intros j Hj. destruct (step_worker j p) as [r|] eqn:E; [|done].
    destruct (worker_inv _ _ _ Hi E) as (p' & -> & _). by exists j, p'. }
  destruct (decide (k = CLock)) as [->|Hne].
  - destruct Hi as [Hc Ht]. destruct (lock (tracker p)) as [[|j]|] eqn:El.
    + apply (ct_lock p Ht) in El. congruence.
    + apply (ct_lock_w p Ht) in El. apply (Hgo j). unfold step_worker. by rewrite El.
    + apply (Hgo i). unfold step_worker. rewrite Hk. cbn. unfold is_locked. by rewrite El.
  - apply (Hgo i). unfold step_worker. rewrite Hk. by destruct k.
Qed.

Lemma lock_moves p : inv p → holding (dpc p) = false → is_locked (tracker p) = true →
  ∃ j p', step_of (AWorker j) p = Some (Ok p').
Proof.
  intros Hi Hh Hl. unfold is_locked in Hl. destruct (lock (tracker p)) as [[|j]|] eqn:El; [| |done].
  - destruct Hi as [_ Ht]. apply (ct_lock p Ht) in El. congruence.
  - pose proof Hi as [_ Ht]. apply (ct_lock_w p Ht) in El. by eapply worker_moves.
Qed.

(** A job in the channel or with a worker, while workers are up. *)
Lemma jobs_move p : inv p → holding (dpc p) = false → shutdown p = false → workers p ≠ [] →
  queue p ≠ [] ∨ workers p ≫= jobs_in ≠ [] ∨ workers p ≫= uncounted_in ≠ [] →
  ∃ j p', step_of (AWorker j) p = Some (Ok p').
Proof.
  intros Hi Hh Hs Hw H.
  assert (∀ A (f : KPc → list A), f KRecv = [] → f KExit = [] → workers p ≫= f ≠ [] →
    ∃ j p', step_of (AWorker j) p = Some (Ok p')) as Hthread.
  { intros A f F1 F2 Hf. destruct (workers p ≫= f) as [|x xs] eqn:E; [done|].
    assert (x ∈ workers p ≫= f) as Hx by (rewrite E; set_solver).
    apply list_elem_of_bind in Hx as (k & Hx & Hk). apply list_elem_of_lookup in Hk as [i Hk].
    eapply worker_moves; [done..| |]; intros ->; [rewrite F1 in Hx|rewrite F2 in Hx]; set_solver. }
  destruct H as [Hq|[H|H]]; [|exact (Hthread _ jobs_in eq_refl eq_refl H)|exact (Hthread _ uncounted_in eq_refl eq_refl H)].
  destruct (workers p) as [|k ks] eqn:Ew; [done|].
  assert (workers p !! 0%nat = Some k) as Hk by by rewrite Ew.
  destruct (decide (k = KRecv)) as [->|H1].
  - destruct (queue p) as [|j q] eqn:Eq; [done|]. eexists 0%nat, _. cbn [step_of]. unfold step_worker. by rewrite Hk, Eq.
  - eapply worker_moves; [done..|]. intros ->.
    destruct Hi as [_ Ht]. destruct (ct_up p Ht Hs) as (_ & _ & Hx). apply Hx. rewrite Ew. set_solver.
Qed.

(** The caller is parked: a job is left, or a notification is on its way. *)
Lemma parked_moves p : inv p → dpc p = WParked → ∃ j p', step_of (AWorker j) p = Some (Ok p').
Proof.
  intros Hinv Hd. pose proof Hinv as [Hc Ht]. pose proof Ht as [T1 T2 T3 T4 T5 T6 T7 T8 T9 T10 T11 T12 T13].
  assert (shutdown p = false) as Hs by (apply shutdown_off; [done|by rewrite Hd|left; by rewrite Hd]).
  unfold caller_ok in T13. rewrite Hd in T13. destruct T13 as [Hu|(i & k & Hk & Hf)].
  - assert (queue p ≠ [] ∨ workers p ≫= jobs_in ≠ [] ∨ workers p ≫= uncounted_in ≠ []) as H.
    { destruct (queue p) eqn:E1; [|by left]. destruct (workers p ≫= jobs_in) eqn:E2; [|by right; left].
      destruct (workers p ≫= uncounted_in) eqn:E3; [|by right; right]. exfalso. apply Hu, even_iff; [done|].
      unfold waiting_for, threads. rewrite Hd, E1. cbn [sending inline_thread app]. by rewrite E2, E3. }
    apply jobs_move; try done; [by rewrite Hd|]. intros Ew. rewrite Ew in *.
    destruct H as [H|[H|H]]; [|by apply H..]. apply H, nil_length_inv. rewrite T8 in T7. cbn in T7. lia.
  - apply (worker_moves p i k); try done; [by rewrite Hd|by intros ->..].
Qed.

Lemma pool_progress p : inv p → finished p ∨ ∃ a p', is_spurious a = false ∧ step_of a p = Some (Ok p').
Proof.
  intros Hinv. pose proof Hinv as [Hc Ht]. pose proof Ht as [T1 T2 T3 T4 T5 T6 T7 T8 T9 T10 T11 T12 T13].
  assert (step_caller p ≠ None → ∃ a p', is_spurious a = false ∧ step_of a p = Some (Ok p')) as Hgo.
  { intros Hs. destruct (step_caller p) as [r|] eqn:E; [|done].
    destruct (caller_inv _ _ Hinv E) as (p' & -> & _). by exists ACaller, p'. }
  assert ((∃ j p', step_of (AWorker j) p = Some (Ok p')) →
    ∃ a p', is_spurious a = false ∧ step_of a p = Some (Ok p')) as Hgo'.
  { intros (j & p' & H). by exists (AWorker j), p'. }
  unfold caller_ok in T13. unfold step_caller, start_op, send_job, run_inline, drop_pool, wait_for_quiescence in Hgo. destruct (dpc p) eqn:Hd.
  - destruct (ops p) as [|[]] eqn:Ho; [by left|right; by apply Hgo..].
  - right. rewrite T13 in Hgo. destruct (Nat.ltb_spec (length (queue p)) (capacity p)) as [|Hfull]; [by apply Hgo|].
    apply Hgo', jobs_move; try done.
    + by rewrite Hd.
    + apply shutdown_off; [done|by rewrite Hd|left; by rewrite Hd].
    + intros E. rewrite E in T6. cbn in T5. by rewrite T5 in T6.
    + left. intros E. rewrite E in Hfull. cbn in Hfull, T5. rewrite T5 in T6.
      apply eq_sym, bool_decide_eq_false in T6. lia.
  - right. apply Hgo. destruct k; try done.
  - right. destruct (is_locked (tracker p)) eqn:El; [|by apply Hgo].
    apply Hgo', lock_moves; [done|by rewrite Hd|done].
  - right. by apply Hgo.
  - right. by apply Hgo.
  - right. by apply Hgo.
  - right. by apply Hgo.
  - right. apply Hgo', parked_moves; done.
  - right. destruct (is_locked (tracker p)) eqn:El; [|by apply Hgo].
    apply Hgo', lock_moves; [done|by rewrite Hd|done].
  - right. by apply Hgo.
  - right. by apply Hgo.
  - right. by apply Hgo.
  - right. destruct T13 as [Hcl _]. destruct (workers p !! i) as [k|] eqn:Hk; [|by apply Hgo].
    destruct (decide (k = KExit)) as [->|H1]; [by apply Hgo|].
    apply Hgo'. destruct (decide (k = KRecv)) as [->|H2].
    + exists i. cbn [step_of]. unfold step_worker. rewrite Hk, Hcl. by destruct (queue p); eexists.
    + eapply worker_moves; [done|by rewrite Hd|done..].
Qed.

Section pool.
(** A number of workers whose jobs the counters can tell apart, and a program that
    never has the same cell twice between two barriers. *)
Context (n : nat) (os : list Op) (Hworkers : 5 * Z.of_nat n + 2 < 2 ^ 64).
Context (Hprogram : program_ok os) (Hsegment : NoDup (segment os)).

Lemma pool_reachable_inv p : reachable n os p → inv p.
Proof.
  intros H. assert (inv (pool_new n os)) as Hi by by apply inv_new.
  induction H as [p|p q r [a Ha] _ IH]; [done|]. apply IH.
  destruct (step_inv a p _ Hi Ha) as (q' & [= <-] & Hq). done.
Qed.

(** C10. The barrier is a barrier.  Whatever the workers and the caller do, in every
    reachable state no step panics: no cell is found busy, no second waiter is
    seen, no job is sent to a closed channel.  And when a barrier returns, every
    job submitted before it has been carried out exactly once, no closure is
    running and none is waiting in the channel. *)
Theorem barrier_quiescent p : reachable n os p →
  (∀ a, step_of a p ≠ Some Panic) ∧
  (dpc p = WUnlock → executed p ≡ₚ sent p ∧ queue p = [] ∧ busy p = ∅ ∧
     ∀ i k, workers p !! i = Some k → jobs_in k = [] ∧ k ≠ CAdd).
Proof.
  intros Hi%pool_reachable_inv. split.
  - intros a H. by destruct (step_inv a p _ Hi H) as (p' & ? & _).
  - intros Hd. pose proof Hi as [[C1 C2 C3 C4 C5 C6] Ht]. pose proof (ct_caller p Ht) as T13.
    unfold caller_ok in T13. rewrite Hd in T13. apply even_iff in T13 as [Hw Hu]; [|done].
    rewrite Hw, app_nil_r in C1. unfold waiting_for, threads in *. rewrite Hd in *.
    cbn [sending inline_thread app] in *. apply app_eq_nil in Hw as [Hq Hw]. split_and!; [by symmetry|done| |].
    + apply set_eq. intros c. rewrite C4. split; [|set_solver]. intros Hc%bodies_jobs. rewrite Hw in Hc. set_solver.
    + intros i k Hk%list_elem_of_lookup_2. split.
      * destruct (jobs_in k) as [|j js] eqn:Ej; [done|]. exfalso. eapply (not_elem_of_nil j). rewrite <-Hw.
        apply list_elem_of_bind. exists k. rewrite Ej. split; [set_solver|done].
      * intros ->. eapply (not_elem_of_nil ()). rewrite <-Hu. apply list_elem_of_bind. exists CAdd. split; [set_solver|done].
Qed.

Lemma schedule_left acts : ∀ p p', inv p → schedule acts p = Some (Ok p') →
  inv p' ∧ (length acts + steps_left p' ≤ steps_left p + 5 * spurious_in acts)%nat.
Proof.
  unfold spurious_in. induction acts as [|a acts IH]; intros p p' Hi H; cbn [schedule] in H.
  { injection H as <-. split; [done|]. cbn. lia. }
  destruct (step_of a p) as [[q|]|] eqn:E; [|done..].
  destruct (step_inv a p _ Hi E) as (q' & [= <-] & Hq). destruct (IH q p' Hq H) as [Hp' Hle].
  apply step_left in E; [|done]. split; [done|]. cbn. destruct (is_spurious a); cbn; lia.
Qed.

(** C11. Every operation of the pool returns, and no wakeup is lost.  From every
    reachable state a schedule makes at most a number of steps known in advance,
    five more for each wake the condition variable makes up; and wherever it
    stops, either the caller has carried out its whole program, with every
    barrier and the drop returned, or a thread can make a step that is not such a
    wake. *)
Theorem operations_return p acts p' : reachable n os p → schedule acts p = Some (Ok p') →
  (length acts ≤ steps_left p + 5 * spurious_in acts)%nat ∧
  (finished p' ∨ ∃ a p'', is_spurious a = false ∧ step_of a p' = Some (Ok p'')).
Proof.
  intros Hi%pool_reachable_inv H. destruct (schedule_left acts p p' Hi H) as [Hp Hle].
  split; [lia|]. by apply pool_progress.
Qed.

End pool.

(** Two workers, three jobs, a barrier and the drop. *)
Definition demo_program : list Op :=
  [OSubmit (Shared 0); OSubmit (Shared 1); OSubmit (Owned 7); OBarrier; OSubmit (Shared 0); OBarrier; ODrop].
(** The caller as far as it goes, then the first worker that can move. *)
Fixpoint caller_first (fuel : nat) (p : Pool) : list Action :=
  match fuel with
  | O => []
  | S fuel =>
      match List.filter (λ a, match step_of a p with Some _ => true | None => false end)
              [ACaller; AWorker 0; AWorker 1] with
      | [] => []
      | a :: _ => a :: match step_of a p with Some (Ok p) => caller_first fuel p | _ => [] end
      end
  end.
Definition demo_acts : list Action := caller_first 300 (pool_new 2 demo_program).
(** After [k] steps. *)
Definition demo_at (k : nat) : Pool :=
  match schedule (take k demo_acts) (pool_new 2 demo_program) with
  | Some (Ok p) => p
  | _ => pool_new 2 demo_program
  end.

Lemma schedule_reachable acts p p' : schedule acts p = Some (Ok p') → rtc pool_step p p'.
Proof.
  revert p. induction acts as [|a acts IH]; intros p H; cbn [schedule] in H; [by injection H as <-|].
  destruct (step_of a p) as [[q|]|] eqn:E; [|done..]. eapply rtc_l; [by exists a|]. by apply IH.
Qed.

Lemma demo_at_reachable k : reachable 2 demo_program (demo_at k).
Proof.
  unfold reachable, demo_at. destruct (schedule _ _) as [[p|]|] eqn:E; [|apply rtc_refl..].
  by eapply schedule_reachable.
Qed.

Lemma demo_ok : program_ok demo_program ∧ NoDup (segment demo_program).
Proof.
  split.
  - split; [apply NoDup_singleton|]. split; [apply NoDup_nil_2|reflexivity].
  - apply (bool_decide_unpack _). vm_compute. exact I.
Qed.

(** The caller of the first barrier was parked three times when it returns. *)
Lemma barrier_quiescent_witness :
  dpc (demo_at 51) = WUnlock ∧ executed (demo_at 51) ≡ₚ sent (demo_at 51) ∧ queue (demo_at 51) = [].
Proof.
  assert (dpc (demo_at 51) = WUnlock) as Hd by (vm_compute; reflexivity). split; [done|].
  destruct (barrier_quiescent 2 demo_program eq_refl (proj1 demo_ok) (proj2 demo_ok) (demo_at 51)
              (demo_at_reachable 51)) as [_ H].
  destruct (H Hd) as (H1 & H2 & _). by split.
Defined.

Lemma operations_return_witness :
  (length demo_acts ≤ steps_left (pool_new 2 demo_program))%nat ∧ finished (demo_at 81).
Proof.
  split; [|split; vm_compute; reflexivity].
  destruct (operations_return 2 demo_program eq_refl (proj1 demo_ok) (proj2 demo_ok)
              (pool_new 2 demo_program) demo_acts (demo_at 81)) as [H _].
  - apply rtc_refl.
  - vm_compute. reflexivity.
  - etransitivity; [exact H|]. vm_compute. lia.
Defined.

End ExecPool.
