(* ===== verification/BoundedAlloc.v ===== *)
(** * The bounded allocator

    Models [taktora-bounded-alloc/src/lib.rs]: an arena of equal blocks with a
    bitmap of free blocks that threads claim by compare-and-swap, its counters and
    its lock, and the partitioned allocator of two such arenas.

    Threads call [alloc] and [dealloc] at will; every atomic access is a step and
    steps interleave freely.  Addresses are numbers and the null pointer is 0.  The
    caller's side of the contract of [GlobalAlloc] is part of the steps: only a
    live pointer is freed, and it is not live any more from then on. *)

From stdpp Require Import base list sets relations.
From Stdlib Require Import ZArith Lia Zquot.
From S2P Require Import Prelude.

Module BoundedAlloc.

(** ** Shape and state *)

(** The const parameters and the address of the arena. *)
Record Shape := MkShape { MAX_BLOCKS : Z; BLOCK_SIZE : Z; arena : Z }.

(** [(MAX_BLOCKS).div_ceil(64)], as the macros compute it. *)
Definition BITMAP_WORDS (sh : Shape) : Z := (MAX_BLOCKS sh + 63) / 64.
(** [size_of::<Block<BLOCK_SIZE>>()]: rounded up to the alignment of 64. *)
Definition stride (sh : Shape) : Z := (BLOCK_SIZE sh + 63) / 64 * 64.
Definition capacity_bytes (sh : Shape) : Z := MAX_BLOCKS sh * BLOCK_SIZE sh.
(** [arena[i].as_mut_ptr()]. *)
Definition block_ptr (sh : Shape) (i : Z) : Z := arena sh + i * stride sh.
Definition block_index_of (sh : Shape) (ptr : Z) : Z := wrap 64 (ptr - arena sh) / stride sh.

Record BoundedAllocator := MkAlloc {
  bitmap : list Z;
  alloc_count : Z;
  dealloc_count : Z;
  peak_in_use : Z;
  in_use : Z;
  locked : bool;
}.

Definition alloc_new (sh : Shape) : BoundedAllocator :=
  MkAlloc (replicate (Z.to_nat (BITMAP_WORDS sh)) (2 ^ 64 - 1)) 0 0 0 0 false.

Definition set_bitmap (a : BoundedAllocator) (b : list Z) : BoundedAllocator :=
  MkAlloc b (alloc_count a) (dealloc_count a) (peak_in_use a) (in_use a) (locked a).
Definition set_counts (a : BoundedAllocator) (al de : Z) : BoundedAllocator :=
  MkAlloc (bitmap a) al de (peak_in_use a) (in_use a) (locked a).
Definition set_peak (a : BoundedAllocator) (p : Z) : BoundedAllocator :=
  MkAlloc (bitmap a) (alloc_count a) (dealloc_count a) p (in_use a) (locked a).
Definition set_in_use (a : BoundedAllocator) (n : Z) : BoundedAllocator :=
  MkAlloc (bitmap a) (alloc_count a) (dealloc_count a) (peak_in_use a) n (locked a).
Definition set_locked (a : BoundedAllocator) : BoundedAllocator :=
  MkAlloc (bitmap a) (alloc_count a) (dealloc_count a) (peak_in_use a) (in_use a) true.

(** ** Words *)

(** [u64::trailing_zeros]. *)
Fixpoint tz_loop (fuel : nat) (i word : Z) : Z :=
  match fuel with
  | O => 64
  | S fuel => if Z.testbit word i then i else tz_loop fuel (i + 1) word
  end.
Definition trailing_zeros (word : Z) : Z := tz_loop 64 0 word.
(** [!mask] on [u64]. *)
Definition not64 (mask : Z) : Z := Z.lxor mask (Z.ones 64).

(** ** Steps *)

(** A thread in [alloc], with [try_claim_block] inlined, or in [dealloc]. *)
Inductive TPc :=
| TIdle
| TCheck (size align : Z)
| TLoad (word_idx : Z)
| TCas (word_idx word : Z)
| TCount (block_idx : Z)
| TInUse (block_idx : Z)
| TPeak (block_idx in_use_after : Z)
| TPeakCas (block_idx in_use_after peak : Z)
| TRet (ptr : Z)
| TRelease (block_idx : Z)
| TFreed
| TSub.

#[export] Instance TPc_eq_dec : EqDecision TPc.
Proof. solve_decision. Defined.

(** After [load] or a failed exchange has observed [peak]. *)
Definition peak_loop (sh : Shape) (block_idx in_use_after peak : Z) : TPc :=
  if peak <? in_use_after then TPeakCas block_idx in_use_after peak else TRet (block_ptr sh block_idx).

(** [try_claim_block]: a word is loaded, then exchanged for itself without its
    lowest bit. *)
Definition claim_load (sh : Shape) (word_idx : Z) (a : BoundedAllocator) : res (TPc * BoundedAllocator) :=
  if BITMAP_WORDS sh <=? word_idx then Ok (TRet 0, a)
  else
    word ← expect (bitmap a !! Z.to_nat word_idx);
    if word =? 0 then Ok (TLoad (word_idx + 1), a)
    else
      let block_idx := word_idx * 64 + trailing_zeros word in
      if MAX_BLOCKS sh <=? block_idx then Ok (TLoad (word_idx + 1), a)
      else Ok (TCas word_idx word, a).
Definition claim_cas (word_idx word : Z) (a : BoundedAllocator) : res (TPc * BoundedAllocator) :=
  cur ← expect (bitmap a !! Z.to_nat word_idx);
  let bit_idx := trailing_zeros word in
  let block_idx := word_idx * 64 + bit_idx in
  let new_word := Z.land word (not64 (Z.shiftl 1 bit_idx)) in
  if cur =? word
  then Ok (TCount block_idx, set_bitmap a (<[Z.to_nat word_idx := new_word]> (bitmap a)))
  else Ok (TLoad word_idx, a).

Definition release_block (a : BoundedAllocator) (block_idx : Z) : res BoundedAllocator :=
  if len (bitmap a) <=? block_idx / 64 then Panic
  else
    word ← expect (bitmap a !! Z.to_nat (block_idx / 64));
    let mask := Z.shiftl 1 (block_idx mod 64) in
    Ok (set_bitmap a (<[Z.to_nat (block_idx / 64) := Z.lor word mask]> (bitmap a))).

(** One access of a thread.  [fail]: a weak exchange fails although it need not. *)
Definition thread_step (sh : Shape) (fail : bool) (t : TPc) (a : BoundedAllocator)
    : option (res (TPc * BoundedAllocator)) :=
  match t with
  | TIdle => None
  | TCheck size align =>
      Some (if locked a then Panic
            else if BLOCK_SIZE sh <? size then Ok (TRet 0, a)
            else if 64 <? align then Ok (TRet 0, a)
            else Ok (TLoad 0, a))
  | TLoad word_idx => Some (claim_load sh word_idx a)
  | TCas word_idx word => Some (claim_cas word_idx word a)
  | TCount block_idx =>
      Some (if MAX_BLOCKS sh <=? block_idx then Panic
            else Ok (TInUse block_idx, set_counts a (wrap 64 (alloc_count a + 1)) (dealloc_count a)))
  | TInUse block_idx =>
      Some (let n := wrap 64 (in_use a + 1) in Ok (TPeak block_idx n, set_in_use a n))
  | TPeak block_idx n => Some (Ok (peak_loop sh block_idx n (peak_in_use a), a))
  | TPeakCas block_idx n peak =>
      Some (if fail || negb (peak_in_use a =? peak) then Ok (peak_loop sh block_idx n (peak_in_use a), a)
            else Ok (TRet (block_ptr sh block_idx), set_peak a n))
  | TRet _ => None
  | TRelease block_idx => Some (a ← release_block a block_idx; Ok (TFreed, a))
  | TFreed => Some (Ok (TSub, set_counts a (alloc_count a) (wrap 64 (dealloc_count a + 1))))
  | TSub => Some (Ok (TIdle, set_in_use a (wrap 64 (in_use a - 1))))
  end.

(** The program: the threads and the pointers it may use. *)
Record State := MkState { alloc_of : BoundedAllocator; threads : list TPc; live : list Z }.

Inductive Action :=
| AAlloc (t : nat) (size align : Z)
| AFree (t : nat) (ptr : Z)
| AStep (t : nat) (fail : bool)
| AReturn (t : nat)
| ALock.

Definition put (t : nat) (pc : TPc) (s : State) : State :=
  MkState (alloc_of s) (<[t := pc]> (threads s)) (live s).

Definition step_of (sh : Shape) (act : Action) (s : State) : option (res State) :=
  match act with
  | AAlloc t size align =>
      if bool_decide (threads s !! t = Some TIdle) then Some (Ok (put t (TCheck size align) s)) else None
  | AFree t ptr =>
      if bool_decide (threads s !! t = Some TIdle ∧ ptr ∈ live s)
      then Some (Ok (MkState (alloc_of s) (<[t := TRelease (block_index_of sh ptr)]> (threads s))
                      (filter (λ q, q ≠ ptr) (live s))))
      else None
  | AStep t fail =>
      match threads s !! t with
      | None => None
      | Some pc =>
          (λ r, '(pc, a) ← r; Ok (MkState a (<[t := pc]> (threads s)) (live s)))
            <$> thread_step sh fail pc (alloc_of s)
      end
  | AReturn t =>
      match threads s !! t with
      | Some (TRet ptr) =>
          Some (Ok (MkState (alloc_of s) (<[t := TIdle]> (threads s))
                      (if ptr =? 0 then live s else ptr :: live s)))
      | _ => None
      end
  | ALock => Some (Ok (MkState (set_locked (alloc_of s)) (threads s) (live s)))
  end.

Definition alloc_step (sh : Shape) (s s' : State) : Prop := ∃ act, step_of sh act s = Some (Ok s').
Definition init (sh : Shape) (n_threads : nat) : State := MkState (alloc_new sh) (replicate n_threads TIdle) [].
Definition reachable (sh : Shape) (n : nat) (s : State) : Prop := rtc (alloc_step sh) (init sh n) s.

(** ** Bits of the bitmap *)

(** Bit [i mod 64] of word [i / 64]. *)
Definition free_bit (bm : list Z) (i : Z) : bool :=
  match bm !! Z.to_nat (i / 64) with Some w => Z.testbit w (i mod 64) | None => false end.

Lemma tz_loop_spec n : ∀ i word, 0 ≤ i → i + Z.of_nat n = 64 →
  (∃ b, i ≤ b < 64 ∧ Z.testbit word b = true) →
  let t := tz_loop n i word in
  i ≤ t < 64 ∧ Z.testbit word t = true ∧ ∀ b, i ≤ b < t → Z.testbit word b = false.
Proof.
  induction n as [|n IH]; intros i word Hi Hn (b & Hb & Ht); [lia|]. cbn [tz_loop].
  destruct (Z.testbit word i) eqn:E; [split_and!; [lia..|done|intros; lia]|].
  assert (b ≠ i) by (intros ->; congruence).
  destruct (IH (i + 1) word) as (H1 & H2 & H3); [lia..|exists b; split; [lia|done]|].
  cbn in *. split_and!; [lia..|done|]. intros c Hc. destruct (decide (c = i)) as [->|]; [done|]. apply H3. lia.
Qed.

Lemma trailing_zeros_spec word : is_u 64 word → word ≠ 0 →
  0 ≤ trailing_zeros word < 64 ∧ Z.testbit word (trailing_zeros word) = true ∧
  ∀ b, 0 ≤ b < trailing_zeros word → Z.testbit word b = false.
Proof.
  intros [H0 H64] Hne. apply (tz_loop_spec 64 0 word); [lia..|].
  exists (Z.log2 word). split; [|apply Z.bit_log2; lia].
  split; [apply Z.log2_nonneg|]. apply Z.log2_lt_pow2; lia.
Qed.

Lemma testbit_mask b i : 0 ≤ b → Z.testbit (Z.shiftl 1 b) i = (i =? b).
Proof.
  intros Hb. rewrite Z.shiftl_1_l, Z.pow2_bits_eqb by done. apply Z.eqb_sym.
Qed.

Lemma u64_land x y : is_u 64 x → 0 ≤ y → is_u 64 (Z.land x y).
Proof.
  intros [H0 H64] Hy. split; [apply Z.land_nonneg; lia|].
  destruct (decide (Z.land x y = 0)) as [->|Hne]; [lia|].
  pose proof (Z.land_nonneg x y) as Hn. apply Z.log2_lt_pow2; [lia|].
  pose proof (Z.log2_land x y H0 Hy). destruct (decide (x = 0)) as [->|]; [done|].
  assert (Z.log2 x < 64) by (apply Z.log2_lt_pow2; lia). lia.
Qed.

Lemma u64_lor x y : is_u 64 x → is_u 64 y → is_u 64 (Z.lor x y).
Proof.
  intros [H0 H64] [G0 G64]. split; [apply Z.lor_nonneg; lia|].
  destruct (decide (Z.lor x y = 0)) as [->|Hne]; [lia|].
  pose proof (proj2 (Z.lor_nonneg x y) (conj H0 G0)). apply Z.log2_lt_pow2; [lia|].
  rewrite Z.log2_lor by done. apply Z.max_lub_lt.
  - destruct (decide (x = 0)) as [->|]; [done|]. apply Z.log2_lt_pow2; lia.
  - destruct (decide (y = 0)) as [->|]; [done|]. apply Z.log2_lt_pow2; lia.
Qed.

Lemma u64_mask b : 0 ≤ b < 64 → is_u 64 (Z.shiftl 1 b).
Proof.
  intros Hb. rewrite Z.shiftl_1_l. split; [apply Z.pow_nonneg; lia|]. apply Z.pow_lt_mono_r; lia.
Qed.

(** Clearing and setting one bit. *)
Lemma claim_bit bm w word b j : bm !! Z.to_nat w = Some word → 0 ≤ w → 0 ≤ b < 64 → 0 ≤ j →
  free_bit (<[Z.to_nat w := Z.land word (not64 (Z.shiftl 1 b))]> bm) j =
  free_bit bm j && negb (j =? w * 64 + b).
Proof.
  intros Hw H0 Hb Hj. unfold free_bit. destruct (decide (j / 64 = w)) as [<-|Hne].
  - rewrite list_lookup_insert_eq by by eapply lookup_lt_Some. rewrite Hw.
    unfold not64. rewrite Z.land_spec, Z.lxor_spec, testbit_mask by lia.
    rewrite Z.testbit_ones_nonneg by zdiv. rewrite (proj2 (Z.ltb_lt (j mod 64) 64)) by zdiv.
    rewrite xorb_true_r. f_equal. f_equal. destruct (Z.eqb_spec (j mod 64) b), (Z.eqb_spec j (j / 64 * 64 + b)); zdiv.
  - rewrite list_lookup_insert_ne by zdiv. rewrite (proj2 (Z.eqb_neq j _)) by zdiv. by rewrite andb_true_r.
Qed.

Lemma release_bit bm i word j : bm !! Z.to_nat (i / 64) = Some word → 0 ≤ i → 0 ≤ j →
  free_bit (<[Z.to_nat (i / 64) := Z.lor word (Z.shiftl 1 (i mod 64))]> bm) j =
  free_bit bm j || (j =? i).
Proof.
  intros Hw H0 Hj. unfold free_bit. destruct (decide (j / 64 = i / 64)) as [He|Hne].
  - rewrite He, list_lookup_insert_eq by by eapply lookup_lt_Some. rewrite Hw.
    rewrite Z.lor_spec, testbit_mask by zdiv. f_equal.
    destruct (Z.eqb_spec (j mod 64) (i mod 64)), (Z.eqb_spec j i); zdiv.
  - rewrite list_lookup_insert_ne by zdiv. rewrite (proj2 (Z.eqb_neq j i)) by zdiv. by rewrite orb_false_r.
Qed.

(** ** Addresses *)

Record shape_ok (sh : Shape) : Prop := MkShapeOk {
  so_size : 0 < BLOCK_SIZE sh;
  so_max : 0 ≤ MAX_BLOCKS sh;
  so_null : 0 < arena sh;
  so_align : arena sh mod 64 = 0;
  so_end : arena sh + MAX_BLOCKS sh * stride sh ≤ 2 ^ 64;
}.

Lemma stride_ok sh : shape_ok sh → BLOCK_SIZE sh ≤ stride sh ∧ stride sh mod 64 = 0.
Proof. intros [H _ _ _ _]. unfold stride. split; [zdiv|]. by apply Z.mod_mul. Qed.

Lemma block_ptr_bounds sh i : shape_ok sh → 0 ≤ i < MAX_BLOCKS sh →
  arena sh ≤ block_ptr sh i ∧ block_ptr sh i + stride sh ≤ arena sh + MAX_BLOCKS sh * stride sh.
Proof.
  intros Hok Hi. pose proof (stride_ok sh Hok) as [Hs _]. destruct Hok as [H1 _ _ _ _].
  unfold block_ptr. nia.
Qed.

Lemma index_of_ptr sh i : shape_ok sh → 0 ≤ i < MAX_BLOCKS sh → block_index_of sh (block_ptr sh i) = i.
Proof.
  intros Hok Hi. pose proof (block_ptr_bounds sh i Hok Hi) as [H1 H2].
  pose proof (stride_ok sh Hok) as [Hs _]. destruct Hok as [H3 H4 H5 H6 H7].
  unfold block_index_of. rewrite wrap_small by (unfold block_ptr in *; nia).
  unfold block_ptr. replace (arena sh + i * stride sh - arena sh) with (i * stride sh) by lia.
  apply Z.div_mul. lia.
Qed.

(** ** The invariant *)

(** The block a thread holds. *)
Definition held (sh : Shape) (t : TPc) : list Z :=
  match t with
  | TCount i | TInUse i | TPeak i _ | TPeakCas i _ _ | TRelease i => [i]
  | TRet p => if p =? 0 then [] else [block_index_of sh p]
  | _ => []
  end.
Definition owned (sh : Shape) (s : State) : list Z :=
  (block_index_of sh <$> live s) ++ (threads s ≫= held sh).

(** A pointer to a block. *)
Definition is_block (sh : Shape) (p : Z) : Prop := ∃ i, 0 ≤ i < MAX_BLOCKS sh ∧ p = block_ptr sh i.

(** What a thread knows where it is. *)
Definition thread_ok (sh : Shape) (t : TPc) : Prop :=
  match t with
  | TLoad w => 0 ≤ w
  | TCas w word => 0 ≤ w < BITMAP_WORDS sh ∧ is_u 64 word ∧ word ≠ 0 ∧
      w * 64 + trailing_zeros word < MAX_BLOCKS sh
  | TRet p => p = 0 ∨ is_block sh p
  | TPeakCas _ n peak => peak < n
  | _ => True
  end.

(** Difference between [in_use], or the difference of the two counts, and the
    blocks owned, that a thread is responsible for. *)
Definition use_lag (t : TPc) : Z :=
  match t with TCount _ | TInUse _ => - 1 | TFreed | TSub => 1 | _ => 0 end.
Definition count_lag (t : TPc) : Z :=
  match t with TCount _ => - 1 | TFreed => 1 | _ => 0 end.
(** A value a thread is about to put into the high-water mark. *)
Definition rising (t : TPc) : option Z :=
  match t with TPeak _ n | TPeakCas _ n _ => Some n | _ => None end.

Record inv (sh : Shape) (s : State) : Prop := MkInv {
  iv_words : len (bitmap (alloc_of s)) = BITMAP_WORDS sh ∧ Forall (is_u 64) (bitmap (alloc_of s));
  iv_free : ∀ i, 0 ≤ i < MAX_BLOCKS sh → free_bit (bitmap (alloc_of s)) i = true ↔ i ∉ owned sh s;
  iv_owned : NoDup (owned sh s) ∧ Forall (λ i, 0 ≤ i < MAX_BLOCKS sh) (owned sh s);
  iv_live : Forall (is_block sh) (live s);
  iv_threads : Forall (thread_ok sh) (threads s);
  iv_use : in_use (alloc_of s) = len (owned sh s) + sum_of use_lag (threads s);
  iv_counts : wrap 64 (alloc_count (alloc_of s) - dealloc_count (alloc_of s)) =
    wrap 64 (len (owned sh s) + sum_of count_lag (threads s));
  iv_peak : (in_use (alloc_of s) ≤ peak_in_use (alloc_of s) ∨
      ∃ t n, t ∈ threads s ∧ rising t = Some n ∧ in_use (alloc_of s) ≤ n) ∧
    peak_in_use (alloc_of s) ≤ MAX_BLOCKS sh + len (threads s) ∧
    ∀ t n, t ∈ threads s → rising t = Some n → n ≤ MAX_BLOCKS sh + len (threads s);
}.

Lemma NoDup_range (l : list Z) m : NoDup l → Forall (λ i, 0 ≤ i < m) l → len l ≤ m ∨ l = [].
Proof.
  intros Hn Hf. destruct (decide (0 ≤ m)) as [Hm|Hm].
  - left. assert (l ⊆ seqZ 0 m) as Hsub.
    { intros i Hi. rewrite Forall_forall in Hf. specialize (Hf i Hi). apply elem_of_seqZ. lia. }
    apply (submseteq_length l (seqZ 0 m)) in Hsub || (apply NoDup_submseteq in Hsub; [|done]; apply submseteq_length in Hsub).
    rewrite length_seqZ in Hsub. unfold len. lia.
  - right. destruct l as [|i l]; [done|]. apply Forall_cons in Hf as [? _]. lia.
Qed.

Lemma owned_bound sh s : shape_ok sh → inv sh s → len (owned sh s) ≤ MAX_BLOCKS sh.
Proof.
  intros Hok Hi. destruct (iv_owned sh s Hi) as [H1 H2]. destruct (NoDup_range _ _ H1 H2) as [H| ->]; [done|].
  apply so_max in Hok. done.
Qed.

(** [in_use] never wraps: without the share of one thread it is between what
    the thread holds and the blocks and the other threads. *)
Lemma use_mid sh s t pc : shape_ok sh → inv sh s → threads s !! t = Some pc →
  len (held sh pc) ≤ in_use (alloc_of s) - use_lag pc ≤ MAX_BLOCKS sh + len (threads s) - 1.
Proof.
  intros Hok Hi Ht. rewrite (iv_use sh s Hi). pose proof (owned_bound sh s Hok Hi).
  destruct (lookup_split _ _ _ Ht) as (l1 & l2 & El & _). unfold owned in *.
  rewrite El, len_app in *. rewrite sum_of_mid. rewrite <-sum_of_len, sum_of_mid in *. split.
  - assert (sum_of (λ t, - len (held sh t)) (l1 ++ l2) ≤ sum_of use_lag (l1 ++ l2)) as Hle.
    { apply sum_of_le. intros u. destruct u; cbn; unfold len; try destruct (_ =? _); cbn; lia. }
    assert (∀ l, sum_of (λ t, - len (held sh t)) l = - sum_of (λ t, len (held sh t)) l) as Hneg.
    { intros l. induction l as [|u l IH]; simpl; lia. }
    rewrite Hneg in Hle. pose proof (len_nonneg (block_index_of sh <$> live s)). lia.
  - assert (sum_of use_lag (l1 ++ l2) ≤ sum_of (λ _, 1) (l1 ++ l2)) as Hle.
    { apply sum_of_le. intros u. destruct u; cbn; lia. }
    rewrite sum_of_const in Hle. unfold len in *. rewrite !length_app in *. cbn [length] in *. lia.
Qed.

(** ** Steps preserve it *)

(** The general case: one thread moves from [pc] to [pc']. *)
Lemma inv_change sh s t pc pc' s' : inv sh s → threads s !! t = Some pc →
  threads s' = <[t := pc']> (threads s) →
  len (bitmap (alloc_of s')) = BITMAP_WORDS sh ∧ Forall (is_u 64) (bitmap (alloc_of s')) →
  (∀ i, 0 ≤ i < MAX_BLOCKS sh → free_bit (bitmap (alloc_of s')) i = true ↔ i ∉ owned sh s') →
  NoDup (owned sh s') ∧ Forall (λ i, 0 ≤ i < MAX_BLOCKS sh) (owned sh s') →
  Forall (is_block sh) (live s') → thread_ok sh pc' →
  in_use (alloc_of s') = in_use (alloc_of s) + (len (owned sh s') - len (owned sh s)) + use_lag pc' - use_lag pc →
  wrap 64 (alloc_count (alloc_of s') - dealloc_count (alloc_of s')) =
    wrap 64 (alloc_count (alloc_of s) - dealloc_count (alloc_of s) +
      (len (owned sh s') - len (owned sh s) + count_lag pc' - count_lag pc)) →
  (in_use (alloc_of s') ≤ in_use (alloc_of s) ∨ rising pc' = Some (in_use (alloc_of s'))) →
  (∀ n, rising pc = Some n → rising pc' = Some n ∨ n ≤ peak_in_use (alloc_of s')) →
  (∀ n, rising pc' = Some n → n ≤ MAX_BLOCKS sh + len (threads s)) →
  peak_in_use (alloc_of s) ≤ peak_in_use (alloc_of s') ≤ MAX_BLOCKS sh + len (threads s) →
  inv sh s'.
Proof.
  intros [I1 I2 I3 I4 I5 I6 I7 (I8 & I9 & I10)] Ht E H1 H2 H3 H4 H5 H6 H7 H8 H9 H10 H11.
  destruct (lookup_split _ _ _ Ht) as (l1 & l2 & El & El').
  assert (len (threads s') = len (threads s)) as Hlen by (rewrite E; unfold len; by rewrite length_insert).
  assert (∀ u, u ∈ threads s' ↔ u = pc' ∨ u ∈ l1 ++ l2) as Hin.
  { intros u. rewrite E, El'. set_solver. }
  assert (∀ u, u ∈ threads s ↔ u = pc ∨ u ∈ l1 ++ l2) as Hin0.
  { intros u. rewrite El. set_solver. }
  split; try done.
  - rewrite E, El', Forall_app, Forall_cons. rewrite El, Forall_app, Forall_cons in I5. naive_solver.
  - rewrite H6, I6, E, El', El, !sum_of_mid. lia.
  - rewrite H7. unfold wrap in *. rewrite <-Zplus_mod_idemp_l, I7, Zplus_mod_idemp_l. f_equal.
    rewrite E, El', El, !sum_of_mid. lia.
  - rewrite Hlen. split_and!; [|lia|].
    + destruct H8 as [H8|H8].
      * destruct I8 as [I8|(u & n & Hu & Hr & Hn)]; [left; lia|]. apply Hin0 in Hu as [->|Hu].
        -- destruct (H9 n Hr) as [Hr'|Hr']; [|left; lia]. right. exists pc', n. split_and!; [|done|lia].
           apply Hin. by left.
        -- right. exists u, n. split_and!; [|done|lia]. apply Hin. by right.
      * right. eexists pc', _. split_and!; [|exact H8|lia]. apply Hin. by left.
    + intros u n Hu Hr. apply Hin in Hu as [->|Hu]; [by apply H10|]. apply (I10 u n); [|done].
      apply Hin0. by right.
Qed.

(** Blocks owned around the thread that moves. *)
Lemma owned_split sh s t pc : threads s !! t = Some pc → ∃ rest,
  owned sh s ≡ₚ held sh pc ++ rest ∧
  ∀ pc' a, owned sh (MkState a (<[t := pc']> (threads s)) (live s)) ≡ₚ held sh pc' ++ rest.
Proof.
  intros Ht. destruct (lookup_split _ _ _ Ht) as (l1 & l2 & El & El').
  exists ((block_index_of sh <$> live s) ++ ((l1 ++ l2) ≫= held sh)). unfold owned. cbn [threads live]. split.
  - rewrite El, bind_mid. solve_Permutation.
  - intros pc' a. rewrite El', bind_mid. solve_Permutation.
Qed.

(** A step that leaves the blocks with their owners. *)
Lemma inv_keep sh s t pc pc' s' : inv sh s → threads s !! t = Some pc →
  threads s' = <[t := pc']> (threads s) → owned sh s' ≡ₚ owned sh s →
  bitmap (alloc_of s') = bitmap (alloc_of s) →
  Forall (is_block sh) (live s') → thread_ok sh pc' →
  in_use (alloc_of s') = in_use (alloc_of s) + use_lag pc' - use_lag pc →
  wrap 64 (alloc_count (alloc_of s') - dealloc_count (alloc_of s')) =
    wrap 64 (alloc_count (alloc_of s) - dealloc_count (alloc_of s) + (count_lag pc' - count_lag pc)) →
  (in_use (alloc_of s') ≤ in_use (alloc_of s) ∨ rising pc' = Some (in_use (alloc_of s'))) →
  (∀ n, rising pc = Some n → rising pc' = Some n ∨ n ≤ peak_in_use (alloc_of s')) →
  (∀ n, rising pc' = Some n → n ≤ MAX_BLOCKS sh + len (threads s)) →
  peak_in_use (alloc_of s) ≤ peak_in_use (alloc_of s') ≤ MAX_BLOCKS sh + len (threads s) →
  inv sh s'.
Proof.
  intros Hi Ht E Ho Hb H1 H2 H3 H4 H5 H6 H7 H8. pose proof Hi as [I1 I2 I3 I4 I5 I6 I7 I8].
  assert (len (owned sh s') = len (owned sh s)) as Hl by (unfold len; by rewrite Ho).
  eapply (inv_change sh s t pc pc' s'); try done; rewrite ?Hb; try done.
  - intros i Hr. by rewrite Ho, I2.
  - by rewrite Ho.
  - rewrite H3, Hl. lia.
  - rewrite H4, Hl. f_equal. lia.
Qed.

Lemma peak_loop_held sh i n pk : shape_ok sh → 0 ≤ i < MAX_BLOCKS sh → held sh (peak_loop sh i n pk) = [i].
Proof.
  intros Hok Hi. unfold peak_loop. destruct (_ <? _); [done|]. cbn.
  pose proof (block_ptr_bounds sh i Hok Hi). apply so_null in Hok as Hn.
  rewrite (proj2 (Z.eqb_neq _ _)) by lia. by rewrite index_of_ptr.
Qed.

Lemma word_lookup sh s w : inv sh s → 0 ≤ w < BITMAP_WORDS sh →
  ∃ word, bitmap (alloc_of s) !! Z.to_nat w = Some word ∧ is_u 64 word.
Proof.
  intros Hi Hw. destruct (iv_words sh s Hi) as [Hl Hf]. unfold len in Hl.
  destruct (lookup_lt_is_Some_2 (bitmap (alloc_of s)) (Z.to_nat w)) as [word Hword]; [lia|].
  exists word. split; [done|]. by eapply Forall_lookup_1 in Hf.
Qed.

Section step.
Context (sh : Shape) (s : State) (t : nat) (Hok : shape_ok sh) (Hi : inv sh s).
Context (Hsmall : MAX_BLOCKS sh + len (threads s) < 2 ^ 64).

Let next (pc : TPc) (a : BoundedAllocator) : State := MkState a (<[t := pc]> (threads s)) (live s).

(** Steps that change neither the bitmap nor a counter. *)
Lemma alloc_inv_quiet pc pc' : threads s !! t = Some pc → held sh pc' = held sh pc → thread_ok sh pc' →
  use_lag pc' = use_lag pc → count_lag pc' = count_lag pc →
  (∀ n, rising pc = Some n → rising pc' = Some n ∨ n ≤ peak_in_use (alloc_of s)) →
  (∀ n, rising pc' = Some n → rising pc = Some n) → inv sh (next pc' (alloc_of s)).
Proof.
  intros Ht Hh Hk E1 E2 H1 H2. pose proof Hi as [I1 I2 I3 I4 I5 I6 I7 (I8 & I9 & I10)].
  destruct (owned_split sh s t pc Ht) as (rest & O1 & O2).
  unfold next. eapply (inv_keep sh s t pc pc'); try done; cbn [alloc_of].
  - by rewrite O2, O1, Hh.
  - lia.
  - f_equal. lia.
  - by left.
  - intros n Hn. apply (I10 pc n); [by eapply list_elem_of_lookup_2|by apply H2].
Qed.

Lemma claim_inv w word : threads s !! t = Some (TCas w word) →
  bitmap (alloc_of s) !! Z.to_nat w = Some word →
  let i := w * 64 + trailing_zeros word in
  inv sh (next (TCount i) (set_bitmap (alloc_of s)
    (<[Z.to_nat w := Z.land word (not64 (Z.shiftl 1 (trailing_zeros word)))]> (bitmap (alloc_of s))))).
Proof.
  intros Ht Hw i. pose proof Hi as [I1 I2 I3 I4 I5 I6 I7 (I8 & I9 & I10)].
  assert (thread_ok sh (TCas w word)) as (Hw0 & Hu & Hne & Hmax) by (by eapply Forall_lookup_1 in I5).
  destruct (trailing_zeros_spec word Hu Hne) as (Hb & Hset & _). fold i in Hmax.
  assert (0 ≤ i < MAX_BLOCKS sh) as Hr by lia.
  assert (i ∉ owned sh s) as Hfree.
  { apply I2; [done|]. unfold free_bit. replace (i / 64) with w by (unfold i; zdiv).
    rewrite Hw. replace (i mod 64) with (trailing_zeros word) by (unfold i; zdiv). done. }
  destruct (owned_split sh s t _ Ht) as (rest & O1 & O2). cbn [held app] in O1.
  set (s' := next _ _). assert (owned sh s' ≡ₚ i :: owned sh s) as Ho by (unfold s', next; by rewrite O2, O1).
  assert (len (owned sh s') = len (owned sh s) + 1) as Hl by (unfold len; rewrite Ho; cbn; lia).
  eapply (inv_change sh s t (TCas w word) (TCount i) s'); try done; cbn [alloc_of s' next set_bitmap bitmap in_use alloc_count dealloc_count peak_in_use].
  - destruct I1 as [I1 I1']. split; [unfold len; by rewrite length_insert|].
    apply Forall_insert; [done|]. apply u64_land; [done|]. unfold not64. apply Z.lxor_nonneg.
    split; intros _; [done|]. by apply u64_mask.
  - intros j Hj. rewrite claim_bit by (done || lia). rewrite andb_true_iff, negb_true_iff, Z.eqb_neq, I2 by done.
    fold i. rewrite Ho. set_solver.
  - rewrite Ho. destruct I3 as [I3 I3']. split; [by apply NoDup_cons|by apply Forall_cons].
  - rewrite Hl. cbn. lia.
  - rewrite Hl. f_equal. cbn. lia.
  - by left.
Qed.

Lemma release_inv i : threads s !! t = Some (TRelease i) →
  ∃ word, bitmap (alloc_of s) !! Z.to_nat (i / 64) = Some word ∧
  inv sh (next TFreed (set_bitmap (alloc_of s)
    (<[Z.to_nat (i / 64) := Z.lor word (Z.shiftl 1 (i mod 64))]> (bitmap (alloc_of s))))).
Proof.
  intros Ht. pose proof Hi as [I1 I2 I3 I4 I5 I6 I7 (I8 & I9 & I10)].
  destruct (owned_split sh s t _ Ht) as (rest & O1 & O2). cbn [held app] in O1.
  destruct I3 as [I3 I3']. rewrite O1 in I3, I3'. apply NoDup_cons in I3 as [Hn I3].
  apply Forall_cons in I3' as [Hr I3'].
  destruct (word_lookup sh s (i / 64) Hi) as (word & Hw & Hu); [unfold BITMAP_WORDS; zdiv|].
  exists word. split; [done|].
  set (s' := next _ _). assert (owned sh s' ≡ₚ rest) as Ho by (unfold s', next; by rewrite O2).
  assert (len (owned sh s) = len (owned sh s') + 1) as Hl by (unfold len; rewrite Ho, O1; cbn; lia).
  eapply (inv_change sh s t (TRelease i) TFreed s'); try done; cbn [alloc_of s' next set_bitmap bitmap in_use alloc_count dealloc_count peak_in_use].
  - destruct I1 as [I1 I1']. split; [unfold len; by rewrite length_insert|].
    apply Forall_insert; [done|]. apply u64_lor; [done|]. apply u64_mask. zdiv.
  - intros j Hj. rewrite release_bit by (done || lia). rewrite orb_true_iff, Z.eqb_eq, I2 by done.
    rewrite Ho, O1. destruct (decide (j = i)) as [->|]; set_solver.
  - by rewrite Ho.
  - rewrite Hl. cbn. lia.
  - rewrite Hl. f_equal. cbn. lia.
  - by left.
Qed.

(** Only an [alloc] that finds the allocator locked panics. *)
Definition locked_alloc (pc : TPc) : Prop :=
  locked (alloc_of s) = true ∧ ∃ size align, pc = TCheck size align.

Lemma held_owned pc i : threads s !! t = Some pc → i ∈ held sh pc → 0 ≤ i < MAX_BLOCKS sh.
Proof.
  intros Ht Hh. destruct (iv_owned sh s Hi) as [_ Hf]. rewrite Forall_forall in Hf. apply Hf.
  unfold owned. apply elem_of_app. right. apply list_elem_of_bind. exists pc. split; [done|].
  by eapply list_elem_of_lookup_2.
Qed.

(** The loop on the high-water mark, after it has been read. *)
Lemma peak_loop_inv pc i n : threads s !! t = Some pc → held sh pc = [i] → rising pc = Some n →
  use_lag pc = 0 → count_lag pc = 0 → inv sh (next (peak_loop sh i n (peak_in_use (alloc_of s))) (alloc_of s)).
Proof.
  intros Ht Hh Hr E1 E2. assert (0 ≤ i < MAX_BLOCKS sh) as Hi' by (eapply held_owned; [done|rewrite Hh; set_solver]).
  eapply alloc_inv_quiet; [done|by rewrite peak_loop_held|..]; unfold peak_loop;
    destruct (Z.ltb_spec (peak_in_use (alloc_of s)) n) as [Hlt|Hge]; cbn; try done.
  - right. by exists i.
  - intros m Hm. left. congruence.
  - intros m Hm. right. congruence.
  - intros m [= <-]. done.
Qed.

Lemma thread_inv fail pc r : threads s !! t = Some pc → thread_step sh fail pc (alloc_of s) = Some r →
  (r = Panic ∧ locked_alloc pc) ∨ ∃ pc' a, r = Ok (pc', a) ∧ inv sh (next pc' a).
Proof.
  intros Ht H. pose proof Hi as [I1 I2 I3 I4 I5 I6 I7 (I8 & I9 & I10)].
  assert (thread_ok sh pc) as Hk by (by eapply Forall_lookup_1 in I5).
  pose proof (use_mid sh s t pc Hok Hi Ht) as Hub.
  destruct (owned_split sh s t _ Ht) as (rest & O1 & O2).
  destruct pc; cbn [thread_step] in H; unfold claim_load, claim_cas in H; try done; injection H as <-.
  - destruct (locked (alloc_of s)) eqn:El; [left; split; [done|]; split; [done|by eexists _, _]|right].
    destruct (_ <? _); [|destruct (_ <? _)]; (eexists _, _; split; [reflexivity|]; eapply alloc_inv_quiet; try done).
    + by left.
    + by left.
  - right. cbn in Hk. destruct (Z.leb_spec (BITMAP_WORDS sh) word_idx).
    { eexists _, _. split; [reflexivity|]. eapply alloc_inv_quiet; try done. by left. }
    destruct (word_lookup sh s word_idx Hi) as (word & Hw & Hu); [lia|]. rewrite Hw. cbn [expect mbind res_bind].
    destruct (Z.eqb_spec word 0).
    { eexists _, _. split; [reflexivity|]. eapply alloc_inv_quiet; try done. cbn. lia. }
    destruct (Z.leb_spec (MAX_BLOCKS sh) (word_idx * 64 + trailing_zeros word)).
    { eexists _, _. split; [reflexivity|]. eapply alloc_inv_quiet; try done. cbn. lia. }
    eexists _, _. split; [reflexivity|]. eapply alloc_inv_quiet; try done.
  - right. destruct Hk as (Hw & Hu & Hne & Hmax). destruct (word_lookup sh s word_idx Hi Hw) as (cur & Hc & _).
    rewrite Hc. cbn [expect mbind res_bind]. destruct (Z.eqb_spec cur word) as [->|].
    + eexists _, _. split; [reflexivity|]. by apply claim_inv.
    + eexists _, _. split; [reflexivity|]. eapply alloc_inv_quiet; try done. cbn. lia.
  - right. assert (0 ≤ block_idx < MAX_BLOCKS sh) as Hr by (eapply held_owned; [done|set_solver]).
    destruct (Z.leb_spec (MAX_BLOCKS sh) block_idx); [lia|]. eexists _, _. split; [reflexivity|].
    unfold next. eapply inv_keep; try done; cbn [alloc_of set_counts in_use alloc_count dealloc_count peak_in_use].
    + by rewrite O2, O1.
    + cbn. lia.
    + unfold wrap. rewrite Zminus_mod_idemp_l. f_equal. cbn. lia.
    + by left.
  - right. eexists _, _. split; [reflexivity|]. cbn [use_lag held] in Hub.
    rewrite wrap_small by (unfold len in *; cbn in *; lia).
    unfold next. eapply inv_keep; try done; cbn [alloc_of set_in_use in_use alloc_count dealloc_count peak_in_use].
    + by rewrite O2, O1.
    + cbn. lia.
    + f_equal. cbn. lia.
    + by right.
    + intros n [= <-]. lia.
  - right. eexists _, _. split; [reflexivity|]. by eapply peak_loop_inv.
  - right. destruct (fail || negb (peak_in_use (alloc_of s) =? peak)) eqn:Ef.
    { eexists _, _. split; [reflexivity|]. by eapply peak_loop_inv. }
    apply orb_false_iff in Ef as [_ Ef]. apply negb_false_iff, Z.eqb_eq in Ef.
    assert (0 ≤ block_idx < MAX_BLOCKS sh) as Hr by (eapply held_owned; [done|set_solver]).
    cbn in Hk. assert (in_use_after ≤ MAX_BLOCKS sh + len (threads s)) as Hn
      by (eapply I10; [by eapply list_elem_of_lookup_2|done]).
    eexists _, _. split; [reflexivity|].
    unfold next. eapply inv_keep; try done; cbn [alloc_of set_peak in_use alloc_count dealloc_count peak_in_use].
    + pose proof (peak_loop_held sh block_idx 0 0 Hok Hr) as Hh. change (held sh (TRet (block_ptr sh block_idx)) = [block_idx]) in Hh.
      by rewrite O2, O1, Hh.
    + right. by exists block_idx.
    + cbn. lia.
    + f_equal. cbn. lia.
    + by left.
    + intros n [= <-]. by right.
    + lia.
  - right. destruct (release_inv block_idx Ht) as (word & Hw & Hinv). unfold release_block. rewrite Hw.
    apply lookup_lt_Some in Hw as Hlt. assert (0 ≤ block_idx) by (apply (held_owned (TRelease block_idx)); [done|set_solver]).
    rewrite (proj2 (Z.leb_gt _ _)) by (unfold len; zdiv). cbn [expect mbind res_bind].
    eexists _, _. split; [reflexivity|]. exact Hinv.
  - right. eexists _, _. split; [reflexivity|].
    unfold next. eapply inv_keep; try done; cbn [alloc_of set_counts in_use alloc_count dealloc_count peak_in_use].
    + by rewrite O2, O1.
    + cbn. lia.
    + unfold wrap. rewrite Zminus_mod_idemp_r. f_equal. cbn. lia.
    + by left.
  - right. eexists _, _. split; [reflexivity|]. cbn [use_lag held] in Hub.
    rewrite wrap_small by (unfold len in *; cbn in *; lia).
    unfold next. eapply inv_keep; try done; cbn [alloc_of set_in_use in_use alloc_count dealloc_count peak_in_use].
    + by rewrite O2, O1.
    + cbn. lia.
    + f_equal. cbn. lia.
    + left. lia.
Qed.
End step.

Lemma remove_perm (l : list Z) p : NoDup l → p ∈ l → l ≡ₚ p :: filter (λ q, q ≠ p) l.
Proof.
  intros Hn Hp. apply NoDup_Permutation; [done|apply NoDup_cons; split; [|by apply NoDup_filter]|].
  - rewrite list_elem_of_filter. naive_solver.
  - intros q. rewrite elem_of_cons, list_elem_of_filter. destruct (decide (q = p)); naive_solver.
Qed.

Lemma live_NoDup sh s : inv sh s → NoDup (live s).
Proof.
  intros Hi. destruct (iv_owned sh s Hi) as [Hn _]. unfold owned in Hn. apply NoDup_app in Hn as [Hn _].
  by apply NoDup_fmap_1 in Hn.
Qed.

Lemma free_inv sh s t ptr : shape_ok sh → inv sh s → threads s !! t = Some TIdle → ptr ∈ live s →
  inv sh (MkState (alloc_of s) (<[t := TRelease (block_index_of sh ptr)]> (threads s)) (filter (λ q, q ≠ ptr) (live s))).
Proof.
  intros Hok Hi Ht Hp. pose proof Hi as [I1 I2 I3 I4 I5 I6 I7 (I8 & I9 & I10)].
  eapply (inv_keep sh s t TIdle); try done; cbn [alloc_of live].
  - unfold owned. cbn [live threads]. destruct (lookup_split _ _ _ Ht) as (l1 & l2 & El & El').
    rewrite El', El, !bind_mid. cbn [held app].
    rewrite (remove_perm (live s) ptr (live_NoDup sh s Hi) Hp) at 2. cbn. solve_Permutation.
  - rewrite Forall_forall in *. intros q Hq. apply I4. by apply list_elem_of_filter in Hq as [_ Hq].
  - cbn. lia.
  - f_equal. cbn. lia.
  - by left.
Qed.

Lemma return_inv sh s t ptr : shape_ok sh → inv sh s → threads s !! t = Some (TRet ptr) →
  inv sh (MkState (alloc_of s) (<[t := TIdle]> (threads s)) (if ptr =? 0 then live s else ptr :: live s)).
Proof.
  intros Hok Hi Ht. pose proof Hi as [I1 I2 I3 I4 I5 I6 I7 (I8 & I9 & I10)].
  assert (thread_ok sh (TRet ptr)) as Hk by (by eapply Forall_lookup_1 in I5).
  eapply (inv_keep sh s t (TRet ptr)); try done; cbn [alloc_of live].
  - unfold owned. cbn [live threads]. destruct (lookup_split _ _ _ Ht) as (l1 & l2 & El & El').
    rewrite El', El, !bind_mid. cbn [held app]. destruct (ptr =? 0); cbn; solve_Permutation.
  - destruct (Z.eqb_spec ptr 0); [done|]. apply Forall_cons. split; [|done]. by destruct Hk.
  - cbn. lia.
  - f_equal. cbn. lia.
  - by left.
Qed.

Lemma alloc_step_inv sh s act r : shape_ok sh → inv sh s → MAX_BLOCKS sh + len (threads s) < 2 ^ 64 →
  step_of sh act s = Some r →
  (r = Panic ∧ ∃ t fail pc, act = AStep t fail ∧ threads s !! t = Some pc ∧ locked_alloc s pc) ∨
  ∃ s', r = Ok s' ∧ inv sh s' ∧ length (threads s') = length (threads s).
Proof.
  intros Hok Hi Hs H. destruct act as [t size align|t ptr|t fail|t|]; cbn [step_of] in H.
  - case_bool_decide as Ht; [|done]. injection H as <-. right. eexists. split_and!; [done| |cbn; by rewrite length_insert].
    eapply (alloc_inv_quiet sh s t Hi TIdle); done.
  - case_bool_decide as Ht; [|done]. destruct Ht as [Ht Hp]. injection H as <-. right.
    eexists. split_and!; [done|by apply free_inv|cbn; by rewrite length_insert].
  - destruct (threads s !! t) as [pc|] eqn:Ht; [|done].
    destruct (thread_step sh fail pc (alloc_of s)) as [r'|] eqn:E; [|done]. injection H as <-.
    destruct (thread_inv sh s t Hok Hi Hs fail pc r' Ht E) as [[-> Hl]|(pc' & a & -> & Hinv)].
    + left. split; [done|]. by exists t, fail, pc.
    + right. eexists. split_and!; [done|exact Hinv|cbn; by rewrite length_insert].
  - destruct (threads s !! t) as [[]|] eqn:Ht; try done. injection H as <-. right.
    eexists. split_and!; [done|by apply return_inv|cbn; by rewrite length_insert].
  - injection H as <-. right. eexists. split_and!; [done| |done]. destruct Hi as [I1 I2 I3 I4 I5 I6 I7 I8]. by split.
Qed.

Lemma free_new sh i : 0 ≤ i < MAX_BLOCKS sh → free_bit (bitmap (alloc_new sh)) i = true.
Proof.
  intros Hi. unfold free_bit, alloc_new. cbn [bitmap].
  rewrite lookup_replicate_2 by (unfold BITMAP_WORDS; zdiv).
  replace (2 ^ 64 - 1) with (Z.ones 64) by done. rewrite Z.testbit_ones_nonneg by zdiv. apply Z.ltb_lt. zdiv.
Qed.

Lemma inv_init sh n : shape_ok sh → inv sh (init sh n).
Proof.
  intros Hok. apply so_max in Hok as Hm.
  assert (owned sh (init sh n) = []) as Ho.
  { unfold owned. cbn. induction n as [|n IH]; [done|]. cbn [replicate]. by rewrite bind_cons. }
  assert (∀ f, f TIdle = 0 → sum_of f (replicate n TIdle) = 0) as Hsum.
  { intros f Hf. apply sum_of_zero, Forall_forall. intros x Hx. by apply elem_of_replicate in Hx as [-> _]. }
  assert (∀ t, t ∈ replicate n TIdle → t = TIdle) as Hidle by (intros t Ht; by apply elem_of_replicate in Ht as [-> _]).
  split; rewrite ?Ho; cbn [init alloc_of threads live].
  - unfold alloc_new. cbn [bitmap]. split.
    + unfold len. rewrite length_replicate. unfold BITMAP_WORDS. zdiv.
    + apply Forall_forall. intros w Hw. apply elem_of_replicate in Hw as [-> _]. split; vm_compute; congruence.
  - intros i Hi. split; [set_solver|]. intros _. by apply free_new.
  - split; [apply NoDup_nil_2|done].
  - done.
  - apply Forall_forall. intros t Ht%Hidle. by subst.
  - by rewrite Hsum.
  - by rewrite Hsum.
  - split_and!; [by left| |].
    + cbn. pose proof (len_nonneg (replicate n TIdle)). lia.
    + intros t m Ht%Hidle. by subst.
Qed.

Section reach.
(** An arena that fits the address space, and as many threads as the counters can
    tell apart. *)
Context (sh : Shape) (n : nat) (Hok : shape_ok sh) (Hsmall : MAX_BLOCKS sh + Z.of_nat n < 2 ^ 64).

Lemma reach_inv s : reachable sh n s → inv sh s ∧ length (threads s) = n.
Proof.
  intros H. assert (inv sh (init sh n) ∧ length (threads (init sh n)) = n) as H0.
  { split; [by apply inv_init|]. apply length_replicate. }
  unfold reachable in H. induction H as [s|s1 s2 s3 [act Ha] _ IH]; [done|]. apply IH. destruct H0 as [Hi Hl].
  assert (MAX_BLOCKS sh + len (threads s1) < 2 ^ 64) as Hs by (unfold len; lia).
  destruct (alloc_step_inv sh s1 act _ Hok Hi Hs Ha) as [[? _]|(s' & [= <-] & ? & ?)];
    [done|split; [done|congruence]].
Qed.

(** C12. Blocks are exclusive.  In every reachable state the live pointers are
    distinct, at most [MAX_BLOCKS], aligned to 64 and inside the arena, and the
    regions of [BLOCK_SIZE] bytes behind them do not overlap, whatever the
    interleaving of allocations and frees.  No step panics except an [alloc] that
    finds the allocator locked. *)
Theorem blocks_exclusive s : reachable sh n s →
  NoDup (live s) ∧ len (live s) ≤ MAX_BLOCKS sh ∧
  (∀ p, p ∈ live s → p mod 64 = 0 ∧ arena sh ≤ p ∧ p + BLOCK_SIZE sh ≤ arena sh + MAX_BLOCKS sh * stride sh) ∧
  (∀ p q, p ∈ live s → q ∈ live s → p < q → p + BLOCK_SIZE sh ≤ q) ∧
  (∀ act, step_of sh act s = Some Panic → locked (alloc_of s) = true ∧
     ∃ t fail size align, act = AStep t fail ∧ threads s !! t = Some (TCheck size align)).
Proof.
  intros Hr. destruct (reach_inv s Hr) as [Hi Hl]. pose proof (stride_ok sh Hok) as [Hs1 Hs2].
  pose proof (so_size sh Hok). pose proof (iv_live sh s Hi) as Hb. rewrite Forall_forall in Hb. split_and!.
  - by eapply live_NoDup.
  - pose proof (owned_bound sh s Hok Hi) as Ho. unfold owned in Ho. rewrite len_app in Ho.
    pose proof (len_nonneg (threads s ≫= held sh)). unfold len in *. rewrite length_fmap in Ho. lia.
  - intros p (i & Hi' & ->)%Hb. pose proof (block_ptr_bounds sh i Hok Hi'). split_and!; [|lia..].
    unfold block_ptr. rewrite Z.add_mod, (so_align sh Hok), Z.mul_mod, Hs2 by lia. by rewrite Z.mul_0_r.
  - intros p q (i & Hi' & ->)%Hb (j & Hj & ->)%Hb Hlt. unfold block_ptr in *.
    assert (i < j) by nia. nia.
  - intros act H'. assert (MAX_BLOCKS sh + len (threads s) < 2 ^ 64) as Hs by (unfold len; lia).
    destruct (alloc_step_inv sh s act _ Hok Hi Hs H')
      as [[_ (t & fail & pc & -> & Ht & Hlk & size & align & ->)]|(s' & ? & _)]; [|done].
    split; [done|]. by exists t, fail, size, align.
Qed.

(** The counters settle.  Whenever no thread is inside the allocator,
    [live_blocks] is the number of live pointers, the counts of allocations and
    frees differ by it, and the high-water mark is at least that and at most the
    blocks and the threads together. *)
Theorem counters_settle s : reachable sh n s → Forall (λ t, t = TIdle) (threads s) →
  in_use (alloc_of s) = len (live s) ∧
  wrap 64 (alloc_count (alloc_of s) - dealloc_count (alloc_of s)) = len (live s) ∧
  len (live s) ≤ peak_in_use (alloc_of s) ≤ MAX_BLOCKS sh + Z.of_nat n.
Proof.
  intros Hr Hidle. destruct (reach_inv s Hr) as [Hi Hl]. pose proof Hi as [I1 I2 I3 I4 I5 I6 I7 (I8 & I9 & I10)].
  pose proof (owned_bound sh s Hok Hi) as Hb.
  assert (∀ f, f TIdle = 0 → sum_of f (threads s) = 0) as Hsum.
  { intros f Hf. apply sum_of_zero. eapply Forall_impl; [exact Hidle|]. by intros t ->. }
  assert (threads s ≫= held sh = []) as Hh.
  { clear -Hidle. induction Hidle as [|t ts -> _ IH]; [done|]. rewrite bind_cons. exact IH. }
  assert (len (owned sh s) = len (live s)) as Ho.
  { unfold owned, len. by rewrite Hh, app_nil_r, length_fmap. }
  rewrite Ho, Hsum, Z.add_0_r in * by done. pose proof (len_nonneg (live s)). split_and!.
  - done.
  - rewrite I7. apply wrap_small. lia.
  - destruct I8 as [I8|(t & m & Ht & Hm & _)]; [lia|]. rewrite Forall_forall in Hidle. by rewrite (Hidle t Ht) in Hm.
  - unfold len in I9. lia.
Qed.
End reach.

(** ** One allocation on its own *)

(** A thread that is not disturbed, from [pc] to its return. *)
Fixpoint run_alone (sh : Shape) (fuel : nat) (pc : TPc) (a : BoundedAllocator) : option (res (Z * BoundedAllocator)) :=
  match pc with
  | TRet p => Some (Ok (p, a))
  | _ =>
      match fuel with
      | O => None
      | S fuel =>
          match thread_step sh false pc a with
          | Some (Ok (pc, a)) => run_alone sh fuel pc a
          | Some Panic => Some Panic
          | None => None
          end
      end
  end.

Lemma run_step sh fuel pc a pc' a' : thread_step sh false pc a = Some (Ok (pc', a')) →
  run_alone sh (S fuel) pc a = run_alone sh fuel pc' a'.
Proof. intros H. cbn [run_alone]. rewrite H. by destruct pc. Qed.

(** From a claimed block on, five more steps. *)
Lemma run_claimed sh fuel i a : 0 ≤ i < MAX_BLOCKS sh → (5 ≤ fuel)%nat →
  ∃ a', run_alone sh fuel (TCount i) a = Some (Ok (block_ptr sh i, a')).
Proof.
  intros Hi Hf. destruct fuel as [|[|[|[|[|fuel]]]]]; [lia..|].
  erewrite run_step by (cbn; by rewrite (proj2 (Z.leb_gt _ _)) by lia).
  erewrite run_step by reflexivity. erewrite run_step by reflexivity.
  set (b := set_in_use _ _). set (m := wrap 64 _). unfold peak_loop.
  destruct (peak_in_use b <? m); [|by eexists].
  erewrite run_step by (cbn [thread_step]; rewrite Z.eqb_refl; reflexivity). destruct fuel; by eexists.
Qed.

(** The blocks of a word. *)
Lemma word_blocks sh s w word j : inv sh s → bitmap (alloc_of s) !! Z.to_nat w = Some word →
  w * 64 ≤ j < w * 64 + 64 → 0 ≤ w → j < MAX_BLOCKS sh → Z.testbit word (j - w * 64) = false → j ∈ owned sh s.
Proof.
  intros Hi Hw Hj H0 Hm Hbit. destruct (decide (j ∈ owned sh s)) as [|Hn]; [done|].
  apply (iv_free sh s Hi j) in Hn; [|lia]. unfold free_bit in Hn. replace (j / 64) with w in Hn by zdiv.
  rewrite Hw in Hn. replace (j mod 64) with (j - w * 64) in Hn by zdiv. congruence.
Qed.

Lemma scan sh s : shape_ok sh → inv sh s → ∀ k w fuel, Z.of_nat k = BITMAP_WORDS sh - w → 0 ≤ w →
  (k + 7 ≤ fuel)%nat → (∀ j, 0 ≤ j < w * 64 → j < MAX_BLOCKS sh → j ∈ owned sh s) →
  ∃ p a', run_alone sh fuel (TLoad w) (alloc_of s) = Some (Ok (p, a')) ∧
   ((∀ j, 0 ≤ j < MAX_BLOCKS sh → j ∈ owned sh s) ∧ p = 0 ∧ a' = alloc_of s ∨
    (∃ i, 0 ≤ i < MAX_BLOCKS sh ∧ (i ∉ owned sh s) ∧ (∀ j, 0 ≤ j < i → j ∈ owned sh s) ∧ p = block_ptr sh i)).
Proof.
  intros Hok Hi. induction k as [|k IH]; intros w fuel Hk Hw Hf Hlow;
    (destruct fuel as [|fuel]; [lia|]); cbn [run_alone thread_step]; unfold claim_load.
  { rewrite (proj2 (Z.leb_le _ _)) by lia. eexists _, _. split; [by destruct fuel|]. left. split_and!; [|done..].
    intros j Hj. apply Hlow; [|lia]. unfold BITMAP_WORDS in Hk. zdiv. }
  rewrite (proj2 (Z.leb_gt _ _)) by lia.
  destruct (word_lookup sh s w Hi) as (word & Hword & Hu); [lia|]. rewrite Hword. cbn [expect mbind res_bind].
  assert ((∀ b, 0 ≤ b < 64 → w * 64 + b < MAX_BLOCKS sh → Z.testbit word b = false) →
    ∀ j, 0 ≤ j < (w + 1) * 64 → j < MAX_BLOCKS sh → j ∈ owned sh s) as Hnext.
  { intros Hz j Hj Hm. destruct (decide (j < w * 64)); [apply Hlow; lia|].
    eapply (word_blocks sh s w word); try done; [lia|]. apply Hz; lia. }
  destruct (Z.eqb_spec word 0) as [->|Hne].
  { apply IH; [lia..|]. apply Hnext. intros b _ _. apply Z.bits_0. }
  destruct (trailing_zeros_spec word Hu Hne) as (Hb & Hset & Hlowest).
  destruct (Z.leb_spec (MAX_BLOCKS sh) (w * 64 + trailing_zeros word)) as [Hge|Hlt].
  { apply IH; [lia..|]. apply Hnext. intros b Hb' Hm. apply Hlowest. lia. }
  destruct fuel as [|fuel]; [lia|]. cbn [run_alone thread_step]. unfold claim_cas. rewrite Hword. cbn [expect mbind res_bind].
  rewrite Z.eqb_refl. set (i := w * 64 + trailing_zeros word) in *.
  destruct (run_claimed sh fuel i (set_bitmap (alloc_of s) (<[Z.to_nat w := Z.land word (not64 (Z.shiftl 1 (trailing_zeros word)))]> (bitmap (alloc_of s)))))
    as [a' Ha']; [lia..|].
  exists (block_ptr sh i), a'. split; [exact Ha'|]. right. exists i. split_and!; [lia..| | |done].
  - apply (iv_free sh s Hi i); [lia|]. unfold free_bit. replace (i / 64) with w by (unfold i; zdiv).
    rewrite Hword. replace (i mod 64) with (trailing_zeros word) by (unfold i; zdiv). done.
  - intros j Hj. destruct (decide (j < w * 64)); [apply Hlow; lia|].
    eapply (word_blocks sh s w word); try done; [lia..|]. apply Hlowest. lia.
Qed.

(** An allocation on its own is exact.  From every reachable state, with the
    other threads wherever they are, an [alloc] that is not disturbed returns
    within eight steps more than the bitmap has words: a locked allocator panics;
    a request that is too large or aligned too strictly, or that finds every
    block owned, returns null and changes nothing; any other request returns the
    lowest block nobody owns. *)
Theorem alloc_alone sh n s size align : shape_ok sh → MAX_BLOCKS sh + Z.of_nat n < 2 ^ 64 → reachable sh n s →
  let call := run_alone sh (Z.to_nat (BITMAP_WORDS sh) + 8) (TCheck size align) (alloc_of s) in
  if locked (alloc_of s) then call = Some Panic
  else ∃ p a', call = Some (Ok (p, a')) ∧
    ((BLOCK_SIZE sh < size ∨ 64 < align ∨ (∀ j, 0 ≤ j < MAX_BLOCKS sh → j ∈ owned sh s)) ∧
       p = 0 ∧ a' = alloc_of s ∨
     size ≤ BLOCK_SIZE sh ∧ align ≤ 64 ∧
     ∃ i, 0 ≤ i < MAX_BLOCKS sh ∧ (i ∉ owned sh s) ∧ (∀ j, 0 ≤ j < i → j ∈ owned sh s) ∧ p = block_ptr sh i).
Proof.
  intros Hok Hs Hr call. destruct (reach_inv sh n Hok Hs s Hr) as [Hi _]. unfold call.
  rewrite Nat.add_succ_r. cbn [run_alone thread_step]. destruct (locked (alloc_of s)); [done|].
  destruct (Z.ltb_spec (BLOCK_SIZE sh) size).
  { rewrite Nat.add_succ_r. cbn. eexists _, _. split; [done|]. left. auto. }
  destruct (Z.ltb_spec 64 align).
  { rewrite Nat.add_succ_r. cbn. eexists _, _. split; [done|]. left. auto. }
  assert (0 ≤ BITMAP_WORDS sh) by (pose proof (so_max sh Hok); unfold BITMAP_WORDS; zdiv).
  destruct (scan sh s Hok Hi (Z.to_nat (BITMAP_WORDS sh)) 0 (Z.to_nat (BITMAP_WORDS sh) + 7)) as (p & a' & Hrun & Hp);
    [lia..| |].
  { intros j Hj. lia. }
  exists p, a'. split; [exact Hrun|]. destruct Hp as [(Hp & -> & ->)|Hp]; [left; auto|right; auto].
Qed.

(** ** The partitioned allocator *)

Inductive IntegrityLevel := SafetyCritical | QualityManaged.
Record PartitionedBoundedAllocator := MkPart { sc_pool : BoundedAllocator; qm_pool : BoundedAllocator }.
(** The two arenas; both have the same block size. *)
Record PShape := MkPShape { sc_shape : Shape; qm_shape : Shape }.

Definition part_new (ps : PShape) : PartitionedBoundedAllocator :=
  MkPart (alloc_new (sc_shape ps)) (alloc_new (qm_shape ps)).

(** [alloc] and [dealloc] of a sub-pool by a thread that is not disturbed. *)
Definition alloc (sh : Shape) (a : BoundedAllocator) (size align : Z) : option (res (Z * BoundedAllocator)) :=
  run_alone sh (Z.to_nat (BITMAP_WORDS sh) + 8) (TCheck size align) a.
Definition dealloc (sh : Shape) (a : BoundedAllocator) (ptr : Z) : res BoundedAllocator :=
  a ← release_block a (block_index_of sh ptr);
  let a := set_counts a (alloc_count a) (wrap 64 (dealloc_count a + 1)) in
  Ok (set_in_use a (wrap 64 (in_use a - 1))).

Definition alloc_in (ps : PShape) (p : PartitionedBoundedAllocator) (level : IntegrityLevel) (size align : Z)
    : option (res (Z * PartitionedBoundedAllocator)) :=
  match level with
  | SafetyCritical =>
      (λ r, '(ptr, a) ← r; Ok (ptr, MkPart a (qm_pool p))) <$> alloc (sc_shape ps) (sc_pool p) size align
  | QualityManaged =>
      (λ r, '(ptr, a) ← r; Ok (ptr, MkPart (sc_pool p) a)) <$> alloc (qm_shape ps) (qm_pool p) size align
  end.

Definition dealloc_in (ps : PShape) (p : PartitionedBoundedAllocator) (level : IntegrityLevel) (ptr : Z)
    : res PartitionedBoundedAllocator :=
  match level with
  | SafetyCritical => a ← dealloc (sc_shape ps) (sc_pool p) ptr; Ok (MkPart a (qm_pool p))
  | QualityManaged => a ← dealloc (qm_shape ps) (qm_pool p) ptr; Ok (MkPart (sc_pool p) a)
  end.

(** The pool a bare [dealloc] picks, by the address. *)
Definition dealloc_level (ps : PShape) (ptr : Z) : IntegrityLevel :=
  let sc_arena_start := arena (sc_shape ps) in
  let sc_arena_end := sc_arena_start + capacity_bytes (sc_shape ps) in
  if (sc_arena_start <=? ptr) && (ptr <? sc_arena_end) then SafetyCritical else QualityManaged.
Definition part_dealloc (ps : PShape) (p : PartitionedBoundedAllocator) (ptr : Z) : res PartitionedBoundedAllocator :=
  dealloc_in ps p (dealloc_level ps ptr) ptr.

Definition part_lock (p : PartitionedBoundedAllocator) : PartitionedBoundedAllocator :=
  MkPart (set_locked (sc_pool p)) (set_locked (qm_pool p)).

Definition shape_of (ps : PShape) (level : IntegrityLevel) : Shape :=
  match level with SafetyCritical => sc_shape ps | QualityManaged => qm_shape ps end.
(** The arenas do not overlap. *)
Definition disjoint_arenas (ps : PShape) : Prop :=
  let a := sc_shape ps in let b := qm_shape ps in
  arena a + MAX_BLOCKS a * stride a ≤ arena b ∨ arena b + MAX_BLOCKS b * stride b ≤ arena a.

(** Where a bare [dealloc] goes.  A block of the quality-managed pool always
    goes back to its pool.  A block of the safety-critical pool goes back to its
    pool exactly when it starts within the first [MAX_BLOCKS * BLOCK_SIZE] bytes
    of the arena: always when the block size is a multiple of 64, but never for
    the last block when the padding of all blocks is worth a block, as with two
    blocks of 32 bytes. *)
Theorem dealloc_routes ps level i :
  shape_ok (sc_shape ps) → shape_ok (qm_shape ps) → disjoint_arenas ps →
  0 ≤ i < MAX_BLOCKS (shape_of ps level) →
  let sh := shape_of ps level in
  (dealloc_level ps (block_ptr sh i) = level ↔ level = QualityManaged ∨ i * stride sh < capacity_bytes sh) ∧
  (BLOCK_SIZE sh mod 64 = 0 → dealloc_level ps (block_ptr sh i) = level) ∧
  (level = SafetyCritical → stride sh ≤ MAX_BLOCKS sh * (stride sh - BLOCK_SIZE sh) →
   dealloc_level ps (block_ptr sh (MAX_BLOCKS sh - 1)) = QualityManaged).
Proof.
  intros Hs Hq Hd Hi sh. pose proof (stride_ok _ Hs) as [S1 S2]. pose proof (so_size _ Hs) as S3.
  destruct level; cbn [shape_of] in sh, Hi.
  - assert (∀ j, dealloc_level ps (block_ptr sh j) = SafetyCritical ↔ 0 ≤ j * stride sh < capacity_bytes sh) as Hj.
    { intros j. unfold dealloc_level, block_ptr. fold sh.
      destruct (Z.leb_spec (arena sh) (arena sh + j * stride sh)), (Z.ltb_spec (arena sh + j * stride sh) (arena sh + capacity_bytes sh));
        cbn; (split; [intros; try done; lia|intros; try done; lia]). }
    fold sh in S1, S2, S3, Hi. split_and!.
    + rewrite Hj. split; [intros; right; lia|intros [?|?]; [done|]]. nia.
    + intros Hm. apply Hj. assert (stride sh = BLOCK_SIZE sh) as -> by (unfold stride; zdiv).
      unfold capacity_bytes. nia.
    + intros _ Hpad. destruct (dealloc_level ps (block_ptr sh (MAX_BLOCKS sh - 1))) eqn:E; [|done].
      apply Hj in E. unfold capacity_bytes in E. nia.
  - assert (dealloc_level ps (block_ptr sh i) = QualityManaged) as Hj.
    { unfold dealloc_level. pose proof (block_ptr_bounds sh i Hq Hi) as [B1 B2].
      pose proof (stride_ok _ Hq) as [Q1 Q2]. pose proof (so_size _ Hq) as Q3. fold sh in Q1, Q3.
      assert (capacity_bytes (sc_shape ps) ≤ MAX_BLOCKS (sc_shape ps) * stride (sc_shape ps)) as Hc
        by (unfold capacity_bytes; pose proof (so_max _ Hs); nia).
      unfold disjoint_arenas in Hd. fold sh in Hd.
      destruct (Z.leb_spec (arena (sc_shape ps)) (block_ptr sh i)),
        (Z.ltb_spec (block_ptr sh i) (arena (sc_shape ps) + capacity_bytes (sc_shape ps))); try done. lia. }
    split_and!; [|done|done]. split; [by left|done].
Qed.

(** ** Concrete runs *)

Fixpoint perform (sh : Shape) (acts : list Action) (s : State) : option State :=
  match acts with
  | [] => Some s
  | a :: acts => match step_of sh a s with Some (Ok s) => perform sh acts s | _ => None end
  end.
Lemma perform_reachable sh acts : ∀ s s', perform sh acts s = Some s' → rtc (alloc_step sh) s s'.
Proof.
  induction acts as [|a acts IH]; intros s s' H; cbn [perform] in H; [by injection H as <-|].
  destruct (step_of sh a s) as [[q|]|] eqn:E; [|done..]. eapply rtc_l; [by exists a|]. by apply IH.
Qed.

(** One block of 64 bytes at address 4096, and two threads.  The first frees its
    block; the second claims it and counts it before the first has subtracted. *)
Definition demo_shape : Shape := MkShape 1 64 4096.
Definition demo_claim (t : nat) : list Action :=
  AAlloc t 10 8 :: replicate 7 (AStep t false) ++ [AReturn t].
Definition demo_acts : list Action :=
  demo_claim 0 ++ [AFree 0 4096; AStep 0 false] ++ demo_claim 1 ++ [AStep 0 false; AStep 0 false].
Definition demo_end : State := default (init demo_shape 2) (perform demo_shape demo_acts (init demo_shape 2)).

Lemma demo_shape_ok : shape_ok demo_shape.
Proof. split; vm_compute; congruence. Qed.
Lemma demo_end_reachable : reachable demo_shape 2 demo_end.
Proof. apply (perform_reachable demo_shape demo_acts). vm_compute. reflexivity. Qed.

(** Never more than one block is live, and the high-water mark is two. *)
Example peak_overshoots : MAX_BLOCKS demo_shape = 1 ∧ live demo_end = [4096] ∧
  threads demo_end = [TIdle; TIdle] ∧ peak_in_use (alloc_of demo_end) = 2.
Proof. vm_compute. done. Qed.

Lemma demo_end_live : live demo_end = [4096] ∧ Forall (λ t, t = TIdle) (threads demo_end).
Proof. split; [vm_compute; reflexivity|]. vm_compute. by repeat constructor. Qed.

Lemma blocks_exclusive_witness : live demo_end = [4096] ∧ len (live demo_end) ≤ MAX_BLOCKS demo_shape.
Proof.
  destruct (blocks_exclusive demo_shape 2 demo_shape_ok eq_refl demo_end demo_end_reachable) as (_ & H & _).
  split; [exact (proj1 demo_end_live)|exact H].
Defined.

Lemma counters_settle_witness :
  in_use (alloc_of demo_end) = len (live demo_end) ∧ live demo_end = [4096] ∧
  len (live demo_end) ≤ peak_in_use (alloc_of demo_end) ≤ MAX_BLOCKS demo_shape + Z.of_nat 2.
Proof.
  destruct (counters_settle demo_shape 2 demo_shape_ok eq_refl demo_end demo_end_reachable (proj2 demo_end_live))
    as (H1 & _ & H2). split; [exact H1|]. split; [exact (proj1 demo_end_live)|exact H2].
Defined.

Lemma demo_end_full : locked (alloc_of demo_end) = false ∧ owned demo_shape demo_end = [0].
Proof. split; vm_compute; reflexivity. Qed.

Lemma alloc_alone_witness : alloc demo_shape (alloc_of demo_end) 10 8 = Some (Ok (0, alloc_of demo_end)).
Proof.
  pose proof (alloc_alone demo_shape 2 demo_end 10 8 demo_shape_ok eq_refl demo_end_reachable) as H.
  cbv zeta in H. rewrite (proj1 demo_end_full), (proj2 demo_end_full) in H. destruct H as (p & a' & H & Hp).
  unfold alloc. rewrite H. destruct Hp as [(_ & -> & ->)|(_ & _ & i & Hi & Hn & _)]; [reflexivity|].
  exfalso. apply Hn. replace i with 0 by (cbn in Hi; lia). constructor.
Defined.

(** Two safety-critical blocks of 32 bytes: the second one is freed to the other
    pool. *)
Definition demo_parts : PShape := MkPShape (MkShape 2 32 4096) (MkShape 2 32 8192).
Lemma dealloc_routes_witness :
  dealloc_level demo_parts (block_ptr (sc_shape demo_parts) 1) = QualityManaged ∧
  part_dealloc demo_parts (part_new demo_parts) (block_ptr (sc_shape demo_parts) 1) = Panic.
Proof.
  split; [|vm_compute; reflexivity].
  apply (dealloc_routes demo_parts SafetyCritical 1); [split; vm_compute; congruence..|left; vm_compute; congruence|cbn; lia|done|].
  vm_compute. congruence.
Defined.

End BoundedAlloc.
