(* ===== verification/IdlBits.v ===== *)
(** * CAN signal packing of the message plane

    Models [taktora-idl-wire/src/bits.rs]: the walk over the bits of a signal
    in both DBC bit numberings, and the packing and unpacking of unsigned and
    signed values. *)

From stdpp Require Import base list list_numbers.
From Stdlib Require Import ZArith Lia.
From S2P Require Import Prelude.

Module IdlBits.

(** The error set of the serialization path. *)
Inductive WireError :=
| BufferTooSmall
| SignalOutOfBounds
| InvalidBitLength
| ValueOutOfRange
| UnknownEnumValue.

Inductive ByteOrder := LittleEndian | BigEndian.

#[export] Instance WireError_eq_dec : EqDecision WireError.
Proof. solve_decision. Defined.
#[export] Instance ByteOrder_eq_dec : EqDecision ByteOrder.
Proof. solve_decision. Defined.

Definition MAX_BITS : Z := 64.

(** ** [for_each_bit] *)
Section walk.
Context {S : Type} (f : Z → Z → S → res S).

(** The little-endian loop: [n] iterations left, the next one is [i]. *)
Fixpoint le_loop (n : nat) (i start max_pos : Z) (s : S) : res (Z * S) :=
  match n with
  | O => Ok (max_pos, s)
  | Datatypes.S n =>
      let abs := start + i in
      s ← f i abs s;
      le_loop n (i + 1) start (Z.max max_pos abs) s
  end.

(** The big-endian loop. *)
Fixpoint be_loop (n : nat) (k bit_len byte bit max_pos : Z) (s : S) : res (Z * S) :=
  match n with
  | O => Ok (max_pos, s)
  | Datatypes.S n =>
      let abs := byte * 8 + bit in
      s ← f (bit_len - 1 - k) abs s;
      let max_pos := Z.max max_pos abs in
      if bit =? 0 then be_loop n (k + 1) bit_len (byte + 1) 7 max_pos s
      else be_loop n (k + 1) bit_len byte (bit - 1) max_pos s
  end.

Definition for_each_bit (start_bit bit_len : Z) (order : ByteOrder) (s : S) : res (Z * S) :=
  match order with
  | LittleEndian => le_loop (Z.to_nat bit_len) 0 start_bit 0 s
  | BigEndian => be_loop (Z.to_nat bit_len) 0 bit_len (start_bit / 8) (start_bit mod 8) 0 s
  end.
End walk.

Definition check (frame_len start_bit bit_len : Z) (order : ByteOrder) : res (unit + WireError) :=
  if (bit_len =? 0) || (MAX_BITS <? bit_len) then Ok (inr InvalidBitLength)
  else
    '(max_pos, _) ← for_each_bit (λ _ _ s, Ok s) start_bit bit_len order tt;
    Ok (if frame_len <=? max_pos / 8 then inr SignalOutOfBounds else inl tt).

Definition mask (bit_len : Z) : Z :=
  if 64 <=? bit_len then 2 ^ 64 - 1 else Z.shiftl 1 bit_len - 1.

(** One bit of the packing loop. *)
Definition pack_bit (raw value_bit abs : Z) (frame : list Z) : res (list Z) :=
  let m := Z.shiftl 1 (abs mod 8) in
  b ← idx frame (abs / 8);
  Ok (<[Z.to_nat (abs / 8) :=
        if Z.land (Z.shiftr raw value_bit) 1 =? 1 then Z.lor b m
        else Z.land b (Z.lxor m 255)]> frame).

Definition pack_unsigned (frame : list Z) (start_bit bit_len : Z) (order : ByteOrder) (raw : Z) :
  res (list Z + WireError) :=
  c ← check (len frame) start_bit bit_len order;
  match c with
  | inr e => Ok (inr e)
  | inl _ =>
      if negb (Z.land raw (Z.lxor (mask bit_len) (2 ^ 64 - 1)) =? 0)
      then Ok (inr ValueOutOfRange)
      else '(_, frame) ← for_each_bit (pack_bit raw) start_bit bit_len order frame;
           Ok (inl frame)
  end.

Definition pack_signed (frame : list Z) (start_bit bit_len : Z) (order : ByteOrder) (value : Z) :
  res (list Z + WireError) :=
  c ← check (len frame) start_bit bit_len order;
  match c with
  | inr e => Ok (inr e)
  | inl _ =>
      let limit := Z.shiftl 1 (bit_len - 1) in
      if (bit_len <? 64) && ((value <? - limit) || (limit <=? value))
      then Ok (inr ValueOutOfRange)
      else pack_unsigned frame start_bit bit_len order
             (Z.land (wrap 64 value) (mask bit_len))
  end.

(** One bit of the unpacking loop. *)
Definition unpack_bit (frame : list Z) (value_bit abs raw : Z) : res Z :=
  b ← idx frame (abs / 8);
  let bit := Z.land (Z.shiftr b (abs mod 8)) 1 in
  Ok (Z.lor raw (Z.shiftl bit value_bit)).

Definition unpack_unsigned (frame : list Z) (start_bit bit_len : Z) (order : ByteOrder) :
  res (Z + WireError) :=
  c ← check (len frame) start_bit bit_len order;
  match c with
  | inr e => Ok (inr e)
  | inl _ =>
      '(_, raw) ← for_each_bit (unpack_bit frame) start_bit bit_len order 0;
      Ok (inl raw)
  end.

(** [x as i64] of a [u64]. *)
Definition as_i64 (x : Z) : Z := if x <? 2 ^ 63 then x else x - 2 ^ 64.

Definition sign_extend (raw bit_len : Z) : Z :=
  if 64 <=? bit_len then as_i64 raw
  else
    let shift := 64 - bit_len in
    Z.shiftr (as_i64 (wrap 64 (Z.shiftl raw shift))) shift.

Definition unpack_signed (frame : list Z) (start_bit bit_len : Z) (order : ByteOrder) :
  res (Z + WireError) :=
  r ← unpack_unsigned frame start_bit bit_len order;
  Ok (match r with inl raw => inl (sign_extend raw bit_len) | inr e => inr e end).

(** ** Where the bits of a signal are

    The closed form of the walk: value bit [v] sits at [pos v]. *)

(** Number the bits of a frame from the most significant bit of byte 0. *)
Definition msb_index (p : Z) : Z := 8 * (p / 8) + (7 - p mod 8).
Definition pos (start bit_len : Z) (order : ByteOrder) (v : Z) : Z :=
  match order with
  | LittleEndian => start + v
  | BigEndian => msb_index (msb_index start + (bit_len - 1 - v))
  end.
(** The value bits in the order of the walk. *)
Definition visited (bit_len : Z) (order : ByteOrder) : list Z :=
  match order with
  | LittleEndian => seqZ 0 bit_len
  | BigEndian => (λ k, bit_len - 1 - k) <$> seqZ 0 bit_len
  end.
Definition bit_at (frame : list Z) (p : Z) : bool :=
  match frame !! Z.to_nat (p / 8) with
  | Some b => Z.testbit b (p mod 8)
  | None => false
  end.

Fixpoint visit {S : Type} (f : Z → Z → S → res S) (g : Z → Z) (vs : list Z) (s : S) : res S :=
  match vs with
  | [] => Ok s
  | v :: vs => s ← f v (g v) s; visit f g vs s
  end.
Definition max_of (m : Z) (l : list Z) : Z := foldl Z.max m l.

Lemma msb_index_inv p : msb_index (msb_index p) = p.
Proof. unfold msb_index. zdiv. Qed.
Lemma msb_index_inj p q : msb_index p = msb_index q → p = q.
Proof. intros H. by rewrite <-(msb_index_inv p), H, msb_index_inv. Qed.
Lemma msb_index_nonneg p : 0 ≤ p → 0 ≤ msb_index p.
Proof. unfold msb_index. intros. zdiv. Qed.

Lemma pos_inj start n order v w : pos start n order v = pos start n order w → v = w.
Proof. destruct order; simpl; [lia|]. intros H%msb_index_inj. lia. Qed.
Lemma pos_nonneg start n order v : 0 ≤ start → 0 ≤ v < n → 0 ≤ pos start n order v.
Proof.
  intros Hs Hv. destruct order; simpl; [lia|].
  pose proof (msb_index_nonneg start Hs). apply msb_index_nonneg. lia.
Qed.

Lemma elem_of_visited n order v : v ∈ visited n order ↔ 0 ≤ v < n.
Proof.
  destruct order; simpl; rewrite ?list_elem_of_fmap; setoid_rewrite elem_of_seqZ; [lia|].
  split; [intros (k & -> & ?); lia|]. intros. exists (n - 1 - v). lia.
Qed.
Lemma NoDup_visited n order : NoDup (visited n order).
Proof.
  destruct order; simpl; [apply NoDup_seqZ|]. apply NoDup_fmap_2; [|apply NoDup_seqZ].
  intros x y H. lia.
Qed.

Section walk_spec.
Context {S : Type} (f : Z → Z → S → res S).

Lemma seqZ_S i n : seqZ i (Z.of_nat (Datatypes.S n)) = i :: seqZ (i + 1) (Z.of_nat n).
Proof. rewrite seqZ_cons by lia. f_equal. f_equal; lia. Qed.

Lemma le_loop_visit n i start m s :
  le_loop f n i start m s
  = (s' ← visit f (λ v, start + v) (seqZ i (Z.of_nat n)) s;
     Ok (max_of m ((λ v, start + v) <$> seqZ i (Z.of_nat n)), s')).
Proof.
  revert i m s. induction n as [|n IH]; intros i m s; [done|].
  rewrite seqZ_S. simpl. destruct (f i (start + i) s) as [s'|]; [|done]. simpl. by rewrite IH.
Qed.

Lemma be_loop_visit n start k bit_len byte bit m s : 0 ≤ bit < 8 →
  byte * 8 + (7 - bit) = msb_index start + k →
  be_loop f n k bit_len byte bit m s
  = (s' ← visit f (pos start bit_len BigEndian)
            ((λ k, bit_len - 1 - k) <$> seqZ k (Z.of_nat n)) s;
     Ok (max_of m ((λ k, pos start bit_len BigEndian (bit_len - 1 - k))
                     <$> seqZ k (Z.of_nat n)), s')).
Proof.
  revert k byte bit m s. induction n as [|n IH]; intros k byte bit m s Hb Hk; [done|].
  rewrite seqZ_S, !fmap_cons. cbn [visit be_loop].
  assert (pos start bit_len BigEndian (bit_len - 1 - k) = byte * 8 + bit) as ->.
  { simpl. replace (bit_len - 1 - (bit_len - 1 - k)) with k by lia. rewrite <-Hk.
    unfold msb_index. zdiv. }
  destruct (f _ _ s) as [s'|]; [|done]. cbn [mbind res_bind].
  destruct (Z.eqb_spec bit 0); rewrite IH by lia; done.
Qed.

Lemma for_each_bit_visit start n order s : 0 ≤ n →
  for_each_bit f start n order s
  = (s' ← visit f (pos start n order) (visited n order) s;
     Ok (max_of 0 (pos start n order <$> visited n order), s')).
Proof.
  intros Hn. destruct order; simpl.
  - rewrite le_loop_visit. by rewrite Z2Nat.id.
  - rewrite (be_loop_visit _ start).
    + rewrite Z2Nat.id, <-list_fmap_compose by done. done.
    + apply Z.mod_pos_bound. lia.
    + unfold msb_index. zdiv.
Qed.
End walk_spec.

Lemma visit_skip {S : Type} g vs (s : S) : visit (λ _ _ s, Ok s) g vs s = Ok s.
Proof. revert s. induction vs; intros s; [done|]. simpl. done. Qed.

Lemma max_of_le m l x : x ≤ max_of m l ↔ x ≤ m ∨ ∃ y, y ∈ l ∧ x ≤ y.
Proof.
  revert m. induction l as [|y l IH]; intros m; simpl.
  - split; [auto|]. intros [?|(y & Hy & _)]; [done|]. by apply elem_of_nil in Hy.
  - unfold max_of in *. simpl. rewrite IH. setoid_rewrite elem_of_cons.
    split; [|naive_solver lia]. intros [H|?]; [|naive_solver].
    destruct (Z.max_spec m y); naive_solver lia.
Qed.

(** [check]: the length, then whether every bit lies inside the frame. *)
Definition fits (frame_len start n : Z) (order : ByteOrder) : Prop :=
  ∀ v, 0 ≤ v < n → pos start n order v / 8 < frame_len.
Lemma fits_Forall frame_len start n order :
  fits frame_len start n order
  ↔ Forall (λ v, pos start n order v / 8 < frame_len) (visited n order).
Proof. rewrite Forall_forall. unfold fits. by setoid_rewrite elem_of_visited. Qed.
#[export] Instance fits_dec frame_len start n order : Decision (fits frame_len start n order).
Proof.
  destruct (decide (Forall (λ v, pos start n order v / 8 < frame_len) (visited n order)));
    [left|right]; by rewrite fits_Forall.
Defined.

Lemma check_spec frame_len start n order : 0 ≤ start → 0 ≤ n →
  check frame_len start n order =
    Ok (if decide (1 ≤ n ≤ 64)
        then if decide (fits frame_len start n order) then inl tt else inr SignalOutOfBounds
        else inr InvalidBitLength).
Proof.
  intros Hs Hn. unfold check, MAX_BITS. case_decide as Hd.
  2: { destruct (Z.eqb_spec n 0), (Z.ltb_spec 64 n); simpl; try done; lia. }
  rewrite (proj2 (Z.eqb_neq n 0)), (proj2 (Z.ltb_ge 64 n)) by lia. cbn [orb].
  rewrite for_each_bit_visit by done. rewrite visit_skip. cbn. f_equal.
  destruct (Z.leb_spec frame_len (max_of 0 (pos start n order <$> visited n order) / 8))
    as [Hle|Hgt]; case_decide as Hf; try done; exfalso.
  - assert (8 * frame_len ≤ max_of 0 (pos start n order <$> visited n order)) as Hm by zdiv.
    apply max_of_le in Hm. rewrite fits_Forall, Forall_forall in Hf.
    assert (∃ v, v ∈ visited n order ∧ 8 * frame_len ≤ pos start n order v) as (v & Hv & Hp).
    { destruct Hm as [H0|(y & (v & -> & Hv)%list_elem_of_fmap & Hy)]; [|eauto].
      exists 0. split; [apply elem_of_visited; lia|].
      pose proof (pos_nonneg start n order 0 Hs ltac:(lia)). lia. }
    specialize (Hf v Hv). zdiv.
  - apply Hf. intros v Hv.
    assert (pos start n order v ≤ max_of 0 (pos start n order <$> visited n order)).
    { apply max_of_le. right. exists (pos start n order v). split; [|lia].
      apply list_elem_of_fmap_2, elem_of_visited. lia. }
    zdiv.
Qed.

(** ** Writing and reading bits *)

Lemma odd_bit x i : 0 ≤ i → (Z.land (Z.shiftr x i) 1 =? 1) = Z.testbit x i.
Proof.
  intros Hi. rewrite (land_mask _ 1 1) by lia. change (2 ^ 1) with 2.
  by rewrite <-Z.bit0_eqb, Z.shiftr_spec, Z.add_0_l.
Qed.

Lemma byte_bits b i : is_u 8 b → 8 ≤ i → Z.testbit b i = false.
Proof.
  intros Hb Hi. unfold is_u in Hb. rewrite <-(Z.mod_small b (2 ^ 8)) by lia.
  apply Z.mod_pow2_bits_high. lia.
Qed.

Lemma byte_of_bits x : 0 ≤ x → (∀ i, 8 ≤ i → Z.testbit x i = false) → is_u 8 x.
Proof.
  intros Hx Hi. assert (x = x mod 2 ^ 8) as ->; [|apply Z.mod_pos_bound; lia].
  apply Z.bits_inj'. intros i Hi0. destruct (decide (i < 8)).
  - by rewrite Z.mod_pow2_bits_low by lia.
  - rewrite Z.mod_pow2_bits_high by lia. apply Hi. lia.
Qed.

(** The byte with bit [k] replaced. *)
Definition put_bit (b k : Z) (x : bool) : Z :=
  if x then Z.lor b (Z.shiftl 1 k) else Z.land b (Z.lxor (Z.shiftl 1 k) 255).

Lemma put_bit_spec b k x i : is_u 8 b → 0 ≤ k < 8 → 0 ≤ i →
  Z.testbit (put_bit b k x) i = if decide (i = k) then x else Z.testbit b i.
Proof.
  intros Hb Hk Hi. unfold put_bit.
  assert (Z.testbit (Z.shiftl 1 k) i = bool_decide (i = k)) as Hm.
  { rewrite Z.shiftl_spec by done. case_bool_decide as Hd.
    - subst. by rewrite Z.sub_diag.
    - destruct (decide (i < k)); [by rewrite Z.testbit_neg_r by lia|].
      change 1 with (2 ^ 0). by rewrite Z.pow2_bits_false by lia. }
  assert (Z.testbit 255 i = bool_decide (i < 8)) as H255.
  { clear Hm. change 255 with (Z.ones 8).
    case_bool_decide; [apply Z.ones_spec_low|apply Z.ones_spec_high]; lia. }
  destruct x; rewrite ?Z.lor_spec, ?Z.land_spec, ?Z.lxor_spec, Hm, ?H255;
    clear Hm H255; repeat case_bool_decide; case_decide; try lia; simpl;
    rewrite ?orb_true_r, ?orb_false_r, ?andb_false_r, ?andb_true_r; try done.
  rewrite byte_bits; [done|done|lia].
Qed.

Lemma put_bit_byte b k x : is_u 8 b → 0 ≤ k < 8 → is_u 8 (put_bit b k x).
Proof.
  intros Hb Hk. assert (0 ≤ b) by (unfold is_u in Hb; lia). apply byte_of_bits.
  - assert (0 ≤ Z.shiftl 1 k) by (apply Z.shiftl_nonneg; lia).
    unfold put_bit. destruct x.
    + by apply Z.lor_nonneg.
    + apply Z.land_nonneg. by left.
  - intros i Hi. rewrite put_bit_spec by (done || lia). rewrite decide_False by lia.
    by apply byte_bits.
Qed.

Lemma pack_bit_spec raw v p frame : is_bytes frame → 0 ≤ p → 0 ≤ v → p / 8 < len frame →
  ∃ frame', pack_bit raw v p frame = Ok frame' ∧ length frame' = length frame
    ∧ is_bytes frame'
    ∧ ∀ q, 0 ≤ q → bit_at frame' q = if decide (q = p) then Z.testbit raw v else bit_at frame q.
Proof.
  intros Hb Hp Hv Hl. assert (0 ≤ p / 8) as Hp8 by zdiv.
  destruct (idx_lt frame (p / 8) ltac:(lia)) as [b Hi].
  pose proof Hi as [_ Hlk]%idx_Ok. pose proof (is_bytes_lookup _ _ _ Hb Hlk) as Hbb.
  assert (0 ≤ p mod 8 < 8) as Hm by (apply Z.mod_pos_bound; lia).
  unfold pack_bit. rewrite Hi. cbn [mbind res_bind]. rewrite odd_bit by done.
  fold (put_bit b (p mod 8) (Z.testbit raw v)).
  eexists. split; [done|]. split; [apply length_insert|]. split.
  { apply Forall_insert; [done|]. by apply put_bit_byte. }
  intros q Hq. unfold bit_at.
  assert (0 ≤ q mod 8 < 8) as Hqm by (apply Z.mod_pos_bound; lia).
  destruct (decide (q / 8 = p / 8)) as [He|Hne].
  - rewrite He, list_lookup_insert_eq by (by eapply lookup_lt_Some).
    rewrite put_bit_spec, Hlk by (done || lia). repeat case_decide; try done; exfalso; zdiv.
  - rewrite list_lookup_insert_ne by (assert (0 ≤ q / 8) by zdiv; lia).
    by rewrite decide_False by congruence.
Qed.

Section visits.
Context (g : Z → Z) (Hg : ∀ v w, g v = g w → v = w).

Lemma pack_visit raw vs frame : is_bytes frame →
  Forall (λ v, 0 ≤ v ∧ 0 ≤ g v ∧ g v / 8 < len frame) vs → NoDup vs →
  ∃ frame', visit (pack_bit raw) g vs frame = Ok frame' ∧ length frame' = length frame
    ∧ is_bytes frame' ∧ (∀ v, v ∈ vs → bit_at frame' (g v) = Z.testbit raw v)
    ∧ (∀ q, 0 ≤ q → (∀ v, v ∈ vs → g v ≠ q) → bit_at frame' q = bit_at frame q).
Proof.
  intros Hb Hvs. revert frame Hb Hvs. induction vs as [|v vs IH]; intros frame Hb Hvs Hnd.
  { exists frame. split_and!; try done. intros v Hv. by apply elem_of_nil in Hv. }
  apply Forall_cons in Hvs as [(Hv & Hp & Hl) Hvs]. apply NoDup_cons in Hnd as [Hnv Hnd].
  destruct (pack_bit_spec raw v (g v) frame Hb Hp Hv Hl) as (f1 & H1 & Hl1 & Hb1 & Hbit1).
  destruct (IH f1 Hb1) as (f2 & H2 & Hl2 & Hb2 & Hin & Hout); [|done|].
  { unfold len. by rewrite Hl1. }
  exists f2. cbn [visit]. rewrite H1. cbn [mbind res_bind].
  split_and!; [done|congruence|done| |].
  - intros w [->|Hw]%elem_of_cons; [|auto].
    rewrite Hout; [|done|].
    + by rewrite Hbit1, decide_True by done.
    + intros u Hu Heq%Hg. by subst.
  - intros q Hq Hno. rewrite Hout, Hbit1, decide_False; [done| |done|done|].
    + intros ->. by apply (Hno v); [left|].
    + intros w Hw. apply Hno. by right.
Qed.

Lemma unpack_visit frame vs raw :
  Forall (λ v, 0 ≤ v ∧ 0 ≤ g v ∧ g v / 8 < len frame) vs → 0 ≤ raw →
  ∃ raw', visit (unpack_bit frame) g vs raw = Ok raw' ∧ 0 ≤ raw'
    ∧ ∀ i, 0 ≤ i → Z.testbit raw' i
        = Z.testbit raw i || (bool_decide (i ∈ vs) && bit_at frame (g i)).
Proof.
  revert raw. induction vs as [|v vs IH]; intros raw Hvs Hr.
  { exists raw. split_and!; [done|done|]. intros i _. rewrite bool_decide_eq_false_2.
    - by rewrite orb_false_r.
    - apply not_elem_of_nil. }
  apply Forall_cons in Hvs as [(Hv & Hp & Hl) Hvs]. assert (0 ≤ g v / 8) as Hp8 by zdiv.
  destruct (idx_lt frame (g v / 8) ltac:(lia)) as [b Hi].
  pose proof Hi as [_ Hlk]%idx_Ok. set (bit := Z.land (Z.shiftr b (g v mod 8)) 1).
  assert (unpack_bit frame v (g v) raw = Ok (Z.lor raw (Z.shiftl bit v))) as Hstep
    by (unfold unpack_bit; by rewrite Hi).
  cbn [visit]. rewrite Hstep. cbn [mbind res_bind].
  assert (0 ≤ g v mod 8 < 8) as Hgm by (apply Z.mod_pos_bound; lia).
  assert (bit = Z.b2z (bit_at frame (g v))) as Hbit.
  { unfold bit_at. rewrite Hlk. unfold bit. rewrite <-odd_bit by lia.
    rewrite (land_mask _ 1 1) by lia. change (2 ^ 1) with 2.
    pose proof (Z.mod_pos_bound (Z.shiftr b (g v mod 8)) 2 ltac:(lia)).
    destruct (Z.eqb_spec (Z.shiftr b (g v mod 8) mod 2) 1); simpl; lia. }
  destruct (IH (Z.lor raw (Z.shiftl bit v)) Hvs) as (r' & Hr' & Hn & Hb').
  { apply Z.lor_nonneg. split; [done|]. apply Z.shiftl_nonneg. rewrite Hbit.
    destruct (bit_at frame (g v)); simpl; lia. }
  exists r'. split_and!; [done|done|]. intros i Hi0. rewrite Hb' by done.
  rewrite Z.lor_spec, Z.shiftl_spec by done. rewrite <-orb_assoc. f_equal.
  destruct (decide (i = v)) as [->|Hne].
  - rewrite Z.sub_diag, Hbit, Z.b2z_bit0.
    rewrite (bool_decide_eq_true_2 (v ∈ v :: vs)) by (by left).
    by destruct (bit_at frame (g v)), (bool_decide _).
  - assert (Z.testbit bit (i - v) = false) as ->.
    { rewrite Hbit. destruct (decide (i < v)); [by rewrite Z.testbit_neg_r by lia|].
      destruct (bit_at frame (g v)); [|apply Z.bits_0].
      apply Z.bits_above_log2; simpl; lia. }
    simpl. f_equal. apply bool_decide_ext. rewrite elem_of_cons. naive_solver.
Qed.
End visits.

(** ** The width of a value *)

Lemma mask_ones n : 1 ≤ n ≤ 64 → mask n = Z.ones n.
Proof.
  intros Hn. unfold mask. rewrite Z.ones_equiv. destruct (Z.leb_spec 64 n).
  - by replace n with 64 by lia.
  - rewrite Z.shiftl_1_l. lia.
Qed.

Lemma small_bits x n : 0 ≤ n → 0 ≤ x →
  x < 2 ^ n ↔ ∀ i, n ≤ i → Z.testbit x i = false.
Proof.
  intros Hn Hx. split.
  - intros Hlt i Hi. rewrite <-(Z.mod_small x (2 ^ n)) by lia.
    apply Z.mod_pow2_bits_high. lia.
  - intros Hb. assert (x = x mod 2 ^ n) as ->; [|apply Z.mod_pos_bound; lia].
    apply Z.bits_inj'. intros i Hi. destruct (decide (i < n)).
    + by rewrite Z.mod_pow2_bits_low by lia.
    + rewrite Z.mod_pow2_bits_high by lia. apply Hb. lia.
Qed.

Lemma over_wide raw n : 1 ≤ n ≤ 64 → is_u 64 raw →
  (Z.land raw (Z.lxor (mask n) (2 ^ 64 - 1)) =? 0) = bool_decide (raw < 2 ^ n).
Proof.
  intros Hn Hr. unfold is_u in Hr. rewrite mask_ones by done.
  replace (2 ^ 64 - 1) with (Z.ones 64) by (rewrite Z.ones_equiv; lia).
  assert (∀ i, 0 ≤ i → Z.testbit (Z.land raw (Z.lxor (Z.ones n) (Z.ones 64))) i
    = Z.testbit raw i && bool_decide (n ≤ i)) as Hb.
  { intros i Hi. rewrite Z.land_spec, Z.lxor_spec. destruct (decide (i < 64)) as [H64|H64].
    - rewrite (Z.ones_spec_low 64) by lia. case_bool_decide.
      + by rewrite Z.ones_spec_high by lia.
      + rewrite Z.ones_spec_low by lia. done.
    - rewrite (proj1 (small_bits raw 64 ltac:(lia) ltac:(lia)) ltac:(lia) i) by lia. done. }
  destruct (Z.eqb_spec (Z.land raw (Z.lxor (Z.ones n) (Z.ones 64))) 0) as [Hz|Hz];
    case_bool_decide as Hlt; try done; exfalso.
  - apply Hlt, small_bits; [lia|lia|]. intros i Hi. specialize (Hb i ltac:(lia)).
    rewrite Hz, Z.bits_0, bool_decide_eq_true_2, andb_true_r in Hb by done. done.
  - apply Hz, Z.bits_inj'. intros i Hi. rewrite Hb, Z.bits_0 by done.
    case_bool_decide; [|by rewrite andb_false_r].
    by rewrite (proj1 (small_bits raw n ltac:(lia) ltac:(lia)) Hlt i) by lia.
Qed.

Lemma visited_ok (frame : list Z) start n order : 0 ≤ start → fits (len frame) start n order →
  Forall (λ v, 0 ≤ v ∧ 0 ≤ pos start n order v ∧ pos start n order v / 8 < len frame)
    (visited n order).
Proof.
  intros Hs Hf. apply Forall_forall. intros v Hv%elem_of_visited.
  split_and!; [lia|by apply pos_nonneg|by apply Hf].
Qed.

(** The frame after a successful pack: the signal's bits hold [raw], all other
    bits are as before. *)
Definition packed (frame frame' : list Z) (start n : Z) (order : ByteOrder) (raw : Z) : Prop :=
  length frame' = length frame ∧ is_bytes frame'
  ∧ (∀ v, 0 ≤ v < n → bit_at frame' (pos start n order v) = Z.testbit raw v)
  ∧ (∀ q, 0 ≤ q → (∀ v, 0 ≤ v < n → pos start n order v ≠ q) →
       bit_at frame' q = bit_at frame q).

Lemma pack_unsigned_lem frame start n order raw :
  is_bytes frame → 0 ≤ start → 0 ≤ n → is_u 64 raw →
  if decide (1 ≤ n ≤ 64) then
    if decide (fits (len frame) start n order) then
      if decide (raw < 2 ^ n) then
        ∃ frame', pack_unsigned frame start n order raw = Ok (inl frame')
          ∧ packed frame frame' start n order raw
      else pack_unsigned frame start n order raw = Ok (inr ValueOutOfRange)
    else pack_unsigned frame start n order raw = Ok (inr SignalOutOfBounds)
  else pack_unsigned frame start n order raw = Ok (inr InvalidBitLength).
Proof.
  intros Hb Hs Hn Hr. unfold pack_unsigned. rewrite check_spec by done.
  cbn [mbind res_bind]. case_decide as Hl; [|done]. case_decide as Hf; [|done].
  rewrite over_wide by done. case_decide as Hlt.
  2: { by rewrite bool_decide_eq_false_2. }
  rewrite bool_decide_eq_true_2 by done. cbn [negb]. rewrite for_each_bit_visit by done.
  destruct (pack_visit (pos start n order) (pos_inj start n order) raw (visited n order) frame Hb)
    as (frame' & -> & Hlen & Hb' & Hin & Hout);
    [by apply visited_ok|apply NoDup_visited|].
  cbn [mbind res_bind]. exists frame'. split; [done|]. split_and!; [done|done| |].
  - intros v Hv. apply Hin. by apply elem_of_visited.
  - intros q Hq Hno. apply Hout; [done|]. intros v Hv%elem_of_visited. auto.
Qed.

Lemma unpack_unsigned_lem frame start n order : 0 ≤ start → 1 ≤ n ≤ 64 →
  fits (len frame) start n order →
  ∃ raw, unpack_unsigned frame start n order = Ok (inl raw) ∧ 0 ≤ raw < 2 ^ n
    ∧ ∀ v, 0 ≤ v < n → Z.testbit raw v = bit_at frame (pos start n order v).
Proof.
  intros Hs Hn Hf. unfold unpack_unsigned. rewrite check_spec by lia.
  rewrite !decide_True by done. cbn [mbind res_bind]. rewrite for_each_bit_visit by lia.
  destruct (unpack_visit (pos start n order) frame (visited n order) 0)
    as (raw & -> & Hr & Hbit); [by apply visited_ok|done|].
  cbn [mbind res_bind]. exists raw. split; [done|]. split.
  - split; [done|]. apply small_bits; [lia|done|]. intros i Hi.
    rewrite Hbit, bool_decide_eq_false_2, Z.bits_0; [done| |lia].
    rewrite elem_of_visited. lia.
  - intros v Hv. rewrite Hbit, bool_decide_eq_true_2, Z.bits_0; [done| |lia].
    by apply elem_of_visited.
Qed.

Lemma unpack_packed frame frame' start n order raw :
  0 ≤ start → 1 ≤ n ≤ 64 → fits (len frame) start n order → 0 ≤ raw < 2 ^ n →
  packed frame frame' start n order raw →
  unpack_unsigned frame' start n order = Ok (inl raw).
Proof.
  intros Hs Hn Hf Hr (Hlen & _ & Hin & _).
  destruct (unpack_unsigned_lem frame' start n order Hs Hn) as (raw' & -> & Hr' & Hbit).
  { unfold len. by rewrite Hlen. }
  do 2 f_equal. apply Z.bits_inj'. intros i Hi. destruct (decide (i < n)).
  - by rewrite Hbit, Hin by lia.
  - rewrite (proj1 (small_bits raw' n ltac:(lia) ltac:(lia))) by lia.
    by rewrite (proj1 (small_bits raw n ltac:(lia) ltac:(lia))) by lia.
Qed.

(** ** Two's complement *)

Definition in_range (n value : Z) : Prop := - 2 ^ (n - 1) ≤ value < 2 ^ (n - 1).

Lemma truncate_mod n value : 1 ≤ n ≤ 64 →
  Z.land (wrap 64 value) (mask n) = value mod 2 ^ n.
Proof.
  intros Hn. rewrite mask_ones, Z.land_ones by lia. unfold wrap.
  apply Z.mod_mod_divide. exists (2 ^ (64 - n)). rewrite <-Z.pow_add_r by lia. f_equal. lia.
Qed.

Lemma pow_half n : 1 ≤ n → 2 ^ n = 2 * 2 ^ (n - 1) ∧ 0 < 2 ^ (n - 1).
Proof.
  intros Hn. split; [|apply Z.pow_pos_nonneg; lia].
  rewrite <-Z.pow_succ_r by lia. f_equal. lia.
Qed.

Lemma mod_cases n value : 1 ≤ n → in_range n value →
  value mod 2 ^ n = if decide (0 ≤ value) then value else value + 2 ^ n.
Proof.
  intros Hn Hv. unfold in_range in Hv. destruct (pow_half n Hn) as [Hp Hpos].
  case_decide; [apply Z.mod_small; lia|].
  rewrite <-(Z.mod_add _ 1), Z.mod_small by lia. lia.
Qed.

Lemma sign_extend_mod n value : 1 ≤ n ≤ 64 → in_range n value →
  sign_extend (value mod 2 ^ n) n = value.
Proof.
  intros Hn Hv. pose proof (mod_cases n value ltac:(lia) Hv) as Hm. unfold in_range in Hv.
  destruct (pow_half n ltac:(lia)) as [Hp Hpos]. unfold sign_extend, as_i64.
  destruct (Z.leb_spec 64 n) as [H64|H64].
  - assert (n = 64) as -> by lia. change (64 - 1) with 63 in *. rewrite Hm.
    case_decide; destruct (Z.ltb_spec (if decide (0 ≤ value) then value else value + 2 ^ 64) (2 ^ 63));
      repeat case_decide; destruct (_ <? _) eqn:?; lia.
  - set (s := 64 - n).
    assert (0 < 2 ^ s) as Hs by (apply Z.pow_pos_nonneg; lia).
    assert (2 ^ 64 = 2 ^ n * 2 ^ s) as H2 by (rewrite <-Z.pow_add_r by lia; f_equal; lia).
    assert (2 ^ 63 = 2 ^ (n - 1) * 2 ^ s) as H3 by (rewrite <-Z.pow_add_r by lia; f_equal; lia).
    rewrite Z.shiftl_mul_pow2, wrap_small by (try lia; rewrite H2; case_decide; nia).
    rewrite Z.shiftr_div_pow2 by lia. rewrite Hm. case_decide as Hd.
    + rewrite (proj2 (Z.ltb_lt _ _)) by (rewrite H3; nia). apply Z.div_mul. lia.
    + rewrite (proj2 (Z.ltb_ge _ _)) by (rewrite H3; nia).
      replace ((value + 2 ^ n) * 2 ^ s - 2 ^ 64) with (value * 2 ^ s) by (rewrite H2; lia).
      apply Z.div_mul. lia.
Qed.

(** ** The round trips *)

(** Packing an unsigned value: for every frame, start bit, length, byte order
    and value, [pack_unsigned] returns without a panic; it reports an invalid
    length, a signal outside the frame or a value that does not fit, in this
    order and exactly then, and otherwise writes the value's bits to the signal's
    positions, leaves every other bit of the frame as it was, and
    [unpack_unsigned] reads the value back. *)
Theorem unsigned_roundtrip frame start n order raw :
  is_bytes frame → is_u 16 start → is_u 16 n → is_u 64 raw →
  if decide (1 ≤ n ≤ 64) then
    if decide (fits (len frame) start n order) then
      if decide (raw < 2 ^ n) then
        ∃ frame', pack_unsigned frame start n order raw = Ok (inl frame')
          ∧ packed frame frame' start n order raw
          ∧ unpack_unsigned frame' start n order = Ok (inl raw)
      else pack_unsigned frame start n order raw = Ok (inr ValueOutOfRange)
    else pack_unsigned frame start n order raw = Ok (inr SignalOutOfBounds)
  else pack_unsigned frame start n order raw = Ok (inr InvalidBitLength).
Proof.
  intros Hb [Hs _] [Hn _] Hr.
  pose proof (pack_unsigned_lem frame start n order raw Hb Hs Hn Hr) as H.
  case_decide as Hl; [|done]. case_decide as Hf; [|done]. case_decide as Hlt; [|done].
  destruct H as (frame' & H & Hp). exists frame'. split_and!; [done|done|].
  apply (unpack_packed frame); try done. split; [apply Hr|done].
Qed.

Lemma unsigned_roundtrip_witness :
  ∃ frame', pack_unsigned [255; 0; 255] 3 12 BigEndian 0xABC = Ok (inl frame')
    ∧ packed [255; 0; 255] frame' 3 12 BigEndian 0xABC
    ∧ unpack_unsigned frame' 3 12 BigEndian = Ok (inl 0xABC).
Proof.
  apply (unsigned_roundtrip [255; 0; 255] 3 12 BigEndian 0xABC).
  - repeat constructor; lia.
  - split; lia.
  - split; lia.
  - split; lia.
Defined.

Lemma pack_signed_lem frame start n order value :
  0 ≤ start → 0 ≤ n → in_range 64 value →
  pack_signed frame start n order value =
    if decide (1 ≤ n ≤ 64 ∧ fits (len frame) start n order ∧ ¬ in_range n value)
    then Ok (inr ValueOutOfRange)
    else pack_unsigned frame start n order (value mod 2 ^ n).
Proof.
  intros Hs Hn Hv. unfold pack_signed. rewrite check_spec by done. cbn [mbind res_bind].
  assert (∀ e x, check (len frame) start n order = Ok (inr e) →
            pack_unsigned frame start n order x = Ok (inr e)) as Herr.
  { intros e x H. unfold pack_unsigned. by rewrite H. }
  rewrite check_spec in Herr by done.
  case_decide as Hl; [|rewrite decide_False by tauto; symmetry; by apply Herr].
  case_decide as Hf; [|rewrite decide_False by tauto; symmetry; by apply Herr].
  rewrite Z.shiftl_1_l, truncate_mod by done. unfold in_range.
  destruct (Z.ltb_spec n 64), (Z.ltb_spec value (- 2 ^ (n - 1))), (Z.leb_spec (2 ^ (n - 1)) value);
    cbn [andb orb];
    first [rewrite decide_True by (split_and!; [lia|lia|done|lia]); done
          |rewrite decide_False; [done|]];
    try (intros (_ & _ & Hno); apply Hno; lia).
  all: assert (n = 64) as -> by lia; unfold in_range in Hv; change (64 - 1) with 63 in *; lia.
Qed.

(** Packing a signed value: [pack_signed] never panics; it accepts exactly the
    values representable in two's complement on the signal's width (with the
    errors of the unsigned case otherwise), touches no bit outside the signal,
    and [unpack_signed] gives the value back, sign included. *)
Theorem signed_roundtrip frame start n order value :
  is_bytes frame → is_u 16 start → is_u 16 n → in_range 64 value →
  if decide (1 ≤ n ≤ 64) then
    if decide (fits (len frame) start n order) then
      if decide (in_range n value) then
        ∃ frame', pack_signed frame start n order value = Ok (inl frame')
          ∧ packed frame frame' start n order (value mod 2 ^ n)
          ∧ unpack_signed frame' start n order = Ok (inl value)
      else pack_signed frame start n order value = Ok (inr ValueOutOfRange)
    else pack_signed frame start n order value = Ok (inr SignalOutOfBounds)
  else pack_signed frame start n order value = Ok (inr InvalidBitLength).
Proof.
  intros Hb [Hs _] [Hn _] Hv. rewrite pack_signed_lem by done.
  assert (0 < 2 ^ n) as Hp by (apply Z.pow_pos_nonneg; lia).
  pose proof (Z.mod_pos_bound value (2 ^ n) Hp) as Hmod.
  case_decide as Hl.
  - assert (2 ^ n ≤ 2 ^ 64) as H64 by (apply Z.pow_le_mono_r; lia).
    pose proof (pack_unsigned_lem frame start n order (value mod 2 ^ n) Hb Hs Hn
      ltac:(split; lia)) as H. rewrite (decide_True (P := 1 ≤ n ≤ 64)) in H by done.
    case_decide as Hf.
    + rewrite (decide_True (P := _ < _)) in H by lia. case_decide as Hr.
      * rewrite decide_False by tauto. destruct H as (frame' & H & Hpk).
        exists frame'. split_and!; [done|done|]. unfold unpack_signed.
        rewrite (unpack_packed frame frame' start n order (value mod 2 ^ n)) by done.
        cbn. by rewrite sign_extend_mod.
      * by rewrite decide_True.
    + by rewrite decide_False by tauto.
  - rewrite decide_False by tauto. unfold pack_unsigned. rewrite check_spec by done.
    by rewrite decide_False by done.
Qed.

Lemma signed_roundtrip_witness :
  ∃ frame', pack_signed [0; 255] 3 10 LittleEndian (-300) = Ok (inl frame')
    ∧ packed [0; 255] frame' 3 10 LittleEndian ((-300) mod 2 ^ 10)
    ∧ unpack_signed frame' 3 10 LittleEndian = Ok (inl (-300)).
Proof.
  apply (signed_roundtrip [0; 255] 3 10 LittleEndian (-300)).
  - repeat constructor; lia.
  - split; lia.
  - split; lia.
  - split; lia.
Defined.

End IdlBits.
