(* ===== verification/TelemetryRing.v ===== *)
(** * The telemetry export ring

    Models [taktora-telemetry-export/src/ring.rs]: a single-producer,
    single-consumer ring that overwrites its oldest record, with a sequence
    word per slot (a seqlock).  The payload is copied word by word, so that a
    read can be torn by a concurrent write; every atomic access and every word
    copied is one step, and the steps of the two threads interleave freely
    (sequentially consistent, which the source's release and acquire fences
    around the payload establish for these accesses). *)

From stdpp Require Import base list relations.
From Stdlib Require Import ZArith Lia.
From S2P Require Import Prelude.

Module TelemetryRing.

Definition WRITING : Z := Z.shiftl 1 63.

(** A record is its [K] words. *)
Abbreviation PodRecord := (list Z).

Record Slot := MkSlot {
  seq : Z;
  rec : PodRecord;
}.

Record Shared := MkShared {
  mask : Z;
  head : Z;
  slots : list Slot;
}.

Inductive RecvOutcome :=
| Received (r : PodRecord)
| Lapped (skipped : Z)
| Empty.

(** Where the producer stands inside [push]. *)
Inductive ppc :=
| PIdle
| PMark (w : Z) (r : PodRecord)               (* head loaded *)
| PWrite (w : Z) (r : PodRecord) (k : nat)    (* marker stored, [k] words written *)
| PPublish (w : Z) (r : PodRecord)            (* payload written *)
| PHead (w : Z) (r : PodRecord).              (* sequence stored *)

(** Where the consumer stands inside [try_recv]. *)
Inductive cpc :=
| CIdle
| CHead                                       (* at the top of the loop *)
| CSeq                                        (* head loaded, slot selected *)
| CRead (s1 : Z) (acc : PodRecord)            (* words read so far *)
| CCheck (s1 : Z) (r : PodRecord).            (* before the second load *)

Record ring := MkRing {
  shared : Shared;
  next : Z;
  prod : ppc;
  cons : cpc;
  pushed : list PodRecord;                    (* records published, in order *)
  outs : list RecvOutcome;                    (* outcomes returned, in order *)
}.

Section ring.
Context (K : nat).

Definition capacity (c : nat) : nat := (2 ^ Nat.log2_up (Nat.max c 2))%nat.
Definition with_capacity (c : nat) : Shared :=
  MkShared (Z.of_nat (capacity c) - 1) 0
    (replicate (capacity c) (MkSlot WRITING (replicate K 0))).
(** [split]: the consumer starts at sequence 0. *)
Definition split (c : nat) : ring := MkRing (with_capacity c) 0 PIdle CIdle [] [].

Definition slot_index (s : Shared) (w : Z) : nat := Z.to_nat (Z.land w (mask s)).
Definition set_slot (s : Shared) (i : nat) (x : Slot) : Shared :=
  MkShared (mask s) (head s) (<[i := x]> (slots s)).

(** One step of [push]; the record to push is chosen by the caller. *)
Definition step_push (g : ring) (r : PodRecord) : res ring :=
  let s := shared g in
  let upd s p := MkRing s (next g) p (cons g) (pushed g) (outs g) in
  match prod g with
  | PIdle => Ok (upd s (PMark (head s) r))
  | PMark w r =>
      x ← expect (slots s !! slot_index s w);
      Ok (upd (set_slot s (slot_index s w) (MkSlot (Z.lor w WRITING) (rec x))) (PWrite w r 0))
  | PWrite w r k =>
      if (k <? K)%nat then
        x ← expect (slots s !! slot_index s w);
        v ← expect (r !! k);
        Ok (upd (set_slot s (slot_index s w) (MkSlot (seq x) (<[k := v]> (rec x))))
              (PWrite w r (S k)))
      else Ok (upd s (PPublish w r))
  | PPublish w r =>
      x ← expect (slots s !! slot_index s w);
      Ok (upd (set_slot s (slot_index s w) (MkSlot w (rec x))) (PHead w r))
  | PHead w r =>
      if 2 ^ 64 <=? w + 1 then Panic
      else Ok (MkRing (MkShared (mask s) (w + 1) (slots s)) (next g) PIdle (cons g)
                 (pushed g ++ [r]) (outs g))
  end.

(** One step of [try_recv]. *)
Definition step_recv (g : ring) : res ring :=
  let s := shared g in
  let cap := mask s + 1 in
  let goto c := MkRing s (next g) (prod g) c (pushed g) (outs g) in
  let return_ n o := MkRing s n (prod g) CIdle (pushed g) (outs g ++ [o]) in
  match cons g with
  | CIdle => Ok (goto CHead)
  | CHead =>
      let h := head s in
      if h <=? next g then Ok (return_ (next g) Empty)
      else if cap <? h - next g then
        let oldest := h - cap in
        Ok (return_ oldest (Lapped (oldest - next g)))
      else Ok (goto CSeq)
  | CSeq =>
      x ← expect (slots s !! slot_index s (next g));
      let s1 := seq x in
      if negb (Z.land s1 WRITING =? 0) then Ok (goto CHead)
      else if negb (s1 =? next g) then Ok (goto CHead)
      else Ok (goto (CRead s1 []))
  | CRead s1 acc =>
      if (length acc <? K)%nat then
        x ← expect (slots s !! slot_index s (next g));
        v ← expect (rec x !! length acc);
        Ok (goto (CRead s1 (acc ++ [v])))
      else Ok (goto (CCheck s1 acc))
  | CCheck s1 r =>
      x ← expect (slots s !! slot_index s (next g));
      if negb (s1 =? seq x) then Ok (goto CHead)
      else Ok (return_ (next g + 1) (Received r))
  end.

(** An interleaving: a push step with a record for a fresh call, or a receive
    step. *)
Inductive act := Push (r : PodRecord) | Recv.
Definition step (g : ring) (a : act) : res ring :=
  match a with Push r => step_push g r | Recv => step_recv g end.

Inductive ring_step : ring → ring → Prop :=
| ring_step_intro g a g' :
    (∀ r, a = Push r → length r = K) → step g a = Ok g' → ring_step g g'.

Fixpoint run (g : ring) (acts : list act) : res ring :=
  match acts with
  | [] => Ok g
  | a :: acts => g ← step g a; run g acts
  end.

(** ** What the consumer must report *)

(** The outcomes account for the published records from [n] on: each record
    received is the next one, each lap skips at least one. *)
Fixpoint accounts (ps : list PodRecord) (n : Z) (os : list RecvOutcome) : option Z :=
  match os with
  | [] => Some n
  | Received r :: os =>
      if decide (ps !! Z.to_nat n = Some r) then accounts ps (n + 1) os else None
  | Lapped k :: os => if decide (0 < k) then accounts ps (n + k) os else None
  | Empty :: os => accounts ps n os
  end.


(** ** The invariant *)

Definition cap (g : ring) : Z := mask (shared g) + 1.
Definition n_pushed (g : ring) : Z := len (pushed g).
(** The slot of sequence number [j]. *)
Definition at_seq (g : ring) (j : Z) : option Slot := slots (shared g) !! slot_index (shared g) j.

(** The producer has marked its slot. *)
Definition busy (p : ppc) : bool :=
  match p with PWrite _ _ _ | PPublish _ _ | PHead _ _ => true | _ => false end.

Definition prod_ok (g : ring) : Prop :=
  let n := n_pushed g in
  match prod g with
  | PIdle => True
  | PMark w r => w = n ∧ length r = K
  | PWrite w r k => w = n ∧ length r = K ∧ (k ≤ K)%nat
      ∧ ∃ x, at_seq g w = Some x ∧ seq x = Z.lor w WRITING ∧ take k (rec x) = take k r
  | PPublish w r => w = n ∧ length r = K
      ∧ at_seq g w = Some (MkSlot (Z.lor w WRITING) r)
  | PHead w r => w = n ∧ length r = K ∧ at_seq g w = Some (MkSlot w r)
  end.

Definition cons_ok (g : ring) : Prop :=
  match cons g with
  | CIdle | CHead => True
  | CSeq => next g < n_pushed g
  | CRead s1 acc => s1 = next g ∧ next g < n_pushed g ∧ (length acc ≤ K)%nat
      ∧ ∀ x r, at_seq g (next g) = Some x → seq x = next g →
          pushed g !! Z.to_nat (next g) = Some r → acc = take (length acc) r
  | CCheck s1 r => s1 = next g ∧ next g < n_pushed g
      ∧ ∀ x, at_seq g (next g) = Some x → seq x = next g →
          pushed g !! Z.to_nat (next g) = Some r
  end.

Record ginv (g : ring) : Prop := {
  gi_cap : ∃ m, 0 ≤ m ∧ cap g = 2 ^ m ∧ len (slots (shared g)) = 2 ^ m;
  gi_head : head (shared g) = n_pushed g;
  gi_words : Forall (λ x, length (rec x) = K) (slots (shared g));
  gi_pushed : Forall (λ r, length r = K) (pushed g);
  gi_next : 0 ≤ next g ≤ n_pushed g;
  gi_acct : accounts (pushed g) 0 (outs g) = Some (next g);
  gi_resident : ∀ j r, n_pushed g - cap g ≤ j < n_pushed g → 0 ≤ j →
    (busy (prod g) = true → j ≠ n_pushed g - cap g) →
    pushed g !! Z.to_nat j = Some r → at_seq g j = Some (MkSlot j r);
  gi_prod : prod_ok g;
  gi_cons : cons_ok g;
}.

(** ** Slots *)

Lemma cap_pos g : ginv g → 0 < cap g.
Proof. intros Hg. destruct (gi_cap g Hg) as (m & Hm & -> & _). lia. Qed.

Lemma index_mod g j : ginv g → slot_index (shared g) j = Z.to_nat (j mod cap g).
Proof.
  intros Hg. destruct (gi_cap g Hg) as (m & Hm & Hc & _). unfold slot_index.
  rewrite (land_mask j (mask (shared g)) m); [by rewrite Hc|done|]. unfold cap in Hc. lia.
Qed.

Lemma index_inj g j k : ginv g →
  slot_index (shared g) j = slot_index (shared g) k ↔ j mod cap g = k mod cap g.
Proof.
  intros Hg. rewrite !index_mod by done. pose proof (cap_pos g Hg) as Hc.
  pose proof (Z.mod_pos_bound j _ Hc). pose proof (Z.mod_pos_bound k _ Hc). split; [lia|].
  by intros ->.
Qed.

Lemma at_seq_some g j : ginv g → ∃ x, at_seq g j = Some x ∧ length (rec x) = K.
Proof.
  intros Hg. destruct (gi_cap g Hg) as (m & Hm & Hc & Hl).
  destruct (lookup_lt_is_Some_2 (slots (shared g)) (slot_index (shared g) j)) as [x Hx].
  { rewrite index_mod by done. pose proof (Z.mod_pos_bound j (cap g) ltac:(lia)).
    unfold len in Hl. lia. }
  exists x. split; [done|]. pose proof (gi_words g Hg) as Hw.
  rewrite Forall_lookup in Hw. by apply (Hw _ _ Hx).
Qed.

(** Within one lap, equal slots are equal sequence numbers. *)
Lemma mod_window C j k : 0 < C → j mod C = k mod C → j - C < k < j + C → k = j.
Proof.
  intros HC Heq Hk. assert ((k - j) mod C = 0) as Hz.
  { rewrite Zminus_mod, Heq, Z.sub_diag. apply Z.mod_0_l. lia. }
  apply Z.mod_divide in Hz as [q Hq]; [|lia]. assert (q = 0) by nia. subst. lia.
Qed.

Lemma writing_neq w : 0 ≤ w < 2 ^ 63 → Z.lor w WRITING = w + 2 ^ 63.
Proof. apply lor_bit63. Qed.

Lemma land_writing w : 0 ≤ w < 2 ^ 63 → Z.land w WRITING = 0.
Proof. apply land_bit63. Qed.

(** A slot whose sequence word is the wanted one holds the wanted record. *)
Lemma seq_match g x : ginv g → n_pushed g < 2 ^ 63 → next g < n_pushed g →
  at_seq g (next g) = Some x → seq x = next g →
  pushed g !! Z.to_nat (next g) = Some (rec x).
Proof.
  intros Hg Hb Hn Hx Hs. pose proof (gi_next g Hg) as Hn0. pose proof (cap_pos g Hg) as HC.
  set (n := n_pushed g) in *. set (C := cap g) in *.
  (* the youngest published sequence number in this slot *)
  set (j := n - 1 - (n - 1 - next g) mod C).
  pose proof (Z.mod_pos_bound (n - 1 - next g) C HC) as Hm.
  assert (next g ≤ j < n) as Hj.
  { pose proof (Z.mod_le (n - 1 - next g) C ltac:(lia) HC). lia. }
  assert (j mod C = next g mod C) as Hmod.
  { unfold j. rewrite Zminus_mod_idemp_r. f_equal. lia. }
  destruct (lookup_lt_is_Some_2 (pushed g) (Z.to_nat j)) as [r Hr].
  { unfold n, n_pushed, len in Hj. lia. }
  assert (at_seq g j = at_seq g (next g)) as Hat.
  { unfold at_seq. f_equal. by apply index_inj. }
  destruct (decide (busy (prod g) = true ∧ j = n - C)) as [[Hbusy Hjc]|Hno].
  - exfalso.
    assert (∀ w, w = n → at_seq g w = Some x) as Hw.
    { intros w ->. rewrite <-Hx, <-Hat. unfold at_seq. f_equal. apply index_inj; [done|].
      rewrite Hjc. fold C. rewrite <-(Z.mod_add (n - C) 1) by lia. f_equal. lia. }
    pose proof (gi_prod g Hg) as Hp. unfold prod_ok in Hp. fold n in Hp.
    assert (0 ≤ n < 2 ^ 63) as Hnb by (unfold n, n_pushed, len in *; lia).
    destruct (prod g) as [|w r'|w r' k|w r'|w r']; try done.
    + destruct Hp as (-> & _ & _ & y & Hy & Hsy & _). rewrite Hw in Hy by done. simplify_eq.
      rewrite writing_neq in Hsy by done. lia.
    + destruct Hp as (-> & _ & Hy). rewrite Hw in Hy by done. simplify_eq. simpl in Hs.
      rewrite writing_neq in Hs by done. lia.
    + destruct Hp as (-> & _ & Hy). rewrite Hw in Hy by done. simplify_eq. simpl in Hs. lia.
  - assert (at_seq g j = Some (MkSlot j r)) as Hres.
    { apply (gi_resident g Hg); [fold n C; lia|lia|fold n C; tauto|done]. }
    rewrite Hat, Hx in Hres. injection Hres as ->. simpl in *. by rewrite <-Hs.
Qed.

(** ** Preservation: the producer *)

Lemma accounts_app ps qs os n k : accounts ps n os = Some k → accounts (ps ++ qs) n os = Some k.
Proof.
  revert n. induction os as [|[r|s|] os IH]; intros n; simpl; [done|..|apply IH].
  - case_decide as Hr; [|done]. rewrite decide_True by (by apply lookup_app_l_Some). apply IH.
  - case_decide; [apply IH|done].
Qed.
Lemma accounts_snoc ps os n k o : accounts ps n os = Some k →
  accounts ps n (os ++ [o]) = accounts ps k [o].
Proof.
  revert n. induction os as [|[r|s|] os IH]; intros n.
  - by intros [= ->].
  - simpl. case_decide; [apply IH|done].
  - simpl. case_decide; [apply IH|done].
  - apply IH.
Qed.

Lemma cons_keep g g' ps : cons_ok g → next g' = next g → cons g' = cons g →
  pushed g' = pushed g ++ ps → 0 ≤ next g →
  (next g < n_pushed g → ∀ x, at_seq g' (next g) = Some x → seq x = next g →
     ∃ y, at_seq g (next g) = Some y ∧ seq y = next g) → cons_ok g'.
Proof.
  intros Hc Hn Hcs Hp H0 Hs. unfold cons_ok in *. rewrite Hcs, Hn.
  assert (n_pushed g ≤ n_pushed g') as Hle
    by (unfold n_pushed; rewrite Hp, len_app; pose proof (len_nonneg ps); lia).
  assert (∀ r, next g < n_pushed g → pushed g' !! Z.to_nat (next g) = Some r →
    pushed g !! Z.to_nat (next g) = Some r) as Hlk.
  { intros r Hlt. rewrite Hp, lookup_app_l; [done|]. unfold n_pushed, len in Hlt. lia. }
  destruct (cons g) as [| | |s1 acc|s1 r]; try done; [lia| |].
  - destruct Hc as (-> & Hlt & Hla & Hacc). split_and!; [done|lia|done|].
    intros x r Hx Hsx Hr. destruct (Hs Hlt x Hx Hsx) as (y & Hy & Hsy).
    by eapply Hacc; eauto.
  - destruct Hc as (-> & Hlt & Hrec). split_and!; [done|lia|].
    intros x Hx Hsx. destruct (Hs Hlt x Hx Hsx) as (y & Hy & Hsy).
    rewrite Hp. apply lookup_app_l_Some. by eapply Hrec.
Qed.

(** The slot the producer owns, in a state with that slot replaced. *)
Lemma at_seq_set g j k x nx p c ps os : ginv g →
  at_seq (MkRing (set_slot (shared g) (slot_index (shared g) k) x) nx p c ps os) j
  = if decide (j mod cap g = k mod cap g) then Some x else at_seq g j.
Proof.
  intros Hg. unfold at_seq. cbn [shared set_slot slots].
  change (slot_index (set_slot (shared g) (slot_index (shared g) k) x) j)
    with (slot_index (shared g) j).
  case_decide as Hd.
  - apply index_inj in Hd; [|done]. rewrite Hd. apply list_lookup_insert_eq.
    destruct (at_seq_some g k Hg) as (y & Hy & _). by eapply lookup_lt_Some.
  - apply list_lookup_insert_ne. intros Heq. apply Hd. by apply index_inj.
Qed.

Lemma ginv_slot g x p :
  ginv g → n_pushed g < 2 ^ 63 → busy p = true → length (rec x) = K →
  (next g < n_pushed g → seq x ≠ next g) →
  let g' := MkRing (set_slot (shared g) (slot_index (shared g) (n_pushed g)) x) (next g) p
              (cons g) (pushed g) (outs g) in
  prod_ok g' → ginv g'.
Proof.
  intros Hg Hb Hbusy Hlx Hsx g' Hp. pose proof (cap_pos g Hg) as HC.
  pose proof Hg as [I1 I2 I3 I4 I5 I6 I7 I8 I9]. split; try done.
  - destruct I1 as (m & Hm & Hc & Hl). exists m. split_and!; try done.
    unfold len in *. cbn. by rewrite length_insert.
  - cbn. by apply Forall_insert.
  - intros j r Hj Hj0 Hnb Hr. unfold g'. rewrite at_seq_set by done. rewrite decide_False.
    + apply I7; try done. intros _. by apply Hnb.
    + intros Hmod. specialize (Hnb Hbusy).
      change (n_pushed g') with (n_pushed g) in *. change (cap g') with (cap g) in *.
      symmetry in Hmod. pose proof (mod_window (cap g) (n_pushed g) j HC Hmod). lia.
  - apply (cons_keep g g' []); try done; [by rewrite app_nil_r|lia|].
    intros Hlt y. unfold g'. rewrite at_seq_set by done. case_decide as Hd.
    + intros [= <-] Hs. by destruct (Hsx Hlt).
    + intros Hy Hs. by exists y.
Qed.

(** Steps that change only the producer's position. *)
Lemma ginv_prod g p : ginv g →
  busy p = busy (prod g) →
  prod_ok (MkRing (shared g) (next g) p (cons g) (pushed g) (outs g)) →
  ginv (MkRing (shared g) (next g) p (cons g) (pushed g) (outs g)).
Proof.
  intros [I1 I2 I3 I4 I5 I6 I7 I8 I9] Hb Hp. split; try done.
  intros j r Hj H0 Hnb. apply I7; try done. intros Hbb. apply Hnb. simpl. by rewrite Hb.
Qed.

(** Publishing the new head. *)
Lemma ginv_publish g r : ginv g → prod g = PHead (n_pushed g) r →
  ginv (MkRing (MkShared (mask (shared g)) (n_pushed g + 1) (slots (shared g))) (next g) PIdle
          (cons g) (pushed g ++ [r]) (outs g)).
Proof.
  intros Hg Hpg. pose proof (gi_prod g Hg) as Hp. unfold prod_ok in Hp. rewrite Hpg in Hp.
  destruct Hp as (_ & Hlr & Hx). pose proof (cap_pos g Hg) as HC.
  destruct Hg as [I1 I2 I3 I4 I5 I6 I7 I8 I9].
  assert (n_pushed g = Z.of_nat (length (pushed g))) as Hn by done.
  split; try done.
  - unfold n_pushed. cbn [pushed shared head]. by rewrite len_app.
  - cbn [pushed]. apply Forall_app. by repeat constructor.
  - cbn [next]. unfold n_pushed in *. cbn [pushed]. rewrite len_app. change (len [r]) with 1. lia.
  - by apply accounts_app.
  - intros j q. unfold n_pushed, cap. cbn [pushed shared mask prod]. rewrite len_app.
    change (len [r]) with 1. fold (n_pushed g). change (mask (shared g) + 1) with (cap g).
    intros Hj Hj0 _ Hq. apply lookup_app_Some in Hq as [Hq|[Hge Hq]].
    + apply lookup_lt_Some in Hq as Hlt. apply I7; [lia|done|lia|done].
    + apply list_lookup_singleton_Some in Hq as [Hz ->].
      assert (j = n_pushed g) as -> by lia. exact Hx.
  - apply (cons_keep g _ [r]); try done; [lia|]. intros Hlt x Hx' Hs. by exists x.
Qed.

Lemma take_S_insert (l r : list Z) k v : (k < length l)%nat → r !! k = Some v →
  take k l = take k r → take (S k) (<[k := v]> l) = take (S k) r.
Proof.
  intros Hk Hr Ht. rewrite (take_S_r _ _ v) by (by apply list_lookup_insert_eq).
  rewrite (take_S_r _ _ _ Hr). f_equal. by rewrite take_insert_ge by lia.
Qed.

Lemma push_step g r : ginv g → n_pushed g < 2 ^ 63 → length r = K →
  ∃ g', step_push g r = Ok g' ∧ (n_pushed g' < 2 ^ 63 → ginv g')
    ∧ n_pushed g ≤ n_pushed g' ∧ cons g' = cons g ∧ outs g' = outs g.
Proof.
  intros Hg Hb Hr. pose proof (gi_prod g Hg) as Hp. unfold prod_ok in Hp.
  assert (0 ≤ n_pushed g) as Hn0 by (unfold n_pushed, len; lia).
  pose proof (writing_neq (n_pushed g) ltac:(lia)) as Hw.
  pose proof (gi_next g Hg) as Hnx. unfold step_push.
  destruct (prod g) as [|w r'|w r' k|w r'|w r'] eqn:Hpg.
  - eexists. split; [done|]. split; [|done]. intros _. apply ginv_prod; [done|by rewrite Hpg|].
    unfold prod_ok. cbn. rewrite (gi_head g Hg). done.
  - destruct Hp as [-> Hlr]. destruct (at_seq_some g (n_pushed g) Hg) as (x & Hx & Hlx).
    unfold at_seq in Hx. rewrite Hx. cbn [expect mbind res_bind]. eexists. split; [done|].
    split; [|done]. intros _. apply ginv_slot; try done; cbn [seq rec]; [lia|].
    unfold prod_ok. cbn [prod]. split_and!; [done|done|lia|]. eexists.
    rewrite at_seq_set, decide_True by done. done.
  - destruct Hp as (-> & Hlr & Hk & x & Hx & Hsx & Ht).
    destruct (at_seq_some g (n_pushed g) Hg) as (x' & Hx' & Hlx). simplify_eq.
    destruct (Nat.ltb_spec k K) as [Hlt|Hge].
    + unfold at_seq in Hx. rewrite Hx. cbn [expect mbind res_bind].
      destruct (lookup_lt_is_Some_2 r' k) as [v Hv]; [lia|]. rewrite Hv. cbn [expect mbind res_bind].
      eexists. split; [done|]. split; [|done]. intros _.
      apply ginv_slot; try done; cbn [seq rec]; [by rewrite length_insert|lia|].
      unfold prod_ok. cbn [prod]. split_and!; [done|done|lia|]. eexists.
      rewrite at_seq_set, decide_True by done. split_and!; [done|done|].
      apply take_S_insert; [lia|done|done].
    + eexists. split; [done|]. split; [|done]. intros _. apply ginv_prod; [done|by rewrite Hpg|].
      unfold prod_ok. cbn [prod]. split_and!; [done|done|]. unfold at_seq in *. cbn. rewrite Hx.
      f_equal. destruct x as [sx rx]. cbn in *. rewrite !take_ge in Ht by lia. congruence.
  - destruct Hp as (-> & Hlr & Hx). pose proof Hx as Hx'. unfold at_seq in Hx. rewrite Hx.
    cbn [expect mbind res_bind]. eexists. split; [done|]. split; [|done]. intros _.
    apply ginv_slot; try done; cbn [seq rec]; [lia|].
    unfold prod_ok. cbn [prod]. split_and!; [done|done|].
    rewrite at_seq_set, decide_True by done. done.
  - destruct Hp as (-> & Hlr & Hx). rewrite (proj2 (Z.leb_gt _ _)) by lia.
    eexists. split; [done|]. split_and!; [|unfold n_pushed; cbn [pushed]; rewrite len_app; unfold len; simpl; lia|done|done].
    intros Hb'. by apply ginv_publish.
Qed.

(** ** Preservation: the consumer *)

Lemma ginv_recv g nx c os : ginv g → 0 ≤ nx ≤ n_pushed g →
  accounts (pushed g) 0 os = Some nx →
  cons_ok (MkRing (shared g) nx (prod g) c (pushed g) os) →
  ginv (MkRing (shared g) nx (prod g) c (pushed g) os).
Proof. intros [I1 I2 I3 I4 I5 I6 I7 I8 I9] Hn Ha Hc. by split. Qed.

Lemma recv_goto g c : ginv g →
  cons_ok (MkRing (shared g) (next g) (prod g) c (pushed g) (outs g)) →
  ginv (MkRing (shared g) (next g) (prod g) c (pushed g) (outs g)).
Proof. intros Hg Hc. apply ginv_recv; [done|apply Hg|apply Hg|done]. Qed.

Lemma recv_return g nx o : ginv g → 0 ≤ nx ≤ n_pushed g →
  accounts (pushed g) (next g) [o] = Some nx →
  ginv (MkRing (shared g) nx (prod g) CIdle (pushed g) (outs g ++ [o])).
Proof.
  intros Hg Hn Ha. apply ginv_recv; [done|done| |done].
  by rewrite (accounts_snoc _ _ _ _ o (gi_acct g Hg)).
Qed.

(** The step taken, leaving its invariant to [t]. *)
Ltac recv_next t := eexists; split; [done|]; split_and!; [t|done|done].

Lemma recv_step g : ginv g → n_pushed g < 2 ^ 63 →
  ∃ g', step_recv g = Ok g' ∧ ginv g' ∧ pushed g' = pushed g ∧ prod g' = prod g.
Proof.
  intros Hg Hb. pose proof (gi_next g Hg) as Hn. pose proof (cap_pos g Hg) as HC.
  pose proof (gi_cons g Hg) as Hc. unfold cons_ok in Hc.
  destruct (at_seq_some g (next g) Hg) as (x & Hx & Hlx).
  assert (slots (shared g) !! slot_index (shared g) (next g) = Some x) as Hx' by done.
  unfold step_recv. change (mask (shared g) + 1) with (cap g).
  destruct (cons g) as [| | |s1 acc|s1 r] eqn:Hcg.
  - recv_next ltac:(by apply recv_goto).
  - rewrite (gi_head g Hg). destruct (Z.leb_spec (n_pushed g) (next g)).
    + recv_next ltac:(by apply recv_return).
    + destruct (Z.ltb_spec (cap g) (n_pushed g - next g)).
      * recv_next idtac. apply recv_return; [done|lia|].
        simpl. rewrite decide_True by lia. f_equal. lia.
      * recv_next ltac:(by apply recv_goto).
  - rewrite Hx'. cbn [expect mbind res_bind].
    destruct (negb (Z.land (seq x) WRITING =? 0));
      [recv_next ltac:(by apply recv_goto)|].
    destruct (Z.eqb_spec (seq x) (next g)) as [Hs|Hs]; simpl negb.
    + recv_next idtac. apply recv_goto; [done|].
      unfold cons_ok. cbn [cons next]. split_and!; [done|done|simpl; lia|done].
    + recv_next ltac:(by apply recv_goto).
  - destruct Hc as (-> & Hlt & Hla & Hacc). destruct (Nat.ltb_spec (length acc) K) as [Hlk|Hge].
    + rewrite Hx'. cbn [expect mbind res_bind].
      destruct (lookup_lt_is_Some_2 (rec x) (length acc)) as [v Hv]; [lia|]. rewrite Hv.
      cbn [expect mbind res_bind]. recv_next idtac.
      apply recv_goto; [done|]. unfold cons_ok. cbn [cons next].
      rewrite length_app. simpl. split_and!; [done|done|lia|].
      intros y r Hy Hs Hr. change (at_seq g (next g) = Some y) in Hy.
      assert (y = x) as -> by congruence. cbn [pushed next] in Hr.
      pose proof (seq_match g x Hg Hb Hlt Hy Hs) as Hm. assert (r = rec x) as -> by congruence.
      rewrite Nat.add_1_r, (take_S_r _ _ _ Hv), <-(Hacc x (rec x) Hy Hs Hm). done.
    + recv_next idtac. apply recv_goto; [done|].
      unfold cons_ok. cbn [cons next]. split_and!; [done|done|].
      intros y Hy Hs. change (at_seq g (next g) = Some y) in Hy.
      assert (y = x) as -> by congruence.
      pose proof (seq_match g x Hg Hb Hlt Hy Hs) as Hm.
      change (pushed g !! Z.to_nat (next g) = Some acc).
      rewrite Hm. f_equal. rewrite (Hacc x (rec x) Hy Hs Hm). by rewrite take_ge by lia.
  - destruct Hc as (-> & Hlt & Hrec). rewrite Hx'. cbn [expect mbind res_bind].
    destruct (Z.eqb_spec (next g) (seq x)) as [Hs|Hs]; simpl negb.
    + recv_next idtac. apply recv_return; [done|lia|].
      simpl. by rewrite decide_True by (by eapply Hrec).
    + recv_next ltac:(by apply recv_goto).
Qed.

(** ** Reachable states *)

Lemma ginv_split c : ginv (split c).
Proof.
  split; try done.
  - exists (Z.of_nat (Nat.log2_up (Nat.max c 2))). unfold cap, split, with_capacity. cbn [shared mask slots].
    split_and!; [lia| |].
    + unfold capacity. rewrite Nat2Z.inj_pow. simpl. lia.
    + unfold len. rewrite length_replicate. unfold capacity. by rewrite Nat2Z.inj_pow.
  - cbn. apply Forall_replicate. cbn. apply length_replicate.
Qed.

Lemma step_ok g a : ginv g → n_pushed g < 2 ^ 63 → (∀ r, a = Push r → length r = K) →
  ∃ g', step g a = Ok g' ∧ (n_pushed g' < 2 ^ 63 → ginv g') ∧ n_pushed g ≤ n_pushed g'.
Proof.
  intros Hg Hb Ha. destruct a as [r|]; simpl.
  - destruct (push_step g r Hg Hb (Ha r eq_refl)) as (g' & ? & ? & ? & _). eauto.
  - destruct (recv_step g Hg Hb) as (g' & ? & ? & Hp & _). exists g'. unfold n_pushed. by rewrite Hp.
Qed.

Lemma step_grows g a g' : step g a = Ok g' → ∃ ps, pushed g' = pushed g ++ ps.
Proof.
  destruct a as [r|]; simpl; unfold step_push, step_recv, mbind, res_bind, expect; intros H;
    repeat (case_match; simplify_eq); simplify_eq; cbn [pushed];
    first [by exists []; rewrite app_nil_r | eauto].
Qed.

Lemma reachable_ginv c g : rtc ring_step (split c) g → n_pushed g < 2 ^ 63 → ginv g.
Proof.
  intros Hr. revert g Hr. refine (rtc_ind_r (λ g, n_pushed g < 2 ^ 63 → ginv g) _ _ _).
  { intros _. apply ginv_split. }
  intros g g' _ [g0 a g1 Ha Hs] IH Hb.
  assert (n_pushed g0 < 2 ^ 63) as Hb0.
  { destruct (step_grows g0 a g1 Hs) as [ps Hps]. unfold n_pushed in *.
    rewrite Hps, len_app in Hb. pose proof (len_nonneg ps). lia. }
  destruct (step_ok g0 a (IH Hb0) Hb0 Ha) as (g2 & Hs' & Hi & _).
  rewrite Hs in Hs'. injection Hs' as <-. auto.
Qed.

(** ** The consumer alone *)

Definition with_cons (g : ring) (c : cpc) : ring :=
  MkRing (shared g) (next g) (prod g) c (pushed g) (outs g).

Lemma run_app g as1 as2 : run g (as1 ++ as2) = g ← run g as1; run g as2.
Proof.
  revert g. induction as1 as [|a as1 IH]; intros g; [done|]. simpl.
  destruct (step g a) as [g1|]; [apply IH|done].
Qed.

Lemma read_loop g r j acc : at_seq g (next g) = Some (MkSlot (next g) r) → length r = K →
  (length acc + j = K)%nat → acc = take (length acc) r →
  run (with_cons g (CRead (next g) acc)) (replicate j Recv) = Ok (with_cons g (CRead (next g) r)).
Proof.
  intros Hx Hr. revert acc. induction j as [|j IH]; intros acc Hl Ha.
  - simpl. rewrite Ha, take_ge by lia. done.
  - cbn [replicate run step step_recv with_cons cons next shared prod pushed outs].
    rewrite (proj2 (Nat.ltb_lt _ _)) by lia. unfold at_seq in Hx. rewrite Hx.
    cbn [expect mbind res_bind rec].
    destruct (lookup_lt_is_Some_2 r (length acc)) as [v Hv]; [lia|]. rewrite Hv.
    cbn [expect mbind res_bind]. apply (IH (acc ++ [v])).
    + rewrite length_app. simpl. lia.
    + rewrite length_app. simpl. by rewrite Nat.add_1_r, (take_S_r _ _ _ Hv), <-Ha.
Qed.

(** What [try_recv] returns when the producer is between pushes. *)
Definition quiet_outcome (g : ring) : option RecvOutcome :=
  if n_pushed g <=? next g then Some Empty
  else if cap g <? n_pushed g - next g then Some (Lapped (n_pushed g - cap g - next g))
  else Received <$> pushed g !! Z.to_nat (next g).

Lemma recv_alone g : ginv g → n_pushed g < 2 ^ 63 → prod g = PIdle → cons g = CIdle →
  ∃ k g' o, (k ≤ K + 5)%nat ∧ run g (replicate k Recv) = Ok g' ∧ cons g' = CIdle
    ∧ pushed g' = pushed g ∧ outs g' = outs g ++ [o] ∧ quiet_outcome g = Some o.
Proof.
  intros Hg Hb Hp Hc. pose proof (gi_next g Hg) as Hn. unfold quiet_outcome.
  assert (step_recv g = Ok (with_cons g CHead)) as S1 by (unfold step_recv; by rewrite Hc).
  assert (∀ g1, step_recv (with_cons g CHead) = Ok g1 → run g [Recv; Recv] = Ok g1) as S2.
  { intros g1 H. cbn [run step]. rewrite S1. cbn [mbind res_bind]. by rewrite H. }
  unfold step_recv in S2.
  cbn [with_cons cons shared next prod pushed outs] in S2. rewrite (gi_head g Hg) in S2.
  change (mask (shared g) + 1) with (cap g) in S2.
  destruct (Z.leb_spec (n_pushed g) (next g)) as [Hle|Hgt].
  { eexists 2%nat, _, _. split_and!; [lia|by apply S2|done..]. }
  destruct (Z.ltb_spec (cap g) (n_pushed g - next g)) as [Hlap|Hin].
  { eexists 2%nat, _, _. split_and!; [lia|by apply S2|done..]. }
  destruct (lookup_lt_is_Some_2 (pushed g) (Z.to_nat (next g))) as [r Hr].
  { unfold n_pushed, len in *. lia. }
  assert (length r = K) as Hlr.
  { pose proof (gi_pushed g Hg) as HF. rewrite Forall_lookup in HF. by eapply HF. }
  assert (at_seq g (next g) = Some (MkSlot (next g) r)) as Hx.
  { apply (gi_resident g Hg); [lia|lia|by rewrite Hp|done]. }
  pose proof Hx as Hx'. unfold at_seq in Hx'. rewrite Hr.
  eexists (2 + (1 + (K + 2)))%nat, _, (Received r).
  split; [lia|]. split; [|split; [|split; [|split; [|done]]]].
  - rewrite replicate_add, run_app. change (replicate 2 Recv) with [Recv; Recv].
    rewrite (S2 _ eq_refl). cbn [mbind res_bind]. rewrite replicate_add, run_app.
    assert (run (with_cons g CSeq) (replicate 1 Recv) = Ok (with_cons g (CRead (next g) []))) as S3.
    { cbn [replicate run step step_recv with_cons cons next shared prod pushed outs]. rewrite Hx'.
      cbn [expect mbind res_bind seq]. rewrite land_writing by lia. rewrite !Z.eqb_refl. done. }
    unfold with_cons in S3 at 1. rewrite S3. cbn [mbind res_bind]. rewrite replicate_add, run_app.
    rewrite (read_loop g r K []) by done. cbn [mbind res_bind].
    cbn [replicate run step step_recv with_cons cons next shared prod pushed outs].
    rewrite (proj2 (Nat.ltb_ge _ _)) by lia.
    cbn [mbind res_bind step_recv with_cons cons next shared prod pushed outs]. rewrite Hx'.
    cbn [expect mbind res_bind seq]. rewrite Z.eqb_refl. cbn [negb mbind res_bind]. reflexivity.
  - done.
  - done.
  - done.
Qed.
End ring.

Lemma run_rtc K g acts g' : Forall (λ a, ∀ r, a = Push r → length r = K) acts →
  run K g acts = Ok g' → rtc (ring_step K) g g'.
Proof.
  intros Ha. revert g. induction Ha as [|a acts Ha _ IH]; intros g; simpl; [by intros [= ->]|].
  destruct (step K g a) as [g1|] eqn:Hs; [|done]. simpl. intros H.
  eapply rtc_l; [by apply (ring_step_intro _ g a g1)|by apply IH].
Qed.

(** C39. No torn, duplicated, reordered or silently lost record: in every
    interleaving of the single accesses of one producer and one consumer, with
    payloads copied word by word and fewer than 2^63 records, the consumer's
    outcomes account exactly for the published records: each record received is
    the next one in publication order, bit for bit, and each lap reports exactly
    the records skipped; and neither thread ever panics. *)
Theorem ring_accounts K c g :
  rtc (ring_step K) (split K c) g → n_pushed g < 2 ^ 63 →
  accounts (pushed g) 0 (outs g) = Some (next g)
  ∧ 0 ≤ next g ≤ n_pushed g
  ∧ (∀ a, (∀ r, a = Push r → length r = K) → step K g a ≠ Panic).
Proof.
  intros Hr Hb. pose proof (reachable_ginv K c g Hr Hb) as Hg. split_and!.
  - apply Hg.
  - apply Hg.
  - apply Hg.
  - intros a Ha Hs. destruct (step_ok K g a Hg Hb Ha) as (g' & Hs' & _). congruence.
Qed.

(** Two slots, two-word records: the first read is torn by the third push and
    discarded, the consumer is lapped by one record and receives the others. *)
Definition demo_acts : list act :=
  replicate 7 (Push [1; 1]) ++ replicate 4 Recv ++ replicate 7 (Push [2; 2])
  ++ replicate 4 (Push [3; 3]) ++ replicate 6 Recv ++ replicate 3 (Push [3; 3])
  ++ replicate 30 Recv.
Definition demo_end : ring :=
  match run 2 (split 2 2) demo_acts with Ok g => g | Panic => split 2 2 end.

Lemma ring_accounts_witness :
  accounts (pushed demo_end) 0 (outs demo_end) = Some (next demo_end) ∧ next demo_end = 3.
Proof.
  split; [|vm_compute; reflexivity].
  apply (ring_accounts 2 2 demo_end).
  - apply (run_rtc 2 _ demo_acts); [|vm_compute; reflexivity].
    apply Forall_forall. intros a Ha r ->. unfold demo_acts in Ha.
    repeat (apply elem_of_app in Ha as [Ha|Ha]); apply elem_of_replicate in Ha as [Ha _];
      simplify_eq; reflexivity.
  - vm_compute. reflexivity.
Defined.

(** A receive with the producer between pushes returns within [K + 5] steps,
    with [Empty] when everything has been received, the exact number of lost
    records when the consumer was lapped, and the next record otherwise. *)
Theorem try_recv_quiet K c g :
  rtc (ring_step K) (split K c) g → n_pushed g < 2 ^ 63 → prod g = PIdle → cons g = CIdle →
  ∃ k g' o, (k ≤ K + 5)%nat ∧ run K g (replicate k Recv) = Ok g' ∧ cons g' = CIdle
    ∧ pushed g' = pushed g ∧ outs g' = outs g ++ [o] ∧ quiet_outcome g = Some o.
Proof.
  intros Hr Hb Hp Hc. apply recv_alone; try done. by eapply reachable_ginv.
Qed.

Lemma try_recv_quiet_witness :
  ∃ k g' o, (k ≤ 7)%nat ∧ run 2 (split 2 2) (replicate k Recv) = Ok g' ∧ cons g' = CIdle
    ∧ pushed g' = [] ∧ outs g' = [o] ∧ o = Empty.
Proof.
  destruct (try_recv_quiet 2 2 (split 2 2)) as (k & g' & o & H1 & H2 & H3 & H4 & H5 & H6).
  - apply rtc_refl.
  - vm_compute. reflexivity.
  - reflexivity.
  - reflexivity.
  - exists k, g', o. split_and!; try done. vm_compute in H6. congruence.
Defined.
End TelemetryRing.
