(* ===== verification/ConnHealth.v ===== *)
(** * Connector health

    Models [taktora-connector-core/src/health.rs] (the health state machine and
    its monitor) and [taktora-connector-can/src/health.rs] (per-interface
    sub-states, worst-of aggregation and the inbound-drop latch, shared by the
    CAN and J1939 connectors).  Instants are numbers passed to each call.  Every
    store to the drop latch happens under the monitor's lock, so each call is one
    step; the subscriber channels are a list of queues with a liveness flag. *)

From stdpp Require Import base gmap strings pretty fin_maps list.
From Stdlib Require Import ZArith Lia.
From S2P Require Import Prelude.

Module ConnHealth.

(** ** The state machine *)

Inductive ConnectorHealth :=
| Up
| Connecting (since : Z)
| Degraded (reason : string)
| Down (reason : string) (since : Z).

Inductive ConnectorHealthKind := KUp | KConnecting | KDegraded | KDown.

#[export] Instance kind_eq_dec : EqDecision ConnectorHealthKind.
Proof. solve_decision. Defined.

Definition kind (h : ConnectorHealth) : ConnectorHealthKind :=
  match h with
  | Up => KUp
  | Connecting _ => KConnecting
  | Degraded _ => KDegraded
  | Down _ _ => KDown
  end.

Record HealthEvent := MkEvent {
  ev_from : ConnectorHealth;
  ev_to : ConnectorHealth;
  ev_at : Z;
}.

Record IllegalTransition := MkIllegal {
  il_from : ConnectorHealthKind;
  il_to : ConnectorHealthKind;
}.

Definition is_legal_transition (from to : ConnectorHealthKind) : bool :=
  match from, to with
  | KConnecting, KUp | KConnecting, KDegraded | KConnecting, KDown
  | KUp, KDegraded | KUp, KDown
  | KDegraded, KUp | KDegraded, KConnecting | KDegraded, KDown
  | KDown, KConnecting => true
  | _, _ => false
  end.

(** [HealthMonitor]: the current state. *)
Definition HealthMonitor := ConnectorHealth.
Definition monitor_new (now : Z) : HealthMonitor := Connecting now.
Definition try_transition_to (m : HealthMonitor) (target : ConnectorHealth) (now : Z) :
  (HealthMonitor * HealthEvent) + IllegalTransition :=
  if is_legal_transition (kind m) (kind target)
  then inl (target, MkEvent m target now)
  else inr (MkIllegal (kind m) (kind target)).
(** [transition_to] panics on an illegal edge. *)
Definition transition_to (m : HealthMonitor) (target : ConnectorHealth) (now : Z) :
  res (HealthMonitor * HealthEvent) :=
  match try_transition_to m target now with inl r => Ok r | inr _ => Panic end.

(** ** The per-interface monitor *)

Inductive IfaceHealthKind := IConnecting | IUp | IDegraded | IDown.

#[export] Instance iface_kind_eq_dec : EqDecision IfaceHealthKind.
Proof. solve_decision. Defined.

Record IfaceState := MkIface {
  if_kind : IfaceHealthKind;
  last_error_at : option Z;
}.

Record CanHealthMonitor := MkMonitor {
  agg : HealthMonitor;
  ifaces : gmap string IfaceState;
  degraded_due_to_drops : bool;
}.

Definition health_new (names : list string) (now : Z) : CanHealthMonitor :=
  MkMonitor (monitor_new now)
    (foldl (λ m i, <[i := MkIface IConnecting None]> m) ∅ names) false.

Definition count_kind (k : IfaceHealthKind) (m : gmap string IfaceState) : nat :=
  size (filter (λ p, if_kind p.2 = k) m).

Definition aggregate (m : gmap string IfaceState) (triggering : string) (now : Z) : ConnectorHealth :=
  if decide (m = ∅) then Connecting now
  else
    let up := count_kind IUp m in
    let degraded := count_kind IDegraded m in
    let down := count_kind IDown m in
    if (down =? size m)%nat then
      Down ("all ifaces down (latest: " +:+ triggering +:+ ")") now
    else if ((up =? 0) && (degraded =? 0))%nat then Connecting now
    else if ((0 <? degraded) || (0 <? down))%nat then
      Degraded ("iface " +:+ triggering +:+ " sub-state degraded or down")
    else Up.

Definition bump_iface (m : gmap string IfaceState) (iface : string) (k : IfaceHealthKind) (now : Z) :
  gmap string IfaceState :=
  let last := match m !! iface with Some s => last_error_at s | None => None end in
  <[iface := MkIface k (if bool_decide (k = IDegraded ∨ k = IDown) then Some now else last)]> m.

Definition set_iface (h : CanHealthMonitor) (iface : string) (k : IfaceHealthKind) (now : Z) :
  CanHealthMonitor * (option HealthEvent + IllegalTransition) :=
  let m := bump_iface (ifaces h) iface k now in
  let target := aggregate m iface now in
  if bool_decide (kind (agg h) = kind target)
  then (MkMonitor (agg h) m (degraded_due_to_drops h), inl None)
  else
    match try_transition_to (agg h) target now with
    | inr e => (MkMonitor (agg h) m (degraded_due_to_drops h), inr e)
    | inl (a, evt) =>
        (MkMonitor a m
           (if bool_decide (kind (ev_to evt) = KUp) then false else degraded_due_to_drops h),
         inl (Some evt))
    end.

Definition record_inbound_drop (h : CanHealthMonitor) (count threshold : N) (now : Z) :
  CanHealthMonitor * option HealthEvent :=
  if (count <? threshold)%N || degraded_due_to_drops h then (h, None)
  else if negb (bool_decide (kind (agg h) = KUp))
  then (MkMonitor (agg h) (ifaces h) true, None)
  else
    match try_transition_to (agg h) (Degraded ("dropped " +:+ pretty count +:+ " inbound frames")) now with
    | inl (a, evt) => (MkMonitor a (ifaces h) true, Some evt)
    | inr _ => (h, None)
    end.

Definition iface_kind (h : CanHealthMonitor) (iface : string) : option IfaceHealthKind :=
  if_kind <$> ifaces h !! iface.

(** Calls on the monitor and the events they broadcast. *)
Inductive call :=
| SetIface (iface : string) (k : IfaceHealthKind) (now : Z)
| InboundDrop (count threshold : N) (now : Z).
Definition do_call (h : CanHealthMonitor) (c : call) : CanHealthMonitor * option HealthEvent :=
  match c with
  | SetIface i k now =>
      let '(h, r) := set_iface h i k now in
      (h, match r with inl o => o | inr _ => None end)
  | InboundDrop n t now => record_inbound_drop h n t now
  end.
Fixpoint do_calls (h : CanHealthMonitor) (cs : list call) : CanHealthMonitor * list HealthEvent :=
  match cs with
  | [] => (h, [])
  | c :: cs =>
      let '(h, o) := do_call h c in
      let '(h, es) := do_calls h cs in
      (h, option_list o ++ es)
  end.

(** ** Subscriptions *)

(** A channel: whether its receiver still exists, and everything sent on it. *)
Record channel := MkChannel { receiver_alive : bool; sent : list HealthEvent }.
(** All channels ever opened, and [subscribers] as indices into them. *)
Record Hub := MkHub { channels : list channel; subscribers : list nat }.

Definition hub_new : Hub := MkHub [] [].
Definition subscribe (u : Hub) : Hub * nat :=
  (MkHub (channels u ++ [MkChannel true []]) (subscribers u ++ [length (channels u)]),
   length (channels u)).
(** Dropping a receiver disconnects its channel; the sender stays listed. *)
Definition drop_receiver (u : Hub) (r : nat) : Hub :=
  MkHub (alter (λ c, MkChannel false (sent c)) r (channels u)) (subscribers u).
(** [tx.send]: fails when the receiver is gone. *)
Definition send (cs : list channel) (tx : nat) (e : HealthEvent) : list channel * bool :=
  match cs !! tx with
  | Some c =>
      if receiver_alive c then (<[tx := MkChannel true (sent c ++ [e])]> cs, true) else (cs, false)
  | None => (cs, false)
  end.
Fixpoint retain_send (cs : list channel) (txs : list nat) (e : HealthEvent) : list channel * list nat :=
  match txs with
  | [] => (cs, [])
  | tx :: txs =>
      let '(cs, ok) := send cs tx e in
      let '(cs, kept) := retain_send cs txs e in
      (cs, if ok then tx :: kept else kept)
  end.
Definition broadcast (u : Hub) (e : HealthEvent) : Hub :=
  let '(cs, kept) := retain_send (channels u) (subscribers u) e in MkHub cs kept.

(** The monitor with its subscribers. *)
Inductive hub_op := Call (c : call) | Subscribe | DropReceiver (r : nat).
Definition do_op (s : CanHealthMonitor * Hub) (o : hub_op) : CanHealthMonitor * Hub :=
  let '(h, u) := s in
  match o with
  | Call c =>
      let '(h, e) := do_call h c in
      (h, match e with Some e => broadcast u e | None => u end)
  | Subscribe => (h, fst (subscribe u))
  | DropReceiver r => (h, drop_receiver u r)
  end.
Definition do_ops (s : CanHealthMonitor * Hub) (os : list hub_op) := foldl do_op s os.
Definition calls_of (os : list hub_op) : list call :=
  omap (λ o, match o with Call c => Some c | _ => None end) os.

(** ** Aggregation *)

(** Some interface is in state [k]. *)
Definition has (k : IfaceHealthKind) (m : gmap string IfaceState) : Prop :=
  ∃ i s, m !! i = Some s ∧ if_kind s = k.
(** All interfaces are in state [k]. *)
Definition all (k : IfaceHealthKind) (m : gmap string IfaceState) : Prop :=
  ∀ i s, m !! i = Some s → if_kind s = k.

Lemma count_pos k m : (0 < count_kind k m)%nat ↔ has k m.
Proof.
  unfold count_kind, has. split.
  - intros Hp. destruct (map_choose (filter (λ p, if_kind p.2 = k) m)) as (i & s & Hi).
    { intros Heq. rewrite Heq, map_size_empty in Hp. lia. }
    apply map_lookup_filter_Some in Hi as [H1 H2]. eauto.
  - intros (i & s & Hi & Hk).
    assert (filter (λ p, if_kind p.2 = k) m !! i = Some s) as Hf
      by (by apply map_lookup_filter_Some).
    destruct (decide (size (filter (λ p, if_kind p.2 = k) m) = 0%nat)) as [Hz|]; [|lia].
    apply map_size_empty_iff in Hz. rewrite Hz in Hf. done.
Qed.

Lemma count_all k m : count_kind k m = size m ↔ all k m.
Proof.
  unfold count_kind, all. split.
  - intros Hs i s Hi. assert (filter (λ p, if_kind p.2 = k) m = m) as Heq.
    { apply map_subseteq_size_eq; [apply map_filter_subseteq|lia]. }
    rewrite <-Heq in Hi. by apply map_lookup_filter_Some in Hi as [_ ?].
  - intros Hall. f_equal. apply map_filter_id. intros i s Hi. simpl. eauto.
Qed.

Lemma all_has k m : m ≠ ∅ → all k m → has k m.
Proof. intros Hne Ha. destruct (map_choose m Hne) as (i & s & Hi). exists i, s. eauto. Qed.
Lemma all_not_has k k' m : all k m → k' ≠ k → ¬ has k' m.
Proof. intros Ha Hk (i & s & Hi & <-). by apply Hk, (Ha i). Qed.
(** Four states: an interface in none of three is in the fourth. *)
Lemma not_all_down m : m ≠ ∅ → ¬ all IDown m → has IUp m ∨ has IDegraded m ∨ has IConnecting m.
Proof.
  intros _ Hn. destruct (decide (map_Forall (λ _ s, if_kind s = IDown) m)) as [HF|HF].
  - exfalso. apply Hn. exact HF.
  - apply map_not_Forall in HF; [|apply _]. destruct HF as (i & s & Hi & Hk).
    destruct (if_kind s) eqn:E; [right; right|left|right; left|done]; by exists i, s.
Qed.

(** The branches of [aggregate]. *)
Lemma aggregate_cases m i now : m ≠ ∅ →
  (all IDown m ∧ kind (aggregate m i now) = KDown)
  ∨ (¬ all IDown m ∧ ¬ has IUp m ∧ ¬ has IDegraded m ∧ kind (aggregate m i now) = KConnecting)
  ∨ ((has IDegraded m ∨ has IUp m ∧ has IDown m) ∧ ¬ all IDown m
     ∧ kind (aggregate m i now) = KDegraded)
  ∨ (has IUp m ∧ ¬ has IDegraded m ∧ ¬ has IDown m ∧ ¬ all IDown m
     ∧ kind (aggregate m i now) = KUp).
Proof.
  intros Hne. unfold aggregate. rewrite decide_False by done.
  rewrite <-!count_pos, <-count_all.
  destruct (Nat.eqb_spec (count_kind IDown m) (size m)) as [Ha|Ha]; [by left|right].
  destruct (Nat.eqb_spec (count_kind IUp m) 0) as [Eu|Eu];
    destruct (Nat.eqb_spec (count_kind IDegraded m) 0) as [Ed|Ed]; cbn [andb].
  - left. split_and!; [done|lia|lia|done].
  - right; left. rewrite (proj2 (Nat.ltb_lt 0 (count_kind IDegraded m))) by lia.
    split_and!; [left; lia|done|done].
  - right. rewrite (proj2 (Nat.ltb_ge 0 (count_kind IDegraded m))) by lia. cbn [orb].
    destruct (Nat.ltb_spec 0 (count_kind IDown m)); [left|right].
    + split_and!; [right; lia|done|done].
    + split_and!; [lia|lia|lia|done|done].
  - right; left. rewrite (proj2 (Nat.ltb_lt 0 (count_kind IDegraded m))) by lia.
    split_and!; [left; lia|done|done].
Qed.

(** The aggregate is the documented worst-of rule: for every non-empty set of
    interfaces, the connector is [Down] exactly when all interfaces are down,
    [Degraded] exactly when one is degraded or some are up while others are down,
    [Up] exactly when one is up and none is degraded or down, and [Connecting]
    exactly when none is up or degraded and one is still connecting. *)
Theorem aggregate_worst_of m i now :
  m ≠ ∅ →
  (kind (aggregate m i now) = KDown ↔ all IDown m)
  ∧ (kind (aggregate m i now) = KDegraded ↔ has IDegraded m ∨ has IUp m ∧ has IDown m)
  ∧ (kind (aggregate m i now) = KUp ↔ has IUp m ∧ ¬ has IDegraded m ∧ ¬ has IDown m)
  ∧ (kind (aggregate m i now) = KConnecting ↔ has IConnecting m ∧ ¬ has IUp m ∧ ¬ has IDegraded m).
Proof.
  intros Hne. pose proof (not_all_down m Hne) as Hn. pose proof (all_has IDown m Hne) as Hd.
  pose proof (all_not_has IDown IUp m) as H1. pose proof (all_not_has IDown IDegraded m) as H2.
  pose proof (all_not_has IDown IConnecting m) as H3.
  destruct (aggregate_cases m i now Hne) as [[Ha ->]|[(? & ? & ? & ->)|[(? & ? & ->)|(? & ? & ? & ? & ->)]]];
    naive_solver.
Qed.

Lemma aggregate_worst_of_witness :
  kind (aggregate {["can0" := MkIface IUp None; "can1" := MkIface IDown (Some 5)]} "can1" 9)
  = KDegraded.
Proof.
  apply (aggregate_worst_of {["can0" := MkIface IUp None; "can1" := MkIface IDown (Some 5)]}).
  - vm_compute. discriminate.
  - right. split.
    + exists "can0", (MkIface IUp None). split; vm_compute; reflexivity.
    + exists "can1", (MkIface IDown (Some 5)). split; vm_compute; reflexivity.
Defined.

(** ** Transitions *)

(** The transitions of the aggregate the state machine does not have. *)
Definition lags (from to : ConnectorHealthKind) : Prop :=
  from = KUp ∧ to = KConnecting ∨ from = KDown ∧ (to = KUp ∨ to = KDegraded).

Lemma legal_iff from to :
  is_legal_transition from to = true ↔ from ≠ to ∧ ¬ lags from to.
Proof. unfold lags. destruct from, to; simpl; naive_solver. Qed.

(** [set_iface] on every branch: the interface's sub-state is always
    recorded; the aggregate then follows the worst-of value of all interfaces,
    with exactly one event when its kind changes and none when it does not,
    except for the three edges the state machine lacks ([Up] to [Connecting],
    [Down] to [Up], [Down] to [Degraded]), where the call reports the illegal
    transition and the aggregate keeps its old value; a transition to [Up]
    re-arms the drop latch. *)
Theorem set_iface_exact h i k now :
  let m := bump_iface (ifaces h) i k now in
  let target := aggregate m i now in
  let '(h', r) := set_iface h i k now in
  ifaces h' = m ∧ if_kind <$> m !! i = Some k ∧ (∀ j, j ≠ i → m !! j = ifaces h !! j)
  ∧ (if decide (kind (agg h) = kind target)
     then r = inl None ∧ agg h' = agg h ∧ degraded_due_to_drops h' = degraded_due_to_drops h
     else if bool_decide (lags (kind (agg h)) (kind target))
     then r = inr (MkIllegal (kind (agg h)) (kind target)) ∧ agg h' = agg h
          ∧ degraded_due_to_drops h' = degraded_due_to_drops h
     else r = inl (Some (MkEvent (agg h) target now)) ∧ agg h' = target
          ∧ degraded_due_to_drops h'
            = if decide (kind target = KUp) then false else degraded_due_to_drops h).
Proof.
  intros m target. unfold set_iface. fold m. fold target.
  assert (if_kind <$> m !! i = Some k ∧ ∀ j, j ≠ i → m !! j = ifaces h !! j) as [Hi Hj].
  { unfold m, bump_iface. split; [by rewrite lookup_insert_eq|].
    intros j Hne. by rewrite lookup_insert_ne by done. }
  pose proof (legal_iff (kind (agg h)) (kind target)) as Hl. unfold try_transition_to.
  case_decide as Hk.
  { rewrite bool_decide_eq_true_2 by done. done. }
  rewrite (bool_decide_eq_false_2 (kind (agg h) = kind target)) by done.
  destruct (is_legal_transition (kind (agg h)) (kind target)) eqn:El.
  - rewrite (bool_decide_eq_false_2 (lags _ _)) by (by apply Hl).
    split_and!; try done. simpl. by repeat case_decide.
  - assert (lags (kind (agg h)) (kind target)) as Hlag.
    { destruct (decide (lags (kind (agg h)) (kind target))) as [|Hn]; [done|].
      assert (false = true) by (apply Hl; done). done. }
    by rewrite bool_decide_eq_true_2.
Qed.

(** ** Histories of calls *)

(** [es] leads from [a] to [b] along edges of the state machine. *)
Fixpoint event_path (a : ConnectorHealth) (es : list HealthEvent) (b : ConnectorHealth) : Prop :=
  match es with
  | [] => a = b
  | e :: es => ev_from e = a ∧ is_legal_transition (kind a) (kind (ev_to e)) = true
               ∧ event_path (ev_to e) es b
  end.

Lemma do_call_event h c :
  let '(h', o) := do_call h c in
  match o with
  | None => agg h' = agg h
  | Some e => ev_from e = agg h ∧ ev_to e = agg h' ∧ is_legal_transition (kind (agg h)) (kind (agg h')) = true
  end.
Proof.
  destruct c as [i k now|n t now]; simpl.
  - unfold set_iface, try_transition_to. case_bool_decide; [done|].
    by destruct (is_legal_transition _ _) eqn:E.
  - unfold record_inbound_drop, try_transition_to.
    destruct (_ || _); [done|]. case_bool_decide as Hk; simpl; [|done].
    by rewrite Hk.
Qed.

(** The latch is only set while the aggregate is not [Up]. *)
Definition latch_ok (h : CanHealthMonitor) : Prop :=
  degraded_due_to_drops h = true → kind (agg h) ≠ KUp.

Lemma do_call_latch h c : latch_ok h → latch_ok (fst (do_call h c)).
Proof.
  unfold latch_ok. intros Hl. destruct c as [i k now|n t now]; simpl.
  - unfold set_iface, try_transition_to. case_bool_decide; [done|].
    destruct (is_legal_transition _ _) eqn:E; simpl; [|done].
    case_bool_decide; [done|]. done.
  - unfold record_inbound_drop, try_transition_to.
    destruct (_ || _); [done|]. case_bool_decide as Hk; simpl; [|done].
    by rewrite Hk.
Qed.

Lemma do_calls_path h cs :
  latch_ok h →
  let '(h', es) := do_calls h cs in event_path (agg h) es (agg h') ∧ latch_ok h'.
Proof.
  revert h. induction cs as [|c cs IH]; intros h Hl; simpl; [done|].
  pose proof (do_call_event h c) as He. pose proof (do_call_latch h c Hl) as Hl'.
  destruct (do_call h c) as [h1 o]. specialize (IH h1 Hl').
  destruct (do_calls h1 cs) as [h2 es]. destruct IH as [Hp Hl2]. split; [|done].
  destruct o as [e|]; simpl; [|by rewrite <-He].
  destruct He as (? & Ht & ?). rewrite Ht. done.
Qed.

(** From construction on, for every sequence of sub-state updates and drop
    reports, the broadcast events form one path of the state machine: the first
    leaves the initial [Connecting], each leaves the state the previous one
    entered along a legal edge, and the last enters the state the monitor
    reports.  A monitor whose drop latch is set is never [Up]. *)
Theorem events_form_path names t0 cs :
  let '(h, es) := do_calls (health_new names t0) cs in
  event_path (Connecting t0) es (agg h) ∧ latch_ok h.
Proof. apply (do_calls_path (health_new names t0)). done. Qed.

(** ** Reopening an interface *)

(** The two updates a gateway makes when it reopens an interface. *)
Definition reopen (h : CanHealthMonitor) (i : string) (now : Z) : CanHealthMonitor :=
  fst (set_iface (fst (set_iface h i IConnecting now)) i IUp now).

(** The aggregate after an update, by kinds. *)
Lemma set_iface_kind h i k now :
  let h' := fst (set_iface h i k now) in
  let t := kind (aggregate (bump_iface (ifaces h) i k now) i now) in
  ifaces h' = bump_iface (ifaces h) i k now
  ∧ kind (agg h') = if bool_decide (lags (kind (agg h)) t) then kind (agg h) else t.
Proof.
  unfold set_iface, try_transition_to. simpl.
  set (target := aggregate (bump_iface (ifaces h) i k now) i now).
  pose proof (legal_iff (kind (agg h)) (kind target)) as Hl.
  case_bool_decide as Hk; simpl.
  { split; [done|]. by case_bool_decide. }
  destruct (is_legal_transition (kind (agg h)) (kind target)) eqn:E; simpl; (split; [done|]).
  - rewrite bool_decide_eq_false_2; [done|]. by apply Hl.
  - case_bool_decide as Hn; [done|]. assert (false = true) by (apply Hl; done). done.
Qed.

Lemma bump_ne m i k now : bump_iface m i k now ≠ ∅.
Proof. apply insert_non_empty. Qed.
Lemma bump_has m i k now k' :
  has k' (bump_iface m i k now) ↔ k = k' ∨ ∃ j s, j ≠ i ∧ m !! j = Some s ∧ if_kind s = k'.
Proof.
  unfold has, bump_iface. split.
  - intros (j & s & Hj & Hs). apply lookup_insert_Some in Hj as [[<- <-]|[? ?]]; [by left|].
    right. exists j, s. naive_solver.
  - intros [->|(j & s & Hne & Hj & Hs)].
    + eexists i, _. split; [apply lookup_insert_eq|done].
    + exists j, s. by rewrite lookup_insert_ne.
Qed.

(** Some interface other than [i] is up or degraded. *)
Definition other_active (m : gmap string IfaceState) (i : string) : Prop :=
  ∃ j s, j ≠ i ∧ m !! j = Some s ∧ (if_kind s = IUp ∨ if_kind s = IDegraded).

Lemma aggregate_connecting_iff m i now :
  kind (aggregate (bump_iface m i IConnecting now) i now) = KConnecting ↔ ¬ other_active m i.
Proof.
  set (b := bump_iface m i IConnecting now).
  assert (has IUp b ∨ has IDegraded b ↔ other_active m i) as Ho.
  { unfold b, other_active. rewrite !bump_has. naive_solver. }
  assert (has IConnecting b) as Hc by (apply bump_has; by left).
  pose proof (all_not_has IDown IConnecting b) as Hd.
  destruct (aggregate_cases b i now (bump_ne _ _ _ _))
    as [[Ha ->]|[(? & ? & ? & ->)|[(? & ? & ->)|(? & ? & ? & ? & ->)]]]; naive_solver.
Qed.

Lemma aggregate_up_bump m i now :
  let t := kind (aggregate (bump_iface m i IUp now) i now) in t = KUp ∨ t = KDegraded.
Proof.
  simpl. set (b := bump_iface m i IUp now).
  assert (has IUp b) as Hu by (apply bump_has; by left).
  pose proof (all_not_has IDown IUp b) as Hd.
  destruct (aggregate_cases b i now (bump_ne _ _ _ _))
    as [[Ha ->]|[(? & ? & ? & ->)|[(? & ? & ->)|(? & ? & ? & ? & ->)]]]; naive_solver.
Qed.

Lemma bump_connecting_not_down m i now :
  kind (aggregate (bump_iface m i IConnecting now) i now) ≠ KDown.
Proof.
  set (b := bump_iface m i IConnecting now).
  assert (has IConnecting b) as Hc by (apply bump_has; by left).
  pose proof (all_not_has IDown IConnecting b) as Hd.
  destruct (aggregate_cases b i now (bump_ne _ _ _ _))
    as [[Ha ->]|[(? & ? & ? & ->)|[(? & ? & ->)|(? & ? & ? & ? & ->)]]]; naive_solver.
Qed.

Lemma reopen_tracks h i now :
  let h' := reopen h i now in
  let target := kind (aggregate (ifaces h') i now) in
  (target = KUp ∨ target = KDegraded)
  ∧ (kind (agg h') = target ↔ ¬ (kind (agg h) = KDown ∧ other_active (ifaces h) i))
  ∧ (kind (agg h) = KDown → other_active (ifaces h) i → kind (agg h') = KDown).
Proof.
  unfold reopen. simpl.
  destruct (set_iface_kind h i IConnecting now) as [Hm1 Hk1].
  pose proof (aggregate_connecting_iff (ifaces h) i now) as Hc.
  pose proof (bump_connecting_not_down (ifaces h) i now) as Hnd.
  set (h1 := fst (set_iface h i IConnecting now)) in *.
  destruct (set_iface_kind h1 i IUp now) as [Hm2 Hk2].
  pose proof (aggregate_up_bump (ifaces h1) i now) as Hu. simpl in Hu.
  rewrite Hm2, Hk2. split; [exact Hu|]. rewrite Hk1. clear Hk1 Hk2 Hm1 Hm2.
  set (t1 := kind (aggregate (bump_iface (ifaces h) i IConnecting now) i now)) in *.
  set (t2 := kind (aggregate (bump_iface (ifaces h1) i IUp now) i now)) in *.
  clearbody t1 t2. generalize dependent (other_active (ifaces h) i). intros other Hc.
  destruct (kind (agg h)), t1, Hu as [-> | ->]; vm_compute; intuition discriminate.
Qed.

Lemma reopen_ifaces h i now :
  ifaces (reopen h i now)
  = bump_iface (bump_iface (ifaces h) i IConnecting now) i IUp now.
Proof.
  unfold reopen. destruct (set_iface_kind (fst (set_iface h i IConnecting now)) i IUp now) as [-> _].
  by destruct (set_iface_kind h i IConnecting now) as [-> _].
Qed.

(** Down with both of two interfaces up or degraded: no reopening helps. *)
Definition stuck (i j : string) (h : CanHealthMonitor) : Prop :=
  kind (agg h) = KDown
  ∧ (∃ s, ifaces h !! i = Some s ∧ (if_kind s = IUp ∨ if_kind s = IDegraded))
  ∧ (∃ s, ifaces h !! j = Some s ∧ (if_kind s = IUp ∨ if_kind s = IDegraded)).

Lemma reopen_stuck_one i j h now : i ≠ j → stuck i j h → stuck i j (reopen h i now).
Proof.
  intros Hne (Hd & Hi & s & Hj & Hs). unfold stuck. rewrite reopen_ifaces. split_and!.
  - apply (reopen_tracks h i now); [done|]. by exists j, s.
  - unfold bump_iface at 1. rewrite lookup_insert_eq. eauto.
  - unfold bump_iface. rewrite !lookup_insert_ne by done. eauto.
Qed.
Lemma stuck_sym i j h : stuck i j h → stuck j i h.
Proof. unfold stuck. tauto. Qed.

Lemma reopen_stuck i j l h : i ≠ j → Forall (λ p, p.1 = i ∨ p.1 = j) l → stuck i j h →
  kind (agg (foldl (λ h p, reopen h p.1 p.2) h l)) = KDown.
Proof.
  intros Hne Hl. revert h. induction Hl as [|p l Hp Hl IH]; intros h Hs; simpl; [apply Hs|].
  apply IH. destruct Hp as [-> | ->]; [by apply reopen_stuck_one|].
  apply stuck_sym, reopen_stuck_one; [done|]. by apply stuck_sym.
Qed.

(** Reopening an interface (its sub-state set to [Connecting], then to
    [Up]) leaves the connector at the worst-of value of its interfaces, [Up] or
    [Degraded], from every monitor state but one: a connector that is [Down]
    while another interface is already up or degraded stays [Down]. *)
Theorem reopen_tracks_iff h i now :
  let h' := reopen h i now in
  let target := kind (aggregate (ifaces h') i now) in
  (target = KUp ∨ target = KDegraded)
  ∧ (kind (agg h') = target ↔ ¬ (kind (agg h) = KDown ∧ other_active (ifaces h) i))
  ∧ (kind (agg h) = KDown → other_active (ifaces h) i → kind (agg h') = KDown).
Proof. exact (reopen_tracks h i now). Qed.

(** Two interfaces are down; one reports an error frame (sub-state
    [Degraded]), then the other is reopened: it is up, the connector is not. *)
Definition stuck_calls : list call :=
  [SetIface "can0" IUp 1; SetIface "can1" IUp 2; SetIface "can0" IDown 3; SetIface "can1" IDown 4;
   SetIface "can1" IDegraded 5; SetIface "can0" IConnecting 6; SetIface "can0" IUp 7].

(** A reachable monitor of two interfaces reports [Down] although one
    interface is up and the other degraded, and reopening either interface any
    number of times does not change that. *)
Theorem down_while_up :
  let h := fst (do_calls (health_new ["can0"; "can1"] 0) stuck_calls) in
  kind (agg h) = KDown
  ∧ iface_kind h "can0" = Some IUp ∧ iface_kind h "can1" = Some IDegraded
  ∧ (∀ l, Forall (λ p, p.1 = "can0" ∨ p.1 = "can1") l →
       kind (agg (foldl (λ h p, reopen h p.1 p.2) h l)) = KDown).
Proof.
  simpl. split_and!; [by vm_compute..|]. intros l Hl.
  apply (reopen_stuck "can0" "can1"); [done|done|].
  split_and!; vm_compute; eauto.
Qed.

(** ** Subscriptions *)

Definition content (u : Hub) (r : nat) : option (list HealthEvent) := sent <$> channels u !! r.
(** [r] is a live subscription that has been sent [es]. *)
Definition listening (u : Hub) (r : nat) (es : list HealthEvent) : Prop :=
  NoDup (subscribers u) ∧ (∀ tx, tx ∈ subscribers u → (tx < length (channels u))%nat)
  ∧ r ∈ subscribers u ∧ channels u !! r = Some (MkChannel true es).

Lemma send_other cs tx e r : r ≠ tx → fst (send cs tx e) !! r = cs !! r.
Proof.
  intros Hne. unfold send. destruct (cs !! tx) as [c|]; [|done].
  destruct (receiver_alive c); simpl; [|done]. by rewrite list_lookup_insert_ne.
Qed.
Lemma send_length cs tx e : length (fst (send cs tx e)) = length cs.
Proof.
  unfold send. destruct (cs !! tx) as [c|]; [|done].
  destruct (receiver_alive c); simpl; [|done]. apply length_insert.
Qed.

Lemma retain_send_spec txs e cs :
  NoDup txs →
  let '(cs', kept) := retain_send cs txs e in
  length cs' = length cs ∧ kept `sublist_of` txs
  ∧ (∀ r, r ∉ txs → cs' !! r = cs !! r)
  ∧ (∀ r es, r ∈ txs → cs !! r = Some (MkChannel true es) →
       r ∈ kept ∧ cs' !! r = Some (MkChannel true (es ++ [e]))).
Proof.
  revert cs. induction txs as [|tx txs IH]; intros cs Hnd; simpl.
  { split_and!; [done|done|done|]. intros r es Hr. by apply not_elem_of_nil in Hr. }
  apply NoDup_cons in Hnd as [Hni Hnd].
  pose proof (send_other cs tx e) as Hso. pose proof (send_length cs tx e) as Hsl.
  destruct (send cs tx e) as [cs1 ok] eqn:Es. simpl in Hso, Hsl. specialize (IH cs1 Hnd).
  destruct (retain_send cs1 txs e) as [cs2 kept]. destruct IH as (Hl & Hsub & Hout & Hin).
  split_and!.
  - lia.
  - destruct ok; by constructor.
  - intros r Hr. apply not_elem_of_cons in Hr as [Hr1 Hr2]. rewrite Hout by done. by apply Hso.
  - intros r es Hr Hc. apply elem_of_cons in Hr as [-> |Hr].
    + unfold send in Es. rewrite Hc in Es. simpl in Es. injection Es as <- <-.
      split; [apply list_elem_of_here|]. rewrite Hout by done. apply list_lookup_insert_eq.
      by eapply lookup_lt_Some.
    + assert (r ≠ tx) as Hne by (by intros ->). rewrite <-(Hso r Hne) in Hc.
      destruct (Hin r es Hr Hc) as [Hk ?]. split; [|done]. destruct ok; [by apply list_elem_of_further|done].
Qed.

Lemma broadcast_listening u r es e : listening u r es → listening (broadcast u e) r (es ++ [e]).
Proof.
  intros (Hnd & Hlt & Hr & Hc). unfold broadcast.
  pose proof (retain_send_spec (subscribers u) e (channels u) Hnd) as Hs.
  destruct (retain_send (channels u) (subscribers u) e) as [cs kept].
  destruct Hs as (Hl & Hsub & _ & Hin). destruct (Hin r es Hr Hc) as [Hk Hc'].
  split_and!; simpl; [by eapply sublist_NoDup|..]; [|done|done].
  intros tx Htx. rewrite Hl. apply Hlt. by eapply sublist_subseteq; [|exact Htx].
Qed.
(** The part of [listening] that does not concern one subscription. *)
Definition hub_ok (u : Hub) : Prop :=
  NoDup (subscribers u) ∧ ∀ tx, tx ∈ subscribers u → (tx < length (channels u))%nat.

Lemma subscribe_ok u : hub_ok u → hub_ok (fst (subscribe u)).
Proof.
  intros [Hnd Hlt]. split; simpl.
  - apply NoDup_app. split_and!; [done| |apply NoDup_singleton].
    intros tx Htx Htx'. apply list_elem_of_singleton in Htx' as ->. apply Hlt in Htx. lia.
  - intros tx [Htx|Htx]%elem_of_app; rewrite length_app; simpl; [apply Hlt in Htx; lia|].
    apply list_elem_of_singleton in Htx as ->. lia.
Qed.
Lemma subscribe_listening u r es : listening u r es → listening (fst (subscribe u)) r es.
Proof.
  intros (Hnd & Hlt & Hr & Hc). destruct (subscribe_ok u) as [Hnd' Hlt']; [done|].
  split_and!; [done|done|apply elem_of_app; by left|by apply lookup_app_l_Some].
Qed.
Lemma drop_listening u r r' es : r' ≠ r → listening u r es → listening (drop_receiver u r') r es.
Proof.
  intros Hne (Hnd & Hlt & Hr & Hc). unfold drop_receiver, listening. simpl. split_and!; try done.
  - intros tx Htx. rewrite length_alter. auto.
  - by rewrite list_lookup_alter_ne.
Qed.

Lemma do_op_ok h u o : hub_ok u → hub_ok (snd (do_op (h, u) o)).
Proof.
  intros [Hnd Hlt]. destruct o as [c| |r]; simpl.
  - destruct (do_call h c) as [h' [e|]]; [|done]. unfold hub_ok, broadcast. simpl.
    pose proof (retain_send_spec (subscribers u) e (channels u) Hnd) as Hs.
    destruct (retain_send _ _ _) as [cs kept]. destruct Hs as (Hl & Hsub & _). simpl.
    split; [by eapply sublist_NoDup|]. intros tx Htx. rewrite Hl. apply Hlt.
    by eapply sublist_subseteq; [|exact Htx].
  - by apply subscribe_ok.
  - split; simpl; [done|]. intros tx Htx. rewrite length_alter. auto.
Qed.
Lemma do_ops_ok os s : hub_ok (snd s) → hub_ok (snd (do_ops s os)).
Proof.
  revert s. induction os as [|o os IH]; intros [h u] Hok; simpl; [done|].
  apply IH. by apply do_op_ok.
Qed.

Lemma do_ops_listening os r h u es :
  listening u r es → DropReceiver r ∉ os →
  listening (snd (do_ops (h, u) os)) r (es ++ snd (do_calls h (calls_of os))).
Proof.
  revert h u es. induction os as [|o os IH]; intros h u es Hl Hn; simpl.
  { by rewrite app_nil_r. }
  apply not_elem_of_cons in Hn as [Hn1 Hn2]. destruct o as [c| |r']; simpl.
  - destruct (do_call h c) as [h' [e|]]; simpl.
    + specialize (IH h' _ _ (broadcast_listening u r es e Hl) Hn2).
      unfold calls_of in IH. destruct (do_calls h' _) as [h2 es2]. simpl in *.
      by rewrite <-app_assoc in IH.
    + specialize (IH h' u es Hl Hn2). unfold calls_of in IH. by destruct (do_calls h' _).
  - apply IH; [by apply subscribe_listening|done].
  - apply IH; [apply drop_listening; [congruence|done]|done].
Qed.

Lemma do_ops_app s os os' : do_ops s (os ++ os') = do_ops (do_ops s os) os'.
Proof. apply foldl_app. Qed.

(** Independent subscriptions: whatever happened before, and whatever other
    receivers are opened, dropped or pruned meanwhile, a subscription that is not
    dropped is sent exactly the events of the calls after it, in order. *)
Theorem subscription_complete names t0 before after :
  let s := do_ops (health_new names t0, hub_new) before in
  let '(u, r) := subscribe (snd s) in
  DropReceiver r ∉ after →
  content (snd (do_ops (fst s, u) after)) r = Some (snd (do_calls (fst s) (calls_of after))).
Proof.
  intros s. assert (hub_ok (snd s)) as Hok.
  { apply do_ops_ok. split; simpl; [constructor|]. intros tx Htx. by apply not_elem_of_nil in Htx. }
  destruct s as [h u]. cbn [fst snd] in *. unfold subscribe. intros Hn.
  eapply (do_ops_listening after _ h _ []) in Hn as (_ & _ & _ & Hc); last first.
  - destruct (do_op_ok h u Subscribe Hok) as [Hnd Hlt]. split_and!; [done|done| |].
    + apply elem_of_app. right. apply list_elem_of_here.
    + by apply list_lookup_middle.
  - exact (f_equal (fmap sent) Hc).
Qed.

Lemma subscription_complete_witness :
  let s := do_ops (health_new ["can0"] 0, hub_new) [Subscribe; Call (SetIface "can0" IUp 1)] in
  content (snd (do_ops (fst s, fst (subscribe (snd s)))
                  [DropReceiver 0; Call (InboundDrop 3 2 5); Call (SetIface "can0" IUp 6)])) 1
  = Some [MkEvent Up (Degraded "dropped 3 inbound frames") 5;
          MkEvent (Degraded "dropped 3 inbound frames") Up 6].
Proof.
  etransitivity.
  - apply (subscription_complete ["can0"] 0 [Subscribe; Call (SetIface "can0" IUp 1)]
             [DropReceiver 0; Call (InboundDrop 3 2 5); Call (SetIface "can0" IUp 6)]).
    vm_compute. intros Hin. repeat (inversion Hin as [|? ? ? Hin']; subst; clear Hin; rename Hin' into Hin).
  - vm_compute. reflexivity.
Defined.

End ConnHealth.
