(* ===== verification/UiCell.v ===== *)
(** * The latest-value cell of a UI property

    Models [taktora-connector-ui/src/cell.rs] (the seqlock [SeqlockBytes]) and
    [property.rs] ([Property::set], [PropertyReader::snapshot_into]) on top of it.
    Writers and readers run concurrently: every atomic access, every access of
    the producer's counter and every byte copied is one step, the bytes of a copy
    in any order, and the steps of all threads interleave freely (sequentially
    consistent, which the fences around the payload establish here). *)

From stdpp Require Import base list relations.
From Stdlib Require Import ZArith Lia.
From S2P Require Import Prelude.

Module UiCell.

Definition WRITING : Z := Z.shiftl 1 63.
Definition READ_RETRY_LIMIT : nat := 64.

(** The image bytes of one view model. *)
Abbreviation image := (list Z).

Record SeqlockBytes := MkCell {
  seq : Z;
  write_seq : Z;
  buf : image;
  clen : nat;
}.

Definition with_len (n : nat) : SeqlockBytes := MkCell 0 0 (replicate n 0) n.

(** Where a thread stands inside [write]. *)
Inductive WPc :=
| WIdle
| WFetch (src : image)                          (* length asserted *)
| WBump (src : image) (next : Z)                (* the counter read *)
| WMark (src : image) (next : Z)                (* the counter stored *)
| WCopy (src : image) (next : Z) (todo : list nat)
| WPublish (src : image) (next : Z).

(** Where a thread stands inside [read_into]: [n] attempts are left. *)
Inductive RPc :=
| RIdle
| RLoad (n : nat)
| RCopy (n : nat) (s1 : Z) (todo : list nat)
| RCheck (n : nat) (s1 : Z).

(** The result of one read with, for the specification, the number of writes
    completed when it began and when it returned. *)
Record ROut := MkOut {
  r_start : Z;
  r_end : Z;
  r_begun : Z;                                  (* writes begun when it returned *)
  r_result : option (Z * image);                (* the sequence and the bytes, or [false] *)
}.

#[export] Instance RPc_eq_dec : EqDecision RPc.
Proof. solve_decision. Defined.

Record Reader := MkReader {
  rpc : RPc;
  dst : image;                                  (* the caller's buffer *)
  at_start : Z;
  outs : list ROut;
}.

Record state := MkState {
  cell : SeqlockBytes;
  writers : list WPc;
  readers : list Reader;
  hist : list image;                            (* images whose write has begun *)
}.

Definition init (n w r : nat) : state :=
  MkState (with_len n) (replicate w WIdle) (replicate r (MkReader RIdle [] 0 [])) [].

Definition set_seq (c : SeqlockBytes) (x : Z) : SeqlockBytes := MkCell x (write_seq c) (buf c) (clen c).
Definition set_write_seq (c : SeqlockBytes) (x : Z) : SeqlockBytes := MkCell (seq c) x (buf c) (clen c).
Definition set_buf (c : SeqlockBytes) (b : image) : SeqlockBytes := MkCell (seq c) (write_seq c) b (clen c).

(** The indices of a copy that are left after index [i]. *)
Definition without (i : nat) (todo : list nat) : list nat := filter (λ j, j ≠ i) todo.

(** One step of [write(src)]; a copy step copies byte [i].  [None]: not a byte
    that is left to copy. *)
Definition step_write (src : image) (i : nat) (pc : WPc) (c : SeqlockBytes)
    : option (res (WPc * SeqlockBytes)) :=
  match pc with
  | WIdle => Some (if decide (length src = clen c) then Ok (WFetch src, c) else Panic)
  | WFetch src =>
      Some (if decide (write_seq c + 1 < 2 ^ 64) then Ok (WBump src (write_seq c + 1), c) else Panic)
  | WBump src next => Some (Ok (WMark src next, set_write_seq c next))
  | WMark src next =>
      Some (Ok (WCopy src next (List.seq 0 (clen c)), set_seq c (Z.lor next WRITING)))
  | WCopy src next [] => Some (Ok (WPublish src next, c))
  | WCopy src next todo =>
      if decide (i ∈ todo) then
        Some (v ← expect (src !! i);
              Ok (WCopy src next (without i todo), set_buf c (<[i := v]> (buf c))))
      else None
  | WPublish src next => Some (Ok (WIdle, set_seq c next))
  end.

(** Writes completed and begun, as the sequence word shows them. *)
Definition completed (c : SeqlockBytes) : Z :=
  if Z.land (seq c) WRITING =? 0 then seq c else seq c - WRITING - 1.

(** [dst.resize(self.len, 0)]. *)
Definition resize (n : nat) (d : image) : image := take n d ++ replicate (n - length d) 0.

Definition return_ (r : Reader) (c : SeqlockBytes) (begun : Z) (res : option (Z * image)) : Reader :=
  MkReader RIdle (dst r) (at_start r) (outs r ++ [MkOut (at_start r) (completed c) begun res]).
Definition goto (r : Reader) (pc : RPc) : Reader := MkReader pc (dst r) (at_start r) (outs r).

(** One step of [read_into(dst)]; a copy step copies byte [i]. *)
Definition step_read (i : nat) (c : SeqlockBytes) (begun : Z) (r : Reader) : option (res Reader) :=
  match rpc r with
  | RIdle =>
      let d := if decide (length (dst r) = clen c) then dst r else resize (clen c) (dst r) in
      Some (Ok (MkReader (RLoad READ_RETRY_LIMIT) d (completed c) (outs r)))
  | RLoad 0 => Some (Ok (return_ r c begun None))
  | RLoad (S n) =>
      let s1 := seq c in
      Some (Ok (if negb (Z.land s1 WRITING =? 0) then goto r (RLoad n)
                else if s1 =? 0 then return_ r c begun None
                else goto r (RCopy n s1 (List.seq 0 (clen c)))))
  | RCopy n s1 [] => Some (Ok (goto r (RCheck n s1)))
  | RCopy n s1 todo =>
      if decide (i ∈ todo) then
        Some (v ← expect (buf c !! i);
              Ok (MkReader (RCopy n s1 (without i todo)) (<[i := v]> (dst r)) (at_start r) (outs r)))
      else None
  | RCheck n s1 =>
      Some (Ok (if s1 =? seq c then return_ r c begun (Some (s1, dst r)) else goto r (RLoad n)))
  end.

(** An action: a step of writer [w] (with the image of a fresh call and the byte
    of a copy) or of reader [r]. *)
Inductive act :=
| Write (w : nat) (src : image) (i : nat)
| Read (r : nat) (i : nat).

Definition begins (pc : WPc) : list image := match pc with WMark src _ => [src] | _ => [] end.

Definition step (s : state) (a : act) : option (res state) :=
  match a with
  | Write w src i =>
      pc ← writers s !! w;
      (λ r, '(pc', c) ← r;
            Ok (MkState c (<[w := pc']> (writers s)) (readers s) (hist s ++ begins pc)))
        <$> step_write src i pc (cell s)
  | Read r i =>
      rd ← readers s !! r;
      (λ x, rd ← x; Ok (MkState (cell s) (writers s) (<[r := rd]> (readers s)) (hist s)))
        <$> step_read i (cell s) (len (hist s)) rd
  end.

Fixpoint run (s : state) (acts : list act) : option (res state) :=
  match acts with
  | [] => Some (Ok s)
  | a :: acts =>
      match step s a with
      | Some (Ok s) => run s acts
      | x => x
      end
  end.

(** ** The cell with one writer *)

Definition cell_step (s s' : state) : Prop := ∃ a, step s a = Some (Ok s').

(** The image of the [k]-th write, from 1. *)
Definition nth_write (h : list image) (k : Z) : option image := h !! Z.to_nat (k - 1).

(** No write is in progress: the word counts the writes and the buffer holds the
    last one. *)
Definition settled (c : SeqlockBytes) (h : list image) : Prop :=
  seq c = len h ∧ ∀ img, nth_write h (len h) = Some img → buf c = img.
Definition in_progress (c : SeqlockBytes) (h : list image) (src : image) (next : Z) : Prop :=
  next = len h ∧ seq c = next + 2 ^ 63 ∧ write_seq c = next ∧ nth_write h next = Some src.

Definition writer_ok (c : SeqlockBytes) (h : list image) (pc : WPc) : Prop :=
  length (buf c) = clen c ∧ Forall (λ img, length img = clen c) h ∧
  match pc with
  | WIdle => settled c h ∧ write_seq c = len h
  | WFetch src => settled c h ∧ write_seq c = len h ∧ length src = clen c
  | WBump src next => settled c h ∧ write_seq c = len h ∧ next = len h + 1 ∧ length src = clen c
  | WMark src next => settled c h ∧ write_seq c = next ∧ next = len h + 1 ∧ length src = clen c
  | WCopy src next todo =>
      in_progress c h src next ∧ todo ⊆ List.seq 0 (clen c) ∧
      ∀ i, (i < clen c)%nat → i ∉ todo → buf c !! i = src !! i
  | WPublish src next => in_progress c h src next ∧ buf c = src
  end.

(** Results in the order they were returned, within [lo] and [hi] writes. *)
Fixpoint ordered (lo : Z) (os : list ROut) (hi : Z) : Prop :=
  match os with
  | [] => lo ≤ hi
  | o :: os => lo ≤ r_start o ≤ r_end o ∧ ordered (r_end o) os hi
  end.

Definition out_ok (h : list image) (o : ROut) : Prop :=
  match r_result o with
  | Some (k, img) => r_start o ≤ k ≤ r_end o ∧ 1 ≤ k ∧ nth_write h k = Some img
  | None => r_start o = 0 ∨ r_start o < r_begun o
  end ∧ r_begun o ≤ len h.

(** The bytes copied so far belong to write [s1] as long as the word shows it. *)
Definition copied (c : SeqlockBytes) (h : list image) (r : Reader) (s1 : Z) (todo : list nat) : Prop :=
  at_start r ≤ s1 ≤ completed c ∧ 1 ≤ s1 ∧ length (dst r) = clen c ∧ todo ⊆ List.seq 0 (clen c) ∧
  (seq c = s1 → ∀ i, (i < clen c)%nat → i ∉ todo →
    dst r !! i = nth_write h s1 ≫= λ img, img !! i).

Definition reader_ok (c : SeqlockBytes) (h : list image) (r : Reader) : Prop :=
  Forall (out_ok h) (outs r) ∧
  match rpc r with
  | RIdle => ordered 0 (outs r) (completed c)
  | RLoad n =>
      ordered 0 (outs r) (at_start r) ∧ at_start r ≤ completed c ∧ length (dst r) = clen c
      ∧ (n = READ_RETRY_LIMIT ∨ at_start r < len h)
  | RCopy _ s1 todo => ordered 0 (outs r) (at_start r) ∧ copied c h r s1 todo
  | RCheck _ s1 => ordered 0 (outs r) (at_start r) ∧ copied c h r s1 []
  end.

Lemma ordered_le lo os hi hi' : ordered lo os hi → hi ≤ hi' → ordered lo os hi'.
Proof. revert lo. induction os as [|o os IH]; simpl; intros lo; [lia|]. naive_solver. Qed.

Lemma ordered_snoc lo os o hi : ordered lo os (r_start o) → r_start o ≤ r_end o → r_end o ≤ hi →
  ordered lo (os ++ [o]) hi.
Proof. revert lo. induction os as [|x os IH]; simpl; intros lo; [lia|]. naive_solver. Qed.

Lemma nth_write_app h h' k img : nth_write h k = Some img → nth_write (h ++ h') k = Some img.
Proof. apply lookup_app_l_Some. Qed.

Lemma nth_write_last h img : nth_write (h ++ [img]) (len h + 1) = Some img.
Proof.
  unfold nth_write. replace (Z.to_nat (len h + 1 - 1)) with (length h) by (unfold len; lia).
  by rewrite list_lookup_middle.
Qed.

Lemma nth_write_bound h k img : nth_write h k = Some img → 1 ≤ k → k ≤ len h.
Proof. intros H%lookup_lt_Some Hk. unfold len. lia. Qed.

Lemma nth_write_some h k : 1 ≤ k ≤ len h → ∃ img, nth_write h k = Some img.
Proof. intros Hk. apply lookup_lt_is_Some_2. unfold len in Hk. lia. Qed.

Lemma completed_settled c h : settled c h → len h < 2 ^ 63 → completed c = len h.
Proof.
  intros [Hs _] Hl. unfold completed, WRITING. rewrite Hs, land_bit63; [done|]. unfold len in *. lia.
Qed.

Lemma completed_progress c h src next : in_progress c h src next → len h < 2 ^ 63 →
  completed c = len h - 1.
Proof.
  intros (Hn & Hs & _) Hl. unfold completed, WRITING.
  rewrite Hs, land_bit63_set by (unfold len in *; lia).
  replace (2 ^ 63 =? 0) with false by done. rewrite Z.shiftl_1_l. lia.
Qed.

(** What readers rely on when a writer moves. *)
Definition advances (c c' : SeqlockBytes) : Prop :=
  clen c' = clen c ∧ completed c ≤ completed c' ∧
  ∀ s1, 1 ≤ s1 ≤ completed c → seq c' = s1 → seq c = s1.

Lemma advances_refl c c' : clen c' = clen c → seq c' = seq c → advances c c'.
Proof. intros Hl Hs. unfold advances, completed. rewrite Hs. by repeat split. Qed.

Lemma without_spec i j todo : j ∉ without i todo ↔ j ∉ todo ∨ j = i.
Proof.
  unfold without. rewrite list_elem_of_filter. destruct (decide (j = i)) as [->|]; [naive_solver|].
  destruct (decide (j ∈ todo)); naive_solver.
Qed.

Lemma all_indices (l l' : image) n : length l = n → length l' = n →
  (∀ i, (i < n)%nat → i ∉ @nil nat → l !! i = l' !! i) → l = l'.
Proof.
  intros Hl Hl' H. apply list_eq. intros i. destruct (decide (i < n)%nat).
  - apply H; [done|]. apply not_elem_of_nil.
  - rewrite !lookup_ge_None_2 by lia. done.
Qed.

Lemma without_sub i todo n : todo ⊆ List.seq 0 n → without i todo ⊆ List.seq 0 n.
Proof. unfold without. intros H j [_ Hj]%list_elem_of_filter. by apply H. Qed.

Lemma todo_lookup (l : image) i j todo : j :: todo ⊆ List.seq 0 (length l) → i ∈ j :: todo →
  ∃ v, l !! i = Some v.
Proof. intros H Hi%H%elem_of_seq. apply lookup_lt_is_Some_2. lia. Qed.

(** One byte more of a copy of [src] into [l]. *)
Lemma copy_byte (l src : image) i v todo : src !! i = Some v → length l = length src →
  (∀ j, (j < length l)%nat → j ∉ todo → l !! j = src !! j) →
  ∀ j, (j < length l)%nat → j ∉ without i todo → <[i := v]> l !! j = src !! j.
Proof.
  intros Hv Hl H j Hj Hw. destruct (decide (j = i)) as [->|Hne].
  - by rewrite list_lookup_insert_eq by done.
  - rewrite list_lookup_insert_ne by done. apply H; [done|]. apply without_spec in Hw. naive_solver.
Qed.

Lemma writer_copy c h x n i j todo v : writer_ok c h (WCopy x n (j :: todo)) → x !! i = Some v →
  writer_ok (set_buf c (<[i := v]> (buf c))) h (WCopy x n (without i (j :: todo))).
Proof.
  intros (Hb & Hh & Hp & Ht & Hc) Hv. assert (length x = clen c) as Hlx.
  { destruct Hp as (_ & _ & _ & Hx). eapply Forall_lookup_1 in Hh; [exact Hh|exact Hx]. }
  split; [by cbn; rewrite length_insert|]. split; [done|]. split; [done|].
  split; [by apply without_sub|]. cbn [buf clen set_buf]. rewrite <-Hb in *.
  apply copy_byte; [done|lia|done].
Qed.

(** A step of the only writer: it panics only on an image of the wrong size. *)
Lemma writer_step c h pc src i r : writer_ok c h pc → len h + 1 < 2 ^ 63 →
  step_write src i pc c = Some r →
  (pc = WIdle ∧ length src ≠ clen c ∧ r = Panic) ∨
  ∃ pc' c', r = Ok (pc', c') ∧ writer_ok c' (h ++ begins pc) pc' ∧ advances c c'.
Proof.
  intros Hok Hm H. assert (0 ≤ len h) by (unfold len; lia).
  pose proof Hok as (Hb & Hh & Hpc).
  destruct pc as [|x|x n|x n|x n todo|x n]; cbn [step_write begins] in *;
    rewrite ?app_nil_r; try (injection H as <-).
  - destruct (decide _) as [Hl|Hl]; [|by left]. right. eexists _, _.
    split; [done|]. split; [|by apply advances_refl]. destruct Hpc. split; [done|]. by split.
  - right. destruct Hpc as (Hs & Hw & Hl). rewrite decide_True by lia. eexists _, _.
    split; [done|]. split; [|by apply advances_refl].
    split; [done|]. split; [done|]. split; [done|]. split; [done|]. split; [lia|done].
  - right. destruct Hpc as (Hs & Hw & Hn & Hl). eexists _, _.
    split; [done|]. split; [|by apply advances_refl]. split; [done|]. split; [done|]. done.
  - right. destruct Hpc as (Hs & Hw & -> & Hl). eexists _, _. split; [done|].
    unfold WRITING. rewrite lor_bit63 by lia.
    assert (in_progress (set_seq c (len h + 1 + 2 ^ 63)) (h ++ [x]) x (len h + 1)) as Hp.
    { split; [rewrite len_app; done|]. split; [done|]. split; [done|apply nth_write_last]. }
    split.
    + split; [done|]. split; [apply Forall_app; auto|]. split; [done|]. split; [done|].
      intros j Hj []. apply elem_of_seq. cbn in Hj. lia.
    + assert (len (h ++ [x]) = len h + 1) as Hlx by (by rewrite len_app).
      split; [done|]. rewrite (completed_settled c h), (completed_progress _ _ _ _ Hp) by (done || lia).
      split; [lia|]. intros s1 Hs1 Heq. cbn in Heq. lia.
  - right. destruct todo as [|j todo].
    { injection H as <-. destruct Hpc as (Hp & _ & Hc). eexists _, _. split; [done|].
      split; [|by apply advances_refl]. split; [done|]. split; [done|]. split; [done|].
      destruct Hp as (_ & _ & _ & Hx). eapply all_indices; [done| |exact Hc].
      eapply Forall_lookup_1 in Hh; [exact Hh|exact Hx]. }
    destruct (decide _) as [Hi|]; [|done]. injection H as <-.
    destruct Hpc as (Hp & Ht & _). destruct (todo_lookup x i j todo) as [v Hv]; [|done|].
    { destruct Hp as (_ & _ & _ & Hx). eapply Forall_lookup_1 in Hh; [|exact Hx]. by rewrite Hh. }
    rewrite Hv. eexists _, _. split; [done|]. split; [by apply writer_copy|by apply advances_refl].
  - right. destruct Hpc as [Hp Hc]. eexists _, _. split; [done|].
    assert (settled (set_seq c n) h) as Hs.
    { destruct Hp as (-> & _ & _ & Hx). split; [done|]. cbn. intros img. rewrite Hx. naive_solver. }
    split.
    + split; [done|]. split; [done|]. split; [done|]. destruct Hp as (-> & _ & Hw & _). done.
    + split; [done|]. rewrite (completed_settled _ _ Hs), (completed_progress _ _ _ _ Hp) by lia.
      split; [lia|]. destruct Hp as (-> & _). cbn. lia.
Qed.

Lemma out_ok_app h h' o : out_ok h o → out_ok (h ++ h') o.
Proof.
  unfold out_ok. rewrite len_app. intros [H Hb]. split; [|unfold len in *; lia].
  destruct (r_result o) as [[k img]|]; [|done]. naive_solver eauto using nth_write_app.
Qed.

Lemma copied_frame c c' h h' r s1 todo : copied c h r s1 todo → advances c c' →
  len h < 2 ^ 63 → completed c ≤ len h → copied c' (h ++ h') r s1 todo.
Proof.
  intros (Hk & H1 & Hl & Ht & Hc) (Hcl & Hco & Hs) Hm Hle. split; [lia|]. split; [done|].
  rewrite Hcl. split; [done|]. split; [done|]. intros Hseq i Hi Hn.
  rewrite Hc by (try apply Hs; done || lia).
  destruct (nth_write_some h s1) as [img Himg]; [lia|]. by rewrite Himg, (nth_write_app _ _ _ _ Himg).
Qed.

(** Readers are not disturbed by a step of the writer. *)
Lemma reader_frame c c' h h' r : reader_ok c h r → advances c c' →
  len h < 2 ^ 63 → completed c ≤ len h → reader_ok c' (h ++ h') r.
Proof.
  intros [Ho Hp] Ha Hm Hle. pose proof Ha as (Hcl & Hco & _). split.
  { eapply Forall_impl; [exact Ho|]. intros o. apply out_ok_app. }
  destruct (rpc r).
  - by eapply ordered_le.
  - rewrite Hcl, len_app. destruct Hp as (? & ? & ? & ?). repeat split; try done; [lia|].
    assert (0 ≤ len h') by (unfold len; lia). naive_solver lia.
  - split; [apply Hp|]. eapply copied_frame; naive_solver.
  - split; [apply Hp|]. eapply copied_frame; naive_solver.
Qed.

(** While the word shows a write, the buffer holds it. *)
Lemma shown_write c h pc s1 : writer_ok c h pc → len h < 2 ^ 63 → seq c = s1 → s1 < 2 ^ 63 →
  s1 = len h ∧ (1 ≤ s1 → nth_write h s1 = Some (buf c)).
Proof.
  intros (_ & _ & Hpc) Hm Hs Hlt. assert (0 ≤ len h) by (unfold len; lia).
  assert (settled c h) as [Hq Hb].
  { destruct pc; try apply Hpc; destruct Hpc as [(-> & Hq & _) _]; lia. }
  split; [lia|]. intros H1. destruct (nth_write_some h (len h)) as [img Himg]; [lia|].
  replace s1 with (len h) by lia. by rewrite Himg, (Hb img).
Qed.

Lemma completed_bounds c h pc : writer_ok c h pc → len h < 2 ^ 63 →
  0 ≤ completed c ≤ len h ∧ (Z.land (seq c) WRITING ≠ 0 → completed c < len h)
  ∧ (Z.land (seq c) WRITING = 0 → seq c = completed c).
Proof.
  intros (_ & _ & Hpc) Hm. assert (0 ≤ len h) by (unfold len; lia).
  assert (settled c h ∨ ∃ x n, in_progress c h x n) as [Hs|(x & n & Hp)].
  { destruct pc; [left; apply Hpc..| |]; right; eexists _, _; apply Hpc. }
  - rewrite (completed_settled _ _ Hs) by done. destruct Hs as [-> _].
    unfold WRITING. rewrite land_bit63 by lia. naive_solver lia.
  - rewrite (completed_progress _ _ _ _ Hp) by done.
    destruct Hp as (-> & Hs & _ & Hx). rewrite Hs. unfold WRITING. rewrite land_bit63_set by lia.
    destruct h; [done|]. unfold len in *. cbn [length]. naive_solver lia.
Qed.

Lemma reader_return c h r o pc : writer_ok c h pc → len h < 2 ^ 63 →
  Forall (out_ok h) (outs r) → ordered 0 (outs r) (at_start r) → at_start r ≤ completed c →
  out_ok h (MkOut (at_start r) (completed c) (len h) o) → reader_ok c h (return_ r c (len h) o).
Proof.
  intros Hw Hm Hf Ho Ha Hok. split; [apply Forall_app; auto|].
  apply ordered_snoc; cbn; [done|lia|]. lia.
Qed.

Lemma ordered_bounds lo os hi : ordered lo os hi → lo ≤ hi.
Proof. revert lo. induction os as [|o os IH]; cbn; intros lo; [done|]. intros [? ?%IH]. lia. Qed.

Section reader.
Context (c : SeqlockBytes) (h : list image) (pc : WPc).
Context (Hw : writer_ok c h pc) (Hm : len h < 2 ^ 63).

(** An attempt begins. *)
Lemma reader_load n d a os : reader_ok c h (MkReader (RLoad (S n)) d a os) →
  let s1 := seq c in
  let r := MkReader (RLoad (S n)) d a os in
  reader_ok c h (if negb (Z.land s1 WRITING =? 0) then goto r (RLoad n)
                 else if s1 =? 0 then return_ r c (len h) None
                 else goto r (RCopy n s1 (List.seq 0 (clen c)))).
Proof.
  intros [Hf (Ho & Ha & Hl & Hn)]. pose proof (completed_bounds _ _ _ Hw Hm) as (Hcb & Hwr & Hsq).
  cbn [rpc dst at_start outs] in *. pose proof (ordered_bounds _ _ _ Ho) as H0a. cbn zeta.
  destruct (Z.eqb_spec (Z.land (seq c) WRITING) 0) as [Hz|Hz]; cbn [negb].
  2: { specialize (Hwr Hz). split; [done|]. cbn. repeat split; try done. right. lia. }
  specialize (Hsq Hz). destruct (Z.eqb_spec (seq c) 0) as [H0|H0].
  { eapply reader_return; try done. split; [left; cbn|cbn]; lia. }
  split; [done|]. split; [done|]. split; [cbn; lia|]. split; [lia|]. split; [done|]. split; [done|].
  intros _ j Hj []. apply elem_of_seq. lia.
Qed.

(** A byte is copied. *)
Lemma reader_copy n s1 i j todo d a os v :
  reader_ok c h (MkReader (RCopy n s1 (j :: todo)) d a os) → buf c !! i = Some v →
  reader_ok c h (MkReader (RCopy n s1 (without i (j :: todo))) (<[i := v]> d) a os).
Proof.
  intros [Hf (Ho & Hk & H1 & Hl & Ht & Hc)] Hv. pose proof Hw as (Hb & _).
  pose proof (completed_bounds _ _ _ Hw Hm) as (Hcb & _).
  split; [done|]. split; [done|]. split; [done|]. split; [done|].
  cbn [dst at_start] in *. split; [by rewrite length_insert|]. split; [by apply without_sub|].
  intros Hseq. specialize (Hc Hseq). destruct (shown_write _ _ _ s1 Hw Hm Hseq) as [_ Hshow]; [lia|].
  rewrite Hshow in * by done. cbn [mbind option_bind] in *. rewrite <-Hl in *.
  apply copy_byte; [done|lia|done].
Qed.

(** The sequence word is compared with the one first loaded. *)
Lemma reader_check n s1 d a os : reader_ok c h (MkReader (RCheck n s1) d a os) →
  let r := MkReader (RCheck n s1) d a os in
  reader_ok c h (if s1 =? seq c then return_ r c (len h) (Some (s1, d)) else goto r (RLoad n)).
Proof.
  intros [Hf (Ho & Hk & H1 & Hl & _ & Hc)]. cbn [dst at_start outs] in *.
  pose proof (completed_bounds _ _ _ Hw Hm) as (Hcb & Hwr & Hsq). cbn zeta.
  destruct (Z.eqb_spec s1 (seq c)) as [Heq|Hne].
  - destruct (shown_write _ _ _ s1 Hw Hm) as [_ Hshow]; [done|lia|].
    eapply reader_return; try done; [cbn; lia|]. split; [|cbn; lia]. cbn. split; [lia|]. split; [done|].
    rewrite Hshow by done. f_equal. pose proof Hw as (Hb & _). symmetry.
    eapply all_indices; [exact Hl|exact Hb|]. intros j Hj Hn. rewrite Hc by done. by rewrite Hshow.
  - split; [done|]. cbn. split; [done|]. split; [lia|]. split; [done|]. right.
    destruct (decide (Z.land (seq c) WRITING = 0)) as [Hz|Hz]; [|specialize (Hwr Hz); lia].
    specialize (Hsq Hz). lia.
Qed.

Lemma reader_step i r x : reader_ok c h r →
  step_read i c (len h) r = Some x → ∃ r', x = Ok r' ∧ reader_ok c h r'.
Proof.
  intros Hok H. destruct r as [rp d a os]. unfold step_read in H. cbn [rpc dst at_start outs] in *.
  pose proof (completed_bounds _ _ _ Hw Hm) as (Hcb & _).
  destruct rp as [|[|n]|n s1 [|j todo]|n s1]; try (injection H as <-; eexists; split; [done|]).
  - destruct Hok as [Hf Hp]. split; [done|]. cbn. split; [done|]. split; [done|]. split; [|by left].
    destruct (decide _) as [|Hl]; [done|]. unfold resize. rewrite length_app, length_take, length_replicate. lia.
  - destruct Hok as [Hf (Ho & Ha & Hl & [Hn|Hn])]; [done|].
    eapply reader_return; try done. split; [right|]; cbn in *; lia.
  - by apply reader_load.
  - done.
  - destruct (decide _) as [Hi|]; [|done]. injection H as <-. pose proof Hw as (Hb & _).
    destruct (todo_lookup (buf c) i j todo) as [v Hv]; [|done|].
    { rewrite Hb. apply Hok. }
    rewrite Hv. eexists. split; [done|]. by apply reader_copy.
  - by apply reader_check.
Qed.
End reader.

(** ** Reachable states *)

Definition inv (s : state) : Prop :=
  ∃ pc, writers s = [pc] ∧ writer_ok (cell s) (hist s) pc
    ∧ Forall (reader_ok (cell s) (hist s)) (readers s).

Lemma cell_inv_init n r : inv (init n 1 r).
Proof.
  exists WIdle. split; [done|]. split.
  - split; [apply length_replicate|]. split; [constructor|]. split; [|done]. split; [done|].
    intros img [=].
  - apply Forall_replicate. split; [constructor|]. cbn. done.
Qed.

Lemma step_inv_cell s a x : inv s → len (hist s) + 1 < 2 ^ 63 → step s a = Some x →
  (x = Panic ∧ ∃ w src i, a = Write w src i ∧ length src ≠ clen (cell s)) ∨
  ∃ s', x = Ok s' ∧ inv s' ∧ clen (cell s') = clen (cell s).
Proof.
  intros (pc & Hw & Hok & Hr) Hm H. destruct a as [w src i|r i]; cbn [step] in H.
  - rewrite Hw in H. destruct w as [|w]; [|done]. cbn [lookup list_lookup mbind option_bind] in H.
    apply fmap_Some in H as (y & Hy & ->).
    destruct (writer_step _ _ _ _ _ _ Hok Hm Hy) as [(-> & Hl & ->)|(pc' & c' & -> & Hok' & Ha)].
    { left. split; [done|]. by eexists _, _, _. }
    right. eexists. split; [done|]. split; [|apply Ha]. exists pc'. split; [done|]. split; [done|].
    eapply Forall_impl; [exact Hr|]. intros rd Hrd. cbn. eapply reader_frame; try done; [lia|].
    eapply completed_bounds; [done|lia].
  - right. apply bind_Some in H as (rd & Hrd & H). apply fmap_Some in H as (y & Hy & ->).
    edestruct (reader_step _ _ _ Hok) as (rd' & -> & Hrd'); [lia| |exact Hy|].
    { by eapply Forall_lookup_1. }
    eexists. split; [done|]. split; [|done]. exists pc. split; [done|]. split; [done|].
    by apply Forall_insert.
Qed.

Lemma step_hist s a s' : step s a = Some (Ok s') → len (hist s) ≤ len (hist s').
Proof.
  destruct a as [w src i|r i]; cbn [step]; intros (z & _ & (y & _ & Hy)%fmap_Some)%bind_Some;
    destruct y as [y|]; try done; [destruct y|]; injection Hy as ->; cbn; [|done].
  rewrite len_app. unfold len. lia.
Qed.

Lemma cell_reachable_inv n r s : rtc cell_step (init n 1 r) s → len (hist s) + 1 < 2 ^ 63 →
  inv s ∧ clen (cell s) = n.
Proof.
  intros Hs. revert s Hs.
  refine (rtc_ind_r (λ s, len (hist s) + 1 < 2 ^ 63 → inv s ∧ clen (cell s) = n) _ _ _).
  { intros _. split; [apply cell_inv_init|done]. }
  intros s s' _ [a Ha] IH Hm. pose proof (step_hist _ _ _ Ha).
  destruct IH as [Hi Hn]; [lia|].
  destruct (step_inv_cell _ _ _ Hi ltac:(lia) Ha) as [[? _]|(s1 & [= ->] & Hi' & Hn')]; [done|].
  split; [done|]. by rewrite Hn'.
Qed.

(** ** Properties: typed view models over the cell *)

(** The trait [ViewModel]: the image of a value as the bytes of a fixed size.
    Reconstruction from the bytes of a value gives the value back. *)
Class ViewModel (V : Type) := {
  IMAGE_SIZE : nat;
  to_image : V → image;
  from_image : image → V;
  to_image_size v : length (to_image v) = IMAGE_SIZE;
  from_to_image v : from_image (to_image v) = v;
}.

(** [HotScalar<u32>], whose image is the value's four bytes. *)
Record HotScalar := MkHotScalar { value : Z; value_u32 : bool_decide (is_u 32 value) }.

Lemma hot_scalar_eq x y : value x = value y → x = y.
Proof. destruct x, y. cbn. intros ->. f_equal. apply proof_irrel. Qed.

#[export] Program Instance HotScalar_ViewModel : ViewModel HotScalar := {|
  IMAGE_SIZE := 4;
  to_image x := to_le_bytes 4 (value x);
  from_image b := MkHotScalar (wrap 32 (from_le_bytes b)) _;
|}.
Next Obligation. intros b. apply bool_decide_pack. unfold is_u, wrap. apply Z.mod_pos_bound. lia. Qed.
Next Obligation. done. Qed.
Next Obligation.
  intros [v Hv]. apply hot_scalar_eq. cbn [value]. apply bool_decide_unpack in Hv.
  rewrite from_to_le_bytes. change (8 * Z.of_nat 4) with 32. unfold wrap.
  unfold is_u in Hv. rewrite !(Z.mod_small v) by lia. done.
Qed.

Section property.
Context `{ViewModel V}.

(** [Property::new] with [r] readers. *)
Definition Property_new (r : nat) : state := init IMAGE_SIZE 1 r.

(** [set] by the one owner of the property, and the readers' [snapshot_into]. *)
Definition prop_act (a : act) : Prop :=
  match a with Write _ src _ => ∃ v : V, src = to_image v | Read _ _ => True end.
Definition prop_step (s s' : state) : Prop := ∃ a, prop_act a ∧ step s a = Some (Ok s').

(** The value [snapshot_into] returns. *)
Definition snapshot (o : ROut) : option V := (λ x, from_image x.2) <$> r_result o.

(** The images written are images of values. *)
Definition pc_src (pc : WPc) : list image :=
  match pc with
  | WIdle => []
  | WFetch src | WBump src _ | WMark src _ | WCopy src _ _ | WPublish src _ => [src]
  end.
Definition is_image (x : image) : Prop := ∃ v : V, x = to_image v.
Definition images_ok (s : state) : Prop :=
  Forall is_image (hist s) ∧ Forall is_image (writers s ≫= pc_src).

Lemma step_write_src src i pc c pc' c' : step_write src i pc c = Some (Ok (pc', c')) →
  pc_src pc' ⊆ src :: pc_src pc ∧ begins pc ⊆ pc_src pc.
Proof.
  destruct pc as [|x|x n|x n|x n [|j todo]|x n]; cbn [step_write]; try (injection 1 as <- <-; cbn; set_solver).
  - destruct (decide _); [injection 1 as <- <-; cbn; set_solver|done].
  - destruct (decide _); [injection 1 as <- <-; cbn; set_solver|done].
  - destruct (decide _); [|done]. destruct (x !! i); [injection 1 as <- <-; cbn; set_solver|done].
Qed.

Lemma images_step s s' : images_ok s → prop_step s s' → images_ok s'.
Proof.
  intros [Hh Hw] (a & Ha & Hs). destruct a as [w src i|r i]; cbn [step] in Hs;
    apply bind_Some in Hs as (pc & Hpc & (y & Hy & Hs)%fmap_Some); destruct y as [y|]; try done;
    [destruct y as [pc' c']|]; injection Hs as ->; [|by split].
  apply step_write_src in Hy as [Hsub Hbeg]. destruct (lookup_split _ _ _ Hpc) as (l1 & l2 & Hl & Hi).
  unfold images_ok. cbn [hist writers]. rewrite Hi. rewrite Hl, bind_app, bind_cons in Hw.
  rewrite !Forall_app in Hw. destruct Hw as (H1 & Hp & H2).
  assert (Forall is_image (src :: pc_src pc)) as Hc by (constructor; [destruct Ha; by eexists|done]).
  rewrite Forall_app, bind_app, bind_cons, !Forall_app. rewrite Forall_forall in Hc, Hp.
  repeat split; try done; apply Forall_forall; set_solver.
Qed.

Lemma images_values (l : list image) : Forall is_image l → ∃ vals : list V, l = to_image <$> vals.
Proof.
  induction 1 as [|x l [v ->] _ [vals ->]]; [by exists []|by exists (v :: vals)].
Qed.

Lemma prop_reachable r s : rtc prop_step (Property_new r) s → len (hist s) + 1 < 2 ^ 63 →
  inv s ∧ clen (cell s) = IMAGE_SIZE ∧ images_ok s.
Proof.
  intros Hs Hm. assert (images_ok s) as Hi.
  { clear Hm. revert s Hs. refine (rtc_ind_r images_ok _ _ _).
    - split; cbn; constructor.
    - intros s s' _ Hs Hi. by eapply images_step. }
  destruct (cell_reachable_inv IMAGE_SIZE r s); [|done|done].
  eapply (rtc_congruence id); [|exact Hs]. intros x y (a & _ & Ha). by exists a.
Qed.

(** A writer in its call, or starting one with a value, does not panic. *)
Lemma prop_no_panic r s a : rtc prop_step (Property_new r) s → len (hist s) + 1 < 2 ^ 63 →
  prop_act a → step s a ≠ Some Panic.
Proof.
  intros Hs Hm Ha Hp. destruct (prop_reachable r s Hs Hm) as (Hi & Hn & _).
  destruct (step_inv_cell _ _ _ Hi Hm Hp) as [(_ & w & src & i & -> & Hl)|(? & [=] & _)].
  destruct Ha as [v ->]. by rewrite to_image_size in Hl.
Qed.

(** C18. One writer and any number of readers, in every interleaving: a snapshot
    that returns a value returns one that was set, whole, and the cell behaves as
    an atomic register: the value is that of a write no older than the last one
    completed before the snapshot began and completed when the snapshot returned,
    and snapshots of one reader do not go back.  A snapshot returns nothing only
    when nothing had been set as it began or a write overlapped it. *)
Theorem property_linearizable r s k rd : rtc prop_step (Property_new r) s → len (hist s) + 1 < 2 ^ 63 →
  readers s !! k = Some rd →
  ∃ vals : list V, hist s = to_image <$> vals ∧
    match rpc rd with RIdle => ordered 0 (outs rd) (completed (cell s))
                    | _ => ordered 0 (outs rd) (at_start rd) end ∧
    ∀ o, o ∈ outs rd →
      match snapshot o with
      | Some v => ∃ j, r_start o ≤ j ≤ r_end o ∧ 1 ≤ j ∧ vals !! Z.to_nat (j - 1) = Some v
      | None => r_start o = 0 ∨ r_start o < r_begun o ≤ len vals
      end.
Proof.
  intros Hs Hm Hk. destruct (prop_reachable r s Hs Hm) as ((pc & _ & _ & Hr) & _ & [Hh _]).
  apply images_values in Hh as [vals Hv]. exists vals. split; [done|].
  eapply Forall_lookup_1 in Hr as [Ho Hp]; [|exact Hk].
  split; [by destruct (rpc rd); try apply Hp|]. intros o Hin.
  rewrite Forall_forall in Ho. destruct (Ho _ Hin) as [Hok Hb]. unfold snapshot.
  rewrite Hv in Hok, Hb. unfold len in Hb. rewrite length_fmap in Hb. unfold len.
  destruct (r_result o) as [[j img]|]; cbn; [|lia].
  destruct Hok as (Hj & H1 & Hw). exists j. split; [done|]. split; [done|].
  unfold nth_write in Hw. rewrite list_lookup_fmap in Hw.
  apply fmap_Some in Hw as (v & Hl & ->). by rewrite from_to_image.
Qed.
End property.

(** ** A read takes a bounded number of its own steps *)

(** The most steps a read may still take, for [L] bytes. *)
Definition steps_left (L : nat) (pc : RPc) : nat :=
  match pc with
  | RIdle => 0
  | RLoad n => n * (L + 3) + 1
  | RCopy n _ todo => n * (L + 3) + length todo + 3
  | RCheck n _ => n * (L + 3) + 2
  end.

Definition is_read (k : nat) (a : act) : bool :=
  match a with Read r _ => bool_decide (r = k) | Write _ _ _ => false end.

Lemma without_shorter i todo : i ∈ todo → (length (without i todo) < length todo)%nat.
Proof.
  unfold without. induction todo as [|j todo IH]; [by intros ?%not_elem_of_nil|].
  intros Hi. rewrite filter_cons. case_decide as Hd; cbn.
  - apply elem_of_cons in Hi as [->|Hi]; [done|]. specialize (IH Hi). lia.
  - pose proof (length_filter (λ j, j ≠ i) todo). lia.
Qed.

Lemma step_read_left i c b r r' : step_read i c b r = Some (Ok r') → rpc r ≠ RIdle →
  (length (outs r') = S (length (outs r)) ∧ rpc r' = RIdle) ∨
  (outs r' = outs r ∧ rpc r' ≠ RIdle
   ∧ (steps_left (clen c) (rpc r') < steps_left (clen c) (rpc r))%nat).
Proof.
  destruct r as [[|[|n]|n s1 [|j todo]|n s1] d a os]; cbn [step_read rpc dst outs]; intros Hs Hr; [done|..].
  - injection Hs as <-. left. cbn. rewrite length_app. cbn. split; [lia|done].
  - injection Hs as <-. destruct (negb _); [|destruct (_ =? _)]; cbn; rewrite ?length_app, ?length_seq; cbn;
      (right; split; [done|]; split; [done|lia]) || (left; split; [lia|done]).
  - injection Hs as <-. right. cbn. split; [done|]. split; [done|lia].
  - destruct (decide _) as [Hi|]; [|done]. destruct (buf c !! i); [|done]. injection Hs as <-. right.
    cbn [rpc outs]. split; [done|]. split; [done|]. apply without_shorter in Hi. cbn [steps_left]. lia.
  - injection Hs as <-. destruct (_ =? _); cbn; [left; rewrite length_app; cbn; split; [lia|done]|].
    right. split; [done|]. split; [done|]. lia.
Qed.

Lemma step_write_clen src i pc c pc' c' : step_write src i pc c = Some (Ok (pc', c')) → clen c' = clen c.
Proof.
  destruct pc as [|x|x n|x n|x n [|j todo]|x n]; cbn [step_write]; try (by injection 1 as <- <-);
    destruct (decide _); try done; [by injection 1 as <- <-..|].
  destruct (x !! i); [by injection 1 as <- <-|done].
Qed.

(** A step changes reader [k] only when it is that reader's step. *)
Lemma step_reader s a s' k rd : step s a = Some (Ok s') → readers s !! k = Some rd →
  clen (cell s') = clen (cell s) ∧
  (if is_read k a then ∃ i rd', step_read i (cell s) (len (hist s)) rd = Some (Ok rd')
                                 ∧ readers s' !! k = Some rd'
   else readers s' !! k = Some rd).
Proof.
  intros Hs Hk. destruct a as [w src i|r i]; cbn [step] in Hs;
    apply bind_Some in Hs as (pc & Hpc & (y & Hy & Hs)%fmap_Some); destruct y as [y|]; try done;
    [destruct y as [pc' c']|]; injection Hs as ->; cbn [is_read readers cell].
  - split; [|done]. by eapply step_write_clen.
  - split; [done|]. case_bool_decide as Hr.
    + subst r. rewrite Hk in Hpc. injection Hpc as <-. exists i, y. split; [done|].
      apply list_lookup_insert_eq. by eapply lookup_lt_Some.
    + by rewrite list_lookup_insert_ne.
Qed.

Lemma run_outs s acts s' k rd : run s acts = Some (Ok s') → readers s !! k = Some rd →
  ∃ rd', readers s' !! k = Some rd' ∧ (length (outs rd) ≤ length (outs rd'))%nat.
Proof.
  revert s rd. induction acts as [|a acts IH]; cbn [run]; intros s rd Hrun Hk.
  { injection Hrun as <-. by exists rd. }
  destruct (step s a) as [[s1|]|] eqn:Hs; try done.
  destruct (step_reader _ _ _ _ _ Hs Hk) as [_ Hrd]. destruct (is_read k a).
  - destruct Hrd as (i & rd1 & Hst & Hk1). destruct (IH _ _ Hrun Hk1) as (rd' & Hk' & Hle).
    exists rd'. split; [done|]. destruct (decide (rpc rd = RIdle)) as [Hi|Hr].
    + unfold step_read in Hst. rewrite Hi in Hst. injection Hst as <-. done.
    + destruct (step_read_left _ _ _ _ _ Hst Hr) as [[? _]|[Ho _]]; [lia|]. by rewrite <-Ho.
  - by eapply IH.
Qed.

Lemma run_reader s acts s' k rd : run s acts = Some (Ok s') → readers s !! k = Some rd → rpc rd ≠ RIdle →
  ∃ rd', readers s' !! k = Some rd' ∧
    ((length (outs rd) < length (outs rd'))%nat ∨
     (length (filter (is_read k) acts) + steps_left (clen (cell s)) (rpc rd')
      ≤ steps_left (clen (cell s)) (rpc rd))%nat ∧ rpc rd' ≠ RIdle).
Proof.
  revert s rd. induction acts as [|a acts IH]; cbn [run]; intros s rd Hrun Hk Hr.
  { injection Hrun as <-. exists rd. split; [done|]. right. cbn. split; [lia|done]. }
  destruct (step s a) as [[s1|]|] eqn:Hs; try done.
  destruct (step_reader _ _ _ _ _ Hs Hk) as [Hc Hrd]. rewrite filter_cons.
  destruct (is_read k a) eqn:Ha.
  - destruct Hrd as (i & rd1 & Hst & Hk1). destruct (step_read_left _ _ _ _ _ Hst Hr) as [[Hout _]|(Ho & Hr1 & Hl)].
    + destruct (run_outs _ _ _ _ _ Hrun Hk1) as (rd' & Hk' & Hle). exists rd'. split; [done|]. left. lia.
    + destruct (IH _ _ Hrun Hk1 Hr1) as (rd' & Hk' & Hcase). exists rd'. split; [done|].
      rewrite Ho in Hcase. rewrite Hc in Hcase. destruct Hcase as [?|[Hle ?]]; [by left|].
      right. split; [|done]. rewrite decide_True by done. cbn [length]. lia.
  - destruct (IH _ _ Hrun Hrd Hr) as (rd' & Hk' & Hcase). exists rd'. split; [done|].
    rewrite Hc in Hcase. rewrite decide_False by (by intros ?). done.
Qed.

(** A reader inside a call can always take a step. *)
Lemma reader_enabled s k rd : inv s → len (hist s) + 1 < 2 ^ 63 → readers s !! k = Some rd →
  ∃ i s', step s (Read k i) = Some (Ok s').
Proof.
  intros Hi Hm Hk. assert (∃ i x, step s (Read k i) = Some x) as (i & x & Hx).
  { exists (match rpc rd with RCopy _ _ (j :: _) => j | _ => 0%nat end). cbn [step]. rewrite Hk.
    cbn [mbind option_bind]. unfold step_read.
    destruct (rpc rd) as [|[|n]|n s1 [|j todo]|n s1]; try by eexists.
    rewrite decide_True by left. by eexists. }
  destruct (step_inv_cell _ _ _ Hi Hm Hx) as [(_ & w & src & j & [=] & _)|(s' & -> & _)]. by exists i, s'.
Qed.

Definition max_steps (L : nat) : nat := READ_RETRY_LIMIT * (L + 3) + 1.

Lemma left_bound `{ViewModel V} r s : rtc prop_step (Property_new r) s →
  Forall (λ rd, (steps_left (clen (cell s)) (rpc rd) ≤ max_steps (clen (cell s)))%nat) (readers s).
Proof.
  intros Hs. revert s Hs. refine (rtc_ind_r _ _ _ _).
  { apply Forall_replicate. cbn [rpc steps_left]. lia. }
  intros s s' _ (a & _ & Hs) IH. apply Forall_lookup. intros k rd' Hk'.
  assert (∃ rd, readers s !! k = Some rd) as [rd Hk].
  { apply lookup_lt_is_Some_2. apply lookup_lt_Some in Hk'. destruct a as [w src i|q i]; cbn [step] in Hs;
      apply bind_Some in Hs as (pc & Hpc & (y & Hy & Hs)%fmap_Some); destruct y as [y|]; try done;
      [destruct y as [pc' c']|]; injection Hs as ->; [done|]. cbn in Hk'. by rewrite length_insert in Hk'. }
  destruct (step_reader _ _ _ _ _ Hs Hk) as [-> Hrd]. eapply Forall_lookup_1 in IH; [|exact Hk].
  destruct (is_read k a); [|naive_solver].
  destruct Hrd as (i & rd1 & Hst & Hk1). assert (rd1 = rd') as -> by congruence.
  destruct (decide (rpc rd = RIdle)) as [Hi|Hr].
  - unfold step_read in Hst. rewrite Hi in Hst. injection Hst as <-. done.
  - destruct (step_read_left _ _ _ _ _ Hst Hr) as [[_ ->]|(_ & _ & Hl)]; [cbn [steps_left]|]; lia.
Qed.

(** [read_into] never blocks: a reader inside a call always has a step, and in
    every schedule the call has returned once the reader has taken
    [64 * (len + 3) + 1] steps, whatever the writer does. *)
Theorem read_returns `{ViewModel V} r s k rd : rtc prop_step (Property_new r) s → len (hist s) + 1 < 2 ^ 63 →
  readers s !! k = Some rd → rpc rd ≠ RIdle →
  (∃ i s', step s (Read k i) = Some (Ok s')) ∧
  ∀ acts s', run s acts = Some (Ok s') →
    (READ_RETRY_LIMIT * (IMAGE_SIZE + 3) + 1 ≤ length (filter (is_read k) acts))%nat →
    ∃ rd', readers s' !! k = Some rd' ∧ (length (outs rd) < length (outs rd'))%nat.
Proof.
  intros Hs Hm Hk Hr. destruct (prop_reachable r s Hs Hm) as (Hi & Hn & _).
  split; [by eapply reader_enabled|]. intros acts s' Hrun Hlen.
  destruct (run_reader _ _ _ _ _ Hrun Hk Hr) as (rd' & Hk' & [Hlt|[Hle Hr']]); exists rd'; [done|].
  exfalso. pose proof (left_bound r s Hs) as Hb. eapply Forall_lookup_1 in Hb; [|exact Hk].
  unfold max_steps in Hb. rewrite Hn in *. destruct (rpc rd'); [done|..]; cbn [steps_left] in Hle; lia.
Qed.

(** ** Concrete runs *)

(** [set] of [v], start to end, then a [snapshot]. *)
Definition set_acts (w : nat) (src : image) : list act :=
  replicate 4 (Write w src 0) ++ (Write w src <$> List.seq 0 (length src)) ++ replicate 2 (Write w src 0).
Definition snapshot_acts (k n : nat) : list act :=
  replicate 2 (Read k 0) ++ (Read k <$> List.seq 0 n) ++ replicate 2 (Read k 0).

Definition u32 (v : Z) : HotScalar := @from_image HotScalar _ (to_le_bytes 4 v).

(** Two sets, with a snapshot that begins in the middle of the second. *)
Definition demo_acts : list act :=
  set_acts 0 (to_image (u32 7)) ++ take 6 (set_acts 0 (to_image (u32 258))) ++ replicate 3 (Read 0 0)
  ++ drop 6 (set_acts 0 (to_image (u32 258))) ++ drop 1 (snapshot_acts 0 4).

Definition state_of (o : option (res state)) : state :=
  match o with Some (Ok s) => s | _ => init 0 0 0 end.
Definition demo : state := state_of (run (Property_new (V := HotScalar) 1) demo_acts).

Lemma run_prop `{ViewModel V} s acts s' : Forall prop_act acts → run s acts = Some (Ok s') →
  rtc prop_step s s'.
Proof.
  intros Hf. revert s. induction Hf as [|a acts Ha _ IH]; cbn [run]; intros s Hr.
  - injection Hr as <-. done.
  - destruct (step s a) as [[s1|]|] eqn:Hs; try done. eapply rtc_l; [by exists a|]. by apply IH.
Qed.

Lemma set_acts_prop `{ViewModel V} w (v : V) : Forall prop_act (set_acts w (to_image v)).
Proof.
  assert (∀ i, prop_act (Write w (to_image v) i)) as Hw by (by eexists).
  unfold set_acts. rewrite !Forall_app. repeat split; [by apply Forall_replicate| |by apply Forall_replicate].
  apply Forall_fmap, Forall_forall. auto.
Qed.
Lemma reads_prop `{ViewModel V} k l : Forall prop_act (Read k <$> l).
Proof. by apply Forall_fmap, Forall_forall. Qed.

Lemma cell_demo_reachable : rtc prop_step (Property_new (V := HotScalar) 1) demo.
Proof.
  apply (run_prop _ demo_acts); [|vm_compute; reflexivity].
  unfold demo_acts, snapshot_acts. rewrite !Forall_app.
  repeat split; auto using set_acts_prop, Forall_take, Forall_drop.
  - apply (reads_prop 0 [0; 0; 0]%nat).
  - apply Forall_drop. apply (reads_prop 0 ([0; 0] ++ List.seq 0 4 ++ [0; 0])%nat).
Qed.

(** At its end the snapshot has returned the second value. *)
Lemma property_linearizable_witness :
  ((λ rd, (λ o, value <$> snapshot o) <$> outs rd) <$> readers demo) = [[Some 258]] ∧
  ∃ vals : list HotScalar, hist demo = to_image <$> vals ∧ length vals = 2%nat.
Proof.
  split; [vm_compute; reflexivity|].
  assert (∃ rd, readers demo !! 0%nat = Some rd) as [rd Hk] by (apply lookup_lt_is_Some_2; vm_compute; lia).
  destruct (property_linearizable (V := HotScalar) 1 demo 0 rd cell_demo_reachable ltac:(by vm_compute) Hk)
    as (vals & Hv & _).
  exists vals. split; [done|]. apply (f_equal length) in Hv. rewrite length_fmap in Hv. rewrite <-Hv.
  vm_compute. reflexivity.
Defined.

(** The snapshot in the middle of the second write is inside its call. *)
Definition demo_mid : state :=
  state_of (run (Property_new (V := HotScalar) 1) (take 18 demo_acts)).

Lemma demo_mid_reachable : rtc prop_step (Property_new (V := HotScalar) 1) demo_mid.
Proof.
  apply (run_prop _ (take 18 demo_acts)); [|vm_compute; reflexivity].
  apply Forall_take. unfold demo_acts, snapshot_acts. rewrite !Forall_app.
  repeat split; auto using set_acts_prop, Forall_take, Forall_drop.
  - apply (reads_prop 0 [0; 0; 0]%nat).
  - apply Forall_drop. apply (reads_prop 0 ([0; 0] ++ List.seq 0 4 ++ [0; 0])%nat).
Qed.

Lemma read_returns_witness :
  rpc <$> readers demo_mid = [RLoad 63] ∧ ∃ i s', step demo_mid (Read 0 i) = Some (Ok s').
Proof.
  assert (rpc <$> readers demo_mid = [RLoad 63]) as Hr by (vm_compute; reflexivity).
  split; [done|]. destruct (readers demo_mid !! 0%nat) as [rd|] eqn:Hk.
  - refine (proj1 (read_returns (V := HotScalar) 1 demo_mid 0 rd demo_mid_reachable ltac:(by vm_compute) Hk _)).
    intros Hi. apply (f_equal (lookup 0%nat)) in Hr. rewrite list_lookup_fmap, Hk in Hr. cbn in Hr.
    rewrite Hi in Hr. discriminate Hr.
  - apply (f_equal (lookup 0%nat)) in Hr. rewrite list_lookup_fmap, Hk in Hr. discriminate Hr.
Defined.

(** With two writers, which [&self] on [set] allows although the handle cannot be
    cloned, the bytes of two images can be mixed: both fetch the same counter
    value, their copies interleave, and a snapshot returns a value nobody set. *)
Example two_writers_tear :
  let acts := concat (zip_with (λ a b, [a; b]) (set_acts 0 [1; 1]) (set_acts 1 [2; 2])) in
  let acts := take 8 acts ++ [Write 0 [] 0; Write 1 [] 0; Write 1 [] 1; Write 0 [] 1] ++ drop 12 acts in
  (λ rd, r_result <$> outs rd) <$>
    readers (state_of (run (init 2 2 1) (acts ++ snapshot_acts 0 2))) = [[Some (1, [2; 1])]].
Proof. vm_compute. reflexivity. Qed.

End UiCell.
