(* ===== verification/UiPump.v ===== *)
(** * The publisher pump of the UI connector

    Models [taktora-connector-ui/src/pump.rs]: the entries with their encoders,
    [Pump::tick] and the loop of the pump thread, with the encoders built by
    [property_entry], [can_execute_entry] (command.rs), [manifest_entry]
    (manifest.rs) and [system_entry] (system.rs), and the publish health the
    connector derives from the tick statistics (health.rs, connector.rs).  JSON
    encoding is a parameter; what a tick finds outside the pump (the reader's
    snapshot, the gate, the subscriber count, whether a publish is accepted) is
    its input. *)

From stdpp Require Import base list strings.
From Stdlib Require Import ZArith Lia.
From S2P Require Import Prelude ConnHealth.

Module UiPump.

Abbreviation bytes := (list Z).

(** The state an [EncodeFn] closure keeps. *)
Inductive Encoder (M : Type) :=
| EncProperty (last_json : bytes) (have_last : bool)
| EncFlag (last : option bool)
| EncManifest (manifest : M)
| EncSystem (counter epoch : Z).
Arguments EncProperty {M} _ _.
Arguments EncFlag {M} _.
Arguments EncManifest {M} _.
Arguments EncSystem {M} _ _.

(** [serde_json::to_writer], per type: [None] is an error. *)
Class Json (V M : Type) := {
  vm_json : V → option bytes;
  flag_json : bool → option bytes;
  manifest_json : M → option bytes;
  system_json : Z → Z → option bytes;
}.

(** What an entry finds outside the pump at one tick. *)
Record Env (V : Type) := MkEnv {
  e_snapshot : option V;           (* the reader's snapshot *)
  e_flag : bool;                   (* the gate *)
  e_count : Z;                     (* subscribers *)
  e_accepts : bool;                (* a publish is accepted *)
}.
Arguments MkEnv {V} _ _ _ _.
Arguments e_snapshot {V} _.
Arguments e_flag {V} _.
Arguments e_count {V} _.
Arguments e_accepts {V} _.

Record PumpEntry (M : Type) := MkEntry {
  name : string;
  exempt : bool;
  encode : Encoder M;
  had_subscribers : bool;
  sent : list bytes;               (* what the publisher accepted *)
}.
Arguments MkEntry {M} _ _ _ _ _.
Arguments name {M} _.
Arguments exempt {M} _.
Arguments encode {M} _.
Arguments had_subscribers {M} _.
Arguments sent {M} _.

Record PumpTickStats := MkStats {
  published : Z;
  skipped_zero_sub : Z;
  skipped_unchanged : Z;
  no_value : Z;
  publish_errors : Z;
}.
Definition stats_default : PumpTickStats := MkStats 0 0 0 0 0.

Record Pump (M : Type) := MkPump {
  entries : list (PumpEntry M);
  scratch : bytes;
}.
Arguments MkPump {M} _ _.
Arguments entries {M} _.
Arguments scratch {M} _.

Section pump.
Context `{Json V M}.

Definition entry_new (n : string) (ex : bool) (e : Encoder M) : PumpEntry M := MkEntry n ex e false [].
Definition property_entry (n : string) : PumpEntry M := entry_new n false (EncProperty [] false).
Definition can_execute_entry (n : string) : PumpEntry M := entry_new n false (EncFlag None).
Definition manifest_entry (m : M) : PumpEntry M := entry_new "manifest" true (EncManifest m).
Definition system_entry (epoch : Z) : PumpEntry M := entry_new "System" true (EncSystem 0 epoch).

Definition pump_new : Pump M := MkPump [] [].
Definition add_entry (p : Pump M) (e : PumpEntry M) : Pump M := MkPump (entries p ++ [e]) (scratch p).

(** [last != Some(value)], for the gate. *)
Definition flag_changed (last : option bool) (v : bool) : bool := negb (bool_decide (last = Some v)).

(** The call [(entry.encode)(&mut scratch)]: the closure's state, the buffer and
    whether the value changed.  The buffer is cleared once there is a value. *)
Definition run_encode (e : Encoder M) (env : Env V) (out : bytes) : Encoder M * bytes * option bool :=
  match e with
  | EncProperty last_json have_last =>
      match e_snapshot env with
      | None => (e, out, None)
      | Some vm =>
          match vm_json vm with
          | None => (e, [], None)
          | Some out =>
              let changed := negb have_last || negb (bool_decide (out = last_json)) in
              ((if changed then EncProperty out true else e), out, Some changed)
          end
      end
  | EncFlag last =>
      let value := e_flag env in
      match flag_json value with
      | None => (e, [], None)
      | Some out => (EncFlag (Some value), out, Some (flag_changed last value))
      end
  | EncManifest m =>
      match manifest_json m with
      | None => (e, [], None)
      | Some out => (e, out, Some true)
      end
  | EncSystem counter epoch =>
      let e := EncSystem (wrap 64 (counter + 1)) epoch in
      match system_json counter epoch with
      | None => (e, [], None)
      | Some out => (e, out, Some true)
      end
  end.

Definition bump_published (s : PumpTickStats) : PumpTickStats :=
  MkStats (published s + 1) (skipped_zero_sub s) (skipped_unchanged s) (no_value s) (publish_errors s).
Definition bump_zero_sub (s : PumpTickStats) : PumpTickStats :=
  MkStats (published s) (skipped_zero_sub s + 1) (skipped_unchanged s) (no_value s) (publish_errors s).
Definition bump_unchanged (s : PumpTickStats) : PumpTickStats :=
  MkStats (published s) (skipped_zero_sub s) (skipped_unchanged s + 1) (no_value s) (publish_errors s).
Definition bump_no_value (s : PumpTickStats) : PumpTickStats :=
  MkStats (published s) (skipped_zero_sub s) (skipped_unchanged s) (no_value s + 1) (publish_errors s).
Definition bump_errors (s : PumpTickStats) : PumpTickStats :=
  MkStats (published s) (skipped_zero_sub s) (skipped_unchanged s) (no_value s) (publish_errors s + 1).

(** The body of the loop of [tick] for one entry. *)
Definition tick_entry (e : PumpEntry M) (env : Env V) (buf : bytes) (st : PumpTickStats)
    : PumpEntry M * bytes * PumpTickStats :=
  let count := e_count env in
  let active := exempt e || (0 <? count) in
  if negb active then
    (MkEntry (name e) (exempt e) (encode e) false (sent e), buf, bump_zero_sub st)
  else
    let reappeared := negb (had_subscribers e) && (0 <? count) in
    let force := exempt e || reappeared in
    let '(enc, buf, r) := run_encode (encode e) env buf in
    let e' ps := MkEntry (name e) (exempt e) enc (0 <? count) (sent e ++ ps) in
    match r with
    | None => (e' [], buf, bump_no_value st)
    | Some changed =>
        if changed || force then
          if e_accepts env then (e' [buf], buf, bump_published st)
          else (e' [], buf, bump_errors st)
        else (e' [], buf, bump_unchanged st)
    end.

Fixpoint tick_loop (es : list (PumpEntry M)) (envs : nat → Env V) (i : nat) (buf : bytes) (st : PumpTickStats)
    : list (PumpEntry M) * bytes * PumpTickStats :=
  match es with
  | [] => ([], buf, st)
  | e :: es =>
      let '(e, buf, st) := tick_entry e (envs i) buf st in
      let '(es, buf, st) := tick_loop es envs (S i) buf st in
      (e :: es, buf, st)
  end.

(** [Pump::tick]; [envs i] is what entry [i] finds. *)
Definition tick (p : Pump M) (envs : nat → Env V) : Pump M * PumpTickStats :=
  let '(es, buf, st) := tick_loop (entries p) envs 0 (scratch p) stats_default in
  (MkPump es buf, st).

(** ** The pump thread *)

(** [PublishHealth::degrade] and [transition_up]: only a change of kind is a
    transition. *)
Definition degrade (m : ConnHealth.HealthMonitor) (reason : string) (now : Z)
    : ConnHealth.HealthMonitor * option ConnHealth.HealthEvent :=
  match m with
  | ConnHealth.Degraded _ => (m, None)
  | _ => match ConnHealth.try_transition_to m (ConnHealth.Degraded reason) now with
         | inl (m, ev) => (m, Some ev)
         | inr _ => (m, None)
         end
  end.
Definition mark_running (m : ConnHealth.HealthMonitor) (now : Z)
    : ConnHealth.HealthMonitor * option ConnHealth.HealthEvent :=
  match m with
  | ConnHealth.Up => (m, None)
  | _ => match ConnHealth.try_transition_to m ConnHealth.Up now with
         | inl (m, ev) => (m, Some ev)
         | inr _ => (m, None)
         end
  end.

(** The [on_tick] callback the connector installs. *)
Definition on_tick (m : ConnHealth.HealthMonitor) (st : PumpTickStats) (now : Z)
    : ConnHealth.HealthMonitor * option ConnHealth.HealthEvent :=
  if 0 <? publish_errors st then degrade m "ui pump publish error" now else mark_running m now.

(** The pump thread over a sequence of ticks, each with its inputs, the time and
    whether [stop] was seen before it; the tick that saw it is the last. *)
Record Round := MkRound { r_env : nat → Env V; r_now : Z; r_stopping : bool }.

Record Thread := MkThread {
  t_pump : Pump M;
  t_health : ConnHealth.HealthMonitor;
  t_events : list ConnHealth.HealthEvent;
  total_published : Z;
  t_done : bool;
}.

Definition round (t : Thread) (r : Round) : Thread :=
  if t_done t then t else
  let '(p, st) := tick (t_pump t) (r_env r) in
  let '(m, ev) := on_tick (t_health t) st (r_now r) in
  MkThread p m (t_events t ++ option_list ev) (total_published t + published st) (r_stopping r).

Definition spawn (p : Pump M) (m : ConnHealth.HealthMonitor) : Thread := MkThread p m [] 0 false.
Definition rounds (t : Thread) (rs : list Round) : Thread := foldl round t rs.

(** ** One entry on its own *)

Definition entry_tick (e : PumpEntry M) (env : Env V) : PumpEntry M := (tick_entry e env [] stats_default).1.1.

(** What the entry would publish at a tick. *)
Definition payload (e : PumpEntry M) (env : Env V) : option bytes :=
  match run_encode (encode e) env [] with (_, out, Some _) => Some out | _ => None end.

(** The buffer the entries share does not reach the published bytes, nor do the
    counters. *)
Lemma encode_indep e env b b' :
  let '(e1, o1, r1) := run_encode e env b in
  let '(e2, o2, r2) := run_encode e env b' in
  e1 = e2 ∧ r1 = r2 ∧ (r1 = None ∨ o1 = o2).
Proof. destruct e; cbn; repeat case_match; simplify_eq; auto. Qed.

Lemma tick_entry_indep e env b st : (tick_entry e env b st).1.1 = entry_tick e env.
Proof.
  unfold entry_tick, tick_entry. destruct (negb _); [done|].
  pose proof (encode_indep (encode e) env b []) as Hi.
  destruct (run_encode (encode e) env b) as [[e1 o1] r1], (run_encode (encode e) env []) as [[e2 o2] r2].
  destruct Hi as (-> & -> & [-> | ->]); [done|]. by destruct r2 as [c|]; [destruct (c || _), (e_accepts env)|].
Qed.

Lemma tick_loop_entries es envs i b st :
  (tick_loop es envs i b st).1.1 = imap (λ j e, entry_tick e (envs (i + j)%nat)) es.
Proof.
  revert i b st. induction es as [|e es IH]; intros i b st; [done|]. cbn [tick_loop].
  destruct (tick_entry e (envs i) b st) as [[e1 b1] st1] eqn:He.
  specialize (IH (S i) b1 st1). destruct (tick_loop es envs (S i) b1 st1) as [[es2 b2] st2].
  cbn in *. f_equal.
  - rewrite Nat.add_0_r. by rewrite <-(tick_entry_indep e (envs i) b st), He.
  - rewrite IH. apply imap_ext. intros j x _. cbn. f_equal. f_equal. lia.
Qed.

Lemma tick_lookup p envs i e : entries p !! i = Some e →
  entries (tick p envs).1 !! i = Some (entry_tick e (envs i)).
Proof.
  intros Hi. unfold tick. pose proof (tick_loop_entries (entries p) envs 0 (scratch p) stats_default) as Hl.
  destruct (tick_loop _ _ _ _ _) as [[es b] st]. cbn in *. rewrite Hl, list_lookup_imap, Hi. done.
Qed.

Lemma round_live t r : t_done t = false → t_done (round t r) = r_stopping r.
Proof.
  intros Hd. unfold round. rewrite Hd. destruct (tick _ _), (on_tick _ _ _). done.
Qed.

Lemma round_pump t r : t_done t = false → t_pump (round t r) = (tick (t_pump t) (r_env r)).1.
Proof.
  intros Hd. unfold round. rewrite Hd. destruct (tick _ _), (on_tick _ _ _). done.
Qed.

(** No round sees the request to stop before the last one. *)
Fixpoint running (rs : list Round) : Prop :=
  match rs with
  | [] | [_] => True
  | r :: rs => r_stopping r = false ∧ running rs
  end.

(** An entry of the pump evolves by its own ticks only. *)
Lemma rounds_entry t rs i e : t_done t = false → running rs → entries (t_pump t) !! i = Some e →
  entries (t_pump (rounds t rs)) !! i = Some (foldl entry_tick e ((λ r, r_env r i) <$> rs)).
Proof.
  revert t e. induction rs as [|r rs IH]; intros t e Hd Hr Hi; [done|].
  assert (entries (t_pump (round t r)) !! i = Some (entry_tick e (r_env r i))) as Hi'.
  { rewrite round_pump by done. by apply tick_lookup. }
  destruct rs as [|r' rs]; [done|]. destruct Hr as [Hst Hr].
  cbn [fmap list_fmap foldl]. apply (IH (round t r)); [|done|done]. by rewrite round_live.
Qed.

(** ** What subscribers hold *)

(** Entries that publish a state: a property or a gate. *)
Definition state_encoder (c : Encoder M) : bool :=
  match c with EncProperty _ _ | EncFlag _ => true | _ => false end.

(** The payload the encoder remembers. *)
Definition last_enc (c : Encoder M) : option bytes :=
  match c with
  | EncProperty l true => Some l
  | EncFlag (Some v) => flag_json v
  | _ => None
  end.

Lemma run_encode_state c env out : state_encoder c = true →
  (∃ c' ch, run_encode c env [] = (c', out, Some ch)) →
  ∃ c' ch, run_encode c env [] = (c', out, Some ch) ∧ state_encoder c' = true
    ∧ last_enc c' = Some out ∧ (ch = false → last_enc c = Some out)
    ∧ (∀ l, c = EncProperty l true → l = out → ch = false)
    ∧ (∀ env b, (run_encode c' env b).1.2 = (run_encode c env b).1.2
               ∧ ((run_encode c' env b).2 = None ↔ (run_encode c env b).2 = None)).
Proof.
  intros Hs (c' & ch & Hr). exists c', ch. split; [done|]. revert Hr.
  destruct c as [l hl|lst| |]; try done; cbn [run_encode]; intros Hr.
  - destruct (e_snapshot env) as [v|]; [|done]. destruct (vm_json v) as [o|]; [|done].
    injection Hr as <- -> <-. destruct hl, (bool_decide (out = l)) eqn:Hb; cbn;
      try apply bool_decide_eq_true in Hb; try apply bool_decide_eq_false in Hb; subst;
      (split; [done|]); (split; [done|]); (split; [done|]); (split; [naive_solver|]);
      intros env' b; destruct (e_snapshot env') as [v'|]; try done; by destruct (vm_json v').
  - destruct (flag_json (e_flag env)) as [o|] eqn:Hj; [|done]. injection Hr as <- -> <-. cbn.
    split; [done|]. split; [done|]. split.
    { unfold flag_changed. intros Hb%negb_false_iff%bool_decide_eq_true. by subst. }
    split; [done|]. intros env' b. by destruct (flag_json (e_flag env')).
Qed.

(** A tick with subscribers and a value. *)
Lemma entry_tick_active e env out : state_encoder (encode e) = true → 0 < e_count env →
  payload e env = Some out →
  let e' := entry_tick e env in
  state_encoder (encode e') = true ∧ had_subscribers e' = true ∧ last_enc (encode e') = Some out ∧
  (∀ env, payload e' env = payload e env) ∧
  (e_accepts env = true →
     sent e' = sent e ++ [out]
     ∨ sent e' = sent e ∧ had_subscribers e = true ∧ last_enc (encode e) = Some out) ∧
  (e_accepts env = false ∨ exempt e = false ∧ had_subscribers e = true ∧ encode e = EncProperty out true →
     sent e' = sent e).
Proof.
  intros Hst Hc Hp. unfold payload in Hp.
  destruct (run_encode_state (encode e) env out Hst) as (c' & ch & Hr & Hst' & Hl & Hch & Hpr & Hind).
  { destruct (run_encode (encode e) env []) as [[c' o] [ch|]]; [|done]. injection Hp as ->. by eexists _, _. }
  unfold entry_tick, tick_entry. rewrite (proj2 (Z.ltb_lt _ _) Hc), orb_true_r.
  cbn [negb]. rewrite andb_true_r, Hr.
  set (e1 := λ ps, MkEntry (name e) (exempt e) c' true (sent e ++ ps)).
  assert (∀ ps env, payload (e1 ps) env = payload e env) as Hpay.
  { intros ps env'. unfold payload. cbn [encode e1]. specialize (Hind env' []) as [Ho Hn].
    destruct (run_encode c' env' []) as [[? o1] r1], (run_encode (encode e) env' []) as [[? o2] r2].
    cbn in Ho, Hn. subst. destruct r1, r2; naive_solver. }
  destruct (ch || (exempt e || negb (had_subscribers e))) eqn:Hf; [destruct (e_accepts env) eqn:Ha|];
    cbn [fst encode had_subscribers sent]; (split; [done|]); (split; [done|]); (split; [done|]);
    (split; [apply Hpay|]).
  - split; [by left|]. intros [?|(Hex & Hh & He)]; [done|].
    rewrite (Hpr out), Hex, Hh in Hf by done. done.
  - by rewrite app_nil_r.
  - rewrite app_nil_r. split; [|done]. intros _. right. destruct ch; [done|]. cbn in Hf.
    apply orb_false_iff in Hf as [_ Hf%negb_false_iff]. auto.
Qed.

(** Ticks with subscribers, values and accepted publishes, after a point with no
    subscriber: the publishes made since end with the current value. *)
Definition healthy (e : PumpEntry M) (env : Env V) : Prop :=
  0 < e_count env ∧ e_accepts env = true ∧ is_Some (payload e env).

Lemma foldl_current e envs e0 : state_encoder (encode e) = true → Forall (healthy e0) envs →
  (∀ env, payload e env = payload e0 env) →
  ∀ ps, (had_subscribers e = true → ∀ out, last_enc (encode e) = Some out → last ps = Some out) →
  let e' := foldl entry_tick e envs in
  ∃ qs, sent e' = sent e ++ qs ∧
    (∀ env out, last envs = Some env → payload e0 env = Some out → last (ps ++ qs) = Some out).
Proof.
  intros Hst Hf. revert e Hst. induction Hf as [|env envs (Hc & Ha & out & Hp) Hf IH]; intros e Hst Hpay ps Hinv.
  { exists []. by rewrite app_nil_r. }
  rewrite <-Hpay in Hp.
  destruct (entry_tick_active e env out Hst Hc Hp) as (Hst' & Hh' & Hl' & Hpay' & Hsent & _).
  assert (∃ q, sent (entry_tick e env) = sent e ++ q ∧ last (ps ++ q) = Some out) as (q & Hq & Hlast).
  { destruct (Hsent Ha) as [Hs|(Hs & Hh & Hl)].
    - exists [out]. split; [done|]. apply last_snoc.
    - exists []. rewrite !app_nil_r. auto. }
  destruct (IH (entry_tick e env) Hst') with (ps := ps ++ q) as (qs & Hqs & Hfin).
  { intros env'. by rewrite Hpay', Hpay. }
  { intros _ out' Hout'. congruence. }
  exists (q ++ qs). cbn [foldl]. rewrite Hqs, Hq, !app_assoc. split; [done|].
  intros env' out' Hlst Hout'. destruct envs as [|x envs].
  - injection Hlst as <-. cbn in Hqs. assert (qs = []) as ->.
    { apply (f_equal length) in Hqs. rewrite length_app in Hqs. destruct qs; [done|cbn in Hqs; lia]. }
    rewrite app_nil_r, <-Hpay in *. congruence.
  - by eapply Hfin.
Qed.

Lemma state_payload e env : state_encoder (encode e) = true →
  payload e env = match encode e with
                  | EncProperty _ _ => e_snapshot env ≫= vm_json
                  | _ => flag_json (e_flag env) end.
Proof.
  unfold payload. destruct (encode e); try done; cbn.
  - destruct (e_snapshot env) as [v|]; [|done]. cbn. by destruct (vm_json v).
  - by destruct (flag_json _).
Qed.

(** Any tick keeps the kind of the entry. *)
Lemma entry_tick_kind e env : state_encoder (encode e) = true →
  state_encoder (encode (entry_tick e env)) = true
  ∧ (∀ env', payload (entry_tick e env) env' = payload e env')
  ∧ (e_count env ≤ 0 → had_subscribers (entry_tick e env) = false)
  ∧ exempt (entry_tick e env) = exempt e.
Proof.
  intros Hst. assert (∀ e', state_encoder (encode e') = true →
    (∃ l h l' h', encode e = EncProperty l h ∧ encode e' = EncProperty l' h')
    ∨ (∃ l l', encode e = EncFlag l ∧ encode e' = EncFlag l') → ∀ env', payload e' env' = payload e env') as Hp.
  { intros e' Hst' Hk env'. rewrite !state_payload by done. by destruct Hk as [(?&?&?&?&->&->)|(?&?&->&->)]. }
  assert ((0 <? e_count env) = true → 0 < e_count env) as Hlt by (intros ?; lia).
  unfold entry_tick, tick_entry. destruct (negb _).
  { cbn. split; [done|]. split; [|done]. apply Hp; [done|]. destruct (encode e); try done; eauto 10. }
  destruct (run_encode (encode e) env []) as [[c' o] r] eqn:Hr.
  assert (state_encoder c' = true ∧ ∀ hs sn, ∀ env', payload (MkEntry (name e) (exempt e) c' hs sn) env' = payload e env')
    as [Hs' Hp'].
  { assert (state_encoder c' = true ∧ ((∃ l h l' h', encode e = EncProperty l h ∧ c' = EncProperty l' h')
      ∨ (∃ l l', encode e = EncFlag l ∧ c' = EncFlag l'))) as [Hs' Hk].
    { destruct (encode e); try done; cbn in Hr; repeat case_match; simplify_eq; split; try done; eauto 10. }
    split; [done|]. intros hs sn. by apply Hp. }
  repeat case_match; cbn; (split; [done|]); (split; [auto|]); (split; [lia|done]).
Qed.

Lemma property_kept e env : (∃ l h, encode e = EncProperty l h) →
  ∃ l h, encode (entry_tick e env) = EncProperty l h.
Proof.
  intros (l & h & He). unfold entry_tick, tick_entry. destruct (negb _); [by eexists _, _|].
  rewrite He. cbn. repeat case_match; simplify_eq; by eexists _, _.
Qed.

Lemma foldl_kind e envs : state_encoder (encode e) = true →
  state_encoder (encode (foldl entry_tick e envs)) = true
  ∧ (∀ env', payload (foldl entry_tick e envs) env' = payload e env').
Proof.
  revert e. induction envs as [|env envs IH]; intros e Hst; [done|]. cbn [foldl].
  destruct (entry_tick_kind e env Hst) as (Hst' & Hp & _). destruct (IH _ Hst') as [? Hp'].
  split; [done|]. intros env'. by rewrite Hp', Hp.
Qed.

(** No subscriber is attached when the rounds [rs] are over. *)
Definition detached (i : nat) (rs : list Round) : Prop :=
  match last rs with Some r => e_count (r_env r i) ≤ 0 | None => True end.

Lemma detached_foldl e i rs : state_encoder (encode e) = true → had_subscribers e = false →
  detached i rs → had_subscribers (foldl entry_tick e ((λ r, r_env r i) <$> rs)) = false.
Proof.
  intros Hst Hh. unfold detached. destruct rs as [|r rs _] using rev_ind; [done|].
  rewrite last_snoc, fmap_app, foldl_app. intros Hc. cbn.
  destruct (foldl_kind e ((λ r, r_env r i) <$> rs) Hst) as [Hst' _].
  by apply entry_tick_kind.
Qed.

Lemma running_prefix rs rs' : running (rs ++ rs') → running rs.
Proof.
  induction rs as [|r [|r' rs] IH]; [done..|]. cbn in *. intros [? ?]. split; [done|]. by apply IH.
Qed.

(** C19. A subscriber of a property or of a command gate is brought up to date: in
    every run of the pump, over any rounds in which the entry has subscribers, a
    value and accepted publishes, starting where it had no subscriber, the
    envelopes published on it end with the encoding of the value of the last
    round, and other entries do not matter. *)
Theorem subscribers_current t pre post i e r out : t_done t = false → running (pre ++ post ++ [r]) →
  entries (t_pump t) !! i = Some e → state_encoder (encode e) = true → had_subscribers e = false →
  detached i pre → Forall (λ r, healthy e (r_env r i)) (post ++ [r]) →
  payload e (r_env r i) = Some out →
  ∃ e0 e1 ps, entries (t_pump (rounds t pre)) !! i = Some e0
    ∧ entries (t_pump (rounds t (pre ++ post ++ [r]))) !! i = Some e1
    ∧ sent e1 = sent e0 ++ ps ∧ last ps = Some out.
Proof.
  intros Hd Hr Hi Hst Hh Hdet Hf Hout. set (f := λ r, r_env r i).
  exists (foldl entry_tick e (f <$> pre)), (foldl entry_tick e (f <$> (pre ++ post ++ [r]))).
  destruct (foldl_kind e (f <$> pre) Hst) as [Hst' Hp'].
  destruct (foldl_current (foldl entry_tick e (f <$> pre)) (f <$> (post ++ [r])) e Hst') with (ps := @nil bytes)
    as (qs & Hqs & Hlast).
  { by apply Forall_fmap. }
  { apply Hp'. }
  { intros Hc. pose proof (detached_foldl e i pre Hst Hh Hdet). unfold f in Hc. congruence. }
  exists qs. split; [|split; [|split]].
  - apply rounds_entry; [done| |done]. by eapply running_prefix.
  - by apply rounds_entry.
  - by rewrite fmap_app, foldl_app.
  - eapply Hlast; [|done]. rewrite fmap_app. apply last_snoc.
Qed.

(** Ticks that find the remembered payload publish nothing. *)
Lemma foldl_quiet e envs out : exempt e = false → had_subscribers e = true → encode e = EncProperty out true →
  Forall (λ env, 0 < e_count env ∧ payload e env = Some out) envs →
  sent (foldl entry_tick e envs) = sent e.
Proof.
  intros Hx Hh He Hf. revert e Hx Hh He Hf. induction envs as [|env envs IH]; intros e Hx Hh He Hf; [done|].
  apply Forall_cons in Hf as [[Hc Hp] Hf]. cbn [foldl].
  assert (state_encoder (encode e) = true) as Hst by (by rewrite He).
  destruct (entry_tick_active e env out Hst Hc Hp) as (_ & Hh' & Hl' & Hpay & _ & Hq).
  destruct (entry_tick_kind e env Hst) as (Hst' & _ & _ & Hx').
  rewrite IH; [by apply Hq; auto|congruence|done| |].
  - destruct (property_kept e env) as (l' & h' & Hl2); [by eexists _, _|]. rewrite Hl2 in Hl' |- *. cbn in Hl'.
    destruct h'; naive_solver.
  - eapply Forall_impl; [exact Hf|]. intros env' [? ?]. by rewrite Hpay.
Qed.

(** A tick in which every publish is accepted reports no error. *)
Lemma tick_entry_errors e env b st :
  let st' := (tick_entry e env b st).2 in
  publish_errors st ≤ publish_errors st' ∧ (e_accepts env = true → publish_errors st' = publish_errors st).
Proof.
  unfold tick_entry. destruct (negb _); [cbn; lia|]. destruct (run_encode _ _ _) as [[c o] [ch|]]; [|cbn; lia].
  destruct (ch || _); [|cbn; lia]. destruct (e_accepts env); cbn; split; done || lia.
Qed.

Lemma tick_loop_errors es envs i b st : (∀ j, e_accepts (envs j) = true) →
  publish_errors (tick_loop es envs i b st).2 = publish_errors st.
Proof.
  intros Ha. revert i b st. induction es as [|e es IH]; intros i b st; [done|]. cbn [tick_loop].
  pose proof (tick_entry_errors e (envs i) b st) as [_ He].
  destruct (tick_entry e (envs i) b st) as [[e1 b1] st1]. specialize (IH (S i) b1 st1).
  destruct (tick_loop es envs (S i) b1 st1) as [[es2 b2] st2]. cbn in *. rewrite IH. by apply He.
Qed.

Lemma on_tick_up m st now : publish_errors st = 0 → ConnHealth.kind m ≠ ConnHealth.KDown →
  (on_tick m st now).1 = ConnHealth.Up.
Proof. unfold on_tick. intros ->. by destruct m. Qed.

Lemma on_tick_alive m st now : ConnHealth.kind m ≠ ConnHealth.KDown →
  ConnHealth.kind (on_tick m st now).1 ≠ ConnHealth.KDown.
Proof. unfold on_tick. destruct (0 <? _), m; done. Qed.

Lemma round_health t r : t_done t = false →
  t_health (round t r) = (on_tick (t_health t) (tick (t_pump t) (r_env r)).2 (r_now r)).1.
Proof. intros Hd. unfold round. rewrite Hd. destruct (tick _ _), (on_tick _ _ _). done. Qed.

(** The health after rounds in which every publish is accepted. *)
Lemma rounds_up t rs : t_done t = false → running rs → ConnHealth.kind (t_health t) ≠ ConnHealth.KDown →
  rs ≠ [] → Forall (λ r, ∀ j, e_accepts (r_env r j) = true) rs → t_health (rounds t rs) = ConnHealth.Up.
Proof.
  intros Hd Hr Hk Hn Hf. revert t Hd Hk. induction Hf as [|r rs Ha Hf IH]; intros t Hd Hk; [done|].
  assert (t_health (round t r) = ConnHealth.Up) as Hup.
  { rewrite round_health by done. apply on_tick_up; [|done]. unfold tick.
    pose proof (tick_loop_errors (entries (t_pump t)) (r_env r) 0 (scratch (t_pump t)) stats_default Ha) as He.
    destruct (tick_loop _ _ _ _ _) as [[es b] st]. done. }
  destruct rs as [|r' rs]; [done|]. destruct Hr as [Hst Hr].
  apply (IH Hr ltac:(done) (round t r)); [by rewrite round_live|]. by rewrite Hup.
Qed.

(** An update whose publish is refused is not published again: the encoder has
    already taken it as the last value, so while the property keeps the value and
    its subscribers, rounds in which every publish is accepted send nothing on it,
    although the connector reports itself Up after them. *)
Theorem refused_update_lost t r rs i e l h out : t_done t = false → running (r :: rs) → rs ≠ [] →
  ConnHealth.kind (t_health t) ≠ ConnHealth.KDown →
  entries (t_pump t) !! i = Some e → encode e = EncProperty l h → exempt e = false →
  0 < e_count (r_env r i) → payload e (r_env r i) = Some out → e_accepts (r_env r i) = false →
  Forall (λ r, 0 < e_count (r_env r i) ∧ payload e (r_env r i) = Some out
               ∧ ∀ j, e_accepts (r_env r j) = true) rs →
  ∃ e', entries (t_pump (rounds t (r :: rs))) !! i = Some e' ∧ sent e' = sent e
    ∧ t_health (rounds t (r :: rs)) = ConnHealth.Up.
Proof.
  intros Hd Hr Hn Hk Hi He Hx Hc Hp Ha Hf. eexists. split; [by apply rounds_entry|].
  assert (state_encoder (encode e) = true) as Hst by (by rewrite He).
  destruct (entry_tick_active e (r_env r i) out Hst Hc Hp) as (_ & Hh' & Hl' & Hpay & _ & Hq).
  destruct (entry_tick_kind e (r_env r i) Hst) as (_ & _ & _ & Hx').
  destruct (property_kept e (r_env r i)) as (l' & h' & He'); [by eexists _, _|].
  split.
  - cbn [fmap list_fmap foldl]. rewrite (foldl_quiet _ _ out); [by apply Hq; auto|congruence|done| |].
    + rewrite He' in Hl' |- *. cbn in Hl'. destruct h'; naive_solver.
    + apply Forall_fmap. eapply Forall_impl; [exact Hf|]. cbn. intros x (? & ? & _). by rewrite Hpay.
  - destruct rs as [|r' rs]; [done|]. destruct Hr as [Hstop Hr].
    apply (rounds_up (round t r) (r' :: rs)); [by rewrite round_live|done| |done|].
    + rewrite round_health by done. by apply on_tick_alive.
    + eapply Forall_impl; [exact Hf|]. by intros x (_ & _ & ?).
Qed.
End pump.

(** ** Concrete rounds: a property that holds a byte *)

#[export] Instance byte_json : Json Z unit := {|
  vm_json v := Some [v];
  flag_json b := Some [if b then 1 else 0];
  manifest_json _ := Some [];
  system_json c e := Some [c; e];
|}.

Definition demo_pump : Pump unit :=
  add_entry (add_entry pump_new (property_entry "Stepper")) (system_entry 5).
Definition demo_thread : Thread := spawn demo_pump (ConnHealth.Connecting 0).
(** The property holds [v], with [n] subscribers; publishes on it are accepted or not. *)
Definition demo_round (v n : Z) (ok : bool) : Round (V := Z) :=
  MkRound (λ i, if decide (i = 0%nat) then MkEnv (Some v) true n ok else MkEnv (Some 0) true 1 true) 0 false.

(** A subscriber and comes back: [8] is published again. *)
Lemma subscribers_current_witness :
  ∃ e0 e1 ps,
    entries (t_pump (rounds demo_thread [demo_round 7 1 true; demo_round 8 1 true; demo_round 8 0 true])) !! 0%nat = Some e0
    ∧ entries (t_pump (rounds demo_thread ([demo_round 7 1 true; demo_round 8 1 true; demo_round 8 0 true]
        ++ [demo_round 8 2 true] ++ [demo_round 8 2 true]))) !! 0%nat = Some e1
    ∧ sent e1 = sent e0 ++ ps ∧ last ps = Some [8].
Proof.
  apply (subscribers_current demo_thread _ _ 0 (property_entry "Stepper")); try done.
  repeat constructor; by eexists.
Defined.

Lemma refused_update_lost_witness :
  ∃ e', entries (t_pump (rounds demo_thread (demo_round 7 1 false :: [demo_round 7 1 true; demo_round 7 1 true]))) !! 0%nat = Some e'
    ∧ sent e' = sent (M := unit) (property_entry "Stepper")
    ∧ t_health (rounds demo_thread (demo_round 7 1 false :: [demo_round 7 1 true; demo_round 7 1 true])) = ConnHealth.Up.
Proof.
  apply (refused_update_lost demo_thread (demo_round 7 1 false) _ 0 _ [] false [7]); try done.
  repeat constructor; intros j; cbn; by destruct (decide _).
Defined.

End UiPump.
