(* ===== verification/UiCommand.v ===== *)
(** * The command plane of the UI connector

    Models [taktora-connector-ui/src/command.rs]: the retry cache [DedupeCache],
    the handler ([resolve], [dispatch], [poll], the loop of its thread), the
    rejection messages, and the transport [IoxCommandTransport] with its
    round-robin receive and reply routing.  Outside code is an input or a
    parameter: JSON parsing and encoding, the bounded effect channel's answer to a
    [try_send], the value of the gate at the time it is read, and the samples and
    send results of the shared-memory ports. *)

From stdpp Require Import base gmap list strings.
From Stdlib Require Import ZArith Lia.
From S2P Require Import Prelude.

Module UiCommand.

Abbreviation bytes := (list Z).
(** The 32 bytes of a correlation id. *)
Abbreviation CorrelationId := (list Z).

Inductive RejectedCode :=
| CanExecuteFalse | InvalidArgs | Faulted | BackPressure | UnknownCommand | ContractMismatch.

(** A message is its UTF-8 bytes. *)
Inductive Ack :=
| Accepted
| Rejected (code : RejectedCode) (message : bytes).

#[export] Instance code_eq_dec : EqDecision RejectedCode.
Proof. solve_decision. Defined.
#[export] Instance ack_eq_dec : EqDecision Ack.
Proof. solve_decision. Defined.

(** ** The retry cache *)

Record DedupeCache := MkCache {
  cap : Z;
  cached : gmap CorrelationId Ack;
  order : list CorrelationId;
}.

Definition cache_new (c : Z) : DedupeCache := MkCache (Z.max c 1) ∅ [].

(** The position of the first occurrence, removed and pushed at the back. *)
Definition touch (c : DedupeCache) (id : CorrelationId) : DedupeCache :=
  match list_find (λ x, x = id) (order c) with
  | Some (pos, _) => MkCache (cap c) (cached c) (delete pos (order c) ++ [id])
  | None => c
  end.

Definition get (c : DedupeCache) (id : CorrelationId) : option Ack * DedupeCache :=
  match cached c !! id with
  | None => (None, c)
  | Some ack => (Some ack, touch c id)
  end.

Definition insert (c : DedupeCache) (id : CorrelationId) (ack : Ack) : DedupeCache :=
  let c' := MkCache (cap c) (<[id := ack]> (cached c)) (order c) in
  match cached c !! id with
  | Some _ => touch c' id
  | None =>
      let c' := if cap c' <? Z.of_nat (size (cached c')) then
                  match order c' with
                  | evicted :: rest => MkCache (cap c') (delete evicted (cached c')) rest
                  | [] => c'
                  end
                else c' in
      MkCache (cap c') (cached c') (order c' ++ [id])
  end.

(** ** Rejections *)

Definition ACK_MESSAGE_CAP : Z := 200.

(** [str::is_char_boundary] on the bytes of a string. *)
Definition is_char_boundary (s : bytes) (i : nat) : bool :=
  match i with
  | O => true
  | _ => match s !! i with
         | None => (i =? length s)%nat
         | Some b => negb (Z.land b 0xC0 =? 0x80)
         end
  end.

(** [while end > 0 && !is_char_boundary(end) { end -= 1 }]. *)
Fixpoint back_to_boundary (s : bytes) (e : nat) : nat :=
  match e with
  | O => O
  | S e' => if is_char_boundary s e then e else back_to_boundary s e'
  end.

Definition rejected (code : RejectedCode) (message : bytes) : Ack :=
  Rejected code
    (if ACK_MESSAGE_CAP <? len message
     then take (back_to_boundary message (Z.to_nat ACK_MESSAGE_CAP)) message
     else message).

(** ** The handler *)

Inductive SendOutcome := Sent | Full | Disconnected.
Inductive EnqueueOutcome := Enqueued | EInvalidArgs (message : bytes) | EBackPressure | EFaulted.

(** What one invocation finds: the gate and the effect channel's answer. *)
Record Oracle := MkOracle { gate : bool; channel : SendOutcome }.

Record CommandInvocation := MkInvocation { i_name : string; params_json : bytes }.

(** Messages built with [format!], and the JSON parameters as a typed value. *)
Class Params (P : Type) := {
  from_slice : string → bytes → P + bytes;
  msg_unknown : string → bytes;
  msg_not_executable : string → bytes;
  msg_full : string → bytes;
  msg_disconnected : string → bytes;
}.

Section handler.
Context `{Params P}.

(** [RegisteredCommand::enqueue]; the value is sent on the channel only when the
    answer is [Sent]. *)
Definition enqueue (n : string) (json : bytes) (answer : SendOutcome) : EnqueueOutcome * list P :=
  match from_slice n json with
  | inl parsed =>
      match answer with
      | Sent => (Enqueued, [parsed])
      | Full => (EBackPressure, [])
      | Disconnected => (EFaulted, [])
      end
  | inr e => (EInvalidArgs e, [])
  end.

Record CommandHandler := MkHandler {
  commands : list string;                     (* registered names *)
  dedupe : DedupeCache;
  effects : list (CorrelationId * string * P);  (* values sent to the application *)
}.

Definition handler_new (dedupe_capacity : Z) : CommandHandler :=
  MkHandler [] (cache_new dedupe_capacity) [].

Definition register (h : CommandHandler) (n : string) : res CommandHandler :=
  if decide (n ∈ commands h) then Panic
  else Ok (MkHandler (n :: commands h) (dedupe h) (effects h)).

Definition dispatch (h : CommandHandler) (inv : CommandInvocation) (o : Oracle) : Ack * list P :=
  if decide (i_name inv ∈ commands h) then
    if negb (gate o) then (rejected CanExecuteFalse (msg_not_executable (i_name inv)), [])
    else
      match enqueue (i_name inv) (params_json inv) (channel o) with
      | (Enqueued, ps) => (Accepted, ps)
      | (EInvalidArgs message, ps) => (rejected InvalidArgs message, ps)
      | (EBackPressure, ps) => (rejected BackPressure (msg_full (i_name inv)), ps)
      | (EFaulted, ps) => (rejected Faulted (msg_disconnected (i_name inv)), ps)
      end
  else (rejected UnknownCommand (msg_unknown (i_name inv)), []).

Definition is_accepted (a : Ack) : bool := match a with Accepted => true | Rejected _ _ => false end.

Definition resolve (h : CommandHandler) (id : CorrelationId) (inv : CommandInvocation) (o : Oracle)
    : Ack * CommandHandler :=
  match get (dedupe h) id with
  | (Some ack, c) => (ack, MkHandler (commands h) c (effects h))
  | (None, c) =>
      let '(ack, ps) := dispatch h inv o in
      (ack, MkHandler (commands h) (if is_accepted ack then insert c id ack else c)
              (effects h ++ ((λ p, (id, i_name inv, p)) <$> ps)))
  end.

(** ** The shared-memory transport *)

(** What a port's reader will return: a sample or an error; nothing when empty. *)
Inductive Incoming := Sample (payload : bytes) (correlation_id : CorrelationId) | RecvError.

Record IoxCommandPort := MkPort {
  p_name : string;
  inbox : list Incoming;
  outbox : list (CorrelationId * bytes);      (* replies published *)
}.

Record IoxCommandTransport := MkTransport {
  ports : list IoxCommandPort;
  pending : gmap CorrelationId nat;
  cursor : nat;
}.

Inductive ConnectorError :=
| Configuration
| Codec
| PayloadOverflow (actual max : Z)
| SendFailed.

Definition transport_new : IoxCommandTransport := MkTransport [] ∅ 0.

Definition add_command (t : IoxCommandTransport) (n : string) : res IoxCommandTransport :=
  if decide (n ∈ p_name <$> ports t) then Panic
  else Ok (MkTransport (ports t ++ [MkPort n [] []]) (pending t) (cursor t)).

(** The [for offset in 0..count] loop of [try_recv], [k] iterations before the
    end. *)
Fixpoint recv_loop (t : IoxCommandTransport) (offset k : nat)
    : res (option (CorrelationId * CommandInvocation) * IoxCommandTransport) :=
  match k with
  | O => Ok (None, t)
  | S k =>
      let count := length (ports t) in
      let i := ((cursor t + offset) mod count)%nat in
      p ← expect (ports t !! i);
      match inbox p with
      | Sample payload id :: rest =>
          Ok (Some (id, MkInvocation (p_name p) payload),
              MkTransport (<[i := MkPort (p_name p) rest (outbox p)]> (ports t))
                (<[id := i]> (pending t)) ((i + 1) mod count)%nat)
      | RecvError :: rest =>
          recv_loop (MkTransport (<[i := MkPort (p_name p) rest (outbox p)]> (ports t))
                       (pending t) (cursor t)) (S offset) k
      | [] => recv_loop t (S offset) k
      end
  end.

Definition try_recv (t : IoxCommandTransport) := recv_loop t 0 (length (ports t)).

Context (N : Z) (ack_json : Ack → option bytes).

(** [reply]; [ok] is whether the port accepts the reply. *)
Definition reply (t : IoxCommandTransport) (id : CorrelationId) (ack : Ack) (ok : bool)
    : res (IoxCommandTransport * option ConnectorError) :=
  match pending t !! id with
  | None => Ok (t, Some Configuration)
  | Some i =>
      let t := MkTransport (ports t) (delete id (pending t)) (cursor t) in
      match ack_json ack with
      | None => Ok (t, Some Codec)
      | Some encoded =>
          if N <? len encoded then Ok (t, Some (PayloadOverflow (len encoded) N))
          else
            p ← expect (ports t !! i);
            if ok then
              Ok (MkTransport (<[i := MkPort (p_name p) (inbox p) (outbox p ++ [(id, encoded)])]> (ports t))
                    (pending t) (cursor t), None)
            else Ok (t, Some SendFailed)
      end
  end.

(** What the [k]-th invocation of a poll finds. *)
Record World := MkWorld { w_oracle : nat → Oracle; w_accepts : nat → bool }.

(** [CommandHandler::poll] over the transport: handle invocations until none is
    left; a failed reply is logged. *)
Fixpoint poll_loop (fuel : nat) (w : World) (handled : nat) (h : CommandHandler) (t : IoxCommandTransport)
    : res (nat * CommandHandler * IoxCommandTransport) :=
  match fuel with
  | O => Panic
  | S fuel =>
      '(m, t) ← try_recv t;
      match m with
      | None => Ok (handled, h, t)
      | Some (id, inv) =>
          let '(ack, h) := resolve h id inv (w_oracle w handled) in
          '(t, _) ← reply t id ack (w_accepts w handled);
          poll_loop fuel w (S handled) h t
      end
  end.

(** The incoming items of all ports bound the loop. *)
Definition backlog (t : IoxCommandTransport) : nat := length (ports t ≫= inbox).
Definition poll (w : World) (h : CommandHandler) (t : IoxCommandTransport) :=
  poll_loop (S (backlog t)) w 0 h t.

(** The handler thread: polls until one has seen the stop request. *)
Fixpoint thread_loop (ps : list (World * (IoxCommandTransport → IoxCommandTransport) * bool))
    (total : Z) (h : CommandHandler) (t : IoxCommandTransport) : res (Z * CommandHandler * IoxCommandTransport) :=
  match ps with
  | [] => Ok (total, h, t)
  | (w, arrive, stopping) :: ps =>
      '(n, h, t) ← poll w h (arrive t);
      if (stopping : bool) then Ok (total + Z.of_nat n, h, t)
      else thread_loop ps (total + Z.of_nat n) h t
  end.
End handler.
Arguments CommandHandler : clear implicits.

(** ** The cache is a least-recently-used map *)

(** The specification: entries from the least to the most recently used. *)
Abbreviation lru := (list (CorrelationId * Ack)).

Definition lru_find (l : lru) (id : CorrelationId) : option Ack := snd <$> (list_find (λ x, x.1 = id) l ≫= λ y, Some y.2).
Definition lru_drop (l : lru) (id : CorrelationId) : lru := filter (λ x, x.1 ≠ id) l.
Definition lru_get (l : lru) (id : CorrelationId) : option Ack * lru :=
  match lru_find l id with
  | Some a => (Some a, lru_drop l id ++ [(id, a)])
  | None => (None, l)
  end.
Definition lru_insert (c : Z) (l : lru) (id : CorrelationId) (a : Ack) : lru :=
  match lru_find l id with
  | Some _ => lru_drop l id ++ [(id, a)]
  | None => (if c <=? len l then tail l else l) ++ [(id, a)]
  end.

Inductive cache_op := OGet (id : CorrelationId) | OInsert (id : CorrelationId) (a : Ack).
Definition cache_do (x : DedupeCache * list (option Ack)) (o : cache_op) : DedupeCache * list (option Ack) :=
  match o with
  | OGet id => let '(r, c) := get x.1 id in (c, x.2 ++ [r])
  | OInsert id a => (insert x.1 id a, x.2)
  end.
Definition lru_do (c : Z) (x : lru * list (option Ack)) (o : cache_op) : lru * list (option Ack) :=
  match o with
  | OGet id => let '(r, l) := lru_get x.1 id in (l, x.2 ++ [r])
  | OInsert id a => (lru_insert c x.1 id a, x.2)
  end.

(** The representation: the order lists the keys, once each. *)
Record cache_rep (c : DedupeCache) (l : lru) : Prop := {
  rep_order : order c = l.*1;
  rep_nodup : NoDup l.*1;
  rep_cached : cached c = list_to_map l;
  rep_cap : 1 ≤ cap c;
  rep_len : len l ≤ cap c;
}.

Section rep.
Context (c : DedupeCache) (l : lru) (R : cache_rep c l).

Lemma rep_lookup id a : cached c !! id = Some a ↔ (id, a) ∈ l.
Proof. destruct R as [_ Hn -> _ _]. by rewrite elem_of_list_to_map. Qed.

Lemma rep_find id : lru_find l id = cached c !! id.
Proof.
  unfold lru_find. destruct (list_find _ l) as [[i [x a]]|] eqn:Hf; cbn.
  - apply list_find_Some in Hf as (Hi & Hx & _). cbn in Hx. subst x. symmetry. apply rep_lookup.
    by eapply list_elem_of_lookup_2.
  - symmetry. apply eq_None_not_Some. intros [a Ha%rep_lookup].
    apply list_find_None in Hf. rewrite Forall_forall in Hf. by apply (Hf _ Ha).
Qed.

Lemma rep_size : size (cached c) = length l.
Proof.
  destruct R as [_ Hn -> _ _]. clear -Hn. induction l as [|[x a] l' IH]; cbn in *; [apply map_size_empty|].
  apply NoDup_cons in Hn as [Hx Hn]. rewrite map_size_insert_None, IH; [done|done|].
  by apply not_elem_of_list_to_map_1.
Qed.
End rep.

Lemma drop_keys l id : (lru_drop l id).*1 = filter (λ x, x ≠ id) l.*1.
Proof.
  unfold lru_drop. induction l as [|[x a] l IH]; [done|].
  rewrite filter_cons, fmap_cons, filter_cons. cbn [fst]. case_decide; [|done]. by rewrite fmap_cons, IH.
Qed.

Lemma filter_true (l : list CorrelationId) x : x ∉ l → filter (λ y, y ≠ x) l = l.
Proof.
  induction l as [|y l IH]; intros Hx; [done|]. rewrite filter_cons, decide_True by set_solver.
  f_equal. apply IH. set_solver.
Qed.

Lemma filter_shorter (l : list CorrelationId) x : x ∈ l →
  (length (filter (λ y, y ≠ x) l) < length l)%nat.
Proof.
  induction l as [|y l IH]; [by intros ?%not_elem_of_nil|]. intros Hx. rewrite filter_cons.
  pose proof (length_filter (λ y, y ≠ x) l). case_decide; cbn; [|lia].
  apply elem_of_cons in Hx as [->|Hx]; [done|]. apply IH in Hx. lia.
Qed.

Lemma delete_filter (l : list CorrelationId) i x : NoDup l → l !! i = Some x →
  delete i l = filter (λ y, y ≠ x) l.
Proof.
  revert i. induction l as [|y l IH]; intros i Hn Hi; [done|]. apply NoDup_cons in Hn as [Hy Hn].
  rewrite filter_cons. destruct i as [|i]; cbn in Hi |- *.
  - injection Hi as ->. rewrite decide_False by auto. symmetry. by apply filter_true.
  - rewrite decide_True; [by f_equal; apply IH|]. intros ->. apply Hy. by eapply list_elem_of_lookup_2.
Qed.

Lemma list_to_map_drop l id : list_to_map (lru_drop l id) =@{gmap CorrelationId Ack} delete id (list_to_map l).
Proof.
  unfold lru_drop. induction l as [|[x a] l IH]; [by rewrite list_to_map_nil, delete_empty|].
  rewrite filter_cons, list_to_map_cons. cbn [fst]. case_decide as Hx; rewrite ?list_to_map_cons, IH.
  - by rewrite delete_insert_ne by done.
  - destruct (decide (x = id)) as [->|]; [|done]. by rewrite delete_insert_eq.
Qed.

(** The representation after [id] is moved to the back with ack [a]. *)
Lemma rep_refresh c l id a b : cache_rep c l → cached c !! id = Some b →
  cache_rep (touch (MkCache (cap c) (<[id := a]> (cached c)) (order c)) id) (lru_drop l id ++ [(id, a)]).
Proof.
  intros R Hb. pose proof (rep_lookup c l R id b) as Hin. destruct R as [Ho Hn Hc Hcap Hl].
  assert (id ∈ l.*1) as Hid. { apply list_elem_of_fmap. exists (id, b). naive_solver. }
  unfold touch. cbn [order cap cached]. rewrite Ho.
  destruct (list_find _ l.*1) as [[i x]|] eqn:Hf.
  2: { apply list_find_None in Hf. rewrite Forall_forall in Hf. by apply Hf in Hid. }
  apply list_find_Some in Hf as (Hi & -> & _). rewrite (delete_filter _ _ _ Hn Hi).
  assert (id ∉ filter (λ y, y ≠ id) l.*1) as Hnid by (intros [? _]%list_elem_of_filter; done).
  split; cbn [order cap cached].
  - by rewrite fmap_app, drop_keys.
  - rewrite fmap_app, drop_keys. apply NoDup_app. split; [by apply NoDup_filter|].
    split; [|apply NoDup_singleton]. intros y Hy. cbn. rewrite list_elem_of_singleton. by intros ->.
  - rewrite list_to_map_snoc, list_to_map_drop, Hc by (by rewrite drop_keys). by rewrite insert_delete_eq.
  - done.
  - rewrite len_app. change (len [(id, a)]) with 1. cbn [cap]. assert (len (lru_drop l id) < len l); [|lia].
    apply (f_equal (λ l, Z.of_nat (length l))) in Ho. unfold len.
    rewrite <-(length_fmap fst (lru_drop l id)), <-(length_fmap fst l), drop_keys.
    apply Nat2Z.inj_lt. by apply filter_shorter.
Qed.

Lemma rep_get c l id : cache_rep c l →
  (get c id).1 = (lru_get l id).1 ∧ cache_rep (get c id).2 (lru_get l id).2.
Proof.
  intros R. unfold get, lru_get. rewrite (rep_find c l R id).
  destruct (cached c !! id) as [a|] eqn:Ha; [|done]. split; [done|]. cbn.
  pose proof (rep_refresh c l id a a R Ha) as Hr. rewrite insert_id in Hr by done.
  by destruct c.
Qed.

Lemma rep_insert c l id a : cache_rep c l → cache_rep (insert c id a) (lru_insert (cap c) l id a).
Proof.
  intros R. unfold insert, lru_insert. rewrite (rep_find c l R id).
  destruct (cached c !! id) as [b|] eqn:Hb; [by eapply rep_refresh|]. cbn [cap cached order].
  pose proof (rep_size c l R) as Hsz. destruct R as [Ho Hn Hc Hcap Hl].
  rewrite map_size_insert_None, Hsz by done.
  assert (id ∉ l.*1) as Hid. { apply (not_elem_of_list_to_map_2 (M := gmap CorrelationId)). by rewrite <-Hc. }
  replace (cap c <? Z.of_nat (S (length l))) with (cap c <=? len l)
    by (apply eq_true_iff_eq; rewrite Z.ltb_lt, Z.leb_le; unfold len; lia).
  destruct (Z.leb_spec (cap c) (len l)) as [Hfull|Hroom].
  - destruct l as [|[x b] l]; [unfold len in Hfull; cbn in Hfull; lia|]. rewrite Ho. cbn [fmap list_fmap fst tail].
    cbn in Hn, Hid. apply NoDup_cons in Hn as [Hx Hn]. apply not_elem_of_cons in Hid as [Hne Hid].
    split; cbn [order cap cached].
    + by rewrite fmap_app.
    + rewrite fmap_app. apply NoDup_app. split; [done|]. split; [|apply NoDup_singleton].
      intros y Hy. cbn. rewrite list_elem_of_singleton. by intros ->.
    + rewrite list_to_map_snoc, Hc by done. cbn. rewrite delete_insert_ne by done.
      by rewrite delete_insert_id by (by apply not_elem_of_list_to_map_1).
    + done.
    + rewrite len_app. unfold len in *. cbn in *. lia.
  - split; cbn [order cap cached].
    + by rewrite fmap_app, Ho.
    + rewrite fmap_app. apply NoDup_app. split; [done|]. split; [|apply NoDup_singleton].
      intros y Hy. cbn. rewrite list_elem_of_singleton. by intros ->.
    + by rewrite list_to_map_snoc, Hc by done.
    + done.
    + rewrite len_app. unfold len in *. cbn in *. lia.
Qed.

Lemma get_cap c id : cap (get c id).2 = cap c.
Proof. unfold get, touch. destruct (cached c !! id); [|done]. by destruct (list_find _ _) as [[??]|]. Qed.
Lemma insert_cap c id a : cap (insert c id a) = cap c.
Proof.
  unfold insert, touch. cbn [order cap cached]. destruct (cached c !! id).
  - by destruct (list_find _ _) as [[??]|].
  - destruct (_ <? _); [|done]. by destruct (order c).
Qed.

Lemma rep_new n : cache_rep (cache_new n) [].
Proof. split; [done|apply NoDup_nil_2|done|cbn; lia|unfold len; cbn; lia]. Qed.

(** The retry cache refines a least-recently-used map of bounded size: for
    every sequence of lookups and insertions it returns what the specification
    returns, whose entries it represents, and never holds more than its capacity
    (at least one). *)
Theorem cache_refines_lru n ops :
  let c := foldl cache_do (cache_new n, []) ops in
  let l := foldl (lru_do (Z.max n 1)) ([], []) ops in
  c.2 = l.2 ∧ cache_rep c.1 l.1.
Proof.
  cut (∀ c l rs, cap c = Z.max n 1 → cache_rep c l →
    let x := foldl cache_do (c, rs) ops in let y := foldl (lru_do (Z.max n 1)) (l, rs) ops in
    x.2 = y.2 ∧ cache_rep x.1 y.1).
  { intros Hg. apply Hg; [done|apply rep_new]. }
  induction ops as [|o ops IH]; intros c l rs Hcap R; [done|]. cbn [foldl].
  destruct o as [id|id a]; cbn [cache_do lru_do fst snd].
  - pose proof (rep_get c l id R) as [Hr R']. pose proof (get_cap c id) as Hc.
    destruct (get c id) as [r c'], (lru_get l id) as [r' l']. cbn in *. subst r'. apply IH; [congruence|done].
  - apply IH; [by rewrite insert_cap|]. rewrite <-Hcap. by apply rep_insert.
Qed.

(** ** Retries *)

(** The keys after a lookup or an insertion. *)
Definition refreshed (l : list CorrelationId) (id : CorrelationId) : list CorrelationId :=
  filter (λ x, x ≠ id) l ++ [id].

Record handler_ok `{Params P} (h : CommandHandler P) : Prop := {
  ok_rep : ∃ l, cache_rep (dedupe h) l;
  ok_acks : ∀ id a, cached (dedupe h) !! id = Some a → a = Accepted;
}.

Record Call := MkCall { c_id : CorrelationId; c_inv : CommandInvocation; c_oracle : Oracle }.
Definition call `{Params P} (h : CommandHandler P) (x : Call) : CommandHandler P :=
  (resolve h (c_id x) (c_inv x) (c_oracle x)).2.

(** Distinct correlation ids of the calls, other than [id]. *)
Definition others (id : CorrelationId) (xs : list Call) : list CorrelationId :=
  remove_dups (filter (λ y, y ≠ id) (c_id <$> xs)).

(** The effects enqueued under [id]. *)
Definition effects_of {P} (id : CorrelationId) (es : list (CorrelationId * string * P)) :=
  filter (λ e, e.1.1 = id) es.

Section retries.
Context `{Params P}.

Lemma get_order c l id a : cache_rep c l → cached c !! id = Some a →
  order (get c id).2 = refreshed (order c) id ∧ cached (get c id).2 = cached c.
Proof.
  intros R Ha. pose proof (rep_get c l id R) as [_ R']. unfold lru_get in R'. rewrite (rep_find c l R), Ha in R'.
  cbn in R'. rewrite (rep_order _ _ R'), (rep_order _ _ R), fmap_app, drop_keys. split; [done|].
  unfold get. rewrite Ha. unfold touch. by destruct (list_find _ _) as [[??]|].
Qed.

(** [resolve] by cases: a replay, a rejection, or an effect. *)
Lemma resolve_cases h id inv o : handler_ok h →
  let '(a, h') := resolve h id inv o in
  handler_ok h' ∧ cap (dedupe h') = cap (dedupe h) ∧
  ((cached (dedupe h) !! id = Some a ∧ a = Accepted ∧ effects h' = effects h
    ∧ order (dedupe h') = refreshed (order (dedupe h)) id ∧ cached (dedupe h') = cached (dedupe h))
   ∨ (cached (dedupe h) !! id = None ∧ is_accepted a = false ∧ h' = h)
   ∨ (cached (dedupe h) !! id = None ∧ a = Accepted ∧ dedupe h' = insert (dedupe h) id Accepted
      ∧ ∃ p, effects h' = effects h ++ [(id, i_name inv, p)])).
Proof.
  intros [[l R] Hacks]. unfold resolve. destruct (cached (dedupe h) !! id) as [b|] eqn:Hb.
  - pose proof (Hacks _ _ Hb) as ->. destruct (get_order _ _ _ _ R Hb) as [Ho Hc].
    pose proof (rep_get _ _ id R) as [_ R']. pose proof (get_cap (dedupe h) id) as Hcap.
    assert ((get (dedupe h) id).1 = Some Accepted) as H1 by (unfold get; by rewrite Hb).
    destruct (get (dedupe h) id) as [r c']. cbn in *. subst r. split.
    { split; [by eexists|]. cbn. rewrite Hc. done. }
    split; [done|]. left. done.
  - assert (get (dedupe h) id = (None, dedupe h)) as -> by (unfold get; by rewrite Hb).
    destruct (dispatch h inv o) as [a ps] eqn:Hd. destruct (is_accepted a) eqn:Ha.
    + destruct a; [|done]. assert (∃ p, ps = [p]) as [p ->].
      { unfold dispatch in Hd. destruct (decide _); [|done]. destruct (negb _); [done|].
        destruct (enqueue _ _ _) as [[] ps'] eqn:He; try done. injection Hd as <-.
        unfold enqueue in He. destruct (from_slice _ _); [|done]. destruct (channel o); try done.
        injection He as <-. by eexists. }
      split; [|split; [apply insert_cap|right; right; eauto]].
      split; [eexists; by apply rep_insert|]. cbn. intros x b' Hx.
      pose proof (rep_insert _ _ id Accepted R) as R'. apply (rep_lookup _ _ R') in Hx.
      unfold lru_insert in Hx. rewrite (rep_find _ _ R), Hb in Hx.
      apply elem_of_app in Hx as [Hx|Hx%list_elem_of_singleton]; [|by injection Hx].
      apply (Hacks x), (rep_lookup _ _ R). destruct (_ <=? _); [|done]. destruct l; [done|by right].
    + assert (ps = []) as ->.
      { unfold dispatch in Hd. destruct (decide _); [|by injection Hd as <- <-].
        destruct (negb _); [by injection Hd as <- <-|]. unfold enqueue in Hd.
        destruct (from_slice _ _); [destruct (channel o)|]; by injection Hd as <- <-. }
      cbn. rewrite app_nil_r. destruct h as [cs c es]. cbn in *. split; [by split; [eexists|]|].
      split; [done|]. right. left. done.
Qed.

Lemma insert_order c l id a : cache_rep c l → cached c !! id = None →
  order (insert c id a) = (if cap c <=? len (order c) then tail (order c) else order c) ++ [id].
Proof.
  intros R Hn. pose proof (rep_insert _ _ id a R) as R'. rewrite (rep_order _ _ R').
  unfold lru_insert. rewrite (rep_find _ _ R), Hn, fmap_app, (rep_order _ _ R). cbn. f_equal.
  unfold len. rewrite length_fmap. destruct (_ <=? _); [|done]. by destruct l.
Qed.

(** [id] is cached, and what was used after it is among the ids [S]. *)
Definition recent (id : CorrelationId) (S : list CorrelationId) (c : DedupeCache) : Prop :=
  ∃ l1 l2, order c = l1 ++ id :: l2 ∧ l2 ⊆ S.

Lemma recent_cached h id S : handler_ok h → recent id S (dedupe h) → cached (dedupe h) !! id = Some Accepted.
Proof.
  intros [[l R] Hacks] (l1 & l2 & Ho & _). assert (id ∈ l.*1) as ([x a] & Hx & Hin)%list_elem_of_fmap.
  { rewrite <-(rep_order _ _ R), Ho. set_solver. }
  cbn in Hx. subst x. apply (rep_lookup _ _ R) in Hin. by rewrite Hin, (Hacks _ _ Hin).
Qed.

Lemma refreshed_recent id x l1 l2 S : NoDup (l1 ++ id :: l2) → l2 ⊆ S → (x = id ∨ x ∈ S) →
  ∃ k1 k2, refreshed (l1 ++ id :: l2) x = k1 ++ id :: k2 ∧ k2 ⊆ S.
Proof.
  intros Hn Hs Hx. unfold refreshed. destruct (decide (x = id)) as [->|Hne].
  - eexists _, []. split; [done|]. set_solver.
  - exists (filter (λ y, y ≠ x) l1), (filter (λ y, y ≠ x) l2 ++ [x]).
    rewrite filter_app, filter_cons, decide_True by done. split; [by rewrite <-app_assoc|].
    intros y [[_ Hy]%list_elem_of_filter|Hy%list_elem_of_singleton]%elem_of_app; set_solver.
Qed.

(** A call keeps [id] cached as long as fewer other ids than the capacity were
    used. *)
Lemma call_recent h x id S : handler_ok h → recent id S (dedupe h) →
  (c_id x = id ∨ c_id x ∈ S) → len (remove_dups S) < cap (dedupe h) →
  handler_ok (call h x) ∧ recent id S (dedupe (call h x)) ∧ cap (dedupe (call h x)) = cap (dedupe h)
  ∧ effects_of id (effects (call h x)) = effects_of id (effects h).
Proof.
  intros Hok Hrec Hx Hlt. pose proof (recent_cached _ _ _ Hok Hrec) as Hid.
  pose proof (resolve_cases h (c_id x) (c_inv x) (c_oracle x) Hok) as Hc. unfold call.
  destruct (resolve _ _ _ _) as [a h']. cbn [snd]. destruct Hc as (Hok' & Hcap & Hcase).
  split; [done|]. destruct Hok as [[l R] _]. pose proof (rep_nodup _ _ R) as Hn. rewrite <-(rep_order _ _ R) in Hn.
  destruct Hrec as (l1 & l2 & Ho & Hs).
  destruct Hcase as [(_ & _ & He & Hor & _)|[(_ & _ & ->)|(Hno & _ & Hd & p & He)]].
  - rewrite He. split; [|done]. unfold recent. rewrite Hor, Ho in *. by apply refreshed_recent.
  - split; [by exists l1, l2|done].
  - assert (c_id x ≠ id) as Hne by (intros Heq; rewrite Heq in Hno; congruence).
    split; [|split; [done|]].
    2: { rewrite He. unfold effects_of. rewrite filter_app, filter_cons, decide_False by done.
         cbn. by rewrite app_nil_r. }
    unfold recent. rewrite Hd, (insert_order _ _ _ _ R Hno).
    assert (l2 ++ [c_id x] ⊆ S) as Hs' by (destruct Hx; set_solver).
    destruct (Z.leb_spec (cap (dedupe h)) (len (order (dedupe h)))) as [Hfull|_]; rewrite Ho in *.
    2: { exists l1, (l2 ++ [c_id x]). by rewrite <-app_assoc. }
    destruct l1 as [|y l1]; cbn [app tail].
    2: { exists l1, (l2 ++ [c_id x]). by rewrite <-app_assoc. }
    exfalso. assert (length (l2 ++ [c_id x]) ≤ length (remove_dups S))%nat as Hle.
    { apply submseteq_length, NoDup_submseteq; [|intros y Hy; apply elem_of_remove_dups; set_solver].
      cbn in Hn. apply NoDup_cons in Hn as [_ Hn]. apply NoDup_app. split; [done|].
      split; [|apply NoDup_singleton]. intros y Hy. rewrite list_elem_of_singleton. intros ->.
      assert (c_id x ∈ l.*1) as ([z b] & Hz & Hin)%list_elem_of_fmap.
      { rewrite <-(rep_order _ _ R), Ho. cbn. set_solver. }
      cbn in Hz. subst z. apply (rep_lookup _ _ R) in Hin. congruence. }
    rewrite length_app in Hle. unfold len in *. cbn in *. lia.
Qed.

Lemma calls_recent xs h id S : handler_ok h → recent id S (dedupe h) →
  Forall (λ x, c_id x = id ∨ c_id x ∈ S) xs → len (remove_dups S) < cap (dedupe h) →
  let h' := foldl call h xs in
  handler_ok h' ∧ recent id S (dedupe h') ∧ effects_of id (effects h') = effects_of id (effects h).
Proof.
  intros Hok Hrec Hf. revert h Hok Hrec. induction Hf as [|x xs Hx _ IH]; intros h Hok Hrec Hlt; [done|].
  destruct (call_recent h x id S Hok Hrec Hx Hlt) as (Hok' & Hrec' & Hcap & He). cbn [foldl].
  destruct (IH (call h x) Hok' Hrec') as (? & ? & He'); [by rewrite Hcap|]. rewrite He'. done.
Qed.

(** The handlers that registration and calls produce. *)
Inductive reachable : CommandHandler P → Prop :=
| reach_new n : reachable (handler_new n)
| reach_register h n h' : reachable h → register h n = Ok h' → reachable h'
| reach_call h x : reachable h → reachable (call h x).

Lemma reachable_ok h : reachable h → handler_ok h.
Proof.
  induction 1 as [n|h n h' _ IH Hr|h x _ IH].
  - split; [eexists; apply rep_new|done].
  - unfold register in Hr. destruct (decide _); [done|]. injection Hr as <-. by destruct IH.
  - pose proof (resolve_cases h (c_id x) (c_inv x) (c_oracle x) IH) as Hc. unfold call.
    destruct (resolve _ _ _ _). apply Hc.
Qed.

(** C20. Retries are answered at most once: after an invocation was accepted, every
    retry of its correlation id is answered Accepted from the cache and enqueues no
    effect, whatever the gate, the channel and the parameters are by then, as long
    as fewer distinct other ids than the capacity of the cache were resolved in
    between. *)
Theorem retry_enqueues_once h id inv o h1 mid inv' o' : reachable h →
  resolve h id inv o = (Accepted, h1) → len (others id mid) < cap (dedupe h) →
  let h2 := foldl call h1 mid in
  effects_of id (effects h2) = effects_of id (effects h1) ∧
  ∃ h3, resolve h2 id inv' o' = (Accepted, h3) ∧ effects h3 = effects h2.
Proof.
  intros Hreach Hres Hlt. pose proof (reachable_ok h Hreach) as Hok.
  pose proof (resolve_cases h id inv o Hok) as Hc. rewrite Hres in Hc. destruct Hc as (Hok1 & Hcap & Hcase).
  set (S := filter (λ y, y ≠ id) (c_id <$> mid)).
  assert (recent id S (dedupe h1)) as Hrec.
  { destruct Hok as [[l R] _]. destruct Hcase as [(_ & _ & _ & Ho & _)|[(_ & ? & _)|(Hno & _ & Hd & _)]]; [|done|].
    - eexists _, []. split; [exact Ho|set_solver].
    - rewrite Hd. unfold recent. rewrite (insert_order _ _ _ _ R Hno). eexists _, []. split; [done|set_solver]. }
  destruct (calls_recent mid h1 id S) as (Hok2 & Hrec2 & He2); [done|done| |by rewrite Hcap|].
  { apply Forall_forall. intros x Hx. destruct (decide (c_id x = id)); [by left|right].
    apply list_elem_of_filter. split; [done|]. by apply list_elem_of_fmap_2. }
  split; [done|]. pose proof (resolve_cases _ id inv' o' Hok2) as Hc2.
  pose proof (recent_cached _ _ _ Hok2 Hrec2) as Hcached.
  destruct (resolve (foldl call h1 mid) id inv' o') as [a h3]. destruct Hc2 as (_ & _ & Hcase2).
  exists h3. rewrite Hcached in Hcase2. naive_solver.
Qed.
End retries.

(** ** Rejection messages *)

Lemma back_to_boundary_spec s e :
  (back_to_boundary s e ≤ e)%nat ∧ is_char_boundary s (back_to_boundary s e) = true.
Proof.
  induction e as [|e [IHle IHb]]; [done|]. cbn [back_to_boundary].
  destruct (is_char_boundary s (S e)) eqn:Hb; [done|]. split; [lia|done].
Qed.

(** Messages are cut at a character boundary within the cap. *)
Lemma rejected_message code m : ∃ k,
  rejected code m = Rejected code (take k m) ∧ len (take k m) ≤ ACK_MESSAGE_CAP
  ∧ is_char_boundary m k = true.
Proof.
  unfold rejected. destruct (Z.ltb_spec ACK_MESSAGE_CAP (len m)) as [Hl|Hl].
  - eexists. split; [done|]. destruct (back_to_boundary_spec m (Z.to_nat ACK_MESSAGE_CAP)) as [Hle Hb].
    split; [|done]. unfold len. rewrite length_take. unfold ACK_MESSAGE_CAP in *. lia.
  - exists (length m). rewrite take_ge by done. split; [done|]. split; [done|].
    unfold is_char_boundary. destruct (length m) eqn:Hlen; [done|]. rewrite <-Hlen, lookup_ge_None_2 by done.
    by rewrite Hlen, Nat.eqb_refl.
Qed.

(** ** Receiving *)

Lemma add_mod_eq a j d n : (0 < n)%nat → (j < n)%nat → (d < n)%nat →
  ((a + j) mod n = (a + d) mod n)%nat → j = d.
Proof.
  intros Hn Hj Hd He. pose proof (Nat.div_mod_eq (a + j) n). pose proof (Nat.div_mod_eq (a + d) n).
  rewrite He in *. generalize dependent ((a + j) / n)%nat. generalize dependent ((a + d) / n)%nat.
  intros q2 H2 q1 H1. destruct (Nat.lt_trichotomy q1 q2) as [Hq|[->|Hq]]; [nia|lia|nia].
Qed.

Lemma mod_hits a q n : (q < n)%nat → ∃ d, (d < n)%nat ∧ ((a + d) mod n = q)%nat.
Proof.
  intros Hq. exists ((q + (n - a mod n)) mod n)%nat. split; [apply Nat.mod_upper_bound; lia|].
  rewrite Nat.Div0.add_mod_idemp_r. pose proof (Nat.mod_upper_bound a n ltac:(lia)).
  pose proof (Nat.div_mod_eq a n). replace (a + (q + (n - a mod n)))%nat with (q + (a / n + 1) * n)%nat by nia.
  rewrite Nat.Div0.mod_add. by apply Nat.mod_small.
Qed.

Lemma next_dist a j d n : (0 < n)%nat → (j < d)%nat →
  ((((a + j) mod n + 1) mod n + (d - j - 1)) mod n = (a + d) mod n)%nat.
Proof.
  intros Hn Hj. rewrite Nat.Div0.add_mod_idemp_l, <-Nat.add_assoc, Nat.Div0.add_mod_idemp_l. f_equal. lia.
Qed.

(** The loop of [try_recv] serves port [q] or one before it. *)
Lemma recv_loop_serves k t off q p payload id rest d :
  let count := length (ports t) in
  (off + k = count)%nat → (off ≤ d < count)%nat → ((cursor t + d) mod count = q)%nat →
  ports t !! q = Some p → inbox p = Sample payload id :: rest →
  ∃ j m t', (off ≤ j ≤ d)%nat ∧ recv_loop t off k = Ok (Some m, t') ∧ length (ports t') = count
    ∧ (cursor t' = ((cursor t + j) mod count + 1) mod count)%nat
    ∧ (j = d ∧ m = (id, MkInvocation (p_name p) payload) ∨ (j < d)%nat ∧ ports t' !! q = Some p).
Proof.
  cbn zeta. revert t off. induction k as [|k IH]; intros t off Hk Hd Hq Hp Hi; [lia|]. cbn [recv_loop].
  set (n := length (ports t)) in *. assert ((cursor t + off) mod n < n)%nat as Hlt by (apply Nat.mod_upper_bound; lia).
  destruct (lookup_lt_is_Some_2 (ports t) _ Hlt) as [x Hx]. rewrite Hx. cbn [expect mbind res_bind].
  destruct (decide (off = d)) as [->|Hne].
  - rewrite Hq in Hx |- *. rewrite Hp in Hx. injection Hx as <-. rewrite Hi. eexists d, _, _.
    split; [lia|]. split; [done|]. split; [apply length_insert|]. split; [by rewrite Hq|]. by left.
  - assert ((cursor t + off) mod n ≠ q)%nat as Hnq.
    { intros He. rewrite <-Hq in He. apply add_mod_eq in He; lia. }
    destruct (inbox x) as [|[pl i|] rs].
    + destruct (IH t (S off)) as (j & m & t' & Hj & Hr); [lia|lia|done|done|done|].
      exists j, m, t'. split; [lia|done].
    + eexists off, _, _. split; [lia|]. split; [done|]. split; [apply length_insert|]. split; [done|].
      right. split; [lia|]. cbn. by rewrite list_lookup_insert_ne.
    + set (t2 := MkTransport _ _ _). assert (length (ports t2) = n) as Hn2 by apply length_insert.
      destruct (IH t2 (S off)) as (j & m & t' & Hj & Hr & Hl & Hc & Hcase).
      * rewrite Hn2. lia.
      * rewrite Hn2. lia.
      * by rewrite Hn2.
      * cbn. by rewrite list_lookup_insert_ne.
      * done.
      * rewrite Hn2 in *. exists j, m, t'. split; [lia|]. done.
Qed.

(** Samples that arrive between two calls. *)
Definition arrive (f : nat → list Incoming) (t : IoxCommandTransport) : IoxCommandTransport :=
  MkTransport (imap (λ i p, MkPort (p_name p) (inbox p ++ f i) (outbox p)) (ports t)) (pending t) (cursor t).

(** Calls of [try_recv], each after arrivals. *)
Fixpoint receives (fs : list (nat → list Incoming)) (t : IoxCommandTransport)
    : res (list (option (CorrelationId * CommandInvocation))) :=
  match fs with
  | [] => Ok []
  | f :: fs => '(m, t) ← try_recv (arrive f t); ms ← receives fs t; Ok (m :: ms)
  end.

Lemma arrive_lookup f t q p : ports t !! q = Some p →
  ports (arrive f t) !! q = Some (MkPort (p_name p) (inbox p ++ f q) (outbox p)).
Proof. intros Hp. cbn. by rewrite list_lookup_imap, Hp. Qed.

Lemma recv_total k t off : (0 < k → 0 < length (ports t))%nat →
  ∃ m t', recv_loop t off k = Ok (m, t') ∧ length (ports t') = length (ports t).
Proof.
  revert t off. induction k as [|k IH]; intros t off Hk; [by eexists _, _|]. cbn [recv_loop].
  assert ((cursor t + off) mod length (ports t) < length (ports t))%nat as Hlt by (apply Nat.mod_upper_bound; lia).
  destruct (lookup_lt_is_Some_2 _ _ Hlt) as [x ->]. cbn [expect mbind res_bind].
  destruct (inbox x) as [|[pl i|] rs]; [apply IH; lia| |].
  - eexists _, _. split; [done|]. apply length_insert.
  - edestruct IH as (m & t' & -> & Hl); [|eexists _, _; split; [done|]].
    + cbn. rewrite length_insert. lia.
    + rewrite Hl. apply length_insert.
Qed.

Lemma receives_total fs t : ∃ ms, receives fs t = Ok ms.
Proof.
  revert t. induction fs as [|f fs IH]; intros t; [by eexists|]. cbn [receives]. unfold try_recv.
  destruct (recv_total (length (ports (arrive f t))) (arrive f t) 0) as (m & t' & -> & _); [lia|].
  cbn. destruct (IH t') as [ms ->]. by eexists.
Qed.

Lemma receives_dist fs t q p payload id rest d : (d < length (ports t))%nat →
  ((cursor t + d) mod length (ports t) = q)%nat → ports t !! q = Some p →
  inbox p = Sample payload id :: rest → (d < length fs)%nat →
  ∃ ms, receives fs t = Ok ms ∧ Some (id, MkInvocation (p_name p) payload) ∈ ms.
Proof.
  revert t p rest d. induction fs as [|f fs IH]; intros t p rest d Hd Hq Hp Hi Hl; [cbn in Hl; lia|].
  assert (length (ports (arrive f t)) = length (ports t)) as Hla by apply length_imap.
  destruct (recv_loop_serves (length (ports t)) (arrive f t) 0 q
    (MkPort (p_name p) (inbox p ++ f q) (outbox p)) payload id (rest ++ f q) d) as
    (j & m & t' & Hj & Hr & Hl' & Hc & Hcase);
    [by rewrite Hla|rewrite Hla; lia|by rewrite Hla|by apply arrive_lookup|by cbn; rewrite Hi|].
  cbn [receives]. unfold try_recv. rewrite Hla, Hr in *. cbn [mbind res_bind].
  destruct Hcase as [[_ ->]|[Hlt Hp']].
  - destruct (receives_total fs t') as [ms ->]. eexists. split; [done|]. left.
  - destruct (IH t' (MkPort (p_name p) (inbox p ++ f q) (outbox p)) (rest ++ f q) (d - j - 1)%nat)
      as (ms & -> & Hin); [..|eexists; split; [done|by right]].
    + rewrite Hl'. lia.
    + rewrite Hl', Hc. cbn [cursor arrive]. rewrite next_dist by lia. done.
    + exact Hp'.
    + cbn. by rewrite Hi.
    + cbn in Hl. lia.
Qed.

(** The transport is fair: a sample at the head of a port's queue is received
    within as many receives as there are ports, whatever else arrives on any port
    in between, errors included. *)
Theorem receive_is_fair fs t q p payload id rest :
  ports t !! q = Some p → inbox p = Sample payload id :: rest → (length (ports t) ≤ length fs)%nat →
  ∃ ms, receives (take (length (ports t)) fs) t = Ok ms
    ∧ Some (id, MkInvocation (p_name p) payload) ∈ ms.
Proof.
  intros Hp Hi Hl. pose proof (lookup_lt_Some _ _ _ Hp) as Hlt.
  destruct (mod_hits (cursor t) q _ Hlt) as (d & Hd & Hq).
  eapply (receives_dist _ t q p payload id rest d); try done. rewrite length_take. lia.
Qed.

(** ** Answering *)

(** Only samples are waiting. *)
Definition samples_only (t : IoxCommandTransport) : Prop :=
  Forall (λ p, Forall (λ x, x ≠ RecvError) (inbox p)) (ports t).

Lemma recv_first k t off : samples_only t → (off + k ≤ length (ports t))%nat →
  (recv_loop t off k = Ok (None, t) ∧
   ∀ j p, (off ≤ j < off + k)%nat → ports t !! ((cursor t + j) mod length (ports t))%nat = Some p → inbox p = []) ∨
  ∃ i p payload id rest, ports t !! i = Some p ∧ inbox p = Sample payload id :: rest ∧
    recv_loop t off k = Ok (Some (id, MkInvocation (p_name p) payload),
      MkTransport (<[i := MkPort (p_name p) rest (outbox p)]> (ports t)) (<[id := i]> (pending t))
        ((i + 1) mod length (ports t))%nat).
Proof.
  intros Hs. revert off. induction k as [|k IH]; intros off Hk; [left; split; [done|lia]|]. cbn [recv_loop].
  assert ((cursor t + off) mod length (ports t) < length (ports t))%nat as Hlt by (apply Nat.mod_upper_bound; lia).
  destruct (lookup_lt_is_Some_2 _ _ Hlt) as [x Hx]. rewrite Hx. cbn [expect mbind res_bind].
  destruct (inbox x) as [|[pl i|] rs] eqn:Hi.
  - destruct (IH (S off)) as [[Hr Hall]|Hsome]; [lia| |by right]. left. split; [done|].
    intros j p Hj Hp. destruct (decide (j = off)) as [->|]; [congruence|]. eapply Hall; [|done]. lia.
  - right. by eexists _, x, pl, i, rs.
  - eapply Forall_lookup_1 in Hs; [|exact Hx]. rewrite Hi in Hs. by apply Forall_cons in Hs as [[] _].
Qed.

(** An encoder whose escapes take at most six bytes each. *)
Class AckJson (f : Ack → option bytes) := {
  json_total a : is_Some (f a);
  json_accepted b : f Accepted = Some b → len b ≤ 64;
  json_rejected c m b : f (Rejected c m) = Some b → len b ≤ 64 + 6 * len m;
}.

Section answers.
Context `{Params P} (N : Z) (ack_json : Ack → option bytes) `{!AckJson ack_json}.
Context (HN : 64 + 6 * ACK_MESSAGE_CAP ≤ N).

(** Every ack of a reachable handler fits the envelope. *)
Lemma resolve_fits h id inv o a h' : handler_ok h → resolve h id inv o = (a, h') →
  ∃ b, ack_json a = Some b ∧ len b ≤ N.
Proof.
  intros Hok Hr. destruct (json_total a) as [b Hb]. exists b. split; [done|].
  assert (a = Accepted ∨ ∃ c m, a = rejected c m) as [->|(c & m & ->)].
  { unfold resolve in Hr. destruct (get (dedupe h) id) as [[x|] c] eqn:Hg.
    - left. injection Hr as -> _. unfold get in Hg. destruct (cached (dedupe h) !! id) as [y|] eqn:Hy; [|done].
      injection Hg as -> _. by apply (ok_acks h Hok id).
    - destruct (dispatch h inv o) as [x ps] eqn:Hd. injection Hr as -> _. unfold dispatch in Hd.
      destruct (decide _); [|injection Hd as <- _; by right; eexists _, _].
      destruct (negb _); [injection Hd as <- _; by right; eexists _, _|].
      destruct (enqueue _ _ _) as [[] ?]; injection Hd as <- _; (by left) || (right; by eexists _, _). }
  - apply json_accepted in Hb. unfold ACK_MESSAGE_CAP in HN. lia.
  - destruct (rejected_message c m) as (k & Hk & Hlen & _). rewrite Hk in Hb. apply json_rejected in Hb. lia.
Qed.

Definition sample_id (x : Incoming) : list CorrelationId :=
  match x with Sample _ id => [id] | RecvError => [] end.

(** What a poll leaves of a port: the replies are on the port the samples came by. *)
Definition answered (p p' : IoxCommandPort) : Prop :=
  p_name p' = p_name p ∧ inbox p' = [] ∧ (outbox p').*1 = (outbox p).*1 ++ (inbox p ≫= sample_id).

Lemma backlog_split t p l1 l2 : ports t = l1 ++ p :: l2 →
  backlog t = (length (inbox p) + length ((l1 ++ l2) ≫= inbox))%nat.
Proof. intros Ht. unfold backlog. rewrite Ht, bind_mid, length_app. done. Qed.

Lemma idle_answered t : Forall (λ p, inbox p = []) (ports t) →
  backlog t = 0%nat ∧ Forall2 answered (ports t) (ports t).
Proof.
  unfold backlog. induction 1 as [|p ps Hp _ [IHb IHa]]; [done|]. split.
  - by rewrite bind_cons, length_app, Hp, IHb.
  - constructor; [|done]. split; [done|]. rewrite Hp. cbn. by rewrite app_nil_r.
Qed.

Lemma poll_answers fuel w handled h t : handler_ok h → samples_only t → pending t = ∅ →
  (∀ k, w_accepts w k = true) → (backlog t < fuel)%nat →
  ∃ h' t', poll_loop N ack_json fuel w handled h t = Ok ((handled + backlog t)%nat, h', t')
    ∧ pending t' = ∅ ∧ Forall2 answered (ports t) (ports t').
Proof.
  intros Hok. revert handled h t Hok.
  induction fuel as [|fuel IH]; intros handled h t Hok Hs Hp Hw Hf; [lia|]. cbn [poll_loop]. unfold try_recv.
  destruct (recv_first (length (ports t)) t 0 Hs ltac:(lia)) as [[-> Hall]|(i & p & payload & id & rest & Hi & Hin & ->)];
    cbn [mbind res_bind].
  - assert (Forall (λ p, inbox p = []) (ports t)) as He.
    { apply Forall_lookup. intros q p Hq. destruct (mod_hits (cursor t) q (length (ports t))) as (d & Hd & Hdq).
      { by eapply lookup_lt_Some. }
      eapply (Hall d); [lia|]. by rewrite Hdq. }
    destruct (idle_answered t He) as [-> Hans]. exists h, t. by rewrite Nat.add_0_r.
  - destruct (resolve h id _ (w_oracle w handled)) as [a h1] eqn:Hr.
    destruct (resolve_fits _ _ _ _ _ _ Hok Hr) as (b & Hb & Hbn).
    unfold reply. cbn [pending ports cursor]. rewrite lookup_insert_eq, Hb, (proj2 (Z.ltb_ge _ _) Hbn).
    assert (i < length (ports t))%nat as Hlt by (by eapply lookup_lt_Some).
    rewrite list_lookup_insert_eq by done. cbn [expect mbind res_bind]. rewrite Hw.
    rewrite delete_insert_eq, Hp, delete_empty, list_insert_insert_eq. cbn [p_name inbox outbox mbind res_bind].
    set (p2 := MkPort _ _ _). set (t2 := MkTransport _ _ _).
    destruct (lookup_split _ _ _ Hi) as (l1 & l2 & Ht & Hins).
    assert (ports t2 = l1 ++ p2 :: l2) as Ht2 by apply Hins.
    assert (backlog t = S (backlog t2)) as Hbl.
    { rewrite (backlog_split t p l1 l2 Ht), (backlog_split t2 p2 l1 l2 Ht2), Hin. done. }
    destruct (IH (S handled) h1 t2) as (h' & t' & Hpoll & Hpend & Hans); [| |done|done|lia|].
    { pose proof (resolve_cases h id (MkInvocation (p_name p) payload) (w_oracle w handled) Hok) as Hc.
      rewrite Hr in Hc. apply Hc. }
    { unfold samples_only in *. rewrite Ht2. rewrite Ht in Hs. rewrite Forall_app, Forall_cons in Hs |- *.
      destruct Hs as (? & Hx & ?). rewrite Hin in Hx. apply Forall_cons in Hx as [_ ?]. done. }
    exists h', t'. rewrite Hpoll. split; [do 3 f_equal; lia|]. split; [done|].
    rewrite Ht. rewrite Ht2 in Hans. apply Forall2_app_inv_l in Hans as (k1 & k2 & H1 & H2 & ->).
    apply Forall2_cons_inv_l in H2 as (p3 & k3 & Ha & H3 & ->). apply Forall2_app; [done|]. constructor; [|done].
    destruct Ha as (Hn & Hi3 & Ho). split; [done|]. split; [done|]. rewrite Ho, Hin. cbn.
    by rewrite fmap_app, <-app_assoc.
Qed.

(** [poll] returns and answers every waiting invocation: it handles exactly the
    samples that were waiting, leaves no reply pending, and every one of them is
    answered once, in order, on the reply service of the port it came by; the
    truncation of messages guarantees that no ack is too long for the envelope. *)
Theorem poll_answers_all h t w : reachable h → samples_only t → pending t = ∅ →
  (∀ k, w_accepts w k = true) →
  ∃ h' t', poll N ack_json w h t = Ok (backlog t, h', t')
    ∧ pending t' = ∅ ∧ Forall2 answered (ports t) (ports t').
Proof.
  intros Hh Hs Hp Hw. unfold poll. apply poll_answers; auto using reachable_ok.
Qed.
End answers.

(** ** Concrete runs *)

(** A command with one byte as its parameter. *)
#[export] Instance byte_params : Params Z := {|
  from_slice _ json := match json with [v] => inl v | _ => inr [63] end;
  msg_unknown _ := [1]; msg_not_executable _ := [2]; msg_full _ := [3]; msg_disconnected _ := [4];
|}.

Definition open_ : Oracle := MkOracle true Sent.
Definition closed_ : Oracle := MkOracle false Full.
Definition go (v : Z) : CommandInvocation := MkInvocation "Go" [v].
Definition demo_handler (n : Z) : CommandHandler Z :=
  match register (handler_new n) "Go" with Ok h => h | Panic => handler_new n end.

Lemma demo_reach n : reachable (demo_handler n).
Proof. apply (reach_register (handler_new n) "Go"); [constructor|done]. Qed.

(** A retry with the gate closed by then, with another id used in between. *)
Definition demo_h1 : CommandHandler Z := (resolve (demo_handler 2) [1] (go 5) open_).2.
Definition demo_calls : list Call := [MkCall [2] (go 6) open_; MkCall [1] (go 5) closed_].

Lemma retry_enqueues_once_witness :
  effects_of [1] (effects (foldl call demo_h1 demo_calls)) = [([1], "Go"%string, 5)] ∧
  ∃ h3, resolve (foldl call demo_h1 demo_calls) [1] (go 5) closed_ = (Accepted, h3)
    ∧ effects h3 = effects (foldl call demo_h1 demo_calls).
Proof.
  destruct (retry_enqueues_once (H := byte_params) (demo_handler 2) [1] (go 5) open_ demo_h1 demo_calls (go 5) closed_
    (demo_reach 2) ltac:(vm_compute; reflexivity) ltac:(vm_compute; reflexivity)) as [He Hr].
  split; [rewrite He; vm_compute; reflexivity|exact Hr].
Defined.

(** With as many other ids in between as the cache holds, a retry runs again. *)
Example evicted_retry_repeats :
  effects (foldl call (demo_handler 1)
    [MkCall [1] (go 5) open_; MkCall [2] (go 6) open_; MkCall [1] (go 5) open_])
  = [([1], "Go"%string, 5); ([2], "Go"%string, 6); ([1], "Go"%string, 5)].
Proof. vm_compute. reflexivity. Qed.

Definition demo_transport : IoxCommandTransport :=
  MkTransport [MkPort "Go" [Sample [5] [1]; Sample [9; 9] [3]] []; MkPort "Stop" [Sample [] [2]] []] ∅ 0.

Lemma receive_is_fair_witness :
  ∃ ms, receives [λ _, [RecvError]; λ _, []] demo_transport = Ok ms ∧ Some ([2], MkInvocation "Stop" []) ∈ ms.
Proof.
  apply (receive_is_fair [λ _, [RecvError]; λ _, []] demo_transport 1 (MkPort "Stop" [Sample [] [2]] []) [] [2] []);
    [reflexivity|reflexivity|cbn; lia].
Defined.

(** A JSON encoder: control characters, quotes and backslashes are escaped. *)
Definition escape (b : Z) : bytes :=
  if (b <? 32) || (b =? 34) || (b =? 92) then [92; 117; 48; 48; 48 + b / 16; 48 + b mod 16] else [b].
Definition demo_json (a : Ack) : option bytes :=
  match a with
  | Accepted => Some (replicate 18 97)
  | Rejected _ m => Some (replicate 60 97 ++ (m ≫= escape))
  end.

#[export] Instance demo_ack_json : AckJson demo_json.
Proof.
  split; [by intros []| |].
  - intros b Hb. injection Hb as <-. unfold len. cbn. lia.
  - intros c m b Hb. apply (inj Some) in Hb as <-. rewrite len_app. assert (len (m ≫= escape) ≤ 6 * len m) as Hm.
    { induction m as [|x m IH]; [done|]. rewrite bind_cons, len_app.
      assert (len (escape x) ≤ 6) by (unfold escape, len; destruct (_ || _); cbn; lia).
      unfold len in *. cbn [length]. lia. }
    unfold len in *. rewrite length_replicate. lia.
Qed.

Lemma poll_answers_all_witness :
  ∃ h' t', poll 4096 demo_json (MkWorld (λ _, open_) (λ _, true)) (demo_handler 2) demo_transport = Ok (3%nat, h', t')
    ∧ pending t' = ∅ ∧ Forall2 answered (ports demo_transport) (ports t').
Proof.
  apply (poll_answers_all (H := byte_params) 4096 demo_json ltac:(vm_compute; discriminate)); [apply demo_reach| |reflexivity|reflexivity].
  repeat constructor; discriminate.
Defined.

End UiCommand.
