(* ===== verification/MedModel.v ===== *)
(** * The diagnostic model

    Models the data of [taktora-medkit-model/src/lib.rs] that the gateway works
    on (entity kinds, severities, health, faults, events, errors), the order and
    mapping of severities ([taktora-medkit-provider/src/lib.rs]) and the error
    type of the HTTP surface ([taktora-medkit-gateway-axum/src/error.rs]).  A
    floating-point timestamp is its bit pattern: it is only copied. *)

From stdpp Require Import base gmap strings pretty countable.
From Stdlib Require Import ZArith Lia.
From S2P Require Import Prelude.

Module MedModel.

Inductive EntityKind := Area | Component | Function_ | App.

#[export] Instance kind_eq_dec : EqDecision EntityKind.
Proof. solve_decision. Defined.
#[export] Instance kind_countable : Countable EntityKind.
Proof.
  refine (inj_countable' (λ k, match k with Area => 0 | Component => 1 | Function_ => 2 | App => 3 end)%nat
    (λ n, match n with 0 => Area | 1 => Component | 2 => Function_ | _ => App end)%nat _).
  by intros [].
Defined.

Definition collection_segment (k : EntityKind) : string :=
  match k with Area => "areas" | Component => "components" | Function_ => "functions" | App => "apps" end.
Definition type_singular (k : EntityKind) : string :=
  match k with Area => "area" | Component => "component" | Function_ => "function" | App => "app" end.

Inductive Severity := SInfo | SWarn | SError | SCritical.
Definition wire_value (s : Severity) : Z :=
  match s with SInfo => 0 | SWarn => 1 | SError => 2 | SCritical => 3 end.
Definition from_wire_value (v : Z) : option Severity :=
  match v with 0 => Some SInfo | 1 => Some SWarn | 2 => Some SError | 3 => Some SCritical | _ => None end.

Inductive Health := HOk | HWarning | HError | HCritical.
#[export] Instance health_eq_dec : EqDecision Health.
Proof. solve_decision. Defined.
Definition health_rank (h : Health) : Z :=
  match h with HOk => 0 | HWarning => 1 | HError => 2 | HCritical => 3 end.
Definition severity_to_health (s : Severity) : Health :=
  match s with SInfo => HOk | SWarn => HWarning | SError => HError | SCritical => HCritical end.

(** The derived order on [Health], and [Iterator::max]: the last of the greatest. *)
Definition health_max (a b : Health) : Health := if health_rank a <=? health_rank b then b else a.

Record FaultSummary := MkFault {
  description : string;
  fault_code : string;
  first_occurred : Z;
  last_occurred : Z;
  occurrence_count : Z;
  reporting_sources : list string;
  severity : Z;
  severity_label : string;
  status : string;
}.
#[export] Instance fault_eq_dec : EqDecision FaultSummary.
Proof. solve_decision. Defined.

Record FaultEventMeta := MkMeta { entity_id : string; entity_type : string }.
Record FaultEvent := MkEvent {
  event_type : string;
  fault : FaultSummary;
  timestamp : Z;
  x_medkit : FaultEventMeta;
}.
#[export] Instance meta_eq_dec : EqDecision FaultEventMeta.
Proof. solve_decision. Defined.
#[export] Instance event_eq_dec : EqDecision FaultEvent.
Proof. solve_decision. Defined.

Record GenericError := MkGeneric {
  error_code : string;
  message : string;
  parameters : gmap string string;
}.

Inductive ApiError :=
| ApiNotFound (e : GenericError)
| ApiBadRequest (e : GenericError)
| ApiConflict (e : GenericError)
| ApiNotImplemented (family path : string).

(** The status code and body of a failure ([IntoResponse]). *)
Definition into_response (e : ApiError) : Z * GenericError :=
  match e with
  | ApiNotFound g => (404, g)
  | ApiBadRequest g => (400, g)
  | ApiConflict g => (409, g)
  | ApiNotImplemented family path =>
      (501, MkGeneric "not-implemented" ("The '" +:+ family +:+ "' family is not implemented")
              (<["family" := family]> {["path" := path]}))
  end.

(** The addressed entity: its kind and id. *)
Abbreviation ResourceKey := (EntityKind * string)%type.

(** [format!("{prefix}{n}")] for a counter. *)
Definition numbered (prefix : string) (n : Z) : string := prefix +:+ pretty (Z.to_N n).

Lemma numbered_inj p n m : 0 ≤ n → 0 ≤ m → numbered p n = numbered p m → n = m.
Proof.
  intros Hn Hm H. unfold numbered in H. apply (inj (String.append p)) in H. apply (inj pretty) in H. lia.
Qed.

Lemma append_assoc (a b c : string) : (a +:+ b) +:+ c = a +:+ (b +:+ c).
Proof.
  induction a as [|x a IH]; [done|].
  change (String x ((a +:+ b) +:+ c) = String x (a +:+ (b +:+ c))). by rewrite IH.
Qed.

(** Severities order as their health. *)
Lemma wire_value_roundtrip s : from_wire_value (wire_value s) = Some s.
Proof. by destruct s. Qed.
Lemma severity_health_rank s : health_rank (severity_to_health s) = wire_value s.
Proof. by destruct s. Qed.

End MedModel.
