(* ===== verification/MedLocks.v ===== *)
(** * The lock registry of the diagnostic gateway

    Models [taktora-medkit-gateway-axum/src/locks.rs]: the registry with its
    mutex, including poisoning, and the request handlers above it.  Instants are
    nanoseconds; each call is given the instant it read from the clock, which
    [acquire] reads before it takes the mutex.  Formatting an instant is a
    parameter that may panic. *)

From stdpp Require Import base gmap strings pretty.
From Stdlib Require Import ZArith Lia.
From S2P Require Import Prelude MedModel.

Module MedLocks.
Import MedModel.

Record LockEntry := MkEntry {
  lock_id : string;
  holder : string;
  expires_at : Z;
  scopes : option (list string);
}.

(** The [Lock] response. *)
Record Lock := MkLock {
  l_id : string;
  l_owned : bool;
  l_expiration : string;
  l_scopes : option (list string);
}.

Inductive LockError := Conflict | NotFound.

Record LockRegistry := MkRegistry {
  locks : gmap ResourceKey LockEntry;
  next : Z;
  poisoned : bool;
}.

Definition registry_new : LockRegistry := MkRegistry ∅ 1 false.

Definition from_millis (ms : Z) : Z := ms * 1000000.

Section registry.
Context (format_rfc3339 : Z → res string).

Definition to_lock (e : LockEntry) (requester : option string) : res Lock :=
  at_ ← format_rfc3339 (expires_at e);
  Ok (MkLock (lock_id e) (bool_decide (requester = Some (holder e))) at_ (scopes e)).

Definition set_locks (r : LockRegistry) (m : gmap ResourceKey LockEntry) : LockRegistry :=
  MkRegistry m (next r) (poisoned r).
Definition poison (r : LockRegistry) : LockRegistry := MkRegistry (locks r) (next r) true.

(** The identifier is taken before the mutex; the response is built after it is
    released. *)
Definition acquire (r : LockRegistry) (key : ResourceKey) (who : string) (ttl_ms : Z) (break_lock : bool)
    (sc : option (list string)) (now : Z) : LockRegistry * res (Lock + LockError) :=
  let id := numbered "lck-" (next r) in
  let r := MkRegistry (locks r) (wrap 64 (next r + 1)) (poisoned r) in
  let expires := now + from_millis ttl_ms in
  if poisoned r then (r, Panic)
  else
    let conflict :=
      match locks r !! key with
      | Some existing =>
          (now <? expires_at existing) && negb (bool_decide (holder existing = who)) && negb break_lock
      | None => false
      end in
    if conflict then (r, Ok (inr Conflict))
    else
      (set_locks r (<[key := MkEntry id who expires sc]> (locks r)),
       at_ ← format_rfc3339 expires; Ok (inl (MkLock id true at_ sc))).

(** A live lock, as the reads see it. *)
Definition live (e : LockEntry) (now : Z) : bool := now <? expires_at e.

Definition list_for (r : LockRegistry) (key : ResourceKey) (requester : option string) (now : Z)
    : LockRegistry * res (list Lock) :=
  if poisoned r then (r, Panic)
  else
    match locks r !! key with
    | Some e =>
        if live e now then
          match to_lock e requester with
          | Ok l => (r, Ok [l])
          | Panic => (poison r, Panic)
          end
        else (r, Ok [])
    | None => (r, Ok [])
    end.

Definition get_one (r : LockRegistry) (key : ResourceKey) (id : string) (requester : option string) (now : Z)
    : LockRegistry * res (option Lock) :=
  if poisoned r then (r, Panic)
  else
    match locks r !! key with
    | Some e =>
        if bool_decide (lock_id e = id) && live e now then
          match to_lock e requester with
          | Ok l => (r, Ok (Some l))
          | Panic => (poison r, Panic)
          end
        else (r, Ok None)
    | None => (r, Ok None)
    end.

Definition extend (r : LockRegistry) (key : ResourceKey) (id who : string) (ttl_ms now : Z)
    : LockRegistry * res (unit + LockError) :=
  if poisoned r then (r, Panic)
  else
    match locks r !! key with
    | Some e =>
        if bool_decide (lock_id e = id) && live e now then
          if negb (bool_decide (holder e = who)) then (r, Ok (inr Conflict))
          else (set_locks r (<[key := MkEntry (lock_id e) (holder e) (now + from_millis ttl_ms) (scopes e)]> (locks r)),
                Ok (inl tt))
        else (r, Ok (inr NotFound))
    | None => (r, Ok (inr NotFound))
    end.

Definition release (r : LockRegistry) (key : ResourceKey) (id who : string) (now : Z)
    : LockRegistry * res (unit + LockError) :=
  if poisoned r then (r, Panic)
  else
    match locks r !! key with
    | Some e =>
        if bool_decide (lock_id e = id) && live e now then
          if negb (bool_decide (holder e = who)) then (r, Ok (inr Conflict))
          else (set_locks r (delete key (locks r)), Ok (inl tt))
        else (r, Ok (inr NotFound))
    | None => (r, Ok (inr NotFound))
    end.

(** ** The HTTP surface *)

(** [X-Client-Id], when the header is present and printable. *)
Definition client_id_opt (header : option string) : option string :=
  match header with
  | Some v => if (1 <=? String.length v)%nat && (String.length v <=? 256)%nat then Some v else None
  | None => None
  end.
Definition client_id (header : option string) : string + ApiError :=
  match client_id_opt header with
  | Some v => inl v
  | None => inr (ApiBadRequest (MkGeneric "invalid-parameter"
                   "Missing or invalid X-Client-Id header (1-256 chars required)" ∅))
  end.

Definition lock_error (e : LockError) (kind : EntityKind) (id : string) (lid : option string) : ApiError :=
  let ps := <["entity" := collection_segment kind]> {["entity_id" := id]} in
  let ps := match lid with Some l => <["lock_id" := l]> ps | None => ps end in
  match e with
  | Conflict => ApiConflict (MkGeneric "lock-conflict" "The entity is locked by another client" ps)
  | NotFound => ApiNotFound (MkGeneric "lock-not-found" "Lock not found" ps)
  end.

Inductive Request :=
| Post (ttl_ms : Z) (break_lock : option bool) (sc : option (list string))
| List_
| Get (id : string)
| Put (id : string) (ttl_ms : Z)
| Delete (id : string).

Inductive Response :=
| Created (l : Lock)
| Listed (ls : list Lock) (total_count : Z)
| Found (l : Lock)
| NoContent
| Failed (e : ApiError).

(** [lock_routes]: the five routes of one entity kind. *)
Definition handle (r : LockRegistry) (kind : EntityKind) (id : string) (header : option string) (now : Z)
    (q : Request) : LockRegistry * res Response :=
  match q with
  | Post ttl brk sc =>
      match client_id header with
      | inr e => (r, Ok (Failed e))
      | inl who =>
          let '(r, o) := acquire r (kind, id) who ttl (default false brk) sc now in
          (r, x ← o; Ok (match x with inl l => Created l | inr e => Failed (lock_error e kind id None) end))
      end
  | List_ =>
      let '(r, o) := list_for r (kind, id) (client_id_opt header) now in
      (r, ls ← o; Ok (Listed ls (len ls)))
  | Get lid =>
      let '(r, o) := get_one r (kind, id) lid (client_id_opt header) now in
      (r, x ← o; Ok (match x with Some l => Found l | None => Failed (lock_error NotFound kind id (Some lid)) end))
  | Put lid ttl =>
      match client_id header with
      | inr e => (r, Ok (Failed e))
      | inl who =>
          let '(r, o) := extend r (kind, id) lid who ttl now in
          (r, x ← o; Ok (match x with inl _ => NoContent | inr e => Failed (lock_error e kind id (Some lid)) end))
      end
  | Delete lid =>
      match client_id header with
      | inr e => (r, Ok (Failed e))
      | inl who =>
          let '(r, o) := release r (kind, id) lid who now in
          (r, x ← o; Ok (match x with inl _ => NoContent | inr e => Failed (lock_error e kind id (Some lid)) end))
      end
  end.
End registry.

(** ** Exclusive access *)

(** One request: the entity, the client header, the instant read and the request. *)
Record Call := MkCall {
  c_kind : EntityKind;
  c_id : string;
  c_client : option string;
  c_now : Z;
  c_req : Request;
}.
Definition key_of (c : Call) : ResourceKey := (c_kind c, c_id c).

Section exclusive.
Context (fmt : Z → res string).

Definition call (r : LockRegistry) (c : Call) : LockRegistry :=
  (handle fmt r (c_kind c) (c_id c) (c_client c) (c_now c) (c_req c)).1.
Definition respond (r : LockRegistry) (c : Call) : res Response :=
  (handle fmt r (c_kind c) (c_id c) (c_client c) (c_now c) (c_req c)).2.

(** A request that cannot take the lock from [who] before [deadline]: on another
    entity; a read; or by another client, in time and without [break_lock]. *)
Definition harmless (key : ResourceKey) (who : string) (deadline : Z) (c : Call) : Prop :=
  key_of c ≠ key ∨
  c_now c < deadline ∧
  match c_req c with
  | List_ | Get _ => True
  | Post _ brk _ => c_client c ≠ Some who ∧ brk ≠ Some true
  | Put _ _ | Delete _ => c_client c ≠ Some who
  end.

Lemma client_id_Some h v : client_id_opt h = Some v → h = Some v.
Proof. unfold client_id_opt. destruct h as [x|]; [|done]. destruct (_ && _); [by intros [= ->]|done]. Qed.

Lemma client_id_inl h v : client_id h = inl v → h = Some v.
Proof. unfold client_id. destruct (client_id_opt h) eqn:Ho; [|done]. intros [= ->]. by apply client_id_Some. Qed.

(** The registry after a request. *)
Lemma call_eq r c : call r c =
  match c_req c with
  | Post ttl brk sc =>
      match client_id (c_client c) with
      | inl who => (acquire fmt r (key_of c) who ttl (default false brk) sc (c_now c)).1
      | inr _ => r
      end
  | List_ => (list_for fmt r (key_of c) (client_id_opt (c_client c)) (c_now c)).1
  | Get lid => (get_one fmt r (key_of c) lid (client_id_opt (c_client c)) (c_now c)).1
  | Put lid ttl =>
      match client_id (c_client c) with
      | inl who => (extend r (key_of c) lid who ttl (c_now c)).1
      | inr _ => r
      end
  | Delete lid =>
      match client_id (c_client c) with
      | inl who => (release r (key_of c) lid who (c_now c)).1
      | inr _ => r
      end
  end.
Proof.
  unfold call, handle, key_of. destruct (c_req c); try destruct (client_id _); try done;
    by match goal with |- context [let '(_, _) := ?x in _] => destruct x end.
Qed.

(** Poison stays, and a poisoned registry keeps its locks. *)
Lemma handle_poisoned r c : poisoned r = true → poisoned (call r c) = true ∧ locks (call r c) = locks r.
Proof.
  intros Hp. rewrite call_eq. destruct (c_req c); try destruct (client_id _); try done;
    unfold acquire, list_for, get_one, extend, release; cbn [poisoned locks]; rewrite Hp; done.
Qed.

Ltac lock_cases :=
  repeat first
    [ progress cbn [poisoned locks set_locks poison fst snd] in *
    | case_bool_decide
    | match goal with |- context [match ?x with _ => _ end] => destruct x eqn:? end
    | done ].

(** A request touches at most the lock of its entity. *)
Lemma call_other_key r c key : key_of c ≠ key → locks (call r c) !! key = locks r !! key.
Proof.
  intros Hk. rewrite call_eq. destruct (c_req c);
    try destruct (client_id _); try done;
    unfold acquire, list_for, get_one, extend, release; lock_cases;
    rewrite ?lookup_insert_ne, ?lookup_delete_ne by done; done.
Qed.

Lemma call_harmless r c key e : locks r !! key = Some e → harmless key (holder e) (expires_at e) c →
  locks (call r c) !! key = Some e.
Proof.
  intros He [Hk|[Hnow Hreq]]; [by rewrite call_other_key|].
  destruct (decide (key_of c = key)) as [<-|Hk]; [|by rewrite call_other_key].
  rewrite call_eq. destruct (c_req c) as [ttl brk sc| |lid|lid ttl|lid].
  - destruct (client_id (c_client c)) as [v|] eqn:Hc; [|done]. apply client_id_inl in Hc.
    unfold acquire. cbn [poisoned locks]. destruct (poisoned r); [done|]. rewrite He.
    rewrite (proj2 (Z.ltb_lt _ _) Hnow). rewrite bool_decide_eq_false_2 by naive_solver.
    destruct brk as [[]|]; naive_solver.
  - unfold list_for. rewrite He. lock_cases.
  - unfold get_one. rewrite He. lock_cases.
  - destruct (client_id (c_client c)) as [v|] eqn:Hc; [|done]. apply client_id_inl in Hc.
    unfold extend. rewrite He. rewrite (bool_decide_eq_false_2 (holder e = v)) by naive_solver. lock_cases.
  - destruct (client_id (c_client c)) as [v|] eqn:Hc; [|done]. apply client_id_inl in Hc.
    unfold release. rewrite He. rewrite (bool_decide_eq_false_2 (holder e = v)) by naive_solver. lock_cases.
Qed.

Lemma calls_harmless r cs key e : locks r !! key = Some e →
  Forall (harmless key (holder e) (expires_at e)) cs → locks (foldl call r cs) !! key = Some e.
Proof.
  intros He Hf. revert r He. induction Hf as [|c cs Hc _ IH]; intros r He; [done|]. cbn.
  apply IH. by apply call_harmless.
Qed.

(** What a lock request by another client is answered while [e] is held. *)
Definition refusal (e : LockEntry) (c : Call) : Response :=
  match c_req c with
  | Put lid _ | Delete lid =>
      Failed (lock_error (if decide (lid = lock_id e) then Conflict else NotFound) (c_kind c) (c_id c) (Some lid))
  | _ => Failed (lock_error Conflict (c_kind c) (c_id c) None)
  end.
Definition is_write (q : Request) : bool := match q with List_ | Get _ => false | _ => true end.

Lemma acquire_entry r key who ttl brk sc now l r' :
  acquire fmt r key who ttl brk sc now = (r', Ok (inl l)) →
  poisoned r = false ∧
  locks r' !! key = Some (MkEntry (l_id l) who (now + from_millis ttl) sc) ∧ l_id l = numbered "lck-" (next r).
Proof.
  unfold acquire. cbn [poisoned locks]. destruct (poisoned r); [done|].
  match goal with |- (if ?b then _ else _) = _ → _ => destruct b end; [done|]. destruct (fmt _); [|done]. cbn.
  intros [= <- <-]. split; [done|]. split; [|done]. cbn. by rewrite lookup_insert_eq.
Qed.


(** ** Lock ids *)

Definition ids_ok (r : LockRegistry) : Prop :=
  1 ≤ next r ∧ ∀ k e, locks r !! k = Some e → ∃ n, 1 ≤ n < next r ∧ lock_id e = numbered "lck-" n.

(** The entry of the request's entity afterwards: the one before, or a new one with
    the next id. *)
Lemma call_ids r c : next r + 1 < 2 ^ 64 → 1 ≤ next r →
  next r ≤ next (call r c) ≤ next r + 1 ∧
  ∀ k e, locks (call r c) !! k = Some e →
    (∃ e', locks r !! k = Some e' ∧ lock_id e = lock_id e')
    ∨ (next (call r c) = next r + 1 ∧ lock_id e = numbered "lck-" (next r)).
Proof.
  intros Hlt H1. assert (wrap 64 (next r + 1) = next r + 1) as Hw by (unfold wrap; apply Z.mod_small; lia).
  rewrite call_eq. destruct (c_req c) as [ttl brk sc| |lid|lid ttl|lid].
  - destruct (client_id _) as [v|]; [|split; [lia|eauto]]. unfold acquire. cbn [poisoned locks].
    destruct (poisoned r); [cbn; rewrite Hw; split; [lia|eauto]|].
    match goal with |- context [if ?b then _ else _] => destruct b end; cbn; rewrite Hw; (split; [lia|]); [eauto|].
    intros k e Hk. destruct (decide (k = key_of c)) as [->|Hne].
    + rewrite lookup_insert_eq in Hk. injection Hk as <-. by right.
    + rewrite lookup_insert_ne in Hk by done. eauto.
  - unfold list_for. lock_cases; (split; [cbn; lia|eauto]).
  - unfold get_one. lock_cases; (split; [cbn; lia|eauto]).
  - destruct (client_id _) as [v|]; [|split; [lia|eauto]]. unfold extend.
    destruct (poisoned r); [split; [cbn; lia|eauto]|]. destruct (locks r !! key_of c) as [e0|] eqn:He; [|split; [cbn; lia|eauto]].
    destruct (_ && _); [|split; [cbn; lia|eauto]]. destruct (negb _); cbn; (split; [lia|]); [eauto|].
    intros k e Hk. destruct (decide (k = key_of c)) as [->|Hne].
    + rewrite lookup_insert_eq in Hk. injection Hk as <-. eauto.
    + rewrite lookup_insert_ne in Hk by done. eauto.
  - destruct (client_id _) as [v|]; [|split; [lia|eauto]]. unfold release.
    lock_cases; (split; [cbn; lia|]); eauto. intros k e [_ Hk]%lookup_delete_Some. eauto.
Qed.

Lemma call_ids_ok r c : ids_ok r → next r + 1 < 2 ^ 64 → ids_ok (call r c).
Proof.
  intros [H1 Hids] Hlt. destruct (call_ids r c Hlt H1) as [Hn He]. split; [lia|]. intros k e Hk.
  destruct (He k e Hk) as [(e' & Hk' & ->)|[Hnx ->]].
  - destruct (Hids k e' Hk') as (n & Hn' & ->). exists n. split; [lia|done].
  - exists (next r). split; [lia|done].
Qed.

(** The id [n] is not on [key] any more. *)
Definition gone (key : ResourceKey) (n : Z) (r : LockRegistry) : Prop :=
  1 ≤ n < next r ∧ ∀ e, locks r !! key = Some e → lock_id e ≠ numbered "lck-" n.

Lemma calls_next r cs : ids_ok r → next r + len cs < 2 ^ 64 →
  ids_ok (foldl call r cs) ∧ next r ≤ next (foldl call r cs) ≤ next r + len cs.
Proof.
  revert r. induction cs as [|c cs IH]; intros r Hids Hlt; [unfold len; cbn; split; [done|lia]|].
  assert (len (c :: cs) = 1 + len cs) as Hl by (unfold len; cbn; lia). assert (0 ≤ len cs) by (unfold len; lia).
  destruct (call_ids r c ltac:(lia) (proj1 Hids)) as [Hn _].
  destruct (IH (call r c)) as [? ?]; [apply call_ids_ok; [done|lia]|lia|]. cbn [foldl]. split; [done|lia].
Qed.

Lemma calls_gone r cs key n : gone key n r → ids_ok r → next r + len cs < 2 ^ 64 → gone key n (foldl call r cs).
Proof.
  revert r. induction cs as [|c cs IH]; intros r [Hn Hg] Hids Hlt; [done|].
  assert (len (c :: cs) = 1 + len cs) as Hl by (unfold len; cbn; lia). assert (0 ≤ len cs) by (unfold len; lia).
  destruct (call_ids r c ltac:(lia) (proj1 Hids)) as [Hnx He]. cbn [foldl].
  apply IH; [|apply call_ids_ok; [done|lia]|lia]. split; [lia|]. intros e Hk.
  destruct (He _ _ Hk) as [(e' & Hk' & ->)|[_ ->]]; [by apply Hg|]. intros Heq.
  apply numbered_inj in Heq; lia.
Qed.

Lemma created_id r c l : respond r c = Ok (Created l) → 1 ≤ next r < 2 ^ 64 - 1 →
  l_id l = numbered "lck-" (next r) ∧ next (call r c) = next r + 1.
Proof.
  intros Hresp Hn. rewrite call_eq. unfold respond, handle in Hresp.
  destruct (c_req c) as [ttl brk sc| |lid|lid ttl|lid].
  - destruct (client_id (c_client c)) as [v|]; [|done]. fold (key_of c) in Hresp.
    destruct (acquire fmt r (key_of c) v ttl (default false brk) sc (c_now c)) as [r' o] eqn:Ha.
    destruct o as [[l'|]|]; try done. injection Hresp as ->.
    destruct (acquire_entry _ _ _ _ _ _ _ _ _ Ha) as (Hpo & _ & Hid). split; [done|]. cbn.
    unfold acquire in Ha. cbn [poisoned locks] in Ha. rewrite Hpo in Ha.
    match type of Ha with (if ?b then _ else _) = _ => destruct b end; injection Ha as <- _; cbn;
      unfold wrap; apply Z.mod_small; lia.
  - by destruct (list_for _ _ _ _ _) as [? [|]].
  - by destruct (get_one _ _ _ _ _ _) as [? [[]|]].
  - destruct (client_id _); [|done]. by destruct (extend _ _ _ _ _ _) as [? [[]|]].
  - destruct (client_id _); [|done]. by destruct (release _ _ _ _ _) as [? [[]|]].
Qed.

(** A lock that is lost never comes back: once the lock with a granted id is no
    longer the one held on its entity (released, broken by another client or
    re-acquired), every later extend, release or read of that id is answered not
    found, whatever requests came in between. *)
Theorem lost_lock_stays_lost cs1 c l cs2 cs3 q :
  let r1 := foldl call registry_new cs1 in
  let r2 := foldl call (call r1 c) cs2 in
  let r3 := foldl call r2 cs3 in
  respond r1 c = Ok (Created l) →
  (∀ e, locks r2 !! key_of c = Some e → lock_id e ≠ l_id l) →
  len cs1 + len cs2 + len cs3 + 2 < 2 ^ 64 → poisoned r3 = false →
  key_of q = key_of c → (∃ who, client_id (c_client q) = inl who) →
  (c_req q = Get (l_id l) ∨ c_req q = Delete (l_id l) ∨ ∃ ttl, c_req q = Put (l_id l) ttl) →
  respond r3 q = Ok (Failed (lock_error NotFound (c_kind q) (c_id q) (Some (l_id l)))).
Proof.
  cbn zeta. intros Hresp Hlost Hlen Hp Hq [who Hwho] Hreq.
  assert (ids_ok registry_new) as H0 by (split; [cbn; lia|]; intros k e; cbn; by rewrite lookup_empty).
  assert (0 ≤ len cs1 ∧ 0 ≤ len cs2 ∧ 0 ≤ len cs3) as (? & ? & ?) by (unfold len; lia).
  destruct (calls_next _ cs1 H0) as [Hi1 Hn1]; [cbn; lia|]. set (r1 := foldl call registry_new cs1) in *.
  cbn [next registry_new] in Hn1.
  assert (l_id l = numbered "lck-" (next r1) ∧ next (call r1 c) = next r1 + 1) as [Hl Hnx].
  { apply created_id; [done|lia]. }
  destruct (calls_next (call r1 c) cs2) as [Hi2 Hn2]; [apply call_ids_ok; [done|lia]|lia|].
  set (r2 := foldl call (call r1 c) cs2) in *.
  assert (gone (key_of c) (next r1) (foldl call r2 cs3)) as [_ Hg].
  { apply calls_gone; [|done|lia]. split; [lia|]. intros e He. rewrite <-Hl. by apply Hlost. }
  rewrite <-Hl in Hg. unfold respond, handle. fold (key_of q). rewrite Hq in *.
  assert (∀ e, locks (foldl call r2 cs3) !! key_of c = Some e → bool_decide (lock_id e = l_id l) = false) as Hb.
  { intros e He. apply bool_decide_eq_false_2. by apply Hg. }
  destruct Hreq as [->|[->|[ttl ->]]]; rewrite ?Hwho; unfold get_one, release, extend; rewrite Hp;
    destruct (locks (foldl call r2 cs3) !! key_of c) as [e|]; rewrite ?(Hb e) by done; done.
Qed.

(** ** Poisoning *)

Lemma calls_poisoned r cs : poisoned r = true → poisoned (foldl call r cs) = true.
Proof.
  revert r. induction cs as [|c cs IH]; intros r Hp; [done|]. cbn. apply IH. by apply handle_poisoned.
Qed.

Lemma respond_poisoned r c : poisoned r = true → (∃ who, client_id (c_client c) = inl who) →
  respond r c = Panic.
Proof.
  intros Hp [who Hw]. unfold respond, handle, acquire, list_for, get_one, extend, release.
  destruct (c_req c); rewrite ?Hw; cbn [poisoned]; by rewrite Hp.
Qed.

(** An expiry the formatter cannot print takes the lock surface down: an acquire
    with such a lifetime panics after the lock was installed, the next read of the
    entity panics while it holds the mutex, and from then on every lock request of
    every client on every entity panics. *)
Theorem unprintable_expiry_poisons r k id who ttl brk sc now q cs d :
  poisoned r = false → locks r !! (k, id) = None → client_id (Some who) = inl who →
  fmt (now + from_millis ttl) = Panic →
  let c := MkCall k id (Some who) now (Post ttl brk sc) in
  key_of q = (k, id) → c_req q = List_ → c_now q < now + from_millis ttl →
  (∃ x, client_id (c_client d) = inl x) →
  respond r c = Panic ∧ is_Some (locks (call r c) !! (k, id)) ∧ poisoned (call r c) = false ∧
  respond (call r c) q = Panic ∧ respond (foldl call (call (call r c) q) cs) d = Panic.
Proof.
  intros Hp Hk Hw Hf c Hq Hql Hnow Hd.
  set (e := MkEntry (numbered "lck-" (next r)) who (now + from_millis ttl) sc).
  set (r1 := MkRegistry (<[(k, id) := e]> (locks r)) (wrap 64 (next r + 1)) false).
  assert (acquire fmt r (k, id) who ttl (default false brk) sc now = (r1, Panic)) as Ha.
  { unfold acquire. cbn [poisoned locks]. rewrite Hp, Hk, Hf. unfold set_locks. cbn. done. }
  assert (call r c = r1) as ->. { rewrite call_eq. unfold c, key_of. cbn [c_req c_client c_now c_kind c_id]. rewrite Hw. by rewrite Ha. }
  assert (poisoned r1 = false) as Hp1 by done.
  assert (locks r1 !! (k, id) = Some e) as Hl1 by (cbn; by rewrite lookup_insert_eq).
  assert (list_for fmt r1 (key_of q) (client_id_opt (c_client q)) (c_now q) = (poison r1, Panic)) as Hlist.
  { unfold list_for. rewrite Hp1, Hq, Hl1. unfold live, to_lock. cbn [e expires_at].
    by rewrite (proj2 (Z.ltb_lt _ _) Hnow), Hf. }
  split.
  { unfold respond, handle, c. cbn [c_req c_client c_now c_kind c_id]. rewrite Hw. by rewrite Ha. } split; [by rewrite Hl1|]. split; [done|]. split.
  - unfold respond, handle. rewrite Hql. fold (key_of q). by rewrite Hlist.
  - apply respond_poisoned; [|done]. apply calls_poisoned. rewrite call_eq, Hql, Hlist. done.
Qed.
End exclusive.

(** ** Concrete requests *)

(** A formatter that prints instants before the year 10000. *)
Definition demo_fmt (t : Z) : res string :=
  if t <? 253402300800000000000 then Ok (pretty t) else Panic.
Definition c1 : Call := MkCall Component "c1" (Some "alice") 0 (Post 1000 None None).
Definition c2 : Call := MkCall Component "c1" (Some "bob") 5 (Post 1000 (Some false) None).
Definition c3 : Call := MkCall App "a" (Some "alice") 7 (Post 5 (Some true) None).
Definition c4 : Call := MkCall Component "c1" (Some "bob") 3 (Put "lck-1" 9).
Definition c5 : Call := MkCall Component "c1" (Some "bob") 8 (Post 5 (Some true) None).
Definition c6 : Call := MkCall Component "c1" (Some "alice") 9 (Delete "lck-1").

Definition demo_lock : Lock := MkLock "lck-1" true "1000000000" None.


Lemma lost_lock_stays_lost_witness :
  respond demo_fmt (foldl (call demo_fmt) (foldl (call demo_fmt) (call demo_fmt registry_new c1) [c5]) [c3]) c6
  = Ok (Failed (lock_error NotFound Component "c1" (Some "lck-1"))).
Proof.
  apply (lost_lock_stays_lost demo_fmt [] c1 demo_lock [c5] [c3] c6); try reflexivity.
  - intros e He. vm_compute in He. injection He as <-. discriminate.
  - by exists "alice".
  - right. by left.
Defined.

Lemma unprintable_expiry_poisons_witness :
  let c := MkCall App "a" (Some "alice") 0 (Post (2 ^ 63) None None) in
  let q := MkCall App "a" None 1 List_ in
  respond demo_fmt (foldl (call demo_fmt) (call demo_fmt (call demo_fmt registry_new c) q) [c1]) c2 = Panic.
Proof.
  refine (proj2 (proj2 (proj2 (proj2 (unprintable_expiry_poisons demo_fmt registry_new App "a" "alice" (2 ^ 63) None None 0
    (MkCall App "a" None 1 List_) [c1] c2 _ _ _ _ _ _ _ _))))); try reflexivity. by exists "bob".
Defined.

End MedLocks.
