(* ===== verification/MedTime.v ===== *)
(** * Timestamps of the diagnostic surface

    Models [iso8601] of [taktora-medkit-gateway/src/view.rs]: fractional epoch
    seconds to an ISO 8601 string.  A [f64] is its bit pattern; the product by
    1000 is the standard library's specification of binary floating point
    ([SpecFloat]), with [f64::round] and the saturating cast to [i64] written
    out.  The calendar computation is compared with the definition of the
    proleptic Gregorian calendar. *)

From stdpp Require Import base list strings pretty.
From Stdlib Require Import ZArith Lia SpecFloat.
From S2P Require Import Prelude.

Module MedTime.

(** ** [(epoch_seconds * 1000.0).round() as i64] *)

Definition f64_of_bits (b : Z) : spec_float :=
  let s := Z.testbit b 63 in
  let e := Z.land (Z.shiftr b 52) 2047 in
  let m := Z.land b (2 ^ 52 - 1) in
  if e =? 0 then match m with Zpos p => S754_finite s p (-1074) | _ => S754_zero s end
  else if e =? 2047 then (if m =? 0 then S754_infinity s else S754_nan)
  else match m + 2 ^ 52 with Zpos p => S754_finite s p (e - 1075) | _ => S754_nan end.

(** The literal [1000.0]. *)
Definition f1000 : spec_float := S754_finite false (1000 * 2 ^ 43)%positive (-43).

Definition I64_MIN : Z := - 2 ^ 63.
Definition I64_MAX : Z := 2 ^ 63 - 1.
Definition clamp_i64 (z : Z) : Z := Z.max I64_MIN (Z.min I64_MAX z).

(** Halves round away from zero; the cast saturates and sends NaN to 0. *)
Definition round_to_i64 (f : spec_float) : Z :=
  match f with
  | S754_zero _ | S754_nan => 0
  | S754_infinity s => if s then I64_MIN else I64_MAX
  | S754_finite s m e =>
      let a := if 0 <=? e then Zpos m * 2 ^ e else (Zpos m + 2 ^ (- e - 1)) / 2 ^ (- e) in
      clamp_i64 (if s then - a else a)
  end.

Definition total_millis (epoch_seconds : Z) : Z :=
  round_to_i64 (SFmul 53 1024 (f64_of_bits epoch_seconds) f1000).

(** ** The fields *)

Record Stamp := MkStamp {
  year : Z; month : Z; day : Z;
  hour : Z; minute : Z; second : Z; millis : Z;
}.

(** [civil_from_days], the part between the two comments of the source.  The
    arguments of [/] and [%] are not negative, so both are Euclidean. *)
Definition civil_from_days (days : Z) : Z * Z * Z :=
  let z := days + 719468 in
  let era := z / 146097 in
  let doe := z - era * 146097 in
  let yoe := (doe - doe / 1460 + doe / 36524 - doe / 146096) / 365 in
  let year := yoe + era * 400 in
  let doy := doe - (365 * yoe + yoe / 4 - yoe / 100) in
  let mp := (5 * doy + 2) / 153 in
  let day := doy - (153 * mp + 2) / 5 + 1 in
  let month := if mp <? 10 then mp + 3 else mp - 9 in
  let year := if month <=? 2 then year + 1 else year in
  (year, month, day).

Definition stamp_of (total : Z) : Stamp :=
  let secs := total / 1000 in
  let ms := total mod 1000 in
  let days := secs / 86400 in
  let secs := secs mod 86400 in
  let '(y, m, d) := civil_from_days days in
  MkStamp y m d (secs / 3600) (secs mod 3600 / 60) (secs mod 60) ms.

(** [{n:0w}]: the sign counts towards the width. *)
Definition zero_pad (w : nat) (n : Z) : string :=
  let digits := pretty (Z.to_N (Z.abs n)) in
  let zeros k := String.concat "" (replicate k "0") in
  if n <? 0 then "-" +:+ zeros (w - 1 - String.length digits)%nat +:+ digits
  else zeros (w - String.length digits)%nat +:+ digits.

Definition print_stamp (s : Stamp) : string :=
  zero_pad 4 (year s) +:+ "-" +:+ zero_pad 2 (month s) +:+ "-" +:+ zero_pad 2 (day s) +:+ "T"
  +:+ zero_pad 2 (hour s) +:+ ":" +:+ zero_pad 2 (minute s) +:+ ":" +:+ zero_pad 2 (second s)
  +:+ "." +:+ zero_pad 3 (millis s) +:+ "Z".

Definition iso8601 (epoch_seconds : Z) : string := print_stamp (stamp_of (total_millis epoch_seconds)).

(** The instant of the documentation of [iso8601]: 1782661500.75 seconds. *)
Example iso8601_doc : iso8601 4745263832257003520 = "2026-06-28T15:45:00.750Z".
Proof. vm_compute. reflexivity. Qed.

(** ** The calendar *)

Definition is_leap (y : Z) : bool :=
  (y mod 4 =? 0) && (negb (y mod 100 =? 0) || (y mod 400 =? 0)).

Definition days_in_month (leap : bool) (m : Z) : Z :=
  if m =? 2 then (if leap then 29 else 28)
  else if (m =? 4) || (m =? 6) || (m =? 9) || (m =? 11) then 30 else 31.

(** The day after a date. *)
Definition next_day (date : Z * Z * Z) : Z * Z * Z :=
  let '(y, m, d) := date in
  if d <? days_in_month (is_leap y) m then (y, m, d + 1)
  else if m <? 12 then (y, m + 1, 1) else (y + 1, 1, 1).

Definition valid_date (date : Z * Z * Z) : Prop :=
  let '(y, m, d) := date in 1 ≤ m ≤ 12 ∧ 1 ≤ d ≤ days_in_month (is_leap y) m.

(** Years that begin in March: the days before one, and a day of one. *)
Definition year_start (y : Z) : Z := 365 * y + y / 4 - y / 100 + y / 400.
Definition month_day (doy : Z) : Z * Z :=
  let mp := (5 * doy + 2) / 153 in
  (if mp <? 10 then mp + 3 else mp - 9, doy - (153 * mp + 2) / 5 + 1).
Definition date_of (y doy : Z) : Z * Z * Z :=
  let '(m, d) := month_day doy in (if m <=? 2 then y + 1 else y, m, d).

Lemma b2z_range b : 0 ≤ Z.b2z b ≤ 1.
Proof. destruct b; simpl; lia. Qed.

Lemma year_length y : year_start (y + 1) = year_start y + 365 + Z.b2z (is_leap (y + 1)).
Proof.
  unfold year_start, is_leap. set (x := y + 1). replace y with (x - 1) by lia.
  destruct (Z.eqb_spec (x mod 4) 0), (Z.eqb_spec (x mod 100) 0), (Z.eqb_spec (x mod 400) 0); simpl; zdiv.
Qed.

(** The year of a day of an era, by its first and last day. *)
Definition yoe_of (doe : Z) : Z := (doe - doe / 1460 + doe / 36524 - doe / 146096) / 365.

Lemma yoe_mono a b : 0 ≤ a ≤ b → b ≤ 146096 → yoe_of a ≤ yoe_of b.
Proof.
  intros Hab Hb. unfold yoe_of. apply Z.div_le_mono; [lia|].
  assert (b / 1460 - a / 1460 ≤ b - a) by zdiv.
  assert (a / 36524 ≤ b / 36524) by (apply Z.div_le_mono; lia).
  destruct (decide (b = 146096)) as [-> |]; [|rewrite (Z.div_small b 146096), (Z.div_small a 146096) by lia; lia].
  destruct (decide (a = 146096)) as [-> |]; [lia|]. rewrite (Z.div_small a 146096) by lia.
  assert (a / 36524 ≤ 3) by zdiv. assert (100 - a / 1460 ≤ 146096 - a) by zdiv.
  change (146096 / 1460) with 100. change (146096 / 36524) with 4. change (146096 / 146096) with 1. lia.
Qed.

Lemma yoe_table y :
  0 ≤ y < 400 → yoe_of (365 * y + y / 4 - y / 100) = y
    ∧ yoe_of (365 * y + y / 4 - y / 100 + 364 + Z.b2z (is_leap (y + 1))) = y.
Proof.
  intros Hy.
  assert (Hall : Forall (λ y, yoe_of (365 * y + y / 4 - y / 100) = y
    ∧ yoe_of (365 * y + y / 4 - y / 100 + 364 + Z.b2z (is_leap (y + 1))) = y) (seqZ 0 400)).
  { apply (bool_decide_unpack _). vm_compute. reflexivity. }
  rewrite Forall_forall in Hall. apply Hall, elem_of_seqZ. lia.
Qed.

(** ** The date of a day *)

Lemma civil_date y doy :
  0 ≤ doy < 365 + Z.b2z (is_leap (y + 1)) → civil_from_days (year_start y + doy - 719468) = date_of y doy.
Proof.
  intros Hd. pose proof (b2z_range (is_leap (y + 1))).
  set (era := y / 400). set (yoe := y mod 400).
  assert (Hy : y = 400 * era + yoe ∧ 0 ≤ yoe < 400) by (unfold era, yoe; zdiv). destruct Hy as [Hy Hyoe].
  set (st := 365 * yoe + yoe / 4 - yoe / 100).
  assert (Hs : year_start y = era * 146097 + st) by (unfold year_start, st; zdiv).
  assert (Hl : is_leap (y + 1) = is_leap (yoe + 1)).
  { unfold is_leap. by replace ((y + 1) mod 4) with ((yoe + 1) mod 4) by zdiv;
      replace ((y + 1) mod 100) with ((yoe + 1) mod 100) by zdiv;
      replace ((y + 1) mod 400) with ((yoe + 1) mod 400) by zdiv. }
  assert (Hr : 0 ≤ st ∧ st + doy ≤ 146096).
  { pose proof (year_length y). assert (year_start (y + 1) ≤ (era + 1) * 146097) by (unfold year_start; zdiv).
    unfold st in *. zdiv. }
  assert (Hq : yoe_of (st + doy) = yoe).
  { destruct (yoe_table yoe Hyoe) as [Ht1 Ht2]. fold st in Ht1, Ht2. rewrite Hl in Hd.
    pose proof (yoe_mono st (st + doy) ltac:(lia) ltac:(lia)).
    assert (He : st + 364 + Z.b2z (is_leap (yoe + 1)) ≤ 146096).
    { rewrite <- Hl. pose proof (year_length y).
      assert (year_start (y + 1) ≤ (era + 1) * 146097) by (unfold year_start; zdiv). lia. }
    pose proof (yoe_mono (st + doy) (st + 364 + Z.b2z (is_leap (yoe + 1))) ltac:(lia) He). lia. }
  unfold civil_from_days, date_of, month_day.
  replace (year_start y + doy - 719468 + 719468) with (st + doy + era * 146097) by lia.
  rewrite Z.div_add by lia. rewrite (Z.div_small (st + doy)) by lia.
  replace (st + doy + era * 146097 - (0 + era) * 146097) with (st + doy) by lia.
  fold (yoe_of (st + doy)). rewrite Hq. fold st.
  replace (st + doy - st) with doy by lia. replace (yoe + (0 + era) * 400) with y by lia. done.
Qed.

(** Every day is a day of one March-based year. *)
Lemma day_of_year days :
  ∃ y doy, days = year_start y + doy - 719468 ∧ 0 ≤ doy < 365 + Z.b2z (is_leap (y + 1)).
Proof.
  assert (Hs : ∃ y, year_start y ≤ days + 719468 < year_start (y + 1)).
  { set (z := days + 719468). set (y0 := 400 * (z / 146097)).
    assert (Hlo : year_start y0 ≤ z) by (unfold year_start, y0; zdiv).
    assert (Hhi : z < year_start (y0 + 400)) by (unfold year_start, y0; zdiv).
    assert (Hex : ∀ n : nat, z < year_start (y0 + Z.of_nat n) → ∃ y, year_start y ≤ z < year_start (y + 1)).
    { induction n as [|n IH]; intros Hz; [rewrite Z.add_0_r in Hz; lia|].
      destruct (Z.lt_ge_cases z (year_start (y0 + Z.of_nat n))) as [Hc|Hc]; [by apply IH|].
      exists (y0 + Z.of_nat n). replace (y0 + Z.of_nat n + 1) with (y0 + Z.of_nat (S n)) by lia. lia. }
    by apply (Hex 400%nat). }
  destruct Hs as [y Hy]. rewrite year_length in Hy.
  exists y, (days + 719468 - year_start y). lia.
Qed.

(** A day other than February 28 is followed by the next day of its month or the
    first of the next one. *)
Definition month_step (leap : bool) (doy : Z) : Prop :=
  (month_day doy).1 ≤ 12 ∧ 1 ≤ (month_day doy).1 ∧ 1 ≤ (month_day doy).2 ∧
  (month_day doy).2 ≤ days_in_month leap (month_day doy).1 ∧
  ¬ ((month_day doy).1 = 2 ∧ 28 ≤ (month_day doy).2) ∧
  month_day (doy + 1) =
    (if (month_day doy).2 <? days_in_month leap (month_day doy).1 then ((month_day doy).1, (month_day doy).2 + 1)
     else if (month_day doy).1 <? 12 then ((month_day doy).1 + 1, 1) else (1, 1)).

Lemma month_steps doy leap : 0 ≤ doy < 364 → month_step leap doy.
Proof.
  intros Hd. assert (Hall : Forall (month_step leap) (seqZ 0 364)).
  { unfold month_step. destruct leap; apply (bool_decide_unpack _); vm_compute; reflexivity. }
  rewrite Forall_forall in Hall. apply Hall, elem_of_seqZ. lia.
Qed.

Lemma days_in_month_bounds leap m : 28 ≤ days_in_month leap m ≤ 31.
Proof. unfold days_in_month. repeat case_match; lia. Qed.

(** Within a year [date_of] goes from day to day, and over its end. *)
Lemma date_step y doy :
  0 ≤ doy < 364 → date_of y (doy + 1) = next_day (date_of y doy) ∧ valid_date (date_of y doy).
Proof.
  intros Hd.
  assert (Hm : ∀ leap, month_step leap doy) by (intros; by apply month_steps).
  unfold date_of, next_day, valid_date. destruct (month_day doy) as [m d] eqn:E.
  assert (Hs : month_step (is_leap (if m <=? 2 then y + 1 else y)) doy) by auto.
  unfold month_step in Hs. rewrite E in Hs. simpl in Hs. destruct Hs as (? & ? & ? & ? & Hf & Hs). rewrite Hs.
  split; [|lia].
  destruct (Z.ltb_spec d (days_in_month (is_leap (if m <=? 2 then y + 1 else y)) m)); [done|].
  destruct (Z.ltb_spec m 12), (Z.leb_spec m 2); try lia.
  - destruct (Z.leb_spec (m + 1) 2); [done|]. assert (m = 2) as -> by lia.
    exfalso. apply Hf. pose proof (days_in_month_bounds (is_leap (y + 1)) 2). lia.
  - by destruct (Z.leb_spec (m + 1) 2); [lia|].
  - done.
Qed.

Lemma civil_step days :
  civil_from_days (days + 1) = next_day (civil_from_days days) ∧ valid_date (civil_from_days days).
Proof.
  destruct (day_of_year days) as (y & doy & -> & Hd). rewrite civil_date by done.
  replace (year_start y + doy - 719468 + 1) with (year_start y + (doy + 1) - 719468) by lia.
  pose proof (year_length y) as Hl. pose proof (b2z_range (is_leap (y + 1))).
  pose proof (b2z_range (is_leap (y + 1 + 1))).
  destruct (decide (doy < 364)) as [Hs|Hs].
  { rewrite civil_date by lia. apply date_step; lia. }
  assert (Hn : ∀ k, year_start y + k = year_start (y + 1) + (k - 365 - Z.b2z (is_leap (y + 1)))) by (intros; lia).
  destruct (decide (doy = 364)) as [-> |].
  - assert (He : date_of y 364 = (y + 1, 2, 28)) by reflexivity. rewrite He. unfold next_day, valid_date, days_in_month.
    destruct (is_leap (y + 1)) eqn:El; [rewrite civil_date by (rewrite El; simpl; lia); simpl; split; [reflexivity|lia]|].
    simpl in *. split; [|lia]. rewrite Hn, civil_date by lia. reflexivity.
  - destruct (is_leap (y + 1)) eqn:El; [|simpl in *; lia]. assert (doy = 365) as -> by (simpl in *; lia).
    assert (He : date_of y 365 = (y + 1, 2, 29)) by reflexivity. rewrite He. unfold next_day, valid_date, days_in_month. rewrite El.
    simpl in *. split; [|lia]. rewrite Hn, civil_date by lia. reflexivity.
Qed.

(** Dates increase, so no two days share one. *)
Definition date_key (date : Z * Z * Z) : Z := let '(y, m, d) := date in 10000 * y + 100 * m + d.

Lemma next_day_later date : valid_date date → date_key date < date_key (next_day date).
Proof.
  destruct date as [[y m] d]. unfold valid_date, next_day, date_key. intros [Hm Hd].
  pose proof (days_in_month_bounds (is_leap y) m). repeat case_match; simplify_eq; lia.
Qed.

#[export] Instance civil_inj : Inj (=) (=) civil_from_days.
Proof.
  assert (Hlt : ∀ (n : nat) a, date_key (civil_from_days a) < date_key (civil_from_days (a + 1 + Z.of_nat n))).
  { intros n a. induction n as [|n IH].
    - rewrite Z.add_0_r, (proj1 (civil_step a)). apply next_day_later, civil_step.
    - replace (a + 1 + Z.of_nat (S n)) with (a + 1 + Z.of_nat n + 1) by lia.
      rewrite (proj1 (civil_step (a + 1 + Z.of_nat n))).
      etrans; [exact IH|]. apply next_day_later, civil_step. }
  intros a b H. destruct (Z.lt_trichotomy a b) as [Hc|[Hc|Hc]]; [|done|].
  - pose proof (Hlt (Z.to_nat (b - a - 1)) a) as Hk. replace (a + 1 + Z.of_nat _) with b in Hk by lia. rewrite H in Hk. lia.
  - pose proof (Hlt (Z.to_nat (a - b - 1)) b) as Hk. replace (b + 1 + Z.of_nat _) with a in Hk by lia. rewrite H in Hk. lia.
Qed.

(** ** The printed fields *)

Definition date (s : Stamp) : Z * Z * Z := (year s, month s, day s).
Definition millis_of_day (s : Stamp) : Z := ((hour s * 60 + minute s) * 60 + second s) * 1000 + millis s.
Definition MILLIS_PER_DAY : Z := 86400000.

Lemma stamp_date t : date (stamp_of t) = civil_from_days (t / MILLIS_PER_DAY).
Proof.
  unfold stamp_of, MILLIS_PER_DAY. rewrite Z.div_div by lia. by destruct (civil_from_days _) as [[y m] d].
Qed.

Lemma stamp_time t :
  millis_of_day (stamp_of t) = t mod MILLIS_PER_DAY ∧ 0 ≤ hour (stamp_of t) < 24
  ∧ 0 ≤ minute (stamp_of t) < 60 ∧ 0 ≤ second (stamp_of t) < 60 ∧ 0 ≤ millis (stamp_of t) < 1000.
Proof.
  unfold stamp_of, MILLIS_PER_DAY, millis_of_day. destruct (civil_from_days _) as [[y m] d]. simpl. zdiv.
Qed.

(** The fields [iso8601] prints are the date and time of the instant in the
    Gregorian calendar, before and after the epoch: instant 0 is the first of
    January 1970, a day later is the calendar's next day at the same time, the
    fields are in range, the time of day is what is left of the day, and no two
    instants print alike. *)
Theorem stamps_follow_calendar :
  stamp_of 0 = MkStamp 1970 1 1 0 0 0 0
  ∧ Inj (=) (=) stamp_of
  ∧ ∀ t, valid_date (date (stamp_of t))
    ∧ date (stamp_of (t + MILLIS_PER_DAY)) = next_day (date (stamp_of t))
    ∧ millis_of_day (stamp_of (t + MILLIS_PER_DAY)) = millis_of_day (stamp_of t)
    ∧ millis_of_day (stamp_of t) = t mod MILLIS_PER_DAY
    ∧ 0 ≤ hour (stamp_of t) < 24 ∧ 0 ≤ minute (stamp_of t) < 60
    ∧ 0 ≤ second (stamp_of t) < 60 ∧ 0 ≤ millis (stamp_of t) < 1000.
Proof.
  split; [reflexivity|]. split.
  { intros a b H. pose proof (stamp_time a) as [Ha _]. pose proof (stamp_time b) as [Hb _].
    pose proof (stamp_date a) as Da. pose proof (stamp_date b) as Db. rewrite H in Ha, Da.
    rewrite Da in Db. apply (inj civil_from_days) in Db. unfold MILLIS_PER_DAY in *. zdiv. }
  intros t. destruct (stamp_time t) as [Ht Hr]. destruct (stamp_time (t + MILLIS_PER_DAY)) as [Ht' _].
  rewrite !stamp_date, Ht, Ht'.
  replace ((t + MILLIS_PER_DAY) / MILLIS_PER_DAY) with (t / MILLIS_PER_DAY + 1) by (unfold MILLIS_PER_DAY; zdiv).
  destruct (civil_step (t / MILLIS_PER_DAY)) as [Hs Hv]. split; [exact Hv|]. split; [exact Hs|].
  split; [unfold MILLIS_PER_DAY; zdiv|]. done.
Qed.

(** The instant printed for a finite number of seconds is its millisecond,
    ties away from the epoch. *)
Example millis_exact :
  (total_millis 4745263832257003520, total_millis 0, total_millis 13826050856027422720) = (1782661500750, 0, -500).
Proof. vm_compute. reflexivity. Qed.

End MedTime.
