(* ===== verification/MedView.v ===== *)
(** * The merged read-model of the diagnostic gateway

    Models [taktora-medkit-gateway/src/view.rs]: the pipeline that folds provider
    snapshots and the grouping manifest into one view, and the resolvers that
    answer requests from it, with the manifest of
    [taktora-medkit-manifest/src/lib.rs], the snapshot and mock provider of
    [taktora-medkit-provider/src/lib.rs] and the wire types of
    [taktora-medkit-model/src/lib.rs].  A [BTreeMap] is a [gmap]; where the code
    iterates over one, [entries] gives its pairs in the order of the keys.
    Indexing the entity vector is a [res]. *)

From stdpp Require Import base gmap list sorting strings.
From Stdlib Require Import ZArith Lia Ascii.
From S2P Require Import Prelude MedModel MedTime.

Module MedView.
Import MedModel.

(** ** Ordered maps and strings *)

(** Rust orders strings by their bytes. *)
Definition key_le {V} (a b : string * V) : Prop := String.leb a.1 b.1 = true.
#[export] Instance key_le_dec {V} : RelDecision (@key_le V) := λ a b, decide (String.leb a.1 b.1 = true).

(** The pairs of a [BTreeMap], in the order of iteration. *)
Definition entries {V} (m : gmap string V) : list (string * V) := merge_sort key_le (map_to_list m).

(** [BTreeMap::extend]: the added pairs win. *)
Definition extend_map {V} (m m' : gmap string V) : gmap string V := m' ∪ m.

Fixpoint strip_prefix (p s : string) : option string :=
  match p, s with
  | EmptyString, _ => Some s
  | String a p', String b s' => if bool_decide (a = b) then strip_prefix p' s' else None
  | String _ _, EmptyString => None
  end.

Fixpoint contains (s want : string) : bool :=
  String.prefix want s || match s with EmptyString => false | String _ s' => contains s' want end.

(** [str::split] at a character. *)
Fixpoint split (c : Ascii.ascii) (s : string) : list string :=
  match s with
  | EmptyString => [""]
  | String a s' =>
      if bool_decide (a = c) then "" :: split c s'
      else match split c s' with [] => [String a ""] | h :: t => String a h :: t end
  end.

(** ** Wire data *)

(** [serde_json::Value]; objects keep their keys in order, numbers are integers or
    the bits of a float. *)
#[warnings="-register-all"]
Inductive Value :=
| JNull
| JBool (b : bool)
| JNumber (n : Z)
| JFloat (bits : Z)
| JString (s : string)
| JArray (l : list Value)
| JObject (m : list (string * Value)).

Fixpoint obj_get (m : list (string * Value)) (k : string) : option Value :=
  match m with
  | [] => None
  | (k', v) :: m' => if bool_decide (k' = k) then Some v else obj_get m' k
  end.
Fixpoint obj_insert (m : list (string * Value)) (k : string) (v : Value) : list (string * Value) :=
  match m with
  | [] => [(k, v)]
  | (k', v') :: m' =>
      if bool_decide (k' = k) then (k, v) :: m'
      else if String.leb k k' then (k, v) :: (k', v') :: m' else (k', v') :: obj_insert m' k v
  end.

(** [Value::get] at a string. *)
Definition value_get (v : Value) (k : string) : option Value :=
  match v with JObject m => obj_get m k | _ => None end.

Record EntityMeta := MkEntityMeta {
  component_id : option string;
  is_online : option bool;
  ros2 : option string;            (* [Ros2Ref], the node *)
  source : option string;
}.
Definition meta_default : EntityMeta := MkEntityMeta None None None None.

Record Entity := MkEntity {
  href : string;
  e_id : string;
  e_name : string;
  e_kind : EntityKind;
  parent_id : option string;
  e_description : option string;
  e_medkit : option EntityMeta;
}.
#[export] Instance entity_meta_eq_dec : EqDecision EntityMeta.
Proof. solve_decision. Defined.
#[export] Instance entity_eq_dec : EqDecision Entity.
Proof. solve_decision. Defined.

Record Collection := MkCollection {
  c_items : list Entity;
  c_links : option (gmap string string);
  c_total_count : Z;
}.
Definition collection_new (items : list Entity) : Collection := MkCollection items None (Z.of_nat (length items)).

Record FaultListMeta := MkListMeta {
  count_ : Z;
  muted_count : option Z;
  cluster_count : option Z;
  m_entity_id : option string;
  source_id : option string;
  aggregated : option bool;
  aggregation_level : option string;
  aggregation_sources_ : option (list string);
  app_count : option Z;
}.
Record FaultList := MkFaultList { f_items : list FaultSummary; f_medkit : FaultListMeta }.

Record DtcStatus := MkDtc {
  aggregated_status : string;
  test_failed : string;
  confirmed_dtc : string;
  pending_dtc : string;
}.
Record FaultItem := MkItem { i_code : string; fault_name : string; i_severity : Z; i_status : DtcStatus }.
Record ExtendedDataRecords := MkRecords { first_occurrence : string; last_occurrence : string }.
Record FreezeFrame := MkFreeze {
  ff_data : Value;
  ff_name : string;
  ff_kind : string;
  captured_at : string;
  full_data : Value;
  message_type : string;
  topic : string;
}.
Record EnvironmentData := MkEnvironment { extended_data_records : ExtendedDataRecords; snapshots_ : list FreezeFrame }.
Record FaultDetail := MkDetail {
  environment_data : EnvironmentData;
  d_item : FaultItem;
  d_occurrence_count : Z;
  d_reporting_sources : list string;
  d_severity_label : string;
  status_raw : string;
}.

(** ** Snapshots *)

Inductive Relation := Contains | Components | Subcomponents | Hosts | DependsOn | IsLocatedOn | BelongsTo.
#[export] Instance relation_eq_dec : EqDecision Relation.
Proof. solve_decision. Defined.
Definition ALL : list Relation := [Contains; Components; Subcomponents; Hosts; DependsOn; IsLocatedOn; BelongsTo].
Definition segment (r : Relation) : string :=
  match r with
  | Contains => "contains" | Components => "components" | Subcomponents => "subcomponents" | Hosts => "hosts"
  | DependsOn => "depends-on" | IsLocatedOn => "is-located-on" | BelongsTo => "belongs-to"
  end.
Definition from_segment (s : string) : option Relation := snd <$> list_find (λ r, segment r = s) ALL.

Record RelationshipEdge := MkEdge { from_id : string; relation : Relation; item : Entity }.

Record LogEntry := MkLog { l_timestamp : Z; l_severity : string; context : string; l_message : string }.

Record Telemetry := MkTelemetry {
  data_provider : gmap string Value;
  subscription_executor : gmap string Value;
  entity_cache : gmap string Value;
}.
Definition telemetry_default : Telemetry := MkTelemetry ∅ ∅ ∅.
Definition telemetry_is_empty (t : Telemetry) : bool :=
  bool_decide (size (data_provider t) = 0%nat) && bool_decide (size (subscription_executor t) = 0%nat)
  && bool_decide (size (entity_cache t) = 0%nat).
Definition telemetry_extend (t o : Telemetry) : Telemetry :=
  MkTelemetry (extend_map (data_provider t) (data_provider o))
    (extend_map (subscription_executor t) (subscription_executor o)) (extend_map (entity_cache t) (entity_cache o)).

Record ProviderSnapshot := MkSnapshot {
  s_entities : list Entity;
  s_relationships : list RelationshipEdge;
  s_faults : gmap string (list FaultSummary);
  s_environments : gmap string (gmap string EnvironmentData);
  s_data : gmap string Value;
  s_logs : gmap string (list LogEntry);
  s_telemetry : Telemetry;
}.

(** The default method of [Provider], from the two accessors. *)
Definition default_snapshot (ents : list Entity) (faults : string → list FaultSummary) : ProviderSnapshot :=
  let kept := omap (λ e, if bool_decide (faults (e_id e) = []) then None else Some (e_id e, faults (e_id e))) ents in
  MkSnapshot ents [] (foldl (λ m '(k, v), <[k := v]> m) ∅ kept) ∅ ∅ ∅ telemetry_default.

(** *** The mock provider *)

Record MockProvider := MkMock { mock : ProviderSnapshot; mock_health : gmap string Health }.
Definition mock_new : MockProvider := MkMock (MkSnapshot [] [] ∅ ∅ ∅ ∅ telemetry_default) ∅.
Definition with_entity (p : MockProvider) (e : Entity) : MockProvider :=
  let s := mock p in
  MkMock (MkSnapshot (s_entities s ++ [e]) (s_relationships s) (s_faults s) (s_environments s) (s_data s) (s_logs s) (s_telemetry s))
    (mock_health p).
Definition with_fault (p : MockProvider) (id : string) (f : FaultSummary) : MockProvider :=
  let s := mock p in
  let h := from_option severity_to_health HOk (from_wire_value (severity f)) in
  MkMock (MkSnapshot (s_entities s) (s_relationships s) (<[id := default [] (s_faults s !! id) ++ [f]]> (s_faults s))
            (s_environments s) (s_data s) (s_logs s) (s_telemetry s))
    (<[id := health_max (default HOk (mock_health p !! id)) h]> (mock_health p)).
Definition with_relationship (p : MockProvider) (from : string) (r : Relation) (i : Entity) : MockProvider :=
  let s := mock p in
  MkMock (MkSnapshot (s_entities s) (s_relationships s ++ [MkEdge from r i]) (s_faults s) (s_environments s) (s_data s) (s_logs s) (s_telemetry s))
    (mock_health p).

(** ** The manifest *)

Definition APP_PREFIX : string := "app:".
Definition SUBDEVICE_PREFIX : string := "component:".
Definition MANIFEST_SOURCE : string := "manifest".
Definition API_BASE : string := "/api/v1".

Record MArea := MkArea { a_id : string; a_name : string }.
Record MComponent := MkComponent { k_id : string; k_area : string; k_name : string }.
Record Manifest := MkManifest {
  areas : list MArea;
  components : list MComponent;
  tasks : gmap string string;
  subdevices : gmap string string;
}.

Definition manifest_default : Manifest := MkManifest [] [] ∅ ∅.
Definition m_area (m : Manifest) (id name : string) : Manifest :=
  MkManifest (areas m ++ [MkArea id name]) (components m) (tasks m) (subdevices m).
Definition m_component (m : Manifest) (id area name : string) : Manifest :=
  MkManifest (areas m) (components m ++ [MkComponent id area name]) (tasks m) (subdevices m).
Definition map_task (m : Manifest) (task parent : string) : Manifest :=
  MkManifest (areas m) (components m) (<[task := parent]> (tasks m)) (subdevices m).
Definition map_subdevice (m : Manifest) (addr component : string) : Manifest :=
  MkManifest (areas m) (components m) (tasks m) (<[addr := component]> (subdevices m)).

Definition manifest_is_empty (m : Manifest) : bool :=
  bool_decide (length (areas m) = 0%nat) && bool_decide (length (components m) = 0%nat)
  && bool_decide (size (tasks m) = 0%nat) && bool_decide (size (subdevices m) = 0%nat).

Definition parent_of (m : Manifest) (raw_id : string) : option string :=
  match strip_prefix APP_PREFIX raw_id with
  | Some task => tasks m !! task
  | None =>
      match strip_prefix SUBDEVICE_PREFIX raw_id with
      | Some addr => subdevices m !! addr
      | None => None
      end
  end.

Definition declared_entity (k : EntityKind) (collection id name : string) (parent : option string) : Entity :=
  MkEntity ("/api/v1/" +:+ collection +:+ "/" +:+ id) id name k parent None
    (Some (MkEntityMeta None None None (Some MANIFEST_SOURCE))).

Definition declared_entities (m : Manifest) : list Entity :=
  ((λ a, declared_entity Area "areas" (a_id a) (a_name a) None) <$> areas m)
  ++ ((λ c, declared_entity Component "components" (k_id c) (k_name c) (Some (k_area c))) <$> components m).

(** ** Merging *)

Record MergedView := MkView {
  v_entities : list Entity;
  by_id : gmap string nat;
  relationships : list RelationshipEdge;
  v_faults : gmap string (list FaultSummary);
  fault_environments : gmap string (gmap string EnvironmentData);
  v_data : gmap string Value;
  v_logs : gmap string (list LogEntry);
  telemetry : Telemetry;
}.
Definition view_default : MergedView := MkView [] ∅ [] ∅ ∅ ∅ ∅ telemetry_default.

(** The entity vector with its index. *)
Abbreviation Index := (list Entity * gmap string nat)%type.

(** [entities[idx] = entity], or a push under a new index. *)
Definition upsert (st : Index) (e : Entity) : res Index :=
  let '(es, ix) := st in
  match ix !! e_id e with
  | Some i => if bool_decide (i < length es)%nat then Ok (<[i := e]> es, ix) else Panic
  | None => Ok (es ++ [e], <[e_id e := length es]> ix)
  end.

Fixpoint upsert_all (st : Index) (l : list Entity) : res Index :=
  match l with
  | [] => Ok st
  | e :: l' => st' ← upsert st e; upsert_all st' l'
  end.

Definition extend_environments (m envs : gmap string (gmap string EnvironmentData))
    : gmap string (gmap string EnvironmentData) :=
  foldl (λ acc '(id, e), <[id := extend_map (default ∅ (acc !! id)) e]> acc) m (entries envs).

(** The body of the loop over the snapshots. *)
Definition fold_snapshot (v : MergedView) (s : ProviderSnapshot) : res MergedView :=
  '(es, ix) ← upsert_all (v_entities v, by_id v) (s_entities s);
  Ok (MkView es ix (relationships v ++ s_relationships s) (extend_map (v_faults v) (s_faults s))
        (extend_environments (fault_environments v) (s_environments s)) (extend_map (v_data v) (s_data s))
        (extend_map (v_logs v) (s_logs s)) (telemetry_extend (telemetry v) (s_telemetry s))).

Fixpoint fold_snapshots (v : MergedView) (ss : list ProviderSnapshot) : res MergedView :=
  match ss with
  | [] => Ok v
  | s :: ss' => v' ← fold_snapshot v s; fold_snapshots v' ss'
  end.

Definition synthesized_relations (parent child : EntityKind) : list Relation :=
  match parent, child with
  | Area, Component => [Components; Contains]
  | Area, _ => [Contains]
  | (Component | Function_), App => [Hosts]
  | Component, Component => [Subcomponents]
  | _, _ => []
  end.

Definition rel_item (e : Entity) : Entity :=
  MkEntity (href e) (e_id e) (e_name e) (e_kind e) None (e_description e)
    ((λ m, MkEntityMeta None (is_online m) (ros2 m) (source m)) <$> e_medkit e).

Definition reparent (m : Manifest) (e : Entity) : Entity :=
  match parent_of m (e_id e) with
  | Some p => MkEntity (href e) (e_id e) (e_name e) (e_kind e) (Some p) (e_description e) (e_medkit e)
  | None => e
  end.

(** The identity of an edge. *)
Abbreviation EdgeKey := (string * Relation * string)%type.
Definition edge_key (e : RelationshipEdge) : EdgeKey := (from_id e, relation e, e_id (item e)).

(** The edges a child adds to what was seen. *)
Fixpoint add_relations (parent : string) (child : Entity) (rs : list Relation)
    (acc : list EdgeKey * list RelationshipEdge) : list EdgeKey * list RelationshipEdge :=
  match rs with
  | [] => acc
  | r :: rs' =>
      let '(seen, out) := acc in
      let key := (parent, r, e_id child) in
      add_relations parent child rs'
        (if bool_decide (key ∈ seen) then acc
         else (key :: seen, out ++ [MkEdge parent r (rel_item child)]))
  end.

Definition add_child (kind_of : gmap string EntityKind) (acc : list EdgeKey * list RelationshipEdge) (child : Entity)
    : list EdgeKey * list RelationshipEdge :=
  match parent_id child with
  | Some p =>
      match kind_of !! p with
      | Some pk => add_relations p child (synthesized_relations pk (e_kind child)) acc
      | None => acc
      end
  | None => acc
  end.

Definition kinds (es : list Entity) : gmap string EntityKind :=
  foldl (λ m e, <[e_id e := e_kind e]> m) ∅ es.

Definition apply_manifest (st : Index) (rels : list RelationshipEdge) (m : Manifest)
    : res (Index * list RelationshipEdge) :=
  '(es, ix) ← upsert_all st (declared_entities m);
  let es := reparent m <$> es in
  let acc := foldl (add_child (kinds es)) (edge_key <$> rels, rels) es in
  Ok (es, ix, acc.2).

(** [MergePipeline] and [merge]. *)
Record MergePipeline := MkPipeline { snapshots : list ProviderSnapshot; manifest : option Manifest }.
Definition pipeline_new : MergePipeline := MkPipeline [] None.
Definition with_snapshot (p : MergePipeline) (s : ProviderSnapshot) : MergePipeline :=
  MkPipeline (snapshots p ++ [s]) (manifest p).
Definition with_manifest (p : MergePipeline) (m : Manifest) : MergePipeline :=
  MkPipeline (snapshots p) (Some m).

Definition merge (p : MergePipeline) : res MergedView :=
  v ← fold_snapshots view_default (snapshots p);
  match manifest p with
  | Some m =>
      if manifest_is_empty m then Ok v
      else
        '(es, ix, rels) ← apply_manifest (v_entities v, by_id v) (relationships v) m;
        Ok (MkView es ix rels (v_faults v) (fault_environments v) (v_data v) (v_logs v) (telemetry v))
  | None => Ok v
  end.

Definition from_snapshot (s : ProviderSnapshot) : res MergedView := merge (with_snapshot pipeline_new s).
Definition from_snapshot_with_manifest (s : ProviderSnapshot) (m : option Manifest) : res MergedView :=
  let p := with_snapshot pipeline_new s in
  merge (match m with Some m => with_manifest p m | None => p end).

(** ** Resolvers *)

Definition entity_not_found (id : string) : GenericError :=
  MkGeneric "entity-not-found" "Entity not found" {["entity_id" := id]}.
Definition fault_not_found (code : string) : GenericError :=
  MkGeneric "fault-not-found" "Fault not found" {["fault_code" := code]}.
Definition data_not_found (path : string) : GenericError :=
  MkGeneric "data-not-found" "Data resource not found" {["data_id" := path]}.

Definition entity (v : MergedView) (id : string) : res (option Entity) :=
  match by_id v !! id with
  | Some i => match v_entities v !! i with Some e => Ok (Some e) | None => Panic end
  | None => Ok None
  end.

(** A request: it may panic, or be answered with an error. *)
Abbreviation answer A := (res (A + GenericError)).
Definition answer_bind {A B} (f : A → answer B) (m : answer A) : answer B :=
  match m with Ok (inl a) => f a | Ok (inr e) => Ok (inr e) | Panic => Panic end.
Notation "x <-? m ; n" := (answer_bind (λ x, n) m) (at level 20, m at level 100, n at level 200, right associativity).

Definition require (v : MergedView) (k : EntityKind) (id : string) : answer Entity :=
  match entity v id with
  | Ok (Some e) => if bool_decide (e_kind e = k) then Ok (inl e) else Ok (inr (entity_not_found id))
  | Ok None => Ok (inr (entity_not_found id))
  | Panic => Panic
  end.

Definition list_ (v : MergedView) (k : EntityKind) : Collection :=
  collection_new (filter (λ e, e_kind e = k) (v_entities v)).

Definition relationship (v : MergedView) (k : EntityKind) (id : string) (r : Relation) : answer Collection :=
  _e <-? require v k id;
  let items := item <$> filter (λ e, from_id e = id ∧ relation e = r) (relationships v) in
  let base := API_BASE +:+ "/" +:+ collection_segment k +:+ "/" +:+ id in
  let back_key := if bool_decide (r = Subcomponents) then "parent" else type_singular k in
  let links := <[back_key := base]> {["self" := base +:+ "/" +:+ segment r]} in
  Ok (inl (MkCollection items (Some links) (Z.of_nat (length items)))).

Inductive FaultStatusFilter := All | Pending | Confirmed | Cleared | Healed.

Definition parse_filter (value : option string) : option FaultStatusFilter :=
  match value with
  | None => Some All
  | Some s =>
      if bool_decide (s = "all") then Some All
      else if bool_decide (s = "pending") then Some Pending
      else if bool_decide (s = "confirmed") then Some Confirmed
      else if bool_decide (s = "cleared") then Some Cleared
      else if bool_decide (s = "healed") then Some Healed
      else None
  end.

Definition filter_matches (f : FaultStatusFilter) (status : string) : bool :=
  match f with
  | All => true
  | Pending => bool_decide (status = "PREFAILED") || bool_decide (status = "PENDING")
  | Confirmed => bool_decide (status = "CONFIRMED")
  | Cleared => bool_decide (status = "CLEARED")
  | Healed => bool_decide (status = "HEALED")
  end.

Definition U32_MAX : Z := 2 ^ 32 - 1.
Definition count {A} (items : list A) : Z := Z.min (Z.of_nat (length items)) U32_MAX.

(** The first fault of each code. *)
Fixpoint first_by_code (seen : list string) (l : list FaultSummary) : list FaultSummary :=
  match l with
  | [] => []
  | f :: l' =>
      if bool_decide (fault_code f ∈ seen) then first_by_code seen l'
      else f :: first_by_code (fault_code f :: seen) l'
  end.

Definition global_faults (v : MergedView) (f : FaultStatusFilter) : FaultList :=
  let items := first_by_code [] (filter (λ x, filter_matches f (status x) = true) (concat (snd <$> entries (v_faults v)))) in
  MkFaultList items (MkListMeta (count items) (Some 0) (Some 0) None None None None None None).

Definition aggregation_sources (v : MergedView) (component : string) : list string :=
  omap (λ e, m ← e_medkit (item e); ros2 m)
    (filter (λ e, from_id e = component ∧ relation e = Hosts) (relationships v)).

Definition entity_faults (v : MergedView) (k : EntityKind) (id : string) (f : FaultStatusFilter) : answer FaultList :=
  e <-? require v k id;
  let items := filter (λ x, filter_matches f (status x) = true) (default [] (v_faults v !! id)) in
  let meta :=
    if bool_decide (k = Component) then
      let sources := aggregation_sources v id in
      MkListMeta (count items) None None (Some id) None (Some true) (Some "component") (Some sources) (Some (count sources))
    else
      MkListMeta (count items) (Some 0) (Some 0) (Some id) (m ← e_medkit e; ros2 m) None None None None in
  Ok (inl (MkFaultList items meta)).

Definition bool01 (b : bool) : string := if b then "1" else "0".

Definition detail_from_summary (s : FaultSummary) : FaultDetail :=
  let confirmed := bool_decide (status s = "CONFIRMED") in
  let pending := bool_decide (status s = "PREFAILED") || bool_decide (status s = "PENDING") in
  MkDetail
    (MkEnvironment (MkRecords (MedTime.iso8601 (first_occurred s)) (MedTime.iso8601 (last_occurred s))) [])
    (MkItem (fault_code s) (description s) (severity s)
       (MkDtc (if confirmed then "active" else "pending") (bool01 (confirmed || pending)) (bool01 confirmed) (bool01 pending)))
    (occurrence_count s) (reporting_sources s) (severity_label s) (status s).

Definition fault_detail (v : MergedView) (k : EntityKind) (id code : string) : answer FaultDetail :=
  _e <-? require v k id;
  match snd <$> list_find (λ f, fault_code f = code) (default [] (v_faults v !! id)) with
  | None => Ok (inr (fault_not_found code))
  | Some s =>
      let d := detail_from_summary s in
      Ok (inl
        match m ← fault_environments v !! id; m !! code with
        | Some env => MkDetail env (d_item d) (d_occurrence_count d) (d_reporting_sources d) (d_severity_label d) (status_raw d)
        | None => d
        end)
  end.

Definition delete_fault (v : MergedView) (k : EntityKind) (id code : string) : answer unit :=
  _d <-? fault_detail v k id code; Ok (inl tt).

Fixpoint navigate (cursor : Value) (segments : list string) : option Value :=
  match segments with
  | [] => Some cursor
  | s :: rest => match value_get cursor s with Some c => navigate c rest | None => None end
  end.

Definition data (v : MergedView) (k : EntityKind) (id : string) (topic_path : option string) : answer Value :=
  _e <-? require v k id;
  let root := default (JObject []) (v_data v !! id) in
  match topic_path with
  | None => Ok (inl root)
  | Some path =>
      if bool_decide (path = "") then Ok (inl root)
      else
        match navigate root (filter (λ s, s ≠ "") (split "/"%char path)) with
        | Some c => Ok (inl c)
        | None => Ok (inr (data_not_found path))
        end
  end.

Definition logs (v : MergedView) (_kind : EntityKind) (id : string) (sev ctx : option string) : answer (list LogEntry) :=
  Ok (inl (filter (λ e, from_option (λ want, contains (context e) want) true ctx = true)
    (filter (λ e, from_option (λ want, bool_decide (l_severity e = want)) true sev = true)
      (default [] (v_logs v !! id))))).

(** *** The health document *)

Definition overlay (base : list (string * Value)) (overrides : gmap string Value) : list (string * Value) :=
  foldl (λ m '(k, x), obj_insert m k x) base (entries overrides).

Definition count_kind (v : MergedView) (k : EntityKind) : Value :=
  JNumber (Z.of_nat (length (filter (λ e, e_kind e = k) (v_entities v)))).

Definition entity_cache_block (v : MergedView) : list (string * Value) :=
  let b := overlay [("capacity", JNumber 256); ("generation", JNumber 0); ("grew", JBool false)]
             (entity_cache (telemetry v)) in
  let b := obj_insert b "areas" (count_kind v Area) in
  let b := obj_insert b "components" (count_kind v Component) in
  let b := obj_insert b "apps" (count_kind v App) in
  obj_insert b "functions" (count_kind v Function_).

Definition zeros (keys : list string) : list (string * Value) := (λ k, (k, JNumber 0)) <$> keys.

Definition health_document (v : MergedView) : Value :=
  let data_provider_block := overlay
    (zeros ["cold_wait_cap"; "concurrent_cold_waits"; "evictions_total"; "graph_events_received"; "pool_cap";
            "pool_hits"; "pool_misses"; "pool_size"; "type_change_events"; "unsupported_type_count"])
    (data_provider (telemetry v)) in
  let executor_block := overlay
    ([("current_task_age_ms", JNumber 0); ("degraded", JBool false)]
     ++ zeros ["graph_events_received"; "last_task_latency_us"; "max_task_latency_us"; "queue_depth"; "queue_dropped";
               "queue_max_depth_observed"; "tasks_completed"; "tasks_failed"; "watchdog_trips"]
     ++ [("worker_alive", JBool true)])
    (subscription_executor (telemetry v)) in
  JObject [("discovery", JObject [("mode", JString "runtime_only"); ("strategy", JString "runtime")]);
           ("status", JString "healthy");
           ("x-medkit-data-provider", JObject data_provider_block);
           ("x-medkit-entity-cache", JObject (entity_cache_block v));
           ("x-medkit-subscription-executor", JObject executor_block)].

End MedView.
