(* ===== verification/MedViewOk.v ===== *)
(** * What the merged read-model holds

    Merging never panics, and the view is determined by the snapshots and the
    manifest: which entities it has, in which order, which version of each wins,
    and under which parents they are listed. *)

From stdpp Require Import base gmap list sorting strings.
From Stdlib Require Import ZArith Lia Ascii.
From S2P Require Import Prelude MedModel MedTime MedView.

Module MedViewOk.
Import MedModel MedView.

(** ** Order of first mention, last version *)

Fixpoint first_mentions (l : list string) : list string :=
  match l with
  | [] => []
  | x :: l' => x :: filter (λ y, y ≠ x) (first_mentions l')
  end.

Lemma elem_of_first_mentions x l : x ∈ first_mentions l ↔ x ∈ l.
Proof.
  induction l as [|y l IH]; simpl; [done|]. rewrite !elem_of_cons, list_elem_of_filter, IH.
  destruct (decide (x = y)); naive_solver.
Qed.

Lemma first_mentions_snoc l x :
  first_mentions (l ++ [x]) = if decide (x ∈ l) then first_mentions l else first_mentions l ++ [x].
Proof.
  induction l as [|y l IH]; [done|]. simpl.
  rewrite IH. destruct (decide (x = y)) as [-> |Hxy].
  - rewrite (decide_True (P := y ∈ y :: l)) by set_solver.
    destruct (decide (y ∈ l)); [done|]. by rewrite filter_app, filter_cons_False, filter_nil, app_nil_r by naive_solver.
  - destruct (decide (x ∈ l)) as [Hx|Hx], (decide (x ∈ y :: l)) as [Hx'|Hx']; try set_solver.
    by rewrite filter_app, filter_cons_True, filter_nil.
Qed.

Lemma first_mentions_NoDup l : NoDup (first_mentions l).
Proof.
  induction l as [|x l IH]; simpl; [apply NoDup_nil_2|].
  apply NoDup_cons. split; [rewrite list_elem_of_filter; naive_solver|by apply NoDup_filter].
Qed.

(** The last entity with an id. *)
Definition latest (id : string) (l : list Entity) : option Entity := last (filter (λ e, e_id e = id) l).

Lemma latest_snoc id l e : latest id (l ++ [e]) = if decide (e_id e = id) then Some e else latest id l.
Proof.
  unfold latest. rewrite filter_app. destruct (decide (e_id e = id)).
  - by rewrite filter_cons_True, filter_nil, last_snoc.
  - by rewrite filter_cons_False, filter_nil, app_nil_r.
Qed.

(** ** The index *)

Definition index_get (st : Index) (id : string) : option Entity := i ← st.2 !! id; st.1 !! i.

(** The index finds every entity at its place. *)
Definition index_ok (st : Index) : Prop :=
  ∀ id i, st.2 !! id = Some i ↔ e_id <$> st.1 !! i = Some id.

(** The vector and index hold the latest version of each mentioned entity. *)
Record describes (st : Index) (l : list Entity) : Prop := {
  d_index : index_ok st;
  d_ids : e_id <$> st.1 = first_mentions (e_id <$> l);
  d_get : ∀ id, index_get st id = latest id l;
}.

Lemma index_ok_lookup st id i : index_ok st → st.2 !! id = Some i → ∃ e, st.1 !! i = Some e ∧ e_id e = id.
Proof. intros H Hi. apply H in Hi. destruct (st.1 !! i) as [e|]; naive_solver. Qed.

Lemma index_ok_elem st id : index_ok st → is_Some (st.2 !! id) ↔ id ∈ (e_id <$> st.1).
Proof.
  intros H. rewrite list_elem_of_fmap. split.
  - intros [i Hi]. destruct (index_ok_lookup _ _ _ H Hi) as (e & He & <-). exists e. split; [done|]. by eapply list_elem_of_lookup_2.
  - intros (e & -> & He). apply list_elem_of_lookup in He as [i Hi]. exists i. apply H. by rewrite Hi.
Qed.

(** Replacing the entity at its index. *)
Lemma replace_describes es ix l e i :
  describes (es, ix) l → ix !! e_id e = Some i → (i < length es)%nat ∧ describes (<[i := e]> es, ix) (l ++ [e]).
Proof.
  intros [Hix Hids Hget] Ei. simpl in *.
  destruct (index_ok_lookup _ _ _ Hix Ei) as (e0 & He0 & Hid0). simpl in He0.
  assert (Hlt : (i < length es)%nat) by (by eapply lookup_lt_Some). split; [done|].
  assert (Hmem : e_id e ∈ e_id <$> l).
  { apply elem_of_first_mentions. rewrite <- Hids. apply (index_ok_elem (es, ix)); [done|]. by exists i. }
  split; simpl.
  - intros id j. rewrite (Hix id j). simpl. destruct (decide (i = j)) as [<-|Hij].
    + rewrite list_lookup_insert_eq, He0 by done. simpl. by rewrite Hid0.
    + by rewrite list_lookup_insert_ne.
  - rewrite fmap_app. simpl. rewrite first_mentions_snoc, decide_True, <- Hids by done.
    rewrite list_fmap_insert. apply list_insert_id. by rewrite list_lookup_fmap, He0, <- Hid0.
  - intros id. rewrite latest_snoc. unfold index_get. simpl. destruct (decide (e_id e = id)) as [<-|Hne].
    + rewrite Ei. simpl. by rewrite list_lookup_insert_eq.
    + rewrite <- Hget. unfold index_get. simpl. destruct (ix !! id) as [j|] eqn:Ej; [|done]. simpl.
      rewrite list_lookup_insert_ne; [done|]. intros <-. destruct (index_ok_lookup _ _ _ Hix Ej) as (e1 & He1 & Hid1).
      simpl in He1. congruence.
Qed.

(** Pushing an entity under a new index. *)
Lemma push_index_ok es ix e :
  index_ok (es, ix) → ix !! e_id e = None → index_ok (es ++ [e], <[e_id e := length es]> ix).
Proof.
  intros Hix Ei id j. simpl. destruct (decide (j < length es)%nat) as [Hlt|Hge].
  - rewrite lookup_app_l by done. destruct (decide (id = e_id e)) as [-> |Hne].
    + rewrite lookup_insert_eq. split; [intros [= <-]; lia|]. intros Hj.
      assert (ix !! e_id e = Some j) by (by apply Hix). congruence.
    + rewrite lookup_insert_ne by done. apply (Hix id j).
  - rewrite lookup_app_r by lia. destruct (decide (id = e_id e)) as [-> |Hne].
    + rewrite lookup_insert_eq. destruct (j - length es)%nat eqn:E; simpl.
      * split; [done|]. intros _. f_equal. lia.
      * split; [intros [= <-]; lia|done].
    + rewrite lookup_insert_ne by done. rewrite (Hix id j). simpl. rewrite lookup_ge_None_2 by lia.
      destruct (j - length es)%nat; simpl; split; try done. congruence.
Qed.

Lemma push_describes es ix l e :
  describes (es, ix) l → ix !! e_id e = None →
  describes (es ++ [e], <[e_id e := length es]> ix) (l ++ [e]).
Proof.
  intros [Hix Hids Hget] Ei. simpl in *.
  assert (Hmem : e_id e ∉ e_id <$> l).
  { rewrite <- elem_of_first_mentions, <- Hids. intros Hc. apply (index_ok_elem (es, ix)) in Hc; [|done].
    destruct Hc as [i Hi]. simpl in Hi. congruence. }
  split; simpl.
  - by apply push_index_ok.
  - rewrite !fmap_app. simpl. by rewrite first_mentions_snoc, decide_False, <- Hids by done.
  - intros id. rewrite latest_snoc. unfold index_get. simpl. destruct (decide (e_id e = id)) as [<-|Hne].
    + rewrite lookup_insert_eq. simpl. by rewrite list_lookup_middle.
    + rewrite lookup_insert_ne by done. rewrite <- Hget. unfold index_get. simpl.
      destruct (ix !! id) as [j|] eqn:Ej; [|done]. simpl.
      destruct (index_ok_lookup _ _ _ Hix Ej) as (e1 & He1 & _). simpl in He1. rewrite He1.
      by apply lookup_app_l_Some.
Qed.

Lemma upsert_describes st l e : describes st l → ∃ st', upsert st e = Ok st' ∧ describes st' (l ++ [e]).
Proof.
  destruct st as [es ix]. intros H. unfold upsert. destruct (ix !! e_id e) as [i|] eqn:Ei.
  - destruct (replace_describes es ix l e i H Ei) as [Hi H']. rewrite bool_decide_true by done. eauto.
  - eexists. split; [done|]. by apply push_describes.
Qed.

Lemma upsert_all_describes st l l' : describes st l → ∃ st', upsert_all st l' = Ok st' ∧ describes st' (l ++ l').
Proof.
  revert st l. induction l' as [|e l' IH]; intros st l H; simpl; [rewrite app_nil_r; eauto|].
  destruct (upsert_describes st l e H) as (st' & -> & H'). simpl.
  destruct (IH st' (l ++ [e]) H') as (st2 & -> & H2). rewrite <- app_assoc in H2. eauto.
Qed.

(** ** The snapshots *)

(** What the last snapshot that has it says. *)
Definition newest {A} (f : ProviderSnapshot → option A) (ss : list ProviderSnapshot) : option A := last (omap f ss).

Lemma newest_snoc {A} (f : ProviderSnapshot → option A) ss s : newest f (ss ++ [s]) = f s ∪ newest f ss.
Proof.
  unfold newest. rewrite omap_app. simpl. destruct (f s); [rewrite last_snoc; by destruct (last _)|].
  rewrite app_nil_r. by destruct (last _).
Qed.

Lemma entries_perm {V} (m : gmap string V) : entries m ≡ₚ map_to_list m.
Proof. apply merge_sort_Permutation. Qed.

Lemma entries_keys {V} (m : gmap string V) : NoDup (entries m).*1.
Proof. rewrite entries_perm. apply NoDup_fst_map_to_list. Qed.

Lemma elem_of_entries {V} (m : gmap string V) k x : (k, x) ∈ entries m ↔ m !! k = Some x.
Proof. rewrite entries_perm. apply elem_of_map_to_list. Qed.

Lemma extend_environments_lookup m envs id code :
  (e ← extend_environments m envs !! id; e !! code) = (e ← envs !! id; e !! code) ∪ (e ← m !! id; e !! code).
Proof.
  unfold extend_environments.
  assert (Hgen : ∀ (l : list (string * gmap string EnvironmentData)) (m : gmap string (gmap string EnvironmentData)), NoDup l.*1 →
    (e ← foldl (λ acc '(id, e), <[id := extend_map (default ∅ (acc !! id)) e]> acc) m l !! id; e !! code)
    = (e ← (list_to_map l : gmap string (gmap string EnvironmentData)) !! id; e !! code) ∪ (e ← m !! id; e !! code)).
  { induction l as [|[k e] l IH]; intros m0 Hnd; simpl.
    - rewrite lookup_empty. simpl. by destruct (m0 !! id ≫= _).
    - apply NoDup_cons in Hnd as [Hk Hnd]. rewrite IH by done. destruct (decide (k = id)) as [-> |Hne].
      + rewrite lookup_insert_eq, lookup_insert_eq. simpl.
        rewrite not_elem_of_list_to_map_1 by done. simpl. unfold extend_map. rewrite lookup_union.
        destruct (m0 !! id) as [e1|]; simpl; [by destruct (e !! code), (e1 !! code)|].
        rewrite lookup_empty. by destruct (e !! code).
      + by rewrite !lookup_insert_ne. }
  rewrite Hgen by apply entries_keys. do 2 f_equal.
  rewrite <- (list_to_map_to_list envs) at 2. f_equal. apply list_to_map_proper, entries_perm. apply entries_keys.
Qed.

(** A view that holds what some snapshots say. *)
Record view_of (ss : list ProviderSnapshot) (v : MergedView) : Prop := {
  vo_index : describes (v_entities v, by_id v) (concat (s_entities <$> ss));
  vo_rels : relationships v = concat (s_relationships <$> ss);
  vo_faults : ∀ id, v_faults v !! id = newest (λ s, s_faults s !! id) ss;
  vo_envs : ∀ id code, (e ← fault_environments v !! id; e !! code) = newest (λ s, e ← s_environments s !! id; e !! code) ss;
  vo_data : ∀ id, v_data v !! id = newest (λ s, s_data s !! id) ss;
  vo_logs : ∀ id, v_logs v !! id = newest (λ s, s_logs s !! id) ss;
}.

Lemma fold_snapshot_view ss v s : view_of ss v → ∃ v', fold_snapshot v s = Ok v' ∧ view_of (ss ++ [s]) v'.
Proof.
  intros [Hi Hr Hf He Hd Hl]. unfold fold_snapshot.
  destruct (upsert_all_describes _ _ (s_entities s) Hi) as ([es ix] & -> & Hi'). simpl.
  eexists. split; [done|].
  split; simpl; rewrite ?fmap_app, ?concat_app; simpl; rewrite ?app_nil_r; try done.
  - by rewrite Hr.
  - intros id. rewrite newest_snoc, <- Hf. apply lookup_union.
  - intros id code. rewrite newest_snoc, <- He. apply extend_environments_lookup.
  - intros id. rewrite newest_snoc, <- Hd. apply lookup_union.
  - intros id. rewrite newest_snoc, <- Hl. apply lookup_union.
Qed.

Lemma view_of_nil : view_of [] view_default.
Proof.
  by split.
Qed.

Lemma fold_snapshots_view ss : ∃ v, fold_snapshots view_default ss = Ok v ∧ view_of ss v.
Proof.
  assert (Hgen : ∀ ss ss0 v, view_of ss0 v → ∃ v', fold_snapshots v ss = Ok v' ∧ view_of (ss0 ++ ss) v').
  { clear ss. induction ss as [|s ss IH]; intros ss0 v H; simpl; [rewrite app_nil_r; eauto|].
    destruct (fold_snapshot_view ss0 v s H) as (v1 & -> & H1). simpl.
    destruct (IH _ _ H1) as (v2 & -> & H2). rewrite <- app_assoc in H2. eauto. }
  apply (Hgen ss []), view_of_nil.
Qed.

(** ** The manifest *)

Lemma reparent_id m e : e_id (reparent m e) = e_id e.
Proof. unfold reparent. by destruct (parent_of m (e_id e)). Qed.

(** Everything a pipeline mentions, in order, and the re-parenting it applies. *)
Definition mentions (p : MergePipeline) : list Entity :=
  concat (s_entities <$> snapshots p) ++ from_option declared_entities [] (manifest p).
Definition regroup (p : MergePipeline) (e : Entity) : Entity :=
  from_option (λ m, reparent m e) e (manifest p).

Lemma manifest_empty m : manifest_is_empty m = true → declared_entities m = [] ∧ ∀ e, reparent m e = e.
Proof.
  unfold manifest_is_empty. rewrite !andb_true_iff, !bool_decide_eq_true. intros [[[Ha Hc] Ht] Hs].
  apply length_zero_iff_nil in Ha, Hc. apply map_size_empty_inv in Ht, Hs. split.
  - unfold declared_entities. by rewrite Ha, Hc.
  - intros e. unfold reparent, parent_of. rewrite Ht, Hs. by repeat case_match.
Qed.

Lemma reparent_ids m (es : list Entity) : e_id <$> (reparent m <$> es) = e_id <$> es.
Proof. rewrite <- list_fmap_compose. apply list_fmap_ext. intros; apply reparent_id. Qed.

Lemma reparent_index m es ix : index_ok (es, ix) → index_ok (reparent m <$> es, ix).
Proof.
  intros H id i. rewrite (H id i). simpl. rewrite list_lookup_fmap.
  destruct (es !! i) as [e|]; simpl; [by rewrite reparent_id|done].
Qed.

(** The relationships a merge adds to those of the snapshots. *)
Definition grouped_edges (p : MergePipeline) (es : list Entity) (rels : list RelationshipEdge) : list RelationshipEdge :=
  match manifest p with
  | Some m =>
      if manifest_is_empty m then rels
      else (foldl (add_child (kinds es)) (edge_key <$> rels, rels) es).2
  | None => rels
  end.

(** What [merge] builds. *)
Record merged (p : MergePipeline) (v : MergedView) : Prop := {
  mg_index : index_ok (v_entities v, by_id v);
  mg_ids : e_id <$> v_entities v = first_mentions (e_id <$> mentions p);
  mg_get : ∀ id, index_get (v_entities v, by_id v) id = regroup p <$> latest id (mentions p);
  mg_rels : relationships v = grouped_edges p (v_entities v) (concat (s_relationships <$> snapshots p));
  mg_faults : ∀ id, v_faults v !! id = newest (λ s, s_faults s !! id) (snapshots p);
  mg_envs : ∀ id code, (e ← fault_environments v !! id; e !! code)
              = newest (λ s, e ← s_environments s !! id; e !! code) (snapshots p);
  mg_data : ∀ id, v_data v !! id = newest (λ s, s_data s !! id) (snapshots p);
  mg_logs : ∀ id, v_logs v !! id = newest (λ s, s_logs s !! id) (snapshots p);
}.

Lemma flat_merged p v :
  view_of (snapshots p) v → from_option manifest_is_empty true (manifest p) = true → merged p v.
Proof.
  intros [[Hi Hids Hg] Hr Hf He Hd Hl] Hm. simpl in *.
  assert (Hp : mentions p = concat (s_entities <$> snapshots p) ∧ ∀ e, regroup p e = e).
  { unfold mentions, regroup. destruct (manifest p) as [m|]; simpl in *; [|by rewrite app_nil_r].
    destruct (manifest_empty m Hm) as [-> Hre]. by rewrite app_nil_r. }
  destruct Hp as [Hp Hre]. split; try done; rewrite ?Hp; try done.
  - intros id. rewrite Hg. destruct (latest id _); simpl; by rewrite ?Hre.
  - unfold grouped_edges. rewrite Hr. destruct (manifest p) as [m|]; [|done]. simpl in Hm. by rewrite Hm.
Qed.

Lemma merge_merged p : ∃ v, merge p = Ok v ∧ merged p v.
Proof.
  unfold merge. destruct (fold_snapshots_view (snapshots p)) as (v & -> & Hv). simpl.
  destruct (manifest p) as [m|] eqn:Em; [|exists v; split; [done|]; apply flat_merged; [done|by rewrite Em]].
  destruct (manifest_is_empty m) eqn:Ee; [exists v; split; [done|]; apply flat_merged; [done|by rewrite Em]|].
  destruct Hv as [Hi Hr Hf He Hd Hl]. unfold apply_manifest.
  destruct (upsert_all_describes _ _ (declared_entities m) Hi) as ([es ix] & -> & [Hi' Hids Hg]). simpl in *.
  assert (Hp : mentions p = concat (s_entities <$> snapshots p) ++ declared_entities m)
    by (unfold mentions; by rewrite Em).
  eexists. split; [done|]. split; simpl; try done.
  - by apply reparent_index.
  - by rewrite reparent_ids, Hids, Hp.
  - intros id. rewrite Hp, <- Hg. unfold index_get, regroup. rewrite Em. simpl. destruct (ix !! id); simpl; [|done].
    apply list_lookup_fmap.
  - unfold grouped_edges. by rewrite Em, Ee, Hr.
Qed.

Lemma entity_get p v id : merged p v → entity v id = Ok (index_get (v_entities v, by_id v) id).
Proof.
  intros H. unfold entity, index_get. simpl. destruct (by_id v !! id) as [i|] eqn:E; [|done]. simpl.
  destruct (index_ok_lookup _ _ _ (mg_index _ _ H) E) as (e & He & _). simpl in He. by rewrite He.
Qed.

Lemma entity_member p v e : merged p v → e ∈ v_entities v → entity v (e_id e) = Ok (Some e).
Proof.
  intros H Hin. rewrite (entity_get p) by done. unfold index_get. simpl.
  apply list_elem_of_lookup in Hin as [i Hi].
  assert (by_id v !! e_id e = Some i) as -> by (apply (mg_index _ _ H); simpl; by rewrite Hi). simpl. by rewrite Hi.
Qed.

(** Merging is total and exact.  The view has one entity per id that a snapshot
    or the manifest mentions, in order of first mention; looking an id up returns
    its last version, under the parent the manifest maps it to; and faults, freeze
    frames, data and logs of an entity are those of the last snapshot that has
    them. *)
Theorem merge_exact (p : MergePipeline) :
  ∃ v, merge p = Ok v
    ∧ e_id <$> v_entities v = first_mentions (e_id <$> mentions p)
    ∧ (∀ id, entity v id = Ok (regroup p <$> latest id (mentions p)))
    ∧ (∀ id, v_faults v !! id = newest (λ s, s_faults s !! id) (snapshots p))
    ∧ (∀ id code, (e ← fault_environments v !! id; e !! code)
                  = newest (λ s, e ← s_environments s !! id; e !! code) (snapshots p))
    ∧ (∀ id, v_data v !! id = newest (λ s, s_data s !! id) (snapshots p))
    ∧ (∀ id, v_logs v !! id = newest (λ s, s_logs s !! id) (snapshots p)).
Proof.
  destruct (merge_merged p) as (v & Hv & H). exists v. destruct H as [Hi Hids Hg Hr Hf He Hd Hl] eqn:EH.
  repeat split; try done. intros id. rewrite (entity_get p) by done. by rewrite Hg.
Qed.

(** ** The synthesized edges *)

Lemma kinds_snoc es e : kinds (es ++ [e]) = <[e_id e := e_kind e]> (kinds es).
Proof. unfold kinds. by rewrite foldl_snoc. Qed.

Lemma kinds_member es e : NoDup (e_id <$> es) → e ∈ es → kinds es !! e_id e = Some (e_kind e).
Proof.
  induction es as [|x es IH] using rev_ind; intros Hnd Hin; [by apply not_elem_of_nil in Hin|].
  rewrite fmap_app in Hnd. apply NoDup_app in Hnd as (Hnd & Hx & _). rewrite kinds_snoc.
  apply elem_of_app in Hin as [Hin|Hin].
  - rewrite lookup_insert_ne; [by apply IH|]. intros Heq. apply (Hx (e_id e)); [by apply list_elem_of_fmap_2|set_solver].
  - apply list_elem_of_singleton in Hin as ->. by rewrite lookup_insert_eq.
Qed.

Lemma kinds_inv es id k : kinds es !! id = Some k → ∃ e, e ∈ es ∧ e_id e = id ∧ e_kind e = k.
Proof.
  induction es as [|x es IH] using rev_ind; intros H; [done|]. rewrite kinds_snoc in H.
  apply lookup_insert_Some in H as [[<- <-]|[Hne H]]; [exists x; set_solver|].
  destruct (IH H) as (e & He & ? & ?). exists e. set_solver.
Qed.

(** An accumulator of [add_child]: the keys seen and the edges, with those added. *)
Abbreviation Edges := (list EdgeKey * list RelationshipEdge)%type.
Definition grown (P : RelationshipEdge → Prop) (a a' : Edges) : Prop :=
  ∃ new, a'.2 = a.2 ++ new ∧ NoDup (edge_key <$> new) ∧ (∀ e, e ∈ new → edge_key e ∉ a.1)
    ∧ (∀ e, e ∈ new → P e) ∧ ∀ k, k ∈ a'.1 ↔ k ∈ a.1 ∨ k ∈ edge_key <$> new.

Lemma grown_refl P a : grown P a a.
Proof. exists []. rewrite app_nil_r. split_and!; try set_solver. apply NoDup_nil_2. Qed.

Lemma grown_trans P a b c : grown P a b → grown P b c → grown P a c.
Proof.
  intros (n1 & H1 & Hd1 & Hs1 & HP1 & Hk1) (n2 & H2 & Hd2 & Hs2 & HP2 & Hk2).
  exists (n1 ++ n2). rewrite H2, H1, app_assoc, fmap_app. split_and!; [done| | | |].
  - apply NoDup_app. split; [done|]. split; [|done]. intros k Hk (e & -> & He)%list_elem_of_fmap.
    apply (Hs2 e He). apply Hk1. by right.
  - intros e [He|He]%elem_of_app; [by apply Hs1|]. intros Hc. apply (Hs2 e He), Hk1. by left.
  - intros e [He|He]%elem_of_app; auto.
  - intros k. rewrite Hk2, Hk1, elem_of_app. tauto.
Qed.

Lemma grown_seen P a b k : grown P a b → k ∈ a.1 → k ∈ b.1.
Proof. intros (new & _ & _ & _ & _ & H) Hk. apply H. by left. Qed.

Lemma add_relations_grown P p child rs acc :
  (∀ r, r ∈ rs → P (MkEdge p r (rel_item child))) →
  grown P acc (add_relations p child rs acc) ∧ ∀ r, r ∈ rs → (p, r, e_id child) ∈ (add_relations p child rs acc).1.
Proof.
  revert acc. induction rs as [|r rs IH]; intros [seen out] HP; simpl; [split; [apply grown_refl|set_solver]|].
  set (acc' := if bool_decide _ then _ else _).
  assert (Hg : grown P (seen, out) acc' ∧ (p, r, e_id child) ∈ acc'.1).
  { unfold acc'. case_bool_decide as Hin; [split; [apply grown_refl|done]|]. split; [|set_solver].
    exists [MkEdge p r (rel_item child)]. simpl. split_and!; [done|apply NoDup_singleton| | |].
    - intros e ->%list_elem_of_singleton. done.
    - intros e ->%list_elem_of_singleton. set_solver.
    - intros k. rewrite elem_of_cons, list_elem_of_singleton. unfold edge_key. simpl. tauto. }
  destruct Hg as [Hg Hk]. destruct (IH acc') as [Hg2 Hk2]; [set_solver|]. split; [by eapply grown_trans|].
  intros r' [-> |Hr']%elem_of_cons; [by eapply grown_seen|by apply Hk2].
Qed.

(** An edge that the tree calls for. *)
Definition tree_edge (es : list Entity) (e : RelationshipEdge) : Prop :=
  ∃ parent child r, parent ∈ es ∧ child ∈ es ∧ parent_id child = Some (e_id parent)
    ∧ r ∈ synthesized_relations (e_kind parent) (e_kind child) ∧ e = MkEdge (e_id parent) r (rel_item child).

Lemma add_child_grown es acc child :
  NoDup (e_id <$> es) → child ∈ es →
  grown (tree_edge es) acc (add_child (kinds es) acc child)
  ∧ ∀ parent r, parent ∈ es → parent_id child = Some (e_id parent) →
      r ∈ synthesized_relations (e_kind parent) (e_kind child) →
      (e_id parent, r, e_id child) ∈ (add_child (kinds es) acc child).1.
Proof.
  intros Hnd Hc. unfold add_child. destruct (parent_id child) as [p|] eqn:Ep; [|split; [apply grown_refl|done]].
  destruct (kinds es !! p) as [pk|] eqn:Ek.
  - destruct (add_relations_grown (tree_edge es) p child (synthesized_relations pk (e_kind child)) acc) as [Hg Hk].
    { intros r Hr. destruct (kinds_inv _ _ _ Ek) as (e & He & <- & <-). by exists e, child, r. }
    split; [done|]. intros parent r Hp [= ->] Hr. apply Hk.
    rewrite (kinds_member es parent Hnd Hp) in Ek. by simplify_eq.
  - split; [apply grown_refl|]. intros parent r Hp [= ->] _. rewrite (kinds_member es parent Hnd Hp) in Ek. done.
Qed.

Lemma add_children_grown es l acc :
  NoDup (e_id <$> es) → l ⊆ es →
  grown (tree_edge es) acc (foldl (add_child (kinds es)) acc l)
  ∧ ∀ parent child r, parent ∈ es → child ∈ l → parent_id child = Some (e_id parent) →
      r ∈ synthesized_relations (e_kind parent) (e_kind child) →
      (e_id parent, r, e_id child) ∈ (foldl (add_child (kinds es)) acc l).1.
Proof.
  intros Hnd. revert acc. induction l as [|c l IH]; intros acc Hl; simpl; [split; [apply grown_refl|set_solver]|].
  destruct (add_child_grown es acc c Hnd) as [Hg Hk]; [set_solver|].
  destruct (IH (add_child (kinds es) acc c)) as [Hg2 Hk2]; [set_solver|]. split; [by eapply grown_trans|].
  intros parent child r Hp [-> |Hc]%elem_of_cons Hpar Hr; [|by apply Hk2]. eapply grown_seen; [exact Hg2|]. by apply Hk.
Qed.

Lemma merge_rels p m v :
  merge p = Ok v → manifest p = Some m → manifest_is_empty m = false →
  ∃ new, relationships v = concat (s_relationships <$> snapshots p) ++ new
    ∧ NoDup (edge_key <$> new)
    ∧ (∀ e, e ∈ new → (edge_key e ∉ (edge_key <$> concat (s_relationships <$> snapshots p))) ∧ tree_edge (v_entities v) e)
    ∧ ∀ parent child r, parent ∈ v_entities v → child ∈ v_entities v → parent_id child = Some (e_id parent) →
        r ∈ synthesized_relations (e_kind parent) (e_kind child) →
        (e_id parent, r, e_id child) ∈ edge_key <$> relationships v.
Proof.
  intros Hm Em Ee. destruct (merge_merged p) as (v' & Hv' & H). rewrite Hm in Hv'. injection Hv' as <-.
  pose proof (mg_rels _ _ H) as Hr. unfold grouped_edges in Hr. rewrite Em, Ee in Hr.
  set (old := concat (s_relationships <$> snapshots p)) in *.
  assert (Hnd : NoDup (e_id <$> v_entities v)) by (rewrite (mg_ids _ _ H); apply first_mentions_NoDup).
  destruct (add_children_grown (v_entities v) (v_entities v) (edge_key <$> old, old) Hnd) as [Hg Hk]; [done|].
  destruct Hg as (new & Hnew & Hdup & Hs & HP & Hkeys). simpl in *. exists new.
  split_and!; [by rewrite Hr|done|by split; auto|].
  intros parent child r Hp Hc Hpar Hrel. rewrite Hr, Hnew, fmap_app, elem_of_app. by apply Hkeys, Hk.
Qed.

(** With a manifest, the tree is navigable: every entity with a parent in the
    view is listed under that parent, in each relationship its kind calls for; the
    edges a merge adds are exactly such edges, each added once and only if no
    snapshot supplied it. *)
Theorem tree_listed (p : MergePipeline) (m : Manifest) (v : MergedView)
    (Hm : merge p = Ok v) (Em : manifest p = Some m) (Ee : manifest_is_empty m = false) :
  (∀ parent child r, parent ∈ v_entities v → child ∈ v_entities v → parent_id child = Some (e_id parent) →
     r ∈ synthesized_relations (e_kind parent) (e_kind child) →
     ∃ c, relationship v (e_kind parent) (e_id parent) r = Ok (inl c) ∧ e_id child ∈ e_id <$> c_items c)
  ∧ ∃ new, relationships v = concat (s_relationships <$> snapshots p) ++ new
      ∧ NoDup (edge_key <$> new)
      ∧ ∀ e, e ∈ new → (edge_key e ∉ (edge_key <$> concat (s_relationships <$> snapshots p)))
                       ∧ tree_edge (v_entities v) e.
Proof.
  destruct (merge_rels p m v Hm Em Ee) as (new & Hr & Hd & He & Hk). split; [|by exists new].
  intros parent child r Hp Hc Hpar Hrel.
  destruct (merge_merged p) as (v' & Hv' & H). rewrite Hm in Hv'. injection Hv' as <-.
  unfold relationship, require. rewrite (entity_member p v parent H Hp).
  rewrite (bool_decide_true (e_kind parent = e_kind parent)) by done. simpl.
  eexists. split; [done|]. simpl.
  specialize (Hk parent child r Hp Hc Hpar Hrel). apply list_elem_of_fmap in Hk as (e & Hke & Hin).
  unfold edge_key in Hke. injection Hke as -> -> ->. apply list_elem_of_fmap_2, list_elem_of_fmap_2.
  apply list_elem_of_filter. done.
Qed.

(** *** A gateway with one task *)

Definition example_app : Entity := MkEntity "/api/v1/apps/app:t" "app:t" "t" App None None None.
Definition example_snapshot : ProviderSnapshot := MkSnapshot [example_app] [] ∅ ∅ ∅ ∅ telemetry_default.
Definition example_manifest : Manifest :=
  map_task (m_component (m_area manifest_default "drive" "Drive train") "nav" "drive" "Navigation") "t" "nav".
Definition example_pipeline : MergePipeline := with_manifest (with_snapshot pipeline_new example_snapshot) example_manifest.
Definition example_view : MergedView := match merge example_pipeline with Ok v => v | Panic => view_default end.

Lemma tree_listed_witness :
  ∃ c, relationship example_view Component "nav" Hosts = Ok (inl c) ∧ "app:t" ∈ e_id <$> c_items c.
Proof.
  destruct (tree_listed example_pipeline example_manifest example_view) as [H _];
    [vm_compute; reflexivity|reflexivity|vm_compute; reflexivity|].
  apply (H (declared_entity Component "components" "nav" "Navigation" (Some "drive"))
           (MkEntity "/api/v1/apps/app:t" "app:t" "t" App (Some "nav") None None) Hosts).
  - apply (bool_decide_unpack _). vm_compute. exact I.
  - apply (bool_decide_unpack _). vm_compute. exact I.
  - reflexivity.
  - apply (bool_decide_unpack _). vm_compute. exact I.
Defined.

(** A component's fault list is marked as aggregated over the apps it hosts, and
    names them, but holds only its own faults. *)
Example hosted_faults_not_listed :
  let f := MkFault "" "BRAKE" 0 0 1 [] 2 "ERROR" "CONFIRMED" in
  let s := MkSnapshot [example_app] [] {["app:t" := [f]]} ∅ ∅ ∅ telemetry_default in
  match merge (with_manifest (with_snapshot pipeline_new s) example_manifest) with
  | Ok v =>
      match entity_faults v Component "nav" All with
      | Ok (inl l) => (f_items l, aggregated (f_medkit l), f_items (global_faults v All)) = ([], Some true, [f])
      | _ => False
      end
  | Panic => False
  end.
Proof. vm_compute. reflexivity. Qed.

(** ** Documents and lists *)

Lemma obj_get_insert m k x k' : obj_get (obj_insert m k x) k' = if bool_decide (k = k') then Some x else obj_get m k'.
Proof.
  induction m as [|[k0 x0] m IH]; simpl; [done|].
  destruct (decide (k0 = k)) as [-> |Hk]; [rewrite bool_decide_true by done; simpl; by case_bool_decide|].
  rewrite (bool_decide_false (k0 = k)) by done. destruct (String.leb k k0); simpl; [done|]. rewrite IH.
  destruct (decide (k0 = k')) as [-> |Hk']; [|by rewrite bool_decide_false].
  rewrite bool_decide_true, bool_decide_false by naive_solver. done.
Qed.

(** The four entity counts of the health document are the view's, whatever the
    provider's telemetry says. *)
Lemma health_counts_authoritative v :
  (λ k, obj_get (entity_cache_block v) k) <$> ["areas"; "components"; "apps"; "functions"]
  = (λ k, Some (count_kind v k)) <$> [Area; Component; App; Function_].
Proof. unfold entity_cache_block. simpl. by rewrite !obj_get_insert. Qed.

(** Keys a provider overrides show its values. *)
Lemma overlay_lookup base o k :
  obj_get (overlay base o) k = o !! k ∪ obj_get base k.
Proof.
  unfold overlay.
  assert (Hgen : ∀ (l : list (string * Value)) b, NoDup l.*1 →
    obj_get (foldl (λ m '(k, x), obj_insert m k x) b l) k = (list_to_map l : gmap string Value) !! k ∪ obj_get b k).
  { induction l as [|[k0 x] l IH]; intros b Hnd; simpl; [by destruct (obj_get b k)|].
    apply NoDup_cons in Hnd as [Hk Hnd]. rewrite IH, obj_get_insert by done. destruct (decide (k0 = k)) as [-> |Hne].
    - rewrite bool_decide_true, lookup_insert_eq by done. rewrite not_elem_of_list_to_map_1 by done. by destruct (obj_get b k).
    - by rewrite bool_decide_false, lookup_insert_ne. }
  rewrite Hgen by apply entries_keys. f_equal.
  rewrite <- (list_to_map_to_list o) at 2. f_equal. apply list_to_map_proper, entries_perm. apply entries_keys.
Qed.

Lemma first_by_code_spec seen l f :
  f ∈ first_by_code seen l → f ∈ l ∧ fault_code f ∉ seen.
Proof.
  revert seen. induction l as [|x l IH]; intros seen H; simpl in H; [by apply not_elem_of_nil in H|].
  case_bool_decide as Hx; [apply IH in H; set_solver|].
  apply elem_of_cons in H as [-> |H]; [set_solver|]. apply IH in H. set_solver.
Qed.

(** The global list has every reported code once. *)
Lemma global_faults_codes v flt :
  NoDup (fault_code <$> f_items (global_faults v flt))
  ∧ ∀ id fs f, v_faults v !! id = Some fs → f ∈ fs → filter_matches flt (status f) = true →
      fault_code f ∈ fault_code <$> f_items (global_faults v flt).
Proof.
  assert (Hnd : ∀ l seen, NoDup (fault_code <$> first_by_code seen l)).
  { induction l as [|x l IH]; intros seen; simpl; [apply NoDup_nil_2|]. case_bool_decide; [done|]. simpl.
    apply NoDup_cons. split; [|done]. intros (f & Hf & Hin)%list_elem_of_fmap.
    apply first_by_code_spec in Hin as [_ Hn]. rewrite Hf in Hn. set_solver. }
  assert (Hin : ∀ l seen f, f ∈ l → fault_code f ∈ seen ∨ fault_code f ∈ fault_code <$> first_by_code seen l).
  { induction l as [|x l IH]; intros seen f Hf; [by apply not_elem_of_nil in Hf|]. simpl.
    apply elem_of_cons in Hf as [-> |Hf]; case_bool_decide; simpl; [by left|set_solver|by apply IH|].
    destruct (IH (fault_code x :: seen) f Hf) as [H'|H']; set_solver. }
  split; [apply Hnd|]. intros id fs f Hid Hf Hm.
  destruct (Hin (filter (λ x, filter_matches flt (status x) = true) (concat (snd <$> entries (v_faults v)))) [] f) as [H|H];
    [|by apply not_elem_of_nil in H|done].
  apply list_elem_of_filter. split; [done|]. apply list_elem_of_In, in_concat. exists fs. rewrite <- !list_elem_of_In. split; [|done].
  apply list_elem_of_fmap. exists (id, fs). split; [done|]. by apply elem_of_entries.
Qed.

End MedViewOk.
