(* ===== verification/MedStore.v ===== *)
(** * Trigger and subscription registries of the diagnostic gateway

    Models the registries of [taktora-medkit-gateway-axum/src/triggers.rs]
    ([TriggerStore], the global handlers and [trigger_routes]) and of
    [taktora-medkit-gateway-axum/src/cyclic.rs] ([CyclicStore] and
    [cyclic_routes]).  Both serve the same entity-scoped surface: the class
    [Registry] states what the handlers need of a store, the handlers are written
    against it, and the two stores are its instances. *)

From stdpp Require Import base gmap list strings pretty.
From Stdlib Require Import ZArith Lia.
From S2P Require Import Prelude MedModel MedView.

Module MedStore.
Import MedModel.

Definition U64_MAX : Z := 2 ^ 64 - 1.

(** [self.next += 1]. *)
Definition bump (n : Z) : res Z := if n <? U64_MAX then Ok (n + 1) else Panic.

(** ** Triggers *)

Record TriggerSpec := MkSpec { sp_entity : option string; sp_severity : option Z }.
Record Trigger := MkTrigger { t_id : string; t_entity : option string; t_severity : option Z }.
#[export] Instance trigger_eq_dec : EqDecision Trigger.
Proof. solve_decision. Defined.

Definition matches (t : Trigger) (e : FaultEvent) : bool :=
  from_option (λ x, bool_decide (x = entity_id (x_medkit e))) true (t_entity t)
  && from_option (λ s, s <=? severity (fault e)) true (t_severity t).

Record TriggerStore := MkTStore { t_next : Z; triggers : list Trigger }.
Definition trigger_store_default : TriggerStore := MkTStore 0 [].

Definition create (s : TriggerStore) (spec : TriggerSpec) : res (TriggerStore * Trigger) :=
  n ← bump (t_next s);
  let t := MkTrigger (numbered "trg-" n) (sp_entity spec) (sp_severity spec) in
  Ok (MkTStore n (triggers s ++ [t]), t).

Definition get (s : TriggerStore) (id : string) : option Trigger :=
  snd <$> list_find (λ t, t_id t = id) (triggers s).

Definition update (s : TriggerStore) (id : string) (spec : TriggerSpec) : TriggerStore * option Trigger :=
  match list_find (λ t, t_id t = id) (triggers s) with
  | Some (i, t) =>
      let t' := MkTrigger (t_id t) (sp_entity spec) (sp_severity spec) in
      (MkTStore (t_next s) (<[i := t']> (triggers s)), Some t')
  | None => (s, None)
  end.

Definition list_for_entity (s : TriggerStore) (entity : string) : list Trigger :=
  filter (λ t, t_entity t = Some entity) (triggers s).

Definition remove (s : TriggerStore) (id : string) : TriggerStore * bool :=
  let kept := filter (λ t, t_id t ≠ id) (triggers s) in
  (MkTStore (t_next s) kept, negb (bool_decide (length kept = length (triggers s)))).

Definition any_matches (s : TriggerStore) (e : FaultEvent) : bool := existsb (λ t, matches t e) (triggers s).

Definition trigger_not_found (id : string) : GenericError :=
  MkGeneric "trigger-not-found" "Trigger not found" {["trigger_id" := id]}.

(** ** Cyclic subscriptions *)

Definition DEFAULT_INTERVAL_MS : Z := 1000.
Definition MIN_INTERVAL_MS : Z := 50.

Record CyclicSpec := MkCSpec { cs_path : option string; cs_interval : option Z }.
Record CyclicSubscription := MkSub { c_id : string; c_entity : string; data_path : option string; interval_ms : Z }.
#[export] Instance subscription_eq_dec : EqDecision CyclicSubscription.
Proof. solve_decision. Defined.
Record CyclicStore := MkCStore { c_next : Z; subscriptions : list CyclicSubscription }.
Definition cyclic_store_default : CyclicStore := MkCStore 0 [].

Definition cyclic_create (s : CyclicStore) (entity : string) (spec : CyclicSpec) : res (CyclicStore * CyclicSubscription) :=
  n ← bump (c_next s);
  let c := MkSub (numbered "cyc-" n) entity (cs_path spec) (default DEFAULT_INTERVAL_MS (cs_interval spec)) in
  Ok (MkCStore n (subscriptions s ++ [c]), c).

Definition cyclic_get (s : CyclicStore) (id : string) : option CyclicSubscription :=
  snd <$> list_find (λ c, c_id c = id) (subscriptions s).

Definition cyclic_update (s : CyclicStore) (id : string) (spec : CyclicSpec) : CyclicStore * option CyclicSubscription :=
  match list_find (λ c, c_id c = id) (subscriptions s) with
  | Some (i, c) =>
      let c' := MkSub (c_id c) (c_entity c) (cs_path spec) (default DEFAULT_INTERVAL_MS (cs_interval spec)) in
      (MkCStore (c_next s) (<[i := c']> (subscriptions s)), Some c')
  | None => (s, None)
  end.

Definition cyclic_remove (s : CyclicStore) (id : string) : CyclicStore * bool :=
  let kept := filter (λ c, c_id c ≠ id) (subscriptions s) in
  (MkCStore (c_next s) kept, negb (bool_decide (length kept = length (subscriptions s)))).

Definition cyclic_list_for_entity (s : CyclicStore) (entity : string) : list CyclicSubscription :=
  filter (λ c, c_entity c = entity) (subscriptions s).

Definition subscription_not_found (id : string) : GenericError :=
  MkGeneric "cyclic-subscription-not-found" "Cyclic subscription not found" {["subscription_id" := id]}.

(** The samples of a subscription's stream: the period, and the frame of each tick
    ([next_id] counts them) over the view captured at connect. *)
Definition sample_period (c : CyclicSubscription) : Z := Z.max (interval_ms c) MIN_INTERVAL_MS.
Definition sample_frame (v : MedView.MergedView) (k : EntityKind) (id : string) (c : CyclicSubscription)
    (next_id : Z) : res (Z * MedView.Value) :=
  n ← bump next_id;
  match MedView.data v k id (data_path c) with
  | Ok (inl x) => Ok (n, x)
  | Ok (inr _) => Ok (n, MedView.JObject [])
  | Panic => Panic
  end.

(** ** The entity-scoped surface *)

(** What the handlers use of a store: its rows with their ids and scopes, and the
    operations, each given the entity of the path. *)
Class Registry (S T Sp : Type) := {
  rows : S → list T;
  row_id : T → string;
  row_scope : T → option string;
  r_create : S → string → Sp → res (S * T);
  r_get : S → string → option T;
  r_update : S → string → string → Sp → S * option T;
  r_remove : S → string → S * bool;
  r_list : S → string → list T;
  r_not_found : string → GenericError;
}.

#[export] Instance trigger_registry : Registry TriggerStore Trigger TriggerSpec := {|
  rows := triggers;
  row_id := t_id;
  row_scope := t_entity;
  r_create := λ s e spec, create s (MkSpec (Some e) (sp_severity spec));
  r_get := get;
  r_update := λ s id e spec, update s id (MkSpec (Some e) (sp_severity spec));
  r_remove := remove;
  r_list := list_for_entity;
  r_not_found := trigger_not_found;
|}.

#[export] Instance cyclic_registry : Registry CyclicStore CyclicSubscription CyclicSpec := {|
  rows := subscriptions;
  row_id := c_id;
  row_scope := λ c, Some (c_entity c);
  r_create := cyclic_create;
  r_get := cyclic_get;
  r_update := λ s id _ spec, cyclic_update s id spec;
  r_remove := cyclic_remove;
  r_list := cyclic_list_for_entity;
  r_not_found := subscription_not_found;
|}.

Inductive ScopedRequest (Sp : Type) :=
| QList
| QCreate (spec : Sp)
| QGet (id : string)
| QPut (id : string) (spec : Sp)
| QDelete (id : string).
Arguments QList {Sp}.
Arguments QCreate {Sp} _.
Arguments QGet {Sp} _.
Arguments QPut {Sp} _ _.
Arguments QDelete {Sp} _.

Inductive Reply (T : Type) :=
| RItems (items : list T) (total_count : Z)
| RCreated (t : T)                     (* 201 *)
| RItem (t : T)                        (* 200 *)
| RNoContent                           (* 204 *)
| RError (e : ApiError).
Arguments RItems {T} _ _.
Arguments RCreated {T} _.
Arguments RItem {T} _.
Arguments RNoContent {T}.
Arguments RError {T} _.

Section handlers.
Context {S T Sp : Type} `{Registry S T Sp}.

(** [scoped_trigger], [scoped_subscription]. *)
Definition scoped (s : S) (entity id : string) : T + ApiError :=
  match r_get s id with
  | Some t => if bool_decide (row_scope t = Some entity) then inl t else inr (ApiNotFound (r_not_found id))
  | None => inr (ApiNotFound (r_not_found id))
  end.

(** The routes under an entity. *)
Definition scoped_handle (s : S) (entity : string) (q : ScopedRequest Sp) : res (S * Reply T) :=
  match q with
  | QList => let items := r_list s entity in Ok (s, RItems items (len items))
  | QCreate spec => '(s', t) ← r_create s entity spec; Ok (s', RCreated t)
  | QGet id => match scoped s entity id with inl t => Ok (s, RItem t) | inr e => Ok (s, RError e) end
  | QPut id spec =>
      match scoped s entity id with
      | inl _ =>
          match r_update s id entity spec with
          | (s', Some t) => Ok (s', RItem t)
          | (s', None) => Ok (s', RError (ApiNotFound (r_not_found id)))
          end
      | inr e => Ok (s, RError e)
      end
  | QDelete id =>
      match scoped s entity id with
      | inl _ => Ok ((r_remove s id).1, RNoContent)
      | inr e => Ok (s, RError e)
      end
  end.

End handlers.

(** The global trigger surface. *)
Inductive GlobalRequest := GCreate (spec : TriggerSpec) | GList | GGet (id : string) | GDelete (id : string).

Definition global_handle (s : TriggerStore) (q : GlobalRequest) : res (TriggerStore * Reply Trigger) :=
  match q with
  | GCreate spec => '(s', t) ← create s spec; Ok (s', RCreated t)
  | GList => Ok (s, RItems (triggers s) (len (triggers s)))
  | GGet id => Ok (s, match get s id with Some t => RItem t | None => RError (ApiNotFound (trigger_not_found id)) end)
  | GDelete id =>
      let '(s', gone) := remove s id in
      Ok (s', if gone then RNoContent else RError (ApiNotFound (trigger_not_found id)))
  end.

(** ** What a registry promises *)

(** The laws of a registry: an invariant under which ids are unique, and each
    operation described on the rows. *)
Class RegistryLaws (S T Sp : Type) `{Registry S T Sp} := {
  r_ok : S → Prop;
  law_unique : ∀ s, r_ok s → NoDup (row_id <$> rows s);
  law_create : ∀ s e sp s' t, r_ok s → r_create s e sp = Ok (s', t) →
    r_ok s' ∧ rows s' = rows s ++ [t] ∧ row_scope t = Some e;
  law_get : ∀ s id t, r_get s id = Some t → t ∈ rows s ∧ row_id t = id;
  law_update : ∀ s id e sp t, r_ok s → r_get s id = Some t → row_scope t = Some e →
    ∃ s' t', r_update s id e sp = (s', Some t') ∧ r_ok s' ∧ row_scope t' = Some e ∧ row_id t' = id
      ∧ rows s' = (λ x, if decide (row_id x = id) then t' else x) <$> rows s;
  law_remove : ∀ s id, r_ok s → r_ok (r_remove s id).1 ∧ rows (r_remove s id).1 = filter (λ x, row_id x ≠ id) (rows s);
  law_list : ∀ s e, r_list s e = filter (λ x, row_scope x = Some e) (rows s);
}.

(** *** Rows with numbered ids *)

Section numbered.
Context {T : Type} (prefix : string) (tid : T → string).

(** Unique ids, all numbered below the counter. *)
Definition numbered_rows (n : Z) (l : list T) : Prop :=
  0 ≤ n ∧ NoDup (tid <$> l) ∧ ∀ t, t ∈ l → ∃ k, 1 ≤ k ≤ n ∧ tid t = numbered prefix k.

Lemma numbered_push n l t :
  numbered_rows n l → tid t = numbered prefix (n + 1) → numbered_rows (n + 1) (l ++ [t]).
Proof.
  intros (Hn & Hd & Hk) Ht. split; [lia|]. rewrite fmap_app. split.
  - apply NoDup_app. split; [done|]. split; [|apply NoDup_singleton].
    intros x (y & -> & Hy)%list_elem_of_fmap Hyt%list_elem_of_singleton.
    destruct (Hk y Hy) as (k & Hk1 & Hk2).
    assert (n + 1 = k) by (eapply (numbered_inj prefix); [lia|lia|congruence]). lia.
  - intros x [Hx|Hx]%elem_of_app.
    + destruct (Hk x Hx) as (k & ? & ?). exists k. split; [lia|done].
    + apply list_elem_of_singleton in Hx as ->. exists (n + 1). split; [lia|done].
Qed.

Lemma numbered_filter n l (P : T → Prop) `{∀ x, Decision (P x)} : numbered_rows n l → numbered_rows n (filter P l).
Proof.
  intros (Hn & Hd & Hk). split; [done|]. split.
  - apply (sublist_NoDup _ (tid <$> l)); [done|]. apply fmap_sublist, sublist_filter.
  - intros t (_ & Ht)%list_elem_of_filter. by apply Hk.
Qed.

(** Replacing the row found under an id. *)
Lemma find_replace n l id i t t' :
  numbered_rows n l → list_find (λ x, tid x = id) l = Some (i, t) → tid t' = tid t →
  numbered_rows n (<[i := t']> l) ∧ <[i := t']> l = (λ x, if decide (tid x = id) then t' else x) <$> l.
Proof.
  intros (Hn & Hd & Hk) (Hi & Hid & _)%list_find_Some Ht'.
  assert (Heq : <[i := t']> l = (λ x, if decide (tid x = id) then t' else x) <$> l).
  { apply list_eq. intros j. rewrite list_lookup_fmap. destruct (decide (i = j)) as [<-|Hij].
    - rewrite list_lookup_insert_eq by (by eapply lookup_lt_Some). rewrite Hi. simpl. by rewrite decide_True.
    - rewrite list_lookup_insert_ne by done. destruct (l !! j) as [x|] eqn:Ej; [|done]. simpl.
      destruct (decide (tid x = id)) as [Hx|]; [|done]. exfalso. apply Hij.
      apply (NoDup_lookup (tid <$> l) i j id Hd); rewrite list_lookup_fmap; [by rewrite Hi, <- Hid|by rewrite Ej, <- Hx]. }
  split; [|done]. split; [done|]. split.
  - rewrite list_fmap_insert, Ht', list_insert_id; [done|]. by rewrite list_lookup_fmap, Hi.
  - rewrite Heq. intros x (y & -> & Hy)%list_elem_of_fmap. destruct (decide (tid y = id)); [|by apply Hk].
    rewrite Ht'. apply Hk. by eapply list_elem_of_lookup_2.
Qed.
End numbered.

Lemma bump_Ok n m : bump n = Ok m → m = n + 1.
Proof. unfold bump. case_match; congruence. Qed.

Lemma found_row {T} (P : T → Prop) `{∀ x, Decision (P x)} l t :
  snd <$> list_find P l = Some t → ∃ i, list_find P l = Some (i, t) ∧ t ∈ l ∧ P t.
Proof.
  destruct (list_find P l) as [[i x]|] eqn:E; intros [= ->]. exists i. split; [done|].
  apply list_find_Some in E as (Hi & HP & _). split; [by eapply list_elem_of_lookup_2|done].
Qed.

#[export] Program Instance trigger_laws : RegistryLaws TriggerStore Trigger TriggerSpec := {|
  r_ok := λ s, numbered_rows "trg-" t_id (t_next s) (triggers s);
|}.
Next Obligation. by intros s (? & ? & ?). Qed.
Next Obligation.
  intros s e sp s' t Hs Hc. simpl in *. unfold create in Hc. apply res_bind_Ok in Hc as (n & Hn & Hc).
  apply bump_Ok in Hn as ->. injection Hc as <- <-. simpl. split; [|done]. by apply numbered_push.
Qed.
Next Obligation. intros s id t Ht. simpl in *. by destruct (found_row _ _ _ Ht) as (i & _ & ? & ?). Qed.
Next Obligation.
  intros s id e sp t Hs Hg Hsc. simpl in *. destruct (found_row _ _ _ Hg) as (i & Hi & _ & Hid).
  unfold update. rewrite Hi. do 2 eexists. split; [done|]. simpl.
  destruct (find_replace "trg-" t_id _ _ _ _ _ (MkTrigger (t_id t) (Some e) (sp_severity sp)) Hs Hi) as [H1 H2]; done.
Qed.
Next Obligation. intros s id Hs. simpl in *. split; [by apply numbered_filter|done]. Qed.
Next Obligation. done. Qed.

#[export] Program Instance cyclic_laws : RegistryLaws CyclicStore CyclicSubscription CyclicSpec := {|
  r_ok := λ s, numbered_rows "cyc-" c_id (c_next s) (subscriptions s);
|}.
Next Obligation. by intros s (? & ? & ?). Qed.
Next Obligation.
  intros s e sp s' t Hs Hc. simpl in *. unfold cyclic_create in Hc. apply res_bind_Ok in Hc as (n & Hn & Hc).
  apply bump_Ok in Hn as ->. injection Hc as <- <-. simpl. split; [|done]. by apply numbered_push.
Qed.
Next Obligation. intros s id t Ht. simpl in *. by destruct (found_row _ _ _ Ht) as (i & _ & ? & ?). Qed.
Next Obligation.
  intros s id e sp t Hs Hg Hsc. simpl in *. destruct (found_row _ _ _ Hg) as (i & Hi & _ & Hid).
  unfold cyclic_update. rewrite Hi. do 2 eexists. split; [done|]. simpl.
  destruct (find_replace "cyc-" c_id _ _ _ _ _ (MkSub (c_id t) (c_entity t) (cs_path sp)
    (default DEFAULT_INTERVAL_MS (cs_interval sp))) Hs Hi) as [H1 H2]; done.
Qed.
Next Obligation. intros s id Hs. simpl in *. split; [by apply numbered_filter|done]. Qed.
Next Obligation.
  intros s e. simpl. unfold cyclic_list_for_entity. apply list_filter_iff. intros x. split; congruence.
Qed.

(** ** Isolation *)

Lemma filter_fmap_outside {A} (P : A → Prop) `{∀ x, Decision (P x)} (f : A → A) (l : list A) :
  (∀ x, x ∈ l → f x = x ∨ ¬ P x ∧ ¬ P (f x)) → filter P (f <$> l) = filter P l.
Proof.
  induction l as [|x l IH]; intros Hf; [done|]. rewrite fmap_cons, !filter_cons, IH by set_solver.
  destruct (Hf x) as [-> |[H1 H2]]; [set_solver|done|]. by rewrite !decide_False.
Qed.

Lemma filter_filter_inside {A} (P Q : A → Prop) `{∀ x, Decision (P x), ∀ x, Decision (Q x)} (l : list A) :
  (∀ x, x ∈ l → P x → Q x) → filter P (filter Q l) = filter P l.
Proof.
  induction l as [|x l IH]; intros Hq; [done|]. rewrite (filter_cons Q), (filter_cons P).
  destruct (decide (Q x)) as [HQ|HQ]; [rewrite filter_cons, IH by set_solver; done|].
  rewrite IH by set_solver. rewrite decide_False; [done|]. intros HP. apply HQ, Hq; [set_solver|done].
Qed.

(** The rows a reply shows. *)
Definition shown {T} (r : Reply T) : list T :=
  match r with RItems l _ => l | RCreated t | RItem t => [t] | RNoContent | RError _ => [] end.

Section isolation.
Context {S T Sp : Type} `{RL : RegistryLaws S T Sp}.

(** A sequence of requests, each on an entity. *)
Fixpoint run (s : S) (qs : list (string * ScopedRequest Sp)) : res (S * list (Reply T)) :=
  match qs with
  | [] => Ok (s, [])
  | (e, q) :: qs' => '(s1, r) ← scoped_handle s e q; '(s2, rs) ← run s1 qs'; Ok (s2, r :: rs)
  end.

(** The rows outside an entity are untouched, and only its own rows are shown. *)
Record step_ok (s : S) (e : string) (s' : S) (r : Reply T) : Prop := {
  so_ok : r_ok s';
  so_others : ∀ e', e' ≠ e → filter (λ x, row_scope x = Some e') (rows s') = filter (λ x, row_scope x = Some e') (rows s);
  so_shown : ∀ t, t ∈ shown r → row_scope t = Some e;
}.

Lemma scoped_inl s e id t : scoped s e id = inl t → r_get s id = Some t ∧ t ∈ rows s ∧ row_id t = id ∧ row_scope t = Some e.
Proof.
  unfold scoped. destruct (r_get s id) as [x|] eqn:E; [|done]. case_bool_decide; intros [= ->].
  destruct (law_get _ _ _ E). done.
Qed.

(** A row with the id found under [e] has that scope. *)
Lemma same_id s x t e : r_ok s → x ∈ rows s → t ∈ rows s → row_id x = row_id t → row_scope t = Some e → row_scope x = Some e.
Proof.
  intros Hs Hx Ht Hid Hsc. pose proof (law_unique s Hs) as Hd.
  apply list_elem_of_lookup in Hx as [i Hi]. apply list_elem_of_lookup in Ht as [j Hj].
  assert (i = j) as -> by (apply (NoDup_lookup _ i j (row_id t) Hd); rewrite list_lookup_fmap; [by rewrite Hi, <- Hid|by rewrite Hj]).
  congruence.
Qed.

Lemma put_step s e id sp t :
  r_ok s → scoped s e id = inl t →
  ∃ s' t', r_update s id e sp = (s', Some t') ∧ step_ok s e s' (RItem t') ∧ row_id t' = id.
Proof.
  intros Hs (Hg & Hin & Hid & Hsc)%scoped_inl.
  destruct (law_update s id e sp t Hs Hg Hsc) as (s' & t' & -> & Hok & Hsc' & Hid' & Hrows).
  exists s', t'. split; [done|]. split; [|done]. split; [done| |].
  - intros e' He'. rewrite Hrows. apply filter_fmap_outside. intros x Hx.
    destruct (decide (row_id x = id)) as [Hxi|Hxi]; [|by left]. right. split; [|congruence].
    rewrite (same_id s x t e); [congruence|done|done|done|congruence|done].
  - intros x ->%list_elem_of_singleton. done.
Qed.

Lemma delete_step s e id t : r_ok s → scoped s e id = inl t → step_ok s e (r_remove s id).1 RNoContent.
Proof.
  intros Hs (Hg & Hin & Hid & Hsc)%scoped_inl. destruct (law_remove s id Hs) as [Hok Hrows].
  split; [done| |by intros ? ?%not_elem_of_nil].
  intros e' He'. rewrite Hrows. apply filter_filter_inside. intros x Hx Hs' Hxi.
  rewrite (same_id s x t e) in Hs'; [congruence|done|done|done|congruence|done].
Qed.

Lemma same_store s e (r : Reply T) : r_ok s → (∀ t, t ∈ shown r → row_scope t = Some e) → step_ok s e s r.
Proof. intros Hs Hr. by split. Qed.

Lemma scoped_step s e q s' r : r_ok s → scoped_handle s e q = Ok (s', r) → step_ok s e s' r.
Proof.
  intros Hs Hh. destruct q as [|spec|id|id spec|id]; unfold scoped_handle in Hh.
  - injection Hh as <- <-. apply same_store; [done|]. simpl. intros t Ht. rewrite law_list in Ht.
    by apply list_elem_of_filter in Ht as [? _].
  - apply res_bind_Ok in Hh as ([s1 t] & Hc & Hh). injection Hh as <- <-.
    destruct (law_create _ _ _ _ _ Hs Hc) as (Hok & Hrows & Hsc). split; [done| |by intros x ->%list_elem_of_singleton].
    intros e' He'. rewrite Hrows, filter_app, filter_cons_False, filter_nil, app_nil_r by congruence. done.
  - destruct (scoped s e id) as [t|err] eqn:E; injection Hh as <- <-; apply same_store; try done.
    + apply scoped_inl in E as (_ & _ & _ & Hsc). by intros x ->%list_elem_of_singleton.
    + by intros ? ?%not_elem_of_nil.
  - destruct (scoped s e id) as [t|err] eqn:E.
    + destruct (put_step s e id spec t Hs E) as (s1 & t1 & Hu & Hst & _). rewrite Hu in Hh. by injection Hh as <- <-.
    + injection Hh as <- <-. apply same_store; [done|]. by intros ? ?%not_elem_of_nil.
  - destruct (scoped s e id) as [t|err] eqn:E; injection Hh as <- <-; [by eapply delete_step|].
    apply same_store; [done|]. by intros ? ?%not_elem_of_nil.
Qed.

(** Entities do not see each other's triggers and subscriptions.  Whatever
    requests are served, in any order, ids stay unique, each reply shows only rows
    of the entity it was asked for, and what an entity lists is changed by no
    request on another entity. *)
Theorem entities_isolated (s : S) qs s' rs (Hs : r_ok s) (Hrun : run s qs = Ok (s', rs)) :
  NoDup (row_id <$> rows s')
  ∧ Forall2 (λ q r, ∀ t, t ∈ shown r → row_scope t = Some q.1) qs rs
  ∧ ∀ e, e ∉ qs.*1 → r_list s' e = r_list s e.
Proof.
  assert (Hok : r_ok s' ∧ Forall2 (λ q r, ∀ t, t ∈ shown r → row_scope t = Some q.1) qs rs
    ∧ ∀ e, e ∉ qs.*1 → r_list s' e = r_list s e).
  { revert s rs Hs Hrun. induction qs as [|[e q] qs IH]; intros s rs Hs Hrun; simpl in Hrun.
    - injection Hrun as <- <-. by repeat split.
    - apply res_bind_Ok in Hrun as ([s1 r] & Hh & Hrun). apply res_bind_Ok in Hrun as ([s2 rs'] & Hrun & Hr).
      injection Hr as <- <-. destruct (scoped_step _ _ _ _ _ Hs Hh) as [Hok Hoth Hsh].
      destruct (IH s1 rs' Hok Hrun) as (H1 & H2 & H3). split; [done|]. split; [by constructor|].
      intros e' He'. simpl in He'. apply not_elem_of_cons in He' as [Hne He']. rewrite H3 by done.
      rewrite !law_list. by apply Hoth. }
  destruct Hok as (H1 & H2 & H3). split; [by apply law_unique|]. done.
Qed.

End isolation.

(** Two entities, three requests. *)
Lemma entities_isolated_witness :
  ∃ s' rs, run (S := TriggerStore) trigger_store_default
      [("a", QCreate (MkSpec None None)); ("b", QCreate (MkSpec (Some "a") (Some 2))); ("b", QDelete "trg-1")] = Ok (s', rs)
    ∧ NoDup (t_id <$> triggers s').
Proof.
  eexists _, _. split; [vm_compute; reflexivity|].
  eapply (entities_isolated (RL := trigger_laws) trigger_store_default
    [("a", QCreate (MkSpec None None)); ("b", QCreate (MkSpec (Some "a") (Some 2))); ("b", QDelete "trg-1")]);
    [|vm_compute; reflexivity].
  split; [done|]. split; [apply NoDup_nil_2|]. by intros t ?%not_elem_of_nil.
Defined.

End MedStore.
