(* ===== verification/MedEvents.v ===== *)
(** * Change events of the diagnostic gateway

    Models the rest of [taktora-medkit-gateway-axum/src/triggers.rs]: the diff of
    two views ([fault_index], [diff_events]), the refresh loop that publishes it,
    the ring of recent events, and the stream a client is served ([build_sse]).
    The broadcast channel is the tokio package's: what a receiver yields is an
    argument, and the theorems say which of its documented behaviours they use. *)

From stdpp Require Import base gmap list sorting strings.
From Stdlib Require Import ZArith Lia.
From S2P Require Import Prelude MedModel MedTime MedView MedStore.

Module MedEvents.
Import MedModel MedView.

Definition REPLAY_RING : nat := 100.

Record StreamEvent := MkStream { ev_id : Z; ev : FaultEvent }.

(** ** Views as faults by entity *)

Abbreviation FaultsByCode := (gmap string FaultSummary).
Abbreviation FaultIndex := (gmap string (EntityKind * FaultsByCode)).

Definition by_code (fs : list FaultSummary) : FaultsByCode :=
  foldl (λ m f, <[fault_code f := f]> m) ∅ fs.

(** The entry of one entity, if it has a fault. *)
Definition index_entity (v : MergedView) (k : EntityKind) (index : FaultIndex) (e : Entity) : res FaultIndex :=
  match entity_faults v k (e_id e) All with
  | Ok (inl l) =>
      if bool_decide (f_items l = []) then Ok index else Ok (<[e_id e := (k, by_code (f_items l))]> index)
  | Ok (inr _) => Ok index
  | Panic => Panic
  end.

Fixpoint foldM {A B} (f : B → A → res B) (b : B) (l : list A) : res B :=
  match l with [] => Ok b | a :: l' => b' ← f b a; foldM f b' l' end.

Definition fault_index (v : MergedView) : res FaultIndex :=
  foldM (λ index k, foldM (index_entity v k) index (c_items (list_ v k))) ∅ [Area; Component; Function_; App].

(** [Iterator::max], [max_by_key]: the last of the greatest. *)
Definition health_of (faults : option FaultsByCode) : Health :=
  match omap (λ f, severity_to_health <$> from_wire_value (severity f.2)) (entries (default ∅ faults)) with
  | [] => HOk
  | h :: hs => foldl health_max h hs
  end.

Definition worst_fault (faults : option FaultsByCode) : option FaultSummary :=
  match snd <$> entries (default ∅ faults) with
  | [] => None
  | f :: fs => Some (foldl (λ a b, if severity a <=? severity b then b else a) f fs)
  end.

(** ** The diff *)

(** The events so far and the counter. *)
Abbreviation Out := (list StreamEvent * Z)%type.

Definition make_event (event_type : string) (k : EntityKind) (id : string) (f : FaultSummary) (seq : Z)
    : StreamEvent * Z :=
  (MkStream seq (MkEvent event_type f (last_occurred f) (MkMeta id (collection_segment k))), wrap 64 (seq + 1)).

Definition push_event (event_type : string) (k : EntityKind) (id : string) (f : FaultSummary) (out : Out) : Out :=
  let '(e, seq) := make_event event_type k id f out.2 in (out.1 ++ [e], seq).

(** [is_some_and(|m| m.contains_key(code))]. *)
Definition contains_code (faults : option FaultsByCode) (code : string) : bool :=
  from_option (λ m : FaultsByCode, bool_decide (is_Some (m !! code))) false faults.

(** The faults of [now] that [other] lacks, entity by entity: both loops over
    codes have this body. *)
Definition push_missing (event_type : string) (now other : FaultIndex) (out : Out) : Out :=
  foldl (λ out '(id, (k, faults)),
      let others := snd <$> other !! id in
      foldl (λ out '(code, f),
          if contains_code others code then out
          else push_event event_type k id f out)
        out (entries faults))
    out (entries now).

(** The entities of either index, in order. *)
Definition all_ids (a b : FaultIndex) : list string := fst <$> entries (((λ _, tt) <$> a) ∪ ((λ _, tt) <$> b)).

Definition push_health (prev next : FaultIndex) (out : Out) (id : string) : Out :=
  let prev_faults := snd <$> prev !! id in
  let next_faults := snd <$> next !! id in
  if bool_decide (health_of prev_faults = health_of next_faults) then out
  else
    match next !! id ∪ prev !! id with
    | Some (k, _) =>
        match worst_fault next_faults ∪ worst_fault prev_faults with
        | Some f => push_event "health_changed" k id f out
        | None => out
        end
    | None => out
    end.

Definition diff_indexes (prev next : FaultIndex) (seq : Z) : Out :=
  let out := push_missing "fault_raised" next prev ([], seq) in
  let out := push_missing "fault_cleared" prev next out in
  foldl (push_health prev next) out (all_ids prev next).

Definition diff_events (prev next : MergedView) (seq : Z) : res Out :=
  p ← fault_index prev; n ← fault_index next; Ok (diff_indexes p n seq).

(** ** Publishing *)

Definition retain (ring : list StreamEvent) (e : StreamEvent) : list StreamEvent :=
  (if bool_decide (length ring = REPLAY_RING) then tail ring else ring) ++ [e].

(** The refresh loop's own state, the ring it shares and what it has sent. *)
Record Refresh := MkRefresh {
  seq : Z;
  prev : MergedView;               (* also the view served after an iteration *)
  ring : list StreamEvent;
  sent : list StreamEvent;
}.

Definition refresh_init (initial : MergedView) : Refresh := MkRefresh 1 initial [] [].

(** One iteration, on the snapshot the provider returned. *)
Definition refresh (m : option Manifest) (r : Refresh) (s : ProviderSnapshot) : res Refresh :=
  next ← from_snapshot_with_manifest s m;
  '(events, seq') ← diff_events (prev r) next (seq r);
  let '(ring', sent') := foldl (λ '(rg, st) e, (retain rg e, st ++ [e])) (ring r, sent r) events in
  Ok (MkRefresh seq' next ring' sent').

Definition refresh_loop (m : option Manifest) (r : Refresh) (polls : list ProviderSnapshot) : res Refresh :=
  foldM (refresh m) r polls.

(** ** The stream of a client *)

(** [last_event_id], given the header's value parsed as a number. *)
Definition last_event_id (header : option (option Z)) : option Z := mjoin header.

Definition replay (ring : list StreamEvent) (floor : Z) (pass : FaultEvent → bool) : list StreamEvent :=
  filter (λ e, floor < ev_id e ∧ pass (ev e) = true) ring.

Definition max_replayed (replayed : list StreamEvent) (floor : Z) : Z :=
  match replayed with
  | [] => floor
  | e :: l => foldl (λ m x, Z.max m (ev_id x)) (ev_id e) l
  end.

(** What the receiver yields: an event, or that it lagged; each with the filter as
    it stands when the item is processed. *)
Abbreviation Received := (list ((FaultEvent → bool) * (StreamEvent + Z))).

Definition live (mr : Z) (results : Received) : list StreamEvent :=
  omap (λ '(pass, r), match r with
             | inl e => if bool_decide (mr < ev_id e) && pass (ev e) then Some e else None
             | inr _ => None
             end) results.

Definition build_sse (ring_now : list StreamEvent) (floor : Z) (pass : FaultEvent → bool) (results : Received)
    : list StreamEvent :=
  let replayed := replay ring_now floor pass in
  replayed ++ live (max_replayed replayed floor) results.

(** The three endpoints.  The first reads the trigger store for each item. *)
Definition events_stream (store : MedStore.TriggerStore) (ring_now : list StreamEvent) (header : option (option Z))
    (results : list (MedStore.TriggerStore * (StreamEvent + Z))) : list StreamEvent :=
  build_sse ring_now (default 0 (last_event_id header)) (MedStore.any_matches store)
    ((λ '(st, r), (MedStore.any_matches st, r)) <$> results).
Definition faults_stream (ring_now : list StreamEvent) (header : option (option Z)) (results : list (StreamEvent + Z))
    : list StreamEvent :=
  build_sse ring_now (default 0 (last_event_id header)) (λ _, true) ((λ r, (λ _, true, r)) <$> results).
Definition trigger_stream (t : MedStore.Trigger) (ring_now : list StreamEvent) (header : option (option Z))
    (results : list (StreamEvent + Z)) : list StreamEvent :=
  build_sse ring_now (default 0 (last_event_id header)) (MedStore.matches t) ((λ r, (MedStore.matches t, r)) <$> results).

(** ** Publishing and connecting, interleaved

    The loop retains an event under the ring's mutex and then sends it; a client
    subscribes and then reads the ring under its mutex. *)

Inductive Client :=
| CIdle
| CSubscribed (pos : nat)                                  (* events sent before *)
| CStreaming (pos retained : nat) (ring_now : list StreamEvent).

Record Hub := MkHub {
  h_ring : list StreamEvent;
  h_sent : list StreamEvent;
  in_hand : option StreamEvent;    (* retained, not yet sent *)
  client : Client;
}.
Definition hub_init : Hub := MkHub [] [] None CIdle.

(** Everything retained so far. *)
Definition published (h : Hub) : list StreamEvent := h_sent h ++ option_list (in_hand h).

Inductive hub_step : Hub → Hub → Prop :=
| HRetain h e : in_hand h = None → ev_id e = len (h_sent h) + 1 →
    hub_step h (MkHub (retain (h_ring h) e) (h_sent h) (Some e) (client h))
| HSend h e : in_hand h = Some e →
    hub_step h (MkHub (h_ring h) (h_sent h ++ [e]) None (client h))
| HSubscribe h : client h = CIdle →
    hub_step h (MkHub (h_ring h) (h_sent h) (in_hand h) (CSubscribed (length (h_sent h))))
| HSnapshot h pos : client h = CSubscribed pos →
    hub_step h (MkHub (h_ring h) (h_sent h) (in_hand h) (CStreaming pos (length (published h)) (h_ring h))).

End MedEvents.
