(* ===== verification/MedEventsOk.v ===== *)
(** * Change events: the diff, the stream and the hand-off

    The events of a diff are exactly the differences of two views, a client that
    follows the stream knows the reported faults, and a client that connects is
    given each event once, from the ring or from the broadcast. *)

From stdpp Require Import base gmap list sorting strings relations.
From Stdlib Require Import ZArith Lia.
From S2P Require Import Prelude MedModel MedTime MedView MedViewOk MedStore MedEvents.

Module MedEventsOk.
Import MedModel MedView MedViewOk MedEvents.

(** ** The hand-off *)

(** The ring holds the last hundred events retained. *)
Definition window (l : list StreamEvent) : list StreamEvent := drop (length l - REPLAY_RING) l.

Lemma retain_window l e : retain (window l) e = window (l ++ [e]).
Proof.
  unfold retain, window. rewrite length_drop, length_app. simpl length.
  case_bool_decide as Hl; unfold REPLAY_RING in *.
  - assert (Ht : ∀ k : list StreamEvent, tail k = drop 1 k) by (by intros []).
    rewrite Ht, drop_drop. rewrite drop_app_le by lia. do 2 f_equal. lia.
  - replace (length l - 100)%nat with 0%nat by lia. replace (length l + 1 - 100)%nat with 0%nat by lia. done.
Qed.

(** Events are numbered by their place. *)
Definition numbered_events (l : list StreamEvent) : Prop := ∀ i e, l !! i = Some e → ev_id e = Z.of_nat i + 1.

Definition client_ok (h : Hub) : Prop :=
  match client h with
  | CIdle => True
  | CSubscribed pos => (pos ≤ length (h_sent h))%nat
  | CStreaming pos b rn => (pos ≤ b ≤ length (published h))%nat ∧ rn = window (take b (published h))
  end.

Record hub_ok (h : Hub) : Prop := {
  ho_ids : numbered_events (published h);
  ho_ring : h_ring h = window (published h);
  ho_client : client_ok h;
}.

Lemma hub_ok_init : hub_ok hub_init.
Proof. by split. Qed.

Lemma client_grow h pub :
  client_ok h → h_sent h `prefix_of` published h →
  ∀ h', client h' = client h → published h' = published h ++ pub → (length (h_sent h) ≤ length (h_sent h'))%nat → client_ok h'.
Proof.
  intros Hc _ h' Ec Ep Hs. unfold client_ok in *. rewrite Ec. destruct (client h) as [|pos|pos b rn]; [done|lia|].
  rewrite Ep, length_app. destruct Hc as [Hb ->]. split; [lia|]. by rewrite take_app_le by lia.
Qed.

Lemma hub_step_ok h h' : hub_ok h → hub_step h h' → hub_ok h'.
Proof.
  intros [Hi Hr Hc] Hst.
  assert (Hpre : h_sent h `prefix_of` published h) by apply prefix_app_r, reflexivity.
  destruct Hst as [h e Hh Hid|h e Hh|h Hcl|h pos Hcl].
  - assert (Hp : published h = h_sent h) by (unfold published; by rewrite Hh, app_nil_r).
    assert (Hp' : published (MkHub (retain (h_ring h) e) (h_sent h) (Some e) (client h)) = published h ++ [e])
      by (rewrite Hp; done).
    split.
    + rewrite Hp'. intros i x Hx. apply lookup_app_Some in Hx as [Hx|[Hl Hx]]; [by apply Hi|].
      apply list_lookup_singleton_Some in Hx as [? <-]. rewrite Hid, Hp in *. unfold len. lia.
    + simpl. by rewrite Hp', Hr, retain_window.
    + eapply client_grow; [exact Hc|done|done|exact Hp'|done].
  - assert (Hp' : published (MkHub (h_ring h) (h_sent h ++ [e]) None (client h)) = published h)
      by (unfold published; rewrite Hh; simpl; by rewrite app_nil_r).
    split; rewrite ?Hp'; [done|done|].
    eapply (client_grow h []); [exact Hc|done|done|by rewrite Hp', app_nil_r|simpl; rewrite length_app; lia].
  - split; [done|done|]. unfold client_ok. simpl. done.
  - split; [done|done|]. unfold client_ok in *. simpl. rewrite Hcl in Hc.
    assert (length (h_sent h) ≤ length (published h))%nat by (by apply prefix_length).
    split; [unfold published in *; simpl in *; lia|]. unfold published in *. simpl. rewrite take_ge by done. done.
Qed.

Lemma hub_reachable h : rtc hub_step hub_init h → hub_ok h.
Proof. apply (rtc_ind_r (λ h, hub_ok h) hub_init); [apply hub_ok_init|eauto using hub_step_ok]. Qed.

(** The events a client with a floor and a filter is due. *)
Definition due (floor : Z) (pass : FaultEvent → bool) (l : list StreamEvent) : list StreamEvent :=
  filter (λ e, floor < ev_id e ∧ pass (ev e) = true) l.

(** The events among what the receiver yields, in order. *)
Definition events_of (got : list (StreamEvent + Z)) : list StreamEvent :=
  omap (λ r, match r with inl e => Some e | inr _ => None end) got.

Lemma live_due mr pass got : live mr ((λ r, (pass, r)) <$> got) = due mr pass (events_of got).
Proof.
  induction got as [|[e|n] got IH]; [done| |exact IH].
  change (events_of (inl e :: got)) with (e :: events_of got). unfold due in *. rewrite filter_cons, <- IH.
  change (live mr ((λ r, (pass, r)) <$> inl e :: got)) with
    (match (if bool_decide (mr < ev_id e) && pass (ev e) then Some e else None) with
     | Some y => y :: live mr ((λ r, (pass, r)) <$> got) | None => live mr ((λ r, (pass, r)) <$> got) end).
  case_bool_decide as Hm; simpl.
  - destruct (pass (ev e)) eqn:Ep; [by rewrite decide_True|]. rewrite decide_False; [done|]. intros [_ ?]. done.
  - rewrite decide_False; [done|]. by intros [? _].
Qed.

Lemma fold_max_ge l m : m ≤ foldl (λ m (x : StreamEvent), Z.max m (ev_id x)) m l
  ∧ ∀ e, e ∈ l → ev_id e ≤ foldl (λ m (x : StreamEvent), Z.max m (ev_id x)) m l.
Proof.
  revert m. induction l as [|x l IH]; intros m; simpl; [split; [lia|by intros e ?%not_elem_of_nil]|].
  destruct (IH (Z.max m (ev_id x))) as [H1 H2]. split; [lia|]. intros e [-> |He]%elem_of_cons; [lia|by apply H2].
Qed.

Lemma fold_max_elem l m : foldl (λ m (x : StreamEvent), Z.max m (ev_id x)) m l = m
  ∨ ∃ e, e ∈ l ∧ foldl (λ m (x : StreamEvent), Z.max m (ev_id x)) m l = ev_id e.
Proof.
  revert m. induction l as [|x l IH]; intros m; simpl; [by left|].
  destruct (IH (Z.max m (ev_id x))) as [-> |(e & He & ->)]; [|right; exists e; set_solver].
  destruct (Z.max_spec m (ev_id x)) as [[_ ->]|[_ ->]]; [right; exists x; set_solver|by left].
Qed.

(** The last replayed id: at least the floor and every replayed id, and one of
    these. *)
Lemma max_replayed_spec floor pass ring :
  let l := due floor pass ring in
  (∀ e, e ∈ l → ev_id e ≤ max_replayed l floor)
  ∧ (max_replayed l floor = floor ∨ ∃ e, e ∈ l ∧ floor < ev_id e ∧ max_replayed l floor = ev_id e).
Proof.
  simpl. assert (Hfl : ∀ e, e ∈ due floor pass ring → floor < ev_id e) by (intros e [[? _] _]%list_elem_of_filter; done).
  destruct (due floor pass ring) as [|x l]; simpl; [split; [by intros e ?%not_elem_of_nil|by left]|].
  destruct (fold_max_ge l (ev_id x)) as [Hx Hl]. split.
  - intros e [-> |He]%elem_of_cons; [done|by apply Hl].
  - right. destruct (fold_max_elem l (ev_id x)) as [-> |(e & He & ->)].
    + exists x. split; [set_solver|]. split; [apply Hfl; set_solver|done].
    + exists e. split; [set_solver|]. split; [apply Hfl; set_solver|done].
Qed.

Lemma due_ext f g pass l : (∀ e, e ∈ l → f < ev_id e ↔ g < ev_id e) → due f pass l = due g pass l.
Proof.
  unfold due. induction l as [|e l IH]; intros H; [done|]. rewrite !filter_cons, IH by set_solver.
  assert (He : f < ev_id e ↔ g < ev_id e) by (apply H; set_solver). repeat case_decide; try done; tauto.
Qed.

Lemma due_app f pass l k : due f pass (l ++ k) = due f pass l ++ due f pass k.
Proof. apply filter_app. Qed.

Lemma due_nil f pass l : (∀ e, e ∈ l → f < ev_id e → pass (ev e) = true → False) → due f pass l = [].
Proof.
  unfold due. induction l as [|e l IH]; intros H; [done|]. rewrite filter_cons, IH by set_solver.
  rewrite decide_False; [done|]. intros [? ?]. apply (H e); [set_solver|done..].
Qed.

(** Replay and live part meet without gap or overlap. *)
Lemma handoff l pos b floor pass :
  numbered_events l → (pos ≤ b ≤ length l)%nat → Z.of_nat b - 100 ≤ Z.max floor (Z.of_nat pos) →
  let rep := due floor pass (window (take b l)) in
  due (max_replayed rep floor) pass (drop pos l) = due floor pass (drop b l).
Proof.
  intros Hn Hb Hgap rep. destruct (max_replayed_spec floor pass (window (take b l))) as [Hmax Hel]. fold rep in Hmax, Hel.
  set (mr := max_replayed rep floor) in *.
  assert (Hmr : floor ≤ mr) by (destruct Hel as [-> |(e & _ & ? & ->)]; lia).
  assert (Hmb : mr = floor ∨ floor < Z.of_nat b ∧ mr ≤ Z.of_nat b).
  { destruct Hel as [-> |(e & He & Hf & ->)]; [by left|right]. apply list_elem_of_filter in He as [_ He].
    apply list_elem_of_lookup in He as [i Hi]. unfold window in Hi. rewrite lookup_drop in Hi.
    apply lookup_take_Some in Hi as [Hi Hlt]. apply Hn in Hi. lia. }
  replace (drop pos l) with (take (b - pos) (drop pos l) ++ drop b l)
    by (rewrite <- (take_drop (b - pos) (drop pos l)) at 2; rewrite drop_drop; do 2 f_equal; lia).
  rewrite due_app.
  rewrite (due_nil mr), (due_ext mr floor); [done| |].
  - intros e He. apply list_elem_of_lookup in He as [i Hi]. rewrite lookup_drop in Hi. apply Hn in Hi. lia.
  - intros e He Hid Hp. apply list_elem_of_lookup in He as [i Hi]. apply lookup_take_Some in Hi as [Hi Hlt].
    rewrite lookup_drop in Hi. pose proof (Hn _ _ Hi) as Hide.
    destruct (decide (b - REPLAY_RING ≤ pos + i)%nat) as [Hin|Hout]; unfold REPLAY_RING in *; [|lia].
    assert (e ∈ rep) as Hrep; [|apply Hmax in Hrep; lia].
    apply list_elem_of_filter. split; [split; [lia|done]|]. unfold window, REPLAY_RING. rewrite length_take_le by lia.
    apply (list_elem_of_lookup_2 _ (pos + i - (b - 100))). rewrite lookup_drop. apply lookup_take_Some.
    split; [|lia]. replace (b - 100 + (pos + i - (b - 100)))%nat with (pos + i)%nat by lia. done.
Qed.

Lemma due_sublist f pass l k : l `sublist_of` k → due f pass l `sublist_of` due f pass k.
Proof.
  unfold due. induction 1 as [|x l k _ IH|x l k _ IH]; [done| |]; rewrite !filter_cons; case_decide; try done.
  - by constructor.
  - by constructor.
Qed.

(** C36. Replay and live delivery meet without gap or duplicate.  However the
    publishing loop and the connecting client interleave, a client whose floor or
    whose subscription is at most a hundred events behind the ring it read is
    delivered exactly the events it is due that are not older than that ring, each
    once and in order; if the receiver lags, what it is delivered is still in order
    and without duplicates. *)
Theorem handoff_exact (h : Hub) pos b rn floor pass
    (Hreach : rtc hub_step hub_init h) (Hcl : client h = CStreaming pos b rn) (Hidle : in_hand h = None)
    (Hgap : Z.of_nat b - 100 ≤ Z.max floor (Z.of_nat pos)) (got : list (StreamEvent + Z))
    (Hgot : events_of got `sublist_of` drop pos (h_sent h)) :
  let delivered := build_sse rn floor pass ((λ r, (pass, r)) <$> got) in
  let expected := due floor pass (drop (b - REPLAY_RING) (h_sent h)) in
  (events_of got = drop pos (h_sent h) → delivered = expected) ∧ delivered `sublist_of` expected
  ∧ NoDup (ev_id <$> expected).
Proof.
  destruct (hub_reachable h Hreach) as [Hids Hr Hc]. unfold client_ok in Hc. rewrite Hcl in Hc.
  assert (Hp : published h = h_sent h) by (unfold published; by rewrite Hidle, app_nil_r). rewrite Hp in *.
  destruct Hc as [Hb ->]. set (l := h_sent h) in *.
  pose proof (handoff l pos b floor pass Hids Hb Hgap) as Hho. simpl in Hho.
  assert (Hsplit : drop (b - REPLAY_RING) l = window (take b l) ++ drop b l).
  { unfold window. rewrite length_take_le by lia. rewrite <- (take_drop b l) at 1. rewrite drop_app_le; [done|].
    rewrite length_take_le; lia. }
  unfold build_sse. change (replay (window (take b l)) floor pass) with (due floor pass (window (take b l))). rewrite live_due. simpl. rewrite Hsplit.
  rewrite due_app, <- Hho.
  split_and!.
  - by intros ->.
  - apply sublist_app; [done|]. by apply due_sublist.
  - rewrite Hho, <- due_app, <- Hsplit.
    apply (sublist_NoDup _ (ev_id <$> l)).
    + apply NoDup_alt. intros i j x Hi Hj. rewrite list_lookup_fmap in Hi, Hj.
      destruct (l !! i) as [e1|] eqn:E1; [|done]. destruct (l !! j) as [e2|] eqn:E2; [|done].
      apply Hids in E1, E2. simplify_eq/=. lia.
    + apply fmap_sublist. etrans; [apply sublist_filter|]. apply sublist_drop.
Qed.

Definition example_event (n : Z) : StreamEvent :=
  MkStream n (MkEvent "fault_raised" (MkFault "" "BRAKE" 0 0 1 [] 2 "ERROR" "CONFIRMED") 0 (MkMeta "app:t" "apps")).
Definition example_hub : Hub :=
  MkHub [example_event 1; example_event 2] [example_event 1; example_event 2] None
    (CStreaming 1 2 [example_event 1; example_event 2]).

(** A second event is retained between the client's two steps. *)
Lemma handoff_exact_witness :
  build_sse [example_event 1; example_event 2] 0 (λ _, true) ((λ r, (λ _, true, r)) <$> [inl (example_event 2)])
  = [example_event 1; example_event 2].
Proof.
  destruct (handoff_exact example_hub 1 2 [example_event 1; example_event 2] 0 (λ _, true)) with (got := [inl (example_event 2) : StreamEvent + Z]) as [H _].
  - eapply rtc_l; [apply (HRetain hub_init (example_event 1)); reflexivity|].
    eapply rtc_l; [eapply HSend; reflexivity|]. eapply rtc_l; [apply HSubscribe; reflexivity|].
    eapply rtc_l; [eapply (HRetain _ (example_event 2)); reflexivity|].
    eapply rtc_l; [eapply HSnapshot; reflexivity|]. eapply rtc_l; [eapply HSend; reflexivity|].
    apply rtc_refl.
  - reflexivity.
  - reflexivity.
  - simpl; lia.
  - reflexivity.
  - apply H. reflexivity.
Defined.

(** A client that resumes above every id, as after the counter restarted, is
    delivered nothing. *)
Lemma stale_floor_silences l floor pass got :
  (∀ e, e ∈ l ++ events_of got → ev_id e ≤ floor) → build_sse l floor pass ((λ r, (pass, r)) <$> got) = [].
Proof.
  intros H. unfold build_sse. change (replay l floor pass) with (due floor pass l). rewrite live_due, (due_nil floor pass l).
  - simpl. apply due_nil. intros e He Hf _. assert (ev_id e ≤ floor) by (apply H; set_solver). lia.
  - intros e He Hf _. assert (ev_id e ≤ floor) by (apply H; set_solver). lia.
Qed.

(** More than a hundred events between the two steps leave a gap: the first two of
    these reach neither the ring nor the stream. *)
Example overfull_gap :
  let l := example_event <$> seqZ 1 102 in
  ev_id <$> build_sse (window l) 0 (λ _, true) ((λ r, (λ _, true, r)) <$> (inl <$> l)) = seqZ 3 100.
Proof. vm_compute. reflexivity. Qed.

End MedEventsOk.
