(* ===== verification/MedDiffOk.v ===== *)
(** * Change events: what a diff says

    The events of a diff are numbered consecutively and announce exactly the
    differences of two views, so a client that follows the stream knows the
    reported faults of the view served last. *)

From stdpp Require Import base gmap list sorting strings.
From Stdlib Require Import ZArith Lia.
From S2P Require Import Prelude MedModel MedTime MedView MedViewOk MedStore MedEvents MedEventsOk.

Module MedDiffOk.
Import MedModel MedView MedViewOk MedEvents MedEventsOk.

(** ** A diff as a list of changes *)

Abbreviation Change := (string * EntityKind * string * FaultSummary)%type.

Definition payload (c : Change) : FaultEvent :=
  let '(ty, k, id, f) := c in MkEvent ty f (last_occurred f) (MkMeta id (collection_segment k)).

Definition emit (out : Out) (l : list Change) : Out :=
  foldl (λ o (c : Change), push_event c.1.1.1 c.1.1.2 c.1.2 c.2 o) out l.

Lemma emit_app out l k : emit out (l ++ k) = emit (emit out l) k.
Proof. apply foldl_app. Qed.

Lemma emit_events out l : ev <$> (emit out l).1 = (ev <$> out.1) ++ (payload <$> l).
Proof.
  revert out. induction l as [|[[[ty k] id] f] l IH]; intros out; simpl; [by rewrite app_nil_r|].
  rewrite IH. simpl. rewrite fmap_app, <- app_assoc. done.
Qed.

Lemma emit_ids es s l :
  0 ≤ s → s + len l < 2 ^ 64 →
  ev_id <$> (emit (es, s) l).1 = (ev_id <$> es) ++ seqZ s (len l) ∧ (emit (es, s) l).2 = s + len l.
Proof.
  revert es s. induction l as [|c l IH]; intros es s Hs Hl; [simpl; rewrite app_nil_r; unfold len; simpl; split; [done|lia]|].
  replace (len (c :: l)) with (Z.succ (len l)) in * by (unfold len; simpl; lia). pose proof (len_nonneg l).
  change (emit (es, s) (c :: l)) with (emit (push_event c.1.1.1 c.1.1.2 c.1.2 c.2 (es, s)) l).
  unfold push_event, make_event. simpl. rewrite wrap_small by lia.
  destruct (IH (es ++ [MkStream s (MkEvent c.1.1.1 c.2 (last_occurred c.2) (MkMeta c.1.2 (collection_segment c.1.1.2)))]) (s + 1)) as [H1 H2];
    [lia|lia|]. rewrite H1, H2. split; [|lia].
  rewrite fmap_app, <- app_assoc. simpl. rewrite (seqZ_cons s) by lia. by rewrite Z.pred_succ, Z.add_1_r.
Qed.

(** ** Faults of an index *)

Definition has (i : FaultIndex) (id code : string) : bool :=
  contains_code (snd <$> i !! id) code.

Lemma has_spec i id code : has i id code = true ↔ ∃ k m f, i !! id = Some (k, m) ∧ m !! code = Some f.
Proof.
  unfold has, contains_code. destruct (i !! id) as [[k m]|]; simpl; [|naive_solver]. rewrite bool_decide_eq_true. split.
  - intros [f Hf]. eauto.
  - intros (? & ? & f & [= <- <-] & Hf). eauto.
Qed.

(** Faults are filed under their code. *)
Definition coded (i : FaultIndex) : Prop :=
  ∀ id k m code f, i !! id = Some (k, m) → m !! code = Some f → fault_code f = code.

(** The faults of one index that the other lacks, as changes. *)
Definition missing (ty : string) (now other : FaultIndex) : list Change :=
  entries now ≫= λ x, (λ y, (ty, x.2.1, x.1, y.2)) <$> filter (λ y, has other x.1 y.1 = false) (entries x.2.2).

Lemma push_missing_emit ty now other out : push_missing ty now other out = emit out (missing ty now other).
Proof.
  unfold push_missing, missing. generalize (entries now) as l. intros l. revert out.
  induction l as [|[id [k faults]] l IH]; intros out; [done|]. simpl. rewrite emit_app, IH. f_equal.
  generalize (entries faults) as fs. intros fs. clear IH. revert out. induction fs as [|[code f] fs IH]; intros out; [done|].
  rewrite filter_cons. simpl. change (contains_code _ code) with (has other id code).
  destruct (has other id code) eqn:E; [rewrite decide_False by done|rewrite decide_True by done]; apply IH.
Qed.

Lemma elem_of_missing ty now other c :
  c ∈ missing ty now other ↔
  ∃ k id m code f, c = (ty, k, id, f) ∧ now !! id = Some (k, m) ∧ m !! code = Some f ∧ has other id code = false.
Proof.
  unfold missing. rewrite list_elem_of_bind. split.
  - intros ([id [k m]] & Hc & Hin). apply elem_of_entries in Hin. apply list_elem_of_fmap in Hc as ([code f] & -> & Hf).
    apply list_elem_of_filter in Hf as [Hh Hf]. apply elem_of_entries in Hf. by exists k, id, m, code, f.
  - intros (k & id & m & code & f & -> & Hn & Hm & Hh). exists (id, (k, m)). split; [|by apply elem_of_entries].
    apply list_elem_of_fmap. exists (code, f). split; [done|]. apply list_elem_of_filter. split; [done|]. by apply elem_of_entries.
Qed.

(** Entity and code of a change. *)
Definition place (c : Change) : string * string := (c.1.2, fault_code c.2).

Lemma missing_places ty now other id code :
  coded now → (id, code) ∈ (place <$> missing ty now other) ↔ has now id code = true ∧ has other id code = false.
Proof.
  intros Hc. rewrite list_elem_of_fmap, has_spec. split.
  - intros (c & Heq & (k & id' & m & code' & f & -> & Hn & Hm & Hh)%elem_of_missing).
    unfold place in Heq. simpl in Heq. injection Heq as -> ->. rewrite (Hc _ _ _ _ _ Hn Hm). eauto 10.
  - intros [(k & m & f & Hn & Hm) Hh]. exists (ty, k, id, f). split; [by rewrite <- (Hc _ _ _ _ _ Hn Hm)|].
    apply elem_of_missing. by exists k, id, m, code, f.
Qed.

Lemma fmap_bind {A B C} (f : B → C) (g : A → list B) (l : list A) : f <$> (l ≫= g) = l ≫= (λ x, f <$> g x).
Proof. induction l as [|x l IH]; [done|]. csimpl. by rewrite fmap_app, IH. Qed.

Lemma entries_NoDup {V} (m : gmap string V) : NoDup (entries m).
Proof. rewrite entries_perm. apply NoDup_map_to_list. Qed.

Lemma missing_NoDup ty now other : coded now → NoDup (place <$> missing ty now other).
Proof.
  intros Hc. unfold missing. rewrite fmap_bind. apply NoDup_bind; [| |apply entries_NoDup].
  - intros [id1 x1] [id2 x2] y H1 H2 Hy1 Hy2. apply elem_of_entries in H1, H2.
    rewrite <- list_fmap_compose in Hy1, Hy2. apply list_elem_of_fmap in Hy1 as (y1 & -> & _), Hy2 as (y2 & Heq & _).
    unfold place in Heq. simpl in Heq. congruence.
  - intros [id [k m]] Hin. apply elem_of_entries in Hin. rewrite <- list_fmap_compose.
    apply NoDup_fmap_2_strong; [|apply NoDup_filter, entries_NoDup].
    intros [c1 f1] [c2 f2] [_ H1]%list_elem_of_filter [_ H2]%list_elem_of_filter Heq.
    apply elem_of_entries in H1, H2. unfold place in Heq. simpl in Heq. injection Heq as Heq.
    assert (c1 = c2) as -> by (rewrite <- (Hc _ _ _ _ _ Hin H1), <- (Hc _ _ _ _ _ Hin H2); done). congruence.
Qed.

(** ** Health *)

Definition health_at (i : FaultIndex) (id : string) : Health := health_of (snd <$> i !! id).

Definition health_change (prev next : FaultIndex) (id : string) : option Change :=
  if bool_decide (health_at prev id = health_at next id) then None
  else
    x ← next !! id ∪ prev !! id;
    f ← worst_fault (snd <$> next !! id) ∪ worst_fault (snd <$> prev !! id);
    Some ("health_changed", x.1, id, f).

Lemma push_health_emit prev next out id : push_health prev next out id = emit out (option_list (health_change prev next id)).
Proof.
  unfold push_health, health_change, health_at. case_bool_decide; [done|].
  destruct (next !! id ∪ prev !! id) as [[k m]|]; [|done]. simpl.
  by destruct (worst_fault _ ∪ worst_fault _).
Qed.

Lemma health_of_none m : worst_fault m = None → health_of m = HOk.
Proof.
  unfold worst_fault, health_of. by destruct (entries (default ∅ m)) as [|[c f] l].
Qed.

Lemma union_Some {A} (a : A) (o : option A) : Some a ∪ o = Some a.
Proof. by destruct o. Qed.

(** A change of health is announced by an event. *)
Lemma health_change_some prev next id :
  health_at prev id ≠ health_at next id → ∃ k f, health_change prev next id = Some ("health_changed", k, id, f).
Proof.
  intros Hne. unfold health_change. rewrite bool_decide_false by done. unfold health_at in *.
  destruct (worst_fault (snd <$> next !! id)) as [f|] eqn:En.
  - destruct (next !! id) as [[k m]|] eqn:E; [|done]. exists k, f. by rewrite !union_Some.
  - destruct (worst_fault (snd <$> prev !! id)) as [f|] eqn:Ep.
    + destruct (prev !! id) as [[k m]|] eqn:E; [|done]. destruct (next !! id) as [[k' m']|]; rewrite ?union_Some; simpl; eauto.
    + by rewrite (health_of_none _ En), (health_of_none _ Ep) in Hne.
Qed.

Definition health_changes (prev next : FaultIndex) : list Change :=
  omap (health_change prev next) (all_ids prev next).

Lemma health_changes_emit prev next out :
  foldl (push_health prev next) out (all_ids prev next) = emit out (health_changes prev next).
Proof.
  unfold health_changes. generalize (all_ids prev next) as l. intros l. revert out.
  induction l as [|id l IH]; intros out; [done|]. simpl. rewrite IH, push_health_emit.
  by destruct (health_change prev next id).
Qed.

Lemma elem_of_all_ids a b id : id ∈ all_ids a b ↔ is_Some (a !! id) ∨ is_Some (b !! id).
Proof.
  unfold all_ids. rewrite list_elem_of_fmap. split.
  - intros ([i []] & -> & Hin). apply elem_of_entries in Hin. simpl.
    apply lookup_union_Some_raw in Hin. rewrite !lookup_fmap in Hin.
    destruct Hin as [H|[_ H]]; apply fmap_Some in H as (x & -> & _); eauto.
  - intros H. exists (id, tt). split; [done|]. apply elem_of_entries. apply lookup_union_Some_raw.
    rewrite !lookup_fmap. destruct (a !! id), (b !! id); simpl; try (by left); try (by right).
    by destruct H as [[? ?]|[? ?]].
Qed.

Lemma all_ids_NoDup a b : NoDup (all_ids a b).
Proof. apply entries_keys. Qed.

Lemma diff_emit prev next seq :
  diff_indexes prev next seq =
  emit ([], seq) (missing "fault_raised" next prev ++ missing "fault_cleared" prev next ++ health_changes prev next).
Proof. unfold diff_indexes. by rewrite !push_missing_emit, health_changes_emit, !emit_app. Qed.

(** ** What events announce *)

Definition event_place (e : FaultEvent) : string * string := (entity_id (x_medkit e), fault_code (fault e)).

(** The entities and codes that the events of a type name, in order. *)
Definition announced (ty : string) (es : list FaultEvent) : list (string * string) :=
  event_place <$> filter (λ e, event_type e = ty) es.

Lemma announced_app ty a b : announced ty (a ++ b) = announced ty a ++ announced ty b.
Proof. unfold announced. by rewrite filter_app, fmap_app. Qed.

Lemma announced_typed ty ty' (l : list Change) :
  (∀ c, c ∈ l → c.1.1.1 = ty') →
  announced ty (payload <$> l) = if bool_decide (ty' = ty) then place <$> l else [].
Proof.
  unfold announced. induction l as [|[[[t k] id] f] l IH]; intros H; [by case_bool_decide|].
  rewrite fmap_cons, filter_cons. assert (t = ty') as -> by (apply (H (t, k, id, f)); set_solver).
  specialize (IH ltac:(set_solver)). simpl event_type. case_bool_decide.
  - rewrite decide_True by done. rewrite fmap_cons, IH. done.
  - by rewrite decide_False.
Qed.

Lemma missing_typed ty now other c : c ∈ missing ty now other → c.1.1.1 = ty.
Proof. by intros (? & ? & ? & ? & ? & -> & _)%elem_of_missing. Qed.

Lemma health_typed prev next c : c ∈ health_changes prev next → c.1.1.1 = "health_changed".
Proof.
  intros (id & _ & Hc)%list_elem_of_omap. unfold health_change in Hc. case_bool_decide; [done|].
  apply bind_Some in Hc as (x & _ & Hc). apply bind_Some in Hc as (f & _ & Hc). by simplify_eq.
Qed.

(** The entities of the health changes. *)
Lemma health_changes_ids prev next :
  (λ c : Change, c.1.2) <$> health_changes prev next = filter (λ id, health_at prev id ≠ health_at next id) (all_ids prev next).
Proof.
  unfold health_changes. induction (all_ids prev next) as [|id l IH]; [done|]. rewrite filter_cons.
  change (omap (health_change prev next) (id :: l)) with
    (match health_change prev next id with Some y => y :: omap (health_change prev next) l | None => omap (health_change prev next) l end).
  case_decide as Hd.
  - destruct (health_change_some prev next id Hd) as (k & f & ->). rewrite fmap_cons, IH. done.
  - unfold health_change at 1. rewrite bool_decide_true; [done|]. destruct (decide (health_at prev id = health_at next id)); [done|].
    by exfalso.
Qed.

Lemma diff_announced prev next seq :
  let es := ev <$> (diff_indexes prev next seq).1 in
  announced "fault_raised" es = place <$> missing "fault_raised" next prev
  ∧ announced "fault_cleared" es = place <$> missing "fault_cleared" prev next
  ∧ announced "health_changed" es = place <$> health_changes prev next.
Proof.
  simpl. rewrite diff_emit, emit_events. simpl. rewrite !fmap_app, !announced_app.
  rewrite !(announced_typed _ "fault_raised" (missing "fault_raised" next prev)) by apply missing_typed.
  rewrite !(announced_typed _ "fault_cleared" (missing "fault_cleared" prev next)) by apply missing_typed.
  rewrite !(announced_typed _ "health_changed" (health_changes prev next)) by apply health_typed.
  simpl. by rewrite !app_nil_r.
Qed.

(** ** Indexes of merged views *)

Definition faults_of (v : MergedView) (id : string) : list FaultSummary := default [] (v_faults v !! id).

(** A fault that the view reports on one of its entities. *)
Definition reported (v : MergedView) (id code : string) : Prop :=
  id ∈ (e_id <$> v_entities v) ∧ code ∈ (fault_code <$> faults_of v id).

(** The health of an entity's own faults. *)
Definition health_in (v : MergedView) (id : string) : Health :=
  if decide (id ∈ (e_id <$> v_entities v)) then health_of (Some (by_code (faults_of v id))) else HOk.

Lemma by_code_snoc fs f : by_code (fs ++ [f]) = <[fault_code f := f]> (by_code fs).
Proof. unfold by_code. by rewrite foldl_snoc. Qed.

Lemma by_code_lookup fs c f : by_code fs !! c = Some f → f ∈ fs ∧ fault_code f = c.
Proof.
  induction fs as [|x fs IH] using rev_ind; intros H; [done|]. rewrite by_code_snoc in H.
  apply lookup_insert_Some in H as [[? ->]|[_ H]]; [set_solver|]. apply IH in H. set_solver.
Qed.

Lemma by_code_is_Some fs c : is_Some (by_code fs !! c) ↔ c ∈ (fault_code <$> fs).
Proof.
  induction fs as [|x fs IH] using rev_ind.
  - split; [by intros [? ?]|by intros ?%not_elem_of_nil].
  - rewrite by_code_snoc, lookup_insert_is_Some', IH, fmap_app. set_solver.
Qed.

(** The entry of an entity. *)
Definition insert_entity (v : MergedView) (i : FaultIndex) (e : Entity) : FaultIndex :=
  if decide (faults_of v (e_id e) = []) then i else <[e_id e := (e_kind e, by_code (faults_of v (e_id e)))]> i.

Lemma index_entity_Ok p v i e : merged p v → e ∈ v_entities v → index_entity v (e_kind e) i e = Ok (insert_entity v i e).
Proof.
  intros Hm He. unfold index_entity, entity_faults, require. rewrite (entity_member p v e Hm He).
  rewrite (bool_decide_true (e_kind e = e_kind e)) by done. simpl.
  change (default [] (v_faults v !! e_id e)) with (faults_of v (e_id e)).
  rewrite (list_filter_iff _ (λ _, True)) by naive_solver.
  assert (Hf : ∀ l : list FaultSummary, filter (λ _, True) l = l) by (induction l as [|x l IH]; [done|]; rewrite filter_cons_True, IH; done).
  rewrite Hf. unfold insert_entity. case_bool_decide; [by rewrite decide_True|by rewrite decide_False].
Qed.

Lemma foldM_Ok {A B} (f : B → A → res B) (g : B → A → B) b l :
  (∀ b a, a ∈ l → f b a = Ok (g b a)) → foldM f b l = Ok (foldl g b l).
Proof.
  revert b. induction l as [|a l IH]; intros b H; [done|]. simpl. rewrite H by set_solver. simpl. apply IH. set_solver.
Qed.

(** The entities in the order of the index. *)
Definition by_kind (v : MergedView) : list Entity :=
  [Area; Component; Function_; App] ≫= λ k, filter (λ e, e_kind e = k) (v_entities v).

Lemma elem_of_by_kind v e : e ∈ by_kind v ↔ e ∈ v_entities v.
Proof.
  unfold by_kind. rewrite list_elem_of_bind. split; [by intros (k & [_ H]%list_elem_of_filter & _)|].
  intros H. exists (e_kind e). split; [by apply list_elem_of_filter|]. destruct (e_kind e); set_solver.
Qed.

Lemma fault_index_fold p v : merged p v → fault_index v = Ok (foldl (insert_entity v) ∅ (by_kind v)).
Proof.
  intros Hm. unfold fault_index, by_kind.
  rewrite (foldM_Ok _ (λ i k, foldl (insert_entity v) i (filter (λ e, e_kind e = k) (v_entities v)))).
  - f_equal. simpl. by rewrite app_nil_r, !foldl_app.
  - intros i k _. unfold list_, collection_new. simpl. apply foldM_Ok.
    intros b e (<- & He)%list_elem_of_filter. by apply (index_entity_Ok p).
Qed.

Lemma fold_entities v l id :
  (∀ e, e ∈ l → ∀ e', e' ∈ l → e_id e = e_id e' → e = e') →
  foldl (insert_entity v) ∅ l !! id =
    (e ← snd <$> list_find (λ e, e_id e = id) l;
     if decide (faults_of v id = []) then None else Some (e_kind e, by_code (faults_of v id))).
Proof.
  induction l as [|x l IH] using rev_ind; intros Hu; [done|].
  rewrite foldl_snoc. unfold insert_entity at 1. specialize (IH ltac:(intros; apply Hu; set_solver)).
  destruct (decide (e_id x = id)) as [Hx|Hx].
  - assert (Hf : ∃ i, list_find (λ e, e_id e = id) (l ++ [x]) = Some (i, x)).
    { destruct (list_find (λ e, e_id e = id) (l ++ [x])) as [[i e]|] eqn:E.
      - apply list_find_Some in E as (Hi & He & _). exists i. do 2 f_equal. symmetry. apply Hu; [set_solver| |congruence].
        by eapply list_elem_of_lookup_2.
      - apply list_find_None in E. rewrite Forall_forall in E. exfalso. apply (E x); [set_solver|done]. }
    destruct Hf as [i ->]. simpl. subst id. case_decide as Hd; [|by rewrite lookup_insert_eq].
    rewrite IH. destruct (list_find _ l) as [[? ?]|]; done.
  - assert (Hf : snd <$> list_find (λ e, e_id e = id) (l ++ [x]) = snd <$> list_find (λ e, e_id e = id) l).
    { destruct (list_find (λ e, e_id e = id) l) as [[i e]|] eqn:E; [by rewrite (list_find_app_l _ _ _ _ _ E)|].
      rewrite list_find_app_r by done. simpl. by rewrite decide_False. }
    rewrite Hf, <- IH. destruct (decide (faults_of v (e_id x) = [])); [reflexivity|]. by rewrite lookup_insert_ne.
Qed.

(** The index of a view: the entities that have faults. *)
Lemma fault_index_spec p v :
  merged p v → ∃ i, fault_index v = Ok i ∧ coded i
    ∧ (∀ id code, has i id code = true ↔ reported v id code) ∧ ∀ id, health_at i id = health_in v id.
Proof.
  intros Hm. eexists. split; [by apply (fault_index_fold p)|].
  assert (Hlk : ∀ id, foldl (insert_entity v) ∅ (by_kind v) !! id =
    (e ← snd <$> list_find (λ e, e_id e = id) (by_kind v);
     if decide (faults_of v id = []) then None else Some (e_kind e, by_code (faults_of v id)))).
  { intros id. apply fold_entities. intros e He e' He' Heq. apply elem_of_by_kind in He, He'.
    pose proof (entity_member p v e Hm He) as H1. pose proof (entity_member p v e' Hm He') as H2. congruence. }
  assert (Hin : ∀ id, match list_find (λ e, e_id e = id) (by_kind v) with
    | Some _ => id ∈ (e_id <$> v_entities v) | None => id ∉ (e_id <$> v_entities v) end).
  { intros id. destruct (list_find _ _) as [[i e]|] eqn:E.
    - apply list_find_Some in E as (Hi & <- & _). apply list_elem_of_fmap_2, elem_of_by_kind. by eapply list_elem_of_lookup_2.
    - apply list_find_None in E. rewrite Forall_forall in E. intros (e & -> & He)%list_elem_of_fmap.
      apply (E e); [by apply elem_of_by_kind|done]. }
  split_and!.
  - intros id k m code f Hi Hc. rewrite Hlk in Hi. destruct (list_find _ _) as [[j e]|]; [|done]. simpl in Hi.
    case_decide; [done|]. simplify_eq. by apply by_code_lookup in Hc as [_ ?].
  - intros id code. unfold has, reported. rewrite Hlk. specialize (Hin id). destruct (list_find _ _) as [[j e]|]; simpl.
    + destruct (decide (faults_of v id = [])) as [-> |]; simpl; [split; [done|by intros [_ ?%not_elem_of_nil]]|].
      rewrite bool_decide_eq_true, by_code_is_Some. tauto.
    + split; [done|]. by intros [? _].
  - intros id. unfold health_at, health_in. rewrite Hlk. specialize (Hin id). destruct (list_find _ _) as [[j e]|]; simpl.
    + rewrite (decide_True (P := id ∈ (e_id <$> v_entities v))) by done. by destruct (decide (faults_of v id = [])) as [-> |].
    + by rewrite decide_False.
Qed.

(** A diff announces exactly the differences of two views: a fault is raised
    for each entity and code newly reported, cleared for each no longer reported,
    once each, and health has changed for exactly the entities whose worst fault
    moved them to another level; events are numbered consecutively. *)
Theorem diff_exact (p1 p2 : MergePipeline) (v1 v2 : MergedView) (seq : Z)
    (Hv1 : merge p1 = Ok v1) (Hv2 : merge p2 = Ok v2) (Hseq : 0 ≤ seq) :
  ∃ events seq', diff_events v1 v2 seq = Ok (events, seq')
    ∧ (∀ id code, (id, code) ∈ announced "fault_raised" (ev <$> events) ↔ reported v2 id code ∧ ¬ reported v1 id code)
    ∧ (∀ id code, (id, code) ∈ announced "fault_cleared" (ev <$> events) ↔ reported v1 id code ∧ ¬ reported v2 id code)
    ∧ (∀ id, id ∈ (announced "health_changed" (ev <$> events)).*1 ↔ health_in v1 id ≠ health_in v2 id)
    ∧ NoDup (announced "fault_raised" (ev <$> events)) ∧ NoDup (announced "fault_cleared" (ev <$> events))
    ∧ NoDup (announced "health_changed" (ev <$> events)).*1
    ∧ (seq + len events < 2 ^ 64 → ev_id <$> events = seqZ seq (len events) ∧ seq' = seq + len events).
Proof.
  destruct (merge_merged p1) as (v & Hv & Hm1). rewrite Hv1 in Hv. injection Hv as <-.
  destruct (merge_merged p2) as (v & Hv & Hm2). rewrite Hv2 in Hv. injection Hv as <-.
  destruct (fault_index_spec p1 v1 Hm1) as (i1 & Hi1 & Hc1 & Hr1 & Hh1).
  destruct (fault_index_spec p2 v2 Hm2) as (i2 & Hi2 & Hc2 & Hr2 & Hh2).
  unfold diff_events. rewrite Hi1, Hi2. cbn. destruct (diff_indexes i1 i2 seq) as [events seq'] eqn:Ed.
  exists events, seq'. split; [done|].
  destruct (diff_announced i1 i2 seq) as (Hra & Hcl & Hhe). rewrite Ed in Hra, Hcl, Hhe. simpl in *. rewrite Hra, Hcl, Hhe.
  assert (Hhid : (place <$> health_changes i1 i2).*1 = filter (λ id, health_at i1 id ≠ health_at i2 id) (all_ids i1 i2))
    by (rewrite <- health_changes_ids, <- list_fmap_compose; done).
  split_and!.
  - intros id code. rewrite missing_places, <- Hr1, <- Hr2 by done. by rewrite not_true_iff_false.
  - intros id code. rewrite missing_places, <- Hr1, <- Hr2 by done. by rewrite not_true_iff_false.
  - intros id. rewrite Hhid, list_elem_of_filter, Hh1, Hh2, elem_of_all_ids, <- Hh1, <- Hh2. split; [by intros [? _]|].
    intros Hne. split; [done|]. unfold health_at in Hne. destruct (i1 !! id), (i2 !! id); eauto. done.
  - by apply missing_NoDup.
  - by apply missing_NoDup.
  - rewrite Hhid. apply NoDup_filter, all_ids_NoDup.
  - intros Hb. rewrite diff_emit in Ed.
    set (l := missing "fault_raised" i2 i1 ++ missing "fault_cleared" i1 i2 ++ health_changes i1 i2) in *.
    assert (Hlen : len events = len l).
    { pose proof (emit_events ([], seq) l) as He. rewrite Ed in He. simpl in He. unfold len.
      apply (f_equal length) in He. rewrite !length_fmap in He. lia. }
    rewrite Hlen in *. destruct (emit_ids [] seq l Hseq Hb) as [H1 H2]. rewrite Ed in H1, H2. done.
Qed.

(** ** Following the stream *)

(** A client that keeps the set of faults. *)
Definition track (K : gset (string * string)) (e : FaultEvent) : gset (string * string) :=
  if bool_decide (event_type e = "fault_raised") then {[event_place e]} ∪ K
  else if bool_decide (event_type e = "fault_cleared") then K ∖ {[event_place e]}
  else K.

Lemma track_raised K now other :
  foldl track K (payload <$> missing "fault_raised" now other) = K ∪ list_to_set (place <$> missing "fault_raised" now other).
Proof.
  pose proof (missing_typed "fault_raised" now other) as Hty. revert K Hty.
  induction (missing "fault_raised" now other) as [|[[[t k] id] f] l IH]; intros K Hty; [set_solver|].
  rewrite !fmap_cons. simpl foldl. rewrite IH by set_solver.
  assert (t = "fault_raised") as -> by (apply (Hty (t, k, id, f)); set_solver). unfold track. simpl. set_solver.
Qed.

Lemma track_cleared K now other :
  foldl track K (payload <$> missing "fault_cleared" now other) = K ∖ list_to_set (place <$> missing "fault_cleared" now other).
Proof.
  pose proof (missing_typed "fault_cleared" now other) as Hty. revert K Hty.
  induction (missing "fault_cleared" now other) as [|[[[t k] id] f] l IH]; intros K Hty; [set_solver|].
  rewrite !fmap_cons. simpl foldl. rewrite IH by set_solver.
  assert (t = "fault_cleared") as -> by (apply (Hty (t, k, id, f)); set_solver). unfold track. simpl. set_solver.
Qed.

Lemma track_health K prev next : foldl track K (payload <$> health_changes prev next) = K.
Proof.
  pose proof (health_typed prev next) as Hty. induction (health_changes prev next) as [|[[[t k] id] f] l IH]; [done|].
  rewrite fmap_cons. simpl foldl. assert (t = "health_changed") as -> by (apply (Hty (t, k, id, f)); set_solver).
  apply IH. set_solver.
Qed.

(** What a client knows of a view. *)
Definition knows (K : gset (string * string)) (v : MergedView) : Prop := ∀ id code, (id, code) ∈ K ↔ reported v id code.

Lemma diff_tracked p1 p2 v1 v2 seq K :
  merged p1 v1 → merged p2 v2 → knows K v1 →
  ∃ l, diff_events v1 v2 seq = Ok (emit ([], seq) l) ∧ knows (foldl track K (payload <$> l)) v2.
Proof.
  intros Hm1 Hm2 HK.
  destruct (fault_index_spec p1 v1 Hm1) as (i1 & Hi1 & Hc1 & Hr1 & _).
  destruct (fault_index_spec p2 v2 Hm2) as (i2 & Hi2 & Hc2 & Hr2 & _).
  unfold diff_events. rewrite Hi1, Hi2. cbn. rewrite diff_emit. eexists. split; [done|].
  rewrite !fmap_app, !foldl_app, track_raised, track_cleared, track_health by done.
  intros id code. rewrite elem_of_difference, elem_of_union, !elem_of_list_to_set, !missing_places by done.
  specialize (HK id code). rewrite <- Hr1 in HK. rewrite <- Hr2.
  destruct (has i1 id code), (has i2 id code); naive_solver.
Qed.

(** *** The loop *)

(** The invariant of the refresh loop, relative to what a client knew at first. *)
Record stream_ok (K0 : gset (string * string)) (r : Refresh) : Prop := {
  st_view : ∃ p, merged p (prev r);
  st_ring : ring r = window (sent r);
  st_ids : len (sent r) + 1 < 2 ^ 64 → ev_id <$> sent r = seqZ 1 (len (sent r)) ∧ seq r = len (sent r) + 1;
  st_known : knows (foldl track K0 (ev <$> sent r)) (prev r);
}.

Lemma publish_fold rg st (es : list StreamEvent) :
  rg = window st → foldl (λ '(rg, st) e, (retain rg e, st ++ [e])) (rg, st) es = (window (st ++ es), st ++ es).
Proof.
  revert rg st. induction es as [|e es IH]; intros rg st ->; [by rewrite app_nil_r|]. simpl.
  rewrite (IH _ (st ++ [e])) by apply retain_window. by rewrite <- app_assoc.
Qed.

Lemma refresh_ok K0 m r s : stream_ok K0 r → ∃ r', refresh m r s = Ok r' ∧ stream_ok K0 r'
  ∧ from_snapshot_with_manifest s m = Ok (prev r').
Proof.
  intros [[p Hp] Hr Hi Hk]. unfold refresh, from_snapshot_with_manifest.
  set (p2 := match m with Some m => _ | None => _ end). destruct (merge_merged p2) as (v2 & -> & Hm2). cbn [mbind res_bind].
  destruct (diff_tracked p p2 (prev r) v2 (seq r) _ Hp Hm2 Hk) as (l & -> & Hk2).
  destruct (emit ([], seq r) l) as [es seq'] eqn:Ee. cbn [mbind res_bind]. rewrite publish_fold by done.
  eexists. split; [done|]. split; [|done].
  assert (Hes : ev <$> es = payload <$> l) by (pose proof (emit_events ([], seq r) l) as H; rewrite Ee in H; exact H).
  assert (Hlen : len es = len l) by (unfold len; apply (f_equal length) in Hes; rewrite !length_fmap in Hes; lia).
  split; simpl; [by exists p2|done| |by rewrite fmap_app, foldl_app, Hes].
  rewrite len_app, Hlen. intros Hb. pose proof (len_nonneg l). pose proof (len_nonneg (sent r)).
  destruct Hi as [Hids Hseq]; [lia|]. destruct (emit_ids [] (seq r) l) as [H1 H2]; [lia|lia|].
  rewrite Ee in H1, H2. simpl in H1, H2. rewrite fmap_app, Hids, H1, H2, Hseq. split; [|lia].
  rewrite seqZ_app by lia. do 2 f_equal. lia.
Qed.

(** C22. The event stream follows the served view.  Over any sequence of polls the
    loop does not fail, a client that starts from the faults of the first view and
    applies every event it is sent knows exactly the faults of the view served last,
    events are numbered 1, 2, 3 and so on, and the ring holds the last hundred. *)
Theorem stream_follows_view (m : option Manifest) (p0 : MergePipeline) (v0 : MergedView) (polls : list ProviderSnapshot)
    (K0 : gset (string * string)) (Hv0 : merge p0 = Ok v0) (HK0 : knows K0 v0) :
  ∃ r, refresh_loop m (refresh_init v0) polls = Ok r
    ∧ knows (foldl track K0 (ev <$> sent r)) (prev r)
    ∧ Ok (prev r) = from_option (λ s, from_snapshot_with_manifest s m) (Ok v0) (last polls)
    ∧ ring r = window (sent r)
    ∧ (len (sent r) + 1 < 2 ^ 64 → ev_id <$> sent r = seqZ 1 (len (sent r))).
Proof.
  assert (H : ∃ r, refresh_loop m (refresh_init v0) polls = Ok r ∧ stream_ok K0 r
    ∧ Ok (prev r) = from_option (λ s, from_snapshot_with_manifest s m) (Ok v0) (last polls)).
  { unfold refresh_loop. assert (H0 : stream_ok K0 (refresh_init v0)).
    { destruct (merge_merged p0) as (v & Hv & Hm). rewrite Hv0 in Hv. injection Hv as <-. split; simpl; eauto. }
    assert (Hgen : ∀ polls r, stream_ok K0 r → ∃ r', foldM (refresh m) r polls = Ok r' ∧ stream_ok K0 r'
      ∧ Ok (prev r') = from_option (λ s, from_snapshot_with_manifest s m) (Ok (prev r)) (last polls)).
    { clear polls. induction polls as [|s polls IH]; intros r Hr; simpl; [eauto|].
      destruct (refresh_ok K0 m r s Hr) as (r1 & -> & Hr1 & Hs1). cbn [mbind res_bind].
      destruct (IH r1 Hr1) as (r2 & -> & Hr2 & Hl2). exists r2. split; [done|]. split; [done|].
      rewrite Hl2. destruct polls; simpl; [by rewrite Hs1|]. by destruct (last _) eqn:E; [|by apply last_None in E]. }
    exact (Hgen polls (refresh_init v0) H0). }
  destruct H as (r & Hr & [Hview Hring Hids Hknown] & Hlast). exists r. split_and!; try done.
  intros Hb. by apply Hids.
Qed.

(** *** A fault appears *)

Definition brake : FaultSummary := MkFault "Brake" "BRAKE" 0 0 1 [] 2 "ERROR" "CONFIRMED".
Definition calm_pipeline : MergePipeline := with_snapshot pipeline_new example_snapshot.
Definition calm_view : MergedView := match merge calm_pipeline with Ok v => v | Panic => view_default end.
Definition fault_snapshot : ProviderSnapshot :=
  MkSnapshot [example_app] [] {["app:t" := [brake]]} ∅ ∅ ∅ telemetry_default.
Definition fault_pipeline : MergePipeline := with_snapshot pipeline_new fault_snapshot.
Definition fault_view : MergedView := match merge fault_pipeline with Ok v => v | Panic => view_default end.

Lemma diff_exact_witness :
  ∃ events seq', diff_events calm_view fault_view 1 = Ok (events, seq')
    ∧ NoDup (announced "fault_raised" (ev <$> events)) ∧ ev_id <$> events = [1; 2].
Proof.
  destruct (diff_exact calm_pipeline fault_pipeline calm_view fault_view 1) as (events & seq' & H & _ & _ & _ & Hd & _ & _ & Hids);
    [vm_compute; reflexivity|vm_compute; reflexivity|lia|].
  exists events, seq'. split; [exact H|]. split; [exact Hd|].
  assert (Hl : len events = 2) by (vm_compute in H; injection H as <- <-; reflexivity). rewrite Hl in Hids.
  destruct Hids as [-> _]; [lia|]. reflexivity.
Defined.

Lemma stream_follows_view_witness :
  ∃ r, refresh_loop None (refresh_init calm_view) [fault_snapshot; example_snapshot] = Ok r
    ∧ knows (foldl track ∅ (ev <$> sent r)) (prev r).
Proof.
  destruct (stream_follows_view None calm_pipeline calm_view [fault_snapshot; example_snapshot] ∅) as (r & H1 & H2 & _);
    [vm_compute; reflexivity| |exists r; split; [exact H1|exact H2]].
  intros id code. split; [by intros ?%elem_of_empty|]. intros [_ Hc].
  assert (Hf : ∀ id, faults_of calm_view id = []) by (intros; reflexivity). rewrite Hf in Hc. by apply not_elem_of_nil in Hc.
Defined.

(** *** Worst fault *)

Lemma fold_health_max l h :
  health_rank h ≤ health_rank (foldl health_max h l) ∧ (∀ x, x ∈ l → health_rank x ≤ health_rank (foldl health_max h l))
  ∧ foldl health_max h l ∈ h :: l.
Proof.
  revert h. induction l as [|x l IH]; intros h; simpl; [split_and!; [lia|by intros ? ?%not_elem_of_nil|set_solver]|].
  destruct (IH (health_max h x)) as (H1 & H2 & H3).
  assert (Hm : health_rank h ≤ health_rank (health_max h x) ∧ health_rank x ≤ health_rank (health_max h x)
    ∧ (health_max h x = h ∨ health_max h x = x)) by (unfold health_max; case_match; split_and!; try lia; auto).
  destruct Hm as (Hh & Hx & Hor). split_and!.
  - lia.
  - intros y [-> |Hy]%elem_of_cons; [lia|by apply H2].
  - destruct Hor as [Heq|Heq]; rewrite Heq in H3 at 2; set_solver.
Qed.

(** The health of an entity is that of its worst fault of a known severity. *)
Lemma health_of_worst fs :
  (∀ c f s, fs !! c = Some f → from_wire_value (severity f) = Some s → wire_value s ≤ health_rank (health_of (Some fs)))
  ∧ (health_of (Some fs) = HOk ∨ ∃ c f s, fs !! c = Some f ∧ from_wire_value (severity f) = Some s
       ∧ health_of (Some fs) = severity_to_health s).
Proof.
  unfold health_of. simpl.
  assert (Hel : ∀ h, h ∈ omap (λ f, severity_to_health <$> from_wire_value (severity f.2)) (entries fs) ↔
    ∃ c f s, fs !! c = Some f ∧ from_wire_value (severity f) = Some s ∧ h = severity_to_health s).
  { intros h. rewrite list_elem_of_omap. split.
    - intros ([c f] & Hin & Hh). apply elem_of_entries in Hin. apply fmap_Some in Hh as (s & Hs & ->). eauto 10.
    - intros (c & f & s & Hin & Hs & ->). exists (c, f). split; [by apply elem_of_entries|]. simpl. by rewrite Hs. }
  destruct (omap _ (entries fs)) as [|h l].
  - split; [|by left]. intros c f s Hf Hs. assert (Hn : severity_to_health s ∈ ([] : list Health)) by (apply Hel; by exists c, f, s).
    by apply not_elem_of_nil in Hn.
  - destruct (fold_health_max l h) as (H1 & H2 & H3). split.
    + intros c f s Hf Hs. rewrite <- severity_health_rank.
      assert (Hin : severity_to_health s ∈ h :: l) by (apply Hel; by exists c, f, s).
      apply elem_of_cons in Hin as [-> |Hin]; [done|by apply H2].
    + right. by apply Hel.
Qed.

End MedDiffOk.
