(* ===== verification/MedActions.v ===== *)
(** * The write surface of the diagnostic gateway

    Models [taktora-medkit-provider/src/action.rs]: the [ActionSink] interface (a
    class) and its in-memory implementation, and the request handlers written
    against the interface in [taktora-medkit-gateway-axum/src/] (actions.rs,
    configurations.rs, bulkdata.rs, scripts.rs, updates.rs, lifecycle.rs and the
    configuration part of logs.rs).  A call takes the mutex of one store at a time;
    each call is a step. *)

From stdpp Require Import base gmap list sorting strings pretty.
From Stdlib Require Import ZArith Lia.
From S2P Require Import Prelude MedModel MedView.

Module MedActions.
Import MedModel.

Abbreviation Value := MedView.Value.
Abbreviation entries := MedView.entries.
Abbreviation bytes := (list Z).

Inductive ExecutionStatus := Pending | Running | Completed | Failed | Cancelled.
Record OperationDef := MkOp { op_id : string; op_name : string; op_description : option string }.
Record Execution := MkExec { x_id : string; operation_id : string; x_status : ExecutionStatus; x_result : option Value }.
Record ConfigEntry := MkConfig { cfg_id : string; cfg_value : Value }.
Record BulkCategory := MkCategory { cat_id : string; cat_count : Z }.
Record BulkDescriptor := MkDescriptor { file_id : string; file_size : Z }.
Record ScriptDef := MkScript { s_id : string; s_size : Z }.
Record UpdateRecord := MkUpdate { u_id : string; u_status : string }.
Inductive ActionError := NotFound | Conflict | BadRequest (reason : string).

(** ** The interface *)

(** [ActionSink]: reads return their answer, writes the new state with it. *)
Class ActionSink (S : Type) := {
  operations : S → ResourceKey → list OperationDef;
  start_operation : S → ResourceKey → string → Value → S * (Execution + ActionError);
  executions : S → ResourceKey → string → list Execution + ActionError;
  execution : S → ResourceKey → string → string → Execution + ActionError;
  cancel_execution : S → ResourceKey → string → string → S * (unit + ActionError);
  configurations : S → ResourceKey → list ConfigEntry;
  configuration : S → ResourceKey → string → ConfigEntry + ActionError;
  set_configuration : S → ResourceKey → string → Value → S * (ConfigEntry + ActionError);
  delete_configuration : S → ResourceKey → string → S * (unit + ActionError);
  delete_configurations : S → ResourceKey → S * (unit + ActionError);
  bulk_categories : S → ResourceKey → list BulkCategory;
  bulk_descriptors : S → ResourceKey → string → list BulkDescriptor;
  upload_bulk : S → ResourceKey → string → bytes → S * (BulkDescriptor + ActionError);
  download_bulk : S → ResourceKey → string → string → bytes + ActionError;
  delete_bulk : S → ResourceKey → string → string → S * (unit + ActionError);
  scripts : S → ResourceKey → list ScriptDef;
  upload_script : S → ResourceKey → bytes → S * (ScriptDef + ActionError);
  script : S → ResourceKey → string → ScriptDef + ActionError;
  delete_script : S → ResourceKey → string → S * (unit + ActionError);
  start_script : S → ResourceKey → string → S * (Execution + ActionError);
  script_execution : S → ResourceKey → string → string → Execution + ActionError;
  cancel_script_execution : S → ResourceKey → string → string → S * (unit + ActionError);
  updates : S → list UpdateRecord;
  register_update : S → Value → S * UpdateRecord;
  update : S → string → UpdateRecord + ActionError;
  prepare_update : S → string → S * (UpdateRecord + ActionError);
  execute_update : S → string → S * (UpdateRecord + ActionError);
  automated_update : S → string → S * (UpdateRecord + ActionError);
  delete_update : S → string → S * (unit + ActionError);
  lifecycle_status : S → ResourceKey → string;
  request_transition : S → ResourceKey → string → S * (string + ActionError);
  log_configuration : S → ResourceKey → Value;
  set_log_configuration : S → ResourceKey → Value → S * Value;
}.

(** ** The in-memory sink *)

Record ExecRecord := MkExecRecord { r_key : ResourceKey; r_execution : Execution }.
Record ScriptExecRecord := MkScriptExec { se_key : ResourceKey; se_script : string; se_execution : Execution }.

Record SimActionSink := MkSim {
  catalogue : gmap ResourceKey (list OperationDef);
  sim_executions : gmap string ExecRecord;
  configs : gmap ResourceKey (gmap string Value);
  bulk : gmap ResourceKey (gmap string (gmap string bytes));
  sim_scripts : gmap ResourceKey (gmap string Z);
  script_execs : gmap string ScriptExecRecord;
  sim_updates : gmap string UpdateRecord;
  lifecycle : gmap ResourceKey string;
  log_configs : gmap ResourceKey Value;
  next : Z;
}.
Definition sim_new : SimActionSink := MkSim ∅ ∅ ∅ ∅ ∅ ∅ ∅ ∅ ∅ 0.

(** One store replaced, the others kept. *)
Definition with_executions (s : SimActionSink) m :=
  MkSim (catalogue s) m (configs s) (bulk s) (sim_scripts s) (script_execs s) (sim_updates s) (lifecycle s) (log_configs s) (next s).
Definition with_configs (s : SimActionSink) m :=
  MkSim (catalogue s) (sim_executions s) m (bulk s) (sim_scripts s) (script_execs s) (sim_updates s) (lifecycle s) (log_configs s) (next s).
Definition with_bulk (s : SimActionSink) m :=
  MkSim (catalogue s) (sim_executions s) (configs s) m (sim_scripts s) (script_execs s) (sim_updates s) (lifecycle s) (log_configs s) (next s).
Definition with_scripts (s : SimActionSink) m :=
  MkSim (catalogue s) (sim_executions s) (configs s) (bulk s) m (script_execs s) (sim_updates s) (lifecycle s) (log_configs s) (next s).
Definition with_script_execs (s : SimActionSink) m :=
  MkSim (catalogue s) (sim_executions s) (configs s) (bulk s) (sim_scripts s) m (sim_updates s) (lifecycle s) (log_configs s) (next s).
Definition with_updates (s : SimActionSink) m :=
  MkSim (catalogue s) (sim_executions s) (configs s) (bulk s) (sim_scripts s) (script_execs s) m (lifecycle s) (log_configs s) (next s).
Definition with_lifecycle (s : SimActionSink) m :=
  MkSim (catalogue s) (sim_executions s) (configs s) (bulk s) (sim_scripts s) (script_execs s) (sim_updates s) m (log_configs s) (next s).
Definition with_log_configs (s : SimActionSink) m :=
  MkSim (catalogue s) (sim_executions s) (configs s) (bulk s) (sim_scripts s) (script_execs s) (sim_updates s) (lifecycle s) m (next s).
Definition with_operation (s : SimActionSink) (k : EntityKind) (id op : string) : SimActionSink :=
  MkSim (<[(k, id) := default [] (catalogue s !! (k, id)) ++ [MkOp op op None]]> (catalogue s))
    (sim_executions s) (configs s) (bulk s) (sim_scripts s) (script_execs s) (sim_updates s) (lifecycle s) (log_configs s) (next s).

(** [self.next.fetch_add(1)]. *)
Definition fetch_next (s : SimActionSink) : SimActionSink * Z :=
  (MkSim (catalogue s) (sim_executions s) (configs s) (bulk s) (sim_scripts s) (script_execs s) (sim_updates s)
     (lifecycle s) (log_configs s) (wrap 64 (next s + 1)), next s).

Definition has_operation (s : SimActionSink) (t : ResourceKey) (op : string) : bool :=
  existsb (λ d, bool_decide (op_id d = op)) (default [] (catalogue s !! t)).
Definition has_script (s : SimActionSink) (t : ResourceKey) (id : string) : bool :=
  from_option (λ m : gmap string Z, bool_decide (is_Some (m !! id))) false (sim_scripts s !! t).

Definition sim_start_operation (s : SimActionSink) (t : ResourceKey) (op : string) (args : Value)
    : SimActionSink * (Execution + ActionError) :=
  if negb (has_operation s t op) then (s, inr NotFound)
  else
    let '(s, n) := fetch_next s in
    let id := numbered "exec-" n in
    let e := MkExec id op Completed (Some (MedView.JObject [("echo", args)])) in
    (with_executions s (<[id := MkExecRecord t e]> (sim_executions s)), inl e).

(** Whether a record is an execution of an operation on the target. *)
Definition is_exec (t : ResourceKey) (op : string) (r : ExecRecord) : bool :=
  bool_decide (r_key r = t) && bool_decide (operation_id (r_execution r) = op).

Definition exec_le (a b : Execution) : Prop := String.leb (x_id a) (x_id b) = true.
#[export] Instance exec_le_dec : RelDecision exec_le := λ a b, decide (String.leb (x_id a) (x_id b) = true).

Definition sim_list_executions (s : SimActionSink) (t : ResourceKey) (op : string) : list Execution + ActionError :=
  if negb (has_operation s t op) then inr NotFound
  else inl (merge_sort exec_le (r_execution <$> filter (λ r, is_exec t op r = true) (snd <$> map_to_list (sim_executions s)))).

Definition sim_execution (s : SimActionSink) (t : ResourceKey) (op id : string) : Execution + ActionError :=
  match sim_executions s !! id with
  | Some r => if is_exec t op r then inl (r_execution r) else inr NotFound
  | None => inr NotFound
  end.

Definition sim_cancel_execution (s : SimActionSink) (t : ResourceKey) (op id : string) : SimActionSink * (unit + ActionError) :=
  match sim_executions s !! id with
  | Some r => if is_exec t op r then (with_executions s (delete id (sim_executions s)), inl tt) else (s, inr NotFound)
  | None => (s, inr NotFound)
  end.

Definition sim_configurations (s : SimActionSink) (t : ResourceKey) : list ConfigEntry :=
  (λ '(id, v), MkConfig id v) <$> entries (default ∅ (configs s !! t)).
Definition sim_configuration (s : SimActionSink) (t : ResourceKey) (id : string) : ConfigEntry + ActionError :=
  match m ← configs s !! t; m !! id with Some v => inl (MkConfig id v) | None => inr NotFound end.
Definition sim_set_configuration (s : SimActionSink) (t : ResourceKey) (id : string) (v : Value)
    : SimActionSink * (ConfigEntry + ActionError) :=
  (with_configs s (<[t := <[id := v]> (default ∅ (configs s !! t))]> (configs s)), inl (MkConfig id v)).
Definition sim_delete_configuration (s : SimActionSink) (t : ResourceKey) (id : string) : SimActionSink * (unit + ActionError) :=
  match configs s !! t with
  | Some m =>
      if bool_decide (is_Some (m !! id)) then (with_configs s (<[t := delete id m]> (configs s)), inl tt) else (s, inr NotFound)
  | None => (s, inr NotFound)
  end.
Definition sim_delete_configurations (s : SimActionSink) (t : ResourceKey) : SimActionSink * (unit + ActionError) :=
  (with_configs s (delete t (configs s)), inl tt).

(** The files of a category. *)
Definition files (s : SimActionSink) (t : ResourceKey) (cat : string) : gmap string bytes :=
  default ∅ (cats ← bulk s !! t; cats !! cat).

Definition sim_bulk_categories (s : SimActionSink) (t : ResourceKey) : list BulkCategory :=
  (λ '(id, fs), MkCategory id (Z.of_nat (size fs)))
    <$> filter (λ x, size x.2 ≠ 0%nat) (entries (default ∅ (bulk s !! t))).
Definition sim_bulk_descriptors (s : SimActionSink) (t : ResourceKey) (cat : string) : list BulkDescriptor :=
  (λ '(id, b), MkDescriptor id (len b)) <$> entries (files s t cat).
Definition sim_upload_bulk (s : SimActionSink) (t : ResourceKey) (cat : string) (content : bytes)
    : SimActionSink * (BulkDescriptor + ActionError) :=
  let '(s, n) := fetch_next s in
  let id := numbered "file-" n in
  let cats := default ∅ (bulk s !! t) in
  (with_bulk s (<[t := <[cat := <[id := content]> (default ∅ (cats !! cat))]> cats]> (bulk s)),
   inl (MkDescriptor id (len content))).
Definition sim_download_bulk (s : SimActionSink) (t : ResourceKey) (cat id : string) : bytes + ActionError :=
  match files s t cat !! id with Some b => inl b | None => inr NotFound end.
Definition sim_delete_bulk (s : SimActionSink) (t : ResourceKey) (cat id : string) : SimActionSink * (unit + ActionError) :=
  match bulk s !! t with
  | Some cats =>
      match cats !! cat with
      | Some fs =>
          if bool_decide (is_Some (fs !! id)) then
            (with_bulk s (<[t := <[cat := delete id fs]> cats]> (bulk s)), inl tt)
          else (s, inr NotFound)
      | None => (s, inr NotFound)
      end
  | None => (s, inr NotFound)
  end.

Definition sim_list_scripts (s : SimActionSink) (t : ResourceKey) : list ScriptDef :=
  (λ '(id, n), MkScript id n) <$> entries (default ∅ (sim_scripts s !! t)).
Definition sim_upload_script (s : SimActionSink) (t : ResourceKey) (content : bytes) : SimActionSink * (ScriptDef + ActionError) :=
  let '(s, n) := fetch_next s in
  let id := numbered "script-" n in
  (with_scripts s (<[t := <[id := len content]> (default ∅ (sim_scripts s !! t))]> (sim_scripts s)),
   inl (MkScript id (len content))).
Definition sim_script (s : SimActionSink) (t : ResourceKey) (id : string) : ScriptDef + ActionError :=
  match m ← sim_scripts s !! t; m !! id with Some n => inl (MkScript id n) | None => inr NotFound end.
Definition sim_delete_script (s : SimActionSink) (t : ResourceKey) (id : string) : SimActionSink * (unit + ActionError) :=
  match sim_scripts s !! t with
  | Some m =>
      if bool_decide (is_Some (m !! id)) then (with_scripts s (<[t := delete id m]> (sim_scripts s)), inl tt) else (s, inr NotFound)
  | None => (s, inr NotFound)
  end.

Definition sim_start_script (s : SimActionSink) (t : ResourceKey) (id : string) : SimActionSink * (Execution + ActionError) :=
  if negb (has_script s t id) then (s, inr NotFound)
  else
    let '(s, n) := fetch_next s in
    let xid := numbered "sexec-" n in
    let e := MkExec xid id Completed (Some (MedView.JObject [("script", MedView.JString id)])) in
    (with_script_execs s (<[xid := MkScriptExec t id e]> (script_execs s)), inl e).
Definition is_script_exec (t : ResourceKey) (id : string) (r : ScriptExecRecord) : bool :=
  bool_decide (se_key r = t) && bool_decide (se_script r = id).
Definition sim_script_execution (s : SimActionSink) (t : ResourceKey) (id xid : string) : Execution + ActionError :=
  match script_execs s !! xid with
  | Some r => if is_script_exec t id r then inl (se_execution r) else inr NotFound
  | None => inr NotFound
  end.
Definition sim_cancel_script_execution (s : SimActionSink) (t : ResourceKey) (id xid : string) : SimActionSink * (unit + ActionError) :=
  match script_execs s !! xid with
  | Some r => if is_script_exec t id r then (with_script_execs s (delete xid (script_execs s)), inl tt) else (s, inr NotFound)
  | None => (s, inr NotFound)
  end.

Definition sim_list_updates (s : SimActionSink) : list UpdateRecord := snd <$> entries (sim_updates s).
Definition sim_register_update (s : SimActionSink) (_spec : Value) : SimActionSink * UpdateRecord :=
  let '(s, n) := fetch_next s in
  let id := numbered "update-" n in
  let r := MkUpdate id "registered" in
  (with_updates s (<[id := r]> (sim_updates s)), r).
Definition sim_update (s : SimActionSink) (id : string) : UpdateRecord + ActionError :=
  match sim_updates s !! id with Some r => inl r | None => inr NotFound end.
Definition transition_update (s : SimActionSink) (id status : string) : SimActionSink * (UpdateRecord + ActionError) :=
  match sim_updates s !! id with
  | Some r => let r' := MkUpdate (u_id r) status in (with_updates s (<[id := r']> (sim_updates s)), inl r')
  | None => (s, inr NotFound)
  end.
Definition sim_delete_update (s : SimActionSink) (id : string) : SimActionSink * (unit + ActionError) :=
  match sim_updates s !! id with
  | Some _ => (with_updates s (delete id (sim_updates s)), inl tt)
  | None => (s, inr NotFound)
  end.

Definition sim_lifecycle_status (s : SimActionSink) (t : ResourceKey) : string := default "running" (lifecycle s !! t).
Definition sim_request_transition (s : SimActionSink) (t : ResourceKey) (transition : string) : SimActionSink * (string + ActionError) :=
  let state :=
    if bool_decide (transition ∈ ["start"; "restart"; "force-restart"]) then Some "running"
    else if bool_decide (transition ∈ ["shutdown"; "force-shutdown"]) then Some "stopped"
    else None in
  match state with
  | Some st => (with_lifecycle s (<[t := st]> (lifecycle s)), inl st)
  | None => (s, inr (BadRequest ("Unknown lifecycle transition: " +:+ transition)))
  end.

Definition sim_log_configuration (s : SimActionSink) (t : ResourceKey) : Value :=
  default (MedView.JObject [("default_level", MedView.JString "info")]) (log_configs s !! t).
Definition sim_set_log_configuration (s : SimActionSink) (t : ResourceKey) (v : Value) : SimActionSink * Value :=
  (with_log_configs s (<[t := v]> (log_configs s)), v).

#[export] Instance sim_sink : ActionSink SimActionSink := {|
  operations := λ s t, default [] (catalogue s !! t);
  start_operation := sim_start_operation;
  executions := sim_list_executions;
  execution := sim_execution;
  cancel_execution := sim_cancel_execution;
  configurations := sim_configurations;
  configuration := sim_configuration;
  set_configuration := sim_set_configuration;
  delete_configuration := sim_delete_configuration;
  delete_configurations := sim_delete_configurations;
  bulk_categories := sim_bulk_categories;
  bulk_descriptors := sim_bulk_descriptors;
  upload_bulk := sim_upload_bulk;
  download_bulk := sim_download_bulk;
  delete_bulk := sim_delete_bulk;
  scripts := sim_list_scripts;
  upload_script := sim_upload_script;
  script := sim_script;
  delete_script := sim_delete_script;
  start_script := sim_start_script;
  script_execution := sim_script_execution;
  cancel_script_execution := sim_cancel_script_execution;
  updates := sim_list_updates;
  register_update := sim_register_update;
  update := sim_update;
  prepare_update := λ s id, transition_update s id "prepared";
  execute_update := λ s id, transition_update s id "executed";
  automated_update := λ s id, transition_update s id "executed";
  delete_update := sim_delete_update;
  lifecycle_status := sim_lifecycle_status;
  request_transition := sim_request_transition;
  log_configuration := sim_log_configuration;
  set_log_configuration := sim_set_log_configuration;
|}.

(** ** The handlers *)

Inductive Body :=
| BOperations (items : list OperationDef) (total_count : Z)
| BOperation (d : OperationDef)
| BExecutions (items : list Execution) (total_count : Z)
| BExecution (e : Execution)
| BConfigs (items : list ConfigEntry) (total_count : Z)
| BConfig (c : ConfigEntry)
| BCategories (items : list BulkCategory) (total_count : Z)
| BDescriptors (items : list BulkDescriptor) (total_count : Z)
| BDescriptor (d : BulkDescriptor)
| BBytes (b : bytes)
| BScripts (items : list ScriptDef) (total_count : Z)
| BScript (d : ScriptDef)
| BUpdates (items : list UpdateRecord) (total_count : Z)
| BUpdate (r : UpdateRecord)
| BStatus (status : string)
| BValue (v : Value)
| BEmpty
| BError (e : GenericError).

Record Response := MkResponse { code : Z; body : Body }.

(** [collection]: the items with their count. *)
Definition collection {A} (mk : list A → Z → Body) (items : list A) : Response := MkResponse 200 (mk items (len items)).

(** A family's [action_error], with its messages and parameters. *)
Definition action_error (not_found conflict : string) (params : gmap string string) (e : ActionError) : ApiError :=
  match e with
  | NotFound => ApiNotFound (MkGeneric "not-found" not_found params)
  | Conflict => ApiConflict (MkGeneric "conflict" conflict params)
  | BadRequest message => ApiBadRequest (MkGeneric "invalid-parameter" message params)
  end.
Definition entity_params (t : ResourceKey) : gmap string string :=
  <["entity_id" := t.2]> {["entity" := collection_segment t.1]}.

Definition operation_error (t : ResourceKey) : ActionError → ApiError :=
  action_error "Operation or execution not found" "The execution is not in a cancellable state" (entity_params t).
Definition configuration_error (t : ResourceKey) : ActionError → ApiError :=
  action_error "Configuration not found" "The configuration is not in a writable state" (entity_params t).
Definition bulk_error (t : ResourceKey) : ActionError → ApiError :=
  action_error "Bulk-data file not found" "The bulk-data resource is not in a writable state" (entity_params t).
Definition script_error (t : ResourceKey) : ActionError → ApiError :=
  action_error "Script or execution not found" "The script resource is not in a writable state" (entity_params t).
Definition lifecycle_error (t : ResourceKey) : ActionError → ApiError :=
  action_error "Entity not found" "The lifecycle transition conflicts with the current state" (entity_params t).
Definition update_error (id : string) : ActionError → ApiError :=
  action_error "Update not found" "The update cannot be transitioned from its current state" {["update_id" := id]}.

(** A result as a response: [map] and [map_err]. *)
Definition respond {A} (ok : Z) (mk : A → Body) (err : ActionError → ApiError) (r : A + ActionError) : Response :=
  match r with
  | inl a => MkResponse ok (mk a)
  | inr e => let '(c, g) := into_response (err e) in MkResponse c (BError g)
  end.

Inductive OperationRequest :=
| OpList | OpGet (op : string)
| ExecList (op : string) | ExecStart (op : string) (args : option Value)
| ExecGet (op id : string) | ExecPut (op id : string) | ExecDelete (op id : string).
Inductive ConfigurationRequest :=
| CfgList | CfgClear | CfgGet (id : string) | CfgPut (id : string) (v : Value) | CfgDelete (id : string).
Inductive BulkRequest :=
| BulkCategories | BulkList (cat : string) | BulkUpload (cat : string) (content : bytes)
| BulkGet (cat id : string) | BulkDelete (cat id : string).
Inductive ScriptRequest :=
| ScriptList | ScriptUpload (content : bytes) | ScriptGet (id : string) | ScriptDelete (id : string)
| SexecStart (id : string) | SexecGet (id xid : string) | SexecPut (id xid : string) | SexecDelete (id xid : string).
Inductive UpdateRequest :=
| UpdList | UpdRegister (spec : option Value) | UpdGet (id : string) | UpdDelete (id : string) | UpdStatus (id : string)
| UpdPrepare (id : string) | UpdExecute (id : string) | UpdAutomated (id : string).
Inductive LifecycleRequest := LifeGet | LifePut (transition : string).
Inductive LogConfigRequest := LogConfigGet | LogConfigPut (v : Value).

(** The families; all but the updates are mounted below one entity. *)
Inductive Request :=
| ROperation (t : ResourceKey) (r : OperationRequest)
| RConfiguration (t : ResourceKey) (r : ConfigurationRequest)
| RBulk (t : ResourceKey) (r : BulkRequest)
| RScript (t : ResourceKey) (r : ScriptRequest)
| RUpdate (r : UpdateRequest)
| RLifecycle (t : ResourceKey) (r : LifecycleRequest)
| RLogConfig (t : ResourceKey) (r : LogConfigRequest).

Section handlers.
Context {S : Type} `{ActionSink S}.

(** A write: the new state and the response to its result. *)
Definition write {A} (ok : Z) (mk : A → Body) (err : ActionError → ApiError) (p : S * (A + ActionError)) : S * Response :=
  (p.1, respond ok mk err p.2).

(** [operation_def]. *)
Definition operation_def (s : S) (t : ResourceKey) (op : string) : OperationDef + ActionError :=
  match list_find (λ d, op_id d = op) (operations s t) with Some (_, d) => inl d | None => inr NotFound end.

(** The routes of actions.rs. *)
Definition operation_routes (s : S) (t : ResourceKey) (q : OperationRequest) : S * Response :=
  match q with
  | OpList => (s, collection BOperations (operations s t))
  | OpGet op => (s, respond 200 BOperation (operation_error t) (operation_def s t op))
  | ExecList op => (s, respond 200 (λ l, BExecutions l (len l)) (operation_error t) (executions s t op))
  | ExecStart op args => write 202 BExecution (operation_error t) (start_operation s t op (default MedView.JNull args))
  | ExecGet op id | ExecPut op id => (s, respond 200 BExecution (operation_error t) (execution s t op id))
  | ExecDelete op id => write 204 (λ _, BEmpty) (operation_error t) (cancel_execution s t op id)
  end.

(** The routes of configurations.rs. *)
Definition configuration_routes (s : S) (t : ResourceKey) (q : ConfigurationRequest) : S * Response :=
  match q with
  | CfgList => (s, collection BConfigs (configurations s t))
  | CfgClear => write 204 (λ _, BEmpty) (configuration_error t) (delete_configurations s t)
  | CfgGet id => (s, respond 200 BConfig (configuration_error t) (configuration s t id))
  | CfgPut id v => write 200 BConfig (configuration_error t) (set_configuration s t id v)
  | CfgDelete id => write 204 (λ _, BEmpty) (configuration_error t) (delete_configuration s t id)
  end.

(** The routes of bulkdata.rs. *)
Definition bulk_data_routes (s : S) (t : ResourceKey) (q : BulkRequest) : S * Response :=
  match q with
  | BulkCategories => (s, collection BCategories (bulk_categories s t))
  | BulkList cat => (s, collection BDescriptors (bulk_descriptors s t cat))
  | BulkUpload cat content => write 201 BDescriptor (bulk_error t) (upload_bulk s t cat content)
  | BulkGet cat id => (s, respond 200 BBytes (bulk_error t) (download_bulk s t cat id))
  | BulkDelete cat id => write 204 (λ _, BEmpty) (bulk_error t) (delete_bulk s t cat id)
  end.

(** The routes of scripts.rs. *)
Definition script_routes (s : S) (t : ResourceKey) (q : ScriptRequest) : S * Response :=
  match q with
  | ScriptList => (s, collection BScripts (scripts s t))
  | ScriptUpload content => write 201 BScript (script_error t) (upload_script s t content)
  | ScriptGet id => (s, respond 200 BScript (script_error t) (script s t id))
  | ScriptDelete id => write 204 (λ _, BEmpty) (script_error t) (delete_script s t id)
  | SexecStart id => write 202 BExecution (script_error t) (start_script s t id)
  | SexecGet id xid | SexecPut id xid => (s, respond 200 BExecution (script_error t) (script_execution s t id xid))
  | SexecDelete id xid => write 204 (λ _, BEmpty) (script_error t) (cancel_script_execution s t id xid)
  end.

(** The routes of updates.rs. *)
Definition update_routes (s : S) (q : UpdateRequest) : S * Response :=
  match q with
  | UpdList => (s, collection BUpdates (updates s))
  | UpdRegister spec =>
      let '(s', r) := register_update s (default MedView.JNull spec) in (s', MkResponse 201 (BUpdate r))
  | UpdGet id => (s, respond 200 BUpdate (update_error id) (update s id))
  | UpdDelete id => write 204 (λ _, BEmpty) (update_error id) (delete_update s id)
  | UpdStatus id =>
      (s, respond 200 (λ r, BValue (MedView.JObject [("status", MedView.JString (u_status r))])) (update_error id) (update s id))
  | UpdPrepare id => write 202 BUpdate (update_error id) (prepare_update s id)
  | UpdExecute id => write 202 BUpdate (update_error id) (execute_update s id)
  | UpdAutomated id => write 202 BUpdate (update_error id) (automated_update s id)
  end.

(** The routes of lifecycle.rs. *)
Definition lifecycle_routes (s : S) (t : ResourceKey) (q : LifecycleRequest) : S * Response :=
  match q with
  | LifeGet => (s, MkResponse 200 (BStatus (lifecycle_status s t)))
  | LifePut tr => write 202 BStatus (lifecycle_error t) (request_transition s t tr)
  end.

(** The configuration sub-resource of logs.rs. *)
Definition log_config_routes (s : S) (t : ResourceKey) (q : LogConfigRequest) : S * Response :=
  match q with
  | LogConfigGet => (s, MkResponse 200 (BValue (log_configuration s t)))
  | LogConfigPut v => let '(s', v') := set_log_configuration s t v in (s', MkResponse 200 (BValue v'))
  end.

Definition handle (s : S) (q : Request) : S * Response :=
  match q with
  | ROperation t r => operation_routes s t r
  | RConfiguration t r => configuration_routes s t r
  | RBulk t r => bulk_data_routes s t r
  | RScript t r => script_routes s t r
  | RUpdate r => update_routes s r
  | RLifecycle t r => lifecycle_routes s t r
  | RLogConfig t r => log_config_routes s t r
  end.

Fixpoint serve (s : S) (qs : list Request) : S * list Response :=
  match qs with
  | [] => (s, [])
  | q :: qs' => let '(s1, r) := handle s q in let '(s2, rs) := serve s1 qs' in (s2, r :: rs)
  end.

End handlers.

(** ** What is stored stays *)

(** A stored resource, by the request that reads it. *)
Inductive Item :=
| IExecution (t : ResourceKey) (op id : string) (e : Execution)
| IConfig (t : ResourceKey) (id : string) (v : Value)
| IFile (t : ResourceKey) (cat id : string) (content : bytes)
| IScript (t : ResourceKey) (id : string) (size : Z)
| ISexec (t : ResourceKey) (id xid : string) (e : Execution)
| IUpdate (id status : string)
| ILifecycle (t : ResourceKey) (status : string)
| ILogConfig (t : ResourceKey) (v : Value).

Definition read_request (i : Item) : Request :=
  match i with
  | IExecution t op id _ => ROperation t (ExecGet op id)
  | IConfig t id _ => RConfiguration t (CfgGet id)
  | IFile t cat id _ => RBulk t (BulkGet cat id)
  | IScript t id _ => RScript t (ScriptGet id)
  | ISexec t id xid _ => RScript t (SexecGet id xid)
  | IUpdate id _ => RUpdate (UpdGet id)
  | ILifecycle t _ => RLifecycle t LifeGet
  | ILogConfig t _ => RLogConfig t LogConfigGet
  end.
Definition read_response (i : Item) : Response :=
  MkResponse 200
    match i with
    | IExecution _ _ _ e | ISexec _ _ _ e => BExecution e
    | IConfig _ id v => BConfig (MkConfig id v)
    | IFile _ _ _ b => BBytes b
    | IScript _ id n => BScript (MkScript id n)
    | IUpdate id st => BUpdate (MkUpdate id st)
    | ILifecycle _ st => BStatus st
    | ILogConfig _ v => BValue v
    end.

(** The requests that may replace or remove an item. *)
Definition touches (q : Request) (i : Item) : bool :=
  match q, i with
  | ROperation t (ExecDelete op id), IExecution t' op' id' _ => bool_decide ((t, op, id) = (t', op', id'))
  | RConfiguration t (CfgPut id _), IConfig t' id' _ | RConfiguration t (CfgDelete id), IConfig t' id' _ => bool_decide ((t, id) = (t', id'))
  | RConfiguration t CfgClear, IConfig t' _ _ => bool_decide (t = t')
  | RBulk t (BulkDelete cat id), IFile t' cat' id' _ => bool_decide ((t, cat, id) = (t', cat', id'))
  | RScript t (ScriptDelete id), IScript t' id' _ => bool_decide ((t, id) = (t', id'))
  | RScript t (SexecDelete id xid), ISexec t' id' xid' _ => bool_decide ((t, id, xid) = (t', id', xid'))
  | RUpdate (UpdDelete id | UpdPrepare id | UpdExecute id | UpdAutomated id), IUpdate id' _ => bool_decide (id = id')
  | RLifecycle t (LifePut _), ILifecycle t' _ => bool_decide (t = t')
  | RLogConfig t (LogConfigPut _), ILogConfig t' _ => bool_decide (t = t')
  | _, _ => false
  end.

(** The item a write reports as stored. *)
Definition created (q : Request) (r : Response) : option Item :=
  match q, body r with
  | ROperation t (ExecStart op _), BExecution e => Some (IExecution t op (x_id e) e)
  | RConfiguration t (CfgPut id v), BConfig _ => Some (IConfig t id v)
  | RBulk t (BulkUpload cat content), BDescriptor d => Some (IFile t cat (file_id d) content)
  | RScript t (ScriptUpload content), BScript d => Some (IScript t (s_id d) (s_size d))
  | RScript t (SexecStart id), BExecution e => Some (ISexec t id (x_id e) e)
  | RUpdate (UpdRegister _), BUpdate u => Some (IUpdate (u_id u) (u_status u))
  | RUpdate (UpdPrepare _ | UpdExecute _ | UpdAutomated _), BUpdate u => Some (IUpdate (u_id u) (u_status u))
  | RLifecycle t (LifePut _), BStatus st => Some (ILifecycle t st)
  | RLogConfig t (LogConfigPut v), BValue _ => Some (ILogConfig t v)
  | _, _ => None
  end.

End MedActions.
