(* ===== verification/MedActionsOk.v ===== *)
(** * The write surface keeps what it stored

    In the in-memory sink identifiers are never reused, so an execution, file,
    script, configuration or update stays readable and unchanged until a request
    addresses it. *)

From stdpp Require Import base gmap list sorting strings pretty.
From Stdlib Require Import ZArith Lia.
From S2P Require Import Prelude MedModel MedView MedActions.

Module MedActionsOk.
Import MedModel MedActions.

(** ** Numbered keys *)

(** The keys of a store are numbered below the counter. *)
Definition below {A} (prefix : string) (n : Z) (m : gmap string A) : Prop :=
  ∀ id, is_Some (m !! id) → ∃ k, 0 ≤ k < n ∧ id = numbered prefix k.

Lemma below_fresh {A} p n (m : gmap string A) : 0 ≤ n → below p n m → m !! numbered p n = None.
Proof.
  intros Hn Hb. destruct (m !! numbered p n) eqn:E; [|done]. destruct (Hb (numbered p n)) as (k & Hk & Heq); [eauto|].
  apply numbered_inj in Heq; lia.
Qed.

Lemma below_mono {A} p n n' (m : gmap string A) : n ≤ n' → below p n m → below p n' m.
Proof. intros Hn Hb id H. destruct (Hb id H) as (k & ? & ?). exists k. split; [lia|done]. Qed.

Lemma below_insert {A} p n (m : gmap string A) x : 0 ≤ n → below p n m → below p (n + 1) (<[numbered p n := x]> m).
Proof.
  intros Hn Hb id H. apply lookup_insert_is_Some' in H as [<-|H]; [exists n; split; [lia|done]|].
  by apply (below_mono p n (n + 1) m ltac:(lia)).
Qed.

Lemma below_alter {A} p n (m : gmap string A) id x : is_Some (m !! id) → below p n m → below p n (<[id := x]> m).
Proof. intros Hid Hb id' [<-|H]%lookup_insert_is_Some'; by apply Hb. Qed.

Lemma below_delete {A} p n (m : gmap string A) id : below p n m → below p n (delete id m).
Proof. intros Hb id' [x [_ H]%lookup_delete_Some]. apply Hb. eauto. Qed.

Lemma below_empty {A} p n : below p n (∅ : gmap string A).
Proof. by intros id [x ?%lookup_empty_Some]. Qed.

(** ** The invariant *)

Definition scripts_of (s : SimActionSink) (t : ResourceKey) : gmap string Z := default ∅ (sim_scripts s !! t).
Definition configs_of (s : SimActionSink) (t : ResourceKey) : gmap string Value := default ∅ (configs s !! t).

Record wf (s : SimActionSink) : Prop := {
  wf_next : 0 ≤ next s;
  wf_exec : below "exec-" (next s) (sim_executions s);
  wf_file : ∀ t cat, below "file-" (next s) (files s t cat);
  wf_script : ∀ t, below "script-" (next s) (scripts_of s t);
  wf_sexec : below "sexec-" (next s) (script_execs s);
  wf_update : below "update-" (next s) (sim_updates s);
  wf_update_id : ∀ id r, sim_updates s !! id = Some r → u_id r = id;
}.

Lemma wf_new : wf sim_new.
Proof. split; simpl; try done; intros; apply below_empty. Qed.

(** What the store says of an item. *)
Definition stored (s : SimActionSink) (i : Item) : Prop :=
  match i with
  | IExecution t op id e => ∃ r, sim_executions s !! id = Some r ∧ is_exec t op r = true ∧ r_execution r = e
  | IConfig t id v => configs_of s t !! id = Some v
  | IFile t cat id b => files s t cat !! id = Some b
  | IScript t id n => scripts_of s t !! id = Some n
  | ISexec t id xid e => ∃ r, script_execs s !! xid = Some r ∧ is_script_exec t id r = true ∧ se_execution r = e
  | IUpdate id st => sim_updates s !! id = Some (MkUpdate id st)
  | ILifecycle t st => sim_lifecycle_status s t = st
  | ILogConfig t v => sim_log_configuration s t = v
  end.

(** An item is what its read request returns. *)
Lemma read_stored s i : (handle s (read_request i)).2 = read_response i ↔ stored s i.
Proof.
  destruct i as [t op id e|t id v|t cat id b|t id n|t id xid e|id st|t st|t v]; simpl; unfold read_response.
  - unfold sim_execution. destruct (sim_executions s !! id) as [r|]; [|split; [done|naive_solver]].
    destruct (is_exec t op r) eqn:E; simpl; split; [|by intros (? & [= <-] & _ & <-)| |intros (? & [= <-] & ? & _); congruence].
    + intros [= <-]. eauto.
    + done.
  - unfold sim_configuration, configs_of. destruct (configs s !! t) as [m|]; simpl; [|split; [done|by intros ?%lookup_empty_Some]].
    destruct (m !! id) as [v'|]; simpl; split; congruence.
  - unfold sim_download_bulk. destruct (files s t cat !! id) as [b'|]; simpl; split; congruence.
  - unfold sim_script, scripts_of. destruct (sim_scripts s !! t) as [m|]; simpl; [|split; [done|by intros ?%lookup_empty_Some]].
    destruct (m !! id) as [v'|]; simpl; split; congruence.
  - unfold sim_script_execution. destruct (script_execs s !! xid) as [r|]; [|split; [done|naive_solver]].
    destruct (is_script_exec t id r) eqn:E; simpl; split; [|by intros (? & [= <-] & _ & <-)| |intros (? & [= <-] & ? & _); congruence].
    + intros [= <-]. eauto.
    + done.
  - unfold sim_update. destruct (sim_updates s !! id) as [r|]; simpl; split; congruence.
  - split; [by intros [= ->]|by intros ->].
  - split; [by intros [= ->]|by intros ->].
Qed.

(** ** Each write *)

(** A write on a sink with a counter that does not wrap. *)
Record step_ok (s : SimActionSink) (q : Request) (s' : SimActionSink) : Prop := {
  so_wf : wf s';
  so_next : next s ≤ next s' ≤ next s + 1;
  so_keeps : ∀ i, stored s i → touches q i = false → stored s' i;
}.

Lemma step_same s q : wf s → step_ok s q s.
Proof. intros H. split; [done|lia|done]. Qed.

(** The counter moves on. *)
Lemma fetch_next_wf s : wf s → next s + 1 < 2 ^ 64 →
  fetch_next s = (MkSim (catalogue s) (sim_executions s) (configs s) (bulk s) (sim_scripts s) (script_execs s)
     (sim_updates s) (lifecycle s) (log_configs s) (next s + 1), next s).
Proof. intros [Hn _ _ _ _ _ _] Hb. unfold fetch_next. by rewrite wrap_small by lia. Qed.

Lemma lookup_default_insert {K A} `{Countable K} (m : gmap K (gmap string A)) k k' x :
  default ∅ (<[k := x]> m !! k') = if decide (k = k') then x else default ∅ (m !! k').
Proof. case_decide as Hk; [subst; by rewrite lookup_insert_eq|by rewrite lookup_insert_ne]. Qed.

(** The stores a write leaves alone, after the counter moved on. *)
Ltac wf_rest := split; simpl; try lia; try done; try (intros; eapply below_mono; [|by eauto]; lia).

Lemma start_operation_step s q t op args :
  wf s → next s + 1 < 2 ^ 64 → step_ok s q (sim_start_operation s t op args).1.
Proof.
  intros Hw Hb. unfold sim_start_operation. destruct (has_operation s t op); [|by apply step_same]. cbn [negb].
  rewrite fetch_next_wf by done. pose proof Hw as [Hn He Hf Hs Hx Hu Hi]. split; simpl; [|lia|].
  - wf_rest. by apply below_insert.
  - intros [t' op' id e| | | | | | |] Hst _; try exact Hst. simpl in *. destruct Hst as (r & Hr & Hst). exists r. split; [|done].
    rewrite lookup_insert_ne; [done|]. intros <-. by rewrite below_fresh in Hr.
Qed.

Lemma start_script_step s q t id : wf s → next s + 1 < 2 ^ 64 → step_ok s q (sim_start_script s t id).1.
Proof.
  intros Hw Hb. unfold sim_start_script. destruct (has_script s t id); [|by apply step_same]. cbn [negb].
  rewrite fetch_next_wf by done. pose proof Hw as [Hn He Hf Hs Hx Hu Hi]. split; simpl; [|lia|].
  - wf_rest. by apply below_insert.
  - intros [ | | | |t' id' xid e| | |] Hst _; try exact Hst. simpl in *. destruct Hst as (r & Hr & Hst). exists r. split; [|done].
    rewrite lookup_insert_ne; [done|]. intros <-. by rewrite below_fresh in Hr.
Qed.

Lemma register_update_step s q v : wf s → next s + 1 < 2 ^ 64 → step_ok s q (sim_register_update s v).1.
Proof.
  intros Hw Hb. unfold sim_register_update. rewrite fetch_next_wf by done. pose proof Hw as [Hn He Hf Hs Hx Hu Hi].
  split; simpl; [|lia|].
  - wf_rest; [by apply below_insert|]. intros id r [[<- <-]|[_ H]]%lookup_insert_Some; [done|by apply Hi].
  - intros [ | | | | |id st| |] Hst _; try exact Hst. simpl in *. rewrite lookup_insert_ne; [done|].
    intros <-. by rewrite below_fresh in Hst.
Qed.

(** The files after one category changed. *)
Lemma files_insert s t cat fs t' cat' :
  files (with_bulk s (<[t := <[cat := fs]> (default ∅ (bulk s !! t))]> (bulk s))) t' cat'
  = if decide ((t, cat) = (t', cat')) then fs else files s t' cat'.
Proof.
  unfold files. simpl. destruct (decide (t = t')) as [<-|Ht].
  - rewrite lookup_insert_eq. simpl. rewrite lookup_default_insert. repeat case_decide; simplify_eq; try done.
    by destruct (bulk s !! t).
  - rewrite lookup_insert_ne by done. rewrite decide_False; [done|]. congruence.
Qed.

Lemma upload_bulk_step s q t cat b : wf s → next s + 1 < 2 ^ 64 → step_ok s q (sim_upload_bulk s t cat b).1.
Proof.
  intros Hw Hb. unfold sim_upload_bulk. rewrite fetch_next_wf by done. pose proof Hw as [Hn He Hf Hs Hx Hu Hi].
  set (s0 := MkSim _ _ _ _ _ _ _ _ _ (next s + 1)). cbn [fst].
  assert (Hd : default ∅ (default ∅ (bulk s0 !! t) !! cat) = files s t cat) by (unfold files; simpl; by destruct (bulk s !! t)).
  rewrite Hd. split; [|simpl; lia|].
  - wf_rest. intros t' cat'. rewrite (files_insert s0). case_decide; [by apply below_insert|]. eapply below_mono; [|apply Hf]. lia.
  - intros [ | |t' cat' id c| | | | |] Hst _; try exact Hst. simpl stored in *. rewrite (files_insert s0).
    case_decide as Hc; [|exact Hst]. injection Hc as <- <-. rewrite lookup_insert_ne; [done|]. intros <-.
    by rewrite below_fresh in Hst.
Qed.

Lemma delete_bulk_step s t cat id : wf s → step_ok s (RBulk t (BulkDelete cat id)) (sim_delete_bulk s t cat id).1.
Proof.
  intros Hw. unfold sim_delete_bulk. destruct (bulk s !! t) as [cats|] eqn:Et; [|by apply step_same].
  destruct (cats !! cat) as [fs|] eqn:Ec; [|by apply step_same]. case_bool_decide; [|by apply step_same]. cbn [fst].
  assert (Hfs : files s t cat = fs) by (unfold files; rewrite Et; simpl; by rewrite Ec).
  replace cats with (default ∅ (bulk s !! t)) by (by rewrite Et). pose proof Hw as [Hn He Hf Hs Hx Hu Hi].
  split; [|simpl; lia|].
  - wf_rest. intros t' cat'. rewrite files_insert. case_decide as Hc; [|by apply Hf]. rewrite <- Hfs. by apply below_delete.
  - intros [ | |t' cat' id' c| | | | |] Hst Ht; try exact Hst. simpl stored in *. rewrite files_insert.
    case_decide as Hc; [|exact Hst]. injection Hc as <- <-. simpl in Ht. apply bool_decide_eq_false in Ht.
    rewrite lookup_delete_ne by congruence. by rewrite <- Hfs.
Qed.

Lemma upload_script_step s q t b : wf s → next s + 1 < 2 ^ 64 → step_ok s q (sim_upload_script s t b).1.
Proof.
  intros Hw Hb. unfold sim_upload_script. rewrite fetch_next_wf by done. pose proof Hw as [Hn He Hf Hs Hx Hu Hi].
  split; simpl; [|lia|].
  - wf_rest. intros t'. unfold scripts_of. simpl. rewrite lookup_default_insert.
    case_decide; [apply below_insert; [lia|apply Hs]|]. eapply below_mono; [|apply Hs]. lia.
  - intros [ | | |t' id n| | | |] Hst _; try exact Hst. simpl in *. unfold scripts_of in *. simpl.
    rewrite lookup_default_insert. destruct (decide (t = t')) as [<-|Hc]; [|exact Hst]. rewrite lookup_insert_ne; [exact Hst|]. intros <-.
    rewrite below_fresh in Hst; [done|lia|apply Hs].
Qed.

Lemma delete_script_step s t id : wf s → step_ok s (RScript t (ScriptDelete id)) (sim_delete_script s t id).1.
Proof.
  intros Hw. unfold sim_delete_script. destruct (sim_scripts s !! t) as [m|] eqn:Et; [|by apply step_same].
  case_bool_decide; [|by apply step_same]. pose proof Hw as [Hn He Hf Hs Hx Hu Hi].
  assert (Hm : scripts_of s t = m) by (unfold scripts_of; by rewrite Et). split; simpl; [|lia|].
  - wf_rest. intros t'. unfold scripts_of. simpl. rewrite lookup_default_insert.
    case_decide; [|apply Hs]. rewrite <- Hm. apply below_delete, Hs.
  - intros [ | | |t' id' n| | | |] Hst Ht; try exact Hst. simpl in *. unfold scripts_of in *. simpl.
    rewrite lookup_default_insert. destruct (decide (t = t')) as [<-|Hc]; [|exact Hst]. apply bool_decide_eq_false in Ht.
    rewrite lookup_delete_ne by congruence. by rewrite Et in Hst.
Qed.

Lemma cancel_execution_step s t op id : wf s → step_ok s (ROperation t (ExecDelete op id)) (sim_cancel_execution s t op id).1.
Proof.
  intros Hw. unfold sim_cancel_execution. destruct (sim_executions s !! id) as [r|] eqn:Er; [|by apply step_same].
  destruct (is_exec t op r) eqn:Ex; [|by apply step_same]. pose proof Hw as [Hn He Hf Hs Hx Hu Hi]. split; simpl; [|lia|].
  - wf_rest. by apply below_delete.
  - intros [t' op' id' e| | | | | | |] Hst Ht; try exact Hst. simpl in *. destruct Hst as (r' & Hr' & He' & Heq).
    exists r'. split; [|done]. rewrite lookup_delete_ne; [done|]. intros <-. rewrite Er in Hr'. injection Hr' as <-.
    apply bool_decide_eq_false in Ht. unfold is_exec in *. rewrite !andb_true_iff, !bool_decide_eq_true in *. naive_solver.
Qed.

Lemma cancel_script_step s t id xid : wf s → step_ok s (RScript t (SexecDelete id xid)) (sim_cancel_script_execution s t id xid).1.
Proof.
  intros Hw. unfold sim_cancel_script_execution. destruct (script_execs s !! xid) as [r|] eqn:Er; [|by apply step_same].
  destruct (is_script_exec t id r) eqn:Ex; [|by apply step_same]. pose proof Hw as [Hn He Hf Hs Hx Hu Hi]. split; simpl; [|lia|].
  - wf_rest. by apply below_delete.
  - intros [ | | | |t' id' xid' e| | |] Hst Ht; try exact Hst. simpl in *. destruct Hst as (r' & Hr' & He' & Heq).
    exists r'. split; [|done]. rewrite lookup_delete_ne; [done|]. intros <-. rewrite Er in Hr'. injection Hr' as <-.
    apply bool_decide_eq_false in Ht. unfold is_script_exec in *. rewrite !andb_true_iff, !bool_decide_eq_true in *. naive_solver.
Qed.

(** Configurations of one target changed. *)
Lemma config_step s q t m :
  wf s → (∀ id v, configs_of s t !! id = Some v → touches q (IConfig t id v) = false → m !! id = Some v) →
  step_ok s q (with_configs s (<[t := m]> (configs s))).
Proof.
  intros [Hn He Hf Hs Hx Hu Hi] Hm. split; simpl; [|lia|].
  - wf_rest.
  - intros [ |t' id v| | | | | |] Hst Ht; try exact Hst. simpl stored in *. unfold configs_of in *. simpl.
    rewrite lookup_default_insert. destruct (decide (t = t')) as [<-|Hc]; [by apply Hm|exact Hst].
Qed.

Lemma set_configuration_step s t id v : wf s → step_ok s (RConfiguration t (CfgPut id v)) (sim_set_configuration s t id v).1.
Proof.
  intros Hw. apply config_step; [done|]. intros id' v' Hv Ht. simpl in Ht. apply bool_decide_eq_false in Ht.
  rewrite lookup_insert_ne by congruence. exact Hv.
Qed.

Lemma delete_configuration_step s t id : wf s → step_ok s (RConfiguration t (CfgDelete id)) (sim_delete_configuration s t id).1.
Proof.
  intros Hw. unfold sim_delete_configuration. destruct (configs s !! t) as [m|] eqn:Et; [|by apply step_same].
  case_bool_decide; [|by apply step_same]. apply config_step; [done|]. intros id' v' Hv Ht. simpl in Ht.
  apply bool_decide_eq_false in Ht. rewrite lookup_delete_ne by congruence. unfold configs_of in Hv. by rewrite Et in Hv.
Qed.

Lemma clear_configurations_step s t : wf s → step_ok s (RConfiguration t CfgClear) (sim_delete_configurations s t).1.
Proof.
  intros [Hn He Hf Hs Hx Hu Hi]. split; simpl; [wf_rest|lia|].
  intros [ |t' id v| | | | | |] Hst Ht; try exact Hst. simpl in *. apply bool_decide_eq_false in Ht.
  unfold configs_of in *. simpl. by rewrite lookup_delete_ne.
Qed.

Lemma transition_step s q id st :
  wf s → (∀ st', touches q (IUpdate id st') = true) → step_ok s q (transition_update s id st).1.
Proof.
  intros Hw Ht. unfold transition_update. destruct (sim_updates s !! id) as [r|] eqn:Er; [|by apply step_same].
  pose proof Hw as [Hn He Hf Hs Hx Hu Hi]. split; simpl; [|lia|].
  - wf_rest; [apply below_alter; eauto|]. intros id' r' [[<- <-]|[_ H]]%lookup_insert_Some; [exact (Hi _ _ Er)|by apply Hi].
  - intros [ | | | | |id' st'| |] Hst Hq; try exact Hst. simpl stored in *. rewrite lookup_insert_ne; [done|]. intros <-.
    by rewrite Ht in Hq.
Qed.

Lemma delete_update_step s id : wf s → step_ok s (RUpdate (UpdDelete id)) (sim_delete_update s id).1.
Proof.
  intros Hw. unfold sim_delete_update. destruct (sim_updates s !! id) as [r|] eqn:Er; [|by apply step_same].
  pose proof Hw as [Hn He Hf Hs Hx Hu Hi]. split; simpl; [|lia|].
  - wf_rest; [by apply below_delete|]. intros id' r' [_ H]%lookup_delete_Some. by apply Hi.
  - intros [ | | | | |id' st'| |] Hst Hq; try exact Hst. simpl in *. apply bool_decide_eq_false in Hq. by rewrite lookup_delete_ne.
Qed.

(** The status of an entity whose lifecycle is not addressed. *)
Lemma lifecycle_elsewhere s t t' st st' :
  sim_lifecycle_status s t' = st' → bool_decide (t = t') = false →
  sim_lifecycle_status (with_lifecycle s (<[t := st]> (lifecycle s))) t' = st'.
Proof. intros Hs ?%bool_decide_eq_false. unfold sim_lifecycle_status in *. simpl. by rewrite lookup_insert_ne. Qed.

(** Every request. *)
Lemma handle_step s q : wf s → next s + 1 < 2 ^ 64 → step_ok s q (handle s q).1.
Proof.
  intros Hw Hb. destruct q as [t r|t r|t r|t r|r|t r|t r]; destruct r; simpl; try (by apply step_same).
  - by apply start_operation_step.
  - by apply cancel_execution_step.
  - by apply clear_configurations_step.
  - by apply set_configuration_step.
  - by apply delete_configuration_step.
  - by apply upload_bulk_step.
  - by apply delete_bulk_step.
  - by apply upload_script_step.
  - by apply delete_script_step.
  - by apply start_script_step.
  - by apply cancel_script_step.
  - exact (register_update_step s (RUpdate (UpdRegister spec)) (default MedView.JNull spec) Hw Hb).
  - by apply delete_update_step.
  - apply transition_step; [done|]. intros st'. simpl. by rewrite bool_decide_true.
  - apply transition_step; [done|]. intros st'. simpl. by rewrite bool_decide_true.
  - apply transition_step; [done|]. intros st'. simpl. by rewrite bool_decide_true.
  - unfold sim_request_transition. repeat case_bool_decide; simpl; try (by apply step_same);
      (destruct Hw as [Hn He Hf Hs Hx Hu Hi]; split; simpl; [wf_rest|lia|]; intros [ | | | | | |t' st|] Hst Ht; try exact Hst;
       by apply lifecycle_elsewhere).
  - destruct Hw as [Hn He Hf Hs Hx Hu Hi]. split; simpl; [wf_rest|lia|].
    intros [ | | | | | | |t' v'] Hst Ht; try exact Hst. simpl in *. apply bool_decide_eq_false in Ht.
    unfold sim_log_configuration in *. simpl. by rewrite lookup_insert_ne.
Qed.

Lemma transition_stored s id st i :
  wf s →
  match body (respond 202 BUpdate (update_error id) (transition_update s id st).2) with
  | BUpdate u => Some (IUpdate (u_id u) (u_status u)) | _ => None end = Some i →
  stored (transition_update s id st).1 i.
Proof.
  intros Hw. unfold transition_update. destruct (sim_updates s !! id) as [r|] eqn:Er; [|done]. simpl. intros [= <-]. simpl.
  rewrite (wf_update_id s Hw id r Er). apply lookup_insert_eq.
Qed.

(** What a write reports is stored. *)
Lemma created_stored s q i : wf s → next s + 1 < 2 ^ 64 → created q (handle s q).2 = Some i → stored (handle s q).1 i.
Proof.
  intros Hw Hb Hc. destruct q as [t r|t r|t r|t r|r|t r|t r]; destruct r; unfold created in Hc;
    cbn [handle operation_routes configuration_routes bulk_data_routes script_routes update_routes lifecycle_routes
      log_config_routes write] in Hc |- *;
    try discriminate Hc; cbn [fst snd start_operation set_configuration upload_bulk upload_script start_script
      register_update prepare_update execute_update automated_update request_transition set_log_configuration
      sim_sink] in Hc |- *.
  - unfold sim_start_operation in *. destruct (has_operation s t op); [|done]. cbn [negb] in *.
    rewrite fetch_next_wf in * by done. simpl in *. injection Hc as <-. simpl. eexists. rewrite lookup_insert_eq.
    split; [done|]. unfold is_exec. simpl. by rewrite !bool_decide_true.
  - injection Hc as <-. simpl. unfold configs_of. simpl. rewrite lookup_insert_eq. simpl. apply lookup_insert_eq.
  - unfold sim_upload_bulk in *. rewrite fetch_next_wf in * by done. injection Hc as <-. unfold stored, write. cbn [fst].
    set (s0 := MkSim _ _ _ _ _ _ _ _ _ (next s + 1)). rewrite (files_insert s0), decide_True by done. apply lookup_insert_eq.
  - unfold sim_upload_script in *. rewrite fetch_next_wf in * by done. injection Hc as <-. simpl. unfold scripts_of. simpl.
    rewrite lookup_insert_eq. simpl. apply lookup_insert_eq.
  - unfold sim_start_script in *. destruct (has_script s t id); [|done]. cbn [negb] in *.
    rewrite fetch_next_wf in * by done. simpl in *. injection Hc as <-. simpl. eexists. rewrite lookup_insert_eq.
    split; [done|]. unfold is_script_exec. simpl. by rewrite !bool_decide_true.
  - unfold sim_register_update in *. rewrite fetch_next_wf in * by done. injection Hc as <-. simpl. apply lookup_insert_eq.
  - by apply (transition_stored s id "prepared").
  - by apply (transition_stored s id "executed").
  - by apply (transition_stored s id "executed").
  - unfold sim_request_transition in *. repeat case_bool_decide; simpl in Hc |- *; simplify_eq; simpl;
      unfold sim_lifecycle_status; simpl; by rewrite lookup_insert_eq.
  - injection Hc as <-. simpl. unfold sim_log_configuration. simpl. by rewrite lookup_insert_eq.
Qed.

(** What the write surface stored stays.  Whatever sequence of requests is
    served, an item that a write reported (an execution, a configuration, a file, a
    script, an update, a lifecycle state, a log configuration) is returned unchanged by its read request until a request
    addresses that very item; in particular no other write reuses its identifier. *)
Theorem stored_until_touched (s : SimActionSink) (q : Request) (i : Item) (qs : list Request)
    (Hw : wf s) (Hn : next s + Z.of_nat (length qs) + 2 < 2 ^ 64)
    (Hq : created q (handle s q).2 = Some i) (Hqs : Forall (λ q', touches q' i = false) qs) :
  (handle (serve (handle s q).1 qs).1 (read_request i)).2 = read_response i.
Proof.
  apply read_stored. assert (Hst : stored (handle s q).1 i) by (apply created_stored; [done|lia|done]).
  destruct (handle_step s q Hw ltac:(lia)) as [Hw1 Hn1 _]. revert Hw1 Hn1 Hst. generalize (handle s q).1 as s1.
  intros s1 Hw1 Hn1 Hst. assert (Hn2 : next s1 + Z.of_nat (length qs) + 1 < 2 ^ 64) by lia. clear Hn1 Hn Hq.
  revert s1 Hw1 Hn2 Hst. induction Hqs as [|q' qs Hq' Hqs IH]; intros s1 Hw1 Hn2 Hst; [done|].
  cbn [serve]. destruct (handle_step s1 q' Hw1) as [Hw2 Hn3 Hk]; [simpl in Hn2; lia|].
  destruct (handle s1 q') as [s2 r]. destruct (serve s2 qs) as [s3 rs] eqn:E. cbn [fst] in *.
  specialize (IH s2 Hw2). rewrite E in IH. apply IH; [simpl in Hn2; lia|by apply Hk].
Qed.

Lemma stored_until_touched_witness :
  (handle (serve (handle sim_new (RBulk (App, "a") (BulkUpload "maps" [1; 2; 3]))).1
     [RBulk (App, "a") (BulkUpload "maps" [4]); RBulk (App, "a") (BulkDelete "maps" "file-1"); RConfiguration (App, "a") CfgClear]).1
     (RBulk (App, "a") (BulkGet "maps" "file-0"))).2 = MkResponse 200 (BBytes [1; 2; 3]).
Proof.
  apply (stored_until_touched sim_new (RBulk (App, "a") (BulkUpload "maps" [1; 2; 3])) (IFile (App, "a") "maps" "file-0" [1; 2; 3])).
  - apply wf_new.
  - simpl. lia.
  - vm_compute. reflexivity.
  - repeat apply Forall_cons_2; [..|apply Forall_nil_2]; vm_compute; reflexivity.
Defined.

(** An executed update can be prepared again, although the record's states are
    documented as registered, prepared, executed. *)
Example update_regresses :
  let s := (serve sim_new (RUpdate <$> [UpdRegister None; UpdExecute "update-0"; UpdPrepare "update-0"])).1 in
  (handle s (RUpdate (UpdGet "update-0"))).2 = MkResponse 200 (BUpdate (MkUpdate "update-0" "prepared")).
Proof. vm_compute. reflexivity. Qed.

End MedActionsOk.
