(* ===== verification/MedAuth.v ===== *)
(** * Token issuance of the diagnostic gateway

    Models [taktora-medkit-gateway-axum/src/auth.rs]: the permissive
    authenticator with its hand-built claims and base64url encoding, and the
    responses of the token endpoints.  A Rust string is its UTF-8 bytes; the only
    characters [json_string] looks at are ASCII, so walking bytes and walking
    characters agree. *)

From stdpp Require Import base gmap list strings pretty.
From Stdlib Require Import ZArith Lia Ascii.
From S2P Require Import Prelude MedModel MedView.

Module MedAuth.
Import MedModel.

Definition byte_of (a : ascii) : Z := Z.of_N (N_of_ascii a).
Fixpoint as_bytes (s : string) : list Z :=
  match s with EmptyString => [] | String a s' => byte_of a :: as_bytes s' end.

(** ** Base64url *)

Definition ALPHABET : string := "ABCDEFGHIJKLMNOPQRSTUVWXYZabcdefghijklmnopqrstuvwxyz0123456789-_".
(** An index is masked to six bits, so it is always inside the table. *)
Definition alphabet_at (n : Z) : ascii := default "A"%char (String.get (Z.to_nat n) ALPHABET).

Definition sextet (triple shift : Z) : ascii := alphabet_at (Z.land (Z.shiftr triple shift) 63).
Definition triple_of (b0 b1 b2 : Z) : Z := Z.lor (Z.lor (Z.shiftl b0 16) (Z.shiftl b1 8)) b2.

(** [chunks(3)]: the last chunk may be shorter, and is padded with zero bits. *)
Fixpoint base64url (input : list Z) : string :=
  match input with
  | [] => ""
  | [b0] => let t := triple_of b0 0 0 in String (sextet t 18) (String (sextet t 12) "")
  | [b0; b1] => let t := triple_of b0 b1 0 in String (sextet t 18) (String (sextet t 12) (String (sextet t 6) ""))
  | b0 :: b1 :: b2 :: rest =>
      let t := triple_of b0 b1 b2 in
      String (sextet t 18) (String (sextet t 12) (String (sextet t 6) (String (sextet t 0) (base64url rest))))
  end.

(** ** Claims *)

Definition quote_char : ascii := "034"%char.
Definition backslash : ascii := "\"%char.
Definition q : string := String quote_char "".

Fixpoint escape (s : string) : string :=
  match s with
  | EmptyString => ""
  | String a s' =>
      if bool_decide (a = quote_char) then String backslash (String quote_char (escape s'))
      else if bool_decide (a = backslash) then String backslash (String backslash (escape s'))
      else String a (escape s')
  end.
Definition json_string (value : string) : string := q +:+ escape value +:+ q.

Definition claims (subject scope : string) (expires_in : Z) : string :=
  "{" +:+ q +:+ "sub" +:+ q +:+ ":" +:+ json_string subject +:+ "," +:+ q +:+ "scope" +:+ q +:+ ":" +:+ json_string scope
  +:+ "," +:+ q +:+ "token_use" +:+ q +:+ ":" +:+ q +:+ "access" +:+ q +:+ "," +:+ q +:+ "exp_in" +:+ q +:+ ":"
  +:+ pretty (Z.to_N expires_in) +:+ "}".
Definition header : string :=
  "{" +:+ q +:+ "alg" +:+ q +:+ ":" +:+ q +:+ "none" +:+ q +:+ "," +:+ q +:+ "typ" +:+ q +:+ ":" +:+ q +:+ "JWT" +:+ q +:+ "}".

Definition dev_jwt (subject scope : string) (expires_in : Z) : string :=
  base64url (as_bytes header) +:+ "." +:+ base64url (as_bytes (claims subject scope expires_in)) +:+ "."
  +:+ base64url (as_bytes "unsigned-dev-token").

(** ** The authenticator *)

Record AuthCredentials := MkCredentials {
  grant_type : string;
  client_id : option string;
  client_secret : option string;
  refresh_token : option string;
  scope : option string;
}.
Record AuthTokenResponse := MkToken {
  access_token : string;
  token_type : string;
  expires_in : Z;
  granted_scope : string;
  new_refresh_token : option string;
}.
Record AuthRejection := MkRejection { status : Z; r_code : string; r_message : string }.
Definition invalid_client (message : string) : AuthRejection := MkRejection 401 "invalid-client" message.
Definition unsupported_grant_type (message : string) : AuthRejection := MkRejection 400 "unsupported-grant-type" message.

(** [Authenticator]. *)
Class Authenticator (A : Type) := {
  issue_token : A → AuthCredentials → AuthTokenResponse + AuthRejection;
  verify_bearer : A → option string → unit + AuthRejection;
}.

Definition DEFAULT_EXPIRES_IN : Z := 3600.
Definition DEFAULT_SCOPE : string := "medkit:read".

Inductive PermissiveAuthenticator := Permissive.
Definition permissive_issue (c : AuthCredentials) : AuthTokenResponse :=
  let sc := default DEFAULT_SCOPE (s ← scope c; if bool_decide (s = "") then None else Some s) in
  let subject := default "dev-client" (client_id c) in
  MkToken (dev_jwt subject sc DEFAULT_EXPIRES_IN) "Bearer" DEFAULT_EXPIRES_IN sc None.
#[export] Instance permissive : Authenticator PermissiveAuthenticator := {|
  issue_token := λ _ c, inl (permissive_issue c);
  verify_bearer := λ _ _, inl tt;
|}.

(** [token_handler] and [revoke_handler], and the responses with auth disabled. *)
Definition token_handler {A} `{Authenticator A} (a : A) (c : AuthCredentials) : Z * (AuthTokenResponse + GenericError) :=
  match issue_token a c with
  | inl t => (200, inl t)
  | inr r => (status r, inr (MkGeneric (r_code r) (r_message r) ∅))
  end.
Definition revoke_handler : Z * string := (200, "revoked").
Definition auth_absent : Z * GenericError :=
  (404, MkGeneric "not-found" "Authentication is not enabled on this gateway" ∅).

(** ** Reference decoders *)

(** RFC 4648 base64url without padding. *)
Fixpoint index_in (s : string) (a : ascii) : option Z :=
  match s with
  | EmptyString => None
  | String b s' => if bool_decide (a = b) then Some 0 else (λ n, n + 1) <$> index_in s' a
  end.
Definition sextet_value (a : ascii) : option Z := index_in ALPHABET a.

Fixpoint decode64 (s : string) : option (list Z) :=
  match s with
  | EmptyString => Some []
  | String _ EmptyString => None
  | String a (String b EmptyString) =>
      x ← sextet_value a; y ← sextet_value b; Some [x * 4 + y / 16]
  | String a (String b (String c EmptyString)) =>
      x ← sextet_value a; y ← sextet_value b; z ← sextet_value c; Some [x * 4 + y / 16; y mod 16 * 16 + z / 4]
  | String a (String b (String c (String d rest))) =>
      x ← sextet_value a; y ← sextet_value b; z ← sextet_value c; w ← sextet_value d; l ← decode64 rest;
      Some (x * 4 + y / 16 :: y mod 16 * 16 + z / 4 :: z mod 4 * 64 + w :: l)
  end.

(** RFC 8259 string literals, with the two escapes the encoder uses: after the
    opening quote, characters other than quotes, backslashes and control characters
    stand for themselves. *)
Fixpoint parse_chars (s : string) : option (string * string) :=
  match s with
  | EmptyString => None
  | String a s' =>
      if bool_decide (a = quote_char) then Some ("", s')
      else if bool_decide (a = backslash) then
        match s' with
        | String b s'' =>
            if bool_decide (b = quote_char) || bool_decide (b = backslash) then
              '(v, rest) ← parse_chars s''; Some (String b v, rest)
            else None
        | EmptyString => None
        end
      else if byte_of a <? 32 then None
      else '(v, rest) ← parse_chars s'; Some (String a v, rest)
  end.
Definition parse_literal (s : string) : option (string * string) :=
  match s with String a s' => if bool_decide (a = quote_char) then parse_chars s' else None | EmptyString => None end.

(** The subject and the scope of a claims object. *)
Fixpoint strip (pre s : string) : option string :=
  match pre, s with
  | EmptyString, _ => Some s
  | String a pre', String b s' => if bool_decide (a = b) then strip pre' s' else None
  | String _ _, EmptyString => None
  end.
Definition parse_claims (s : string) : option (string * string) :=
  s1 ← strip ("{" +:+ q +:+ "sub" +:+ q +:+ ":") s;
  '(sub, s2) ← parse_literal s1;
  s3 ← strip ("," +:+ q +:+ "scope" +:+ q +:+ ":") s2;
  '(sc, _) ← parse_literal s3;
  Some (sub, sc).

(** No control characters. *)
Fixpoint printable (s : string) : bool :=
  match s with EmptyString => true | String a s' => (32 <=? byte_of a) && printable s' end.

Example token_sample :
  option_map (λ t, length (MedView.split "."%char (access_token t)))
    (match token_handler Permissive (MkCredentials "client_credentials" None None None None) with (200, inl t) => Some t | _ => None end)
  = Some 3%nat.
Proof. vm_compute. reflexivity. Qed.

(** ** Encoding and decoding *)

Lemma sextet_roundtrip n : 0 ≤ n < 64 → sextet_value (alphabet_at n) = Some n.
Proof.
  intros Hn. assert (Hall : Forall (λ n, sextet_value (alphabet_at n) = Some n) (seqZ 0 64)).
  { apply (bool_decide_unpack _). vm_compute. reflexivity. }
  rewrite Forall_forall in Hall. apply Hall, elem_of_seqZ. lia.
Qed.

(** A character of a token segment is not a dot. *)
Lemma alphabet_no_dot n : 0 ≤ n < 64 → alphabet_at n ≠ "."%char.
Proof.
  intros Hn. assert (Hall : Forall (λ n, alphabet_at n ≠ "."%char) (seqZ 0 64)).
  { apply (bool_decide_unpack _). vm_compute. reflexivity. }
  rewrite Forall_forall in Hall. apply Hall, elem_of_seqZ. lia.
Qed.

Lemma triple_arith b0 b1 b2 : is_u 8 b0 → is_u 8 b1 → is_u 8 b2 → triple_of b0 b1 b2 = b0 * 65536 + b1 * 256 + b2.
Proof.
  unfold is_u, triple_of. intros H0 H1 H2. rewrite !Z.shiftl_mul_pow2 by lia.
  rewrite (lor_disjoint_add (b1 * 2 ^ 8) b0 16) by lia.
  replace (b0 * 2 ^ 16 + b1 * 2 ^ 8) with ((b0 * 256 + b1) * 2 ^ 8) by lia.
  rewrite lor_disjoint_add by lia. lia.
Qed.

Lemma sextet_arith t k : 0 ≤ k → sextet t k = alphabet_at (t / 2 ^ k mod 64) .
Proof.
  intros Hk. unfold sextet. rewrite Z.shiftr_div_pow2 by done. do 2 f_equal. by rewrite (land_mask _ 63 6).
Qed.

Lemma sextet_decoded t k : 0 ≤ k → sextet_value (sextet t k) = Some (t / 2 ^ k mod 64).
Proof. intros Hk. rewrite sextet_arith by done. apply sextet_roundtrip. apply Z.mod_pos_bound. lia. Qed.

(** A chunk of three. *)
Lemma base64url_cons b0 b1 b2 rest :
  base64url (b0 :: b1 :: b2 :: rest) =
  String (sextet (triple_of b0 b1 b2) 18) (String (sextet (triple_of b0 b1 b2) 12)
    (String (sextet (triple_of b0 b1 b2) 6) (String (sextet (triple_of b0 b1 b2) 0) (base64url rest)))).
Proof. done. Qed.

(** Induction by chunks. *)
Lemma chunks_ind (P : list Z → Prop) :
  P [] → (∀ a, P [a]) → (∀ a b, P [a; b]) → (∀ a b c l, P l → P (a :: b :: c :: l)) → ∀ l, P l.
Proof.
  intros H0 H1 H2 H3. fix F 1. intros [|a [|b [|c l]]]; [exact H0|exact (H1 a)|exact (H2 a b)|]. apply H3, F.
Qed.

Lemma decode_base64url l : is_bytes l → decode64 (base64url l) = Some l.
Proof.
  induction l as [|a|a b|a b c l IH] using chunks_ind; intros Hl.
  - done.
  - assert (Ha : is_u 8 a) by (by inversion Hl). unfold base64url, decode64. rewrite !sextet_decoded by lia. simpl.
    rewrite triple_arith by (unfold is_u in *; lia). unfold is_u in *. do 2 f_equal. zdiv.
  - apply Forall_cons in Hl as [Ha Hl]. apply Forall_cons in Hl as [Hb _].
    unfold base64url, decode64. rewrite !sextet_decoded by lia. simpl.
    rewrite triple_arith by (unfold is_u in *; lia). unfold is_u in *. f_equal. f_equal; [zdiv|]. f_equal. zdiv.
  - apply Forall_cons in Hl as [Ha Hl]. apply Forall_cons in Hl as [Hb Hl]. apply Forall_cons in Hl as [Hc Hl].
    rewrite base64url_cons. cbn [decode64]. rewrite !sextet_decoded by lia. cbn [mbind option_bind]. rewrite (IH Hl).
    cbn [mbind option_bind]. rewrite triple_arith by done. unfold is_u in *. f_equal. f_equal; [zdiv|]. f_equal; [zdiv|]. f_equal. zdiv.
Qed.

(** No dot in a string. *)
Fixpoint dotless (s : string) : Prop :=
  match s with EmptyString => True | String a s' => a ≠ "."%char ∧ dotless s' end.

Lemma base64url_dotless l : dotless (base64url l).
Proof.
  assert (Hs : ∀ t k, 0 ≤ k → sextet t k ≠ "."%char).
  { intros t k Hk. rewrite sextet_arith by done. apply alphabet_no_dot, Z.mod_pos_bound. lia. }
  induction l as [|a|a b|a b c l IH] using chunks_ind; [done| | |]; simpl;
    repeat (split; [apply Hs; lia|]); done.
Qed.

Lemma split_dotless s rest : dotless s → MedView.split "."%char (s +:+ String "."%char rest) = s :: MedView.split "."%char rest.
Proof.
  induction s as [|a s IH]; intros Hd; [done|]. destruct Hd as [Ha Hd].
  change (String a s +:+ String "."%char rest) with (String a (s +:+ String "."%char rest)). simpl.
  rewrite bool_decide_false by done. by rewrite IH.
Qed.

Lemma split_dotless_end s : dotless s → MedView.split "."%char s = [s].
Proof.
  induction s as [|a s IH]; intros Hd; [done|]. destruct Hd as [Ha Hd]. simpl. rewrite bool_decide_false by done. by rewrite IH.
Qed.

Lemma as_bytes_bytes s : is_bytes (as_bytes s).
Proof.
  induction s as [|a s IH]; [constructor|]. constructor; [|done]. unfold is_u, byte_of.
  pose proof (N_ascii_bounded a). lia.
Qed.

(** ** String literals *)

Lemma escape_parsed s rest :
  parse_chars (escape s +:+ String quote_char rest) = if printable s then Some (s, rest) else None.
Proof.
  induction s as [|a s IH]; [done|]. cbn [escape printable].
  destruct (decide (a = quote_char)) as [-> |Hq]; [|destruct (decide (a = backslash)) as [-> |Hb]].
  - rewrite bool_decide_true by done.
    change (String backslash (String quote_char (escape s)) +:+ String quote_char rest) with
      (String backslash (String quote_char (escape s +:+ String quote_char rest))).
    cbn [parse_chars]. change (32 <=? byte_of quote_char) with true. simpl. rewrite IH. by destruct (printable s).
  - rewrite bool_decide_false, bool_decide_true by done.
    change (String backslash (String backslash (escape s)) +:+ String quote_char rest) with
      (String backslash (String backslash (escape s +:+ String quote_char rest))).
    cbn [parse_chars]. change (32 <=? byte_of backslash) with true. simpl. rewrite IH. by destruct (printable s).
  - rewrite !bool_decide_false by done.
    change (String a (escape s) +:+ String quote_char rest) with (String a (escape s +:+ String quote_char rest)).
    cbn [parse_chars]. rewrite !bool_decide_false by done. rewrite IH.
    destruct (Z.ltb_spec (byte_of a) 32), (Z.leb_spec 32 (byte_of a)); try lia; [done|]. simpl. by destruct (printable s).
Qed.

Lemma literal_parsed value rest :
  parse_literal (json_string value +:+ rest) = if printable value then Some (value, rest) else None.
Proof.
  unfold json_string.
  change ((q +:+ escape value +:+ q) +:+ rest) with (String quote_char ((escape value +:+ q) +:+ rest)).
  unfold parse_literal. rewrite bool_decide_true by done. rewrite append_assoc. apply escape_parsed.
Qed.

Lemma strip_app pre s : strip pre (pre +:+ s) = Some s.
Proof.
  induction pre as [|a pre IH]; [done|].
  change (String a pre +:+ s) with (String a (pre +:+ s)). cbn [strip]. by rewrite bool_decide_true.
Qed.

Lemma claims_parsed subject sc e :
  parse_claims (claims subject sc e) = if printable subject && printable sc then Some (subject, sc) else None.
Proof.
  unfold parse_claims, claims.
  match goal with |- context [json_string subject +:+ ?r] =>
    change (strip ?p (_ +:+ _)) with (strip p (("{" +:+ q +:+ "sub" +:+ q +:+ ":") +:+ (json_string subject +:+ r))) end.
  rewrite strip_app. cbn [mbind option_bind]. rewrite literal_parsed.
  destruct (printable subject); [|done]. cbn [mbind option_bind andb].
  match goal with |- context [json_string sc +:+ ?r] =>
    change (strip ?p (_ +:+ _)) with (strip p (("," +:+ q +:+ "scope" +:+ q +:+ ":") +:+ (json_string sc +:+ r))) end.
  rewrite strip_app. cbn [mbind option_bind]. rewrite literal_parsed. by destruct (printable sc).
Qed.

Lemma jwt_segments subject sc e :
  MedView.split "."%char (dev_jwt subject sc e)
  = [base64url (as_bytes header); base64url (as_bytes (claims subject sc e)); base64url (as_bytes "unsigned-dev-token")].
Proof.
  unfold dev_jwt. pose proof base64url_dotless as Hd.
  change (String.append "." ?x) with (String "."%char x). rewrite (split_dotless _ _ (Hd _)).
  change (String.append "." ?x) with (String "."%char x). rewrite (split_dotless _ _ (Hd _)).
  by rewrite (split_dotless_end _ (Hd _)).
Qed.

(** Tokens are what the clients expect.  The permissive authenticator answers
    every request with a bearer token of exactly three dot-separated base64url
    segments; the second decodes to the claims, in which the subject and the scope
    read back as given, provided neither contains a control character; otherwise
    the claims are not JSON. *)
Theorem token_roundtrip (c : AuthCredentials) :
  let subject := default "dev-client" (client_id c) in
  ∃ t header payload signature,
    token_handler Permissive c = (200, inl t)
    ∧ token_type t = "Bearer"
    ∧ MedView.split "."%char (access_token t) = [header; payload; signature]
    ∧ decode64 payload = Some (as_bytes (claims subject (granted_scope t) (expires_in t)))
    ∧ parse_claims (claims subject (granted_scope t) (expires_in t)) =
        if printable subject && printable (granted_scope t) then Some (subject, granted_scope t) else None.
Proof.
  intros subject. do 4 eexists. split; [done|]. split; [done|].
  split; [|split; [apply decode_base64url, as_bytes_bytes|apply claims_parsed]]. cbn [access_token permissive_issue].
  apply jwt_segments.
Qed.

End MedAuth.
