(* ===== verification/MedRoutes.v ===== *)
(** * The HTTP surface of the diagnostic gateway

    Models [taktora-medkit-gateway-axum/src/lib.rs]: the routes the gateway mounts,
    the fallback, the documents that advertise them (the entity detail document,
    and the root document of [taktora-medkit-gateway/src/view.rs]) and the handlers
    of the read core.  Choosing the route of a path is the work of the axum
    package: it is a class, with what its documentation says of matching. *)

From stdpp Require Import base gmap list strings pretty.
From Stdlib Require Import ZArith Lia Ascii.
From S2P Require Import Prelude MedModel MedView.

Module MedRoutes.
Import MedModel.

Abbreviation Value := MedView.Value.
Abbreviation Relation := MedView.Relation.
#[local] Existing Instance MedView.relation_eq_dec.

(** ** Routes *)

Inductive Method := GET | POST | PUT | DELETE.
#[export] Instance method_eq_dec : EqDecision Method.
Proof. solve_decision. Defined.

(** A pattern: literal segments, a capture of one segment, of all that remain. *)
Inductive Piece := Lit (s : string) | Capture (name : string) | Wildcard (name : string).

Inductive Handler :=
| RootDoc | VersionInfo | HealthDoc | GlobalFaults | FaultStream
| EntityList (k : EntityKind) | EntityDetail (k : EntityKind) | EntityFaults (k : EntityKind) | FaultOne (k : EntityKind)
| EntityData (k : EntityKind) | DataTopic (k : EntityKind) | Related (k : EntityKind) (r : Relation)
| GlobalTriggers | TriggerEvents | GlobalTrigger
| EntityTriggers (k : EntityKind) | EntityTrigger (k : EntityKind) | EntityTriggerEvents (k : EntityKind)
| Cyclics (k : EntityKind) | Cyclic (k : EntityKind) | CyclicEvents (k : EntityKind)
| Locks (k : EntityKind) | Lock (k : EntityKind)
| Operations (k : EntityKind) | Operation (k : EntityKind) | Executions (k : EntityKind) | Execution (k : EntityKind)
| Configurations (k : EntityKind) | Configuration (k : EntityKind)
| BulkData (k : EntityKind) | BulkCategory (k : EntityKind) | BulkFile (k : EntityKind)
| Scripts (k : EntityKind) | Script (k : EntityKind) | ScriptExecutions (k : EntityKind) | ScriptExecution (k : EntityKind)
| Updates | Update | UpdateStatus | UpdatePrepare | UpdateExecute | UpdateAutomated
| Status (k : EntityKind) | Transition (k : EntityKind)
| Logs (k : EntityKind) | LogConfiguration (k : EntityKind)
| AuthToken | AuthRevoke | AuthAbsent.
#[export] Instance handler_eq_dec : EqDecision Handler.
Proof. solve_decision. Defined.

Record Route := MkRoute { path : list Piece; methods : list Method; handler : Handler }.

(** [API_BASE], in segments: a path starts with a slash. *)
Definition api : list Piece := [Lit ""; Lit "api"; Lit "v1"].
Definition of_kind (k : EntityKind) : list Piece := api ++ [Lit (collection_segment k)].
(** [{API_BASE}/{collection}/{id}/…]. *)
Definition of_entity (k : EntityKind) (rest : list Piece) : list Piece := of_kind k ++ Capture "id" :: rest.

Definition kind_relations (k : EntityKind) : list Relation :=
  match k with
  | Area => [MedView.Contains; MedView.Components]
  | Component => [MedView.Subcomponents; MedView.Hosts; MedView.DependsOn]
  | App => [MedView.IsLocatedOn; MedView.BelongsTo; MedView.DependsOn]
  | Function_ => [MedView.Hosts]
  end.

Definition kind_routes (k : EntityKind) : list Route :=
  [ MkRoute (of_kind k) [GET] (EntityList k);
    MkRoute (of_entity k []) [GET] (EntityDetail k);
    MkRoute (of_entity k [Lit "faults"]) [GET] (EntityFaults k);
    MkRoute (of_entity k [Lit "faults"; Capture "fault_code"]) [GET; DELETE] (FaultOne k);
    MkRoute (of_entity k [Lit "data"]) [GET] (EntityData k);
    MkRoute (of_entity k [Lit "data"; Wildcard "topic"]) [GET] (DataTopic k) ]
  ++ ((λ r, MkRoute (of_entity k [Lit (MedView.segment r)]) [GET] (Related k r)) <$> kind_relations k).

Definition trigger_routes (k : EntityKind) : list Route :=
  [ MkRoute (of_entity k [Lit "triggers"]) [GET; POST] (EntityTriggers k);
    MkRoute (of_entity k [Lit "triggers"; Capture "trigger_id"]) [GET; PUT; DELETE] (EntityTrigger k);
    MkRoute (of_entity k [Lit "triggers"; Capture "trigger_id"; Lit "events"]) [GET] (EntityTriggerEvents k) ].
Definition cyclic_routes (k : EntityKind) : list Route :=
  [ MkRoute (of_entity k [Lit "cyclic-subscriptions"]) [GET; POST] (Cyclics k);
    MkRoute (of_entity k [Lit "cyclic-subscriptions"; Capture "sub_id"]) [GET; PUT; DELETE] (Cyclic k);
    MkRoute (of_entity k [Lit "cyclic-subscriptions"; Capture "sub_id"; Lit "events"]) [GET] (CyclicEvents k) ].
Definition lock_routes (k : EntityKind) : list Route :=
  [ MkRoute (of_entity k [Lit "locks"]) [POST; GET] (Locks k);
    MkRoute (of_entity k [Lit "locks"; Capture "lock_id"]) [GET; PUT; DELETE] (Lock k) ].
Definition operation_paths (k : EntityKind) : list Route :=
  [ MkRoute (of_entity k [Lit "operations"]) [GET] (Operations k);
    MkRoute (of_entity k [Lit "operations"; Capture "op"]) [GET] (Operation k);
    MkRoute (of_entity k [Lit "operations"; Capture "op"; Lit "executions"]) [GET; POST] (Executions k);
    MkRoute (of_entity k [Lit "operations"; Capture "op"; Lit "executions"; Capture "exec_id"]) [GET; PUT; DELETE] (Execution k) ].
Definition configuration_paths (k : EntityKind) : list Route :=
  [ MkRoute (of_entity k [Lit "configurations"]) [GET; DELETE] (Configurations k);
    MkRoute (of_entity k [Lit "configurations"; Capture "config_id"]) [GET; PUT; DELETE] (Configuration k) ].
Definition bulk_data_paths (k : EntityKind) : list Route :=
  [ MkRoute (of_entity k [Lit "bulk-data"]) [GET] (BulkData k);
    MkRoute (of_entity k [Lit "bulk-data"; Capture "category_id"]) [GET; POST] (BulkCategory k);
    MkRoute (of_entity k [Lit "bulk-data"; Capture "category_id"; Capture "file_id"]) [GET; DELETE] (BulkFile k) ].
Definition script_paths (k : EntityKind) : list Route :=
  [ MkRoute (of_entity k [Lit "scripts"]) [GET; POST] (Scripts k);
    MkRoute (of_entity k [Lit "scripts"; Capture "script_id"]) [GET; DELETE] (Script k);
    MkRoute (of_entity k [Lit "scripts"; Capture "script_id"; Lit "executions"]) [POST] (ScriptExecutions k);
    MkRoute (of_entity k [Lit "scripts"; Capture "script_id"; Lit "executions"; Capture "exec_id"]) [GET; PUT; DELETE] (ScriptExecution k) ].
Definition update_paths : list Route :=
  [ MkRoute (api ++ [Lit "updates"]) [GET; POST] Updates;
    MkRoute (api ++ [Lit "updates"; Capture "update_id"]) [GET; DELETE] Update;
    MkRoute (api ++ [Lit "updates"; Capture "update_id"; Lit "status"]) [GET] UpdateStatus;
    MkRoute (api ++ [Lit "updates"; Capture "update_id"; Lit "prepare"]) [PUT] UpdatePrepare;
    MkRoute (api ++ [Lit "updates"; Capture "update_id"; Lit "execute"]) [PUT] UpdateExecute;
    MkRoute (api ++ [Lit "updates"; Capture "update_id"; Lit "automated"]) [PUT] UpdateAutomated ].
Definition lifecycle_paths (k : EntityKind) : list Route :=
  [ MkRoute (of_entity k [Lit "status"]) [GET] (Status k);
    MkRoute (of_entity k [Lit "status"; Capture "transition"]) [PUT] (Transition k) ].
Definition log_paths (k : EntityKind) : list Route :=
  [ MkRoute (of_entity k [Lit "logs"]) [GET] (Logs k);
    MkRoute (of_entity k [Lit "logs"; Lit "configuration"]) [GET; PUT] (LogConfiguration k) ].

(** [auth_router] and [auth_disabled_router]. *)
Definition auth_router : list Route :=
  [ MkRoute (api ++ [Lit "auth"; Lit "token"]) [POST] AuthToken;
    MkRoute (api ++ [Lit "auth"; Lit "authorize"]) [POST] AuthToken;
    MkRoute (api ++ [Lit "auth"; Lit "revoke"]) [POST] AuthRevoke ].
Definition auth_disabled_router : list Route :=
  [ MkRoute (api ++ [Lit "auth"; Lit "token"]) [POST] AuthAbsent;
    MkRoute (api ++ [Lit "auth"; Lit "authorize"]) [POST] AuthAbsent;
    MkRoute (api ++ [Lit "auth"; Lit "revoke"]) [POST] AuthAbsent ].

Definition api_router : list Route :=
  [ MkRoute api [GET] RootDoc;
    MkRoute (api ++ [Lit ""]) [GET] RootDoc;
    MkRoute (api ++ [Lit "version-info"]) [GET] VersionInfo;
    MkRoute (api ++ [Lit "health"]) [GET] HealthDoc;
    MkRoute (api ++ [Lit "faults"]) [GET; DELETE] GlobalFaults;
    MkRoute (api ++ [Lit "faults"; Lit "stream"]) [GET] FaultStream ]
  ++ kind_routes Area ++ kind_routes Component ++ kind_routes App ++ kind_routes Function_
  ++ [ MkRoute (api ++ [Lit "triggers"]) [GET; POST] GlobalTriggers;
       MkRoute (api ++ [Lit "triggers"; Lit "events"]) [GET] TriggerEvents;
       MkRoute (api ++ [Lit "triggers"; Capture "id"]) [GET; DELETE] GlobalTrigger ]
  ++ trigger_routes Area ++ trigger_routes Component ++ trigger_routes App ++ trigger_routes Function_
  ++ cyclic_routes Component ++ cyclic_routes App ++ cyclic_routes Function_
  ++ lock_routes App ++ lock_routes Component
  ++ operation_paths Area ++ operation_paths Component ++ operation_paths App ++ operation_paths Function_
  ++ configuration_paths Area ++ configuration_paths Component ++ configuration_paths App ++ configuration_paths Function_
  ++ bulk_data_paths App ++ bulk_data_paths Component
  ++ script_paths App ++ script_paths Component
  ++ update_paths
  ++ lifecycle_paths App ++ lifecycle_paths Component
  ++ log_paths Area ++ log_paths Component ++ log_paths App ++ log_paths Function_.

(** [router_with_state]. *)
Definition router_with_state (auth_enabled : bool) : list Route :=
  api_router ++ (if auth_enabled then auth_router else auth_disabled_router).

(** A capture takes one non-empty segment, a wildcard a non-empty remainder. *)
Fixpoint matches (p : list Piece) (segs : list string) : bool :=
  match p, segs with
  | [], [] => true
  | Lit s :: p', x :: segs' => if bool_decide (s = x) then matches p' segs' else false
  | Capture _ :: p', x :: segs' => if bool_decide (x = "") then false else matches p' segs'
  | [Wildcard _], x :: segs' => negb (bool_decide (x :: segs' = [""]))
  | _, _ => false
  end.

(** What the routing package promises: it picks a mounted route that matches, and
    finds one if there is one. *)
Class PathRouter (select : list Route → list string → option Route) : Prop := {
  select_sound rs p r : select rs p = Some r → r ∈ rs ∧ matches (path r) p = true;
  select_complete rs p r : r ∈ rs → matches (path r) p = true → is_Some (select rs p);
}.

(** ** The fallback *)

Definition FAMILIES : list string :=
  ["operations"; "configurations"; "bulk-data"; "locks"; "scripts"; "updates"; "triggers"; "cyclic-subscriptions";
   "logs"; "status"; "auth"; "docs"].
Definition infer_family (p : string) : string :=
  match list_find (λ f, MedView.contains p f = true) FAMILIES with
  | Some (_, f) => f
  | None => if MedView.contains p "x-medkit" then "x-medkit" else "unknown"
  end.
Definition deferred (p : string) : ApiError := ApiNotImplemented (infer_family p) p.

Inductive Outcome := Served (h : Handler) | MethodNotAllowed | Declined (code : Z) (e : GenericError).

Definition dispatch (select : list Route → list string → option Route) (auth_enabled : bool) (m : Method) (p : string) : Outcome :=
  match select (router_with_state auth_enabled) (MedView.split "/"%char p) with
  | Some r => if bool_decide (m ∈ methods r) then Served (handler r) else MethodNotAllowed
  | None => let '(code, e) := into_response (deferred p) in Declined code e
  end.

(** ** What is advertised *)

Definition entity_capabilities (k : EntityKind) : list string :=
  match k with
  | App => ["status"; "data"; "operations"; "configurations"; "faults"; "logs"; "bulk-data"; "cyclic-subscriptions"; "triggers";
            "is-located-on"; "belongs-to"; "locks"]
  | Component => ["status"; "data"; "operations"; "configurations"; "faults"; "logs"; "subcomponents"; "hosts"; "bulk-data";
                  "cyclic-subscriptions"; "triggers"; "locks"]
  | Function_ => ["hosts"; "data"; "operations"; "configurations"; "faults"; "logs"; "bulk-data"; "cyclic-subscriptions"; "triggers"]
  | Area => ["data"; "operations"; "configurations"; "faults"; "logs"; "triggers"; "contains"; "components"]
  end.

Definition insert_href (base : string) (m : list (string * Value)) (segment : string) : list (string * Value) :=
  MedView.obj_insert m segment (MedView.JString (base +:+ "/" +:+ segment)).

Definition entity_links (k : EntityKind) (collection base : string) : Value :=
  let links := MedView.obj_insert [] "self" (MedView.JString base) in
  let links := MedView.obj_insert links "collection" (MedView.JString (MedView.API_BASE +:+ "/" +:+ collection)) in
  MedView.JObject (foldl (insert_href base) links (MedView.segment <$> kind_relations k)).

Definition capability_catalogue (k : EntityKind) (base : string) : Value :=
  MedView.JArray ((λ s, MedView.JObject [("href", MedView.JString (base +:+ "/" +:+ s)); ("name", MedView.JString s)])
    <$> entity_capabilities k).

Definition not_found_entity (id : string) : GenericError :=
  MkGeneric "entity-not-found" "Entity not found" {["entity_id" := id]}.

(** [serde_json::to_value] of an entity: absent fields are skipped. *)
Definition field (key : string) (v : option Value) (m : list (string * Value)) : list (string * Value) :=
  match v with Some v => MedView.obj_insert m key v | None => m end.
Definition meta_json (m : MedView.EntityMeta) : Value :=
  MedView.JObject
    (field "source" (MedView.JString <$> MedView.source m)
    (field "ros2" ((λ n, MedView.JObject [("node", MedView.JString n)]) <$> MedView.ros2 m)
    (field "is_online" (MedView.JBool <$> MedView.is_online m)
    (field "component_id" (MedView.JString <$> MedView.component_id m) [])))).
Definition entity_json (e : MedView.Entity) : list (string * Value) :=
  field "x-medkit" (meta_json <$> MedView.e_medkit e)
  (field "description" (MedView.JString <$> MedView.e_description e)
  (field "parent_id" (MedView.JString <$> MedView.parent_id e)
  (field "type" (Some (MedView.JString (type_singular (MedView.e_kind e))))
  (field "name" (Some (MedView.JString (MedView.e_name e)))
  (field "id" (Some (MedView.JString (MedView.e_id e)))
  (field "href" (Some (MedView.JString (MedView.href e))) [])))))).

Definition entity_base (k : EntityKind) (id : string) : string :=
  MedView.API_BASE +:+ "/" +:+ collection_segment k +:+ "/" +:+ id.

Definition entity_detail (v : MedView.MergedView) (k : EntityKind) (id : string) : MedView.answer Value :=
  match MedView.entity v id with
  | Ok (Some e) =>
      if bool_decide (MedView.e_kind e = k) then
        let base := entity_base k id in
        let doc := MedView.obj_insert (entity_json e) "_links" (entity_links k (collection_segment k) base) in
        let doc := foldl (insert_href base) doc (filter (λ s, s ≠ "locks") (entity_capabilities k)) in
        Ok (inl (MedView.JObject (MedView.obj_insert doc "capabilities" (capability_catalogue k base))))
      else Ok (inr (not_found_entity id))
  | Ok None => Ok (inr (not_found_entity id))
  | Panic => Panic
  end.

(** [endpoint_catalogue]. *)
Definition each_kind (ks : list EntityKind) (f : string → list string) : list string :=
  concat ((λ k, f (MedView.API_BASE +:+ "/" +:+ collection_segment k +:+ "/{id}")) <$> ks).
Definition endpoint_catalogue : list string :=
  ((λ e : string * string, e.1 +:+ " " +:+ MedView.API_BASE +:+ e.2) <$>
    [("GET", "/"); ("GET", "/version-info"); ("GET", "/health"); ("GET", "/areas"); ("GET", "/components"); ("GET", "/apps");
     ("GET", "/functions"); ("GET", "/faults"); ("DELETE", "/faults"); ("GET", "/faults/stream"); ("GET", "/triggers");
     ("POST", "/triggers"); ("GET", "/triggers/events"); ("GET", "/updates"); ("POST", "/updates"); ("POST", "/auth/token");
     ("POST", "/auth/authorize"); ("POST", "/auth/revoke")])
  ++ each_kind [Area; Component; App; Function_] (λ e,
       ["GET " +:+ e; "GET " +:+ e +:+ "/faults"; "GET " +:+ e +:+ "/faults/{fault_code}"; "GET " +:+ e +:+ "/data";
        "GET " +:+ e +:+ "/triggers"; "POST " +:+ e +:+ "/triggers"; "GET " +:+ e +:+ "/operations";
        "POST " +:+ e +:+ "/operations/{op}/executions"; "GET " +:+ e +:+ "/configurations";
        "PUT " +:+ e +:+ "/configurations/{config_id}"; "GET " +:+ e +:+ "/logs"])
  ++ each_kind [Component; App; Function_] (λ e, ["GET " +:+ e +:+ "/cyclic-subscriptions"; "POST " +:+ e +:+ "/cyclic-subscriptions"])
  ++ each_kind [App; Component] (λ e, ["GET " +:+ e +:+ "/locks"; "POST " +:+ e +:+ "/locks"])
  ++ each_kind [App; Component] (λ e, ["GET " +:+ e +:+ "/bulk-data"; "POST " +:+ e +:+ "/bulk-data/{category_id}"])
  ++ each_kind [App; Component] (λ e, ["GET " +:+ e +:+ "/scripts"; "POST " +:+ e +:+ "/scripts"])
  ++ each_kind [App; Component] (λ e, ["GET " +:+ e +:+ "/status"; "PUT " +:+ e +:+ "/status/start"]).

Definition root_capabilities : list (string * bool) :=
  [("aggregation", false); ("async_actions", false); ("authentication", true); ("bulk_data", true); ("configurations", true);
   ("cyclic_subscriptions", true); ("data_access", true); ("discovery", true); ("faults", true); ("locking", true);
   ("logs", true); ("operations", true); ("scripts", true); ("tls", false); ("triggers", true); ("updates", true);
   ("vendor_extensions", true)].
(** The crate's version comes from the build. *)
Definition root_document (version : string) : Value :=
  MedView.JObject
    [("api_base", MedView.JString MedView.API_BASE);
     ("capabilities", MedView.JObject ((λ '(k, b), (k, MedView.JBool b)) <$> root_capabilities));
     ("endpoints", MedView.JArray (MedView.JString <$> endpoint_catalogue));
     ("name", MedView.JString "taktora-medkit Gateway");
     ("version", MedView.JString version)].

Record BuildInfo := MkBuild {
  git_sha : string; git_short : string; git_describe : string; git_dirty : bool; build_timestamp : string; rustc_version : string }.
Definition build_default : BuildInfo := MkBuild "unknown" "unknown" "unknown" false "unknown" "unknown".
Definition SOVD_VERSION : string := "1.0.0".
Definition version_info_document (version : string) (b : BuildInfo) : Value :=
  MedView.JObject [("items", MedView.JArray [MedView.JObject
    [("base_uri", MedView.JString MedView.API_BASE);
     ("vendor_info", MedView.JObject
        [("build_timestamp", MedView.JString (build_timestamp b)); ("git_describe", MedView.JString (git_describe b));
         ("git_dirty", MedView.JBool (git_dirty b)); ("git_sha", MedView.JString (git_sha b));
         ("git_short", MedView.JString (git_short b)); ("name", MedView.JString "taktora-medkit");
         ("rustc_version", MedView.JString (rustc_version b)); ("version", MedView.JString version)]);
     ("version", MedView.JString SOVD_VERSION)]])].

(** ** The read core *)

(** [kv.splitn(2, '=')]: the key, and the value if there is an equals sign. *)
Fixpoint split_kv (s : string) : string * option string :=
  match s with
  | EmptyString => ("", None)
  | String a s' =>
      if bool_decide (a = "="%char) then ("", Some s')
      else let '(k, v) := split_kv s' in (String a k, v)
  end.
(** [query_param] of logs.rs; [status_filter] looks up its key the same way. *)
Definition query_param (query : option string) (key : string) : option string :=
  q ← query;
  head (omap (λ kv, let '(k, v) := split_kv kv in if bool_decide (k = key) then Some (default "" v) else None)
    (MedView.split "&"%char q)).
Definition bad_status (value : string) : ApiError :=
  ApiBadRequest (MkGeneric "invalid-parameter" "Unknown fault status filter" {["status" := value]}).
Definition status_filter (query : option string) : MedView.FaultStatusFilter + ApiError :=
  let value := query_param query "status" in
  match MedView.parse_filter value with Some f => inl f | None => inr (bad_status (default "" value)) end.

Inductive ReadRequest :=
| QList (k : EntityKind)
| QDetail (k : EntityKind) (id : string)
| QFaults (k : EntityKind) (id : string) (query : option string)
| QFault (k : EntityKind) (id code : string)
| QFaultDelete (k : EntityKind) (id code : string)
| QData (k : EntityKind) (id : string) (topic : option string)
| QRelated (k : EntityKind) (id : string) (r : Relation)
| QLogs (k : EntityKind) (id : string) (query : option string)
| QGlobalFaults (query : option string)
| QGlobalClear
| QHealth (nanos : Z)
| QRoot
| QVersion (b : BuildInfo).

Inductive ReadBody :=
| BEntities (c : MedView.Collection)
| BJson (v : Value)
| BFaults (l : MedView.FaultList)
| BFault (d : MedView.FaultDetail)
| BLogs (items : list MedView.LogEntry) (total_count : Z)
| BEmpty
| BError (e : GenericError).

(** [map(ok).map_err(ApiError::from)]: a resolver's error is a 404. *)
Definition resolved {A} (ok : A → Z * ReadBody) (r : MedView.answer A) : res (Z * ReadBody) :=
  match r with
  | Ok (inl a) => Ok (ok a)
  | Ok (inr e) => let '(c, g) := into_response (ApiNotFound e) in Ok (c, BError g)
  | Panic => Panic
  end.
Definition filtered (query : option string) (k : MedView.FaultStatusFilter → res (Z * ReadBody)) : res (Z * ReadBody) :=
  match status_filter query with
  | inl f => k f
  | inr e => let '(c, g) := into_response e in Ok (c, BError g)
  end.

Definition with_timestamp (doc : Value) (nanos : Z) : Value :=
  match doc with
  | MedView.JObject m => MedView.JObject (MedView.obj_insert m "timestamp" (MedView.JNumber (Z.min nanos (2 ^ 64 - 1))))
  | _ => doc
  end.

(** The closures of [kind_routes] and [api_router], and the list route of
    [log_routes]. *)
Definition read_core (version : string) (v : MedView.MergedView) (q : ReadRequest) : res (Z * ReadBody) :=
  match q with
  | QList k => Ok (200, BEntities (MedView.list_ v k))
  | QDetail k id => resolved (λ d, (200, BJson d)) (entity_detail v k id)
  | QFaults k id query => filtered query (λ f, resolved (λ l, (200, BFaults l)) (MedView.entity_faults v k id f))
  | QFault k id code => resolved (λ d, (200, BFault d)) (MedView.fault_detail v k id code)
  | QFaultDelete k id code => resolved (λ _, (204, BEmpty)) (MedView.delete_fault v k id code)
  | QData k id topic => resolved (λ d, (200, BJson d)) (MedView.data v k id topic)
  | QRelated k id r => resolved (λ c, (200, BEntities c)) (MedView.relationship v k id r)
  | QLogs k id query =>
      resolved (λ l, (200, BLogs l (len l)))
        (MedView.logs v k id (query_param query "severity") (query_param query "context"))
  | QGlobalFaults query => filtered query (λ f, Ok (200, BFaults (MedView.global_faults v f)))
  | QGlobalClear => Ok (204, BEmpty)
  | QHealth nanos => Ok (200, BJson (with_timestamp (MedView.health_document v) nanos))
  | QRoot => Ok (200, BJson (root_document version))
  | QVersion b => Ok (200, BJson (version_info_document version b))
  end.

Example filter_first_wins : query_param (Some "a=1&status=cleared&status=all") "status" = Some "cleared".
Proof. vm_compute. reflexivity. Qed.

End MedRoutes.
