(* ===== verification/MedRoutesOk.v ===== *)
(** * What the gateway advertises is mounted

    The endpoints of the root document and the links of the entity detail documents
    are compared with the mounted routes, for every value of the captures; and the
    answers of the read core with the lists it serves. *)

From stdpp Require Import base gmap list strings pretty.
From Stdlib Require Import ZArith Lia Ascii.
From S2P Require Import Prelude MedModel MedView MedViewOk MedRoutes.

Module MedRoutesOk.
Import MedModel MedRoutes.

(** ** Paths *)

(** A value for a capture: not empty, no slash. *)
Fixpoint no_slash (s : string) : bool :=
  match s with EmptyString => true | String a s' => negb (bool_decide (a = "/"%char)) && no_slash s' end.
Definition segment_ok (s : string) : Prop := s ≠ "" ∧ no_slash s = true.

Lemma split_no_slash s rest :
  no_slash s = true → MedView.split "/"%char (s +:+ String "/"%char rest) = s :: MedView.split "/"%char rest.
Proof.
  induction s as [|a s IH]; intros Hs; [done|]. cbn [no_slash] in Hs.
  apply andb_true_iff in Hs as [Ha%negb_true_iff Hs].
  change (String a s +:+ String "/"%char rest) with (String a (s +:+ String "/"%char rest)). cbn [MedView.split].
  by rewrite Ha, IH.
Qed.

Lemma split_no_slash_end s : no_slash s = true → MedView.split "/"%char s = [s].
Proof.
  induction s as [|a s IH]; intros Hs; [done|]. cbn [no_slash] in Hs. apply andb_true_iff in Hs as [Ha%negb_true_iff Hs].
  cbn [MedView.split]. by rewrite Ha, IH.
Qed.

Lemma split_concat l : l ≠ [] → Forall (λ s, no_slash s = true) l → MedView.split "/"%char (String.concat "/" l) = l.
Proof.
  intros Hl Hs. induction Hs as [|s l Hs Hall IH]; [done|]. destruct l as [|s' l]; [by apply split_no_slash_end|].
  change (String.concat "/" (s :: s' :: l)) with (s +:+ String "/"%char (String.concat "/" (s' :: l))).
  rewrite split_no_slash by done. by rewrite IH.
Qed.

(** ** Templates *)

(** The segments of a path in which some are left open. *)
Inductive Seg := Fixed (s : string) | Var (x : string).
Definition inst (f : string → string) (t : list Seg) : list string :=
  (λ s, match s with Fixed s => s | Var x => f x end) <$> t.
Definition fill (f : string → string) (t : list Seg) : string := String.concat "/" (inst f t).

(** The pattern matches whatever the open segments are; it may match. *)
Fixpoint must (p : list Piece) (t : list Seg) : bool :=
  match p, t with
  | [], [] => true
  | Lit s :: p', Fixed x :: t' => bool_decide (s = x) && must p' t'
  | Capture _ :: p', Var _ :: t' => must p' t'
  | Capture _ :: p', Fixed x :: t' => negb (bool_decide (x = "")) && must p' t'
  | _, _ => false
  end.
Fixpoint may (p : list Piece) (t : list Seg) : bool :=
  match p, t with
  | [], [] => true
  | Lit s :: p', Fixed x :: t' => bool_decide (s = x) && may p' t'
  | (Lit _ | Capture _) :: p', _ :: t' => may p' t'
  | [Wildcard _], _ :: _ => true
  | _, _ => false
  end.

Lemma must_matches f p t : (∀ x, f x ≠ "") → must p t = true → matches p (inst f t) = true.
Proof.
  intros Hf. revert t. induction p as [|[s|n|n] p IH]; intros [|[x|x] t]; try done; cbn [must inst fmap list_fmap matches].
  - intros [->%bool_decide_eq_true Hm]%andb_true_iff. rewrite bool_decide_true by done. by apply IH.
  - intros [->%negb_true_iff Hm]%andb_true_iff. by apply IH.
  - intros Hm. rewrite bool_decide_false by apply Hf. by apply IH.
Qed.

Lemma matches_may f p t : matches p (inst f t) = true → may p t = true.
Proof.
  revert t. induction p as [|[s|n|n] p IH]; intros [|[x|x] t]; try done; cbn [may inst fmap list_fmap matches].
  - case_bool_decide; [|done]. apply IH.
  - case_bool_decide; [|done]. apply IH.
  - case_bool_decide; [done|]. apply IH.
  - case_bool_decide; [done|]. apply IH.
  - by destruct p.
  - by destruct p.
Qed.

(** A request on the template reaches a route that answers the method. *)
Definition covered (rs : list Route) (m : Method) (ok : Handler → bool) (t : list Seg) : bool :=
  existsb (λ r, must (path r) t) rs
  && forallb (λ r, implb (may (path r) t) (bool_decide (m ∈ methods r) && ok (handler r))) rs.
Definition uncovered (rs : list Route) (t : list Seg) : bool := forallb (λ r, negb (may (path r) t)) rs.

(** The fixed segments of a template have no slash. *)
Definition well_formed (t : list Seg) : bool :=
  negb (bool_decide (length t = 0%nat)) && forallb (λ s, match s with Fixed s => no_slash s | Var _ => true end) t.

Section dispatching.
Context (select : list Route → list string → option Route) `{!PathRouter select}.
Context (f : string → string) (Hf : ∀ x, segment_ok (f x)).

Lemma split_fill t : well_formed t = true → MedView.split "/"%char (fill f t) = inst f t.
Proof.
  intros [Hl%negb_true_iff%bool_decide_eq_false Hs]%andb_true_iff. rewrite forallb_forall in Hs. apply split_concat.
  - destruct t; [done|]. discriminate.
  - apply Forall_fmap, Forall_forall. intros [s|x] Hin; simpl; [|apply Hf].
    apply (Hs (Fixed s)). by apply list_elem_of_In.
Qed.

Lemma covered_served auth m ok t :
  well_formed t && covered (router_with_state auth) m ok t = true →
  ∃ h, dispatch select auth m (fill f t) = Served h ∧ ok h = true.
Proof.
  rewrite andb_true_iff. intros [Hw [Hmust Hmay]%andb_true_iff].
  apply existsb_exists in Hmust as (r0 & Hr0 & Hm0). rewrite forallb_forall in Hmay.
  unfold dispatch. rewrite split_fill by done.
  destruct (select_complete (router_with_state auth) (inst f t) r0) as [r Hr].
  { by apply list_elem_of_In. }
  { apply must_matches; [|done]. intros x. apply Hf. }
  rewrite Hr. apply select_sound in Hr as [Hin Hm]. apply list_elem_of_In, Hmay in Hin.
  rewrite (matches_may f _ _ Hm) in Hin. simpl in Hin. apply andb_true_iff in Hin as [-> Hok]. eauto.
Qed.

Lemma uncovered_declined auth m t :
  well_formed t && uncovered (router_with_state auth) t = true →
  ∃ e, dispatch select auth m (fill f t) = Declined 501 e.
Proof.
  rewrite andb_true_iff. intros [Hw Hun]. unfold uncovered in Hun. rewrite forallb_forall in Hun.
  unfold dispatch. rewrite split_fill by done.
  destruct (select _ (inst f t)) as [r|] eqn:Hr; [|simpl; eauto].
  apply select_sound in Hr as [Hin Hm]. apply list_elem_of_In, Hun, negb_true_iff in Hin.
  by rewrite (matches_may f _ _ Hm) in Hin.
Qed.

End dispatching.

(** ** The endpoint catalogue *)

Definition parse_method (s : string) : option Method :=
  (λ x, x.2.2) <$> list_find (λ x : string * Method, x.1 = s) [("GET", GET); ("POST", POST); ("PUT", PUT); ("DELETE", DELETE)].
(** A segment in braces is a capture. *)
Definition parse_seg (s : string) : Seg :=
  match s with String a _ => if bool_decide (a = "{"%char) then Var s else Fixed s | EmptyString => Fixed s end.
Definition parse_endpoint (e : string) : option (Method * list Seg) :=
  match MedView.split " "%char e with
  | [m; p] => m ← parse_method m; Some (m, parse_seg <$> MedView.split "/"%char p)
  | _ => None
  end.
Definition is_auth (e : string) : bool := MedView.contains e "/auth/".

(** Whether the handler is the stub of a disabled family, as expected. *)
Definition as_expected (auth : bool) (e : string) (h : Handler) : bool :=
  Bool.eqb (bool_decide (h = AuthAbsent)) (negb auth && is_auth e).
Definition endpoint_ok (auth : bool) (e : string) : bool :=
  match parse_endpoint e with
  | Some (m, t) => well_formed t && covered (router_with_state auth) m (as_expected auth e) t
  | None => false
  end.

Lemma catalogue_ok auth : forallb (endpoint_ok auth) endpoint_catalogue = true.
Proof. destruct auth; vm_compute; reflexivity. Qed.

(** ** The detail document *)

Lemma insert_hrefs_get base l m k :
  MedView.obj_get (foldl (insert_href base) m l) k
  = if bool_decide (k ∈ l) then Some (MedView.JString (base +:+ "/" +:+ k)) else MedView.obj_get m k.
Proof.
  revert m. induction l as [|s l IH]; intros m; simpl; [done|]. rewrite IH. unfold insert_href. rewrite MedViewOk.obj_get_insert.
  destruct (decide (k ∈ l)) as [Hl|Hl].
  - rewrite !bool_decide_true; [done| |done]. apply elem_of_cons. by right.
  - rewrite (bool_decide_false (k ∈ l)) by done. destruct (decide (s = k)) as [-> |Hs].
    + rewrite !bool_decide_true; [done| |done]. apply elem_of_cons. by left.
    + rewrite !bool_decide_false; [done| |done]. rewrite elem_of_cons. naive_solver.
Qed.

Definition as_string (v : Value) : option string := match v with MedView.JString s => Some s | _ => None end.
(** The links of a detail document: its [_links], its catalogue, its flat keys. *)
Definition doc_hrefs (k : EntityKind) (doc : Value) : list string :=
  match MedView.value_get doc "_links" with Some (MedView.JObject m) => omap as_string (snd <$> m) | _ => [] end
  ++ match MedView.value_get doc "capabilities" with
     | Some (MedView.JArray l) => omap (λ c, MedView.value_get c "href" ≫= as_string) l | _ => [] end
  ++ omap (λ s, MedView.value_get doc s ≫= as_string) (entity_capabilities k).

(** The same links as templates. *)
Definition collection_template (k : EntityKind) : list Seg :=
  [Fixed ""; Fixed "api"; Fixed "v1"; Fixed (collection_segment k)].
Definition entity_template (k : EntityKind) (rest : list Seg) : list Seg := collection_template k ++ Var "id" :: rest.
Definition detail_templates (k : EntityKind) : list (list Seg) :=
  [collection_template k; entity_template k []]
  ++ ((λ s, entity_template k [Fixed s]) <$> (MedView.segment <$> kind_relations k) ++ entity_capabilities k).

Lemma fill_entity k id s : fill (λ _, id) (entity_template k [Fixed s]) = entity_base k id +:+ "/" +:+ s.
Proof. destruct k; unfold fill, entity_base; simpl; by rewrite ?append_assoc. Qed.

(** What a detail document holds. *)
Record detail_of (k : EntityKind) (id : string) (e : MedView.Entity) (doc : Value) : Prop := {
  do_links : MedView.value_get doc "_links" = Some (entity_links k (collection_segment k) (entity_base k id));
  do_catalogue : MedView.value_get doc "capabilities" = Some (capability_catalogue k (entity_base k id));
  do_flat : ∀ s, s ∈ entity_capabilities k → s ≠ "locks" →
    MedView.value_get doc s = Some (MedView.JString (entity_base k id +:+ "/" +:+ s));
  do_locks : MedView.value_get doc "locks" = None;
}.

Lemma entity_json_get e s :
  bool_decide (s ∈ ["href"; "id"; "name"; "type"; "parent_id"; "description"; "x-medkit"]) = false →
  MedView.obj_get (entity_json e) s = None.
Proof.
  intros Hs%bool_decide_eq_false. rewrite !not_elem_of_cons in Hs. unfold entity_json.
  assert (Hfield : ∀ key v m, s ≠ key → MedView.obj_get (field key v m) s = MedView.obj_get m s).
  { intros key [v|] m Hk; [|done]. simpl. rewrite MedViewOk.obj_get_insert. by rewrite bool_decide_false. }
  rewrite !Hfield by naive_solver. done.
Qed.

Lemma detail_inv v k id doc : entity_detail v k id = Ok (inl doc) → ∃ e, detail_of k id e doc.
Proof.
  unfold entity_detail. destruct (MedView.entity v id) as [[e|]|]; [|done..]. case_bool_decide; [|done].
  intros [= <-]. exists e. split; unfold MedView.value_get.
  - rewrite MedViewOk.obj_get_insert, bool_decide_false by done. rewrite insert_hrefs_get, bool_decide_false by (destruct k; apply (bool_decide_unpack _); vm_compute; exact I).
    rewrite MedViewOk.obj_get_insert. by rewrite bool_decide_true.
  - by rewrite MedViewOk.obj_get_insert, bool_decide_true.
  - intros s Hs Hl. rewrite MedViewOk.obj_get_insert, bool_decide_false by (intros <-; revert Hs; destruct k; apply (bool_decide_unpack _); vm_compute; exact I).
    rewrite insert_hrefs_get, bool_decide_true; [done|]. by apply list_elem_of_filter.
  - rewrite MedViewOk.obj_get_insert, bool_decide_false by done. rewrite insert_hrefs_get, bool_decide_false by (rewrite list_elem_of_filter; naive_solver).
    rewrite MedViewOk.obj_get_insert, bool_decide_false by done. by apply entity_json_get.
Qed.

(** Its links fill the templates. *)
Lemma obj_insert_values m k v x : x ∈ snd <$> MedView.obj_insert m k v → x = v ∨ x ∈ snd <$> m.
Proof.
  induction m as [|[k0 v0] m IH]; simpl; [by intros ->%list_elem_of_singleton; left|].
  case_bool_decide; [rewrite fmap_cons, !elem_of_cons; naive_solver|].
  destruct (String.leb k k0); rewrite !fmap_cons, !elem_of_cons; simpl; naive_solver.
Qed.

Lemma insert_hrefs_values base l m x :
  x ∈ snd <$> foldl (insert_href base) m l → (∃ s, s ∈ l ∧ x = MedView.JString (base +:+ "/" +:+ s)) ∨ x ∈ snd <$> m.
Proof.
  revert m. induction l as [|s l IH]; intros m; simpl; [by right|]. intros [(s' & Hs' & ->)|Hx]%IH.
  - left. exists s'. split; [|done]. apply elem_of_cons. by right.
  - apply obj_insert_values in Hx as [-> |Hx]; [|by right]. left. exists s. split; [|done]. apply elem_of_cons. by left.
Qed.

Lemma fill_collection k id : fill (λ _, id) (collection_template k) = MedView.API_BASE +:+ "/" +:+ collection_segment k.
Proof. by destruct k. Qed.
Lemma fill_base k id : fill (λ _, id) (entity_template k []) = entity_base k id.
Proof. by destruct k. Qed.

Lemma segment_template k s :
  s ∈ (MedView.segment <$> kind_relations k) ++ entity_capabilities k → entity_template k [Fixed s] ∈ detail_templates k.
Proof. intros Hs. apply elem_of_app. right. apply list_elem_of_fmap. eauto. Qed.

Lemma detail_hrefs k id e doc h :
  detail_of k id e doc → h ∈ doc_hrefs k doc → ∃ t, t ∈ detail_templates k ∧ h = fill (λ _, id) t.
Proof.
  intros [Hl Hc Hf Hk]. unfold doc_hrefs. rewrite Hl, Hc, !elem_of_app. intros [Hh|[Hh|Hh]].
  - apply list_elem_of_omap in Hh as (x & Hx & Hs). apply insert_hrefs_values in Hx as [(s & Hin & ->)|Hx].
    + injection Hs as <-. exists (entity_template k [Fixed s]). split; [|by rewrite fill_entity].
      apply segment_template, elem_of_app. by left.
    + apply obj_insert_values in Hx as [-> |Hx]; [|apply obj_insert_values in Hx as [-> |[]%elem_of_nil]]; injection Hs as <-.
      * exists (collection_template k). split; [by left|by rewrite fill_collection].
      * exists (entity_template k []). split; [right; by left|by rewrite fill_base].
  - apply list_elem_of_omap in Hh as (x & Hx & Hs). apply list_elem_of_fmap in Hx as (s & -> & Hin). injection Hs as <-.
    exists (entity_template k [Fixed s]). split; [|by rewrite fill_entity]. apply segment_template, elem_of_app. by right.
  - apply list_elem_of_omap in Hh as (s & Hin & Hs). destruct (decide (s = "locks")) as [-> |Hne].
    { rewrite Hk in Hs. discriminate Hs. }
    rewrite (Hf s Hin Hne) in Hs. injection Hs as <-.
    exists (entity_template k [Fixed s]). split; [|by rewrite fill_entity]. apply segment_template, elem_of_app. by right.
Qed.

(** The templates are mounted, but for one. *)
Definition bulk_template : list Seg := entity_template Function_ [Fixed "bulk-data"].
#[local] Instance seg_eq_dec : EqDecision Seg.
Proof. solve_decision. Defined.
Definition template_ok (auth : bool) (k : EntityKind) (t : list Seg) : bool :=
  bool_decide (k = Function_ ∧ t = bulk_template)
  || well_formed t && covered (router_with_state auth) GET (λ h, negb (bool_decide (h = AuthAbsent))) t.

Lemma templates_ok auth k : forallb (template_ok auth k) (detail_templates k) = true.
Proof. destruct auth, k; vm_compute; reflexivity. Qed.
Lemma bulk_unmounted auth : well_formed bulk_template && uncovered (router_with_state auth) bulk_template = true.
Proof. destruct auth; vm_compute; reflexivity. Qed.

(** C37. What the gateway advertises it serves.  Whatever values the captures take,
    every endpoint of the root document reaches a handler that answers its method;
    with authentication disabled the three token endpoints, still listed, reach the
    stub that answers 404.  Every link of an entity's detail document reaches a
    handler that answers GET, with one exception: the bulk data of a function, which
    is advertised and declined with 501. *)
Theorem advertised_served (select : list Route → list string → option Route) `{!PathRouter select}
    (auth : bool) (f : string → string) (Hf : ∀ x, segment_ok (f x)) :
  (∀ e, e ∈ endpoint_catalogue → ∃ m t h,
     parse_endpoint e = Some (m, t)
     ∧ dispatch select auth m (fill f t) = Served h
     ∧ (h = AuthAbsent ↔ auth = false ∧ is_auth e = true))
  ∧ ∀ v k id doc, segment_ok id → entity_detail v k id = Ok (inl doc) →
     let bulk := entity_base k id +:+ "/bulk-data" in
     (∀ h, h ∈ doc_hrefs k doc → (k = Function_ ∧ h = bulk) ∨ ∃ x, dispatch select auth GET h = Served x ∧ x ≠ AuthAbsent)
     ∧ (k = Function_ → bulk ∈ doc_hrefs k doc ∧ ∃ e, dispatch select auth GET bulk = Declined 501 e).
Proof.
  split.
  - intros e He. pose proof (catalogue_ok auth) as Hall. rewrite forallb_forall in Hall.
    apply list_elem_of_In, Hall in He. unfold endpoint_ok in He. destruct (parse_endpoint e) as [[m t]|]; [|done].
    destruct (covered_served select f Hf auth m (as_expected auth e) t He) as (h & Hd & Hok).
    exists m, t, h. split; [done|]. split; [done|]. unfold as_expected in Hok. apply eqb_prop in Hok.
    rewrite <- (bool_decide_eq_true (h = AuthAbsent)), Hok, andb_true_iff, negb_true_iff. done.
  - intros v k id doc Hid Hdoc bulk. destruct (detail_inv v k id doc Hdoc) as [e He].
    assert (Hid' : ∀ x, segment_ok ((λ _ : string, id) x)) by done. split.
    + intros h Hh. destruct (detail_hrefs k id e doc h He Hh) as (t & Ht & ->).
      pose proof (templates_ok auth k) as Hall. rewrite forallb_forall in Hall. apply list_elem_of_In, Hall, orb_true_iff in Ht as [Ht|Ht].
      * apply bool_decide_eq_true in Ht as [-> ->]. left. split; [done|]. apply fill_entity.
      * right. destruct (covered_served select _ Hid' auth GET _ t Ht) as (x & Hx & Hok).
        exists x. split; [done|]. by apply negb_true_iff, bool_decide_eq_false in Hok.
    + intros ->. destruct (uncovered_declined select _ Hid' auth GET bulk_template (bulk_unmounted auth)) as (e' & He').
      unfold bulk_template in He'. rewrite fill_entity in He'. split; [|by exists e'].
      destruct He as [_ Hc _ _]. unfold doc_hrefs. rewrite Hc, !elem_of_app. right. left.
      apply list_elem_of_omap. eexists. split; [apply list_elem_of_fmap; exists "bulk-data"; split; [done|]|done].
      apply (bool_decide_unpack _). vm_compute. exact I.
Qed.

(** A router that keeps the promise: the first route that matches. *)
Definition first_match (rs : list Route) (p : list string) : option Route :=
  snd <$> list_find (λ r, matches (path r) p = true) rs.
#[export] Instance first_match_router : PathRouter first_match.
Proof.
  split; unfold first_match; intros rs p r.
  - intros ([i r'] & Hf & ->)%fmap_Some. apply list_find_Some in Hf as (Hi & Hm & _). split; [|done].
    by eapply list_elem_of_lookup_2.
  - intros Hr Hm. apply fmap_is_Some. by eapply list_find_elem_of.
Qed.

Definition sample_view : MedView.MergedView :=
  match MedView.from_snapshot (MedView.default_snapshot
    [MedView.MkEntity "/api/v1/functions/drive" "drive" "Drive" Function_ None None None] (λ _, [])) with
  | Ok v => v | Panic => MedView.view_default end.

Lemma advertised_served_witness :
  (∃ m t h, parse_endpoint "PUT /api/v1/apps/{id}/status/start" = Some (m, t)
    ∧ dispatch first_match true m (fill (λ _, "gripper") t) = Served h)
  ∧ ∃ e, dispatch first_match true GET "/api/v1/functions/drive/bulk-data" = Declined 501 e.
Proof.
  assert (Hok : segment_ok "gripper" ∧ segment_ok "drive") by (split; split; [discriminate|reflexivity|discriminate|reflexivity]).
  destruct Hok as [Hg Hd].
  destruct (advertised_served first_match true (λ _, "gripper") (λ _, Hg)) as [H1 H2]. split.
  - destruct (H1 "PUT /api/v1/apps/{id}/status/start") as (m & t & h & Hp & Hs & _).
    + apply (bool_decide_unpack _). vm_compute. exact I.
    + by exists m, t, h.
  - destruct (entity_detail sample_view Function_ "drive") as [[doc|]|] eqn:E; [|vm_compute in E; discriminate E..].
    destruct (H2 _ _ _ doc Hd E) as [_ [_ Hb]]; [reflexivity|]. exact Hb.
Defined.

(** ** The read core *)

(** The entity is in the list of its kind. *)
Definition listed (v : MedView.MergedView) (k : EntityKind) (id : string) : bool :=
  existsb (λ e, bool_decide (MedView.e_id e = id)) (MedView.c_items (MedView.list_ v k)).
Definition has_fault (v : MedView.MergedView) (id code : string) : bool :=
  existsb (λ f, bool_decide (fault_code f = code)) (default [] (MedView.v_faults v !! id)).
Definition has_data (v : MedView.MergedView) (id : string) (topic : option string) : bool :=
  match topic with
  | None => true
  | Some p =>
      bool_decide (p = "") || bool_decide (is_Some (MedView.navigate (default (MedView.JObject []) (MedView.v_data v !! id))
        (filter (λ s, s ≠ "") (MedView.split "/"%char p))))
  end.

Definition expected_status (v : MedView.MergedView) (q : ReadRequest) : Z :=
  match q with
  | QDetail k id | QRelated k id _ => if listed v k id then 200 else 404
  | QFaults k id query =>
      if bool_decide (MedView.parse_filter (query_param query "status") = None) then 400
      else if listed v k id then 200 else 404
  | QFault k id code => if listed v k id && has_fault v id code then 200 else 404
  | QFaultDelete k id code => if listed v k id && has_fault v id code then 204 else 404
  | QData k id topic => if listed v k id && has_data v id topic then 200 else 404
  | QGlobalFaults query => if bool_decide (MedView.parse_filter (query_param query "status") = None) then 400 else 200
  | QGlobalClear => 204
  | QList _ | QLogs _ _ _ | QHealth _ | QRoot | QVersion _ => 200
  end.

Lemma listed_require p v k id : MedViewOk.merged p v →
  ∃ o, MedView.entity v id = Ok o ∧ listed v k id = from_option (λ e, bool_decide (MedView.e_kind e = k)) false o.
Proof.
  intros H. rewrite (MedViewOk.entity_get p) by done. eexists. split; [done|].
  apply eq_true_iff_eq. unfold listed. rewrite existsb_exists. simpl. split.
  - intros (e & [Hk Hin]%list_elem_of_In%list_elem_of_filter & Hid%bool_decide_eq_true).
    pose proof (MedViewOk.entity_member p v e H Hin) as He. rewrite (MedViewOk.entity_get p), Hid in He by done.
    injection He as ->. simpl. by apply bool_decide_eq_true.
  - destruct (MedViewOk.index_get _ id) as [e|] eqn:E; [|done]. simpl. intros Hk%bool_decide_eq_true.
    unfold MedViewOk.index_get in E. simpl in E. destruct (MedView.by_id v !! id) as [i|] eqn:Ei; [|done]. simpl in E.
    destruct (MedViewOk.index_ok_lookup _ _ _ (MedViewOk.mg_index _ _ H) Ei) as (e' & He' & Hid). simpl in He'.
    rewrite E in He'. injection He' as <-. exists e. split; [|by apply bool_decide_eq_true].
    apply list_elem_of_In, list_elem_of_filter. split; [done|]. by eapply list_elem_of_lookup_2.
Qed.

Lemma has_fault_find v id code :
  has_fault v id code = bool_decide (is_Some (list_find (λ f, fault_code f = code) (default [] (MedView.v_faults v !! id)))).
Proof.
  apply eq_true_iff_eq. unfold has_fault. rewrite existsb_exists, bool_decide_eq_true. split.
  - intros (f & Hin%list_elem_of_In & Hc%bool_decide_eq_true). by eapply list_find_elem_of.
  - intros [[i f] (Hi & Hc & _)%list_find_Some]. exists f. split; [|by apply bool_decide_eq_true].
    apply list_elem_of_In. by eapply list_elem_of_lookup_2.
Qed.

(** The read core never panics, and its status codes agree with the lists: an
    entity is answered under the kind whose list shows it and nowhere else, faults
    and data of it where it has them, unknown filters with 400, everything else
    with 404; logs and global documents are always there. *)
Lemma read_core_answers version p v q :
  MedView.merge p = Ok v → ∃ body, read_core version v q = Ok (expected_status v q, body).
Proof.
  intros Hm. destruct (MedViewOk.merge_merged p) as (v' & Hm' & H). rewrite Hm in Hm'. injection Hm' as <-.
  assert (Hreq : ∀ k id, ∃ r, MedView.require v k id = Ok r ∧ listed v k id = match r with inl _ => true | inr _ => false end).
  { intros k id. destruct (listed_require p v k id H) as (o & Ho & Hl). unfold MedView.require. rewrite Ho, Hl.
    destruct o as [e|]; simpl; [case_bool_decide|]; eexists; (split; [done|done]). }
  assert (Hdet : ∀ k id, ∃ r, entity_detail v k id = Ok r ∧ listed v k id = match r with inl _ => true | inr _ => false end).
  { intros k id. destruct (listed_require p v k id H) as (o & Ho & Hl). unfold entity_detail. rewrite Ho, Hl.
    destruct o as [e|]; simpl; [case_bool_decide|]; eexists; (split; [done|done]). }
  assert (Hflt : ∀ query g w, (∀ x, ∃ body, g x = Ok (w, body)) →
    ∃ body, filtered query g = Ok (if bool_decide (MedView.parse_filter (query_param query "status") = None) then 400 else w, body)).
  { intros query g w Hg. unfold filtered, status_filter. destruct (MedView.parse_filter _) as [x|]; simpl; [|by eexists].
    apply Hg. }
  destruct q as [k|k id|k id query|k id code|k id code|k id topic|k id r|k id query|query| |nanos| |b];
    unfold read_core, expected_status; try (eexists; reflexivity).
  - destruct (Hdet k id) as ([d|e] & -> & ->); by eexists.
  - apply Hflt. intros x. unfold MedView.entity_faults. destruct (Hreq k id) as ([e|e] & -> & ->); by eexists.
  - unfold MedView.fault_detail. destruct (Hreq k id) as ([e|e] & -> & ->); [|by eexists].
    rewrite has_fault_find. simpl. destruct (list_find _ _) as [[i f]|]; by eexists.
  - unfold MedView.delete_fault, MedView.fault_detail. destruct (Hreq k id) as ([e|e] & -> & ->); [|by eexists].
    rewrite has_fault_find. simpl. destruct (list_find _ _) as [[i f]|]; by eexists.
  - unfold MedView.data. destruct (Hreq k id) as ([e|e] & -> & ->); [|by eexists]. simpl.
    destruct topic as [t|]; [|by eexists]. simpl. case_bool_decide; [by eexists|]. simpl.
    destruct (MedView.navigate _ _); by eexists.
  - unfold MedView.relationship. destruct (Hreq k id) as ([e|e] & -> & ->); by eexists.
  - apply Hflt. intros x. by eexists.
Qed.

End MedRoutesOk.
