(* ===== verification/J1939Dispatch.v ===== *)
(** * The J1939 dispatcher

    Models [taktora-connector-j1939/src/dispatcher.rs] (one iteration of the
    per-interface task and its loop), [registry.rs] and [writer.rs], with what they
    use of [taktora-connector-can] (frames of [driver.rs], the bridged publisher of
    [dispatcher.rs] and [bridge.rs]) and of [taktora-connector-transport-iox/src/raw.rs].

    A dispatcher function is a state transformer over [Disp] that may fail with a
    [ConnectorError] (the [?] operator) or panic; as in the code, the state reached
    so far is kept when it fails; [Stack] carries the prefix of the error text.
    The interface driver and shared memory are the environment: an iteration is given what [recv], [reopen] and [state] return, the
    driver what each send returns, a channel the envelopes waiting on it and whether
    shared memory accepts the next sample.  Counters kept by the raw ports for
    observation only are left out. *)

From stdpp Require Import base gmap strings pretty list.
From Stdlib Require Import ZArith Lia.
From S2P Require Import Prelude J1939Id J1939Tp J1939AddrClaim ConnHealth.

Module Dispatch.
Import Id Tp AddrClaim.

(** ** Errors *)

Inductive ConnectorError :=
| Codec (format source : string)
| BackPressure
| PayloadOverflow (actual max : Z)
| Configuration (msg : string)
| Down (reason : string)
| Stack (source : string).

(** ** Frames ([driver.rs]) *)

Record CanId := MkCanId { id_value : Z; extended : bool }.
Inductive CanFrameKind := Classical | Fd.
Definition frame_max_payload (k : CanFrameKind) : Z :=
  match k with Classical => 8 | Fd => 64 end.

(** A data frame; [cd_payload] is the valid part of the inline buffer. *)
Record CanData := MkCanData {
  cd_id : CanId;
  cd_kind : CanFrameKind;
  cd_fd_flags : Z;
  cd_payload : list Z;
}.
Inductive CanErrorKind := Warning | Passive | BusOff | ArbitrationLost | OtherError.
Inductive CanFrame :=
| Data (d : CanData)
| Remote (id : CanId) (dlc : Z)
| ErrorFrame (k : CanErrorKind).
Inductive CanIoError := PayloadTooLong (actual max : Z) | Io (msg : string) | Closed | IoBusOff.
Inductive CanIfaceState := IfClosed | IfActive | IfBusOff.

Definition CanId_extended (v : Z) : CanId + string :=
  if v >? 0x1FFFFFFF then inr "ExtendedOverflow"%string else inl (MkCanId v true).
Definition CanData_new (id : CanId) (k : CanFrameKind) (fd_flags : Z) (payload : list Z) :
  CanData + CanIoError :=
  let max := frame_max_payload k in
  if len payload >? max then inr (PayloadTooLong (len payload) max)
  else inl (MkCanData id k (match k with Classical => 0 | Fd => fd_flags end) payload).

(** The interface: frames on the bus so far, and what each send returns. *)
Record Driver := MkDriver {
  sent : list CanData;
  send_result : nat → option CanIoError;
}.

(** ** Channels *)

(** What the reader of an outbound channel finds next ([try_recv_into]). *)
Inductive envelope :=
| Valid (payload : list Z)
| BadCrc
| ReceiveError.
Definition drain_into (e : envelope) (dest_len : Z) : option (list Z) + ConnectorError :=
  match e with
  | ReceiveError => inr (Stack "receive")
  | BadCrc => inl None
  | Valid bytes =>
      if len bytes >? dest_len then inr (PayloadOverflow (len bytes) dest_len)
      else inl (Some bytes)
  end.

(** [BridgedInboundPublish]: the accounting bridge and the shared-memory port
    of capacity [port_max]. *)
Record InboundPublish := MkPublish {
  capacity : nat;
  queued : nat;
  dropped : N;
  threshold : N;
  port_max : Z;
  iox_ok : nat → bool;
  published : list (list Z);
}.

Definition bridge_try_send (p : InboundPublish) : InboundPublish * option N :=
  if (queued p <? capacity p)%nat then
    (MkPublish (capacity p) (S (queued p)) (dropped p) (threshold p) (port_max p) (iox_ok p)
       (published p), None)
  else
    let count := (dropped p + 1)%N in
    (MkPublish (capacity p) (queued p) count (threshold p) (port_max p) (iox_ok p) (published p),
     Some count).
Definition bridge_try_recv (p : InboundPublish) : InboundPublish :=
  MkPublish (capacity p) (pred (queued p)) (dropped p) (threshold p) (port_max p) (iox_ok p)
    (published p).
Definition send_raw_bytes (p : InboundPublish) (bytes : list Z) :
  InboundPublish * option ConnectorError :=
  if len bytes >? port_max p then (p, Some (PayloadOverflow (len bytes) (port_max p)))
  else if iox_ok p (length (published p)) then
    (MkPublish (capacity p) (queued p) (dropped p) (threshold p) (port_max p) (iox_ok p)
       (published p ++ [bytes]), None)
  else (p, Some (Stack "send")).
Definition publish_bytes (p : InboundPublish) (h : ConnHealth.CanHealthMonitor) (bytes : list Z) (now : Z) :
  InboundPublish * ConnHealth.CanHealthMonitor * option ConnectorError :=
  match bridge_try_send p with
  | (p, None) =>
      let '(p, r) := send_raw_bytes (bridge_try_recv p) bytes in (p, h, r)
  | (p, Some count) =>
      (p, fst (ConnHealth.record_inbound_drop h count (threshold p) now), None)
  end.

Inductive Direction := Outbound | Inbound.
#[export] Instance Direction_eq_dec : EqDecision Direction.
Proof. solve_decision. Defined.
Inductive ChannelBinding :=
| Unbound
| BoundOut (pending : list envelope)
| BoundIn (p : InboundPublish).

Record RegisteredChannel := MkChan {
  descriptor_name : string;
  routing : J1939Routing;
  direction : Direction;
  binding : ChannelBinding;
}.
Definition J1939Registry := list RegisteredChannel.
Definition register (r : J1939Registry) (name : string) (rt : J1939Routing) (d : Direction)
    (b : ChannelBinding) : J1939Registry * nat :=
  (r ++ [MkChan name rt d b], length r).
Definition registry_get (r : J1939Registry) (h : nat) : option RegisteredChannel := r !! h.
Definition set_binding (c : RegisteredChannel) (b : ChannelBinding) : RegisteredChannel :=
  MkChan (descriptor_name c) (routing c) (direction c) b.

(** ** The state and the monad *)

Record Disp := MkDisp {
  d_driver : Driver;
  d_registry : J1939Registry;
  d_health : ConnHealth.CanHealthMonitor;
  d_tp : TpEngine;
  d_claim : option (AddrClaimEngine * ClaimGate);
}.
Definition set_driver s x := MkDisp x (d_registry s) (d_health s) (d_tp s) (d_claim s).
Definition set_registry s x := MkDisp (d_driver s) x (d_health s) (d_tp s) (d_claim s).
Definition set_health s x := MkDisp (d_driver s) (d_registry s) x (d_tp s) (d_claim s).
Definition set_tp s x := MkDisp (d_driver s) (d_registry s) (d_health s) x (d_claim s).
Definition set_claim_ctx s x := MkDisp (d_driver s) (d_registry s) (d_health s) (d_tp s) x.

Definition M (A : Type) : Type := Disp → res (Disp * (A + ConnectorError)).
#[export] Instance M_ret : MRet M := λ A a s, Ok (s, inl a).
#[export] Instance M_bind : MBind M := λ A B f m s,
  match m s with
  | Panic => Panic
  | Ok (s, inr e) => Ok (s, inr e)
  | Ok (s, inl a) => f a s
  end.
Definition fail {A} (e : ConnectorError) : M A := λ s, Ok (s, inr e).
Definition gets {A} (f : Disp → A) : M A := λ s, Ok (s, inl (f s)).
Definition modify (f : Disp → Disp) : M unit := λ s, Ok (f s, inl tt).
(** An engine call that may panic. *)
Definition call_engine {A} (f : Disp → res (Disp * A)) : M A := λ s,
  match f s with Ok (s, a) => Ok (s, inl a) | Panic => Panic end.

Record IterationOutcome := MkOutcome {
  tx_sent : nat;
  inbound_publishes : nat;
  error_kind : option CanErrorKind;
  reconnected : bool;
  tp_completed : nat;
  tp_aborted : nat;
  tp_refused : nat;
  tp_events : list TpEvent;
}.
Definition outcome_new (n : nat) : IterationOutcome := MkOutcome n 0 None false 0 0 0 [].
Definition add_tx (o : IterationOutcome) (n : nat) :=
  MkOutcome (tx_sent o + n) (inbound_publishes o) (error_kind o) (reconnected o)
    (tp_completed o) (tp_aborted o) (tp_refused o) (tp_events o).
Definition add_publishes (o : IterationOutcome) (n : nat) :=
  MkOutcome (tx_sent o) (inbound_publishes o + n) (error_kind o) (reconnected o)
    (tp_completed o) (tp_aborted o) (tp_refused o) (tp_events o).

(** What the environment supplies to one iteration. *)
Record iter_input := MkInput {
  i_rx : option (CanFrame + CanIoError);
  i_reopen : option CanIoError;
  i_state : CanIfaceState;
  i_now : Z;
}.

(** The shared shape of queued frames ([trait OutFrame]). *)
Class OutFrame (F : Type) := parts : F → Pgn * Z * Z * option Z * list Z.
#[export] Instance tp_out_frame : OutFrame TpOutFrame := λ f,
  (o_wire_pgn f, o_priority f, o_source_addr f, o_dest_addr f, o_data f).
#[export] Instance ac_out_frame : OutFrame AcOutFrame := λ f,
  (a_wire_pgn f, a_priority f, a_source_addr f, a_dest_addr f, a_data f).

Section dispatcher.
Context {HI : HashIter}.
Context (iface : string).

(** ** Transmission *)

Definition send_classical (f : CanData) : M unit := λ s,
  match send_result (d_driver s) (length (sent (d_driver s))) with
  | Some _ => Ok (s, inr (Stack "send_classical"))
  | None =>
      Ok (set_driver s (MkDriver (sent (d_driver s) ++ [f]) (send_result (d_driver s))), inl tt)
  end.

(** [encode_extended_id], [CanId::extended] and [CanData::new] in sequence. *)
Definition encode_frame (p : Pgn) (prio sa : Z) (da : option Z) (data : list Z) :
  CanData + ConnectorError :=
  match CanId_extended (encode_extended_id p prio sa da) with
  | inr _ => inr (Stack "encode id")
  | inl can_id =>
      match CanData_new can_id Classical 0 data with
      | inr _ => inr (Stack "build frame")
      | inl f => inl f
      end
  end.

Definition encode_out {F} `{OutFrame F} (f : F) : CanData + ConnectorError :=
  let '(p, prio, sa, da, data) := parts f in encode_frame p prio sa da data.

Fixpoint transmit_frames {F} `{OutFrame F} (frames : list F) : M nat :=
  match frames with
  | [] => mret 0%nat
  | f :: frames =>
      match encode_out f with
      | inr e => fail e
      | inl d => send_classical d;; n ← transmit_frames frames; mret (S n)
      end
  end.

(** ** Draining the outbound channels *)

(** The drain loop of one channel; [build] turns a message into frames. *)
Fixpoint drain_loop (dest_len : Z) (build : list Z → res (list CanData + ConnectorError))
    (pending : list envelope) : res (list envelope * (list CanData + ConnectorError)) :=
  match pending with
  | [] => Ok ([], inl [])
  | env :: pending =>
      match drain_into env dest_len with
      | inr e => Ok (pending, inr e)
      | inl None => Ok (pending, inl [])
      | inl (Some bytes) =>
          r ← build bytes;
          match r with
          | inr e => Ok (pending, inr e)
          | inl fs =>
              '(pending, r) ← drain_loop dest_len build pending;
              Ok (pending, match r with inl fs' => inl (fs ++ fs') | inr e => inr e end)
          end
      end
  end.

Fixpoint encode_all {F} `{OutFrame F} (fs : list F) : list CanData + ConnectorError :=
  match fs with
  | [] => inl []
  | f :: fs =>
      match encode_out f with
      | inr e => inr e
      | inl d => match encode_all fs with inl ds => inl (d :: ds) | inr e => inr e end
      end
  end.

Definition build_tp (rt : J1939Routing) (sa : Z) (bytes : list Z) :
  res (list CanData + ConnectorError) :=
  r ← segment_outbound (r_pgn rt) (r_priority rt) sa bytes;
  Ok match r with
     | inr _ => inr (Stack "segment_outbound")
     | inl frames => encode_all frames
     end.
Definition build_single (can_id : CanId) (bytes : list Z) : res (list CanData + ConnectorError) :=
  Ok match CanData_new can_id Classical 0 bytes with
     | inr _ => inr (Stack "build frame")
     | inl d => inl [d]
     end.

(** The frames of one registry entry. *)
Definition collect_entry (source_addr : Z) (c : RegisteredChannel) :
  res (RegisteredChannel * (list CanData + ConnectorError)) :=
  match direction c, binding c with
  | Outbound, BoundOut pending =>
      let rt := routing c in
      let sa := default source_addr (r_source_addr rt) in
      if is_tp (r_transport rt) then
        '(pending, r) ← drain_loop (max_payload (r_transport rt)) (build_tp rt sa) pending;
        Ok (set_binding c (BoundOut pending), r)
      else
        match CanId_extended (encode_extended_id (r_pgn rt) (r_priority rt) sa (r_dest_addr rt)) with
        | inr _ => Ok (c, inr (Stack "encode id"))
        | inl can_id =>
            '(pending, r) ← drain_loop SINGLE_FRAME_LEN (build_single can_id) pending;
            Ok (set_binding c (BoundOut pending), r)
        end
  | _, _ => Ok (c, inl [])
  end.

Fixpoint collect_outbound_jobs (source_addr : Z) (cs : J1939Registry) :
  res (J1939Registry * (list CanData + ConnectorError)) :=
  match cs with
  | [] => Ok ([], inl [])
  | c :: cs =>
      '(c, r) ← collect_entry source_addr c;
      match r with
      | inr e => Ok (c :: cs, inr e)
      | inl jobs =>
          '(cs, r) ← collect_outbound_jobs source_addr cs;
          Ok (c :: cs, match r with inl jobs' => inl (jobs ++ jobs') | inr e => inr e end)
      end
  end.

Fixpoint send_all (jobs : list CanData) : M nat :=
  match jobs with
  | [] => mret 0%nat
  | d :: jobs => send_classical d;; n ← send_all jobs; mret (S n)
  end.

Definition send_outbound_once (source_addr : Z) : M nat := λ s,
  match collect_outbound_jobs source_addr (d_registry s) with
  | Panic => Panic
  | Ok (cs, inr e) => Ok (set_registry s cs, inr e)
  | Ok (cs, inl jobs) => send_all jobs (set_registry s cs)
  end.

(** ** Delivery to the inbound channels *)

(** The publishing loop: every inbound channel [sel] accepts, in order. *)
Fixpoint publish_loop (sel : J1939Routing → bool) (bytes : list Z) (now : Z)
    (cs : J1939Registry) (h : ConnHealth.CanHealthMonitor) :
  J1939Registry * ConnHealth.CanHealthMonitor * (nat + ConnectorError) :=
  match cs with
  | [] => ([], h, inl 0%nat)
  | c :: cs =>
      match direction c, sel (routing c), binding c with
      | Inbound, true, BoundIn p =>
          match publish_bytes p h bytes now with
          | (p, h, Some e) => (set_binding c (BoundIn p) :: cs, h, inr e)
          | (p, h, None) =>
              let '(cs, h, r) := publish_loop sel bytes now cs h in
              (set_binding c (BoundIn p) :: cs, h, match r with inl n => inl (S n) | inr e => inr e end)
          end
      | _, _, _ =>
          let '(cs, h, r) := publish_loop sel bytes now cs h in (c :: cs, h, r)
      end
  end.

Definition publish_where (sel : J1939Routing → bool) (bytes : list Z) (now : Z) : M nat := λ s,
  let '(cs, h, r) := publish_loop sel bytes now (d_registry s) (d_health s) in
  Ok (set_health (set_registry s cs) h, r).

Definition synthetic_id (p : Pgn) (source_addr : Z) : DecodedId :=
  {| priority := 0; d_pdu_format := pdu_format p; pgn := p; source_addr := source_addr;
     dest_addr := None |}.
Definition publish_tp_completed (p : Pgn) (source_addr : Z) (payload : list Z) (now : Z) : M nat :=
  publish_where (λ r, is_tp (r_transport r) && matches r (synthetic_id p source_addr)) payload now.

Definition set_iface_ (k : ConnHealth.IfaceHealthKind) (now : Z) : M unit :=
  modify (λ s, set_health s (fst (ConnHealth.set_iface (d_health s) iface k now))).
Definition degrade_health (now : Z) : M unit := set_iface_ ConnHealth.IDegraded now.

Fixpoint apply_tp_events (events : list TpEvent) (now : Z) (o : IterationOutcome) :
  M IterationOutcome :=
  match events with
  | [] => mret o
  | ev :: events =>
      match ev with
      | Completed p source_addr payload =>
          n ← publish_tp_completed p source_addr payload now;
          apply_tp_events events now
            (MkOutcome (tx_sent o) (inbound_publishes o + n) (error_kind o) (reconnected o)
               (S (tp_completed o)) (tp_aborted o) (tp_refused o) (tp_events o))
      | Aborted _ _ _ =>
          degrade_health now;;
          apply_tp_events events now
            (MkOutcome (tx_sent o) (inbound_publishes o) (error_kind o) (reconnected o)
               (tp_completed o) (S (tp_aborted o)) (tp_refused o) (tp_events o ++ [ev]))
      | SessionRefused _ _ _ =>
          degrade_health now;;
          apply_tp_events events now
            (MkOutcome (tx_sent o) (inbound_publishes o) (error_kind o) (reconnected o)
               (tp_completed o) (tp_aborted o) (S (tp_refused o)) (tp_events o ++ [ev]))
      end
  end.

Definition is_claim_pgn (d : DecodedId) : bool :=
  let v := value (pgn d) in
  (v =? ADDRESS_CLAIMED_PGN) || (v =? REQUEST_PGN) || (v =? COMMANDED_ADDRESS_PGN).
Definition is_tp_wire_pgn (d : DecodedId) : bool :=
  let v := value (pgn d) in
  (v =? TP_CM_PGN) || (v =? TP_DT_PGN) || (v =? ETP_CM_PGN) || (v =? ETP_DT_PGN).

(** [TpEngine::on_frame] and [AddrClaimEngine::on_frame] on the state. *)
Definition tp_on_frame (d : DecodedId) (data : list Z) (now : Z) : M (list TpEvent) :=
  call_engine (λ s, '(e, evs) ← on_frame (d_tp s) d data now; Ok (set_tp s e, evs)).
Definition claim_on_frame (e : AddrClaimEngine) (g : ClaimGate) (d : DecodedId) (data : list Z)
    (now : Z) : M (list AcEvent) :=
  call_engine (λ s, '(e, evs) ← ac_on_frame e d data now; Ok (set_claim_ctx s (Some (e, g)), evs)).

Definition demux_inbound (frame : CanData) (now : Z) (o : IterationOutcome) :
  M (IterationOutcome * list AcEvent) :=
  let decoded := decode_extended_id (id_value (cd_id frame)) in
  claim ← gets d_claim;
  match is_claim_pgn decoded, claim with
  | true, Some (e, g) =>
      evs ← claim_on_frame e g decoded (cd_payload frame) now; mret (o, evs)
  | _, _ =>
      if is_tp_wire_pgn decoded then
        evs ← tp_on_frame decoded (cd_payload frame) now;
        o ← apply_tp_events evs now o; mret (o, [])
      else
        n ← publish_where (λ r, negb (is_tp (r_transport r)) && matches r decoded)
              (cd_payload frame) now;
        mret (add_publishes o n, [])
  end.

(** ** Errors of the bus *)

Definition reopened (now : Z) : M unit :=
  set_iface_ ConnHealth.IConnecting now;; set_iface_ ConnHealth.IUp now.

Definition classify_error (k : CanErrorKind) (i : iter_input) : M unit :=
  match k with
  | Warning | Passive => set_iface_ ConnHealth.IDegraded (i_now i)
  | BusOff =>
      set_iface_ ConnHealth.IDown (i_now i);;
      match i_reopen i with
      | None => reopened (i_now i)
      | Some _ => fail (Stack "reopen")
      end
  | ArbitrationLost | OtherError => mret tt
  end.

Definition reconnect_once (i : iter_input) : M unit :=
  set_iface_ ConnHealth.IDown (i_now i);;
  match i_reopen i, i_state i with
  | None, IfActive => reopened (i_now i)
  | _, _ => mret tt
  end.

Definition handle_rx_result (i : iter_input) (o : IterationOutcome) :
  M (IterationOutcome * list AcEvent) :=
  match i_rx i with
  | None | Some (inl (Remote _ _)) => mret (o, [])
  | Some (inl (Data d)) => demux_inbound d (i_now i) o
  | Some (inl (ErrorFrame k)) =>
      classify_error k i;;
      mret (MkOutcome (tx_sent o) (inbound_publishes o) (Some k) (reconnected o)
              (tp_completed o) (tp_aborted o) (tp_refused o) (tp_events o), [])
  | Some (inr Closed) =>
      reconnect_once i;;
      mret (MkOutcome (tx_sent o) (inbound_publishes o) (error_kind o) true
              (tp_completed o) (tp_aborted o) (tp_refused o) (tp_events o), [])
  | Some (inr _) => fail (Stack "recv")
  end.

(** ** Claim events *)

Definition set_gate (c : ClaimState) : M unit :=
  modify (λ s, match d_claim s with
               | Some (e, g) => set_claim_ctx s (Some (e, gate_set g c))
               | None => s
               end).
Fixpoint apply_ac_events (events : list AcEvent) (now : Z) : M unit :=
  match events with
  | [] => mret tt
  | ev :: events =>
      match ev with
      | EvClaiming _ => set_gate Claiming;; set_iface_ ConnHealth.IConnecting now
      | EvClaimed _ => set_gate Claimed;; set_iface_ ConnHealth.IUp now
      | EvCannotClaim => set_gate CannotClaim;; set_iface_ ConnHealth.IDown now
      end;;
      apply_ac_events events now
  end.

(** ** One iteration and the loop *)

Definition claim_poll (now : Z) : M (list AcEvent) := λ s,
  match d_claim s with
  | Some (e, g) => let '(e, evs) := poll e now in Ok (set_claim_ctx s (Some (e, g)), inl evs)
  | None => Ok (s, inl [])
  end.
Definition take_tp_outbound : M (list TpOutFrame) := λ s,
  let '(e, fs) := take_outbound (d_tp s) in Ok (set_tp s e, inl fs).
Definition take_claim_outbound : M (list AcOutFrame) := λ s,
  match d_claim s with
  | Some (e, g) =>
      let '(e, fs) := ac_take_outbound e in Ok (set_claim_ctx s (Some (e, g)), inl fs)
  | None => Ok (s, inl [])
  end.
Definition tp_poll (now : Z) : M (list TpEvent) :=
  call_engine (λ s, '(e, evs) ← poll_timeouts (d_tp s) now; Ok (set_tp s e, evs)).

(** The iteration after the receive: timer sweep, queued transport frames,
    claim events and queued claim frames. *)
Definition after_rx (now : Z) (o : IterationOutcome) (ac_events : list AcEvent) : M IterationOutcome :=
  timeouts ← tp_poll now;
  o ← apply_tp_events timeouts now o;
  fs ← take_tp_outbound;
  n ← transmit_frames fs;
  claim ← gets d_claim;
  match claim with
  | None => mret (add_tx o n)
  | Some _ =>
      apply_ac_events ac_events now;;
      fs ← take_claim_outbound;
      n' ← transmit_frames fs;
      mret (add_tx (add_tx o n) n')
  end.

Definition dispatch_iteration_inner (source_addr : Z) (i : iter_input) : M IterationOutcome :=
  n ← send_outbound_once source_addr;
  ac1 ← claim_poll (i_now i);
  '(o, ac2) ← handle_rx_result i (outcome_new n);
  after_rx (i_now i) o (ac1 ++ ac2).

(** [dispatcher_loop] over the inputs until [stop] is seen; the first error
    ends it. *)
Fixpoint dispatcher_loop (source_addr : Z) (ins : list iter_input) : M (list IterationOutcome) :=
  match ins with
  | [] => mret []
  | i :: ins =>
      o ← dispatch_iteration_inner source_addr i;
      os ← dispatcher_loop source_addr ins;
      mret (o :: os)
  end.
End dispatcher.

(** The state [dispatcher_loop] starts from. *)
Definition disp_new (source_addr name claim_wait : Z) (timers : TpTimers)
    (max_sessions max_etp_bytes : Z) (driver : Driver) (r : J1939Registry)
    (h : ConnHealth.CanHealthMonitor) (g : ClaimGate) : Disp :=
  MkDisp driver r h (with_max_etp_bytes (new timers max_sessions) max_etp_bytes)
    (Some (ac_new source_addr name claim_wait, g)).

(** ** The gated writer ([writer.rs])

    The wrapped channel writer is a parameter. *)
Definition debug_state (c : ClaimState) : string :=
  match c with Claiming => "Claiming" | Claimed => "Claimed" | CannotClaim => "CannotClaim" end.

Section writer.
Context {W T Out : Type} (inner_send : W → T → W * (Out + ConnectorError)).
Record J1939Writer := MkWriter { inner : W; gate : ClaimGate }.
Definition ensure_claimed (w : J1939Writer) : option ConnectorError :=
  if is_claimed (gate w) then None else Some (Down ("j1939: outbound gated — address not claimed (state "
                 +:+ debug_state (gate_state (gate w)) +:+ ")")).
Definition writer_send (w : J1939Writer) (v : T) : J1939Writer * (Out + ConnectorError) :=
  match ensure_claimed w with
  | Some e => (w, inr e)
  | None => let '(i, r) := inner_send (inner w) v in (MkWriter i (gate w), r)
  end.
End writer.
End Dispatch.
