(* ===== verification/J1939DispatchOk.v ===== *)
(** * Properties of the J1939 dispatcher

    The transmit gate follows the claim engine while iterations succeed, and
    not when one fails half-way; with the frame lemmas on the parts of the state
    a step leaves alone. *)

From stdpp Require Import base gmap strings list list_numbers.
From Stdlib Require Import ZArith Lia.
From S2P Require Import Prelude J1939Id J1939Tp J1939TpInv J1939TpPoll J1939Packet J1939TpBam.
From S2P Require Import J1939AddrClaim ConnHealth J1939Dispatch.

Module DispatchOk.
Import Id Tp AddrClaim Dispatch.

(** ** What a step leaves alone *)

(** [m] does not change [f], whether it succeeds or fails. *)
Definition keeps {A X} (f : Disp → X) (m : M A) : Prop :=
  ∀ s s' r, m s = Ok (s', r) → f s' = f s.

Create HintDb keeps.

Section keeps.
Context {A B X : Type} (f : Disp → X).

Lemma keeps_ret (a : A) : keeps f (mret a).
Proof. intros s s' r [= <- <-]. done. Qed.
Lemma keeps_fail e : keeps f (@fail A e).
Proof. intros s s' r [= <- <-]. done. Qed.
Lemma keeps_gets (g : Disp → A) : keeps f (gets g).
Proof. intros s s' r [= <- <-]. done. Qed.
Lemma keeps_modify g : (∀ s, f (g s) = f s) → keeps f (modify g).
Proof. intros Hg s s' r [= <- <-]. done. Qed.
Lemma keeps_bind (m : M A) (k : A → M B) :
  keeps f m → (∀ a, keeps f (k a)) → keeps f (m ≫= k).
Proof.
  intros Hm Hk s s' r. unfold mbind, M_bind. destruct (m s) as [[s1 [a|e]]|] eqn:E; [..|done].
  - intros H. rewrite (Hk _ _ _ _ H). by eapply Hm.
  - intros [= <- <-]. by eapply Hm.
Qed.
Lemma keeps_call (g : Disp → res (Disp * A)) :
  (∀ s s' a, g s = Ok (s', a) → f s' = f s) → keeps f (call_engine g).
Proof.
  intros Hg s s' r. unfold call_engine. destruct (g s) as [[s1 a]|] eqn:E; [|done].
  intros [= <- <-]. by eapply Hg.
Qed.
End keeps.
#[export] Hint Resolve keeps_ret keeps_fail keeps_gets keeps_bind : keeps.
#[export] Hint Extern 1 (∀ _ _, _ = _) => done : keeps.
#[export] Hint Extern 5 (keeps _ (modify _)) => apply keeps_modify; intros; done : keeps.

Section dispatcher.
Context {HI : HashIter} (iface : string).

(** *** The claim context is only touched by the claim steps *)

Lemma keeps_send_classical {X} (f : Disp → X) c :
  (∀ s d, f (set_driver s d) = f s) → keeps f (send_classical c).
Proof.
  intros Hf s s' r. unfold send_classical. destruct (send_result _ _); intros [= <- <-]; auto.
Qed.
Lemma keeps_transmit {X F} `{OutFrame F} (f : Disp → X) (fs : list F) :
  (∀ s d, f (set_driver s d) = f s) → keeps f (transmit_frames fs).
Proof.
  intros Hf. induction fs as [|x fs IH]; simpl; [eauto with keeps|].
  destruct (encode_out x); [|eauto with keeps].
  apply keeps_bind; [by apply keeps_send_classical|]. eauto with keeps.
Qed.
Lemma keeps_send_all {X} (f : Disp → X) jobs :
  (∀ s d, f (set_driver s d) = f s) → keeps f (send_all jobs).
Proof.
  intros Hf. induction jobs as [|x fs IH]; simpl; [eauto with keeps|].
  apply keeps_bind; [by apply keeps_send_classical|]. eauto with keeps.
Qed.
Lemma keeps_send_outbound sa : keeps d_claim (send_outbound_once sa).
Proof.
  intros s s' r. unfold send_outbound_once.
  destruct (collect_outbound_jobs _ _) as [[cs [jobs|e]]|]; [| |done].
  - intros H. by rewrite (keeps_send_all d_claim jobs (λ _ _, eq_refl) _ _ _ H).
  - by intros [= <- <-].
Qed.
Lemma keeps_publish sel bytes now : keeps d_claim (publish_where sel bytes now).
Proof.
  intros s s' r. unfold publish_where. destruct (publish_loop _ _ _ _ _) as [[cs h] r'].
  by intros [= <- <-].
Qed.
Lemma keeps_set_iface {X} (f : Disp → X) k now :
  (∀ s x, f (set_health s x) = f s) → keeps f (set_iface_ iface k now).
Proof. intros Hf. by apply keeps_modify. Qed.
#[local] Hint Resolve keeps_publish keeps_set_iface : keeps.
Lemma keeps_tp_events evs now o : keeps d_claim (apply_tp_events iface evs now o).
Proof.
  revert o. induction evs as [|[] evs IH]; intros o; simpl; eauto with keeps.
Qed.
Lemma keeps_tp_poll {X} (f : Disp → X) now :
  (∀ s x, f (set_tp s x) = f s) → keeps f (tp_poll now).
Proof.
  intros Hf. apply keeps_call. intros s s' a. destruct (poll_timeouts _ _) as [[e evs]|]; [|done].
  by intros [= <- <-].
Qed.
Lemma keeps_tp_frame d data now : keeps d_claim (tp_on_frame d data now).
Proof.
  apply keeps_call. intros s s' a. destruct (on_frame _ _ _ _) as [[e evs]|]; [|done].
  by intros [= <- <-].
Qed.
Lemma keeps_take_tp {X} (f : Disp → X) :
  (∀ s x, f (set_tp s x) = f s) → keeps f take_tp_outbound.
Proof. intros Hf s s' r. unfold take_tp_outbound. simpl. by intros [= <- <-]. Qed.
Lemma keeps_claim_poll {X} (f : Disp → X) now :
  (∀ s x, f (set_claim_ctx s x) = f s) → keeps f (claim_poll now).
Proof.
  intros Hf s s' r. unfold claim_poll. destruct (d_claim s) as [[e g]|]; [|by intros [= <- <-]].
  destruct (poll e now). by intros [= <- <-].
Qed.
Lemma keeps_take_claim {X} (f : Disp → X) :
  (∀ s x, f (set_claim_ctx s x) = f s) → keeps f take_claim_outbound.
Proof.
  intros Hf s s' r. unfold take_claim_outbound.
  destruct (d_claim s) as [[e g]|]; simpl; by intros [= <- <-].
Qed.
Lemma keeps_ac_events {X} (f : Disp → X) evs now :
  (∀ s x, f (set_claim_ctx s x) = f s) → (∀ s x, f (set_health s x) = f s) →
  keeps f (apply_ac_events iface evs now).
Proof.
  intros Hc Hh. assert (∀ c, keeps f (set_gate c)) as Hg.
  { intros c. apply keeps_modify. intros s. destruct (d_claim s) as [[e g]|]; [apply Hc|done]. }
  assert (∀ k, keeps f (set_iface_ iface k now)) as Hi by (intros k; by apply keeps_set_iface).
  induction evs as [|[] evs IH]; simpl; eauto with keeps.
Qed.
Lemma keeps_reconnect i : keeps d_claim (reconnect_once iface i).
Proof.
  unfold reconnect_once, reopened. apply keeps_bind; [eauto with keeps|intros _].
  destruct (i_reopen i), (i_state i); eauto with keeps.
Qed.
Lemma keeps_classify k i : keeps d_claim (classify_error iface k i).
Proof.
  unfold classify_error, reopened. destruct k; eauto with keeps.
  apply keeps_bind; [eauto with keeps|intros _]. destruct (i_reopen i); eauto with keeps.
Qed.
#[local] Hint Resolve keeps_tp_events keeps_tp_poll keeps_tp_frame keeps_take_tp keeps_reconnect
  keeps_classify keeps_send_outbound : keeps.

(** ** The gate follows the engine *)

(** The gate shows the engine's state. *)
Definition in_step (s : Disp) : Prop :=
  ∃ e g, d_claim s = Some (e, g) ∧ gate_state g = ac_state e.

(** The claim context after a step that has collected the events [evs] since
    the gate was last updated. *)
Definition behind (evs : list AcEvent) (s : Disp) : Prop :=
  ∃ e g, d_claim s = Some (e, g) ∧ ac_state e = foldl after_event (gate_state g) evs.

(** Partial correctness of a step that succeeds. *)
Definition ensures {A} (P : Disp → Prop) (m : M A) (Q : A → Disp → Prop) : Prop :=
  ∀ s s' a, P s → m s = Ok (s', inl a) → Q a s'.

Lemma ensures_bind {A B} P (m : M A) Q (k : A → M B) R :
  ensures P m Q → (∀ a, ensures (Q a) (k a) R) → ensures P (m ≫= k) R.
Proof.
  intros Hm Hk s s' b HP. unfold mbind, M_bind.
  destruct (m s) as [[s1 [a|e]]|] eqn:E; [|done..]. intros H. by eapply Hk, H; eapply Hm.
Qed.
Lemma ensures_ret {A} (P : Disp → Prop) (a : A) (Q : A → Disp → Prop) :
  (∀ s, P s → Q a s) → ensures P (mret a) Q.
Proof. intros H s s' a' HP [= <- <-]. auto. Qed.
Lemma ensures_behind {A} evs (m : M A) :
  keeps d_claim m → ensures (behind evs) m (λ _, behind evs).
Proof. intros Hk s s' a HP H. unfold behind in *. by rewrite (Hk _ _ _ H). Qed.

Lemma gate_state_set g c : gate_state (gate_set g c) = c.
Proof. by destruct c. Qed.

Lemma claim_poll_behind now : ensures in_step (claim_poll now) behind.
Proof.
  intros s s' evs (e & g & Hc & Hs). unfold claim_poll. rewrite Hc.
  pose proof (poll_steps e now) as Hst. destruct (poll e now) as [e' evs'].
  intros [= <- <-]. exists e', g. split; [done|]. rewrite Hs. apply Hst.
Qed.

Lemma claim_frame_behind evs e g d data now s s' evs' :
  behind evs s → d_claim s = Some (e, g) →
  claim_on_frame e g d data now s = Ok (s', inl evs') → behind (evs ++ evs') s'.
Proof.
  intros (e0 & g0 & Hc0 & Hb) Hc. simplify_eq. unfold claim_on_frame, call_engine.
  pose proof (ac_on_frame_steps e0 d data now) as Hst.
  destruct (ac_on_frame e0 d data now) as [[e' evs1]|]; [|done].
  intros [= <- <-]. exists e', g0. split; [done|]. rewrite foldl_app, <-Hb. apply Hst.
Qed.

Lemma apply_ac_behind evs now : ∀ s s' u,
  behind evs s → apply_ac_events iface evs now s = Ok (s', inl u) → in_step s'.
Proof.
  induction evs as [|ev evs IH]; intros s s' u (e & g & Hc & Hb); simpl.
  { intros [= <- <-]. by exists e, g. }
  intros H. destruct ev; unfold mbind, M_bind, set_gate, set_iface_, modify in H; rewrite Hc in H;
    (eapply IH, H); eexists e, _; (split; [done|]); simpl; by rewrite gate_state_set.
Qed.

Lemma demux_behind evs d now o :
  ensures (behind evs) (demux_inbound iface d now o) (λ r s, behind (evs ++ r.2) s).
Proof.
  unfold demux_inbound. set (dec := decode_extended_id _). set (other := if is_tp_wire_pgn dec then _ else _).
  assert (ensures (behind evs) other (λ r s, behind (evs ++ r.2) s)) as Hother.
  { subst other. destruct (is_tp_wire_pgn dec).
    - eapply ensures_bind; [apply ensures_behind; eauto with keeps|intros evs1].
      eapply ensures_bind; [apply ensures_behind; eauto with keeps|intros o1].
      apply ensures_ret. intros s1 Hs1. simpl. by rewrite app_nil_r.
    - eapply ensures_bind; [apply ensures_behind; eauto with keeps|intros n].
      apply ensures_ret. intros s1 Hs1. simpl. by rewrite app_nil_r. }
  clearbody other. intros s s' r Hb. unfold gets. unfold mbind at 1, M_bind at 1.
  destruct (is_claim_pgn dec); [|by apply Hother].
  destruct (d_claim s) as [[e g]|] eqn:Ec; [|by apply Hother].
  unfold mbind, M_bind. destruct (claim_on_frame _ _ _ _ _ s) as [[s1 [evs1|]]|] eqn:Ef; [|done..].
  intros [= <- <-]. simpl. by eapply claim_frame_behind.
Qed.

Lemma handle_rx_behind evs i o :
  ensures (behind evs) (handle_rx_result iface i o) (λ r s, behind (evs ++ r.2) s).
Proof.
  unfold handle_rx_result.
  assert (∀ A (m : M A) (f : A → IterationOutcome), keeps d_claim m →
    ensures (behind evs) (a ← m; mret (f a, [] : list AcEvent)) (λ r s, behind (evs ++ r.2) s)) as Hk.
  { intros A m f Hm. eapply ensures_bind; [by apply ensures_behind|intros a].
    apply ensures_ret. intros s Hs. simpl. by rewrite app_nil_r. }
  destruct (i_rx i) as [[[d|id dlc|k]|[]]|]; try apply demux_behind.
  all: try (apply ensures_ret; intros s Hs; simpl; by rewrite app_nil_r).
  all: try (intros s s' r _; discriminate).
  - apply (Hk _ (classify_error iface k i) (λ _, _)). eauto with keeps.
  - apply (Hk _ (reconnect_once iface i) (λ _, _)). eauto with keeps.
Qed.

Lemma take_claim_step : ensures in_step take_claim_outbound (λ _, in_step).
Proof.
  intros s s' fs (e & g & Hc & Hs). unfold take_claim_outbound. rewrite Hc. simpl.
  intros [= <- <-]. by exists (set_out e []), g.
Qed.
Lemma ensures_keeps_step {A} (m : M A) : keeps d_claim m → ensures in_step m (λ _, in_step).
Proof. intros Hk s s' a HP H. unfold in_step in *. by rewrite (Hk _ _ _ H). Qed.

Lemma iteration_in_step sa i :
  ensures in_step (dispatch_iteration_inner iface sa i) (λ _, in_step).
Proof.
  unfold dispatch_iteration_inner.
  eapply ensures_bind; [apply ensures_keeps_step; eauto with keeps|intros n].
  eapply ensures_bind; [apply claim_poll_behind|intros ac1].
  eapply ensures_bind; [apply handle_rx_behind|intros [o ac2]; simpl; unfold after_rx].
  eapply ensures_bind; [apply ensures_behind; eauto with keeps|intros timeouts].
  eapply ensures_bind; [apply ensures_behind; eauto with keeps|intros o1].
  eapply ensures_bind; [apply ensures_behind; eauto with keeps|intros fs].
  eapply ensures_bind; [apply ensures_behind, keeps_transmit; done|intros n1].
  intros s s' r Hb. pose proof Hb as (e & g & Hc & _). unfold gets.
  unfold mbind at 1, M_bind at 1. rewrite Hc. intros H.
  refine (ensures_bind (behind (ac1 ++ ac2)) _ (λ _, in_step) _ (λ _, in_step) _ _ s s' r Hb H).
  - intros s1 s2 u. apply apply_ac_behind.
  - intros _. eapply ensures_bind; [apply take_claim_step|intros fs'].
    eapply ensures_bind; [apply ensures_keeps_step, keeps_transmit; done|intros n2].
    by apply ensures_ret.
Qed.

(** States of a dispatcher: iterations that succeed, and anything the
    environment does to the channels, the driver and the shared monitor. *)
Inductive reach (sa : Z) (s0 : Disp) : Disp → Prop :=
| reach_start : reach sa s0 s0
| reach_iter s i s' o :
    reach sa s0 s → dispatch_iteration_inner iface sa i s = Ok (s', inl o) → reach sa s0 s'
| reach_env s s' :
    reach sa s0 s → d_claim s' = d_claim s → d_tp s' = d_tp s → reach sa s0 s'.

Lemma reach_in_step sa s0 s : in_step s0 → reach sa s0 s → in_step s.
Proof.
  intros H0. induction 1 as [|s i s' o _ IH Hi|s s' _ IH Hc _]; [done|..].
  - by eapply iteration_in_step.
  - unfold in_step in *. by rewrite Hc.
Qed.

(** While no iteration fails, the transmit gate shows the claim engine's
    state after every iteration, whatever frames arrive and whatever else happens
    to the channels, the driver and the shared monitor; the gated writer therefore
    passes a value on exactly when the address is claimed, and otherwise answers
    [Down] and leaves the channel untouched. *)
Theorem gate_follows_claim {W T Out} (inner_send : W → T → W * (Out + ConnectorError))
    sa name wait timers max_s max_etp drv r h s :
  reach sa (disp_new sa name wait timers max_s max_etp drv r h gate_new) s →
  ∃ e g, d_claim s = Some (e, g) ∧ gate_state g = ac_state e
    ∧ ∀ w v, let '(w', res) := writer_send inner_send (MkWriter w g) v in
        if decide (ac_state e = Claimed)
        then (inner w', res) = inner_send w v
        else inner w' = w ∧ ∃ reason, res = inr (Down reason).
Proof.
  intros Hr. apply reach_in_step in Hr as (e & g & Hc & Hs); [|by do 2 eexists].
  exists e, g. split_and!; [done|done|].
  intros w v. unfold writer_send, ensure_claimed, is_claimed. simpl. rewrite Hs.
  case_decide as Hd; [rewrite bool_decide_eq_true_2 by done|rewrite bool_decide_eq_false_2 by done].
  - by destruct (inner_send w v).
  - split; [done|]. by eexists.
Qed.
End dispatcher.

(** *** A failing iteration *)

Definition free_driver : Driver := MkDriver [] (λ _, None).
Definition node (drv : Driver) (r : J1939Registry) : Disp :=
  disp_new 0x20 500 DEFAULT_CLAIM_WAIT TpTimers_default 8 DEFAULT_MAX_ETP_BYTES drv r
    (ConnHealth.health_new ["can0"] 0) gate_new.
Definition silence (t : Z) : iter_input := MkInput None None IfActive (from_millis t).
Definition frame_at (f : CanData) (t : Z) : iter_input :=
  MkInput (Some (inl (Data f))) None IfActive (from_millis t).
Definition wire (p prio sa : Z) (da : option Z) (data : list Z) : CanData :=
  MkCanData (MkCanId (encode_extended_id (MkPgn p) prio sa da) true) Classical 0 data.

(** The state an iteration or a run of the loop ends in. *)
Definition end_of {A} (m : M A) (s : Disp) : Disp :=
  match m s with Ok (s', _) => s' | Panic => s end.

Definition succeeds {A} (m : M A) (s : Disp) : bool :=
  match m s with Ok (_, inl _) => true | _ => false end.
Lemma reach_end iface sa s0 i s :
  reach iface sa s0 s → succeeds (dispatch_iteration_inner iface sa i) s = true →
  reach iface sa s0 (end_of (dispatch_iteration_inner iface sa i) s).
Proof.
  intros Hr. unfold succeeds, end_of.
  destruct (dispatch_iteration_inner iface sa i s) as [[s' [o|e]]|] eqn:E; [|done..].
  intros _. by eapply reach_iter.
Qed.

Lemma gate_follows_claim_witness :
  let s := end_of (dispatch_iteration_inner "can0" 0x20 (silence 0)) (node free_driver []) in
  ∃ e g, d_claim s = Some (e, g) ∧ gate_state g = ac_state e.
Proof.
  destruct (gate_follows_claim "can0" (λ (w : nat) (v : nat), ((w + v)%nat, inl v)) 0x20 500
    DEFAULT_CLAIM_WAIT TpTimers_default 8 DEFAULT_MAX_ETP_BYTES free_driver []
    (ConnHealth.health_new ["can0"] 0)
    (end_of (dispatch_iteration_inner "can0" 0x20 (silence 0)) (node free_driver [])))
    as (e & g & Hc & Hg & _).
  - apply reach_end; [apply reach_start|vm_compute; reflexivity].
  - exists e, g. split; [exact Hc|exact Hg].
Defined.

(** The third frame is not accepted by the bus: the node claims its address,
    answers a request to send, and 1.3 s later, when the abandoned session times
    out, loses its address to a lower NAME in the same iteration. *)
Definition failing_driver : Driver :=
  MkDriver [] (λ n, if decide (n = 2%nat) then Some (Io "ENOBUFS") else None).
Definition contested : list iter_input :=
  [silence 0; silence 250;
   frame_at (wire TP_CM_PGN 6 0x31 (Some 0x20) [RTS_CONTROL; 20; 0; 3; 0xFF; 0xCA; 0xFE; 0]) 300;
   frame_at (wire ADDRESS_CLAIMED_PGN 6 0x20 (Some GLOBAL_ADDRESS) (to_le_bytes 8 7)) 1600].

(** The documented rule that the gate always tracks the claim state does not
    survive a failing iteration: in this run the engine has given the address up,
    the loop has ended with the send error, and the gate still shows [Claimed], so
    the gated writer keeps accepting values. *)
Theorem gate_stale_after_error :
  ∃ s e g,
    dispatcher_loop "can0" 0x20 contested (node failing_driver []) = Ok (s, inr (Stack "send_classical"))
    ∧ d_claim s = Some (e, g) ∧ ac_state e = CannotClaim ∧ gate_state g = Claimed
    ∧ ensure_claimed (MkWriter tt g) = None.
Proof.
  pose (s := end_of (dispatcher_loop "can0" 0x20 contested) (node failing_driver [])).
  exists s, (default (ac_new 0 0 0) (fst <$> d_claim s)), (default gate_new (snd <$> d_claim s)).
  split_and!; vm_compute; reflexivity.
Qed.

End DispatchOk.
