(* ===== verification/J1939DispatchNet.v ===== *)
(** * Delivery through the J1939 dispatcher

    Which channels a frame or a reassembled message is published on, and the
    broadcast path end to end: a message written to a transport-protocol channel
    of one node, segmented, sent, received frame by frame by another node's
    dispatcher, reassembled and published. *)

From stdpp Require Import base gmap strings list list_numbers.
From Stdlib Require Import ZArith Lia.
From S2P Require Import Prelude J1939Id J1939Tp J1939TpInv J1939TpPoll J1939Packet J1939TpBam.
From S2P Require Import J1939AddrClaim ConnHealth J1939Dispatch J1939DispatchOk.

Module DispatchNet.
Import Id Tp AddrClaim Dispatch DispatchOk.

(** ** Publishing *)

(** A bridged publisher between calls: drained, with room for one slot. *)
Definition drained (c : RegisteredChannel) : Prop :=
  match binding c with
  | BoundIn p => queued p = 0%nat ∧ (1 ≤ capacity p)%nat
  | _ => True
  end.
(** Shared memory takes [bytes] from this channel. *)
Definition accepting (bytes : list Z) (c : RegisteredChannel) : Prop :=
  match binding c with
  | BoundIn p => len bytes ≤ port_max p ∧ ∀ n, iox_ok p n = true
  | _ => True
  end.

Definition append_published (p : InboundPublish) (bytes : list Z) : InboundPublish :=
  MkPublish (capacity p) (queued p) (dropped p) (threshold p) (port_max p) (iox_ok p)
    (published p ++ [bytes]).
(** The channel after [bytes] was published to what [sel] selects. *)
Definition delivered (sel : J1939Routing → bool) (bytes : list Z) (c : RegisteredChannel) :
  RegisteredChannel :=
  match direction c, sel (routing c), binding c with
  | Inbound, true, BoundIn p => set_binding c (BoundIn (append_published p bytes))
  | _, _, _ => c
  end.
Definition selected (sel : J1939Routing → bool) (c : RegisteredChannel) : bool :=
  match direction c, sel (routing c), binding c with
  | Inbound, true, BoundIn _ => true
  | _, _, _ => false
  end.
Definition count_selected (sel : J1939Routing → bool) (cs : J1939Registry) : nat :=
  length (List.filter (selected sel) cs).

Lemma publish_drained p h bytes now :
  queued p = 0%nat → (1 ≤ capacity p)%nat →
  publish_bytes p h bytes now =
    (if len bytes >? port_max p then (p, h, Some (PayloadOverflow (len bytes) (port_max p)))
     else if iox_ok p (length (published p)) then (append_published p bytes, h, None)
     else (p, h, Some (Stack "send"))).
Proof.
  intros Hq Hc. unfold publish_bytes, bridge_try_send. rewrite Hq.
  rewrite (proj2 (Nat.ltb_lt 0 (capacity p))) by lia. unfold bridge_try_recv, send_raw_bytes. simpl.
  destruct p as [cap q d th mx ok pub]; simpl in *. subst q.
  destruct (len bytes >? mx); [done|]. by destruct (ok (length pub)).
Qed.

Lemma publish_loop_exact sel bytes now cs h cs' h' n :
  Forall drained cs → publish_loop sel bytes now cs h = (cs', h', inl n) →
  cs' = delivered sel bytes <$> cs ∧ h' = h ∧ n = count_selected sel cs.
Proof.
  intros Hd. revert cs' h' n. induction Hd as [|c cs Hc Hd IH]; intros cs' h' n; simpl.
  { by intros [= <- <- <-]. }
  unfold count_selected. simpl. unfold delivered at 1, selected at 1. unfold drained in Hc.
  destruct (publish_loop sel bytes now cs h) as [[cs1 h1] [n1|e1]] eqn:E.
  - destruct (IH cs1 h1 n1 eq_refl) as (-> & -> & ->).
    destruct (direction c), (sel (routing c)), (binding c) as [| |p]; try (by intros [= <- <- <-]).
    rewrite publish_drained by apply Hc.
    destruct (len bytes >? port_max p); [done|]. destruct (iox_ok p _); [|done].
    rewrite E. by intros [= <- <- <-].
  - destruct (direction c), (sel (routing c)), (binding c) as [| |p]; try done.
    rewrite publish_drained by apply Hc.
    destruct (len bytes >? port_max p); [done|]. destruct (iox_ok p _); [|done]. by rewrite E.
Qed.

Lemma publish_loop_accepted sel bytes now cs h :
  Forall drained cs → Forall (accepting bytes) cs →
  publish_loop sel bytes now cs h = (delivered sel bytes <$> cs, h, inl (count_selected sel cs)).
Proof.
  intros Hd Ha. induction cs as [|c cs IH]; simpl; [done|].
  apply Forall_cons in Hd as [Hc Hd]. apply Forall_cons in Ha as [Hac Ha].
  specialize (IH Hd Ha). unfold count_selected. simpl.
  unfold delivered at 1, selected at 1. unfold drained in Hc. unfold accepting in Hac.
  destruct (direction c), (sel (routing c)), (binding c) as [| |p]; try (by rewrite IH).
  rewrite publish_drained by apply Hc. destruct Hac as [Hl Hok].
  assert ((len bytes >? port_max p) = false) as ->.
  { rewrite Z.gtb_ltb. apply Z.ltb_ge. lia. }
  by rewrite Hok, IH.
Qed.

(** ** Transmission leaves the inbound channels alone *)

(** A channel without the envelopes waiting on it. *)
Definition strip (c : RegisteredChannel) : RegisteredChannel :=
  match binding c with BoundOut _ => set_binding c (BoundOut []) | _ => c end.

Lemma collect_entry_strip sa c c' r : collect_entry sa c = Ok (c', r) → strip c' = strip c.
Proof.
  unfold collect_entry. destruct (direction c) eqn:Ed, (binding c) as [|pend|p] eqn:Eb;
    try (by intros [= <- <-]).
  assert (∀ q, strip (set_binding c (BoundOut q)) = strip c) as Hs.
  { intros q. unfold strip. rewrite Eb. done. }
  destruct (is_tp _).
  - destruct (drain_loop _ _ _) as [[q r']|]; [|done]. intros [= <- <-]. apply Hs.
  - destruct (CanId_extended _); [|by intros [= <- <-]].
    destruct (drain_loop _ _ _) as [[q r']|]; [|done]. intros [= <- <-]. apply Hs.
Qed.
Lemma collect_strip sa cs cs' r :
  collect_outbound_jobs sa cs = Ok (cs', r) → strip <$> cs' = strip <$> cs.
Proof.
  revert cs' r. induction cs as [|c cs IH]; intros cs' r; simpl; [by intros [= <- <-]|].
  destruct (collect_entry sa c) as [[c1 [jobs|e]]|] eqn:Ec; simpl; [| |done].
  - destruct (collect_outbound_jobs sa cs) as [[cs1 r1]|]; simpl; [|done].
    intros [= <- <-]. simpl. f_equal; [by eapply collect_entry_strip|by eapply IH].
  - intros [= <- <-]. simpl. f_equal. by eapply collect_entry_strip.
Qed.
Lemma strip_drained c : drained (strip c) ↔ drained c.
Proof. unfold drained, strip. by destruct (binding c) eqn:E; simpl; rewrite ?E. Qed.
Lemma strip_delivered sel bytes c : strip (delivered sel bytes c) = delivered sel bytes (strip c).
Proof.
  unfold strip, delivered. destruct (binding c) as [|q|p] eqn:E; rewrite ?E.
  - by destruct (direction c), (sel (routing c)); rewrite ?E.
  - by destruct (direction c) eqn:Ed, (sel (routing c)) eqn:Es; rewrite ?E; simpl; rewrite ?Ed, ?Es.
  - by destruct (direction c), (sel (routing c)); simpl; rewrite ?E.
Qed.
Lemma strip_selected sel c : selected sel (strip c) = selected sel c.
Proof.
  unfold strip, selected. destruct (binding c) as [|q|p] eqn:E; rewrite ?E; [done| |done].
  simpl. by destruct (direction c), (sel (routing c)).
Qed.
Lemma count_strip sel cs : count_selected sel (strip <$> cs) = count_selected sel cs.
Proof.
  unfold count_selected. induction cs as [|c cs IH]; [done|].
  rewrite fmap_cons. cbn [List.filter]. rewrite strip_selected.
  destruct (selected sel c); simpl; by rewrite IH.
Qed.

(** ** A frame that belongs to the channels *)

Section delivery.
Context {HI : HashIter} (iface : string).

(** The registry, up to waiting envelopes. *)
Definition regs (R : J1939Registry) (s : Disp) : Prop := strip <$> d_registry s = R.

Lemma regs_keeps {A} R (m : M A) : keeps d_registry m → ensures (regs R) m (λ _, regs R).
Proof. intros Hk s s' a Hs H. unfold regs in *. by rewrite (Hk _ _ _ H). Qed.

Lemma regs_send R sa : ensures (regs R) (send_outbound_once sa) (λ _, regs R).
Proof.
  intros s s' n Hs. unfold send_outbound_once, regs in *.
  destruct (collect_outbound_jobs _ _) as [[cs [jobs|e]]|] eqn:Ec; [|done..]. intros H.
  rewrite (keeps_send_all d_registry jobs (λ _ _, eq_refl) _ _ _ H). simpl.
  by rewrite (collect_strip _ _ _ _ Ec).
Qed.

Definition is_abort (ev : TpEvent) : Prop :=
  match ev with Aborted _ _ _ => True | _ => False end.

Lemma poll_aborts e now e' evs : poll_timeouts e now = Ok (e', evs) → Forall is_abort evs.
Proof.
  rewrite TpPoll.poll_timeouts_eq. intros [= <- <-].
  rewrite !Forall_app. split_and!; apply Forall_fmap, Forall_true; done.
Qed.
Lemma regs_tp_poll R now :
  ensures (regs R) (tp_poll now) (λ evs s, regs R s ∧ Forall is_abort evs).
Proof.
  intros s s' evs Hs H. split.
  - eapply regs_keeps, H; [|done]. by apply keeps_tp_poll.
  - revert H. unfold tp_poll, call_engine.
    destruct (poll_timeouts (d_tp s) now) as [[e evs']|] eqn:E; simpl; [|done].
    intros [= <- <-]. by eapply poll_aborts.
Qed.

(** Aborts publish nothing. *)
Lemma regs_aborts R evs now : Forall is_abort evs → ∀ o,
  ensures (regs R) (apply_tp_events iface evs now o)
    (λ o' s, regs R s ∧ inbound_publishes o' = inbound_publishes o).
Proof.
  induction 1 as [|ev evs Hev Hevs IH]; intros o; simpl.
  { apply ensures_ret. by intros s Hs. }
  destruct ev as [| |]; try done.
  eapply ensures_bind; [apply regs_keeps; unfold degrade_health; by apply keeps_set_iface|intros u].
  intros s s' o' Hs H. exact (IH _ s s' o' Hs H).
Qed.

Lemma regs_demux R d now o :
  let dec := decode_extended_id (id_value (cd_id d)) in
  let sel := λ r, negb (is_tp (r_transport r)) && matches r dec in
  is_tp_wire_pgn dec = false → Forall drained R →
  ensures (λ s, regs R s ∧ (is_claim_pgn dec = true → d_claim s = None))
    (demux_inbound iface d now o)
    (λ r s, regs (delivered sel (cd_payload d) <$> R) s
            ∧ inbound_publishes r.1 = (inbound_publishes o + count_selected sel R)%nat).
Proof.
  intros dec sel Htp Hd s s' r [Hs Hcl]. unfold demux_inbound, gets.
  fold dec. unfold mbind at 1, M_bind at 1. rewrite Htp.
  assert (∀ (b : bool) (x : M (IterationOutcome * list AcEvent)) f,
    (b = true → d_claim s = None) →
    match b, d_claim s with true, Some (e, g) => f e g | _, _ => x end = x) as Hm.
  { intros [] x f Hb; [by rewrite Hb|done]. }
  rewrite (Hm (is_claim_pgn dec)) by done. clear Hm Hcl.
  unfold mbind, M_bind, publish_where. fold sel.
  destruct (publish_loop _ _ _ _ _) as [[cs h] [n|e]] eqn:Ep; [|done]. intros [= <- <-].
  assert (Forall drained (d_registry s)) as Hd'.
  { unfold regs in Hs. subst R. rewrite Forall_fmap in Hd.
    eapply Forall_impl; [exact Hd|]. intros c. apply strip_drained. }
  destruct (publish_loop_exact _ _ _ _ _ _ _ _ Hd' Ep) as (-> & -> & ->).
  unfold regs in *. subst R. simpl. split.
  - rewrite <-!list_fmap_compose. apply list_fmap_ext. intros _ c _. apply strip_delivered.
  - by rewrite count_strip.
Qed.

(** The part of the iteration after the frame was handled. *)
Lemma ensures_intro {A} P (m : M A) Q :
  ensures P m Q → ∀ s s' a, P s → m s = Ok (s', inl a) → Q a s'.
Proof. done. Qed.
Lemma regs_rest R now o ac :
  ensures (regs R) (after_rx iface now o ac)
    (λ o' s, regs R s ∧ inbound_publishes o' = inbound_publishes o).
Proof.
  unfold after_rx. eapply ensures_bind; [apply regs_tp_poll|intros evs].
  intros s s' r [Hs Hev]. revert s s' r Hs. apply ensures_intro.
  eapply ensures_bind; [by apply regs_aborts|intros o1].
  intros s s' r [Hs Ho1]. revert s s' r Hs. apply ensures_intro.
  eapply ensures_bind; [apply regs_keeps; by apply keeps_take_tp|intros fs].
  eapply ensures_bind; [apply regs_keeps; by apply keeps_transmit|intros k].
  eapply ensures_bind; [apply regs_keeps, keeps_gets|intros [c|]]; [|by apply ensures_ret].
  eapply ensures_bind; [apply regs_keeps; by apply keeps_ac_events|intros u].
  eapply ensures_bind; [apply regs_keeps; by apply keeps_take_claim|intros fs'].
  eapply ensures_bind; [apply regs_keeps; by apply keeps_transmit|intros k'].
  by apply ensures_ret.
Qed.

Lemma iteration_delivers R sa i d :
  let dec := decode_extended_id (id_value (cd_id d)) in
  let sel := λ r, negb (is_tp (r_transport r)) && matches r dec in
  i_rx i = Some (inl (Data d)) → is_tp_wire_pgn dec = false → Forall drained R →
  ensures (λ s, regs R s ∧ (is_claim_pgn dec = true → d_claim s = None))
    (dispatch_iteration_inner iface sa i)
    (λ o s, regs (delivered sel (cd_payload d) <$> R) s
            ∧ inbound_publishes o = count_selected sel R).
Proof.
  intros dec sel Hrx Htp Hd. unfold dispatch_iteration_inner.
  eapply (ensures_bind _ _ (λ _ s, regs R s ∧ (is_claim_pgn dec = true → d_claim s = None))).
  { intros s s' n [Hs Hc] H. split; [by eapply regs_send, H|].
    by rewrite (keeps_send_outbound _ _ _ _ H). }
  intros n. eapply (ensures_bind _ _ (λ _ s, regs R s ∧ (is_claim_pgn dec = true → d_claim s = None))).
  { intros s s' evs [Hs Hc] H. split; [eapply regs_keeps, H; [by apply keeps_claim_poll|done]|].
    intros Hp. unfold claim_poll in H. rewrite Hc in H by done. injection H as <- _. auto. }
  intros ac1. eapply ensures_bind.
  { unfold handle_rx_result. rewrite Hrx. by apply regs_demux. }
  intros [o ac2] s s' r [Hs Ho] H. simpl in Ho.
  destruct (regs_rest _ _ _ _ s s' r Hs H) as [? ->]. by rewrite Ho.
Qed.

(** A data frame that is neither claim nor transport traffic is published,
    in one successful iteration, exactly once on each inbound channel of the
    single-frame and ETP classes whose PGN and address filters match its decoded
    identifier, and on no other channel; nothing else the iteration does (drained
    outbound messages, timeouts, claim events) publishes anything. *)
Theorem single_frame_exact sa i d s s' o :
  let dec := decode_extended_id (id_value (cd_id d)) in
  let sel := λ r, negb (is_tp (r_transport r)) && matches r dec in
  i_rx i = Some (inl (Data d)) → is_tp_wire_pgn dec = false →
  (is_claim_pgn dec = true → d_claim s = None) → Forall drained (d_registry s) →
  dispatch_iteration_inner iface sa i s = Ok (s', inl o) →
  strip <$> d_registry s' = delivered sel (cd_payload d) <$> (strip <$> d_registry s)
  ∧ inbound_publishes o = count_selected sel (d_registry s).
Proof.
  intros dec sel Hrx Htp Hc Hd. set (R := strip <$> d_registry s).
  assert (Forall drained R) as HdR.
  { unfold R. rewrite Forall_fmap. eapply Forall_impl; [exact Hd|]. intros c. apply strip_drained. }
  intros Hi. rewrite <-count_strip.
  refine (iteration_delivers R sa i d Hrx Htp HdR s s' o _ Hi). done.
Qed.

(** ** Calm states *)

(** No claim frame or timer is due. *)
Definition quiet_claim (s : Disp) : Prop :=
  match d_claim s with
  | Some (e, _) => ac_state e ≠ Claiming ∧ out e = []
  | None => True
  end.
Definition bus_ok (s : Disp) : Prop := ∀ n, send_result (d_driver s) n = None.
Definition wf_routing (r : J1939Routing) : Prop :=
  valid_pgn (r_pgn r) ∧ (∀ a, r_source_addr r = Some a → is_u 8 a)
  ∧ (∀ a, r_dest_addr r = Some a → is_u 8 a).
Definition nothing_waiting (c : RegisteredChannel) : Prop :=
  match direction c, binding c with
  | Outbound, BoundOut p => p = [] ∧ wf_routing (routing c)
  | _, _ => True
  end.
(** A transport engine with no session and nothing queued. *)
Definition tp_idle (e : TpEngine) : Prop :=
  sessions e = ∅ ∧ rx_conn e = ∅ ∧ tx_conn e = ∅ ∧ etp_rx e = ∅ ∧ etp_tx e = ∅ ∧ pending_out e = [].

Lemma encode_29 p prio sa da :
  valid_pgn p → is_u 8 sa → is_u 8 (default GLOBAL_ADDRESS da) →
  CanId_extended (encode_extended_id p prio sa da)
    = inl (MkCanId (encode_extended_id p prio sa da) true).
Proof.
  intros Hp Hsa Hda. unfold CanId_extended.
  assert ((encode_extended_id p prio sa da >? 0x1FFFFFFF) = false) as ->; [|done].
  rewrite Z.gtb_ltb. apply Z.ltb_ge. rewrite encode_arith by done. unfold valid_pgn, PGN_MAX, is_u in *.
  assert (0 ≤ prio mod 8 < 8) by (apply Z.mod_pos_bound; lia).
  assert (0 ≤ value p / 65536 ≤ 3) by zdiv.
  assert (0 ≤ value p / 256 mod 256 < 256) by zdiv.
  assert (0 ≤ value p mod 256 < 256) by zdiv.
  case_match; lia.
Qed.
Lemma routing_addrs r sa : wf_routing r → is_u 8 sa →
  is_u 8 (default sa (r_source_addr r)) ∧ is_u 8 (default GLOBAL_ADDRESS (r_dest_addr r)).
Proof.
  intros (_ & Hs & Hd) Hsa. split.
  - destruct (r_source_addr r); simpl; auto.
  - destruct (r_dest_addr r); simpl; [auto|]. split; vm_compute; congruence.
Qed.

Lemma entry_nothing sa c : nothing_waiting c → is_u 8 sa → collect_entry sa c = Ok (c, inl []).
Proof.
  unfold nothing_waiting, collect_entry. intros Hc Hsa.
  destruct c as [nm r d b]; simpl in *. destruct d, b as [|q|p]; try done. destruct Hc as [-> Hr].
  destruct (is_tp (r_transport r)); [done|].
  destruct (routing_addrs r sa Hr Hsa) as [H1 H2].
  rewrite encode_29; [done|apply Hr|done|done].
Qed.
Lemma collect_nothing sa cs : Forall nothing_waiting cs → is_u 8 sa →
  collect_outbound_jobs sa cs = Ok (cs, inl []).
Proof.
  intros Hcs Hsa. induction Hcs as [|c cs Hc Hcs IH]; simpl; [done|].
  rewrite entry_nothing by done. simpl. by rewrite IH.
Qed.
Lemma collect_one sa l1 c l2 c' jobs :
  Forall nothing_waiting l1 → Forall nothing_waiting l2 → is_u 8 sa →
  collect_entry sa c = Ok (c', inl jobs) →
  collect_outbound_jobs sa (l1 ++ c :: l2) = Ok (l1 ++ c' :: l2, inl jobs).
Proof.
  intros H1 H2 Hsa Hc. induction H1 as [|x l1 Hx H1 IH]; simpl.
  - rewrite Hc. simpl. rewrite collect_nothing by done. simpl. by rewrite app_nil_r.
  - rewrite entry_nothing by done. simpl. by rewrite IH.
Qed.

Definition put_on_bus (s : Disp) (fs : list CanData) : Disp :=
  set_driver s (MkDriver (sent (d_driver s) ++ fs) (send_result (d_driver s))).
Lemma send_all_ok jobs s : bus_ok s → send_all jobs s = Ok (put_on_bus s jobs, inl (length jobs)).
Proof.
  revert s. induction jobs as [|d jobs IH]; intros s Hs; simpl.
  { unfold put_on_bus. rewrite app_nil_r. by destruct s as [[] ]. }
  unfold mbind, M_bind, send_classical. rewrite Hs, IH by done.
  unfold put_on_bus. simpl. by rewrite <-app_assoc.
Qed.
Lemma send_nothing sa s : Forall nothing_waiting (d_registry s) → is_u 8 sa →
  send_outbound_once sa s = Ok (s, inl 0%nat).
Proof.
  intros Hs Hsa. unfold send_outbound_once. rewrite collect_nothing by done. simpl. by destruct s.
Qed.

Lemma poll_quiet now s : quiet_claim s → claim_poll now s = Ok (s, inl []).
Proof.
  unfold quiet_claim, claim_poll. destruct s as [dr rg h t [[e g]|]]; simpl; [|done].
  intros [Hst _]. unfold poll. by rewrite decide_True.
Qed.

Lemma after_rx_quiet s now o :
  quiet_claim s → pending_out (d_tp s) = [] → poll_timeouts (d_tp s) now = Ok (d_tp s, []) →
  after_rx iface now o [] s = Ok (s, inl (add_tx o 0))
  ∨ after_rx iface now o [] s = Ok (s, inl (add_tx (add_tx o 0) 0)).
Proof.
  intros Hq Hp Hpoll. unfold after_rx. unfold mbind, M_bind, tp_poll, call_engine. rewrite Hpoll.
  destruct s as [dr rg h t c]; simpl in *. unfold quiet_claim in Hq; simpl in Hq.
  rewrite Hp. simpl. rewrite Packet.set_out_eta by done.
  destruct c as [[e g]|]; simpl; [right|by left]. destruct Hq as [_ Ho].
  unfold take_claim_outbound. simpl. destruct e; simpl in *. by subst.
Qed.

(** An iteration with nothing received, after its sends. *)
Lemma iteration_silent sa i s s1 n :
  send_outbound_once sa s = Ok (s1, inl n) → quiet_claim s1 → i_rx i = None →
  pending_out (d_tp s1) = [] → poll_timeouts (d_tp s1) (i_now i) = Ok (d_tp s1, []) →
  ∃ o, dispatch_iteration_inner iface sa i s = Ok (s1, inl o).
Proof.
  intros Hsend Hq Hrx Hp Hpoll. unfold dispatch_iteration_inner, mbind, M_bind. rewrite Hsend.
  rewrite poll_quiet by done. unfold handle_rx_result. rewrite Hrx. cbn [mret M_ret app].
  destruct (after_rx_quiet s1 (i_now i) (outcome_new n)) as [-> | ->]; eauto.
Qed.

(** What the events of one frame do to the channels. *)
Definition tp_sel (p : Pgn) (sa : Z) (r : J1939Routing) : bool :=
  is_tp (r_transport r) && matches r (synthetic_id p sa).
Definition after_events (evs : list TpEvent) (s : Disp) : Disp :=
  match evs with
  | [Completed p sa payload] => set_registry s (delivered (tp_sel p sa) payload <$> d_registry s)
  | _ => s
  end.

Lemma tp_wire_not_claim d : is_tp_wire_pgn d = true → is_claim_pgn d = false.
Proof.
  unfold is_tp_wire_pgn, is_claim_pgn. rewrite !orb_true_iff, !Z.eqb_eq. intros H.
  rewrite !orb_false_iff, !Z.eqb_neq. unfold TP_CM_PGN, TP_DT_PGN, ETP_CM_PGN, ETP_DT_PGN,
    ADDRESS_CLAIMED_PGN, REQUEST_PGN, COMMANDED_ADDRESS_PGN in *. lia.
Qed.

(** An iteration that receives a transport frame and has nothing else to do. *)
Lemma iteration_tp_frame sa i d s e' evs :
  let dec := decode_extended_id (id_value (cd_id d)) in
  Forall nothing_waiting (d_registry s) → is_u 8 sa → quiet_claim s →
  i_rx i = Some (inl (Data d)) → is_tp_wire_pgn dec = true →
  on_frame (d_tp s) dec (cd_payload d) (i_now i) = Ok (e', evs) →
  (evs = [] ∨ ∃ p q payload, evs = [Completed p q payload]
     ∧ Forall drained (d_registry s) ∧ Forall (accepting payload) (d_registry s)) →
  pending_out e' = [] → poll_timeouts e' (i_now i) = Ok (e', []) →
  ∃ o, dispatch_iteration_inner iface sa i s = Ok (after_events evs (set_tp s e'), inl o).
Proof.
  intros dec Hw Hsa Hq Hrx Htp Hf Hev Hp Hpoll.
  unfold dispatch_iteration_inner, mbind, M_bind. rewrite send_nothing by done.
  rewrite poll_quiet by done. unfold handle_rx_result. rewrite Hrx.
  unfold demux_inbound. fold dec. rewrite (tp_wire_not_claim dec Htp), Htp.
  unfold mbind, M_bind, gets, tp_on_frame, call_engine. rewrite Hf. cbn [mret M_ret mbind res_bind].
  assert (∃ o, apply_tp_events iface evs (i_now i) (outcome_new 0) (set_tp s e')
               = Ok (after_events evs (set_tp s e'), inl o)) as [o ->].
  { destruct Hev as [-> |(p & q & payload & -> & Hd & Ha)]; [by eexists|].
    simpl. unfold mbind, M_bind, publish_tp_completed, publish_where. simpl.
    rewrite publish_loop_accepted by done. eexists. by destruct s. }
  assert (d_tp (after_events evs (set_tp s e')) = e' ∧ quiet_claim (after_events evs (set_tp s e')))
    as [Et Eq].
  { destruct Hev as [-> |(p & q & payload & -> & _)]; split; done. }
  simpl. destruct (after_rx_quiet (after_events evs (set_tp s e')) (i_now i) o) as [-> | ->];
    rewrite ?Et; eauto.
Qed.

(** *** Timers of an engine with at most one BAM session *)

Lemma expired_empty {V} (last : V → Z) now t : expired_keys last ∅ now t = [].
Proof.
  unfold expired_keys. fold (TpPoll.expired_entries last ∅ now t).
  destruct (TpPoll.expired_entries last ∅ now t) as [|[k x] l] eqn:E; [done|].
  assert ((k, x) ∈ TpPoll.expired_entries last ∅ now t) as H by (rewrite E; apply list_elem_of_here).
  apply TpPoll.expired_entries_elem in H as [H _]. by rewrite lookup_empty in H.
Qed.
Lemma expired_single {V} (last : V → Z) k (x : V) now t :
  0 ≤ t → now - last x ≤ t → expired_keys last {[k := x]} now t = [].
Proof.
  intros Ht Hl. unfold expired_keys. fold (TpPoll.expired_entries last {[k := x]} now t).
  destruct (TpPoll.expired_entries last {[k := x]} now t) as [|[k' y] l] eqn:E; [done|].
  assert ((k', y) ∈ TpPoll.expired_entries last {[k := x]} now t) as H
    by (rewrite E; apply list_elem_of_here).
  apply TpPoll.expired_entries_elem in H as [H Hx]. apply lookup_singleton_Some in H as [-> <-].
  unfold TpPoll.expired, saturating_duration_since, sat_sub in Hx. lia.
Qed.
Lemma poll_idle e now : tp_idle e → poll_timeouts e now = Ok (e, []).
Proof.
  intros (H1 & H2 & H3 & H4 & H5 & _).
  unfold poll_timeouts, poll_etp_timeouts, poll_bam, poll_rx_conn, poll_tx_conn, poll_etp_rx, poll_etp_tx.
  rewrite H1, expired_empty. simpl. rewrite H2, expired_empty. simpl.
  rewrite H3, expired_empty. simpl. rewrite H4, expired_empty. simpl.
  by rewrite H5, expired_empty.
Qed.
Lemma poll_one_bam e now k x : tp_idle e → 0 ≤ t1 (timers e) →
  now - bs_last_activity x ≤ t1 (timers e) →
  poll_timeouts (set_sessions e {[k := x]}) now = Ok (set_sessions e {[k := x]}, []).
Proof.
  intros (H1 & H2 & H3 & H4 & H5 & _) Ht Hl.
  unfold poll_timeouts, poll_etp_timeouts, poll_bam, poll_rx_conn, poll_tx_conn, poll_etp_rx, poll_etp_tx.
  simpl. rewrite expired_single by done. simpl. rewrite H2, expired_empty. simpl.
  rewrite H3, expired_empty. simpl. rewrite H4, expired_empty. simpl.
  by rewrite H5, expired_empty.
Qed.
End delivery.

(** ** Broadcast end to end *)

(** The frame as the driver sends it. *)
Definition to_can (f : TpOutFrame) : CanData :=
  MkCanData (MkCanId (encode_extended_id (o_wire_pgn f) (o_priority f) (o_source_addr f)
               (o_dest_addr f)) true) Classical 0 (o_data f).

(** The inputs of the receiving dispatcher bring the frames [fs] in order, each
    iteration at most one; [last] is the arrival of the previous frame.  While the
    message is incomplete no silence is longer than T1. *)
Fixpoint arrivals (t1 : Z) (last : option Z) (ins : list iter_input) (fs : list CanData) : Prop :=
  match ins with
  | [] => fs = []
  | i :: ins =>
      match i_rx i with
      | None =>
          match fs, last with
          | _ :: _, Some t => i_now i - t ≤ t1
          | _, _ => True
          end ∧ arrivals t1 last ins fs
      | Some (inl (Data d)) => ∃ fs', fs = d :: fs' ∧ arrivals t1 (Some (i_now i)) ins fs'
      | Some _ => False
      end
  end.

Section bam.
Context {HI : HashIter} (iface : string).
Context (p : Pgn) (prio sa : Z) (payload : list Z).
Context (Hsize : TP_MIN_PAYLOAD ≤ len payload ≤ TP_MAX_PAYLOAD).
Context (Hpgn : valid_pgn p) (Hsa : is_u 8 sa).
Let n := div_ceil (len payload) TP_DT_DATA_LEN.
Let ann := TpBam.announce p prio sa payload.
Let dat := TpBam.data_frame prio sa payload.

Lemma to_can_encode f : f = ann ∨ (∃ j, f = dat j) → encode_out f = inl (to_can f).
Proof.
  intros Hf. unfold encode_out, parts, tp_out_frame, encode_frame, to_can.
  assert (valid_pgn (o_wire_pgn f) ∧ o_source_addr f = sa ∧ o_dest_addr f = Some GLOBAL_ADDRESS
          ∧ len (o_data f) = 8) as (Hp & Hs & Hd & Hl).
  { destruct Hf as [-> |[j ->]].
    - split_and!; [split; vm_compute; congruence|done..].
    - split_and!; [split; vm_compute; congruence|done|done|]. apply Packet.packet_len. }
  rewrite encode_29; [|done|by rewrite Hs|rewrite Hd; split; vm_compute; congruence].
  unfold CanData_new. by rewrite Hl.
Qed.

Lemma encode_message :
  encode_all (ann :: (dat <$> seqZ 0 n)) = inl (to_can <$> (ann :: (dat <$> seqZ 0 n))).
Proof.
  assert (∀ fs, Forall (λ f, f = ann ∨ ∃ j, f = dat j) fs → encode_all fs = inl (to_can <$> fs)) as H.
  { induction 1 as [|f fs Hf Hfs IH]; simpl; [done|]. by rewrite to_can_encode, IH. }
  apply H. constructor; [by left|]. apply Forall_fmap, Forall_true. intros j. right. by exists j.
Qed.

(** The receiving node: nothing to send, an idle engine with room. *)
Context (s : Disp) (own : Z).
Context (Hown : is_u 8 own) (Hwait : Forall nothing_waiting (d_registry s)) (Hq : quiet_claim s).
Context (Hidle : tp_idle (d_tp s)) (Hroom : 0 < max_sessions (d_tp s)) (Ht1 : 0 ≤ t1 (timers (d_tp s))).
Context (Hdr : Forall drained (d_registry s)) (Hacc : Forall (accepting payload) (d_registry s)).
Let e := d_tp s.
Let sess j t := TpBam.receiving p sa payload e j t.
Let final := set_registry s (delivered (tp_sel p sa) payload <$> d_registry s).

Lemma sess_eq j t : sess j t = set_sessions e {[(sa, p) := TpBam.session_after p sa payload j t]}.
Proof. unfold sess, TpBam.receiving, e. destruct Hidle as [-> _]. done. Qed.

Lemma loop_cons i ins s0 s1 s2 os :
  (∃ o, dispatch_iteration_inner iface own i s0 = Ok (s1, inl o)) →
  dispatcher_loop iface own ins s1 = Ok (s2, inl os) →
  ∃ os', dispatcher_loop iface own (i :: ins) s0 = Ok (s2, inl os').
Proof.
  intros [o Ho] Hl. cbn [dispatcher_loop]. unfold mbind, M_bind. rewrite Ho, Hl. by eexists.
Qed.

(** Before the first and after the last frame nothing happens. *)
Lemma run_after s' last ins :
  Forall nothing_waiting (d_registry s') → quiet_claim s' → tp_idle (d_tp s') →
  arrivals (t1 (timers e)) last ins [] → ∃ os, dispatcher_loop iface own ins s' = Ok (s', inl os).
Proof.
  intros Hw Hq' Hi. revert last. induction ins as [|i ins IH]; intros last Har; [by eexists|].
  cbn [arrivals] in Har. destruct (i_rx i) as [[[d| |]|]|] eqn:Erx; try done.
  { by destruct Har as (fs' & ? & _). }
  destruct (IH last) as [os Hos]; [apply Har|]. eapply loop_cons, Hos.
  eapply iteration_silent; [by apply send_nothing|done|done|apply Hi|by apply poll_idle].
Qed.

Lemma set_tp_eta : set_tp s e = s.
Proof. unfold e. by destruct s. Qed.
Lemma closed_eq : set_sessions e (delete (sa, p) (sessions e)) = e.
Proof.
  unfold e. destruct Hidle as [Hs _]. rewrite Hs, delete_empty, <-Hs. by destruct (d_tp s).
Qed.
Lemma sole_idle : TpBam.sole p sa e.
Proof.
  intros k [x Hx] _. unfold e in Hx. destruct Hidle as [Hs _]. by rewrite Hs, lookup_empty in Hx.
Qed.
Lemma final_calm : Forall nothing_waiting (d_registry final).
Proof.
  unfold final. simpl. apply Forall_fmap. eapply Forall_impl; [exact Hwait|].
  intros [nm r d b] Hc. unfold nothing_waiting, delivered in *. simpl in *.
  destruct d, (tp_sel p sa r), b; done.
Qed.
Lemma tp_frame_wire f : f = ann ∨ (∃ j, f = dat j) → is_tp_wire_pgn (Packet.wire_id f) = true.
Proof.
  intros [-> |[j ->]]; unfold is_tp_wire_pgn, ann, dat.
  - by rewrite (proj1 (TpBam.announce_id p prio sa payload Hsa)).
  - by rewrite (proj1 (TpBam.data_frame_id prio sa payload Hsa j)).
Qed.

(** One data frame at the receiving node. *)
Lemma data_iteration i j t :
  0 ≤ j < n → i_rx i = Some (inl (Data (to_can (dat j)))) →
  ∃ o, dispatch_iteration_inner iface own i (set_tp s (sess j t))
       = Ok (if j + 1 =? n then final else set_tp s (sess (j + 1) (i_now i)), inl o).
Proof.
  intros Hj Hrx.
  pose proof (TpBam.data_accepted p prio sa payload Hsize Hsa e j t (i_now i) sole_idle Hj) as Hon.
  fold n in Hon. pose proof (tp_frame_wire (dat j) (or_intror (ex_intro _ j eq_refl))) as Hw.
  destruct (Z.eqb_spec (j + 1) n) as [E|E].
  - destruct (iteration_tp_frame iface own i (to_can (dat j)) (set_tp s (sess j t)) e
      [Completed p sa payload]) as [o Ho]; try done.
    + etransitivity; [exact Hon|]. by rewrite closed_eq.
    + right. by exists p, sa, payload.
    + apply Hidle.
    + by apply poll_idle.
    + exists o. rewrite Ho. simpl. unfold final. by rewrite <-set_tp_eta at 3.
  - destruct (iteration_tp_frame iface own i (to_can (dat j)) (set_tp s (sess j t))
      (sess (j + 1) (i_now i)) []) as [o Ho]; try done.
    + by left.
    + apply Hidle.
    + rewrite sess_eq. apply poll_one_bam; [done|done|]. unfold e. simpl. lia.
    + by exists o.
Qed.

Lemma run_during ins : ∀ j t, 0 ≤ j < n →
  arrivals (t1 (timers e)) (Some t) ins (to_can <$> (dat <$> seqZ j (n - j))) →
  ∃ os, dispatcher_loop iface own ins (set_tp s (sess j t)) = Ok (final, inl os).
Proof.
  induction ins as [|i ins IH]; intros j t Hj Har; rewrite seqZ_cons in Har by lia; [done|].
  cbn [arrivals] in Har. destruct (i_rx i) as [[[d| |]|]|] eqn:Erx; try done.
  - destruct Har as (fs' & Hfs & Har). injection Hfs as <- <-.
    pose proof (data_iteration i j t Hj Erx) as Hit.
    destruct (Z.eqb_spec (j + 1) n) as [E|E].
    + replace (Z.pred (n - j)) with 0 in Har by lia.
      destruct (run_after final (Some (i_now i)) ins) as [os Hos]; [apply final_calm|done|done|done|].
      by eapply loop_cons, Hos.
    + destruct (IH (j + 1) (i_now i)) as [os Hos]; [lia| |by eapply loop_cons, Hos].
      replace (n - (j + 1)) with (Z.pred (n - j)) by lia. done.
  - destruct Har as [Ht Har]. destruct (IH j t Hj) as [os Hos].
    { rewrite (seqZ_cons j) by lia. exact Har. }
    eapply loop_cons, Hos. eapply iteration_silent; [by apply send_nothing|done|done|apply Hidle|].
    rewrite sess_eq. apply poll_one_bam; done.
Qed.

Lemma run_message ins :
  arrivals (t1 (timers e)) None ins (to_can <$> (ann :: (dat <$> seqZ 0 n))) →
  ∃ os, dispatcher_loop iface own ins s = Ok (final, inl os).
Proof.
  intros Har. induction ins as [|i ins IH]; [done|].
  cbn [arrivals] in Har. destruct (i_rx i) as [[[d| |]|]|] eqn:Erx; try done.
  - destruct Har as (fs' & Hfs & Har). injection Hfs as <- <-.
    destruct (TpBam.n_bounds payload Hsize) as [Hn _]. fold n in Hn.
    destruct (run_during ins 0 (i_now i)) as [os Hos]; [lia|by rewrite Z.sub_0_r|].
    eapply loop_cons, Hos.
    destruct (iteration_tp_frame iface own i (to_can ann) s (sess 0 (i_now i)) []) as [o Ho]; try done.
    + apply tp_frame_wire. by left.
    + apply (TpBam.announce_accepted p prio sa payload Hsize Hpgn Hsa). right.
      unfold e, total_inbound, active_inbound_sessions, active_inbound_connections,
        active_inbound_etp_sessions. destruct Hidle as (-> & -> & _ & -> & _). done.
    + by left.
    + apply Hidle.
    + rewrite sess_eq. apply poll_one_bam; [done|done|]. unfold e. simpl. lia.
    + by exists o.
  - destruct Har as [_ Har]. destruct (IH Har) as [os Hos]. eapply loop_cons, Hos.
    eapply iteration_silent; [by apply send_nothing|done|done|apply Hidle|by apply poll_idle].
Qed.
End bam.

(** A node with a working bus, an idle transport engine and no claim business. *)
Record calm_node (own : Z) (s : Disp) : Prop := {
  cn_own : is_u 8 own;
  cn_claim : quiet_claim s;
  cn_tp : tp_idle (d_tp s);
  cn_room : 0 < max_sessions (d_tp s);
  cn_t1 : 0 ≤ t1 (timers (d_tp s));
  cn_bus : bus_ok s;
}.
(** A node whose transport-protocol channel [rt] has one message waiting. *)
Record sender (own : Z) (s : Disp) (l1 : J1939Registry) (name : string) (rt : J1939Routing)
    (payload : list Z) (l2 : J1939Registry) : Prop := {
  sd_registry : d_registry s = l1 ++ MkChan name rt Outbound (BoundOut [Valid payload]) :: l2;
  sd_others : Forall nothing_waiting l1 ∧ Forall nothing_waiting l2;
  sd_class : is_tp (r_transport rt) = true;
  sd_routing : wf_routing rt;
  sd_size : TP_MIN_PAYLOAD ≤ len payload ≤ max_payload (r_transport rt);
  sd_node : calm_node own s;
}.
(** A node that has nothing to send and whose ports take [payload]. *)
Record receiver (own : Z) (s : Disp) (payload : list Z) : Prop := {
  rv_waiting : Forall nothing_waiting (d_registry s);
  rv_drained : Forall drained (d_registry s);
  rv_accepting : Forall (accepting payload) (d_registry s);
  rv_node : calm_node own s;
}.

Lemma sender_size own s l1 name rt payload l2 : sender own s l1 name rt payload l2 →
  TP_MIN_PAYLOAD ≤ len payload ≤ TP_MAX_PAYLOAD.
Proof.
  intros Hs. pose proof (sd_size _ _ _ _ _ _ _ Hs) as [H1 H2]. split; [done|]. etrans; [exact H2|].
  pose proof (sd_class _ _ _ _ _ _ _ Hs) as Hc. destruct (r_transport rt); try done. simpl.
  rewrite Z.gtb_ltb. unfold TP_MAX_PAYLOAD, TP_MAX_LEN. destruct (Z.ltb_spec 1785 max_len); lia.
Qed.

Definition message_frames (own : Z) (rt : J1939Routing) (payload : list Z) : list CanData :=
  let sa := default own (r_source_addr rt) in
  to_can <$> (TpBam.announce (r_pgn rt) (r_priority rt) sa payload
              :: (TpBam.data_frame (r_priority rt) sa payload
                    <$> seqZ 0 (div_ceil (len payload) TP_DT_DATA_LEN))).

Lemma sender_iteration {HI : HashIter} iface own s l1 name rt payload l2 i :
  sender own s l1 name rt payload l2 → i_rx i = None →
  ∃ o, dispatch_iteration_inner iface own i s
       = Ok (put_on_bus (set_registry s (l1 ++ MkChan name rt Outbound (BoundOut []) :: l2))
               (message_frames own rt payload), inl o).
Proof.
  intros Hs Hrx. pose proof (sender_size _ _ _ _ _ _ _ Hs) as Hsz.
  destruct Hs as [Hreg [H1 H2] Hc Hr [_ Hmax] [Hown Hq Hi _ _ Hb]].
  destruct (routing_addrs rt own Hr Hown) as [Hsa _].
  eapply iteration_silent; [|done|done|apply Hi|by apply poll_idle].
  unfold send_outbound_once. rewrite Hreg.
  erewrite (collect_one own l1 _ l2); [by apply send_all_ok|done|done|done|].
  unfold collect_entry. simpl. rewrite Hc.
  assert ((len payload >? max_payload (r_transport rt)) = false) as Hle.
  { rewrite Z.gtb_ltb. apply Z.ltb_ge. done. }
  unfold drain_into. rewrite Hle. unfold build_tp.
  rewrite TpBam.segment_outbound_eq by done. simpl.
  assert (encode_all (TpBam.announce (r_pgn rt) (r_priority rt) (default own (r_source_addr rt)) payload
      :: (TpBam.data_frame (r_priority rt) (default own (r_source_addr rt)) payload
            <$> seqZ 0 (div_ceil (len payload) TP_DT_DATA_LEN)))
    = inl (message_frames own rt payload)) as He by (by apply encode_message).
  cbn [encode_all] in He. rewrite He. by rewrite app_nil_r.
Qed.

(** C38. A message of 9 to 1785 bytes, the only one waiting on a node and on a
    transport-protocol channel that allows its length, reaches the other nodes, if
    both ends are calm (not claiming an address, no session open, no transport or
    claim frame queued, every send accepted by the bus) and the receiver has nothing
    to send and room for a session, its ports drained and accepting the payload: one
    iteration of the sender takes it from the channel and puts its BAM frames on the
    bus, and another node that receives those frames and no others, in order, one
    per iteration and with no silence longer than T1 inside the message, whatever
    other idle iterations lie between, publishes the original bytes exactly once on
    each of its transport-protocol channels that match the PGN and the sender's
    address, on no other channel, and is otherwise back in the state it started
    from. *)
Theorem bam_end_to_end {HI : HashIter} ifa ifb own_a own_b a b l1 name rt payload l2 i :
  sender own_a a l1 name rt payload l2 → receiver own_b b payload → i_rx i = None →
  ∃ a' o fs,
    dispatch_iteration_inner ifa own_a i a = Ok (a', inl o)
    ∧ sent (d_driver a') = sent (d_driver a) ++ fs
    ∧ d_registry a' = l1 ++ MkChan name rt Outbound (BoundOut []) :: l2
    ∧ ∀ ins, arrivals (t1 (timers (d_tp b))) None ins fs →
        ∃ os, dispatcher_loop ifb own_b ins b =
          Ok (set_registry b
                (delivered (tp_sel (r_pgn rt) (default own_a (r_source_addr rt))) payload
                   <$> d_registry b), inl os).
Proof.
  intros Hs Hr Hrx. destruct (sender_iteration ifa own_a a l1 name rt payload l2 i Hs Hrx) as [o Ho].
  pose proof (sender_size _ _ _ _ _ _ _ Hs) as Hsz.
  destruct (routing_addrs rt own_a (sd_routing _ _ _ _ _ _ _ Hs) (cn_own _ _ (sd_node _ _ _ _ _ _ _ Hs)))
    as [Hsa _].
  do 3 eexists. split_and!; [exact Ho|done|done|]. intros ins Har.
  destruct Hr as [Hw Hd Hacc [Hown Hq Hi Hroom Ht _]].
  eapply run_message; [done|apply Hs|done|done|done|done|done|done|done|done|done|exact Har].
Qed.
(** ** Concrete nodes *)

Definition port : InboundPublish := MkPublish 256 0 0 1 1785 (λ _, true) [].
Definition inbound (name : string) (rt : J1939Routing) : RegisteredChannel :=
  MkChan name rt Inbound (BoundIn port).
Definition claimed_node (sa : Z) (r : J1939Registry) : Disp :=
  MkDisp free_driver r (ConnHealth.health_new ["can0"] 0) (new TpTimers_default 8)
    (Some (MkAc 500 sa Claimed DEFAULT_CLAIM_WAIT (Some 0) 6 [], gate_set gate_new Claimed)).
Definition speed : CanData := wire 65265 6 0x31 None [1; 2; 3; 4; 5; 6; 7; 8].
Definition reader_node : Disp :=
  claimed_node 0x20 [inbound "speed" (single_frame (MkPgn 65265));
                     inbound "other" (single_frame (MkPgn 65266));
                     inbound "long" (tp (MkPgn 65265) 100)].
Definition speed_step : M IterationOutcome := dispatch_iteration_inner "can0" 0x20 (frame_at speed 300).
Definition outcome_of {A} (m : M A) (d : A) (s : Disp) : A :=
  match m s with Ok (_, inl a) => a | _ => d end.

Lemma single_frame_exact_witness :
  strip <$> d_registry (end_of speed_step reader_node)
    = delivered (λ r, negb (is_tp (r_transport r)) && matches r (decode_extended_id (id_value (cd_id speed))))
        (cd_payload speed) <$> (strip <$> d_registry reader_node)
  ∧ inbound_publishes (outcome_of speed_step (outcome_new 0) reader_node) = 1%nat.
Proof.
  apply (single_frame_exact "can0" 0x20 (frame_at speed 300) speed reader_node
           (end_of speed_step reader_node) (outcome_of speed_step (outcome_new 0) reader_node)).
  - reflexivity.
  - vm_compute. reflexivity.
  - vm_compute. discriminate.
  - repeat constructor.
  - vm_compute. reflexivity.
Defined.

Definition writer_node : Disp :=
  claimed_node 0x42 [MkChan "diag" (tp (MkPgn 65226) 100) Outbound (BoundOut [Valid TpBam.payload_20])].
Definition diag_node : Disp :=
  claimed_node 0x20 [inbound "diag" (tp (MkPgn 65226) 100); inbound "speed" (single_frame (MkPgn 65265))].

Lemma calm_claimed sa r : is_u 8 sa → calm_node sa (claimed_node sa r).
Proof. intros Hsa. by split. Qed.

Lemma bam_end_to_end_witness :
  ∃ a' o fs,
    dispatch_iteration_inner "can0" 0x42 (silence 10) writer_node = Ok (a', inl o)
    ∧ sent (d_driver a') = [] ++ fs
    ∧ d_registry a' = [] ++ MkChan "diag" (tp (MkPgn 65226) 100) Outbound (BoundOut []) :: []
    ∧ ∀ ins, arrivals (t1 TpTimers_default) None ins fs →
        ∃ os, dispatcher_loop "can0" 0x20 ins diag_node =
          Ok (set_registry diag_node
                (delivered (tp_sel (MkPgn 65226) 0x42) TpBam.payload_20 <$> d_registry diag_node), inl os).
Proof.
  apply (bam_end_to_end "can0" "can0" 0x42 0x20 writer_node diag_node [] "diag" (tp (MkPgn 65226) 100)
           TpBam.payload_20 [] (silence 10)).
  - split; [reflexivity|split; constructor|reflexivity| | |].
    + split_and!; [vm_compute; split; discriminate|done|done].
    + vm_compute. split; discriminate.
    + apply calm_claimed. vm_compute. split; congruence.
  - split; [repeat constructor|repeat constructor| |].
    + repeat constructor; vm_compute; discriminate.
    + apply calm_claimed. vm_compute. split; congruence.
  - reflexivity.
Defined.

(** *** Two behaviours the routing documents do not mention *)

(** An 11-bit frame is decoded as if it had a 29-bit identifier: a plain CAN
    frame 0x123 is published on the channel of PGN 0 (torque/speed control). *)
Lemma standard_id_published :
  let f := MkCanData (MkCanId 0x123 false) Classical 0 [9] in
  let s := claimed_node 0x20 [inbound "tsc1" (single_frame (MkPgn 0))] in
  d_registry (end_of (dispatch_iteration_inner "can0" 0x20 (frame_at f 300)) s)
  = [MkChan "tsc1" (single_frame (MkPgn 0)) Inbound (BoundIn (append_published port [9]))].
Proof. vm_compute. reflexivity. Qed.

(** A message of fewer than 9 bytes on a transport-protocol channel ends the
    dispatcher loop. *)
Lemma short_message_ends_loop :
  let s := claimed_node 0x42
    [MkChan "diag" (tp (MkPgn 65226) 100) Outbound (BoundOut [Valid [1; 2; 3]])] in
  match dispatcher_loop "can0" 0x42 [silence 1; silence 2] s with
  | Ok (_, inr e) => e = Stack "segment_outbound"
  | _ => False
  end.
Proof. vm_compute. reflexivity. Qed.

End DispatchNet.
