(* ===== verification/CanConn.v ===== *)
(** * The CAN connector

    Models [taktora-connector-can/src/]: routing.rs (interface names, identifiers,
    routings), filter.rs (the compiler of kernel filters), registry.rs, the
    dispatcher of one interface (dispatcher.rs), and of real.rs what opening,
    reopening and filtering do to the socket.  Frames, the accounting bridge and the
    shared-memory ports are those of the J1939 dispatcher, which is built on them.

    A dispatcher function is a state transformer that may fail with a
    [ConnectorError]; the state reached so far is kept.  What [recv], [reopen] and
    [state] return, and the channels registered meanwhile by the application, are
    inputs of an iteration; the delays of the reconnect policy are only waited for. *)

From stdpp Require Import base gmap strings list.
From Stdlib Require Import ZArith Lia.
From S2P Require Import Prelude J1939Dispatch ConnHealth.

Module CanConn.
Import Dispatch.

(** ** Routing *)

Definition IFNAMSIZ_MINUS_ONE : Z := 15.
Inductive CanIfaceError := IfEmpty | IfTooLong | IfInvalidChar.
(** Names are byte strings; the fixed buffer holds them with their length. *)
Definition bad_char (b : Z) : bool := (b >? 127) || (b <=? 32) || (b =? 47) || (b =? 127).
Definition CanIface_new (name : list Z) : list Z + CanIfaceError :=
  match name with
  | [] => inr IfEmpty
  | _ => if len name >? IFNAMSIZ_MINUS_ONE then inr IfTooLong
         else if existsb bad_char name then inr IfInvalidChar
         else inl name
  end.

Inductive CanIdError := StandardOverflow | ExtendedOverflow.
Definition CanId_standard (v : Z) : CanId + CanIdError :=
  if v >? 0x7FF then inr StandardOverflow else inl (MkCanId v false).
(** [CanId::extended] is [CanId_extended] of the J1939 dispatcher. *)

Record CanRouting := MkRouting {
  r_iface : string;
  can_id : CanId;
  mask : Z;
  r_kind : CanFrameKind;
  fd_flags : Z;
}.
Definition routing_new (iface : string) (id : CanId) (m : Z) (k : CanFrameKind) : CanRouting := MkRouting iface id m k 0.
Definition with_fd_flags (r : CanRouting) (flags : Z) : CanRouting :=
  MkRouting (r_iface r) (can_id r) (mask r) (r_kind r) flags.

(** ** Filters *)

Record CanFilter := MkFilter { f_id : Z; f_mask : Z }.
#[export] Instance filter_eq_dec : EqDecision CanFilter.
Proof. solve_decision. Defined.
Definition CAN_EFF_FLAG : Z := 0x80000000.

Definition filter_for (r : CanRouting) : CanFilter :=
  let eff := if extended (can_id r) then CAN_EFF_FLAG else 0 in
  MkFilter (Z.lor (id_value (can_id r)) eff) (Z.lor (mask r) CAN_EFF_FLAG).

Definition compile (rs : list CanRouting) : list CanFilter :=
  foldl (λ fs r, let f := filter_for r in if bool_decide (f ∈ fs) then fs else fs ++ [f]) [] rs.

Definition matches (r : CanRouting) (d : CanData) : bool :=
  if negb (Bool.eqb (extended (can_id r)) (extended (cd_id d))) then false
  else Z.land (Z.lxor (id_value (can_id r)) (id_value (cd_id d))) (mask r) =? 0.
Definition matches_frame (r : CanRouting) (f : CanFrame) : bool :=
  match f with Data d => matches r d | _ => false end.

(** What the kernel does with a data frame: the identifier carries the flag of
    extended frames, and one filter must match. *)
Definition kernel_id (d : CanData) : Z :=
  Z.lor (id_value (cd_id d)) (if extended (cd_id d) then CAN_EFF_FLAG else 0).
Definition filter_passes (d : CanData) (f : CanFilter) : bool :=
  Z.land (Z.lxor (kernel_id d) (f_id f)) (f_mask f) =? 0.

(** ** The registry *)

Record RegisteredChannel := MkChan {
  descriptor_name : string;
  c_routing : CanRouting;
  c_direction : Direction;
  c_binding : ChannelBinding;
}.
Definition ChannelRegistry := list RegisteredChannel.
Definition register (g : ChannelRegistry) (name : string) (r : CanRouting) (d : Direction) (b : ChannelBinding)
    : ChannelRegistry * nat :=
  (g ++ [MkChan name r d b], length g).
Definition of_iface (iface : string) (d : Direction) (c : RegisteredChannel) : bool :=
  bool_decide (r_iface (c_routing c) = iface) && bool_decide (c_direction c = d).
Definition iter_iface_direction (g : ChannelRegistry) (iface : string) (d : Direction) : list RegisteredChannel :=
  List.filter (of_iface iface d) g.
Definition registry_get (g : ChannelRegistry) (h : nat) : option RegisteredChannel := g !! h.
Definition rebind (c : RegisteredChannel) (b : ChannelBinding) : RegisteredChannel :=
  MkChan (descriptor_name c) (c_routing c) (c_direction c) b.

(** ** The driver *)

(** [RealCanInterface]: the socket, if open, with its filters; a fresh socket
    accepts everything. *)
Record Socket := MkSocket { s_filters : option (list CanFilter) }.
Record Driver := MkDriver {
  socket : option Socket;
  sent : list CanData;
  send_result : nat → option CanIoError;
  apply_result : nat → option CanIoError;
  applies : nat;
}.
Definition open (send_result apply_result : nat → option CanIoError) : Driver :=
  MkDriver (Some (MkSocket None)) [] send_result apply_result 0.
Definition apply_filter (d : Driver) (fs : list CanFilter) : Driver * option CanIoError :=
  match socket d with
  | None => (d, Some Closed)
  | Some _ =>
      match apply_result d (applies d) with
      | Some e => (MkDriver (socket d) (sent d) (send_result d) (apply_result d) (S (applies d)), Some e)
      | None => (MkDriver (Some (MkSocket (Some fs))) (sent d) (send_result d) (apply_result d) (S (applies d)), None)
      end
  end.
Definition reopen (d : Driver) (result : option CanIoError) : Driver :=
  MkDriver (match result with None => Some (MkSocket None) | Some _ => None end)
    (sent d) (send_result d) (apply_result d) (applies d).
(** Whether a frame on the bus reaches [recv]. *)
Definition accepts (d : Driver) (f : CanData) : bool :=
  match socket d with
  | Some s => match s_filters s with None => true | Some fs => existsb (filter_passes f) fs end
  | None => false
  end.

(** ** The dispatcher *)

(** [ReconnectPolicy]; this dispatcher only uses [next_delay].  By default
    [next_backoff] wraps it. *)
Class ReconnectPolicy (P : Type) := {
  next_delay : P → P * Z;
  reset : P → P;
  next_backoff : P → P * option Z;
}.
Definition default_backoff {P : Type} (next_delay : P → P * Z) (p : P) : P * option Z :=
  let '(p, d) := next_delay p in (p, Some d).

Record Disp {P : Type} := MkDisp {
  d_driver : Driver;
  d_registry : ChannelRegistry;
  d_health : ConnHealth.CanHealthMonitor;
  d_policy : P;
  last_filter : list CanFilter;
  last_inbound_count : nat;
}.
Arguments Disp : clear implicits.

(** What the environment supplies to one iteration: the stop flag, channels
    registered before the count, before the filter is compiled, and before the
    frame is handled; the received frame; what [reopen] returns, and for the
    reconnect loop per attempt also the stop flag and the state. *)
Record iter_input := MkInput {
  i_stop : bool;
  i_reg0 : ChannelRegistry;
  i_reg1 : ChannelRegistry;
  i_reg2 : ChannelRegistry;
  i_rx : option (CanFrame + CanIoError);
  i_reopen : option CanIoError;
  i_attempts : list (bool * option CanIoError * CanIfaceState);
  i_now : Z;
}.

Section dispatcher.
Context {P : Type} `{ReconnectPolicy P} (iface : string).

Definition set_driver (s : Disp P) x := MkDisp P x (d_registry s) (d_health s) (d_policy s) (last_filter s) (last_inbound_count s).
Definition set_registry (s : Disp P) x := MkDisp P (d_driver s) x (d_health s) (d_policy s) (last_filter s) (last_inbound_count s).
Definition set_health (s : Disp P) x := MkDisp P (d_driver s) (d_registry s) x (d_policy s) (last_filter s) (last_inbound_count s).
Definition set_policy (s : Disp P) x := MkDisp P (d_driver s) (d_registry s) (d_health s) x (last_filter s) (last_inbound_count s).
Definition set_last_filter (s : Disp P) x := MkDisp P (d_driver s) (d_registry s) (d_health s) (d_policy s) x (last_inbound_count s).
Definition set_last_count (s : Disp P) x := MkDisp P (d_driver s) (d_registry s) (d_health s) (d_policy s) (last_filter s) x.

Definition M (A : Type) : Type := Disp P → Disp P * (A + ConnectorError).
#[local] Instance M_ret : MRet M := λ A a s, (s, inl a).
#[local] Instance M_bind : MBind M := λ A B f m s,
  match m s with (s', inl a) => f a s' | (s', inr e) => (s', inr e) end.
Definition fail {A} (e : ConnectorError) : M A := λ s, (s, inr e).
Definition modify (f : Disp P → Disp P) : M unit := λ s, (f s, inl tt).

Definition set_iface_ (k : ConnHealth.IfaceHealthKind) (now : Z) : M unit :=
  modify (λ s, set_health s (fst (ConnHealth.set_iface (d_health s) iface k now))).

Definition inbound_routings (g : ChannelRegistry) : list CanRouting := c_routing <$> iter_iface_direction g iface Inbound.
Definition compile_iface_filter (g : ChannelRegistry) : list CanFilter := compile (inbound_routings g).
Definition inbound_count (g : ChannelRegistry) : nat := length (iter_iface_direction g iface Inbound).

(** [driver.apply_filter(…)] with its error mapped, and with its error ignored. *)
Definition apply_or_fail (fs : list CanFilter) (what : string) : M unit := λ s,
  let '(d, r) := apply_filter (d_driver s) fs in
  (set_driver s d, match r with Some _ => inr (Stack what) | None => inl tt end).
Definition apply_ignored (fs : list CanFilter) : M unit :=
  modify (λ s, set_driver s (fst (apply_filter (d_driver s) fs))).

(** *** Transmission *)

Definition send (f : CanData) : M unit := λ s,
  let d := d_driver s in
  match send_result d (length (sent d)) with
  | Some _ => (s, inr (Stack (match cd_kind f with Classical => "send_classical" | Fd => "send_fd" end)))
  | None => (set_driver s (MkDriver (socket d) (sent d ++ [f]) (send_result d) (apply_result d) (applies d)), inl tt)
  end.
Fixpoint send_all (jobs : list CanData) : M nat :=
  match jobs with
  | [] => mret 0%nat
  | d :: jobs => send d;; n ← send_all jobs; mret (S n)
  end.

Definition MAX_CAN_PAYLOAD : Z := 64.
(** The drain loop of one channel. *)
Fixpoint drain_channel (r : CanRouting) (pending : list envelope) : list envelope * (list CanData + ConnectorError) :=
  match pending with
  | [] => ([], inl [])
  | env :: pending =>
      match drain_into env MAX_CAN_PAYLOAD with
      | inr e => (pending, inr e)
      | inl None => (pending, inl [])
      | inl (Some bytes) =>
          match CanData_new (can_id r) (r_kind r) (fd_flags r) bytes with
          | inr _ => (pending, inr (Stack "build frame"))
          | inl d =>
              let '(pending, res) := drain_channel r pending in
              (pending, match res with inl ds => inl (d :: ds) | inr e => inr e end)
          end
      end
  end.
Fixpoint collect_outbound_jobs (g : ChannelRegistry) : ChannelRegistry * (list CanData + ConnectorError) :=
  match g with
  | [] => ([], inl [])
  | c :: g =>
      match of_iface iface Outbound c, c_binding c with
      | true, BoundOut pending =>
          let '(pending, r) := drain_channel (c_routing c) pending in
          let c := rebind c (BoundOut pending) in
          match r with
          | inr e => (c :: g, inr e)
          | inl jobs =>
              let '(g, r) := collect_outbound_jobs g in
              (c :: g, match r with inl jobs' => inl (jobs ++ jobs') | inr e => inr e end)
          end
      | _, _ => let '(g, r) := collect_outbound_jobs g in (c :: g, r)
      end
  end.
Definition send_outbound_jobs_counted : M nat := λ s,
  match collect_outbound_jobs (d_registry s) with
  | (g, inr e) => (set_registry s g, inr e)
  | (g, inl jobs) => send_all jobs (set_registry s g)
  end.
Definition drain_outbound_once : M unit := _n ← send_outbound_jobs_counted; mret tt.

(** *** Reception *)

Fixpoint demux_loop (frame : CanData) (now : Z) (g : ChannelRegistry) (h : ConnHealth.CanHealthMonitor)
    : ChannelRegistry * ConnHealth.CanHealthMonitor * (nat + ConnectorError) :=
  match g with
  | [] => ([], h, inl 0%nat)
  | c :: g =>
      match of_iface iface Inbound c && matches (c_routing c) frame, c_binding c with
      | true, BoundIn p =>
          match publish_bytes p h (cd_payload frame) now with
          | (p, h, Some e) => (rebind c (BoundIn p) :: g, h, inr e)
          | (p, h, None) =>
              let '(g, h, r) := demux_loop frame now g h in
              (rebind c (BoundIn p) :: g, h, match r with inl n => inl (S n) | inr e => inr e end)
          end
      | _, _ => let '(g, h, r) := demux_loop frame now g h in (c :: g, h, r)
      end
  end.
Definition demux_inbound_counted (frame : CanData) (now : Z) : M nat := λ s,
  let '(g, h, r) := demux_loop frame now (d_registry s) (d_health s) in
  (set_health (set_registry s g) h, r).
Definition demux_inbound (frame : CanData) (now : Z) : M unit := _n ← demux_inbound_counted frame now; mret tt.

(** [policy.next_delay()], then [reopen]. *)
Definition reopen_ (result : option CanIoError) : M (option CanIoError) := λ s,
  let s := set_policy s (fst (next_delay (d_policy s))) in
  (set_driver s (reopen (d_driver s) result), inl result).

Definition classify_error (k : CanErrorKind) (i : iter_input) : M unit :=
  match k with
  | Warning | Passive => set_iface_ ConnHealth.IDegraded (i_now i)
  | BusOff =>
      set_iface_ ConnHealth.IDown (i_now i);;
      r ← reopen_ (i_reopen i);
      match r with
      | None => set_iface_ ConnHealth.IConnecting (i_now i);; set_iface_ ConnHealth.IUp (i_now i)
      | Some _ => fail (Stack "reopen")
      end
  | ArbitrationLost | OtherError => mret tt
  end.

Definition handle_inbound_frame (f : CanFrame) (i : iter_input) : M unit :=
  match f with
  | Data d => demux_inbound d (i_now i)
  | ErrorFrame k => classify_error k i
  | Remote _ _ => mret tt
  end.

(** [reconnect_until_open]: [None] while the environment offers no more attempts. *)
Fixpoint reconnect_until_open (attempts : list (bool * option CanIoError * CanIfaceState)) : M (option bool) :=
  match attempts with
  | [] => mret None
  | (stop, result, st) :: attempts =>
      if stop then mret (Some false)
      else
        r ← reopen_ result;
        match r, st with
        | None, IfActive => mret (Some true)
        | _, _ => reconnect_until_open attempts
        end
  end.

Definition recompiled : M (list CanFilter) := λ s, (s, inl (compile_iface_filter (d_registry s))).

Definition reconnect_once (i : iter_input) : M unit :=
  set_iface_ ConnHealth.IDown (i_now i);;
  r ← reopen_ (i_reopen i);
  match r with
  | Some _ => mret tt
  | None =>
      fs ← recompiled;
      apply_ignored fs;;
      set_iface_ ConnHealth.IConnecting (i_now i);; set_iface_ ConnHealth.IUp (i_now i)
  end.

(** *** The loop *)

Definition bring_up (now : Z) : M unit := λ s,
  let initial := compile_iface_filter (d_registry s) in
  (if bool_decide (initial = last_filter s) then set_iface_ ConnHealth.IUp now
   else λ s,
     match apply_or_fail initial "apply_filter" s with
     | (s, inr e) => (fst (set_iface_ ConnHealth.IDown now s), inr e)
     | (s, inl _) => set_iface_ ConnHealth.IUp now (set_last_filter s initial)
     end) s.

Definition add_channels (g : ChannelRegistry) : M unit := modify (λ s, set_registry s (d_registry s ++ g)).

(** The filter pass at the head of the loop. *)
Definition refresh_filter (i : iter_input) : M unit := λ s,
  let current := inbound_count (d_registry s) in
  if bool_decide (current = last_inbound_count s) then add_channels (i_reg1 i) s
  else
    (add_channels (i_reg1 i);;
     fs ← recompiled;
     (λ s, if bool_decide (fs = last_filter s) then (s, inl tt)
           else (apply_or_fail fs "filter recompile apply";; modify (λ s, set_last_filter s fs)) s);;
     modify (λ s, set_last_count s current)) s.

(** Up to the point where a frame is awaited. *)
Definition before_rx (i : iter_input) : M unit :=
  add_channels (i_reg0 i);; refresh_filter i;; drain_outbound_once;; add_channels (i_reg2 i).

Inductive verdict := Continue_ | Ended | Waiting.
Definition after_rx (i : iter_input) : M verdict :=
  match i_rx i with
  | None => mret Continue_
  | Some (inl f) => handle_inbound_frame f i;; mret Continue_
  | Some (inr Closed) =>
      set_iface_ ConnHealth.IDown (i_now i);;
      r ← reconnect_until_open (i_attempts i);
      match r with
      | None => mret Waiting
      | Some false => mret Ended
      | Some true =>
          fs ← recompiled;
          apply_ignored fs;; modify (λ s, set_last_filter s fs);;
          set_iface_ ConnHealth.IConnecting (i_now i);; set_iface_ ConnHealth.IUp (i_now i);;
          mret Continue_
      end
  | Some (inr _) => fail (Stack "recv")
  end.

Definition iteration (i : iter_input) : M verdict := before_rx i;; after_rx i.

Fixpoint loop (ins : list iter_input) : M verdict :=
  match ins with
  | [] => mret Continue_
  | i :: ins =>
      if i_stop i then mret Ended
      else v ← iteration i; match v with Continue_ => loop ins | _ => mret v end
  end.
Definition dispatcher_loop (now : Z) (ins : list iter_input) : M verdict := bring_up now;; loop ins.

(** *** One iteration for test harnesses *)

Record IterationOutcome := MkOutcome { tx_sent : nat; inbound_publishes : nat; error_kind : option CanErrorKind; reconnected : bool }.

Definition recompute_filter_once : M unit := λ s,
  let fs := compile_iface_filter (d_registry s) in
  if bool_decide (fs ≠ []) || (0 <? inbound_count (d_registry s))%nat
  then apply_or_fail fs "apply_filter" s else (s, inl tt).
Definition dispatch_one_iteration (i : iter_input) : M IterationOutcome :=
  recompute_filter_once;;
  n ← send_outbound_jobs_counted;
  match i_rx i with
  | None => mret (MkOutcome n 0 None false)
  | Some (inl (Data d)) => k ← demux_inbound_counted d (i_now i); mret (MkOutcome n k None false)
  | Some (inl (ErrorFrame k)) => classify_error k i;; mret (MkOutcome n 0 (Some k) false)
  | Some (inl (Remote _ _)) => mret (MkOutcome n 0 None false)
  | Some (inr Closed) => reconnect_once i;; mret (MkOutcome n 0 None true)
  | Some (inr _) => fail (Stack "recv")
  end.

End dispatcher.

(** ** The connector *)

(** [CanConnectorOptions] as far as channels depend on them; [build] clamps. *)
Record CanConnectorOptions := MkOptions {
  o_ifaces : list string;
  outbound_capacity : nat;
  inbound_capacity : nat;
  inbound_drop_threshold : N;
}.
Definition options_new : CanConnectorOptions := MkOptions [] 256 256 1.
Definition build (o : CanConnectorOptions) : CanConnectorOptions :=
  MkOptions (o_ifaces o) (outbound_capacity o `max` 1) (inbound_capacity o `max` 1) (N.max (inbound_drop_threshold o) 1).

Definition validate_routing (o : CanConnectorOptions) (n : Z) (r : CanRouting) : option ConnectorError :=
  if negb (bool_decide (r_iface r ∈ o_ifaces o)) then Some (Configuration "iface not in CanConnectorOptions::ifaces")
  else if negb (n =? frame_max_payload (r_kind r)) then Some (Configuration "max_payload_size does not match")
  else None.
Definition service_name (base : string) (d : Direction) : string :=
  match d with Outbound => base +:+ ".out" | Inbound => base +:+ ".in" end.

(** [create_writer] and [create_reader]: the shared-memory service has the payload
    size [n] of the descriptor; whether creating it succeeds is an input. *)
Definition create_writer (o : CanConnectorOptions) (n : Z) (service_ok : option ConnectorError) (g : ChannelRegistry)
    (name : string) (r : CanRouting) : ChannelRegistry * option ConnectorError :=
  match validate_routing o n r with
  | Some e => (g, Some e)
  | None =>
      match service_ok with
      | Some e => (g, Some e)
      | None => (fst (register g name r Outbound (BoundOut [])), None)
      end
  end.
Definition bridge_new (o : CanConnectorOptions) (n : Z) (iox_ok : nat → bool) : InboundPublish :=
  MkPublish (inbound_capacity o `max` 1) 0 0 (inbound_drop_threshold o) n iox_ok [].
Definition create_reader (o : CanConnectorOptions) (n : Z) (service_ok : option ConnectorError) (iox_ok : nat → bool)
    (g : ChannelRegistry) (name : string) (r : CanRouting) : ChannelRegistry * option ConnectorError :=
  match validate_routing o n r with
  | Some e => (g, Some e)
  | None =>
      match service_ok with
      | Some e => (g, Some e)
      | None => (fst (register g name r Inbound (BoundIn (bridge_new o n iox_ok))), None)
      end
  end.

End CanConn.
