(* ===== verification/CanConnOk.v ===== *)
(** * Properties of the CAN connector

    The compiled filters are exact, the socket never filters out a frame that a
    registered channel wants, and a frame is published on exactly the matching
    channels, unless one of them is too small for it. *)

From stdpp Require Import base gmap strings list.
From Stdlib Require Import ZArith Lia.
From S2P Require Import Prelude J1939Dispatch J1939DispatchNet ConnHealth CanConn.

Module CanConnOk.
Import Dispatch CanConn.

(** ** Filters *)

Definition wf_id (i : CanId) : Prop := is_u 29 (id_value i).

Lemma eff_flag_bit (b : bool) n : 0 ≤ n → Z.testbit (if b then CAN_EFF_FLAG else 0) n = b && (n =? 31).
Proof.
  intros Hn. destruct b; [|by rewrite Z.bits_0]. change CAN_EFF_FLAG with (2 ^ 31).
  rewrite Z.pow2_bits_eqb by lia. cbn [andb]. apply Z.eqb_sym.
Qed.

Lemma id_high_bit i n : wf_id i → 29 ≤ n → Z.testbit (id_value i) n = false.
Proof.
  intros [H0 H1] Hn. destruct (decide (id_value i = 0)) as [-> |]; [apply Z.bits_0|].
  apply Z.bits_above_log2; [lia|]. apply Z.log2_lt_pow2; [lia|].
  eapply Z.lt_le_trans; [exact H1|]. apply Z.pow_le_mono_r; lia.
Qed.

(** A routing's filter passes what the routing matches. *)
Lemma filter_for_exact r d :
  wf_id (can_id r) → wf_id (cd_id d) → filter_passes d (filter_for r) = matches r d.
Proof.
  intros Hr Hd. unfold filter_passes, matches, filter_for, kernel_id. cbn [f_id f_mask].
  rewrite Z.land_lor_distr_r. set (x := Z.lxor _ _).
  assert (Hflag : Z.land x CAN_EFF_FLAG = if xorb (extended (cd_id d)) (extended (can_id r)) then CAN_EFF_FLAG else 0).
  { apply Z.bits_inj'. intros n Hn. rewrite eff_flag_bit by done. unfold x.
    rewrite Z.land_spec, Z.lxor_spec, !Z.lor_spec, !eff_flag_bit by done. change CAN_EFF_FLAG with (if true then CAN_EFF_FLAG else 0).
    rewrite eff_flag_bit by done. simpl. destruct (Z.eqb_spec n 31) as [-> |]; [|by rewrite !andb_false_r].
    rewrite !(id_high_bit _ 31) by (done || lia). by destruct (extended (cd_id d)), (extended (can_id r)). }
  rewrite Hflag. destruct (Bool.eqb (extended (can_id r)) (extended (cd_id d))) eqn:E; cbn [negb].
  - apply eqb_prop in E. rewrite E, xorb_nilpotent, Z.lor_0_r. f_equal. unfold x. rewrite E. apply Z.bits_inj'. intros n Hn.
    rewrite !Z.land_spec, !Z.lxor_spec, !Z.lor_spec, !eff_flag_bit by done.
    destruct (Z.eqb_spec n 31) as [-> |].
    + rewrite !(id_high_bit _ 31) by (done || lia). by destruct (extended (cd_id d)).
    + rewrite !andb_false_r, !orb_false_r. by rewrite xorb_comm.
  - apply eqb_false_iff in E. apply Z.eqb_neq. rewrite Z.lor_eq_0_iff. intros [_ H0].
    by destruct (extended (cd_id d)), (extended (can_id r)).
Qed.

Lemma compile_snoc rs r :
  compile (rs ++ [r]) = if bool_decide (filter_for r ∈ compile rs) then compile rs else compile rs ++ [filter_for r].
Proof. unfold compile. by rewrite foldl_app. Qed.

Lemma elem_of_compile rs f : f ∈ compile rs ↔ ∃ r, r ∈ rs ∧ f = filter_for r.
Proof.
  revert f. induction rs as [|r rs IH] using rev_ind; intros f.
  { split; [by intros ?%elem_of_nil|by intros (r & ?%elem_of_nil & _)]. }
  rewrite compile_snoc. setoid_rewrite elem_of_app. setoid_rewrite list_elem_of_singleton.
  case_bool_decide as Hf; [|rewrite elem_of_app, list_elem_of_singleton]; rewrite IH; [|naive_solver].
  apply IH in Hf as (r' & Hr' & He). split; [naive_solver|]. intros (r0 & [H0| ->] & ->); [eauto|]. by exists r'.
Qed.

Lemma compile_NoDup rs : NoDup (compile rs).
Proof.
  induction rs as [|r rs IH] using rev_ind; [apply NoDup_nil_2|]. rewrite compile_snoc. case_bool_decide as Hf; [done|].
  apply NoDup_app. split; [done|]. split; [|apply NoDup_singleton]. by intros x Hx ->%list_elem_of_singleton.
Qed.

(** The compiled set passes exactly the frames some routing matches. *)
Lemma compile_exact rs d :
  Forall (λ r, wf_id (can_id r)) rs → wf_id (cd_id d) →
  existsb (filter_passes d) (compile rs) = existsb (λ r, matches r d) rs.
Proof.
  intros Hrs Hd. apply eq_true_iff_eq. rewrite !existsb_exists. split.
  - intros (f & (r & Hr & ->)%list_elem_of_In%elem_of_compile & Hp). exists r. split; [by apply list_elem_of_In|].
    rewrite <- filter_for_exact; [done| |done]. by eapply Forall_forall in Hrs.
  - intros (r & Hr%list_elem_of_In & Hm). exists (filter_for r). split; [apply list_elem_of_In, elem_of_compile; eauto|].
    rewrite filter_for_exact; [done| |done]. by eapply Forall_forall in Hrs.
Qed.

(** ** What changes in the registry *)

Definition shape (c : RegisteredChannel) : CanRouting * Direction := (c_routing c, c_direction c).

Section registry.
Context (iface : string).

Lemma routings_shape g g' : shape <$> g = shape <$> g' → inbound_routings iface g = inbound_routings iface g'.
Proof.
  revert g'. induction g as [|c g IH]; intros [|c' g'] Hs; try done. rewrite !fmap_cons in Hs. injection Hs as Hr Hd Hs.
  unfold inbound_routings, iter_iface_direction in *. simpl.
  replace (of_iface iface Inbound c') with (of_iface iface Inbound c) by (unfold of_iface; by rewrite Hr, Hd).
  destruct (of_iface iface Inbound c); [rewrite !fmap_cons, Hr; f_equal|]; by apply IH.
Qed.

Lemma routings_app g g' : inbound_routings iface (g ++ g') = inbound_routings iface g ++ inbound_routings iface g'.
Proof. unfold inbound_routings, iter_iface_direction. by rewrite List.filter_app, fmap_app. Qed.

Lemma count_routings g : inbound_count iface g = length (inbound_routings iface g).
Proof. unfold inbound_count, inbound_routings. by rewrite length_fmap. Qed.

Lemma collect_shape g g' r : collect_outbound_jobs iface g = (g', r) → shape <$> g' = shape <$> g.
Proof.
  revert g' r. induction g as [|c g IH]; intros g' r; simpl; [by intros [= <- <-]|].
  destruct (collect_outbound_jobs iface g) as [g1 r1] eqn:E.
  destruct (of_iface iface Outbound c), (c_binding c) as [|pending|p];
    try (intros [= <- <-]; rewrite !fmap_cons; by rewrite (IH _ _ eq_refl)).
  destruct (drain_channel (c_routing c) pending) as [pending' [jobs|e]]; intros [= <- <-]; rewrite !fmap_cons; [|done].
  by rewrite (IH _ _ eq_refl).
Qed.

Lemma demux_shape d now g h g' h' r : demux_loop iface d now g h = (g', h', r) → shape <$> g' = shape <$> g.
Proof.
  revert h g' h' r. induction g as [|c g IH]; intros h g' h' r; simpl; [by intros [= <- <- <-]|].
  destruct (_ && _); [destruct (c_binding c) as [| |p]|];
    try (destruct (demux_loop iface d now g h) as [[g1 h1] r1] eqn:E; intros [= <- <- <-];
         rewrite !fmap_cons; by rewrite (IH _ _ _ _ E)).
  destruct (publish_bytes p h _ now) as [[p' h2] [e|]]; [by intros [= <- <- <-]|].
  destruct (demux_loop iface d now g h2) as [[g1 h1] r1] eqn:E. intros [= <- <- <-]. rewrite !fmap_cons. by rewrite (IH _ _ _ _ E).
Qed.

(** A channel as [create_reader] leaves it: a valid identifier, a bridge with room. *)
Definition chan_ok (c : RegisteredChannel) : Prop :=
  wf_id (can_id (c_routing c))
  ∧ match c_binding c with BoundIn p => queued p = 0%nat ∧ (1 ≤ capacity p)%nat | _ => True end.

Lemma collect_ok g g' r : collect_outbound_jobs iface g = (g', r) → Forall chan_ok g → Forall chan_ok g'.
Proof.
  revert g' r. induction g as [|c g IH]; intros g' r; simpl; [by intros [= <- <-]|].
  destruct (collect_outbound_jobs iface g) as [g1 r1] eqn:E. intros Hg [Hc Hall]%Forall_cons. revert Hg.
  destruct (of_iface iface Outbound c), (c_binding c) as [|pending|p] eqn:Eb;
    try (intros [= <- <-]; constructor; [done|by eapply IH]).
  destruct (drain_channel (c_routing c) pending) as [pending' [jobs|e]]; intros [= <- <-];
    (constructor; [split; [apply Hc|done]|]); [by eapply IH|done].
Qed.

Lemma publish_ok p h bytes now p' h' r :
  queued p = 0%nat → (1 ≤ capacity p)%nat → publish_bytes p h bytes now = (p', h', r) →
  queued p' = 0%nat ∧ (1 ≤ capacity p')%nat ∧ h' = h.
Proof.
  intros Hq Hc. rewrite DispatchNet.publish_drained by done.
  destruct (_ >? _); [by intros [= <- <- <-]|]. by destruct (iox_ok p _); intros [= <- <- <-].
Qed.

Lemma demux_ok d now g h g' h' r :
  demux_loop iface d now g h = (g', h', r) → Forall chan_ok g → Forall chan_ok g'.
Proof.
  revert h g' h' r. induction g as [|c g IH]; intros h g' h' r; simpl; [by intros [= <- <- <-]|].
  intros Hg [Hc Hall]%Forall_cons. revert Hg.
  destruct (_ && _); [destruct (c_binding c) as [| |p] eqn:Eb|];
    try (destruct (demux_loop iface d now g h) as [[g1 h1] r1] eqn:E; intros [= <- <- <-];
         constructor; [done|by eapply IH]).
  destruct Hc as [Hw Hp]. rewrite Eb in Hp. destruct Hp as [Hq Hcap].
  destruct (publish_bytes p h _ now) as [[p' h2] re] eqn:Ep. apply publish_ok in Ep as (Hq' & Hc' & _); [|done..].
  destruct re as [e|]; [intros [= <- <- <-]; by constructor|].
  destruct (demux_loop iface d now g h2) as [[g1 h1] r1] eqn:E. intros [= <- <- <-]. constructor; [done|by eapply IH].
Qed.

End registry.

(** ** The socket and the registry *)

Section dispatcher.
Context {P : Type} `{ReconnectPolicy P} (iface : string).
Abbreviation routings s := (inbound_routings iface (d_registry s)).

(** The socket is open; it filters by the last applied set or not at all; and that
    set was compiled from at least the channels counted. *)
Record inv (s : Disp P) : Prop := {
  inv_socket : ∃ sk, socket (d_driver s) = Some sk ∧ (s_filters sk = None ∨ s_filters sk = Some (last_filter s));
  inv_covers : ∃ k, (last_inbound_count s ≤ k ≤ length (routings s))%nat ∧ last_filter s = compile (take k (routings s));
  inv_chans : Forall chan_ok (d_registry s);
}.

(** [m] establishes [Q] from [R] when it succeeds. *)
Definition ensures {A} (R : Disp P → Prop) (m : M A) (Q : A → Disp P → Prop) : Prop :=
  ∀ s s' a, R s → m s = (s', inl a) → Q a s'.

Lemma can_ret {A} (R : Disp P → Prop) (a : A) (Q : A → Disp P → Prop) : (∀ s, R s → Q a s) → ensures R (M_ret A a) Q.
Proof. intros HQ s s' a' HR [= <- <-]. by apply HQ. Qed.
Lemma can_bind {A B} R (m : M A) Q (f : A → M B) T :
  ensures R m Q → (∀ a, ensures (Q a) (f a) T) → ensures R (M_bind A B f m) T.
Proof.
  intros Hm Hf s s' b HR. unfold M_bind. destruct (m s) as [s1 [a|e]] eqn:E; [|done]. by apply Hf, (Hm s s1 a).
Qed.
Lemma ensures_modify (R : Disp P → Prop) f (Q : unit → Disp P → Prop) : (∀ s, R s → Q tt (f s)) → ensures R (modify f) Q.
Proof. intros HQ s s' [] HR [= <-]. by apply HQ. Qed.
Lemma ensures_weaken {A} (R R' : Disp P → Prop) (m : M A) Q (Q' : A → Disp P → Prop) :
  ensures R m Q → (∀ s, R' s → R s) → (∀ a s, Q a s → Q' a s) → ensures R' m Q'.
Proof. intros Hm HR HQ s s' a HR' Hs. eapply HQ, Hm; [by apply HR|done]. Qed.

(** What the invariant looks at. *)
Definition same (s s' : Disp P) : Prop :=
  socket (d_driver s') = socket (d_driver s) ∧ routings s' = routings s
  ∧ last_filter s' = last_filter s ∧ last_inbound_count s' = last_inbound_count s
  ∧ (Forall chan_ok (d_registry s) → Forall chan_ok (d_registry s')).
Lemma inv_ext s s' : inv s → same s s' → inv s'.
Proof. intros [Hs Hc Ho] (E1 & E2 & E3 & E4 & E5). split; rewrite ?E1, ?E2, ?E3, ?E4; auto. Qed.
Lemma same_refl s : same s s.
Proof. by split_and!. Qed.
Lemma same_trans s1 s2 s3 : same s1 s2 → same s2 s3 → same s1 s3.
Proof. intros (? & ? & ? & ? & ?) (? & ? & ? & ? & ?). split_and!; auto; congruence. Qed.

Lemma inv_add s g : inv s → Forall chan_ok g → inv (set_registry s (d_registry s ++ g)).
Proof.
  intros [Hs (k & Hk & Hc) Ho] Hg. split; [done| |by apply Forall_app]. exists k. simpl. rewrite routings_app, length_app. split; [lia|].
  rewrite take_app_le by lia. done.
Qed.

(** A fresh socket, or one with the set just compiled. *)
Lemma inv_compiled s d sk :
  (last_inbound_count s ≤ length (routings s))%nat → Forall chan_ok (d_registry s) → socket d = Some sk →
  (s_filters sk = None ∨ s_filters sk = Some (compile_iface_filter iface (d_registry s))) →
  inv (set_last_filter (set_driver s d) (compile_iface_filter iface (d_registry s))).
Proof.
  intros Hl Ho Hd Hf. split; simpl; [by exists sk| |done]. exists (length (routings s)). split; [lia|]. by rewrite firstn_all.
Qed.

(** *** The steps *)

Lemma inv_set_iface k now : ensures inv (set_iface_ iface k now) (λ _, inv).
Proof. apply ensures_modify. intros s Hs. eapply inv_ext; [done|by split_and!]. Qed.

Lemma send_all_same jobs s s' r : send_all jobs s = (s', r) → same s s'.
Proof.
  revert s s' r. induction jobs as [|d jobs IH]; intros s s' r; [intros [= <- <-]; apply same_refl|].
  cbn [send_all]. unfold mbind, M_bind at 1. unfold send at 1. destruct (send_result _ _); [intros [= <- <-]; apply same_refl|].
  unfold M_bind. destruct (send_all jobs _) as [s1 [n|e]] eqn:E; apply IH in E; intros [= <- <-]; exact E.
Qed.

Lemma drain_same s s' r : drain_outbound_once iface s = (s', r) → same s s'.
Proof.
  unfold drain_outbound_once, send_outbound_jobs_counted, mbind, M_bind.
  destruct (collect_outbound_jobs iface (d_registry s)) as [g [jobs|e]] eqn:E;
    assert (Hg : same s (set_registry s g))
      by (split_and!; try done; [apply routings_shape; by eapply collect_shape|by eapply collect_ok]).
  - destruct (send_all jobs _) as [s1 [n|e]] eqn:E1; apply send_all_same in E1; intros [= <- <-]; by eapply same_trans.
  - by intros [= <- <-].
Qed.

Lemma inv_demux d now : ensures inv (demux_inbound iface d now) (λ _, inv).
Proof.
  apply (can_bind _ _ (λ _, inv)); [|intros n; by apply can_ret]. intros s s' n Hs. unfold demux_inbound_counted.
  destruct (demux_loop iface d now (d_registry s) (d_health s)) as [[g h] r] eqn:E. intros [= <- ->].
  eapply inv_ext; [exact Hs|]. split_and!; try done; [apply routings_shape; by eapply demux_shape|by eapply demux_ok].
Qed.

(** After [reopen] the rest of the state is as before, and the socket fresh. *)
Definition reopened (r : option CanIoError) (s : Disp P) : Prop :=
  (∃ k, (last_inbound_count s ≤ k ≤ length (routings s))%nat ∧ last_filter s = compile (take k (routings s)))
  ∧ Forall chan_ok (d_registry s)
  ∧ (r = None → socket (d_driver s) = Some (MkSocket None)).
Lemma reopened_inv s : reopened None s → inv s.
Proof. intros (Hc & Ho & Hf). split; [|done..]. eexists. split; [by apply Hf|]. by left. Qed.
Lemma inv_reopened s : inv s → reopened (Some Closed) s.
Proof. by intros [_ Hc Ho]. Qed.
Lemma reopened_any r s : reopened r s → reopened (Some Closed) s.
Proof. by intros (Hc & Ho & _). Qed.
Lemma inv_reopen result : ensures (reopened (Some Closed)) (reopen_ result) (λ r s, r = result ∧ reopened r s).
Proof.
  intros s s' r (Hs & Ho & _). unfold reopen_. intros [= <- <-]. split; [done|]. split; [exact Hs|]. split; [done|]. by intros ->.
Qed.

Lemma inv_classify k i : ensures inv (classify_error iface k i) (λ _, inv).
Proof.
  destruct k; cbn [classify_error]; try (by apply inv_set_iface); try (by apply can_ret).
  eapply can_bind; [apply inv_set_iface|intros []]. eapply can_bind.
  { eapply ensures_weaken; [apply (inv_reopen (i_reopen i))|apply inv_reopened|by intros r s H'; exact H']. }
  intros [e|]; [by intros s s' []|]. apply (can_bind _ _ (λ _, inv)); [|intros []; apply inv_set_iface].
  eapply ensures_weaken; [apply inv_set_iface|by intros s [_ Hs%reopened_inv]|done].
Qed.

Lemma inv_handle f i : ensures inv (handle_inbound_frame iface f i) (λ _, inv).
Proof. destruct f; cbn [handle_inbound_frame]; [apply inv_demux|by apply can_ret|apply inv_classify]. Qed.

Lemma inv_until attempts :
  ensures (reopened (Some Closed)) (reconnect_until_open attempts) (λ r s, r = Some true → reopened None s).
Proof.
  induction attempts as [|[[stop result] st] attempts IH]; cbn [reconnect_until_open]; [by apply can_ret|].
  destruct stop; [by apply can_ret|]. eapply can_bind; [apply (inv_reopen result)|].
  intros r. destruct r as [e|]; [|destruct st; [|apply can_ret; by intros s [_ Hs]|]];
    (eapply ensures_weaken; [exact IH| |done]; intros s [_ Hs]; by eapply reopened_any).
Qed.

(** Applying what was just compiled to a fresh socket. *)
Lemma inv_apply_fresh s fs :
  reopened None s → fs = compile_iface_filter iface (d_registry s) →
  inv (set_last_filter (set_driver s (apply_filter (d_driver s) fs).1) fs).
Proof.
  intros ((k & Hk & Hc) & Ho & Hf) ->. unfold apply_filter. rewrite (Hf eq_refl). destruct (apply_result (d_driver s) _).
  - eapply inv_compiled; [lia|done|done|by left].
  - eapply inv_compiled; [lia|done|done|by right].
Qed.

Lemma inv_after_rx i : ensures inv (after_rx iface i) (λ v s, v = Continue_ → inv s).
Proof.
  unfold after_rx. destruct (i_rx i) as [[f|[]]|]; try (by intros s s' v _ [=]); try (by apply can_ret).
  { eapply can_bind; [apply inv_handle|]. intros []. by apply can_ret. }
  eapply can_bind; [apply inv_set_iface|intros []]. eapply can_bind.
  { eapply ensures_weaken; [apply (inv_until (i_attempts i))|apply inv_reopened|by intros r s Hr; exact Hr]. }
  intros [[]|]; try (by apply can_ret). intros s s' v Hs. specialize (Hs eq_refl).
  intros [= <- <-] _. pose proof (inv_apply_fresh s _ Hs eq_refl) as Hi. eapply inv_ext; [exact Hi|]. by split_and!.
Qed.

(** At the point where a frame is awaited: the channels of [R], which were there
    when the iteration started, are counted. *)
Definition ready (R : list CanRouting) (s : Disp P) : Prop :=
  inv s ∧ last_inbound_count s = length R ∧ ∃ rest, routings s = R ++ rest.

Lemma ready_same R s s' : ready R s → same s s' → ready R s'.
Proof.
  intros (Hi & Hl & rest & Hr) Hs. split; [by eapply inv_ext|]. destruct Hs as (_ & E2 & _ & E4 & _). rewrite E2, E4. eauto.
Qed.
Lemma ready_add R s g : ready R s → Forall chan_ok g → ready R (set_registry s (d_registry s ++ g)).
Proof.
  intros (Hi & Hl & rest & Hr) Hg. split; [by apply inv_add|]. split; [done|]. simpl. rewrite routings_app, Hr, <- app_assoc. eauto.
Qed.

(** The application registers channels it created. *)
Definition input_ok (i : iter_input) : Prop := Forall chan_ok (i_reg0 i) ∧ Forall chan_ok (i_reg1 i) ∧ Forall chan_ok (i_reg2 i).

Lemma refresh_ready i s s' : inv s → input_ok i → refresh_filter iface i s = (s', inl tt) → ready (routings s) s'.
Proof.
  intros Hs (_ & Hin & _). unfold refresh_filter. case_bool_decide as Hc.
  - intros [= <-]. apply ready_add; [|done]. split; [done|]. rewrite count_routings in Hc. split; [done|]. exists []. by rewrite app_nil_r.
  - unfold mbind, M_bind, add_channels, modify, recompiled. cbn. set (g := d_registry s ++ i_reg1 i).
    assert (Hg : inbound_routings iface g = routings s ++ inbound_routings iface (i_reg1 i)) by apply routings_app.
    pose proof (inv_add s (i_reg1 i) Hs Hin) as Ha.
    assert (Hready : ∀ d sk, socket d = Some sk → (s_filters sk = None ∨ s_filters sk = Some (compile_iface_filter iface g)) →
      ready (routings s) (set_last_count (set_last_filter (set_driver (set_registry s g) d) (compile_iface_filter iface g))
        (inbound_count iface (d_registry s)))).
    { intros d sk Hd Hf. rewrite count_routings. split; [|by eauto]. split; [by exists sk| |apply Ha]. exists (length (inbound_routings iface g)).
      simpl. rewrite Hg, length_app. split; [lia|]. by rewrite <- length_app, <- Hg, firstn_all. }
    case_bool_decide as Hl.
    + intros [= <-]. pose proof Ha as [(sk & Hsk & Hf) _ _].
      assert (Hl' : last_filter s = compile_iface_filter iface g) by (symmetry; exact Hl).
      assert (Hf' : s_filters sk = None ∨ s_filters sk = Some (compile_iface_filter iface g)) by (rewrite <- Hl'; exact Hf).
      specialize (Hready (d_driver s) sk Hsk Hf'). rewrite <- Hl' in Hready. destruct s; exact Hready.
    + unfold apply_or_fail, apply_filter. pose proof Ha as [(sk & Hsk & Hf) _ _]. simpl in Hsk. cbn. rewrite Hsk.
      destruct (apply_result (d_driver s) _); [done|]. intros [= <-]. eapply Hready; [done|by right].
Qed.

Lemma before_rx_ready i s s' :
  inv s → input_ok i → before_rx iface i s = (s', inl tt) → ready (inbound_routings iface (d_registry s ++ i_reg0 i)) s'.
Proof.
  intros Hs Hin. unfold before_rx, mbind, M_bind. cbn [add_channels modify].
  pose proof (inv_add s (i_reg0 i) Hs (proj1 Hin)) as Ha. set (s0 := set_registry s _) in *.
  destruct (refresh_filter iface i s0) as [s1 [[]|e]] eqn:E1; [|done]. apply refresh_ready in E1; [|done..].
  destruct (drain_outbound_once iface s1) as [s2 [[]|e]] eqn:E2; [|done]. apply drain_same in E2.
  intros [= <-]. apply ready_add; [by eapply ready_same|apply Hin].
Qed.

Lemma ready_accepts R s d :
  ready R s → wf_id (cd_id d) →
  (∃ r, r ∈ R ∧ matches r d = true) → accepts (d_driver s) d = true.
Proof.
  intros ([(sk & Hsk & Hf) (k & Hk & Hc) Ho] & Hl & rest & Hr) Hd (r & Hin & Hm).
  assert (Hw : Forall (λ r, wf_id (can_id r)) (routings s)).
  { apply Forall_fmap, Forall_forall. intros c [Hc' _]%list_elem_of_In%filter_In. apply list_elem_of_In in Hc'.
    rewrite Forall_forall in Ho. by apply Ho. } unfold accepts. rewrite Hsk.
  destruct Hf as [-> | ->]; [done|]. rewrite Hc, compile_exact; [|by apply Forall_take|done].
  apply existsb_exists. exists r. split; [|done]. apply list_elem_of_In. rewrite Hr, Hl in *.
  rewrite take_app_ge by lia. apply elem_of_app. by left.
Qed.

(** *** Bring-up and the loop *)

Definition start (s : Disp P) : Prop :=
  socket (d_driver s) = Some (MkSocket None) ∧ last_filter s = [] ∧ last_inbound_count s = 0%nat ∧ Forall chan_ok (d_registry s).

Lemma bring_up_inv now s s' : start s → bring_up iface now s = (s', inl tt) → inv s'.
Proof.
  intros (Hk & Hf & Hc & Ho). unfold bring_up. case_bool_decide as Hi.
  - intros [= <-]. eapply (inv_ext s); [|by split_and!]. split; [by exists (MkSocket None); eauto| |done].
    exists 0%nat. rewrite Hc, Hf. split; [lia|done].
  - unfold apply_or_fail, apply_filter. rewrite Hk. destruct (apply_result (d_driver s) _); [done|]. intros [= <-].
    match goal with |- inv (set_health ?s1 _) => apply (inv_ext s1); [|by split_and!] end.
    eapply inv_compiled; [rewrite Hc; lia|done|done|by right].
Qed.

(** The states at the head of the loop. *)
Inductive reach (s0 : Disp P) : Disp P → Prop :=
| reach_up now s : bring_up iface now s0 = (s, inl tt) → reach s0 s
| reach_iter i s s' : reach s0 s → input_ok i → i_stop i = false → iteration iface i s = (s', inl Continue_) → reach s0 s'.

Lemma loop_inv s0 s : start s0 → reach s0 s → inv s.
Proof.
  intros H0 Hr. induction Hr as [now s Hs|i s s' Hr IH Hin _ Hi]; [by eapply bring_up_inv|].
  unfold iteration, mbind, M_bind in Hi. destruct (before_rx iface i s) as [s1 [[]|e]] eqn:E; [|done].
  apply before_rx_ready in E as (Hs1 & _); [|done..]. exact (inv_after_rx i s1 s' Continue_ Hs1 Hi eq_refl).
Qed.

(** *** Delivery *)

Definition wants (d : CanData) (c : RegisteredChannel) : bool := of_iface iface Inbound c && matches (c_routing c) d.
(** Shared memory takes the payload from the channel. *)
Definition takes (d : CanData) (c : RegisteredChannel) : Prop :=
  match c_binding c with
  | BoundIn p => wants d c = true → len (cd_payload d) ≤ port_max p ∧ ∀ n, iox_ok p n = true
  | _ => True
  end.
Definition too_small (d : CanData) (c : RegisteredChannel) : Prop :=
  wants d c = true ∧ match c_binding c with BoundIn p => port_max p < len (cd_payload d) | _ => False end.
Definition port_up (c : RegisteredChannel) : Prop :=
  match c_binding c with BoundIn p => ∀ n, iox_ok p n = true | _ => True end.
Definition delivered (d : CanData) (c : RegisteredChannel) : RegisteredChannel :=
  match wants d c, c_binding c with
  | true, BoundIn p => rebind c (BoundIn (DispatchNet.append_published p (cd_payload d)))
  | _, _ => c
  end.

Lemma demux_delivers d now g h :
  Forall chan_ok g → Forall (takes d) g → ∃ n, demux_loop iface d now g h = (delivered d <$> g, h, inl n).
Proof.
  intros Ho Ht. induction g as [|c g IH]; [by exists 0%nat|]. apply Forall_cons in Ho as [[_ Hc] Ho]. apply Forall_cons in Ht as [Htc Ht].
  destruct (IH Ho Ht) as [n Hn]. cbn [demux_loop]. rewrite fmap_cons. unfold delivered at 1. unfold takes in Htc. fold (wants d c).
  destruct (wants d c) eqn:Ew; [|rewrite Hn; by exists n].
  destruct (c_binding c) as [| |p]; [rewrite Hn; by exists n..|]. destruct (Htc eq_refl) as [Hl Hok]. destruct Hc as [Hq Hcap].
  rewrite DispatchNet.publish_drained by done. rewrite Hok.
  replace (len (cd_payload d) >? port_max p) with false by (symmetry; rewrite Z.gtb_ltb; apply Z.ltb_ge; lia).
  rewrite Hn. by exists (S n).
Qed.

Lemma demux_overflows d now g h :
  Forall chan_ok g → Forall port_up g → Exists (too_small d) g →
  ∃ g' h' a m, demux_loop iface d now g h = (g', h', inr (PayloadOverflow a m)).
Proof.
  intros Ho Hp He. revert h. induction g as [|c g IH]; intros h; [by apply Exists_nil in He|].
  apply Forall_cons in Ho as [[_ Hc] Ho]. apply Forall_cons in Hp as [Hpc Hp]. cbn [demux_loop]. fold (wants d c).
  apply Exists_cons in He. unfold too_small at 1 in He. unfold port_up in Hpc.
  assert (Hnext : Exists (too_small d) g → ∃ g' h' a m,
    (let '(g1, h1, r) := demux_loop iface d now g h in (c :: g1, h1, r)) = (g', h', inr (PayloadOverflow a m))).
  { intros Hg. destruct (IH Ho Hp Hg h) as (g' & h' & a & m & ->). eauto 10. }
  destruct (wants d c) eqn:Ew; [|destruct He as [[? _]|He]; [done|by apply Hnext]].
  destruct (c_binding c) as [| |p]; [destruct He as [[_ []]|He]; by apply Hnext..|].
  destruct Hc as [Hq Hcap]. rewrite DispatchNet.publish_drained by done.
  destruct (Z.gtb_spec (len (cd_payload d)) (port_max p)) as [Hgt|Hle]; [eauto 10|]. rewrite Hpc.
  destruct He as [[_ He]|He]; [lia|]. destruct (IH Ho Hp He h) as (g' & h' & a & m & ->). eauto 10.
Qed.

(** C23. The loop of one interface, in every state it reaches from a freshly opened
    socket: when a frame is awaited, the kernel passes every data frame that some
    inbound channel registered before the iteration matches, whatever filters were
    compiled, skipped, applied or lost with a socket before.  A data frame that
    arrives is appended to the published samples of exactly the channels that match
    it, the loop continuing, if it fits all of them; and if one of them is smaller
    than the frame, [PayloadOverflow] ends the loop. *)
Theorem frames_reach_channels s0 s i s1 d :
  start s0 → reach s0 s → input_ok i → before_rx iface i s = (s1, inl tt) → wf_id (cd_id d) →
  (existsb (wants d) (d_registry s ++ i_reg0 i) = true → accepts (d_driver s1) d = true)
  ∧ (i_rx i = Some (inl (Data d)) →
     (Forall (takes d) (d_registry s1) →
      ∃ s2, iteration iface i s = (s2, inl Continue_) ∧ d_registry s2 = delivered d <$> d_registry s1)
     ∧ (Forall port_up (d_registry s1) → Exists (too_small d) (d_registry s1) →
        ∃ s2 a m, iteration iface i s = (s2, inr (PayloadOverflow a m)))).
Proof.
  intros H0 Hr Hin Hb Hd. pose proof (before_rx_ready i s s1 (loop_inv _ _ H0 Hr) Hin Hb) as Hready. split.
  - intros (c & Hc & Hw)%existsb_exists. unfold wants in Hw. apply andb_prop in Hw as [Hw Hm]. eapply ready_accepts; [done..|].
    exists (c_routing c). split; [|done]. apply list_elem_of_fmap. exists c. split; [done|]. by apply list_elem_of_In, filter_In.
  - intros Hrx. assert (Hit : iteration iface i s = after_rx iface i s1) by (unfold iteration, mbind, M_bind; by rewrite Hb).
    rewrite Hit. unfold after_rx. rewrite Hrx. unfold handle_inbound_frame, demux_inbound, demux_inbound_counted, mbind, M_bind.
    destruct Hready as ([_ _ Ho] & _). split.
    + intros Ht. destruct (demux_delivers d (i_now i) (d_registry s1) (d_health s1) Ho Ht) as (n & ->). eexists. by split.
    + intros Hp He. destruct (demux_overflows d (i_now i) (d_registry s1) (d_health s1) Ho Hp He) as (g & h & a & m & ->). by eexists _, a, m.
Qed.

End dispatcher.

(** ** A concrete interface *)

#[local] Instance no_delay : ReconnectPolicy unit := { next_delay u := (u, 0); reset u := u; next_backoff := default_backoff (λ u, (u, 0)) }.

(** A classical reader of identifier 0x123, registered while the loop runs. *)
Definition demo_options : CanConnectorOptions := build (MkOptions ["can0"] 16 16 1).
Definition demo_channels : ChannelRegistry :=
  (create_reader demo_options 8 None (λ _, true) [] "speed" (routing_new "can0" (MkCanId 0x123 false) 0x7FF Classical)).1.
Definition demo_frame (k : CanFrameKind) (bytes : list Z) : CanData := MkCanData (MkCanId 0x123 false) k 0 bytes.
Definition demo_start : Disp unit :=
  MkDisp unit (open (λ _, None) (λ _, None)) [] (ConnHealth.health_new ["can0"] 0) tt [] 0.
Definition demo_up : Disp unit := (bring_up "can0" 1 demo_start).1.
Definition demo_input (d : CanData) : iter_input := MkInput false demo_channels [] [] (Some (inl (Data d))) None [] 2.
Definition demo_awaiting (d : CanData) : Disp unit := (before_rx "can0" (demo_input d) demo_up).1.

Lemma frames_reach_channels_witness :
  (accepts (d_driver (demo_awaiting (demo_frame Fd (repeat 7 12)))) (demo_frame Fd (repeat 7 12)) = true
   ∧ ∃ s2 a m, iteration "can0" (demo_input (demo_frame Fd (repeat 7 12))) demo_up = (s2, inr (PayloadOverflow a m)))
  ∧ ∃ s2, iteration "can0" (demo_input (demo_frame Classical [1; 2])) demo_up = (s2, inl Continue_)
      ∧ d_registry s2 = delivered "can0" (demo_frame Classical [1; 2]) <$> demo_channels.
Proof.
  assert (Hwf : ∀ k bs, wf_id (cd_id (demo_frame k bs))) by (intros; unfold wf_id, is_u; vm_compute; done).
  assert (Hs : start demo_start) by (by repeat split; constructor).
  assert (Hr : reach "can0" demo_start demo_up) by (by apply (reach_up _ _ 1)).
  assert (Hi : ∀ d, input_ok (demo_input d)).
  { intros d. split; [|by split; constructor]. constructor; [|constructor]. split; [split; vm_compute; done|]. split; [done|vm_compute; lia]. }
  assert (Hb : ∀ k bs, before_rx "can0" (demo_input (demo_frame k bs)) demo_up = (demo_awaiting (demo_frame k bs), inl tt))
    by (intros; vm_compute; reflexivity).
  split.
  - destruct (frames_reach_channels "can0" demo_start demo_up (demo_input (demo_frame Fd (repeat 7 12))) _ (demo_frame Fd (repeat 7 12))
      Hs Hr (Hi _) (Hb _ _) (Hwf _ _)) as [Ha Hrx]. split; [by apply Ha|]. apply (Hrx eq_refl).
    + constructor; [|constructor]. by vm_compute.
    + constructor. by split.
  - destruct (frames_reach_channels "can0" demo_start demo_up (demo_input (demo_frame Classical [1; 2])) _ (demo_frame Classical [1; 2])
      Hs Hr (Hi _) (Hb _ _) (Hwf _ _)) as [_ Hrx]. apply (Hrx eq_refl). constructor; [|constructor]. intros _. split; [by vm_compute|done].
Defined.

End CanConnOk.
