(* ===== verification/EcatPdi.v ===== *)
(** * Process-data slices of the EtherCAT connector

    Models [taktora-connector-ethercat/src/]routing.rs and pdi.rs: a routing names a
    run of bits of a device's process image, and the two copies between such a run
    and a payload buffer. *)

From stdpp Require Import base list.
From Stdlib Require Import ZArith Lia.
From S2P Require Import Prelude IdlBits J1939Dispatch.

Module EcatPdi.
Import IdlBits Dispatch.

Inductive PdoDirection := Rx | Tx.
#[export] Instance pdo_direction_eq_dec : EqDecision PdoDirection.
Proof. solve_decision. Defined.

Record EthercatRouting := MkEcatRouting {
  subdevice_address : Z;
  pdo_direction : PdoDirection;
  bit_offset : Z;
  bit_length : Z;
}.

(** [usize::saturating_mul]. *)
Definition sat_mul8 (n : Z) : Z := Z.min (2 ^ 64 - 1) (n * 8).

(** The clear-then-set of one target bit. *)
Definition copy_bit (value : list Z) (off i : Z) (pdi : list Z) : res (list Z) :=
  v ← idx value (i / 8);
  let bit := Z.land (Z.shiftr v (i mod 8)) 1 in
  let dst_pos := off + i in
  b ← idx pdi (dst_pos / 8);
  let dst_bit := dst_pos mod 8 in
  Ok (<[Z.to_nat (dst_pos / 8) :=
        Z.lor (Z.land b (Z.lxor (Z.shiftl 1 dst_bit) 255)) (Z.shiftl bit dst_bit)]> pdi).

Fixpoint write_loop (n : nat) (i : Z) (value : list Z) (off : Z) (pdi : list Z) : res (list Z) :=
  match n with
  | O => Ok pdi
  | S n => pdi ← copy_bit value off i pdi; write_loop n (i + 1) value off pdi
  end.

Definition write_routing (pdi : list Z) (r : EthercatRouting) (value : list Z) : res (list Z + ConnectorError) :=
  if bit_length r =? 0 then Ok (inl pdi)
  else
    let value_bits_available := sat_mul8 (len value) in
    if value_bits_available <? bit_length r then Ok (inr (PayloadOverflow (bit_length r) value_bits_available))
    else
      let pdi_bits_available := sat_mul8 (len pdi) in
      let last := sat_add 64 (bit_offset r) (bit_length r) in
      if pdi_bits_available <? last then Ok (inr (PayloadOverflow last pdi_bits_available))
      else pdi ← write_loop (Z.to_nat (bit_length r)) 0 value (bit_offset r) pdi; Ok (inl pdi).

(** [into[dst_byte] |= bit << dst_bit]. *)
Definition fetch_bit (pdi : list Z) (off i : Z) (into : list Z) : res (list Z) :=
  let src_pos := off + i in
  b ← idx pdi (src_pos / 8);
  let bit := Z.land (Z.shiftr b (src_pos mod 8)) 1 in
  d ← idx into (i / 8);
  Ok (<[Z.to_nat (i / 8) := Z.lor d (Z.shiftl bit (i mod 8))]> into).

Fixpoint read_loop (n : nat) (i : Z) (pdi : list Z) (off : Z) (into : list Z) : res (list Z) :=
  match n with
  | O => Ok into
  | S n => into ← fetch_bit pdi off i into; read_loop n (i + 1) pdi off into
  end.

Definition read_routing (pdi : list Z) (r : EthercatRouting) (into : list Z) : res (list Z + ConnectorError) :=
  if bit_length r =? 0 then Ok (inl into)
  else
    let into_bits_available := sat_mul8 (len into) in
    if into_bits_available <? bit_length r then Ok (inr (PayloadOverflow (bit_length r) into_bits_available))
    else
      let pdi_bits_available := sat_mul8 (len pdi) in
      let last := sat_add 64 (bit_offset r) (bit_length r) in
      if pdi_bits_available <? last then Ok (inr (PayloadOverflow last pdi_bits_available))
      else
        let touched_bytes := div_ceil (bit_length r) 8 in
        cleared ← copy_at into 0 (replicate (Z.to_nat touched_bytes) 0);
        into ← read_loop (Z.to_nat (bit_length r)) 0 pdi (bit_offset r) cleared;
        Ok (inl into).

(** ** Bits of byte lists *)

Lemma bit_at_insert l k b q :
  (k < length l)%nat → 0 ≤ q →
  bit_at (<[k := b]> l) q = if decide (Z.to_nat (q / 8) = k) then Z.testbit b (q mod 8) else bit_at l q.
Proof.
  intros Hk Hq. unfold bit_at. case_decide as He.
  - subst k. by rewrite list_lookup_insert_eq.
  - by rewrite list_lookup_insert_ne by congruence.
Qed.

Lemma bit_at_out l q : 8 * len l ≤ q → bit_at l q = false.
Proof. intros Hq. unfold bit_at. unfold len in Hq. by rewrite lookup_ge_None_2 by zdiv. Qed.

(** Byte lists of one length are determined by their bits. *)
Lemma bit_at_inj l k :
  is_bytes l → is_bytes k → length l = length k → (∀ q, 0 ≤ q < 8 * len l → bit_at l q = bit_at k q) → l = k.
Proof.
  intros Hl Hk Hlen Hq. apply (list_eq_same_length _ _ (length l)); [done|done|]. intros n a b Hn Ha Hb. apply Z.bits_inj'. intros i Hi.
  pose proof (is_bytes_lookup _ _ _ Hl Ha) as Hab. pose proof (is_bytes_lookup _ _ _ Hk Hb) as Hbb.
  destruct (decide (i < 8)); [|by rewrite !byte_bits by (done || lia)].
  specialize (Hq (8 * Z.of_nat n + i)). unfold bit_at, len in Hq.
  replace ((8 * Z.of_nat n + i) / 8) with (Z.of_nat n) in Hq by zdiv.
  replace ((8 * Z.of_nat n + i) mod 8) with i in Hq by zdiv. rewrite Nat2Z.id, Ha, Hb in Hq. apply Hq. lia.
Qed.

Lemma one_bit x i : 0 ≤ i → Z.land (Z.shiftr x i) 1 = Z.b2z (Z.testbit x i).
Proof.
  intros Hi. rewrite (land_mask _ 1 1) by lia. change (2 ^ 1) with 2.
  by rewrite <- Z.bit0_mod, Z.shiftr_spec, Z.add_0_l.
Qed.

Lemma put_bit_alt b k x : is_u 8 b → 0 ≤ k < 8 →
  Z.lor (Z.land b (Z.lxor (Z.shiftl 1 k) 255)) (Z.shiftl (Z.b2z x) k) = put_bit b k x.
Proof.
  intros Hb Hk. change (Z.land b (Z.lxor (Z.shiftl 1 k) 255)) with (put_bit b k false). destruct x; simpl Z.b2z.
  - apply Z.bits_inj'. intros i Hi. rewrite Z.lor_spec, !put_bit_spec by done.
    rewrite Z.shiftl_spec by done. case_decide as He.
    + subst. by rewrite Z.sub_diag.
    + destruct (decide (i < k)); [by rewrite (Z.testbit_neg_r 1), orb_false_r by lia|].
      change 1 with (2 ^ 0). by rewrite Z.pow2_bits_false, orb_false_r by lia.
  - by rewrite Z.shiftl_0_l, Z.lor_0_r.
Qed.

(** ** The copies *)

Lemma copy_bit_spec value off i pdi :
  is_bytes pdi → is_bytes value → 0 ≤ i < 8 * len value → 0 ≤ off → off + i < 8 * len pdi →
  wp (copy_bit value off i pdi) (λ pdi', length pdi' = length pdi ∧ is_bytes pdi'
    ∧ ∀ q, 0 ≤ q → bit_at pdi' q = if decide (q = off + i) then bit_at value i else bit_at pdi q).
Proof.
  intros Hp Hv Hi Ho Hl. unfold copy_bit. wp_step. apply wp_idx; [zdiv|]. intros v Hv'. wp_step. apply wp_idx; [zdiv|].
  intros b Hb. apply wp_Ok. pose proof (is_bytes_lookup _ _ _ Hp Hb) as Hbb.
  assert (0 ≤ (off + i) mod 8 < 8) as Hm by (apply Z.mod_pos_bound; lia). assert (0 ≤ i mod 8) by zdiv.
  rewrite one_bit by done. rewrite put_bit_alt by done. split; [apply length_insert|]. split; [by apply Forall_insert, put_bit_byte|].
  intros q Hq. rewrite bit_at_insert by (done || by eapply lookup_lt_Some). unfold bit_at at 2. rewrite Hv'.
  case_decide as He; [|case_decide; [subst; done|done]].
  rewrite put_bit_spec by (done || zdiv). unfold bit_at. rewrite He, Hb. repeat case_decide; try done; exfalso; zdiv.
Qed.

Lemma write_loop_spec n i value off pdi :
  is_bytes pdi → is_bytes value → 0 ≤ i → i + Z.of_nat n ≤ 8 * len value → 0 ≤ off → off + i + Z.of_nat n ≤ 8 * len pdi →
  wp (write_loop n i value off pdi) (λ pdi', length pdi' = length pdi ∧ is_bytes pdi'
    ∧ ∀ q, 0 ≤ q → bit_at pdi' q =
        if decide (off + i ≤ q < off + i + Z.of_nat n) then bit_at value (q - off) else bit_at pdi q).
Proof.
  revert i pdi. induction n as [|n IH]; intros i pdi Hp Hv Hi Hl Ho Hlp; cbn [write_loop].
  { apply wp_Ok. split_and!; [done..|]. intros q _. by rewrite decide_False by lia. }
  wp_step. eapply wp_mono; [apply copy_bit_spec; (done || lia)|]. intros pdi1 (Hl1 & Hb1 & Hq1).
  eapply wp_mono; [apply IH; try (done || lia); unfold len in *; lia|]. intros pdi2 (Hl2 & Hb2 & Hq2). split_and!; [congruence|done|].
  intros q Hq. rewrite Hq2, Hq1 by done. repeat case_decide; try lia; [done|subst q; f_equal; lia|done].
Qed.

(** Whether a copy fits: enough payload, and the slice inside the image. *)
Definition slice_fits (pdi : list Z) (r : EthercatRouting) (buf : list Z) : Prop :=
  bit_length r ≤ 8 * len buf ∧ bit_offset r + bit_length r ≤ 8 * len pdi.
Definition routing_ok (r : EthercatRouting) : Prop := is_u 32 (bit_offset r) ∧ is_u 16 (bit_length r).
#[export] Instance slice_fits_dec pdi r buf : Decision (slice_fits pdi r buf).
Proof. unfold slice_fits. apply _. Defined.
(** Slices are shorter than the address space. *)
Definition small (l : list Z) : Prop := len l < 2 ^ 60.

(** What the checks decide. *)
Lemma check_fits pdi r buf : routing_ok r → small pdi → small buf → bit_length r ≠ 0 →
  slice_fits pdi r buf ↔ (sat_mul8 (len buf) <? bit_length r) = false
    ∧ (sat_mul8 (len pdi) <? sat_add 64 (bit_offset r) (bit_length r)) = false.
Proof.
  unfold slice_fits, routing_ok, small, is_u, sat_mul8, sat_add. intros [H1 H2] Hp Hb Hz.
  rewrite !Z.ltb_ge. pose proof (len_nonneg pdi). pose proof (len_nonneg buf). lia.
Qed.

Definition in_slice (r : EthercatRouting) (q : Z) : Prop := bit_offset r ≤ q < bit_offset r + bit_length r.
#[export] Instance in_slice_dec r q : Decision (in_slice r q).
Proof. unfold in_slice. apply _. Defined.

Lemma write_routing_spec pdi r value :
  routing_ok r → small pdi → small value → is_bytes pdi → is_bytes value → slice_fits pdi r value →
  ∃ pdi', write_routing pdi r value = Ok (inl pdi') ∧ length pdi' = length pdi ∧ is_bytes pdi'
    ∧ ∀ q, 0 ≤ q → bit_at pdi' q = if decide (in_slice r q) then bit_at value (q - bit_offset r) else bit_at pdi q.
Proof.
  intros Hr Hp Hv Hpb Hvb Hf. unfold write_routing. destruct (Z.eqb_spec (bit_length r) 0) as [Hz|Hz].
  { exists pdi. split_and!; [done..|]. intros q _. by rewrite decide_False by (unfold in_slice; lia). }
  pose proof Hf as [-> ->]%check_fits; [|done..]. destruct Hf as [Hf1 Hf2]. destruct Hr as [[Ho _] [Hn _]].
  destruct (wp_exists _ _ (write_loop_spec (Z.to_nat (bit_length r)) 0 value (bit_offset r) pdi Hpb Hvb ltac:(lia) ltac:(lia) Ho ltac:(lia)))
    as (pdi' & -> & Hl & Hb & Hq). exists pdi'. split_and!; [done..|]. intros q H0. rewrite Hq by done. unfold in_slice.
  repeat case_decide; try done; lia.
Qed.

Lemma fetch_bit_spec pdi off i into :
  is_bytes into → 0 ≤ off → 0 ≤ i < 8 * len into → off + i < 8 * len pdi → bit_at into i = false →
  wp (fetch_bit pdi off i into) (λ into', length into' = length into ∧ is_bytes into'
    ∧ ∀ q, 0 ≤ q → bit_at into' q = if decide (q = i) then bit_at pdi (off + i) else bit_at into q).
Proof.
  intros Hb Ho Hi Hl Hz. unfold fetch_bit. wp_step. apply wp_idx; [zdiv|]. intros b Hb'. wp_step. apply wp_idx; [zdiv|].
  intros d Hd. apply wp_Ok. pose proof (is_bytes_lookup _ _ _ Hb Hd) as Hdb.
  assert (0 ≤ i mod 8 < 8) as Hm by (apply Z.mod_pos_bound; lia). assert (0 ≤ (off + i) mod 8) by zdiv.
  assert (Hbit : Z.testbit d (i mod 8) = false) by (unfold bit_at in Hz; by rewrite Hd in Hz).
  assert (Hput : Z.lor d (Z.shiftl (Z.land (Z.shiftr b ((off + i) mod 8)) 1) (i mod 8))
    = put_bit d (i mod 8) (Z.testbit b ((off + i) mod 8))).
  { rewrite one_bit, <- put_bit_alt by done. f_equal. change (Z.land d _) with (put_bit d (i mod 8) false).
    apply Z.bits_inj'. intros j Hj. rewrite put_bit_spec by done. case_decide; by subst. }
  rewrite Hput. split; [apply length_insert|]. split; [by apply Forall_insert, put_bit_byte|].
  intros q Hq. rewrite bit_at_insert by (done || by eapply lookup_lt_Some). unfold bit_at at 2. rewrite Hb'.
  case_decide as He; [|case_decide; [subst; done|done]].
  rewrite put_bit_spec by (done || zdiv). unfold bit_at. rewrite He, Hd. repeat case_decide; try done; exfalso; zdiv.
Qed.

Lemma read_loop_spec n i pdi off into :
  is_bytes into → 0 ≤ off → 0 ≤ i → i + Z.of_nat n ≤ 8 * len into → off + i + Z.of_nat n ≤ 8 * len pdi →
  (∀ q, i ≤ q < i + Z.of_nat n → bit_at into q = false) →
  wp (read_loop n i pdi off into) (λ into', length into' = length into ∧ is_bytes into'
    ∧ ∀ q, 0 ≤ q → bit_at into' q = if decide (i ≤ q < i + Z.of_nat n) then bit_at pdi (off + q) else bit_at into q).
Proof.
  revert i into. induction n as [|n IH]; intros i into Hb Ho Hi Hl Hlp Hz; cbn [read_loop].
  { apply wp_Ok. split_and!; [done..|]. intros q _. by rewrite decide_False by lia. }
  wp_step. eapply wp_mono; [apply fetch_bit_spec; (done || lia || (apply Hz; lia))|]. intros into1 (Hl1 & Hb1 & Hq1).
  eapply wp_mono; [apply IH; try (done || lia); [unfold len in *; lia|]|].
  { intros q Hq. rewrite Hq1, decide_False by lia. apply Hz. lia. }
  intros into2 (Hl2 & Hb2 & Hq2). split_and!; [congruence|done|].
  intros q Hq. rewrite Hq2, Hq1 by done. repeat case_decide; try lia; subst; done.
Qed.

Lemma replicate_bits n q : bit_at (replicate n 0) q = false.
Proof. unfold bit_at. destruct (replicate n 0 !! _) as [b|] eqn:E; [|done]. apply lookup_replicate in E as [-> _]. apply Z.bits_0. Qed.

Lemma bit_at_app l k q : 0 ≤ q → bit_at (l ++ k) q = if decide (q < 8 * len l) then bit_at l q else bit_at k (q - 8 * len l).
Proof.
  intros Hq. unfold bit_at, len. case_decide.
  - by rewrite lookup_app_l by zdiv.
  - rewrite lookup_app_r by zdiv. replace ((q - 8 * Z.of_nat (length l)) mod 8) with (q mod 8) by zdiv.
    by replace (Z.to_nat ((q - 8 * Z.of_nat (length l)) / 8)) with (Z.to_nat (q / 8) - length l)%nat by zdiv.
Qed.

(** A read copies the slice, clears the rest of its last byte and leaves what follows. *)
Lemma read_routing_spec pdi r into :
  routing_ok r → small pdi → small into → is_bytes into → slice_fits pdi r into → bit_length r ≠ 0 →
  ∃ into', read_routing pdi r into = Ok (inl into') ∧ length into' = length into ∧ is_bytes into'
    ∧ ∀ q, 0 ≤ q → bit_at into' q =
        if decide (q < bit_length r) then bit_at pdi (bit_offset r + q)
        else if decide (q < 8 * div_ceil (bit_length r) 8) then false else bit_at into q.
Proof.
  intros Hr Hp Hi Hb Hf Hz. unfold read_routing. rewrite (proj2 (Z.eqb_neq _ _) Hz).
  pose proof Hf as [-> ->]%check_fits; [|done..]. destruct Hf as [Hf1 Hf2]. destruct Hr as [[Ho _] [Hn _]].
  pose proof (div_ceil_spec (bit_length r) 8 ltac:(lia) ltac:(lia)) as Hd. set (t := div_ceil (bit_length r) 8) in *.
  assert (Ht : (Z.to_nat t ≤ length into)%nat) by (unfold len in Hf1; lia).
  rewrite copy_at_Ok by (unfold len in *; rewrite ?length_replicate; lia). cbn [mbind res_bind].
  rewrite take_0, length_replicate, app_nil_l, Nat.add_0_l. set (cleared := replicate _ 0 ++ drop _ into).
  assert (Hcl : length cleared = length into) by (unfold cleared; rewrite length_app, length_replicate, length_drop; lia).
  assert (Hcb : is_bytes cleared).
  { apply Forall_app. split; [apply Forall_replicate; unfold is_u; lia|by apply Forall_drop]. }
  assert (Hcq : ∀ q, 0 ≤ q → bit_at cleared q = if decide (q < 8 * t) then false else bit_at into q).
  { intros q Hq. unfold cleared. rewrite bit_at_app by done. unfold len. rewrite length_replicate, Z2Nat.id by lia.
    case_decide; [apply replicate_bits|]. rewrite <- (take_drop (Z.to_nat t) into) at 2.
    rewrite bit_at_app by done. unfold len. rewrite length_take, Nat.min_l, Z2Nat.id by lia. by rewrite decide_False. }
  destruct (wp_exists _ _ (read_loop_spec (Z.to_nat (bit_length r)) 0 pdi (bit_offset r) cleared Hcb Ho ltac:(lia)
    ltac:(unfold len in *; lia) ltac:(lia) ltac:(intros; rewrite Hcq by lia; by rewrite decide_True by lia))) as (into' & -> & Hl & Hib & Hq).
  exists into'. split_and!; [done|congruence|done|]. intros q H0. rewrite Hq, Hcq by done. repeat case_decide; done || lia.
Qed.

(** Outside the slices that fit, only [PayloadOverflow]. *)
Lemma write_unfit pdi r value :
  routing_ok r → small pdi → small value → bit_length r ≠ 0 → ¬ slice_fits pdi r value →
  ∃ a m, write_routing pdi r value = Ok (inr (PayloadOverflow a m)).
Proof.
  intros Hr Hp Hv Hz Hf. unfold write_routing. apply Z.eqb_neq in Hz as Hz'. rewrite Hz'. rewrite check_fits in Hf by done.
  destruct (sat_mul8 (len value) <? bit_length r); [by eauto|]. destruct (sat_mul8 (len pdi) <? _); [by eauto|]. by destruct Hf.
Qed.
Lemma read_unfit pdi r into :
  routing_ok r → small pdi → small into → bit_length r ≠ 0 → ¬ slice_fits pdi r into →
  ∃ a m, read_routing pdi r into = Ok (inr (PayloadOverflow a m)).
Proof.
  intros Hr Hp Hi Hz Hf. unfold read_routing. apply Z.eqb_neq in Hz as Hz'. rewrite Hz'. rewrite check_fits in Hf by done.
  destruct (sat_mul8 (len into) <? bit_length r); [by eauto|]. destruct (sat_mul8 (len pdi) <? _); [by eauto|]. by destruct Hf.
Qed.

Lemma write_total pdi r value :
  routing_ok r → small pdi → small value → is_bytes pdi → is_bytes value →
  wp (write_routing pdi r value) (λ o, match o with inl pdi' => length pdi' = length pdi ∧ is_bytes pdi' | inr _ => True end).
Proof.
  intros Hr Hp Hv Hpb Hvb. destruct (decide (bit_length r = 0)) as [Hz|Hz].
  { unfold write_routing. by rewrite Hz. }
  destruct (decide (slice_fits pdi r value)) as [Hf|Hf].
  - by destruct (write_routing_spec pdi r value) as (pdi' & -> & Hl & Hb & _).
  - by destruct (write_unfit pdi r value) as (a & m & ->).
Qed.
Lemma read_total pdi r into :
  routing_ok r → small pdi → small into → is_bytes into →
  wp (read_routing pdi r into) (λ o, match o with inl into' => length into' = length into ∧ is_bytes into' | inr _ => True end).
Proof.
  intros Hr Hp Hi Hb. destruct (decide (bit_length r = 0)) as [Hz|Hz].
  { unfold read_routing. by rewrite Hz. }
  destruct (decide (slice_fits pdi r into)) as [Hf|Hf].
  - by destruct (read_routing_spec pdi r into) as (into' & -> & Hl & Hb' & _).
  - by destruct (read_unfit pdi r into) as (a & m & ->).
Qed.

(** The payload a slice carries: the first [bit_length] bits, the rest of the last
    byte clear. *)
Definition payload_of (r : EthercatRouting) (value : list Z) (out : list Z) : Prop :=
  len out = div_ceil (bit_length r) 8 ∧ is_bytes out
  ∧ ∀ q, 0 ≤ q → bit_at out q = if decide (q < bit_length r) then bit_at value q else false.

Lemma payload_exact r value out :
  0 ≤ bit_length r → is_bytes value → len value = div_ceil (bit_length r) 8 →
  (∀ q, bit_length r ≤ q → bit_at value q = false) → payload_of r value out → out = value.
Proof.
  intros Hn Hv Hl Hz (Hl' & Hb & Hq). apply bit_at_inj; [done..|unfold len in *; lia|].
  intros q Hq0. rewrite Hq by lia. case_decide; [done|]. symmetry. apply Hz. lia.
Qed.

Definition disjoint_slices (r r' : EthercatRouting) : Prop :=
  bit_offset r + bit_length r ≤ bit_offset r' ∨ bit_offset r' + bit_length r' ≤ bit_offset r.

Lemma read_cong pdi pdi' r into :
  routing_ok r → small pdi → small into → is_bytes into → length pdi' = length pdi →
  (∀ q, in_slice r q → bit_at pdi' q = bit_at pdi q) → read_routing pdi' r into = read_routing pdi r into.
Proof.
  intros Hr Hp Hi Hb Hl Hq. destruct (decide (bit_length r = 0)) as [Hz|Hz].
  { unfold read_routing. by rewrite Hz. }
  assert (Hlen : len pdi' = len pdi) by (unfold len; lia).
  destruct (decide (slice_fits pdi r into)) as [Hf|Hf].
  - assert (Hf' : slice_fits pdi' r into) by (destruct Hf; split; lia).
    destruct (read_routing_spec pdi r into) as (o & -> & Ho & Hob & Hoq); [done..|].
    destruct (read_routing_spec pdi' r into) as (o' & -> & Ho' & Hob' & Hoq'); [done|unfold small in *; lia|done..|].
    f_equal. f_equal. destruct Hr as [[H0 _] [H1 _]]. apply bit_at_inj; [done|done|congruence|]. intros q Hq0. rewrite Hoq, Hoq' by lia.
    case_decide; [|done]. apply Hq. unfold in_slice. lia.
  - unfold read_routing. rewrite Hlen. apply Z.eqb_neq in Hz as Hz'. rewrite Hz'. rewrite check_fits in Hf by done.
    destruct (sat_mul8 (len into) <? bit_length r); [done|]. destruct (sat_mul8 (len pdi) <? _); [done|]. by destruct Hf.
Qed.

(** A payload written to its slice of a process image is read back: the bits of
    the slice, the rest of the last byte clear, so a payload of the slice's exact
    size comes back unchanged; every slice that does not overlap reads the same as
    before; and a copy that does not fit fails with [PayloadOverflow] and leaves the
    image alone.  No copy panics. *)
Theorem pdi_slices pdi r value :
  routing_ok r → small pdi → small value → is_bytes pdi → is_bytes value → bit_length r ≠ 0 →
  if decide (slice_fits pdi r value)
  then ∃ pdi', write_routing pdi r value = Ok (inl pdi') ∧ length pdi' = length pdi ∧ is_bytes pdi'
    ∧ (∃ out, read_routing pdi' r (replicate (Z.to_nat (div_ceil (bit_length r) 8)) 0) = Ok (inl out)
         ∧ payload_of r value out
         ∧ (len value = div_ceil (bit_length r) 8 → (∀ q, bit_length r ≤ q → bit_at value q = false) → out = value))
    ∧ (∀ r' into, routing_ok r' → small into → is_bytes into → disjoint_slices r r' →
         read_routing pdi' r' into = read_routing pdi r' into)
  else ∃ a m, write_routing pdi r value = Ok (inr (PayloadOverflow a m)).
Proof.
  intros Hr Hp Hv Hpb Hvb Hz. case_decide as Hf.
  - destruct (write_routing_spec pdi r value) as (pdi' & Hw & Hl & Hb & Hq); [done..|]. exists pdi'. split_and!; [done..| |].
    + pose proof Hr as [[H0 H0'] [H1 H1']]. pose proof (div_ceil_spec (bit_length r) 8 ltac:(lia) ltac:(lia)) as Hd.
      set (t := div_ceil _ 8) in *. assert (Hlr : len (replicate (Z.to_nat t) 0) = t) by (unfold len; rewrite length_replicate; lia).
      destruct (read_routing_spec pdi' r (replicate (Z.to_nat t) 0)) as (out & Ho & Hlo & Hbo & Hqo).
      { done. } { unfold small, len in *. lia. } { unfold small. rewrite Hlr. lia. } { apply Forall_replicate. unfold is_u. lia. }
      { destruct Hf as [_ Hf]. split; [lia|]. unfold len in *. lia. } { done. }
      assert (Hpay : payload_of r value out).
      { split_and!; [unfold len; rewrite Hlo; exact Hlr|done|]. intros q Hq0. rewrite Hqo by done. repeat case_decide.
        - rewrite Hq by lia. unfold in_slice. rewrite decide_True by lia. f_equal. lia.
        - done.
        - apply replicate_bits. }
      exists out. split_and!; [done..|]. intros Hlv Hzv. by eapply payload_exact.
    + intros r' into Hr' Hi Hib Hd. apply read_cong; [done..|]. intros q Hin. destruct Hr' as [[? _] _].
      rewrite Hq by (unfold in_slice in Hin; lia). rewrite decide_False; [done|]. unfold in_slice, disjoint_slices in *. lia.
  - by apply write_unfit.
Qed.

Lemma pdi_slices_witness :
  let r := MkEcatRouting 0x1001 Rx 3 12 in
  ∃ pdi', write_routing [255; 0; 255; 0] r [0xAB; 0x0C] = Ok (inl pdi')
    ∧ read_routing pdi' r [0; 0] = Ok (inl [0xAB; 0x0C])
    ∧ read_routing pdi' (MkEcatRouting 0x1001 Rx 15 9) [0; 0] = read_routing [255; 0; 255; 0] (MkEcatRouting 0x1001 Rx 15 9) [0; 0].
Proof.
  pose proof (pdi_slices [255; 0; 255; 0] (MkEcatRouting 0x1001 Rx 3 12) [0xAB; 0x0C]
    ltac:(split; by vm_compute) ltac:(by vm_compute) ltac:(by vm_compute) ltac:(by repeat constructor) ltac:(by repeat constructor) ltac:(done)) as H.
  rewrite decide_True in H by (split; by vm_compute). destruct H as (pdi' & Hw & _ & _ & (out & Ho & _ & Hout) & Hd).
  exists pdi'. split; [done|]. rewrite <- Hout.
  - split; [exact Ho|]. apply Hd; [split; by vm_compute|by vm_compute|by repeat constructor|left; by vm_compute].
  - done.
  - intros q Hq. unfold bit_at. cbn in Hq. destruct (decide (q < 16)) as [Hlt|Hge]; [|by rewrite lookup_ge_None_2 by (simpl; zdiv)].
    assert (q = 12 ∨ q = 13 ∨ q = 14 ∨ q = 15) as [-> |[-> |[-> | ->]]] by lia; done.
Defined.

End EcatPdi.
