(* ===== verification/EcatRunner.v ===== *)
(** * The EtherCAT cycle

    Models [taktora-connector-ethercat/src/]: health.rs (the monitor with its drop
    latch), scheduler.rs, wkc.rs, driver.rs (the bus driver as a class) with mock.rs as
    an instance, runner.rs (cycles, verdicts and recovery episodes), registry.rs,
    dispatcher.rs (one cycle between channels and process image, and the loop) and of
    connector.rs the creation of channels and the dispatcher task.  Ports and bridges
    are those of the J1939 dispatcher.

    A step is a state transformer that may panic, fail with a [ConnectorError], or
    still be waiting inside a recovery episode after the attempts it was given; the
    state reached so far is kept.  Instants are arguments; delays are only waited for. *)

From stdpp Require Import base gmap strings pretty list.
From Stdlib Require Import ZArith Lia.
From S2P Require Import Prelude J1939Dispatch ConnHealth CanConn EcatPdi.

Module EcatRunner.
Import Dispatch EcatPdi.

#[local] Existing Instance ConnHealth.kind_eq_dec.

(** [Display] of [ConnectorError]. *)
Definition display (e : ConnectorError) : string :=
  match e with
  | Codec format source => "codec error (" +:+ format +:+ "): " +:+ source
  | BackPressure => "connector back pressure (outbound bridge saturated)"
  | PayloadOverflow actual max =>
      "payload overflow: encoded size " +:+ pretty actual +:+ " exceeds channel max " +:+ pretty max
  | Configuration msg => "invalid descriptor: " +:+ msg
  | Dispatch.Down reason => "connector down: " +:+ reason
  | Stack source => "stack error: " +:+ source
  end.

(** ** Health *)

(** The current state, the drop latch and everything broadcast. *)
Record EthercatHealthMonitor := MkHealth {
  inner : ConnHealth.HealthMonitor;
  degraded_due_to_drops : bool;
  broadcasts : list ConnHealth.HealthEvent;
}.
Definition health_new (now : Z) : EthercatHealthMonitor := MkHealth (ConnHealth.monitor_new now) false [].

Definition transition_to (h : EthercatHealthMonitor) (target : ConnHealth.ConnectorHealth) (now : Z)
    : EthercatHealthMonitor * (ConnHealth.HealthEvent + ConnHealth.IllegalTransition) :=
  match ConnHealth.try_transition_to (inner h) target now with
  | inr e => (h, inr e)
  | inl (i, ev) =>
      (MkHealth i
         (if bool_decide (ConnHealth.kind (ConnHealth.ev_to ev) = ConnHealth.KUp) then false else degraded_due_to_drops h)
         (broadcasts h ++ [ev]), inl ev)
  end.

Definition record_inbound_drop (h : EthercatHealthMonitor) (count threshold : N) (now : Z)
    : EthercatHealthMonitor * option ConnHealth.HealthEvent :=
  if (count <? threshold)%N || degraded_due_to_drops h then (h, None)
  else if negb (bool_decide (ConnHealth.kind (inner h) = ConnHealth.KUp))
  then (MkHealth (inner h) true (broadcasts h), None)
  else
    match ConnHealth.try_transition_to (inner h)
            (ConnHealth.Degraded ("dropped " +:+ pretty count +:+ " inbound frames")) now with
    | inr _ => (h, None)
    | inl (i, ev) => (MkHealth i true (broadcasts h ++ [ev]), Some ev)
    end.

(** ** Pacing *)

Inductive CycleDecision := Fire | Skip.
Record CycleScheduler := MkScheduler { interval : Z; last_tick : option Z }.
Definition scheduler_new (interval : Z) : CycleScheduler := MkScheduler interval None.
(** [duration_since] is zero for an earlier instant. *)
Definition poll (s : CycleScheduler) (now : Z) : CycleScheduler * CycleDecision :=
  let should_fire :=
    match last_tick s with
    | None => true
    | Some prev => interval s <=? Z.max 0 (now - prev)
    end in
  if should_fire then (MkScheduler (interval s) (Some now), Fire) else (s, Skip).

(** ** Working counter *)

Inductive WkcVerdict := Match | Mismatch (observed expected : Z).
Definition degraded_reason (v : WkcVerdict) (cycle_index : Z) : option string :=
  match v with
  | Match => None
  | Mismatch observed expected =>
      Some ("working counter below expected: cycle " +:+ pretty cycle_index +:+ ", observed "
            +:+ pretty observed +:+ ", expected " +:+ pretty expected)
  end.
Definition evaluate_wkc (expected observed : Z) : WkcVerdict :=
  if expected <=? observed then Match else Mismatch observed expected.

(** ** Drivers *)

Record BringUp := MkBringUp { b_expected_wkc : Z; subdevice_count : nat }.
(** [BusDriver]; the callback of [with_subdevice_outputs_mut] is a read of the
    device's outputs and a write of what it leaves there. *)
Class BusDriver (D : Type) := {
  bring_up : D → D * (BringUp + ConnectorError);
  cycle : D → D * (Z + ConnectorError);
  recover : D → D * (BringUp + ConnectorError);
  outputs : D → Z → option (list Z);
  set_outputs : D → Z → list Z → D;
  inputs : D → Z → option (list Z);
}.
(** What clients rely on: images are byte slices, and storing outputs changes the
    outputs of that device only. *)
Class BusDriverLaws (D : Type) `{BusDriver D} := {
  driver_ok : D → Prop;
  outputs_ok d a buf : driver_ok d → outputs d a = Some buf → is_bytes buf ∧ small buf;
  inputs_ok d a buf : driver_ok d → inputs d a = Some buf → is_bytes buf ∧ small buf;
  set_outputs_ok d a buf : driver_ok d → is_bytes buf → small buf → driver_ok (set_outputs d a buf);
  cycle_ok d : driver_ok d → driver_ok (fst (cycle d));
  recover_ok d : driver_ok d → driver_ok (fst (recover d));
  bring_up_ok d : driver_ok d → driver_ok (fst (bring_up d));
  set_outputs_same d a buf old : outputs d a = Some old → outputs (set_outputs d a buf) a = Some buf;
  set_outputs_other d a a' buf : a ≠ a' → outputs (set_outputs d a buf) a' = outputs d a';
  set_outputs_inputs d a a' buf : inputs (set_outputs d a buf) a' = inputs d a';
}.

(** ** Channels *)

Record RegisteredChannel := MkEcatChan {
  c_name : string;
  c_routing : EthercatRouting;
  c_direction : PdoDirection;
  c_binding : ChannelBinding;
}.
Abbreviation Channels := (list RegisteredChannel).
Definition register (g : Channels) (name : string) (r : EthercatRouting) (d : PdoDirection) (b : ChannelBinding) : Channels * nat :=
  (g ++ [MkEcatChan name r d b], length g).
Definition registry_get (g : Channels) (h : nat) : option RegisteredChannel := g !! h.
Definition rebind (c : RegisteredChannel) (b : ChannelBinding) : RegisteredChannel :=
  MkEcatChan (c_name c) (c_routing c) (c_direction c) b.

(** What the application does to the registry: it creates channels and publishes on
    outbound ones. *)
Inductive app_action := Register (c : RegisteredChannel) | Publish (h : nat) (e : envelope).
Definition act (g : list RegisteredChannel) (a : app_action) : list RegisteredChannel :=
  match a with
  | Register c => g ++ [c]
  | Publish h e =>
      alter (λ c, match c_binding c with BoundOut l => rebind c (BoundOut (l ++ [e])) | _ => c end) h g
  end.
Definition acts (g : list RegisteredChannel) (l : list app_action) : list RegisteredChannel := foldl act g l.

(** ** The runner *)

Record CycleReport := MkReport { r_cycle_index : Z; working_counter : Z; r_verdict : WkcVerdict }.

(** [CycleRunner] with the registry its dispatcher shares.  [cycle_index] does not
    reach the end of its 64 bits. *)
Record Gw {D : Type} := MkGw {
  g_driver : D;
  g_scheduler : CycleScheduler;
  g_health : EthercatHealthMonitor;
  expected_wkc : Z;
  cycle_index : Z;
  g_registry : Channels;
}.
Arguments Gw : clear implicits.

Inductive outcome (A : Type) := Done (a : A) | Failed (e : ConnectorError) | Waiting.
Arguments Done {A}.
Arguments Failed {A}.
Arguments Waiting {A}.

Section runner.
Context {D P : Type} `{BusDriver D} `{CanConn.ReconnectPolicy P} (new_reconnect_policy : P).

Definition set_driver (s : Gw D) x := MkGw D x (g_scheduler s) (g_health s) (expected_wkc s) (cycle_index s) (g_registry s).
Definition set_scheduler (s : Gw D) x := MkGw D (g_driver s) x (g_health s) (expected_wkc s) (cycle_index s) (g_registry s).
Definition set_health (s : Gw D) x := MkGw D (g_driver s) (g_scheduler s) x (expected_wkc s) (cycle_index s) (g_registry s).
Definition set_expected (s : Gw D) x := MkGw D (g_driver s) (g_scheduler s) (g_health s) x (cycle_index s) (g_registry s).
Definition set_cycle_index (s : Gw D) x := MkGw D (g_driver s) (g_scheduler s) (g_health s) (expected_wkc s) x (g_registry s).
Definition set_registry (s : Gw D) x := MkGw D (g_driver s) (g_scheduler s) (g_health s) (expected_wkc s) (cycle_index s) x.

(** [let _ = health.transition_to(target)]. *)
Definition move (s : Gw D) (target : ConnHealth.ConnectorHealth) (now : Z) : Gw D :=
  set_health s (fst (transition_to (g_health s) target now)).

(** [CycleRunner::new], on the monitor and the registry of the connector. *)
Definition runner_new (d : D) (cycle_time : Z) (h : EthercatHealthMonitor)
    (g : Channels) (now : Z)
    : (Gw D) + (EthercatHealthMonitor * ConnectorError) :=
  match bring_up d with
  | (d, inl b) =>
      inl (MkGw D d (scheduler_new cycle_time) (fst (transition_to h ConnHealth.Up now)) (b_expected_wkc b) 0 g)
  | (_, inr e) => inr (h, e)
  end.

Definition apply_verdict (s : Gw D) (v : WkcVerdict) (now : Z) : Gw D :=
  match v with
  | Match =>
      if bool_decide (ConnHealth.kind (inner (g_health s)) = ConnHealth.KUp) then s else move s ConnHealth.Up now
  | Mismatch _ _ =>
      match degraded_reason v (cycle_index s) with
      | Some reason => move s (ConnHealth.Degraded reason) now
      | None => s
      end
  end.

(** The recovery loop, for up to [attempts] consultations of the policy. *)
Fixpoint recover_loop (attempts : nat) (p : P) (now : Z) (s : Gw D) : Gw D * outcome unit :=
  match attempts with
  | O => (s, Waiting)
  | S attempts =>
      match CanConn.next_backoff p with
      | (_, None) =>
          let reason := "reconnect policy exhausted" in
          (move s (ConnHealth.Down reason now) now, Failed (Dispatch.Down reason))
      | (p, Some _) =>
          let s := move s (ConnHealth.Connecting now) now in
          match recover (g_driver s) with
          | (d, inl b) => (move (set_expected (set_driver s d) (b_expected_wkc b)) ConnHealth.Up now, Done tt)
          | (d, inr e) =>
              recover_loop attempts p now
                (move (set_driver s d) (ConnHealth.Degraded ("recover failed: " +:+ display e)) now)
          end
      end
  end.
Definition recover_per_policy (attempts : nat) (now : Z) (s : Gw D) : Gw D * outcome unit :=
  recover_loop attempts new_reconnect_policy now s.

Definition tick (attempts : nat) (now : Z) (s : Gw D) : Gw D * outcome (option CycleReport) :=
  let '(sch, decision) := poll (g_scheduler s) now in
  let s := set_scheduler s sch in
  match decision with
  | Skip => (s, Done None)
  | Fire =>
      match cycle (g_driver s) with
      | (d, inl wc) =>
          let s := set_driver s d in
          let v := evaluate_wkc (expected_wkc s) wc in
          let s := apply_verdict s v now in
          (set_cycle_index s (cycle_index s + 1), Done (Some (MkReport (cycle_index s) wc v)))
      | (d, inr e) =>
          let s := move (set_driver s d) (ConnHealth.Degraded ("cycle failed: " +:+ display e)) now in
          match recover_per_policy attempts now s with
          | (s, Done _) => (s, Done None)
          | (s, Failed e) => (s, Failed e)
          | (s, Waiting) => (s, Waiting)
          end
      end
  end.

(** ** The dispatcher *)

Definition MAX_INBOUND_PAYLOAD : Z := 4096.

Definition publish_bytes (p : InboundPublish) (h : EthercatHealthMonitor) (bytes : list Z) (now : Z)
    : InboundPublish * EthercatHealthMonitor * option ConnectorError :=
  match bridge_try_send p with
  | (p, None) => let '(p, r) := send_raw_bytes (bridge_try_recv p) bytes in (p, h, r)
  | (p, Some count) => (p, fst (record_inbound_drop h count (threshold p) now), None)
  end.

Definition missing (address : Z) (direction : string) : ConnectorError :=
  Stack ("ethercat dispatcher: no SubDevice at address " +:+ pretty address +:+ " for " +:+ direction +:+ " PDI access").

(** The drain loop of one channel: the envelopes left, the driver, and the count. *)
Fixpoint drain_channel (r : EthercatRouting) (pending : list envelope) (d : D)
    : res (list envelope * D * (nat + ConnectorError)) :=
  match pending with
  | [] => Ok ([], d, inl 0%nat)
  | env :: pending =>
      match drain_into env MAX_INBOUND_PAYLOAD with
      | inr e => Ok (pending, d, inr e)
      | inl None => Ok (pending, d, inl 0%nat)
      | inl (Some payload) =>
          match outputs d (subdevice_address r) with
          | None => Ok (pending, d, inr (missing (subdevice_address r) "outputs"))
          | Some buf =>
              w ← write_routing buf r payload;
              match w with
              | inr e => Ok (pending, d, inr e)
              | inl buf =>
                  '(pending, d, n) ← drain_channel r pending (set_outputs d (subdevice_address r) buf);
                  Ok (pending, d, match n with inl n => inl (S n) | inr e => inr e end)
              end
          end
      end
  end.

Fixpoint outbound_loop (g : Channels) (d : D) : res (Channels * D * (nat + ConnectorError)) :=
  match g with
  | [] => Ok ([], d, inl 0%nat)
  | c :: g =>
      match c_direction c, c_binding c with
      | Rx, BoundOut pending =>
          '(pending, d, n) ← drain_channel (c_routing c) pending d;
          let c := rebind c (BoundOut pending) in
          match n with
          | inr e => Ok (c :: g, d, inr e)
          | inl n =>
              '(g, d, m) ← outbound_loop g d;
              Ok (c :: g, d, match m with inl m => inl (n + m)%nat | inr e => inr e end)
          end
      | _, _ => '(g, d, m) ← outbound_loop g d; Ok (c :: g, d, m)
      end
  end.
Definition dispatch_outbound (s : Gw D) : res (Gw D * outcome nat) :=
  '(g, d, n) ← outbound_loop (g_registry s) (g_driver s);
  Ok (set_registry (set_driver s d) g, match n with inl n => Done n | inr e => Failed e end).

Fixpoint inbound_loop (g : Channels) (d : D) (h : EthercatHealthMonitor) (now : Z)
    : res (Channels * EthercatHealthMonitor * (nat + ConnectorError)) :=
  match g with
  | [] => Ok ([], h, inl 0%nat)
  | c :: g =>
      let r := c_routing c in
      match c_direction c, c_binding c with
      | Tx, BoundIn p =>
          if bit_length r =? 0 then '(g, h, m) ← inbound_loop g d h now; Ok (c :: g, h, m)
          else
            let payload_len := div_ceil (bit_length r) 8 in
            if MAX_INBOUND_PAYLOAD <? payload_len
            then Ok (c :: g, h, inr (PayloadOverflow payload_len MAX_INBOUND_PAYLOAD))
            else
              match inputs d (subdevice_address r) with
              | None => Ok (c :: g, h, inr (missing (subdevice_address r) "inputs"))
              | Some buf =>
                  w ← read_routing buf r (replicate (Z.to_nat payload_len) 0);
                  match w with
                  | inr e => Ok (c :: g, h, inr e)
                  | inl bytes =>
                      let '(p, h, e) := publish_bytes p h bytes now in
                      let c := rebind c (BoundIn p) in
                      match e with
                      | Some e => Ok (c :: g, h, inr e)
                      | None =>
                          '(g, h, m) ← inbound_loop g d h now;
                          Ok (c :: g, h, match m with inl m => inl (S m) | inr e => inr e end)
                      end
                  end
              end
      | _, _ => '(g, h, m) ← inbound_loop g d h now; Ok (c :: g, h, m)
      end
  end.
Definition dispatch_inbound (now : Z) (s : Gw D) : res (Gw D * outcome nat) :=
  '(g, h, n) ← inbound_loop (g_registry s) (g_driver s) (g_health s) now;
  Ok (set_health (set_registry s g) h, match n with inl n => Done n | inr e => Failed e end).

Record DispatchReport := MkDispatch { outbound_envelopes : nat; inbound_envelopes : nat; d_cycle : option CycleReport }.

(** [late] is what the application does while the bus exchange is in flight, when
    the registry is not locked. *)
Definition dispatch_one_cycle (attempts : nat) (now : Z) (late : list app_action) (s : Gw D) : res (Gw D * outcome DispatchReport) :=
  '(s, o) ← dispatch_outbound s;
  match o with
  | Failed e => Ok (s, Failed e)
  | Waiting => Ok (s, Waiting)
  | Done n =>
      let '(s, t) := tick attempts now s in
      let s := set_registry s (acts (g_registry s) late) in
      match t with
      | Failed e => Ok (s, Failed e)
      | Waiting => Ok (s, Waiting)
      | Done None => Ok (s, Done (MkDispatch n 0 None))
      | Done (Some c) =>
          '(s, m) ← dispatch_inbound now s;
          Ok (s, match m with Done m => Done (MkDispatch n m (Some c)) | Failed e => Failed e | Waiting => Waiting end)
      end
  end.

(** The environment of one iteration: the stop flag, the instant, and what the
    application does before and during it. *)
Record cycle_input := MkCycleInput {
  i_stop : bool;
  i_now : Z;
  i_before : list app_action;
  i_late : list app_action;
  i_attempts : nat;
}.
Fixpoint dispatcher_loop (ins : list cycle_input) (s : Gw D) : res (Gw D * outcome unit) :=
  match ins with
  | [] => Ok (s, Waiting)
  | i :: ins =>
      let s := set_registry s (acts (g_registry s) (i_before i)) in
      if i_stop i then Ok (s, Done tt)
      else
        '(s, o) ← dispatch_one_cycle (i_attempts i) (i_now i) (i_late i) s;
        match o with
        | Done _ => dispatcher_loop ins s
        | Failed e => Ok (s, Failed e)
        | Waiting => Ok (s, Waiting)
        end
  end.

(** The task [register_with] spawns. *)
Definition dispatcher_task (d : D) (cycle_time : Z) (h : EthercatHealthMonitor) (g : Channels) (now : Z) (ins : list cycle_input)
    : res (Channels * EthercatHealthMonitor) :=
  match runner_new d cycle_time h g now with
  | inr (h, e) => Ok (g, fst (transition_to h (ConnHealth.Down ("bring-up failed: " +:+ display e) now) now))
  | inl s => '(s, _) ← dispatcher_loop ins s; Ok (g_registry s, g_health s)
  end.

End runner.

(** ** The mock driver *)

Inductive CycleKind := Plain | Dc.
Record MockBusDriver := MkMock {
  bring_up_fails : option string;
  bring_up_response : BringUp;
  bring_up_calls : Z;
  wkc_sequence : list Z;
  default_cycle_wkc : Z;
  cycle_calls : Z;
  loopback : bool;
  recovery_sequence : list (BringUp + string);
  recover_calls : Z;
  cycle_kind : CycleKind;
  cycle_kinds : list CycleKind;
  cycle_err_after : option (Z * string);
  subdevice_outputs : gmap Z (list Z);
  subdevice_inputs : gmap Z (list Z);
}.
Definition mock_new : MockBusDriver :=
  MkMock None (MkBringUp 3 1) 0 [] 3 0 false [] 0 Plain [] None ∅ ∅.

Definition mock_bring_up (m : MockBusDriver) : MockBusDriver * (BringUp + ConnectorError) :=
  (MkMock None (bring_up_response m) (bring_up_calls m + 1) (wkc_sequence m) (default_cycle_wkc m) (cycle_calls m)
     (loopback m) (recovery_sequence m) (recover_calls m) (cycle_kind m) (cycle_kinds m) (cycle_err_after m)
     (subdevice_outputs m) (subdevice_inputs m),
   match bring_up_fails m with
   | Some reason => inr (Dispatch.Down reason)
   | None => inl (bring_up_response m)
   end).

(** With [loopback] each device's outputs are copied over its inputs. *)
Definition mock_cycle (m : MockBusDriver) : MockBusDriver * (Z + ConnectorError) :=
  let calls := cycle_calls m + 1 in
  let '(err, pending) :=
    match cycle_err_after m with
    | Some (target, reason) => if calls =? target then (Some reason, None) else (None, cycle_err_after m)
    | None => (None, None)
    end in
  match err with
  | Some reason =>
      (MkMock (bring_up_fails m) (bring_up_response m) (bring_up_calls m) (wkc_sequence m) (default_cycle_wkc m) calls
         (loopback m) (recovery_sequence m) (recover_calls m) (cycle_kind m) (cycle_kinds m) pending
         (subdevice_outputs m) (subdevice_inputs m),
       inr (Dispatch.Down reason))
  | None =>
      let '(wkc, rest) := match wkc_sequence m with w :: l => (w, l) | [] => (default_cycle_wkc m, []) end in
      (MkMock (bring_up_fails m) (bring_up_response m) (bring_up_calls m) rest (default_cycle_wkc m) calls
         (loopback m) (recovery_sequence m) (recover_calls m) (cycle_kind m) (cycle_kinds m ++ [cycle_kind m]) pending
         (subdevice_outputs m)
         (if loopback m then subdevice_outputs m ∪ subdevice_inputs m else subdevice_inputs m),
       inl wkc)
  end.

Definition mock_recover (m : MockBusDriver) : MockBusDriver * (BringUp + ConnectorError) :=
  (MkMock (bring_up_fails m) (bring_up_response m) (bring_up_calls m) (wkc_sequence m) (default_cycle_wkc m) (cycle_calls m)
     (loopback m) (tail (recovery_sequence m)) (recover_calls m + 1) (cycle_kind m) (cycle_kinds m) (cycle_err_after m)
     (subdevice_outputs m) (subdevice_inputs m),
   match recovery_sequence m with
   | inl b :: _ => inl b
   | inr reason :: _ => inr (Dispatch.Down reason)
   | [] => inl (bring_up_response m)
   end).

Definition mock_set_outputs (m : MockBusDriver) (a : Z) (buf : list Z) : MockBusDriver :=
  MkMock (bring_up_fails m) (bring_up_response m) (bring_up_calls m) (wkc_sequence m) (default_cycle_wkc m) (cycle_calls m)
    (loopback m) (recovery_sequence m) (recover_calls m) (cycle_kind m) (cycle_kinds m) (cycle_err_after m)
    (alter (λ _, buf) a (subdevice_outputs m)) (subdevice_inputs m).

#[export] Instance mock_driver : BusDriver MockBusDriver := {
  bring_up := mock_bring_up;
  cycle := mock_cycle;
  recover := mock_recover;
  outputs m a := subdevice_outputs m !! a;
  set_outputs := mock_set_outputs;
  inputs m a := subdevice_inputs m !! a;
}.

(** ** Creating channels *)

(** Whether the shared-memory services can be created is an input, as in
    [CanConn.create_writer]; the port takes [n] bytes. *)
Definition ecat_create_writer (service_ok : option ConnectorError) (g : Channels) (name : string) (r : EthercatRouting)
    : Channels * option ConnectorError :=
  match pdo_direction r with
  | Tx => (g, Some (Configuration "create_writer requires an RxPDO routing"))
  | Rx =>
      match service_ok with
      | Some e => (g, Some e)
      | None => (fst (register g name r Rx (BoundOut [])), None)
      end
  end.
Definition ecat_create_reader (inbound_capacity : nat) (inbound_drop_threshold : N) (n : Z) (service_ok : option ConnectorError)
    (iox_ok : nat → bool) (g : Channels) (name : string) (r : EthercatRouting) : Channels * option ConnectorError :=
  match pdo_direction r with
  | Rx => (g, Some (Configuration "create_reader requires a TxPDO routing"))
  | Tx =>
      match service_ok with
      | Some e => (g, Some e)
      | None =>
          (fst (register g name r Tx
             (BoundIn (MkPublish (inbound_capacity `max` 1) 0 0 inbound_drop_threshold n iox_ok []))), None)
      end
  end.

End EcatRunner.
