(* ===== verification/EcatRunnerOk.v ===== *)
(** * Properties of the EtherCAT cycle

    The health of the connector follows the bus in every reachable state, cycles and
    recovery episodes return, and what is written to outbound channels is on the
    process image, bit by bit, when the inbound channels are served. *)

From stdpp Require Import base gmap strings list relations.
From Stdlib Require Import ZArith Lia.
From S2P Require Import Prelude IdlBits J1939Dispatch J1939DispatchNet ConnHealth CanConn EcatPdi EcatRunner.

Module EcatRunnerOk.
Import IdlBits Dispatch EcatPdi EcatRunner.

#[local] Existing Instance ConnHealth.kind_eq_dec.

(** ** The mock driver is a bus driver *)

Definition images_ok (m : gmap Z (list Z)) : Prop := map_Forall (λ _ buf, is_bytes buf ∧ small buf) m.

#[export] Program Instance mock_laws : BusDriverLaws MockBusDriver := {
  driver_ok m := images_ok (subdevice_outputs m) ∧ images_ok (subdevice_inputs m);
}.
Next Obligation. intros m a buf [Ho _] Hb. by apply (Ho a). Qed.
Next Obligation. intros m a buf [_ Hi] Hb. by apply (Hi a). Qed.
Next Obligation.
  intros m a buf [Ho Hi] Hb Hs. split; [|done]. intros a' buf'. simpl. rewrite lookup_alter_Some.
  intros [(-> & x & Hx & ->)|[_ Hx]]; [done|by apply (Ho a')].
Qed.
Next Obligation.
  intros m [Ho Hi]. simpl. unfold mock_cycle.
  destruct (match cycle_err_after m with Some _ => _ | None => _ end) as [[reason|] pending]; [done|].
  destruct (wkc_sequence m); simpl; (split; [done|]); destruct (loopback m); try done; by apply map_Forall_union_2.
Qed.
Next Obligation. done. Qed.
Next Obligation. done. Qed.
Next Obligation. intros m a buf old Hb. simpl in *. by rewrite lookup_alter_eq, Hb. Qed.
Next Obligation. intros m a a' buf Ha. simpl. by rewrite lookup_alter_ne. Qed.
Next Obligation. done. Qed.

(** ** Health along a cycle *)

Section health.
Context {D P : Type} `{BusDriverLaws D} `{CanConn.ReconnectPolicy P} (policy : P).

Abbreviation health_kind s := (ConnHealth.kind (inner (g_health s))).

Lemma move_kind k (s : Gw D) target now :
  health_kind s = k → ConnHealth.is_legal_transition k (ConnHealth.kind target) = true →
  health_kind (move s target now) = ConnHealth.kind target.
Proof. intros <- Hl. unfold move, transition_to, ConnHealth.try_transition_to. by rewrite Hl. Qed.
Lemma degrade_kind (s : Gw D) reason now :
  health_kind s = ConnHealth.KUp ∨ health_kind s = ConnHealth.KDegraded →
  health_kind (move s (ConnHealth.Degraded reason) now) = ConnHealth.KDegraded.
Proof.
  intros [Hl|Hl]; [by eapply move_kind|]. unfold move, transition_to, ConnHealth.try_transition_to. rewrite Hl. simpl. exact Hl.
Qed.

(** The parts of the state a runner step leaves alone. *)
Definition keeps (s s' : Gw D) : Prop := g_registry s' = g_registry s ∧ cycle_index s' = cycle_index s.
Lemma move_keeps s target now : keeps s (move s target now).
Proof. done. Qed.

(** The policy gives up after at most [n] delays. *)
Fixpoint exhausts (n : nat) (p : P) : Prop :=
  match CanConn.next_backoff p with
  | (_, None) => True
  | (p, Some _) => match n with O => False | S n => exhausts n p end
  end.

(** A recovery episode ends operational with the working counter of the recovered
    bus, or down with the policy exhausted. *)
Definition recovered (s' : Gw D) (o : outcome unit) : Prop :=
  match o with
  | Done _ => health_kind s' = ConnHealth.KUp
  | Failed e => health_kind s' = ConnHealth.KDown ∧ e = Dispatch.Down "reconnect policy exhausted"
  | Waiting => health_kind s' = ConnHealth.KDegraded
  end.

Lemma recover_loop_spec attempts p now s s' o :
  health_kind s = ConnHealth.KDegraded → driver_ok (g_driver s) → recover_loop attempts p now s = (s', o) →
  keeps s s' ∧ driver_ok (g_driver s') ∧ g_scheduler s' = g_scheduler s ∧ recovered s' o
  ∧ (∀ n, exhausts n p → (n < attempts)%nat → o ≠ Waiting).
Proof.
  revert p s. induction attempts as [|attempts IH]; intros p s Hk Hd; cbn [recover_loop].
  { intros [= <- <-]. split_and!; [done..|]. intros n _ Hn. lia. }
  destruct (CanConn.next_backoff p) as [p' [delay|]] eqn:Ep.
  - set (s1 := move s _ now). assert (Hk1 : health_kind s1 = ConnHealth.KConnecting) by (by eapply move_kind).
    pose proof (recover_ok (g_driver s1) Hd) as Hr. destruct (recover (g_driver s1)) as [d [b|e]]; simpl in Hr.
    + intros [= <- <-]. split_and!; [done..| |done]. apply (move_kind ConnHealth.KConnecting); [exact Hk1|done].
    + set (s2 := move _ _ now). intros E. assert (Hk2 : health_kind s2 = ConnHealth.KDegraded)
        by (apply (move_kind ConnHealth.KConnecting); [exact Hk1|done]).
      destruct (IH p' s2 Hk2 Hr E) as ([Hg Hc] & Hd' & Hs & Hrec & Hn). split_and!; [by split|done..|].
      intros n Hex Hlt. destruct n as [|n]; simpl in Hex; rewrite Ep in Hex; [done|]. apply (Hn n); [done|lia].
  - intros [= <- <-]. split_and!; [done..| |done]. split; [|done]. by eapply move_kind.
Qed.

(** Between cycles the connector is [Up] or [Degraded]. *)
Definition live (s : Gw D) : Prop := health_kind s = ConnHealth.KUp ∨ health_kind s = ConnHealth.KDegraded.

Definition bus_kind (expected observed : Z) : ConnHealth.ConnectorHealthKind :=
  if expected <=? observed then ConnHealth.KUp else ConnHealth.KDegraded.

Lemma apply_verdict_spec s wc now :
  live s → keeps s (apply_verdict s (evaluate_wkc (expected_wkc s) wc) now)
  ∧ health_kind (apply_verdict s (evaluate_wkc (expected_wkc s) wc) now) = bus_kind (expected_wkc s) wc.
Proof.
  intros Hl. unfold evaluate_wkc, bus_kind. destruct (Z.leb_spec (expected_wkc s) wc); cbn [apply_verdict].
  - case_bool_decide as Hk; [done|]. split; [done|]. destruct Hl as [Hl|Hl]; [done|]. by eapply move_kind.
  - cbn [degraded_reason]. split; [done|]. by apply degrade_kind.
Qed.

(** What a tick reports, and the health it leaves. *)
Definition paced (s s' : Gw D) (now : Z) : Prop :=
  (∀ prev, last_tick (g_scheduler s) = Some prev → interval (g_scheduler s) ≤ Z.max 0 (now - prev))
  ∧ last_tick (g_scheduler s') = Some now.
Definition ticked (now : Z) (s s' : Gw D) (o : outcome (option CycleReport)) : Prop :=
  match o with
  | Done (Some r) =>
      paced s s' now ∧ r_cycle_index r = cycle_index s ∧ r_verdict r = evaluate_wkc (expected_wkc s) (working_counter r)
      ∧ cycle_index s' = cycle_index s + 1 ∧ health_kind s' = bus_kind (expected_wkc s) (working_counter r)
  | Done None => cycle_index s' = cycle_index s ∧ (health_kind s' = health_kind s ∨ health_kind s' = ConnHealth.KUp)
  | Failed e => health_kind s' = ConnHealth.KDown ∧ e = Dispatch.Down "reconnect policy exhausted"
  | Waiting => health_kind s' = ConnHealth.KDegraded
  end.

Lemma tick_spec attempts now s s' o :
  live s → driver_ok (g_driver s) → tick policy attempts now s = (s', o) →
  g_registry s' = g_registry s ∧ driver_ok (g_driver s') ∧ ticked now s s' o
  ∧ (∀ n, exhausts n policy → (n < attempts)%nat → o ≠ Waiting).
Proof.
  intros Hl Hd. unfold tick. destruct (poll (g_scheduler s) now) as [sch []] eqn:Ep; [|intros [= <- <-]; split; [done|split; [done|split; [|done]]]; split; [done|by left]].
  pose proof (cycle_ok (g_driver s) Hd) as Hc. cbn. destruct (cycle (g_driver s)) as [d [wc|e]]; simpl in Hc.
  - set (s1 := set_driver _ d). destruct (apply_verdict_spec s1 wc now Hl) as [[Hr Hi] Hk].
    set (s2 := apply_verdict _ _ now) in *. intros [= <- <-]. split; [exact Hr|]. split; [|split; [|done]].
    + unfold s2, apply_verdict, evaluate_wkc. simpl. destruct (_ <=? _); [by case_bool_decide|exact Hc].
    + cbn [ticked r_cycle_index r_verdict working_counter].
      assert (Hs2 : g_scheduler s2 = sch).
      { unfold s2, apply_verdict, evaluate_wkc. destruct (_ <=? _); [by case_bool_decide|done]. }
      assert (Hp : paced s (set_cycle_index s2 (cycle_index s2 + 1)) now).
      { unfold paced. cbn [set_cycle_index g_scheduler]. rewrite Hs2. unfold poll in Ep.
        destruct (last_tick (g_scheduler s)) as [prev|]; [|by injection Ep as <-].
        destruct (Z.leb_spec (interval (g_scheduler s)) (Z.max 0 (now - prev))); [|done]. injection Ep as <-. naive_solver. }
      split_and!; [exact Hp|exact Hi|done|exact (f_equal (λ x, x + 1) Hi)|exact Hk].
  - set (s1 := move _ _ now). assert (Hk : health_kind s1 = ConnHealth.KDegraded) by (by apply degrade_kind).
    unfold recover_per_policy. destruct (recover_loop attempts policy now s1) as [s2 r] eqn:E.
    apply recover_loop_spec in E as ([Hr Hi] & Hd2 & Hs & Hrec & Hn); [|done..].
    destruct r as [u|e'|]; intros [= <- <-]; split_and!; try done.
    + split; [done|]. by right.
    + intros n Hex Hlt. by destruct (Hn n Hex Hlt).
Qed.

End health.

(** ** The two passes *)

Section passes.
Context {D : Type} `{BusDriverLaws D}.

Definition env_ok (e : envelope) : Prop := match e with Valid v => is_bytes v | _ => True end.
Definition chan_ok (c : RegisteredChannel) : Prop :=
  routing_ok (c_routing c)
  ∧ match c_binding c with
    | BoundOut pending => Forall env_ok pending
    | BoundIn p => queued p = 0%nat ∧ (1 ≤ capacity p)%nat
    | Unbound => True
    end.

(** [d'] is [d] with outputs stored. *)
Definition stores : D → D → Prop := rtc (λ d d', ∃ a buf, d' = set_outputs d a buf).

Lemma drain_payload_small v bytes :
  drain_into v MAX_INBOUND_PAYLOAD = inl (Some bytes) → v = Valid bytes ∧ small bytes.
Proof.
  destruct v as [b| |]; cbn; try done. destruct (Z.gtb_spec (len b) MAX_INBOUND_PAYLOAD); intros [= ->].
  split; [done|]. unfold small, MAX_INBOUND_PAYLOAD in *. lia.
Qed.

Lemma drain_channel_total r pending d :
  routing_ok r → Forall env_ok pending → driver_ok d →
  wp (drain_channel r pending d) (λ x, Forall env_ok x.1.1 ∧ driver_ok x.1.2).
Proof.
  intros Hr Hp. revert d. induction Hp as [|e pending He Hp IH]; intros d Hd; cbn [drain_channel]; [by apply wp_Ok|].
  destruct (drain_into e MAX_INBOUND_PAYLOAD) as [[bytes|]|err] eqn:E; [|by apply wp_Ok..].
  apply drain_payload_small in E as [-> Hs]. destruct (outputs d (subdevice_address r)) as [buf|] eqn:Eo; [|by apply wp_Ok].
  destruct (outputs_ok _ _ _ Hd Eo) as [Hb Hsm]. wp_step. eapply wp_mono; [by apply write_total|]. intros [buf'|err] Hw; [|by apply wp_Ok].
  destruct Hw as [Hl Hb']. wp_step. eapply wp_mono; [apply IH, set_outputs_ok; try done; unfold small, len in *; lia|].
  intros [[pending' d'] n] Hx. by apply wp_Ok.
Qed.

Lemma outbound_total (g : Channels) d :
  Forall chan_ok g → driver_ok d → wp (outbound_loop g d) (λ x, Forall chan_ok x.1.1 ∧ driver_ok x.1.2).
Proof.
  intros Hg. revert d. induction Hg as [|c g Hc Hg IH]; intros d Hd; cbn [outbound_loop]; [by apply wp_Ok|].
  assert (Hskip : wp ('(g, d, m) ← outbound_loop g d; Ok (c :: g, d, m)) (λ x, Forall chan_ok x.1.1 ∧ driver_ok x.1.2)).
  { wp_step. eapply wp_mono; [by apply IH|]. intros [[g' d'] m] [Hg' Hd']. apply wp_Ok. split; [by constructor|done]. }
  destruct (c_direction c); [|exact Hskip]. destruct (c_binding c) as [|pending|p] eqn:Eb; [exact Hskip| |exact Hskip].
  pose proof Hc as [Hr Hp]. rewrite Eb in Hp. wp_step. eapply wp_mono; [by apply drain_channel_total|].
  intros [[pending' d'] n] [Hp' Hd']. assert (Hc' : chan_ok (rebind c (BoundOut pending'))) by done.
  destruct n as [n|e]; [|apply wp_Ok; split; [by constructor|done]].
  wp_step. eapply wp_mono; [by apply IH|]. intros [[g' d2] m] [Hg' Hd2]. apply wp_Ok. split; [by constructor|done].
Qed.

Lemma ecat_publish_drained p h bytes now :
  queued p = 0%nat → (1 ≤ capacity p)%nat →
  publish_bytes p h bytes now =
    if len bytes >? port_max p then (p, h, Some (PayloadOverflow (len bytes) (port_max p)))
    else if iox_ok p (length (published p)) then (DispatchNet.append_published p bytes, h, None)
    else (p, h, Some (Stack "send")).
Proof.
  intros Hq Hc. destruct p as [cap q dr th pm ok pub]. simpl in Hq, Hc. subst q. unfold publish_bytes, bridge_try_send. simpl.
  destruct cap as [|cap]; [lia|]. cbn. unfold send_raw_bytes. simpl. destruct (len bytes >? pm); [done|]. by destruct (ok (length pub)).
Qed.

Lemma inbound_total (g : Channels) d h now :
  Forall chan_ok g → driver_ok d → wp (inbound_loop g d h now) (λ x, Forall chan_ok x.1.1 ∧ x.1.2 = h).
Proof.
  intros Hg Hd. revert h. induction Hg as [|c g Hc Hg IH]; intros h; cbn [inbound_loop]; [by apply wp_Ok|].
  assert (Hskip : wp ('(g, h, m) ← inbound_loop g d h now; Ok (c :: g, h, m)) (λ x, Forall chan_ok x.1.1 ∧ x.1.2 = h)).
  { wp_step. eapply wp_mono; [by apply IH|]. intros [[g' h'] m] [Hg' Hh']. apply wp_Ok. split; [by constructor|done]. }
  destruct (c_direction c); [exact Hskip|]. destruct (c_binding c) as [|pending|p] eqn:Eb; [exact Hskip..|].
  pose proof Hc as [Hr Hp]. rewrite Eb in Hp. destruct Hp as [Hq Hcap]. destruct (bit_length (c_routing c) =? 0); [exact Hskip|].
  assert (Hhere : Forall chan_ok (c :: g)) by (by constructor).
  destruct (Z.ltb_spec MAX_INBOUND_PAYLOAD (div_ceil (bit_length (c_routing c)) 8)) as [Hlt|Hle]; [by apply wp_Ok|].
  destruct (inputs d _) as [buf|] eqn:Ei; [|by apply wp_Ok]. destruct (inputs_ok _ _ _ Hd Ei) as [Hb Hs].
  wp_step. eapply wp_mono; [apply read_total; try done|].
  { unfold small, len. rewrite length_replicate. unfold MAX_INBOUND_PAYLOAD in Hle. lia. }
  { apply Forall_replicate. unfold is_u. lia. }
  intros [bytes|e] Hw; [|by apply wp_Ok]. rewrite ecat_publish_drained by done.
  assert (Hput : ∀ p', queued p' = queued p → capacity p' = capacity p → chan_ok (rebind c (BoundIn p'))).
  { intros p' E1 E2. split; [done|]. simpl. by rewrite E1, E2. }
  destruct (len bytes >? port_max p); [apply wp_Ok; split; [constructor; [by apply Hput|done]|done]|].
  destruct (iox_ok p _); [|apply wp_Ok; split; [constructor; [by apply Hput|done]|done]].
  wp_step. eapply wp_mono; [by apply IH|]. intros [[g' h'] m] [Hg' Hh']. apply wp_Ok. split; [|done]. constructor; [by apply Hput|done].
Qed.

End passes.

(** ** The loop *)

Section loop.
Context {D P : Type} `{BusDriverLaws D} `{CanConn.ReconnectPolicy P} (policy : P).
Abbreviation health_kind s := (ConnHealth.kind (inner (g_health s))).

Definition action_ok (a : app_action) : Prop := match a with Register c => chan_ok c | Publish _ e => env_ok e end.
Lemma acts_ok g l : Forall chan_ok g → Forall action_ok l → Forall chan_ok (acts g l).
Proof.
  intros Hg Hl. revert g Hg. induction Hl as [|a l Ha Hl IH]; intros g Hg; [done|]. apply IH. destruct a as [c|h e]; cbn [act].
  - apply Forall_app. split; [done|]. by constructor.
  - apply Forall_lookup. intros i c. rewrite list_lookup_alter. rewrite Forall_lookup in Hg.
    destruct (decide (h = i)) as [<- |]; [|by apply Hg]. destruct (g !! h) as [c0|] eqn:E; [|done]. intros [= <-].
    specialize (Hg _ _ E) as [Hr Hb]. destruct (c_binding c0) as [|pending|p] eqn:Eb; [split; [done|by rewrite Eb]| |split; [done|by rewrite Eb]].
    split; [done|]. simpl. apply Forall_app. split; [done|]. by constructor.
Qed.

Definition gw_inv (s : Gw D) : Prop := live s ∧ driver_ok (g_driver s) ∧ Forall chan_ok (g_registry s).

(** What an iteration reports, and the health it leaves. *)
Definition reported (now : Z) (s s' : Gw D) (o : outcome DispatchReport) : Prop :=
  match o with
  | Done r =>
      gw_inv s'
      ∧ match d_cycle r with
        | Some c =>
            paced s s' now ∧ r_cycle_index c = cycle_index s ∧ cycle_index s' = cycle_index s + 1
            ∧ health_kind s' = bus_kind (expected_wkc s) (working_counter c)
        | None =>
            inbound_envelopes r = 0%nat ∧ cycle_index s' = cycle_index s
            ∧ (health_kind s' = health_kind s ∨ health_kind s' = ConnHealth.KUp)
        end
  | Failed e => (health_kind s' = ConnHealth.KDown ∧ e = Dispatch.Down "reconnect policy exhausted") ∨ live s'
  | Waiting => health_kind s' = ConnHealth.KDegraded
  end.

Lemma bus_kind_live (s : Gw D) expected observed : health_kind s = bus_kind expected observed → live s.
Proof. unfold bus_kind, live. destruct (_ <=? _); auto. Qed.

Lemma dispatch_total attempts now late s :
  gw_inv s → Forall action_ok late →
  wp (dispatch_one_cycle policy attempts now late s) (λ x, reported now s x.1 x.2
    ∧ ∀ n, exhausts n policy → (n < attempts)%nat → x.2 ≠ Waiting).
Proof.
  intros (Hl & Hd & Hc) Ha. unfold dispatch_one_cycle. wp_step. unfold dispatch_outbound. wp_step.
  eapply wp_mono; [by apply outbound_total|]. intros [[g d] [n|e]] [Hg Hd']; apply wp_Ok; [|apply wp_Ok; split; [by right|done]].
  set (s1 := set_registry _ g). destruct (tick policy attempts now s1) as [s2 t] eqn:Et.
  apply tick_spec in Et as (Hr & Hd2 & Ht & Hn); [|done..]. set (s3 := set_registry s2 _).
  assert (Hg3 : Forall chan_ok (g_registry s3)) by (simpl; rewrite Hr; by apply acts_ok).
  destruct t as [[c|]|e|]; [| |apply wp_Ok; split; [by left|done]|apply wp_Ok; split; [exact Ht|intros k ? ?; by destruct (Hn k)]].
  - wp_step. unfold dispatch_inbound. wp_step. eapply wp_mono; [by apply inbound_total|]. intros [[g' h] m] [Hg' Hh]. apply wp_Ok.
    cbn in Hh. subst h. destruct Ht as (Hp & Hi & _ & Hi' & Hk). apply bus_kind_live in Hk as Hl3.
    destruct m as [m|e]; (apply wp_Ok; split; [|done]); [|by right]. split; [by split_and!|]. by split_and!.
  - apply wp_Ok. split; [|done]. destruct Ht as [Hi Hk]. split.
    + split_and!; [|done|done]. destruct Hk as [Hk|Hk]; [|by left]. unfold live in *. simpl. by rewrite Hk.
    + by split_and!.
Qed.

(** The states at the head of the loop, for a connector created at [t0]. *)
Definition input_ok (i : cycle_input) : Prop := Forall action_ok (i_before i) ∧ Forall action_ok (i_late i).
Definition iterate (i : cycle_input) (s : Gw D) : res (Gw D * outcome DispatchReport) :=
  dispatch_one_cycle policy (i_attempts i) (i_now i) (i_late i) (set_registry s (acts (g_registry s) (i_before i))).
Inductive reach (d : D) (cycle_time t0 : Z) (g : Channels) : Gw D → Prop :=
| reach_new now s : runner_new d cycle_time (health_new t0) g now = inl s → reach d cycle_time t0 g s
| reach_cycle i s s' r :
    reach d cycle_time t0 g s → input_ok i → i_stop i = false → iterate i s = Ok (s', Done r) → reach d cycle_time t0 g s'.

Lemma iterate_total i s : gw_inv s → input_ok i →
  wp (iterate i s) (λ x, reported (i_now i) s x.1 x.2 ∧ ∀ n, exhausts n policy → (n < i_attempts i)%nat → x.2 ≠ Waiting).
Proof.
  intros (Hl & Hd & Hc) [Hb Ha]. eapply wp_mono; [apply dispatch_total; [|done]|].
  - split_and!; [done..|]. by apply acts_ok.
  - intros [s' o]. done.
Qed.

Lemma reach_gw_inv d cycle_time t0 g s : driver_ok d → Forall chan_ok g → reach d cycle_time t0 g s → gw_inv s.
Proof.
  intros Hd Hg Hr. induction Hr as [now s Hn|i s s' r Hr IH Hi _ Hs].
  - unfold runner_new in Hn. pose proof (bring_up_ok d Hd) as Hb. destruct (bring_up d) as [d' [b|e]]; [|done]. injection Hn as <-.
    split_and!; [by left|done|done].
  - pose proof (iterate_total i s IH Hi) as Ht. rewrite Hs in Ht. apply Ht.
Qed.

(** C25. In every state the dispatcher loop reaches, over any driver, policy and
    application, the next iteration returns without a panic.  If a cycle ran, it was
    at least an interval after the one before, and the connector is [Up] exactly if
    the working counter reached what the bus was brought up with, else [Degraded];
    otherwise the health is as before, or [Up] again after a recovery.  The loop ends
    [Down] with the reconnect policy exhausted, or with the error of a channel while
    the connector still reports [Up] or [Degraded]; and it is not stuck in a recovery
    episode for a policy that gives up. *)
Theorem health_follows_bus d cycle_time t0 g s i :
  driver_ok d → Forall chan_ok g → reach d cycle_time t0 g s → input_ok i →
  ∃ s' o, iterate i s = Ok (s', o) ∧ reported (i_now i) s s' o
    ∧ ∀ n, exhausts n policy → (n < i_attempts i)%nat → o ≠ Waiting.
Proof.
  intros Hd Hg Hr Hi. destruct (wp_exists _ _ (iterate_total i s (reach_gw_inv _ _ _ _ _ Hd Hg Hr) Hi)) as ([s' o] & E & Hx). by exists s', o.
Qed.

End loop.

(** ** The process image, bit by bit *)

Section image.
Context {D : Type} `{BusDriverLaws D}.

(** What one payload does to bit [q] of device [a]. *)
Definition put (r : EthercatRouting) (v : list Z) (a q : Z) (old : bool) : bool :=
  if decide (a = subdevice_address r ∧ in_slice r q) then bit_at v (q - bit_offset r) else old.
Definition payloads (pending : list envelope) : list (list Z) :=
  omap (λ e, match e with Valid v => Some v | _ => None end) pending.
Definition put_all (r : EthercatRouting) (vs : list (list Z)) (a q : Z) (old : bool) : bool :=
  foldl (λ b v, put r v a q b) old vs.
Definition written (c : RegisteredChannel) (a q : Z) (old : bool) : bool :=
  match c_direction c, c_binding c with
  | Rx, BoundOut pending => put_all (c_routing c) (payloads pending) a q old
  | _, _ => old
  end.
(** The bit after every channel of [g] was drained, in order. *)
Definition image_bit (g : list RegisteredChannel) (a q : Z) (old : bool) : bool :=
  foldl (λ b c, written c a q b) old g.

(** The outputs of [d'] are those of [d] with every bit changed by [f]. *)
Definition imaged (d d' : D) (f : Z → Z → bool → bool) : Prop :=
  ∀ a buf, outputs d a = Some buf →
    ∃ buf', outputs d' a = Some buf' ∧ length buf' = length buf ∧ ∀ q, 0 ≤ q → bit_at buf' q = f a q (bit_at buf q).

Lemma imaged_refl d : imaged d d (λ _ _ b, b).
Proof. intros a buf Hb. by exists buf. Qed.
Lemma imaged_trans d d1 d2 f g : imaged d d1 f → imaged d1 d2 g → imaged d d2 (λ a q b, g a q (f a q b)).
Proof.
  intros H1 H2 a buf Hb. destruct (H1 a buf Hb) as (b1 & E1 & L1 & Q1). destruct (H2 a b1 E1) as (b2 & E2 & L2 & Q2).
  exists b2. split_and!; [done|congruence|]. intros q Hq. by rewrite Q2, Q1.
Qed.

Lemma imaged_write d r v buf :
  driver_ok d → routing_ok r → is_bytes v → small v → outputs d (subdevice_address r) = Some buf → slice_fits buf r v →
  ∃ buf', write_routing buf r v = Ok (inl buf') ∧ driver_ok (set_outputs d (subdevice_address r) buf')
    ∧ imaged d (set_outputs d (subdevice_address r) buf') (put r v).
Proof.
  intros Hd Hr Hv Hs Ho Hf. destruct (outputs_ok _ _ _ Hd Ho) as [Hb Hsb].
  destruct (write_routing_spec buf r v) as (buf' & Hw & Hl & Hb' & Hq); [done..|]. exists buf'. split_and!; [done| |].
  - apply set_outputs_ok; [done..|]. unfold small, len in *. lia.
  - intros a old Ha. unfold put. destruct (decide (a = subdevice_address r)) as [-> |Hne].
    + exists buf'. assert (old = buf) as -> by congruence. split_and!; [by eapply set_outputs_same|done|]. intros q Hq0. rewrite Hq by done.
      destruct (decide (in_slice r q)); [by rewrite decide_True|]. rewrite decide_False; [done|]. by intros [_ ?].
    + exists old. split_and!; [by rewrite set_outputs_other by congruence|done|]. intros q _. rewrite decide_False; [done|]. by intros [? _].
Qed.

Definition can_send_env (d : D) (r : EthercatRouting) (e : envelope) : Prop :=
  match e with
  | Valid v => len v ≤ MAX_INBOUND_PAYLOAD ∧ ∃ buf, outputs d (subdevice_address r) = Some buf ∧ slice_fits buf r v
  | _ => False
  end.
Definition can_send (d : D) (c : RegisteredChannel) : Prop :=
  match c_direction c, c_binding c with Rx, BoundOut pending => Forall (can_send_env d (c_routing c)) pending | _, _ => True end.

Lemma imaged_can_send d d' f c : imaged d d' f → can_send d c → can_send d' c.
Proof.
  intros Hi. unfold can_send. destruct (c_direction c), (c_binding c) as [|pending|p]; try done.
  intros Hs. eapply Forall_impl; [exact Hs|]. intros [v| |]; try done. intros (Hl & buf & Ho & Hf1 & Hf2). split; [done|].
  destruct (Hi _ _ Ho) as (buf' & Ho' & Hlen & _). exists buf'. split; [done|]. split; [done|]. unfold len in *. lia.
Qed.

Lemma drain_exact r pending d :
  routing_ok r → Forall env_ok pending → driver_ok d → Forall (can_send_env d r) pending →
  ∃ d', drain_channel r pending d = Ok ([], d', inl (length pending)) ∧ stores d d' ∧ driver_ok d'
    ∧ imaged d d' (put_all r (payloads pending)).
Proof.
  intros Hr Hp. revert d. induction Hp as [|e pending He Hp IH]; intros d Hd Hs; cbn [drain_channel].
  { exists d. split_and!; [done|constructor|done|apply imaged_refl]. }
  apply Forall_cons in Hs as [Hs1 Hs]. destruct e as [v| |]; try done. destruct Hs1 as (Hl & buf & Ho & Hf). cbn [drain_into].
  replace (len v >? MAX_INBOUND_PAYLOAD) with false by (symmetry; rewrite Z.gtb_ltb; apply Z.ltb_ge; lia). rewrite Ho.
  destruct (imaged_write d r v buf) as (buf' & Hw & Hd1 & Hi1); [done..|unfold small, MAX_INBOUND_PAYLOAD in *; lia|done|done|].
  rewrite Hw. cbn [mbind res_bind]. set (d1 := set_outputs _ _ _) in *.
  destruct (IH d1 Hd1) as (d' & E & Hst & Hd' & Hi).
  { eapply (imaged_can_send d d1 _ (MkEcatChan "" r Rx (BoundOut pending))); [exact Hi1|exact Hs]. }
  exists d'. rewrite E. split_and!; [done| |done|].
  - eapply rtc_l; [|exact Hst]. by eexists _, _.
  - exact (imaged_trans _ _ _ _ _ Hi1 Hi).
Qed.

Definition drained (c : RegisteredChannel) : RegisteredChannel :=
  match c_direction c, c_binding c with Rx, BoundOut _ => rebind c (BoundOut []) | _, _ => c end.

Lemma outbound_exact (g : Channels) d :
  Forall chan_ok g → driver_ok d → Forall (can_send d) g →
  ∃ d' n, outbound_loop g d = Ok (drained <$> g, d', inl n) ∧ stores d d' ∧ driver_ok d' ∧ imaged d d' (image_bit g).
Proof.
  intros Hg. revert d. induction Hg as [|c g Hc Hg IH]; intros d Hd Hs; cbn [outbound_loop].
  { exists d, 0%nat. split_and!; [done|constructor|done|apply imaged_refl]. }
  apply Forall_cons in Hs as [Hs1 Hs]. rewrite fmap_cons. unfold drained at 1, image_bit. cbn [foldl]. unfold written at 2. unfold can_send in Hs1.
  destruct (IH d Hd Hs) as (dk & nk & Ek & Hstk & Hdk & Hik).
  destruct (c_direction c); [|exists dk, nk; by rewrite Ek]. destruct (c_binding c) as [|pending|p] eqn:Eb; [by exists dk, nk; rewrite Ek| |by exists dk, nk; rewrite Ek].
  pose proof Hc as [Hr Hp]. rewrite Eb in Hp. destruct (drain_exact (c_routing c) pending d) as (d1 & E1 & Hst1 & Hd1 & Hi1); [done..|].
  rewrite E1. cbn [mbind res_bind]. destruct (IH d1 Hd1) as (d2 & n & E2 & Hst2 & Hd2 & Hi2).
  { eapply Forall_impl; [exact Hs|]. intros c' Hc'. by eapply imaged_can_send. }
  rewrite E2. exists d2, (length pending + n)%nat. split_and!; [done|by etrans|done|]. exact (imaged_trans _ _ _ _ _ Hi1 Hi2).
Qed.

(** *** Inbound *)

Definition sampled (d : D) (c : RegisteredChannel) : RegisteredChannel :=
  let r := c_routing c in
  match c_direction c, c_binding c with
  | Tx, BoundIn p =>
      if bit_length r =? 0 then c
      else
        match inputs d (subdevice_address r) with
        | None => c
        | Some buf =>
            match read_routing buf r (replicate (Z.to_nat (div_ceil (bit_length r) 8)) 0) with
            | Ok (inl out) => rebind c (BoundIn (DispatchNet.append_published p out))
            | _ => c
            end
        end
  | _, _ => c
  end.
(** The port takes the sample of a slice that [images] has. *)
Definition can_publish (images : Z → option (list Z)) (c : RegisteredChannel) : Prop :=
  match c_direction c, c_binding c with
  | Tx, BoundIn p =>
      bit_length (c_routing c) ≠ 0 →
      let n := div_ceil (bit_length (c_routing c)) 8 in
      n ≤ MAX_INBOUND_PAYLOAD ∧ n ≤ port_max p ∧ (∀ k, iox_ok p k = true)
      ∧ ∃ buf, images (subdevice_address (c_routing c)) = Some buf
          ∧ bit_offset (c_routing c) + bit_length (c_routing c) ≤ 8 * len buf
  | _, _ => True
  end.

Lemma sample_spec r buf :
  routing_ok r → small buf → bit_length r ≠ 0 → bit_offset r + bit_length r ≤ 8 * len buf →
  ∃ out, read_routing buf r (replicate (Z.to_nat (div_ceil (bit_length r) 8)) 0) = Ok (inl out)
    ∧ len out = div_ceil (bit_length r) 8 ∧ is_bytes out
    ∧ ∀ q, 0 ≤ q → bit_at out q = if decide (q < bit_length r) then bit_at buf (bit_offset r + q) else false.
Proof.
  intros Hr Hs Hz Hf. pose proof Hr as [_ [H1 H1']]. pose proof (div_ceil_spec (bit_length r) 8 ltac:(lia) ltac:(lia)) as Hd.
  set (t := div_ceil _ 8) in *. assert (Hlr : len (replicate (Z.to_nat t) 0) = t) by (unfold len; rewrite length_replicate; lia).
  destruct (read_routing_spec buf r (replicate (Z.to_nat t) 0)) as (out & Ho & Hlo & Hbo & Hqo).
  { done. } { done. } { unfold small. rewrite Hlr. lia. } { apply Forall_replicate. unfold is_u. lia. } { split; lia. } { done. }
  exists out. split_and!; [done|unfold len; rewrite Hlo; exact Hlr|done|]. intros q Hq. rewrite Hqo by done.
  repeat case_decide; [done|done|]. apply replicate_bits.
Qed.

Lemma inbound_exact (g : Channels) d h now :
  Forall chan_ok g → driver_ok d → Forall (can_publish (inputs d)) g →
  ∃ n, inbound_loop g d h now = Ok (sampled d <$> g, h, inl n).
Proof.
  intros Hg Hd Hs. induction Hg as [|c g Hc Hg IH]; cbn [inbound_loop]; [by exists 0%nat|].
  apply Forall_cons in Hs as [Hs1 Hs]. destruct (IH Hs) as [n E]. rewrite fmap_cons. unfold sampled at 1. unfold can_publish in Hs1.
  destruct (c_direction c); [by exists n; rewrite E|]. destruct (c_binding c) as [|pending|p] eqn:Eb; [by exists n; rewrite E..|].
  pose proof Hc as [Hr Hp]. rewrite Eb in Hp. destruct Hp as [Hq Hcap].
  destruct (Z.eqb_spec (bit_length (c_routing c)) 0) as [Hz|Hz]; [by exists n; rewrite E|].
  destruct (Hs1 Hz) as (Hmax & Hport & Hiox & buf & Hin & Hf). rewrite (proj2 (Z.ltb_ge _ _) Hmax), Hin.
  destruct (inputs_ok _ _ _ Hd Hin) as [_ Hsm]. destruct (sample_spec (c_routing c) buf) as (out & -> & Hl & _); [done..|].
  cbn [mbind res_bind]. rewrite ecat_publish_drained by done. rewrite Hl, Hiox.
  replace (div_ceil _ 8 >? port_max p) with false by (symmetry; rewrite Z.gtb_ltb; apply Z.ltb_ge; lia).
  rewrite E. by exists (S n).
Qed.

End image.

(** *** Who owns a bit *)

Lemma put_all_last r vs v a q old :
  last vs = Some v → a = subdevice_address r → in_slice r q → put_all r vs a q old = bit_at v (q - bit_offset r).
Proof.
  intros Hl -> Hq. apply last_Some in Hl as [vs' ->]. unfold put_all. rewrite foldl_snoc. unfold put at 1. by rewrite decide_True.
Qed.
Lemma put_all_out r vs a q old : ¬ (a = subdevice_address r ∧ in_slice r q) → put_all r vs a q old = old.
Proof.
  intros Hq. revert old. induction vs as [|v vs IH]; intros old; [done|]. unfold put_all. simpl. unfold put at 2. rewrite decide_False by done. apply IH.
Qed.
Lemma image_bit_out g a q old :
  (∀ c, c ∈ g → c_direction c = Rx → ¬ (a = subdevice_address (c_routing c) ∧ in_slice (c_routing c) q)) → image_bit g a q old = old.
Proof.
  revert old. induction g as [|c g IH]; intros old Hg; [done|]. unfold image_bit. cbn [foldl].
  assert (written c a q old = old) as ->.
  { unfold written. destruct (c_direction c) eqn:Ed, (c_binding c); try done. apply put_all_out, Hg; [left|done]. }
  apply IH. intros c' Hc'. apply Hg. by right.
Qed.

(** The last channel drained into a slice decides its bits. *)
Lemma image_bit_owner g k w pending v q old :
  g !! k = Some w → c_direction w = Rx → c_binding w = BoundOut pending → last (payloads pending) = Some v →
  in_slice (c_routing w) q →
  (∀ l w', (k < l)%nat → g !! l = Some w' → c_direction w' = Rx →
     subdevice_address (c_routing w') = subdevice_address (c_routing w) → disjoint_slices (c_routing w) (c_routing w')) →
  image_bit g (subdevice_address (c_routing w)) q old = bit_at v (q - bit_offset (c_routing w)).
Proof.
  intros Hk Hd Hb Hl Hq Hlater. rewrite <- (take_drop_middle g k w Hk). unfold image_bit. rewrite foldl_app. cbn [foldl].
  unfold written at 2. rewrite Hd, Hb, (put_all_last _ _ v) by done. apply image_bit_out. intros c [i Hi]%list_elem_of_lookup Hdc [Ha Hin].
  rewrite lookup_drop in Hi. specialize (Hlater (S k + i)%nat _ ltac:(lia) Hi Hdc (eq_sym Ha)). unfold disjoint_slices, in_slice in *. lia.
Qed.

(** *** A bus that reflects its outputs *)

Lemma tick_fires {D P : Type} `{BusDriver D} `{CanConn.ReconnectPolicy P} (policy : P) attempts now (s : Gw D) d wc :
  snd (poll (g_scheduler s) now) = Fire → cycle (g_driver s) = (d, inl wc) →
  ∃ s' c, tick policy attempts now s = (s', Done (Some c)) ∧ g_driver s' = d ∧ g_registry s' = g_registry s.
Proof.
  intros Hp Hc. unfold tick. destruct (poll (g_scheduler s) now) as [sch dec]. simpl in Hp. subst dec. cbn. rewrite Hc.
  eexists _, _. split; [done|]. unfold apply_verdict, evaluate_wkc. simpl. destruct (_ <=? _); [by case_bool_decide|done].
Qed.

Lemma stores_mock (m m' : MockBusDriver) : stores m m' → loopback m' = loopback m ∧ cycle_err_after m' = cycle_err_after m.
Proof. intros Hs. induction Hs as [|m m1 m2 (a & buf & ->) _ [-> ->]]; done. Qed.

Lemma loopback_cycle (m : MockBusDriver) :
  loopback m = true → cycle_err_after m = None →
  ∃ m' wc, cycle m = (m', inl wc) ∧ ∀ a buf, outputs m a = Some buf → inputs m' a = Some buf.
Proof.
  intros Hl He. simpl. unfold mock_cycle. rewrite He, Hl.
  destruct (wkc_sequence m); eexists _, _; (split; [done|]); intros a buf Hb; simpl in *; by apply lookup_union_Some_l.
Qed.

Lemma sampled_drained {D : Type} `{BusDriver D} (d : D) c : c_direction c = Tx → sampled d (drained c) = sampled d c.
Proof. intros Hc. unfold drained. by rewrite Hc. Qed.

(** C24. On a bus that reflects its outputs, one cycle carries what the writers
    published to the readers: every inbound channel publishes one sample, whose bits
    are those the outbound channels left on its slice, drained in order of
    registration, the rest of its last byte clear.  So the reader of a slice that a
    writer published to, and no later channel overlaps, gets the writer's last
    payload. *)
Theorem loopback_roundtrip {P : Type} `{CanConn.ReconnectPolicy P} (policy : P) attempts now (s : Gw MockBusDriver) :
  gw_inv s → loopback (g_driver s) = true → cycle_err_after (g_driver s) = None → snd (poll (g_scheduler s) now) = Fire →
  Forall (can_send (g_driver s)) (g_registry s) → Forall (can_publish (outputs (g_driver s))) (g_registry s) →
  ∃ s' r c, dispatch_one_cycle policy attempts now [] s = Ok (s', Done r) ∧ d_cycle r = Some c
    ∧ ∀ j ch p buf, g_registry s !! j = Some ch → c_direction ch = Tx → c_binding ch = BoundIn p → bit_length (c_routing ch) ≠ 0 →
        outputs (g_driver s) (subdevice_address (c_routing ch)) = Some buf →
        ∃ out, g_registry s' !! j = Some (rebind ch (BoundIn (DispatchNet.append_published p out)))
          ∧ len out = div_ceil (bit_length (c_routing ch)) 8
          ∧ (∀ q, 0 ≤ q → bit_at out q =
               if decide (q < bit_length (c_routing ch))
               then image_bit (g_registry s) (subdevice_address (c_routing ch)) (bit_offset (c_routing ch) + q)
                      (bit_at buf (bit_offset (c_routing ch) + q))
               else false)
          ∧ ∀ k w pending v, g_registry s !! k = Some w → c_direction w = Rx → c_binding w = BoundOut pending →
              last (payloads pending) = Some v →
              subdevice_address (c_routing w) = subdevice_address (c_routing ch) →
              bit_offset (c_routing w) = bit_offset (c_routing ch) → bit_length (c_routing w) = bit_length (c_routing ch) →
              (∀ l w', (k < l)%nat → g_registry s !! l = Some w' → c_direction w' = Rx →
                 subdevice_address (c_routing w') = subdevice_address (c_routing w) → disjoint_slices (c_routing w) (c_routing w')) →
              payload_of (c_routing ch) v out.
Proof.
  intros (Hlive & Hd & Hc) Hl He Hf Hsend Hpub.
  destruct (outbound_exact (g_registry s) (g_driver s) Hc Hd Hsend) as (d1 & n & Eo & Hst & Hd1 & Hi).
  apply stores_mock in Hst as [Hl1 He1]. rewrite Hl in Hl1. rewrite He in He1.
  destruct (loopback_cycle d1 Hl1 He1) as (d2 & wc & Ec & Hin).
  assert (Hd2 : driver_ok d2) by (pose proof (cycle_ok d1 Hd1) as Hd2; by rewrite Ec in Hd2).
  set (s1 := set_registry (set_driver s d1) (drained <$> g_registry s)).
  destruct (tick_fires policy attempts now s1 d2 wc Hf Ec) as (s2 & c & Et & Hg2 & Hr2).
  assert (Hc2 : Forall chan_ok (drained <$> g_registry s)).
  { apply Forall_fmap. eapply Forall_impl; [exact Hc|]. intros ch [Hr Hb]. unfold compose, drained.
    destruct (c_direction ch), (c_binding ch) eqn:Eb; (split; [done|]); simpl; rewrite ?Eb; try done; by constructor. }
  assert (Hpub2 : Forall (can_publish (inputs d2)) (drained <$> g_registry s)).
  { apply Forall_fmap. eapply Forall_impl; [exact Hpub|]. intros ch Hch. unfold compose, drained, can_publish in *.
    destruct (c_direction ch) eqn:Ed; [by destruct (c_binding ch); simpl; rewrite Ed|]. rewrite Ed.
    destruct (c_binding ch); try done. intros Hz. destruct (Hch Hz) as (H1 & H2 & H3 & buf & Ho & Hlen). split_and!; [done..|].
    destruct (Hi _ _ Ho) as (buf' & Ho' & Hl' & _). exists buf'. split; [by apply Hin|]. unfold len in *. lia. }
  destruct (inbound_exact (drained <$> g_registry s) d2 (g_health s2) now Hc2 Hd2 Hpub2) as (m & Em).
  eexists _, _, c. split; [|split].
  { unfold dispatch_one_cycle, dispatch_outbound. rewrite Eo. cbn [mbind res_bind]. fold s1. rewrite Et. cbn [acts foldl].
    unfold dispatch_inbound. cbn [set_registry g_registry g_driver g_health]. rewrite Hr2, Hg2. cbn [set_registry s1 g_registry].
    rewrite Em. cbn [mbind res_bind]. done. }
  { done. }
  intros j ch p buf Hj Hdir Hbind Hz Hbuf. cbn [set_health set_registry g_registry].
  destruct (Hi _ _ Hbuf) as (buf' & Ho' & Hlen & Hq). rewrite Forall_lookup in Hc. destruct (Hc _ _ Hj) as [Hr _].
  rewrite Forall_lookup in Hpub. pose proof (Hpub _ _ Hj) as Hp. unfold can_publish in Hp. rewrite Hdir, Hbind in Hp.
  destruct (Hp Hz) as (_ & _ & _ & buf0 & Ho0 & Hfit). assert (buf0 = buf) as -> by congruence.
  destruct (outputs_ok _ _ _ Hd1 Ho') as [_ Hsm].
  destruct (sample_spec (c_routing ch) buf') as (out & Hread & Hlo & Hbo & Hqo); [done|done|done|unfold len in *; lia|].
  pose proof Hr as [[Hoff _] _]. exists out. split; [|split; [done|split]].
  - rewrite !list_lookup_fmap, Hj. simpl. f_equal. rewrite sampled_drained by done. unfold sampled. rewrite Hdir, Hbind.
    rewrite (proj2 (Z.eqb_neq _ _) Hz), (Hin _ _ Ho'), Hread. done.
  - intros q Hq0. rewrite Hqo by done. case_decide; [|done]. apply Hq. lia.
  - intros k w pending v Hk Hdw Hbw Hv Ha Hoffw Hlw Hlater. split_and!; [done..|]. intros q Hq0. rewrite Hqo by done.
    case_decide; [|done]. rewrite Hq by lia. rewrite <- Ha. rewrite (image_bit_owner _ k w pending v); [|done..| |done].
    + f_equal. lia.
    + unfold in_slice. lia.
Qed.

(** ** A concrete connector *)

(** A policy with a budget of attempts. *)
#[local] Instance budget_policy : CanConn.ReconnectPolicy nat := {
  next_delay n := (pred n, 0);
  reset n := n;
  next_backoff n := match n with O => (O, None) | S n => (n, Some 0) end;
}.

Definition demo_slice (d : PdoDirection) : EthercatRouting := MkEcatRouting 0x1001 d 3 12.
Definition demo_channels : list RegisteredChannel :=
  acts [] [Register (MkEcatChan "out" (demo_slice Rx) Rx (BoundOut []));
           Register (MkEcatChan "in" (demo_slice Tx) Tx (BoundIn (MkPublish 4 0 0 1 2 (λ _, true) [])));
           Publish 0 (Valid [1; 2]); Publish 0 (Valid [0xAB; 0x0C])].
Definition demo_driver (err : option (Z * string)) (recoveries : list (BringUp + string)) : MockBusDriver :=
  MkMock None (MkBringUp 3 1) 0 [] 3 0 true recoveries 0 Plain [] err {[0x1001 := [255; 0; 255; 0]]} {[0x1001 := [0; 0; 0; 0]]}.
Definition demo_gw err recoveries : Gw MockBusDriver :=
  match runner_new (demo_driver err recoveries) 1000 (health_new 0) demo_channels 5 with
  | inl s => s
  | inr _ => MkGw MockBusDriver (demo_driver err recoveries) (scheduler_new 1000) (health_new 0) 0 0 []
  end.

Lemma demo_driver_ok err recoveries : driver_ok (demo_driver err recoveries).
Proof.
  split; (apply map_Forall_singleton; split; [repeat constructor; done|by vm_compute]).
Qed.
Lemma demo_channels_ok : Forall chan_ok demo_channels.
Proof.
  vm_compute demo_channels. repeat constructor; done.
Qed.

(** The first exchange fails, the first recovery too, the second succeeds. *)
Lemma health_follows_bus_witness :
  let i := MkCycleInput false 1000 [] [] 4 in
  let s := demo_gw (Some (1, "timeout"%string)) [inr "no link"%string; inl (MkBringUp 2 1)] in
  ∃ s' o, iterate 2%nat i s = Ok (s', o) ∧ reported 1000 s s' o ∧ o ≠ Waiting
    ∧ ConnHealth.kind (inner (g_health s')) = ConnHealth.KUp ∧ expected_wkc s' = 2.
Proof.
  intros i s.
  destruct (health_follows_bus 2%nat (demo_driver (Some (1, "timeout"%string)) [inr "no link"%string; inl (MkBringUp 2 1)]) 1000 0
    demo_channels s i (demo_driver_ok _ _) demo_channels_ok ltac:(by apply (reach_new _ _ _ _ _ 5)) ltac:(by split; constructor))
    as (s' & o & E & Hr & Hw).
  exists s', o. split_and!; [exact E|exact Hr|apply (Hw 2%nat); [done|simpl; lia]| |];
    vm_compute in E; injection E as <- <-; done.
Defined.

Lemma loopback_roundtrip_witness :
  ∃ s' r, dispatch_one_cycle 0%nat 0 1000 [] (demo_gw None []) = Ok (s', Done r)
    ∧ (λ c, match c_binding c with BoundIn p => published p | _ => [] end) <$> g_registry s' !! 1%nat = Some [[0xAB; 0x0C]].
Proof.
  set (s := demo_gw None []).
  assert (Hinv : gw_inv s) by (split_and!; [by left|apply (demo_driver_ok None [])|exact demo_channels_ok]).
  assert (Hs : Forall (can_send (g_driver s)) (g_registry s)).
  { repeat constructor; try (by vm_compute); exists [255; 0; 255; 0]; (split; [done|split; by vm_compute]). }
  assert (Hp : Forall (can_publish (outputs (g_driver s))) (g_registry s)).
  { constructor; [done|]. constructor; [|constructor]. intros _. split_and!; [by vm_compute|by vm_compute|done|].
    exists [255; 0; 255; 0]. by split; vm_compute. }
  destruct (loopback_roundtrip 0%nat 0 1000 s Hinv eq_refl eq_refl eq_refl Hs Hp) as (s' & r & c & E & _ & Hj).
  exists s', r. split; [exact E|].
  destruct (Hj 1%nat _ _ [255; 0; 255; 0] eq_refl eq_refl eq_refl ltac:(done) eq_refl) as (out & Ho & Hl & _ & Hlast).
  rewrite Ho. simpl. do 2 f_equal. eapply (payload_exact (demo_slice Tx)); [done|by repeat constructor|done| |].
  - intros q Hq. unfold bit_at. cbn in Hq. destruct (decide (q < 16)) as [Hlt|Hge]; [|by rewrite lookup_ge_None_2 by (simpl; zdiv)].
    assert (q = 12 ∨ q = 13 ∨ q = 14 ∨ q = 15) as [-> |[-> |[-> | ->]]] by lia; done.
  - apply (Hlast 0%nat _ _ _ eq_refl eq_refl eq_refl eq_refl eq_refl eq_refl eq_refl).
    intros [|[|l]] w' Hlt Hw Hd; [lia| |done]. injection Hw as <-. done.
Defined.

End EcatRunnerOk.
