(* ===== verification/EcatBus.v ===== *)
(** * Bringing an EtherCAT bus up

    Models [taktora-connector-ethercat/src/]: sdo.rs (the service-data writes that
    assign process data), watchdog.rs, op_transition.rs, the device maps of options.rs,
    [expected_wkc_from_map] of wkc.rs and the driver of ethercrab_driver.rs: bring-up,
    recovery, the walk into the operational state and access to the process image.

    The ethercrab package is the class [Ethercrab]: what its calls do to the wire [W]
    is not known.  Driver functions pass the wire along, may panic, and keep it when
    they fail. *)

From stdpp Require Import base gmap strings pretty list.
From Stdlib Require Import ZArith Lia.
From S2P Require Import Prelude J1939Dispatch EcatRunner.

Module EcatBus.
Import Dispatch.

(** ** Device maps *)

Inductive SdoValue := U8 (v : Z) | U16 (v : Z) | U32 (v : Z) | I8 (v : Z) | I16 (v : Z) | I32 (v : Z).
Record StartupSdo := MkStartup { s_index : Z; s_subindex : Z; s_value : SdoValue }.
Record PdoEntry := MkPdo { p_index : Z; p_bit_offset : Z; p_bit_length : Z }.

Definition DEFAULT_DIVIDER : Z := 2498.
Record SmWatchdog := MkWatchdog { divider : Z; intervals : Z }.
Definition from_timeout_us (timeout_us : Z) : SmWatchdog :=
  let ticks := div_ceil timeout_us 100 in
  MkWatchdog DEFAULT_DIVIDER (if ticks <? 1 then 1 else if 2 ^ 16 - 1 <? ticks then 2 ^ 16 - 1 else ticks).
Definition effective_timeout_ns (w : SmWatchdog) : Z := 40 * (divider w + 2) * intervals w.

Record SubDeviceMap := MkMap {
  address : Z;
  rx_pdos : list PdoEntry;
  tx_pdos : list PdoEntry;
  m_expected_wkc : Z;
  sm_watchdog : option SmWatchdog;
  startup_sdos : list StartupSdo;
}.
Definition map_new (address : Z) (rx tx : list PdoEntry) (wkc : Z) : SubDeviceMap := MkMap address rx tx wkc None [].
Definition with_sm_watchdog (m : SubDeviceMap) (w : SmWatchdog) : SubDeviceMap :=
  MkMap (address m) (rx_pdos m) (tx_pdos m) (m_expected_wkc m) (Some w) (startup_sdos m).
Definition with_startup_sdos (m : SubDeviceMap) (l : list StartupSdo) : SubDeviceMap :=
  MkMap (address m) (rx_pdos m) (tx_pdos m) (m_expected_wkc m) (sm_watchdog m) l.

Definition expected_wkc_from_map (maps : list SubDeviceMap) : Z :=
  foldl (λ total m, sat_add 16 total (m_expected_wkc m)) 0 maps.

(** ** Service-data writes *)

Definition SM_ASSIGN_RX_PDO : Z := 0x1C12.
Definition SM_ASSIGN_TX_PDO : Z := 0x1C13.
Record SdoWrite := MkSdo { w_address : Z; w_index : Z; w_subindex : Z; w_value : SdoValue }.

(** [u8::try_from(n).expect(…)]. *)
Definition u8_expect (n : nat) : res Z := if (n <=? 255)%nat then Ok (Z.of_nat n) else Panic.

Fixpoint push_entries (a sm_index : Z) (i : nat) (entries : list PdoEntry) : res (list SdoWrite) :=
  match entries with
  | [] => Ok []
  | e :: entries =>
      subindex ← u8_expect (S i);
      rest ← push_entries a sm_index (S i) entries;
      Ok (MkSdo a sm_index subindex (U16 (p_index e)) :: rest)
  end.
Definition push_direction (a sm_index : Z) (entries : list PdoEntry) : res (list SdoWrite) :=
  match entries with
  | [] => Ok []
  | _ =>
      ws ← push_entries a sm_index 0 entries;
      count ← u8_expect (length entries);
      Ok (MkSdo a sm_index 0 (U8 0) :: ws ++ [MkSdo a sm_index 0 (U8 count)])
  end.
Definition pdo_sdo_writes (m : SubDeviceMap) : res (list SdoWrite) :=
  rx ← push_direction (address m) SM_ASSIGN_RX_PDO (rx_pdos m);
  tx ← push_direction (address m) SM_ASSIGN_TX_PDO (tx_pdos m);
  Ok (rx ++ tx).
Definition startup_sdo_writes (m : SubDeviceMap) : list SdoWrite :=
  (λ s, MkSdo (address m) (s_index s) (s_subindex s) (s_value s)) <$> startup_sdos m.

(** ** Waiting for the operational state *)

Definition OP_WAIT_ACK_INTERVAL : Z := 100.
Definition OP_WAIT_MAX_SPINS : Z := 5000.
Inductive OpWaitAction := Continue_ | AckLatchedErrors | GiveUp.
Definition op_wait_action (spins : Z) : OpWaitAction :=
  if OP_WAIT_MAX_SPINS <? spins then GiveUp
  else if spins mod OP_WAIT_ACK_INTERVAL =? 0 then AckLatchedErrors
  else Continue_.

(** ** The package *)

Inductive Register := WatchdogDivider | SyncManagerWatchdog | AlControl.

(** Calls of ethercrab: each may change the wire; an error is its text.  A device of
    a group is named by its configured address, in the sweep by its position. *)
Class Ethercrab (W : Type) := {
  try_split : W → W * bool;
  maindevice_new : W → Z → W;
  tx_rx_task : W → W * option string;
  init_single_group : W → W * (list Z + string);
  sdo_write : W → SdoWrite → W * option string;
  register_write : W → Z → Register → Z → W * option string;
  register_read : W → Z → Register → W * (Z + string);
  into_safe_op : W → W * option string;
  request_into_op : W → W * option string;
  tx_rx : W → W * ((Z * bool) + string);
  al_error_latched : W → nat → W * bool;
  write_al_control : W → nat → Z → W * option string;
}.

Section driver.
Context {W : Type} `{!Ethercrab W}.

Definition M (A : Type) : Type := W → res (W * (A + ConnectorError)).
#[local] Instance M_ret : MRet M := λ A a w, Ok (w, inl a).
#[local] Instance M_bind : MBind M := λ A B f m w,
  match m w with
  | Panic => Panic
  | Ok (w, inl a) => f a w
  | Ok (w, inr e) => Ok (w, inr e)
  end.
Definition fail {A} (e : ConnectorError) : M A := λ w, Ok (w, inr e).
Definition pure_ {A} (m : res A) : M A := λ w, a ← m; Ok (w, inl a).
(** A call whose error is mapped by [f]. *)
Definition call_ (op : W → W * option string) (f : string → ConnectorError) : M unit := λ w,
  match op w with (w, None) => Ok (w, inl tt) | (w, Some e) => Ok (w, inr (f e)) end.
Definition ask {A} (op : W → W * (A + string)) (f : string → ConnectorError) : M A := λ w,
  match op w with (w, inl a) => Ok (w, inl a) | (w, inr e) => Ok (w, inr (f e)) end.

Definition map_ec_error (e : string) : ConnectorError := Stack ("ethercrab: " +:+ e).

Fixpoint apply_writes (writes : list SdoWrite) : M unit :=
  match writes with
  | [] => mret tt
  | x :: writes => call_ (λ w, sdo_write w x) map_ec_error;; apply_writes writes
  end.
Definition apply_pdo_mapping_for_subdevice (group : list Z) (m : SubDeviceMap) : M unit :=
  pdo ← pure_ (pdo_sdo_writes m);
  let writes := startup_sdo_writes m ++ pdo in
  match writes with
  | [] => mret tt
  | _ =>
      if bool_decide (address m ∈ group) then apply_writes writes
      else fail (Configuration ("SubDevice " +:+ pretty (address m) +:+ " declared in pdo_map but not present on the bus"))
  end.

Definition watchdog_error (a : Z) (what : string) : ConnectorError :=
  Stack ("sm-watchdog: SubDevice " +:+ pretty a +:+ ": " +:+ what).
Definition write_and_verify_register (a : Z) (r : Register) (expected : Z) : M unit :=
  call_ (λ w, register_write w a r expected) (watchdog_error a);;
  read_back ← ask (λ w, register_read w a r) (watchdog_error a);
  if read_back =? expected then mret tt else fail (watchdog_error a "did not stick").
Fixpoint program_sm_watchdogs (group : list Z) (maps : list SubDeviceMap) : M unit :=
  match maps with
  | [] => mret tt
  | m :: maps =>
      match sm_watchdog m with
      | None => program_sm_watchdogs group maps
      | Some wd =>
          (if bool_decide (address m ∈ group) then
             write_and_verify_register (address m) WatchdogDivider (divider wd);;
             write_and_verify_register (address m) SyncManagerWatchdog (intervals wd)
           else fail (Configuration ("SubDevice " +:+ pretty (address m) +:+ " declares sm_watchdog but is not present on the bus")));;
          program_sm_watchdogs group maps
      end
  end.

Definition AL_CONTROL_OP_REQUEST_ERR_ACK : Z := 0x0018.
(** Best effort: results are ignored. *)
Fixpoint ack_sweep (idx : nat) (n : nat) (w : W) : W :=
  match n with
  | O => w
  | S n =>
      let '(w, latched) := al_error_latched w idx in
      ack_sweep (S idx) n (if latched then fst (write_al_control w idx AL_CONTROL_OP_REQUEST_ERR_ACK) else w)
  end.
Definition ack_latched_al_errors (group : list Z) (w : W) : W := ack_sweep 0 (length group) w.

(** The wait loop; [fuel] bounds the exchanges. *)
Fixpoint op_wait (fuel : nat) (spins : Z) (group : list Z) (w : W) : res (W * (unit + ConnectorError)) :=
  match fuel with
  | O => Panic
  | S fuel =>
      match tx_rx w with
      | (w, inr e) => Ok (w, inr (map_ec_error e))
      | (w, inl (_, true)) => Ok (w, inl tt)
      | (w, inl (_, false)) =>
          let spins := sat_add 32 spins 1 in
          match op_wait_action spins with
          | Continue_ => op_wait fuel spins group w
          | AckLatchedErrors => op_wait fuel spins group (ack_latched_al_errors group w)
          | GiveUp => Ok (w, inr (Dispatch.Down "bus did not reach OP within 5000 cyclic-traffic spins"))
          end
      end
  end.
Definition OP_WAIT_FUEL : nat := Z.to_nat (OP_WAIT_MAX_SPINS + 1).
Definition walk_into_op (group : list Z) : M unit :=
  call_ into_safe_op map_ec_error;; call_ request_into_op map_ec_error;; op_wait OP_WAIT_FUEL 0 group.

Fixpoint apply_maps (group : list Z) (maps : list SubDeviceMap) : M unit :=
  match maps with
  | [] => mret tt
  | m :: maps => apply_pdo_mapping_for_subdevice group m;; apply_maps group maps
  end.
(** From discovery to the operational state: the tail of [bring_up], and
    [rewalk_into_op]. *)
Definition rewalk_into_op (maps : list SubDeviceMap) : M (list Z) :=
  group ← ask init_single_group map_ec_error;
  apply_maps group maps;; program_sm_watchdogs group maps;; walk_into_op group;; mret group.

(** ** The driver *)

Inductive State := NotInitialised | Operational (group : list Z) | Recovering.
Record EthercrabBusDriver := MkEcatDriver {
  wire : W;
  state : State;
  distributed_clocks : bool;
  pdo_map : list SubDeviceMap;
}.
Definition driver_new (w : W) (network_interface : option string) (dc : bool) (maps : list SubDeviceMap)
    : EthercrabBusDriver + ConnectorError :=
  match network_interface with
  | None => inr (Configuration "EthercatConnectorOptions::network_interface is required for EthercrabBusDriver")
  | Some _ => inl (MkEcatDriver w NotInitialised dc maps)
  end.

Definition with_wire (d : EthercrabBusDriver) (w : W) (s : State) : EthercrabBusDriver :=
  MkEcatDriver w s (distributed_clocks d) (pdo_map d).
Definition brought_up (d : EthercrabBusDriver) (group : list Z) : EcatRunner.BringUp :=
  EcatRunner.MkBringUp (expected_wkc_from_map (pdo_map d)) (length group).

Definition bring_up (d : EthercrabBusDriver) : res (EthercrabBusDriver * (EcatRunner.BringUp + ConnectorError)) :=
  match state d with
  | NotInitialised =>
      match try_split (wire d) with
      | (w, false) =>
          Ok (with_wire d w NotInitialised,
              inr (Configuration "EthercatPduStorage already split — declare a fresh storage per gateway"))
      | (w, true) =>
          let w := maindevice_new w (if distributed_clocks d then 10000 else 0) in
          match tx_rx_task w with
          | (w, Some e) => Ok (with_wire d w NotInitialised, inr (Stack ("io: tx_rx_task: " +:+ e)))
          | (w, None) =>
              '(w, r) ← rewalk_into_op (pdo_map d) w;
              Ok (match r with
                  | inl group => (with_wire d w (Operational group), inl (brought_up d group))
                  | inr e => (with_wire d w NotInitialised, inr e)
                  end)
          end
      end
  | _ => Ok (d, inr (Configuration "EthercrabBusDriver::bring_up called twice"))
  end.

Definition recover (d : EthercrabBusDriver) : res (EthercrabBusDriver * (EcatRunner.BringUp + ConnectorError)) :=
  match state d with
  | NotInitialised => Ok (d, inr (Configuration "EthercrabBusDriver::recover called before bring_up"))
  | _ =>
      '(w, r) ← rewalk_into_op (pdo_map d) (wire d);
      Ok (match r with
          | inl group => (with_wire d w (Operational group), inl (brought_up d group))
          | inr e => (with_wire d w Recovering, inr e)
          end)
  end.

Definition cycle (d : EthercrabBusDriver) : EthercrabBusDriver * (Z + ConnectorError) :=
  match state d with
  | Operational _ =>
      match tx_rx (wire d) with
      | (w, inl (wc, _)) => (with_wire d w (state d), inl wc)
      | (w, inr e) => (with_wire d w (state d), inr (map_ec_error e))
      end
  | Recovering => (d, inr (Dispatch.Down "bus not operational: recovery in progress"))
  | NotInitialised => (d, inr (Dispatch.Down "EthercrabBusDriver::cycle called before bring_up"))
  end.
(** The devices whose process image can be visited. *)
Definition reachable_devices (d : EthercrabBusDriver) : list Z :=
  match state d with Operational group => group | _ => [] end.

End driver.
Arguments EthercrabBusDriver : clear implicits.

End EcatBus.
