(* ===== verification/EcatBusOk.v ===== *)
(** * Properties of the EtherCAT bring-up

    On any wire, what a successful bring-up or recovery sent to the bus and in which
    order; that it always returns; and that a driver once brought up stays
    recoverable. *)

From stdpp Require Import base gmap strings list.
From Stdlib Require Import ZArith Lia.
From S2P Require Import Prelude J1939Dispatch EcatRunner EcatBus.

Module EcatBusOk.
Import Dispatch EcatBus.

(** ** Recording the calls *)

Inductive event :=
| ESplit | EMain (dc_iterations : Z) | ETask
| EInit (group : list Z)
| ESdo (x : SdoWrite)
| ERegWrite (a : Z) (r : Register) (v : Z)
| ERegRead (a : Z) (r : Register) (v : Z)
| ESafeOp | ERequestOp
| ETxRx (all_op : bool)
| EStatus (idx : nat) | EAck (idx : nat)
| EError.

(** A wire with the calls made on it. *)
Record traced (W : Type) := MkTraced { wire_of : W; trace : list event }.
Arguments MkTraced {W}.
Arguments wire_of {W}.
Arguments trace {W}.

Definition logged {W} (t : traced W) (w : W) (e : event) : traced W := MkTraced w (trace t ++ [e]).
Definition log_unit {W} (t : traced W) (r : W * option string) (e : event) : traced W * option string :=
  (logged t r.1 (match r.2 with None => e | Some _ => EError end), r.2).
Definition log_ask {W A} (t : traced W) (r : W * (A + string)) (e : A → event) : traced W * (A + string) :=
  (logged t r.1 (match r.2 with inl a => e a | inr _ => EError end), r.2).

#[export] Instance traced_ethercrab {W} `{!Ethercrab W} : Ethercrab (traced W) := {
  try_split t := let '(w, b) := try_split (wire_of t) in (logged t w ESplit, b);
  maindevice_new t n := logged t (maindevice_new (wire_of t) n) (EMain n);
  tx_rx_task t := log_unit t (tx_rx_task (wire_of t)) ETask;
  init_single_group t := log_ask t (init_single_group (wire_of t)) EInit;
  sdo_write t x := log_unit t (sdo_write (wire_of t) x) (ESdo x);
  register_write t a r v := log_unit t (register_write (wire_of t) a r v) (ERegWrite a r v);
  register_read t a r := log_ask t (register_read (wire_of t) a r) (ERegRead a r);
  into_safe_op t := log_unit t (into_safe_op (wire_of t)) ESafeOp;
  request_into_op t := log_unit t (request_into_op (wire_of t)) ERequestOp;
  tx_rx t := log_ask t (tx_rx (wire_of t)) (λ x, ETxRx x.2);
  al_error_latched t i := let '(w, b) := al_error_latched (wire_of t) i in (logged t w (EStatus i), b);
  write_al_control t i v := let '(w, r) := write_al_control (wire_of t) i v in (logged t w (EAck i), r);
}.

(** ** What the bus should see *)

(** The writes of a direction: clear the count, the entries from subindex 1, the
    count. *)
Definition assignment (a sm_index : Z) (entries : list PdoEntry) : list SdoWrite :=
  match entries with
  | [] => []
  | _ => MkSdo a sm_index 0 (U8 0)
         :: imap (λ i e, MkSdo a sm_index (Z.of_nat i + 1) (U16 (p_index e))) entries
         ++ [MkSdo a sm_index 0 (U8 (len entries))]
  end.
Definition map_writes (m : SubDeviceMap) : list SdoWrite :=
  startup_sdo_writes m
  ++ assignment (address m) SM_ASSIGN_RX_PDO (rx_pdos m) ++ assignment (address m) SM_ASSIGN_TX_PDO (tx_pdos m).
(** A watchdog register is written and then read back with the written value. *)
Definition verified (a : Z) (r : Register) (v : Z) : list event := [ERegWrite a r v; ERegRead a r v].
Definition watchdog_events (m : SubDeviceMap) : list event :=
  match sm_watchdog m with
  | None => []
  | Some wd => verified (address m) WatchdogDivider (divider wd) ++ verified (address m) SyncManagerWatchdog (intervals wd)
  end.
Definition configuration (maps : list SubDeviceMap) : list event :=
  (ESdo <$> concat (map_writes <$> maps)) ++ concat (watchdog_events <$> maps).

Definition is_exchange (e : event) : bool := match e with ETxRx _ => true | _ => false end.
(** The exchanges of the wait: only they and the sweeps of latched errors, the last
    one with all devices operational, and at most 5001 of them. *)
Definition waited (l : list event) : Prop :=
  ∃ l', l = l' ++ [ETxRx true] ∧ Forall (λ e, match e with ETxRx false | EStatus _ | EAck _ => True | _ => False end) l'
    ∧ len (List.filter is_exchange l) ≤ OP_WAIT_MAX_SPINS + 1.

(** The devices a configuration needs. *)
Definition present (group : list Z) (m : SubDeviceMap) : Prop :=
  (map_writes m ≠ [] ∨ is_Some (sm_watchdog m)) → address m ∈ group.

(** ** The writes *)

Lemma push_entries_spec a sm i entries :
  (i + length entries ≤ 255)%nat →
  push_entries a sm i entries = Ok (imap (λ k e, MkSdo a sm (Z.of_nat (i + k) + 1) (U16 (p_index e))) entries).
Proof.
  revert i. induction entries as [|e entries IH]; intros i Hi; [done|]. cbn [push_entries length] in *.
  unfold u8_expect. rewrite (proj2 (Nat.leb_le _ _)) by lia. cbn [mbind res_bind]. rewrite IH by lia. cbn [mbind res_bind].
  rewrite imap_cons. do 2 f_equal; [f_equal; lia|]. apply imap_ext. intros k x _. simpl. f_equal. lia.
Qed.

Lemma push_direction_spec a sm entries :
  (length entries ≤ 255)%nat → push_direction a sm entries = Ok (assignment a sm entries).
Proof.
  intros Hl. unfold push_direction, assignment. destruct entries as [|e entries]; [done|].
  rewrite push_entries_spec by done. cbn [mbind res_bind]. unfold u8_expect. rewrite (proj2 (Nat.leb_le _ _)) by done.
  cbn [mbind res_bind]. done.
Qed.

Definition maps_ok (maps : list SubDeviceMap) : Prop :=
  Forall (λ m, (length (rx_pdos m) ≤ 255)%nat ∧ (length (tx_pdos m) ≤ 255)%nat) maps.

Lemma pdo_sdo_writes_spec m :
  (length (rx_pdos m) ≤ 255)%nat → (length (tx_pdos m) ≤ 255)%nat →
  pdo_sdo_writes m
  = Ok (assignment (address m) SM_ASSIGN_RX_PDO (rx_pdos m) ++ assignment (address m) SM_ASSIGN_TX_PDO (tx_pdos m)).
Proof. intros H1 H2. unfold pdo_sdo_writes. by rewrite !push_direction_spec by done. Qed.

(** ** The walk *)

Section walk.
Context {W : Type} `{!Ethercrab W}.
Implicit Types t : traced W.

(** [m] returns; on success the calls it made satisfy [Q]; and it never splits the
    frame storage. *)
Definition emits {A} (m : M (W := traced W) A) (Q : A → list event → Prop) : Prop :=
  ∀ t, wp (m t) (λ x, ∃ l, trace x.1 = (trace t ++ l) ∧ (ESplit ∉ l) ∧ match x.2 with inl a => Q a l | inr _ => True end).

Lemma emits_ret {A} (a : A) (Q : A → list event → Prop) : Q a [] → emits (M_ret A a) Q.
Proof. intros HQ t. exists []. rewrite app_nil_r. split_and!; [done|apply not_elem_of_nil|done]. Qed.
Lemma emits_fail {A} e (Q : A → list event → Prop) : emits (fail e) Q.
Proof. intros t. exists []. rewrite app_nil_r. split_and!; [done|apply not_elem_of_nil|done]. Qed.
Lemma emits_bind {A B} (m : M A) (f : A → M B) P Q :
  emits m P → (∀ a, emits (f a) (λ b l, ∀ l0, P a l0 → Q b (l0 ++ l))) → emits (M_bind A B f m) Q.
Proof.
  intros Hm Hf t. unfold M_bind. specialize (Hm t). destruct (m t) as [[t1 [a|e]]|]; [|exact Hm|done].
  destruct Hm as (l0 & E0 & Hs0 & HP). eapply wp_mono; [apply (Hf a t1)|]. intros [t2 r] (l & E & Hs & HQ). simpl in *.
  exists (l0 ++ l). split_and!; [by rewrite E, E0, app_assoc|by rewrite not_elem_of_app|]. destruct r; [by apply HQ|done].
Qed.
Lemma emits_mono {A} (m : M A) (P Q : A → list event → Prop) : emits m P → (∀ a l, P a l → Q a l) → emits m Q.
Proof.
  intros Hm HPQ t. eapply wp_mono; [apply Hm|]. intros [t' r] (l & E & Hs & HP). exists l. split_and!; [done..|].
  destruct r; [by apply HPQ|done].
Qed.

(** A single call. *)
Lemma emits_call (op : traced W → traced W * option string) f e :
  e ≠ ESplit → (∀ t, ∃ r, op t = log_unit t r e) → emits (call_ op f) (λ _ l, l = [e]).
Proof.
  intros Hne Hop t. unfold call_. destruct (Hop t) as [[w r] ->]. unfold log_unit, logged. simpl. destruct r as [x|]; simpl.
  - exists [EError]. split_and!; [done|by rewrite list_elem_of_singleton|done].
  - exists [e]. split_and!; [done|by rewrite list_elem_of_singleton|done].
Qed.
Lemma emits_ask {A} (op : traced W → traced W * (A + string)) f (e : A → event) :
  (∀ a, e a ≠ ESplit) → (∀ t, ∃ r, op t = log_ask t r e) → emits (ask op f) (λ a l, l = [e a]).
Proof.
  intros Hne Hop t. unfold ask. destruct (Hop t) as [[w r] ->]. unfold log_ask, logged. simpl. destruct r as [a|x]; simpl.
  - exists [e a]. split_and!; [done|rewrite list_elem_of_singleton; by apply not_eq_sym|done].
  - exists [EError]. split_and!; [done|by rewrite list_elem_of_singleton|done].
Qed.

Lemma emits_writes ws : emits (apply_writes ws) (λ _ l, l = ESdo <$> ws).
Proof.
  induction ws as [|x ws IH]; [by apply emits_ret|]. cbn [apply_writes].
  eapply emits_bind; [apply (emits_call _ _ (ESdo x)); [done|]; intros t; by eexists|]. intros [].
  eapply emits_mono; [exact IH|]. by intros _ l -> l0 ->.
Qed.

Lemma emits_map group m :
  (length (rx_pdos m) ≤ 255)%nat → (length (tx_pdos m) ≤ 255)%nat →
  emits (apply_pdo_mapping_for_subdevice group m)
    (λ _ l, l = (ESdo <$> map_writes m) ∧ (map_writes m ≠ [] → address m ∈ group)).
Proof.
  intros H1 H2. unfold apply_pdo_mapping_for_subdevice. eapply (emits_bind _ _ (λ pdo l, l = [] ∧ startup_sdo_writes m ++ pdo = map_writes m)).
  { intros t. unfold pure_. rewrite pdo_sdo_writes_spec by done. cbn. exists []. rewrite app_nil_r. split_and!; [done|apply not_elem_of_nil|done|done]. }
  intros pdo. destruct (startup_sdo_writes m ++ pdo) as [|x ws] eqn:E.
  - apply emits_ret. by intros _ [-> <-].
  - case_bool_decide as Hin; [|apply emits_fail]. eapply emits_mono; [apply emits_writes|]. by intros _ l -> l0 [-> <-].
Qed.

Lemma emits_maps group maps : maps_ok maps →
  emits (apply_maps group maps) (λ _ l, l = (ESdo <$> concat (map_writes <$> maps)) ∧ Forall (λ m, map_writes m ≠ [] → address m ∈ group) maps).
Proof.
  induction 1 as [|m maps [H1 H2] _ IH]; [by apply emits_ret|]. cbn [apply_maps].
  eapply emits_bind; [by apply emits_map|]. intros []. eapply emits_mono; [exact IH|]. intros _ l [-> HF] l0 [-> Hin].
  split; [|by constructor]. by rewrite fmap_cons, concat_cons, fmap_app.
Qed.

Lemma emits_verify a r v : emits (write_and_verify_register a r v) (λ _ l, l = verified a r v).
Proof.
  unfold write_and_verify_register. eapply emits_bind; [apply (emits_call _ _ (ERegWrite a r v)); [done|]; intros t; by eexists|]. intros [].
  eapply emits_bind; [apply (emits_ask _ _ (ERegRead a r)); [done|]; intros t; by eexists|]. intros v'.
  destruct (Z.eqb_spec v' v) as [-> |]; [|apply emits_fail]. apply emits_ret. by intros _ -> l0 ->.
Qed.

Lemma emits_watchdogs group maps :
  emits (program_sm_watchdogs group maps)
    (λ _ l, l = concat (watchdog_events <$> maps) ∧ Forall (λ m, is_Some (sm_watchdog m) → address m ∈ group) maps).
Proof.
  induction maps as [|m maps IH]; [by apply emits_ret|]. cbn [program_sm_watchdogs]. rewrite fmap_cons, concat_cons. unfold watchdog_events at 1.
  destruct (sm_watchdog m) as [wd|] eqn:Ew.
  - case_bool_decide as Hin.
    + eapply (emits_bind _ _ (λ _ l, l = verified (address m) WatchdogDivider (divider wd) ++ verified (address m) SyncManagerWatchdog (intervals wd))).
      { eapply emits_bind; [apply emits_verify|]. intros []. eapply emits_mono; [apply emits_verify|]. by intros _ l -> l0 ->. }
      intros []. eapply emits_mono; [exact IH|]. intros _ l [-> HF] l0 ->. split; [done|]. by constructor.
    + eapply (emits_bind _ _ (λ _ _, False)); [apply emits_fail|]. intros []. eapply emits_mono; [exact IH|]. intros _ l _ l0 [].
  - eapply emits_mono; [exact IH|]. intros _ l [-> HF]. split; [done|]. constructor; [by rewrite Ew; intros [? ?]|done].
Qed.

Definition is_wait (e : event) : Prop := match e with ETxRx false | EStatus _ | EAck _ => True | _ => False end.
Definition is_sweep (e : event) : Prop := match e with EStatus _ | EAck _ => True | _ => False end.
Lemma sweep_wait l : Forall is_sweep l → Forall is_wait l ∧ List.filter is_exchange l = [].
Proof. induction 1 as [|[] l He _ [IH1 IH2]]; try done; (split; [by constructor|done]). Qed.

Lemma ack_sweep_trace idx n t : ∃ l, trace (ack_sweep idx n t) = trace t ++ l ∧ Forall is_sweep l.
Proof.
  revert idx t. induction n as [|n IH]; intros idx t; cbn [ack_sweep]; [exists []; by rewrite app_nil_r|].
  cbn. destruct (al_error_latched (wire_of t) idx) as [w b]. destruct b.
  - cbn. destruct (write_al_control w idx _) as [w' r]. cbn.
    destruct (IH (S idx) (logged (logged t w (EStatus idx)) w' (EAck idx))) as (l & -> & Hl). exists ([EStatus idx; EAck idx] ++ l).
    split; [|by repeat constructor]. cbn. by rewrite <- !app_assoc.
  - destruct (IH (S idx) (logged t w (EStatus idx))) as (l & -> & Hl). exists (EStatus idx :: l). split; [|by constructor]. cbn. by rewrite <- app_assoc.
Qed.

(** The wait ends within its bound. *)
Definition waited_from (spins : Z) (l : list event) : Prop :=
  ∃ l', l = l' ++ [ETxRx true] ∧ Forall is_wait l' ∧ len (List.filter is_exchange l) ≤ OP_WAIT_MAX_SPINS + 1 - spins.

Lemma wait_not_split l : Forall is_wait l → ESplit ∉ l.
Proof. intros Hl Hin. rewrite Forall_forall in Hl. exact (Hl _ Hin). Qed.

Lemma op_wait_emits fuel spins group t :
  0 ≤ spins ≤ OP_WAIT_MAX_SPINS → Z.of_nat fuel = OP_WAIT_MAX_SPINS + 1 - spins →
  wp (op_wait fuel spins group t) (λ x, ∃ l, trace x.1 = trace t ++ l ∧ (ESplit ∉ l)
    ∧ match x.2 with inl _ => waited_from spins l | inr _ => True end).
Proof.
  revert spins t. induction fuel as [|fuel IH]; intros spins t Hs Hf; [unfold OP_WAIT_MAX_SPINS in *; lia|]. cbn [op_wait]. cbn [tx_rx traced_ethercrab].
  unfold log_ask. destruct (tx_rx (wire_of t)) as [w [[wc op]|e]]; cbn.
  2: { exists [EError]. split_and!; [done|by rewrite list_elem_of_singleton|done]. }
  set (t1 := logged t w _). destruct op.
  { exists [ETxRx true]. split_and!; [done|by rewrite list_elem_of_singleton|]. exists []. split_and!; [done|constructor|]. cbn. unfold len. simpl. lia. }
  replace (sat_add 32 spins 1) with (spins + 1) by (unfold sat_add, OP_WAIT_MAX_SPINS in *; lia).
  assert (Hnext : ∀ t2 l0, trace t2 = trace t1 ++ l0 → Forall is_sweep l0 → spins + 1 ≤ OP_WAIT_MAX_SPINS →
    wp (op_wait fuel (spins + 1) group t2) (λ x, ∃ l, trace x.1 = trace t ++ l ∧ (ESplit ∉ l)
      ∧ match x.2 with inl _ => waited_from spins l | inr _ => True end)).
  { intros t2 l0 E2 Hl0 Hle. eapply wp_mono; [apply IH; lia|]. intros [t3 r] (l & E & Hns & Hr). cbn [fst snd] in *.
    destruct (sweep_wait _ Hl0) as [Hw Hx]. exists (ETxRx false :: l0 ++ l). rewrite E, E2. cbn. split; [by rewrite <- !app_assoc|]. split.
    { rewrite elem_of_cons, elem_of_app. intros [?|[?|?]]; [done|by eapply wait_not_split|done]. }
    destruct r as [u|e]; [|done]. destruct Hr as (l' & -> & Hl' & Hlen). exists (ETxRx false :: l0 ++ l'). split; [by rewrite app_comm_cons, app_assoc|]. split.
    { constructor; [done|]. by apply Forall_app. }
    cbn. rewrite List.filter_app, Hx. rewrite app_nil_l. unfold len in *. cbn [length]. lia. }
  unfold op_wait_action. destruct (Z.ltb_spec OP_WAIT_MAX_SPINS (spins + 1)) as [Hgt|Hle].
  { exists [ETxRx false]. split_and!; [done|by rewrite list_elem_of_singleton|done]. }
  destruct (_ =? 0).
  - destruct (ack_sweep_trace 0 (length group) t1) as (l0 & E0 & Hl0). by apply (Hnext _ l0).
  - apply (Hnext t1 []); [by rewrite app_nil_r|constructor|done].
Qed.

(** *** From discovery to operation *)

Definition operated (maps : list SubDeviceMap) (group : list Z) (l : list event) : Prop :=
  ∃ lw, l = EInit group :: configuration maps ++ ESafeOp :: ERequestOp :: lw ∧ waited lw ∧ Forall (present group) maps.

Lemma emits_walk group : emits (walk_into_op group) (λ _ l, ∃ lw, l = ESafeOp :: ERequestOp :: lw ∧ waited lw).
Proof.
  unfold walk_into_op. eapply emits_bind; [apply (emits_call _ _ ESafeOp); [done|]; intros t; by eexists|]. intros [].
  eapply emits_bind; [apply (emits_call _ _ ERequestOp); [done|]; intros t; by eexists|]. intros [].
  intros t. eapply wp_mono; [apply op_wait_emits; unfold OP_WAIT_FUEL, OP_WAIT_MAX_SPINS; lia|].
  intros [t' r] (l & E & Hns & Hr). exists l. split_and!; [done..|]. destruct r as [[]|]; [|done]. intros l1 -> l0 ->.
  exists l. split; [done|]. destruct Hr as (l' & ? & ? & ?). exists l'. split_and!; [done..|]. unfold OP_WAIT_MAX_SPINS in *. lia.
Qed.

Lemma emits_rewalk maps : maps_ok maps → emits (rewalk_into_op maps) (operated maps).
Proof.
  intros Hm. unfold rewalk_into_op. eapply emits_bind; [apply (emits_ask _ _ EInit); [done|]; intros t; by eexists|]. intros group.
  eapply emits_bind; [by apply emits_maps|]. intros []. eapply emits_bind; [apply emits_watchdogs|]. intros [].
  eapply emits_bind; [apply emits_walk|]. intros []. apply emits_ret. intros l3 (lw & -> & Hw) l2 [-> H2] l1 [-> H1] l0 ->.
  exists lw. split; [|split; [done|]].
  - unfold configuration. rewrite app_nil_r. cbn. by rewrite <- !app_assoc.
  - apply Forall_forall. intros m Hin [Hne|Hwd]; [rewrite Forall_forall in H1; by apply H1|rewrite Forall_forall in H2; by apply H2].
Qed.

End walk.

(** ** The driver over its lifetime *)

Section driver.
Context {W : Type} `{!Ethercrab W}.
Abbreviation driver := (EthercrabBusDriver (traced W)).

(** The calls since the last discovery: a whole configuration, then cycles. *)
Definition configured (d : driver) (group : list Z) : Prop :=
  ∃ pre lo lx, trace (wire d) = pre ++ lo ++ lx ∧ operated (pdo_map d) group lo
    ∧ Forall (λ e, match e with ETxRx _ | EError => True | _ => False end) lx.

Lemma rewalk_spec maps (t : traced W) :
  maps_ok maps →
  ∃ t' r l, rewalk_into_op maps t = Ok (t', r) ∧ trace t' = trace t ++ l ∧ (ESplit ∉ l)
    ∧ match r with inl group => operated maps group l | inr _ => True end.
Proof.
  intros Hm. destruct (wp_exists _ _ (emits_rewalk maps Hm t)) as ([t' r] & E & l & El & Hs & Hr). by exists t', r, l.
Qed.

Definition started (d d' : driver) (r : EcatRunner.BringUp + ConnectorError) (fallback : State) : Prop :=
  match r with
  | inl b => ∃ group, state d' = Operational group ∧ b = brought_up d group ∧ configured d' group
  | inr _ => state d' = fallback
  end.

Lemma bring_up_spec (d : driver) :
  maps_ok (pdo_map d) → state d = NotInitialised →
  ∃ d' r, bring_up d = Ok (d', r) ∧ pdo_map d' = pdo_map d ∧ started d d' r NotInitialised.
Proof.
  intros Hm Hs. unfold bring_up. rewrite Hs. destruct (try_split (wire d)) as [w []]; [|by eexists _, _].
  set (w1 := maindevice_new w _). destruct (tx_rx_task w1) as [w2 [e|]]; [by eexists _, _|].
  destruct (rewalk_spec (pdo_map d) w2 Hm) as (t' & r & l & -> & El & _ & Hr). cbn [mbind res_bind]. destruct r as [group|e]; [|by eexists _, _].
  eexists _, _. split; [done|]. split; [done|]. exists group. split_and!; [done..|]. exists (trace w2), l, []. rewrite app_nil_r. by split_and!.
Qed.

Lemma recover_spec (d : driver) :
  maps_ok (pdo_map d) → state d ≠ NotInitialised →
  ∃ d' r l, recover d = Ok (d', r) ∧ pdo_map d' = pdo_map d ∧ started d d' r Recovering
    ∧ trace (wire d') = trace (wire d) ++ l ∧ ESplit ∉ l.
Proof.
  intros Hm Hs. unfold recover. destruct (rewalk_spec (pdo_map d) (wire d) Hm) as (t' & r & l & -> & El & Hn & Hr). cbn [mbind res_bind].
  destruct (state d) as [|g|] eqn:E; [done|..]; (destruct r as [group|e]; eexists _, _, l; (split; [done|split; [done|split; [|done]]]); [|done]);
    exists group; (split_and!; [done..|]); exists (trace (wire d)), l, []; rewrite app_nil_r; by split_and!.
Qed.

Lemma cycle_configured (d : driver) group :
  state d = Operational group → configured d group → configured (cycle d).1 group.
Proof.
  intros Hs (pre & lo & lx & E & Ho & Hx). unfold cycle. rewrite Hs. cbn. unfold log_ask.
  destruct (tx_rx (wire_of (wire d))) as [w [[wc op]|e]]; cbn; [exists pre, lo, (lx ++ [ETxRx op])|exists pre, lo, (lx ++ [EError])];
    (split_and!; [cbn; by rewrite E, <- !app_assoc|done|apply Forall_app; split; [done|by repeat constructor]]).
Qed.

(** Any sequence of calls on a new driver. *)
Inductive reach (w : traced W) (dc : bool) (maps : list SubDeviceMap) : driver → Prop :=
| reach_start : reach w dc maps (MkEcatDriver w NotInitialised dc maps)
| reach_bring_up d d' r : reach w dc maps d → bring_up d = Ok (d', r) → reach w dc maps d'
| reach_recover d d' r : reach w dc maps d → recover d = Ok (d', r) → reach w dc maps d'
| reach_cycle d : reach w dc maps d → reach w dc maps (cycle d).1.

Definition bus_inv (maps : list SubDeviceMap) (d : driver) : Prop :=
  pdo_map d = maps ∧ ∀ group, state d = Operational group → configured d group.

Lemma started_inv maps d d' r fb :
  pdo_map d' = maps → (∀ g, fb ≠ Operational g) → started d d' r fb → bus_inv maps d'.
Proof.
  intros Hm Hfb Hst. split; [done|]. intros g Hg. destruct r as [b|e]; cbn in Hst.
  - destruct Hst as (group & Hs & _ & Hc). rewrite Hs in Hg. by injection Hg as <-.
  - rewrite Hst in Hg. by destruct (Hfb g).
Qed.

Lemma reach_bus_inv w dc maps d : maps_ok maps → reach w dc maps d → bus_inv maps d.
Proof.
  intros Hm Hr. induction Hr as [|d d' r Hr IH E|d d' r Hr IH E|d Hr IH]; [done|..]; pose proof IH as [Hp Hc].
  - destruct (state d) as [|g|] eqn:Es; [|by unfold bring_up in E; rewrite Es in E; injection E as <- <-..].
    destruct (bring_up_spec d) as (d1 & r1 & E1 & Hp1 & Hs1); [by rewrite Hp|done|]. rewrite E1 in E. injection E as <- <-.
    eapply started_inv; [by rewrite Hp1| |exact Hs1]. done.
  - assert (Hd : state d = NotInitialised ∨ state d ≠ NotInitialised) by (destruct (state d); auto).
    destruct Hd as [Hd|Hd]; [unfold recover in E; rewrite Hd in E; by injection E as <- <-|].
    destruct (recover_spec d) as (d1 & r1 & l & E1 & Hp1 & Hs1 & _); [by rewrite Hp|done|]. rewrite E1 in E. injection E as <- <-.
    eapply started_inv; [by rewrite Hp1| |exact Hs1]. done.
  - assert (Hs : state (cycle d).1 = state d).
    { unfold cycle. destruct (state d) eqn:Es; try done. destruct (tx_rx (wire d)) as [w' [[wc op]|e]]; by cbn. }
    split; [unfold cycle; destruct (state d); try done; by destruct (tx_rx (wire d)) as [w' [[wc op]|e]]|].
    intros g. rewrite Hs. intros Hg. apply cycle_configured; [done|by apply Hc].
Qed.

(** C26. Over any wire and any sequence of calls, the driver is operational only after
    a whole configuration of the bus it discovered last: per device of the map the
    startup writes and then the assignment of its process data, every watchdog
    register written and read back with its value, and only then the walk into the
    operational state under cyclic exchanges; every device it needs was present.
    Bring-up and recovery always return, after at most 5001 exchanges; and a recovery
    that fails leaves a driver that can be recovered again, its frame storage never
    split a second time. *)
Theorem operational_configured w dc maps d :
  maps_ok maps → reach w dc maps d →
  (∀ group, state d = Operational group → configured d group)
  ∧ no_panic (bring_up d)
  ∧ (state d ≠ NotInitialised →
     ∃ d' r l, recover d = Ok (d', r) ∧ state d' ≠ NotInitialised ∧ trace (wire d') = trace (wire d) ++ l ∧ (ESplit ∉ l)
       ∧ match r with
         | inl b => EcatRunner.b_expected_wkc b = expected_wkc_from_map maps ∧ ∃ group, state d' = Operational group
         | inr _ => state d' = Recovering
         end).
Proof.
  intros Hm Hr. destruct (reach_bus_inv _ _ _ _ Hm Hr) as [Hp Hc]. split_and!; [done| |].
  - destruct (state d) as [|g|] eqn:Es; [|by unfold bring_up; rewrite Es; eexists..].
    destruct (bring_up_spec d) as (d1 & r1 & E1 & _); [by rewrite Hp|done|]. by eexists.
  - intros Hs. destruct (recover_spec d) as (d1 & r1 & l & E1 & Hp1 & Hs1 & El & Hn); [by rewrite Hp|done|]. exists d1, r1, l.
    destruct r1 as [b|e]; cbn in Hs1; [destruct Hs1 as (group & Hg & -> & _)|]; split_and!; try done; try congruence.
    + cbn. by rewrite Hp.
    + by exists group.
Qed.

End driver.

(** ** A concrete bus *)

(** One coupler at 0x1001 that keeps its registers and is operational after three
    exchanges. *)
Record toy := MkToy { t_regs : Z → Register → Z; t_left : nat }.
#[local] Instance register_eq_dec : EqDecision Register.
Proof. solve_decision. Defined.
#[local] Instance toy_bus : Ethercrab toy := {
  try_split w := (w, true);
  maindevice_new w _ := w;
  tx_rx_task w := (w, None);
  init_single_group w := (w, inl [0x1001]);
  sdo_write w _ := (w, None);
  register_write w a r v :=
    (MkToy (λ a' r', if bool_decide (a' = a ∧ r' = r) then v else t_regs w a' r') (t_left w), None);
  register_read w a r := (w, inl (t_regs w a r));
  into_safe_op w := (w, None);
  request_into_op w := (w, None);
  tx_rx w := (MkToy (t_regs w) (pred (t_left w)), inl (3, bool_decide (t_left w = 0%nat)));
  al_error_latched w _ := (w, false);
  write_al_control w _ _ := (w, None);
}.
Definition toy_map : SubDeviceMap :=
  with_sm_watchdog (map_new 0x1001 [MkPdo 0x1600 0 16] [MkPdo 0x1A00 0 16] 3) (from_timeout_us 40050).
Definition toy_driver : EthercrabBusDriver (traced toy) :=
  MkEcatDriver (MkTraced (MkToy (λ _ _, 0) 3) []) NotInitialised false [toy_map].
Definition toy_up : EthercrabBusDriver (traced toy) := match bring_up toy_driver with Ok (d, _) => d | Panic => toy_driver end.

Lemma operational_configured_witness : configured toy_up [0x1001] ∧ ∃ d' r, recover toy_up = Ok (d', r) ∧ state d' ≠ NotInitialised.
Proof.
  assert (Hm : maps_ok [toy_map]) by (constructor; [split; cbn; lia|constructor]).
  assert (Hr : reach (MkTraced (MkToy (λ _ _, 0) 3) []) false [toy_map] toy_up).
  { eapply (reach_bring_up _ _ _ toy_driver toy_up); [apply reach_start|]. vm_compute. reflexivity. }
  destruct (operational_configured _ _ _ _ Hm Hr) as (Hc & _ & Hrec). split; [apply Hc; vm_compute; reflexivity|].
  destruct Hrec as (d' & r & l & E & Hs & _); [vm_compute; discriminate|]. exists d', r. split; [exact E|exact Hs].
Defined.

End EcatBusOk.
