(* ===== verification/MqttTopic.v ===== *)
(** * MQTT topics, filters and their matching

    Models [taktora-connector-mqtt/src/topic.rs] (validation of publish topics and
    of subscription filters), [matcher.rs] (the matching of a filter and a topic)
    and [routing.rs].  A topic is its UTF-8 byte string; every character the code
    looks for is ASCII, and no byte of a longer UTF-8 sequence is, so looking for
    bytes and for characters is the same.

    The reference is the matching of MQTT 3.1.1.  [levels_match] is section 4.7.1:
    without a final [#] the levels of filter and topic correspond one to one, with it
    the levels before it correspond to a prefix of the topic's.  [mqtt_matches] adds
    section 4.7.2: a filter that starts with a wildcard matches no topic that starts
    with a dollar sign.  The code has no such rule; [matching_exact] says where the
    two differ. *)

From stdpp Require Import base sets strings list.
From Stdlib Require Import ZArith Lia Ascii.
From S2P Require Import Prelude.

Module MqttTopic.

(** ** Validation *)

Definition MAX_TOPIC_BYTES : Z := 65535.
Definition SINGLE_LEVEL_WILDCARD : ascii := "+".
Definition MULTI_LEVEL_WILDCARD : ascii := "#".
Definition LEVEL_SEPARATOR : ascii := "/".
Definition NUL : ascii := "000".
Definition SPACE : ascii := " ".

Inductive TopicError := TEmpty | TTooLong | TContainsWildcard | TContainsNull | TContainsSpace.
Inductive TopicFilterError :=
| FEmpty
| FTooLong
| FContainsNull
| FContainsSpace
| SingleLevelWildcardNotAlone
| MultiLevelWildcardNotAlone
| MultiLevelWildcardNotLast.

Definition str_len (s : string) : Z := Z.of_nat (String.length s).
(** [str::contains] of one character. *)
Fixpoint contains (c : ascii) (s : string) : bool :=
  match s with
  | EmptyString => false
  | String a s => bool_decide (a = c) || contains c s
  end.
(** [str::split] on the separator: never empty. *)
Fixpoint split (s : string) : list string :=
  match s with
  | EmptyString => [EmptyString]
  | String a s =>
      if bool_decide (a = LEVEL_SEPARATOR) then EmptyString :: split s
      else
        match split s with
        | l :: ls => String a l :: ls
        | [] => [String a EmptyString]
        end
  end.

(** [topic.chars().find_map(..)]. *)
Fixpoint first_violation (s : string) : option TopicError :=
  match s with
  | EmptyString => None
  | String a s =>
      if bool_decide (a = NUL) then Some TContainsNull
      else if bool_decide (a = SPACE) then Some TContainsSpace
      else if bool_decide (a = SINGLE_LEVEL_WILDCARD ∨ a = MULTI_LEVEL_WILDCARD)
      then Some TContainsWildcard
      else first_violation s
  end.

(** A validated string; only the two constructors build one. *)
Definition MqttTopic := string.
Definition MqttTopicFilter := string.

Definition MqttTopic_new (topic : string) : MqttTopic + TopicError :=
  let violation :=
    if bool_decide (topic = EmptyString) then Some TEmpty
    else if str_len topic >? MAX_TOPIC_BYTES then Some TTooLong
    else first_violation topic in
  match violation with Some e => inr e | None => inl topic end.
Definition levels (t : string) : list string := split t.

(** The loop of [wildcard_violation] from level [i] on. *)
Fixpoint violation_from (last i : nat) (ls : list string) : option TopicFilterError :=
  match ls with
  | [] => None
  | level :: ls =>
      let multi := contains MULTI_LEVEL_WILDCARD level in
      if multi && negb (bool_decide (level = "#"%string)) then Some MultiLevelWildcardNotAlone
      else if multi && negb (i =? last)%nat then Some MultiLevelWildcardNotLast
      else if contains SINGLE_LEVEL_WILDCARD level && negb (bool_decide (level = "+"%string))
      then Some SingleLevelWildcardNotAlone
      else violation_from last (S i) ls
  end.
Definition wildcard_violation (filter : string) : option TopicFilterError :=
  let levels := split filter in violation_from (length levels - 1) 0 levels.
Definition MqttTopicFilter_new (filter : string) : MqttTopicFilter + TopicFilterError :=
  let violation :=
    if bool_decide (filter = EmptyString) then Some FEmpty
    else if str_len filter >? MAX_TOPIC_BYTES then Some FTooLong
    else if contains NUL filter then Some FContainsNull
    else if contains SPACE filter then Some FContainsSpace
    else wildcard_violation filter in
  match violation with Some e => inr e | None => inl filter end.

(** ** Matching *)

(** The loop of [topic_matches]; its index advances in both vectors at once, so
    the loop runs over their suffixes. *)
Fixpoint match_levels (fs ts : list string) : bool :=
  match fs with
  | [] => match ts with [] => true | _ => false end
  | f :: fs =>
      if bool_decide (f = "#"%string) then true
      else
        match ts with
        | [] => false
        | t :: ts =>
            if bool_decide (f = "+"%string ∨ f = t) then match_levels fs ts else false
        end
  end.
Definition topic_matches (filter : MqttTopicFilter) (topic : MqttTopic) : bool :=
  match_levels (levels filter) (levels topic).

(** ** Routing *)

Inductive MqttQos := AtMostOnce | AtLeastOnce.
Definition wire_value (q : MqttQos) : Z := match q with AtMostOnce => 0 | AtLeastOnce => 1 end.
Record MqttRouting := MkRouting {
  topic : MqttTopic;
  qos : MqttQos;
  retained : bool;
  filter : option MqttTopicFilter;
}.
Definition routing_new (t : MqttTopic) (q : MqttQos) : MqttRouting := MkRouting t q false None.
Definition with_retained (r : MqttRouting) (b : bool) : MqttRouting := MkRouting (topic r) (qos r) b (filter r).
Definition with_filter (r : MqttRouting) (f : MqttTopicFilter) : MqttRouting :=
  MkRouting (topic r) (qos r) (retained r) (Some f).
Definition subscription_filter (r : MqttRouting) : res MqttTopicFilter :=
  match filter r with
  | Some f => Ok f
  | None => match MqttTopicFilter_new (topic r) with inl f => Ok f | inr _ => Panic end
  end.

(** ** The reference *)

(** A filter level and a topic level. *)
Definition level_matches (f t : string) : Prop := f = "+"%string ∨ f = t.
(** Section 4.7.1, on levels. *)
Definition levels_match (fs ts : list string) : Prop :=
  match last fs with
  | Some "#"%string =>
      ∃ p q r, fs = p ++ ["#"%string] ∧ ts = q ++ r ∧ Forall2 level_matches p q
  | _ => Forall2 level_matches fs ts
  end.
(** The case of section 4.7.2: the filter starts with a wildcard character, the
    topic with a dollar sign. *)
Definition head_is (P : ascii → Prop) (s : string) : Prop :=
  match s with String c _ => P c | EmptyString => False end.
Definition dollar_excluded (f t : string) : Prop :=
  head_is (λ c, c = SINGLE_LEVEL_WILDCARD ∨ c = MULTI_LEVEL_WILDCARD) f ∧
  head_is (λ c, c = "$"%char) t.
(** Section 4.7, on strings. *)
Definition mqtt_matches (f t : string) : Prop :=
  levels_match (levels f) (levels t) ∧ ¬ dollar_excluded f t.

(** Strings that passed the constructors. *)
Definition topic_ok (t : string) : Prop := MqttTopic_new t = inl t.
Definition filter_ok (f : string) : Prop := MqttTopicFilter_new f = inl f.
(** A routing as the constructors build it. *)
Definition routing_ok (r : MqttRouting) : Prop :=
  topic_ok (topic r) ∧ from_option filter_ok True (filter r).

(** ** Levels *)

Lemma split_not_nil s : split s ≠ [].
Proof. destruct s as [|a s]; simpl; [done|]. case_bool_decide; [done|]. by destruct (split s). Qed.

Lemma contains_split c s : c ≠ LEVEL_SEPARATOR →
  contains c s = existsb (contains c) (split s).
Proof.
  intros Hc. induction s as [|a s IH]; [done|]. simpl.
  destruct (decide (a = LEVEL_SEPARATOR)) as [->|Ha].
  - rewrite bool_decide_false by congruence. exact IH.
  - rewrite (bool_decide_false (a = LEVEL_SEPARATOR)) by done. rewrite IH. pose proof (split_not_nil s) as Hn. destruct (split s) as [|l ls]; [done|].
    simpl. by rewrite orb_assoc.
Qed.

(** What a topic without violation does not contain. *)
Lemma first_violation_None s : first_violation s = None →
  contains NUL s = false ∧ contains SPACE s = false ∧
  contains SINGLE_LEVEL_WILDCARD s = false ∧ contains MULTI_LEVEL_WILDCARD s = false.
Proof.
  induction s as [|a s IH]; [done|]. simpl. repeat case_bool_decide; try done; try tauto.
Qed.

Lemma violation_from_plain last i ls :
  existsb (contains MULTI_LEVEL_WILDCARD) ls = false →
  existsb (contains SINGLE_LEVEL_WILDCARD) ls = false →
  violation_from last i ls = None.
Proof.
  revert i. induction ls as [|l ls IH]; intros i; [done|]. simpl.
  rewrite !orb_false_iff. intros [-> H1] [-> H2]. simpl. by apply IH.
Qed.

Lemma topic_ok_inv t : topic_ok t →
  t ≠ EmptyString ∧ str_len t ≤ MAX_TOPIC_BYTES ∧ first_violation t = None.
Proof.
  unfold topic_ok, MqttTopic_new. destruct (decide (t = EmptyString)) as [->|Hne]; [done|].
  rewrite bool_decide_false by done. destruct (str_len t >? MAX_TOPIC_BYTES) eqn:E; [done|].
  destruct (first_violation t); [done|]. intros _. split_and!; [done|lia|done].
Qed.

(** A publish topic is a subscription filter. *)
Lemma topic_is_filter t : topic_ok t → filter_ok t.
Proof.
  intros (Hne & Hlen & Hv)%topic_ok_inv.
  apply first_violation_None in Hv as (H0 & H1 & H2 & H3).
  unfold filter_ok, MqttTopicFilter_new. rewrite bool_decide_false by done.
  replace (str_len t >? MAX_TOPIC_BYTES) with false by lia. rewrite H0, H1.
  unfold wildcard_violation. rewrite violation_from_plain; [done| |].
  - by rewrite <- contains_split.
  - by rewrite <- contains_split.
Qed.

Lemma violation_from_last last i ls : violation_from last i ls = None →
  ∀ j, ls !! j = Some "#"%string → (i + j = last)%nat.
Proof.
  revert i. induction ls as [|l ls IH]; intros i H [|j] Hj; try done; simpl in *.
  - injection Hj as ->. simpl in H. destruct (Nat.eqb_spec i last); [lia|done].
  - repeat case_match; try done. apply (IH _ H) in Hj. lia.
Qed.

(** In a filter, [#] is the last level or none. *)
Lemma filter_hash_last f j : filter_ok f → levels f !! j = Some "#"%string →
  S j = length (levels f).
Proof.
  unfold filter_ok, MqttTopicFilter_new. intros H Hj. repeat case_match; try done.
  assert (Hw : wildcard_violation f = None) by (repeat case_match; congruence).
  apply (violation_from_last _ _ _ Hw) in Hj. unfold levels in *.
  pose proof (split_not_nil f). destruct (split f); [done|]. simpl in *. lia.
Qed.

(** ** Matching is exact *)

Lemma match_levels_Forall2 fs ts : "#"%string ∉ fs →
  match_levels fs ts = true ↔ Forall2 level_matches fs ts.
Proof.
  revert ts. induction fs as [|f fs IH]; intros ts Hn; simpl.
  - destruct ts; split; try done; by inversion 1.
  - rewrite bool_decide_false by set_solver. destruct ts as [|t ts].
    + split; [done|]. intros H. by apply Forall2_nil_inv_r in H.
    + rewrite Forall2_cons. case_bool_decide as Hl.
      * rewrite IH by set_solver. unfold level_matches. tauto.
      * unfold level_matches. split; [done|tauto].
Qed.

Lemma match_levels_hash p ts : "#"%string ∉ p →
  match_levels (p ++ ["#"%string]) ts = true ↔ ∃ q r, ts = q ++ r ∧ Forall2 level_matches p q.
Proof.
  revert ts. induction p as [|f p IH]; intros ts Hn; simpl.
  - split; [|done]. intros _. exists [], ts. by split; [|constructor].
  - rewrite bool_decide_false by set_solver. destruct ts as [|t ts].
    + split; [done|]. intros ([|] & r & ? & H); [|done]. by apply Forall2_nil_inv_r in H.
    + case_bool_decide as Hl.
      * rewrite IH by set_solver. split.
        -- intros (q & r & -> & H). exists (t :: q), r. split; [done|]. by constructor.
        -- intros (q & r & Heq & H). inversion H as [|? ? ? ? ? H']; subst.
           simpl in Heq. injection Heq as -> ->. eauto.
      * split; [done|]. intros (q & r & Heq & H). inversion H; subst.
        simpl in Heq. injection Heq as -> ->. by destruct Hl.
Qed.

Lemma match_levels_exact fs ts :
  (∀ j, fs !! j = Some "#"%string → S j = length fs) →
  match_levels fs ts = true ↔ levels_match fs ts.
Proof.
  intros Hl. unfold levels_match. destruct (last fs) as [l|] eqn:El.
  - apply last_Some in El as [p ->].
    assert (Hp : "#"%string ∉ p).
    { intros [j Hj]%list_elem_of_lookup. pose proof (lookup_lt_Some _ _ _ Hj).
      specialize (Hl j). rewrite lookup_app_l in Hl by done. specialize (Hl Hj).
      rewrite length_app in Hl. simpl in Hl. lia. }
    destruct (decide (l = "#"%string)) as [->|Hne].
    + rewrite match_levels_hash by done. split.
      * intros (q & r & ? & ?). by exists p, q, r.
      * intros (p' & q & r & Hp' & ? & ?). apply app_inj_tail in Hp' as [-> _]. eauto.
    + rewrite match_levels_Forall2 by set_solver.
      clear -Hne. split; intros H; repeat case_match; try done; by destruct Hne.
  - apply last_None in El as ->. apply match_levels_Forall2. set_solver.
Qed.

Lemma split_inj s s' : split s = split s' → s = s'.
Proof.
  revert s'. induction s as [|a s IH]; intros [|b s'] H; [done|..]; simpl in H.
  - pose proof (split_not_nil s'). case_bool_decide; [congruence|]. by destruct (split s').
  - pose proof (split_not_nil s). case_bool_decide; [congruence|]. by destruct (split s).
  - pose proof (split_not_nil s). pose proof (split_not_nil s').
    destruct (split s) eqn:E, (split s') eqn:E'; try done.
    repeat case_bool_decide; simplify_eq; try (f_equal; apply IH; congruence).
Qed.

Lemma contains_hash_level t l : topic_ok t → l ∈ levels t → l ≠ "#"%string ∧ l ≠ "+"%string.
Proof.
  intros (_ & _ & Hv)%topic_ok_inv Hin.
  apply first_violation_None in Hv as (_ & _ & H2 & H3).
  rewrite contains_split in H2, H3 by done. unfold levels in Hin. apply list_elem_of_In in Hin.
  split; intros ->.
  - assert (existsb (contains MULTI_LEVEL_WILDCARD) (split t) = true); [|congruence].
    apply existsb_exists. by exists "#"%string.
  - assert (existsb (contains SINGLE_LEVEL_WILDCARD) (split t) = true); [|congruence].
    apply existsb_exists. by exists "+"%string.
Qed.

Lemma topic_matches_spec f t : filter_ok f →
  topic_matches f t = true ↔ levels_match (levels f) (levels t).
Proof. intros Hf. apply match_levels_exact. intros j. by apply filter_hash_last. Qed.

(** A concrete topic as filter matches that topic alone. *)
Lemma plain_filter_matches f t : topic_ok f → topic_matches f t = true ↔ f = t.
Proof.
  intros Hf. unfold topic_matches.
  assert (Hp : ∀ l, l ∈ levels f → l ≠ "#"%string ∧ l ≠ "+"%string).
  { intros l. by apply contains_hash_level. }
  rewrite match_levels_Forall2 by (intros H; by apply Hp in H as []).
  split; [|intros ->; clear; induction (levels t); constructor; [by right|done]].
  intros H. apply split_inj. unfold levels in *. revert H Hp. generalize (split f) (split t).
  induction 1 as [|x y l k Hxy _ IH]; intros Hp; [done|]. destruct Hxy as [-> | ->].
  - destruct (Hp "+"%string) as [_ []]; [set_solver|done].
  - f_equal. apply IH. intros. apply Hp. set_solver.
Qed.

(** A reader of a routing has a filter to subscribe with. *)
Lemma subscription_filter_ok r : routing_ok r →
  ∃ f, subscription_filter r = Ok f ∧ filter_ok f.
Proof.
  intros [Ht Hf]. unfold subscription_filter. destruct (filter r) as [f|]; [by exists f|].
  exists (topic r). apply topic_is_filter in Ht. split; [|done].
  unfold filter_ok in Ht. by rewrite Ht.
Qed.

#[export] Instance dollar_excluded_dec f t : Decision (dollar_excluded f t).
Proof. unfold dollar_excluded. destruct f, t; simpl; apply _. Defined.

(** A publish topic has no wildcard to start with. *)
Lemma topic_not_excluded f t : topic_ok f → ¬ dollar_excluded f t.
Proof.
  intros (_ & _ & (_ & _ & H2 & H3)%first_violation_None)%topic_ok_inv [Hw _].
  destruct f as [|c f]; [done|]. simpl in *.
  apply orb_false_iff in H2 as [H2%bool_decide_eq_false _], H3 as [H3%bool_decide_eq_false _].
  tauto.
Qed.

(** The code's answer and the standard's. *)
Lemma topic_matches_standard f t : filter_ok f →
  topic_matches f t = true ↔
  mqtt_matches f t ∨ (dollar_excluded f t ∧ levels_match (levels f) (levels t)).
Proof.
  intros Hf. rewrite topic_matches_spec by done. unfold mqtt_matches.
  destruct (decide (dollar_excluded f t)); tauto.
Qed.

(** C28. Matching against MQTT 3.1.1, on a filter and a topic that passed validation.
    [topic_matches] answers what the level rules of section 4.7.1 say.  It answers
    what section 4.7 as a whole says unless the filter starts with a wildcard and the
    topic with a dollar sign: those pairs section 4.7.2 excludes, whatever their
    levels, and [topic_matches] treats them as any other, so the two differ exactly
    on the excluded pairs whose levels match, which the code matches.  A publish topic
    is also a filter, so [subscription_filter] never panics; as a filter it matches
    that topic alone, as the standard says. *)
Theorem matching_exact f t : filter_ok f → topic_ok t →
  (topic_matches f t = true ↔ levels_match (levels f) (levels t)) ∧
  (¬ dollar_excluded f t → topic_matches f t = true ↔ mqtt_matches f t) ∧
  (dollar_excluded f t → ¬ mqtt_matches f t) ∧
  (topic_matches f t = true ∧ ¬ mqtt_matches f t ↔
     dollar_excluded f t ∧ levels_match (levels f) (levels t)) ∧
  (topic_matches f t = false → ¬ mqtt_matches f t) ∧
  filter_ok t ∧
  (∀ t', (topic_matches t t' = true ↔ t = t') ∧ (mqtt_matches t t' ↔ t = t')) ∧
  (∀ r, routing_ok r → ∃ f', subscription_filter r = Ok f' ∧ filter_ok f').
Proof.
  intros Hf Ht. pose proof (topic_matches_spec f t Hf) as Hs.
  pose proof (topic_matches_standard f t Hf) as Hm.
  assert (mqtt_matches f t → ¬ dollar_excluded f t) as Hd by (unfold mqtt_matches; tauto).
  split_and!.
  - done.
  - tauto.
  - tauto.
  - destruct (decide (dollar_excluded f t)); tauto.
  - intros Hno Hy. rewrite (proj2 Hm) in Hno by tauto. done.
  - by apply topic_is_filter.
  - intros t'. pose proof (plain_filter_matches t t' Ht) as Hp. split; [done|].
    rewrite <- Hp, topic_matches_spec by by apply topic_is_filter.
    unfold mqtt_matches. pose proof (topic_not_excluded t t' Ht). tauto.
  - apply subscription_filter_ok.
Qed.
Lemma matching_exact_witness :
  mqtt_matches "sport/+/#" "sport/tennis/player1" ∧
  (topic_matches "+/uptime" "$SYS/uptime" = true ∧ ¬ mqtt_matches "+/uptime" "$SYS/uptime") ∧
  mqtt_matches "$SYS/#" "$SYS/uptime".
Proof.
  destruct (matching_exact "sport/+/#" "sport/tennis/player1") as (_ & Hs & _);
    [vm_compute; reflexivity..|].
  destruct (matching_exact "+/uptime" "$SYS/uptime") as (_ & _ & Hd & _);
    [vm_compute; reflexivity..|].
  destruct (matching_exact "$SYS/#" "$SYS/uptime") as (_ & Hl & _); [vm_compute; reflexivity..|].
  split_and!.
  - apply Hs; [|vm_compute; reflexivity]. intros [[Hc|Hc] _]; discriminate Hc.
  - vm_compute; reflexivity.
  - apply Hd. split; [left|]; reflexivity.
  - apply Hl; [|vm_compute; reflexivity]. intros [[Hc|Hc] _]; discriminate Hc.
Defined.

(** Filters of either wildcard match a topic of the server's own tree. *)
Lemma dollar_matched : topic_matches "#" "$SYS/uptime" = true ∧ topic_matches "+/uptime" "$SYS/uptime" = true.
Proof. split; vm_compute; reflexivity. Qed.
End MqttTopic.
