(* ===== verification/MqttConn.v ===== *)
(** * The MQTT connector

    Models [taktora-connector-mqtt/src/]: health.rs, inbound.rs (the demultiplexer
    and the reference-counted subscriptions), registry.rs, options.rs, the outbound
    drain and the bridged publisher of dispatcher.rs, the creation of channels, the
    registration and the health watcher of connector.rs, and of real.rs the state
    that the pump of the event loop keeps.

    rumqttc, the broker and shared memory are the environment: an event of the pump
    is what [poll] returned, and each operation is given what the calls it makes
    return.  A request that the client accepted is sent once the session is
    connected; a connection starts with a clean session, so the broker knows only
    the subscriptions it received since the CONNACK. *)

From stdpp Require Import base gmap strings pretty list.
From Stdlib Require Import ZArith Lia.
From S2P Require Import Prelude J1939Dispatch ConnHealth MqttTopic.

Module MqttConn.
Import MqttTopic.
Import Dispatch(InboundPublish, MkPublish, envelope, ConnectorError, Configuration, Stack, BackPressure,
  Direction, Outbound, Inbound, drain_into).
Import ConnHealth(ConnectorHealth, Up, Connecting, Degraded, Down, HealthMonitor, HealthEvent,
  IllegalTransition, Hub, KUp, KConnecting, KDegraded, KDown).

#[export] Existing Instance ConnHealth.kind_eq_dec.
#[export] Existing Instance Dispatch.Direction_eq_dec.

(** ** Options *)

Record MqttConnectorOptions := MkOptions {
  broker_host : string;
  broker_port : Z;
  client_id : string;
  keep_alive : Z;
  clean_session : bool;
  credentials : option (string * string);
  tls : option (list Z);
  outbound_bridge_capacity : nat;
  inbound_bridge_capacity : nat;
  inbound_drop_threshold : N;
  reconnect_initial_backoff : Z;
  reconnect_max_backoff : Z;
  reconnect_attempt_ceiling : Z;
}.
(** Durations are in milliseconds. *)
Definition options_new : MqttConnectorOptions :=
  MkOptions "localhost" 1883 "taktora-mqtt" 60000 true None None 64 64 1 100 30000 10.
Definition build (o : MqttConnectorOptions) : MqttConnectorOptions :=
  MkOptions (broker_host o) (broker_port o) (client_id o) (keep_alive o) (clean_session o)
    (credentials o) (tls o) (Nat.max 1 (outbound_bridge_capacity o))
    (Nat.max 1 (inbound_bridge_capacity o)) (N.max 1 (inbound_drop_threshold o))
    (reconnect_initial_backoff o) (reconnect_max_backoff o) (reconnect_attempt_ceiling o).

(** ** Health *)

Record MqttHealthMonitor := MkHealth {
  inner : HealthMonitor;
  hub : Hub;
  degraded_due_to_drops : bool;
  degraded_due_to_backpressure : bool;
}.
Definition health_new (now : Z) : MqttHealthMonitor :=
  MkHealth (ConnHealth.monitor_new now) ConnHealth.hub_new false false.
(** Re-arming of the latches on a transition to [Up], and the broadcast. *)
Definition emit (h : MqttHealthMonitor) (m : HealthMonitor) (e : HealthEvent) : MqttHealthMonitor :=
  let up := bool_decide (ConnHealth.kind (ConnHealth.ev_to e) = KUp) in
  MkHealth m (ConnHealth.broadcast (hub h) e)
    (if up then false else degraded_due_to_drops h)
    (if up then false else degraded_due_to_backpressure h).
Definition transition_to (h : MqttHealthMonitor) (target : ConnectorHealth) (now : Z) :
  MqttHealthMonitor * (HealthEvent + IllegalTransition) :=
  match ConnHealth.try_transition_to (inner h) target now with
  | inr e => (h, inr e)
  | inl (m, e) => (emit h m e, inl e)
  end.
Definition with_inner (h : MqttHealthMonitor) (m : HealthMonitor) : MqttHealthMonitor :=
  MkHealth m (hub h) (degraded_due_to_drops h) (degraded_due_to_backpressure h).
Definition apply_target (h : MqttHealthMonitor) (target : ConnectorHealth) (now : Z) :
  MqttHealthMonitor * option HealthEvent :=
  let current := ConnHealth.kind (inner h) in
  let target_kind := ConnHealth.kind target in
  if bool_decide (current = target_kind) then (h, None)
  else
    let m :=
      if bool_decide (current = KUp ∧ target_kind = KConnecting) then
        match ConnHealth.try_transition_to (inner h) (Degraded "connection lost; reconnecting") now with
        | inl (m, _) => m
        | inr _ => inner h
        end
      else inner h in
    match ConnHealth.try_transition_to m target now with
    | inl (m, e) => (emit h m e, Some e)
    | inr _ => (with_inner h m, None)
    end.
Definition record_inbound_drop (h : MqttHealthMonitor) (count threshold : N) (now : Z) :
  MqttHealthMonitor * option HealthEvent :=
  if (count <? threshold)%N || degraded_due_to_drops h then (h, None)
  else if negb (bool_decide (ConnHealth.kind (inner h) = KUp))
  then (MkHealth (inner h) (hub h) true (degraded_due_to_backpressure h), None)
  else
    match ConnHealth.try_transition_to (inner h)
            (Degraded ("dropped " +:+ pretty count +:+ " inbound frames")) now with
    | inl (m, e) =>
        (MkHealth m (ConnHealth.broadcast (hub h) e) true (degraded_due_to_backpressure h), Some e)
    | inr _ => (h, None)
    end.
Definition record_outbound_backpressure (h : MqttHealthMonitor) (now : Z) :
  MqttHealthMonitor * option HealthEvent :=
  if degraded_due_to_backpressure h then (h, None)
  else
    let k := ConnHealth.kind (inner h) in
    if negb (bool_decide (k = KUp ∨ k = KConnecting))
    then (MkHealth (inner h) (hub h) (degraded_due_to_drops h) true, None)
    else
      match ConnHealth.try_transition_to (inner h) (Degraded "outbound backpressure") now with
      | inl (m, e) =>
          (MkHealth m (ConnHealth.broadcast (hub h) e) (degraded_due_to_drops h) true, Some e)
      | inr _ => (h, None)
      end.

(** The outbound gate over a bridge of [capacity] holding [queued] messages whose
    receiver may be gone. *)
Record OutboundBridge := MkOutBridge { ob_capacity : nat; ob_queued : nat; ob_connected : bool }.
Definition outbound_new (capacity : nat) : OutboundBridge := MkOutBridge (Nat.max 1 capacity) 0 true.
Definition outbound_try_send (b : OutboundBridge) (h : MqttHealthMonitor) (now : Z) :
  OutboundBridge * MqttHealthMonitor * option ConnectorError :=
  if negb (ob_connected b) then (b, h, Some BackPressure)
  else if (ob_queued b <? ob_capacity b)%nat
  then (MkOutBridge (ob_capacity b) (S (ob_queued b)) true, h, None)
  else (b, fst (record_outbound_backpressure h now), Some BackPressure).

(** [BridgedInboundPublish]: the same bridge and port as the CAN connectors use. *)
Definition publish_bytes (p : InboundPublish) (h : MqttHealthMonitor) (bytes : list Z) (now : Z) :
  InboundPublish * MqttHealthMonitor * option ConnectorError :=
  match Dispatch.bridge_try_send p with
  | (p, None) =>
      let '(p, r) := Dispatch.send_raw_bytes (Dispatch.bridge_try_recv p) bytes in (p, h, r)
  | (p, Some count) => (p, fst (record_inbound_drop h count (Dispatch.threshold p) now), None)
  end.

(** ** The inbound table *)

(** A publisher is shared by reference: its number among the ports. *)
Record InboundRoute := MkRoute {
  rt_filter : MqttTopicFilter;
  publisher : nat;
  rt_name : string;
}.
(** The handle of the real session sends UNSUBSCRIBE for its filter when dropped. *)
Definition SubscriptionHandle := MqttTopicFilter.
Record BrokerSubscription := MkSub {
  sub_filter : MqttTopicFilter;
  refcount : nat;
  handle : SubscriptionHandle;
}.
Record InboundTable := MkTable {
  routes : list InboundRoute;
  subscriptions : list BrokerSubscription;
  replay_handles : list SubscriptionHandle;
}.
Definition table_new : InboundTable := MkTable [] [] [].

Fixpoint bump (f : MqttTopicFilter) (ss : list BrokerSubscription) : option (list BrokerSubscription) :=
  match ss with
  | [] => None
  | s :: ss =>
      if bool_decide (sub_filter s = f)
      then Some (MkSub (sub_filter s) (S (refcount s)) (handle s) :: ss)
      else cons s <$> bump f ss
  end.
Definition add_route (t : InboundTable) (f : MqttTopicFilter) (p : nat) (name : string) :
  InboundTable * bool :=
  let rs := routes t ++ [MkRoute f p name] in
  match bump f (subscriptions t) with
  | Some ss => (MkTable rs ss (replay_handles t), false)
  | None => (MkTable rs (subscriptions t) (replay_handles t), true)
  end.
Definition record_subscription (t : InboundTable) (f : MqttTopicFilter) (h : SubscriptionHandle) :
  InboundTable :=
  MkTable (routes t) (subscriptions t ++ [MkSub f 1 h]) (replay_handles t).

(** [Vec::remove] of the first route of that name. *)
Fixpoint take_route (name : string) (rs : list InboundRoute) :
  option (InboundRoute * list InboundRoute) :=
  match rs with
  | [] => None
  | r :: rs =>
      if bool_decide (rt_name r = name) then Some (r, rs)
      else '(x, rs) ← take_route name rs; Some (x, r :: rs)
  end.
(** One reference less on the first subscription of [f]; the handle is released
    with the last one.  The count is a [usize] and is decremented with a check. *)
Fixpoint release (f : MqttTopicFilter) (ss : list BrokerSubscription) :
  res (list BrokerSubscription * option SubscriptionHandle) :=
  match ss with
  | [] => Ok ([], None)
  | s :: ss =>
      if bool_decide (sub_filter s = f) then
        match refcount s with
        | 0 => Panic
        | 1 => Ok (ss, Some (handle s))
        | S n => Ok (MkSub (sub_filter s) n (handle s) :: ss, None)
        end%nat
      else '(ss, h) ← release f ss; Ok (s :: ss, h)
  end.
Definition remove_channel (t : InboundTable) (name : string) :
  res (InboundTable * option SubscriptionHandle) :=
  match take_route name (routes t) with
  | None => Ok (t, None)
  | Some (r, rs) =>
      '(ss, h) ← release (rt_filter r) (subscriptions t);
      Ok (MkTable rs ss (replay_handles t), h)
  end.
Definition active_filters (t : InboundTable) : list MqttTopicFilter := sub_filter <$> subscriptions t.
Definition push_replay_handle (t : InboundTable) (h : SubscriptionHandle) : InboundTable :=
  MkTable (routes t) (subscriptions t) (replay_handles t ++ [h]).
Definition matching_publishers (t : InboundTable) (tp : MqttTopic) : list nat :=
  publisher <$> List.filter (λ r, topic_matches (rt_filter r) tp) (routes t).

(** The fan-out to the publishers; their results are ignored. *)
Fixpoint fan_out (pubs : list nat) (payload : list Z) (now : Z)
    (ps : list InboundPublish) (h : MqttHealthMonitor) : list InboundPublish * MqttHealthMonitor :=
  match pubs with
  | [] => (ps, h)
  | i :: pubs =>
      match ps !! i with
      | None => fan_out pubs payload now ps h
      | Some p =>
          let '(p, h, _) := publish_bytes p h payload now in
          fan_out pubs payload now (<[i := p]> ps) h
      end
  end.
Definition route_inbound (t : InboundTable) (tp : MqttTopic) (payload : list Z) (now : Z)
    (ps : list InboundPublish) (h : MqttHealthMonitor) : list InboundPublish * MqttHealthMonitor :=
  fan_out (matching_publishers t tp) payload now ps h.

(** ** The registry *)

Inductive ChannelBinding := BoundOut (pending : list envelope) | BoundIn (publisher : nat).
Record RegisteredChannel := MkChan {
  descriptor_name : string;
  routing : MqttRouting;
  direction : Direction;
  binding : ChannelBinding;
}.
Definition ChannelRegistry := list RegisteredChannel.
Definition duplicate (g : ChannelRegistry) (name : string) (d : Direction) : bool :=
  existsb (λ e, bool_decide (descriptor_name e = name ∧ direction e = d)) g.
Definition register (g : ChannelRegistry) (name : string) (r : MqttRouting) (d : Direction)
    (b : ChannelBinding) : ChannelRegistry + ConnectorError :=
  if duplicate g name d then inr (Configuration "already registered")
  else inl (g ++ [MkChan name r d b]).

(** ** The session *)

Inductive MqttConnectionState :=
| SConnecting
| SConnected
| SDisconnected (reason : string)
| SAuthRejected (reason : string).
Definition connected (s : MqttConnectionState) : bool :=
  match s with SConnected => true | _ => false end.

(** Requests on their way to the broker. *)
Inductive packet := Subscribe (f : MqttTopicFilter) | Unsubscribe (f : MqttTopicFilter).
Definition broker_step (b : gset string) (p : packet) : gset string :=
  match p with Subscribe f => {[f]} ∪ b | Unsubscribe f => b ∖ {[f]} end.

(** [Shared] with the pump's backoff, and around it the requests not yet sent, the
    subscriptions the broker holds and the messages handed over for publishing. *)
Record Session := MkSession {
  s_state : MqttConnectionState;
  s_attempts : Z;
  s_router : bool;
  s_backoff : Z;
  s_pumping : bool;
  s_queue : list packet;
  s_broker : gset string;
  s_sent : list (MqttRouting * list Z);
}.
Definition session_new (o : MqttConnectorOptions) : Session :=
  MkSession SConnecting 0 false (reconnect_initial_backoff o) true [] ∅ [].
Definition set_state (s : Session) (st : MqttConnectionState) : Session :=
  MkSession st (s_attempts s) (s_router s) (s_backoff s) (s_pumping s) (s_queue s) (s_broker s) (s_sent s).
Definition set_inbound_router (s : Session) : Session :=
  MkSession (s_state s) (s_attempts s) true (s_backoff s) (s_pumping s) (s_queue s) (s_broker s) (s_sent s).
Definition set_backoff (s : Session) (b : Z) : Session :=
  MkSession (s_state s) (s_attempts s) (s_router s) b (s_pumping s) (s_queue s) (s_broker s) (s_sent s).
Definition set_pumping (s : Session) (b : bool) : Session :=
  MkSession (s_state s) (s_attempts s) (s_router s) (s_backoff s) b (s_queue s) (s_broker s) (s_sent s).
(** The client accepts a request. *)
Definition submit (s : Session) (p : packet) : Session :=
  if connected (s_state s)
  then MkSession (s_state s) (s_attempts s) (s_router s) (s_backoff s) (s_pumping s) (s_queue s)
         (broker_step (s_broker s) p) (s_sent s)
  else MkSession (s_state s) (s_attempts s) (s_router s) (s_backoff s) (s_pumping s) (s_queue s ++ [p])
         (s_broker s) (s_sent s).
(** A new connection: a clean session at the broker, then the waiting requests. *)
Definition clean_connection (s : Session) : Session :=
  MkSession (s_state s) (s_attempts s) (s_router s) (s_backoff s) (s_pumping s) []
    (foldl broker_step ∅ (s_queue s)) (s_sent s).
(** [session.subscribe], given what the client's call returns. *)
Definition subscribe (s : Session) (f : MqttTopicFilter) (accepted : bool) :
  Session * option SubscriptionHandle :=
  if accepted then (submit s (Subscribe f), Some f) else (s, None).
(** Dropping a handle: [try_unsubscribe], whose failure is only logged. *)
Definition drop_handle (s : Session) (h : SubscriptionHandle) (accepted : bool) : Session :=
  if accepted then submit s (Unsubscribe h) else s.
Definition publish (s : Session) (r : MqttRouting) (payload : list Z) (accepted : bool) : Session * bool :=
  if accepted
  then (MkSession (s_state s) (s_attempts s) (s_router s) (s_backoff s) (s_pumping s) (s_queue s)
          (s_broker s) (s_sent s ++ [(r, payload)]), true)
  else (s, false).

Definition on_connack (s : Session) (success : bool) (code : string) : Session :=
  if success
  then MkSession SConnected 0 (s_router s) (s_backoff s) (s_pumping s) (s_queue s) (s_broker s) (s_sent s)
  else set_state s (SAuthRejected code).
Definition on_connection_error (s : Session) : Session :=
  MkSession SConnecting (wrap 32 (s_attempts s + 1)) (s_router s) (s_backoff s) (s_pumping s) (s_queue s)
    (s_broker s) (s_sent s).

(** ** The connector *)

Inductive Watcher := WNotStarted | WRunning (last : MqttConnectionState) | WStopped.
Record Mqtt := MkMqtt {
  q_options : MqttConnectorOptions;
  q_health : MqttHealthMonitor;
  q_registry : ChannelRegistry;
  q_inbound : InboundTable;
  q_ports : list InboundPublish;
  q_slot : bool;
  q_session : Session;
  q_watcher : Watcher;
}.
Definition connector_new (o : MqttConnectorOptions) (now : Z) : Mqtt :=
  MkMqtt o (health_new now) [] table_new [] true (session_new o) WNotStarted.
Definition with_health (q : Mqtt) x := MkMqtt (q_options q) x (q_registry q) (q_inbound q) (q_ports q)
  (q_slot q) (q_session q) (q_watcher q).
Definition with_registry (q : Mqtt) x := MkMqtt (q_options q) (q_health q) x (q_inbound q) (q_ports q)
  (q_slot q) (q_session q) (q_watcher q).
Definition with_inbound (q : Mqtt) x := MkMqtt (q_options q) (q_health q) (q_registry q) x (q_ports q)
  (q_slot q) (q_session q) (q_watcher q).
Definition with_ports (q : Mqtt) x := MkMqtt (q_options q) (q_health q) (q_registry q) (q_inbound q) x
  (q_slot q) (q_session q) (q_watcher q).
Definition with_session (q : Mqtt) x := MkMqtt (q_options q) (q_health q) (q_registry q) (q_inbound q)
  (q_ports q) (q_slot q) x (q_watcher q).
Definition with_watcher (q : Mqtt) x := MkMqtt (q_options q) (q_health q) (q_registry q) (q_inbound q)
  (q_ports q) (q_slot q) (q_session q) x.
Definition take_session (q : Mqtt) : Mqtt :=
  MkMqtt (q_options q) (q_health q) (q_registry q) (q_inbound q) (q_ports q) false (q_session q) (q_watcher q).

(** What the environment answers while a channel is created: the first error of
    the descriptor and the two ports, the size and the acceptance of the port, whether
    the gateway's runtime is alive, and whether the client accepts the SUBSCRIBE. *)
Record create_env := MkEnv {
  e_ports : option ConnectorError;
  e_max : Z;
  e_iox : nat → bool;
  e_gateway : bool;
  e_subscribe : bool;
}.

Definition install_inbound_router (q : Mqtt) : Mqtt :=
  if q_slot q then with_session q (set_inbound_router (q_session q)) else q.
Definition register_inbound (q : Mqtt) (name : string) (f : MqttTopicFilter) (p : nat) (e : create_env) :
  Mqtt * option ConnectorError :=
  let '(t, need_subscribe) := add_route (q_inbound q) f p name in
  let q := install_inbound_router (with_inbound q t) in
  if negb need_subscribe then (q, None)
  else if negb (q_slot q) then (q, Some (Stack "session already taken"))
  else if negb (e_gateway e) then (q, Some (Stack "gateway shut down"))
  else
    match subscribe (q_session q) f (e_subscribe e) with
    | (s, None) => (with_session q s, Some (Stack "session operation failed"))
    | (s, Some h) =>
        (with_inbound (with_session q s) (record_subscription (q_inbound q) f h), None)
    end.
Definition create_reader (q : Mqtt) (name : string) (r : MqttRouting) (e : create_env) :
  res (Mqtt * option ConnectorError) :=
  f ← subscription_filter r;
  match e_ports e with
  | Some err => Ok (q, Some err)
  | None =>
      let p := length (q_ports q) in
      let port := MkPublish (Nat.max 1 (inbound_bridge_capacity (q_options q))) 0 0
                    (inbound_drop_threshold (q_options q)) (e_max e) (e_iox e) [] in
      match register_inbound (with_ports q (q_ports q ++ [port])) name f p e with
      | (q, Some err) => Ok (q, Some err)
      | (q, None) =>
          match register (q_registry q) name r Inbound (BoundIn p) with
          | inr err => Ok (q, Some err)
          | inl g => Ok (with_registry q g, None)
          end
      end
  end.
Definition create_writer (q : Mqtt) (name : string) (r : MqttRouting) (e : create_env) :
  Mqtt * option ConnectorError :=
  match e_ports e with
  | Some err => (q, Some err)
  | None =>
      match register (q_registry q) name r Outbound (BoundOut []) with
      | inr err => (q, Some err)
      | inl g => (with_registry q g, None)
      end
  end.

(** [register_with]; [item] is what adding the heartbeat item returns. *)
Definition register_with (q : Mqtt) (gateway : bool) (item : option ConnectorError) (now : Z) :
  Mqtt * option ConnectorError :=
  if negb (q_slot q) then (q, Some (Stack "register_with already called"))
  else
    let q := take_session q in
    if negb gateway then (q, Some (Stack "gateway shut down"))
    else
      let q := if connected (s_state (q_session q))
               then with_health q (fst (transition_to (q_health q) Up now)) else q in
      (with_watcher q (WRunning (s_state (q_session q))), item).

(** ** The health watcher *)

Definition is_reconnect (last now : MqttConnectionState) : bool := connected now && negb (connected last).
Definition map_health (st : MqttConnectionState) (attempts ceiling now : Z) : ConnectorHealth :=
  match st with
  | SAuthRejected reason => Down ("authentication rejected: " +:+ reason) now
  | _ =>
      if attempts >? ceiling
      then Down ("reconnect attempts " +:+ pretty attempts +:+ " exceeded ceiling " +:+ pretty ceiling) now
      else match st with SConnected => Up | _ => Connecting now end
  end.
(** The replay of the active filters, given what the client answers to each. *)
Fixpoint replay (fs : list MqttTopicFilter) (answers : list bool) (t : InboundTable) (s : Session) :
  InboundTable * Session :=
  match fs with
  | [] => (t, s)
  | f :: fs =>
      match subscribe s f (default false (head answers)) with
      | (s, Some h) => replay fs (tail answers) (push_replay_handle t h) s
      | (s, None) => replay fs (tail answers) t s
      end
  end.
Definition replay_subscriptions (answers : list bool) (t : InboundTable) (s : Session) :
  InboundTable * Session := replay (active_filters t) answers t s.
(** One turn of the loop of [run_health_watcher]. *)
Definition watcher_poll (q : Mqtt) (answers : list bool) (now : Z) : Mqtt :=
  match q_watcher q with
  | WRunning last =>
      let st := s_state (q_session q) in
      let '(t, s) := if is_reconnect last st
                     then replay_subscriptions answers (q_inbound q) (q_session q)
                     else (q_inbound q, q_session q) in
      let q := with_session (with_inbound q t) s in
      let target := map_health st (s_attempts s) (reconnect_attempt_ceiling (q_options q)) now in
      let q := with_health q (fst (apply_target (q_health q) target now)) in
      with_watcher q (if bool_decide (ConnHealth.kind target = KDown) then WStopped else WRunning st)
  | _ => q
  end.

(** ** The pump *)

(** What [poll] of the event loop returns. *)
Inductive poll_result :=
| PConnAck (success : bool) (code : string)
| PPublish (tp : string) (payload : list Z)
| POther
| PRefused (code : string)
| PError.

Definition route_publish (q : Mqtt) (tp : string) (payload : list Z) (now : Z) : Mqtt :=
  match s_router (q_session q), MqttTopic_new tp with
  | true, inl tp =>
      let '(ps, h) := route_inbound (q_inbound q) tp payload now (q_ports q) (q_health q) in
      with_health (with_ports q ps) h
  | _, _ => q
  end.
Definition apply_event (q : Mqtt) (e : poll_result) (now : Z) : Mqtt :=
  match e with
  | PConnAck ok code =>
      let s := on_connack (q_session q) ok code in
      with_session q (if ok then clean_connection s else s)
  | PPublish tp payload => route_publish q tp payload now
  | _ => q
  end.
(** One turn of the loop of [run_pump]; [Duration::saturating_mul] stays below its
    maximum under the bound. *)
Definition pump (q : Mqtt) (e : poll_result) (now : Z) : Mqtt :=
  if negb (s_pumping (q_session q)) then q
  else
    match e with
    | PRefused code =>
        with_session q (set_pumping (set_state (q_session q) (SAuthRejected code)) false)
    | PError =>
        let s := on_connection_error (q_session q) in
        with_session q (set_backoff s (Z.min (s_backoff s * 2) (reconnect_max_backoff (q_options q))))
    | _ =>
        let q := apply_event q e now in
        with_session q (set_backoff (q_session q) (reconnect_initial_backoff (q_options q)))
    end.

(** ** The outbound drain *)

Definition MAX_DRAIN_SCRATCH : Z := 4096.
(** The drain of one channel: [while let Ok(Some(n))]; an envelope that is not
    taken has left the port, too.  [accepted] answers the publishes. *)
Fixpoint drain_channel (r : MqttRouting) (pending : list envelope) (accepted : nat → bool) (k : nat)
    (s : Session) : list envelope * nat * Session * nat :=
  match pending with
  | [] => ([], k, s, 0%nat)
  | env :: pending =>
      match drain_into env MAX_DRAIN_SCRATCH with
      | inl (Some bytes) =>
          let '(s, ok) := publish s r bytes (accepted k) in
          let '(rest, k, s, n) := drain_channel r pending accepted (S k) s in
          (rest, k, s, if ok then S n else n)
      | _ => (pending, k, s, 0%nat)
      end
  end.
Fixpoint drain_all (g : ChannelRegistry) (accepted : nat → bool) (k : nat) (s : Session) :
  ChannelRegistry * Session * nat :=
  match g with
  | [] => ([], s, 0%nat)
  | c :: g =>
      match binding c with
      | BoundIn _ => let '(g, s, n) := drain_all g accepted k s in (c :: g, s, n)
      | BoundOut pending =>
          let '(rest, k, s, n) := drain_channel (routing c) pending accepted k s in
          let '(g, s, m) := drain_all g accepted k s in
          (MkChan (descriptor_name c) (routing c) (direction c) (BoundOut rest) :: g, s, (n + m)%nat)
      end
  end.
Definition dispatch_outbound_once (q : Mqtt) (accepted : nat → bool) : Mqtt * nat :=
  let '(g, s, n) := drain_all (q_registry q) accepted 0 (q_session q) in
  (with_session (with_registry q g) s, n).

(** ** Runs *)

Inductive op :=
| CreateReader (name : string) (r : MqttRouting) (e : create_env)
| CreateWriter (name : string) (r : MqttRouting) (e : create_env)
| RegisterWith (gateway : bool) (item : option ConnectorError) (now : Z)
| Write (chan : nat) (e : envelope)
| DispatchOutbound (accepted : nat → bool)
| Pump (e : poll_result) (now : Z)
| WatcherPoll (answers : list bool) (now : Z)
| RemoveChannel (name : string) (accepted : bool)
| StopWatcher.

(** The application writes to an outbound channel. *)
Definition write_channel (c : RegisteredChannel) (e : envelope) : RegisteredChannel :=
  match binding c with
  | BoundOut pending => MkChan (descriptor_name c) (routing c) (direction c) (BoundOut (pending ++ [e]))
  | BoundIn _ => c
  end.
Definition do_op (q : Mqtt) (o : op) : res Mqtt :=
  match o with
  | CreateReader name r e => fst <$> create_reader q name r e
  | CreateWriter name r e => Ok (fst (create_writer q name r e))
  | RegisterWith gw item now => Ok (fst (register_with q gw item now))
  | Write chan e => Ok (with_registry q (alter (λ c, write_channel c e) chan (q_registry q)))
  | DispatchOutbound accepted => Ok (fst (dispatch_outbound_once q accepted))
  | Pump e now => Ok (pump q e now)
  | WatcherPoll answers now => Ok (watcher_poll q answers now)
  | RemoveChannel name accepted =>
      '(t, h) ← remove_channel (q_inbound q) name;
      let q := with_inbound q t in
      Ok (match h with Some h => with_session q (drop_handle (q_session q) h accepted) | None => q end)
  | StopWatcher => Ok (match q_watcher q with WRunning _ => with_watcher q WStopped | _ => q end)
  end.
Fixpoint run (q : Mqtt) (os : list op) : res Mqtt :=
  match os with
  | [] => Ok q
  | o :: os => q ← do_op q o; run q os
  end.
End MqttConn.
