(* ===== verification/MqttConnOk.v ===== *)
(** * Correctness of the MQTT connector

    Over runs in which the client accepts every SUBSCRIBE and the health watcher
    polls between the loss of a connection and the next CONNACK:
    - the subscriptions of the inbound table have distinct filters, are counted once
      per channel, and cover every channel;
    - whenever the watcher has seen the session connected, the broker holds a
      subscription for the filter of every channel;
    - an incoming message is published once on every channel whose filter matches
      its topic and on no other. *)

From stdpp Require Import base gmap strings pretty list.
From Stdlib Require Import ZArith Lia.
From S2P Require Import Prelude J1939Dispatch ConnHealth MqttTopic MqttConn.

Module MqttConnOk.
Import MqttTopic MqttConn.

(** ** The inbound table *)

Definition count (f : MqttTopicFilter) (rs : list InboundRoute) : nat :=
  length (List.filter (λ r, bool_decide (rt_filter r = f)) rs).
Definition here (f g : MqttTopicFilter) : nat := if bool_decide (f = g) then 1 else 0.
(** The table: distinct filters, exact reference counts, every channel covered. *)
Record table_ok (t : InboundTable) : Prop := {
  tk_distinct : NoDup (active_filters t);
  tk_handle s : s ∈ subscriptions t → handle s = sub_filter s;
  tk_live s : s ∈ subscriptions t → (1 ≤ refcount s)%nat;
  tk_exact s : s ∈ subscriptions t → refcount s = count (sub_filter s) (routes t);
  tk_covered r : r ∈ routes t → rt_filter r ∈ active_filters t;
}.

Lemma count_app f rs rs' : count f (rs ++ rs') = (count f rs + count f rs')%nat.
Proof. unfold count. by rewrite List.filter_app, length_app. Qed.
Lemma count_cons f r rs : count f (r :: rs) = (here (rt_filter r) f + count f rs)%nat.
Proof. unfold count, here. simpl. by case_bool_decide. Qed.
Lemma count_nil f : count f [] = 0%nat.
Proof. done. Qed.
Lemma here_sym f g : here f g = here g f.
Proof. unfold here. by rewrite (bool_decide_ext (f = g) (g = f)). Qed.
Lemma filter_count_pos f rs : (0 < count f rs)%nat ↔ ∃ r, r ∈ rs ∧ rt_filter r = f.
Proof.
  induction rs as [|r rs IH]; [split; [unfold count; simpl; lia|intros (? & ? & ?); set_solver]|].
  rewrite count_cons. unfold here. case_bool_decide as E.
  - split; [|lia]. intros _. exists r. set_solver.
  - rewrite Nat.add_0_l, IH. set_solver.
Qed.

Lemma bump_None f ss : bump f ss = None ↔ f ∉ sub_filter <$> ss.
Proof.
  induction ss as [|s ss IH]; simpl; [set_solver|]. case_bool_decide as E.
  - split; [done|]. set_solver.
  - rewrite fmap_None, IH. set_solver.
Qed.
Lemma bump_Some f ss ss' : bump f ss = Some ss' → NoDup (sub_filter <$> ss) →
  sub_filter <$> ss' = sub_filter <$> ss ∧
  (∀ s', s' ∈ ss' → ∃ s, s ∈ ss ∧ sub_filter s' = sub_filter s ∧ handle s' = handle s ∧
     refcount s' = (refcount s + here (sub_filter s) f)%nat).
Proof.
  revert ss'. induction ss as [|s ss IH]; intros ss'; [done|]. simpl. rewrite NoDup_cons.
  case_bool_decide as E.
  - intros [= <-] [Hn _]. split; [done|]. intros s' [->|Hin]%elem_of_cons.
    + exists s. unfold here. rewrite bool_decide_true by done. simpl. split_and!; [set_solver|done|done|lia].
    + exists s'. unfold here. rewrite bool_decide_false; [split_and!; [set_solver|done|done|lia]|].
      intros <-. destruct Hn. rewrite E. apply list_elem_of_fmap. eauto.
  - intros (ss1 & Hb & ->)%fmap_Some [Hn Hd]. destruct (IH _ Hb Hd) as [Hf Hs].
    split; [by rewrite !fmap_cons, Hf|]. intros s' [->|Hin]%elem_of_cons.
    + exists s. unfold here. rewrite bool_decide_false by done. split_and!; [set_solver|done|done|lia].
    + destruct (Hs _ Hin) as (s0 & ? & ?). exists s0. split; [set_solver|done].
Qed.

(** [add_route] of a subscribed filter. *)
Lemma add_route_shared t f p name t' : table_ok t → add_route t f p name = (t', false) →
  table_ok t' ∧ active_filters t' = active_filters t ∧ f ∈ active_filters t.
Proof.
  intros [Hd Hh Hl He Hc]. unfold add_route.
  destruct (bump f (subscriptions t)) as [ss|] eqn:Eb; [|done]. intros [= <-].
  destruct (bump_Some _ _ _ Eb Hd) as [Hf Hs].
  assert (Hin : f ∈ active_filters t).
  { destruct (decide (f ∈ active_filters t)) as [|Hn]; [done|]. apply bump_None in Hn. congruence. }
  split; [|done]. split; unfold active_filters in *; simpl in *.
  - by rewrite Hf.
  - intros s (s0 & Hi & -> & -> & _)%Hs. by apply Hh.
  - intros s (s0 & Hi & _ & _ & ->)%Hs. specialize (Hl _ Hi). lia.
  - intros s (s0 & Hi & -> & _ & ->)%Hs. rewrite (He _ Hi), count_app, count_cons, count_nil. simpl.
    rewrite (here_sym f). lia.
  - intros r. rewrite Hf, elem_of_app. intros [?%Hc|?]; [done|]. set_solver.
Qed.
(** [add_route] of a new filter, followed by the record of its subscription. *)
Lemma add_route_fresh t f p name t' : table_ok t → add_route t f p name = (t', true) →
  table_ok (record_subscription t' f f) ∧
  active_filters (record_subscription t' f f) = active_filters t ++ [f].
Proof.
  intros [Hd Hh Hl He Hc]. unfold add_route.
  destruct (bump f (subscriptions t)) as [ss|] eqn:Eb; [done|]. intros [= <-].
  apply bump_None in Eb. assert (Ha : active_filters (record_subscription
    (MkTable (routes t ++ [MkRoute f p name]) (subscriptions t) (replay_handles t)) f f) =
    active_filters t ++ [f]) by (unfold active_filters; simpl; by rewrite fmap_app).
  split; [|done]. split; rewrite ?Ha; simpl.
  - apply NoDup_app. split_and!; [done| |apply NoDup_singleton]. unfold active_filters. set_solver.
  - intros s [?|?]%elem_of_app; [by apply Hh|]. set_solver.
  - intros s [?|?]%elem_of_app; [by apply Hl|]. by assert (s = MkSub f 1 f) as -> by set_solver.
  - intros s [Hi|Hi]%elem_of_app; rewrite count_app, count_cons, count_nil; simpl; unfold here; simpl.
    + rewrite (He _ Hi), bool_decide_false; [simpl; lia|]. intros Hfs. destruct Eb. rewrite Hfs.
      apply list_elem_of_fmap. eauto.
    + assert (s = MkSub f 1 f) as -> by set_solver. simpl. rewrite bool_decide_true by done.
      assert (count f (routes t) = 0%nat) as ->; [|done].
      destruct (decide (0 < count f (routes t))%nat) as [(r & Hr & <-)%filter_count_pos|]; [|lia].
      by apply Hc in Hr.
  - intros r [?%Hc|?]%elem_of_app; set_solver.
Qed.

Lemma take_route_Some name rs r rs' : take_route name rs = Some (r, rs') →
  ∃ l1 l2, rs = l1 ++ r :: l2 ∧ rs' = l1 ++ l2.
Proof.
  revert rs'. induction rs as [|x rs IH]; intros rs'; [done|]. simpl. case_bool_decide.
  - intros [= -> ->]. by exists [], rs'.
  - intros H0. destruct (take_route name rs) as [[y rs1]|] eqn:E; [|done]. simpl in H0.
    injection H0 as -> <-. destruct (IH _ eq_refl) as (l1 & l2 & -> & ->). by exists (x :: l1), l2.
Qed.

Lemma release_spec f ss : NoDup (sub_filter <$> ss) → (∀ s, s ∈ ss → (1 ≤ refcount s)%nat) →
  (∀ s, s ∈ ss → handle s = sub_filter s) →
  f ∈ sub_filter <$> ss →
  ∃ ss' h, release f ss = Ok (ss', h) ∧
    (∀ s', s' ∈ ss' → (1 ≤ refcount s')%nat ∧ handle s' = sub_filter s' ∧
       ∃ s, s ∈ ss ∧ sub_filter s = sub_filter s' ∧ refcount s = (refcount s' + here (sub_filter s') f)%nat) ∧
    match h with
    | None => sub_filter <$> ss' = sub_filter <$> ss
    | Some g => g = f ∧ (∃ s, s ∈ ss ∧ sub_filter s = f ∧ refcount s = 1%nat) ∧
                sub_filter <$> ss' = List.filter (λ x, negb (bool_decide (x = f))) (sub_filter <$> ss)
    end.
Proof.
  induction ss as [|s ss IH]; simpl; [set_solver|]. intros [Hn Hd]%NoDup_cons Hl Hh Hf.
  assert (Hother : ∀ x, x ∈ ss → sub_filter s = f → here (sub_filter x) f = 0%nat).
  { intros x Hx <-. unfold here. rewrite bool_decide_false; [done|]. intros E. destruct Hn.
    rewrite <- E. apply list_elem_of_fmap. eauto. }
  case_bool_decide as E.
  - pose proof (Hl s ltac:(set_solver)) as Hls. pose proof (Hh s ltac:(set_solver)) as Hhs.
    destruct (refcount s) as [|[|n]] eqn:Er; [lia| |].
    + exists ss, (Some (handle s)). split; [done|]. split.
      * intros s' Hs'. split_and!; [apply Hl|apply Hh|]; [set_solver..|].
        exists s'. rewrite Hother by done. split_and!; [set_solver|done|lia].
      * simpl. split_and!; [congruence|exists s; set_solver|].
        symmetry. apply forallb_filter_id, forallb_forall. intros x Hx%list_elem_of_In.
        rewrite bool_decide_false; [done|]. intros ->. destruct Hn. by rewrite E.
    + eexists _, None. split; [done|]. split; [|done].
      intros s' [->|Hs']%elem_of_cons; simpl.
      * split_and!; [lia|done|]. exists s. unfold here. rewrite bool_decide_true by done.
        split_and!; [set_solver|done|lia].
      * split_and!; [apply Hl|apply Hh|]; [set_solver..|].
        exists s'. rewrite Hother by done. split_and!; [set_solver|done|lia].
  - destruct IH as (ss' & h & -> & Hs & Hm); [done|set_solver..|].
    exists (s :: ss'), h. split; [done|]. split.
    + intros s' [->|Hs']%elem_of_cons.
      * split_and!; [apply Hl; set_solver|apply Hh; set_solver|]. exists s. unfold here.
        rewrite bool_decide_false by done. split_and!; [set_solver|done|lia].
      * destruct (Hs _ Hs') as (? & ? & s0 & ? & ?). split_and!; [done|done|]. exists s0. set_solver.
    + destruct h as [g|]; [|by rewrite !fmap_cons, Hm]. destruct Hm as (-> & (s0 & ? & ?) & Hm).
      rewrite fmap_cons, Hm. simpl.
      split_and!; [done|exists s0; set_solver|done].
Qed.

(** [remove_channel]: the handle is released with the last channel of its filter. *)
Lemma remove_channel_ok t name : table_ok t →
  ∃ t' h, remove_channel t name = Ok (t', h) ∧ table_ok t' ∧
    (∃ rs, routes t ≡ₚ rs ++ routes t') ∧
    (∀ f, f ∈ active_filters t' ↔ f ∈ active_filters t ∧ h ≠ Some f).
Proof.
  intros [Hd Hh Hl He Hc]. unfold remove_channel.
  destruct (take_route name (routes t)) as [[r rs]|] eqn:Et.
  2:{ exists t, None. split_and!; [done|by split|by exists []|]. intros. by split; [|intros []]. }
  apply take_route_Some in Et as (l1 & l2 & Hr & ->).
  destruct (release_spec (rt_filter r) (subscriptions t)) as (ss & h & -> & Hs & Hm); try done.
  { apply Hc. rewrite Hr. set_solver. }
  assert (Hcnt : ∀ f, count f (routes t) = (here (rt_filter r) f + count f (l1 ++ l2))%nat).
  { intros f. rewrite Hr, !count_app, count_cons. lia. }
  assert (Hact : ∀ f, f ∈ sub_filter <$> ss ↔ f ∈ active_filters t ∧ h ≠ Some f).
  { intros f. destruct h as [g|].
    - destruct Hm as (-> & _ & ->). rewrite list_elem_of_In, filter_In, <- list_elem_of_In.
      unfold active_filters. case_bool_decide; simpl; naive_solver.
    - rewrite Hm. by split; [|intros []]. }
  exists (MkTable (l1 ++ l2) ss (replay_handles t)), h. split; [done|]. split_and!; [|exists [r]; simpl; by rewrite Hr, Permutation_middle|done].
  split; unfold active_filters; simpl.
  - destruct h as [g|]; [destruct Hm as (_ & _ & ->); by apply NoDup_ListNoDup, List.NoDup_filter, NoDup_ListNoDup|by rewrite Hm].
  - intros s Hi. by apply Hs.
  - intros s Hi. by apply Hs.
  - intros s Hi. destruct (Hs _ Hi) as (_ & _ & s0 & Hi0 & Hf0 & Hr0).
    pose proof (He _ Hi0) as Hx. rewrite Hf0, Hcnt, (here_sym (rt_filter r)) in Hx. lia.
  - intros r' Hr'. apply Hact. assert (Hin : r' ∈ routes t) by (rewrite Hr; set_solver).
    split; [by apply Hc|]. destruct h as [g|]; [|done]. destruct Hm as (-> & (s & Hs0 & Hf & H1) & _).
    intros [= Heq]. specialize (He _ Hs0). rewrite H1, Hf, Hcnt in He. unfold here in He.
    rewrite bool_decide_true in He by done.
    assert (0 < count (rt_filter r) (l1 ++ l2))%nat by (apply filter_count_pos; eauto). lia.
Qed.

(** ** The fan-out *)

(** A publisher nobody is inside of: its bridge admits the next message. *)
Definition idle (p : Dispatch.InboundPublish) : Prop :=
  Dispatch.queued p = 0%nat ∧ (1 ≤ Dispatch.capacity p)%nat.
Definition port_sends (payload : list Z) (p : Dispatch.InboundPublish) : Dispatch.InboundPublish :=
  fst (Dispatch.send_raw_bytes p payload).

Lemma publish_idle p h payload now : idle p →
  publish_bytes p h payload now = (port_sends payload p, h, snd (Dispatch.send_raw_bytes p payload)).
Proof.
  destruct p as [cap qd dr th mx ok pub]. intros [H1 H2]. simpl in H1, H2. subst qd.
  unfold publish_bytes, Dispatch.bridge_try_send, port_sends. simpl.
  replace (0 <? cap)%nat with true by (symmetry; apply Nat.ltb_lt; lia).
  unfold Dispatch.bridge_try_recv. simpl. by destruct (Dispatch.send_raw_bytes _ _).
Qed.
Lemma port_sends_idle payload p : idle p → idle (port_sends payload p).
Proof. unfold port_sends, Dispatch.send_raw_bytes, idle. by repeat case_match. Qed.

Lemma fan_out_spec pubs payload now ps h : NoDup pubs → Forall idle ps →
  ∃ ps', fan_out pubs payload now ps h = (ps', h) ∧ length ps' = length ps ∧ Forall idle ps' ∧
    ∀ i, ps' !! i = (if bool_decide (i ∈ pubs) then port_sends payload else id) <$> ps !! i.
Proof.
  revert ps. induction pubs as [|j pubs IH]; intros ps Hd Hi.
  - exists ps. split_and!; try done. intros i. simpl. by rewrite option_fmap_id.
  - apply NoDup_cons in Hd as [Hj Hd]. simpl. destruct (ps !! j) as [p|] eqn:Ej.
    + assert (Hp : idle p) by (eapply Forall_lookup_1; eauto).
      rewrite publish_idle by done. destruct (IH (<[j:=port_sends payload p]> ps)) as (ps' & -> & Hl & Hf & Hs); [done| |].
      { apply Forall_insert; [done|]. by apply port_sends_idle. }
      exists ps'. split_and!; [done|by rewrite Hl, length_insert|done|]. intros i. rewrite Hs.
      destruct (decide (i = j)) as [->|Hij].
      * rewrite list_lookup_insert_eq by (by eapply lookup_lt_Some).
        rewrite bool_decide_false by done. rewrite Ej. by rewrite bool_decide_true by set_solver.
      * rewrite list_lookup_insert_ne by done. f_equal.
        by rewrite (bool_decide_ext (i ∈ pubs) (i ∈ j :: pubs)) by set_solver.
    + destruct (IH ps Hd Hi) as (ps' & -> & Hl & Hf & Hs). exists ps'. split_and!; try done.
      intros i. rewrite Hs. destruct (decide (i = j)) as [->|Hij]; [by rewrite Ej|].
      f_equal. by rewrite (bool_decide_ext (i ∈ pubs) (i ∈ j :: pubs)) by set_solver.
Qed.

Lemma matching_elem t tp i :
  i ∈ matching_publishers t tp ↔ ∃ r, r ∈ routes t ∧ publisher r = i ∧ topic_matches (rt_filter r) tp = true.
Proof.
  unfold matching_publishers. rewrite list_elem_of_fmap. setoid_rewrite list_elem_of_In.
  setoid_rewrite filter_In. naive_solver.
Qed.
Lemma matching_nodup t tp : NoDup (publisher <$> routes t) → NoDup (matching_publishers t tp).
Proof.
  unfold matching_publishers. induction (routes t) as [|r rs IH]; [done|].
  rewrite fmap_cons. intros [Hn Hd]%NoDup_cons. simpl. specialize (IH Hd). case_match; [|done].
  rewrite fmap_cons. apply NoDup_cons. split; [|done]. intros (x & Hx & Hin)%list_elem_of_fmap.
  apply list_elem_of_In, filter_In in Hin as [Hin _]. destruct Hn. rewrite Hx.
  apply list_elem_of_fmap. exists x. split; [done|]. by apply list_elem_of_In.
Qed.

(** ** The broker's interest *)

(** The subscriptions the broker has, or will have when the session connects. *)
Definition interest (s : Session) : gset string :=
  if connected (s_state s) then s_broker s else foldl broker_step ∅ (s_queue s).
Definition covers (q : Mqtt) : Prop :=
  ∀ f, f ∈ active_filters (q_inbound q) → f ∈ interest (q_session q).

Lemma submit_interest s p : interest (submit s p) = broker_step (interest s) p.
Proof.
  unfold submit, interest. destruct (connected (s_state s)) eqn:E; simpl; rewrite E; [done|].
  by rewrite foldl_app.
Qed.
Lemma submit_state s p : s_state (submit s p) = s_state s.
Proof. unfold submit. by case_match. Qed.
Lemma submit_router s p : s_router (submit s p) = s_router s.
Proof. unfold submit. by case_match. Qed.

(** The replay subscribes every filter it is given. *)
Lemma replay_spec fs answers t s :
  Forall (λ b, b = true) answers → (length fs ≤ length answers)%nat →
  let '(t', s') := replay fs answers t s in
  routes t' = routes t ∧ subscriptions t' = subscriptions t ∧
  s_state s' = s_state s ∧ s_router s' = s_router s ∧
  (∀ f, f ∈ fs ∨ f ∈ interest s → f ∈ interest s').
Proof.
  revert answers t s. induction fs as [|f fs IH]; intros answers t s Ha Hl; simpl.
  - split_and!; try done. intros f [?%not_elem_of_nil|?]; done.
  - destruct answers as [|b answers]; simpl in Hl; [lia|]. apply Forall_cons in Ha as [-> Ha]. simpl.
    specialize (IH answers (push_replay_handle t f) (submit s (Subscribe f)) Ha ltac:(lia)).
    destruct (replay _ _ _ _) as [t' s']. destruct IH as (Hr & Hs & Hst & Hrt & Hi).
    rewrite submit_state in Hst. rewrite submit_router in Hrt. split_and!; try done.
    intros g Hg. apply Hi. rewrite submit_interest. simpl. set_solver.
Qed.

(** ** The outbound side leaves the link alone *)

Definition same_link (s s' : Session) : Prop :=
  s_state s' = s_state s ∧ s_router s' = s_router s ∧ interest s' = interest s.
#[export] Instance same_link_preorder : PreOrder same_link.
Proof. split; [by intros ?|]. intros s1 s2 s3 (? & ? & ?) (? & ? & ?). split_and!; congruence. Qed.

Lemma drain_channel_link r pending accepted k s :
  let '(_, _, s', _) := drain_channel r pending accepted k s in same_link s s'.
Proof.
  revert k s. induction pending as [|e pending IH]; intros k s; simpl; [done|].
  destruct (Dispatch.drain_into e MAX_DRAIN_SCRATCH) as [[bytes|]|]; [|done..].
  destruct (publish s r bytes (accepted k)) as [s1 ok] eqn:Ep. specialize (IH (S k) s1).
  destruct (drain_channel r pending accepted (S k) s1) as [[[? ?] s2] ?].
  transitivity s1; [|done]. unfold publish in Ep. case_match; by simplify_eq.
Qed.
Lemma drain_all_link g accepted k s :
  let '(_, s', _) := drain_all g accepted k s in same_link s s'.
Proof.
  revert k s. induction g as [|c g IH]; intros k s; simpl; [done|].
  destruct (binding c) as [pending|p].
  - pose proof (drain_channel_link (routing c) pending accepted k s) as H.
    destruct (drain_channel (routing c) pending accepted k s) as [[[? k1] s1] ?].
    specialize (IH k1 s1). destruct (drain_all g accepted k1 s1) as [[? s2] ?]. by transitivity s1.
  - specialize (IH k s). by destruct (drain_all g accepted k s) as [[? s2] ?].
Qed.

(** ** Runs *)

(** Routings come from the validating constructors. *)
Definition op_ok (o : op) : Prop :=
  match o with CreateReader _ r _ => routing_ok r | _ => True end.
(** The client accepts the SUBSCRIBE of a first channel, which is asked for while
    the connector has the session, and those of a replay. *)
Definition served (q : Mqtt) (o : op) : bool :=
  match o with
  | CreateReader _ r e =>
      match e_ports e, subscription_filter r with
      | None, Ok f => bool_decide (f ∈ active_filters (q_inbound q)) || (q_slot q && e_gateway e && e_subscribe e)
      | _, _ => true
      end
  | WatcherPoll answers _ =>
      forallb id answers && (length (active_filters (q_inbound q)) <=? length answers)%nat
  | _ => true
  end.
(** A new connection. *)
Definition connects (q : Mqtt) (o : op) : bool :=
  match o with Pump (PConnAck true _) _ => s_pumping (q_session q) | _ => false end.
(** Whether the watcher has looked at the session since it was last connected
    ([true] before the first connection). *)
Definition seen_after (q : Mqtt) (seen : bool) (o : op) : bool :=
  let looks := seen || negb (connected (s_state (q_session q))) in
  match o with
  | RegisterWith true _ _ => if q_slot q then looks else seen
  | WatcherPoll _ _ => match q_watcher q with WRunning _ => looks | _ => seen end
  | _ => if connects q o then false else seen
  end.

(** The states a connector reaches while its requests are served and no loss of
    the connection goes unnoticed. *)
Inductive reach (o : MqttConnectorOptions) (t0 : Z) : Mqtt → bool → Prop :=
| reach_new : reach o t0 (connector_new (build o) t0) true
| reach_step q seen x q' :
    reach o t0 q seen → op_ok x → served q x = true → (connects q x = true → seen = true) →
    do_op q x = Ok q' → reach o t0 q' (seen_after q seen x).

Definition watch_ok (q : Mqtt) (seen : bool) : Prop :=
  let up := connected (s_state (q_session q)) in
  match q_watcher q, seen with
  | WNotStarted, true => up = false ∧ covers q
  | WNotStarted, false => up = true → covers q
  | WRunning l, true => up = false ∧ connected l = false
  | WRunning l, false => up = true → connected l = false ∨ covers q
  | WStopped, _ => True
  end.
Record conn_ok (q : Mqtt) (seen : bool) : Prop := {
  ck_table : table_ok (q_inbound q);
  ck_filters r : r ∈ routes (q_inbound q) → filter_ok (rt_filter r);
  ck_bound r : r ∈ routes (q_inbound q) → (publisher r < length (q_ports q))%nat;
  ck_distinct : NoDup (publisher <$> routes (q_inbound q));
  ck_idle : Forall idle (q_ports q);
  ck_router : routes (q_inbound q) ≠ [] → s_router (q_session q) = true;
  ck_slot : q_slot q = true → q_watcher q = WNotStarted;
  ck_watch : watch_ok q seen;
}.

(** What the parts of the state an operation does not touch keep true. *)
Lemma conn_ok_link q q' seen : conn_ok q seen →
  q_inbound q' = q_inbound q → q_slot q' = q_slot q → q_watcher q' = q_watcher q →
  Forall idle (q_ports q') → length (q_ports q') = length (q_ports q) →
  same_link (q_session q) (q_session q') → conn_ok q' seen.
Proof.
  intros [Ht Hf Hb Hd Hi Hr Hs Hw] E1 E2 E3 Hi' Hl (L1 & L2 & L3).
  split; rewrite ?E1, ?E2, ?E3, ?Hl, ?L2; try done.
  unfold watch_ok, covers in *. by rewrite E1, E3, L1, L3.
Qed.

Lemma init_ok o t0 : conn_ok (connector_new (build o) t0) true.
Proof.
  split; simpl; try done; try set_solver; try by constructor.
  - split; unfold active_filters; simpl; try apply NoDup_nil; set_solver.
  - split; [done|]. unfold covers, active_filters. simpl. set_solver.
Qed.

(** A successful [register_inbound]. *)
Lemma register_inbound_ok q seen name f e port :
  conn_ok q seen → filter_ok f → idle port →
  bool_decide (f ∈ active_filters (q_inbound q)) || (q_slot q && e_gateway e && e_subscribe e) = true →
  ∃ q', register_inbound (with_ports q (q_ports q ++ [port])) name f (length (q_ports q)) e = (q', None) ∧
    conn_ok q' seen.
Proof.
  intros Hok Hff Hip Hserved. pose proof Hok as [Ht Hf Hb Hd Hi Hr Hs Hw].
  unfold register_inbound. simpl.
  destruct (add_route (q_inbound q) f (length (q_ports q)) name) as [t need] eqn:Ea.
  assert (Hroutes : routes t = routes (q_inbound q) ++ [MkRoute f (length (q_ports q)) name]).
  { unfold add_route in Ea. case_match; by simplify_eq. }
  assert (Hbound : ∀ r, r ∈ routes t → (publisher r < length (q_ports q ++ [port]))%nat).
  { intros r. rewrite Hroutes, length_app, elem_of_app. simpl. intros [?%Hb|?]; [lia|].
    assert (r = MkRoute f (length (q_ports q)) name) as -> by set_solver. simpl. lia. }
  assert (Hnd : NoDup (publisher <$> routes t)).
  { rewrite Hroutes, fmap_app. apply NoDup_app. split_and!; [done| |apply NoDup_singleton].
    intros i (r & -> & Hin)%list_elem_of_fmap. specialize (Hb _ Hin). simpl. rewrite list_elem_of_singleton. lia. }
  assert (Hfil : ∀ r, r ∈ routes t → filter_ok (rt_filter r)).
  { intros r. rewrite Hroutes. intros [?%Hf|?]%elem_of_app; [done|]. set_solver. }
  assert (Hidle : Forall idle (q_ports q ++ [port])) by (apply Forall_app; auto).
  destruct need; simpl.
  - destruct (add_route_fresh _ _ _ _ _ Ht Ea) as [Ht' Ha].
    rewrite bool_decide_false in Hserved.
    2:{ unfold add_route in Ea. case_match eqn:Eb; [done|]. by apply bump_None in Eb. }
    simpl in Hserved. apply andb_true_iff in Hserved as [[Hslot Hg]%andb_true_iff Hsub].
    unfold install_inbound_router. simpl. rewrite Hslot, Hg, Hsub. simpl. rewrite Hslot. simpl.
    eexists. split; [done|].
    split; simpl; rewrite ?submit_router; try done.
    unfold watch_ok, covers in *. simpl. rewrite submit_state, submit_interest, Ha. simpl.
    rewrite (Hs Hslot) in *. destruct seen.
    + destruct Hw as [Hu Hc]. split; [done|]. set_solver.
    + intros Hu. specialize (Hw Hu). set_solver.
  - destruct (add_route_shared _ _ _ _ _ Ht Ea) as (Ht' & Ha & Hin).
    eexists. split; [done|].
    assert (Hrt : s_router (q_session q) = true).
    { apply Hr. intros Hnil. unfold active_filters in Hin.
      apply list_elem_of_fmap in Hin as (s & -> & Hs0). destruct Ht as [_ _ Hl He _].
      specialize (Hl _ Hs0). specialize (He _ Hs0). rewrite Hnil, count_nil in He. lia. }
    unfold install_inbound_router. simpl.
    destruct (q_slot q) eqn:Eslot; split; simpl; rewrite ?Eslot; try done;
      unfold watch_ok, covers in *; simpl; by rewrite Ha.
Qed.

Lemma create_reader_ok q seen name r e : conn_ok q seen → routing_ok r → served q (CreateReader name r e) = true →
  ∃ q' err, create_reader q name r e = Ok (q', err) ∧ conn_ok q' seen.
Proof.
  intros Hok Hro Hserved. destruct (subscription_filter_ok r Hro) as (f & Hf & Hfo).
  simpl in Hserved. unfold create_reader. rewrite Hf in *. simpl.
  destruct (e_ports e) as [err|]; [by exists q, (Some err)|].
  edestruct (register_inbound_ok q seen name f e) as (q' & -> & Hok'); [done..| |done|].
  { split; simpl; [done|lia]. }
  destruct (register _ _ _ _ _) as [g|err]; eexists _, _; (split; [done|]); [|done].
  by apply (conn_ok_link q'); try apply Hok'.
Qed.

Lemma watcher_poll_ok q seen answers now : conn_ok q seen → served q (WatcherPoll answers now) = true →
  conn_ok (watcher_poll q answers now) (seen_after q seen (WatcherPoll answers now)).
Proof.
  intros Hok [Ha Hlen]%andb_true_iff. apply Nat.leb_le in Hlen.
  assert (Hall : Forall (λ b, b = true) answers).
  { apply Forall_forall. intros b Hb%list_elem_of_In. rewrite forallb_forall in Ha. by apply Ha. }
  pose proof Hok as [Ht Hf Hb Hd Hi Hr Hs Hw]. unfold watcher_poll, seen_after.
  destruct (q_watcher q) as [|l|] eqn:Ew; [done| |done].
  set (st := s_state (q_session q)) in *.
  set (ts := if is_reconnect l st then _ else _).
  assert (Hts : let '(t, s) := ts in routes t = routes (q_inbound q) ∧
    subscriptions t = subscriptions (q_inbound q) ∧ s_state s = st ∧ s_router s = s_router (q_session q) ∧
    (connected st = true → is_reconnect l st = true ∨ covers q → ∀ f, f ∈ active_filters t → f ∈ interest s)).
  { subst ts. destruct (is_reconnect l st) eqn:Er.
    - pose proof (replay_spec (active_filters (q_inbound q)) answers (q_inbound q) (q_session q) Hall Hlen) as H.
      unfold replay_subscriptions. destruct (replay _ _ _ _) as [t s]. destruct H as (H1 & H2 & H3 & H4 & H5).
      split_and!; try done. intros _ _ f Hin. apply H5. left. unfold active_filters in *. by rewrite <- H2.
    - split_and!; try done. intros _ [?|Hc]; [done|]. exact Hc. }
  destruct ts as [t s]. destruct Hts as (H1 & H2 & H3 & H4 & H5).
  split; simpl; rewrite ?H1, ?H4; try done.
  - destruct Ht as [T1 T2 T3 T4 T5]. split; unfold active_filters in *; by rewrite ?H1, ?H2.
  - intros Hslot. by specialize (Hs Hslot).
  - unfold watch_ok. simpl. case_bool_decide; [done|]. rewrite H3.
    unfold watch_ok in Hw. rewrite Ew in Hw. fold st in Hw.
    destruct (connected st) eqn:Ec; simpl.
    + rewrite orb_false_r. destruct seen; [by destruct Hw|]. intros _. right. intros f. apply H5; [done|].
      unfold is_reconnect. rewrite Ec. destruct (Hw eq_refl) as [->|]; auto.
    + rewrite orb_true_r. done.
Qed.

(** A clean connection starts with the interest the queue stands for. *)
Lemma connack_interest s code : connected (s_state s) = false →
  interest (clean_connection (on_connack s true code)) = interest s.
Proof. intros H. unfold interest. by rewrite H. Qed.

Lemma route_publish_ok q seen tp payload now : conn_ok q seen →
  conn_ok (route_publish q tp payload now) seen.
Proof.
  intros Hok. unfold route_publish. destruct (s_router (q_session q)); [|done].
  destruct (MqttTopic_new tp) as [tp'|]; [|done]. unfold route_inbound.
  destruct (fan_out_spec (matching_publishers (q_inbound q) tp') payload now (q_ports q) (q_health q))
    as (ps & -> & Hl & Hi & _); [apply matching_nodup, Hok|apply Hok|].
  by apply (conn_ok_link q).
Qed.

(** The loss of the connection. *)
Lemma lose_link q seen s : conn_ok q seen → connected (s_state s) = false →
  s_router s = s_router (q_session q) → s_queue s = s_queue (q_session q) →
  conn_ok (with_session q s) seen.
Proof.
  intros [Ht Hf Hb Hd Hi Hr Hs Hw] Hc Hrt Hq. split; simpl; rewrite ?Hrt; try done.
  unfold watch_ok, covers in *. simpl. rewrite Hc. destruct (q_watcher q), seen; try done.
  - destruct Hw as [Hu Hcov]. split; [done|]. unfold interest in *. by rewrite Hc, Hq, Hu in *.
  - by destruct Hw.
Qed.

Lemma pump_ok q seen e now : conn_ok q seen → (connects q (Pump e now) = true → seen = true) →
  conn_ok (pump q e now) (seen_after q seen (Pump e now)).
Proof.
  intros Hok Hseen. unfold pump, seen_after. destruct (s_pumping (q_session q)) eqn:Ep.
  2:{ assert (connects q (Pump e now) = false) as -> by (destruct e as [[]| | | |]; simpl; congruence). done. }
  destruct e as [[] code|tp payload| |code|]; simpl in *; rewrite ?Ep in *; try by apply (lose_link q).
  - specialize (Hseen eq_refl) as ->. destruct Hok as [Ht Hf Hb Hd Hi Hr Hs Hw].
    split; simpl; try done. unfold watch_ok, covers in *. simpl.
    destruct (q_watcher q) as [|l|] eqn:Ew; [| |done].
    + intros _. destruct Hw as [Hu Hc]. intros f Hin. apply Hc in Hin.
      by rewrite <- (connack_interest _ code) in Hin.
    + intros _. left. by destruct Hw.
  - by apply (conn_ok_link (route_publish q tp payload now)); try apply (route_publish_ok q seen tp payload now Hok).
  - by apply (conn_ok_link q); try apply Hok.
Qed.

Lemma register_with_ok q seen gw item now : conn_ok q seen →
  conn_ok (fst (register_with q gw item now)) (seen_after q seen (RegisterWith gw item now)).
Proof.
  intros Hok. unfold register_with, seen_after. destruct (q_slot q) eqn:Es; simpl; [|by destruct gw].
  pose proof Hok as [Ht Hf Hb Hd Hi Hr Hs Hw]. specialize (Hs Es). destruct gw; simpl.
  2:{ split; simpl; try done. }
  destruct (connected (s_state (q_session q))) eqn:Ec; split; simpl; try done;
    unfold watch_ok in *; simpl in *; rewrite Hs, ?Ec in *; simpl.
  - rewrite orb_false_r. destruct seen; [by destruct Hw|]. intros _. right. by apply Hw.
  - by rewrite orb_true_r.
Qed.

Lemma remove_ok q seen name accepted : conn_ok q seen →
  ∃ q', do_op q (RemoveChannel name accepted) = Ok q' ∧ conn_ok q' seen.
Proof.
  intros [Ht Hf Hb Hd Hi Hr Hs Hw]. simpl.
  destruct (remove_channel_ok (q_inbound q) name Ht) as (t & h & -> & Ht' & [rs Hrs] & Ha). simpl.
  assert (Hsub : ∀ r, r ∈ routes t → r ∈ routes (q_inbound q)).
  { intros r Hr'. rewrite Hrs. set_solver. }
  assert (Hnd : NoDup (publisher <$> routes t)).
  { rewrite Hrs, fmap_app in Hd. by apply NoDup_app in Hd as (_ & _ & ?). }
  assert (Hrt : routes t ≠ [] → s_router (q_session q) = true).
  { intros Hne. apply Hr. intros Hnil. rewrite Hnil in Hrs. apply Permutation_nil_l in Hrs.
    destruct rs, (routes t); done. }
  eexists. split; [done|].
  assert (Hlink : ∀ s', s_state s' = s_state (q_session q) → s_router s' = s_router (q_session q) →
    (∀ f, f ∈ active_filters t → f ∈ interest (q_session q) → f ∈ interest s') →
    conn_ok (with_session (with_inbound q t) s') seen).
  { intros s' H1 H2 H3. split; simpl; rewrite ?H2; eauto.
    unfold watch_ok, covers in *. simpl. rewrite H1. destruct (q_watcher q), seen; try done.
    - destruct Hw as [? Hc]. split; [done|]. intros f Hin. apply H3, Hc, Ha; done.
    - intros Hu f Hin. apply H3; [done|]. apply Hw, Ha; done.
    - intros Hu. destruct (Hw Hu) as [?|Hc]; [by left|right]. intros f Hin. apply H3, Hc, Ha; done. }
  destruct h as [g|]; [|by apply (Hlink (q_session q))].
  unfold drop_handle. destruct accepted; [|by apply Hlink].
  apply Hlink; [apply submit_state|apply submit_router|].
  intros f Hin Hi'. rewrite submit_interest. simpl. apply Ha in Hin as [_ Hne].
  apply elem_of_difference. split; [done|]. rewrite elem_of_singleton. congruence.
Qed.

Lemma mqtt_step_ok q seen x : conn_ok q seen → op_ok x → served q x = true →
  (connects q x = true → seen = true) →
  ∃ q', do_op q x = Ok q' ∧ conn_ok q' (seen_after q seen x).
Proof.
  intros Hok Ho Hs Hc. destruct x as [name r e|name r e|gw item now|chan e|acc|e now|ans now|name acc|]; simpl.
  - destruct (create_reader_ok q seen name r e) as (q' & err & -> & ?); [done..|]. by exists q'.
  - eexists. split; [done|]. unfold create_writer. repeat case_match; try done.
    by apply (conn_ok_link q); try apply Hok.
  - eexists. split; [done|]. by apply (register_with_ok q seen gw item now).
  - eexists. split; [done|]. by apply (conn_ok_link q); try apply Hok.
  - eexists. split; [done|]. pose proof (drain_all_link (q_registry q) acc 0 (q_session q)) as Hl.
    unfold dispatch_outbound_once. destruct (drain_all _ _ _ _) as [[g s] n].
    by apply (conn_ok_link q); try apply Hok.
  - eexists. split; [done|]. by apply (pump_ok q seen e now).
  - eexists. split; [done|]. by apply (watcher_poll_ok q seen ans now).
  - by apply (remove_ok q seen name acc).
  - eexists. split; [done|]. destruct (q_watcher q) eqn:Ew; try done.
    destruct Hok as [Ht Hf Hb Hd Hi Hr Hsl Hw]. split; simpl; try done.
    intros Hq. specialize (Hsl Hq). congruence.
Qed.

Lemma reach_ok o t0 q seen : reach o t0 q seen → conn_ok q seen.
Proof.
  induction 1 as [|q seen x q' _ IH Ho Hs Hc Hd]; [apply init_ok|].
  destruct (mqtt_step_ok q seen x) as (q2 & H2 & Hok); [done..|]. by rewrite Hd in H2; injection H2 as <-.
Qed.

Lemma no_step_panics q seen x : conn_ok q seen → op_ok x → no_panic (do_op q x).
Proof.
  intros Hok Ho. destruct x as [name r e|name r e|gw item now|chan e|acc|e now|ans now|name acc|];
    try (eexists; reflexivity).
  - destruct (subscription_filter_ok r Ho) as (f & Hf & _). simpl. unfold create_reader. rewrite Hf. simpl.
    repeat case_match; eexists; done.
  - destruct (remove_ok q seen name acc Hok) as (q' & -> & _). by eexists.
Qed.

(** An incoming message, on the port of one channel. *)
Lemma publish_reaches q seen tp payload now q' i p : conn_ok q seen → topic_ok tp →
  s_pumping (q_session q) = true → do_op q (Pump (PPublish tp payload) now) = Ok q' →
  q_ports q !! i = Some p →
  ∃ p', q_ports q' !! i = Some p' ∧
    ((∃ r, r ∈ routes (q_inbound q) ∧ publisher r = i ∧ levels_match (levels (rt_filter r)) (levels tp)) →
       p' = port_sends payload p) ∧
    ((∀ r, r ∈ routes (q_inbound q) → publisher r = i → ¬ levels_match (levels (rt_filter r)) (levels tp)) →
       p' = p).
Proof.
  intros Hok Ht Hp [= <-] Hi. unfold pump. rewrite Hp. simpl. unfold route_publish, topic_ok in *. rewrite Ht.
  assert (Hm : ∀ r, r ∈ routes (q_inbound q) →
    topic_matches (rt_filter r) tp = true ↔ levels_match (levels (rt_filter r)) (levels tp)).
  { intros r Hr. apply topic_matches_spec. by apply (ck_filters _ _ Hok). }
  destruct (s_router (q_session q)) eqn:Er; simpl.
  - unfold route_inbound.
    destruct (fan_out_spec (matching_publishers (q_inbound q) tp) payload now (q_ports q) (q_health q))
      as (ps & -> & _ & _ & Hs); [apply matching_nodup, Hok|apply Hok|]. simpl. rewrite Hs, Hi. simpl.
    eexists. split; [done|]. split.
    + intros (r & Hr & Hpub & Hmm). rewrite bool_decide_true; [done|]. apply matching_elem.
      exists r. by rewrite Hm.
    + intros Hno. rewrite bool_decide_false; [done|]. intros (r & Hr & Hpub & Hmm)%matching_elem.
      apply (Hno r); try done. by apply Hm.
  - exists p. split; [done|]. split; [|done]. intros (r & Hr & _). exfalso.
    pose proof (ck_router _ _ Hok) as Hrt. rewrite Er in Hrt. discriminate Hrt. intros Hnil. rewrite Hnil in Hr. set_solver.
Qed.

(** C27. The inbound path of the MQTT connector, over runs in which the client accepts
    the SUBSCRIBEs and no lost connection goes unnoticed by the watcher: no step
    panics; every distinct filter is subscribed once and counted once per channel, so
    that UNSUBSCRIBE is sent with the last channel; while the watcher knows the session
    connected the broker holds a subscription for the filter of every channel, across
    reconnections; and a message is sent once on the port of every channel whose
    filter matches its topic by the level rules of [MqttTopic], and on no other. *)
Theorem messages_reach_channels o t0 q seen : reach o t0 q seen →
  (∀ x, op_ok x → no_panic (do_op q x)) ∧
  NoDup (active_filters (q_inbound q)) ∧
  (∀ s, s ∈ subscriptions (q_inbound q) →
     (1 ≤ refcount s)%nat ∧ refcount s = count (sub_filter s) (routes (q_inbound q))) ∧
  (q_watcher q = WRunning SConnected → s_state (q_session q) = SConnected →
   ∀ r, r ∈ routes (q_inbound q) → rt_filter r ∈ s_broker (q_session q)) ∧
  (∀ tp payload now q' i p, topic_ok tp → s_pumping (q_session q) = true →
     do_op q (Pump (PPublish tp payload) now) = Ok q' → q_ports q !! i = Some p →
     len payload ≤ Dispatch.port_max p → Dispatch.iox_ok p (length (Dispatch.published p)) = true →
     ∃ p', q_ports q' !! i = Some p' ∧
       ((∃ r, r ∈ routes (q_inbound q) ∧ publisher r = i ∧ levels_match (levels (rt_filter r)) (levels tp)) →
          Dispatch.published p' = Dispatch.published p ++ [payload]) ∧
       ((∀ r, r ∈ routes (q_inbound q) → publisher r = i →
           ¬ levels_match (levels (rt_filter r)) (levels tp)) → p' = p)).
Proof.
  intros Hok%reach_ok. pose proof Hok as [[Td _ Tl Te Tc] _ _ _ _ _ _ Hw]. split_and!.
  - intros x. by apply (no_step_panics q seen).
  - done.
  - auto.
  - intros Ew Es r Hr. unfold watch_ok in Hw. rewrite Ew, Es in Hw. simpl in Hw.
    assert (Hcov : covers q) by (destruct seen; [by destruct Hw|by destruct (Hw eq_refl)]).
    specialize (Hcov _ (Tc _ Hr)). unfold interest in Hcov. by rewrite Es in Hcov.
  - intros tp payload now q' i p Ht Hp Hd Hi Hlen Hiox.
    destruct (publish_reaches q seen tp payload now q' i p) as (p' & Hp' & H1 & H2); [done..|].
    exists p'. split_and!; [done| |done]. intros Hex. rewrite (H1 Hex). unfold port_sends, Dispatch.send_raw_bytes.
    replace (len payload >? Dispatch.port_max p) with false by lia. by rewrite Hiox.
Qed.

(** Runs, checked step by step. *)
Fixpoint check_run (q : Mqtt) (seen : bool) (os : list op) : option (Mqtt * bool) :=
  match os with
  | [] => Some (q, seen)
  | x :: os =>
      if served q x && implb (connects q x) seen
      then match do_op q x with Ok q' => check_run q' (seen_after q seen x) os | Panic => None end
      else None
  end.
Lemma check_run_reach o t0 q seen os q' seen' : reach o t0 q seen → Forall op_ok os →
  check_run q seen os = Some (q', seen') → reach o t0 q' seen'.
Proof.
  revert q seen. induction os as [|x os IH]; intros q seen Hr Hos; simpl; [congruence|].
  apply Forall_cons in Hos as [Hx Hos]. destruct (served q x) eqn:Es; [|done].
  destruct (implb (connects q x) seen) eqn:Ei; [|done]. simpl.
  destruct (do_op q x) as [q1|] eqn:Ed; [|done]. apply IH; [|done].
  econstructor; eauto. intros Hc. by rewrite Hc in Ei.
Qed.

Definition ex_env : create_env := MkEnv None 64 (λ _, true) true true.
Definition ex_ops : list op :=
  [CreateReader "r1" (with_filter (routing_new "a/b" AtLeastOnce) "a/+") ex_env;
   CreateReader "r2" (routing_new "a/b" AtMostOnce) ex_env;
   CreateReader "r3" (with_filter (routing_new "c" AtLeastOnce) "a/+") ex_env;
   Pump (PConnAck true "Success") 1; RegisterWith true None 2; Pump PError 3;
   WatcherPoll [true; true] 4; Pump (PConnAck true "Success") 5; WatcherPoll [true; true] 6].
Lemma messages_reach_channels_witness :
  ∃ q, check_run (connector_new (build options_new) 0) true ex_ops = Some (q, false) ∧
    q_watcher q = WRunning SConnected ∧
    (∀ r, r ∈ routes (q_inbound q) → rt_filter r ∈ s_broker (q_session q)) ∧
    length (routes (q_inbound q)) = 3%nat.
Proof.
  eexists. split; [vm_compute; reflexivity|]. split; [reflexivity|]. split; [|reflexivity].
  apply (messages_reach_channels options_new 0 _ false).
  - eapply (check_run_reach _ _ _ true ex_ops); [apply reach_new| |vm_compute; reflexivity].
    repeat (apply List.Forall_cons; [first [exact I | split; vm_compute; reflexivity]|]).
    apply List.Forall_nil.
  - reflexivity.
  - reflexivity.
Defined.
End MqttConnOk.
