(* ===== verification/MqttHealthOk.v ===== *)
(** * Health and outbound traffic of the MQTT connector

    The health the watcher reports, over arbitrary runs, and what a pass of the
    outbound drain hands to the session. *)

From stdpp Require Import base gmap strings pretty list.
From Stdlib Require Import ZArith Lia.
From S2P Require Import Prelude J1939Dispatch ConnHealth MqttTopic MqttConn.

Module MqttHealthOk.
Import MqttTopic MqttConn.

(** ** The monitor *)

Definition hkind (h : MqttHealthMonitor) : ConnHealth.ConnectorHealthKind := ConnHealth.kind (inner h).

(** A monitor that is not down takes every target. *)
Lemma apply_target_kind h target now : hkind h ≠ ConnHealth.KDown →
  hkind (fst (apply_target h target now)) = ConnHealth.kind target.
Proof.
  unfold hkind, apply_target, ConnHealth.try_transition_to. intros Hd.
  case_bool_decide as E; [done|].
  destruct (inner h), target; simpl in *; try done; by rewrite ?bool_decide_true, ?bool_decide_false by naive_solver.
Qed.
(** What accounting may do to a monitor: degrade it when it is up or connecting. *)
Lemma inbound_drop_kind h count threshold now :
  hkind (fst (record_inbound_drop h count threshold now)) = hkind h ∨
  hkind h ≠ ConnHealth.KDown ∧ hkind (fst (record_inbound_drop h count threshold now)) = ConnHealth.KDegraded.
Proof.
  unfold record_inbound_drop, ConnHealth.try_transition_to, hkind.
  repeat case_match; simplify_eq; simpl; auto. right. split; [|done].
  intros Hd. by rewrite Hd in *.
Qed.
Lemma publish_kind p h payload now :
  hkind (publish_bytes p h payload now).1.2 = hkind h ∨
  hkind h ≠ ConnHealth.KDown ∧ hkind (publish_bytes p h payload now).1.2 = ConnHealth.KDegraded.
Proof.
  unfold publish_bytes. destruct (Dispatch.bridge_try_send p) as [p1 [c|]]; simpl.
  - apply inbound_drop_kind.
  - destruct (Dispatch.send_raw_bytes _ _). by left.
Qed.
Lemma fan_out_kind pubs payload now ps h :
  hkind (fan_out pubs payload now ps h).2 = hkind h ∨
  hkind h ≠ ConnHealth.KDown ∧ hkind (fan_out pubs payload now ps h).2 = ConnHealth.KDegraded.
Proof.
  revert ps h. induction pubs as [|i pubs IH]; intros ps h; simpl; [by left|].
  destruct (ps !! i) as [p|]; [|apply IH].
  pose proof (publish_kind p h payload now) as Hp. destruct (publish_bytes p h payload now) as [[p' h'] e].
  simpl in Hp. destruct (IH (<[i:=p']> ps) h') as [E|[Hn E]]; rewrite E; [done|].
  right. split; [|done]. destruct Hp as [Hp|[? _]]; congruence.
Qed.

(** ** The watcher *)

(** A connector whose watcher has not ended is not down. *)
Record health_inv (q : Mqtt) : Prop := {
  hi_slot : q_slot q = true → q_watcher q = WNotStarted;
  hi_live : q_watcher q ≠ WStopped → hkind (q_health q) ≠ ConnHealth.KDown;
}.
(** A registered connector that is down. *)
Record ended (q : Mqtt) : Prop := {
  en_slot : q_slot q = false;
  en_watcher : q_watcher q = WStopped;
  en_down : hkind (q_health q) = ConnHealth.KDown;
}.

Lemma map_health_down st attempts ceiling now :
  ConnHealth.kind (map_health st attempts ceiling now) = ConnHealth.KDown ↔
  (∃ reason, st = SAuthRejected reason) ∨ attempts > ceiling.
Proof.
  unfold map_health. destruct st as [| |r|r]; simpl; [..|split; [eauto|done]];
    destruct (Z.gtb_spec attempts ceiling); simpl; (split; [|intros [[? ?]|?]]); try done; try lia; auto with zarith.
Qed.

Lemma watcher_poll_health q l answers now : q_watcher q = WRunning l → hkind (q_health q) ≠ ConnHealth.KDown →
  ∃ attempts, attempts = s_attempts (q_session (watcher_poll q answers now)) ∧
  let target := map_health (s_state (q_session q)) attempts (reconnect_attempt_ceiling (q_options q)) now in
  hkind (q_health (watcher_poll q answers now)) = ConnHealth.kind target ∧
  q_slot (watcher_poll q answers now) = q_slot q ∧
  q_watcher (watcher_poll q answers now) =
    (if bool_decide (ConnHealth.kind target = ConnHealth.KDown) then WStopped
     else WRunning (s_state (q_session q))).
Proof.
  intros Hw Hd. unfold watcher_poll. rewrite Hw. eexists. split; [done|].
  destruct (if is_reconnect _ _ then _ else _) as [t s]. simpl. split_and!; [|done|done].
  by apply apply_target_kind.
Qed.
Lemma subscribe_attempts s f ok : s_attempts (subscribe s f ok).1 = s_attempts s.
Proof. unfold subscribe, submit. by repeat case_match. Qed.
Lemma replay_attempts fs answers t s : s_attempts (replay fs answers t s).2 = s_attempts s.
Proof.
  revert answers t s. induction fs as [|f fs IH]; intros; simpl; [done|].
  pose proof (subscribe_attempts s f (default false (head answers))) as H.
  destruct (subscribe _ _ _) as [s1 [h|]]; simpl in H; by rewrite IH.
Qed.
Lemma watcher_poll_attempts q answers now :
  s_attempts (q_session (watcher_poll q answers now)) = s_attempts (q_session q).
Proof.
  unfold watcher_poll. destruct (q_watcher q); try done. destruct (is_reconnect _ _); [|done].
  pose proof (replay_attempts (active_filters (q_inbound q)) answers (q_inbound q) (q_session q)) as H.
  unfold replay_subscriptions. by destruct (replay _ _ _ _) as [t s].
Qed.

(** What an operation other than a poll of the watcher does to the health. *)
Lemma route_publish_health q tp payload now :
  (hkind (q_health (route_publish q tp payload now)) = hkind (q_health q) ∨
   hkind (q_health q) ≠ ConnHealth.KDown ∧
   hkind (q_health (route_publish q tp payload now)) = ConnHealth.KDegraded) ∧
  q_watcher (route_publish q tp payload now) = q_watcher q ∧
  q_slot (route_publish q tp payload now) = q_slot q.
Proof.
  unfold route_publish. destruct (s_router (q_session q)); [|auto]. destruct (MqttTopic_new tp); [|auto].
  unfold route_inbound. pose proof (fan_out_kind (matching_publishers (q_inbound q) m) payload now (q_ports q) (q_health q)).
  by destruct (fan_out _ _ _ _ _).
Qed.
Lemma pump_health q e now :
  (hkind (q_health (pump q e now)) = hkind (q_health q) ∨
   hkind (q_health q) ≠ ConnHealth.KDown ∧ hkind (q_health (pump q e now)) = ConnHealth.KDegraded) ∧
  q_watcher (pump q e now) = q_watcher q ∧ q_slot (pump q e now) = q_slot q.
Proof.
  unfold pump. destruct (s_pumping (q_session q)); [|auto]. destruct e; simpl; auto. apply route_publish_health.
Qed.
Lemma register_inbound_health q name f p e q' err : register_inbound q name f p e = (q', err) →
  q_health q' = q_health q ∧ q_watcher q' = q_watcher q ∧ q_slot q' = q_slot q.
Proof.
  unfold register_inbound, install_inbound_router. intros H.
  destruct (add_route _ _ _ _) as [t need]. destruct (q_slot q) eqn:Es; simpl in *; rewrite ?Es in *;
    repeat case_match; by simplify_eq.
Qed.
Lemma create_reader_health q name r e q' err : create_reader q name r e = Ok (q', err) →
  q_health q' = q_health q ∧ q_watcher q' = q_watcher q ∧ q_slot q' = q_slot q.
Proof.
  unfold create_reader. intros (f & _ & H)%res_bind_Ok. destruct (e_ports e); [by simplify_eq|].
  destruct (register_inbound _ _ _ _ _) as [q1 r1] eqn:E. apply register_inbound_health in E as (H1 & H2 & H3).
  repeat case_match; simplify_eq; done.
Qed.
Lemma register_with_health q gw item now : hkind (q_health q) ≠ ConnHealth.KDown →
  hkind (q_health (register_with q gw item now).1) ≠ ConnHealth.KDown.
Proof.
  unfold register_with, transition_to, ConnHealth.try_transition_to, hkind. intros H.
  repeat case_match; simplify_eq; done.
Qed.

(** Operations that leave watcher and slot alone and at most degrade the health. *)
Definition quiet (q q' : Mqtt) : Prop :=
  (hkind (q_health q') = hkind (q_health q) ∨
   hkind (q_health q) ≠ ConnHealth.KDown ∧ hkind (q_health q') = ConnHealth.KDegraded) ∧
  q_watcher q' = q_watcher q ∧ q_slot q' = q_slot q.
Lemma quiet_inv q q' : quiet q q' → health_inv q → health_inv q'.
Proof.
  intros (Hk & Hw & Hs) [H1 H2]. split; rewrite ?Hw, ?Hs; [done|]. intros H. specialize (H2 H).
  destruct Hk as [->|[_ ->]]; done.
Qed.
Lemma quiet_ended q q' : quiet q q' → ended q → ended q'.
Proof.
  intros (Hk & Hw & Hs) [H1 H2 H3]. split; [congruence..|]. destruct Hk as [->|[? _]]; congruence.
Qed.

Lemma do_op_cases q x q' : do_op q x = Ok q' →
  quiet q q' ∨ (∃ answers now, x = WatcherPoll answers now ∧ q' = watcher_poll q answers now) ∨
  (∃ gw item now, x = RegisterWith gw item now ∧ q' = (register_with q gw item now).1) ∨
  (∃ l, q_watcher q = WRunning l ∧ q' = with_watcher q WStopped).
Proof.
  destruct x as [name r e|name r e|gw item now|chan e|acc|e now|ans now|name acc|]; simpl; intros H.
  - left. destruct (create_reader q name r e) as [[q1 err]|] eqn:E; [|done]. simpl in H. injection H as <-.
    apply create_reader_health in E as (H1 & H2 & H3). unfold quiet. rewrite H1, H2, H3. auto.
  - left. injection H as <-. unfold create_writer. repeat case_match; simpl; unfold quiet; auto.
  - injection H as <-. right. right. left. eauto.
  - left. injection H as <-. unfold quiet. auto.
  - left. injection H as <-. unfold dispatch_outbound_once. destruct (drain_all _ _ _ _) as [[? ?] ?]. unfold quiet. auto.
  - left. injection H as <-. apply pump_health.
  - injection H as <-. right. left. eauto.
  - left. apply res_bind_Ok in H as ([t h] & _ & [= <-]). destruct h; unfold quiet; auto.
  - injection H as <-. destruct (q_watcher q) as [|l|] eqn:Ew; [left; unfold quiet; auto| |left; unfold quiet; auto].
    right. right. right. eauto.
Qed.

Lemma session_inv_step q x q' : health_inv q → do_op q x = Ok q' → health_inv q'.
Proof.
  intros Hi [Hq|[(ans & now & _ & ->)|[(gw & item & now & _ & ->)|(l & Hw & ->)]]]%do_op_cases.
  - by apply (quiet_inv q).
  - destruct (q_watcher q) as [|l|] eqn:Ew; try (unfold watcher_poll; by rewrite Ew).
    pose proof Hi as [H1 H2]. destruct (watcher_poll_health q l ans now Ew) as (a & _ & Hk & Hs & Hw).
    { apply H2. congruence. }
    split; rewrite ?Hs, Hw; [intros Hsl; specialize (H1 Hsl); congruence|]. case_bool_decide; [done|]. by rewrite Hk.
  - pose proof Hi as [H1 H2]. unfold register_with. destruct (q_slot q) eqn:Es; simpl; [|done].
    specialize (H1 eq_refl). pose proof (register_with_health q gw item now) as H.
    unfold register_with in H. rewrite Es in H. simpl in H. destruct gw; simpl in *.
    + split; simpl; [by repeat case_match|]. intros _. apply H, H2. congruence.
    + split; simpl; [done|]. exact H2.
  - destruct Hi as [H1 H2]. split; simpl; [|done]. intros Hs. specialize (H1 Hs). congruence.
Qed.
Lemma ended_step q x q' : ended q → do_op q x = Ok q' → ended q'.
Proof.
  intros He [Hq|[(ans & now & _ & ->)|[(gw & item & now & _ & ->)|(l & Hw & ->)]]]%do_op_cases.
  - by apply (quiet_ended q).
  - destruct He as [H1 H2 H3]. unfold watcher_poll. by rewrite H2.
  - destruct He as [H1 H2 H3]. unfold register_with. by rewrite H1.
  - destruct He as [H1 H2 H3]. congruence.
Qed.
Lemma run_inv (I : Mqtt → Prop) q os q' : (∀ q x q', I q → do_op q x = Ok q' → I q') →
  I q → run q os = Ok q' → I q'.
Proof.
  intros Hstep. revert q. induction os as [|x os IH]; intros q Hi; simpl; [by intros [= <-]|].
  intros (q1 & H1 & H2)%res_bind_Ok. eapply IH; [|done]. by eapply Hstep.
Qed.

(** Health follows the session: after every poll of the watcher, whatever happened
    before (losses, drops, failed subscriptions), the connector's health is the one the
    session's state maps to; the watcher ends exactly when the broker refused the
    credentials or the reconnect attempts exceed the ceiling, and from then on the
    connector stays down. *)
Theorem health_tracks_session o t0 os q l answers now :
  run (connector_new (build o) t0) os = Ok q → q_watcher q = WRunning l →
  let q' := watcher_poll q answers now in
  let st := s_state (q_session q) in
  let attempts := s_attempts (q_session q) in
  let ceiling := reconnect_attempt_ceiling (q_options q) in
  hkind (q_health q') = ConnHealth.kind (map_health st attempts ceiling now) ∧
  (q_watcher q' = WStopped ↔ (∃ reason, st = SAuthRejected reason) ∨ attempts > ceiling) ∧
  (q_watcher q' = WStopped → ∀ os' q'', run q' os' = Ok q'' → hkind (q_health q'') = ConnHealth.KDown).
Proof.
  intros Hrun Hw q' st attempts ceiling.
  assert (Hi : health_inv q) by (apply (run_inv health_inv _ os) in Hrun; [done|apply session_inv_step|by split]).
  destruct (watcher_poll_health q l answers now Hw) as (a & Ha & Hk & Hs & Hw').
  { apply (hi_live _ Hi). congruence. }
  rewrite watcher_poll_attempts in Ha. subst a. fold q' st attempts ceiling in Hk, Hw', Hs.
  pose proof (map_health_down st attempts ceiling now) as Hd.
  split_and!; [done| |].
  - rewrite Hw', <- Hd. by case_bool_decide.
  - intros Hst os' q'' Hrun'. apply (en_down q''). apply (run_inv ended q' os'); [apply ended_step| |done].
    split; [|done|].
    + rewrite Hs. destruct (q_slot q) eqn:Es; [|done]. pose proof (hi_slot _ Hi Es). congruence.
    + rewrite Hk. rewrite Hw' in Hst. by case_bool_decide.
Qed.
Lemma health_tracks_session_witness :
  ∃ q, run (connector_new (build options_new) 0)
         [Pump (PConnAck true "Success") 1; RegisterWith true None 2; Pump PError 3] = Ok q ∧
    hkind (q_health q) = ConnHealth.KUp ∧
    hkind (q_health (watcher_poll q [] 4)) = ConnHealth.KConnecting.
Proof.
  eexists. split; [vm_compute; reflexivity|]. split; [reflexivity|].
  refine (proj1 (health_tracks_session options_new 0
    [Pump (PConnAck true "Success") 1; RegisterWith true None 2; Pump PError 3] _ SConnected [] 4 _ _));
    vm_compute; reflexivity.
Defined.

(** ** The outbound drain *)

(** What a pass takes from a channel: the envelopes before the first that cannot be
    read into the scratch buffer. *)
Fixpoint drained (pending : list Dispatch.envelope) : list (list Z) :=
  match pending with
  | [] => []
  | e :: pending =>
      match Dispatch.drain_into e MAX_DRAIN_SCRATCH with
      | inl (Some bytes) => bytes :: drained pending
      | _ => []
      end
  end.
Definition offered_by (c : RegisteredChannel) : list (MqttRouting * list Z) :=
  match binding c with
  | BoundOut pending => (λ b, (routing c, b)) <$> drained pending
  | BoundIn _ => []
  end.
(** Those the session accepts, the [k]th offer first. *)
Fixpoint accepted_from {A} (accepted : nat → bool) (k : nat) (l : list A) : list A :=
  match l with
  | [] => []
  | x :: l => (if accepted k then [x] else []) ++ accepted_from accepted (S k) l
  end.
Lemma accepted_from_app {A} accepted k (l l' : list A) :
  accepted_from accepted k (l ++ l') = accepted_from accepted k l ++ accepted_from accepted (k + length l) l'.
Proof.
  revert k. induction l as [|x l IH]; intros k; simpl; [by rewrite Nat.add_0_r|].
  rewrite IH, <- app_assoc. by replace (S k + length l)%nat with (k + S (length l))%nat by lia.
Qed.

Lemma drain_channel_spec r pending accepted k s :
  let '(_, k', s', n) := drain_channel r pending accepted k s in
  let taken := accepted_from accepted k ((λ b, (r, b)) <$> drained pending) in
  k' = (k + length (drained pending))%nat ∧ s_sent s' = s_sent s ++ taken ∧ n = length taken.
Proof.
  revert k s. induction pending as [|e pending IH]; intros k s; simpl.
  { rewrite app_nil_r. split_and!; try done; lia. }
  destruct (Dispatch.drain_into e MAX_DRAIN_SCRATCH) as [[bytes|]|]; simpl;
    [|rewrite app_nil_r; split_and!; try done; lia..].
  unfold publish. destruct (accepted k) eqn:Ea; simpl.
  - specialize (IH (S k) (publish s r bytes true).1). simpl in IH.
    destruct (drain_channel r pending accepted (S k) _) as [[[? k'] s'] n]. destruct IH as (-> & -> & ->).
    split_and!; [lia| |done]. by rewrite <- app_assoc.
  - specialize (IH (S k) s). destruct (drain_channel r pending accepted (S k) s) as [[[? k'] s'] n].
    destruct IH as (-> & -> & ->). split_and!; [lia|done|done].
Qed.

(** A pass hands the session, channel by channel in the order of registration and
    in the order they were written, what it drains, with the routing of the channel;
    what the session refuses is dropped. *)
Lemma dispatch_forwards q accepted :
  let '(q', n) := dispatch_outbound_once q accepted in
  let taken := accepted_from accepted 0 (q_registry q ≫= offered_by) in
  s_sent (q_session q') = s_sent (q_session q) ++ taken ∧ n = length taken.
Proof.
  unfold dispatch_outbound_once.
  assert (Hall : ∀ g k s, let '(_, s', n) := drain_all g accepted k s in
    let taken := accepted_from accepted k (g ≫= offered_by) in
    s_sent s' = s_sent s ++ taken ∧ n = length taken).
  { induction g as [|c g IH]; intros k s; simpl drain_all; [simpl; by rewrite app_nil_r|].
    rewrite bind_cons. destruct (binding c) as [pending|p] eqn:Eb.
    - pose proof (drain_channel_spec (routing c) pending accepted k s) as H.
      destruct (drain_channel _ _ _ _ _) as [[[rest k1] s1] n1]. destruct H as (-> & H1 & ->).
      specialize (IH (k + length (drained pending))%nat s1). destruct (drain_all _ _ _ _) as [[g' s2] n2].
      destruct IH as [IH ->].
      assert (offered_by c = (λ b, (routing c, b)) <$> drained pending) as -> by (unfold offered_by; by rewrite Eb).
      cbv zeta. rewrite !accepted_from_app, length_fmap, IH, H1, List.length_app, app_assoc. done.
    - assert (offered_by c = []) as -> by (unfold offered_by; by rewrite Eb). specialize (IH k s). by destruct (drain_all _ _ _ _) as [[g' s2] n2]. }
  specialize (Hall (q_registry q) 0%nat (q_session q)). by destruct (drain_all _ _ _ _) as [[g' s2] n2].
Qed.
End MqttHealthOk.
