(* ===== verification/Cia402.v ===== *)
(** * CiA 402 drives

    Models [taktora-cia402/src/]: state.rs (the decoding of the statusword and the
    command words) and power.rs (the power state machine of one axis), and of
    [taktora-motion/src/scale.rs] the unwrapping of the position.

    The drive is the environment: the state machine that CiA 402 prescribes, with its
    numbered transitions, which shows its state in the statusword and resets a fault
    on a rising edge of bit 7 of the controlword. *)

From stdpp Require Import base list.
From Stdlib Require Import ZArith Lia.
From S2P Require Import Prelude.

Module Cia402.

(** ** Words *)

Definition SHUTDOWN : Z := 0x0006.
Definition SWITCH_ON : Z := 0x0007.
Definition ENABLE_OPERATION : Z := 0x000F.
Definition QUICK_STOP : Z := 0x0002.
Definition DISABLE_VOLTAGE : Z := 0x0000.
Definition FAULT_RESET : Z := 0x0080.

Inductive Cia402State :=
| NotReadyToSwitchOn
| SwitchOnDisabled
| ReadyToSwitchOn
| SwitchedOn
| OperationEnabled
| QuickStopActive
| FaultReactionActive
| Fault.
#[export] Instance state_eq_dec : EqDecision Cia402State.
Proof. solve_decision. Defined.

Definition decode_state (sw : Z) : Cia402State :=
  if Z.land sw 0x4F =? 0x40 then SwitchOnDisabled
  else if Z.land sw 0x6F =? 0x21 then ReadyToSwitchOn
  else if Z.land sw 0x6F =? 0x23 then SwitchedOn
  else if Z.land sw 0x6F =? 0x27 then OperationEnabled
  else if Z.land sw 0x6F =? 0x07 then QuickStopActive
  else if Z.land sw 0x4F =? 0x0F then FaultReactionActive
  else if Z.land sw 0x4F =? 0x08 then Fault
  else NotReadyToSwitchOn.

(** ** The power state machine *)

Inductive PowerTarget := Enabled | QuickStop | Disabled.
#[export] Instance target_eq_dec : EqDecision PowerTarget.
Proof. solve_decision. Defined.
(** [PowerStateMachine] is its target. *)
Definition PowerStateMachine := PowerTarget.

Definition faulty (s : Cia402State) : bool :=
  match s with Fault | FaultReactionActive => true | _ => false end.
Definition next_controlword (m : PowerStateMachine) (statusword : Z) : Z :=
  let state := decode_state statusword in
  if faulty state then FAULT_RESET
  else
    match m with
    | Disabled => DISABLE_VOLTAGE
    | QuickStop =>
        match state with
        | OperationEnabled | QuickStopActive => QUICK_STOP
        | _ => DISABLE_VOLTAGE
        end
    | Enabled =>
        match state with
        | ReadyToSwitchOn => SWITCH_ON
        | SwitchedOn | OperationEnabled => ENABLE_OPERATION
        | QuickStopActive => DISABLE_VOLTAGE
        | _ => SHUTDOWN
        end
    end.
Definition is_enabled (statusword : Z) : bool := bool_decide (decode_state statusword = OperationEnabled).

(** ** Positions *)

(** Two's complement of [w] bits. *)
Definition swrap (w x : Z) : Z := (x + 2 ^ (w - 1)) mod 2 ^ w - 2 ^ (w - 1).
Record Unwrapper := MkUnwrapper { last_raw : Z; accum : Z; seen : bool }.
Definition unwrapper_default : Unwrapper := MkUnwrapper 0 0 false.
(** [update]; the accumulator is an [i64]. *)
Definition unwrap (u : Unwrapper) (raw : Z) : Unwrapper :=
  if negb (seen u) then MkUnwrapper raw raw true
  else
    let delta := swrap 32 (raw - last_raw u) in
    MkUnwrapper raw (swrap 64 (accum u + delta)) true.
Fixpoint unwrap_all (u : Unwrapper) (raws : list Z) : Unwrapper :=
  match raws with [] => u | r :: raws => unwrap_all (unwrap u r) raws end.

(** ** The drive *)

(** The statusword of a state: the bits CiA 402 fixes, the others are free. *)
Definition shows (s : Cia402State) (sw : Z) : Prop :=
  let b := Z.testbit sw in
  match s with
  | NotReadyToSwitchOn => b 6 = false ∧ b 3 = false ∧ b 2 = false ∧ b 1 = false ∧ b 0 = false
  | SwitchOnDisabled => b 6 = true ∧ b 3 = false ∧ b 2 = false ∧ b 1 = false ∧ b 0 = false
  | ReadyToSwitchOn => b 6 = false ∧ b 5 = true ∧ b 3 = false ∧ b 2 = false ∧ b 1 = false ∧ b 0 = true
  | SwitchedOn => b 6 = false ∧ b 5 = true ∧ b 3 = false ∧ b 2 = false ∧ b 1 = true ∧ b 0 = true
  | OperationEnabled => b 6 = false ∧ b 5 = true ∧ b 3 = false ∧ b 2 = true ∧ b 1 = true ∧ b 0 = true
  | QuickStopActive => b 6 = false ∧ b 5 = false ∧ b 3 = false ∧ b 2 = true ∧ b 1 = true ∧ b 0 = true
  | FaultReactionActive => b 6 = false ∧ b 3 = true ∧ b 2 = true ∧ b 1 = true ∧ b 0 = true
  | Fault => b 6 = false ∧ b 3 = true ∧ b 2 = false ∧ b 1 = false ∧ b 0 = false
  end.

(** The statusword of the virtual drives ([encode_state] of mock.rs). *)
Definition encode_state (s : Cia402State) : Z :=
  match s with
  | SwitchOnDisabled => 0x0250
  | ReadyToSwitchOn => 0x0231
  | SwitchedOn => 0x0233
  | OperationEnabled => 0x0237
  | QuickStopActive => 0x0207
  | FaultReactionActive => 0x020F
  | Fault => 0x0208
  | NotReadyToSwitchOn => 0x0000
  end.
(** The commands a controlword stands for. *)
Definition disables (cw : Z) : bool := negb (Z.testbit cw 1).
Definition stops (cw : Z) : bool := Z.testbit cw 1 && negb (Z.testbit cw 2).
Definition shuts_down (cw : Z) : bool := Z.testbit cw 1 && Z.testbit cw 2 && negb (Z.testbit cw 0).
Definition switches_on (cw : Z) : bool :=
  Z.testbit cw 0 && Z.testbit cw 1 && Z.testbit cw 2 && negb (Z.testbit cw 3).
Definition enables (cw : Z) : bool := Z.testbit cw 0 && Z.testbit cw 1 && Z.testbit cw 2 && Z.testbit cw 3.

(** The drive with the last controlword it received.  Transitions 1 and 14 are its
    own; the others follow the command. *)
Record drive := MkDrive { d_state : Cia402State; d_cw : Z }.
Definition drive_state (d : drive) (cw : Z) : Cia402State :=
  match d_state d with
  | NotReadyToSwitchOn => SwitchOnDisabled
  | SwitchOnDisabled => if shuts_down cw then ReadyToSwitchOn else SwitchOnDisabled
  | ReadyToSwitchOn =>
      if disables cw || stops cw then SwitchOnDisabled
      else if switches_on cw || enables cw then SwitchedOn else ReadyToSwitchOn
  | SwitchedOn =>
      if disables cw || stops cw then SwitchOnDisabled
      else if shuts_down cw then ReadyToSwitchOn
      else if enables cw then OperationEnabled else SwitchedOn
  | OperationEnabled =>
      if disables cw then SwitchOnDisabled
      else if stops cw then QuickStopActive
      else if shuts_down cw then ReadyToSwitchOn
      else if switches_on cw then SwitchedOn else OperationEnabled
  | QuickStopActive => if disables cw then SwitchOnDisabled else QuickStopActive
  | FaultReactionActive => Fault
  | Fault =>
      if Z.testbit cw 7 && negb (Z.testbit (d_cw d) 7) then SwitchOnDisabled else Fault
  end.
Definition drive_step (d : drive) (cw : Z) : drive := MkDrive (drive_state d cw) cw.

(** ** Decoding is exact *)

#[local] Arguments Z.testbit : simpl never.

(** The masks as bits. *)
Lemma land_eq_bits x m v : 0 ≤ m < 128 → 0 ≤ v < 128 →
  Z.land x m = v ↔ ∀ i, 0 ≤ i < 7 → Z.testbit x i && Z.testbit m i = Z.testbit v i.
Proof.
  intros Hm Hv. split.
  - intros <- i Hi. by rewrite Z.land_spec.
  - intros H. apply Z.bits_inj'. intros i Hi. rewrite Z.land_spec.
    destruct (Z.lt_ge_cases i 7); [by apply H|].
    assert (∀ y, 0 ≤ y < 128 → Z.testbit y i = false) as Hz.
    { intros y Hy. rewrite Z.testbit_false by lia. rewrite Z.div_small; [done|].
      split; [lia|]. apply Z.lt_le_trans with (2 ^ 7); [lia|]. apply Z.pow_le_mono_r; lia. }
    by rewrite (Hz m), (Hz v), andb_false_r by lia.
Qed.
Lemma bits7 (P : Z → Prop) : (∀ i, 0 ≤ i < 7 → P i) ↔ P 0 ∧ P 1 ∧ P 2 ∧ P 3 ∧ P 4 ∧ P 5 ∧ P 6.
Proof.
  split; [intros H; split_and!; apply H; lia|]. intros (?&?&?&?&?&?&?) i Hi.
  assert (i = 0 ∨ i = 1 ∨ i = 2 ∨ i = 3 ∨ i = 4 ∨ i = 5 ∨ i = 6) by lia. naive_solver.
Qed.
Lemma land_eqb x m v : 0 ≤ m < 128 → 0 ≤ v < 128 →
  (Z.land x m =? v) = forallb (λ i, eqb (Z.testbit x i && Z.testbit m i) (Z.testbit v i)) [0; 1; 2; 3; 4; 5; 6].
Proof.
  intros Hm Hv. apply eq_true_iff_eq. rewrite Z.eqb_eq, land_eq_bits, bits7 by done. simpl.
  rewrite !andb_true_iff, !eqb_true_iff. tauto.
Qed.

(** A drive's statusword is decoded to its state. *)
Lemma decode_shows s sw : shows s sw → decode_state sw = s.
Proof.
  unfold decode_state, shows. rewrite !land_eqb by lia. cbn [forallb]. cbv beta zeta.
  generalize (Z.testbit sw 0) (Z.testbit sw 1) (Z.testbit sw 2) (Z.testbit sw 3) (Z.testbit sw 4)
    (Z.testbit sw 5) (Z.testbit sw 6).
  intros b0 b1 b2 b3 b4 b5 b6. destruct s, b0, b1, b2, b3, b4, b5, b6; vm_compute; intros H; destruct_and?; done.
Qed.

(** ** The closed loop *)

Section loop.
Context (target : PowerTarget) (t : nat → drive) (sw : nat → Z).
Context (Hsw : ∀ k, shows (d_state (t k)) (sw k)).
Context (Hstep : ∀ k, t (S k) = drive_step (t k) (next_controlword target (sw k))).

Lemma loop_state k : d_state (t (S k)) =
  drive_state (t k) (next_controlword target (sw k)).
Proof. by rewrite Hstep. Qed.
Lemma loop_decode k : decode_state (sw k) = d_state (t k).
Proof. apply decode_shows, Hsw. Qed.

Lemma fault_holds k : faulty (d_state (t k)) = true →
  d_state (t k) = FaultReactionActive ∨ Z.testbit (d_cw (t k)) 7 = true →
  d_state (t (S k)) = Fault ∧ Z.testbit (d_cw (t (S k))) 7 = true.
Proof.
  intros Hf Hor. rewrite Hstep. unfold drive_step, drive_state, next_controlword. simpl.
  rewrite loop_decode, Hf. destruct (d_state (t k)) eqn:E; try done. destruct Hor as [|Hb]; [done|].
  by rewrite Hb.
Qed.
Lemma fault_for_ever k : faulty (d_state (t 0%nat)) = true →
  d_state (t 0%nat) = FaultReactionActive ∨ Z.testbit (d_cw (t 0%nat)) 7 = true →
  d_state (t (S k)) = Fault ∧ Z.testbit (d_cw (t (S k))) 7 = true.
Proof.
  intros Hf Hor. induction k as [|k [IH1 IH2]]; [by apply fault_holds|].
  apply fault_holds; [by rewrite IH1|by right].
Qed.
End loop.

(** Cycles still needed to operation. *)
Definition rank (d : drive) : nat :=
  match d_state d with
  | OperationEnabled => 0
  | SwitchedOn => 1
  | ReadyToSwitchOn => 2
  | SwitchOnDisabled => 3
  | NotReadyToSwitchOn | QuickStopActive | Fault => 4
  | FaultReactionActive => 5
  end.
(** A fault that a reset can reach: bit 7 is low. *)
Definition resettable (d : drive) : Prop :=
  d_state d ≠ FaultReactionActive ∧ (d_state d = Fault → Z.testbit (d_cw d) 7 = false).

Lemma enable_step d sw : shows (d_state d) sw → resettable d →
  let d' := drive_step d (next_controlword Enabled sw) in
  resettable d' ∧ (rank d' <= pred (rank d))%nat.
Proof.
  intros Hs [Hr Hf]. unfold drive_step, drive_state, next_controlword, resettable, rank. simpl.
  rewrite (decode_shows _ _ Hs). destruct (d_state d); try done; simpl; try (split; [done|lia]).
  rewrite Hf by done. simpl. split; [done|lia].
Qed.

(** C35. The power state machine brings a CiA 402 drive to operation: whatever the free
    bits of the statusword, every drive that is not in fault, or in a fault whose reset
    bit is low, is operation-enabled after at most four cycles and stays so; commanded
    to stop or disabled, a drive leaves operation with the next cycle and does not
    return.  The exception is a fault seen while its reaction is active, or found with
    the reset bit high: bit 7 is then never lowered, the drive sees no rising edge and
    stays in fault for ever. *)
Theorem drive_walk target (t : nat → drive) (sw : nat → Z) :
  (∀ k, shows (d_state (t k)) (sw k)) →
  (∀ k, t (S k) = drive_step (t k) (next_controlword target (sw k))) →
  (target = Enabled → resettable (t 0%nat) → ∀ k, (4 <= k)%nat → d_state (t k) = OperationEnabled) ∧
  (target ≠ Enabled → ∀ k, (1 <= k)%nat → d_state (t k) ≠ OperationEnabled) ∧
  (¬ resettable (t 0%nat) → ∀ k, (1 <= k)%nat → d_state (t k) = Fault).
Proof.
  intros Hsw Hstep. split_and!.
  - intros -> Hr k Hk.
    assert (∀ k, resettable (t k) ∧ (rank (t k) <= rank (t 0) - k)%nat) as H.
    { clear k Hk. induction k as [|k [IH1 IH2]]; [split; [done|lia]|]. rewrite Hstep.
      destruct (enable_step (t k) (sw k)) as [H1 H2]; [done..|]. split; [done|lia]. }
    destruct (H 0%nat) as [[Hnr _] _]. destruct (H k) as [_ Hk'].
    assert (rank (t 0%nat) <= 4)%nat by (unfold rank; destruct (d_state (t 0%nat)); try lia; done).
    assert (rank (t k) = 0)%nat as Hz by lia. unfold rank in Hz. by destruct (d_state (t k)).
  - intros Ht [|k] Hk; [lia|]. rewrite Hstep. unfold drive_step, drive_state, next_controlword. simpl.
    rewrite (decode_shows _ _ (Hsw k)). destruct target, (d_state (t k)); try done; simpl; by case_match.
  - intros Hnr [|k] Hk; [lia|]. apply (fault_for_ever target t sw Hsw Hstep).
    + unfold resettable in Hnr. destruct (d_state (t 0%nat)); try done; exfalso; apply Hnr; done.
    + unfold resettable in Hnr. destruct (decide (d_state (t 0%nat) = FaultReactionActive)); [by left|right].
      destruct (Z.testbit (d_cw (t 0%nat)) 7) eqn:E; [done|]. exfalso. by apply Hnr.
Qed.

Lemma encode_state_shows s : shows s (encode_state s).
Proof. by destruct s. Qed.
Fixpoint simulate (target : PowerTarget) (d : drive) (k : nat) : drive :=
  match k with
  | O => d
  | S k => let d := simulate target d k in drive_step d (next_controlword target (encode_state (d_state d)))
  end.
Lemma drive_walk_witness :
  d_state (simulate Enabled (MkDrive Fault 0) 4) = OperationEnabled ∧
  d_state (simulate Enabled (MkDrive FaultReactionActive 0) 9) = Fault.
Proof.
  split.
  - apply (drive_walk Enabled (simulate Enabled (MkDrive Fault 0))
      (λ k, encode_state (d_state (simulate Enabled (MkDrive Fault 0) k)))); try done; intros; apply encode_state_shows.
  - apply (drive_walk Enabled (simulate Enabled (MkDrive FaultReactionActive 0))
      (λ k, encode_state (d_state (simulate Enabled (MkDrive FaultReactionActive 0) k)))); try (intros; apply encode_state_shows);
      try done; [by intros []|lia].
Defined.

(** ** The position is followed across wraps *)

Lemma swrap_small w x : 1 ≤ w → - 2 ^ (w - 1) ≤ x < 2 ^ (w - 1) → swrap w x = x.
Proof.
  intros Hw Hx. unfold swrap. replace (2 ^ w) with (2 * 2 ^ (w - 1)); [rewrite Z.mod_small; lia|].
  rewrite <- Z.pow_succ_r by lia. f_equal. lia.
Qed.
(** Wrapped differences are the differences of what was wrapped. *)
Lemma swrap_sub w x y : 1 ≤ w → swrap w (swrap w x - swrap w y) = swrap w (x - y).
Proof.
  intros Hw. unfold swrap. f_equal. set (m := 2 ^ w). set (h := 2 ^ (w - 1)).
  assert (Hm : m ≠ 0) by (unfold m; pose proof (Z.pow_pos_nonneg 2 w); lia).
  rewrite (Z.mod_eq (x + h) m), (Z.mod_eq (y + h) m) by done.
  replace (x + h - m * ((x + h) / m) - h - (y + h - m * ((y + h) / m) - h) + h)
    with (x - y + h + ((y + h) / m - (x + h) / m) * m) by lia.
  by rewrite Z.mod_add.
Qed.

(** Positions one after the other, each less than half a turn of the counter away. *)
Fixpoint steady (p : Z) (ps : list Z) : Prop :=
  match ps with [] => True | q :: ps => - 2 ^ 31 ≤ q - p < 2 ^ 31 ∧ steady q ps end.

Lemma last_cons (q d : Z) l : List.last (q :: l) d = List.last l q.
Proof. revert q d. induction l as [|x l IH]; intros q d; [done|]. change (List.last (x :: l) d = List.last (x :: l) q). by rewrite !IH. Qed.

(** Reading the low 32 bits of a position that moves by less than 2^31 per cycle,
    the unwrapper returns the position up to the offset of the first reading. *)
Lemma unwrap_follows p ps : steady p ps →
  let off := swrap 32 p - p in
  Forall (λ q, - 2 ^ 63 ≤ q + off < 2 ^ 63) ps →
  accum (unwrap_all unwrapper_default (swrap 32 <$> p :: ps)) = List.last ps p + off.
Proof.
  intros Hst off Hb. rewrite fmap_cons. simpl. unfold unwrap at 1. simpl.
  assert (∀ ps' p', steady p' ps' → Forall (λ q, - 2 ^ 63 ≤ q + off < 2 ^ 63) ps' →
    accum (unwrap_all (MkUnwrapper (swrap 32 p') (p' + off) true) (swrap 32 <$> ps')) = List.last ps' p' + off) as H.
  { clear Hst Hb. induction ps' as [|q ps' IH]; intros p' Hst Hb; [done|]. destruct Hst as [Hd Hst].
    apply Forall_cons in Hb as [Hq Hb]. rewrite fmap_cons. simpl unwrap_all. unfold unwrap. simpl negb. cbv iota.
    simpl last_raw. simpl accum. rewrite swrap_sub, (swrap_small 32 (q - p')) by lia.
    replace (p' + off + (q - p')) with (q + off) by lia. rewrite (swrap_small 64) by lia.
    rewrite IH by done. by rewrite last_cons. }
  replace (swrap 32 p) with (p + off) at 2 by (unfold off; lia). by apply H.
Qed.
End Cia402.
