(* ===== verification/MotionTopo.v ===== *)
(** * The coupling topology of the axes

    Models [taktora-motion/src/topology.rs] and the tick order that
    [NcCycle::precompute] (cycle.rs) derives from it.  An array of [N] bitsets is a
    list of 64-bit words, a bit index an axis.  The loops carry fuel; running out of
    it panics, and the theorems exclude it.

    The order is Kahn's algorithm, always taking the lowest axis without a pending
    master; the quick-stop set of an axis is a breadth-first search over the engaged
    edges. *)

From stdpp Require Import base list relations sorting.
From Stdlib Require Import ZArith Lia.
From S2P Require Import Prelude BoundedAlloc ExecGraphOk.

Module MotionTopo.
Import BoundedAlloc(trailing_zeros, trailing_zeros_spec).
#[local] Arguments Z.testbit : simpl never.

(** ** Words *)

Definition bit (s : Z) : Z := Z.shiftl 1 s.
(** [bits &= bits - 1]. *)
Definition clear_lowest (b : Z) : Z := Z.land b (b - 1).
Fixpoint bits_loop (fuel : nat) (b : Z) : res (list Z) :=
  match fuel with
  | O => Panic
  | S fuel =>
      if b =? 0 then Ok []
      else v ← bits_loop fuel (clear_lowest b); Ok (trailing_zeros b :: v)
  end.
Definition bits_to_vec (b : Z) : res (list Z) := bits_loop 65 b.
(** The inner loops: the union of the rows that [bits] selects. *)
Fixpoint union_loop (fuel : nat) (rows : list Z) (bits acc : Z) : res Z :=
  match fuel with
  | O => Panic
  | S fuel =>
      if bits =? 0 then Ok acc
      else
        r ← idx rows (trailing_zeros bits);
        union_loop fuel rows (clear_lowest bits) (Z.lor acc r)
  end.

(** ** The topology *)

Record CouplingTopology := MkTopology {
  declared : list Z;
  engaged : list Z;
  downstream_bits : list Z;
}.
Definition axes_of (t : CouplingTopology) : nat := length (declared t).
Definition topology_new (n : nat) : res CouplingTopology :=
  if (n <=? 64)%nat then Ok (MkTopology (replicate n 0) (replicate n 0) (replicate n 0)) else Panic.
(** Changing a row; out of bounds panics. *)
Definition alter_row (f : Z → Z) (rows : list Z) (i : Z) : res (list Z) :=
  r ← idx rows i; Ok (<[Z.to_nat i := f r]> rows).
(** [debug_assert!] on the slave. *)
Definition add_edge (t : CouplingTopology) (master slave : Z) : res CouplingTopology :=
  if slave <? Z.of_nat (axes_of t) then
    d ← alter_row (λ r, Z.lor r (bit slave)) (declared t) master;
    Ok (MkTopology d (engaged t) (downstream_bits t))
  else Panic.
Definition set_engaged (t : CouplingTopology) (master slave : Z) (on : bool) : res CouplingTopology :=
  if slave <? Z.of_nat (axes_of t) then
    e ← alter_row (λ r, if on then Z.lor r (bit slave) else Z.ldiff r (bit slave)) (engaged t) master;
    Ok (MkTopology (declared t) e (downstream_bits t))
  else Panic.
Definition declared_edge (t : CouplingTopology) (master slave : Z) : res bool :=
  r ← idx (declared t) master; Ok (negb (Z.land r (bit slave) =? 0)).

(** One sweep of the fixpoint over the axes [ms]. *)
Fixpoint sweep (ms : list nat) (rows : list Z) (changed : bool) : res (list Z * bool) :=
  match ms with
  | [] => Ok (rows, changed)
  | m :: ms =>
      r ← idx rows (Z.of_nat m);
      acc ← union_loop 65 rows r r;
      if acc =? r then sweep ms rows changed
      else sweep ms (<[m := acc]> rows) true
  end.
Fixpoint fixpoint (fuel : nat) (rows : list Z) : res (list Z) :=
  match fuel with
  | O => Panic
  | S fuel =>
      '(rows, changed) ← sweep (seq 0 (length rows)) rows false;
      if changed : bool then fixpoint fuel rows else Ok rows
  end.
Definition topo_precompute (t : CouplingTopology) : res CouplingTopology :=
  d ← fixpoint (S (axes_of t * axes_of t)) (declared t);
  Ok (MkTopology (declared t) (engaged t) d).
Definition downstream (t : CouplingTopology) (axis : Z) : res (list Z) :=
  b ← idx (downstream_bits t) axis; bits_to_vec b.

Fixpoint search (fuel : nat) (rows : list Z) (visited frontier : Z) : res Z :=
  match fuel with
  | O => Panic
  | S fuel =>
      if frontier =? 0 then Ok visited
      else
        let visited := Z.lor visited frontier in
        next ← union_loop 65 rows frontier 0;
        search fuel rows visited (Z.ldiff next visited)
  end.
Definition engaged_downstream (t : CouplingTopology) (axis : Z) : res (list Z) :=
  f ← idx (engaged t) axis;
  v ← search 65 (engaged t) 0 f;
  bits_to_vec v.

(** ** The tick order *)

Section order.
Context (t : CouplingTopology).
Let N := axes_of t.
Definition has_edge (m s : nat) : bool :=
  match declared_edge t (Z.of_nat m) (Z.of_nat s) with Ok b => b | Panic => false end.
(** The lowest master. *)
Definition direct_master_of (s : nat) : option nat :=
  list_find (λ m, m ≠ s ∧ has_edge m s = true) (seq 0 N) ≫= λ p, Some p.2.
(** [in_degree]; a [u8] counts at most 63 masters. *)
Definition in_degrees : list nat :=
  (λ s, length (filter (λ m, m ≠ s ∧ has_edge m s = true) (seq 0 N))) <$> seq 0 N.
(** The relaxation of the slaves of [m]; the subtraction is checked. *)
Fixpoint relax (m : nat) (ss : list nat) (emitted : list bool) (deg : list nat) : res (list nat) :=
  match ss with
  | [] => Ok deg
  | s :: ss =>
      if has_edge m s && negb (nth s emitted true) then
        match deg !! s with
        | Some (S d) => relax m ss emitted (<[s := d]> deg)
        | _ => Panic
        end
      else relax m ss emitted deg
  end.
Definition next_axis (emitted : list bool) (deg : list nat) : option nat :=
  list_find (λ i, nth i emitted true = false ∧ deg !! i = Some 0%nat) (seq 0 N) ≫= λ p, Some p.2.
(** The loop; [order] holds the axes emitted so far. *)
Fixpoint emit_loop (fuel : nat) (emitted : list bool) (deg order : list nat) : res (list nat) :=
  match next_axis emitted deg with
  | None => Ok order
  | Some m =>
      match fuel with
      | O => Panic
      | S fuel =>
          let emitted := <[m := true]> emitted in
          deg ← relax m (seq 0 N) emitted deg;
          emit_loop fuel emitted deg (order ++ [m])
      end
  end.
(** With an incomplete order a debug build panics and a release build falls back to
    the identity. *)
Definition tick_order (debug : bool) : res (list nat) :=
  o ← emit_loop N (replicate N false) in_degrees [];
  if (length o =? N)%nat then Ok o else if debug then Panic else Ok (seq 0 N).
End order.
End MotionTopo.
