(* ===== verification/MotionTopoOk.v ===== *)
(** * Correctness of the coupling topology

    The bit loops enumerate the set bits; the fixpoint of the topology is the
    transitive closure of the declared edges, the quick-stop set of an axis that of
    the engaged edges; the tick order of an acyclic topology lists every axis once,
    masters before their slaves. *)

From stdpp Require Import base list relations sorting.
From Stdlib Require Import ZArith Lia.
From S2P Require Import Prelude BoundedAlloc ExecGraphOk MotionTopo.

Module MotionTopoOk.
Import MotionTopo.
Import BoundedAlloc(trailing_zeros, trailing_zeros_spec).
#[local] Arguments Z.testbit : simpl never.

(** ** Set bits *)

Definition bits (b : Z) : list Z := filter (λ k, Z.testbit b k = true) (seqZ 0 64).

Lemma elem_bits b k : k ∈ bits b ↔ 0 ≤ k < 64 ∧ Z.testbit b k = true.
Proof. unfold bits. rewrite list_elem_of_filter, elem_of_seqZ. intuition lia. Qed.
Lemma bits_NoDup b : NoDup (bits b).
Proof. apply NoDup_filter, NoDup_seqZ. Qed.
Lemma bits_length b : (length (bits b) ≤ 64)%nat.
Proof. unfold bits. etrans; [apply length_filter|]. by rewrite length_seqZ. Qed.

(** The low part and the high part of a word. *)
Lemma testbit_split n h r k : 0 ≤ n → 0 ≤ r < 2 ^ n → 0 ≤ k →
  Z.testbit (2 ^ n * h + r) k = if k <? n then Z.testbit r k else Z.testbit h (k - n).
Proof.
  intros Hn Hr Hk. rewrite Z.mul_comm, Z.add_comm. destruct (Z.ltb_spec k n) as [Hlt|Hge].
  - rewrite <- (Z.mod_pow2_bits_low _ n k), Z.mod_add, Z.mod_small by lia. done.
  - replace k with (k - n + n) at 1 by lia. rewrite <- Z.div_pow2_bits by lia.
    rewrite Z.div_add, Z.div_small by lia. done.
Qed.
Lemma clear_lowest_spec b k : is_u 64 b → b ≠ 0 → 0 ≤ k →
  Z.testbit (clear_lowest b) k = Z.testbit b k && negb (k =? trailing_zeros b).
Proof.
  intros Hb Hne Hk. destruct (trailing_zeros_spec b Hb Hne) as (Hs & Hset & Hlow).
  set (s := trailing_zeros b) in *.
  assert (Hp : 0 < 2 ^ s) by (apply Z.pow_pos_nonneg; lia).
  assert (Hp1 : 2 ^ (s + 1) = 2 * 2 ^ s) by (rewrite Z.pow_add_r by lia; lia).
  assert (Hmod : b mod 2 ^ (s + 1) = 2 ^ s).
  { apply Z.bits_inj'. intros i Hi. rewrite Z.pow2_bits_eqb by lia.
    destruct (Z.lt_ge_cases i (s + 1)) as [Hlt|Hge].
    - rewrite Z.mod_pow2_bits_low by lia. destruct (Z.eqb_spec s i) as [<-|]; [done|]. apply Hlow. lia.
    - rewrite Z.mod_pow2_bits_high by lia. symmetry. apply Z.eqb_neq. lia. }
  pose proof (Z.div_mod b (2 ^ (s + 1)) ltac:(lia)) as Hdm. rewrite Hmod in Hdm.
  set (h := b / 2 ^ (s + 1)) in *. unfold clear_lowest. rewrite Z.land_spec.
  assert (H1 : b - 1 = 2 ^ (s + 1) * h + Z.ones s) by (rewrite Z.ones_equiv; lia).
  rewrite H1. rewrite Hdm at 1 2. rewrite !testbit_split by (rewrite ?Z.ones_equiv; lia).
  destruct (Z.ltb_spec k (s + 1)).
  - rewrite Z.pow2_bits_eqb, Z.eqb_sym by lia. destruct (Z.eqb_spec k s) as [->|]; [|done].
    simpl. apply Z.ones_spec_high. lia.
  - replace (k =? s) with false by (symmetry; apply Z.eqb_neq; lia). simpl. by rewrite andb_diag, andb_true_r.
Qed.
Lemma clear_lowest_u b : is_u 64 b → is_u 64 (clear_lowest b).
Proof.
  intros [H0 H1]. unfold clear_lowest. destruct (decide (b = 0)) as [->|Hne]; [done|]. split.
  - apply Z.land_nonneg. by left.
  - apply Z.le_lt_trans with b; [|done].
    apply Z.ldiff_le; [done|].
    apply Z.bits_inj'. intros i Hi. rewrite Z.ldiff_spec, Z.land_spec, Z.bits_0. by destruct (Z.testbit b i), (Z.testbit (b - 1) i).
Qed.

(** Set bits in ascending order: the lowest first, then those that are left. *)
Lemma bits_cons b : is_u 64 b → b ≠ 0 → bits b = trailing_zeros b :: bits (clear_lowest b).
Proof.
  intros Hb Hne. destruct (trailing_zeros_spec b Hb Hne) as (Hs & Hset & Hlow).
  pose proof (clear_lowest_spec b) as Hc. set (s := trailing_zeros b) in *.
  assert (Hseq : seqZ 0 64 = seqZ 0 s ++ s :: seqZ (s + 1) (63 - s)).
  { replace (seqZ 0 64) with (seqZ 0 (s + (64 - s))) by (f_equal; lia). rewrite seqZ_app, Z.add_0_l by lia.
    rewrite (seqZ_cons s) by lia. do 3 f_equal; lia. }
  unfold bits. rewrite Hseq, !filter_app, !filter_cons, decide_True by done.
  rewrite decide_False by (rewrite Hc by (done || lia); by rewrite Z.eqb_refl, andb_false_r).
  assert (∀ P Q : Z → Prop, ∀ (dP : ∀ x, Decision (P x)) (dQ : ∀ x, Decision (Q x)) (l : list Z),
    (∀ x, x ∈ l → P x ↔ Q x) → filter P l = filter Q l) as Hext.
  { intros P Q dP dQ l. induction l as [|x l IH]; intros H; [done|]. rewrite !filter_cons.
    rewrite IH by (intros; apply H; set_solver). destruct (H x ltac:(set_solver)).
    destruct (decide (P x)), (decide (Q x)); tauto. }
  assert (∀ P : Z → Prop, ∀ (dP : ∀ x, Decision (P x)) (l : list Z), (∀ x, x ∈ l → ¬ P x) → filter P l = []) as Hnil.
  { intros P dP l. induction l as [|x l IH]; intros H; [done|]. rewrite filter_cons, decide_False by (apply H; set_solver).
    apply IH. intros y Hy. apply H. set_solver. }
  rewrite (Hnil _ _ (seqZ 0 s)), (Hnil _ _ (seqZ 0 s)).
  - simpl. f_equal. apply Hext. intros x Hx%elem_of_seqZ. rewrite Hc by (done || lia).
    replace (x =? s) with false by (symmetry; apply Z.eqb_neq; lia). by rewrite andb_true_r.
  - intros x Hx%elem_of_seqZ. rewrite Hc by (done || lia). by rewrite Hlow by lia.
  - intros x Hx%elem_of_seqZ. rewrite Hlow by lia. done.
Qed.
Lemma bits_0 : bits 0 = [].
Proof. done. Qed.

Lemma bits_to_vec_ok b : is_u 64 b → bits_to_vec b = Ok (bits b).
Proof.
  unfold bits_to_vec. pose proof (bits_length b) as Hlen.
  assert (length (bits b) < 65)%nat as Hf by lia. clear Hlen.
  revert Hf. generalize 65%nat. intros fuel. revert b. induction fuel as [|fuel IH]; intros b Hf Hb; [lia|]. simpl.
  destruct (Z.eqb_spec b 0) as [->|Hne]; [done|]. rewrite (bits_cons b Hb Hne) in Hf |- *. simpl in Hf.
  rewrite IH; [done|lia|by apply clear_lowest_u].
Qed.

(** ** Rows *)

(** [n] rows over [n] axes. *)
Definition row_ok (n : nat) (r : Z) : Prop := 0 ≤ r < 2 ^ Z.of_nat n.
Record rows_ok (n : nat) (rows : list Z) : Prop := {
  ro_small : (n ≤ 64)%nat;
  ro_length : length rows = n;
  ro_rows : Forall (row_ok n) rows;
}.
(** The edge relation of rows. *)
Definition edge (rows : list Z) (m s : nat) : Prop :=
  ∃ r, rows !! m = Some r ∧ Z.testbit r (Z.of_nat s) = true.

Lemma row_u n r : (n ≤ 64)%nat → row_ok n r → is_u 64 r.
Proof.
  intros Hn [H0 H1]. split; [done|]. apply Z.lt_le_trans with (2 ^ Z.of_nat n); [done|].
  apply Z.pow_le_mono_r; lia.
Qed.
Lemma row_iff n r : row_ok n r ↔ 0 ≤ r ∧ ∀ k, Z.of_nat n ≤ k → Z.testbit r k = false.
Proof.
  split.
  - intros [H0 H1]. split; [done|]. intros k Hk. destruct (decide (r = 0)) as [->|]; [apply Z.bits_0|].
    apply Z.bits_above_log2; [done|]. apply Z.lt_le_trans with (Z.of_nat n); [|done].
    apply Z.log2_lt_pow2; lia.
  - intros [H0 H]. split; [done|]. destruct (decide (r = 0)) as [->|]; [apply Z.pow_pos_nonneg; lia|].
    apply Z.log2_lt_pow2; [lia|]. destruct (Z.lt_ge_cases (Z.log2 r) (Z.of_nat n)) as [|Hge]; [done|].
    specialize (H _ Hge). rewrite Z.bit_log2 in H by lia. done.
Qed.
Lemma row_lor n a b : row_ok n a → row_ok n b → row_ok n (Z.lor a b).
Proof.
  rewrite !row_iff. intros [Ha Ha'] [Hb Hb']. split; [by apply Z.lor_nonneg|]. intros k Hk.
  by rewrite Z.lor_spec, Ha', Hb'.
Qed.
Lemma row_ldiff n a b : row_ok n a → 0 ≤ b → row_ok n (Z.ldiff a b).
Proof.
  rewrite !row_iff. intros [Ha Ha'] Hb. split; [apply Z.ldiff_nonneg; lia|]. intros k Hk.
  by rewrite Z.ldiff_spec, Ha'.
Qed.
Lemma row_bit_lt n r k : row_ok n r → 0 ≤ k → Z.testbit r k = true → k < Z.of_nat n.
Proof.
  intros [_ H]%row_iff Hk Hb. destruct (Z.lt_ge_cases k (Z.of_nat n)) as [|Hge]; [done|]. by rewrite H in Hb.
Qed.
Lemma edge_lt n rows m s : rows_ok n rows → edge rows m s → (m < n ∧ s < n)%nat.
Proof.
  intros [_ Hl Hr] (r & Hm & Hs). pose proof (lookup_lt_Some _ _ _ Hm).
  apply (Forall_lookup_1 _ _ _ _ Hr) in Hm. apply (row_bit_lt n) in Hs; [lia|done|lia].
Qed.
Lemma bits_row n r k : (n ≤ 64)%nat → row_ok n r → k ∈ bits r ↔ 0 ≤ k ∧ Z.testbit r k = true.
Proof.
  intros Hn Hr. rewrite elem_bits. split; [intuition lia|]. intros [Hk Hb].
  apply (row_bit_lt n) in Hb as ?; [|done..]. split; [lia|done].
Qed.

(** The union of the rows that a word selects. *)
Lemma union_loop_ok n rows b acc : rows_ok n rows → row_ok n b → row_ok n acc →
  ∃ acc', union_loop 65 rows b acc = Ok acc' ∧ row_ok n acc' ∧
    ∀ k : nat, Z.testbit acc' (Z.of_nat k) = true ↔
      Z.testbit acc (Z.of_nat k) = true ∨ ∃ s : nat, Z.testbit b (Z.of_nat s) = true ∧ edge rows s k.
Proof.
  intros Hrows Hb Hacc. pose proof (ro_small _ _ Hrows) as Hn. pose proof (row_u n b Hn Hb) as Hu.
  pose proof (bits_length b) as Hlen. assert (length (bits b) < 65)%nat as Hf by lia. clear Hlen.
  assert (Hin : ∀ k, k ∈ bits b → k < Z.of_nat n).
  { intros k [Hk Hkb]%elem_bits. apply (row_bit_lt n) in Hkb; [done..|lia]. }
  assert (Hspec : ∃ acc', union_loop 65 rows b acc = Ok acc' ∧ row_ok n acc' ∧
    ∀ k : nat, Z.testbit acc' (Z.of_nat k) = true ↔
      Z.testbit acc (Z.of_nat k) = true ∨ ∃ s : Z, s ∈ bits b ∧ edge rows (Z.to_nat s) k).
  { clear Hb. revert Hf. generalize 65%nat. intros fuel. revert b acc Hu Hin Hacc.
    induction fuel as [|fuel IH]; intros b acc Hu Hin Hacc Hf; [lia|]. simpl.
    destruct (Z.eqb_spec b 0) as [->|Hne].
    { exists acc. split_and!; [done..|]. intros k. rewrite bits_0. split; [by left|]. by intros [?|(? & ?%not_elem_of_nil & _)]. }
    pose proof (bits_cons b Hu Hne) as Hcons. rewrite Hcons in Hf, Hin. simpl in Hf.
    destruct (trailing_zeros_spec b Hu Hne) as (Hs & _ & _). set (s := trailing_zeros b) in *.
    pose proof (Hin s ltac:(by apply elem_of_cons; left)) as Hsn.
    destruct (lookup_lt_is_Some_2 rows (Z.to_nat s)) as [r Hr]; [rewrite (ro_length _ _ Hrows); lia|].
    assert (idx rows s = Ok r) as -> by (apply idx_Ok; split; [lia|done]). simpl.
    assert (Hrr : row_ok n r) by (eapply Forall_lookup_1; [apply Hrows|done]).
    destruct (IH (clear_lowest b) (Z.lor acc r)) as (acc' & -> & Ha & Hk); [by apply clear_lowest_u| |by apply row_lor|lia|].
    { intros k Hk. apply Hin, elem_of_cons. by right. }
    exists acc'. split_and!; [done..|]. intros k. rewrite Hk, Hcons, Z.lor_spec, orb_true_iff. split.
    - intros [[?|?]|(s' & ? & ?)]; [by left| |right; exists s'; split; [apply elem_of_cons; by right|done]].
      right. exists s. split; [apply elem_of_cons; by left|by exists r].
    - intros [?|(s' & [->|?]%elem_of_cons & He)]; [by do 2 left| |right; by exists s'].
      left. right. destruct He as (r' & Hr' & ?). by simplify_eq. }
  destruct Hspec as (acc' & -> & Ha & Hk). exists acc'. split_and!; [done..|]. intros k. rewrite Hk.
  split; (intros [?|(s & Hs & He)]; [by left|right]).
  - apply elem_bits in Hs as [Hs Hsb]. exists (Z.to_nat s). by rewrite Z2Nat.id by lia.
  - exists (Z.of_nat s). rewrite Nat2Z.id. split; [|done]. apply (bits_row n); [done..|]. split; [lia|done].
Qed.

(** ** The closure of the declared edges *)

(** The number of edges. *)
Definition weight (rows : list Z) : Z := sum_of (λ r, len (bits r)) rows.
Lemma weight_bound n rows : rows_ok n rows → weight rows ≤ Z.of_nat (n * n).
Proof.
  intros Hr. assert (∀ l, Forall (row_ok n) l → sum_of (λ r, len (bits r)) l ≤ Z.of_nat (n * length l)) as H.
  { induction l as [|r l IH]; intros Hl; simpl; [lia|]. apply Forall_cons in Hl as [Hrow Hl].
    specialize (IH Hl). rewrite Nat.mul_succ_r, Nat2Z.inj_add. assert (len (bits r) ≤ Z.of_nat n); [|lia].
    assert (length (bits r) ≤ length (seqZ 0 (Z.of_nat n)))%nat as Hle.
    { apply submseteq_length, NoDup_submseteq; [apply bits_NoDup|]. intros k Hk%(bits_row n); [|apply Hr|done].
      destruct Hk as [Hk0 Hk]. apply elem_of_seqZ. apply (row_bit_lt n) in Hk; [lia|done..]. }
    rewrite length_seqZ in Hle. unfold len. lia. }
  unfold weight. rewrite <- (ro_length _ _ Hr) at 2. apply H, Hr.
Qed.
Lemma weight_nonneg rows : 0 ≤ weight rows.
Proof. unfold weight, sum_of. induction rows; simpl; [done|]. unfold len at 1. lia. Qed.
(** A larger row has more bits. *)
Lemma bits_grow n r r' : (n ≤ 64)%nat → row_ok n r → row_ok n r' → r' ≠ r →
  (∀ k : nat, Z.testbit r (Z.of_nat k) = true → Z.testbit r' (Z.of_nat k) = true) →
  len (bits r) < len (bits r').
Proof.
  intros Hn Hr Hr' Hne Hsub.
  assert (Hincl : ∀ k, k ∈ bits r → k ∈ bits r').
  { intros k [Hk Hb]%(bits_row n); [|done..]. apply (bits_row n); [done..|]. split; [done|].
    specialize (Hsub (Z.to_nat k)). rewrite Z2Nat.id in Hsub by done. auto. }
  assert (∃ k, k ∈ bits r' ∧ k ∉ bits r) as (k & Hk & Hnk).
  { destruct (decide (Forall (λ k, k ∈ bits r) (bits r'))) as [Hall|Hex].
    - exfalso. apply Hne. apply Z.bits_inj'. intros k Hk. rewrite Forall_forall in Hall.
      destruct (Z.testbit r' k) eqn:E', (Z.testbit r k) eqn:E; try done.
      + assert (k ∈ bits r') as Hin by (apply (bits_row n); done). apply Hall, (bits_row n) in Hin; [|done..]. naive_solver.
      + assert (k ∈ bits r) as Hin by (apply (bits_row n); done). apply Hincl, (bits_row n) in Hin; [|done..]. naive_solver.
    - apply not_Forall_Exists, Exists_exists in Hex as (k & ? & ?); [|apply _]. by exists k. }
  assert (length (k :: bits r) ≤ length (bits r'))%nat as H; [|unfold len; simpl in H; lia].
  apply submseteq_length, NoDup_submseteq; [apply NoDup_cons; split; [done|apply bits_NoDup]|].
  intros x [->|Hx]%elem_of_cons; auto.
Qed.
Lemma weight_insert rows m r acc : rows !! m = Some r →
  weight (<[m := acc]> rows) = weight rows - len (bits r) + len (bits acc).
Proof.
  intros Hm. apply lookup_split in Hm as (l1 & l2 & Hl & Hi). unfold weight.
  rewrite Hi. rewrite Hl. rewrite !sum_of_mid. lia.
Qed.
Lemma rows_insert n rows m acc : rows_ok n rows → row_ok n acc → rows_ok n (<[m := acc]> rows).
Proof. intros [H1 H2 H3] Ha. split; [done|by rewrite length_insert|by apply Forall_insert]. Qed.

#[local] Opaque weight bits union_loop.

(** Rows between a relation and its closure. *)
Definition between (R : nat → nat → Prop) (rows : list Z) : Prop :=
  (∀ m s, R m s → edge rows m s) ∧ (∀ m s, edge rows m s → tc R m s).

Lemma sweep_ok n R ms rows ch : rows_ok n rows → between R rows → Forall (λ m, m < n)%nat ms →
  ∃ rows' ch', sweep ms rows ch = Ok (rows', ch') ∧ rows_ok n rows' ∧ between R rows' ∧
    (ch' = false → ch = false ∧ rows' = rows ∧
       ∀ m s k, m ∈ ms → edge rows m s → edge rows s k → edge rows m k) ∧
    weight rows ≤ weight rows' ∧ (ch = false → ch' = true → weight rows < weight rows').
Proof.
  revert rows ch. induction ms as [|m ms IH]; intros rows ch Hr Hb Hms; cbn [sweep].
  { exists rows, ch. split_and!; [done|done|done| |lia|congruence].
    intros ->. split_and!; [done..|]. by intros m s k ?%not_elem_of_nil. }
  apply Forall_cons in Hms as [Hm Hms].
  destruct (lookup_lt_is_Some_2 rows m) as [r Hrm]; [by rewrite (ro_length _ _ Hr)|].
  assert (idx rows (Z.of_nat m) = Ok r) as -> by (apply idx_Ok; rewrite Nat2Z.id; split; [lia|done]). simpl.
  assert (Hrow : row_ok n r) by (eapply Forall_lookup_1; [apply Hr|done]).
  destruct (union_loop_ok n rows r r) as (acc & -> & Hacc & Hu); [done..|]. simpl.
  destruct (Z.eqb_spec acc r) as [->|Hne].
  - destruct (IH rows ch) as (rows' & ch' & -> & H1 & H2 & H3 & H4); [done..|].
    exists rows', ch'. split_and!; try done; [|by destruct H4..]. intros Hc. destruct (H3 Hc) as (-> & -> & Hclosed). split_and!; try done.
    intros m' s k [->|Hin]%elem_of_cons He1 He2; [|by eapply Hclosed]. destruct He1 as (r' & Hr' & Hs). simplify_eq.
    exists r. split; [done|]. apply Hu. right. by exists s.
  - assert (Hgrow : len (bits r) < len (bits acc)).
    { apply (bits_grow n); try done; [apply Hr|]. intros k Hk. apply Hu. by left. }
    assert (Hw : weight rows < weight (<[m:=acc]> rows)) by (rewrite (weight_insert _ _ r) by done; lia).
    destruct (IH (<[m:=acc]> rows) true) as (rows' & ch' & -> & H1 & H2 & H3 & H4 & H5); [by apply rows_insert| |done|].
    { destruct Hb as [Hb1 Hb2]. assert (Hmn : (m < length rows)%nat) by (by eapply lookup_lt_Some).
      split.
      - intros a s (ra & Ha & Hs)%Hb1. destruct (decide (a = m)) as [->|].
        + simplify_eq. exists acc. rewrite list_lookup_insert_eq by done. split; [done|]. apply Hu. by left.
        + exists ra. by rewrite list_lookup_insert_ne.
      - intros a s (ra & Ha & Hs). destruct (decide (a = m)) as [->|].
        + rewrite list_lookup_insert_eq in Ha by done. injection Ha as <-. apply Hu in Hs as [Hs|(v & Hv & He)].
          * apply Hb2. by exists r.
          * eapply tc_transitive; [apply Hb2; by exists r|by apply Hb2].
        + apply Hb2. exists ra. by rewrite list_lookup_insert_ne in Ha. }
    exists rows', ch'. split_and!; try done; [intros ->; by destruct (H3 eq_refl)|lia|intros; lia].
Qed.

Lemma fixpoint_ok n R fuel rows : rows_ok n rows → between R rows →
  Z.of_nat (n * n) - weight rows < Z.of_nat fuel →
  ∃ d, fixpoint fuel rows = Ok d ∧ rows_ok n d ∧ ∀ m s, edge d m s ↔ tc R m s.
Proof.
  revert rows. induction fuel as [|fuel IH]; intros rows Hr Hb Hf.
  { pose proof (weight_bound n rows Hr). lia. }
  cbn [fixpoint]. destruct (sweep_ok n R (seq 0 (length rows)) rows false) as (rows' & ch & -> & H1 & H2 & H3 & H4 & H5); [done..| |].
  { apply Forall_forall. intros m Hm%elem_of_seq. rewrite (ro_length _ _ Hr) in Hm. lia. }
  simpl. destruct ch.
  - specialize (H5 eq_refl eq_refl). apply IH; [done..|lia].
  - destruct (H3 eq_refl) as (_ & -> & Hclosed). exists rows. split_and!; [done..|]. intros m s. split; [apply Hb|].
    intros Htc. induction Htc as [x y Hxy|x y z Hxy _ IHtc]; [by apply Hb|].
    apply Hb in Hxy. eapply Hclosed; [|exact Hxy|exact IHtc]. apply (edge_lt n) in Hxy; [|done].
    apply elem_of_seq. rewrite (ro_length _ _ Hr). lia.
Qed.

(** ** The quick-stop set *)

Lemma search_ok n rows a fuel visited frontier : rows_ok n rows →
  row_ok n visited → row_ok n frontier →
  (∀ k, Z.testbit visited k = true → Z.testbit frontier k = false) →
  (∀ k : nat, Z.testbit visited (Z.of_nat k) = true ∨ Z.testbit frontier (Z.of_nat k) = true → tc (edge rows) a k) →
  (∀ k : nat, edge rows a k → Z.testbit visited (Z.of_nat k) = true ∨ Z.testbit frontier (Z.of_nat k) = true) →
  (∀ v k : nat, Z.testbit visited (Z.of_nat v) = true → edge rows v k →
     Z.testbit visited (Z.of_nat k) = true ∨ Z.testbit frontier (Z.of_nat k) = true) →
  Z.of_nat n - len (bits visited) < Z.of_nat fuel →
  ∃ v, search fuel rows visited frontier = Ok v ∧ row_ok n v ∧
    ∀ k : nat, Z.testbit v (Z.of_nat k) = true ↔ tc (edge rows) a k.
Proof.
  intros Hr. pose proof (ro_small _ _ Hr) as Hn. revert visited frontier.
  induction fuel as [|fuel IH]; intros visited frontier Hv Hf Hdis Hsound Hsucc Hclosed Hfuel.
  { assert (length (bits visited) ≤ length (seqZ 0 (Z.of_nat n)))%nat as Hle.
    { apply submseteq_length, NoDup_submseteq; [apply bits_NoDup|]. intros k [Hk0 Hk]%(bits_row n); [|done..].
      apply elem_of_seqZ. apply (row_bit_lt n) in Hk; [lia|done..]. }
    rewrite length_seqZ in Hle. unfold len in *. lia. }
  cbn [search]. destruct (Z.eqb_spec frontier 0) as [->|Hne].
  - exists visited. split_and!; [done..|]. intros k. split; [intros; apply Hsound; by left|].
    assert (Hstep : ∀ v, Z.testbit visited (Z.of_nat v) = true → ∀ k, edge rows v k → Z.testbit visited (Z.of_nat k) = true).
    { intros v Hvb k' He. destruct (Hclosed v k' Hvb He) as [|H0]; [done|]. by rewrite Z.bits_0 in H0. }
    intros Htc. assert (∃ x, edge rows a x ∧ rtc (edge rows) x k) as (x & Hax & Hxk).
    { inversion Htc as [? ? H1|? x ? H1 H2]; subst; [by exists k|]. exists x. split; [done|by apply tc_rtc]. }
    assert (Hx : Z.testbit visited (Z.of_nat x) = true).
    { destruct (Hsucc x Hax) as [|H0]; [done|]. by rewrite Z.bits_0 in H0. }
    clear Hax Htc. induction Hxk as [|x y z Hxy _ IHr]; [done|]. apply IHr. by eapply Hstep.
  - assert (Hvf : row_ok n (Z.lor visited frontier)) by (by apply row_lor).
    destruct (union_loop_ok n rows frontier 0) as (next & -> & Hnext & Hu); [done..|apply row_iff; split; [done|intros; apply Z.bits_0]|]. simpl.
    destruct Hvf as [Hvf0 Hvf1]. apply IH.
    + by split.
    + by apply row_ldiff.
    + intros k Hk. rewrite Z.ldiff_spec, Hk. apply andb_false_r.
    + intros k. rewrite Z.lor_spec, Z.ldiff_spec, orb_true_iff, andb_true_iff. intros [Hk|[Hk _]]; [by apply Hsound|].
      apply Hu in Hk as [Hk|(s & Hs & He)]; [by rewrite Z.bits_0 in Hk|].
      eapply tc_r; [apply Hsound; by right|done].
    + intros k Hk%Hsucc. left. by rewrite Z.lor_spec, orb_true_iff.
    + intros v k Hvk He. rewrite Z.lor_spec, orb_true_iff in Hvk. rewrite Z.ldiff_spec, Z.lor_spec.
      destruct (Z.testbit visited (Z.of_nat k) || Z.testbit frontier (Z.of_nat k)) eqn:Ek; [by left|right].
      apply orb_false_iff in Ek as [E1 E2]. destruct Hvk as [Hvk|Hvk].
      * destruct (Hclosed v k Hvk He); congruence.
      * rewrite (proj2 (Hu k)); [done|]. right. by exists v.
    + assert (len (bits visited) < len (bits (Z.lor visited frontier))); [|lia].
      apply (bits_grow n); try done.
      * intros Heq. apply Hne. apply Z.bits_inj'. intros k Hk. rewrite Z.bits_0.
        destruct (Z.testbit frontier k) eqn:E; [|done]. apply (f_equal (λ x, Z.testbit x k)) in Heq.
        rewrite Z.lor_spec, E, orb_true_r in Heq. rewrite (Hdis k) in E by done. done.
      * intros k Hk. by rewrite Z.lor_spec, Hk.
Qed.

(** ** Topologies *)

Record topo_ok (t : CouplingTopology) : Prop := {
  to_declared : rows_ok (axes_of t) (declared t);
  to_engaged : rows_ok (axes_of t) (engaged t);
}.
Lemma topology_new_ok n t : topology_new n = Ok t → topo_ok t ∧ axes_of t = n.
Proof.
  unfold topology_new. destruct (Nat.leb_spec n 64); [|done]. intros [= <-].
  assert (axes_of (MkTopology (replicate n 0) (replicate n 0) (replicate n 0)) = n) as Ha
    by apply length_replicate.
  split; [|done]. split; rewrite Ha; (split; [done|apply length_replicate|]);
    apply Forall_replicate; split; [done|apply Z.pow_pos_nonneg; lia|done|apply Z.pow_pos_nonneg; lia].
Qed.
Lemma row_bit n s : 0 ≤ s < Z.of_nat n → row_ok n (bit s).
Proof.
  intros Hs. unfold bit. rewrite Z.shiftl_1_l. split; [apply Z.pow_nonneg; lia|]. apply Z.pow_lt_mono_r; lia.
Qed.
Lemma alter_row_ok n f rows i rows' : rows_ok n rows → (∀ r, row_ok n r → row_ok n (f r)) →
  alter_row f rows i = Ok rows' → rows_ok n rows' ∧ length rows' = length rows.
Proof.
  intros Hr Hf (r & [Hi Hlk]%idx_Ok & [= <-])%res_bind_Ok. split; [|by rewrite length_insert].
  apply rows_insert; [done|]. apply Hf. eapply Forall_lookup_1; [apply Hr|done].
Qed.
Lemma add_edge_ok t m s t' : topo_ok t → 0 ≤ s → add_edge t m s = Ok t' → topo_ok t' ∧ axes_of t' = axes_of t.
Proof.
  intros [Hd He] Hs. unfold add_edge. destruct (Z.ltb_spec s (Z.of_nat (axes_of t))); [|done].
  intros (d & Ha & [= <-])%res_bind_Ok. apply (alter_row_ok (axes_of t)) in Ha as [Hr Hl]; [|done|].
  - assert (axes_of (MkTopology d (engaged t) (downstream_bits t)) = axes_of t) as Hx by (unfold axes_of; done).
    split; [|done]. by split; rewrite Hx.
  - intros r Hr. apply row_lor; [done|]. by apply row_bit.
Qed.
Lemma set_engaged_ok t m s on t' : topo_ok t → 0 ≤ s → set_engaged t m s on = Ok t' →
  topo_ok t' ∧ axes_of t' = axes_of t ∧ declared t' = declared t.
Proof.
  intros [Hd He] Hs. unfold set_engaged. destruct (Z.ltb_spec s (Z.of_nat (axes_of t))); [|done].
  intros (d & Ha & [= <-])%res_bind_Ok. apply (alter_row_ok (axes_of t)) in Ha as [Hr Hl]; [|done|].
  - split; [|done]. by split.
  - intros r Hr. destruct on; [apply row_lor; [done|]; by apply row_bit|]. apply row_ldiff; [done|].
    unfold bit. by apply Z.shiftl_nonneg.
Qed.

#[local] Opaque search fixpoint bits_to_vec.

(** The members of a set of axes as a vector. *)
Lemma elem_bits_row n r (s : Z) (R : nat → Prop) : (n ≤ 64)%nat → row_ok n r →
  (∀ k : nat, Z.testbit r (Z.of_nat k) = true ↔ R k) → s ∈ bits r ↔ 0 ≤ s ∧ R (Z.to_nat s).
Proof.
  intros Hn Hr HR. rewrite (bits_row n) by done. rewrite <- HR. split; intros [H0 H]; (split; [done|]).
  - by rewrite Z2Nat.id.
  - by rewrite Z2Nat.id in H.
Qed.

(** The fixpoint of [precompute] is the closure of the declared edges. *)
Lemma precompute_ok t : topo_ok t → ∃ t', topo_precompute t = Ok t' ∧ topo_ok t' ∧
  declared t' = declared t ∧ engaged t' = engaged t ∧
  ∀ a, (a < axes_of t)%nat → ∃ v, downstream t' (Z.of_nat a) = Ok v ∧
    ∀ s, s ∈ v ↔ 0 ≤ s ∧ tc (edge (declared t)) a (Z.to_nat s).
Proof.
  intros [Hd He]. unfold topo_precompute.
  destruct (fixpoint_ok (axes_of t) (edge (declared t)) (S (axes_of t * axes_of t)) (declared t))
    as (d & Hf & Hdr & Hcl); [done| | |].
  - split; [done|]. intros. by apply tc_once.
  - pose proof (weight_nonneg (declared t)). lia.
  - rewrite Hf. simpl. eexists. split; [done|]. split_and!; [by split|done|done|]. intros a Ha.
    destruct (lookup_lt_is_Some_2 d a) as [r Hr]; [by rewrite (ro_length _ _ Hdr)|].
    unfold downstream. simpl. assert (idx d (Z.of_nat a) = Ok r) as -> by (apply idx_Ok; rewrite Nat2Z.id; split; [lia|done]).
    assert (Hrow : row_ok (axes_of t) r) by (eapply Forall_lookup_1; [apply Hdr|done]).
    simpl. rewrite bits_to_vec_ok by (eapply row_u; [apply Hd|done]). eexists. split; [done|]. intros s.
    apply (elem_bits_row (axes_of t)); [apply Hd|done|]. intros k. rewrite <- Hcl. split; [by exists r|].
    intros (r' & ? & ?). by simplify_eq.
Qed.

(** The quick-stop set is what the engaged edges reach. *)
Lemma engaged_downstream_ok t a : topo_ok t → (a < axes_of t)%nat →
  ∃ v, engaged_downstream t (Z.of_nat a) = Ok v ∧ NoDup v ∧
    ∀ s, s ∈ v ↔ 0 ≤ s ∧ tc (edge (engaged t)) a (Z.to_nat s).
Proof.
  intros [Hd He] Ha.
  destruct (lookup_lt_is_Some_2 (engaged t) a) as [f Hf]; [by rewrite (ro_length _ _ He)|].
  assert (Hrow : row_ok (axes_of t) f) by (eapply Forall_lookup_1; [apply He|done]).
  assert (H0 : row_ok (axes_of t) 0) by (apply row_iff; split; [done|intros; apply Z.bits_0]).
  destruct (search_ok (axes_of t) (engaged t) a 65 0 f) as (v & Hs & Hv & Hk); try done.
  - intros k. by rewrite Z.bits_0.
  - intros k [Hk|Hk]; [by rewrite Z.bits_0 in Hk|]. apply tc_once. by exists f.
  - intros k (r & Hr & Hb). simplify_eq. by right.
  - intros v k Hv. by rewrite Z.bits_0 in Hv.
  - pose proof (ro_small _ _ He). pose proof (len_nonneg (bits 0)). lia.
  - exists (bits v). split; [|split; [apply bits_NoDup|intros s; by apply (elem_bits_row (axes_of t)); [apply He| |]]].
    apply res_bind_Ok. exists f. split; [apply idx_Ok; rewrite Nat2Z.id; split; [lia|done]|].
    apply res_bind_Ok. exists v. split; [exact Hs|]. apply bits_to_vec_ok. eapply row_u; [apply He|done].
Qed.

(** ** The tick order *)

Lemma land_bit r s : 0 ≤ s → Z.land r (bit s) = 0 ↔ Z.testbit r s = false.
Proof.
  intros Hs. unfold bit. rewrite Z.shiftl_1_l. split.
  - intros H. apply (f_equal (λ x, Z.testbit x s)) in H.
    by rewrite Z.land_spec, Z.pow2_bits_true, andb_true_r, Z.bits_0 in H by done.
  - intros H. apply Z.bits_inj'. intros k Hk. rewrite Z.land_spec, Z.pow2_bits_eqb, Z.bits_0 by done.
    destruct (Z.eqb_spec s k) as [->|]; [by rewrite H|apply andb_false_r].
Qed.
Lemma has_edge_spec t m s : has_edge t m s = true ↔ edge (declared t) m s.
Proof.
  unfold has_edge, declared_edge, edge. destruct (declared t !! m) as [r|] eqn:E.
  - assert (idx (declared t) (Z.of_nat m) = Ok r) as -> by (apply idx_Ok; rewrite Nat2Z.id; split; [lia|done]).
    simpl. pose proof (land_bit r (Z.of_nat s) ltac:(lia)) as Hb.
    destruct (Z.eqb_spec (Z.land r (bit (Z.of_nat s))) 0) as [H|H]; simpl; split.
    + done.
    + intros (r' & [= <-] & Hr). apply Hb in H. congruence.
    + intros _. exists r. split; [done|]. destruct (Z.testbit r (Z.of_nat s)); [done|]. by destruct (H (proj2 Hb eq_refl)).
    + done.
  - destruct (idx (declared t) (Z.of_nat m)) as [r|] eqn:Ei; simpl.
    + apply idx_Ok in Ei as [_ Hr]. rewrite Nat2Z.id in Hr. congruence.
    + split; [done|]. intros (r & ? & _). done.
Qed.

Section order.
Context (t : CouplingTopology).
Abbreviation N := (axes_of t).

(** The declared couplings of two different axes. *)
Definition master (m s : nat) : Prop := m ≠ s ∧ has_edge t m s = true.
#[local] Instance master_dec m s : Decision (master m s).
Proof. unfold master. apply _. Defined.
Definition couplings : list (nat * nat) :=
  filter (λ e, master e.1 e.2) (seq 0 N ≫= λ m, (λ s, (m, s)) <$> seq 0 N).
(** Masters of [s] not yet emitted. *)
Definition left_of (order : list nat) (s : nat) : list nat :=
  filter (λ m, master m s ∧ m ∉ order) (seq 0 N).
(** Every master comes first. *)
Definition masters_first (order : list nat) : Prop :=
  ∀ l1 s l2, order = l1 ++ s :: l2 → ∀ m, (m < N)%nat → master m s → m ∈ l1.

Lemma elem_couplings m s : (m, s) ∈ couplings ↔ (m < N)%nat ∧ (s < N)%nat ∧ master m s.
Proof.
  unfold couplings. rewrite list_elem_of_filter, list_elem_of_bind. simpl. split.
  - intros [Hm (m' & Hin & Hm')]. apply list_elem_of_fmap in Hin as (s' & [= <- <-] & Hs').
    rewrite elem_of_seq in *. split_and!; [lia..|done].
  - intros (Hm & Hs & He). split; [done|]. exists m. rewrite elem_of_seq. split; [|lia].
    apply list_elem_of_fmap. exists s. rewrite elem_of_seq. split; [done|lia].
Qed.

Lemma left_of_nil s order : left_of order s = [] ↔ ∀ m, (m < N)%nat → master m s → m ∈ order.
Proof.
  unfold left_of. split.
  - intros H m Hm Hms. destruct (decide (m ∈ order)) as [|Hn]; [done|]. exfalso.
    assert (m ∈ left_of order s) as Hin; [|by unfold left_of in Hin; rewrite H in Hin; apply not_elem_of_nil in Hin].
    unfold left_of. apply list_elem_of_filter. split; [done|]. apply elem_of_seq. lia.
  - intros H. destruct (filter _ _) as [|m l] eqn:E; [done|]. exfalso.
    assert (m ∈ left_of order s) as [[Hm Hn] Hs]%list_elem_of_filter by (unfold left_of; rewrite E; by left).
    apply Hn, H; [apply elem_of_seq in Hs; lia|done].
Qed.
(** Emitting a master leaves one less. *)
Lemma left_of_emit order m s : m ∉ order → (m < N)%nat →
  length (left_of order s) = (length (left_of (order ++ [m]) s) + if decide (master m s) then 1 else 0)%nat.
Proof.
  intros Hn Hm. unfold left_of. assert (Hin : m ∈ seq 0 N) by (apply elem_of_seq; lia).
  pose proof (NoDup_seq 0 N) as Hd. revert Hin Hd. generalize (seq 0 N). intros l.
  assert (Hno : ∀ l : list nat, m ∉ l → filter (λ x, master x s ∧ x ∉ order) l = filter (λ x, master x s ∧ x ∉ order ++ [m]) l).
  { clear l. induction l as [|x l IH]; intros Hl; [done|]. rewrite !filter_cons, IH by set_solver.
    destruct (decide (master x s ∧ x ∉ order)), (decide (master x s ∧ x ∉ order ++ [m])); try done; set_solver. }
  induction l as [|x l IH]; intros Hin Hd; [by apply not_elem_of_nil in Hin|].
  apply NoDup_cons in Hd as [Hx Hd]. rewrite !filter_cons. destruct (decide (x = m)) as [->|Hne].
  - rewrite Hno by done. rewrite (decide_False (P := master m s ∧ m ∉ order ++ [m])) by set_solver.
    destruct (decide (master m s)) as [Hms|Hms].
    + rewrite decide_True by done. simpl. lia.
    + rewrite decide_False by tauto. lia.
  - assert (m ∈ l) as Hml by set_solver. specialize (IH Hml Hd).
    destruct (decide (master x s ∧ x ∉ order)), (decide (master x s ∧ x ∉ order ++ [m])); simpl; try lia; set_solver.
Qed.

Lemma relax_ok m ss emitted deg :
  NoDup ss →
  (∀ s, s ∈ ss → has_edge t m s = true → nth s emitted true = false → ∃ d, deg !! s = Some (S d)) →
  ∃ deg', relax t m ss emitted deg = Ok deg' ∧ length deg' = length deg ∧
    ∀ s, deg' !! s = (if bool_decide (s ∈ ss ∧ has_edge t m s = true ∧ nth s emitted true = false)
                      then pred <$> deg !! s else deg !! s).
Proof.
  revert deg. induction ss as [|s ss IH]; intros deg Hd Hpos; cbn [relax].
  { exists deg. split_and!; [done..|]. intros s. rewrite bool_decide_false; [done|]. by intros [?%not_elem_of_nil _]. }
  apply NoDup_cons in Hd as [Hs Hd].
  destruct (has_edge t m s && negb (nth s emitted true)) eqn:E.
  - apply andb_true_iff in E as [He Hn%negb_true_iff]. destruct (Hpos s) as [d Hds]; [by left|done..|]. rewrite Hds.
    destruct (IH (<[s:=d]> deg)) as (deg' & -> & Hl & Hk); [done| |].
    { intros s' Hs' He' Hn'. destruct (decide (s' = s)) as [->|]; [done|]. rewrite list_lookup_insert_ne by done.
      apply Hpos; [by right|done..]. }
    exists deg'. split_and!; [done|by rewrite Hl, length_insert|]. intros s'. rewrite Hk.
    destruct (decide (s' = s)) as [->|Hne].
    + rewrite bool_decide_false by naive_solver. rewrite bool_decide_true by (split; [by left|done]).
      rewrite list_lookup_insert_eq by (by eapply lookup_lt_Some). by rewrite Hds.
    + rewrite list_lookup_insert_ne by done. erewrite bool_decide_ext; [done|]. rewrite elem_of_cons. naive_solver.
  - destruct (IH deg) as (deg' & -> & Hl & Hk); [done| |].
    { intros s' Hs'. apply Hpos. by right. }
    exists deg'. split_and!; [done..|]. intros s'. rewrite Hk. erewrite bool_decide_ext; [done|].
    rewrite elem_of_cons. split; [naive_solver|]. intros ([->|?] & He & Hn); [|done]. by rewrite He, Hn in E.
Qed.

Record order_inv (emitted : list bool) (deg order : list nat) : Prop := {
  oi_emitted i : (i < N)%nat → nth i emitted true = bool_decide (i ∈ order);
  oi_length : length emitted = N;
  oi_nodup : NoDup order;
  oi_bound i : i ∈ order → (i < N)%nat;
  oi_deg s : (s < N)%nat → s ∉ order → deg !! s = Some (length (left_of order s));
  oi_first : masters_first order;
}.

Lemma next_axis_Some emitted deg m : next_axis t emitted deg = Some m →
  (m < N)%nat ∧ nth m emitted true = false ∧ deg !! m = Some 0%nat.
Proof.
  unfold next_axis. intros ([i x] & Hf & [= <-])%bind_Some. apply list_find_Some in Hf as (Hi & [? ?] & _).
  apply lookup_seq in Hi as [-> ?]. split_and!; [lia|done..].
Qed.
Lemma next_axis_None emitted deg i : next_axis t emitted deg = None → (i < N)%nat →
  nth i emitted true = false → deg !! i ≠ Some 0%nat.
Proof.
  unfold next_axis. intros Hn Hi He Hd. destruct (list_find _ _) as [p|] eqn:E; [done|].
  apply list_find_None in E. rewrite Forall_forall in E. apply (E i); [|done]. apply elem_of_seq. lia.
Qed.

Lemma emit_loop_ok fuel emitted deg order : order_inv emitted deg order → (N ≤ fuel + length order)%nat →
  ∃ o, emit_loop t fuel emitted deg order = Ok o ∧
    ∃ emitted' deg', order_inv emitted' deg' o ∧ next_axis t emitted' deg' = None.
Proof.
  revert emitted deg order. induction fuel as [|fuel IH]; intros emitted deg order Hinv Hf; simpl;
    destruct (next_axis t emitted deg) as [m|] eqn:En; try (by exists order; eauto);
    apply next_axis_Some in En as (Hm & Hem & Hdm); destruct Hinv as [He Hl Hd Hb Hg Hfst];
    rewrite He in Hem by done; apply bool_decide_eq_false in Hem.
  { exfalso. assert (length (m :: order) ≤ length (seq 0 N))%nat as H; [|rewrite length_seq in H; simpl in *; lia].
    apply submseteq_length, NoDup_submseteq; [by apply NoDup_cons|].
    intros i [->|?%Hb]%elem_of_cons; apply elem_of_seq; lia. }
  assert (Hnth : ∀ s, (s < N)%nat → nth s (<[m:=true]> emitted) true = bool_decide (s ∈ order ++ [m])).
  { intros s Hs. rewrite nth_lookup. destruct (decide (s = m)) as [->|Hne].
    - rewrite list_lookup_insert_eq by lia. symmetry. apply bool_decide_eq_true. set_solver.
    - rewrite list_lookup_insert_ne, <- nth_lookup, He by done. apply bool_decide_ext. set_solver. }
  pose proof (Hg m Hm Hem) as Hgm. rewrite Hdm in Hgm. injection Hgm as Hz. symmetry in Hz.
  apply length_zero_iff_nil in Hz. rewrite left_of_nil in Hz.
  destruct (relax_ok m (seq 0 N) (<[m:=true]> emitted) deg) as (deg' & -> & Hl' & Hk); [apply NoDup_seq| |].
  { intros s Hs%elem_of_seq Hes Hns. rewrite Hnth in Hns by lia. apply bool_decide_eq_false in Hns.
    rewrite (Hg s) by (lia || set_solver). rewrite (left_of_emit order m s) by done.
    rewrite decide_True by (split; [set_solver|done]). rewrite Nat.add_1_r. by eexists. }
  simpl. apply IH; [|rewrite length_app; simpl; lia]. split.
  - done.
  - by rewrite length_insert.
  - apply NoDup_app. split_and!; [done|set_solver|apply NoDup_singleton].
  - intros i [?%Hb|?]%elem_of_app; [done|]. set_solver.
  - intros s Hs Hns. rewrite Hk. rewrite (Hg s) by (done || set_solver). simpl.
    rewrite (left_of_emit order m s) by done. assert (Hsm : m ≠ s) by set_solver.
    destruct (decide (master m s)) as [Hms|Hms].
    + rewrite bool_decide_true.
      * f_equal. lia.
      * rewrite elem_of_seq, Hnth by done. split_and!; [lia|lia|apply Hms|by apply bool_decide_eq_false].
    + rewrite bool_decide_false; [f_equal; lia|]. intros (_ & He' & _). by apply Hms.
  - intros l1 s l2 Heq m' Hm' Hms. destruct (decide (l2 = [])) as [->|Hl2].
    + apply app_inj_tail in Heq as [<- <-]. by apply Hz.
    + destruct (exists_last Hl2) as (l2' & x & ->). rewrite app_comm_cons, app_assoc in Heq.
      apply app_inj_tail in Heq as [Ho _]. by apply (Hfst l1 s l2').
Qed.

Lemma tick_order_init : order_inv (replicate N false) (in_degrees t) [].
Proof.
  split.
  - intros i Hi. rewrite nth_lookup, lookup_replicate_2 by done. symmetry. apply bool_decide_eq_false. set_solver.
  - apply length_replicate.
  - by apply NoDup_nil.
  - set_solver.
  - intros s Hs _. unfold in_degrees. rewrite list_lookup_fmap, lookup_seq_lt by done. simpl. do 2 f_equal.
    unfold left_of. apply list_filter_iff. intros m. unfold master. set_solver.
  - intros [|? ?] s l2 [=].
Qed.
End order.

(** Every debug build and every release build: the order of an acyclic topology. *)
Lemma tick_order_acyclic t debug : ExecGraphOk.acyclic (couplings t) →
  ∃ o, tick_order t debug = Ok o ∧ o ≡ₚ seq 0 (axes_of t) ∧ masters_first t o.
Proof.
  intros Hac. destruct (emit_loop_ok t (axes_of t) _ _ _ (tick_order_init t)) as (o & He & em & dg & Hinv & Hn); [simpl; lia|].
  unfold tick_order. rewrite He. simpl. destruct Hinv as [Hem Hl Hd Hb Hg Hfst].
  assert (Hall : ∀ v, (v < axes_of t)%nat → v ∈ o).
  { intros v Hv. destruct (decide (v ∈ o)) as [|Hno]; [done|]. exfalso.
    destruct (ExecGraphOk.closed_cycle (couplings t) (axes_of t) (λ v, (v < axes_of t)%nat ∧ v ∉ o) v) as (w & Hw); [done| |by apply (Hac w)].
    intros w [Hw Hwo]. split; [done|].
    assert (left_of t o w ≠ []) as Hne.
    { intros Hnil. apply (next_axis_None t em dg w Hn Hw).
      - rewrite Hem by done. by apply bool_decide_eq_false.
      - by rewrite Hg, Hnil by done. }
    destruct (left_of t o w) as [|u l] eqn:El; [done|].
    assert (u ∈ left_of t o w) as [[Hu Huo] Hus]%list_elem_of_filter by (rewrite El; by left).
    apply elem_of_seq in Hus. exists u. split; [|split; [lia|done]].
    unfold ExecGraphOk.is_edge. apply elem_couplings. split_and!; [lia|lia|done]. }
  assert (Hperm : o ≡ₚ seq 0 (axes_of t)).
  { apply NoDup_Permutation; [done|apply NoDup_seq|]. intros x. rewrite elem_of_seq. split; [intros ?%Hb; lia|intros; apply Hall; lia]. }
  exists o. split_and!; [|done|done].
  replace (length o) with (axes_of t) by (rewrite Hperm; symmetry; apply length_seq). by rewrite Nat.eqb_refl.
Qed.

Lemma direct_master_ok t s m : direct_master_of t s = Some m →
  (m < axes_of t)%nat ∧ master t m s ∧ ∀ m', (m' < m)%nat → ¬ master t m' s.
Proof.
  unfold direct_master_of. intros ([i x] & Hf & [= <-])%bind_Some.
  apply list_find_Some in Hf as (Hi & Hms & Hlow). apply lookup_seq in Hi as [-> Hi]. simpl in *.
  split_and!; [lia|done|]. intros m' Hm'. apply (Hlow m' m'); [apply lookup_seq; lia|lia].
Qed.

(** C34. The coupling topology is exact, for every topology whose rows stay within its
    axes (which building it preserves): the quick-stop set of an axis is exactly what
    the engaged edges reach from it, the precomputed downstream sets are exactly the
    closure of the declared edges, no loop runs for ever or out of bounds; and if no
    axis is downstream of itself, the tick order lists every axis once with every master,
    its direct master among them, before its slaves. *)
Theorem coupling_exact t debug : topo_ok t →
  (∀ a, (a < axes_of t)%nat → ∃ v, engaged_downstream t (Z.of_nat a) = Ok v ∧ NoDup v ∧
     ∀ s, s ∈ v ↔ 0 ≤ s ∧ tc (edge (engaged t)) a (Z.to_nat s)) ∧
  (∃ t', topo_precompute t = Ok t' ∧ topo_ok t' ∧
     ∀ a, (a < axes_of t)%nat → ∃ v, downstream t' (Z.of_nat a) = Ok v ∧
       ∀ s, s ∈ v ↔ 0 ≤ s ∧ tc (edge (declared t)) a (Z.to_nat s)) ∧
  (ExecGraphOk.acyclic (couplings t) →
     ∃ o, tick_order t debug = Ok o ∧ o ≡ₚ seq 0 (axes_of t) ∧ masters_first t o ∧
       ∀ l1 s l2 m, o = l1 ++ s :: l2 → direct_master_of t s = Some m → m ∈ l1).
Proof.
  intros Ht. split_and!.
  - intros a Ha. by apply engaged_downstream_ok.
  - destruct (precompute_ok t Ht) as (t' & H1 & H2 & _ & _ & H5). by exists t'.
  - intros Hac. destruct (tick_order_acyclic t debug Hac) as (o & H1 & H2 & H3). exists o. split_and!; [done..|].
    intros l1 s l2 m Ho (Hm & Hms & _)%direct_master_ok. by apply (H3 l1 s l2).
Qed.

(** Three axes, each following the one above it. *)
Definition ex_topology : CouplingTopology := MkTopology [0; 1; 2] [0; 1; 2] [0; 0; 0].
Lemma ex_topology_ok : topo_ok ex_topology.
Proof.
  split; (split; [vm_compute; lia|reflexivity|]);
    repeat (apply List.Forall_cons; [split; [vm_compute; discriminate|vm_compute; reflexivity]|]); apply List.Forall_nil.
Qed.
Lemma ex_topology_acyclic : ExecGraphOk.acyclic (couplings ex_topology).
Proof.
  assert (∀ u v, tc (ExecGraphOk.is_edge (couplings ex_topology)) u v → (v < u)%nat) as H; [|intros v ?%H; lia].
  intros u v. assert (couplings ex_topology = [(1%nat, 0%nat); (2%nat, 1%nat)]) as -> by (vm_compute; reflexivity).
  assert (∀ a b, ExecGraphOk.is_edge [(1%nat, 0%nat); (2%nat, 1%nat)] a b → (b < a)%nat) as He.
  { unfold ExecGraphOk.is_edge. intros a b. rewrite !elem_of_cons. intros [[= -> ->]|[[= -> ->]|?%not_elem_of_nil]]; lia || done. }
  induction 1 as [a b ?%He|a b c ?%He _ IH]; lia.
Qed.
Lemma coupling_exact_witness :
  tc (edge (engaged ex_topology)) 2%nat 0%nat ∧
  ∃ o, tick_order ex_topology true = Ok o ∧ masters_first ex_topology o.
Proof.
  destruct (coupling_exact ex_topology true ex_topology_ok) as (H & _ & Ho). split.
  - destruct (H 2%nat) as (v & Hv & _ & Hs); [vm_compute; lia|].
    assert (v = [0; 1]) as -> by (cut (Ok v = Ok [0; 1]); [congruence|rewrite <- Hv; vm_compute; reflexivity]).
    apply (Hs 0). left.
  - destruct (Ho ex_topology_acyclic) as (o & H1 & _ & H2 & _). exists o. split; [exact H1|exact H2].
Defined.
End MotionTopoOk.
