(* ===== verification/MotionNc.v ===== *)
(** * The motion runtime

    Models [taktora-motion/src/]: axis.rs (the runtime of an axis), cycle.rs (the
    cycle over all axes) and mock.rs (the virtual bus the cycle runs on), with the
    command and status types of [taktora-motion-proto] and, of [taktora-motion-core],
    the choice of the active generator ([Motion]) and the superimposed overlay.

    Positions are an abstract type: the trajectory generators and the scaling to
    increments, which are floating-point code, are a class.  The 13 bytes of an
    axis in a process image are a record of their five fields.  Indexing out of
    bounds panics. *)

From stdpp Require Import base list.
From Stdlib Require Import ZArith Lia.
From S2P Require Import Prelude Cia402 MotionTopo.

Module MotionNc.
Import Cia402 MotionTopo.

(** ** Numbers and generators *)

Record CoreState (F : Type) := MkCore { pos : F; vel : F; acc : F }.
Arguments MkCore {F}. Arguments pos {F}. Arguments vel {F}. Arguments acc {F}.
(** Limits without a position window. *)
Record Limits (F : Type) := MkLimits { v_max : F; a_max : F; j_max : F }.
Arguments MkLimits {F}.
Inductive Phase := Waiting | SyncOn | Synchronous | Return.

(** What the runtime uses of [f64], of the generators and of the scaling. *)
Class Generators (F : Type) := {
  zero : F;
  add : F → F → F;
  is_positive : F → bool;
  AxisScale : Type;
  to_units : AxisScale → Z → F;
  to_increments : AxisScale → F → Z;
  VelocityMove : Type;
  velocity_new : CoreState F → F → F → VelocityMove;
  velocity_update : VelocityMove → F → VelocityMove * CoreState F;
  TrapState : Type;
  trap_plan : CoreState F → F → Limits F → option TrapState;
  trap_update : TrapState → F → TrapState * CoreState F;
  trap_done : TrapState → bool;
  SCurveState : Type;
  scurve_plan : CoreState F → F → Limits F → option SCurveState;
  scurve_update : SCurveState → F → SCurveState * CoreState F;
  scurve_done : SCurveState → bool;
  Gear : Type;
  gear_new : F → Gear;
  gear_update : Gear → option (CoreState F) → Gear * CoreState F;
  FlyingSaw : Type;
  saw_update : FlyingSaw → F → option (CoreState F) → FlyingSaw * CoreState F;
  saw_phase : FlyingSaw → Phase;
  Cam : Type;
  cam_update : Cam → F → option (CoreState F) → Cam * CoreState F;
}.

Inductive CoreAxisStatus :=
| CDisabled | CStandstill | CDiscreteMotion | CContinuousMotion | CSynchronizedMotion | CErrorStop.

(** ** Commands and status *)

Inductive CommandKind :=
| Power | Reset | Stop | Halt | MoveVelocity | MoveAbsolute | MoveRelative | GearIn | CamIn | FlyingSawIn
| Superimpose.
Inductive AxisState :=
| PDisabled | Standstill | DiscreteMotion | ContinuousMotion | SynchronizedMotion | Stopping | ErrorStop.
#[export] Instance axis_state_eq_dec : EqDecision AxisState.
Proof. solve_decision. Defined.
Inductive TokenState := TIdle | TActive | TDone | TAborted | TError.
#[export] Instance token_state_eq_dec : EqDecision TokenState.
Proof. solve_decision. Defined.
Record CommandParams (F : Type) := MkParams { target_pos : F; velocity : F; accel : F; jerk : F }.
Arguments MkParams {F}. Arguments target_pos {F}. Arguments velocity {F}. Arguments accel {F}. Arguments jerk {F}.
Record AxisCommand (F : Type) := MkCommand {
  cmd_axis : Z;
  cmd_token : Z;
  cmd_kind : CommandKind;
  cmd_params : CommandParams F;
}.
Arguments MkCommand {F}. Arguments cmd_axis {F}. Arguments cmd_token {F}. Arguments cmd_kind {F}.
Arguments cmd_params {F}.
Record AxisStatus (F : Type) := MkStatus {
  st_axis : Z;
  st_state : AxisState;
  st_token_state : TokenState;
  st_last_token : Z;
  st_actual_pos : F;
  st_actual_vel : F;
  st_cmd_pos : F;
  st_error_code : Z;
}.
Arguments MkStatus {F}. Arguments st_axis {F}. Arguments st_state {F}. Arguments st_token_state {F}.
Arguments st_last_token {F}. Arguments st_actual_pos {F}. Arguments st_actual_vel {F}.
Arguments st_cmd_pos {F}. Arguments st_error_code {F}.

Section motion.
Context {F : Type} {G : Generators F}.

Definition limits_new (v a j : F) : option (Limits F) :=
  if negb (is_positive v) || negb (is_positive a) then None else Some (MkLimits v a j).
Definition at_rest (p : F) : CoreState F := MkCore p zero zero.

Inductive Motion :=
| MIdle (p : F)
| MVelocity (g : VelocityMove)
| MTrapezoid (g : TrapState)
| MSCurve (g : SCurveState)
| MGear (g : Gear)
| MFlyingSaw (g : FlyingSaw)
| MCam (g : Cam).
Definition motion_update (m : Motion) (dt : F) (master : option (CoreState F)) : Motion * CoreState F :=
  match m with
  | MIdle p => (MIdle p, at_rest p)
  | MVelocity g => let '(g, s) := velocity_update g dt in (MVelocity g, s)
  | MTrapezoid g => let '(g, s) := trap_update g dt in (MTrapezoid g, s)
  | MSCurve g => let '(g, s) := scurve_update g dt in (MSCurve g, s)
  | MGear g => let '(g, s) := gear_update g master in (MGear g, s)
  | MFlyingSaw g => let '(g, s) := saw_update g dt master in (MFlyingSaw g, s)
  | MCam g => let '(g, s) := cam_update g dt master in (MCam g, s)
  end.
Definition motion_status (m : Motion) : CoreAxisStatus :=
  match m with
  | MIdle _ => CStandstill
  | MVelocity _ => CContinuousMotion
  | MTrapezoid g => if trap_done g then CStandstill else CDiscreteMotion
  | MSCurve g => if scurve_done g then CStandstill else CDiscreteMotion
  | MGear _ | MCam _ => CSynchronizedMotion
  | MFlyingSaw g =>
      match saw_phase g with
      | SyncOn | Synchronous => CSynchronizedMotion
      | Return => CDiscreteMotion
      | Waiting => CStandstill
      end
  end.

(** [Axis]: the generator, the commanded state and the superimposed overlay; its modulo
    period and master index serve [AxisGroup] only. *)
Record Arm := MkArm { motion : Motion; arm_state : CoreState F; superimposed : option SCurveState }.
Definition arm_new (m : Motion) : Arm := MkArm m (at_rest zero) None.
Definition superimpose (a : Arm) (delta : F) (l : Limits F) : option Arm :=
  s ← scurve_plan (at_rest zero) delta l; Some (MkArm (motion a) (arm_state a) (Some s)).
Definition apply_superimposed (a : Arm) (base : CoreState F) (dt : F) : Arm * CoreState F :=
  match superimposed a with
  | None => (a, base)
  | Some overlay =>
      let '(overlay, d) := scurve_update overlay dt in
      (MkArm (motion a) (arm_state a) (Some overlay),
       MkCore (add (pos base) (pos d)) (add (vel base) (vel d)) (add (acc base) (acc d)))
  end.
Definition set_arm_motion (a : Arm) (m : Motion) : Arm := MkArm m (arm_state a) (superimposed a).
Definition set_arm_state (a : Arm) (s : CoreState F) : Arm := MkArm (motion a) s (superimposed a).

(** ** The runtime of an axis *)

Record AxisRuntime := MkAxis {
  axis_id : Z;
  power : PowerStateMachine;
  scale : AxisScale;
  unwrapper : Unwrapper;
  arm : Arm;
  enabled : bool;
  error_stop : bool;
  last_token : Z;
  token_state : TokenState;
  move_finite : bool;
  last_aborted_token : option Z;
  status : AxisStatus F;
}.
Definition axis_new (id : Z) (sc : AxisScale) : AxisRuntime :=
  MkAxis id Disabled sc unwrapper_default (arm_new (MIdle zero)) false false 0 TIdle false None
    (MkStatus id PDisabled TIdle 0 zero zero zero 0).
Definition set_arm (r : AxisRuntime) (a : Arm) : AxisRuntime :=
  MkAxis (axis_id r) (power r) (scale r) (unwrapper r) a (enabled r) (error_stop r) (last_token r)
    (token_state r) (move_finite r) (last_aborted_token r) (status r).
Definition set_token (r : AxisRuntime) (ts : TokenState) (finite : bool) : AxisRuntime :=
  MkAxis (axis_id r) (power r) (scale r) (unwrapper r) (arm r) (enabled r) (error_stop r) (last_token r)
    ts finite (last_aborted_token r) (status r).
Definition set_power (r : AxisRuntime) (t : PowerTarget) : AxisRuntime :=
  MkAxis (axis_id r) t (scale r) (unwrapper r) (arm r) (enabled r) (error_stop r) (last_token r)
    (token_state r) (move_finite r) (last_aborted_token r) (status r).
Definition set_error_stop (r : AxisRuntime) (b : bool) : AxisRuntime :=
  MkAxis (axis_id r) (power r) (scale r) (unwrapper r) (arm r) (enabled r) b (last_token r)
    (token_state r) (move_finite r) (last_aborted_token r) (status r).
Definition set_tokens (r : AxisRuntime) (tok : Z) (aborted : option Z) : AxisRuntime :=
  MkAxis (axis_id r) (power r) (scale r) (unwrapper r) (arm r) (enabled r) (error_stop r) tok
    (token_state r) (move_finite r) aborted (status r).
Definition set_feedback (r : AxisRuntime) (u : Unwrapper) (en : bool) : AxisRuntime :=
  MkAxis (axis_id r) (power r) (scale r) u (arm r) en (error_stop r) (last_token r)
    (token_state r) (move_finite r) (last_aborted_token r) (status r).
Definition set_status (r : AxisRuntime) (s : AxisStatus F) : AxisRuntime :=
  MkAxis (axis_id r) (power r) (scale r) (unwrapper r) (arm r) (enabled r) (error_stop r) (last_token r)
    (token_state r) (move_finite r) (last_aborted_token r) s.
Definition with_state (s : AxisStatus F) (st : AxisState) : AxisStatus F :=
  MkStatus (st_axis s) st (st_token_state s) (st_last_token s) (st_actual_pos s) (st_actual_vel s)
    (st_cmd_pos s) (st_error_code s).

Definition MODE_CSP : Z := 8.
Definition map_status (s : CoreAxisStatus) : AxisState :=
  match s with
  | CStandstill => Standstill
  | CDiscreteMotion => DiscreteMotion
  | CContinuousMotion => ContinuousMotion
  | CSynchronizedMotion => SynchronizedMotion
  | CErrorStop => ErrorStop
  | CDisabled => PDisabled
  end.

(** What a tick writes to the drive. *)
Record Output := MkOutput { o_cw : Z; o_mode : Z; o_target : Z }.

(** The commanded position of a tick, [actual] being the unwrapped feedback. *)
Definition command_position (r : AxisRuntime) (actual dt : F) (master : option (CoreState F)) :
  AxisRuntime * F :=
  if enabled r then
    let '(m, base) := motion_update (motion (arm r)) dt master in
    let '(a, next) := apply_superimposed (set_arm_motion (arm r) m) base dt in
    let r := set_arm r (set_arm_state a next) in
    let r :=
      if move_finite r && bool_decide (token_state r = TActive)
         && match motion_status (motion (arm r)) with CStandstill => true | _ => false end
      then set_token r TDone false else r in
    (r, pos next)
  else
    (set_arm r (set_arm_state (set_arm_motion (arm r) (MIdle actual)) (at_rest actual)), actual).

(** [tick], given the statusword and the raw position it reads. *)
Definition tick (r : AxisRuntime) (sw raw : Z) (dt : F) (master : option (CoreState F)) :
  AxisRuntime * Output :=
  let cw := next_controlword (power r) sw in
  let u := unwrap (unwrapper r) raw in
  let actual_units := to_units (scale r) (accum u) in
  let r := set_feedback r u (is_enabled sw) in
  let '(r, commanded) := command_position r actual_units dt master in
  let st :=
    if error_stop r || faulty (decode_state sw) then ErrorStop
    else if enabled r then map_status (motion_status (motion (arm r)))
    else PDisabled in
  (set_status r (MkStatus (axis_id r) st (token_state r) (last_token r) actual_units
                   (vel (arm_state (arm r))) commanded (st_error_code (status r))),
   MkOutput cw MODE_CSP (to_increments (scale r) commanded)).

Definition request_power (r : AxisRuntime) (on : bool) : AxisRuntime :=
  set_power (set_error_stop r false) (if on then Enabled else Disabled).
Definition request_quick_stop (r : AxisRuntime) : AxisRuntime := set_power r QuickStop.
Definition force_error_stop (r : AxisRuntime) : AxisRuntime :=
  let r := set_status (set_error_stop r true) (with_state (status r) ErrorStop) in
  let r := set_arm r (set_arm_motion (arm r) (MIdle (pos (arm_state (arm r))))) in
  set_token r (token_state r) false.
Definition set_motion (r : AxisRuntime) (m : Motion) : AxisRuntime := set_arm r (set_arm_motion (arm r) m).
Definition commanded_state (r : AxisRuntime) : CoreState F := arm_state (arm r).

Definition plan_point_to_point (r : AxisRuntime) (p : CommandParams F) (target : F) : AxisRuntime :=
  match limits_new (velocity p) (accel p) (jerk p) with
  | None => set_token r TError (move_finite r)
  | Some l =>
      let start := commanded_state r in
      let planned :=
        if is_positive (jerk p) then MSCurve <$> scurve_plan start target l
        else MTrapezoid <$> trap_plan start target l in
      match planned with
      | Some m => set_token (set_motion r m) TActive true
      | None => set_token r TError (move_finite r)
      end
  end.
Definition accepted_in_error (k : CommandKind) : bool :=
  match k with Power | Reset => true | _ => false end.
(** The mapping of a command to motion, power and token. *)
Definition execute (r : AxisRuntime) (kind : CommandKind) (p : CommandParams F) (direct_master : option nat) :
  AxisRuntime :=
  match kind with
  | Power | Reset => set_token (request_power r true) TActive false
  | MoveVelocity =>
      set_token (set_motion r (MVelocity (velocity_new (commanded_state r) (velocity p) (accel p)))) TActive false
  | Stop | Halt =>
      set_token (set_motion r (MVelocity (velocity_new (commanded_state r) zero (accel p)))) TActive false
  | MoveAbsolute => plan_point_to_point r p (target_pos p)
  | MoveRelative => plan_point_to_point r p (add (pos (commanded_state r)) (target_pos p))
  | GearIn =>
      match direct_master with
      | Some _ => set_token (set_motion r (MGear (gear_new (target_pos p)))) TActive false
      | None => set_token r TError (move_finite r)
      end
  | Superimpose =>
      match l ← limits_new (velocity p) (accel p) (jerk p); superimpose (arm r) (target_pos p) l with
      | Some a => set_token (set_arm r a) TActive (move_finite r)
      | None => set_token r TError (move_finite r)
      end
  | CamIn | FlyingSawIn => set_token r TError (move_finite r)
  end.
Definition apply_command (r : AxisRuntime) (c : AxisCommand F) (direct_master : option nat) : AxisRuntime :=
  if bool_decide (cmd_token c = last_token r) && negb (bool_decide (token_state r = TIdle)) then r
  else
    let aborted := if bool_decide (token_state r = TActive) then Some (last_token r)
                   else last_aborted_token r in
    let r := set_tokens r (cmd_token c) aborted in
    if error_stop r && negb (accepted_in_error (cmd_kind c)) then set_token r TError (move_finite r)
    else execute r (cmd_kind c) (cmd_params c) direct_master.

(** ** The virtual bus *)

Record Image := MkImage { i_cw : Z; i_mode : Z; i_target : Z; i_sw : Z; i_actual : Z }.
Record Bus := MkBus { b_img : list Image; b_cycle : Z; b_faulted : list bool; b_stale : list bool }.
Definition bus_new (n : nat) : Bus :=
  MkBus (replicate n (MkImage 0 0 0 0x0250 0)) 0 (replicate n false) (replicate n false).
Definition set_img (b : Bus) (i : list Image) : Bus := MkBus i (b_cycle b) (b_faulted b) (b_stale b).
Definition set_input (w : Image) (sw actual : Z) : Image := MkImage (i_cw w) (i_mode w) (i_target w) sw actual.
Definition set_output (w : Image) (cw mode target : Z) : Image := MkImage cw mode target (i_sw w) (i_actual w).
Definition read_input (b : Bus) (axis : nat) (w : Image) : res (Image * bool) :=
  i ← expect (b_img b !! axis);
  s ← expect (b_stale b !! axis);
  Ok (set_input w (i_sw i) (i_actual i), negb s).
Definition write_output (b : Bus) (axis : nat) (w : Image) : res Bus :=
  i ← expect (b_img b !! axis);
  Ok (set_img b (<[axis := set_output i (i_cw w) (i_mode w) (i_target w)]> (b_img b))).
Definition advance_drive (faulted : bool) (i : Image) : Image :=
  if faulted then set_input i 0x0208 (i_actual i)
  else
    let s := decode_state (i_sw i) in
    let next_sw :=
      match s with
      | SwitchOnDisabled => if i_cw i =? SHUTDOWN then 0x0231 else encode_state s
      | ReadyToSwitchOn => if i_cw i =? SWITCH_ON then 0x0233 else encode_state s
      | SwitchedOn => if i_cw i =? ENABLE_OPERATION then 0x0237 else encode_state s
      | Fault => if i_cw i =? FAULT_RESET then 0x0250 else encode_state s
      | _ => encode_state s
      end in
    set_input i next_sw
      (if bool_decide (decode_state next_sw = OperationEnabled) then i_target i else i_actual i).
Definition exchange (b : Bus) : Bus :=
  MkBus (imap (λ a i, if default false (b_stale b !! a) then i
                      else advance_drive (default false (b_faulted b !! a)) i) (b_img b))
    (b_cycle b + 1) (b_faulted b) (b_stale b).

(** ** The cycle *)

Record NcCycle := MkNc {
  axes : list AxisRuntime;
  topology : CouplingTopology;
  order : list nat;
  direct_master : list (option nat);
  work : list Image;
}.
Definition nc_new (scales : list AxisScale) : res NcCycle :=
  t ← topology_new (length scales);
  Ok (MkNc (imap (λ i s, axis_new (Z.of_nat i) s) scales) t (seq 0 (length scales))
        (replicate (length scales) None) (replicate (length scales) (MkImage 0 0 0 0 0))).
Definition set_axes (n : NcCycle) (a : list AxisRuntime) : NcCycle :=
  MkNc a (topology n) (order n) (direct_master n) (work n).
Definition set_work (n : NcCycle) (w : list Image) : NcCycle :=
  MkNc (axes n) (topology n) (order n) (direct_master n) w.
Definition precompute (n : NcCycle) (debug : bool) : res NcCycle :=
  t ← topo_precompute (topology n);
  o ← tick_order t debug;
  Ok (MkNc (axes n) t o (direct_master_of t <$> seq 0 (length (axes n))) (work n)).

Fixpoint drain_commands (n : NcCycle) (cmds : list (AxisCommand F)) : res NcCycle :=
  match cmds with
  | [] => Ok n
  | c :: cmds =>
      let i := Z.to_nat (cmd_axis c) in
      if (i <? length (axes n))%nat then
        a ← expect (axes n !! i);
        m ← expect (direct_master n !! i);
        drain_commands (set_axes n (<[i := apply_command a c m]> (axes n))) cmds
      else drain_commands n cmds
  end.

(** The tick of axis [i]; also whether its input was stale. *)
Definition tick_axis (n : NcCycle) (b : Bus) (i : nat) (dt : F) : res (NcCycle * Bus * bool) :=
  w ← expect (work n !! i);
  '(w, fresh) ← read_input b i w;
  m ← expect (direct_master n !! i);
  master ← match m with
           | Some m => a ← expect (axes n !! m); Ok (Some (commanded_state a))
           | None => Ok None
           end;
  a ← expect (axes n !! i);
  let '(a, out) := tick a (i_sw w) (i_actual w) dt master in
  let w := set_output w (o_cw out) (o_mode out) (o_target out) in
  b ← write_output b i w;
  Ok (set_work (set_axes n (<[i := a]> (axes n))) (<[i := w]> (work n)), b, negb fresh).
Fixpoint tick_all (is_ : list nat) (n : NcCycle) (b : Bus) (stale : list bool) (dt : F) :
  res (NcCycle * Bus * list bool) :=
  match is_ with
  | [] => Ok (n, b, stale)
  | i :: is_ =>
      '(n, b, s) ← tick_axis n b i dt;
      tick_all is_ n b (<[i := s]> stale) dt
  end.
(** The statuswords after the exchange. *)
Fixpoint detect (is_ : list nat) (n : NcCycle) (b : Bus) (stale faulted : list bool) :
  res (NcCycle * list bool) :=
  match is_ with
  | [] => Ok (n, faulted)
  | i :: is_ =>
      w ← expect (work n !! i);
      '(w, _) ← read_input b i w;
      s ← expect (stale !! i);
      detect is_ (set_work n (<[i := w]> (work n))) b stale
        (<[i := s || faulty (decode_state (i_sw w))]> faulted)
  end.
Fixpoint stop_all (ss : list Z) (a : list AxisRuntime) : res (list AxisRuntime) :=
  match ss with
  | [] => Ok a
  | s :: ss =>
      x ← expect (a !! Z.to_nat s);
      stop_all ss (<[Z.to_nat s := force_error_stop (request_quick_stop x)]> a)
  end.
Fixpoint react (k : nat) (faulted : list bool) (t : CouplingTopology) (a : list AxisRuntime) :
  res (list AxisRuntime) :=
  match faulted with
  | [] => Ok a
  | false :: faulted => react (S k) faulted t a
  | true :: faulted =>
      x ← expect (a !! k);
      ss ← engaged_downstream t (Z.of_nat k);
      a ← stop_all ss (<[k := force_error_stop x]> a);
      react (S k) faulted t a
  end.
Definition step (n : NcCycle) (b : Bus) (cmds : list (AxisCommand F)) (dt : F) :
  res (NcCycle * Bus * list (AxisStatus F)) :=
  n ← drain_commands n cmds;
  '(n, b, stale) ← tick_all (order n) n b (replicate (length (axes n)) false) dt;
  let b := exchange b in
  '(n, faulted) ← detect (seq 0 (length (axes n))) n b stale (replicate (length (axes n)) false);
  a ← react 0 faulted (topology n) (axes n);
  Ok (set_axes n a, b, status <$> a).
End motion.
End MotionNc.
