(* ===== verification/MotionNcOk.v ===== *)
(** * Correctness of the motion runtime

    A cycle never indexes out of bounds, and its fault reaction is exact: the axes
    that are at fault after the exchange, and those the engaged couplings reach from
    them, end it in [ErrorStop] without a generator of their own, the reached ones
    commanded to quick stop; the others are as their tick left them.  While an axis is
    not enabled its commanded position is the actual one. *)

From stdpp Require Import base list relations.
From Stdlib Require Import ZArith Lia.
From S2P Require Import Prelude ExecGraphOk Cia402 MotionTopo MotionTopoOk MotionNc.

Module MotionNcOk.
Import Cia402 MotionTopo MotionTopoOk MotionNc.

Section nc.
Context {F : Type} {G : Generators F}.
#[local] Abbreviation AxisRuntime := (@AxisRuntime F G).
#[local] Abbreviation NcCycle := (@NcCycle F G).

(** ** Well-formed cycles *)

Record nc_ok (n : NcCycle) (b : Bus) : Prop := {
  no_topo : topo_ok (topology n);
  no_axes : axes_of (topology n) = length (axes n);
  no_order : order n ≡ₚ seq 0 (length (axes n));
  no_dm : length (direct_master n) = length (axes n);
  no_master i m : direct_master n !! i = Some (Some m) → (m < length (axes n))%nat;
  no_work : length (work n) = length (axes n);
  no_bus : (length (axes n) ≤ length (b_img b))%nat;
  no_stale : length (b_stale b) = length (b_img b);
}.
(** The parts of a cycle that a step leaves alone, with its number of axes. *)
Definition same_shape (n n' : NcCycle) : Prop :=
  topology n' = topology n ∧ order n' = order n ∧ direct_master n' = direct_master n ∧
  length (axes n') = length (axes n) ∧ length (work n') = length (work n).
Definition same_bus (b b' : Bus) : Prop :=
  length (b_img b') = length (b_img b) ∧ b_stale b' = b_stale b ∧ b_faulted b' = b_faulted b.
#[local] Instance same_shape_preorder : PreOrder same_shape.
Proof.
  split; [by intros ?; unfold same_shape|].
  intros ??? (?&?&?&?&?) (?&?&?&?&?). unfold same_shape. intuition congruence.
Qed.
#[local] Instance same_bus_preorder : PreOrder same_bus.
Proof.
  split; [by intros ?; unfold same_bus|].
  intros b1 b2 b3 (E1&E2&E3) (E4&E5&E6). unfold same_bus. intuition congruence.
Qed.
Lemma nc_ok_shape n n' b b' : same_shape n n' → same_bus b b' → nc_ok n b → nc_ok n' b'.
Proof.
  intros (E1&E2&E3&E4&E5) (B1&B2&_) [H1 H2 H3 H4 H5 H6 H7 H8].
  split; rewrite ?E1, ?E2, ?E3, ?E4, ?E5, ?B1, ?B2; try done.
Qed.

Lemma lookup_expect {A} (l : list A) i : (i < length l)%nat → ∃ x, l !! i = Some x ∧ expect (l !! i) = Ok x.
Proof. intros [x Hx]%lookup_lt_is_Some_2. exists x. by rewrite Hx. Qed.

Lemma drain_commands_ok n b cmds : nc_ok n b → ∃ n', drain_commands n cmds = Ok n' ∧ same_shape n n'.
Proof.
  revert n. induction cmds as [|c cmds IH]; intros n Hn; simpl; [by exists n|].
  destruct (Nat.ltb_spec (Z.to_nat (cmd_axis c)) (length (axes n))) as [Hi|]; [|by apply IH].
  destruct (lookup_expect (axes n) _ Hi) as (a & _ & ->). simpl.
  destruct (lookup_expect (direct_master n) (Z.to_nat (cmd_axis c))) as (m & _ & ->); [by rewrite (no_dm _ _ Hn)|]. simpl.
  set (n1 := set_axes n _). assert (Hs : same_shape n n1) by (split_and!; simpl; rewrite ?length_insert; done).
  destruct (IH n1) as (n' & -> & H'); [by apply (nc_ok_shape n n1 b b)|]. exists n'. split; [done|by transitivity n1].
Qed.

(** ** Ticks *)

Lemma tick_axis_ok n b i dt : nc_ok n b → (i < length (axes n))%nat →
  ∃ n' b' s, tick_axis n b i dt = Ok (n', b', s) ∧ same_shape n n' ∧ same_bus b b' ∧
    b_stale b !! i = Some s ∧ (∀ j, j ≠ i → axes n' !! j = axes n !! j) ∧
    ∃ a sw raw m, axes n !! i = Some a ∧ axes n' !! i = Some (tick a sw raw dt m).1.
Proof.
  intros Hn Hi. pose proof (no_bus _ _ Hn) as Hb. unfold tick_axis.
  destruct (lookup_expect (work n) i) as (w & _ & ->); [by rewrite (no_work _ _ Hn)|]. simpl. unfold read_input.
  destruct (lookup_expect (b_img b) i) as (img & Himg & ->); [lia|]. simpl.
  destruct (lookup_expect (b_stale b) i) as (s & Hs & ->); [rewrite (no_stale _ _ Hn); lia|]. simpl.
  destruct (lookup_expect (direct_master n) i) as (m & Hm & ->); [by rewrite (no_dm _ _ Hn)|]. simpl.
  assert (∃ master, (match m with
           | Some m => a ← expect (axes n !! m); Ok (Some (commanded_state a))
           | None => Ok None
           end) = Ok master) as [master ->].
  { destruct m as [m|]; [|by eexists]. destruct (lookup_expect (axes n) m) as (a & _ & ->); [by apply (no_master _ _ Hn i)|].
    by eexists. }
  simpl. destruct (lookup_expect (axes n) i Hi) as (a & Ha & ->). simpl.
  destruct (tick a (i_sw img) (i_actual img) dt master) as [a' out] eqn:Et. unfold write_output. rewrite Himg. simpl.
  eexists _, _, _. split; [done|].
  split; [by split_and!; simpl; rewrite ?length_insert|].
  split; [by split; simpl; rewrite ?length_insert|].
  split; [by rewrite negb_involutive|]. simpl. split.
  - intros j Hj. by rewrite list_lookup_insert_ne.
  - exists a, (i_sw img), (i_actual img), master. split; [done|]. rewrite list_lookup_insert_eq by done. by rewrite Et.
Qed.

Lemma tick_all_ok is_ n b stale dt : nc_ok n b → NoDup is_ → Forall (λ i, i < length (axes n))%nat is_ →
  length stale = length (axes n) →
  ∃ n' b' stale', tick_all is_ n b stale dt = Ok (n', b', stale') ∧ same_shape n n' ∧ same_bus b b' ∧
    length stale' = length stale ∧
    (∀ i, i ∈ is_ → stale' !! i = b_stale b !! i) ∧ (∀ i, i ∉ is_ → stale' !! i = stale !! i) ∧
    (∀ j, j ∉ is_ → axes n' !! j = axes n !! j) ∧
    ∀ i, i ∈ is_ → ∃ a sw raw m, axes n !! i = Some a ∧ axes n' !! i = Some (tick a sw raw dt m).1.
Proof.
  revert n b stale. induction is_ as [|i is_ IH]; intros n b stale Hn Hd Hb Hl; simpl.
  { exists n, b, stale. split_and!; try done; by intros i ?%not_elem_of_nil. }
  apply NoDup_cons in Hd as [Hi Hd]. apply Forall_cons in Hb as [Hib Hb].
  destruct (tick_axis_ok n b i dt) as (n1 & b1 & s & -> & Hs1 & Hb1 & Hst & Hoth & Htick); [done..|]. simpl.
  assert (Hlen : length (axes n1) = length (axes n)) by apply Hs1.
  destruct (IH n1 b1 (<[i:=s]> stale)) as (n' & b' & stale' & -> & H1 & H2 & H3 & H4 & H5 & H6 & H7); [|done|..].
  { by apply (nc_ok_shape n n1 b b1). } { by rewrite Hlen. } { by rewrite length_insert, Hlen. }
  exists n', b', stale'. split; [done|]. split; [by transitivity n1|]. split; [by transitivity b1|].
  rewrite length_insert in H3. destruct Hb1 as (_&Hbs&_). rewrite Hbs in H4. split_and!; [done|..].
  - intros j [->|Hj]%elem_of_cons; [|by apply H4]. rewrite H5, list_lookup_insert_eq by (done || lia). done.
  - intros j [? ?]%not_elem_of_cons. rewrite H5, list_lookup_insert_ne by done. done.
  - intros j [? ?]%not_elem_of_cons. rewrite H6, Hoth by done. done.
  - intros j [->|Hj]%elem_of_cons; [by rewrite H6|]. rewrite <- (Hoth j) by (intros ->; done). by apply H7.
Qed.

(** ** The reaction *)

Lemma detect_ok is_ n b stale faulted : nc_ok n b → NoDup is_ → Forall (λ i, i < length (axes n))%nat is_ →
  length stale = length (axes n) → length faulted = length (axes n) →
  ∃ n' faulted', detect is_ n b stale faulted = Ok (n', faulted') ∧ same_shape n n' ∧ axes n' = axes n ∧
    length faulted' = length faulted ∧ (∀ i, i ∉ is_ → faulted' !! i = faulted !! i) ∧
    ∀ i, i ∈ is_ → ∃ img s, b_img b !! i = Some img ∧ stale !! i = Some s ∧
      faulted' !! i = Some (s || faulty (decode_state (i_sw img))).
Proof.
  revert n faulted. induction is_ as [|i is_ IH]; intros n faulted Hn Hd Hb Hls Hlf; simpl.
  { exists n, faulted. split_and!; try done. by intros i ?%not_elem_of_nil. }
  apply NoDup_cons in Hd as [Hi Hd]. apply Forall_cons in Hb as [Hib Hb]. pose proof (no_bus _ _ Hn) as Hbus.
  destruct (lookup_expect (work n) i) as (w & _ & ->); [by rewrite (no_work _ _ Hn)|]. simpl. unfold read_input.
  destruct (lookup_expect (b_img b) i) as (img & Himg & ->); [lia|]. simpl.
  destruct (lookup_expect (b_stale b) i) as (s0 & _ & ->); [rewrite (no_stale _ _ Hn); lia|]. simpl.
  destruct (lookup_expect stale i) as (s & Hs & ->); [lia|]. simpl.
  set (n1 := set_work n _). set (v := s || _).
  assert (Hs1 : same_shape n n1) by (split_and!; simpl; rewrite ?length_insert; done).
  destruct (IH n1 (<[i:=v]> faulted)) as (n' & f' & -> & H1 & H2 & H3 & H4 & H5); try done.
  { by apply (nc_ok_shape n n1 b b). } { by rewrite length_insert. }
  exists n', f'. rewrite length_insert in H3. split_and!; [done|by transitivity n1|done|done|..].
  - intros j [? ?]%not_elem_of_cons. rewrite H4, list_lookup_insert_ne by done. done.
  - intros j [->|Hj]%elem_of_cons; [|by apply H5]. exists img, s. split_and!; [done..|].
    rewrite H4, list_lookup_insert_eq by (done || lia). done.
Qed.

(** An axis in its safe state. *)
Definition stopped (x : AxisRuntime) : Prop :=
  error_stop x = true ∧ st_state (status x) = ErrorStop ∧ move_finite x = false ∧
  motion (arm x) = MIdle (pos (arm_state (arm x))).
Lemma force_stopped x : stopped (force_error_stop x).
Proof. by unfold stopped. Qed.

Lemma stop_all_ok ss a : Forall (λ s, (Z.to_nat s < length a)%nat) ss →
  ∃ a', stop_all ss a = Ok a' ∧ length a' = length a ∧
    ∀ j x, a !! j = Some x → ∃ y, a' !! j = Some y ∧
      ((∃ s, s ∈ ss ∧ Z.to_nat s = j) ∧ stopped y ∧ power y = QuickStop ∨
       (∀ s, s ∈ ss → Z.to_nat s ≠ j) ∧ y = x).
Proof.
  revert a. induction ss as [|s ss IH]; intros a Hb; simpl.
  { exists a. split_and!; [done..|]. intros j x Hj. exists x. split; [done|]. right. split; [|done]. by intros s ?%not_elem_of_nil. }
  apply Forall_cons in Hb as [Hs Hb]. destruct (lookup_expect a _ Hs) as (x0 & Hx0 & ->). simpl.
  set (y0 := force_error_stop (request_quick_stop x0)).
  destruct (IH (<[Z.to_nat s := y0]> a)) as (a' & -> & Hl & Hk); [by rewrite length_insert|].
  exists a'. split_and!; [done|by rewrite Hl, length_insert|]. intros j x Hj.
  destruct (decide (j = Z.to_nat s)) as [->|Hne].
  - destruct (Hk (Z.to_nat s) y0) as (y & Hy & [(Hin & H1 & H2)|[Hno ->]]); [by rewrite list_lookup_insert_eq| |].
    + exists y. split; [done|]. left. split_and!; [|done|done]. exists s. split; [by left|done].
    + exists y0. split; [done|]. left. split_and!; [exists s; split; [by left|done]|apply force_stopped|done].
  - destruct (Hk j x) as (y & Hy & [((s' & Hin & Hs') & H1 & H2)|[Hno ->]]); [by rewrite list_lookup_insert_ne| |].
    + exists y. split; [done|]. left. split_and!; [|done|done]. exists s'. split; [by right|done].
    + exists x. split; [done|]. right. split; [|done]. intros s' [->|Hin]%elem_of_cons; [congruence|by apply Hno].
Qed.

(** What the reaction does to one axis. *)
Definition reached (t : CouplingTopology) (faulted : list bool) (k j : nat) : Prop :=
  ∃ a, faulted !! a = Some true ∧ tc (edge (engaged t)) (k + a)%nat j.
Definition at_fault (faulted : list bool) (k j : nat) : Prop :=
  ∃ a, faulted !! a = Some true ∧ (k + a)%nat = j.

Lemma react_ok k faulted t a : topo_ok t → axes_of t = length a → (k + length faulted ≤ length a)%nat →
  ∃ a', react k faulted t a = Ok a' ∧ length a' = length a ∧
    ∀ j x, a !! j = Some x → ∃ y, a' !! j = Some y ∧
      (at_fault faulted k j ∨ reached t faulted k j → stopped y) ∧
      (reached t faulted k j → power y = QuickStop) ∧
      (¬ at_fault faulted k j → ¬ reached t faulted k j → y = x) ∧
      (stopped y ∨ y = x) ∧ (power x = QuickStop → power y = QuickStop).
Proof.
  intros Ht Hax. revert k a Hax. induction faulted as [|f faulted IH]; intros k a Hax Hk; simpl.
  { exists a. split_and!; [done..|]. intros j x Hj. exists x.
    split_and!; try done; [intros [(? & [=] & _)|(? & [=] & _)]|intros (? & [=] & _)|by right]. }
  assert (Hshift : ∀ j, (at_fault (f :: faulted) k j ↔ f = true ∧ k = j ∨ at_fault faulted (S k) j) ∧
    (reached t (f :: faulted) k j ↔ f = true ∧ tc (edge (engaged t)) k j ∨ reached t faulted (S k) j)).
  { intros j. split; (split; [intros ([|i] & Hi & Hj); simpl in *|intros [[-> Hj]|(i & Hi & Hj)]]).
    - left. split; [congruence|lia].
    - right. exists i. split; [done|lia].
    - exists 0%nat. split; [done|lia].
    - exists (S i). split; [done|lia].
    - left. rewrite Nat.add_0_r in Hj. split; [congruence|done].
    - right. exists i. by rewrite Nat.add_succ_comm.
    - exists 0%nat. by rewrite Nat.add_0_r.
    - exists (S i). by rewrite <- Nat.add_succ_comm. }
  simpl in Hk. destruct f.
  - destruct (lookup_expect a k) as (x0 & Hx0 & ->); [lia|]. simpl.
    destruct (engaged_downstream_ok t k Ht) as (ss & -> & _ & Hss); [lia|]. simpl.
    set (a1 := <[k := force_error_stop x0]> a).
    destruct (stop_all_ok ss a1) as (a2 & -> & Hl2 & H2).
    { apply Forall_forall. intros s [Hs Htc]%Hss. unfold a1. rewrite length_insert, <- Hax.
      destruct Ht as [_ He].
      assert (∀ x y, tc (edge (engaged t)) x y → (y < axes_of t)%nat) as Hb; [|by apply (Hb _ _ Htc)].
      induction 1 as [x y He'|x y z _ _ IHtc]; [|done]. by apply (edge_lt _ _ _ _ He) in He' as []. }
    assert (Hl1 : length a1 = length a) by apply length_insert. simpl.
    destruct (IH (S k) a2) as (a' & -> & Hl' & H'); [congruence|rewrite Hl2, Hl1; lia|].
    exists a'. split_and!; [done|congruence|]. intros j x Hj.
    assert (∃ x1, a1 !! j = Some x1 ∧ (k = j ∧ stopped x1 ∧ power x1 = power x ∨ k ≠ j ∧ x1 = x)) as (x1 & Hx1 & Hcase1).
    { unfold a1. destruct (decide (k = j)) as [->|Hne].
      - rewrite list_lookup_insert_eq by (by eapply lookup_lt_Some). eexists. split; [done|]. left.
        simplify_eq. split_and!; [done|apply force_stopped|done].
      - rewrite list_lookup_insert_ne by done. exists x. split; [done|]. by right. }
    destruct (H2 j x1 Hx1) as (x2 & Hx2 & Hcase2). destruct (H' j x2 Hx2) as (y & Hy & Y1 & Y2 & Y3 & Y4' & Y5).
    assert (Y4 : stopped x2 → stopped y) by (intros ?; destruct Y4' as [| ->]; done).
    destruct (Hshift j) as [Hfa Hre]. exists y. split; [done|].
    assert (Hin : (∃ s, s ∈ ss ∧ Z.to_nat s = j) ↔ tc (edge (engaged t)) k j).
    { split; [intros (s & [_ Hs]%Hss & <-); done|]. intros Htc. exists (Z.of_nat j). rewrite Nat2Z.id. split; [|done].
      apply Hss. rewrite Nat2Z.id. split; [lia|done]. }
    assert (Hno : (∀ s, s ∈ ss → Z.to_nat s ≠ j) → ¬ tc (edge (engaged t)) k j).
    { intros Hno (s & Hs & Hj')%Hin. by apply (Hno s). }
    assert (Hst1 : stopped x1 → stopped x2) by (destruct Hcase2 as [(_ & ? & _)|[_ ->]]; done).
    assert (Hst0 : stopped x → stopped x1) by (destruct Hcase1 as [(_ & ? & _)|[_ ->]]; done).
    assert (Hpw0 : power x1 = power x) by (destruct Hcase1 as [(_ & _ & ?)|[_ ->]]; done).
    assert (Hpw1 : power x1 = QuickStop → power x2 = QuickStop) by (destruct Hcase2 as [(_ & _ & ?)|[_ ->]]; done).
    split_and!.
    + rewrite Hfa, Hre. intros [[[_ <-]|?]|[[_ Htc]|?]]; [|by apply Y1; left| |by apply Y1; right].
      * apply Y4, Hst1. by destruct Hcase1 as [(_ & ? & _)|[? _]].
      * apply Y4. destruct Hcase2 as [(_ & ? & _)|[Hn _]]; [done|]. by apply Hno in Hn.
    + rewrite Hre. intros [[_ Htc]|?]; [|by apply Y2]. apply Y5.
      destruct Hcase2 as [(_ & _ & ?)|[Hn _]]; [done|]. by apply Hno in Hn.
    + rewrite Hfa, Hre. intros Hnf Hnr. rewrite Y3 by tauto.
      destruct Hcase2 as [(Hex & _)|[_ ->]]; [exfalso; apply Hnr; left; split; [done|by apply Hin]|].
      destruct Hcase1 as [(<- & _)|[_ ->]]; [|done]. exfalso. apply Hnf. by left.
    + destruct Y4' as [| ->]; [by left|]. destruct Hcase2 as [(_ & ? & _)|[_ ->]]; [by left|].
      destruct Hcase1 as [(_ & ? & _)|[_ ->]]; [by left|by right].
    + intros Hx. apply Y5, Hpw1. by rewrite Hpw0.
  - destruct (IH (S k) a) as (a' & -> & Hl' & H'); [done|lia|]. exists a'. split_and!; [done..|]. intros j x Hj.
    destruct (H' j x Hj) as (y & Hy & Y1 & Y2 & Y3 & Y4 & Y5). destruct (Hshift j) as [Hfa Hre].
    exists y. split; [done|]. rewrite Hfa, Hre. split_and!; try done.
    + intros [[[? _]|?]|[[? _]|?]]; [done|apply Y1; by left|done|apply Y1; by right].
    + intros [[? _]|?]; [done|by apply Y2].
    + intros Hnf Hnr. apply Y3; tauto.
Qed.

(** ** Commands *)

(** What the commands addressed to an axis preserve. *)
Lemma drain_commands_inv (P : AxisRuntime → Prop) j n b cmds n' x : nc_ok n b → drain_commands n cmds = Ok n' →
  axes n !! j = Some x → P x →
  (∀ x c m, c ∈ cmds → Z.to_nat (cmd_axis c) = j → P x → P (apply_command x c m)) →
  ∃ y, axes n' !! j = Some y ∧ P y.
Proof.
  revert n x. induction cmds as [|c cmds IH]; intros n x Hn Hd Hx HP Hc; simpl in Hd.
  { simplify_eq. by exists x. }
  assert (Hc' : ∀ x c m, c ∈ cmds → Z.to_nat (cmd_axis c) = j → P x → P (apply_command x c m)).
  { intros ????. apply Hc. by right. }
  destruct (Nat.ltb_spec (Z.to_nat (cmd_axis c)) (length (axes n))) as [Hi|]; [|by eapply IH].
  destruct (lookup_expect (axes n) _ Hi) as (a & Ha & Ea). rewrite Ea in Hd. simpl in Hd.
  destruct (lookup_expect (direct_master n) (Z.to_nat (cmd_axis c))) as (m & _ & Em); [by rewrite (no_dm _ _ Hn)|].
  rewrite Em in Hd. simpl in Hd. set (n1 := set_axes n _) in Hd.
  assert (Hs : same_shape n n1) by (split_and!; simpl; rewrite ?length_insert; done).
  assert (Hn1 : nc_ok n1 b) by by apply (nc_ok_shape n n1 b b).
  destruct (decide (Z.to_nat (cmd_axis c) = j)) as [<-|Hne].
  - apply (IH n1 (apply_command a c m)); try done; [by apply list_lookup_insert_eq|].
    apply Hc; [by left|done|]. by simplify_eq.
  - apply (IH n1 x); try done. unfold n1. simpl. by rewrite list_lookup_insert_ne.
Qed.

(** ** The latch and the bumpless start *)

(** Only [Power] and [Reset] leave the safe state. *)
Lemma latched_command r c m : error_stop r = true → accepted_in_error (cmd_kind c) = false →
  arm (apply_command r c m) = arm r ∧ power (apply_command r c m) = power r ∧
  error_stop (apply_command r c m) = true.
Proof. intros He Hk. unfold apply_command. simpl. rewrite He, Hk. simpl. by case_match. Qed.

(** Not enabled: the commanded position is the actual one, and so is the target. *)
Lemma disabled_tick r sw raw dt m : is_enabled sw = false →
  let '(r', out) := tick r sw raw dt m in
  let actual := to_units (scale r) (accum (unwrap (unwrapper r) raw)) in
  motion (arm r') = MIdle actual ∧ arm_state (arm r') = at_rest actual ∧
  o_target out = to_increments (scale r) actual ∧ superimposed (arm r') = superimposed (arm r).
Proof. intros He. unfold tick, command_position. simpl. by rewrite He. Qed.
(** The first enabled tick after it holds that position, plus the overlay that is
    still set: without one the start is bumpless, with one it is not. *)
Lemma first_enabled_tick r sw raw dt m actual : motion (arm r) = MIdle actual → is_enabled sw = true →
  let '(r', out) := tick r sw raw dt m in
  o_target out = to_increments (scale r)
    (match superimposed (arm r) with
     | None => actual
     | Some o => add actual (pos (scurve_update o dt).2)
     end).
Proof.
  intros Hm He. unfold tick, command_position. simpl. rewrite He, Hm. simpl. unfold apply_superimposed. simpl.
  destruct (superimposed (arm r)) as [o|]; simpl; [destruct (scurve_update o dt) as [o' d]; simpl|]; by repeat case_match.
Qed.

(** ** The cycle *)

Lemma latched_tick x sw raw dt m : error_stop x = true →
  error_stop (tick x sw raw dt m).1 = true ∧ st_state (status (tick x sw raw dt m).1) = ErrorStop.
Proof.
  intros He. unfold tick, command_position. simpl. destruct (is_enabled sw); simpl; [|by rewrite He].
  destruct (motion_update _ _ _) as [g base]. destruct (apply_superimposed _ _ _) as [a next]. simpl.
  by case_match; simpl; rewrite He.
Qed.
Lemma exchange_shape b : same_bus b (exchange b).
Proof. unfold same_bus. simpl. by rewrite length_imap. Qed.

(** At fault after the exchange: a stale input or a faulty statusword. *)
Definition fault_at (b : Bus) (j : nat) : Prop :=
  ∃ img s, b_img b !! j = Some img ∧ b_stale b !! j = Some s ∧ s || faulty (decode_state (i_sw img)) = true.
(** Reached over engaged couplings from an axis at fault. *)
Definition follows_fault (b : Bus) (t : CouplingTopology) (j : nat) : Prop :=
  ∃ a, fault_at b a ∧ tc (edge (engaged t)) a j.
Definition keeps_error (cmds : list (AxisCommand F)) (j : nat) : Prop :=
  ∀ c, c ∈ cmds → Z.to_nat (cmd_axis c) = j → accepted_in_error (cmd_kind c) = false.

Lemma injected_fault b j : (j < length (b_img b))%nat → length (b_stale b) = length (b_img b) →
  b_faulted b !! j = Some true ∨ b_stale b !! j = Some true → fault_at (exchange b) j.
Proof.
  intros [img Hi]%lookup_lt_is_Some_2 Hl H.
  destruct (lookup_lt_is_Some_2 (b_stale b) j) as [s Hs]; [rewrite Hl; by eapply lookup_lt_Some|].
  eexists _, s. simpl. split; [by rewrite list_lookup_imap, Hi|]. split; [done|]. rewrite Hs. simpl.
  destruct s; [done|]. destruct H as [->|?]; [done|congruence].
Qed.

(** The steps of a cycle, put together. *)
Lemma cycle_step_ok n b cmds dt : nc_ok n b →
  ∃ n1 n' b' sts, drain_commands n cmds = Ok n1 ∧ same_shape n n1 ∧ step n b cmds dt = Ok (n', b', sts) ∧
    same_shape n n' ∧ same_bus b b' ∧ sts = status <$> axes n' ∧
    (∀ j, (j < length (axes n))%nat → b_faulted b !! j = Some true ∨ b_stale b !! j = Some true → fault_at b' j) ∧
    ∀ j y, axes n' !! j = Some y → ∃ x x' sw raw m, axes n1 !! j = Some x ∧ x' = (tick x sw raw dt m).1 ∧
      (fault_at b' j ∨ follows_fault b' (topology n) j → stopped y) ∧
      (follows_fault b' (topology n) j → power y = QuickStop) ∧
      (¬ fault_at b' j → ¬ follows_fault b' (topology n) j → y = x') ∧ (stopped y ∨ y = x').
Proof.
  intros Hn. destruct (drain_commands_ok n b cmds Hn) as (n1 & E1 & S1). unfold step. rewrite E1. simpl.
  assert (Hn1 : nc_ok n1 b) by (by apply (nc_ok_shape n n1 b b)).
  assert (Hlen1 : length (axes n1) = length (axes n)) by apply S1.
  assert (Hseq : Forall (λ i, i < length (axes n1))%nat (seq 0 (length (axes n1)))).
  { apply Forall_forall. intros i ?%elem_of_seq. lia. }
  destruct (tick_all_ok (order n1) n1 b (replicate (length (axes n1)) false) dt)
    as (n2 & b2 & st & -> & S2 & B2 & Hst & Hst1 & _ & _ & Htick); [done|..].
  { rewrite (no_order _ _ Hn1). apply NoDup_seq. } { by rewrite (no_order _ _ Hn1). } { apply length_replicate. }
  simpl. rewrite length_replicate in Hst.
  assert (Hlen2 : length (axes n2) = length (axes n1)) by apply S2.
  assert (B3 : same_bus b (exchange b2)) by (transitivity b2; [done|apply exchange_shape]).
  assert (Hn2 : nc_ok n2 (exchange b2)) by (apply (nc_ok_shape n1 n2 b); done).
  destruct (detect_ok (seq 0 (length (axes n2))) n2 (exchange b2) st (replicate (length (axes n2)) false))
    as (n3 & fl & -> & S3 & A3 & Hfl & _ & Hdet); [done|apply NoDup_seq|by rewrite Hlen2|congruence|apply length_replicate|].
  simpl. rewrite length_replicate in Hfl.
  assert (S03 : same_shape n n3) by (transitivity n1; [done|]; transitivity n2; done).
  assert (Ht3 : topology n3 = topology n) by apply S03.
  destruct (react_ok 0 fl (topology n3) (axes n3)) as (a' & -> & Hla & Hre); [..|].
  { rewrite Ht3. apply (no_topo _ _ Hn). } { rewrite Ht3, A3, (no_axes _ _ Hn). congruence. } { simpl. rewrite A3. lia. }
  simpl. exists n1, (set_axes n3 a'), (exchange b2), (status <$> a'). do 2 (split; [done|]). split; [done|].
  split; [|split; [done|split; [done|split]]].
  { destruct S03 as (?&?&?&?&?). unfold same_shape. simpl. rewrite Hla. done. }
  { intros j Hj Hf. destruct B2 as (Bl & Bs & Bf). pose proof (no_bus _ _ Hn). pose proof (no_stale _ _ Hn).
    apply injected_fault; [lia|congruence|by rewrite Bf, Bs]. }
  (* the faults detected are the faults of the bus *)
  assert (Hfault : ∀ j, (j < length (axes n))%nat → fl !! j = Some true ↔ fault_at (exchange b2) j).
  { intros j Hj. destruct (Hdet j) as (img & s & Hi & Hs & Hf); [apply elem_of_seq; lia|]. rewrite Hst1 in Hs.
    2: { rewrite (no_order _ _ Hn1). apply elem_of_seq. lia. }
    assert (Hs' : b_stale (exchange b2) !! j = Some s) by (destruct B3 as (_ & -> & _); done).
    unfold fault_at. rewrite Hi, Hs', Hf. split; [intros [= E]; by exists img, s|].
    intros (? & ? & [= <-] & [= <-] & ->). done. }
  assert (Htc : ∀ a j, tc (edge (engaged (topology n))) a j → (a < length (axes n))%nat).
  { rewrite <- (no_axes _ _ Hn). destruct (no_topo _ _ Hn) as [_ He].
    destruct 1 as [?? He'|??? He' _]; by apply (edge_lt _ _ _ _ He) in He' as []. }
  intros j y Hy. simpl in Hy.
  assert (Hj : (j < length (axes n))%nat) by (apply lookup_lt_Some in Hy; rewrite Hla, A3 in Hy; lia).
  destruct (Htick j) as (x & sw & raw & m & Hx & Hx'); [rewrite (no_order _ _ Hn1); apply elem_of_seq; lia|].
  exists x, (tick x sw raw dt m).1, sw, raw, m. split; [done|]. split; [done|].
  rewrite <- A3 in Hx'. destruct (Hre j _ Hx') as (y' & Hy' & Y1 & Y2 & Y3 & Y4 & _). simplify_eq.
  rewrite Ht3 in Y1, Y2, Y3.
  assert (HF : at_fault fl 0 j ↔ fault_at (exchange b2) j).
  { rewrite <- (Hfault j Hj). split; [by intros (? & ? & <-)|]. intros ?. by exists j. }
  assert (HR : reached (topology n) fl 0 j ↔ follows_fault (exchange b2) (topology n) j).
  { split; intros (a & Ha & Hr); simpl in *; exists a; (split; [|done]); apply Hfault; try done; by eapply Htc. }
  rewrite HF, HR in Y1, Y3. rewrite HR in Y2. by split_and!.
Qed.

(** C33. A cycle of the motion runtime never indexes out of bounds, and its fault
    reaction is exact.  An axis whose drive was faulted, or whose input was stale, is at
    fault in the same cycle; every axis at fault after the exchange, and every one
    reached from it over engaged couplings, ends the cycle in [ErrorStop] with its
    generator replaced by a hold, the reached ones commanded to quick stop; every
    other axis is as its own tick left it after the commands; an axis in the
    safe state stays in it unless [Power] or [Reset] is addressed to it; and the
    statuses published are those of the axes. *)
Theorem fault_stops_downstream n b cmds dt : nc_ok n b →
  ∃ n' b' sts, step n b cmds dt = Ok (n', b', sts) ∧ nc_ok n' b' ∧ sts = status <$> axes n' ∧
    (∀ j, (j < length (axes n))%nat → b_faulted b !! j = Some true ∨ b_stale b !! j = Some true → fault_at b' j) ∧
    ∀ j y, axes n' !! j = Some y →
      (fault_at b' j ∨ follows_fault b' (topology n) j → stopped y) ∧
      (follows_fault b' (topology n) j → power y = QuickStop) ∧
      (¬ fault_at b' j → ¬ follows_fault b' (topology n) j →
       ∃ n1 x sw raw m, drain_commands n cmds = Ok n1 ∧ axes n1 !! j = Some x ∧ y = (tick x sw raw dt m).1) ∧
      (∀ x, axes n !! j = Some x → error_stop x = true → keeps_error cmds j →
       error_stop y = true ∧ st_state (status y) = ErrorStop).
Proof.
  intros Hn. destruct (cycle_step_ok n b cmds dt Hn) as (n1 & n' & b' & sts & E1 & S1 & E & Hs & Hb & Hsts & Hinj & Hax).
  exists n', b', sts. split; [done|]. split; [by apply (nc_ok_shape n n' b b')|]. split; [done|]. split; [done|].
  intros j y Hy. destruct (Hax j y Hy) as (x1 & x' & sw & raw & m & Hx1 & -> & H1 & H2 & H3 & H4).
  split; [done|]. split; [done|]. split.
  - intros Hf Hr. exists n1, x1, sw, raw, m. auto.
  - intros x Hx He Hk. destruct H4 as [(? & ? & _)| ->]; [done|].
    destruct (drain_commands_inv (λ a, error_stop a = true) j n b cmds n1 x Hn E1 Hx He) as (x2 & Hx2 & He2).
    { intros a c d Hin Hc Ha. by apply (latched_command a c d); [|apply Hk]. }
    simplify_eq. by apply latched_tick.
Qed.
End nc.

(** What [new] and [precompute] set up is well formed. *)
Section init.
Context {F : Type} {G : Generators F}.
Lemma nc_new_ok (scales : list AxisScale) n : nc_new scales = Ok n → nc_ok n (bus_new (length scales)).
Proof.
  unfold nc_new. intros (t & Ht & [= <-])%res_bind_Ok. apply topology_new_ok in Ht as [Ht Ha].
  split; simpl; rewrite ?length_imap, ?length_replicate; try done.
  intros i m Hi. apply lookup_replicate in Hi as [[=] _].
Qed.
Lemma nc_precompute_ok (n : NcCycle) b debug : nc_ok n b → ExecGraphOk.acyclic (couplings (topology n)) →
  ∃ n', precompute n debug = Ok n' ∧ nc_ok n' b.
Proof.
  intros Hn Hac. unfold precompute. destruct (precompute_ok _ (no_topo _ _ Hn)) as (t' & Et & Ht & Hd & He & _).
  rewrite Et. simpl. assert (Ha : axes_of t' = length (axes n)) by (unfold axes_of; rewrite Hd; apply (no_axes _ _ Hn)).
  assert (Hac' : ExecGraphOk.acyclic (couplings t')).
  { unfold topo_precompute in Et. by apply res_bind_Ok in Et as (d & _ & [= <-]). }
  destruct (tick_order_acyclic t' debug Hac') as (o & -> & Hp & _). simpl. eexists. split; [done|].
  destruct Hn as [H1 H2 H3 H4 H5 H6 H7 H8]. split; simpl; rewrite ?length_fmap, ?length_seq; try done; [by rewrite <- Ha|].
  intros i m Hi. apply list_lookup_fmap_Some in Hi as (s & Hm & _). rewrite <- Ha. symmetry in Hm. by apply direct_master_ok in Hm as [? _].
Qed.
End init.

(** Integer positions, and generators that move at once. *)
#[local] Instance z_generators : Generators Z := {
  zero := 0;
  add := Z.add;
  is_positive := λ z, 0 <? z;
  AxisScale := Z;
  to_units := λ s z, z / s;
  to_increments := λ s z, s * z;
  VelocityMove := CoreState Z * Z;
  velocity_new := λ s v _, (s, v);
  velocity_update := λ g dt, let s := MkCore (pos g.1 + g.2 * dt) g.2 0 in ((s, g.2), s);
  TrapState := Z;
  trap_plan := λ _ t _, Some t;
  trap_update := λ t _, (t, MkCore t 0 0);
  trap_done := λ _, true;
  SCurveState := Z;
  scurve_plan := λ _ t _, Some t;
  scurve_update := λ t _, (t, MkCore t 0 0);
  scurve_done := λ _, true;
  Gear := Z;
  gear_new := λ r, r;
  gear_update := λ r m, (r, match m with Some m => MkCore (r * pos m) (r * vel m) 0 | None => MkCore 0 0 0 end);
  FlyingSaw := unit;
  saw_update := λ g _ _, (g, MkCore 0 0 0);
  saw_phase := λ _, Waiting;
  Cam := unit;
  cam_update := λ g _ _, (g, MkCore 0 0 0);
}.
(** Two axes, the second coupled to the first, whose drive is faulted. *)
Definition ex_nc : NcCycle :=
  MkNc [axis_new 0 1; axis_new 1 1] (MkTopology [2; 0] [2; 0] [2; 0]) [0; 1]%nat [None; Some 0%nat]
    (replicate 2 (MkImage 0 0 0 0 0)).
Definition ex_bus : Bus :=
  MkBus (replicate 2 (MkImage 0 0 0 0x0237 0)) 0 [true; false] [false; false].
Lemma ex_nc_ok : nc_ok ex_nc ex_bus.
Proof.
  assert (Hr : rows_ok 2 [2; 0]).
  { split; [lia|done|]. repeat constructor; vm_compute; congruence. }
  split; try done; simpl; try lia.
  intros [|[|i]] m [=]; subst; lia.
Qed.
Lemma fault_stops_downstream_witness :
  ∃ n' b' sts, step ex_nc ex_bus [] 1 = Ok (n', b', sts) ∧
    fault_at b' 0 ∧ ∀ y, axes n' !! 1%nat = Some y → stopped y ∧ power y = QuickStop.
Proof.
  destruct (fault_stops_downstream ex_nc ex_bus [] 1 ex_nc_ok) as (n' & b' & sts & E & _ & _ & Hinj & Hax).
  assert (H0 : fault_at b' 0) by (apply Hinj; [simpl; lia|by left]).
  exists n', b', sts. split; [exact E|]. split; [exact H0|]. intros y Hy.
  assert (Hf : follows_fault b' (topology ex_nc) 1).
  { exists 0%nat. split; [exact H0|]. apply tc_once. exists 2. by split. }
  destruct (Hax 1%nat y Hy) as (H1 & H2 & _). split; [apply H1; by right|by apply H2].
Defined.
End MotionNcOk.
