(* ===== verification/ZenohWire.v ===== *)
(** * Keys, frames and health of the Zenoh connector

    Models routing.rs, options.rs, health.rs and the frames of session.rs in
    [taktora-connector-zenoh/src/], and the query ids of querier.rs.  Durations are in
    nanoseconds, instants are numbers passed to each call. *)

From stdpp Require Import base gmap strings pretty list.
From Stdlib Require Import ZArith Lia Ascii.
From S2P Require Import Prelude ConnHealth.

Module ZenohWire.
Import ConnHealth(ConnectorHealth, Up, Connecting, Degraded, Down, HealthMonitor, HealthEvent,
  IllegalTransition, Hub, KUp, KConnecting, KDegraded, KDown).
#[export] Existing Instance ConnHealth.kind_eq_dec.

(** ** Key expressions and routing *)

Definition KeyExprOwned := string.
Inductive KeyExprError := KeyEmpty | LeadingSlash | TrailingSlash | EmptyChunk.
Definition SLASH : ascii := "/".
Definition starts_with (c : ascii) (s : string) : bool :=
  match s with String a _ => bool_decide (a = c) | EmptyString => false end.
Fixpoint ends_with (c : ascii) (s : string) : bool :=
  match s with
  | EmptyString => false
  | String a EmptyString => bool_decide (a = c)
  | String _ s => ends_with c s
  end.
(** [contains("//")]. *)
Fixpoint double_slash (s : string) : bool :=
  match s with
  | String a s => (bool_decide (a = SLASH) && starts_with SLASH s) || double_slash s
  | EmptyString => false
  end.
Definition validate_key_expr (value : string) : option KeyExprError :=
  match value with
  | EmptyString => Some KeyEmpty
  | _ =>
      if starts_with SLASH value then Some LeadingSlash
      else if ends_with SLASH value then Some TrailingSlash
      else if double_slash value then Some EmptyChunk
      else None
  end.
Definition key_try_from (value : string) : KeyExprOwned + KeyExprError :=
  match validate_key_expr value with Some e => inr e | None => inl value end.

Inductive CongestionControl := Block | Drop.
Inductive Priority := RealTime | InteractiveHigh | InteractiveLow | DataHigh | PData | DataLow | Background.
Inductive Reliability := Reliable | BestEffort.
Record ZenohRouting := MkRouting {
  key_expr : KeyExprOwned;
  congestion_control : CongestionControl;
  priority : Priority;
  reliability : Reliability;
  express : bool;
}.
Definition routing_new (k : KeyExprOwned) : ZenohRouting := MkRouting k Drop PData BestEffort false.
Definition with_congestion_control (r : ZenohRouting) (c : CongestionControl) : ZenohRouting :=
  MkRouting (key_expr r) c (priority r) (reliability r) (express r).
Definition with_priority (r : ZenohRouting) (p : Priority) : ZenohRouting :=
  MkRouting (key_expr r) (congestion_control r) p (reliability r) (express r).
Definition with_reliability (r : ZenohRouting) (x : Reliability) : ZenohRouting :=
  MkRouting (key_expr r) (congestion_control r) (priority r) x (express r).
Definition with_express (r : ZenohRouting) (e : bool) : ZenohRouting :=
  MkRouting (key_expr r) (congestion_control r) (priority r) (reliability r) e.

(** ** Options *)

Inductive SessionMode := Peer | Client | Router.
Inductive QueryTarget := BestMatching | TAll | AllComplete.
Inductive Consolidation := CAuto | CNone | CMonotonic | CLatest.
Record ZenohConnectorOptions := MkOptions {
  mode : SessionMode;
  connect : list string;
  listen : list string;
  query_target : QueryTarget;
  query_consolidation : Consolidation;
  query_timeout : Z;
  outbound_bridge_capacity : nat;
  inbound_bridge_capacity : nat;
  inbound_drop_threshold : N;
  tokio_worker_threads : nat;
  min_peers : option N;
  dispatcher_tick : Z;
}.
Definition options_default : ZenohConnectorOptions :=
  MkOptions Peer [] [] TAll CNone 10000000000 64 64 1 1 None 1000000.
(** The setters that clamp, and [build]. *)
Definition set_outbound_bridge_capacity (o : ZenohConnectorOptions) (n : nat) : ZenohConnectorOptions :=
  MkOptions (mode o) (connect o) (listen o) (query_target o) (query_consolidation o) (query_timeout o)
    (Nat.max 1 n) (inbound_bridge_capacity o) (inbound_drop_threshold o) (tokio_worker_threads o)
    (min_peers o) (dispatcher_tick o).
Definition set_inbound_bridge_capacity (o : ZenohConnectorOptions) (n : nat) : ZenohConnectorOptions :=
  MkOptions (mode o) (connect o) (listen o) (query_target o) (query_consolidation o) (query_timeout o)
    (outbound_bridge_capacity o) (Nat.max 1 n) (inbound_drop_threshold o) (tokio_worker_threads o)
    (min_peers o) (dispatcher_tick o).
Definition set_inbound_drop_threshold (o : ZenohConnectorOptions) (n : N) : ZenohConnectorOptions :=
  MkOptions (mode o) (connect o) (listen o) (query_target o) (query_consolidation o) (query_timeout o)
    (outbound_bridge_capacity o) (inbound_bridge_capacity o) (if (n =? 0)%N then 1%N else n)
    (tokio_worker_threads o) (min_peers o) (dispatcher_tick o).
Definition set_tokio_worker_threads (o : ZenohConnectorOptions) (n : nat) : ZenohConnectorOptions :=
  MkOptions (mode o) (connect o) (listen o) (query_target o) (query_consolidation o) (query_timeout o)
    (outbound_bridge_capacity o) (inbound_bridge_capacity o) (inbound_drop_threshold o)
    (if (n =? 0)%nat then 1%nat else n) (min_peers o) (dispatcher_tick o).
Definition build (o : ZenohConnectorOptions) : ZenohConnectorOptions :=
  MkOptions (mode o) (connect o) (listen o) (query_target o) (query_consolidation o) (query_timeout o)
    (outbound_bridge_capacity o) (inbound_bridge_capacity o) (N.max 1 (inbound_drop_threshold o))
    (tokio_worker_threads o) (min_peers o) (dispatcher_tick o).

(** ** Query ids *)

(** 32 bytes, the first eight from a counter. *)
Definition QueryId := list Z.
Fixpoint be_bytes (k : nat) (n : Z) : list Z :=
  match k with
  | O => []
  | S k => Z.land (Z.shiftr n (8 * Z.of_nat k)) 255 :: be_bytes k n
  end.
Definition query_id (n : Z) : QueryId := be_bytes 8 n ++ replicate 24 0.
(** [mint_query_id], the counter explicit; [ZeroedMinter::next] is the same. *)
Definition mint_query_id (counter : Z) : Z * QueryId := (wrap 64 (counter + 1), query_id counter).

(** ** Reply frames *)

Inductive FrameKind := FData | EndOfStream | FTimeout.
#[export] Instance frame_kind_eq_dec : EqDecision FrameKind.
Proof. solve_decision. Defined.
Definition discriminator (k : FrameKind) : Z :=
  match k with FData => 1 | EndOfStream => 2 | FTimeout => 3 end.
Definition from_byte (b : Z) : option FrameKind :=
  if b =? 1 then Some FData else if b =? 2 then Some EndOfStream else if b =? 3 then Some FTimeout else None.
Inductive ReplyFrameError :=
| BufferTooSmall (need have : Z)
| EmptyEnvelope
| UnknownKind (b : Z).
Definition encode_data (body out : list Z) : (list Z * Z) + ReplyFrameError :=
  let need := 1 + len body in
  if len out <? need then inr (BufferTooSmall need (len out))
  else inl (discriminator FData :: body ++ drop (Z.to_nat need) out, need).
Definition encode_terminator (k : FrameKind) (out : list Z) : (list Z * Z) + ReplyFrameError :=
  match out with
  | [] => inr (BufferTooSmall 1 0)
  | _ :: rest => inl (discriminator k :: rest, 1)
  end.
Definition encode_end_of_stream := encode_terminator EndOfStream.
Definition encode_timeout := encode_terminator FTimeout.
Definition decode (envelope : list Z) : (FrameKind * list Z) + ReplyFrameError :=
  match envelope with
  | [] => inr EmptyEnvelope
  | b :: body => match from_byte b with Some k => inl (k, body) | None => inr (UnknownKind b) end
  end.

(** ** Session state and health *)

Inductive SessionState := SConnecting | SAlive | SClosed (reason : string).
#[export] Instance session_state_eq_dec : EqDecision SessionState.
Proof. solve_decision. Defined.

Record ZenohHealthMonitor := MkHealth {
  inner : HealthMonitor;
  hub : Hub;
  degraded_due_to_drops : bool;
}.
Definition health_new (now : Z) : ZenohHealthMonitor :=
  MkHealth (ConnHealth.monitor_new now) ConnHealth.hub_new false.
(** Re-arming of the latch on a transition to [Up], and the broadcast. *)
Definition emit (h : ZenohHealthMonitor) (m : HealthMonitor) (e : HealthEvent) : ZenohHealthMonitor :=
  MkHealth m (ConnHealth.broadcast (hub h) e)
    (if bool_decide (ConnHealth.kind (ConnHealth.ev_to e) = KUp) then false else degraded_due_to_drops h).
Definition transition_to (h : ZenohHealthMonitor) (target : ConnectorHealth) (now : Z) :
  ZenohHealthMonitor * (HealthEvent + IllegalTransition) :=
  match ConnHealth.try_transition_to (inner h) target now with
  | inr e => (h, inr e)
  | inl (m, e) => (emit h m e, inl e)
  end.
Definition record_inbound_drop (h : ZenohHealthMonitor) (count threshold : N) (now : Z) :
  ZenohHealthMonitor * option HealthEvent :=
  if (count <? threshold)%N || degraded_due_to_drops h then (h, None)
  else if negb (bool_decide (ConnHealth.kind (inner h) = KUp))
  then (MkHealth (inner h) (hub h) true, None)
  else
    match ConnHealth.try_transition_to (inner h)
            (Degraded ("dropped " +:+ pretty count +:+ " inbound frames")) now with
    | inl (m, e) => (MkHealth m (ConnHealth.broadcast (hub h) e) true, Some e)
    | inr _ => (h, None)
    end.
(** The health that an observation of the session maps to. *)
Definition observed (st : SessionState) (peers : N) (floor : option N) (now : Z) : ConnectorHealth :=
  match st with
  | SConnecting => Connecting now
  | SAlive =>
      match floor with
      | Some f =>
          if (peers <? f)%N
          then Degraded ("linked peers " +:+ pretty peers +:+ " < min_peers " +:+ pretty f)
          else Up
      | None => Up
      end
  | SClosed reason => Down reason now
  end.
Definition apply_observation (h : ZenohHealthMonitor) (st : SessionState) (peers : N) (floor : option N)
    (now : Z) : ZenohHealthMonitor :=
  let target := observed st peers floor now in
  let m :=
    if bool_decide (ConnHealth.kind (inner h) = KConnecting ∧ ConnHealth.kind target = KDegraded) then
      match ConnHealth.try_transition_to (inner h) Up now with inl (m, _) => m | inr _ => inner h end
    else inner h in
  match ConnHealth.try_transition_to m target now with
  | inl (m, e) => emit h m e
  | inr _ => MkHealth m (hub h) (degraded_due_to_drops h)
  end.

(** The health watcher: not spawned, spawned, running with the last observation that
    counted, ended. *)
Inductive Watcher := WIdle | WSpawned | WRunning (last : SessionState) (peers : N) | WStopped.
(** The start of its task, then one turn of the loop, [stop] as read at its head. *)
Definition watcher_poll (h : ZenohHealthMonitor) (w : Watcher) (stop : bool) (st : SessionState)
    (peers : N) (floor : option N) (now : Z) : ZenohHealthMonitor * Watcher :=
  match w with
  | WSpawned => (apply_observation h st peers floor now, WRunning st peers)
  | WRunning last last_peers =>
      if stop then (h, WStopped)
      else
        let crossed_floor :=
          match last, st, floor with
          | SAlive, SAlive, Some f => negb (Bool.eqb (last_peers <? f)%N (peers <? f)%N)
          | _, _, _ => false
          end in
        let '(h, last, last_peers) :=
          if negb (bool_decide (st = last)) || crossed_floor
          then (apply_observation h st peers floor now, st, peers) else (h, last, last_peers) in
        (h, match st with SClosed _ => WStopped | _ => WRunning last last_peers end)
  | _ => (h, w)
  end.

(** ** Round trips *)

Lemma from_byte_discriminator k : from_byte (discriminator k) = Some k.
Proof. by destruct k. Qed.
Lemma from_byte_Some b k : from_byte b = Some k → b = discriminator k.
Proof.
  unfold from_byte. destruct (Z.eqb_spec b 1), (Z.eqb_spec b 2), (Z.eqb_spec b 3); naive_solver.
Qed.
(** What a buffer large enough holds after encoding decodes to the frame. *)
Lemma frame_roundtrip body out out' n : encode_data body out = inl (out', n) →
  decode (take (Z.to_nat n) out') = inl (FData, body) ∧ length out' = length out.
Proof.
  unfold encode_data, len. destruct (Z.ltb_spec (Z.of_nat (length out)) (1 + Z.of_nat (length body))); [done|].
  intros [= <- <-]. replace (Z.to_nat (1 + Z.of_nat (length body))) with (S (length body)) by lia. simpl. split.
  - by rewrite take_app_length.
  - rewrite length_app, length_drop. lia.
Qed.

Lemma be_bytes_length k n : length (be_bytes k n) = k.
Proof. induction k; simpl; congruence. Qed.
Lemma be_bytes_bit k n i : 0 ≤ i < 8 * Z.of_nat k →
  ∃ j b, be_bytes k n !! j = Some b ∧ Z.testbit n i = Z.testbit b (i `mod` 8) ∧ j = (k - 1 - Z.to_nat (i / 8))%nat.
Proof.
  induction k as [|k IH]; intros Hi; [simpl in Hi; lia|]. cbn [be_bytes].
  destruct (Z.lt_ge_cases i (8 * Z.of_nat k)) as [Hlt|Hge].
  - destruct IH as (j & b & Hj & Hb & ->); [lia|]. pose proof (Z.div_lt_upper_bound i 8 (Z.of_nat k)).
    exists (S (k - 1 - Z.to_nat (i / 8))), b. split_and!; [done|done|].
    assert (0 ≤ i / 8) by (apply Z.div_pos; lia). lia.
  - assert (Hd : i / 8 = Z.of_nat k) by (symmetry; apply (Z.div_unique _ _ _ (i - 8 * Z.of_nat k)); lia).
    exists 0%nat, (Z.land (Z.shiftr n (8 * Z.of_nat k)) 255). split_and!; [done| |rewrite Hd; lia].
    pose proof (Z.mod_pos_bound i 8). change 255 with (Z.ones 8).
    rewrite Z.land_spec, Z.shiftr_spec, Z.ones_spec_low, andb_true_r by lia.
    f_equal. pose proof (Z.div_mod i 8). lia.
Qed.
Lemma be_bytes_inj k n m : 0 ≤ n < 2 ^ (8 * Z.of_nat k) → 0 ≤ m < 2 ^ (8 * Z.of_nat k) →
  be_bytes k n = be_bytes k m → n = m.
Proof.
  intros Hn Hm He. apply Z.bits_inj'. intros i Hi.
  destruct (Z.lt_ge_cases i (8 * Z.of_nat k)) as [Hlt|Hge].
  - destruct (be_bytes_bit k n i) as (j & b & Hj & Hb & Ej); [lia|].
    destruct (be_bytes_bit k m i) as (j' & b' & Hj' & Hb' & Ej'); [lia|].
    rewrite He in Hj. subst j j'. simplify_eq. by rewrite Hb, Hb'.
  - assert (∀ x, 0 ≤ x < 2 ^ (8 * Z.of_nat k) → Z.testbit x i = false) as Hhigh; [|by rewrite !Hhigh].
    intros x Hx. destruct (Z.eq_dec x 0) as [->|]; [apply Z.bits_0|]. apply Z.bits_above_log2; [lia|].
    apply Z.lt_le_trans with (8 * Z.of_nat k); [apply Z.log2_lt_pow2; lia|done].
Qed.
(** Ids are unique as long as the counter does not wrap. *)
Lemma query_id_inj n m : is_u 64 n → is_u 64 m → query_id n = query_id m → n = m.
Proof.
  intros [? ?] [? ?] He. apply app_inj_1 in He as [He _]; [|by rewrite !be_bytes_length].
  by apply (be_bytes_inj 8).
Qed.

(** ** Health *)

(** An observation shows, except that a connector that is up does not notice that its
    session is connecting again, and that nothing but connecting leaves [Down]. *)
Lemma apply_observation_kind h st peers floor now :
  let target := ConnHealth.kind (observed st peers floor now) in
  let k := ConnHealth.kind (inner h) in
  ConnHealth.kind (inner (apply_observation h st peers floor now)) =
    match k, target with
    | KUp, KConnecting => KUp
    | KDown, KUp | KDown, KDegraded => KDown
    | _, _ => target
    end.
Proof.
  simpl. unfold apply_observation, ConnHealth.try_transition_to. destruct h as [m hb d]; simpl.
  destruct m, (observed st peers floor now); done.
Qed.
End ZenohWire.
