(* ===== verification/ZenohConn.v ===== *)
(** * The Zenoh connector

    Models [taktora-connector-zenoh/src/]: registry.rs, the connector's state and the
    creation of channels, queriers and queryables (connector.rs), the dispatcher with
    its query tasks (dispatcher.rs), the two query handles (querier.rs, queryable.rs)
    and the in-process session (mock.rs).

    Closures are data: a [PayloadSink], [DoneCallback], [QuerySink] or [Replier] names
    what the closure does with the state it captured, and calling one is a function of
    the connector.  What runs under one lock or between two awaits is one operation;
    operations interleave freely.  The spawned query tasks are a list with their
    program points, their timers elapse at any time.

    A shared-memory service is named by its channel and direction (services of different
    channels are taken to be different): towards the gateway it is the queue of
    envelopes its reader has not taken, towards the plugin the log of what was
    published, with the number the plugin has taken.  Shared memory answers each send
    as the environment. *)

From stdpp Require Import base gmap strings list countable.
From Stdlib Require Import ZArith Lia.
From S2P Require Import Prelude J1939Dispatch ConnHealth ZenohWire.

Module ZenohConn.
Import ZenohWire.
Import Dispatch(ConnectorError, Codec, Configuration, Stack, BackPressure, PayloadOverflow).

(** ** Services *)

Inductive ChannelDirection :=
| Outbound
| Inbound
| QuerierOut
| QuerierReplyIn
| QueryableQueryIn
| QueryableReplyOut.
#[export] Instance direction_eq_dec : EqDecision ChannelDirection.
Proof. solve_decision. Defined.
#[export] Instance direction_countable : Countable ChannelDirection.
Proof.
  apply (inj_countable'
    (λ d, match d with Outbound => 0 | Inbound => 1 | QuerierOut => 2 | QuerierReplyIn => 3
                     | QueryableQueryIn => 4 | QueryableReplyOut => 5 end%nat)
    (λ n, match n with 0 => Outbound | 1 => Inbound | 2 => QuerierOut | 3 => QuerierReplyIn
                     | 4 => QueryableQueryIn | _ => QueryableReplyOut end%nat)).
  by intros [].
Defined.
Abbreviation key := (string * ChannelDirection)%type.

(** What a reader on the gateway side finds next; an envelope has a correlation id and a
    reserved word. *)
Inductive envelope :=
| Valid (id : QueryId) (reserved : Z) (payload : list Z)
| BadCrc
| ReceiveError.
(** [try_recv_into] a buffer. *)
Definition drain (e : envelope) (dest_len : Z) : option (QueryId * list Z * Z) + ConnectorError :=
  match e with
  | ReceiveError => inr (Stack "receive")
  | BadCrc => inl None
  | Valid id reserved bytes =>
      if len bytes >? dest_len then inr (PayloadOverflow (len bytes) dest_len)
      else inl (Some (id, bytes, reserved))
  end.
(** Plugin to gateway. *)
Record OutPort := MkOut {
  o_max : Z;
  o_ok : nat → bool;
  o_sends : nat;
  o_pending : list envelope;
}.
(** [send_raw_bytes_v2]. *)
Definition out_send (p : OutPort) (bytes : list Z) (id : QueryId) (reserved : Z) :
  OutPort * option ConnectorError :=
  if len bytes >? o_max p then (p, Some (PayloadOverflow (len bytes) (o_max p)))
  else if o_ok p (o_sends p)
  then (MkOut (o_max p) (o_ok p) (S (o_sends p)) (o_pending p ++ [Valid id reserved bytes]), None)
  else (MkOut (o_max p) (o_ok p) (S (o_sends p)) (o_pending p), Some (Stack "send")).
Definition set_pending (p : OutPort) (es : list envelope) : OutPort := MkOut (o_max p) (o_ok p) (o_sends p) es.
(** Gateway to plugin, behind its accounting bridge. *)
Record Port := MkPort {
  p_capacity : nat;
  p_queued : nat;
  p_dropped : N;
  p_threshold : N;
  p_max : Z;
  p_ok : nat → bool;
  p_sends : nat;
  p_published : list (QueryId * list Z);
  p_taken : nat;
}.
Definition bridge_try_send (p : Port) : Port * option N :=
  if (p_queued p <? p_capacity p)%nat
  then (MkPort (p_capacity p) (S (p_queued p)) (p_dropped p) (p_threshold p) (p_max p) (p_ok p) (p_sends p)
          (p_published p) (p_taken p), None)
  else
    let count := (p_dropped p + 1)%N in
    (MkPort (p_capacity p) (p_queued p) count (p_threshold p) (p_max p) (p_ok p) (p_sends p)
       (p_published p) (p_taken p), Some count).
Definition bridge_try_recv (p : Port) : Port :=
  MkPort (p_capacity p) (pred (p_queued p)) (p_dropped p) (p_threshold p) (p_max p) (p_ok p) (p_sends p)
    (p_published p) (p_taken p).
Definition port_send (p : Port) (id : QueryId) (bytes : list Z) : Port * option ConnectorError :=
  if len bytes >? p_max p then (p, Some (PayloadOverflow (len bytes) (p_max p)))
  else
    let sent := p_ok p (p_sends p) in
    (MkPort (p_capacity p) (p_queued p) (p_dropped p) (p_threshold p) (p_max p) (p_ok p) (S (p_sends p))
       (if sent then p_published p ++ [(id, bytes)] else p_published p) (p_taken p),
     if sent then None else Some (Stack "send")).
(** The plugin's reader. *)
Definition port_recv (p : Port) : Port * option (QueryId * list Z) :=
  match p_published p !! p_taken p with
  | None => (p, None)
  | Some m =>
      (MkPort (p_capacity p) (p_queued p) (p_dropped p) (p_threshold p) (p_max p) (p_ok p) (p_sends p)
         (p_published p) (S (p_taken p)), Some m)
  end.

(** [BridgedCorrelatedPublish] and, with the zero id, [BridgedInboundPublish]. *)
Definition publish_with_correlation (p : Port) (h : ZenohHealthMonitor) (id : QueryId) (bytes : list Z)
    (now : Z) : Port * ZenohHealthMonitor * option ConnectorError :=
  match bridge_try_send p with
  | (p, None) => let '(p, r) := port_send (bridge_try_recv p) id bytes in (p, h, r)
  | (p, Some count) => (p, fst (record_inbound_drop h count (p_threshold p) now), None)
  end.

(** ** The registry *)

Record RegisteredChannel := MkChan {
  descriptor_name : string;
  routing : ZenohRouting;
  direction : ChannelDirection;
}.
Definition ChannelRegistry := list RegisteredChannel.
Definition register (g : ChannelRegistry) (name : string) (r : ZenohRouting) (d : ChannelDirection) :
  ChannelRegistry + ConnectorError :=
  if existsb (λ e, bool_decide (descriptor_name e = name ∧ direction e = d)) g
  then inr (Configuration "already registered")
  else inl (g ++ [MkChan name r d]).

(** ** Closures and the session *)

Inductive PayloadSink :=
| SinkInbound (k : key)
| SinkReply (id : QueryId) (k : key).
Inductive DoneCallback := DoneReply (id : QueryId) (k : key).
Inductive QuerySink := OnQuery (k : key).
(** [QueryReplier]; its [terminate] counts down the cell of the query. *)
Record Replier := MkReplier { rp_reply : PayloadSink; rp_cell : nat }.

Inductive SessionError := NotAlive.
Record MockZenohSession := MkSession {
  s_state : SessionState;
  s_subscribers : gmap string (list (Z * PayloadSink));
  s_next_sub_id : Z;
  s_queryables : gmap string (list (Z * QuerySink));
  s_next_qable_id : Z;
  s_query_hangs : bool;
  s_hung : gmap string (PayloadSink * DoneCallback);
  s_peer_count : N;
  s_cells : list (nat * option DoneCallback);
}.
(** [usize::MAX] peers. *)
Definition session_new : MockZenohSession := MkSession SAlive ∅ 1 ∅ 1 false ∅ (2 ^ 64 - 1) [].

Inductive AnyHandle := SubscriptionGuard (id : Z) (k : string) | QueryableGuard (id : Z) (k : string).

(** ** Query tasks *)

Inductive Task :=
| TSpawned (k : string) (payload : list Z) (id : QueryId) (timeout : Z) (reply : key)
| TWaiting (id : QueryId) (reply : key)
| TCompleted (id : QueryId)
| TSealed (id : QueryId)
| TEvicted (id : QueryId).

(** ** The connector *)

Record Zenoh := MkZenoh {
  z_options : ZenohConnectorOptions;
  z_health : ZenohHealthMonitor;
  z_registry : ChannelRegistry;
  z_out : gmap key OutPort;
  z_in : gmap key Port;
  z_reply_publishers : gmap string key;
  z_correlation : gmap QueryId Replier;
  z_sealed : gset QueryId;
  z_handles : list AnyHandle;
  z_slot : bool;
  z_stop : bool;
  z_watcher : Watcher;
  z_session : MockZenohSession;
  z_tasks : list Task;
  z_counter : Z;
}.
Definition connector_new (o : ZenohConnectorOptions) (counter now : Z) : Zenoh :=
  MkZenoh o (health_new now) [] ∅ ∅ ∅ ∅ ∅ [] true false WIdle session_new [] counter.

Definition with_health (z : Zenoh) x := MkZenoh (z_options z) x (z_registry z) (z_out z) (z_in z)
  (z_reply_publishers z) (z_correlation z) (z_sealed z) (z_handles z) (z_slot z) (z_stop z) (z_watcher z)
  (z_session z) (z_tasks z) (z_counter z).
Definition with_registry (z : Zenoh) x := MkZenoh (z_options z) (z_health z) x (z_out z) (z_in z)
  (z_reply_publishers z) (z_correlation z) (z_sealed z) (z_handles z) (z_slot z) (z_stop z) (z_watcher z)
  (z_session z) (z_tasks z) (z_counter z).
Definition with_out (z : Zenoh) x := MkZenoh (z_options z) (z_health z) (z_registry z) x (z_in z)
  (z_reply_publishers z) (z_correlation z) (z_sealed z) (z_handles z) (z_slot z) (z_stop z) (z_watcher z)
  (z_session z) (z_tasks z) (z_counter z).
Definition with_in (z : Zenoh) x := MkZenoh (z_options z) (z_health z) (z_registry z) (z_out z) x
  (z_reply_publishers z) (z_correlation z) (z_sealed z) (z_handles z) (z_slot z) (z_stop z) (z_watcher z)
  (z_session z) (z_tasks z) (z_counter z).
Definition with_reply_publishers (z : Zenoh) x := MkZenoh (z_options z) (z_health z) (z_registry z) (z_out z)
  (z_in z) x (z_correlation z) (z_sealed z) (z_handles z) (z_slot z) (z_stop z) (z_watcher z)
  (z_session z) (z_tasks z) (z_counter z).
Definition with_correlation (z : Zenoh) x := MkZenoh (z_options z) (z_health z) (z_registry z) (z_out z)
  (z_in z) (z_reply_publishers z) x (z_sealed z) (z_handles z) (z_slot z) (z_stop z) (z_watcher z)
  (z_session z) (z_tasks z) (z_counter z).
Definition with_sealed (z : Zenoh) x := MkZenoh (z_options z) (z_health z) (z_registry z) (z_out z)
  (z_in z) (z_reply_publishers z) (z_correlation z) x (z_handles z) (z_slot z) (z_stop z) (z_watcher z)
  (z_session z) (z_tasks z) (z_counter z).
Definition with_handles (z : Zenoh) x := MkZenoh (z_options z) (z_health z) (z_registry z) (z_out z)
  (z_in z) (z_reply_publishers z) (z_correlation z) (z_sealed z) x (z_slot z) (z_stop z) (z_watcher z)
  (z_session z) (z_tasks z) (z_counter z).
Definition with_session (z : Zenoh) x := MkZenoh (z_options z) (z_health z) (z_registry z) (z_out z)
  (z_in z) (z_reply_publishers z) (z_correlation z) (z_sealed z) (z_handles z) (z_slot z) (z_stop z)
  (z_watcher z) x (z_tasks z) (z_counter z).
Definition with_tasks (z : Zenoh) x := MkZenoh (z_options z) (z_health z) (z_registry z) (z_out z)
  (z_in z) (z_reply_publishers z) (z_correlation z) (z_sealed z) (z_handles z) (z_slot z) (z_stop z)
  (z_watcher z) (z_session z) x (z_counter z).
Definition with_counter (z : Zenoh) x := MkZenoh (z_options z) (z_health z) (z_registry z) (z_out z)
  (z_in z) (z_reply_publishers z) (z_correlation z) (z_sealed z) (z_handles z) (z_slot z) (z_stop z)
  (z_watcher z) (z_session z) (z_tasks z) x.
Definition with_run (z : Zenoh) slot stop w := MkZenoh (z_options z) (z_health z) (z_registry z) (z_out z)
  (z_in z) (z_reply_publishers z) (z_correlation z) (z_sealed z) (z_handles z) slot stop w
  (z_session z) (z_tasks z) (z_counter z).

(** ** Calling the closures *)

(** A publish on a port; every captured port exists. *)
Definition publish (z : Zenoh) (k : key) (id : QueryId) (bytes : list Z) (now : Z) : Zenoh :=
  match z_in z !! k with
  | None => z
  | Some p =>
      let '(p, h, _) := publish_with_correlation p (z_health z) id bytes now in
      with_health (with_in z (<[k := p]> (z_in z))) h
  end.
(** The zero id of uncorrelated messages. *)
Definition no_id : QueryId := replicate 32 0.
(** [on_reply] and the sink of a reader. *)
Definition call_sink (z : Zenoh) (s : PayloadSink) (bytes : list Z) (now : Z) : Zenoh :=
  match s with
  | SinkInbound k => publish z k no_id bytes now
  | SinkReply id k =>
      if bool_decide (id ∈ z_sealed z) then z
      else publish z k id (discriminator FData :: bytes) now
  end.
(** Claiming the only terminator of a query, and publishing it. *)
Definition claim (z : Zenoh) (id : QueryId) (k : key) (t : FrameKind) (now : Z) : Zenoh :=
  if bool_decide (id ∈ z_sealed z) then z
  else publish (with_sealed z ({[id]} ∪ z_sealed z)) k id [discriminator t] now.
(** [on_done]. *)
Definition call_done (z : Zenoh) (d : DoneCallback) (now : Z) : Zenoh :=
  match d with DoneReply id k => claim z id k EndOfStream now end.
(** The callback of [create_queryable]. *)
Definition call_query (z : Zenoh) (q : QuerySink) (req : list Z) (r : Replier) (now : Z) : Zenoh :=
  match q with
  | OnQuery k =>
      let '(counter, id) := mint_query_id (z_counter z) in
      let z := with_correlation (with_counter z counter) (<[id := r]> (z_correlation z)) in
      publish z k id req now
  end.
Definition set_cells (s : MockZenohSession) (c : list (nat * option DoneCallback)) : MockZenohSession :=
  MkSession (s_state s) (s_subscribers s) (s_next_sub_id s) (s_queryables s) (s_next_qable_id s)
    (s_query_hangs s) (s_hung s) (s_peer_count s) c.
Definition set_hung (s : MockZenohSession) (h : gmap string (PayloadSink * DoneCallback)) : MockZenohSession :=
  MkSession (s_state s) (s_subscribers s) (s_next_sub_id s) (s_queryables s) (s_next_qable_id s)
    (s_query_hangs s) h (s_peer_count s) (s_cells s).
Definition replier_reply (z : Zenoh) (r : Replier) (body : list Z) (now : Z) : Zenoh :=
  call_sink z (rp_reply r) body now.
(** The last queryable to terminate takes and fires the callback. *)
Definition replier_terminate (z : Zenoh) (r : Replier) (now : Z) : Zenoh :=
  match s_cells (z_session z) !! rp_cell r with
  | None => z
  | Some (n, cb) =>
      let fire := bool_decide (n = 1%nat) in
      let cells := <[rp_cell r := (pred n, if fire then None else cb)]> (s_cells (z_session z)) in
      let z := with_session z (set_cells (z_session z) cells) in
      match cb with Some d => if fire then call_done z d now else z | None => z end
  end.

(** ** The mock session *)

Fixpoint call_sinks (z : Zenoh) (ss : list PayloadSink) (payload : list Z) (now : Z) : Zenoh :=
  match ss with
  | [] => z
  | s :: ss => call_sinks (call_sink z s payload now) ss payload now
  end.
Definition session_publish (z : Zenoh) (k : string) (payload : list Z) (now : Z) :
  Zenoh * option SessionError :=
  match s_state (z_session z) with
  | SAlive => (call_sinks z (snd <$> default [] (s_subscribers (z_session z) !! k)) payload now, None)
  | _ => (z, Some NotAlive)
  end.
Definition session_subscribe (s : MockZenohSession) (k : string) (sink : PayloadSink) :
  MockZenohSession * AnyHandle :=
  let id := s_next_sub_id s in
  (MkSession (s_state s) (<[k := default [] (s_subscribers s !! k) ++ [(id, sink)]]> (s_subscribers s))
     (wrap 64 (id + 1)) (s_queryables s) (s_next_qable_id s) (s_query_hangs s) (s_hung s)
     (s_peer_count s) (s_cells s), SubscriptionGuard id k).
Definition session_declare_queryable (s : MockZenohSession) (k : string) (q : QuerySink) :
  MockZenohSession * AnyHandle :=
  let id := s_next_qable_id s in
  (MkSession (s_state s) (s_subscribers s) (s_next_sub_id s)
     (<[k := default [] (s_queryables s !! k) ++ [(id, q)]]> (s_queryables s)) (wrap 64 (id + 1))
     (s_query_hangs s) (s_hung s) (s_peer_count s) (s_cells s), QueryableGuard id k).
(** The drop of a guard: [retain], and no empty entry is kept. *)
Definition without {A} (m : gmap string (list (Z * A))) (id : Z) (k : string) : gmap string (list (Z * A)) :=
  match m !! k with
  | None => m
  | Some es =>
      match List.filter (λ e, negb (e.1 =? id)) es with
      | [] => delete k m
      | es => <[k := es]> m
      end
  end.
Definition drop_handle (s : MockZenohSession) (h : AnyHandle) : MockZenohSession :=
  match h with
  | SubscriptionGuard id k =>
      MkSession (s_state s) (without (s_subscribers s) id k) (s_next_sub_id s) (s_queryables s)
        (s_next_qable_id s) (s_query_hangs s) (s_hung s) (s_peer_count s) (s_cells s)
  | QueryableGuard id k =>
      MkSession (s_state s) (s_subscribers s) (s_next_sub_id s) (without (s_queryables s) id k)
        (s_next_qable_id s) (s_query_hangs s) (s_hung s) (s_peer_count s) (s_cells s)
  end.

(** What the future of a query has come to at its first poll. *)
Inductive query_poll := Pending | Ready (r : option SessionError).
Fixpoint call_queryables (z : Zenoh) (qs : list QuerySink) (payload : list Z) (r : Replier) (now : Z) : Zenoh :=
  match qs with
  | [] => z
  | q :: qs => call_queryables (call_query z q payload r now) qs payload r now
  end.
Definition session_query (z : Zenoh) (k : string) (payload : list Z) (on_reply : PayloadSink)
    (on_done : DoneCallback) (now : Z) : Zenoh * query_poll :=
  match s_state (z_session z) with
  | SAlive =>
      if s_query_hangs (z_session z) then
        (with_session z (set_hung (z_session z) (<[k := (on_reply, on_done)]> (s_hung (z_session z)))), Pending)
      else
        match snd <$> default [] (s_queryables (z_session z) !! k) with
        | [] => (call_done z on_done now, Ready None)
        | qs =>
            let cells := s_cells (z_session z) in
            let z := with_session z (set_cells (z_session z) (cells ++ [(length qs, Some on_done)])) in
            (call_queryables z qs payload (MkReplier on_reply (length cells)) now, Ready None)
        end
  | _ => (z, Ready (Some NotAlive))
  end.
Definition force_late_reply (z : Zenoh) (k : string) (payload : list Z) (now : Z) : Zenoh * bool :=
  match s_hung (z_session z) !! k with
  | None => (z, false)
  | Some (on_reply, on_done) =>
      let z := with_session z (set_hung (z_session z) (delete k (s_hung (z_session z)))) in
      (call_done (call_sink z on_reply payload now) on_done now, true)
  end.
(** The knobs of the mock. *)
Definition set_knobs (s : MockZenohSession) (st : SessionState) (hangs : bool) (peers : N) : MockZenohSession :=
  MkSession st (s_subscribers s) (s_next_sub_id s) (s_queryables s) (s_next_qable_id s) hangs (s_hung s)
    peers (s_cells s).

(** ** The dispatcher *)

Definition MAX_DRAIN_SCRATCH : Z := 4096.
(** [while let Ok(Some(..))]: what cannot be read is taken, too, and ends the loop. *)
Fixpoint drain_loop (f : Zenoh → QueryId → list Z → Z → Zenoh) (z : Zenoh) (pending : list envelope) :
  Zenoh * list envelope :=
  match pending with
  | [] => (z, [])
  | e :: pending =>
      match drain e MAX_DRAIN_SCRATCH with
      | inl (Some (id, bytes, reserved)) => drain_loop f (f z id bytes reserved) pending
      | _ => (z, pending)
      end
  end.
Definition drain_port (f : Zenoh → QueryId → list Z → Z → Zenoh) (z : Zenoh) (k : key) : Zenoh :=
  match z_out z !! k with
  | None => z
  | Some p =>
      let '(z, rest) := drain_loop f z (o_pending p) in
      with_out z (<[k := set_pending p rest]> (z_out z))
  end.
Definition effective_timeout (z : Zenoh) (reserved : Z) : Z :=
  if reserved =? 0 then query_timeout (z_options z) else reserved * 1000000.
(** [spawn_query_with_timeout] for a drained query. *)
Definition spawn_query (c : RegisteredChannel) (z : Zenoh) (id : QueryId) (bytes : list Z) (reserved : Z) : Zenoh :=
  match z_reply_publishers z !! descriptor_name c with
  | None => z
  | Some k =>
      with_tasks z (z_tasks z ++ [TSpawned (key_expr (routing c)) bytes id (effective_timeout z reserved) k])
  end.
Definition forward_reply (now : Z) (z : Zenoh) (id : QueryId) (bytes : list Z) (reserved : Z) : Zenoh :=
  match bytes with
  | [] => z
  | b :: body =>
      match from_byte b, z_correlation z !! id with
      | Some FData, Some r => replier_reply z r body now
      | Some EndOfStream, Some r =>
          replier_terminate (with_correlation z (delete id (z_correlation z))) r now
      | _, _ => z
      end
  end.
Definition drain_entry (now : Z) (z : Zenoh) (c : RegisteredChannel) : Zenoh :=
  let k := (descriptor_name c, direction c) in
  match direction c with
  | Outbound =>
      drain_port (λ z _ bytes _, fst (session_publish z (key_expr (routing c)) bytes now)) z k
  | QuerierOut => drain_port (spawn_query c) z k
  | QueryableReplyOut => drain_port (forward_reply now) z k
  | _ => z
  end.
Definition drain_outbound_once (z : Zenoh) (now : Z) : Zenoh := foldl (drain_entry now) z (z_registry z).
(** A turn of [dispatcher_loop], which is spawned together with the watcher. *)
Definition dispatcher_turn (z : Zenoh) (now : Z) : Zenoh :=
  match z_watcher z with
  | WIdle => z
  | _ => if z_stop z then z else drain_outbound_once z now
  end.

(** The task of a query: up to its wait, the expired timer, the eviction. *)
Definition task_run (z : Zenoh) (i : nat) (now : Z) : Zenoh :=
  match z_tasks z !! i with
  | Some (TSpawned k payload id _ rk) =>
      let '(z, r) := session_query z k payload (SinkReply id rk) (DoneReply id rk) now in
      with_tasks z (<[i := match r with Pending => TWaiting id rk | Ready _ => TCompleted id end]> (z_tasks z))
  | _ => z
  end.
Definition task_elapse (z : Zenoh) (i : nat) (now : Z) : Zenoh :=
  match z_tasks z !! i with
  | Some (TWaiting id rk) =>
      let z := claim z id rk FTimeout now in with_tasks z (<[i := TSealed id]> (z_tasks z))
  | _ => z
  end.
Definition task_evict (z : Zenoh) (i : nat) : Zenoh :=
  match z_tasks z !! i with
  | Some (TSealed id) =>
      with_tasks (with_sealed z (z_sealed z ∖ {[id]})) (<[i := TEvicted id]> (z_tasks z))
  | _ => z
  end.

(** ** Creating channels *)

(** What the environment answers: the first error of the descriptor and the ports, the
    size of the channel, which sends are accepted, whether the runtime is alive. *)
Record create_env := MkEnv {
  e_ports : option ConnectorError;
  e_max : Z;
  e_in : nat → bool;
  e_out : nat → bool;
  e_gateway : bool;
}.
(** A service that exists is opened. *)
Definition open_in (z : Zenoh) (k : key) (e : create_env) : Zenoh :=
  match z_in z !! k with
  | Some _ => z
  | None =>
      with_in z (<[k := MkPort (Nat.max 1 (inbound_bridge_capacity (z_options z))) 0 0
                          (inbound_drop_threshold (z_options z)) (e_max e) (e_in e) 0 [] 0]> (z_in z))
  end.
Definition open_out (z : Zenoh) (k : key) (e : create_env) : Zenoh :=
  match z_out z !! k with
  | Some _ => z
  | None => with_out z (<[k := MkOut (e_max e) (e_out e) 0 []]> (z_out z))
  end.
Definition register_all (z : Zenoh) (name : string) (r : ZenohRouting) (ds : list ChannelDirection) :
  Zenoh * option ConnectorError :=
  foldl (λ s d,
           match s with
           | (z, Some err) => (z, Some err)
           | (z, None) =>
               match register (z_registry z) name r d with
               | inr err => (z, Some err)
               | inl g => (with_registry z g, None)
               end
           end) (z, None) ds.
Definition create_writer (z : Zenoh) (name : string) (r : ZenohRouting) (e : create_env) :
  Zenoh * option ConnectorError :=
  match e_ports e with
  | Some err => (z, Some err)
  | None => register_all (open_out z (name, Outbound) e) name r [Outbound]
  end.
(** The session out of its slot and the runtime's handle. *)
Definition session_ready (z : Zenoh) (e : create_env) : option ConnectorError :=
  if negb (z_slot z) then Some (Stack "session already taken")
  else if negb (e_gateway e) then Some (Stack "gateway shut down") else None.
Definition create_reader (z : Zenoh) (name : string) (r : ZenohRouting) (e : create_env) :
  Zenoh * option ConnectorError :=
  match e_ports e with
  | Some err => (z, Some err)
  | None =>
      match session_ready z e with
      | Some err => (z, Some err)
      | None =>
          let k := (name, Inbound) in
          let z := open_in z k e in
          let '(s, h) := session_subscribe (z_session z) (key_expr r) (SinkInbound k) in
          register_all (with_handles (with_session z s) (z_handles z ++ [h])) name r [Inbound]
      end
  end.
Definition create_querier (z : Zenoh) (name : string) (r : ZenohRouting) (e : create_env) :
  Zenoh * option ConnectorError :=
  match e_ports e with
  | Some err => (z, Some err)
  | None =>
      let k := (name, QuerierReplyIn) in
      let z := open_in (open_out z (name, QuerierOut) e) k e in
      let z := with_reply_publishers z (<[name := k]> (z_reply_publishers z)) in
      register_all z name r [QuerierOut; QuerierReplyIn]
  end.
Definition create_queryable (z : Zenoh) (name : string) (r : ZenohRouting) (e : create_env) :
  Zenoh * option ConnectorError :=
  match e_ports e with
  | Some err => (z, Some err)
  | None =>
      match session_ready z e with
      | Some err => (z, Some err)
      | None =>
          let k := (name, QueryableQueryIn) in
          let z := open_out (open_in z k e) (name, QueryableReplyOut) e in
          let '(s, h) := session_declare_queryable (z_session z) (key_expr r) (OnQuery k) in
          register_all (with_handles (with_session z s) (z_handles z ++ [h])) name r
            [QueryableQueryIn; QueryableReplyOut]
      end
  end.

(** [register_with]; [item] is what adding the heartbeat item returns. *)
Definition register_with (z : Zenoh) (gateway : bool) (item : option ConnectorError) :
  Zenoh * option ConnectorError :=
  if negb (z_slot z) then (z, Some (Stack "register_with already called"))
  else if negb gateway then (with_run z false (z_stop z) (z_watcher z), Some (Stack "gateway shut down"))
  else (with_run z false (z_stop z) WSpawned, item).
Definition stop_dispatcher (z : Zenoh) : Zenoh := with_run z (z_slot z) true (z_watcher z).
Definition watcher_turn (z : Zenoh) (now : Z) : Zenoh :=
  let s := z_session z in
  let '(h, w) := watcher_poll (z_health z) (z_watcher z) (z_stop z) (s_state s) (s_peer_count s)
                   (min_peers (z_options z)) now in
  with_health (with_run z (z_slot z) (z_stop z) w) h.
(** The bag of handles goes with the connector. *)
Definition drop_handles (z : Zenoh) : Zenoh :=
  with_handles (with_session z (foldl drop_handle (z_session z) (z_handles z))) [].

(** ** The handles of the plugin *)

(** The codec is a parameter; [encode v n] writes to a buffer of [n] bytes. *)
Class PayloadCodec (T : Type) := {
  encode : T → Z → list Z + ConnectorError;
  decode_value : list Z → T + ConnectorError;
}.

Definition timeout_ms (timeout : Z) : Z :=
  let ms := timeout / 1000000 in if ms <=? 2 ^ 32 - 1 then ms else 2 ^ 32 - 1.
Definition out_max (z : Zenoh) (k : key) : Z := match z_out z !! k with Some p => o_max p | None => 0 end.
Definition send_on (z : Zenoh) (k : key) (bytes : list Z) (id : QueryId) (reserved : Z) :
  Zenoh * option ConnectorError :=
  match z_out z !! k with
  | None => (z, Some (Stack "send"))
  | Some p =>
      let '(p, r) := out_send p bytes id reserved in (with_out z (<[k := p]> (z_out z)), r)
  end.
Definition recv_on (z : Zenoh) (k : key) : Zenoh * option (QueryId * list Z) :=
  match z_in z !! k with
  | None => (z, None)
  | Some p => let '(p, m) := port_recv p in (with_in z (<[k := p]> (z_in z)), m)
  end.

(** [send_inner], given what encoding into the scratch buffer returns. *)
Definition querier_send (z : Zenoh) (name : string) (encoded : list Z + ConnectorError) (timeout : Z) :
  Zenoh * (QueryId + ConnectorError) :=
  let '(counter, id) := mint_query_id (z_counter z) in
  let z := with_counter z counter in
  match encoded with
  | inr e => (z, inr e)
  | inl bytes =>
      match send_on z (name, QuerierOut) bytes id (timeout_ms timeout) with
      | (z, Some e) => (z, inr e)
      | (z, None) => (z, inl id)
      end
  end.
Inductive QuerierEvent (R : Type) :=
| Reply (id : QueryId) (value : R)
| EndOfStreamEvent (id : QueryId)
| TimeoutEvent (id : QueryId).
Arguments Reply {R}. Arguments EndOfStreamEvent {R}. Arguments TimeoutEvent {R}.
Definition querier_try_recv {R} `{PayloadCodec R} (z : Zenoh) (name : string) :
  Zenoh * (option (QuerierEvent R) + ConnectorError) :=
  match recv_on z (name, QuerierReplyIn) with
  | (z, None) => (z, inl None)
  | (z, Some (id, [])) => (z, inl None)
  | (z, Some (id, b :: body)) =>
      (z, match from_byte b with
          | Some FData => match decode_value body with inl v => inl (Some (Reply id v)) | inr e => inr e end
          | Some EndOfStream => inl (Some (EndOfStreamEvent id))
          | Some FTimeout => inl (Some (TimeoutEvent id))
          | None => inr (Stack "invalid reply-frame discriminator")
          end)
  end.
Definition queryable_try_recv {Q} `{PayloadCodec Q} (z : Zenoh) (name : string) :
  Zenoh * (option (QueryId * Q) + ConnectorError) :=
  match recv_on z (name, QueryableQueryIn) with
  | (z, None) => (z, inl None)
  | (z, Some (id, bytes)) =>
      (z, match decode_value bytes with inl q => inl (Some (id, q)) | inr e => inr e end)
  end.
(** Given what encoding into the scratch buffer behind the discriminator returns. *)
Definition queryable_reply (z : Zenoh) (name : string) (id : QueryId) (encoded : list Z + ConnectorError) :
  Zenoh * option ConnectorError :=
  let k := (name, QueryableReplyOut) in
  if out_max z k =? 0 then (z, Some (PayloadOverflow 1 0))
  else
    match encoded with
    | inr e => (z, Some e)
    | inl bytes => send_on z k (discriminator FData :: bytes) id 0
    end.
(** An empty scratch buffer is indexed. *)
Definition queryable_terminate (z : Zenoh) (name : string) (id : QueryId) : res (Zenoh * option ConnectorError) :=
  let k := (name, QueryableReplyOut) in
  if out_max z k =? 0 then Panic else Ok (send_on z k [discriminator EndOfStream] id 0).

(** ** Runs *)

Inductive op :=
| CreateWriter (name : string) (r : ZenohRouting) (e : create_env)
| CreateReader (name : string) (r : ZenohRouting) (e : create_env)
| CreateQuerier (name : string) (r : ZenohRouting) (e : create_env)
| CreateQueryable (name : string) (r : ZenohRouting) (e : create_env)
| RegisterWith (gateway : bool) (item : option ConnectorError)
| StopDispatcher
| WatcherTurn (now : Z)
| DispatcherTurn (now : Z)
| TaskRun (i : nat) (now : Z)
| TaskElapse (i : nat) (now : Z)
| TaskEvict (i : nat)
| Write (name : string) (bytes : list Z)
| QuerierSend (name : string) (encoded : list Z + ConnectorError) (timeout : Z)
| QueryableReply (name : string) (id : QueryId) (encoded : list Z + ConnectorError)
| QueryableTerminate (name : string) (id : QueryId)
| Receive (k : key)
| Unreadable (k : key) (crc : bool)
| ExternalPublish (k : string) (payload : list Z) (now : Z)
| LateReply (k : string) (payload : list Z) (now : Z)
| Knobs (st : SessionState) (hangs : bool) (peers : N)
| DropHandles.

Definition do_op (z : Zenoh) (o : op) : res Zenoh :=
  match o with
  | CreateWriter name r e => Ok (fst (create_writer z name r e))
  | CreateReader name r e => Ok (fst (create_reader z name r e))
  | CreateQuerier name r e => Ok (fst (create_querier z name r e))
  | CreateQueryable name r e => Ok (fst (create_queryable z name r e))
  | RegisterWith gw item => Ok (fst (register_with z gw item))
  | StopDispatcher => Ok (stop_dispatcher z)
  | WatcherTurn now => Ok (watcher_turn z now)
  | DispatcherTurn now => Ok (dispatcher_turn z now)
  | TaskRun i now => Ok (task_run z i now)
  | TaskElapse i now => Ok (task_elapse z i now)
  | TaskEvict i => Ok (task_evict z i)
  | Write name bytes => Ok (fst (send_on z (name, Outbound) bytes no_id 0))
  | QuerierSend name enc timeout => Ok (fst (querier_send z name enc timeout))
  | QueryableReply name id enc => Ok (fst (queryable_reply z name id enc))
  | QueryableTerminate name id => fst <$> queryable_terminate z name id
  | Receive k => Ok (fst (recv_on z k))
  | Unreadable k crc =>
      Ok (with_out z (alter (λ p, set_pending p (o_pending p ++ [if crc : bool then BadCrc else ReceiveError]))
                        k (z_out z)))
  | ExternalPublish k payload now => Ok (fst (session_publish z k payload now))
  | LateReply k payload now => Ok (fst (force_late_reply z k payload now))
  | Knobs st hangs peers => Ok (with_session z (set_knobs (z_session z) st hangs peers))
  | DropHandles => Ok (drop_handles z)
  end.
Fixpoint run (z : Zenoh) (os : list op) : res Zenoh :=
  match os with
  | [] => Ok z
  | o :: os => z ← do_op z o; run z os
  end.
End ZenohConn.
