(* ===== verification/ZenohConnOk.v ===== *)
(** * The reply streams of the Zenoh connector

    In every reachable state the frames published for a query are data chunks, followed
    by at most one terminator, until its seal is evicted: the claim under the lock of
    the sealed set makes the end of the stream and the timeout exclude each other. *)

From stdpp Require Import base gmap fin_maps strings list.
From Stdlib Require Import ZArith Lia.
From S2P Require Import Prelude ZenohWire ZenohConn.

Module ZenohConnOk.
Import ZenohWire ZenohConn.

(** ** Streams *)

Definition is_data (f : list Z) : Prop := ∃ body, f = discriminator FData :: body.
Definition is_end (f : list Z) : Prop := f = [discriminator EndOfStream] ∨ f = [discriminator FTimeout].
Definition open_stream (fs : list (list Z)) : Prop := Forall is_data fs.
Definition ended (fs : list (list Z)) : Prop := ∃ ds t, fs = ds ++ [t] ∧ Forall is_data ds ∧ is_end t.
(** The frames a port has published for a query. *)
Definition frames (p : Port) (id : QueryId) : list (list Z) :=
  snd <$> filter (λ m, m.1 = id) (p_published p).
Definition accepts (ports : gmap key Port) : Prop :=
  map_Forall (λ _ p, (∀ n, p_ok p n = true) ∧ 1 ≤ p_max p) ports.

Lemma data_not_end f : is_data f → ¬ is_end f.
Proof. unfold discriminator. intros [b ->] [H|H]; cbv in H; discriminate. Qed.
Lemma open_not_ended fs : open_stream fs → ¬ ended fs.
Proof.
  unfold open_stream. intros Ho (ds & t & -> & _ & Ht). apply Forall_app in Ho as [_ Ho]. rewrite Forall_singleton in Ho.
  exact (data_not_end t Ho Ht).
Qed.
Lemma open_snoc fs b : open_stream fs → open_stream (fs ++ [discriminator FData :: b]).
Proof. intros ?. apply Forall_app; split; [done|]. apply Forall_singleton. by exists b. Qed.
Lemma open_end fs t : open_stream fs → is_end t → ended (fs ++ [t]).
Proof. intros. by exists fs, t. Qed.

(** ** The invariant *)

Definition D (z : Zenoh) : gset key := dom (z_in z).
Definition reply_ok (d : gset key) (k : key) : Prop := k.2 = QuerierReplyIn ∧ k ∈ d.
Definition sink_ok (d : gset key) (s : PayloadSink) : Prop :=
  match s with SinkInbound k => k.2 = Inbound | SinkReply _ k => reply_ok d k end.
Definition done_ok (d : gset key) (c : DoneCallback) : Prop := match c with DoneReply _ k => reply_ok d k end.
Definition query_ok (q : QuerySink) : Prop := match q with OnQuery k => k.2 = QueryableQueryIn end.
Definition task_ok (d : gset key) (t : Task) : Prop :=
  match t with TSpawned _ _ _ _ k | TWaiting _ k => reply_ok d k | _ => True end.
Definition cell_ok (d : gset key) (c : nat * option DoneCallback) : Prop :=
  match c.2 with Some x => done_ok d x | None => True end.
Definition port_ok (p : Port) : Prop := p_queued p = 0%nat ∧ (1 ≤ p_capacity p)%nat.
Record session_ok (d : gset key) (s : MockZenohSession) : Prop := {
  so_subs : map_Forall (λ _ l, Forall (λ e, sink_ok d e.2) l) (s_subscribers s);
  so_qabl : map_Forall (λ _ l, Forall (λ e, query_ok e.2) l) (s_queryables s);
  so_hung : map_Forall (λ _ x, sink_ok d x.1 ∧ done_ok d x.2) (s_hung s);
  so_cells : Forall (cell_ok d) (s_cells s);
}.
(** The streams of one query over all ports. *)
Record streams_ok (ports : gmap key Port) (sealed : gset QueryId) (id : QueryId) : Prop := {
  st_shape k p : ports !! k = Some p → k.2 = QuerierReplyIn →
    open_stream (frames p id) ∨ id ∈ sealed ∧ ended (frames p id);
  st_one k1 p1 k2 p2 : ports !! k1 = Some p1 → ports !! k2 = Some p2 →
    k1.2 = QuerierReplyIn → k2.2 = QuerierReplyIn → ended (frames p1 id) → ended (frames p2 id) → k1 = k2;
  st_end : accepts ports → id ∈ sealed →
    ∃ k p, ports !! k = Some p ∧ k.2 = QuerierReplyIn ∧ ended (frames p id);
}.
Record inv (z : Zenoh) : Prop := {
  iv_session : session_ok (D z) (z_session z);
  iv_corr : map_Forall (λ _ r, sink_ok (D z) (rp_reply r)) (z_correlation z);
  iv_tasks : Forall (task_ok (D z)) (z_tasks z);
  iv_pubs : map_Forall (λ _ k, reply_ok (D z) k) (z_reply_publishers z);
  iv_ports : map_Forall (λ _ p, port_ok p) (z_in z);
  iv_streams id : TEvicted id ∉ z_tasks z → streams_ok (z_in z) (z_sealed z) id;
}.

Lemma reply_ok_mono d d' k : d ⊆ d' → reply_ok d k → reply_ok d' k.
Proof. intros ? [? ?]. split; [done|set_solver]. Qed.
Lemma sink_ok_mono d d' s : d ⊆ d' → sink_ok d s → sink_ok d' s.
Proof. destruct s; simpl; [done|]. apply reply_ok_mono. Qed.
Lemma done_ok_mono d d' c : d ⊆ d' → done_ok d c → done_ok d' c.
Proof. destruct c; simpl. apply reply_ok_mono. Qed.
Lemma session_ok_mono d d' s : d ⊆ d' → session_ok d s → session_ok d' s.
Proof.
  intros Hd [H1 H2 H3 H4]. split; [|done| |].
  - eapply map_Forall_impl; [exact H1|]. intros ? l Hl. eapply Forall_impl; [exact Hl|]. intros ? ?. by eapply sink_ok_mono.
  - eapply map_Forall_impl; [exact H3|]. intros ? ? [? ?]. split; [by eapply sink_ok_mono|by eapply done_ok_mono].
  - eapply Forall_impl; [exact H4|]. intros [n [c|]]; [|done]. apply (done_ok_mono _ _ c Hd).
Qed.
Lemma task_ok_mono d d' t : d ⊆ d' → task_ok d t → task_ok d' t.
Proof. intros Hd. destruct t; simpl; try done; by apply reply_ok_mono. Qed.

(** ** Publishing *)

(** The port after a publish. *)
Definition after_publish (p p' : Port) (id : QueryId) (bytes : list Z) : Prop :=
  p_ok p' = p_ok p ∧ p_max p' = p_max p ∧ (port_ok p → port_ok p') ∧
  (p_published p' = p_published p ∨ p_published p' = p_published p ++ [(id, bytes)]) ∧
  (port_ok p → (∀ n, p_ok p n = true) → len bytes ≤ p_max p → p_published p' = p_published p ++ [(id, bytes)]).
Lemma publish_port p h id bytes now p' h' r : publish_with_correlation p h id bytes now = (p', h', r) →
  after_publish p p' id bytes.
Proof.
  unfold publish_with_correlation, bridge_try_send, after_publish, port_ok.
  destruct (Nat.ltb_spec (p_queued p) (p_capacity p)) as [Hlt|Hge]; simpl.
  - unfold port_send. simpl. destruct (Z.gtb_spec (len bytes) (p_max p)).
    { intros [= <- <- <-]. simpl. split_and!; try done; [by left|lia]. }
    intros [= <- <- <-]. simpl. split_and!; try done.
    + destruct (p_ok p (p_sends p)); [by right|by left].
    + intros _ Hok _. by rewrite Hok.
  - intros [= <- <- <-]. simpl. split_and!; try done; [by left|]. intros [? ?]. lia.
Qed.
Lemma publish_spec z k id bytes now :
  (z_in z !! k = None ∧ publish z k id bytes now = z) ∨
  ∃ p p' h, z_in z !! k = Some p ∧ after_publish p p' id bytes ∧
    publish z k id bytes now = with_health (with_in z (<[k := p']> (z_in z))) h.
Proof.
  unfold publish. destruct (z_in z !! k) as [p|] eqn:E; [|by left]. right.
  destruct (publish_with_correlation p (z_health z) id bytes now) as [[p' h] r] eqn:Ep.
  exists p, p', h. split_and!; [done| |done]. by eapply publish_port.
Qed.

Lemma frames_after p p' id bytes j : after_publish p p' id bytes →
  frames p' j = frames p j ∨ j = id ∧ frames p' j = frames p j ++ [bytes].
Proof.
  intros (_ & _ & _ & [E|E] & _); unfold frames; rewrite E; [by left|].
  rewrite filter_app, fmap_app. rewrite filter_cons. simpl. case_decide; simpl.
  - by right.
  - left. by rewrite app_nil_r.
Qed.

Section publish_streams.
Context (ports : gmap key Port) (sealed : gset QueryId) (k : key) (p p' : Port) (id : QueryId) (bytes : list Z).
Context (Hp : ports !! k = Some p) (Ha : after_publish p p' id bytes).
#[local] Abbreviation ports' := (<[k := p']> ports).

Lemma accepts_after : accepts ports' → accepts ports.
Proof.
  intros H i q Hi. destruct (decide (i = k)) as [->|Hne].
  - simplify_eq. destruct (H k p') as [H1 H2]; [by rewrite lookup_insert_eq|]. destruct Ha as (E1 & E2 & _). by rewrite <- E1, <- E2.
  - apply (H i). by rewrite lookup_insert_ne.
Qed.
Lemma lookup_after i q : ports' !! i = Some q →
  ∃ q0, ports !! i = Some q0 ∧ (i = k ∧ q = p' ∧ q0 = p ∨ i ≠ k ∧ q = q0).
Proof.
  destruct (decide (i = k)) as [->|Hne].
  - rewrite lookup_insert_eq. intros [= <-]. exists p. auto.
  - rewrite lookup_insert_ne by done. intros Hq. exists q. auto.
Qed.
(** Another query, or another kind of port. *)
Lemma streams_other j : j ≠ id ∨ k.2 ≠ QuerierReplyIn → streams_ok ports sealed j → streams_ok ports' sealed j.
Proof.
  intros Hj [H1 H2 H3].
  assert (Hf : ∀ i q q0, ports' !! i = Some q → ports !! i = Some q0 → i.2 = QuerierReplyIn → frames q j = frames q0 j).
  { intros i q q0 Hq Hq0 Hi. destruct (lookup_after i q Hq) as (q1 & Hq1 & Hc). assert (q0 = q1) as -> by congruence.
    destruct Hc as [(-> & -> & ->)|[_ ->]]; [|done]. destruct (frames_after p p' id bytes j Ha) as [?|[-> _]]; [done|]. by destruct Hj. }
  split.
  - intros i q Hq Hi. destruct (lookup_after i q Hq) as (q0 & Hq0 & _). rewrite (Hf i q q0 Hq Hq0 Hi). by apply (H1 i).
  - intros i1 q1 i2 q2 Hq1 Hq2 Hi1 Hi2. destruct (lookup_after i1 q1 Hq1) as (r1 & Hr1 & _).
    destruct (lookup_after i2 q2 Hq2) as (r2 & Hr2 & _). rewrite (Hf i1 q1 r1), (Hf i2 q2 r2) by done. by apply (H2 i1 r1 i2 r2).
  - intros Hacc Hs. destruct (H3 (accepts_after Hacc) Hs) as (i & q & Hq & Hi & He).
    destruct (decide (i = k)) as [->|Hne].
    + exists k, p'. split; [by rewrite lookup_insert_eq|]. split; [done|].
      rewrite (Hf k p' q); [done|by rewrite lookup_insert_eq|done|done].
    + exists i, q. by rewrite lookup_insert_ne.
Qed.
(** A data chunk of an unsealed query. *)
Lemma streams_data b : bytes = discriminator FData :: b → id ∉ sealed → streams_ok ports sealed id → streams_ok ports' sealed id.
Proof.
  intros Hb Hs [H1 H2 H3].
  assert (Ho : ∀ i q, ports' !! i = Some q → i.2 = QuerierReplyIn → open_stream (frames q id)).
  { intros i q Hq Hi. destruct (lookup_after i q Hq) as (q0 & Hq0 & Hc).
    assert (open_stream (frames q0 id)) as Hq0o by (destruct (H1 i q0 Hq0 Hi) as [|[? _]]; done).
    destruct Hc as [(-> & -> & ->)|[_ ->]]; [|done].
    destruct (frames_after p p' id bytes id Ha) as [->|[_ ->]]; [done|]. rewrite Hb. by apply open_snoc. }
  split.
  - intros i q Hq Hi. left. by apply (Ho i).
  - intros i1 q1 i2 q2 Hq1 _ Hi1 _ He. by apply open_not_ended in He; [|apply (Ho i1)].
  - done.
Qed.
(** The terminator of an unsealed query, which is sealed with it. *)
Lemma streams_end : is_end bytes → k.2 = QuerierReplyIn → port_ok p → id ∉ sealed → streams_ok ports sealed id →
  streams_ok ports' ({[id]} ∪ sealed) id.
Proof.
  intros Hb Hk Hok Hs [H1 H2 H3].
  assert (Ho : ∀ i q, ports !! i = Some q → i.2 = QuerierReplyIn → open_stream (frames q id)).
  { intros i q Hq Hi. by destruct (H1 i q Hq Hi) as [|[? _]]. }
  split.
  - intros i q Hq Hi. destruct (lookup_after i q Hq) as (q0 & Hq0 & [(-> & -> & ->)|[_ ->]]); [|left; by apply (Ho i)].
    destruct (frames_after p p' id bytes id Ha) as [->|[_ ->]]; [left; by apply (Ho k)|].
    right. split; [set_solver|]. apply open_end; [by apply (Ho k)|done].
  - assert (Hone : ∀ i q, ports' !! i = Some q → i.2 = QuerierReplyIn → ended (frames q id) → i = k).
    { intros i q Hq Hi He. destruct (lookup_after i q Hq) as (q0 & Hq0 & [(-> & -> & ->)|[_ ->]]); [done|].
      by apply open_not_ended in He; [|apply (Ho i)]. }
    intros i1 q1 i2 q2 Hq1 Hq2 Hi1 Hi2 He1 He2. rewrite (Hone i1 q1), (Hone i2 q2) by done. done.
  - intros Hacc _. exists k, p'. split; [by rewrite lookup_insert_eq|]. split; [done|].
    destruct (Hacc k p') as [Hall Hmax]; [by rewrite lookup_insert_eq|].
    destruct Ha as (E1 & E2 & _ & _ & E5). rewrite E1 in Hall. rewrite E2 in Hmax.
    assert (Hl : len bytes ≤ p_max p) by (destruct Hb as [->| ->]; unfold len; simpl; lia).
    unfold frames. rewrite (E5 Hok Hall Hl), filter_app, fmap_app, filter_cons. simpl. rewrite decide_True by done.
    simpl. apply open_end; [|done]. apply (Ho k p Hp Hk).
Qed.
End publish_streams.

Lemma sealed_other ports sealed id j : j ≠ id → streams_ok ports sealed j → streams_ok ports ({[id]} ∪ sealed) j.
Proof.
  intros Hj [H1 H2 H3]. split; [|done|].
  - intros k p Hp Hk. destruct (H1 k p Hp Hk) as [|[? ?]]; [by left|right; split; [set_solver|done]].
  - intros Hacc Hs. apply H3; [done|set_solver].
Qed.

(** ** The connector's own steps *)

(** The invariant holds, and ports, seals and tasks are only added. *)
Record fwd (z z' : Zenoh) : Prop := {
  fw_inv : inv z';
  fw_dom : D z ⊆ D z';
  fw_sealed : z_sealed z ⊆ z_sealed z';
  fw_tasks : z_tasks z `prefix_of` z_tasks z';
}.
Lemma fwd_refl z : inv z → fwd z z.
Proof. by split. Qed.
Lemma fwd_trans z1 z2 z3 : fwd z1 z2 → fwd z2 z3 → fwd z1 z3.
Proof.
  intros [_ H1 H2 H3] [H4 H5 H6 H7]. split; [done|set_solver|set_solver|by etrans].
Qed.
(** A change outside the invariant. *)
Lemma fwd_same z z' : inv z → z_in z' = z_in z → z_session z' = z_session z → z_correlation z' = z_correlation z →
  z_tasks z' = z_tasks z → z_reply_publishers z' = z_reply_publishers z → z_sealed z' = z_sealed z → fwd z z'.
Proof.
  intros [H1 H2 H3 H4 H5 H6] E1 E2 E3 E4 E5 E6. assert (E : D z' = D z) by (unfold D; by rewrite E1).
  split; [split|by rewrite E|by rewrite E6|by rewrite E4]; rewrite ?E, ?E1, ?E2, ?E3, ?E4, ?E5, ?E6; done.
Qed.
Lemma fwd_session z s : inv z → session_ok (D z) s → fwd z (with_session z s).
Proof. intros [? ? ? ? ? ?] ?. by split. Qed.
Lemma fwd_corr z c : inv z → map_Forall (λ _ r, sink_ok (D z) (rp_reply r)) c → fwd z (with_correlation z c).
Proof. intros [? ? ? ? ? ?] ?. by split. Qed.
Lemma fwd_spawn z t : inv z → task_ok (D z) t → (∀ id, t ≠ TEvicted id) → fwd z (with_tasks z (z_tasks z ++ [t])).
Proof.
  intros [? ? ? ? ? Hs] Ht Hne. split; [split|done|done|by exists [t]]; try done; simpl.
  - apply Forall_app. split; [done|by apply Forall_singleton].
  - intros id Hid. apply Hs. intros ?. apply Hid. apply elem_of_app. by left.
Qed.
(** A task moves on. *)
Lemma inv_task z i t t' : inv z → z_tasks z !! i = Some t → (∀ id, t ≠ TEvicted id) → task_ok (D z) t' →
  inv (with_tasks z (<[i := t']> (z_tasks z))).
Proof.
  intros [? ? ? ? ? Hs] Hi Hne Ht. split; try done; simpl.
  - by apply Forall_insert.
  - intros id Hid. apply Hs. intros Hin. apply Hid. apply list_elem_of_lookup in Hin as [j Hj].
    apply list_elem_of_lookup. exists j. rewrite list_lookup_insert_ne; [done|]. intros ->. naive_solver.
Qed.

Lemma dom_after z k p p' : z_in z !! k = Some p → dom (<[k := p']> (z_in z)) = D z.
Proof. intros H. unfold D. rewrite dom_insert_L. apply elem_of_dom_2 in H. set_solver. Qed.
(** Publishing on a port, with the seals [sealed]. *)
Lemma fwd_publish z k p p' id bytes h sealed : inv z → z_in z !! k = Some p → after_publish p p' id bytes →
  z_sealed z ⊆ sealed →
  (∀ j, TEvicted j ∉ z_tasks z → streams_ok (z_in z) (z_sealed z) j → streams_ok (<[k := p']> (z_in z)) sealed j) →
  fwd z (with_health (with_in (with_sealed z sealed) (<[k := p']> (z_in z))) h).
Proof.
  intros [H1 H2 H3 H4 H5 H6] Hp Ha Hsub Hs.
  assert (E : D (with_health (with_in (with_sealed z sealed) (<[k := p']> (z_in z))) h) = D z) by by apply (dom_after z k p).
  split; [split|by rewrite E|done|done]; rewrite ?E; try done; simpl.
  - apply map_Forall_insert_2; [|done]. destruct Ha as (_ & _ & Hok & _). apply Hok. by apply (H5 k).
  - intros j Hj. apply Hs; [done|]. by apply H6.
Qed.
Lemma publish_fwd z k id bytes now : inv z →
  (k.2 ≠ QuerierReplyIn ∨ ((id ∉ z_sealed z) ∧ ∃ b, bytes = discriminator FData :: b)) →
  fwd z (publish z k id bytes now).
Proof.
  intros Hi Hd. destruct (publish_spec z k id bytes now) as [[_ ->]|(p & p' & h & Hp & Ha & ->)]; [by apply fwd_refl|].
  apply (fwd_publish z k p p' id bytes h (z_sealed z)); [done|done|done|done|]. intros j _ Hj.
  destruct Hd as [Hd|[Hs [b Hb]]].
  - by eapply streams_other; [..|right|].
  - destruct (decide (j = id)) as [->|Hne]; [by eapply streams_data|by eapply streams_other; [..|left|]].
Qed.
Lemma call_sink_fwd z s bytes now : inv z → sink_ok (D z) s → fwd z (call_sink z s bytes now).
Proof.
  intros Hi Hs. destruct s as [k|id k]; simpl in *.
  - apply publish_fwd; [done|]. left. by rewrite Hs.
  - case_bool_decide; [by apply fwd_refl|]. apply publish_fwd; [done|]. right. split; [done|by eexists].
Qed.
Lemma claim_fwd z id k t now : inv z → reply_ok (D z) k → t = EndOfStream ∨ t = FTimeout → fwd z (claim z id k t now).
Proof.
  intros Hi [Hk Hin] Ht. unfold claim. case_bool_decide as Hs; [by apply fwd_refl|].
  destruct (publish_spec (with_sealed z ({[id]} ∪ z_sealed z)) k id [discriminator t] now)
    as [[Hn _]|(p & p' & h & Hp & Ha & ->)].
  { unfold D in Hin. apply elem_of_dom in Hin as [? Hin]. simpl in Hn. congruence. }
  simpl in *. apply (fwd_publish z k p p' id [discriminator t] h); [done|done|done|set_solver|]. intros j Hj Hst.
  destruct (decide (j = id)) as [->|Hne].
  - eapply streams_end; try done; [|by apply (iv_ports z Hi k)]. destruct Ht as [-> | ->]; [by left|by right].
  - by eapply streams_other; [..|left|apply sealed_other].
Qed.
Lemma call_done_fwd z d now : inv z → done_ok (D z) d → fwd z (call_done z d now).
Proof. destruct d as [id k]. intros. apply claim_fwd; [done|done|by left]. Qed.
Lemma call_query_fwd z q req r now : inv z → query_ok q → sink_ok (D z) (rp_reply r) → fwd z (call_query z q req r now).
Proof.
  intros Hi Hq Hr. destruct q as [k]. unfold call_query. simpl in Hq.
  destruct (mint_query_id (z_counter z)) as [counter id].
  assert (H1 : fwd z (with_counter z counter)) by by apply fwd_same.
  assert (H2 : fwd z (with_correlation (with_counter z counter) (<[id := r]> (z_correlation z)))).
  { eapply fwd_trans; [exact H1|]. apply fwd_corr; [apply H1|]. apply map_Forall_insert_2; [done|]. apply (iv_corr _ Hi). }
  eapply fwd_trans; [exact H2|]. apply publish_fwd; [apply H2|]. left. by rewrite Hq.
Qed.
Lemma replier_reply_fwd z r body now : inv z → sink_ok (D z) (rp_reply r) → fwd z (replier_reply z r body now).
Proof. apply call_sink_fwd. Qed.
Lemma session_cells d s c : session_ok d s → Forall (cell_ok d) c → session_ok d (set_cells s c).
Proof. intros [? ? ? ?] ?. by split. Qed.
Lemma session_hung d s h : session_ok d s → map_Forall (λ _ x, sink_ok d x.1 ∧ done_ok d x.2) h → session_ok d (set_hung s h).
Proof. intros [? ? ? ?] ?. by split. Qed.
Lemma replier_terminate_fwd z r now : inv z → fwd z (replier_terminate z r now).
Proof.
  intros Hi. unfold replier_terminate. destruct (s_cells (z_session z) !! rp_cell r) as [[n cb]|] eqn:E; [|by apply fwd_refl].
  assert (Hc : cell_ok (D z) (n, cb)) by by eapply Forall_lookup_1; [apply (so_cells _ _ (iv_session _ Hi))|].
  match goal with |- context [with_session z ?s] => assert (Hz : fwd z (with_session z s)) end.
  { apply fwd_session; [done|]. apply session_cells; [apply Hi|]. apply Forall_insert; [apply (so_cells _ _ (iv_session _ Hi))|].
    by case_bool_decide. }
  destruct cb as [d|]; [|done]. case_bool_decide; [|done].
  eapply fwd_trans; [exact Hz|]. apply call_done_fwd; [apply Hz|done].
Qed.
Lemma call_sinks_fwd ss payload now : ∀ z, inv z → Forall (sink_ok (D z)) ss → fwd z (call_sinks z ss payload now).
Proof.
  induction ss as [|s ss IH]; intros z Hi Hs; simpl; [by apply fwd_refl|]. apply Forall_cons in Hs as [Hs Hss].
  pose proof (call_sink_fwd z s payload now Hi Hs) as Hf. eapply fwd_trans; [exact Hf|]. apply IH; [apply Hf|].
  eapply Forall_impl; [exact Hss|]. intros ?. apply sink_ok_mono, Hf.
Qed.
Lemma call_queryables_fwd qs payload r now : ∀ z, inv z → Forall query_ok qs → sink_ok (D z) (rp_reply r) →
  fwd z (call_queryables z qs payload r now).
Proof.
  induction qs as [|q qs IH]; intros z Hi Hq Hr; simpl; [by apply fwd_refl|]. apply Forall_cons in Hq as [Hq Hqs].
  pose proof (call_query_fwd z q payload r now Hi Hq Hr) as Hf. eapply fwd_trans; [exact Hf|]. apply IH; [apply Hf|done|].
  eapply sink_ok_mono; [apply Hf|done].
Qed.
(** The entries of a map of lists. *)
Lemma default_Forall {A} (P : A → Prop) (m : gmap string (list (Z * A))) k : map_Forall (λ _ l, Forall (λ e, P e.2) l) m →
  Forall (λ e, P e.2) (default [] (m !! k)).
Proof. intros H. destruct (m !! k) eqn:E; [by apply (H k)|constructor]. Qed.
Lemma session_publish_fwd z k payload now : inv z → fwd z (fst (session_publish z k payload now)).
Proof.
  intros Hi. unfold session_publish. destruct (s_state (z_session z)); try by apply fwd_refl.
  simpl. apply call_sinks_fwd; [done|]. apply Forall_fmap. apply default_Forall, Hi.
Qed.
Lemma session_subscribe_ok d s k sink s' h : session_ok d s → sink_ok d sink → session_subscribe s k sink = (s', h) → session_ok d s'.
Proof.
  intros [H1 H2 H3 H4] Hk [= <- _]. split; try done; simpl. apply map_Forall_insert_2; [|done].
  apply Forall_app. split; [by apply (default_Forall (sink_ok d))|by apply Forall_singleton].
Qed.
Lemma session_declare_ok d s k q s' h : session_ok d s → query_ok q → session_declare_queryable s k q = (s', h) → session_ok d s'.
Proof.
  intros [H1 H2 H3 H4] Hk [= <- _]. split; try done; simpl. apply map_Forall_insert_2; [|done].
  apply Forall_app. split; [by apply (default_Forall query_ok)|by apply Forall_singleton].
Qed.
Lemma without_Forall {A} (P : A → Prop) (m : gmap string (list (Z * A))) id k : map_Forall (λ _ l, Forall (λ e, P e.2) l) m →
  map_Forall (λ _ l, Forall (λ e, P e.2) l) (without m id k).
Proof.
  intros H. unfold without. destruct (m !! k) as [es|] eqn:E; [|done].
  destruct (List.filter _ es) as [|e es'] eqn:Ef; [by apply map_Forall_delete|].
  apply map_Forall_insert_2; [|done]. rewrite <- Ef. apply Forall_forall. intros x Hx. apply list_elem_of_In, filter_In in Hx as [Hx _].
  specialize (H k es E). rewrite Forall_forall in H. by apply H, list_elem_of_In.
Qed.
Lemma drop_handle_ok d s h : session_ok d s → session_ok d (drop_handle s h).
Proof. intros [H1 H2 H3 H4]. destruct h; split; try done; simpl; [by apply (without_Forall (sink_ok d))|by apply (without_Forall query_ok)]. Qed.
Lemma session_query_fwd z k payload on_reply on_done now : inv z → sink_ok (D z) on_reply → done_ok (D z) on_done →
  fwd z (fst (session_query z k payload on_reply on_done now)).
Proof.
  intros Hi Hr Hd. unfold session_query. destruct (s_state (z_session z)); try by apply fwd_refl.
  destruct (s_query_hangs (z_session z)).
  - simpl. apply fwd_session; [done|]. apply session_hung; [apply Hi|]. apply map_Forall_insert_2; [done|]. apply Hi.
  - assert (Hq : Forall query_ok (snd <$> default [] (s_queryables (z_session z) !! k))).
    { apply Forall_fmap. apply default_Forall, Hi. }
    destruct (snd <$> default [] (s_queryables (z_session z) !! k)) as [|q qs]; [by apply call_done_fwd|].
    match goal with |- context [with_session z ?s] => assert (Hz : fwd z (with_session z s)) end.
    { apply fwd_session; [done|]. apply session_cells; [apply Hi|]. apply Forall_app. split; [apply Hi|by apply Forall_singleton]. }
    eapply fwd_trans; [exact Hz|]. apply call_queryables_fwd; [apply Hz|done|done].
Qed.
Lemma force_late_reply_fwd z k payload now : inv z → fwd z (fst (force_late_reply z k payload now)).
Proof.
  intros Hi. unfold force_late_reply. destruct (s_hung (z_session z) !! k) as [[r d]|] eqn:E; [|by apply fwd_refl].
  destruct (so_hung _ _ (iv_session _ Hi) k (r, d) E) as [Hr Hd].
  match goal with |- context [with_session z ?s] => assert (Hz : fwd z (with_session z s)) end.
  { apply fwd_session; [done|]. apply session_hung; [apply Hi|]. apply map_Forall_delete, Hi. }
  simpl. eapply fwd_trans; [exact Hz|]. pose proof (call_sink_fwd _ r payload now (fw_inv _ _ Hz) Hr) as H2.
  eapply fwd_trans; [exact H2|]. apply call_done_fwd; [apply H2|]. eapply done_ok_mono; [apply H2|done].
Qed.

(** ** The dispatcher and the tasks *)

Lemma drain_loop_fwd f pending : (∀ z id bytes reserved, inv z → fwd z (f z id bytes reserved)) →
  ∀ z z' rest, inv z → drain_loop f z pending = (z', rest) → fwd z z'.
Proof.
  intros Hf. induction pending as [|e pending IH]; intros z z' rest Hi; simpl; [intros [= <- _]; by apply fwd_refl|].
  destruct (drain e MAX_DRAIN_SCRATCH) as [[[[id bytes] reserved]|]|]; try (intros [= <- _]; by apply fwd_refl).
  intros H. pose proof (Hf z id bytes reserved Hi) as H1. eapply fwd_trans; [exact H1|]. eapply IH; [apply H1|done].
Qed.
Lemma drain_port_fwd f z k : (∀ z id bytes reserved, inv z → fwd z (f z id bytes reserved)) → inv z → fwd z (drain_port f z k).
Proof.
  intros Hf Hi. unfold drain_port. destruct (z_out z !! k) as [p|]; [|by apply fwd_refl].
  destruct (drain_loop f z (o_pending p)) as [z' rest] eqn:E. pose proof (drain_loop_fwd f _ Hf z z' rest Hi E) as H1.
  eapply fwd_trans; [exact H1|]. by apply fwd_same; [apply H1|..].
Qed.
Lemma spawn_query_fwd c z id bytes reserved : inv z → fwd z (spawn_query c z id bytes reserved).
Proof.
  intros Hi. unfold spawn_query. destruct (z_reply_publishers z !! descriptor_name c) as [k|] eqn:E; [|by apply fwd_refl].
  apply fwd_spawn; [done| |done]. by apply (iv_pubs z Hi _ _ E).
Qed.
Lemma forward_reply_fwd now z id bytes reserved : inv z → fwd z (forward_reply now z id bytes reserved).
Proof.
  intros Hi. destruct bytes as [|b body]; simpl; [by apply fwd_refl|].
  destruct (from_byte b) as [[]|]; try by apply fwd_refl.
  - destruct (z_correlation z !! id) as [r|] eqn:E; [|by apply fwd_refl].
    apply replier_reply_fwd; [done|]. apply (iv_corr z Hi _ _ E).
  - destruct (z_correlation z !! id) as [r|] eqn:E; [|by apply fwd_refl].
    assert (H1 : fwd z (with_correlation z (delete id (z_correlation z)))) by by apply fwd_corr, map_Forall_delete, Hi.
    eapply fwd_trans; [exact H1|]. apply replier_terminate_fwd, H1.
Qed.
Lemma drain_entry_fwd now z c : inv z → fwd z (drain_entry now z c).
Proof.
  intros Hi. unfold drain_entry. destruct (direction c); try by apply fwd_refl.
  - apply drain_port_fwd; [|done]. intros. by apply session_publish_fwd.
  - apply drain_port_fwd; [|done]. intros. by apply spawn_query_fwd.
  - apply drain_port_fwd; [|done]. intros. by apply forward_reply_fwd.
Qed.
Lemma drain_outbound_fwd now g : ∀ z, inv z → fwd z (foldl (drain_entry now) z g).
Proof.
  induction g as [|c g IH]; intros z Hi; simpl; [by apply fwd_refl|].
  pose proof (drain_entry_fwd now z c Hi) as H1. eapply fwd_trans; [exact H1|]. apply IH, H1.
Qed.
Lemma dispatcher_turn_fwd z now : inv z → fwd z (dispatcher_turn z now).
Proof.
  intros Hi. unfold dispatcher_turn. destruct (z_watcher z); [by apply fwd_refl|..];
    (destruct (z_stop z); [by apply fwd_refl|by apply drain_outbound_fwd]).
Qed.

(** What a step may do: the invariant, and seals only go with the eviction of a task. *)
Definition good (z z' : Zenoh) : Prop :=
  inv z' ∧ ∀ id, id ∈ z_sealed z → id ∉ z_sealed z' → TSealed id ∈ z_tasks z.
Lemma fwd_good z z' : fwd z z' → good z z'.
Proof. intros [? ? Hs ?]. split; [done|]. set_solver. Qed.
Lemma task_step_good z i t t' z1 : z_tasks z !! i = Some t → (∀ id, t ≠ TEvicted id) → fwd z z1 → task_ok (D z1) t' →
  good z (with_tasks z1 (<[i := t']> (z_tasks z1))).
Proof.
  intros Ht Hne [H1 H2 H3 H4] Hok. split; [|simpl; set_solver].
  apply (inv_task z1 i t); [done| |done|done]. by eapply prefix_lookup_Some.
Qed.
Lemma task_run_good z i now : inv z → good z (task_run z i now).
Proof.
  intros Hi. unfold task_run. destruct (z_tasks z !! i) as [t|] eqn:Ht; [|by apply fwd_good, fwd_refl].
  destruct t as [k payload id timeout rk| | | |]; try by apply fwd_good, fwd_refl.
  assert (Hok : reply_ok (D z) rk) by (apply (Forall_lookup_1 _ _ _ _ (iv_tasks z Hi) Ht)).
  destruct (session_query z k payload (SinkReply id rk) (DoneReply id rk) now) as [z1 r] eqn:E.
  assert (H1 : fwd z z1).
  { pose proof (session_query_fwd z k payload (SinkReply id rk) (DoneReply id rk) now Hi Hok Hok) as H. by rewrite E in H. }
  apply (task_step_good z i _ _ z1 Ht); [done|done|]. destruct r; simpl; [|done]. eapply reply_ok_mono; [apply H1|done].
Qed.
Lemma task_elapse_good z i now : inv z → good z (task_elapse z i now).
Proof.
  intros Hi. unfold task_elapse. destruct (z_tasks z !! i) as [t|] eqn:Ht; [|by apply fwd_good, fwd_refl].
  destruct t as [|id rk| | |]; try by apply fwd_good, fwd_refl.
  apply (task_step_good z i _ _ _ Ht); [done| |done]. apply claim_fwd; [done| |by right].
  apply (Forall_lookup_1 _ _ _ _ (iv_tasks z Hi) Ht).
Qed.
Lemma sealed_evict ports sealed id j : j ≠ id → streams_ok ports sealed j → streams_ok ports (sealed ∖ {[id]}) j.
Proof.
  intros Hj [H1 H2 H3]. split; [|done|].
  - intros k p Hp Hk. destruct (H1 k p Hp Hk) as [|[? ?]]; [by left|right; split; [set_solver|done]].
  - intros Hacc Hs. apply H3; [done|set_solver].
Qed.
Lemma task_evict_good z i : inv z → good z (task_evict z i).
Proof.
  intros Hi. unfold task_evict. destruct (z_tasks z !! i) as [t|] eqn:Ht; [|by apply fwd_good, fwd_refl].
  destruct t as [| | |id|]; try by apply fwd_good, fwd_refl. split.
  - pose proof (inv_task z i _ (TEvicted id) Hi Ht ltac:(done) I) as [H1 H2 H3 H4 H5 H6]. split; try done; simpl in *.
    intros j Hj. apply sealed_evict; [|by apply H6]. intros ->. apply Hj. apply list_elem_of_lookup. exists i.
    rewrite list_lookup_insert_eq; [done|]. by eapply lookup_lt_Some.
  - simpl. intros j Hj Hn. destruct (decide (j = id)) as [->|]; [by apply list_elem_of_lookup_2 in Ht|set_solver].
Qed.

(** ** Creating channels, and every step *)

Lemma open_in_fwd z k e : inv z → fwd z (open_in z k e) ∧ k ∈ D (open_in z k e).
Proof.
  intros Hi. unfold open_in. destruct (z_in z !! k) as [p|] eqn:E.
  { split; [by apply fwd_refl|]. unfold D. by apply elem_of_dom. }
  set (p := MkPort _ _ _ _ _ _ _ _ _).
  assert (Hd : D z ⊆ D (with_in z (<[k := p]> (z_in z)))) by (unfold D; simpl; rewrite dom_insert_L; set_solver).
  split; [|unfold D; simpl; rewrite dom_insert_L; set_solver].
  destruct Hi as [H1 H2 H3 H4 H5 H6]. split; [split|done|done|done]; simpl.
  - by eapply session_ok_mono.
  - eapply map_Forall_impl; [exact H2|]. intros ? ? ?. by eapply sink_ok_mono.
  - eapply Forall_impl; [exact H3|]. intros ? ?. by eapply task_ok_mono.
  - eapply map_Forall_impl; [exact H4|]. intros ? ? ?. by eapply reply_ok_mono.
  - apply map_Forall_insert_2; [|done]. unfold port_ok. simpl. split; [done|]. destruct (inbound_bridge_capacity _); lia.
  - intros id Hid. destruct (H6 id Hid) as [S1 S2 S3].
    assert (Hnew : ∀ i q, <[k := p]> (z_in z) !! i = Some q → (i = k ∧ q = p) ∨ z_in z !! i = Some q).
    { intros i q Hq. apply lookup_insert_Some in Hq as [[-> ->]|[_ Hq]]; [by left|by right]. }
    assert (Hne : ¬ ended (frames p id)) by (apply open_not_ended; constructor). split.
    + intros i q Hq Hk. destruct (Hnew i q Hq) as [[-> ->]|Hq']; [left; constructor|by apply (S1 i)].
    + intros i1 q1 i2 q2 Hq1 Hq2 Hk1 Hk2 He1 He2. destruct (Hnew i1 q1 Hq1) as [[-> ->]|Hq1']; [done|].
      destruct (Hnew i2 q2 Hq2) as [[-> ->]|Hq2']; [done|]. by apply (S2 i1 q1 i2 q2).
    + intros Hacc Hs. apply map_Forall_insert in Hacc as [_ Hacc]; [|done].
      destruct (S3 Hacc Hs) as (i & q & Hq & Hk & He). exists i, q. split; [|done].
      rewrite lookup_insert_ne; [done|]. intros ->. congruence.
Qed.
Lemma open_out_fwd z k e : inv z → fwd z (open_out z k e).
Proof. intros Hi. unfold open_out. destruct (z_out z !! k); [by apply fwd_refl|by apply fwd_same]. Qed.
Lemma register_all_fwd z name r ds : inv z → fwd z (fst (register_all z name r ds)).
Proof.
  intros Hi. unfold register_all. assert (H : ∀ s, fwd z (fst s) →
    fwd z (fst (foldl (λ s d, match s with (z, Some err) => (z, Some err) | (z, None) =>
      match register (z_registry z) name r d with inr err => (z, Some err) | inl g => (with_registry z g, None) end end) s ds))).
  { induction ds as [|d ds IH]; intros [z1 err] H1; simpl in *; [done|]. apply IH. destruct err as [err|]; [done|].
    destruct (register (z_registry z1) name r d); [|done]. simpl. eapply fwd_trans; [exact H1|].
    by apply fwd_same; [apply H1|..]. }
  apply (H (z, None)). by apply fwd_refl.
Qed.
(** The session with what was declared on it, and the handle. *)
Lemma declared_fwd z s h : inv z → session_ok (D z) s → fwd z (with_handles (with_session z s) h).
Proof.
  intros Hi Hs. pose proof (fwd_session z s Hi Hs) as H. eapply fwd_trans; [exact H|]. by apply fwd_same; [apply H|..].
Qed.
Lemma create_reader_fwd z name r e : inv z → fwd z (fst (create_reader z name r e)).
Proof.
  intros Hi. unfold create_reader. destruct (e_ports e); [by apply fwd_refl|].
  destruct (session_ready z e); [by apply fwd_refl|].
  destruct (open_in_fwd z (name, Inbound) e Hi) as [H1 _]. set (z1 := open_in z (name, Inbound) e) in *.
  destruct (session_subscribe _ _ _) as [s h] eqn:E. eapply fwd_trans; [exact H1|].
  assert (H2 : fwd z1 (with_handles (with_session z1 s) (z_handles z1 ++ [h]))).
  { apply declared_fwd; [apply H1|]. eapply session_subscribe_ok; [apply H1| |exact E]. done. }
  eapply fwd_trans; [exact H2|]. apply register_all_fwd, H2.
Qed.
Lemma create_queryable_fwd z name r e : inv z → fwd z (fst (create_queryable z name r e)).
Proof.
  intros Hi. unfold create_queryable. destruct (e_ports e); [by apply fwd_refl|].
  destruct (session_ready z e); [by apply fwd_refl|].
  destruct (open_in_fwd z (name, QueryableQueryIn) e Hi) as [H1 _].
  pose proof (open_out_fwd _ (name, QueryableReplyOut) e (fw_inv _ _ H1)) as H2. pose proof (fwd_trans _ _ _ H1 H2) as H3.
  set (z1 := open_out _ _ _) in *. destruct (session_declare_queryable _ _ _) as [s h] eqn:E. eapply fwd_trans; [exact H3|].
  assert (H4 : fwd z1 (with_handles (with_session z1 s) (z_handles z1 ++ [h]))).
  { apply declared_fwd; [apply H3|]. eapply session_declare_ok; [apply H3| |exact E]. done. }
  eapply fwd_trans; [exact H4|]. apply register_all_fwd, H4.
Qed.
Lemma create_querier_fwd z name r e : inv z → fwd z (fst (create_querier z name r e)).
Proof.
  intros Hi. unfold create_querier. destruct (e_ports e); [by apply fwd_refl|].
  pose proof (open_out_fwd z (name, QuerierOut) e Hi) as H1.
  destruct (open_in_fwd _ (name, QuerierReplyIn) e (fw_inv _ _ H1)) as [H2 Hd]. pose proof (fwd_trans _ _ _ H1 H2) as H3.
  set (z1 := open_in _ _ _) in *. eapply fwd_trans; [exact H3|].
  assert (H4 : fwd z1 (with_reply_publishers z1 (<[name := (name, QuerierReplyIn)]> (z_reply_publishers z1)))).
  { destruct (fw_inv _ _ H3) as [? ? ? Hp ? ?]. split; [split|done|done|done]; try done. by apply map_Forall_insert_2. }
  eapply fwd_trans; [exact H4|]. apply register_all_fwd, H4.
Qed.
Lemma drop_handles_fwd z : inv z → fwd z (drop_handles z).
Proof.
  intros Hi. apply declared_fwd; [done|]. assert (Hs := iv_session z Hi). revert Hs.
  generalize (z_session z) as s. induction (z_handles z) as [|h hs IH]; intros s Hs; simpl; [done|].
  by apply IH, drop_handle_ok.
Qed.
(** What the plugin has taken does not matter. *)
Lemma streams_taken ports sealed k p p' id : ports !! k = Some p →
  p_ok p' = p_ok p → p_max p' = p_max p → p_published p' = p_published p →
  streams_ok ports sealed id → streams_ok (<[k := p']> ports) sealed id.
Proof.
  intros Hp E1 E2 E3 [H1 H2 H3].
  assert (Hf : frames p' id = frames p id) by (unfold frames; by rewrite E3).
  assert (Hl : ∀ i q, <[k := p']> ports !! i = Some q → ∃ q0, ports !! i = Some q0 ∧ frames q id = frames q0 id).
  { intros i q Hq. apply lookup_insert_Some in Hq as [[<- <-]|[_ Hq]]; eauto. }
  split.
  - intros i q Hq Hk. destruct (Hl i q Hq) as (q0 & Hq0 & ->). by apply (H1 i).
  - intros i1 q1 i2 q2 Hq1 Hq2 Hk1 Hk2. destruct (Hl i1 q1 Hq1) as (r1 & Hr1 & ->). destruct (Hl i2 q2 Hq2) as (r2 & Hr2 & ->).
    by apply (H2 i1 r1 i2 r2).
  - intros Hacc Hs. destruct H3 as (i & q & Hq & Hk & He); [|done|].
    + intros i q Hq. destruct (decide (i = k)) as [->|Hne]; [|by apply (Hacc i); rewrite lookup_insert_ne].
      assert (q = p) as -> by congruence. rewrite <- E1, <- E2. apply (Hacc k). by rewrite lookup_insert_eq.
    + destruct (decide (i = k)) as [->|Hne].
      * exists k, p'. assert (q = p) as -> by congruence. by rewrite lookup_insert_eq, Hf.
      * exists i, q. by rewrite lookup_insert_ne.
Qed.
Lemma recv_on_fwd z k : inv z → fwd z (fst (recv_on z k)).
Proof.
  intros Hi. unfold recv_on. destruct (z_in z !! k) as [p|] eqn:E; [|by apply fwd_refl].
  unfold port_recv. destruct (p_published p !! p_taken p) as [m|]; simpl.
  - set (p' := MkPort _ _ _ _ _ _ _ _ _). assert (Hd : D (with_in z (<[k := p']> (z_in z))) = D z) by by eapply dom_after.
    destruct Hi as [H1 H2 H3 H4 H5 H6]. split; [split|by rewrite Hd|done|done]; rewrite ?Hd; try done; simpl.
    + apply map_Forall_insert_2; [by apply (H5 k p)|done].
    + intros id Hid. apply (streams_taken _ _ k p p'); auto.
  - rewrite insert_id by done. by apply fwd_same.
Qed.
Lemma send_on_fwd z k bytes id reserved : inv z → fwd z (fst (send_on z k bytes id reserved)).
Proof.
  intros Hi. unfold send_on. destruct (z_out z !! k) as [p|]; [|by apply fwd_refl].
  destruct (out_send p bytes id reserved) as [p' r]. by apply fwd_same.
Qed.
Lemma querier_send_fwd z name enc timeout : inv z → fwd z (fst (querier_send z name enc timeout)).
Proof.
  intros Hi. unfold querier_send. destruct (mint_query_id (z_counter z)) as [counter id].
  assert (H1 : fwd z (with_counter z counter)) by by apply fwd_same. destruct enc as [bytes|e]; [|done].
  eapply fwd_trans; [exact H1|].
  pose proof (send_on_fwd _ (name, QuerierOut) bytes id (timeout_ms timeout) (fw_inv _ _ H1)) as H2.
  by destruct (send_on _ _ _ _ _) as [z' [e|]].
Qed.
Lemma queryable_reply_fwd z name id enc : inv z → fwd z (fst (queryable_reply z name id enc)).
Proof.
  intros Hi. unfold queryable_reply. case_match; [by apply fwd_refl|]. destruct enc; [by apply send_on_fwd|by apply fwd_refl].
Qed.
Lemma register_with_fwd z gw item : inv z → fwd z (fst (register_with z gw item)).
Proof. intros Hi. unfold register_with. repeat case_match; by apply fwd_same. Qed.
Lemma watcher_turn_fwd z now : inv z → fwd z (watcher_turn z now).
Proof. intros Hi. unfold watcher_turn. destruct (watcher_poll _ _ _ _ _ _ _). by apply fwd_same. Qed.

Lemma do_op_good z o : inv z →
  match do_op z o with
  | Ok z' => good z z'
  | Panic => ∃ name id, o = QueryableTerminate name id ∧ out_max z (name, QueryableReplyOut) = 0
  end.
Proof.
  intros Hi. destruct o; simpl; try (by apply task_run_good || by apply task_elapse_good || by apply task_evict_good); try apply fwd_good.
  - unfold create_writer. destruct (e_ports e); [by apply fwd_refl|].
    pose proof (open_out_fwd z (name, Outbound) e Hi) as H1. eapply fwd_trans; [exact H1|]. apply register_all_fwd, H1.
  - by apply create_reader_fwd.
  - by apply create_querier_fwd.
  - by apply create_queryable_fwd.
  - by apply register_with_fwd.
  - by apply fwd_same.
  - by apply watcher_turn_fwd.
  - by apply dispatcher_turn_fwd.
  - by apply send_on_fwd.
  - by apply querier_send_fwd.
  - by apply queryable_reply_fwd.
  - unfold queryable_terminate. destruct (Z.eqb_spec (out_max z (name, QueryableReplyOut)) 0); simpl; [by eauto|].
    by apply fwd_good, send_on_fwd.
  - by apply recv_on_fwd.
  - by apply fwd_same.
  - by apply session_publish_fwd.
  - by apply force_late_reply_fwd.
  - apply fwd_session; [done|]. destruct (iv_session z Hi). by split.
  - by apply drop_handles_fwd.
Qed.
Lemma inv_run os : ∀ z z', inv z → run z os = Ok z' → inv z'.
Proof.
  induction os as [|o os IH]; intros z z' Hi; simpl; [by intros [= <-]|].
  pose proof (do_op_good z o Hi) as H. destruct (do_op z o) as [z1|]; simpl; [|done]. apply IH, H.
Qed.
Lemma inv_created o counter now : inv (connector_new o counter now).
Proof.
  split; [split| | | | |]; try apply map_Forall_empty; try constructor; try done; simpl.
Qed.

(** C29. In every state the connector reaches, however its callbacks, tasks, timers and
    the plugin's calls interleave: as long as the seal of a query has not been evicted,
    what was published for it is a sequence of data chunks, closed by at most one
    terminator, the end of the stream or the timeout, on at most one reply service;
    nothing follows the terminator, and a sealed query whose services take every send
    has one.  A seal is only lifted by the eviction of a query that timed out, and no
    step panics but the termination of a query on a channel of size zero. *)
Theorem one_terminator (o : ZenohConnectorOptions) (counter now : Z) (ops : list op) (z : Zenoh) :
  run (connector_new o counter now) ops = Ok z →
  (∀ id, TEvicted id ∉ z_tasks z →
     (∀ k p, z_in z !! k = Some p → k.2 = QuerierReplyIn →
        open_stream (frames p id) ∨ (id ∈ z_sealed z) ∧ ended (frames p id)) ∧
     (∀ k1 p1 k2 p2, z_in z !! k1 = Some p1 → z_in z !! k2 = Some p2 →
        k1.2 = QuerierReplyIn → k2.2 = QuerierReplyIn →
        ended (frames p1 id) → ended (frames p2 id) → k1 = k2) ∧
     (accepts (z_in z) → id ∈ z_sealed z →
        ∃ k p, z_in z !! k = Some p ∧ k.2 = QuerierReplyIn ∧ ended (frames p id))) ∧
  (∀ op,
     match do_op z op with
     | Ok z' => ∀ id, id ∈ z_sealed z → id ∉ z_sealed z' → TSealed id ∈ z_tasks z
     | Panic => ∃ name id, op = QueryableTerminate name id ∧ out_max z (name, QueryableReplyOut) = 0
     end).
Proof.
  intros Hrun. pose proof (inv_run _ _ _ (inv_created o counter now) Hrun) as Hi. split.
  - intros id Hid. destruct (iv_streams z Hi id Hid) as [H1 H2 H3]. by split_and!.
  - intros op. pose proof (do_op_good z op Hi) as H. destruct (do_op z op); [apply H|done].
Qed.

(** Two queries, the first answered, the second hanging until its timer elapses; a late
    reply and the end of its stream then find it sealed. *)
Definition demo_env : create_env := MkEnv None 64 (λ _, true) (λ _, true) true.
Definition demo_routing : ZenohRouting := routing_new "robot/arm".
Definition demo_ops : list op :=
  [CreateQuerier "ask" demo_routing demo_env; CreateQueryable "serve" demo_routing demo_env;
   RegisterWith true None; QuerierSend "ask" (inl [7; 8]) 0; DispatcherTurn 10; TaskRun 0 11;
   QueryableReply "serve" (query_id 6) (inl [9]); QueryableTerminate "serve" (query_id 6); DispatcherTurn 12;
   Knobs SAlive true 1; QuerierSend "ask" (inl [1]) 0; DispatcherTurn 13; TaskRun 1 14; TaskElapse 1 15;
   LateReply "robot/arm" [3] 16].
Definition demo_state : Zenoh :=
  match run (connector_new options_default 5 0) demo_ops with
  | Ok z => z
  | Panic => connector_new options_default 5 0
  end.
Lemma demo_run : run (connector_new options_default 5 0) demo_ops = Ok demo_state.
Proof. vm_compute. reflexivity. Qed.
Lemma one_terminator_witness : let z := demo_state in
  run (connector_new options_default 5 0) demo_ops = Ok z ∧
  match z_in z !! ("ask", QuerierReplyIn) with
  | Some p => map snd (p_published p) = [[1; 9]; [2]; [3]]
  | None => False
  end ∧
  (∀ id, TEvicted id ∉ z_tasks z →
     ∀ k p, z_in z !! k = Some p → k.2 = QuerierReplyIn →
        open_stream (frames p id) ∨ (id ∈ z_sealed z) ∧ ended (frames p id)).
Proof.
  intros z. split; [exact demo_run|]. split; [vm_compute; reflexivity|].
  exact (λ id Hid, proj1 (proj1 (one_terminator options_default 5 0 demo_ops demo_state demo_run) id Hid)).
Defined.
End ZenohConnOk.
