(* ===== verification/EsiModel.v ===== *)
(** * EtherCAT device descriptions

    Models the parser of device description files up to its in-memory form:
    [taktora-ethercat-esi/src/]: dto.rs (the conversion of what the XML package
    deserializes), model.rs, error.rs, position.rs, and the value types of
    [taktora-fieldbus-od-core/src/].

    The XML package turns the document into the [..Dto] records, so those are the input
    here: attributes and texts are strings of bytes, elements that may be missing are
    options, repeated ones lists. *)

From stdpp Require Import base list strings.
From Stdlib Require Import ZArith Lia Ascii.
From S2P Require Import Prelude.
#[local] Open Scope string_scope.
#[local] Open Scope list_scope.
#[local] Open Scope Z_scope.

Module EsiModel.

(** ** Errors *)

Record Span := MkSpan { sp_line : Z; sp_column : Z }.
Inductive EsiError :=
| XmlSyntax (span : Span)
| BadValue (path : string)
| BadNumber (raw path : string).
(** [?]: the first error ends a conversion. *)
Notation "x <~ m ; k" := (match m with inl x => k | inr e => inr e end)
  (at level 20, m at level 100, k at level 200, right associativity).
Fixpoint collect {A B E} (f : A → B + E) (l : list A) : list B + E :=
  match l with
  | [] => inl []
  | a :: l => b <~ f a; bs <~ collect f l; inl (b :: bs)
  end.
Definition transpose {A B E} (f : A → B + E) (o : option A) : option B + E :=
  match o with None => inl None | Some a => b <~ f a; inl (Some b) end.

(** ** Positions: the byte offsets at which lines start *)

Fixpoint line_starts_from (i : Z) (src : string) : list Z :=
  match src with
  | EmptyString => []
  | String c src =>
      if bool_decide (c = "010"%char) then (i + 1) :: line_starts_from (i + 1) src
      else line_starts_from (i + 1) src
  end.
Definition line_index (src : string) : list Z := 0 :: line_starts_from 0 src.
(** [binary_search] in the increasing list of starts finds the last one that is not after the offset. *)
Definition span_at (starts : list Z) (byte_offset : Z) : Span :=
  let line := pred (length (List.filter (λ s, s <=? byte_offset) starts)) in
  let column := byte_offset - nth line starts 0 + 1 in
  MkSpan (sat_add 32 (Z.min (2 ^ 32 - 1) (Z.of_nat line)) 1) (Z.min (2 ^ 32 - 1) column).

(** ** Text *)

(** The encodings of the white space characters. *)
Definition white_space : list string :=
  map (λ bs, String.string_of_list_ascii (map ascii_of_nat bs))
    ([[9]; [10]; [11]; [12]; [13]; [32]; [194; 133]; [194; 160]; [225; 154; 128]]
     ++ map (λ n, [226; 128; n]) (seq 128 11)
     ++ [[226; 128; 168]; [226; 128; 169]; [226; 128; 175]; [226; 129; 159]; [227; 128; 128]])%nat.
Fixpoint strip_prefix (p s : string) : option string :=
  match p, s with
  | EmptyString, _ => Some s
  | String a p, String b s => if bool_decide (a = b) then strip_prefix p s else None
  | String _ _, EmptyString => None
  end.
Fixpoint strip_any (ps : list string) (s : string) : option string :=
  match ps with
  | [] => None
  | p :: ps => match strip_prefix p s with Some r => Some r | None => strip_any ps s end
  end.
Fixpoint trim_start (fuel : nat) (ps : list string) (s : string) : string :=
  match fuel with
  | O => s
  | S fuel => match strip_any ps s with Some r => trim_start fuel ps r | None => s end
  end.
Definition rev_string (s : string) : string := String.string_of_list_ascii (rev (String.list_ascii_of_string s)).
Definition trim (s : string) : string :=
  let s := trim_start (String.length s) white_space s in
  rev_string (trim_start (String.length s) (map rev_string white_space) (rev_string s)).

Definition code (c : ascii) : Z := Z.of_N (N_of_ascii c).
Definition to_digit (radix : Z) (c : ascii) : option Z :=
  let n := code c in
  let d := if (48 <=? n) && (n <=? 57) then n - 48
           else if (97 <=? n) && (n <=? 122) then n - 87
           else if (65 <=? n) && (n <=? 90) then n - 55 else 99 in
  if d <? radix then Some d else None.
Definition is_ascii_hexdigit (c : ascii) : bool := match to_digit 16 c with Some _ => true | None => false end.
Fixpoint digits (radix limit acc : Z) (s : string) : option Z :=
  match s with
  | EmptyString => Some acc
  | String c s =>
      match to_digit radix c with
      | None => None
      | Some d => let n := acc * radix + d in if n <=? limit then digits radix limit n s else None
      end
  end.
(** [from_str_radix] of an unsigned type with largest value [limit]: a plus sign is
    accepted, nothing at all is not. *)
Definition parse_unsigned (radix limit : Z) (s : string) : option Z :=
  let body := match s with String "+" r => r | _ => s end in
  match body with EmptyString => None | _ => digits radix limit 0 body end.
Definition parse_i32 (s : string) : option Z :=
  match s with
  | String "-" EmptyString => None
  | String "-" r => option_map Z.opp (digits 10 (2 ^ 31) 0 r)
  | _ => parse_unsigned 10 (2 ^ 31 - 1) s
  end.
Definition to_upper (c : ascii) : ascii :=
  let n := code c in if (97 <=? n) && (n <=? 122) then ascii_of_N (Z.to_N (n - 32)) else c.
Fixpoint to_ascii_uppercase (s : string) : string :=
  match s with EmptyString => EmptyString | String c s => String (to_upper c) (to_ascii_uppercase s) end.
Fixpoint has_char (c : ascii) (s : string) : bool :=
  match s with EmptyString => false | String d s => bool_decide (c = d) || has_char c s end.

Definition parse_esi_uint (raw path : string) : Z + EsiError :=
  let t := trim raw in
  let parsed :=
    match (match strip_prefix "#x" t with Some h => Some h | None => strip_prefix "#X" t end) with
    | Some hex => parse_unsigned 16 (2 ^ 32 - 1) hex
    | None => parse_unsigned 10 (2 ^ 32 - 1) t
    end in
  match parsed with Some n => inl n | None => inr (BadNumber t path) end.
Definition narrow (limit : Z) (raw path : string) : Z + EsiError :=
  n <~ parse_esi_uint raw path;
  if n <=? limit then inl n else inr (BadNumber (trim raw) path).
Definition parse_esi_u16 := narrow (2 ^ 16 - 1).
Definition parse_esi_u8 := narrow (2 ^ 8 - 1).
Definition parse_esi_bool (raw : option string) : bool :=
  match raw with
  | Some s => bool_decide (trim s ∈ ["1"; "true"; "TRUE"])
  | None => false
  end.
Fixpoint hex_digits (s : string) : list Z :=
  match s with
  | EmptyString => []
  | String c s => match to_digit 16 c with Some d => d :: hex_digits s | None => hex_digits s end
  end.
(** [chunks(2)]; an odd last digit is the high half of its byte. *)
Fixpoint pair_up (ds : list Z) : list Z :=
  match ds with
  | [] => []
  | [h] => [Z.lor (Z.shiftl h 4) 0]
  | h :: l :: ds => Z.lor (Z.shiftl h 4) l :: pair_up ds
  end.
Definition parse_hex_payload (s : string) : list Z := pair_up (hex_digits s).
Definition parse_hex_bytes (raw path : string) : list Z + EsiError :=
  let t := trim raw in
  if negb (Nat.even (String.length t)) || negb (forallb is_ascii_hexdigit (String.list_ascii_of_string t))
  then inr (BadValue path) else inl (pair_up (hex_digits t)).

(** ** Value types *)

Record Identity := MkIdentity { vendor_id : Z; product_code : Z; revision : Z }.
Inductive DataType :=
| TBool | TI8 | TI16 | TI32 | TI64 | TU8 | TU16 | TU32 | TU64 | Real32 | Real64
| BitN (n : Z) | VisibleString | OctetString | UnicodeString | Named (name : string).
Definition parse_bit_width (upper : string) : option DataType :=
  match strip_prefix "BIT" upper with
  | Some r =>
      match parse_unsigned 10 (2 ^ 8 - 1) r with
      | Some w => if (1 <=? w) && (w <=? 8) then Some (BitN w) else None
      | None => None
      end
  | None => None
  end.
Definition coe_names : list (string * DataType) :=
  [("BOOL", TBool); ("BOOLEAN", TBool); ("SINT", TI8); ("INT", TI16); ("DINT", TI32); ("LINT", TI64);
   ("USINT", TU8); ("BYTE", TU8); ("UINT", TU16); ("WORD", TU16); ("UDINT", TU32); ("DWORD", TU32);
   ("ULINT", TU64); ("LWORD", TU64); ("REAL", Real32); ("LREAL", Real64); ("OCTETSTRING", OctetString);
   ("UNICODESTRING", UnicodeString); ("STRING", VisibleString); ("VISIBLESTRING", VisibleString)].
Definition parse_coe_name (name : string) : DataType :=
  let trimmed := trim name in
  let upper := to_ascii_uppercase trimmed in
  match List.find (λ e, bool_decide (e.1 = upper)) coe_names with
  | Some e => e.2
  | None =>
      match strip_prefix "STRING(" upper with
      | Some _ => VisibleString
      | None => default (Named trimmed) (parse_bit_width upper)
      end
  end.
Record Access := MkAccess { acc_read : bool; acc_write : bool; pdo_mappable : bool }.
Record DictEntry := MkDict {
  d_index : Z;
  d_sub_index : Z;
  d_name : string;
  d_data_type : DataType;
  d_bit_size : option Z;
  d_access : Access;
  d_default : option string;
}.

(** ** The in-memory form *)

(** [RawXml]: an element the schema does not know, kept as it is. *)
#[warnings="-register-all"]
Inductive RawXml := MkRaw (name : string) (attributes : list (string * string)) (text : option string)
  (children : list RawXml).

Inductive SmDirection := Output | Input | Unspecified.
#[export] Instance sm_direction_eq_dec : EqDecision SmDirection.
Proof. solve_decision. Defined.
Record SyncManager := MkSm {
  sm_index : Z;
  start_address : Z;
  control_byte : Z;
  sm_enable : bool;
  sm_direction : SmDirection;
  watchdog_trigger_enable : bool;
}.
Inductive FmmuUsage := FInputs | FOutputs | MBoxState | FOther (usage : string).

Record PdoEntry := MkEntry {
  e_index : Z;
  e_sub_index : Z;
  e_bit_length : Z;
  e_name : option string;
  e_data_type : option DataType;
}.
Record Pdo := MkPdo {
  pdo_index : Z;
  pdo_name : option string;
  pdo_sm : option Z;
  pdo_fixed : bool;
  pdo_mandatory : bool;
  pdo_exclude : list Z;
  pdo_entries : list PdoEntry;
}.
Record AltPdoRef := MkAltPdo { alt_pdo : Z; channel_no : option Z }.
Record SmAssignment := MkAssignment { assign_sm : Z; assign_pdos : list AltPdoRef }.
Record AlternativeSmMapping := MkMapping {
  mapping_name : option string;
  mapping_default : bool;
  sm_assignments : list SmAssignment;
}.

Record CoeInfo := MkCoe { sdo_info : bool; pdo_assign : bool; pdo_config : bool; complete_access : bool }.
Inductive Transition := Ip | Ps | So | TrOther.
Record InitCmd := MkInitCmd {
  ic_transition : Transition;
  ic_index : Z;
  ic_sub_index : Z;
  ic_data : list Z;
  ic_comment : option string;
}.
Record Mailbox := MkMailbox {
  coe : option CoeInfo;
  eoe : bool;
  foe : bool;
  soe : bool;
  voe : bool;
  init_cmds : list InitCmd;
}.
Definition mailbox_default : Mailbox := MkMailbox None false false false false [].

Record DcOpMode := MkOpMode {
  op_name : string;
  op_desc : option string;
  assign_activate : Z;
  cycle_time_sync0 : option Z;
  shift_time_sync0 : option Z;
  cycle_time_sync1 : option Z;
  shift_time_sync1 : option Z;
}.
Record Eeprom := MkEeprom {
  byte_size : option Z;
  config_data : list Z;
  bootstrap : option (list Z);
  categories : list RawXml;
}.
Record SlotModuleIdent := MkIdent { mi_ident : Z; mi_default : bool }.
Record Slot := MkSlot {
  slot_name : option string;
  min_instances : option Z;
  max_instances : option Z;
  module_idents : list SlotModuleIdent;
}.
Record Slots := MkSlots {
  slot_pdo_increment : option Z;
  slot_index_increment : option Z;
  slots : list Slot;
}.
(** [Module]. *)
Record ModuleEntry := MkModule {
  m_ident : option Z;
  m_product_type : option string;
  m_name : option string;
  m_tx_pdos : list Pdo;
  m_rx_pdos : list Pdo;
}.
Record EsiDevice := MkDevice {
  identity : Identity;
  dev_name : option string;
  product_type : option string;
  group_type : option string;
  fmmus : list FmmuUsage;
  sync_managers : list SyncManager;
  tx_pdos : list Pdo;
  rx_pdos : list Pdo;
  mailbox : option Mailbox;
  dc : option (list DcOpMode);
  dictionary : list DictEntry;
  eeprom : option Eeprom;
  dev_slots : option Slots;
  alt_sm_mappings : list AlternativeSmMapping;
  vendor_extensions : list RawXml;
}.
Record Vendor := MkVendor { v_id : Z; v_name : option string }.
Record EsiFile := MkFile { vendor : Vendor; devices : list EsiDevice; modules : list ModuleEntry }.
End EsiModel.
