(* ===== verification/EsiDto.v ===== *)
(** * Conversion of a deserialized device description

    Models the records of [taktora-ethercat-esi/src/dto.rs], which the XML package
    fills, and their conversion to the in-memory form. *)

From stdpp Require Import base list strings pretty.
From Stdlib Require Import ZArith Lia Ascii.
From S2P Require Import Prelude EsiModel.
#[local] Open Scope string_scope.
#[local] Open Scope list_scope.
#[local] Open Scope Z_scope.

Module EsiDto.
Import EsiModel.

(** ** The records *)

Record NameDto := MkNameDto { lc_id : option Z; name_text : option string }.
Record VendorDto := MkVendorDto { ven_id : string; ven_names : list NameDto }.
Record TypeDto := MkTypeDto { ty_product_code : option string; ty_revision_no : option string; ty_text : option string }.
Record AltPdoDto := MkAltPdoDto { ap_channel_no : option string; ap_index : string }.
Record AltSmDto := MkAltSmDto { as_no : string; as_pdo : list AltPdoDto }.
Record AltSmMappingDto := MkAltSmMappingDto { am_default : option string; am_name : option string; am_sm : list AltSmDto }.
(** [Info], [VendorSpecific] and [TwinCAT], one in the other. *)
Record TwinCatDto := MkTwinCatDto { alternative_sm_mapping : list AltSmMappingDto }.
Record VendorSpecificDto := MkVendorSpecificDto { twin_cat : option TwinCatDto }.
Record DeviceInfoDto := MkDeviceInfoDto { vendor_specific : option VendorSpecificDto }.
Record FmmuDto := MkFmmuDto { fmmu_text : option string }.
Record SmDto := MkSmDto { smd_start_address : option string; smd_control_byte : option string; smd_enable : option string }.
Record DataTypeDto := MkDataTypeDto { dt_text : option string }.
Record EntryDto := MkEntryDto {
  en_index : string;
  en_sub_index : option string;
  en_bit_len : string;
  en_name : option string;
  en_data_type : option DataTypeDto;
}.
Record PdoDto := MkPdoDto {
  pd_sm : option string;
  pd_fixed : option string;
  pd_mandatory : option string;
  pd_index : string;
  pd_name : option string;
  pd_exclude : list string;
  pd_entry : list EntryDto;
}.
Record CoeDto := MkCoeDto {
  cd_sdo_info : option string;
  cd_pdo_assign : option string;
  cd_pdo_config : option string;
  cd_complete_access : option string;
}.
(** The four other protocols are elements without content. *)
Record MailboxDto := MkMailboxDto {
  mb_coe : option CoeDto;
  mb_eoe : option unit;
  mb_foe : option unit;
  mb_soe : option unit;
  mb_voe : option unit;
}.
Record InitCmdDto := MkInitCmdDto {
  icd_transition : list string;
  icd_index : string;
  icd_sub_index : option string;
  icd_data : option string;
  icd_comment : option string;
}.
Record InfoDto := MkInfoDto { default_data : option string }.
Record FlagsDto := MkFlagsDto { fl_access : option string; fl_pdo_mapping : option string }.
Record SubItemDto := MkSubItemDto {
  si_sub_index : option string;
  si_name : option string;
  si_ty : option string;
  si_bit_size : option string;
  si_info : option InfoDto;
  si_flags : option FlagsDto;
}.
Record ObjectDto := MkObjectDto {
  ob_index : string;
  ob_name : option string;
  ob_ty : option string;
  ob_bit_size : option string;
  ob_info : option InfoDto;
  ob_flags : option FlagsDto;
  ob_sub_item : list SubItemDto;
}.
Record InitCmdsDto := MkInitCmdsDto { init_cmd : list InitCmdDto }.
Record ObjectsDto := MkObjectsDto { object : list ObjectDto }.
Record DictionaryDto := MkDictionaryDto { di_init_cmds : option InitCmdsDto; di_objects : option ObjectsDto }.
Record ProfileDto := MkProfileDto { pr_dictionary : option DictionaryDto }.
Record EepromDto := MkEepromDto { ee_byte_size : option string; ee_config_data : option string; ee_boot_strap : option string }.
Record ModuleTypeDto := MkModuleTypeDto { module_ident : option string; mt_text : option string }.
Record ModuleDto := MkModuleDto { mo_ty : ModuleTypeDto; mo_names : list NameDto; mo_tx_pdo : list PdoDto; mo_rx_pdo : list PdoDto }.
Record ModulesDto := MkModulesDto { module : list ModuleDto }.
Record ModuleIdentDto := MkModuleIdentDto { md_default : option string; md_text : option string }.
Record SlotDto := MkSlotDto {
  sl_min_instances : option string;
  sl_max_instances : option string;
  sl_names : list NameDto;
  sl_module_ident : list ModuleIdentDto;
}.
Record SlotsDto := MkSlotsDto { sd_pdo_increment : option string; sd_index_increment : option string; sd_slot : list SlotDto }.
Record CycleTimeDto := MkCycleTimeDto { ct_value : option string }.
Record OpModeDto := MkOpModeDto {
  om_name : string;
  om_desc : option string;
  om_assign_activate : string;
  om_cycle_time_sync0 : option CycleTimeDto;
  om_shift_time_sync0 : option string;
  om_cycle_time_sync1 : option CycleTimeDto;
  om_shift_time_sync1 : option string;
}.
Record DcDto := MkDcDto { op_mode : list OpModeDto }.
Record DeviceDto := MkDeviceDto {
  dd_ty : TypeDto;
  dd_names : list NameDto;
  dd_group_type : option string;
  dd_fmmu : list FmmuDto;
  dd_sm : list SmDto;
  dd_tx_pdo : list PdoDto;
  dd_rx_pdo : list PdoDto;
  dd_mailbox : option MailboxDto;
  dd_profile : option ProfileDto;
  dd_dc : option DcDto;
  dd_eeprom : option EepromDto;
  dd_slots : option SlotsDto;
  dd_info : option DeviceInfoDto;
}.
Record Devices := MkDevices { device : list DeviceDto }.
Record Descriptions := MkDescriptions { de_devices : option Devices; de_modules : option ModulesDto }.
Record EtherCatInfo := MkInfo { ei_vendor : VendorDto; ei_descriptions : Descriptions }.

(** ** Conversions *)

(** [Option::and_then]. *)
Definition and_then {A B} (o : option A) (f : A → option B) : option B :=
  match o with Some a => f a | None => None end.
#[local] Infix "?>" := and_then (at level 50, left associativity).

Definition LCID_ENGLISH : Z := 1033.
Definition non_empty (t : option string) : bool :=
  match t with Some s => negb (bool_decide (trim s = "")) | None => false end.
Definition pick_name (names : list NameDto) : option string :=
  let found :=
    match List.find (λ n, bool_decide (lc_id n = Some LCID_ENGLISH) && non_empty (name_text n)) names with
    | Some n => Some n
    | None => List.find (λ n, non_empty (name_text n)) names
    end in
  match found with Some n => name_text n | None => None end.

(** An attribute that may be missing reads as 0. *)
Definition or_zero (f : string → string → Z + EsiError) (s : option string) (path : string) : Z + EsiError :=
  match s with Some s => f s path | None => inl 0 end.
Definition opt_uint (s : option string) (path : string) : option Z + EsiError :=
  transpose (λ s, parse_esi_uint s path) s.

Definition direction_of (control : Z) : SmDirection :=
  match Z.land (Z.shiftr control 2) 3 with 1 => Output | 0 => Input | _ => Unspecified end.
Fixpoint sync_managers_loop (i : Z) (dtos : list SmDto) : list SyncManager + EsiError :=
  match dtos with
  | [] => inl []
  | sm :: dtos =>
      control <~ or_zero parse_esi_u8 (smd_control_byte sm) "Sm.ControlByte";
      start <~ or_zero parse_esi_u16 (smd_start_address sm) "Sm.StartAddress";
      if 2 ^ 8 - 1 <? i then inr (BadNumber (pretty i) "Sm.index")
      else
        rest <~ sync_managers_loop (i + 1) dtos;
        inl (MkSm i start control (parse_esi_bool (smd_enable sm)) (direction_of control)
               (negb (Z.land control 0x40 =? 0)) :: rest)
  end.
Definition sync_managers_from_dtos := sync_managers_loop 0.
Definition fmmu_usage (f : FmmuDto) : FmmuUsage :=
  let text := default "" (trim <$> fmmu_text f) in
  if bool_decide (text = "Inputs") then FInputs
  else if bool_decide (text = "Outputs") then FOutputs
  else if bool_decide (text = "MBoxState") then MBoxState
  else FOther text.
Definition fmmus_from_dtos (dtos : list FmmuDto) : list FmmuUsage := map fmmu_usage dtos.

Definition entry_from_dto (e : EntryDto) : PdoEntry + EsiError :=
  sub <~ or_zero parse_esi_u8 (en_sub_index e) "Entry.SubIndex";
  index <~ parse_esi_u16 (en_index e) "Entry.Index";
  bits <~ parse_esi_u16 (en_bit_len e) "Entry.BitLen";
  inl (MkEntry index sub bits (en_name e)
         (match en_data_type e with Some d => parse_coe_name <$> dt_text d | None => None end)).
Definition pdo_from_dto (d : PdoDto) : Pdo + EsiError :=
  index <~ parse_esi_u16 (pd_index d) "Pdo.Index";
  sm <~ transpose (λ s, parse_esi_u8 s "Pdo.Sm") (pd_sm d);
  exclude <~ collect (λ s, parse_esi_u16 s "Pdo.Exclude") (pd_exclude d);
  entries <~ collect entry_from_dto (pd_entry d);
  inl (MkPdo index (pd_name d) sm (parse_esi_bool (pd_fixed d)) (parse_esi_bool (pd_mandatory d)) exclude entries).

Definition eeprom_from_dto (d : EepromDto) : Eeprom + EsiError :=
  size <~ opt_uint (ee_byte_size d) "Eeprom.ByteSize";
  config <~ transpose (λ s, parse_hex_bytes s "Eeprom.ConfigData") (ee_config_data d);
  boot <~ transpose (λ s, parse_hex_bytes s "Eeprom.BootStrap") (ee_boot_strap d);
  inl (MkEeprom size (default [] config) boot []).
Definition module_from_dto (d : ModuleDto) : ModuleEntry + EsiError :=
  tx <~ collect pdo_from_dto (mo_tx_pdo d);
  rx <~ collect pdo_from_dto (mo_rx_pdo d);
  ident <~ opt_uint (module_ident (mo_ty d)) "Module.Type.ModuleIdent";
  inl (MkModule ident (mt_text (mo_ty d)) (pick_name (mo_names d)) tx rx).
Definition slot_ident_from_dto (mi : ModuleIdentDto) : SlotModuleIdent + EsiError :=
  ident <~ parse_esi_uint (default "" (md_text mi)) "Slot.ModuleIdent";
  inl (MkIdent ident (parse_esi_bool (md_default mi))).
Definition slot_from_dto (s : SlotDto) : Slot + EsiError :=
  idents <~ collect slot_ident_from_dto (sl_module_ident s);
  lo <~ opt_uint (sl_min_instances s) "Slot.MinInstances";
  hi <~ opt_uint (sl_max_instances s) "Slot.MaxInstances";
  inl (MkSlot (pick_name (sl_names s)) lo hi idents).
Definition slots_from_dto (d : SlotsDto) : Slots + EsiError :=
  l <~ collect slot_from_dto (sd_slot d);
  pdo_inc <~ opt_uint (sd_pdo_increment d) "Slots.SlotPdoIncrement";
  index_inc <~ opt_uint (sd_index_increment d) "Slots.SlotIndexIncrement";
  inl (MkSlots pdo_inc index_inc l).

Definition transition_of (l : list string) : Transition :=
  match l with
  | "IP" :: _ => Ip
  | "PS" :: _ => Ps
  | "SO" :: _ => So
  | _ => TrOther
  end.
Definition init_cmd_from_dto (c : InitCmdDto) : InitCmd + EsiError :=
  index <~ parse_esi_u16 (icd_index c) "InitCmd.Index";
  sub <~ or_zero parse_esi_u8 (icd_sub_index c) "InitCmd.SubIndex";
  inl (MkInitCmd (transition_of (icd_transition c)) index sub (parse_hex_payload (default "" (icd_data c))) (icd_comment c)).
Definition is_some {A} (o : option A) : bool := match o with Some _ => true | None => false end.
Definition coe_from_dto (c : CoeDto) : CoeInfo :=
  MkCoe (parse_esi_bool (cd_sdo_info c)) (parse_esi_bool (cd_pdo_assign c)) (parse_esi_bool (cd_pdo_config c))
    (parse_esi_bool (cd_complete_access c)).
Definition profile_dictionary (p : option ProfileDto) : option DictionaryDto := p ?> pr_dictionary.
Definition mailbox_from_dtos (mb : option MailboxDto) (profile : option ProfileDto) : option Mailbox + EsiError :=
  let cmds := profile_dictionary profile ?> di_init_cmds in
  match mb, cmds with
  | None, None => inl None
  | _, _ =>
      let out :=
        match mb with
        | None => mailbox_default
        | Some m =>
            MkMailbox (coe_from_dto <$> mb_coe m) (is_some (mb_eoe m)) (is_some (mb_foe m)) (is_some (mb_soe m))
              (is_some (mb_voe m)) []
        end in
      l <~ collect init_cmd_from_dto (match cmds with Some c => init_cmd c | None => [] end);
      inl (Some (MkMailbox (coe out) (eoe out) (foe out) (soe out) (voe out) l))
  end.

Definition op_mode_from_dto (op : OpModeDto) : DcOpMode + EsiError :=
  activate <~ parse_esi_u16 (om_assign_activate op) "Dc.OpMode.AssignActivate";
  inl (MkOpMode (om_name op) (om_desc op) activate
         (om_cycle_time_sync0 op ?> ct_value ?> parse_i32) (om_shift_time_sync0 op ?> parse_i32)
         (om_cycle_time_sync1 op ?> ct_value ?> parse_i32) (om_shift_time_sync1 op ?> parse_i32)).
Definition dc_from_dto (d : DcDto) : list DcOpMode + EsiError := collect op_mode_from_dto (op_mode d).

Definition access_from_flags (f : option FlagsDto) : Access :=
  match f with
  | None => MkAccess false false false
  | Some f =>
      let a := default "" (trim <$> fl_access f) in
      MkAccess (bool_decide (a ∈ ["ro"; "rw"])) (bool_decide (a ∈ ["wo"; "rw"]))
        (match fl_pdo_mapping f with Some m => has_char "T" m || has_char "R" m | None => false end)
  end.
Definition bitsize_from_str (s : option string) : option Z := s ?> (λ x, parse_unsigned 10 (2 ^ 32 - 1) (trim x)).
Definition type_of (ty : option string) : DataType := default (Named "") (parse_coe_name <$> ty).
Definition dict_entry_from_leaf (index : Z) (o : ObjectDto) : DictEntry :=
  MkDict index 0 (default "" (ob_name o)) (type_of (ob_ty o)) (bitsize_from_str (ob_bit_size o))
    (access_from_flags (ob_flags o)) (ob_info o ?> default_data).
Definition sub_item_entry (index : Z) (si : SubItemDto) : DictEntry + EsiError :=
  sub <~ or_zero parse_esi_u8 (si_sub_index si) "SubItem.SubIndex";
  inl (MkDict index sub (default "" (si_name si)) (type_of (si_ty si)) (bitsize_from_str (si_bit_size si))
         (access_from_flags (si_flags si)) (si_info si ?> default_data)).
Definition dict_entries_from_compound (index : Z) (l : list SubItemDto) : list DictEntry + EsiError :=
  collect (sub_item_entry index) l.
Definition object_entries (o : ObjectDto) : list DictEntry + EsiError :=
  index <~ parse_esi_u16 (ob_index o) "Object.Index";
  match ob_sub_item o with
  | [] => inl [dict_entry_from_leaf index o]
  | l => dict_entries_from_compound index l
  end.
Definition dictionary_from_profile (p : option ProfileDto) : list DictEntry + EsiError :=
  match profile_dictionary p ?> di_objects with
  | None => inl []
  | Some objects => l <~ collect object_entries (object objects); inl (concat l)
  end.

Definition alt_pdo_from_dto (p : AltPdoDto) : AltPdoRef + EsiError :=
  index <~ parse_esi_u16 (ap_index p) "AlternativeSmMapping.Sm.Pdo";
  channel <~ opt_uint (ap_channel_no p) "AlternativeSmMapping.Sm.Pdo.ChannelNo";
  inl (MkAltPdo index channel).
Definition assignment_from_dto (sm : AltSmDto) : SmAssignment + EsiError :=
  no <~ parse_esi_u8 (as_no sm) "AlternativeSmMapping.Sm.No";
  pdos <~ collect alt_pdo_from_dto (as_pdo sm);
  inl (MkAssignment no pdos).
Definition mapping_from_dto (m : AltSmMappingDto) : AlternativeSmMapping + EsiError :=
  assignments <~ collect assignment_from_dto (am_sm m);
  inl (MkMapping (am_name m) (parse_esi_bool (am_default m)) assignments).
Definition alt_sm_mappings_from_info (info : option DeviceInfoDto) : list AlternativeSmMapping + EsiError :=
  match info ?> vendor_specific ?> twin_cat with
  | None => inl []
  | Some tc => collect mapping_from_dto (alternative_sm_mapping tc)
  end.

Definition device_from_dto (v : Z) (d : DeviceDto) : EsiDevice + EsiError :=
  product <~ or_zero parse_esi_uint (ty_product_code (dd_ty d)) "Device.Type.ProductCode";
  rev <~ or_zero parse_esi_uint (ty_revision_no (dd_ty d)) "Device.Type.RevisionNo";
  tx <~ collect pdo_from_dto (dd_tx_pdo d);
  rx <~ collect pdo_from_dto (dd_rx_pdo d);
  mb <~ mailbox_from_dtos (dd_mailbox d) (dd_profile d);
  clock <~ transpose dc_from_dto (dd_dc d);
  mappings <~ alt_sm_mappings_from_info (dd_info d);
  sms <~ sync_managers_from_dtos (dd_sm d);
  dict <~ dictionary_from_profile (dd_profile d);
  ee <~ transpose eeprom_from_dto (dd_eeprom d);
  sl <~ transpose slots_from_dto (dd_slots d);
  inl (MkDevice (MkIdentity v product rev) (pick_name (dd_names d)) (ty_text (dd_ty d)) (dd_group_type d)
         (fmmus_from_dtos (dd_fmmu d)) sms tx rx mb clock dict ee sl mappings []).
Definition modules_from_dto (m : option ModulesDto) : list ModuleEntry + EsiError :=
  match m with None => inl [] | Some m => collect module_from_dto (module m) end.
Definition into_model (i : EtherCatInfo) : EsiFile + EsiError :=
  v <~ parse_esi_uint (ven_id (ei_vendor i)) "Vendor.Id";
  devs <~ collect (device_from_dto v) (match de_devices (ei_descriptions i) with Some d => device d | None => [] end);
  mods <~ modules_from_dto (de_modules (ei_descriptions i));
  inl (MkFile (MkVendor v (pick_name (ven_names (ei_vendor i)))) devs mods).
End EsiDto.
