(* ===== verification/EsiRaw.v ===== *)
(** * Vendor extensions of a device description

    Models [taktora-ethercat-esi/src/]: raw_xml.rs, the second pass that keeps the
    elements the schema does not know, and [parse] of lib.rs.

    The reader of the XML package is the list of its events; decoding a name, the
    attributes or a text may fail, and so may reading.  The two theorems relate the
    passes, loops over the events that count depths, to the document as a tree. *)

From stdpp Require Import base list strings.
From Stdlib Require Import ZArith Lia Ascii.
From S2P Require Import Prelude EsiModel EsiDto.
#[local] Open Scope string_scope.
#[local] Open Scope list_scope.
#[local] Open Scope Z_scope.

Module EsiRaw.
Import EsiModel EsiDto.

Inductive event :=
| Start (name : option string) (attributes : option (list (string * string)))
| Empty (name : option string) (attributes : option (list (string * string)))
| End
| Text (text : option string)
| OtherEvent
| ReadError.

Definition KNOWN_DEVICE_CHILDREN : list string :=
  ["Type"; "Name"; "GroupType"; "Sm"; "Mailbox"; "TxPdo"; "RxPdo"; "Dc"; "Profile"; "Info";
   "Image16x14"; "ImageFile16x14"; "Fmmu"; "Su"; "Eeprom"; "Slots"].
Definition KNOWN_EEPROM_CHILDREN : list string := ["ByteSize"; "ConfigData"; "BootStrap"].
(** What follows the last colon. *)
Fixpoint local_name (q : string) : string :=
  match q with
  | EmptyString => EmptyString
  | String c r => if has_char ":" r then local_name r else if bool_decide (c = ":"%char) then r else q
  end.
Definition is_known_child (q : string) : bool := bool_decide (local_name q ∈ KNOWN_DEVICE_CHILDREN).
Definition is_known_eeprom (q : string) : bool := bool_decide (local_name q ∈ KNOWN_EEPROM_CHILDREN).
Definition is_direct_child (parent_depth : option Z) (depth : Z) : bool :=
  match parent_depth with Some d => depth =? d + 1 | None => false end.

Definition value_error : EsiError := BadValue "vendor_extensions".
Definition decode_name (name : option string) : string + EsiError :=
  match name with Some n => inl n | None => inr value_error end.
Definition decode_attributes (a : option (list (string * string))) : list (string * string) + EsiError :=
  match a with Some a => inl a | None => inr value_error end.

(** [read_subtree] after the opening tag, up to its end tag: the text, the children and
    what remains to be read.  Every event read uses up one unit of [fuel]. *)
Fixpoint read_subtree (fuel : nat) (evs : list event) (text : option string) (children : list RawXml) :
  (option string * list RawXml * list event) + EsiError :=
  match evs, fuel with
  | [], _ => inl (text, children, [])
  | End :: evs, _ => inl (text, children, evs)
  | _, O => inr value_error
  | Start name attrs :: evs, S fuel =>
      name <~ decode_name name;
      attrs <~ decode_attributes attrs;
      child <~ read_subtree fuel evs None [];
      let '(t, cs, evs) := child in read_subtree fuel evs text (children ++ [MkRaw name attrs t cs])
  | Empty name attrs :: evs, S fuel =>
      name <~ decode_name name;
      attrs <~ decode_attributes attrs;
      read_subtree fuel evs text (children ++ [MkRaw name attrs None []])
  | Text t :: evs, S fuel =>
      match t with
      | None => inr value_error
      | Some t => read_subtree fuel evs (if bool_decide (trim t = "") then text else Some t) children
      end
  | OtherEvent :: evs, S fuel => read_subtree fuel evs text children
  | ReadError :: _, S _ => inr value_error
  end.

(** [per_device.last_mut()]. *)
Fixpoint push_last {A} (x : A) (ls : list (list A)) : list (list A) :=
  match ls with
  | [] => []
  | [l] => [l ++ [x]]
  | l :: ls => l :: push_last x ls
  end.

(** [capture_device_extensions]. *)
Fixpoint device_walk (fuel : nat) (evs : list event) (depth : Z) (device : option Z) (out : list (list RawXml)) :
  list (list RawXml) + EsiError :=
  match evs, fuel with
  | [], _ => inl out
  | _, O => inr value_error
  | Start name attrs :: evs, S fuel =>
      name <~ decode_name name;
      if is_direct_child device depth && negb (is_known_child name) then
        attrs <~ decode_attributes attrs;
        sub <~ read_subtree (length evs) evs None [];
        let '(t, cs, evs) := sub in device_walk fuel evs depth device (push_last (MkRaw name attrs t cs) out)
      else if bool_decide (local_name name = "Device") && negb (is_some device)
      then device_walk fuel evs (depth + 1) (Some depth) (out ++ [[]])
      else device_walk fuel evs (depth + 1) device out
  | Empty name attrs :: evs, S fuel =>
      name <~ decode_name name;
      if is_direct_child device depth && negb (is_known_child name) then
        attrs <~ decode_attributes attrs;
        device_walk fuel evs depth device (push_last (MkRaw name attrs None []) out)
      else device_walk fuel evs depth device out
  | End :: evs, S fuel =>
      let depth := depth - 1 in
      device_walk fuel evs depth (if bool_decide (device = Some depth) then None else device) out
  | ReadError :: _, S _ => inr value_error
  | (Text _ | OtherEvent) :: evs, S fuel => device_walk fuel evs depth device out
  end.
Definition capture_device_extensions (evs : list event) : list (list RawXml) + EsiError :=
  device_walk (length evs) evs 0 None [].

(** [capture_eeprom_categories]. *)
Fixpoint eeprom_walk (fuel : nat) (evs : list event) (depth : Z) (device eeprom : option Z) (out : list (list RawXml)) :
  list (list RawXml) + EsiError :=
  match evs, fuel with
  | [], _ => inl out
  | _, O => inr value_error
  | Start name attrs :: evs, S fuel =>
      name <~ decode_name name;
      if is_direct_child eeprom depth && negb (is_known_eeprom name) then
        attrs <~ decode_attributes attrs;
        sub <~ read_subtree (length evs) evs None [];
        let '(t, cs, evs) := sub in eeprom_walk fuel evs depth device eeprom (push_last (MkRaw name attrs t cs) out)
      else if bool_decide (local_name name = "Device") && negb (is_some device)
      then eeprom_walk fuel evs (depth + 1) (Some depth) eeprom (out ++ [[]])
      else if bool_decide (local_name name = "Eeprom") && is_direct_child device depth && negb (is_some eeprom)
      then eeprom_walk fuel evs (depth + 1) device (Some depth) out
      else eeprom_walk fuel evs (depth + 1) device eeprom out
  | Empty name attrs :: evs, S fuel =>
      name <~ decode_name name;
      if is_direct_child eeprom depth && negb (is_known_eeprom name) then
        attrs <~ decode_attributes attrs;
        eeprom_walk fuel evs depth device eeprom (push_last (MkRaw name attrs None []) out)
      else eeprom_walk fuel evs depth device eeprom out
  | End :: evs, S fuel =>
      let depth := depth - 1 in
      let eeprom := if bool_decide (eeprom = Some depth) then None else eeprom in
      eeprom_walk fuel evs depth (if bool_decide (device = Some depth) then None else device) eeprom out
  | ReadError :: _, S _ => inr value_error
  | (Text _ | OtherEvent) :: evs, S fuel => eeprom_walk fuel evs depth device eeprom out
  end.
Definition capture_eeprom_categories (evs : list event) : list (list RawXml) + EsiError :=
  eeprom_walk (length evs) evs 0 None None [].

(** ** [parse] *)

Definition with_extensions (d : EsiDevice) (x : list RawXml) : EsiDevice :=
  MkDevice (identity d) (dev_name d) (product_type d) (group_type d) (fmmus d) (sync_managers d) (tx_pdos d) (rx_pdos d)
    (mailbox d) (dc d) (dictionary d) (eeprom d) (dev_slots d) (alt_sm_mappings d) x.
Definition with_categories (d : EsiDevice) (x : list RawXml) : EsiDevice :=
  MkDevice (identity d) (dev_name d) (product_type d) (group_type d) (fmmus d) (sync_managers d) (tx_pdos d) (rx_pdos d)
    (mailbox d) (dc d) (dictionary d)
    ((λ e, MkEeprom (byte_size e) (config_data e) (bootstrap e) x) <$> eeprom d)
    (dev_slots d) (alt_sm_mappings d) (vendor_extensions d).
(** [iter_mut().zip(..)]. *)
Fixpoint zip_update {A B} (f : A → B → A) (l : list A) (xs : list B) : list A :=
  match l, xs with
  | a :: l, x :: xs => f a x :: zip_update f l xs
  | l, _ => l
  end.
(** [info] is what the package deserializes, [events] what its reader yields, and
    [error_position] where it stops at a read error. *)
Definition locate_syntax_error (xml : string) (events : list event) (error_position : Z) : Span :=
  span_at (line_index xml)
    (if existsb (λ e, match e with ReadError => true | _ => false end) events then error_position else 0).
Definition parse (xml : string) (info : option EtherCatInfo) (events : list event) (error_position : Z) : EsiFile + EsiError :=
  match info with
  | None => inr (XmlSyntax (locate_syntax_error xml events error_position))
  | Some info =>
      file <~ into_model info;
      exts <~ capture_device_extensions events;
      cats <~ capture_eeprom_categories events;
      inl (MkFile (vendor file) (zip_update with_categories (zip_update with_extensions (devices file) exts) cats) (modules file))
  end.

(** ** Documents *)

(** An element with its content, an empty element, character data, anything else. *)
#[warnings="-register-all"]
Inductive xml :=
| Elem (name : string) (attrs : list (string * string)) (kids : list xml)
| Closed (name : string) (attrs : list (string * string))
| Chars (text : string)
| Misc.
Section xml_ind.
Context (P : xml → Prop).
Context (HElem : ∀ n a ks, Forall P ks → P (Elem n a ks)).
Context (HClosed : ∀ n a, P (Closed n a)) (HChars : ∀ t, P (Chars t)) (HMisc : P Misc).
Fixpoint xml_nested_ind (x : xml) : P x :=
  match x with
  | Elem n a ks =>
      HElem n a ks ((fix go ks : Forall P ks :=
        match ks with [] => Forall_nil_2 P | k :: ks => Forall_cons_2 P k ks (xml_nested_ind k) (go ks) end) ks)
  | Closed n a => HClosed n a
  | Chars t => HChars t
  | Misc => HMisc
  end.
End xml_ind.

(** What the reader yields. *)
Fixpoint events_of (x : xml) : list event :=
  match x with
  | Elem n a ks => Start (Some n) (Some a) :: flat_map events_of ks ++ [End]
  | Closed n a => [Empty (Some n) (Some a)]
  | Chars t => [Text (Some t)]
  | Misc => [OtherEvent]
  end.
(** The last text that is not blank. *)
Fixpoint text_of (t : option string) (ks : list xml) : option string :=
  match ks with
  | [] => t
  | Chars s :: ks => text_of (if bool_decide (trim s = "") then t else Some s) ks
  | _ :: ks => text_of t ks
  end.
Fixpoint raw_of (x : xml) : list RawXml :=
  match x with
  | Elem n a ks => [MkRaw n a (text_of None ks) (flat_map raw_of ks)]
  | Closed n a => [MkRaw n a None []]
  | _ => []
  end.
Definition element_name (x : xml) : option string :=
  match x with Elem n _ _ | Closed n _ => Some n | _ => None end.
(** The contents of the outermost elements with a name, in document order. *)
Fixpoint outermost (want : string) (x : xml) : list (list xml) :=
  match x with
  | Elem n _ ks => if bool_decide (local_name n = want) then [ks] else flat_map (outermost want) ks
  | _ => []
  end.
(** The elements that [known] does not know, verbatim. *)
Definition unknown (known : string → bool) (ks : list xml) : list RawXml :=
  flat_map (λ x, match element_name x with Some n => if known n then [] else raw_of x | None => [] end) ks.
(** The direct children with a name. *)
Definition children_named (want : string) (ks : list xml) : list (list xml) :=
  flat_map (λ x, match x with Elem n _ ks => if bool_decide (local_name n = want) then [ks] else [] | _ => [] end) ks.

(** ** Reading a subtree *)

Lemma flat_map_events_cons x ks rest :
  flat_map events_of (x :: ks) ++ rest = events_of x ++ (flat_map events_of ks ++ rest).
Proof. simpl. by rewrite <- app_assoc. Qed.
Lemma events_elem n a ks rest :
  events_of (Elem n a ks) ++ rest = Start (Some n) (Some a) :: (flat_map events_of ks ++ End :: rest).
Proof. simpl. by rewrite <- app_assoc. Qed.

(** Lengths of event lists. *)
Ltac lens := repeat (progress (cbn [length app events_of] in *) || rewrite length_app in * ); lia.

(** The contents [ks] of an element, then its end tag. *)
Definition subtree_ok (ks : list xml) : Prop := ∀ fuel rest t cs,
  (length (flat_map events_of ks ++ End :: rest) ≤ S fuel)%nat →
  read_subtree fuel (flat_map events_of ks ++ End :: rest) t cs = inl (text_of t ks, cs ++ flat_map raw_of ks, rest).
Lemma subtree_list ks : Forall (λ x, match x with Elem _ _ ks => subtree_ok ks | _ => True end) ks → subtree_ok ks.
Proof.
  induction 1 as [|x ks Hx _ IH]; intros fuel rest t cs.
  { intros _. simpl. rewrite app_nil_r. by destruct fuel. }
  rewrite flat_map_events_cons. destruct x as [n a sub|n a|s|].
  - rewrite events_elem. intros Hf. destruct fuel as [|fuel]; [lens|].
    cbn [read_subtree decode_name decode_attributes]. rewrite Hx.
    + rewrite IH; [|lens]. simpl. by rewrite <- app_assoc.
    + lens.
  - intros Hf. destruct fuel as [|fuel]; [lens|].
    cbn [read_subtree decode_name decode_attributes events_of app]. rewrite IH; [|lens]. simpl. by rewrite <- app_assoc.
  - intros Hf. destruct fuel as [|fuel]; [lens|].
    cbn [read_subtree events_of app]. by rewrite IH by lens.
  - intros Hf. destruct fuel as [|fuel]; [lens|].
    cbn [read_subtree events_of app]. by rewrite IH by lens.
Qed.
Lemma subtree_all ks : subtree_ok ks.
Proof.
  apply subtree_list. apply Forall_forall. intros x _. induction x as [n a sub IH| | |] using xml_nested_ind; [|done..].
  by apply subtree_list.
Qed.
Lemma read_subtree_ok ks rest :
  read_subtree (length (flat_map events_of ks ++ End :: rest)) (flat_map events_of ks ++ End :: rest) None []
  = inl (text_of None ks, flat_map raw_of ks, rest).
Proof. apply subtree_all. lia. Qed.

Lemma push_last_snoc {A} (x : A) ls l : push_last x (ls ++ [l]) = ls ++ [l ++ [x]].
Proof. induction ls as [|l1 [|l2 ls] IH]; [done|done|]. simpl in *. by rewrite IH. Qed.

(** ** Walks over well-formed documents

    [goes walk evs s s']: whatever follows, reading [evs] takes the walk from [s] to
    [s'], with enough fuel for the rest. *)

Definition goes {S} (walk : nat → list event → S → list (list RawXml) + EsiError) (evs : list event) (s s' : S) : Prop :=
  ∀ fuel rest, (length (evs ++ rest) ≤ fuel)%nat →
  ∃ fuel', (length rest ≤ fuel')%nat ∧ walk fuel (evs ++ rest) s = walk fuel' rest s'.
Lemma goes_nil {S} walk (s : S) : goes walk [] s s.
Proof. intros fuel rest H. by exists fuel. Qed.
Lemma goes_app {S} walk e1 e2 (s1 s2 s3 : S) : goes walk e1 s1 s2 → goes walk e2 s2 s3 → goes walk (e1 ++ e2) s1 s3.
Proof.
  intros H1 H2 fuel rest Hf. rewrite <- app_assoc in *. destruct (H1 fuel (e2 ++ rest) Hf) as (f1 & Hf1 & ->).
  destruct (H2 f1 rest Hf1) as (f2 & Hf2 & ->). by exists f2.
Qed.
(** One event. *)
Lemma goes_one {S} walk e (s s' : S) : (∀ f rest, walk (Datatypes.S f) (e :: rest) s = walk f rest s') → goes walk [e] s s'.
Proof. intros H fuel rest Hf. destruct fuel as [|f]; [lens|]. exists f. split; [lens|apply H]. Qed.
(** Nodes that change nothing. *)
Lemma goes_same {S} walk (s : S) ks : Forall (λ x, goes walk (events_of x) s s) ks → goes walk (flat_map events_of ks) s s.
Proof. induction 1; simpl; [apply goes_nil|by eapply goes_app]. Qed.
(** Nodes that add to the result. *)
Lemma goes_adds {S} walk (s : list (list RawXml) → S) f ks :
  Forall (λ x, ∀ out, goes walk (events_of x) (s out) (s (out ++ f x))) ks →
  ∀ out, goes walk (flat_map events_of ks) (s out) (s (out ++ flat_map f ks)).
Proof.
  induction 1 as [|x ks Hx _ IH]; intros out; simpl; [rewrite app_nil_r; apply goes_nil|].
  eapply goes_app; [apply Hx|]. rewrite app_assoc. apply IH.
Qed.

Definition dwalk (fuel : nat) (evs : list event) (s : Z * option Z * list (list RawXml)) :=
  device_walk fuel evs s.1.1 s.1.2 s.2.
#[local] Abbreviation dgoes := (goes dwalk).
(** An element that is not kept, around its contents. *)
Lemma dgoes_elem n a ks depth device device' out out1 out2 :
  is_direct_child device depth && negb (is_known_child n) = false →
  (if bool_decide (local_name n = "Device") && negb (is_some device) then (Some depth, out ++ [[]]) else (device, out)) = (device', out1) →
  dgoes (flat_map events_of ks) (depth + 1, device', out1) (depth + 1, device', out2) →
  dgoes (events_of (Elem n a ks)) (depth, device, out)
    (depth, if bool_decide (device' = Some depth) then None else device', out2).
Proof.
  intros Hk Hd Hg. change (events_of (Elem n a ks)) with ([Start (Some n) (Some a)] ++ (flat_map events_of ks ++ [End])).
  eapply goes_app; [|eapply goes_app; [exact Hg|]].
  - apply goes_one. intros f rest. unfold dwalk. simpl. rewrite Hk. by case_match; simplify_eq.
  - apply goes_one. intros f rest. unfold dwalk. simpl. by replace (depth + 1 - 1) with depth by lia.
Qed.
(** Text and anything else. *)
Lemma dgoes_other x s : element_name x = None → dgoes (events_of x) s s.
Proof. intros Hx. destruct x; try done; by apply goes_one. Qed.

(** Deep inside a device nothing is kept. *)
Lemma dgoes_deep d out x : ∀ depth, d + 1 < depth → dgoes (events_of x) (depth, Some d, out) (depth, Some d, out).
Proof.
  induction x as [n a ks IH|n a|t|] using xml_nested_ind; intros depth Hd; try (by apply dgoes_other).
  - assert (Hn : is_direct_child (Some d) depth = false) by (simpl; apply Z.eqb_neq; lia).
    pose proof (dgoes_elem n a ks depth (Some d) (Some d) out out out) as H. rewrite (bool_decide_false (Some d = Some depth)) in H by (intros [=]; lia).
    apply H; [by rewrite Hn|by rewrite andb_false_r|].
    apply goes_same. eapply Forall_impl; [exact IH|]. intros x Hx. apply Hx. lia.
  - assert (Hn : is_direct_child (Some d) depth = false) by (simpl; apply Z.eqb_neq; lia).
    apply goes_one. intros f rest. unfold dwalk. simpl in *. by rewrite Hn.
Qed.
(** A direct child of a device. *)
Lemma dgoes_child d o l x :
  dgoes (events_of x) (d + 1, Some d, o ++ [l]) (d + 1, Some d, o ++ [l ++ unknown is_known_child [x]]).
Proof.
  assert (Hn : is_direct_child (Some d) (d + 1) = true) by (simpl; apply Z.eqb_refl).
  unfold unknown. simpl. destruct x as [n a ks|n a|t|]; simpl element_name; cbv iota beta;
    try (rewrite !app_nil_r; by apply dgoes_other).
  - destruct (is_known_child n) eqn:Hk.
    + pose proof (dgoes_elem n a ks (d + 1) (Some d) (Some d) (o ++ [l]) (o ++ [l]) (o ++ [l])) as H.
      rewrite (bool_decide_false (Some d = Some (d + 1))) in H by (intros [=]; lia). rewrite !app_nil_r.
      apply H; [by rewrite Hk, andb_false_r|by rewrite andb_false_r|].
      apply goes_same, Forall_forall. intros x _. apply dgoes_deep. lia.
    + intros fuel rest Hf. rewrite events_elem in *. destruct fuel as [|f]; [lens|].
      exists f. split; [lens|]. unfold dwalk. cbn [device_walk decode_name decode_attributes fst snd].
      rewrite Hn, Hk. cbn [andb negb]. rewrite read_subtree_ok. cbv beta iota. by rewrite push_last_snoc.
  - apply goes_one. intros f rest. unfold dwalk. cbn [device_walk decode_name decode_attributes fst snd]. rewrite Hn.
    destruct (is_known_child n); cbn [andb negb]; [by rewrite !app_nil_r|by rewrite push_last_snoc].
Qed.
Lemma unknown_cons k x ks : unknown k (x :: ks) = unknown k [x] ++ unknown k ks.
Proof. unfold unknown. simpl. by rewrite app_nil_r. Qed.
Lemma dgoes_children d o ks : ∀ l,
  dgoes (flat_map events_of ks) (d + 1, Some d, o ++ [l]) (d + 1, Some d, o ++ [l ++ unknown is_known_child ks]).
Proof.
  induction ks as [|x ks IH]; intros l; [simpl; rewrite app_nil_r; apply goes_nil|].
  rewrite (unknown_cons _ x ks), app_assoc. eapply goes_app; [apply dgoes_child|]. apply IH.
Qed.
Lemma map_of_flat_map {A B C} (f : B → C) (g : A → list B) l : map f (flat_map g l) = flat_map (λ x, map f (g x)) l.
Proof. induction l as [|x l IH]; [done|]. simpl. by rewrite map_app, IH. Qed.
(** Outside devices. *)
Lemma dgoes_outside x : ∀ depth out,
  dgoes (events_of x) (depth, None, out) (depth, None, out ++ map (unknown is_known_child) (outermost "Device" x)).
Proof.
  induction x as [n a ks IH|n a|t|] using xml_nested_ind; intros depth out; simpl outermost;
    try (simpl map; rewrite app_nil_r; by apply dgoes_other).
  - case_bool_decide as Hn.
    + pose proof (dgoes_elem n a ks depth None (Some depth) out (out ++ [[]]) (out ++ [unknown is_known_child ks])) as H.
      rewrite (bool_decide_true (Some depth = Some depth)) in H by done. apply H; [done| |].
      * by rewrite (bool_decide_true (local_name n = "Device")) by done.
      * apply (dgoes_children depth out ks []).
    + pose proof (dgoes_elem n a ks depth None None out out (out ++ map (unknown is_known_child) (flat_map (outermost "Device") ks))) as H.
      apply H; [done|by rewrite (bool_decide_false (local_name n = "Device")) by done|].
      rewrite map_of_flat_map. apply (goes_adds dwalk (λ out, (depth + 1, None, out))).
      eapply Forall_impl; [exact IH|]. intros x Hx out'. apply Hx.
  - simpl map. rewrite app_nil_r. apply goes_one. intros f rest. done.
Qed.
(** ** The second pass, one level deeper *)

Definition ewalk (fuel : nat) (evs : list event) (s : Z * option Z * option Z * list (list RawXml)) :=
  eeprom_walk fuel evs s.1.1.1 s.1.1.2 s.1.2 s.2.
#[local] Abbreviation egoes := (goes ewalk).
Lemma egoes_elem n a ks depth dev dev' ee ee' out out1 out2 :
  is_direct_child ee depth && negb (is_known_eeprom n) = false →
  (if bool_decide (local_name n = "Device") && negb (is_some dev) then (Some depth, ee, out ++ [[]])
   else if bool_decide (local_name n = "Eeprom") && is_direct_child dev depth && negb (is_some ee) then (dev, Some depth, out)
   else (dev, ee, out)) = (dev', ee', out1) →
  egoes (flat_map events_of ks) (depth + 1, dev', ee', out1) (depth + 1, dev', ee', out2) →
  egoes (events_of (Elem n a ks)) (depth, dev, ee, out)
    (depth, if bool_decide (dev' = Some depth) then None else dev', if bool_decide (ee' = Some depth) then None else ee', out2).
Proof.
  intros Hk Hd Hg. change (events_of (Elem n a ks)) with ([Start (Some n) (Some a)] ++ (flat_map events_of ks ++ [End])).
  eapply goes_app; [|eapply goes_app; [exact Hg|]].
  - apply goes_one. intros f rest. unfold ewalk. cbn [eeprom_walk decode_name fst snd]. rewrite Hk. by repeat case_match; simplify_eq.
  - apply goes_one. intros f rest. unfold ewalk. cbn [eeprom_walk fst snd]. by replace (depth + 1 - 1) with depth by lia.
Qed.
Lemma egoes_other x s : element_name x = None → egoes (events_of x) s s.
Proof. intros Hx. destruct x; try done; by apply goes_one. Qed.

(** Where nothing can be kept: below the children of the device, or of its memory. *)
Definition quiet (d : Z) (ee : option Z) (depth : Z) : Prop :=
  match ee with None => d + 1 < depth | Some e => e + 1 < depth ∧ d < e end.
Lemma quiet_facts d ee depth : quiet d ee depth →
  is_direct_child ee depth = false ∧ is_direct_child (Some d) depth && negb (is_some ee) = false ∧
  Some d ≠ Some depth ∧ ee ≠ Some depth ∧ quiet d ee (depth + 1).
Proof.
  unfold quiet, is_direct_child. destruct ee as [e|]; intros H.
  - split_and!; [apply Z.eqb_neq; lia|by rewrite andb_false_r|intros [=]; lia|intros [=]; lia|lia|lia].
  - split_and!; [done|rewrite andb_true_r; apply Z.eqb_neq; lia|intros [=]; lia|done|lia].
Qed.
Lemma egoes_quiet d ee out x : ∀ depth, quiet d ee depth → egoes (events_of x) (depth, Some d, ee, out) (depth, Some d, ee, out).
Proof.
  induction x as [n a ks IH|n a|t|] using xml_nested_ind; intros depth Hq; try (by apply egoes_other);
    destruct (quiet_facts d ee depth Hq) as (H1 & H2 & H3 & H4 & H5).
  - pose proof (egoes_elem n a ks depth (Some d) (Some d) ee ee out out out) as H.
    rewrite (bool_decide_false (Some d = Some depth)), (bool_decide_false (ee = Some depth)) in H by done.
    apply H; [by rewrite H1|rewrite <- andb_assoc, H2, !andb_false_r; done|].
    apply goes_same. eapply Forall_impl; [exact IH|]. intros x Hx. by apply Hx.
  - apply goes_one. intros f rest. unfold ewalk. cbn [eeprom_walk decode_name decode_attributes fst snd]. by rewrite H1.
Qed.
(** A direct child of the memory [e] of the device [d]. *)
Lemma egoes_category d e o l x : d < e →
  egoes (events_of x) (e + 1, Some d, Some e, o ++ [l]) (e + 1, Some d, Some e, o ++ [l ++ unknown is_known_eeprom [x]]).
Proof.
  intros Hde. assert (Hn : is_direct_child (Some e) (e + 1) = true) by (simpl; apply Z.eqb_refl).
  unfold unknown. simpl. destruct x as [n a ks|n a|t|]; simpl element_name; cbv iota beta;
    try (rewrite !app_nil_r; by apply egoes_other).
  - destruct (is_known_eeprom n) eqn:Hk.
    + pose proof (egoes_elem n a ks (e + 1) (Some d) (Some d) (Some e) (Some e) (o ++ [l]) (o ++ [l]) (o ++ [l])) as H.
      rewrite (bool_decide_false (Some d = Some (e + 1))), (bool_decide_false (Some e = Some (e + 1))) in H by (intros [=]; lia).
      rewrite !app_nil_r. apply H; [by rewrite Hk, andb_false_r|by rewrite !andb_false_r|].
      apply goes_same, Forall_forall. intros x _. apply egoes_quiet. simpl. lia.
    + intros fuel rest Hf. rewrite events_elem in *. destruct fuel as [|f]; [lens|].
      exists f. split; [lens|]. unfold ewalk. cbn [eeprom_walk decode_name decode_attributes fst snd].
      rewrite Hn, Hk. cbn [andb negb]. rewrite read_subtree_ok. cbv beta iota. by rewrite push_last_snoc.
  - apply goes_one. intros f rest. unfold ewalk. cbn [eeprom_walk decode_name decode_attributes fst snd]. rewrite Hn.
    destruct (is_known_eeprom n); cbn [andb negb]; [by rewrite !app_nil_r|by rewrite push_last_snoc].
Qed.
Lemma egoes_categories d e o ks : d < e → ∀ l,
  egoes (flat_map events_of ks) (e + 1, Some d, Some e, o ++ [l]) (e + 1, Some d, Some e, o ++ [l ++ unknown is_known_eeprom ks]).
Proof.
  intros Hde. induction ks as [|x ks IH]; intros l; [simpl; rewrite app_nil_r; apply goes_nil|].
  rewrite (unknown_cons _ x ks), app_assoc. eapply goes_app; [by apply egoes_category|]. apply IH.
Qed.
(** What a device's contents have of memory categories. *)
Definition kept_categories (ks : list xml) : list RawXml := flat_map (unknown is_known_eeprom) (children_named "Eeprom" ks).
Lemma kept_cons x ks : kept_categories (x :: ks) = kept_categories [x] ++ kept_categories ks.
Proof. unfold kept_categories, children_named. simpl. by rewrite app_nil_r, flat_map_app. Qed.
Lemma egoes_child d o l x :
  egoes (events_of x) (d + 1, Some d, None, o ++ [l]) (d + 1, Some d, None, o ++ [l ++ kept_categories [x]]).
Proof.
  unfold kept_categories. simpl. destruct x as [n a ks|n a|t|]; try (rewrite !app_nil_r; by apply egoes_other).
  - case_bool_decide as Hn; simpl; rewrite !app_nil_r.
    + pose proof (egoes_elem n a ks (d + 1) (Some d) (Some d) None (Some (d + 1)) (o ++ [l]) (o ++ [l])
        (o ++ [l ++ unknown is_known_eeprom ks])) as H.
      rewrite (bool_decide_false (Some d = Some (d + 1))), (bool_decide_true (Some (d + 1) = Some (d + 1))) in H
        by (done || (intros [=]; lia)).
      apply H; [done| |by apply egoes_categories; lia].
      rewrite (bool_decide_true (local_name n = "Eeprom")), andb_false_r by done. simpl. by rewrite Z.eqb_refl.
    + pose proof (egoes_elem n a ks (d + 1) (Some d) (Some d) None None (o ++ [l]) (o ++ [l]) (o ++ [l])) as H.
      rewrite (bool_decide_false (Some d = Some (d + 1))) in H by (intros [=]; lia).
      apply H; [done|by rewrite (bool_decide_false (local_name n = "Eeprom")), andb_false_r by done|].
      apply goes_same, Forall_forall. intros x _. apply egoes_quiet. simpl. lia.
  - rewrite !app_nil_r. by apply goes_one.
Qed.
Lemma egoes_children d o ks : ∀ l,
  egoes (flat_map events_of ks) (d + 1, Some d, None, o ++ [l]) (d + 1, Some d, None, o ++ [l ++ kept_categories ks]).
Proof.
  induction ks as [|x ks IH]; intros l; [simpl; rewrite app_nil_r; apply goes_nil|].
  rewrite (kept_cons x ks), app_assoc. eapply goes_app; [apply egoes_child|]. apply IH.
Qed.
Lemma egoes_outside x : ∀ depth out,
  egoes (events_of x) (depth, None, None, out) (depth, None, None, out ++ map kept_categories (outermost "Device" x)).
Proof.
  induction x as [n a ks IH|n a|t|] using xml_nested_ind; intros depth out; simpl outermost;
    try (simpl map; rewrite app_nil_r; by apply egoes_other).
  - case_bool_decide as Hn.
    + pose proof (egoes_elem n a ks depth None (Some depth) None None out (out ++ [[]]) (out ++ [kept_categories ks])) as H.
      rewrite (bool_decide_true (Some depth = Some depth)) in H by done. apply H; [done| |apply (egoes_children depth out ks [])].
      by rewrite (bool_decide_true (local_name n = "Device")) by done.
    + pose proof (egoes_elem n a ks depth None None None None out out (out ++ map kept_categories (flat_map (outermost "Device") ks))) as H.
      apply H; [done|by rewrite (bool_decide_false (local_name n = "Device")), !andb_false_r by done|].
      rewrite map_of_flat_map. apply (goes_adds ewalk (λ out, (depth + 1, None, None, out))).
      eapply Forall_impl; [exact IH|]. intros x Hx out'. apply Hx.
  - simpl map. rewrite app_nil_r. by apply goes_one.
Qed.
(** C32. On every well-formed document the two event loops, which only count depths,
    return one list per outermost device, in document order: the direct children whose
    name the schema does not know, and the unknown direct children of its memory
    elements, each with its attributes, its last text that is not blank and its
    children. *)
Theorem captures_exact (doc : list xml) :
  capture_device_extensions (flat_map events_of doc)
    = inl (map (unknown is_known_child) (flat_map (outermost "Device") doc)) ∧
  capture_eeprom_categories (flat_map events_of doc)
    = inl (map kept_categories (flat_map (outermost "Device") doc)).
Proof.
  rewrite !map_of_flat_map. split.
  - destruct (goes_adds dwalk (λ out, (0, None, out)) (λ x, map (unknown is_known_child) (outermost "Device" x)) doc)
      with (out := @nil (list RawXml)) (fuel := length (flat_map events_of doc)) (rest := @nil event) as (f & _ & H).
    + apply Forall_forall. intros x _ out. apply dgoes_outside.
    + by rewrite app_nil_r.
    + rewrite app_nil_r in H. unfold dwalk in H. simpl in H. unfold capture_device_extensions. rewrite H. by destruct f.
  - destruct (goes_adds ewalk (λ out, (0, None, None, out)) (λ x, map kept_categories (outermost "Device" x)) doc)
      with (out := @nil (list RawXml)) (fuel := length (flat_map events_of doc)) (rest := @nil event) as (f & _ & H).
    + apply Forall_forall. intros x _ out. apply egoes_outside.
    + by rewrite app_nil_r.
    + rewrite app_nil_r in H. unfold ewalk in H. simpl in H. unfold capture_eeprom_categories. rewrite H. by destruct f.
Qed.
End EsiRaw.
