(* ===== verification/Netcfg.v ===== *)
(** * The EtherCAT network configuration

    Models [taktora-ethercat-esi/src/resolve.rs], which selects the process data a
    device uses, [taktora-ethercat-netcfg/src/lib.rs], which turns the description of a
    network into its checked form, and [taktora-ethercat-netcfg-codegen/src/lib.rs],
    which validates that form and generates the map and the routings the EtherCAT
    connector starts from.

    The YAML package turns the document into the [..Dto] records.  The generated source
    is the values it declares; that a string is an identifier is decided by the package
    that makes them. *)

From stdpp Require Import base gmap list strings sorting.
From Stdlib Require Import ZArith Lia Ascii.
From S2P Require Import Prelude EsiModel EsiDto EsiRaw EcatPdi EcatBus.
#[local] Open Scope string_scope.
#[local] Open Scope list_scope.
#[local] Open Scope Z_scope.

Module Netcfg.
Import EsiModel.

(** ** The selected process data *)

(** [ResolvedPdoEntry] and [PdoEntry] of the configuration, field by field the same. *)
Record PdoEntry := MkPdoEntry { index : Z; bit_offset : Z; bit_length : Z }.
#[export] Instance pdo_entry_eq_dec : EqDecision PdoEntry.
Proof. solve_decision. Defined.
Record ResolvedAssignment := MkResolved { a_rx : list PdoEntry; a_tx : list PdoEntry }.
Inductive ResolveError :=
| NoAlternativeMappings
| MappingNotFound (requested : string) (available : list string)
| RNoDefaultMapping
| RUnknownAssignmentPdo (index : Z).

Definition has_pdo (pool : list Pdo) (i : Z) : bool := existsb (λ q, pdo_index q =? i) pool.
Fixpoint classify_loop (rx_pool tx_pool : list Pdo) (ids : list Z) (rx tx : list Z) : (list Z * list Z) + ResolveError :=
  match ids with
  | [] => inl (rx, tx)
  | i :: ids =>
      if has_pdo rx_pool i then classify_loop rx_pool tx_pool ids (rx ++ [i]) tx
      else if has_pdo tx_pool i then classify_loop rx_pool tx_pool ids rx (tx ++ [i])
      else inr (RUnknownAssignmentPdo i)
  end.
Definition classify_assignment (m : AlternativeSmMapping) (rx_pool tx_pool : list Pdo) : (list Z * list Z) + ResolveError :=
  classify_loop rx_pool tx_pool (flat_map (λ sm, map alt_pdo (assign_pdos sm)) (sm_assignments m)) [] [].
Definition pdo_total_bits (pool : list Pdo) (i : Z) : Z :=
  match List.find (λ p, pdo_index p =? i) pool with
  | None => 0
  | Some p => foldl (λ acc e, sat_add 16 acc (e_bit_length e)) 0 (pdo_entries p)
  end.
Fixpoint entries_from (pool : list Pdo) (offset : Z) (ids : list Z) : list PdoEntry :=
  match ids with
  | [] => []
  | i :: ids =>
      let bits := pdo_total_bits pool i in
      MkPdoEntry i offset bits :: entries_from pool (sat_add 16 offset bits) ids
  end.
Definition entries_for (pool : list Pdo) (ids : list Z) : list PdoEntry := entries_from pool 0 ids.
Definition synthetic (pool : list Pdo) : list Z :=
  map pdo_index (List.filter (λ p, EsiDto.is_some (pdo_sm p) || pdo_mandatory p) pool).
Definition select_mapping (ms : list AlternativeSmMapping) (name : option string) : AlternativeSmMapping + ResolveError :=
  match name with
  | Some n =>
      match List.find (λ m, bool_decide (mapping_name m = Some n)) ms with
      | Some m => inl m
      | None => inr (MappingNotFound n (omap mapping_name ms))
      end
  | None => match List.find mapping_default ms with Some m => inl m | None => inr RNoDefaultMapping end
  end.
Definition resolve_assignment (d : EsiDevice) (name : option string) : ResolvedAssignment + ResolveError :=
  match alt_sm_mappings d with
  | [] =>
      if EsiDto.is_some name then inr NoAlternativeMappings
      else inl (MkResolved (entries_for (rx_pdos d) (synthetic (rx_pdos d))) (entries_for (tx_pdos d) (synthetic (tx_pdos d))))
  | ms =>
      m <~ select_mapping ms name;
      c <~ classify_assignment m (rx_pdos d) (tx_pdos d);
      inl (MkResolved (entries_for (rx_pdos d) c.1) (entries_for (tx_pdos d) c.2))
  end.

(** ** The configuration; durations are in nanoseconds *)

Record BusConfig := MkBus {
  cycle_time : Z;
  distributed_clocks : bool;
  max_subdevices : Z;
  max_pdi_bytes : Z;
  default_nic : option string;
  ftti : Z;
}.
Inductive DeviceSource :=
| Inline (rx tx : list PdoEntry)
| Esi (path : string) (rx tx : list PdoEntry).
Definition src_rx (s : DeviceSource) : list PdoEntry := match s with Inline rx _ | Esi _ rx _ => rx end.
Definition src_tx (s : DeviceSource) : list PdoEntry := match s with Inline _ tx | Esi _ _ tx => tx end.

Definition DEFAULT_WATCHDOG_DIVIDER : Z := 2498.
Record SmWatchdogRegisters := MkRegisters { wd_divider : Z; wd_intervals : Z }.
Definition sm_watchdog_intervals (timeout_us : Z) : Z :=
  let ticks := div_ceil timeout_us 100 in
  if ticks <? 1 then 1 else if 2 ^ 16 - 1 <? ticks then 2 ^ 16 - 1 else ticks.
Definition registers_from_timeout_us (timeout_us : Z) : SmWatchdogRegisters :=
  MkRegisters DEFAULT_WATCHDOG_DIVIDER (sm_watchdog_intervals timeout_us).
Definition effective_timeout_ns (r : SmWatchdogRegisters) : Z := 40 * (wd_divider r + 2) * wd_intervals r.

Inductive SdoValueSpec := SU8 (v : Z) | SU16 (v : Z) | SU32 (v : Z) | SI8 (v : Z) | SI16 (v : Z) | SI32 (v : Z).
Record StartupSdoSpec := MkSdoSpec { sdo_index : Z; sdo_subindex : Z; sdo_value : SdoValueSpec }.
Record DeviceInstance := MkInstance {
  label : string;
  source : DeviceSource;
  dev_identity : option Identity;
  station_alias : option Z;
  address_override : option Z;
  sm_watchdog_timeout : option Z;
  sm_watchdog_enabled : option bool;
  sm_watchdog : option SmWatchdogRegisters;
  startup_sdos : list StartupSdoSpec;
  supports_coe : bool;
}.
Inductive ElementType := EU8 | EU16 | EU32 | EU64.
Record ChannelBinding := MkBinding {
  ch_name : string;
  ch_device : string;
  ch_direction : EcatPdi.PdoDirection;
  ch_bit_offset : Z;
  ch_bit_length : Z;
  ch_element_type : ElementType;
  ch_allow_overlap : bool;
}.
Record NetworkConfig := MkNet { schema_version : Z; bus : BusConfig; net_devices : list DeviceInstance; channels : list ChannelBinding }.

Inductive NetcfgError :=
| Yaml
| MultipleBuses (count : nat)
| Io
| EsiFailed (e : EsiError)
| EsiContradiction (label : string)
| AmbiguousEsiDevice (path : string) (count : nat)
| OpModeNotFound (label requested : string) (available : list string)
| OpModeOnFlatDevice (label : string)
| NoDefaultMapping (label : string)
| UnknownAssignmentPdo (label : string) (index : Z)
| RemoteEsiNotVendored (reference : string)
| SmWatchdogTimeoutTooLong (label : string) (effective_us bound_us : Z)
| SmWatchdogDisabled (label : string)
| SmWatchdogNotAttested (label : string)
| SdoValueOutOfRange (label : string) (index subindex : Z) (ty : string) (value : Z).

(** ** The deserialized document *)

Definition DEFAULT_FTTI_MS : Z := 100.
Record BusConfigDto := MkBusDto {
  b_cycle_time_ms : Z;
  b_distributed_clocks : bool;
  b_max_subdevices : Z;
  b_max_pdi_bytes : Z;
  b_default_nic : option string;
  b_ftti_ms : Z;
}.
Inductive SdoTypeDto := DU8 | DU16 | DU32 | DI8 | DI16 | DI32.
Definition sdo_type_name (t : SdoTypeDto) : string :=
  match t with DU8 => "u8" | DU16 => "u16" | DU32 => "u32" | DI8 => "i8" | DI16 => "i16" | DI32 => "i32" end.
Record StartupSdoDto := MkSdoDto { sd_index : Z; sd_subindex : Z; sd_ty : SdoTypeDto; sd_value : Z }.
Record PdosDto := MkPdosDto { p_rx : list PdoEntry; p_tx : list PdoEntry }.
Record DeviceInstanceDto := MkInstanceDto {
  i_label : string;
  i_esi : option string;
  i_op_mode : option string;
  i_pdos : PdosDto;
  i_identity : option Identity;
  i_station_alias : option Z;
  i_address_override : option Z;
  i_sm_watchdog_timeout_ms : option Z;
  i_sm_watchdog_enabled : option bool;
  i_startup_sdos : list StartupSdoDto;
}.
Record NetworkConfigDto := MkNetDto {
  n_schema_version : Z;
  n_bus : BusConfigDto;
  n_devices : list DeviceInstanceDto;
  n_channels : list ChannelBinding;
}.

(** ** Resolution *)

Definition from_millis (ms : Z) : Z := ms * 1000000.
Definition as_micros (d : Z) : Z := d / 1000.
Definition bus_from_dto (d : BusConfigDto) : BusConfig :=
  MkBus (from_millis (b_cycle_time_ms d)) (b_distributed_clocks d) (b_max_subdevices d) (b_max_pdi_bytes d)
    (b_default_nic d) (from_millis (b_ftti_ms d)).

Definition sdo_fits (t : SdoTypeDto) (v : Z) : option SdoValueSpec :=
  let within lo hi r := if (lo <=? v) && (v <? hi) then Some r else None in
  match t with
  | DU8 => within 0 (2 ^ 8) (SU8 v) | DU16 => within 0 (2 ^ 16) (SU16 v) | DU32 => within 0 (2 ^ 32) (SU32 v)
  | DI8 => within (- 2 ^ 7) (2 ^ 7) (SI8 v) | DI16 => within (- 2 ^ 15) (2 ^ 15) (SI16 v)
  | DI32 => within (- 2 ^ 31) (2 ^ 31) (SI32 v)
  end.
Definition convert_startup_sdo (label : string) (d : StartupSdoDto) : StartupSdoSpec + NetcfgError :=
  match sdo_fits (sd_ty d) (sd_value d) with
  | Some v => inl (MkSdoSpec (sd_index d) (sd_subindex d) v)
  | None => inr (SdoValueOutOfRange label (sd_index d) (sd_subindex d) (sdo_type_name (sd_ty d)) (sd_value d))
  end.

Definition esi_local_path (reference : string) : string + NetcfgError :=
  if EsiDto.is_some (strip_prefix "http://" reference) || EsiDto.is_some (strip_prefix "https://" reference)
  then inr (RemoteEsiNotVendored reference)
  else match strip_prefix "file://" reference with Some rest => inl rest | None => inl reference end.

Fixpoint output_watchdog_loop (saw_output : bool) (sms : list SyncManager) : option bool :=
  match sms with
  | [] => if saw_output then Some true else None
  | sm :: sms =>
      match sm_direction sm with
      | Output => if watchdog_trigger_enable sm then output_watchdog_loop true sms else Some false
      | _ => output_watchdog_loop saw_output sms
      end
  end.
Definition esi_output_watchdog_enabled := output_watchdog_loop false.

Definition map_resolve_error (label : string) (e : ResolveError) : NetcfgError :=
  match e with
  | NoAlternativeMappings => OpModeOnFlatDevice label
  | MappingNotFound requested available => OpModeNotFound label requested available
  | RNoDefaultMapping => NoDefaultMapping label
  | RUnknownAssignmentPdo index => UnknownAssignmentPdo label index
  end.
Definition lift_err {A E E'} (f : E → E') (m : A + E) : A + E' := match m with inl a => inl a | inr e => inr (f e) end.

Section resolve.
(** Reading a file, and what the XML package makes of its text. *)
Context (read_to_string : string → option string).
Context (xml : string → option EsiDto.EtherCatInfo * list EsiRaw.event * Z).

Definition parse_esi (text : string) : EsiFile + EsiError :=
  let '(info, evs, pos) := xml text in EsiRaw.parse text info evs pos.
Definition has_coe (d : EsiDevice) : bool :=
  match mailbox d with Some m => EsiDto.is_some (coe m) | None => false end.

(** What a device is resolved to: source, identity, evidence of the watchdog, CoE. *)
Definition resolve_esi (label reference : string) (op_mode : option string) (pdos : PdosDto) (ident : option Identity) :
  (DeviceSource * option Identity * option bool * bool) + NetcfgError :=
  path <~ esi_local_path reference;
  text <~ (match read_to_string path with Some t => inl t | None => inr Io end);
  file <~ lift_err EsiFailed (parse_esi text);
  match devices file with
  | [device] =>
      a <~ lift_err (map_resolve_error label) (resolve_assignment device op_mode);
      let has_inline := negb (bool_decide (p_rx pdos = [])) || negb (bool_decide (p_tx pdos = [])) in
      if has_inline && (negb (bool_decide (p_rx pdos = a_rx a)) || negb (bool_decide (p_tx pdos = a_tx a)))
      then inr (EsiContradiction label)
      else inl (Esi path (a_rx a) (a_tx a), Some (default (identity device) ident),
                esi_output_watchdog_enabled (sync_managers device), has_coe device)
  | ds => inr (AmbiguousEsiDevice path (length ds))
  end.
Definition resolve_device (d : DeviceInstanceDto) : (DeviceInstance * option bool) + NetcfgError :=
  if negb (EsiDto.is_some (i_esi d)) && EsiDto.is_some (i_op_mode d) then inr (OpModeOnFlatDevice (i_label d))
  else
    sdos <~ collect (convert_startup_sdo (i_label d)) (i_startup_sdos d);
    r <~ (match i_esi d with
          | Some reference => resolve_esi (i_label d) reference (i_op_mode d) (i_pdos d) (i_identity d)
          | None => inl (Inline (p_rx (i_pdos d)) (p_tx (i_pdos d)), i_identity d, None, true)
          end);
    let '(src, ident, evidence, coe) := r in
    inl (MkInstance (i_label d) src ident (i_station_alias d) (i_address_override d)
           (from_millis <$> i_sm_watchdog_timeout_ms d) (i_sm_watchdog_enabled d) None sdos coe, evidence).

Definition with_watchdog (d : DeviceInstance) (r : SmWatchdogRegisters) : DeviceInstance :=
  MkInstance (label d) (source d) (dev_identity d) (station_alias d) (address_override d) (sm_watchdog_timeout d)
    (sm_watchdog_enabled d) (Some r) (startup_sdos d) (supports_coe d).
(** [u32::try_from(..).expect(..)]. *)
Definition fits (w n : Z) : res Z := if n <? 2 ^ w then Ok n else Panic.
Definition attested (d : DeviceInstance) : bool := bool_decide (sm_watchdog_enabled d = Some true).
Definition resolve_and_validate_watchdog (d : DeviceInstance) (ftti_half_us : Z) (evidence : option bool) :
  res (DeviceInstance + NetcfgError) :=
  match src_rx (source d) with
  | [] => Ok (inl d)
  | _ =>
      timeout_us ← (match sm_watchdog_timeout d with None => fits 32 ftti_half_us | Some t => fits 32 (as_micros t) end);
      let registers := MkRegisters DEFAULT_WATCHDOG_DIVIDER (sm_watchdog_intervals timeout_us) in
      let effective_us := effective_timeout_ns registers / 1000 in
      if ftti_half_us <? effective_us
      then Ok (inr (SmWatchdogTimeoutTooLong (label d) effective_us ftti_half_us))
      else
        match source d with
        | Esi _ _ _ =>
            if negb (bool_decide (evidence = Some true)) && negb (attested d)
            then Ok (inr (SmWatchdogDisabled (label d))) else Ok (inl (with_watchdog d registers))
        | Inline _ _ =>
            if attested d then Ok (inl (with_watchdog d registers)) else Ok (inr (SmWatchdogNotAttested (label d)))
        end
  end.
Fixpoint resolve_devices (half : Z) (ds : list DeviceInstanceDto) : res (list DeviceInstance + NetcfgError) :=
  match ds with
  | [] => Ok (inl [])
  | d :: ds =>
      match resolve_device d with
      | inr e => Ok (inr e)
      | inl (d, evidence) =>
          r ← resolve_and_validate_watchdog d half evidence;
          match r with
          | inr e => Ok (inr e)
          | inl d => rest ← resolve_devices half ds; Ok (match rest with inl ds => inl (d :: ds) | inr e => inr e end)
          end
      end
  end.
Definition resolve_config (n : NetworkConfigDto) : res (NetworkConfig + NetcfgError) :=
  let b := bus_from_dto (n_bus n) in
  half ← fits 64 (as_micros (ftti b) / 2);
  ds ← resolve_devices half (n_devices n);
  Ok (match ds with inl ds => inl (MkNet (n_schema_version n) b ds (n_channels n)) | inr e => inr e end).
(** [count] documents in the stream, the one that is deserialized. *)
Definition parse (count : nat) (dto : option NetworkConfigDto) : res (NetworkConfig + NetcfgError) :=
  if (1 <? count)%nat then Ok (inr (MultipleBuses count))
  else match dto with None => Ok (inr Yaml) | Some n => resolve_config n end.
End resolve.
End Netcfg.
