(* ===== verification/NetcfgGen.v ===== *)
(** * Validation and generation of the network configuration

    Models [taktora-ethercat-netcfg-codegen/src/lib.rs]: the warnings, the build-time
    rules, and what the generated module declares: the map of the devices, a routing per
    channel, the expected identities.  The declared values are those of the connector
    ([EcatBus], [EcatPdi]). *)

From stdpp Require Import base gmap list strings sorting.
From Stdlib Require Import ZArith Lia Ascii.
From S2P Require Import Prelude EsiModel EcatPdi EcatBus Netcfg.
#[local] Open Scope string_scope.
#[local] Open Scope list_scope.
#[local] Open Scope Z_scope.

Module NetcfgGen.
Import Netcfg.
Import EcatPdi(PdoDirection, Rx, Tx, EthercatRouting, MkEcatRouting).
#[export] Existing Instance EcatPdi.pdo_direction_eq_dec.

Inductive ValidationError :=
| ZeroLengthSlice (channel : string)
| UnknownDevice (channel device : string)
| DuplicateChannelName (name : string)
| DuplicateAddress (address : Z) (first second : string)
| SliceOutOfImage (channel : string) (slice_end image_bits : Z)
| OverlappingSlices (a b : string).
Record Warning := UnmappedGap { gap_device : string; gap_direction : PdoDirection; start_bit : Z; end_bit : Z }.

(** ** Process images *)

Definition entries_of (d : DeviceInstance) (dir : PdoDirection) : list PdoEntry :=
  match dir with Rx => src_rx (source d) | Tx => src_tx (source d) end.
Definition entry_end (e : PdoEntry) : Z := bit_offset e + bit_length e.
Definition image_bits (d : DeviceInstance) (dir : PdoDirection) : Z :=
  foldr Z.max 0 (map entry_end (entries_of d dir)).

Definition range_le (a b : Z * Z) : Prop := a.1 ≤ b.1.
#[export] Instance range_le_dec a b : Decision (range_le a b).
Proof. unfold range_le. apply _. Defined.
Fixpoint gaps_from (cursor : Z) (ranges : list (Z * Z)) : list (Z * Z) :=
  match ranges with
  | [] => []
  | (start, stop) :: ranges =>
      (if cursor <? start then [(cursor, start)] else []) ++ gaps_from (Z.max cursor stop) ranges
  end.
Definition gaps_for (d : DeviceInstance) (dir : PdoDirection) : list (Z * Z) :=
  gaps_from 0 (merge_sort range_le (map (λ e, (bit_offset e, entry_end e)) (entries_of d dir))).
Definition gap_warnings_for (d : DeviceInstance) (dir : PdoDirection) : list Warning :=
  map (λ g, UnmappedGap (label d) dir g.1 g.2) (gaps_for d dir).
Definition warnings (c : NetworkConfig) : list Warning :=
  flat_map (λ d, flat_map (gap_warnings_for d) [Tx; Rx]) (net_devices c).

(** ** Validation; sums of 32 bits and addresses of 16 are checked *)

Definition add_u32 (a b : Z) : res Z := fits 32 (a + b).
(** Collecting into a [HashMap]: the last device of a label counts. *)
Definition by_label {A} (l : list (string * A)) : gmap string A := foldl (λ m x, <[x.1 := x.2]> m) ∅ l.
Definition device_by_label (c : NetworkConfig) : gmap string DeviceInstance :=
  by_label (map (λ d, (label d, d)) (net_devices c)).
Definition validate_channel (m : gmap string DeviceInstance) (ch : ChannelBinding) : res (option ValidationError) :=
  if ch_bit_length ch =? 0 then Ok (Some (ZeroLengthSlice (ch_name ch)))
  else
    match m !! ch_device ch with
    | None => Ok (Some (UnknownDevice (ch_name ch) (ch_device ch)))
    | Some d =>
        slice_end ← add_u32 (ch_bit_offset ch) (ch_bit_length ch);
        let image := image_bits d (ch_direction ch) in
        Ok (if image <? slice_end then Some (SliceOutOfImage (ch_name ch) slice_end image) else None)
    end.
(** The first fault of a loop. *)
Fixpoint first_fault {A} (f : A → res (option ValidationError)) (l : list A) : res (option ValidationError) :=
  match l with
  | [] => Ok None
  | a :: l => r ← f a; match r with Some e => Ok (Some e) | None => first_fault f l end
  end.
Fixpoint duplicate_name (seen : gset string) (l : list ChannelBinding) : option ValidationError :=
  match l with
  | [] => None
  | ch :: l =>
      if bool_decide (ch_name ch ∈ seen) then Some (DuplicateChannelName (ch_name ch))
      else duplicate_name ({[ch_name ch]} ∪ seen) l
  end.
Definition device_address (i : nat) (d : DeviceInstance) : res Z :=
  match address_override d with
  | Some a => Ok a
  | None => n ← fits 16 (Z.of_nat i); fits 16 (0x1000 + n)
  end.
Fixpoint duplicate_address (i : nat) (seen : gmap Z string) (ds : list DeviceInstance) : res (option ValidationError) :=
  match ds with
  | [] => Ok None
  | d :: ds =>
      a ← device_address i d;
      match seen !! a with
      | Some prior => Ok (Some (DuplicateAddress a prior (label d)))
      | None => duplicate_address (S i) (<[a := label d]> seen) ds
      end
  end.
Definition overlap_pair (a b : ChannelBinding) : res (option ValidationError) :=
  if negb (bool_decide (ch_device a = ch_device b)) || negb (bool_decide (ch_direction a = ch_direction b)) then Ok None
  else if ch_allow_overlap a || ch_allow_overlap b then Ok None
  else
    a_end ← add_u32 (ch_bit_offset a) (ch_bit_length a);
    b_end ← add_u32 (ch_bit_offset b) (ch_bit_length b);
    Ok (if (ch_bit_offset a <? b_end) && (ch_bit_offset b <? a_end)
        then Some (OverlappingSlices (ch_name a) (ch_name b)) else None).
Fixpoint overlapping (l : list ChannelBinding) : res (option ValidationError) :=
  match l with
  | [] => Ok None
  | a :: l => r ← first_fault (overlap_pair a) l; match r with Some e => Ok (Some e) | None => overlapping l end
  end.
Definition validate (c : NetworkConfig) : res (option ValidationError) :=
  r ← first_fault (validate_channel (device_by_label c)) (channels c);
  match r with
  | Some e => Ok (Some e)
  | None =>
      match duplicate_name ∅ (channels c) with
      | Some e => Ok (Some e)
      | None =>
          r ← duplicate_address 0 ∅ (net_devices c);
          match r with
          | Some e => Ok (Some e)
          | None => overlapping (channels c)
          end
      end
  end.

(** ** Generation *)

Definition is_alphanumeric (c : ascii) : bool :=
  let n := EsiModel.code c in
  ((48 <=? n) && (n <=? 57)) || ((65 <=? n) && (n <=? 90)) || ((97 <=? n) && (n <=? 122)).
(** A character outside ASCII becomes one underscore, at its first byte. *)
Fixpoint sanitize_ident (name : string) : string :=
  match name with
  | EmptyString => EmptyString
  | String c r =>
      let n := EsiModel.code c in
      if (128 <=? n) && (n <? 192) then sanitize_ident r
      else String (if is_alphanumeric c then EsiModel.to_upper c else "_"%char) (sanitize_ident r)
  end.
Record RoutingConst := MkConst { c_ident : string; c_routing : EthercatRouting; c_name_ident : string; c_name : string }.
Record ExpectedIdentity := MkExpected {
  x_address : Z;
  x_vendor_id : Z;
  x_product_code : Z;
  x_revision : Z;
  x_station_alias : option Z;
}.
Record Generated := MkGenerated {
  pdo_map : list EcatBus.SubDeviceMap;
  routing_consts : list RoutingConst;
  expected_identities : list ExpectedIdentity;
}.
Definition pdo_entry_tokens (e : PdoEntry) : EcatBus.PdoEntry := EcatBus.MkPdo (index e) (bit_offset e) (bit_length e).
Definition sdo_value_tokens (v : SdoValueSpec) : EcatBus.SdoValue :=
  match v with
  | SU8 v => EcatBus.U8 v | SU16 v => EcatBus.U16 v | SU32 v => EcatBus.U32 v
  | SI8 v => EcatBus.I8 v | SI16 v => EcatBus.I16 v | SI32 v => EcatBus.I32 v
  end.
Definition startup_sdo_tokens (s : StartupSdoSpec) : EcatBus.StartupSdo :=
  EcatBus.MkStartup (sdo_index s) (sdo_subindex s) (sdo_value_tokens (sdo_value s)).
Definition nonempty {A} (l : list A) : bool := match l with [] => false | _ => true end.
Definition map_entry (a : Z) (d : DeviceInstance) : EcatBus.SubDeviceMap :=
  let rx := src_rx (source d) in
  let tx := src_tx (source d) in
  let expected_wkc := (if nonempty rx then 1 else 0) + 2 * (if nonempty tx then 1 else 0) in
  let '(rx, tx) := if supports_coe d then (rx, tx) else ([], []) in
  let m := EcatBus.map_new a (map pdo_entry_tokens rx) (map pdo_entry_tokens tx) expected_wkc in
  let m := match sm_watchdog d with
           | Some w => EcatBus.with_sm_watchdog m (EcatBus.MkWatchdog (wd_divider w) (wd_intervals w))
           | None => m
           end in
  if nonempty (startup_sdos d) then EcatBus.with_startup_sdos m (map startup_sdo_tokens (startup_sdos d)) else m.
(** The devices with their addresses, in bus order. *)
Fixpoint addressed (i : nat) (ds : list DeviceInstance) : res (list (Z * DeviceInstance)) :=
  match ds with
  | [] => Ok []
  | d :: ds => a ← device_address i d; rest ← addressed (S i) ds; Ok ((a, d) :: rest)
  end.
Definition identity_entry (x : Z * DeviceInstance) : option ExpectedIdentity :=
  match dev_identity x.2 with
  | None => None
  | Some i =>
      Some (MkExpected x.1 (EsiModel.vendor_id i) (EsiModel.product_code i) (EsiModel.revision i) (station_alias x.2))
  end.
Definition address_by_label (l : list (Z * DeviceInstance)) : gmap string Z := by_label (map (λ x, (label x.2, x.1)) l).

Section generate.
(** Whether a string is an identifier: [format_ident] panics when it is not. *)
Context (valid_ident : string → bool).

Definition format_ident (s : string) : res string := if valid_ident s then Ok s else Panic.
Definition channel_const_tokens (addresses : gmap string Z) (ch : ChannelBinding) : res RoutingConst :=
  ident ← format_ident (sanitize_ident (ch_name ch));
  name_ident ← format_ident (sanitize_ident (ch_name ch) +:+ "_NAME");
  a ← expect (addresses !! ch_device ch);
  Ok (MkConst ident (MkEcatRouting a (ch_direction ch) (ch_bit_offset ch) (ch_bit_length ch)) name_ident (ch_name ch)).
Fixpoint routing_const_tokens (addresses : gmap string Z) (l : list ChannelBinding) : res (list RoutingConst) :=
  match l with
  | [] => Ok []
  | ch :: l => c ← channel_const_tokens addresses ch; cs ← routing_const_tokens addresses l; Ok (c :: cs)
  end.
Definition generate (c : NetworkConfig) : res (Generated + ValidationError) :=
  r ← validate c;
  match r with
  | Some e => Ok (inr e)
  | None =>
      devs ← addressed 0 (net_devices c);
      consts ← routing_const_tokens (address_by_label devs) (channels c);
      Ok (inl (MkGenerated (map (λ x, map_entry x.1 x.2) devs) consts (omap identity_entry devs)))
  end.
End generate.
End NetcfgGen.
