(* ===== verification/NetcfgOk.v ===== *)
(** * The network configuration is what the connector needs

    Every output device of an accepted configuration carries a watchdog inside the fault
    budget, computed as the connector computes it; what is generated from a validated
    configuration addresses distinct devices with slices that lie in their images and do
    not overlap. *)

From stdpp Require Import base gmap list strings sorting.
From Stdlib Require Import ZArith Lia Ascii.
From S2P Require Import Prelude EsiModel EsiRaw EsiDto EcatPdi EcatBus Netcfg NetcfgGen.
#[local] Open Scope string_scope.
#[local] Open Scope list_scope.
#[local] Open Scope Z_scope.

Module NetcfgOk.
Import Netcfg NetcfgGen.

(** ** Watchdogs *)

(** The connector quantizes in the same way. *)
Lemma registers_agree t :
  let r := registers_from_timeout_us t in EcatBus.MkWatchdog (wd_divider r) (wd_intervals r) = EcatBus.from_timeout_us t.
Proof. done. Qed.
Lemma intervals_bounds t : 1 ≤ sm_watchdog_intervals t ≤ 2 ^ 16 - 1.
Proof. unfold sm_watchdog_intervals. destruct (Z.ltb_spec (div_ceil t 100) 1); [lia|]. destruct (Z.ltb_spec (2 ^ 16 - 1) (div_ceil t 100)); lia. Qed.
Lemma effective_value t : effective_timeout_ns (registers_from_timeout_us t) = 100000 * sm_watchdog_intervals t.
Proof. unfold effective_timeout_ns, registers_from_timeout_us, DEFAULT_WATCHDOG_DIVIDER. simpl. lia. Qed.
Lemma fits_Ok w n m : fits w n = Ok m → m = n ∧ n < 2 ^ w.
Proof. unfold fits. destruct (Z.ltb_spec n (2 ^ w)); [|done]. by intros [= <-]. Qed.
Lemma fits_lt w n : n < 2 ^ w → fits w n = Ok n.
Proof. intros H. unfold fits. by rewrite (proj2 (Z.ltb_lt _ _)). Qed.

(** What the sync managers of a description say of the watchdog. *)
Definition outputs_watched (sms : list EsiModel.SyncManager) : Prop :=
  Exists (λ sm, EsiModel.sm_direction sm = EsiModel.Output) sms ∧
  Forall (λ sm, EsiModel.sm_direction sm = EsiModel.Output → EsiModel.watchdog_trigger_enable sm = true) sms.
Lemma output_loop sms : ∀ saw, output_watchdog_loop saw sms = Some true ↔
  (saw = true ∨ Exists (λ sm, EsiModel.sm_direction sm = EsiModel.Output) sms) ∧
  Forall (λ sm, EsiModel.sm_direction sm = EsiModel.Output → EsiModel.watchdog_trigger_enable sm = true) sms.
Proof.
  induction sms as [|sm sms IH]; intros saw; simpl.
  - rewrite Exists_nil. destruct saw; split; try done; [|by intros [[|] _]]. intros _. split; [by left|constructor].
  - rewrite Exists_cons, Forall_cons. destruct (EsiModel.sm_direction sm) eqn:E.
    + destruct (EsiModel.watchdog_trigger_enable sm); [rewrite IH; naive_solver|]. split; [done|]. intros (_ & H & _). by specialize (H eq_refl).
    + rewrite IH. naive_solver.
    + rewrite IH. naive_solver.
Qed.
Lemma evidence_spec sms : esi_output_watchdog_enabled sms = Some true ↔ outputs_watched sms.
Proof. unfold esi_output_watchdog_enabled, outputs_watched. rewrite output_loop. naive_solver. Qed.

Section parse.
Context (rd : string → option string) (xml : string → option EsiDto.EtherCatInfo * list EsiRaw.event * Z).

(** The evidence a device comes with. *)
Definition evidence_ok (d : DeviceInstance) (ev : option bool) : Prop :=
  ev = Some true → ∃ path rx tx text file device, source d = Esi path rx tx ∧ rd path = Some text ∧
    parse_esi xml text = inl file ∧ EsiModel.devices file = [device] ∧ outputs_watched (EsiModel.sync_managers device).
Lemma resolve_device_ok i d ev : resolve_device rd xml i = inl (d, ev) →
  label d = i_label i ∧ sm_watchdog d = None ∧ sm_watchdog_timeout d = (from_millis <$> i_sm_watchdog_timeout_ms i) ∧
  evidence_ok d ev.
Proof.
  unfold resolve_device. case_match; [done|]. destruct (EsiModel.collect _ _) as [sdos|]; [|done].
  destruct (i_esi i) as [reference|].
  - destruct (resolve_esi _ _ _ _ _ _ _) as [[[[src ident] evidence] coe]|e] eqn:E; [|done]. intros [= <- <-]. split_and!; [done..|].
    unfold resolve_esi in E. destruct (esi_local_path reference) as [path|]; [|done]. destruct (rd path) as [text|] eqn:Er; [|done].
    destruct (lift_err EsiFailed (parse_esi xml text)) as [file|] eqn:Ep; [|done].
    destruct (EsiModel.devices file) as [|device [|? ?]] eqn:Ed; [done| |done].
    destruct (lift_err (map_resolve_error _) _) as [a|]; [|done].
    match type of E with (if ?b then _ else _) = _ => destruct b; [done|] end. injection E as <- <- <- <-.
    intros Hev. apply evidence_spec in Hev. exists path, (a_rx a), (a_tx a), text, file, device. split_and!; try done.
    destruct (parse_esi xml text); [|done]. simpl in Ep. by injection Ep as <-.
  - intros [= <- <-]. by split_and!.
Qed.

Definition timeout_of (d : DeviceInstance) (half : Z) : Z :=
  match sm_watchdog_timeout d with None => half | Some t => as_micros t end.
(** A device with outputs and its registers. *)
Definition watched (half : Z) (d : DeviceInstance) : Prop :=
  (src_rx (source d) = [] ∧ sm_watchdog d = None) ∨
  (src_rx (source d) ≠ [] ∧ sm_watchdog d = Some (registers_from_timeout_us (timeout_of d half)) ∧
   effective_timeout_ns (registers_from_timeout_us (timeout_of d half)) ≤ 1000 * half ∧
   (attested d = true ∨ ∃ path rx tx text file device, source d = Esi path rx tx ∧ rd path = Some text ∧
      parse_esi xml text = inl file ∧ EsiModel.devices file = [device] ∧ outputs_watched (EsiModel.sync_managers device))).
Lemma watchdog_ok d half ev d' : sm_watchdog d = None → evidence_ok d ev →
  resolve_and_validate_watchdog d half ev = Ok (inl d') →
  watched half d' ∧ label d' = label d.
Proof.
  intros Hn He. unfold resolve_and_validate_watchdog. destruct (src_rx (source d)) as [|p rx] eqn:Erx.
  { intros [= <-]. split; [by left|done]. }
  set (half_or := match sm_watchdog_timeout d with None => fits 32 half | Some t => fits 32 (as_micros t) end).
  destruct half_or as [t|] eqn:Et; [|done]. simpl.
  assert (Ht : t = timeout_of d half).
  { unfold timeout_of, half_or in *. destruct (sm_watchdog_timeout d); by apply fits_Ok in Et as [? _]. }
  rewrite Ht. change (MkRegisters DEFAULT_WATCHDOG_DIVIDER (sm_watchdog_intervals (timeout_of d half)))
    with (registers_from_timeout_us (timeout_of d half)).
  destruct (Z.ltb_spec half (effective_timeout_ns (registers_from_timeout_us (timeout_of d half)) / 1000)) as [|Hle]; [done|].
  rewrite effective_value in Hle.
  assert (Hw : effective_timeout_ns (registers_from_timeout_us (timeout_of d half)) ≤ 1000 * half).
  { rewrite effective_value. replace (100000 * sm_watchdog_intervals (timeout_of d half))
      with (100 * sm_watchdog_intervals (timeout_of d half) * 1000) in * by lia. rewrite Z.div_mul in Hle by lia. lia. }
  destruct (source d) as [rx0 tx0|path rx0 tx0] eqn:Es.
  - destruct (attested d) eqn:Ha; [|done]. intros [= <-]. split; [|done]. right. simpl. rewrite Es. simpl in *. subst rx0.
    split_and!; [done|done|done|by left].
  - match goal with |- (if ?b then _ else _) = _ → _ => destruct b eqn:Hc; [done|] end. intros [= <-]. split; [|done]. right. simpl. rewrite Es. simpl in *. subst rx0.
    split_and!; [done|done|done|]. apply andb_false_iff in Hc as [Hc|Hc]; apply negb_false_iff in Hc.
    + right. apply bool_decide_eq_true in Hc. specialize (He Hc). by rewrite Es in He.
    + by left.
Qed.
Lemma resolve_devices_ok half l : ∀ ds, resolve_devices rd xml half l = Ok (inl ds) →
  Forall (watched half) ds ∧ map label ds = map i_label l.
Proof.
  induction l as [|i l IH]; intros ds; simpl; [intros [= <-]; by split|].
  destruct (resolve_device rd xml i) as [[d ev]|] eqn:E; [|done]. destruct (resolve_device_ok i d ev E) as (H1 & H2 & _ & H4).
  destruct (resolve_and_validate_watchdog d half ev) as [[d'|]|] eqn:Ew; simpl; [|done|done].
  destruct (watchdog_ok d half ev d' H2 H4 Ew) as [H5 H6].
  destruct (resolve_devices rd xml half l) as [[ds'|]|] eqn:Er; simpl; [|done|done]. intros [= <-].
  destruct (IH ds' eq_refl) as [H7 H8]. simpl. split; [by constructor|]. by rewrite H8, H6, H1.
Qed.
Lemma resolve_devices_total half l : half < 2 ^ 32 →
  Forall (λ i, match i_sm_watchdog_timeout_ms i with Some t => t ≤ 4294967 | None => True end) l →
  no_panic (resolve_devices rd xml half l).
Proof.
  intros Hh. induction 1 as [|i l Hi _ IH]; simpl; [by eexists|].
  destruct (resolve_device rd xml i) as [[d ev]|] eqn:E; [|by eexists]. destruct (resolve_device_ok i d ev E) as (_ & _ & H3 & _).
  assert (Hw : no_panic (resolve_and_validate_watchdog d half ev)).
  { unfold resolve_and_validate_watchdog. destruct (src_rx (source d)); [by eexists|]. rewrite H3.
    assert (Hf : no_panic (match from_millis <$> i_sm_watchdog_timeout_ms i with None => fits 32 half | Some t => fits 32 (as_micros t) end)).
    { destruct (i_sm_watchdog_timeout_ms i) as [t|]; simpl; [|rewrite fits_lt by done; by eexists].
      unfold as_micros, from_millis. replace (t * 1000000) with (t * 1000 * 1000) by lia. rewrite Z.div_mul by lia.
      rewrite fits_lt by lia. by eexists. }
    destruct Hf as [t ->]. simpl. repeat case_match; by eexists. }
  destruct Hw as [r ->]. simpl. destruct r; [|by eexists]. destruct IH as [rest ->]. simpl. by eexists.
Qed.
End parse.

(** C31. A configuration is read without a panic when its fault interval is at most
    8589934 ms and no watchdog override exceeds 4294967 ms.  In an accepted one the
    devices are those of the document, in order; a device without outputs has no
    watchdog, and every other has the one the connector computes from its override, or
    from half the fault interval: it is not disabled, it expires within half the fault
    interval, and it is attested by the operator or by the description file, all of
    whose output sync managers enable it. *)
Theorem watchdogs_in_budget (rd : string → option string)
    (xml : string → option EsiDto.EtherCatInfo * list EsiRaw.event * Z) (count : nat) (n : NetworkConfigDto) :
  (b_ftti_ms (n_bus n) ≤ 8589934 →
   Forall (λ i, match i_sm_watchdog_timeout_ms i with Some t => t ≤ 4294967 | None => True end) (n_devices n) →
   no_panic (parse rd xml count (Some n))) ∧
  (∀ cfg, parse rd xml count (Some n) = Ok (inl cfg) →
   map label (net_devices cfg) = map i_label (n_devices n) ∧
   ∀ d, d ∈ net_devices cfg →
     match src_rx (source d) with
     | [] => sm_watchdog d = None
     | _ =>
         ∃ r, sm_watchdog d = Some r ∧
           EcatBus.MkWatchdog (wd_divider r) (wd_intervals r)
             = EcatBus.from_timeout_us (match sm_watchdog_timeout d with
                                        | Some t => as_micros t
                                        | None => as_micros (ftti (bus cfg)) / 2
                                        end) ∧
           0 < effective_timeout_ns r ∧ 2 * effective_timeout_ns r ≤ ftti (bus cfg) ∧
           (attested d = true ∨
            ∃ path rx tx text file device, source d = Esi path rx tx ∧ rd path = Some text ∧
              parse_esi xml text = inl file ∧ EsiModel.devices file = [device] ∧
              outputs_watched (EsiModel.sync_managers device))
     end).
Proof.
  unfold parse, resolve_config. set (b := bus_from_dto (n_bus n)).
  assert (Hf : ftti b = b_ftti_ms (n_bus n) * 1000000) by done.
  assert (Hm : as_micros (ftti b) = b_ftti_ms (n_bus n) * 1000).
  { rewrite Hf. unfold as_micros. replace (b_ftti_ms (n_bus n) * 1000000) with (b_ftti_ms (n_bus n) * 1000 * 1000) by lia.
    by rewrite Z.div_mul. }
  destruct (1 <? count)%nat; [split; [by eexists|done]|]. split.
  - intros Hb Hi. rewrite fits_lt by (rewrite Hm; apply Z.div_lt_upper_bound; lia). cbn [mbind res_bind].
    destruct (resolve_devices_total rd xml (as_micros (ftti b) / 2) (n_devices n)) as [r ->]; [|done|by eexists].
    rewrite Hm. apply Z.div_lt_upper_bound; lia.
  - intros cfg. destruct (fits 64 (as_micros (ftti b) / 2)) as [half|] eqn:Eh; [|done]. apply fits_Ok in Eh as [-> _]. cbn [mbind res_bind].
    destruct (resolve_devices rd xml (as_micros (ftti b) / 2) (n_devices n)) as [[ds|]|] eqn:Er; cbn [mbind res_bind]; [|done|done].
    intros [= <-]. cbn [net_devices bus]. destruct (resolve_devices_ok rd xml _ _ ds Er) as [Hw Hl]. split; [done|]. intros d Hd.
    rewrite Forall_forall in Hw. destruct (Hw d Hd) as [[-> Hn]|(Hrx & Hs & He & Ha)]; [done|].
    destruct (src_rx (source d)) eqn:Es; [done|]. eexists. split; [exact Hs|]. split.
    { unfold timeout_of. by destruct (sm_watchdog_timeout d). }
    split; [rewrite effective_value; pose proof (intervals_bounds (timeout_of d (as_micros (ftti b) / 2))); lia|].
    split; [|done]. rewrite Hm in *. pose proof (Z.mul_div_le (b_ftti_ms (n_bus n) * 1000) 2). lia.
Qed.

(** An output and an input device on a bus with the default fault interval. *)
Definition demo_device (l : string) (rx tx : list PdoEntry) (timeout : option Z) : DeviceInstanceDto :=
  MkInstanceDto l None None (MkPdosDto rx tx) None None None timeout (Some true) [].
Definition demo_channel (name device : string) (dir : EcatPdi.PdoDirection) (offset bits : Z) : ChannelBinding :=
  MkBinding name device dir offset bits EU16 false.
Definition demo_dto : NetworkConfigDto :=
  MkNetDto 1 (MkBusDto 2 false 16 256 None DEFAULT_FTTI_MS)
    [demo_device "valves" [MkPdoEntry 0x1600 0 16; MkPdoEntry 0x1601 16 16] [] (Some 20);
     demo_device "sensors" [] [MkPdoEntry 0x1A00 0 16] None]
    [demo_channel "valve.left" "valves" EcatPdi.Rx 0 16; demo_channel "valve.right" "valves" EcatPdi.Rx 16 16;
     demo_channel "level" "sensors" EcatPdi.Tx 0 16].
Definition no_files (path : string) : option string := None.
Definition no_xml (text : string) : option EsiDto.EtherCatInfo * list EsiRaw.event * Z := (None, [], 0).
Definition demo_config : NetworkConfig :=
  match parse no_files no_xml 1 (Some demo_dto) with
  | Ok (inl cfg) => cfg
  | _ => MkNet 0 (bus_from_dto (n_bus demo_dto)) [] []
  end.
Lemma watchdogs_in_budget_witness :
  no_panic (parse no_files no_xml 1 (Some demo_dto)) ∧
  map sm_watchdog (net_devices demo_config) = [Some (MkRegisters 2498 200); None] ∧
  map label (net_devices demo_config) = ["valves"; "sensors"].
Proof.
  assert (H : parse no_files no_xml 1 (Some demo_dto) = Ok (inl demo_config)) by (vm_compute; reflexivity).
  split; [|split; [vm_compute; reflexivity|exact (proj1 (proj2 (watchdogs_in_budget no_files no_xml 1 demo_dto) demo_config H))]].
  apply (proj1 (watchdogs_in_budget no_files no_xml 1 demo_dto)); [vm_compute; discriminate|].
  repeat constructor; vm_compute; discriminate.
Defined.

(** ** Validation *)

Lemma first_fault_none {A} (f : A → res (option ValidationError)) l : first_fault f l = Ok None ↔ Forall (λ a, f a = Ok None) l.
Proof.
  induction l as [|a l IH]; simpl; [split; [constructor|done]|]. rewrite Forall_cons, <- IH.
  destruct (f a) as [[e|]|]; simpl; naive_solver.
Qed.
Lemma duplicate_name_none l : ∀ seen, duplicate_name seen l = None ↔
  NoDup (map ch_name l) ∧ ∀ ch, ch ∈ l → ch_name ch ∉ seen.
Proof.
  induction l as [|ch l IH]; intros seen; simpl.
  { split; [|done]. intros _. split; [constructor|]. intros ch Hch. by apply not_elem_of_nil in Hch. }
  rewrite NoDup_cons. case_bool_decide as Hs.
  - split; [done|]. intros [_ H]. exfalso. apply (H ch); [by left|done].
  - rewrite IH. split.
    + intros [Hn Hd]. split_and!; [|done|].
      * intros Hin. apply list_elem_of_fmap in Hin as (c & Hc & Hin). apply (Hd c Hin). rewrite <- Hc. set_solver.
      * intros c Hc. apply elem_of_cons in Hc as [->|Hc]; [done|]. specialize (Hd c Hc). set_solver.
    + intros ([Hn Hd] & Hs'). split; [done|]. intros c Hc Hin. apply elem_of_union in Hin as [Hin|Hin].
      * apply elem_of_singleton in Hin. apply Hn. rewrite <- Hin. apply list_elem_of_fmap. by exists c.
      * apply (Hs' c); [by right|done].
Qed.
Lemma duplicate_address_none ds : ∀ i seen, duplicate_address i seen ds = Ok None →
  ∃ devs, addressed i ds = Ok devs ∧ map snd devs = ds ∧ NoDup (map fst devs) ∧ ∀ x, x ∈ devs → seen !! x.1 = None.
Proof.
  induction ds as [|d ds IH]; intros i seen; simpl.
  { intros _. exists []. split_and!; [done|done|constructor|]. intros x Hx. by apply not_elem_of_nil in Hx. }
  destruct (device_address i d) as [a|]; simpl; [|done]. destruct (seen !! a) eqn:Ea; [done|].
  intros H. destruct (IH _ _ H) as (devs & -> & Hs & Hn & Hd). simpl. exists ((a, d) :: devs). split_and!; [done| | |]; simpl.
  - by rewrite Hs.
  - apply NoDup_cons. split; [|done]. intros Hin. apply list_elem_of_fmap in Hin as (x & Hx & Hin).
    specialize (Hd x Hin). by rewrite <- Hx, lookup_insert_eq in Hd.
  - intros x Hx. apply elem_of_cons in Hx as [->|Hx]; [done|]. specialize (Hd x Hx). by apply lookup_insert_None in Hd as [? _].
Qed.
Lemma overlapping_none l : overlapping l = Ok None →
  ∀ i j a b, (i < j)%nat → l !! i = Some a → l !! j = Some b → overlap_pair a b = Ok None.
Proof.
  induction l as [|c l IH]; simpl; [done|]. destruct (first_fault (overlap_pair c) l) as [[e|]|] eqn:Ef; simpl; [done| |done].
  intros Ho i j a b Hij Hi Hj. destruct j as [|j]; [lia|]. simpl in Hj. destruct i as [|i]; simpl in Hi.
  - injection Hi as ->. apply first_fault_none in Ef. by apply (Forall_lookup_1 _ _ _ _ Ef Hj).
  - apply (IH Ho i j); [lia|done|done].
Qed.

(** The rules, declaratively. *)
Definition channel_end (ch : ChannelBinding) : Z := ch_bit_offset ch + ch_bit_length ch.
Definition apart (a b : ChannelBinding) : Prop :=
  ch_device a ≠ ch_device b ∨ ch_direction a ≠ ch_direction b ∨ ch_allow_overlap a = true ∨ ch_allow_overlap b = true ∨
  channel_end a ≤ ch_bit_offset b ∨ channel_end b ≤ ch_bit_offset a.
Lemma overlap_pair_apart a b : overlap_pair a b = Ok None → apart a b.
Proof.
  unfold overlap_pair, apart. destruct (decide (ch_device a = ch_device b)) as [E1|]; [|auto].
  destruct (decide (ch_direction a = ch_direction b)) as [E2|]; [|auto]. rewrite !bool_decide_true by done. simpl.
  destruct (ch_allow_overlap a); [auto|]. destruct (ch_allow_overlap b); [auto|]. simpl. unfold add_u32.
  destruct (fits 32 (ch_bit_offset a + _)) as [x|] eqn:Ex; cbn [mbind res_bind]; [|done].
  destruct (fits 32 (ch_bit_offset b + _)) as [y|] eqn:Ey; cbn [mbind res_bind]; [|done].
  apply fits_Ok in Ex as [-> _]. apply fits_Ok in Ey as [-> _].
  destruct (_ && _) eqn:E; [done|]. intros _. unfold channel_end. apply andb_false_iff in E as [E|E]; apply Z.ltb_ge in E; auto 6.
Qed.

(** The last device of a label counts, both for the rules and for the addresses. *)
Lemma by_label_fmap {A B} (f : A → B) (l : list (string * A)) : by_label (map (λ x, (x.1, f x.2)) l) = f <$> by_label l.
Proof.
  unfold by_label. assert (H : ∀ m : gmap string A, foldl (λ m x, <[x.1:=x.2]> m) (f <$> m) (map (λ x, (x.1, f x.2)) l)
    = f <$> foldl (λ m x, <[x.1:=x.2]> m) m l).
  { induction l as [|x l IH]; intros m; simpl; [done|]. by rewrite <- IH, fmap_insert. }
  by rewrite <- H, fmap_empty.
Qed.
Lemma by_label_elem {A} (l : list (string * A)) k a : by_label l !! k = Some a → (k, a) ∈ l.
Proof.
  unfold by_label. induction l as [|[k' a'] l IH] using rev_ind; [done|]. rewrite foldl_app. simpl.
  intros H. apply lookup_insert_Some in H as [[-> ->]|[_ H]]; apply elem_of_app; [right; by left|left; by apply IH].
Qed.
Definition last_of (devs : list (Z * DeviceInstance)) : gmap string (Z * DeviceInstance) :=
  by_label (map (λ x, (label x.2, x)) devs).
Lemma device_by_label_last c devs : map snd devs = net_devices c → device_by_label c = snd <$> last_of devs.
Proof. intros Hs. unfold device_by_label, last_of. by rewrite <- Hs, <- by_label_fmap, !map_map. Qed.
Lemma address_by_label_last devs : address_by_label devs = fst <$> last_of devs.
Proof. unfold address_by_label, last_of. by rewrite <- by_label_fmap, map_map. Qed.
Lemma last_of_elem devs k x : last_of devs !! k = Some x → x ∈ devs ∧ label x.2 = k.
Proof. intros H. apply by_label_elem, list_elem_of_fmap in H as (y & [= -> ->] & Hy). done. Qed.

Lemma validate_spec c : validate c = Ok None →
  ∃ devs, addressed 0 (net_devices c) = Ok devs ∧ map snd devs = net_devices c ∧ NoDup (map fst devs) ∧
    NoDup (map ch_name (channels c)) ∧
    (∀ ch, ch ∈ channels c → ch_bit_length ch ≠ 0 ∧ ∃ x, last_of devs !! ch_device ch = Some x ∧
       channel_end ch < 2 ^ 32 ∧ channel_end ch ≤ image_bits x.2 (ch_direction ch)) ∧
    (∀ i j a b, (i < j)%nat → channels c !! i = Some a → channels c !! j = Some b → apart a b).
Proof.
  unfold validate. destruct (first_fault _ _) as [[e|]|] eqn:Ef; simpl; [done| |done].
  destruct (duplicate_name ∅ (channels c)) eqn:En; [done|].
  destruct (duplicate_address 0 ∅ (net_devices c)) as [[e|]|] eqn:Ea; simpl; [done| |done]. intros Ho.
  destruct (duplicate_address_none _ _ _ Ea) as (devs & Hd & Hs & Hn & _). exists devs. split_and!; [done..| | |].
  - by apply duplicate_name_none in En as [? _].
  - intros ch Hch. apply first_fault_none in Ef. rewrite Forall_forall in Ef. specialize (Ef ch Hch). unfold validate_channel in Ef.
    destruct (Z.eqb_spec (ch_bit_length ch) 0) as [|Hz]; [done|]. split; [done|].
    rewrite (device_by_label_last c devs Hs), lookup_fmap in Ef. destruct (last_of devs !! ch_device ch) as [x|]; [|done].
    simpl in Ef. exists x. split; [done|]. destruct (add_u32 _ _) as [e|] eqn:Ee; [|done]. apply fits_Ok in Ee as [-> Hb].
    simpl in Ef. destruct (Z.ltb_spec (image_bits x.2 (ch_direction ch)) (ch_bit_offset ch + ch_bit_length ch)); [done|].
    by split.
  - intros i j a b Hij Hi Hj. apply overlap_pair_apart. by eapply overlapping_none.
Qed.

(** ** Generation *)

Lemma map_entry_address a d : EcatBus.address (map_entry a d) = a.
Proof. unfold map_entry. destruct (supports_coe d), (sm_watchdog d), (nonempty (startup_sdos d)); done. Qed.
Lemma routing_consts_ok vi addresses l : ∀ cs, routing_const_tokens vi addresses l = Ok cs →
  Forall2 (λ ch r, c_name r = ch_name ch ∧ ∃ a, addresses !! ch_device ch = Some a ∧
    c_routing r = EcatPdi.MkEcatRouting a (ch_direction ch) (ch_bit_offset ch) (ch_bit_length ch)) l cs.
Proof.
  induction l as [|ch l IH]; intros cs; simpl; [intros [= <-]; constructor|]. unfold channel_const_tokens, format_ident.
  destruct (vi (sanitize_ident (ch_name ch))); simpl; [|done]. destruct (vi (sanitize_ident (ch_name ch) +:+ "_NAME")); simpl; [|done].
  destruct (addresses !! ch_device ch) as [a|] eqn:Ea; simpl; [|done].
  destruct (routing_const_tokens vi addresses l) as [cs'|]; simpl; [|done]. intros [= <-]. constructor; [|by apply IH].
  simpl. split; [done|]. by exists a.
Qed.
(** Addresses tell devices apart. *)
Lemma same_address (devs : list (Z * DeviceInstance)) x y : NoDup (map fst devs) → x ∈ devs → y ∈ devs → x.1 = y.1 → x = y.
Proof.
  intros Hn Hx Hy He. apply list_elem_of_lookup in Hx as [i Hi]. apply list_elem_of_lookup in Hy as [j Hj].
  assert (i = j) as <-; [|congruence]. apply (NoDup_lookup (map fst devs) i j x.1); [done| |].
  - by rewrite list_lookup_fmap, Hi.
  - by rewrite list_lookup_fmap, Hj, He.
Qed.

(** C30. What is generated from a validated configuration fits the connector: the devices
    of the map have distinct addresses, one per device, in bus order; every channel has
    a routing under its own name that addresses the device of its label and whose slice,
    never empty, lies in every image that holds the process data of that device and
    direction, so the connector copies it without a bounds error; and two channels on
    the same device and direction, neither of which allows overlaps, have disjoint
    slices. *)
Theorem generated_fit_runtime (vi : string → bool) (c : NetworkConfig) (g : Generated) :
  Forall (λ ch, is_u 32 (ch_bit_offset ch) ∧ is_u 16 (ch_bit_length ch)) (channels c) →
  generate vi c = Ok (inl g) →
  NoDup (map EcatBus.address (pdo_map g)) ∧ length (pdo_map g) = length (net_devices c) ∧
  NoDup (map c_name (routing_consts g)) ∧ length (routing_consts g) = length (channels c) ∧
  (∀ i ch r, channels c !! i = Some ch → routing_consts g !! i = Some r →
     c_name r = ch_name ch ∧ 0 < EcatPdi.bit_length (c_routing r) ∧ EcatPdi.routing_ok (c_routing r) ∧
     ∃ k d m, net_devices c !! k = Some d ∧ pdo_map g !! k = Some m ∧ label d = ch_device ch ∧
       EcatPdi.subdevice_address (c_routing r) = EcatBus.address m ∧
       EcatPdi.pdo_direction (c_routing r) = ch_direction ch ∧
       ∀ pdi buf, image_bits d (ch_direction ch) ≤ 8 * len pdi → ch_bit_length ch ≤ 8 * len buf →
         EcatPdi.slice_fits pdi (c_routing r) buf) ∧
  (∀ i j a b ra rb, i ≠ j → channels c !! i = Some a → channels c !! j = Some b →
     routing_consts g !! i = Some ra → routing_consts g !! j = Some rb →
     ch_allow_overlap a = false → ch_allow_overlap b = false →
     EcatPdi.subdevice_address (c_routing ra) = EcatPdi.subdevice_address (c_routing rb) →
     EcatPdi.pdo_direction (c_routing ra) = EcatPdi.pdo_direction (c_routing rb) →
     EcatPdi.disjoint_slices (c_routing ra) (c_routing rb)).
Proof.
  intros Ht. unfold generate. destruct (validate c) as [[e|]|] eqn:Ev; cbn [mbind res_bind]; [done| |done].
  destruct (validate_spec c Ev) as (devs & Hd & Hs & Hn & Hnames & Hch & Hap). rewrite Hd. cbn [mbind res_bind].
  destruct (routing_const_tokens _ _ _) as [cs|] eqn:Er; cbn [mbind res_bind]; [|done]. intros [= <-].
  apply routing_consts_ok in Er. cbn [pdo_map routing_consts].
  assert (Hr : ∀ i ch r, channels c !! i = Some ch → cs !! i = Some r → c_name r = ch_name ch ∧
    ∃ x, last_of devs !! ch_device ch = Some x ∧
      c_routing r = EcatPdi.MkEcatRouting x.1 (ch_direction ch) (ch_bit_offset ch) (ch_bit_length ch)).
  { intros i ch r Hi Hj. destruct (Forall2_lookup_lr _ _ _ _ _ _ Er Hi Hj) as (Hnm & a & Ha & Hc). split; [done|].
    rewrite address_by_label_last, lookup_fmap in Ha. destruct (last_of devs !! ch_device ch) as [x|]; [|done].
    exists x. injection Ha as <-. done. }
  assert (Haddr : map EcatBus.address (map (λ x, map_entry x.1 x.2) devs) = map fst devs).
  { rewrite map_map. apply map_ext. intros x. apply map_entry_address. }
  split_and!.
  - by rewrite Haddr.
  - by rewrite length_map, <- Hs, length_map.
  - replace (map c_name cs) with (map ch_name (channels c)); [done|]. clear -Er. by induction Er as [|??? ? [? _] _ IH]; simpl; f_equal.
  - symmetry. by eapply Forall2_length.
  - intros i ch r Hi Hj. destruct (Hr i ch r Hi Hj) as (Hnm & x & Hx & Hc). split; [done|].
    destruct (Forall_lookup_1 _ _ _ _ Ht Hi) as [Ho Hl]. destruct (Hch ch) as (Hz & x' & Hx' & _ & He); [by eapply list_elem_of_lookup_2|].
    assert (x' = x) as -> by congruence. rewrite Hc. split; [simpl; unfold is_u in Hl; lia|]. split; [done|].
    destruct (last_of_elem _ _ _ Hx) as [Hin Hlab]. apply list_elem_of_lookup in Hin as [k Hk].
    exists k, x.2, (map_entry x.1 x.2). split_and!; try done.
    + by rewrite <- Hs, list_lookup_fmap, Hk.
    + by rewrite list_lookup_fmap, Hk.
    + simpl. by rewrite map_entry_address.
    + intros pdi buf H1 H2. unfold EcatPdi.slice_fits, channel_end in *. simpl. lia.
  - intros i j a b ra rb Hij Hi Hj Hra Hrb Ho1 Ho2 Haa Hdd. destruct (Hr i a ra Hi Hra) as (_ & x & Hx & Hcx).
    destruct (Hr j b rb Hj Hrb) as (_ & y & Hy & Hcy). rewrite Hcx, Hcy in *. simpl in *.
    destruct (last_of_elem _ _ _ Hx) as [Hix Hlx]. destruct (last_of_elem _ _ _ Hy) as [Hiy Hly].
    assert (x = y) as <- by by eapply same_address. assert (Hdev : ch_device a = ch_device b) by congruence.
    assert (Hapart : apart a b ∨ apart b a).
    { destruct (Nat.lt_total i j) as [?|[?|?]]; [left; by apply (Hap i j)|done|right; by apply (Hap j i)]. }
    unfold apart, EcatPdi.disjoint_slices, channel_end in *. simpl.
    destruct Hapart as [[?|[?|[?|[?|[?|?]]]]]|[?|[?|[?|[?|[?|?]]]]]]; (congruence || lia).
Qed.

Definition any_ident (s : string) : bool := true.
Definition demo_generated : Generated :=
  match generate any_ident demo_config with Ok (inl g) => g | _ => MkGenerated [] [] [] end.
Lemma generated_fit_runtime_witness :
  map EcatBus.address (pdo_map demo_generated) = [0x1000; 0x1001] ∧
  map c_ident (routing_consts demo_generated) = ["VALVE_LEFT"; "VALVE_RIGHT"; "LEVEL"] ∧
  NoDup (map EcatBus.address (pdo_map demo_generated)).
Proof.
  assert (Hg : generate any_ident demo_config = Ok (inl demo_generated)) by (vm_compute; reflexivity).
  assert (Ht : Forall (λ ch, is_u 32 (ch_bit_offset ch) ∧ is_u 16 (ch_bit_length ch)) (n_channels demo_dto)).
  { repeat constructor; vm_compute; (done || discriminate). }
  assert (Hc : channels demo_config = n_channels demo_dto) by (vm_compute; reflexivity).
  rewrite <- Hc in Ht. split; [vm_compute; reflexivity|]. split; [vm_compute; reflexivity|].
  exact (proj1 (generated_fit_runtime any_ident demo_config demo_generated Ht Hg)).
Defined.
End NetcfgOk.
